(* ===== verification/_CoqProject ===== *)
-Q . S2P
Prelude.v
Slices.v
U16Set.v
ArrayMerge.v
Words.v
Popcount.v
Bitwise.v
Extract.v
ArrayContainer.v
RunContainer.v
RunBitset.v
BitsetContainer.v
ContainerOps.v
Container.v
ContainerStore.v
Bitmap.v
BitmapReads.v
BitmapSets.v
BitmapSpec.v
QueryLexer.v
QueryParser.v
Bytes.v
HashTable.v
DirStorage.v
BlobStore.v
BlobStoreSpec.v
BlobOpen.v
OrdMap.v
OverlayBudget.v
FieldIndex.v
FieldChange.v
FieldUpdates.v
FieldSpill.v
FieldCommit.v
FieldReads.v
FieldIndexSpec.v
FieldAccounting.v
FieldRoom.v
DynFieldIndex.v
DynIndexSpec.v
DynReopen.v
QueryEval.v
QuerySpec.v
CommitRounds.v
LogProgress.v
SegmentedLog.v
LogFrames.v
LogOpen.v
LogWrites.v
LogReads.v
LogSpec.v
Wal.v
WalObserver.v
WalRetire.v
WalInvariant.v
WalUpkeep.v
WalFlush.v
WalMeta.v
WalCrash.v
WalSafety.v
Keys.v
LsmFilters.v
SsTable.v
FrameReader.v
SsTableSpec.v
FrameReaderSpec.v
SkipList.v
SkipListSpec.v
MemTable.v
LsmTree.v
LsmCompact.v
LsmReads.v
LsmFlushes.v
LsmMerges.v
LsmRefine.v
LsmDurable.v
LsmTables.v
LsmSpec.v
