(* ===== verification/Prelude.v ===== *)
(** * minnal: a verification library for the storage and index engine

    minnal is a document store in Rust (src/minnal_db).  This library models the index
    engine bottom-up, from the set operations on 16-bit arrays to queries over typed field
    indexes and the files they live in, and states for each part what it promises to the
    part above.

    ** Parts and files

    Containers, in src/minnal_db/src/index/: [ArrayMerge], [Popcount], [Bitwise] and
    [Extract] are the kernels of simd_support/ (scalar, NEON, AVX2 and AVX-512, chosen by
    the class [Cpu]); [ArrayContainer], [RunContainer], [BitsetContainer] and [RunBitset]
    the three layouts of container/; [ContainerOps] and [Container] the tagged union with
    its promotions.  [U16Set], [Words] and [Slices] hold the sets of 16-bit values, the
    64-bit words and the list lemmas they share.

    Bitmaps: [ContainerStore] is container_store.rs as the class [Store] with its laws and
    its heap implementation; [Bitmap] every operation of bitmap.rs over any [Store], with
    [BitmapReads], [BitmapSets] and [BitmapSpec] for the reads, the set operations and the
    refinement of a set of 128-bit values.

    Files: [Bytes] models mapped regions as lists of bytes with little-endian fields;
    [HashTable] open addressing with linear probing; [DirStorage] is storage.rs (the
    directory of a bitmap's containers); [BlobStore] blob_store.rs, [BlobStoreSpec] its
    refinement of a map and [BlobOpen] the validation and repair of the files at open.

    Field indexes: [OrdMap] is the B-tree map as a sorted list; [OverlayBudget] is
    overlay_budget.rs; [FieldIndex] is field/field_index.rs, with [FieldChange],
    [FieldUpdates], [FieldSpill], [FieldCommit] and [FieldReads] for its stored side and one
    container's change, the writes, the two phases of a spill, what they do to slots and
    files and the reads; [FieldIndexSpec] the refinement
    of a relation between values and rows; [FieldAccounting] and [FieldRoom] the byte
    charges and the completion of a spill.  [DynFieldIndex] is field/value.rs: the index of
    any value type with its keymap; [DynIndexSpec] and [DynReopen] its
    invariant across spills and its reopening.

    Queries, in index/query/: [QueryLexer] is lexer.rs and error.rs, [QueryParser]
    parser.rs, [QueryEval] eval.rs, [QuerySpec] the meaning of queries.

    Logs: [LogProgress] holds the positions and the progress file of db/segmented_log.rs,
    [CommitRounds] is db/commit_rounds.rs (group commit as a machine of callers),
    [SegmentedLog] segmented_log.rs with db/segment_prep.rs.  [LogFrames], [LogOpen],
    [LogWrites] and [LogReads] are what a walk over a segment reads, opening and the
    invariant, the writes and the reads; [LogSpec] puts them under crashes.

    [Wal] is db/wal.rs: the main log's entries, its metadata file and its scans.
    [WalObserver] is the retirement progress of db/database.rs ([WalPersistObserver]) with
    the write path, recovery and db/wal_gc.rs around it; [WalRetire] the machine of writers,
    flushes, saves, collections and power losses.  Its invariant ([WalInvariant]: every
    offset kept is a claim about where writes are) is kept by the writes' steps
    ([WalUpkeep]), by seals and flushes ([WalUpkeep], [WalFlush]), by the rest ([WalMeta])
    and by recovery ([WalCrash]); [WalSafety] draws the contract from it.

    The LSM tree, src/minnal_db/src/store/lsm/: [Keys] compares byte strings
    (support/simd_support.rs) and finds a key's bucket; [LsmFilters] is bloom.rs and
    sparse_index.rs; [SsTable] the format of tables, their writers and readers, and
    [FrameReader] the buffered walks of lsm_tree.rs, with [SsTableSpec] and
    [FrameReaderSpec] for what they compute over the list of a table's entries;
    [SkipList] is skip_list.rs over its arenas, [SkipListSpec] its invariant, and [MemTable]
    the class of what the tree needs of a memtable, which the skip list discharges.
    [LsmTree] is the tree's layers, reads, writes and flushes, [LsmCompact] the merge, the
    passes and opening.  [LsmReads] says what each layer holds, that its summaries are sound
    and that a read finds the newest copy held, [LsmFlushes] and [LsmMerges] what the operations do to the layers, [LsmRefine] that they refine a map of
    last writes ([Reps], kept by every [step]), [LsmDurable] that the files
    do; [LsmTables] and [LsmSpec] draw the contracts, over concrete
    parameters in their witnesses.  A step of the tree is one call that runs alone:
    writes of one key come in the order of their sequences ([op_ok]), as the bucket locks
    above the tree make them; arenas stay below their 32-bit limits.

    ** What the theorems show

    Refinement and functional behaviour: bitmaps are sets, blob stores are maps, field
    indexes are relations, queries select the rows that match them, the skip list is an
    ordered map and the LSM tree a map of last writes through flushes, merges and reopening.
    Equivalence: filters, summaries and indexes spare reads and change none; buffered walks
    visit what a plain pass does.  Round trips: printing and parsing of queries, the
    directory codec, tables, closing and opening an index.  Errors: the type errors of queries, range predicates that panic.
    Crash safety: [BlobOpen.open_repairs]; the
    records of a log that were committed survive power losses and reopening
    ([LogSpec.acknowledged_records_survive]); callers of a commit return, and only once
    their bytes are durable ([CommitRounds]); an acknowledged write of the database stays in
    a memtable or a table through flushes, collections and power losses, recovery succeeds
    and replays what the tables lack ([WalSafety]).  Liveness and bounds: a spill completes in the
    room it has, the overlay's charges are exact.  Each theorem carries the claim id C<n>
    of its manifest entry; a witness beside it applies it to concrete data.

    ** Conventions

    Machine integers are [Z], wrapped where the source's arithmetic may leave its width;
    results are [result]; [None] is a panic.  A mutated object is passed as a value: the
    program is safe Rust, so no two live references alias a mutated object.  Locks are not
    modelled (but for [CommitRounds], whose steps interleave): an operation is one step of the machines ([field_step], [dyn_exec]), which is
    what holding the write lock makes it.  Fuel: the lexer's list of tokens is bounded by the
    input's length + 1, the parser takes 4 * length + 3, probing takes the table's capacity,
    a bisection the entry count + 1, container iterators the cardinality + 1; termination
    theorems show that these never run out.

    Code that is not under src/ is a class with its laws: [Cpu] (target and detected
    features), [HeapCost] and [HeapBytes] (allocator sizes), [Crc] (crc32fast), [Rkyv]
    (container serialization), [RkyvEntry] and [RkyvSst] (log and table entries), [Murmur3]
    (mm3h), [CompareCpu] (the comparison the target compiles), [DirOrder] (the order a
    directory is listed in), [MapOrder] (the order in which a hash map yields its keys).
    [Io] carries what the operating system answers.

    ** Not modelled

    Counters of versions and slots are unbounded (128-bit and 64-bit in the source, never
    reached).  I/O failures other than a failed sync, file locks, background threads, metrics,
    logging and floating-point statistics are left out.  Blob store compaction, the mapped
    backing of container_store.rs, the scans of the LSM tree over several layers, its
    manifest, the value log, the row map and the parts listed as not modelled in the
    manifest (vector search, HTTP service, document schema) are left for later; the
    orchestration in db/ and doc_store/ is calls between threads and files around the parts
    modelled here. *)
From stdpp Require Export base tactics numbers option list sorting gmap strings.
From Stdlib Require Export ZArith Lia.

#[global] Set Default Goal Selector "!".
#[global] Open Scope Z_scope.

Declare Scope minnal_scope.
Delimit Scope minnal_scope with minnal.

(** ** Results: Rust's [Result] and the [?] operator *)

Inductive result (A E : Type) : Type :=
| Ok (a : A)
| Err (e : E).
Arguments Ok {A E} a.
Arguments Err {A E} e.

Definition result_bind {A B E : Type} (m : result A E) (k : A → result B E) : result B E :=
  match m with Ok a => k a | Err e => Err e end.

Notation "'let?' x ':=' m 'in' k" := (result_bind m (λ x, k))
  (at level 10, x pattern, m at level 100, k at level 200) : minnal_scope.

Definition is_ok {A E : Type} (r : result A E) : bool :=
  match r with Ok _ => true | Err _ => false end.

#[global] Instance result_eq_dec {A E} `{EqDecision A, EqDecision E} : EqDecision (result A E).
Proof. solve_decision. Defined.

Lemma result_bind_Ok {A B E} (m : result A E) (k : A → result B E) b :
  result_bind m k = Ok b ↔ ∃ a, m = Ok a ∧ k a = Ok b.
Proof. destruct m; naive_solver. Qed.

(** ** Machine integers

    A [w]-bit unsigned integer is a [Z] in [0, 2^w); arithmetic that the source
    leaves to the default operators wraps, as it does in the release profile. *)

Definition wrap (w x : Z) : Z := x mod 2 ^ w.

Definition U16_MAX : Z := 65535.
Definition U64_MAX : Z := 18446744073709551615.
Definition USIZE_MAX : Z := U64_MAX.

Definition u16 (x : Z) : Prop := 0 ≤ x < 65536.
Definition u64 (x : Z) : Prop := 0 ≤ x < 2 ^ 64.
Definition u128 (x : Z) : Prop := 0 ≤ x < 2 ^ 128.
#[global] Instance u16_dec x : Decision (u16 x).
Proof. unfold u16. apply _. Defined.
#[global] Instance u64_dec x : Decision (u64 x).
Proof. unfold u64. apply _. Defined.
#[global] Instance u128_dec x : Decision (u128 x).
Proof. unfold u128. apply _. Defined.

Definition u16_add (a b : Z) : Z := wrap 16 (a + b).
Definition u16_sub (a b : Z) : Z := wrap 16 (a - b).
Definition u16_mul (a b : Z) : Z := wrap 16 (a * b).
Definition u16_saturating_add (a b : Z) : Z := Z.min U16_MAX (a + b).

Lemma wrap_small w x : 0 ≤ x < 2 ^ w → wrap w x = x.
Proof. apply Z.mod_small. Qed.

Lemma u16_add_small a b : 0 ≤ a + b < 65536 → u16_add a b = a + b.
Proof. intros. by apply wrap_small. Qed.
Lemma u16_sub_small a b : 0 ≤ a - b < 65536 → u16_sub a b = a - b.
Proof. intros. by apply wrap_small. Qed.
Lemma u16_mul_small a b : 0 ≤ a * b < 65536 → u16_mul a b = a * b.
Proof. intros. by apply wrap_small. Qed.

Create Rewrite HintDb minnal.
Create Rewrite HintDb u16.
#[export] Hint Rewrite u16_add_small u16_sub_small u16_mul_small using (unfold u16 in *; lia) : u16.

(** [u16_simpl] removes the wrap-around where the operands are in range. *)
Ltac u16_simpl := autorewrite with u16 in *.

(** Splits every conjunction and existential of the context. *)
Ltac inv_all :=
  repeat match goal with
  | H : _ ∧ _ |- _ => destruct H
  | H : ∃ _, _ |- _ => destruct H
  | H : Some _ = Some _ |- _ => injection H as H; subst
  | H : Ok _ = Ok _ |- _ => injection H as H; subst
  end.

(** Case analysis on a boolean comparison in the goal or the context. *)
Ltac case_cmp :=
  match goal with
  | |- context [ if ?b then _ else _ ] => destruct b eqn:?
  | H : context [ if ?b then _ else _ ] |- _ => destruct b eqn:?
  end.

(** ** Lengths as integers *)

Definition zlen {A} (l : list A) : Z := Z.of_nat (length l).

Lemma zlen_nil {A} : zlen (@nil A) = 0.
Proof. done. Qed.
Lemma zlen_cons {A} (x : A) l : zlen (x :: l) = 1 + zlen l.
Proof. unfold zlen. cbn [length]. lia. Qed.
Lemma zlen_app {A} (l k : list A) : zlen (l ++ k) = zlen l + zlen k.
Proof. unfold zlen. rewrite length_app. lia. Qed.
Lemma zlen_fmap {A B} (f : A → B) l : zlen (f <$> l) = zlen l.
Proof. unfold zlen. by rewrite length_fmap. Qed.
Lemma zlen_nonneg {A} (l : list A) : 0 ≤ zlen l.
Proof. unfold zlen. lia. Qed.
Lemma zlen_0_nil {A} (l : list A) : zlen l = 0 ↔ l = [].
Proof. unfold zlen. destruct l; split; intros; simplify_eq; done. Qed.
#[global] Instance zlen_Permutation {A} : Proper ((≡ₚ) ==> (=)) (@zlen A).
Proof. intros l k Hlk. unfold zlen. by rewrite Hlk. Qed.
#[export] Hint Rewrite @zlen_nil @zlen_cons @zlen_app @zlen_fmap : minnal.

(** ** Ascending lists: strictly increasing, as the engine keeps its sorted arrays *)

Abbreviation ascending := (StronglySorted Z.lt).

#[global] Instance Zlt_antisymm : AntiSymm (=) Z.lt.
Proof. intros x y ??. lia. Qed.

Lemma ascending_NoDup l : ascending l → NoDup l.
Proof.
  induction 1 as [|x l Hl IH Hx]; constructor; [|done].
  intros Hin. rewrite Forall_forall in Hx. specialize (Hx x Hin). lia.
Qed.

(** Two ascending lists with the same elements are equal: a set of integers has
    one representation as a sorted array. *)
Lemma ascending_ext l k :
  ascending l → ascending k → (∀ v, v ∈ l ↔ v ∈ k) → l = k.
Proof.
  intros Hl Hk Hext. apply (StronglySorted_unique Z.lt); [done..|].
  apply NoDup_Permutation; auto using ascending_NoDup.
Qed.

Lemma ascending_cons x l : ascending (x :: l) ↔ Forall (Z.lt x) l ∧ ascending l.
Proof. apply StronglySorted_cons. Qed.

Lemma ascending_app l k :
  ascending (l ++ k) ↔ (∀ x y, x ∈ l → y ∈ k → x < y) ∧ ascending l ∧ ascending k.
Proof. apply StronglySorted_app. Qed.

Lemma ascending_filter (P : Z → Prop) `{∀ x, Decision (P x)} (l : list Z) :
  ascending l → ascending (filter P l).
Proof.
  induction 1 as [|x l Hl IH Hx]; [constructor|].
  rewrite filter_cons. case_decide; [|done].
  apply ascending_cons. split; [|done].
  rewrite Forall_forall in Hx |- *. intros y. rewrite list_elem_of_filter. naive_solver.
Qed.

Lemma ascending_lookup l i j x y :
  ascending l → l !! i = Some x → l !! j = Some y → (i < j)%nat → x < y.
Proof.
  intros Hl. revert i j. induction Hl as [|z l Hl IH Hz]; intros i j Hi Hj Hij; [done|].
  destruct j as [|j]; [lia|]. destruct i as [|i]; simplify_eq/=.
  - rewrite Forall_forall in Hz. apply Hz. by eapply list_elem_of_lookup_2.
  - eapply IH; [done..|lia].
Qed.

Lemma ascending_fmap (f : Z → Z) l :
  (∀ x y, x < y → f x < f y) → ascending l → ascending (f <$> l).
Proof. intros Hf. by apply StronglySorted_fmap. Qed.

Lemma seqZ_ascending a n : ascending (seqZ a n).
Proof.
  unfold seqZ. generalize (Z.to_nat n) as m. intros m. revert a.
  induction m as [|m IH]; intros a; cbn; [constructor|].
  apply ascending_cons. split.
  - apply Forall_forall. intros y. rewrite list_elem_of_fmap.
    intros (k & -> & Hk%elem_of_seq). lia.
  - rewrite <-fmap_S_seq, <-list_fmap_compose.
    eapply (eq_ind _ (λ l, ascending l)); [apply (IH (a + 1))|].
    apply list_fmap_ext. intros i k _. cbn. lia.
Qed.

(** ** Filters *)

Lemma filter_ext_in {A} (P Q : A → Prop) `{∀ x, Decision (P x), ∀ x, Decision (Q x)} (l : list A) :
  (∀ x, x ∈ l → P x ↔ Q x) → filter P l = filter Q l.
Proof.
  induction l as [|x l IH]; intros Hl; [done|].
  rewrite !filter_cons, IH by (intros y Hy; apply Hl; by right).
  pose proof (Hl x (list_elem_of_here x l)). repeat case_decide; tauto.
Qed.

Lemma filter_none {A} (P : A → Prop) `{∀ x, Decision (P x)} (l : list A) :
  (∀ x, x ∈ l → ¬ P x) → filter P l = [].
Proof.
  induction l as [|x l IH]; intros Hl; [done|].
  rewrite filter_cons_False by (apply Hl; by left). apply IH. intros y Hy. apply Hl. by right.
Qed.

Lemma filter_all {A} (P : A → Prop) `{∀ x, Decision (P x)} (l : list A) :
  (∀ x, x ∈ l → P x) → filter P l = l.
Proof.
  induction l as [|x l IH]; intros Hl; [done|].
  rewrite filter_cons_True by (apply Hl; by left). f_equal.
  apply IH. intros y Hy. apply Hl. by right.
Qed.

(** A head and a tail bound of an ascending list. *)
Lemma ascending_head_le x l v : ascending (x :: l) → v ∈ x :: l → x ≤ v.
Proof.
  rewrite ascending_cons, Forall_forall. intros [Hx _] [->|Hv]%elem_of_cons; [lia|].
  apply Hx in Hv. lia.
Qed.

Lemma ascending_below x y l : ascending (y :: l) → x < y → x ∉ y :: l.
Proof. intros Hl Hxy Hx. pose proof (ascending_head_le _ _ _ Hl Hx). lia. Qed.

Lemma ascending_inv x l : ascending (x :: l) → ascending l ∧ ∀ y, y ∈ l → x < y.
Proof. rewrite ascending_cons, Forall_forall. naive_solver. Qed.

Lemma filter_fmap {A B} (f : A → B) (P : B → Prop) `{∀ x, Decision (P x)} (l : list A) :
  filter P (f <$> l) = f <$> filter (λ x, P (f x)) l.
Proof.
  induction l as [|x l IH]; [done|]. rewrite fmap_cons, !filter_cons.
  case_decide; rewrite IH; done.
Qed.

Lemma Forall_filter_of {A} (Q P : A → Prop) `{∀ x, Decision (P x)} (l : list A) :
  Forall Q l → Forall Q (filter P l).
Proof. rewrite !Forall_forall. intros Hl x [_ Hx]%list_elem_of_filter. auto. Qed.
