(* ===== verification/Slices.v ===== *)
(** * Slices: the standard-library slice and vector operations the engine uses

    [binary_search_by], [partition_point], [Vec::insert], [dedup] and [sort] as the
    source calls them, with the contracts every sorted structure of the engine
    relies on.  The search is the bisection loop over [lo, hi); its fuel is the
    length of the slice, which the interval's width never exceeds. *)
From S2P Require Import Prelude.

(** ** Binary search *)

Fixpoint bsearch_loop {A} (cmp : A → comparison) (l : list A) (fuel lo hi : nat) : result nat nat :=
  match fuel with
  | O => Err lo
  | S fuel =>
      if (lo <? hi)%nat then
        let mid := (lo + (hi - lo) / 2)%nat in
        match l !! mid with
        | None => Err lo
        | Some x =>
            match cmp x with
            | Eq => Ok mid
            | Lt => bsearch_loop cmp l fuel (S mid) hi
            | Gt => bsearch_loop cmp l fuel lo mid
            end
        end
      else Err lo
  end.

Definition binary_search_by {A} (cmp : A → comparison) (l : list A) : result nat nat :=
  bsearch_loop cmp l (S (length l)) 0 (length l).

Definition partition_point {A} (p : A → bool) (l : list A) : nat :=
  match binary_search_by (λ x, if p x then Lt else Gt) l with Ok i => i | Err i => i end.

(** [l] is ordered for [cmp]: elements before the target, then at most one equal
    to it, then elements after it. *)
Definition cmp_ordered {A} (cmp : A → comparison) (l : list A) : Prop :=
  ∀ i j x y, (i < j)%nat → l !! i = Some x → l !! j = Some y →
    (cmp y = Lt → cmp x = Lt) ∧ (cmp y = Eq → cmp x = Lt) ∧
    (cmp x = Gt → cmp y = Gt) ∧ (cmp x = Eq → cmp y = Gt).

Section bsearch.
Context {A : Type} (cmp : A → comparison) (l : list A) (Hord : cmp_ordered cmp l).

Lemma bsearch_loop_spec fuel lo hi :
  (hi - lo < fuel)%nat → (lo ≤ hi ≤ length l)%nat →
  (∀ i x, (i < lo)%nat → l !! i = Some x → cmp x = Lt) →
  (∀ i x, (hi ≤ i)%nat → l !! i = Some x → cmp x = Gt) →
  match bsearch_loop cmp l fuel lo hi with
  | Ok i => ∃ x, l !! i = Some x ∧ cmp x = Eq
  | Err i => (i ≤ length l)%nat ∧
      (∀ j x, (j < i)%nat → l !! j = Some x → cmp x = Lt) ∧
      (∀ j x, (i ≤ j)%nat → l !! j = Some x → cmp x = Gt)
  end.
Proof using Hord.
  revert lo hi. induction fuel as [|fuel IH]; intros lo hi Hf Hb Hlo Hhi; [lia|].
  cbn [bsearch_loop]. cbv zeta.
  destruct (Nat.ltb_spec lo hi) as [Hlt|Hge].
  - assert (lo ≤ lo + (hi - lo) / 2 < hi)%nat as Hmid by (pose proof (Nat.div_lt (hi - lo) 2); lia).
    set (mid := (lo + (hi - lo) / 2)%nat) in *.
    destruct (lookup_lt_is_Some_2 l mid) as [x Hx]; [lia|]. rewrite Hx.
    destruct (cmp x) eqn:Hc; [by eauto| |].
    + apply IH; [lia..| |done].
      intros i y Hi Hy. destruct (decide (i = mid)) as [->|]; [congruence|].
      destruct (Hord i mid y x) as (? & ? & ? & ?); [lia|done..|auto].
    + apply IH; [lia..|done|].
      intros i y Hi Hy. destruct (decide (i = mid)) as [->|]; [congruence|].
      destruct (Hord mid i x y) as (? & ? & ? & ?); [lia|done..|auto].
  - replace hi with lo in * by lia. eauto with lia.
Qed.

Lemma binary_search_by_spec :
  match binary_search_by cmp l with
  | Ok i => ∃ x, l !! i = Some x ∧ cmp x = Eq
  | Err i => (i ≤ length l)%nat ∧
      Forall (λ x, cmp x = Lt) (take i l) ∧ Forall (λ x, cmp x = Gt) (drop i l)
  end.
Proof using Hord.
  pose proof (bsearch_loop_spec (S (length l)) 0 (length l)) as H.
  unfold binary_search_by. destruct (bsearch_loop _ _ _ _ _) as [i|i].
  - apply H; [lia..| |]; intros j x Hj Hx; [lia|].
    apply lookup_lt_Some in Hx. lia.
  - destruct H as (Hi & Hlt & Hgt); [lia|lia|lia| |].
    { intros j x Hj Hx%lookup_lt_Some. lia. }
    split; [done|]. rewrite !Forall_lookup. split.
    + intros j x [Hj Hx]%lookup_take_Some. eauto.
    + intros j x Hx. rewrite lookup_drop in Hx. eapply Hgt; [|done]. lia.
Qed.

(** A search that fails proves the target absent; one that succeeds found it. *)
Lemma binary_search_by_is_ok :
  is_ok (binary_search_by cmp l) = true ↔ Exists (λ x, cmp x = Eq) l.
Proof using Hord.
  pose proof binary_search_by_spec as H. destruct (binary_search_by cmp l) as [i|i]; cbn.
  - destruct H as (x & Hx & Hc). split; [|done]. intros _.
    apply Exists_exists. exists x. split; [by eapply list_elem_of_lookup_2|done].
  - destruct H as (_ & Hlt & Hgt). split; [done|].
    rewrite <-(take_drop i l), Exists_app, !Exists_exists.
    rewrite !Forall_forall in Hlt, Hgt.
    intros [(x & Hx & Hc)|(x & Hx & Hc)]; [apply Hlt in Hx|apply Hgt in Hx]; congruence.
Qed.
End bsearch.

(** ** Inserting at and removing an index of a vector *)

Definition vec_insert {A} (i : nat) (x : A) (l : list A) : list A := take i l ++ x :: drop i l.

Lemma elem_of_vec_insert {A} i (x y : A) l : y ∈ vec_insert i x l ↔ y = x ∨ y ∈ l.
Proof.
  unfold vec_insert. rewrite elem_of_app, elem_of_cons.
  rewrite <-(take_drop i l) at 3. rewrite elem_of_app. tauto.
Qed.

Lemma zlen_vec_insert {A} i (x : A) l : zlen (vec_insert i x l) = 1 + zlen l.
Proof.
  unfold vec_insert. rewrite zlen_app, zlen_cons.
  rewrite <-(take_drop i l) at 3. rewrite zlen_app. lia.
Qed.

Lemma zlen_delete {A} i (x : A) l : l !! i = Some x → zlen (delete i l) = zlen l - 1.
Proof.
  intros Hi. unfold zlen. rewrite length_delete by eauto.
  apply lookup_lt_Some in Hi. lia.
Qed.

(** ** Searching an ascending array *)

Definition zcmp (target x : Z) : comparison := (x ?= target).

Definition binary_search (v : Z) (l : list Z) : result nat nat := binary_search_by (zcmp v) l.

Lemma ascending_cmp_ordered v l : ascending l → cmp_ordered (zcmp v) l.
Proof.
  intros Hl i j x y Hij Hx Hy. pose proof (ascending_lookup l i j x y Hl Hx Hy Hij).
  unfold zcmp. rewrite !Z.compare_lt_iff, !Z.compare_eq_iff, !Z.compare_gt_iff. lia.
Qed.

Lemma binary_search_spec v l :
  ascending l →
  match binary_search v l with
  | Ok i => l !! i = Some v
  | Err i => (i ≤ length l)%nat ∧ v ∉ l ∧
      Forall (λ x, x < v) (take i l) ∧ Forall (λ x, v < x) (drop i l)
  end.
Proof.
  intros Hl. pose proof (binary_search_by_spec (zcmp v) l (ascending_cmp_ordered v l Hl)) as H.
  unfold binary_search. destruct (binary_search_by _ _) as [i|i].
  - destruct H as (x & Hx & ->%Z.compare_eq). done.
  - destruct H as (Hi & Hlt & Hgt). unfold zcmp in *.
    assert (Forall (λ x, x < v) (take i l)) as Hlt' by (by eapply Forall_impl).
    assert (Forall (λ x, v < x) (drop i l)) as Hgt'.
    { eapply Forall_impl; [done|]. cbn. intros x. by rewrite Z.compare_gt_iff. }
    split_and!; [done| |done|done].
    rewrite <-(take_drop i l), elem_of_app. rewrite !Forall_forall in Hlt', Hgt'.
    intros [Hx|Hx]; [apply Hlt' in Hx|apply Hgt' in Hx]; lia.
Qed.

Lemma binary_search_is_ok v l : ascending l → (is_ok (binary_search v l) = true ↔ v ∈ l).
Proof.
  intros Hl. pose proof (binary_search_spec v l Hl) as H.
  destruct (binary_search v l) as [i|i]; cbn; split; try done.
  - intros _. by eapply list_elem_of_lookup_2.
  - by destruct H as (_ & ? & _).
Qed.

Lemma vec_insert_ascending i v l :
  ascending l → Forall (λ x, x < v) (take i l) → Forall (λ x, v < x) (drop i l) →
  ascending (vec_insert i v l).
Proof.
  intros Hl Hlt Hgt. unfold vec_insert.
  rewrite <-(take_drop i l) in Hl. apply ascending_app in Hl as (Hsep & Ht & Hd).
  rewrite ascending_app, ascending_cons. rewrite !Forall_forall in Hlt, Hgt |- *.
  split_and!; [|done|done|done]. intros x y Hx [->|Hy]%elem_of_cons; auto.
Qed.

Lemma ascending_sublist l k : sublist l k → ascending k → ascending l.
Proof.
  induction 1 as [|x l k Hs IH|x l k Hs IH]; intros Hk; [done| |].
  - apply ascending_cons in Hk as [Hx Hk]. apply ascending_cons. split; [|auto].
    rewrite Forall_forall in Hx |- *. intros y Hy. apply Hx.
    eapply elem_of_submseteq; [done|]. by apply sublist_submseteq.
  - apply ascending_cons in Hk as [_ Hk]. auto.
Qed.

Lemma delete_ascending i l : ascending l → ascending (delete i l).
Proof. apply ascending_sublist, sublist_delete. Qed.

Lemma elem_of_delete_ascending i v l w :
  ascending l → l !! i = Some v → (w ∈ delete i l ↔ w ∈ l ∧ w ≠ v).
Proof.
  intros Hl Hi. rewrite <-(take_drop_middle l i v Hi) at 2.
  rewrite delete_take_drop, !elem_of_app, elem_of_cons.
  rewrite <-(take_drop_middle l i v Hi) in Hl.
  apply ascending_app in Hl as (Hsep & _ & Hd). apply ascending_cons in Hd as [Hd _].
  rewrite Forall_forall in Hd.
  split; [|naive_solver].
  intros [Hw|Hw]; (split; [tauto|]).
  - specialize (Hsep w v Hw). ospecialize (Hsep _); [left|lia].
  - specialize (Hd w Hw). lia.
Qed.

(** ** [partition_point] on an ascending array *)

Definition downward (p : Z → bool) : Prop := ∀ x y, x < y → p y = true → p x = true.

Lemma partition_point_spec p l :
  ascending l → downward p →
  (partition_point p l ≤ length l)%nat ∧
  Forall (λ x, p x = true) (take (partition_point p l) l) ∧
  Forall (λ x, p x = false) (drop (partition_point p l) l).
Proof.
  intros Hl Hp. unfold partition_point.
  assert (cmp_ordered (λ x, if p x then Lt else Gt) l) as Hord.
  { intros i j x y Hij Hx Hy. pose proof (ascending_lookup l i j x y Hl Hx Hy Hij) as Hlt.
    specialize (Hp x y Hlt). destruct (p x), (p y); naive_solver. }
  pose proof (binary_search_by_spec _ l Hord) as H.
  destruct (binary_search_by _ _) as [i|i].
  - destruct H as (x & _ & Hx). by destruct (p x).
  - destruct H as (Hi & Hlt & Hgt). split_and!; [done|..].
    + apply (Forall_impl _ _ _ Hlt). intros x. by destruct (p x).
    + apply (Forall_impl _ _ _ Hgt). intros x. by destruct (p x).
Qed.

Lemma filter_Forall_nil (p : Z → bool) l : Forall (λ x, p x = false) l → filter (λ x, p x = true) l = [].
Proof. induction 1 as [|x l Hx _ IH]; [done|]. rewrite filter_cons_False; congruence. Qed.

Lemma filter_Forall_id (p : Z → bool) l : Forall (λ x, p x = true) l → filter (λ x, p x = true) l = l.
Proof. induction 1 as [|x l Hx _ IH]; [done|]. rewrite filter_cons_True; congruence. Qed.

Lemma take_partition_point p l :
  ascending l → downward p → take (partition_point p l) l = filter (λ x, p x = true) l.
Proof.
  intros Hl Hp. destruct (partition_point_spec p l Hl Hp) as (_ & Ht & Hd).
  rewrite <-(take_drop (partition_point p l) l) at 3.
  by rewrite filter_app, (filter_Forall_id _ _ Ht), (filter_Forall_nil _ _ Hd), app_nil_r.
Qed.

Lemma partition_point_count p l :
  ascending l → downward p → Z.of_nat (partition_point p l) = zlen (filter (λ x, p x = true) l).
Proof.
  intros Hl Hp. rewrite <-take_partition_point by done. unfold zlen.
  rewrite length_take. destruct (partition_point_spec p l Hl Hp) as (Hle & _). lia.
Qed.
