(* ===== verification/U16Set.v ===== *)
(** * U16Set: what a container of 16-bit values promises

    The three container kinds of [src/minnal_db/src/index/container/] store the
    same thing, a set of [u16] values, in three layouts.  [U16Set] names the
    operations they share and [U16SetLaws] what each of them promises: its values
    are an ascending array of [u16]s, and membership, cardinality, minimum,
    maximum, rank and select are the ones of that array.  Clients are proved
    against this interface; each container file discharges it. *)
From S2P Require Import Prelude Slices.

Class U16Set (C : Type) := {
  set_wf : C → Prop;
  set_contains : C → Z → bool;
  set_values : C → list Z;
  set_card : C → Z;
  set_min : C → option Z;
  set_max : C → option Z;
  set_rank : C → Z → Z;
  set_select : C → Z → option Z;
}.

(** The values of [l] that are at most [v]. *)
Definition count_le (v : Z) (l : list Z) : Z := zlen (filter (λ x, x ≤ v) l).

Class U16SetLaws (C : Type) `{U16Set C} := {
  values_ascending (c : C) : set_wf c → ascending (set_values c);
  values_u16 (c : C) : set_wf c → Forall u16 (set_values c);
  contains_values (c : C) (v : Z) : set_wf c → u16 v → (set_contains c v = true ↔ v ∈ set_values c);
  card_values (c : C) : set_wf c → set_card c = zlen (set_values c);
  min_values (c : C) : set_wf c → set_min c = head (set_values c);
  max_values (c : C) : set_wf c → set_max c = last (set_values c);
  rank_values (c : C) (v : Z) : set_wf c → u16 v → set_rank c v = count_le v (set_values c);
  select_values (c : C) (r : Z) : set_wf c → 0 ≤ r → set_select c r = set_values c !! Z.to_nat r;
}.

(** [c] is a well-formed container holding exactly the [u16]s that satisfy [f]. *)
Definition represents {C} `{U16Set C} (c : C) (f : Z → bool) : Prop :=
  set_wf c ∧ ∀ v, u16 v → set_contains c v = f v.

Section laws.
Context {C : Type} `{U16SetLaws C}.

Lemma contains_values_decide c v :
  set_wf c → u16 v → set_contains c v = bool_decide (v ∈ set_values c).
Proof.
  intros Hc Hv. apply eq_true_iff_eq. rewrite bool_decide_eq_true. by apply contains_values.
Qed.

Lemma elem_of_values c v :
  set_wf c → (v ∈ set_values c ↔ u16 v ∧ set_contains c v = true).
Proof.
  intros Hc. pose proof (values_u16 c Hc) as Hb. rewrite Forall_forall in Hb. split.
  - intros Hv. specialize (Hb v Hv). split; [done|]. by apply contains_values.
  - intros [Hv Hin]. by apply contains_values.
Qed.

(** The members of [c] that satisfy [f] are the filtered values. *)
Lemma represents_values c f :
  represents c f → ∀ v, v ∈ set_values c ↔ u16 v ∧ f v = true.
Proof.
  intros [Hc Hf] v. rewrite elem_of_values by done.
  split; intros [Hv Hin]; (split; [done|]); rewrite <-Hin; [symmetry|]; auto.
Qed.

Lemma is_empty_card c : set_wf c → (set_card c = 0 ↔ set_values c = []).
Proof. intros Hc. rewrite card_values by done. apply zlen_0_nil. Qed.

Lemma represents_weaken c f g :
  represents c f → (∀ v, u16 v → f v = g v) → represents c g.
Proof. intros [Hc Hf] Hfg. split; [done|]. intros v Hv. by rewrite Hf, Hfg. Qed.

Lemma represents_self c : set_wf c → represents c (set_contains c).
Proof. by intros. Qed.

Lemma card_u16_bound c : set_wf c → 0 ≤ set_card c ≤ 65536.
Proof.
  intros Hc. rewrite card_values by done. split; [apply zlen_nonneg|].
  pose proof (values_u16 c Hc) as Hb. rewrite Forall_forall in Hb.
  assert (zlen (set_values c) ≤ zlen (seqZ 0 65536)) as Hle.
  { unfold zlen. apply inj_le. apply submseteq_length, NoDup_submseteq.
    - by apply ascending_NoDup, values_ascending.
    - intros v Hv. apply elem_of_seqZ. apply Hb in Hv. unfold u16 in Hv. lia. }
  unfold zlen in Hle at 2. rewrite length_seqZ in Hle. lia.
Qed.
End laws.

(** Two containers, whatever their layouts, that agree on membership agree on every
    read: values, cardinality, minimum, maximum, rank and select. *)
Section agree.
Context {C D : Type} `{U16SetLaws C} `{U16SetLaws D} (c : C) (d : D).
Context (Hc : set_wf c) (Hd : set_wf d).
Context (Hagree : ∀ v, u16 v → set_contains c v = set_contains d v).

Lemma agree_values : set_values c = set_values d.
Proof using All.
  apply ascending_ext; [by apply values_ascending..|].
  intros v. rewrite !elem_of_values by done.
  split; intros [Hv Hin]; (split; [done|]); rewrite <-Hin; [symmetry|]; auto.
Qed.

Lemma agree_card : set_card c = set_card d.
Proof using All. by rewrite !card_values, agree_values. Qed.

Lemma agree_rank v : u16 v → set_rank c v = set_rank d v.
Proof using All. intros. by rewrite !rank_values, agree_values. Qed.

Lemma agree_select r : 0 ≤ r → set_select c r = set_select d r.
Proof using All. intros. by rewrite !select_values, agree_values. Qed.
End agree.
