(* ===== verification/ArrayMerge.v ===== *)
(** * ArrayMerge: set operations on sorted [u16] slices

    [src/minnal_db/src/index/simd_support/array_merge.rs] and the CPU dispatch of
    [simd_support/mod.rs].  The vector kernels probe a sorted slice in chunks of
    [W] lanes (16 for AVX2 and AVX-512, 8 for NEON) and finish on the tail; a lane
    comparison followed by "any lane matched" is [lanes_eq].  The theorems show
    that on sorted inputs every kernel computes what the two-pointer loop does, so
    the result never depends on the CPU. *)
From S2P Require Import Prelude Slices.

(** The CPU a binary runs on: its target architecture and the features
    [is_x86_feature_detected!] reports. *)
Class Cpu := {
  target_x86_64 : bool;
  target_aarch64 : bool;
  avx512f : bool;
  avx512bw : bool;
  avx512vpopcntdq : bool;
  avx2 : bool;
}.

Definition has_avx512_popcount `{Cpu} : bool := target_x86_64 && (avx512vpopcntdq && avx512f).
Definition has_avx512f `{Cpu} : bool := target_x86_64 && avx512f.
Definition has_avx2 `{Cpu} : bool := target_x86_64 && avx2.

Definition SIMD_THRESHOLD : Z := 32.

(** ** Scalar implementations *)

Fixpoint and_scalar (a : list Z) : list Z → list Z :=
  fix go (b : list Z) : list Z :=
    match a, b with
    | x :: a', y :: b' =>
        match x ?= y with
        | Eq => x :: and_scalar a' b'
        | Lt => and_scalar a' b
        | Gt => go b'
        end
    | _, _ => []
    end.

Fixpoint or_scalar (a : list Z) : list Z → list Z :=
  fix go (b : list Z) : list Z :=
    match a, b with
    | [], _ => b
    | _, [] => a
    | x :: a', y :: b' =>
        match x ?= y with
        | Lt => x :: or_scalar a' b
        | Gt => y :: go b'
        | Eq => x :: or_scalar a' b'
        end
    end.

(** [while j < b.len() && b[j] < x { j += 1 }] *)
Fixpoint skip_below (x : Z) (b : list Z) : list Z :=
  match b with
  | y :: b' => if y <? x then skip_below x b' else b
  | [] => []
  end.

Fixpoint and_not_scalar (a b : list Z) : list Z :=
  match a with
  | [] => []
  | x :: a' =>
      let b := skip_below x b in
      match b with
      | y :: _ => if y =? x then and_not_scalar a' b else x :: and_not_scalar a' b
      | [] => x :: and_not_scalar a' b
      end
  end.

(** ** Vector kernels *)

(** Compare a broadcast needle with every lane of a chunk: some lane matched. *)
Definition lanes_eq (p : Z) (chunk : list Z) : bool := existsb (Z.eqb p) chunk.

(** NEON and AVX2: leave the loop before comparing a chunk that starts above [p]. *)
Fixpoint probe_chunks_exit_first (W : nat) (p : Z) (scan : list Z) (chunks : nat) : bool :=
  match chunks with
  | O => false
  | S chunks =>
      match head scan with
      | Some first =>
          if p <? first then false
          else if lanes_eq p (take W scan) then true
          else probe_chunks_exit_first W p (drop W scan) chunks
      | None => false
      end
  end.

(** [and_avx512]: compare the chunk, then leave the loop if it started above [p]. *)
Fixpoint probe_chunks_exit_last (W : nat) (p : Z) (scan : list Z) (chunks : nat) : bool :=
  match chunks with
  | O => false
  | S chunks =>
      if lanes_eq p (take W scan) then true
      else match head scan with
           | Some first =>
               if p <? first then false else probe_chunks_exit_last W p (drop W scan) chunks
           | None => false
           end
  end.

(** [and_not_avx512]: compare every chunk. *)
Fixpoint probe_chunks_all (W : nat) (p : Z) (scan : list Z) (chunks : nat) : bool :=
  match chunks with
  | O => false
  | S chunks =>
      if lanes_eq p (take W scan) then true else probe_chunks_all W p (drop W scan) chunks
  end.

(** The scalar tail: stop at [p] or past it. *)
Fixpoint probe_tail (p : Z) (tail : list Z) : bool :=
  match tail with
  | [] => false
  | s :: tail => if s =? p then true else if p <? s then false else probe_tail p tail
  end.

Definition probe (loop : nat → Z → list Z → nat → bool) (W : nat) (p : Z) (scan : list Z) : bool :=
  let chunks := (length scan / W)%nat in
  if loop W p scan chunks then true else probe_tail p (drop (chunks * W) scan).

(** The shorter slice probes, the longer one is scanned. *)
Definition probe_scan (a b : list Z) : list Z * list Z :=
  if (length a <=? length b)%nat then (a, b) else (b, a).

Definition and_simd (loop : nat → Z → list Z → nat → bool) (W : nat) (a b : list Z) : list Z :=
  let '(pr, scan) := probe_scan a b in filter (λ p, probe loop W p scan = true) pr.
Definition and_not_simd (loop : nat → Z → list Z → nat → bool) (W : nat) (a b : list Z) : list Z :=
  filter (λ p, probe loop W p b = false) a.

Definition and_neon : list Z → list Z → list Z := and_simd probe_chunks_exit_first 8.
Definition and_not_neon : list Z → list Z → list Z := and_not_simd probe_chunks_exit_first 8.
Definition and_avx2 : list Z → list Z → list Z := and_simd probe_chunks_exit_first 16.
Definition and_not_avx2 : list Z → list Z → list Z := and_not_simd probe_chunks_exit_first 16.
Definition and_avx512 : list Z → list Z → list Z := and_simd probe_chunks_exit_last 16.
Definition and_not_avx512 : list Z → list Z → list Z := and_not_simd probe_chunks_all 16.

(** ** Public entry points *)

Definition both_wide (a b : list Z) : bool := (SIMD_THRESHOLD <=? zlen a) && (SIMD_THRESHOLD <=? zlen b).

Definition and_sorted_u16 `{Cpu} (a b : list Z) : list Z :=
  if target_x86_64 && both_wide a b && (avx512f && avx512bw) then and_avx512 a b
  else if target_x86_64 && both_wide a b && avx2 then and_avx2 a b
  else if target_aarch64 && both_wide a b then and_neon a b
  else and_scalar a b.

Definition or_sorted_u16 (a b : list Z) : list Z := or_scalar a b.

Definition and_not_sorted_u16 `{Cpu} (a b : list Z) : list Z :=
  if target_x86_64 && both_wide a b && (avx512f && avx512bw) then and_not_avx512 a b
  else if target_x86_64 && both_wide a b && avx2 then and_not_avx2 a b
  else if target_aarch64 && both_wide a b then and_not_neon a b
  else and_not_scalar a b.

(** ** The scalar loops compute intersection, union and difference *)

Ltac cmp_cases :=
  match goal with |- context [?x ?= ?y] => destruct (Z.compare_spec x y) end.


Lemma and_scalar_filter a b :
  ascending a → ascending b → and_scalar a b = filter (.∈ b) a.
Proof.
  revert b. induction a as [|x a IHa]; intros b Ha Hb; [by destruct b|].
  induction b as [|y b IHb].
  { cbn [and_scalar]. symmetry. apply filter_none. intros v _. apply not_elem_of_nil. }
  pose proof (ascending_inv _ _ Ha) as [Ha' Hx]. pose proof (ascending_inv _ _ Hb) as [Hb' Hy].
  cbn [and_scalar]. cmp_cases.
  - subst. rewrite filter_cons_True by left. f_equal. rewrite IHa by done.
    apply filter_ext_in. intros v Hv. apply Hx in Hv. rewrite elem_of_cons. naive_solver lia.
  - rewrite filter_cons_False by (by apply ascending_below). by apply IHa.
  - change (and_scalar (x :: a) b = filter (.∈ y :: b) (x :: a)). rewrite IHb by done.
    apply filter_ext_in. intros v Hv.
    pose proof (ascending_head_le _ _ _ Ha Hv). rewrite elem_of_cons. naive_solver lia.
Qed.

Lemma elem_of_or_scalar v a b : v ∈ or_scalar a b ↔ v ∈ a ∨ v ∈ b.
Proof.
  revert b. induction a as [|x a IHa]; intros b; [destruct b; set_solver|].
  induction b as [|y b IHb]; [set_solver|].
  cbn [or_scalar]. cmp_cases.
  - subst. rewrite !elem_of_cons, IHa. tauto.
  - rewrite elem_of_cons, IHa, !elem_of_cons. tauto.
  - change (v ∈ y :: or_scalar (x :: a) b ↔ v ∈ x :: a ∨ v ∈ y :: b).
    rewrite elem_of_cons, IHb, !elem_of_cons. tauto.
Qed.

Lemma or_scalar_ascending a b : ascending a → ascending b → ascending (or_scalar a b).
Proof.
  revert b. induction a as [|x a IHa]; intros b Ha Hb; [by destruct b|].
  induction b as [|y b IHb]; [done|].
  pose proof (ascending_inv _ _ Ha) as [Ha' Hx]. pose proof (ascending_inv _ _ Hb) as [Hb' Hy].
  cbn [or_scalar]. cmp_cases.
  - subst. apply ascending_cons. split; [|auto]. apply Forall_forall.
    intros v [Hv|Hv]%elem_of_or_scalar; auto.
  - apply ascending_cons. split; [|auto]. apply Forall_forall.
    intros v [Hv|Hv]%elem_of_or_scalar; [auto|].
    pose proof (ascending_head_le _ _ _ Hb Hv). lia.
  - change (ascending (y :: or_scalar (x :: a) b)).
    apply ascending_cons. split; [|auto]. apply Forall_forall.
    intros v [Hv|Hv]%elem_of_or_scalar; [|auto].
    pose proof (ascending_head_le _ _ _ Ha Hv). lia.
Qed.

Lemma skip_below_ascending x b : ascending b → ascending (skip_below x b).
Proof.
  induction b as [|y b IH]; intros Hb; [done|]. cbn. case_cmp; [|done].
  apply IH. by apply ascending_inv in Hb as [? _].
Qed.

Lemma elem_of_skip_below v x b : x ≤ v → ascending b → (v ∈ skip_below x b ↔ v ∈ b).
Proof.
  intros Hv. induction b as [|y b IH]; intros Hb; [done|]. cbn. destruct (Z.ltb_spec y x); [|done].
  rewrite IH by (by apply ascending_inv in Hb as [? _]). rewrite elem_of_cons. naive_solver lia.
Qed.

Lemma skip_below_head x y b k : skip_below x b = y :: k → x ≤ y.
Proof.
  induction b as [|z b IH]; [done|]. cbn. destruct (Z.ltb_spec z x); [done|].
  intros; simplify_eq; lia.
Qed.

Lemma and_not_scalar_filter a b :
  ascending a → ascending b → and_not_scalar a b = filter (.∉ b) a.
Proof.
  revert b. induction a as [|x a IH]; intros b Ha Hb; [done|].
  pose proof (ascending_inv _ _ Ha) as [Ha' Hx]. cbn [and_not_scalar]. cbv zeta.
  assert (∀ v, x ≤ v → v ∈ skip_below x b ↔ v ∈ b) as Hskip by (intros; by apply elem_of_skip_below).
  pose proof (skip_below_ascending x b Hb) as Hs. pose proof (skip_below_head x) as Hhead.
  specialize (Hhead).
  assert (and_not_scalar a (skip_below x b) = filter (.∉ b) a) as Hrec.
  { rewrite IH by done. apply filter_ext_in. intros v Hv. apply Hx in Hv. rewrite Hskip by lia. done. }
  destruct (skip_below x b) as [|y k] eqn:E.
  - rewrite filter_cons_True by (rewrite <-Hskip by lia; apply not_elem_of_nil). by f_equal.
  - apply Hhead in E. destruct (Z.eqb_spec y x) as [->|].
    + rewrite filter_cons_False; [done|]. rewrite <-Hskip by lia. intros H; apply H. left.
    + rewrite filter_cons_True; [by f_equal|]. rewrite <-Hskip by lia.
      apply ascending_below; [done|lia].
Qed.

(** ** A probe finds exactly the members of the scanned slice *)

Lemma lanes_eq_spec p chunk : lanes_eq p chunk = bool_decide (p ∈ chunk).
Proof.
  unfold lanes_eq. apply eq_true_iff_eq. rewrite bool_decide_eq_true, existsb_exists.
  setoid_rewrite list_elem_of_In. setoid_rewrite Z.eqb_eq. naive_solver.
Qed.

Lemma probe_tail_spec p tail : ascending tail → probe_tail p tail = bool_decide (p ∈ tail).
Proof.
  induction tail as [|s tail IH]; intros Ht; [done|].
  pose proof (ascending_inv _ _ Ht) as [Ht' Hs]. cbn.
  destruct (Z.eqb_spec s p) as [->|Hne]; [symmetry; apply bool_decide_eq_true; left|].
  destruct (Z.ltb_spec p s).
  - symmetry. apply bool_decide_eq_false. by apply ascending_below.
  - rewrite IH by done. apply bool_decide_ext. rewrite elem_of_cons. naive_solver.
Qed.

(** What a chunk loop must do to be used by [probe]: report no false match, and miss
    a match among the chunks only if the target is not there. *)
Definition chunk_loop_ok (loop : nat → Z → list Z → nat → bool) : Prop :=
  ∀ W p scan chunks, ascending scan → (0 < W)%nat → (chunks * W ≤ length scan)%nat →
    loop W p scan chunks = bool_decide (p ∈ take (chunks * W) scan).

Lemma take_chunk (W chunks : nat) (scan : list Z) :
  take (S chunks * W) scan = take W scan ++ take (chunks * W) (drop W scan).
Proof. cbn [Nat.mul]. by rewrite <-take_take_drop. Qed.

Lemma ascending_take n l : ascending l → ascending (take n l).
Proof. apply ascending_sublist, sublist_take. Qed.
Lemma ascending_drop n l : ascending l → ascending (drop n l).
Proof. apply ascending_sublist, sublist_drop. Qed.

(** A chunk that starts above the target ends the search. *)
Lemma no_later_match p first scan n :
  ascending scan → head scan = Some first → p < first → p ∉ take n scan.
Proof.
  destruct scan as [|x scan]; [done|]. intros Hs [= ->] Hlt Hin.
  apply (ascending_below p first scan Hs Hlt). rewrite <-(take_drop n). apply elem_of_app. by left.
Qed.

Ltac chunk_step IH :=
  rewrite take_chunk; repeat rewrite lanes_eq_spec; rewrite ?IH by (try apply ascending_drop; try rewrite length_drop; try done; lia);
  repeat case_bool_decide; set_solver.

Lemma probe_chunks_all_ok : chunk_loop_ok probe_chunks_all.
Proof.
  intros W p scan chunks Hs HW. revert scan Hs. induction chunks as [|chunks IH]; intros scan Hs Hle; [done|].
  cbn [probe_chunks_all]. chunk_step IH.
Qed.

Lemma chunk_nonempty (W chunks : nat) (scan : list Z) :
  (0 < W)%nat → (S chunks * W ≤ length scan)%nat → ∃ first, head scan = Some first.
Proof. destruct scan; cbn; [lia|eauto]. Qed.

Lemma probe_chunks_exit_first_ok : chunk_loop_ok probe_chunks_exit_first.
Proof.
  intros W p scan chunks Hs HW. revert scan Hs. induction chunks as [|chunks IH]; intros scan Hs Hle; [done|].
  destruct (chunk_nonempty _ _ _ HW Hle) as [first Hf].
  cbn [probe_chunks_exit_first]. rewrite Hf. destruct (Z.ltb_spec p first).
  - symmetry. apply bool_decide_eq_false. by eapply no_later_match.
  - chunk_step IH.
Qed.

Lemma probe_chunks_exit_last_ok : chunk_loop_ok probe_chunks_exit_last.
Proof.
  intros W p scan chunks Hs HW. revert scan Hs. induction chunks as [|chunks IH]; intros scan Hs Hle; [done|].
  destruct (chunk_nonempty _ _ _ HW Hle) as [first Hf].
  cbn [probe_chunks_exit_last]. rewrite Hf. destruct (Z.ltb_spec p first).
  - rewrite lanes_eq_spec. rewrite !bool_decide_eq_false_2; [done|by eapply no_later_match..].
  - chunk_step IH.
Qed.

Lemma probe_spec loop W p scan :
  chunk_loop_ok loop → (0 < W)%nat → ascending scan → probe loop W p scan = bool_decide (p ∈ scan).
Proof.
  intros Hloop HW Hs. unfold probe. cbv zeta.
  rewrite Hloop, probe_tail_spec; [|by apply ascending_drop|done|done|].
  2:{ rewrite Nat.mul_comm. apply Nat.Div0.mul_div_le. }
  assert (p ∈ scan ↔ p ∈ take (length scan / W * W) scan ∨ p ∈ drop (length scan / W * W) scan) as Hsplit.
  { by rewrite <-elem_of_app, take_drop. }
  repeat case_bool_decide; tauto.
Qed.

Lemma and_simd_filter loop W a b :
  chunk_loop_ok loop → (0 < W)%nat → ascending a → ascending b →
  and_simd loop W a b = filter (.∈ b) a.
Proof.
  intros Hloop HW Ha Hb. unfold and_simd, probe_scan. case_cmp.
  - apply filter_ext_in. intros v _. rewrite probe_spec by done. by rewrite bool_decide_eq_true.
  - transitivity (filter (.∈ a) b).
    + apply filter_ext_in. intros v _. rewrite probe_spec by done. by rewrite bool_decide_eq_true.
    + apply ascending_ext; [by apply ascending_filter..|]. intros v. rewrite !list_elem_of_filter. tauto.
Qed.

Lemma and_not_simd_filter loop W a b :
  chunk_loop_ok loop → (0 < W)%nat → ascending b →
  and_not_simd loop W a b = filter (.∉ b) a.
Proof.
  intros Hloop HW Hb. apply filter_ext_in. intros v _.
  rewrite probe_spec by done. by rewrite bool_decide_eq_false.
Qed.

(** ** The entry points, on every CPU *)

#[export] Hint Resolve probe_chunks_all_ok probe_chunks_exit_first_ok probe_chunks_exit_last_ok : minnal.

Ltac simd_ok := solve [auto with minnal | lia | done].

Lemma and_sorted_u16_filter `{Cpu} a b :
  ascending a → ascending b → and_sorted_u16 a b = filter (.∈ b) a.
Proof.
  intros Ha Hb. unfold and_sorted_u16, and_avx512, and_avx2, and_neon.
  repeat case_match; try (apply and_simd_filter; simd_ok). by apply and_scalar_filter.
Qed.

Lemma and_not_sorted_u16_filter `{Cpu} a b :
  ascending a → ascending b → and_not_sorted_u16 a b = filter (.∉ b) a.
Proof.
  intros Ha Hb. unfold and_not_sorted_u16, and_not_avx512, and_not_avx2, and_not_neon.
  repeat case_match; try (apply and_not_simd_filter; simd_ok). by apply and_not_scalar_filter.
Qed.

(** Intersection, union and difference keep an array ascending. *)
Lemma and_sorted_u16_ascending `{Cpu} a b :
  ascending a → ascending b → ascending (and_sorted_u16 a b).
Proof. intros. rewrite and_sorted_u16_filter by done. by apply ascending_filter. Qed.

Lemma and_not_sorted_u16_ascending `{Cpu} a b :
  ascending a → ascending b → ascending (and_not_sorted_u16 a b).
Proof. intros. rewrite and_not_sorted_u16_filter by done. by apply ascending_filter. Qed.

Lemma elem_of_and_sorted_u16 `{Cpu} v a b :
  ascending a → ascending b → (v ∈ and_sorted_u16 a b ↔ v ∈ a ∧ v ∈ b).
Proof. intros. rewrite and_sorted_u16_filter, list_elem_of_filter by done. tauto. Qed.

Lemma elem_of_and_not_sorted_u16 `{Cpu} v a b :
  ascending a → ascending b → (v ∈ and_not_sorted_u16 a b ↔ v ∈ a ∧ v ∉ b).
Proof. intros. rewrite and_not_sorted_u16_filter, list_elem_of_filter by done. tauto. Qed.

(** ** Properties *)

(** For ascending operands the three merges compute the intersection, the union
    and the difference on every CPU: whichever of the scalar, NEON, AVX2 and AVX-512
    routines the dispatch selects, [and] and [and_not] return the elements of the
    first operand that are and are not in the second, in order, and [or] an ascending
    list of the elements of both. *)
Theorem array_merge_correct `{Cpu} (a b : list Z) :
  ascending a → ascending b →
  and_sorted_u16 a b = filter (.∈ b) a ∧
  and_not_sorted_u16 a b = filter (.∉ b) a ∧
  ascending (or_sorted_u16 a b) ∧ ∀ v, v ∈ or_sorted_u16 a b ↔ v ∈ a ∨ v ∈ b.
Proof.
  intros Ha Hb. split_and!.
  - by apply and_sorted_u16_filter.
  - by apply and_not_sorted_u16_filter.
  - by apply or_scalar_ascending.
  - intros v. apply elem_of_or_scalar.
Qed.

(** CPUs of the witnesses: without vector units, and with all of the x86-64 ones. *)
Definition scalar_cpu : Cpu := {|
  target_x86_64 := false; target_aarch64 := false; avx512f := false; avx512bw := false;
  avx512vpopcntdq := false; avx2 := false |}.
Definition avx512_cpu : Cpu := {|
  target_x86_64 := true; target_aarch64 := false; avx512f := true; avx512bw := true;
  avx512vpopcntdq := true; avx2 := true |}.

Lemma array_merge_correct_witness :
  let a := seqZ 0 40 in let b := (λ x, 3 * x) <$> seqZ 0 40 in
  @and_sorted_u16 avx512_cpu a b = filter (.∈ b) a ∧
  @and_not_sorted_u16 avx512_cpu a b = filter (.∉ b) a ∧
  ascending (or_sorted_u16 a b) ∧ ∀ v, v ∈ or_sorted_u16 a b ↔ v ∈ a ∨ v ∈ b.
Proof.
  cbv zeta. apply (@array_merge_correct avx512_cpu); [apply seqZ_ascending|].
  apply ascending_fmap; [intros; lia|apply seqZ_ascending].
Defined.
