(* ===== verification/Words.v ===== *)
(** * Words: [u64] words and bit arrays

    The standard-library word operations the engine uses ([count_ones],
    [trailing_zeros], [leading_zeros], [!], [<<], byte access) on [Z], and the
    reading of an array of words as a set of positions.  [word_bits w] lists the
    set bits of a word in ascending order; [bits_from s base ws] lists the set
    positions of an array of [s]-bit words whose first bit is [base]. *)
From S2P Require Import Prelude Slices.

Definition word_bits (w : Z) : list Z := filter (λ i, Z.testbit w i = true) (seqZ 0 64).
Definition count_ones (w : Z) : Z := zlen (word_bits w).
Definition trailing_zeros (w : Z) : Z := default 64 (head (word_bits w)).
Definition leading_zeros (w : Z) : Z :=
  match last (word_bits w) with Some i => 63 - i | None => 64 end.
Definition u64_not (w : Z) : Z := Z.lxor w U64_MAX.
Definition u64_shl (w n : Z) : Z := wrap 64 (Z.shiftl w n).
Definition u64_add (a b : Z) : Z := wrap 64 (a + b).

(** The bytes of a word, lowest first. *)
Definition word_byte (w i : Z) : Z := Z.land (Z.shiftr w (8 * i)) 255.
Definition word_bytes (w : Z) : list Z := word_byte w <$> seqZ 0 8.

Fixpoint bits_from (s base : Z) (ws : list Z) : list Z :=
  match ws with
  | [] => []
  | w :: ws => (Z.add base <$> word_bits w) ++ bits_from s (base + s) ws
  end.

(** Word [i] of a bit array, and the bit of position [v]. *)
Definition word_at (ws : list Z) (i : Z) : Z := default 0 (ws !! Z.to_nat i).
Definition bit_at (ws : list Z) (v : Z) : bool := Z.testbit (word_at ws (v / 64)) (v mod 64).

Definition zsum (l : list Z) : Z := foldr Z.add 0 l.

(** ** Single words *)

Lemma elem_of_word_bits w i : i ∈ word_bits w ↔ 0 ≤ i < 64 ∧ Z.testbit w i = true.
Proof. unfold word_bits. rewrite list_elem_of_filter, elem_of_seqZ. naive_solver lia. Qed.

Lemma word_bits_ascending w : ascending (word_bits w).
Proof. apply ascending_filter, seqZ_ascending. Qed.

Lemma testbit_above s w i : 0 ≤ w < 2 ^ s → s ≤ i → Z.testbit w i = false.
Proof.
  intros [Hw Hlt] Hi. destruct (decide (w = 0)) as [->|]; [apply Z.bits_0|].
  apply Z.bits_above_log2; [done|]. assert (Z.log2 w < s); [|lia].
  apply Z.log2_lt_pow2; lia.
Qed.

Lemma u64_testbit_above w i : u64 w → 64 ≤ i → Z.testbit w i = false.
Proof. apply testbit_above. Qed.

(** Two words are equal when their 64 bits are. *)
Lemma u64_ext w x :
  u64 w → u64 x → (∀ i, 0 ≤ i < 64 → Z.testbit w i = Z.testbit x i) → w = x.
Proof.
  intros Hw Hx Hbits. apply Z.bits_inj'. intros i Hi.
  destruct (decide (i < 64)); [by apply Hbits|].
  by rewrite !u64_testbit_above by (done || lia).
Qed.

Lemma u64_of_bits w : 0 ≤ w → (∀ i, 64 ≤ i → Z.testbit w i = false) → u64 w.
Proof.
  intros Hw Hbits. unfold u64. split; [done|].
  destruct (decide (w = 0)) as [->|]; [lia|]. apply Z.log2_lt_pow2; [lia|].
  destruct (decide (Z.log2 w < 64)); [done|]. exfalso.
  pose proof (Z.bit_log2 w ltac:(lia)). rewrite Hbits in *; [done|lia].
Qed.

Lemma word_bits_nil w : u64 w → (word_bits w = [] ↔ w = 0).
Proof.
  intros Hw. split; [|by intros ->].
  intros Hnil. apply u64_ext; [done|by unfold u64|]. intros i Hi. rewrite Z.bits_0.
  destruct (Z.testbit w i) eqn:E; [|done].
  assert (i ∈ word_bits w) as Hin by (by apply elem_of_word_bits). rewrite Hnil in Hin. set_solver.
Qed.

Lemma count_ones_bound w : 0 ≤ count_ones w ≤ 64.
Proof.
  unfold count_ones, word_bits, zlen. split; [lia|].
  pose proof (length_filter (λ i, Z.testbit w i = true) (seqZ 0 64)) as H.
  rewrite length_seqZ in H. lia.
Qed.

Lemma u64_not_testbit w i : 0 ≤ i → Z.testbit (u64_not w) i = xorb (Z.testbit w i) (i <? 64).
Proof.
  intros Hi. unfold u64_not. rewrite Z.lxor_spec. f_equal.
  change U64_MAX with (Z.ones 64). destruct (Z.ltb_spec i 64).
  - by apply Z.ones_spec_low.
  - apply Z.ones_spec_high. lia.
Qed.

Lemma u64_land w x : u64 w → u64 (Z.land w x).
Proof.
  intros Hw. apply u64_of_bits; [apply Z.land_nonneg; left; apply Hw|].
  intros i Hi. by rewrite Z.land_spec, u64_testbit_above.
Qed.

Lemma u64_lor w x : u64 w → u64 x → u64 (Z.lor w x).
Proof.
  intros Hw Hx. apply u64_of_bits; [apply Z.lor_nonneg; split; [apply Hw|apply Hx]|].
  intros i Hi. by rewrite Z.lor_spec, !u64_testbit_above.
Qed.

Lemma u64_not_u64 w : u64 w → u64 (u64_not w).
Proof.
  intros Hw. apply u64_of_bits.
  { apply Z.lxor_nonneg. unfold u64 in Hw. unfold U64_MAX. lia. }
  intros i Hi. rewrite u64_not_testbit, u64_testbit_above by (done || lia).
  by destruct (Z.ltb_spec i 64); [lia|].
Qed.

Lemma wrap_u64 x : u64 (wrap 64 x).
Proof. apply Z.mod_pos_bound. lia. Qed.

Lemma u64_shl_testbit w n i :
  0 ≤ n → 0 ≤ i → Z.testbit (u64_shl w n) i = (i <? 64) && Z.testbit w (i - n).
Proof.
  intros Hn Hi. unfold u64_shl, wrap. destruct (Z.ltb_spec i 64).
  - rewrite Z.mod_pow2_bits_low by lia. by rewrite Z.shiftl_spec.
  - rewrite Z.mod_pow2_bits_high by lia. done.
Qed.

(** [1 << n] has the one bit [n]. *)
Lemma one_shl_testbit n i : 0 ≤ n < 64 → 0 ≤ i < 64 → Z.testbit (u64_shl 1 n) i = (i =? n).
Proof.
  intros Hn Hi. rewrite u64_shl_testbit by lia. rewrite (proj2 (Z.ltb_lt i 64)) by lia. cbn [andb].
  destruct (Z.eqb_spec i n) as [->|].
  - by rewrite Z.sub_diag.
  - destruct (decide (i < n)); [by apply Z.testbit_neg_r; lia|].
    apply (testbit_above 1); lia.
Qed.

(** *** Clearing the lowest set bit *)

Lemma head_lowest w t : head (word_bits w) = Some t →
  0 ≤ t < 64 ∧ Z.testbit w t = true ∧ ∀ i, 0 ≤ i < t → Z.testbit w i = false.
Proof.
  intros Ht. destruct (word_bits w) as [|x l] eqn:E; simplify_eq/=.
  assert (t ∈ word_bits w) as [??]%elem_of_word_bits by (rewrite E; left).
  split_and!; [lia..|done|]. intros i Hi. destruct (Z.testbit w i) eqn:Hb; [|done].
  assert (i ∈ word_bits w) as Hin by (apply elem_of_word_bits; split; [lia|done]).
  pose proof (word_bits_ascending w) as Ha. rewrite E in Hin, Ha.
  pose proof (ascending_head_le _ _ _ Ha Hin). lia.
Qed.

Lemma clear_lowest_testbit w t i :
  0 ≤ t → Z.testbit w t = true → (∀ i, 0 ≤ i < t → Z.testbit w i = false) → 0 ≤ i →
  Z.testbit (Z.land w (w - 1)) i = Z.testbit w i && negb (i =? t).
Proof.
  intros Ht Hbit Hlow Hi. rewrite Z.land_spec.
  assert (w = 2 ^ t * (w / 2 ^ t)) as Hdiv.
  { assert (w mod 2 ^ t = 0) as Hm; [|pose proof (Z.div_mod w (2 ^ t)); lia].
    apply Z.bits_inj'. intros j Hj. rewrite Z.bits_0. destruct (decide (j < t)).
    - rewrite Z.mod_pow2_bits_low by lia. auto.
    - apply Z.mod_pow2_bits_high. lia. }
  assert (Z.odd (w / 2 ^ t) = true) as Hodd.
  { rewrite <-Z.bit0_odd, Z.div_pow2_bits by lia. by rewrite Z.add_0_l. }
  apply Z.odd_spec in Hodd as [k Hk]. pose proof (Z.pow_pos_nonneg 2 t ltac:(lia) Ht) as Hpow.
  destruct (Z.eqb_spec i t) as [->|Hne]; cbn [negb].
  - rewrite andb_false_r. apply andb_false_iff. right.
    pose proof (Z.div_pow2_bits (w - 1) t 0 Ht ltac:(lia)) as Hb. rewrite Z.add_0_l in Hb. rewrite <-Hb.
    replace ((w - 1) / 2 ^ t) with (2 * k); [apply Z.testbit_even_0|].
    apply (Z.div_unique _ _ _ (2 ^ t - 1)); [lia|]. nia.
  - rewrite andb_true_r. destruct (decide (i < t)); [by rewrite Hlow by lia|].
    rewrite <-(andb_diag (Z.testbit w i)) at 2. f_equal.
    pose proof (λ x, Z.div_pow2_bits x (t + 1) (i - t - 1) ltac:(lia) ltac:(lia)) as Hb.
    replace (i - t - 1 + (t + 1)) with i in Hb by lia. rewrite <-!Hb. f_equal.
    rewrite Z.pow_add_r, Z.pow_1_r by lia.
    transitivity k; [symmetry|].
    + apply (Z.div_unique _ _ _ (2 ^ t - 1)); nia.
    + apply (Z.div_unique _ _ _ (2 ^ t)); nia.
Qed.

Lemma word_bits_clear_lowest w : word_bits (Z.land w (w - 1)) = tail (word_bits w).
Proof.
  destruct (word_bits w) as [|t l] eqn:E.
  { apply elem_of_nil_inv. intros i [Hi Hb]%elem_of_word_bits.
    rewrite Z.land_spec in Hb. apply andb_true_iff in Hb as [Hb _].
    assert (i ∈ word_bits w) as Hin by (by apply elem_of_word_bits). rewrite E in Hin. set_solver. }
  destruct (head_lowest w t) as (Ht & Hbit & Hlow); [by rewrite E|].
  pose proof (word_bits_ascending w) as Ha. rewrite E in Ha. apply ascending_inv in Ha as [Hl Htl].
  cbn [tail]. apply ascending_ext; [apply word_bits_ascending|done|]. intros i.
  rewrite elem_of_word_bits.
  assert (i ∈ word_bits w ↔ i = t ∨ i ∈ l) as Hiff by (by rewrite E, elem_of_cons).
  rewrite elem_of_word_bits in Hiff. specialize (Htl i).
  split.
  - intros [Hi Hb]. rewrite (clear_lowest_testbit w t) in Hb by (done || lia).
    apply andb_true_iff in Hb as [Hb ?%negb_true_iff%Z.eqb_neq]. tauto.
  - intros Hin. destruct Hiff as [_ [Hi Hb]]; [by right|]. split; [done|].
    rewrite (clear_lowest_testbit w t), Hb by (done || lia).
    apply Htl in Hin. by rewrite (proj2 (Z.eqb_neq i t)) by lia.
Qed.

(** ** Arrays of words *)

Lemma word_at_0 w ws : word_at (w :: ws) 0 = w.
Proof. done. Qed.
Lemma word_at_succ w ws i : 0 ≤ i → word_at (w :: ws) (1 + i) = word_at ws i.
Proof. intros. unfold word_at. by rewrite Z2Nat.inj_add by lia. Qed.

Lemma word_at_Forall (P : Z → Prop) ws i : P 0 → Forall P ws → P (word_at ws i).
Proof.
  intros H0 Hws. unfold word_at. destruct (ws !! Z.to_nat i) as [w|] eqn:E; [|done].
  cbn. by eapply Forall_lookup_1.
Qed.

Lemma elem_of_shifted_word base w v :
  v ∈ (Z.add base <$> word_bits w) ↔ base ≤ v < base + 64 ∧ Z.testbit w (v - base) = true.
Proof.
  rewrite list_elem_of_fmap. setoid_rewrite elem_of_word_bits. split.
  - intros (i & -> & Hi & Hb). replace (base + i - base) with i by lia. split; [lia|done].
  - intros [Hv Hb]. exists (v - base). split_and!; [lia..|done].
Qed.

Section bits_from.
Context (s : Z) (Hs : 0 < s ≤ 64).

Lemma elem_of_bits_from base ws v :
  Forall (λ w, 0 ≤ w < 2 ^ s) ws →
  v ∈ bits_from s base ws ↔
    base ≤ v < base + s * zlen ws ∧
    Z.testbit (word_at ws ((v - base) / s)) ((v - base) mod s) = true.
Proof using Hs.
  intros Hws. revert base. induction Hws as [|w ws Hw Hws IH]; intros base; cbn [bits_from].
  { unfold zlen. cbn. split; [by intros ?%not_elem_of_nil|lia]. }
  pose proof (zlen_nonneg ws). rewrite elem_of_app, elem_of_shifted_word, IH, zlen_cons.
  destruct (decide (v - base < s)) as [Hlt|Hge].
  - split; [|intros [Hv Hb]; left].
    + intros [[Hv Hb]|[? _]]; [|lia]. split; [lia|].
      by rewrite Z.div_small, Z.mod_small, word_at_0 by lia.
    + split; [lia|]. by rewrite Z.div_small, Z.mod_small, word_at_0 in Hb by lia.
  - assert (∀ x, x - s = x + (-1) * s) as Hshift by lia.
    replace (v - (base + s)) with (v - base - s) by lia.
    rewrite Hshift, Z.div_add, Z.mod_add by lia.
    split; [|intros [Hv Hb]; right].
    + intros [[Hv Hb]|[Hv Hb]]; [by rewrite (testbit_above s w) in Hb by lia|].
      split; [lia|]. rewrite <-Hb. f_equal.
      replace ((v - base) / s) with (1 + ((v - base) / s + -1)) at 1 by lia.
      apply word_at_succ. pose proof (Z.div_le_lower_bound (v - base) s 1). lia.
    + split; [lia|]. rewrite <-Hb. f_equal.
      replace ((v - base) / s) with (1 + ((v - base) / s + -1)) at 2 by lia.
      symmetry. apply word_at_succ. pose proof (Z.div_le_lower_bound (v - base) s 1). lia.
Qed.

Lemma bits_from_ascending base ws :
  Forall (λ w, 0 ≤ w < 2 ^ s) ws → ascending (bits_from s base ws).
Proof using Hs.
  intros Hws. revert base. induction Hws as [|w ws Hw Hws IH]; intros base; [constructor|].
  cbn [bits_from]. apply ascending_app. split_and!; [|apply ascending_fmap; [lia|apply word_bits_ascending]|done].
  intros x y [Hx Hb]%elem_of_shifted_word Hy%elem_of_bits_from; [|done].
  destruct (decide (x - base < s)); [lia|]. by rewrite (testbit_above s w) in Hb by lia.
Qed.
End bits_from.

Lemma bits_from_app s base ws xs :
  bits_from s base (ws ++ xs) = bits_from s base ws ++ bits_from s (base + s * zlen ws) xs.
Proof.
  revert base. induction ws as [|w ws IH]; intros base; cbn [bits_from app].
  - f_equal. unfold zlen. cbn. lia.
  - rewrite IH, app_assoc, zlen_cons. do 2 f_equal. lia.
Qed.

Lemma zlen_bits_from s base ws : zlen (bits_from s base ws) = zsum (count_ones <$> ws).
Proof.
  revert base. induction ws as [|w ws IH]; intros base; [done|].
  cbn [bits_from]. rewrite zlen_app, zlen_fmap, IH. done.
Qed.

Lemma zsum_app l k : zsum (l ++ k) = zsum l + zsum k.
Proof. induction l as [|x l IH]; cbn; [done|]. fold (zsum (l ++ k)) (zsum l). lia. Qed.

Lemma zsum_count_ones_bound ws : 0 ≤ zsum (count_ones <$> ws) ≤ 64 * zlen ws.
Proof.
  induction ws as [|w ws IH]; [done|]. rewrite zlen_cons. cbn.
  fold (zsum (count_ones <$> ws)). pose proof (count_ones_bound w). lia.
Qed.

(** ** A word is its eight bytes *)

Lemma word_byte_range w i : 0 ≤ word_byte w i < 2 ^ 8.
Proof.
  unfold word_byte. change 255 with (Z.ones 8). rewrite Z.land_ones by lia.
  apply Z.mod_pos_bound. lia.
Qed.

Lemma word_byte_testbit w i j : 0 ≤ i → 0 ≤ j < 8 → Z.testbit (word_byte w i) j = Z.testbit w (8 * i + j).
Proof.
  intros Hi Hj. unfold word_byte. change 255 with (Z.ones 8).
  rewrite Z.land_ones, Z.mod_pow2_bits_low, Z.shiftr_spec by lia. f_equal. lia.
Qed.

Lemma word_bytes_at w i : 0 ≤ i < 8 → word_at (word_bytes w) i = word_byte w i.
Proof.
  intros Hi. unfold word_at, word_bytes. rewrite list_lookup_fmap, lookup_seqZ_lt by lia.
  cbn. f_equal. lia.
Qed.

Lemma word_bits_bytes w : word_bits w = bits_from 8 0 (word_bytes w).
Proof.
  assert (Forall (λ x, 0 ≤ x < 2 ^ 8) (word_bytes w)) as Hb.
  { apply Forall_fmap, Forall_forall. intros i _. apply word_byte_range. }
  apply ascending_ext; [apply word_bits_ascending|by apply bits_from_ascending|].
  intros v. rewrite elem_of_word_bits, elem_of_bits_from by (done || lia).
  rewrite Z.sub_0_r. change (zlen (word_bytes w)) with 8.
  pose proof (Z.div_mod v 8 ltac:(lia)). pose proof (Z.mod_pos_bound v 8 ltac:(lia)).
  split; intros [Hv Hbit]; (split; [lia|]); rewrite <-Hbit; [|symmetry];
    rewrite word_bytes_at, word_byte_testbit by lia; f_equal; lia.
Qed.

Lemma count_ones_bytes w : count_ones w = zsum (count_ones <$> word_bytes w).
Proof. unfold count_ones at 1. by rewrite word_bits_bytes, zlen_bits_from. Qed.

(** ** Draining a word from its lowest bit

    [while w != 0 { use(w.trailing_zeros()); w &= w - 1; }]; a word has at most 64
    set bits, so 64 rounds of fuel empty it. *)
Fixpoint drain (fuel : nat) (w : Z) : list Z :=
  match fuel with
  | O => []
  | S fuel => if w =? 0 then [] else trailing_zeros w :: drain fuel (Z.land w (w - 1))
  end.

Lemma drain_word_bits fuel w :
  u64 w → (length (word_bits w) ≤ fuel)%nat → drain fuel w = word_bits w.
Proof.
  revert w. induction fuel as [|fuel IH]; intros w Hw Hf; cbn [drain].
  { destruct (word_bits w); [done|cbn in Hf; lia]. }
  destruct (Z.eqb_spec w 0) as [->|Hne]; [done|].
  rewrite IH; rewrite ?word_bits_clear_lowest; [|by apply u64_land|].
  - unfold trailing_zeros. destruct (word_bits w) eqn:E; [|done].
    by apply word_bits_nil in E.
  - destruct (word_bits w); cbn in *; lia.
Qed.

Lemma drain_64 w : u64 w → drain 64 w = word_bits w.
Proof.
  intros Hw. apply drain_word_bits; [done|].
  pose proof (count_ones_bound w) as H. unfold count_ones, zlen in H. lia.
Qed.

(** ** The 65536-bit arrays of the bitset containers *)

Definition BITSET_WORDS : Z := 1024.
Definition zero_bits : list Z := replicate (Z.to_nat BITSET_WORDS) 0.

Definition wf_bits (ws : list Z) : Prop := zlen ws = BITSET_WORDS ∧ Forall u64 ws.

(** The positions an array holds, ascending. *)
Definition bits_values (ws : list Z) : list Z := bits_from 64 0 ws.

Lemma zero_bits_wf : wf_bits zero_bits.
Proof. split; [done|]. by apply Forall_replicate. Qed.

Lemma bits_values_ascending ws : wf_bits ws → ascending (bits_values ws).
Proof. intros [_ Hws]. by apply bits_from_ascending. Qed.

Lemma elem_of_bits_values ws v : wf_bits ws → (v ∈ bits_values ws ↔ u16 v ∧ bit_at ws v = true).
Proof.
  intros [Hlen Hws]. unfold bits_values. rewrite elem_of_bits_from by (done || lia).
  by rewrite Hlen, Z.sub_0_r.
Qed.

Lemma zlen_bits_values ws : zlen (bits_values ws) = zsum (count_ones <$> ws).
Proof. apply zlen_bits_from. Qed.

Lemma word_at_u64 ws i : wf_bits ws → u64 (word_at ws i).
Proof. intros [_ Hws]. by apply word_at_Forall. Qed.

Lemma u16_word v : u16 v → 0 ≤ v / 64 < 1024 ∧ 0 ≤ v mod 64 < 64.
Proof. unfold u16. intros Hv. pose proof (Z.div_mod v 64). pose proof (Z.mod_pos_bound v 64). lia. Qed.

Lemma word_lookup ws i : wf_bits ws → 0 ≤ i < 1024 → ws !! Z.to_nat i = Some (word_at ws i).
Proof.
  intros [Hlen _] Hi. unfold word_at. unfold zlen, BITSET_WORDS in Hlen.
  destruct (lookup_lt_is_Some_2 ws (Z.to_nat i)) as [w ->]; [lia|done].
Qed.

(** Equal sets of positions, equal arrays. *)
Lemma bits_ext a b :
  wf_bits a → wf_bits b → (∀ v, u16 v → bit_at a v = bit_at b v) → a = b.
Proof.
  intros Ha Hb Hext. apply list_eq_same_length with (length a); [|done|].
  { destruct Ha as [Ha _], Hb as [Hb _]. unfold zlen in *. lia. }
  intros i x y Hi Hx Hy.
  assert (Z.of_nat i < 1024) as Hi' by (destruct Ha as [Ha _]; unfold zlen, BITSET_WORDS in Ha; lia).
  pose proof (word_lookup a (Z.of_nat i) Ha ltac:(lia)) as Hxa.
  pose proof (word_lookup b (Z.of_nat i) Hb ltac:(lia)) as Hyb. rewrite Nat2Z.id in *. simplify_eq.
  apply u64_ext; [by apply word_at_u64..|]. intros j Hj.
  specialize (Hext (64 * Z.of_nat i + j)). unfold bit_at in Hext.
  rewrite (Z.mul_comm 64), Z.div_add_l, Z.div_small, Z.add_0_r in Hext by lia.
  rewrite Z.add_comm, Z.mod_add, Z.mod_small in Hext by lia. apply Hext. unfold u16. lia.
Qed.

(** *** Updating one word *)

Definition word_update (f : Z → Z) (i : Z) (ws : list Z) : list Z := alter f (Z.to_nat i) ws.

Lemma word_update_wf f i ws : (∀ w, u64 w → u64 (f w)) → wf_bits ws → wf_bits (word_update f i ws).
Proof.
  intros Hf [Hlen Hws]. split.
  - unfold word_update, zlen. by rewrite length_alter.
  - apply Forall_alter; [done|]. intros w Hw Hu. auto.
Qed.

Lemma bit_at_word_update f i ws v :
  wf_bits ws → u16 v → 0 ≤ i →
  bit_at (word_update f i ws) v =
    if v / 64 =? i then Z.testbit (f (word_at ws i)) (v mod 64) else bit_at ws v.
Proof.
  intros Hws Hv%u16_word Hi. unfold bit_at, word_update, word_at at 1.
  destruct (Z.eqb_spec (v / 64) i) as [<-|Hne].
  - pose proof (word_lookup ws (v / 64) Hws ltac:(lia)) as Hl. by rewrite list_lookup_alter_eq, Hl.
  - by rewrite list_lookup_alter_ne by lia.
Qed.

(** *** Word-wise combination *)

Lemma zip_with_wf f a b :
  (∀ x y, u64 x → u64 y → u64 (f x y)) → wf_bits a → wf_bits b → wf_bits (zip_with f a b).
Proof.
  intros Hf [Hla Ha] [Hlb Hb]. split.
  - unfold zlen in *. rewrite length_zip_with. lia.
  - rewrite Forall_lookup in Ha, Hb |- *. intros i z.
    rewrite lookup_zip_with_Some. intros (x & y & -> & Hx & Hy). eauto.
Qed.

Lemma bit_at_zip_with f a b v :
  wf_bits a → wf_bits b → u16 v →
  bit_at (zip_with f a b) v = Z.testbit (f (word_at a (v / 64)) (word_at b (v / 64))) (v mod 64).
Proof.
  intros Ha Hb Hv%u16_word. unfold bit_at at 1, word_at at 1.
  by rewrite lookup_zip_with, !word_lookup by (done || lia).
Qed.
