(* ===== verification/Popcount.v ===== *)
(** * Popcount: counting the set bits of a word slice

    [src/minnal_db/src/index/simd_support/popcount.rs]: the scalar sum and the
    NEON, AVX2 and AVX-512 kernels.  A kernel keeps an accumulator register of [L]
    64-bit lanes, adds the counts of one register of words per round, reduces the
    lanes and finishes on the tail.  All of them compute the number of set bits
    modulo 2^64. *)
From S2P Require Import Prelude Slices ArrayMerge Words.

(** [for &word in tail { total += word.count_ones() as usize }] *)
Definition add_tail (total : Z) (tail : list Z) : Z :=
  foldl (λ t w, u64_add t (count_ones w)) total tail.

Definition popcount_scalar (data : list Z) : Z := add_tail 0 data.

(** The register loop: [counts] maps one register of [L] words to its lane counts. *)
Fixpoint lane_sums (L : nat) (counts : list Z → list Z) (acc data : list Z) (chunks : nat) : list Z :=
  match chunks with
  | O => acc
  | S chunks =>
      lane_sums L counts (zip_with u64_add acc (counts (take L data))) (drop L data) chunks
  end.

Definition popcount_lanes (L : nat) (counts : list Z → list Z) (reduce : list Z → Z)
    (data : list Z) : Z :=
  let chunks := (length data / L)%nat in
  let acc := lane_sums L counts (replicate L 0) data chunks in
  add_tail (reduce acc) (drop (chunks * L) data).

Definition lane (acc : list Z) (i : nat) : Z := default 0 (acc !! i).

(** *** NEON: per-byte counts, then widening pairwise additions *)
Fixpoint vpaddl (l : list Z) : list Z :=
  match l with x :: y :: l => (x + y) :: vpaddl l | _ => [] end.
Definition neon_counts (chunk : list Z) : list Z :=
  vpaddl (vpaddl (vpaddl (count_ones <$> (chunk ≫= word_bytes)))).
Definition popcount_neon : list Z → Z :=
  popcount_lanes 2 neon_counts (λ acc, u64_add (lane acc 0) (lane acc 1)).

(** *** AVX2: nibble table, then byte sums per word *)
Definition nibble_lookup : list Z := [0; 1; 1; 2; 1; 2; 2; 3; 1; 2; 2; 3; 2; 3; 3; 4].
Definition nibble_count (b : Z) : Z :=
  let lo := Z.land b 15 in
  let hi := Z.land (Z.shiftr b 4) 15 in
  lane nibble_lookup (Z.to_nat lo) + lane nibble_lookup (Z.to_nat hi).
Definition avx2_counts (chunk : list Z) : list Z :=
  (λ w, zsum (nibble_count <$> word_bytes w)) <$> chunk.
Definition avx2_reduce (acc : list Z) : Z :=
  let sum128 := [u64_add (lane acc 0) (lane acc 2); u64_add (lane acc 1) (lane acc 3)] in
  u64_add (lane sum128 0) (lane sum128 1).
Definition popcount_avx2 : list Z → Z := popcount_lanes 4 avx2_counts avx2_reduce.

(** *** AVX-512: a count per lane *)
Definition reduce_add (acc : list Z) : Z := foldr u64_add 0 acc.
Definition popcount_avx512vpopcntdq : list Z → Z :=
  popcount_lanes 8 (fmap count_ones) reduce_add.

Definition popcount_u64_slice `{Cpu} (data : list Z) : Z :=
  if target_x86_64 && (avx512vpopcntdq && avx512f) then popcount_avx512vpopcntdq data
  else if target_x86_64 && avx2 then popcount_avx2 data
  else if target_aarch64 then popcount_neon data
  else popcount_scalar data.

(** ** Every kernel counts the set bits *)

Lemma wrap_add_l a b : wrap 64 (wrap 64 a + b) = wrap 64 (a + b).
Proof. apply Zplus_mod_idemp_l. Qed.
Lemma wrap_add_r a b : wrap 64 (a + wrap 64 b) = wrap 64 (a + b).
Proof. apply Zplus_mod_idemp_r. Qed.

Lemma add_tail_spec total tail :
  wrap 64 (add_tail total tail) = wrap 64 (total + zsum (count_ones <$> tail)).
Proof.
  unfold add_tail. revert total. induction tail as [|w tail IH]; intros total; cbn.
  - by rewrite Z.add_0_r.
  - rewrite IH. unfold u64_add. rewrite wrap_add_l. f_equal. unfold zsum. lia.
Qed.

Lemma add_tail_wrapped total tail :
  u64 total → add_tail total tail = wrap 64 (total + zsum (count_ones <$> tail)).
Proof.
  intros Ht. rewrite <-add_tail_spec. symmetry. apply wrap_small. change (u64 (add_tail total tail)).
  unfold add_tail. revert total Ht. induction tail as [|w tail IH]; intros total Ht; [done|].
  apply IH, wrap_u64.
Qed.

Lemma zsum_zip_add acc c :
  length acc = length c → wrap 64 (zsum (zip_with u64_add acc c)) = wrap 64 (zsum acc + zsum c).
Proof.
  revert c. induction acc as [|a acc IH]; intros [|x c] Hlen; simplify_eq/=; [done|].
  specialize (IH c Hlen). unfold u64_add at 1. rewrite wrap_add_l, <-wrap_add_r.
  unfold zsum in *. rewrite IH, wrap_add_r. f_equal. lia.
Qed.

Lemma reduce_add_spec acc : reduce_add acc = wrap 64 (zsum acc).
Proof.
  induction acc as [|a acc IH]; [done|]. unfold reduce_add in *. cbn. rewrite IH.
  unfold u64_add. by rewrite wrap_add_r.
Qed.

(** What a kernel's counting step must satisfy. *)
Definition counts_ok (counts : list Z → list Z) : Prop := ∀ chunk, counts chunk = count_ones <$> chunk.

Section lanes.
Context (L : nat) (counts : list Z → list Z) (Hcounts : counts_ok counts).

Lemma length_lane_sums acc data chunks :
  length acc = L → (chunks * L ≤ length data)%nat → length (lane_sums L counts acc data chunks) = L.
Proof using Hcounts.
  revert acc data. induction chunks as [|chunks IH]; intros acc data Hacc Hle; [done|].
  cbn [lane_sums Nat.mul] in *. apply IH; [|rewrite length_drop; lia].
  rewrite length_zip_with, Hcounts, length_fmap, length_take. lia.
Qed.

Lemma zsum_lane_sums acc data chunks :
  length acc = L → (chunks * L ≤ length data)%nat →
  wrap 64 (zsum (lane_sums L counts acc data chunks)) =
    wrap 64 (zsum acc + zsum (count_ones <$> take (chunks * L) data)).
Proof using Hcounts.
  revert acc data. induction chunks as [|chunks IH]; intros acc data Hacc Hle; cbn [lane_sums Nat.mul] in *.
  { by rewrite Z.add_0_r. }
  assert (length (counts (take L data)) = L) as Hlen.
  { rewrite Hcounts, length_fmap, length_take. lia. }
  rewrite IH; [|rewrite length_zip_with; lia|rewrite length_drop; lia].
  rewrite <-wrap_add_l, zsum_zip_add, wrap_add_l by congruence. f_equal.
  rewrite Hcounts, <-take_take_drop, fmap_app, zsum_app. by rewrite Z.add_assoc.
Qed.

Lemma popcount_lanes_spec reduce data :
  (∀ acc, length acc = L → reduce acc = wrap 64 (zsum acc)) →
  popcount_lanes L counts reduce data = wrap 64 (zsum (count_ones <$> data)).
Proof using Hcounts.
  intros Hreduce. unfold popcount_lanes. cbv zeta.
  assert (length data / L * L ≤ length data)%nat as Hle.
  { rewrite Nat.mul_comm. apply Nat.Div0.mul_div_le. }
  pose proof (length_replicate L 0) as Hrep.
  rewrite Hreduce by (apply length_lane_sums; done).
  rewrite add_tail_wrapped by apply wrap_u64. rewrite wrap_add_l, <-wrap_add_l.
  rewrite zsum_lane_sums by done. rewrite wrap_add_l. f_equal.
  rewrite <-(take_drop (length data / L * L) data) at 5. rewrite fmap_app, zsum_app.
  enough (zsum (replicate L 0) = 0) by lia. generalize L. by induction 0.
Qed.
End lanes.

Lemma neon_counts_ok : counts_ok neon_counts.
Proof.
  intros chunk. unfold neon_counts. induction chunk as [|w chunk IH]; [done|].
  cbn [mbind list_bind fmap list_fmap]. rewrite fmap_app.
  rewrite count_ones_bytes, <-IH. unfold word_bytes at 1 3.
  change (seqZ 0 8) with [0; 1; 2; 3; 4; 5; 6; 7]. cbn -[count_ones word_byte Z.add word_bytes].
  f_equal. lia.
Qed.

(** The nibble table agrees with [count_ones] on all 256 bytes. *)
Lemma nibble_count_byte b : 0 ≤ b < 2 ^ 8 → nibble_count b = count_ones b.
Proof.
  intros Hb.
  assert (Forall (λ b, nibble_count b = count_ones b) (seqZ 0 256)) as Hall
    by (apply (bool_decide_eq_true_1 _); vm_compute; reflexivity).
  rewrite Forall_forall in Hall. apply Hall, elem_of_seqZ. lia.
Qed.

Lemma avx2_counts_ok : counts_ok avx2_counts.
Proof.
  intros chunk. unfold avx2_counts. apply list_fmap_ext. intros _ w _.
  rewrite count_ones_bytes. f_equal. unfold word_bytes. rewrite <-!list_fmap_compose.
  apply list_fmap_ext. intros _ i _. apply nibble_count_byte, word_byte_range.
Qed.

Ltac explode_lanes :=
  repeat match goal with
  | H : length ?l = S _ |- _ => destruct l; simplify_eq/=
  | H : length ?l = O |- _ => destruct l; simplify_eq/=
  end.

Lemma popcount_u64_slice_spec `{Cpu} data :
  popcount_u64_slice data = wrap 64 (zsum (count_ones <$> data)).
Proof.
  unfold popcount_u64_slice. repeat case_match.
  - apply popcount_lanes_spec; [done|]. intros. apply reduce_add_spec.
  - apply popcount_lanes_spec; [apply avx2_counts_ok|]. intros acc Hacc. explode_lanes.
    unfold avx2_reduce, lane, u64_add. cbn. rewrite wrap_add_l, wrap_add_r. f_equal. lia.
  - apply popcount_lanes_spec; [apply neon_counts_ok|]. intros acc Hacc. explode_lanes.
    unfold lane, u64_add. cbn. f_equal. lia.
  - by apply (add_tail_wrapped 0).
Qed.

(** No wrap-around on the arrays of the bitset containers. *)
Lemma popcount_wf_bits `{Cpu} ws : wf_bits ws → popcount_u64_slice ws = zlen (bits_values ws).
Proof.
  intros [Hlen _]. rewrite popcount_u64_slice_spec, zlen_bits_values. apply wrap_small.
  pose proof (zsum_count_ones_bound ws). unfold BITSET_WORDS in Hlen. lia.
Qed.

(** ** Properties *)

(** Every popcount routine (scalar, NEON, AVX2 and AVX-512 VPOPCNTDQ, chosen by
    the CPU) adds up the ones of the words, wrapping at 64 bits. *)
Theorem popcount_correct `{Cpu} (data : list Z) :
  popcount_u64_slice data = wrap 64 (zsum (count_ones <$> data)).
Proof. apply popcount_u64_slice_spec. Qed.
