(* ===== verification/Bitwise.v ===== *)
(** * Bitwise: AND, OR and AND NOT of 65536-bit arrays

    [src/minnal_db/src/index/simd_support/bitwise.rs].  Every operation exists as a
    scalar loop, as NEON (2 words per register), AVX2 (4) and AVX-512 (8) kernels
    that store register by register and count in a second pass, and as an AVX-512
    kernel that counts in the same pass; and each of those out of place and in
    place.  The in-place kernels return the updated [dst] with the cardinality.
    Whatever the CPU, the result is the word-wise operation and its popcount. *)
From S2P Require Import Prelude Slices ArrayMerge Words Popcount.

Record BitwiseResult := { bits : list Z; cardinality : Z }.

(** ** Loops *)

(** [for i in 0..BITSET_WORDS { bits[i] = op(a[i], b[i]); cardinality += bits[i].count_ones() }] *)
Fixpoint scalar_loop (op : Z → Z → Z) (card : Z) (a b : list Z) : list Z * Z :=
  match a, b with
  | x :: a, y :: b =>
      let w := op x y in
      let '(ws, card) := scalar_loop op (u64_add card (count_ones w)) a b in (w :: ws, card)
  | _, _ => ([], card)
  end.

(** Load and store the register of [W] words at word index [i * W]. *)
Definition vload (W : nat) (ptr : list Z) (i : nat) : list Z := take W (drop (i * W) ptr).
Definition vstore (W : nat) (ptr : list Z) (i : nat) (r : list Z) : list Z :=
  take (i * W) ptr ++ r ++ drop (S i * W) ptr.

Definition chunk_count (W : nat) : nat := (Z.to_nat BITSET_WORDS / W)%nat.

(** [for i in 0..chunks { store(bits, i, op(load(a, i), load(b, i))) }] *)
Fixpoint vector_loop (W : nat) (op : Z → Z → Z) (a b out : list Z) (i chunks : nat) : list Z :=
  match chunks with
  | O => out
  | S chunks =>
      let r := zip_with op (vload W a i) (vload W b i) in
      vector_loop W op a b (vstore W out i r) (S i) chunks
  end.
Fixpoint vector_loop_inplace (W : nat) (op : Z → Z → Z) (dst src : list Z) (i chunks : nat) : list Z :=
  match chunks with
  | O => dst
  | S chunks =>
      let r := zip_with op (vload W dst i) (vload W src i) in
      vector_loop_inplace W op (vstore W dst i r) src (S i) chunks
  end.

(** The fused loops also add the lane counts of each result register. *)
Fixpoint fused_loop (W : nat) (op : Z → Z → Z) (a b out acc : list Z) (i chunks : nat) : list Z * list Z :=
  match chunks with
  | O => (out, acc)
  | S chunks =>
      let r := zip_with op (vload W a i) (vload W b i) in
      fused_loop W op a b (vstore W out i r) (zip_with u64_add acc (count_ones <$> r)) (S i) chunks
  end.
Fixpoint fused_loop_inplace (W : nat) (op : Z → Z → Z) (dst src acc : list Z) (i chunks : nat) : list Z * list Z :=
  match chunks with
  | O => (dst, acc)
  | S chunks =>
      let r := zip_with op (vload W dst i) (vload W src i) in
      fused_loop_inplace W op (vstore W dst i r) src (zip_with u64_add acc (count_ones <$> r)) (S i) chunks
  end.

Definition scalar (op : Z → Z → Z) (a b : list Z) : BitwiseResult :=
  let '(ws, card) := scalar_loop op 0 a b in {| bits := ws; cardinality := card |}.
Definition vector `{Cpu} (W : nat) (op : Z → Z → Z) (a b : list Z) : BitwiseResult :=
  let ws := vector_loop W op a b zero_bits 0 (chunk_count W) in
  {| bits := ws; cardinality := popcount_u64_slice ws |}.
Definition vector_inplace `{Cpu} (W : nat) (op : Z → Z → Z) (dst src : list Z) : list Z * Z :=
  let dst := vector_loop_inplace W op dst src 0 (chunk_count W) in (dst, popcount_u64_slice dst).
Definition fused (op : Z → Z → Z) (a b : list Z) : BitwiseResult :=
  let '(ws, acc) := fused_loop 8 op a b zero_bits (replicate 8 0) 0 (chunk_count 8) in
  {| bits := ws; cardinality := reduce_add acc |}.
Definition fused_inplace (op : Z → Z → Z) (dst src : list Z) : list Z * Z :=
  let '(dst, acc) := fused_loop_inplace 8 op dst src (replicate 8 0) 0 (chunk_count 8) in
  (dst, reduce_add acc).

(** ** Lane operations *)

(** [x & !y] in the scalar loops; NEON's BIC is [x & ~y], the x86 ANDNOT is [~x & y]. *)
Definition and_not_word (x y : Z) : Z := Z.land x (u64_not y).
Definition vbic (x y : Z) : Z := Z.land x (u64_not y).
Definition andnot (x y : Z) : Z := Z.land (u64_not x) y.

(** ** The kernels, by name *)

Definition and_scalar : list Z → list Z → BitwiseResult := scalar Z.land.
Definition and_neon `{Cpu} : list Z → list Z → BitwiseResult := vector 2 Z.land.
Definition and_avx2 `{Cpu} : list Z → list Z → BitwiseResult := vector 4 Z.land.
Definition and_avx512 `{Cpu} : list Z → list Z → BitwiseResult := vector 8 Z.land.
Definition and_avx512_popcnt : list Z → list Z → BitwiseResult := fused Z.land.
Definition and_inplace_scalar (dst src : list Z) : list Z * Z := scalar_loop Z.land 0 dst src.
Definition and_inplace_neon `{Cpu} : list Z → list Z → list Z * Z := vector_inplace 2 Z.land.
Definition and_inplace_avx2 `{Cpu} : list Z → list Z → list Z * Z := vector_inplace 4 Z.land.
Definition and_inplace_avx512 `{Cpu} : list Z → list Z → list Z * Z := vector_inplace 8 Z.land.
Definition and_inplace_avx512_popcnt : list Z → list Z → list Z * Z := fused_inplace Z.land.

Definition or_scalar : list Z → list Z → BitwiseResult := scalar Z.lor.
Definition or_neon `{Cpu} : list Z → list Z → BitwiseResult := vector 2 Z.lor.
Definition or_avx2 `{Cpu} : list Z → list Z → BitwiseResult := vector 4 Z.lor.
Definition or_avx512 `{Cpu} : list Z → list Z → BitwiseResult := vector 8 Z.lor.
Definition or_avx512_popcnt : list Z → list Z → BitwiseResult := fused Z.lor.
Definition or_inplace_scalar (dst src : list Z) : list Z * Z := scalar_loop Z.lor 0 dst src.
Definition or_inplace_neon `{Cpu} : list Z → list Z → list Z * Z := vector_inplace 2 Z.lor.
Definition or_inplace_avx2 `{Cpu} : list Z → list Z → list Z * Z := vector_inplace 4 Z.lor.
Definition or_inplace_avx512 `{Cpu} : list Z → list Z → list Z * Z := vector_inplace 8 Z.lor.
Definition or_inplace_avx512_popcnt : list Z → list Z → list Z * Z := fused_inplace Z.lor.

Definition and_not_scalar : list Z → list Z → BitwiseResult := scalar and_not_word.
Definition and_not_neon `{Cpu} : list Z → list Z → BitwiseResult := vector 2 vbic.
Definition and_not_avx2 `{Cpu} : list Z → list Z → BitwiseResult := vector 4 (λ va vb, andnot vb va).
Definition and_not_avx512 `{Cpu} : list Z → list Z → BitwiseResult := vector 8 (λ va vb, andnot vb va).
Definition and_not_avx512_popcnt : list Z → list Z → BitwiseResult := fused (λ va vb, andnot vb va).
Definition and_not_inplace_scalar (dst src : list Z) : list Z * Z := scalar_loop and_not_word 0 dst src.
Definition and_not_inplace_neon `{Cpu} : list Z → list Z → list Z * Z := vector_inplace 2 vbic.
Definition and_not_inplace_avx2 `{Cpu} : list Z → list Z → list Z * Z := vector_inplace 4 (λ va vb, andnot vb va).
Definition and_not_inplace_avx512 `{Cpu} : list Z → list Z → list Z * Z := vector_inplace 8 (λ va vb, andnot vb va).
Definition and_not_inplace_avx512_popcnt : list Z → list Z → list Z * Z := fused_inplace (λ va vb, andnot vb va).

(** ** Entry points: the widest kernel the CPU has *)

Definition bitwise_and `{Cpu} (a b : list Z) : BitwiseResult :=
  if target_x86_64 && (avx512vpopcntdq && avx512f) then and_avx512_popcnt a b
  else if target_x86_64 && avx512f then and_avx512 a b
  else if target_x86_64 && avx2 then and_avx2 a b
  else if target_aarch64 then and_neon a b
  else and_scalar a b.
Definition and_inplace `{Cpu} (dst src : list Z) : list Z * Z :=
  if target_x86_64 && (avx512vpopcntdq && avx512f) then and_inplace_avx512_popcnt dst src
  else if target_x86_64 && avx512f then and_inplace_avx512 dst src
  else if target_x86_64 && avx2 then and_inplace_avx2 dst src
  else if target_aarch64 then and_inplace_neon dst src
  else and_inplace_scalar dst src.
Definition bitwise_or `{Cpu} (a b : list Z) : BitwiseResult :=
  if target_x86_64 && (avx512vpopcntdq && avx512f) then or_avx512_popcnt a b
  else if target_x86_64 && avx512f then or_avx512 a b
  else if target_x86_64 && avx2 then or_avx2 a b
  else if target_aarch64 then or_neon a b
  else or_scalar a b.
Definition or_inplace `{Cpu} (dst src : list Z) : list Z * Z :=
  if target_x86_64 && (avx512vpopcntdq && avx512f) then or_inplace_avx512_popcnt dst src
  else if target_x86_64 && avx512f then or_inplace_avx512 dst src
  else if target_x86_64 && avx2 then or_inplace_avx2 dst src
  else if target_aarch64 then or_inplace_neon dst src
  else or_inplace_scalar dst src.
Definition bitwise_and_not `{Cpu} (a b : list Z) : BitwiseResult :=
  if target_x86_64 && (avx512vpopcntdq && avx512f) then and_not_avx512_popcnt a b
  else if target_x86_64 && avx512f then and_not_avx512 a b
  else if target_x86_64 && avx2 then and_not_avx2 a b
  else if target_aarch64 then and_not_neon a b
  else and_not_scalar a b.
Definition and_not_inplace `{Cpu} (dst src : list Z) : list Z * Z :=
  if target_x86_64 && (avx512vpopcntdq && avx512f) then and_not_inplace_avx512_popcnt dst src
  else if target_x86_64 && avx512f then and_not_inplace_avx512 dst src
  else if target_x86_64 && avx2 then and_not_inplace_avx2 dst src
  else if target_aarch64 then and_not_inplace_neon dst src
  else and_not_inplace_scalar dst src.

(** ** Correctness *)

(** What every kernel of [op] returns. *)
Definition op_words (op : Z → Z → Z) (a b : list Z) : list Z := zip_with op a b.
Definition is_result (ws : list Z) (r : BitwiseResult) : Prop :=
  bits r = ws ∧ cardinality r = zlen (bits_values ws).
Definition is_result_inplace (ws : list Z) (r : list Z * Z) : Prop :=
  r.1 = ws ∧ r.2 = zlen (bits_values ws).

Definition op_u64 (op : Z → Z → Z) : Prop := ∀ x y, u64 x → u64 y → u64 (op x y).

Lemma scalar_loop_words op card a b : (scalar_loop op card a b).1 = zip_with op a b.
Proof.
  revert card b. induction a as [|x a IH]; intros card [|y b]; [done..|]. cbn.
  specialize (IH (u64_add card (count_ones (op x y))) b).
  destruct (scalar_loop _ _ a b). cbn in *. by f_equal.
Qed.

Lemma scalar_loop_card op card a b : (scalar_loop op card a b).2 = add_tail card (zip_with op a b).
Proof.
  revert card b. induction a as [|x a IH]; intros card [|y b]; [done..|]. cbn.
  specialize (IH (u64_add card (count_ones (op x y))) b).
  destruct (scalar_loop _ _ a b). done.
Qed.

Lemma wf_bits_card ws : wf_bits ws → wrap 64 (zsum (count_ones <$> ws)) = zlen (bits_values ws).
Proof.
  intros [Hlen _]. rewrite zlen_bits_values. apply wrap_small.
  pose proof (zsum_count_ones_bound ws). unfold BITSET_WORDS in Hlen. lia.
Qed.

(** After [i] rounds the first [i * W] words are the result, the rest is untouched. *)
Definition vector_done (W : nat) (op : Z → Z → Z) (a b out : list Z) (i : nat) : list Z :=
  take (i * W) (zip_with op a b) ++ drop (i * W) out.

Lemma vstore_done W op a b out i :
  length a = length b → length out = length a → (S i * W ≤ length a)%nat →
  vstore W (vector_done W op a b out i) i (zip_with op (vload W a i) (vload W b i)) =
    vector_done W op a b out (S i).
Proof.
  intros Hab Hout Hi. unfold vstore, vload, vector_done.
  assert (length (take (i * W) (zip_with op a b)) = (i * W)%nat) as Hlen.
  { rewrite length_take, length_zip_with. lia. }
  rewrite take_app_length' by done.
  rewrite drop_app_ge, Hlen, drop_drop by lia.
  replace (i * W + (S i * W - i * W))%nat with (S i * W)%nat by lia.
  replace (S i * W)%nat with (i * W + W)%nat by lia.
  rewrite <-take_take_drop, <-app_assoc. do 2 f_equal.
  by rewrite <-zip_with_take, <-zip_with_drop.
Qed.

Lemma vector_loop_done W op a b out i chunks :
  length a = length b → length out = length a → ((i + chunks) * W ≤ length a)%nat →
  vector_loop W op a b (vector_done W op a b out i) i chunks = vector_done W op a b out (i + chunks).
Proof.
  intros Hab Hout. revert i. induction chunks as [|chunks IH]; intros i Hi; cbn [vector_loop].
  { by rewrite Nat.add_0_r. }
  cbv zeta. rewrite vstore_done by lia. rewrite IH by lia. f_equal. lia.
Qed.

(** In place, round [i] still reads the words of the original [dst]. *)
Lemma vload_done W op a b i :
  length a = length b → (i * W ≤ length a)%nat → vload W (vector_done W op a b a i) i = vload W a i.
Proof.
  intros Hab Hi. unfold vload, vector_done. f_equal.
  rewrite drop_app_length'; [done|]. rewrite length_take, length_zip_with. lia.
Qed.

Lemma vector_loop_inplace_done W op a b i chunks :
  length a = length b → ((i + chunks) * W ≤ length a)%nat →
  vector_loop_inplace W op (vector_done W op a b a i) b i chunks = vector_done W op a b a (i + chunks).
Proof.
  intros Hab. revert i. induction chunks as [|chunks IH]; intros i Hi; cbn [vector_loop_inplace].
  { by rewrite Nat.add_0_r. }
  cbv zeta. rewrite vload_done, vstore_done by lia. rewrite IH by lia. f_equal. lia.
Qed.

(** The lanes of the fused loops hold the count of the words stored so far. *)
Definition lanes_count (W : nat) (ws acc : list Z) (i : nat) : Prop :=
  length acc = W ∧ wrap 64 (zsum acc) = wrap 64 (zsum (count_ones <$> take (i * W) ws)).

Lemma lanes_count_step W op a b acc i :
  length a = length b → (S i * W ≤ length a)%nat → lanes_count W (zip_with op a b) acc i →
  lanes_count W (zip_with op a b)
    (zip_with u64_add acc (count_ones <$> zip_with op (vload W a i) (vload W b i))) (S i).
Proof.
  intros Hab Hi [Hlen Hsum]. unfold vload.
  assert (zip_with op (take W (drop (i * W) a)) (take W (drop (i * W) b)) =
    take W (drop (i * W) (zip_with op a b))) as -> by (by rewrite zip_with_drop, zip_with_take).
  assert (length (take W (drop (i * W) (zip_with op a b))) = W) as HW.
  { rewrite length_take, length_drop, length_zip_with. lia. }
  split; [rewrite length_zip_with, length_fmap; lia|].
  rewrite zsum_zip_add by (rewrite length_fmap; congruence).
  rewrite <-wrap_add_l, Hsum, wrap_add_l, <-zsum_app, <-fmap_app, take_take_drop.
  do 4 f_equal. lia.
Qed.

Lemma fused_loop_done W op a b out acc i chunks :
  length a = length b → length out = length a → ((i + chunks) * W ≤ length a)%nat →
  lanes_count W (zip_with op a b) acc i →
  let r := fused_loop W op a b (vector_done W op a b out i) acc i chunks in
  r.1 = vector_done W op a b out (i + chunks) ∧ lanes_count W (zip_with op a b) r.2 (i + chunks).
Proof.
  intros Hab Hout. revert i acc. induction chunks as [|chunks IH]; intros i acc Hi Hacc; cbn [fused_loop].
  { by rewrite Nat.add_0_r. }
  rewrite vstore_done by lia. rewrite <-Nat.add_succ_comm.
  apply IH; [lia|]. apply lanes_count_step; [done|lia|done].
Qed.

Lemma fused_loop_inplace_done W op a b acc i chunks :
  length a = length b → ((i + chunks) * W ≤ length a)%nat →
  lanes_count W (zip_with op a b) acc i →
  let r := fused_loop_inplace W op (vector_done W op a b a i) b acc i chunks in
  r.1 = vector_done W op a b a (i + chunks) ∧ lanes_count W (zip_with op a b) r.2 (i + chunks).
Proof.
  intros Hab. revert i acc. induction chunks as [|chunks IH]; intros i acc Hi Hacc; cbn [fused_loop_inplace].
  { by rewrite Nat.add_0_r. }
  rewrite vload_done, vstore_done by lia. rewrite <-Nat.add_succ_comm.
  apply IH; [lia|]. apply lanes_count_step; [done|lia|done].
Qed.

Section kernels.
Context (op : Z → Z → Z) (Hop : op_u64 op) (a b : list Z) (Ha : wf_bits a) (Hb : wf_bits b).

Lemma wf_bits_length ws : wf_bits ws → length ws = Z.to_nat BITSET_WORDS.
Proof using. intros [Hlen _]. unfold zlen in Hlen. lia. Qed.

Lemma vector_done_all W out :
  (chunk_count W * W)%nat = Z.to_nat BITSET_WORDS → length out = Z.to_nat BITSET_WORDS →
  vector_done W op a b out (chunk_count W) = zip_with op a b.
Proof using Ha Hb.
  intros HW Hout. unfold vector_done. rewrite HW, drop_ge by lia. rewrite app_nil_r.
  apply take_ge. rewrite length_zip_with. apply wf_bits_length in Ha, Hb. lia.
Qed.

Lemma op_words_wf : wf_bits (op_words op a b).
Proof using Hop Ha Hb. by apply zip_with_wf. Qed.

Lemma scalar_result : is_result (op_words op a b) (scalar op a b).
Proof using Hop Ha Hb.
  unfold scalar. pose proof (scalar_loop_words op 0 a b) as Hw.
  pose proof (scalar_loop_card op 0 a b) as Hc. destruct (scalar_loop op 0 a b) as [ws card].
  cbn in *. subst. split; [done|]. cbn. rewrite add_tail_wrapped by done.
  apply wf_bits_card, op_words_wf.
Qed.

Lemma scalar_result_inplace : is_result_inplace (op_words op a b) (scalar_loop op 0 a b).
Proof using Hop Ha Hb.
  split; [apply scalar_loop_words|]. rewrite scalar_loop_card, add_tail_wrapped by done.
  apply wf_bits_card, op_words_wf.
Qed.

Section width.
Context (W : nat) (HW : (chunk_count W * W)%nat = Z.to_nat BITSET_WORDS).

Lemma vector_words : vector_loop W op a b zero_bits 0 (chunk_count W) = op_words op a b.
Proof using Ha Hb HW.
  pose proof (wf_bits_length a Ha). pose proof (wf_bits_length b Hb).
  pose proof (wf_bits_length _ zero_bits_wf).
  change zero_bits with (vector_done W op a b zero_bits 0).
  rewrite vector_loop_done by lia. by apply vector_done_all.
Qed.

Lemma vector_words_inplace : vector_loop_inplace W op a b 0 (chunk_count W) = op_words op a b.
Proof using Ha Hb HW.
  pose proof (wf_bits_length a Ha). pose proof (wf_bits_length b Hb).
  change a with (vector_done W op a b a 0) at 1.
  rewrite vector_loop_inplace_done by lia. by apply vector_done_all.
Qed.

Lemma vector_result `{Cpu} : is_result (op_words op a b) (vector W op a b).
Proof using Hop Ha Hb HW.
  unfold vector. rewrite vector_words. split; [done|]. apply popcount_wf_bits, op_words_wf.
Qed.

Lemma vector_result_inplace `{Cpu} :
  is_result_inplace (op_words op a b) (vector_inplace W op a b).
Proof using Hop Ha Hb HW.
  unfold vector_inplace. rewrite vector_words_inplace.
  split; [done|]. apply popcount_wf_bits, op_words_wf.
Qed.
End width.

Lemma lanes_count_0 : lanes_count 8 (zip_with op a b) (replicate 8 0) 0.
Proof using. done. Qed.

Lemma lanes_count_all acc :
  lanes_count 8 (zip_with op a b) acc (chunk_count 8) → reduce_add acc = zlen (bits_values (op_words op a b)).
Proof using Hop Ha Hb.
  intros [_ Hsum]. rewrite reduce_add_spec, Hsum, <-wf_bits_card by apply op_words_wf.
  rewrite take_ge; [done|]. pose proof (wf_bits_length _ op_words_wf) as Hl. unfold op_words in Hl.
  rewrite Hl. apply Nat.eq_le_incl. reflexivity.
Qed.

Lemma chunk_count_8 : (chunk_count 8 * 8)%nat = Z.to_nat BITSET_WORDS.
Proof using. reflexivity. Qed.

Lemma fused_result : is_result (op_words op a b) (fused op a b).
Proof using Hop Ha Hb.
  pose proof (wf_bits_length a Ha). pose proof (wf_bits_length b Hb).
  pose proof (wf_bits_length _ zero_bits_wf).
  pose proof chunk_count_8.
  pose proof (fused_loop_done 8 op a b zero_bits (replicate 8 0) 0 (chunk_count 8)
    ltac:(lia) ltac:(lia) ltac:(lia) lanes_count_0) as [Hw Hc].
  unfold fused. change (vector_done 8 op a b zero_bits 0) with zero_bits in *.
  destruct (fused_loop _ _ _ _ _ _ _ _) as [ws acc]. cbn [fst snd Nat.add] in *.
  rewrite vector_done_all in Hw by (done || lia). subst. split; [done|]. by apply lanes_count_all.
Qed.

Lemma fused_result_inplace : is_result_inplace (op_words op a b) (fused_inplace op a b).
Proof using Hop Ha Hb.
  pose proof (wf_bits_length a Ha). pose proof (wf_bits_length b Hb).
  pose proof chunk_count_8.
  pose proof (fused_loop_inplace_done 8 op a b (replicate 8 0) 0 (chunk_count 8)
    ltac:(lia) ltac:(lia) lanes_count_0) as [Hw Hc].
  unfold fused_inplace. change (vector_done 8 op a b a 0) with a in *.
  destruct (fused_loop_inplace _ _ _ _ _ _ _) as [ws acc]. cbn [fst snd Nat.add] in *.
  rewrite vector_done_all in Hw by (done || lia). subst. split; [done|]. by apply lanes_count_all.
Qed.
End kernels.

(** ** The three operations *)

Lemma land_u64 : op_u64 Z.land.
Proof. intros x y Hx _. by apply u64_land. Qed.
Lemma lor_u64 : op_u64 Z.lor.
Proof. intros x y Hx Hy. by apply u64_lor. Qed.
Lemma and_not_word_u64 : op_u64 and_not_word.
Proof. intros x y Hx _. by apply u64_land. Qed.
#[export] Hint Resolve land_u64 lor_u64 and_not_word_u64 : minnal.

(** ANDNOT with the operands swapped is [x & !y]. *)
Lemma op_words_andnot a b : op_words (λ va vb, andnot vb va) a b = op_words and_not_word a b.
Proof. apply zip_with_ext; [|done..]. intros. unfold andnot, and_not_word. apply Z.land_comm. Qed.

Lemma swapped_andnot_u64 : op_u64 (λ va vb, andnot vb va).
Proof. intros x y Hx _. unfold andnot. rewrite Z.land_comm. by apply u64_land. Qed.
#[export] Hint Resolve swapped_andnot_u64 : minnal.

(** The kernels are matched by name, never by unfolding their loops. *)
#[local] Opaque is_result is_result_inplace scalar vector fused scalar_loop vector_inplace fused_inplace.

Ltac kernel_result :=
  repeat case_match;
  first [ apply fused_result | apply fused_result_inplace | apply vector_result
        | apply vector_result_inplace | apply scalar_result | apply scalar_result_inplace ];
  solve [ auto with minnal | reflexivity | done ].

Section entry_points.
Context `{Cpu} (a b : list Z) (Ha : wf_bits a) (Hb : wf_bits b).

Lemma bitwise_and_result : is_result (op_words Z.land a b) (bitwise_and a b).
Proof using All. unfold bitwise_and. kernel_result. Qed.
Lemma bitwise_or_result : is_result (op_words Z.lor a b) (bitwise_or a b).
Proof using All. unfold bitwise_or. kernel_result. Qed.
Lemma bitwise_and_not_result : is_result (op_words and_not_word a b) (bitwise_and_not a b).
Proof using All. unfold bitwise_and_not. repeat case_match; [rewrite <-op_words_andnot.. | |]; kernel_result. Qed.

Lemma and_inplace_result : is_result_inplace (op_words Z.land a b) (and_inplace a b).
Proof using All. unfold and_inplace. kernel_result. Qed.
Lemma or_inplace_result : is_result_inplace (op_words Z.lor a b) (or_inplace a b).
Proof using All. unfold or_inplace. kernel_result. Qed.
Lemma and_not_inplace_result : is_result_inplace (op_words and_not_word a b) (and_not_inplace a b).
Proof using All. unfold and_not_inplace. repeat case_match; [rewrite <-op_words_andnot.. | |]; kernel_result. Qed.
End entry_points.

(** The result position by position. *)
Lemma bit_at_and a b v :
  wf_bits a → wf_bits b → u16 v → bit_at (op_words Z.land a b) v = bit_at a v && bit_at b v.
Proof. intros Ha Hb Hv. unfold op_words. rewrite bit_at_zip_with by done. apply Z.land_spec. Qed.

Lemma bit_at_or a b v :
  wf_bits a → wf_bits b → u16 v → bit_at (op_words Z.lor a b) v = bit_at a v || bit_at b v.
Proof. intros Ha Hb Hv. unfold op_words. rewrite bit_at_zip_with by done. apply Z.lor_spec. Qed.

Lemma bit_at_and_not a b v :
  wf_bits a → wf_bits b → u16 v →
  bit_at (op_words and_not_word a b) v = bit_at a v && negb (bit_at b v).
Proof.
  intros Ha Hb Hv. pose proof (u16_word v Hv) as [_ Hm]. unfold op_words, and_not_word.
  rewrite bit_at_zip_with, Z.land_spec, u64_not_testbit by (done || lia).
  by rewrite (proj2 (Z.ltb_lt _ 64)), xorb_true_r by lia.
Qed.

(** ** Properties *)

(** On two bitsets the six bitwise entry points store, word by word, the and, or
    and and-not of the operands and return the number of ones of the result, whichever
    of the five kernels (scalar, NEON, AVX2, AVX-512 and fused AVX-512 popcount) the
    CPU selects; the in-place variants agree with the allocating ones. *)
Theorem bitwise_correct `{Cpu} (a b : list Z) :
  wf_bits a → wf_bits b →
  (∀ v, u16 v →
    bit_at (bits (bitwise_and a b)) v = bit_at a v && bit_at b v ∧
    bit_at (bits (bitwise_or a b)) v = bit_at a v || bit_at b v ∧
    bit_at (bits (bitwise_and_not a b)) v = bit_at a v && negb (bit_at b v)) ∧
  cardinality (bitwise_and a b) = zlen (bits_values (bits (bitwise_and a b))) ∧
  cardinality (bitwise_or a b) = zlen (bits_values (bits (bitwise_or a b))) ∧
  cardinality (bitwise_and_not a b) = zlen (bits_values (bits (bitwise_and_not a b))) ∧
  and_inplace a b = (bits (bitwise_and a b), cardinality (bitwise_and a b)) ∧
  or_inplace a b = (bits (bitwise_or a b), cardinality (bitwise_or a b)) ∧
  and_not_inplace a b = (bits (bitwise_and_not a b), cardinality (bitwise_and_not a b)).
Proof.
  intros Ha Hb.
  destruct (bitwise_and_result a b Ha Hb) as [-> ->], (bitwise_or_result a b Ha Hb) as [-> ->],
    (bitwise_and_not_result a b Ha Hb) as [-> ->].
  destruct (and_inplace_result a b Ha Hb) as [H1 H2], (or_inplace_result a b Ha Hb) as [H3 H4],
    (and_not_inplace_result a b Ha Hb) as [H5 H6].
  rewrite (surjective_pairing (and_inplace a b)), (surjective_pairing (or_inplace a b)),
    (surjective_pairing (and_not_inplace a b)), H1, H2, H3, H4, H5, H6.
  split_and!; [|done..].
  intros v Hv. split_and!; [by apply bit_at_and|by apply bit_at_or|by apply bit_at_and_not].
Qed.

Lemma bitwise_correct_witness :
  let a := word_update (λ _, 12) 3 zero_bits in let b := word_update (λ _, 10) 3 zero_bits in
  (∀ v, u16 v →
    bit_at (bits (@bitwise_and avx512_cpu a b)) v = bit_at a v && bit_at b v ∧
    bit_at (bits (@bitwise_or avx512_cpu a b)) v = bit_at a v || bit_at b v ∧
    bit_at (bits (@bitwise_and_not avx512_cpu a b)) v = bit_at a v && negb (bit_at b v)) ∧
  cardinality (@bitwise_and avx512_cpu a b) = zlen (bits_values (bits (@bitwise_and avx512_cpu a b))) ∧
  cardinality (@bitwise_or avx512_cpu a b) = zlen (bits_values (bits (@bitwise_or avx512_cpu a b))) ∧
  cardinality (@bitwise_and_not avx512_cpu a b) = zlen (bits_values (bits (@bitwise_and_not avx512_cpu a b))) ∧
  @and_inplace avx512_cpu a b = (bits (@bitwise_and avx512_cpu a b), cardinality (@bitwise_and avx512_cpu a b)) ∧
  @or_inplace avx512_cpu a b = (bits (@bitwise_or avx512_cpu a b), cardinality (@bitwise_or avx512_cpu a b)) ∧
  @and_not_inplace avx512_cpu a b =
    (bits (@bitwise_and_not avx512_cpu a b), cardinality (@bitwise_and_not avx512_cpu a b)).
Proof.
  cbv zeta. apply (@bitwise_correct avx512_cpu);
    (apply word_update_wf; [intros x _; unfold u64; lia|apply zero_bits_wf]).
Defined.
