(* ===== verification/Extract.v ===== *)
(** * Extract: from a bit array to its sorted values

    [src/minnal_db/src/index/simd_support/extract.rs]: the bit-by-bit scalar loop,
    the byte-table expansion of a word, and the NEON, AVX2 and AVX-512 scans that
    skip groups of zero words.  All of them return the set positions in ascending
    order; [u16] additions are the wrapping ones and never wrap here. *)
From S2P Require Import Prelude Slices ArrayMerge Words.

Definition DENSE_EXTRACT_THRESHOLD : Z := 1024.

(** ** Compile-time tables *)

(** One row: the drained positions of a byte, padded with zeros to eight entries. *)
Definition bit_positions_row (byte : Z) : list Z := take 8 (drain 64 byte ++ replicate 8 0).
Definition BIT_POSITIONS : list (list Z) := bit_positions_row <$> seqZ 0 256.
Definition BIT_COUNTS : list Z := count_ones <$> seqZ 0 256.

(** ** Expanding one word through the tables *)

Definition byte_positions (byte_base byte : Z) : list Z :=
  let n := default 0 (BIT_COUNTS !! Z.to_nat byte) in
  let row := default [] (BIT_POSITIONS !! Z.to_nat byte) in
  (λ j, u16_add byte_base (default 0 (row !! Z.to_nat j))) <$> seqZ 0 n.

Definition push_word_positions (word base : Z) : list Z :=
  seqZ 0 8 ≫= λ byte_idx,
    let byte := Z.land (Z.shiftr word (u16_mul byte_idx 8)) 255 in
    if byte =? 0 then []
    else byte_positions (u16_add base (u16_mul byte_idx 8)) byte.

(** ** Loops over the words *)

(** Every loop appends, word by word, what [f word_idx word] pushes. *)
Fixpoint per_word (f : Z → Z → list Z) (word_idx : Z) (bits : list Z) : list Z :=
  match bits with
  | [] => []
  | word :: bits => f word_idx word ++ per_word f (word_idx + 1) bits
  end.

Definition extract_scalar (bits : list Z) : list Z :=
  per_word (λ i word, (λ bit_pos, u16_add (u16_mul (wrap 16 i) 64) bit_pos) <$> drain 64 word) 0 bits.

Definition word_positions_at (word_idx word : Z) : list Z :=
  push_word_positions word (wrap 16 (word_idx * 64)).

Definition extract_dense_lookup (bits : list Z) : list Z :=
  per_word (λ word_idx word, if word =? 0 then [] else word_positions_at word_idx word) 0 bits.

(** [for chunk in 0..chunks] over registers of [W] words. *)
Fixpoint per_chunk (W : nat) (f : Z → list Z → list Z) (base_word : Z) (bits : list Z) (chunks : nat) : list Z :=
  match chunks with
  | O => []
  | S chunks => f base_word (take W bits) ++ per_chunk W f (base_word + Z.of_nat W) (drop W bits) chunks
  end.

(** NEON: the maximum over the 32-bit lanes is zero iff both words are. *)
Definition u32_lanes (chunk : list Z) : list Z :=
  chunk ≫= λ w, [Z.land w (2 ^ 32 - 1); Z.shiftr w 32].
Definition vmaxv (lanes : list Z) : Z := foldr Z.max 0 lanes.
Definition neon_group (base_word : Z) (chunk : list Z) : list Z :=
  if vmaxv (u32_lanes chunk) =? 0 then []
  else
    let w0 := word_at chunk 0 in
    let w1 := word_at chunk 1 in
    (if w0 =? 0 then [] else word_positions_at base_word w0) ++
    (if w1 =? 0 then [] else word_positions_at (base_word + 1) w1).
Definition extract_dense_neon (bits : list Z) : list Z :=
  per_chunk 2 neon_group 0 bits (Z.to_nat BITSET_WORDS / 2).

(** x86: one mask bit per lane equal to zero. *)
Fixpoint zero_mask (chunk : list Z) : Z :=
  match chunk with
  | [] => 0
  | w :: chunk => (if w =? 0 then 1 else 0) + 2 * zero_mask chunk
  end.
Definition u8_not (m : Z) : Z := Z.lxor m 255.

Definition mask_group (nonzero_mask : Z) (base_word : Z) (chunk : list Z) : list Z :=
  if nonzero_mask =? 0 then []
  else drain 64 nonzero_mask ≫= λ lane, word_positions_at (base_word + lane) (word_at chunk lane).
Definition avx2_group (base_word : Z) (chunk : list Z) : list Z :=
  mask_group (Z.land (u8_not (zero_mask chunk)) 15) base_word chunk.
Definition avx512_group (base_word : Z) (chunk : list Z) : list Z :=
  mask_group (u8_not (zero_mask chunk)) base_word chunk.
Definition extract_dense_avx2 (bits : list Z) : list Z :=
  per_chunk 4 avx2_group 0 bits (Z.to_nat BITSET_WORDS / 4).
Definition extract_dense_avx512 (bits : list Z) : list Z :=
  per_chunk 8 avx512_group 0 bits (Z.to_nat BITSET_WORDS / 8).

Definition extract_bitset_to_values `{Cpu} (bits : list Z) (cardinality : Z) : list Z :=
  if DENSE_EXTRACT_THRESHOLD <=? cardinality then
    if target_x86_64 && avx512f then extract_dense_avx512 bits
    else if target_x86_64 && avx2 then extract_dense_avx2 bits
    else if target_aarch64 then extract_dense_neon bits
    else extract_dense_lookup bits
  else extract_scalar bits.

(** ** The tables list the bits of every byte *)

Lemma byte_table byte :
  0 ≤ byte < 2 ^ 8 →
  (λ j, default 0 (default [] (BIT_POSITIONS !! Z.to_nat byte) !! Z.to_nat j)) <$>
    seqZ 0 (default 0 (BIT_COUNTS !! Z.to_nat byte)) = word_bits byte.
Proof.
  intros Hb.
  assert (Forall (λ byte, (λ j, default 0 (default [] (BIT_POSITIONS !! Z.to_nat byte) !! Z.to_nat j)) <$>
    seqZ 0 (default 0 (BIT_COUNTS !! Z.to_nat byte)) = word_bits byte) (seqZ 0 256)) as Hall
    by (apply (bool_decide_eq_true_1 _); vm_compute; reflexivity).
  rewrite Forall_forall in Hall. apply Hall, elem_of_seqZ. lia.
Qed.

Lemma byte_positions_spec byte_base byte :
  0 ≤ byte < 2 ^ 8 → 0 ≤ byte_base ≤ 65528 →
  byte_positions byte_base byte = Z.add byte_base <$> word_bits byte.
Proof.
  intros Hb Hbase. unfold byte_positions. cbv zeta. rewrite <-(byte_table byte Hb).
  rewrite <-list_fmap_compose. apply list_fmap_ext. intros i j Hj. cbn. apply u16_add_small.
  assert (default 0 (default [] (BIT_POSITIONS !! Z.to_nat byte) !! Z.to_nat j) ∈ word_bits byte) as Hin.
  { rewrite <-(byte_table byte Hb). apply list_elem_of_fmap. exists j. split; [done|].
    by eapply list_elem_of_lookup_2. }
  apply elem_of_word_bits in Hin as [Hr Ht].
  destruct (decide (default 0 (default [] (BIT_POSITIONS !! Z.to_nat byte) !! Z.to_nat j) < 8)); [lia|].
  by rewrite (testbit_above 8) in Ht by lia.
Qed.

Lemma fmap_add_add a b (l : list Z) : Z.add a <$> (Z.add b <$> l) = Z.add (a + b) <$> l.
Proof. rewrite <-list_fmap_compose. apply list_fmap_ext. intros. cbn. lia. Qed.

Lemma push_byte_spec word base i :
  0 ≤ base ≤ 65472 → 0 ≤ i < 8 →
  (let byte := Z.land (Z.shiftr word (u16_mul i 8)) 255 in
   if byte =? 0 then [] else byte_positions (u16_add base (u16_mul i 8)) byte) =
    Z.add (base + 8 * i) <$> word_bits (word_byte word i).
Proof.
  intros Hbase Hi. cbv zeta. rewrite u16_mul_small, u16_add_small by lia.
  rewrite (Z.mul_comm i 8). change (Z.land (Z.shiftr word (8 * i)) 255) with (word_byte word i).
  pose proof (word_byte_range word i). destruct (Z.eqb_spec (word_byte word i) 0) as [->|]; [done|].
  apply byte_positions_spec; lia.
Qed.

Lemma push_word_positions_spec word base :
  0 ≤ base ≤ 65472 → push_word_positions word base = Z.add base <$> word_bits word.
Proof.
  intros Hbase. rewrite word_bits_bytes. unfold push_word_positions, word_bytes.
  change (seqZ 0 8) with [0; 1; 2; 3; 4; 5; 6; 7].
  cbn [mbind list_bind fmap list_fmap bits_from]. rewrite !push_byte_spec by lia.
  rewrite !fmap_app, !fmap_add_add.
  repeat (apply (f_equal2 app); [do 2 f_equal; lia|]). done.
Qed.

Lemma word_positions_at_spec i word :
  0 ≤ i < 1024 → word_positions_at i word = Z.add (64 * i) <$> word_bits word.
Proof.
  intros Hi. unfold word_positions_at. rewrite wrap_small by lia.
  rewrite push_word_positions_spec by lia. do 2 f_equal. lia.
Qed.

Lemma per_word_spec f i bits :
  (∀ j word, u64 word → i ≤ j < i + zlen bits → f j word = Z.add (64 * j) <$> word_bits word) →
  Forall u64 bits → per_word f i bits = bits_from 64 (64 * i) bits.
Proof.
  intros Hf Hb. revert i Hf. induction Hb as [|word bits Hw Hb IH]; intros i Hf; [done|].
  pose proof (zlen_nonneg bits). rewrite zlen_cons in Hf. cbn [per_word bits_from].
  rewrite Hf, IH by (done || lia || (intros; apply Hf; [done|lia])).
  do 2 f_equal. lia.
Qed.

Lemma extract_scalar_spec bits : wf_bits bits → extract_scalar bits = bits_values bits.
Proof.
  intros [Hlen Hb]. apply per_word_spec; [|done]. rewrite Hlen. unfold BITSET_WORDS.
  intros j word Hw Hj. rewrite drain_64 by done. apply list_fmap_ext. intros k b Hk%list_elem_of_lookup_2.
  apply elem_of_word_bits in Hk. rewrite wrap_small, u16_mul_small, u16_add_small by lia. lia.
Qed.

Lemma extract_dense_lookup_spec bits : wf_bits bits → extract_dense_lookup bits = bits_values bits.
Proof.
  intros [Hlen Hb]. apply per_word_spec; [|done]. rewrite Hlen. unfold BITSET_WORDS.
  intros j word Hw Hj. destruct (Z.eqb_spec word 0) as [->|]; [done|]. by apply word_positions_at_spec.
Qed.

(** ** Register loops *)

(** A group scan is right when it lists the positions of its own words. *)
Definition group_ok (W : nat) (f : Z → list Z → list Z) : Prop :=
  ∀ base_word chunk, length chunk = W → Forall u64 chunk → 0 ≤ base_word → base_word + Z.of_nat W ≤ 1024 →
    f base_word chunk = bits_from 64 (64 * base_word) chunk.

Lemma per_chunk_spec W f base_word bits chunks :
  group_ok W f → Forall u64 bits → length bits = (chunks * W)%nat → 0 ≤ base_word →
  base_word + zlen bits ≤ 1024 → per_chunk W f base_word bits chunks = bits_from 64 (64 * base_word) bits.
Proof.
  intros Hf. revert base_word bits. induction chunks as [|chunks IH]; intros base_word bits Hb Hlen H0 Hle.
  { by destruct bits. }
  cbn [per_chunk Nat.mul] in *. unfold zlen in Hle. rewrite <-(take_drop W bits) at 3. rewrite bits_from_app.
  assert (length (take W bits) = W) as HW by (rewrite length_take; lia).
  rewrite Hf; [|done|by apply Forall_take|done|lia].
  rewrite IH; [|by apply Forall_drop|rewrite length_drop; lia|lia|unfold zlen; rewrite length_drop; lia].
  do 2 f_equal. unfold zlen. rewrite HW. lia.
Qed.

Lemma per_chunk_bits W f bits :
  group_ok W f → (Z.to_nat BITSET_WORDS / W * W)%nat = Z.to_nat BITSET_WORDS → wf_bits bits →
  per_chunk W f 0 bits (Z.to_nat BITSET_WORDS / W) = bits_values bits.
Proof.
  intros Hf HW [Hlen Hb]. apply per_chunk_spec; [done|done| |done|].
  - rewrite HW. unfold zlen in Hlen. lia.
  - rewrite Hlen. done.
Qed.

(** *** NEON *)

Lemma u32_lanes_zero chunk : Forall u64 chunk → vmaxv (u32_lanes chunk) = 0 → Forall (λ w, w = 0) chunk.
Proof.
  induction 1 as [|w chunk Hw Hc IH]; [done|].
  change (vmaxv (u32_lanes (w :: chunk))) with
    (Z.max (Z.land w (Z.ones 32)) (Z.max (Z.shiftr w 32) (vmaxv (u32_lanes chunk)))). intros Hmax.
  assert (0 ≤ vmaxv (u32_lanes chunk)) as Hnn.
  { clear. unfold vmaxv. induction (u32_lanes chunk); cbn; lia. }
  rewrite Z.land_ones, Z.shiftr_div_pow2 in Hmax by lia. unfold u64 in Hw.
  pose proof (Z.mod_pos_bound w (2 ^ 32) ltac:(lia)). pose proof (Z.div_pos w (2 ^ 32)).
  pose proof (Z.div_mod w (2 ^ 32) ltac:(lia)). constructor; [lia|]. apply IH. lia.
Qed.

Lemma bits_from_zero base chunk : Forall (λ w, w = 0) chunk → bits_from 64 base chunk = [].
Proof. intros Hc. revert base. induction Hc as [|w chunk -> _ IH]; intros; [done|]. cbn. apply IH. Qed.

Lemma if_zero_positions i w :
  0 ≤ i < 1024 → (if w =? 0 then [] else word_positions_at i w) = Z.add (64 * i) <$> word_bits w.
Proof. intros Hi. destruct (Z.eqb_spec w 0) as [->|]; [done|]. by apply word_positions_at_spec. Qed.

Lemma neon_group_ok : group_ok 2 neon_group.
Proof.
  intros base [|w0 [|w1 [|]]] Hlen Hu H0 Hle; simplify_eq/=. unfold neon_group.
  destruct (Z.eqb_spec (vmaxv (u32_lanes [w0; w1])) 0) as [Hz|].
  - symmetry. by apply (bits_from_zero (64 * base) [w0; w1]), u32_lanes_zero.
  - cbv zeta. change (word_at [w0; w1] 0) with w0. change (word_at [w0; w1] 1) with w1.
    rewrite !if_zero_positions by lia. cbn [bits_from]. rewrite app_nil_r. do 3 f_equal. lia.
Qed.

(** *** x86 masks *)

Lemma zero_mask_range chunk : 0 ≤ zero_mask chunk < 2 ^ zlen chunk.
Proof.
  induction chunk as [|w chunk IH]; [done|]. cbn [zero_mask]. rewrite zlen_cons, Z.pow_add_r by (pose proof (zlen_nonneg chunk); lia).
  case_cmp; lia.
Qed.

Lemma zero_mask_testbit chunk i :
  0 ≤ i < zlen chunk → Z.testbit (zero_mask chunk) i = (word_at chunk i =? 0).
Proof.
  revert i. induction chunk as [|w chunk IH]; intros i Hi; [unfold zlen in Hi; cbn in Hi; lia|].
  rewrite zlen_cons in Hi. cbn [zero_mask]. rewrite Z.add_comm.
  destruct (decide (i = 0)) as [->|Hne].
  - rewrite word_at_0. destruct (w =? 0); [apply Z.testbit_odd_0|].
    rewrite Z.add_0_r. apply Z.testbit_even_0.
  - replace i with (1 + (i - 1)) at 2 by lia. rewrite word_at_succ by lia. rewrite <-IH by lia.
    replace i with (Z.succ (i - 1)) at 1 by lia.
    destruct (w =? 0); [by rewrite Z.testbit_odd_succ by lia|].
    rewrite Z.add_0_r. by rewrite Z.testbit_even_succ by lia.
Qed.

Definition nonzero_lanes (chunk : list Z) : list Z :=
  filter (λ i, word_at chunk i ≠ 0) (seqZ 0 (zlen chunk)).

Lemma drain_nonzero mask chunk :
  u64 mask → zlen chunk ≤ 64 →
  (∀ i, 0 ≤ i < 64 → Z.testbit mask i = (i <? zlen chunk) && negb (word_at chunk i =? 0)) →
  drain 64 mask = nonzero_lanes chunk.
Proof.
  intros Hm Hlen Hbits. rewrite drain_64 by done.
  apply ascending_ext; [apply ascending_filter, seqZ_ascending..|].
  intros i. rewrite elem_of_word_bits. unfold nonzero_lanes.
  rewrite list_elem_of_filter, elem_of_seqZ. split.
  - intros [Hi Hr]. rewrite Hbits in Hr by lia.
    apply andb_true_iff in Hr as [?%Z.ltb_lt ?%negb_true_iff%Z.eqb_neq]. split; [done|lia].
  - intros [Hi Hr]. split; [lia|]. rewrite Hbits by lia. apply andb_true_iff.
    split; [apply Z.ltb_lt; lia|]. by apply negb_true_iff, Z.eqb_neq.
Qed.

Lemma nonzero_lanes_cons w chunk :
  nonzero_lanes (w :: chunk) = (if w =? 0 then [] else [0]) ++ (Z.add 1 <$> nonzero_lanes chunk).
Proof.
  unfold nonzero_lanes. pose proof (zlen_nonneg chunk). rewrite zlen_cons, seqZ_cons by lia.
  replace (Z.pred (1 + zlen chunk)) with (zlen chunk) by lia.
  assert (seqZ (Z.succ 0) (zlen chunk) = Z.add 1 <$> seqZ 0 (zlen chunk)) as ->.
  { change (Z.succ 0) with (1 + 0). symmetry. apply fmap_add_seqZ. }
  assert (filter (λ i, word_at (w :: chunk) i ≠ 0) (Z.add 1 <$> seqZ 0 (zlen chunk)) =
    Z.add 1 <$> filter (λ i, word_at chunk i ≠ 0) (seqZ 0 (zlen chunk))) as Hf.
  { rewrite filter_fmap. f_equal. apply filter_ext_in.
    intros i [Hi _]%elem_of_seqZ. cbn. by rewrite word_at_succ. }
  rewrite filter_cons, Hf, word_at_0. destruct (Z.eqb_spec w 0); case_decide; tauto || done.
Qed.

(** Visiting the nonzero lanes appends what visiting every lane would. *)
Lemma nonzero_lanes_positions base chunk :
  0 ≤ base → base + zlen chunk ≤ 1024 →
  nonzero_lanes chunk ≫= (λ lane, word_positions_at (base + lane) (word_at chunk lane)) =
    bits_from 64 (64 * base) chunk.
Proof.
  revert base. induction chunk as [|w chunk IH]; intros base H0 Hle; [done|].
  rewrite zlen_cons in Hle. pose proof (zlen_nonneg chunk). cbn [bits_from].
  replace (64 * base + 64) with (64 * (base + 1)) by lia. rewrite <-(IH (base + 1)) by lia.
  rewrite nonzero_lanes_cons, bind_app. f_equal.
  - destruct (Z.eqb_spec w 0) as [->|]; [done|]. cbn [mbind list_bind].
    rewrite word_at_0, Z.add_0_r, app_nil_r. by apply word_positions_at_spec; lia.
  - assert (Forall (Z.le 0) (nonzero_lanes chunk)) as Hnn.
    { apply Forall_forall. intros i [_ [? _]%elem_of_seqZ]%list_elem_of_filter. done. }
    clear IH. induction Hnn as [|x l Hx _ IHl]; [done|]. rewrite fmap_cons, !bind_cons, IHl.
    rewrite word_at_succ by done. do 2 f_equal. lia.
Qed.

(** Draining a mask of the nonzero lanes visits what visiting every lane would. *)
Lemma mask_group_spec mask base chunk :
  u64 mask → zlen chunk ≤ 64 → 0 ≤ base → base + zlen chunk ≤ 1024 →
  (∀ i, 0 ≤ i < 64 → Z.testbit mask i = (i <? zlen chunk) && negb (word_at chunk i =? 0)) →
  mask_group mask base chunk = bits_from 64 (64 * base) chunk.
Proof.
  intros Hm Hlen H0 Hle Hbits. unfold mask_group.
  pose proof (drain_nonzero mask chunk Hm Hlen Hbits) as Hd.
  rewrite <-nonzero_lanes_positions, <-Hd by done. by destruct (Z.eqb_spec mask 0) as [->|].
Qed.

Lemma u8_not_testbit m i : 0 ≤ i → Z.testbit (u8_not m) i = xorb (Z.testbit m i) (i <? 8).
Proof.
  intros Hi. unfold u8_not. rewrite Z.lxor_spec. f_equal. change 255 with (Z.ones 8).
  destruct (Z.ltb_spec i 8); [by apply Z.ones_spec_low|apply Z.ones_spec_high; lia].
Qed.

Lemma zero_mask_nonzero chunk n i :
  zlen chunk = n → n ≤ 8 → 0 ≤ i →
  Z.testbit (u8_not (zero_mask chunk)) i = 
    if i <? n then negb (word_at chunk i =? 0) else i <? 8.
Proof.
  intros Hlen Hn Hi. rewrite u8_not_testbit by done. destruct (Z.ltb_spec i n).
  - rewrite zero_mask_testbit by lia. rewrite (proj2 (Z.ltb_lt i 8)) by lia. apply xorb_true_r.
  - rewrite (testbit_above n); [done| |done]. rewrite <-Hlen. apply zero_mask_range.
Qed.

Lemma u8_not_u64 chunk : zlen chunk ≤ 8 → u64 (u8_not (zero_mask chunk)).
Proof.
  intros Hlen. apply u64_of_bits.
  - apply Z.lxor_nonneg. pose proof (zero_mask_range chunk). lia.
  - intros i Hi. rewrite (zero_mask_nonzero chunk (zlen chunk)) by (done || lia).
    rewrite (proj2 (Z.ltb_ge i _)) by lia. apply Z.ltb_ge. lia.
Qed.

Lemma avx2_group_ok : group_ok 4 avx2_group.
Proof.
  intros base chunk Hlen Hu H0 Hle. assert (zlen chunk = 4) as Hz by (unfold zlen; lia).
  apply mask_group_spec; [|lia|done|lia|].
  - rewrite Z.land_comm. by apply u64_land.
  - intros i Hi. rewrite Z.land_spec, (zero_mask_nonzero chunk 4), Hz by lia.
    change 15 with (Z.ones 4). destruct (Z.ltb_spec i 4).
    + rewrite Z.ones_spec_low by lia. apply andb_true_r.
    + rewrite Z.ones_spec_high by lia. apply andb_false_r.
Qed.

Lemma avx512_group_ok : group_ok 8 avx512_group.
Proof.
  intros base chunk Hlen Hu H0 Hle. assert (zlen chunk = 8) as Hz by (unfold zlen; lia).
  apply mask_group_spec; [apply u8_not_u64; lia|lia|done|lia|].
  intros i Hi. rewrite (zero_mask_nonzero chunk 8), Hz by lia. by destruct (Z.ltb_spec i 8).
Qed.

(** Every extraction path lists exactly the set positions, in ascending order. *)
Lemma extract_bitset_to_values_spec `{Cpu} bits cardinality :
  wf_bits bits → extract_bitset_to_values bits cardinality = bits_values bits.
Proof.
  intros Hb. unfold extract_bitset_to_values. repeat case_match;
    [apply per_chunk_bits; [apply avx512_group_ok|done|done]
    |apply per_chunk_bits; [apply avx2_group_ok|done|done]
    |apply per_chunk_bits; [apply neon_group_ok|done|done]
    |by apply extract_dense_lookup_spec|by apply extract_scalar_spec].
Qed.

(** ** Properties *)

(** Listing a bitset gives the positions of its ones in ascending order, whatever
    the cardinality passed (it only selects the routine) and whichever of the sparse
    word loop, the byte table, NEON, AVX2 and AVX-512 routines runs. *)
Theorem extract_correct `{Cpu} (bits : list Z) (cardinality : Z) :
  wf_bits bits →
  let vs := extract_bitset_to_values bits cardinality in
  ascending vs ∧ ∀ v, v ∈ vs ↔ u16 v ∧ bit_at bits v = true.
Proof.
  intros Hb vs. unfold vs. rewrite extract_bitset_to_values_spec by done.
  split; [by apply bits_values_ascending|]. intros v. by apply elem_of_bits_values.
Qed.

Lemma extract_correct_witness :
  let bits := word_update (λ _, 18446744073709551615) 1023 zero_bits in
  ascending (@extract_bitset_to_values avx512_cpu bits 64) ∧
  ∀ v, v ∈ @extract_bitset_to_values avx512_cpu bits 64 ↔ u16 v ∧ bit_at bits v = true.
Proof.
  apply (@extract_correct avx512_cpu). apply word_update_wf; [intros x _; unfold u64; lia|apply zero_bits_wf].
Defined.
