(* ===== verification/ArrayContainer.v ===== *)
(** * ArrayContainer: a sorted vector of [u16] values

    [src/minnal_db/src/index/container/array.rs].  The operations return the
    updated container together with the source's result. *)
From S2P Require Import Prelude Slices U16Set ArrayMerge.

Definition ARRAY_TO_BITSET_THRESHOLD : Z := 4096.

Record ArrayContainer := mk_array { values : list Z }.

#[global] Instance ArrayContainer_eq_dec : EqDecision ArrayContainer.
Proof. solve_decision. Defined.

Definition array_new : ArrayContainer := mk_array [].
Definition array_from_sorted (vs : list Z) : ArrayContainer := mk_array vs.

Definition array_insert (value : Z) (c : ArrayContainer) : ArrayContainer * bool :=
  match binary_search value (values c) with
  | Ok _ => (c, false)
  | Err pos => (mk_array (vec_insert pos value (values c)), true)
  end.

Definition array_remove (value : Z) (c : ArrayContainer) : ArrayContainer * bool :=
  match binary_search value (values c) with
  | Ok pos => (mk_array (delete pos (values c)), true)
  | Err _ => (c, false)
  end.

Definition array_contains (c : ArrayContainer) (value : Z) : bool :=
  is_ok (binary_search value (values c)).
Definition array_cardinality (c : ArrayContainer) : Z := zlen (values c).
Definition array_is_empty (c : ArrayContainer) : bool := zlen (values c) =? 0.
Definition array_min (c : ArrayContainer) : option Z := head (values c).
Definition array_max (c : ArrayContainer) : option Z := last (values c).
Definition array_rank (c : ArrayContainer) (value : Z) : Z :=
  Z.of_nat (partition_point (λ v, v <=? value) (values c)).
Definition array_select (c : ArrayContainer) (rank : Z) : option Z := values c !! Z.to_nat rank.
Definition array_should_promote (c : ArrayContainer) : bool :=
  ARRAY_TO_BITSET_THRESHOLD <=? zlen (values c).

Definition array_and `{Cpu} (a b : ArrayContainer) : ArrayContainer :=
  mk_array (and_sorted_u16 (values a) (values b)).
Definition array_or (a b : ArrayContainer) : ArrayContainer :=
  mk_array (or_sorted_u16 (values a) (values b)).
Definition array_and_not `{Cpu} (a b : ArrayContainer) : ArrayContainer :=
  mk_array (and_not_sorted_u16 (values a) (values b)).

(** ** The container is a [u16] set *)

Definition array_wf (c : ArrayContainer) : Prop := ascending (values c) ∧ Forall u16 (values c).

#[export] Instance array_set : U16Set ArrayContainer := {
  set_wf := array_wf;
  set_contains := array_contains;
  set_values := values;
  set_card := array_cardinality;
  set_min := array_min;
  set_max := array_max;
  set_rank := array_rank;
  set_select := array_select;
}.

Lemma array_rank_count c v : ascending (values c) → array_rank c v = count_le v (values c).
Proof.
  intros Ha. unfold array_rank. rewrite partition_point_count; [|done|].
  - unfold count_le. f_equal. apply filter_ext_in. intros x _. apply Z.leb_le.
  - intros x y Hxy Hy%Z.leb_le. apply Z.leb_le. lia.
Qed.

#[export] Instance array_set_laws : U16SetLaws ArrayContainer.
Proof.
  split; cbn; intros; try done.
  - by destruct H.
  - by destruct H.
  - destruct H. by apply binary_search_is_ok.
  - destruct H. by apply array_rank_count.
Qed.

Lemma array_contains_spec c v : array_wf c → (array_contains c v = true ↔ v ∈ values c).
Proof. intros [Ha _]. by apply binary_search_is_ok. Qed.

Lemma array_new_wf : array_wf array_new.
Proof. split; constructor. Qed.

(** ** Insertion and removal *)

Lemma array_insert_spec c v :
  array_wf c → u16 v →
  array_wf (array_insert v c).1 ∧
  (array_insert v c).2 = negb (array_contains c v) ∧
  (∀ w, w ∈ values (array_insert v c).1 ↔ w = v ∨ w ∈ values c).
Proof.
  intros [Ha Hb] Hv. pose proof (binary_search_spec v _ Ha) as Hs.
  unfold array_insert, array_contains. destruct (binary_search v (values c)) as [i|i]; cbn.
  - split_and!; [done..|]. intros w. split; [tauto|]. intros [->|]; [by eapply list_elem_of_lookup_2|done].
  - destruct Hs as (Hi & Hnot & Hlt & Hgt). split_and!; [split|done|].
    + by apply vec_insert_ascending.
    + apply Forall_forall. intros w [->|Hw]%elem_of_vec_insert; [done|].
      rewrite Forall_forall in Hb. auto.
    + intros w. apply elem_of_vec_insert.
Qed.

Lemma array_remove_spec c v :
  array_wf c → u16 v →
  array_wf (array_remove v c).1 ∧
  (array_remove v c).2 = array_contains c v ∧
  (∀ w, w ∈ values (array_remove v c).1 ↔ w ∈ values c ∧ w ≠ v).
Proof.
  intros [Ha Hb] Hv. pose proof (binary_search_spec v _ Ha) as Hs.
  unfold array_remove, array_contains. destruct (binary_search v (values c)) as [i|i]; cbn.
  - split_and!; [split|done|].
    + by apply delete_ascending.
    + by apply Forall_delete.
    + intros w. by apply elem_of_delete_ascending.
  - destruct Hs as (_ & Hnot & _). split_and!; [done..|]. intros w. split; [|tauto].
    intros Hw. split; [done|]. by intros ->.
Qed.

(** The length after an update. *)
Lemma array_insert_card c v :
  array_cardinality (array_insert v c).1 =
    array_cardinality c + if (array_insert v c).2 then 1 else 0.
Proof.
  unfold array_insert, array_cardinality. destruct (binary_search _ _); cbn; [lia|].
  rewrite zlen_vec_insert. lia.
Qed.

Lemma array_remove_card c v :
  array_wf c → array_cardinality (array_remove v c).1 =
    array_cardinality c - if (array_remove v c).2 then 1 else 0.
Proof.
  intros [Ha _]. pose proof (binary_search_spec v _ Ha) as Hs.
  unfold array_remove, array_cardinality. destruct (binary_search _ _); cbn; [|lia].
  by eapply zlen_delete.
Qed.

(** ** Set operations *)

Section set_operations.
Context `{Cpu} (a b : ArrayContainer) (Ha : array_wf a) (Hb : array_wf b).

Lemma array_and_spec :
  array_wf (array_and a b) ∧ ∀ v, v ∈ values (array_and a b) ↔ v ∈ values a ∧ v ∈ values b.
Proof using All.
  destruct Ha as [Ha1 Ha2], Hb as [Hb1 Hb2]. split; [split|]; cbn.
  - by apply and_sorted_u16_ascending.
  - rewrite and_sorted_u16_filter by done. by apply Forall_filter_of.
  - intros v. by apply elem_of_and_sorted_u16.
Qed.

Lemma array_or_spec :
  array_wf (array_or a b) ∧ ∀ v, v ∈ values (array_or a b) ↔ v ∈ values a ∨ v ∈ values b.
Proof using Ha Hb.
  destruct Ha as [Ha1 Ha2], Hb as [Hb1 Hb2]. rewrite Forall_forall in Ha2, Hb2.
  split; [split|]; cbn.
  - by apply or_scalar_ascending.
  - apply Forall_forall. intros v [Hv|Hv]%elem_of_or_scalar; auto.
  - intros v. apply elem_of_or_scalar.
Qed.

Lemma array_and_not_spec :
  array_wf (array_and_not a b) ∧ ∀ v, v ∈ values (array_and_not a b) ↔ v ∈ values a ∧ v ∉ values b.
Proof using All.
  destruct Ha as [Ha1 Ha2], Hb as [Hb1 Hb2]. split; [split|]; cbn.
  - by apply and_not_sorted_u16_ascending.
  - rewrite and_not_sorted_u16_filter by done. by apply Forall_filter_of.
  - intros v. by apply elem_of_and_not_sorted_u16.
Qed.
End set_operations.
