(* ===== verification/RunContainer.v ===== *)
(** * RunContainer: a sorted vector of runs of consecutive values

    [src/minnal_db/src/index/container/run.rs].  A run is [start] and the number of
    values beyond it; the container caches its cardinality.  [runs_in lo runs hi]
    says that the runs are ascending, disjoint and inside [lo, hi): it is the
    invariant [from_runs] asserts, for [lo = 0] and [hi = 65536]. *)
From S2P Require Import Prelude Slices U16Set.

Record Run := mk_run { start : Z; length_ : Z }.
#[global] Instance Run_eq_dec : EqDecision Run.
Proof. solve_decision. Defined.

Definition run_end (r : Run) : Z := u16_add (start r) (length_ r).
Definition run_cardinality (r : Run) : Z := length_ r + 1.

Record RunContainer := mk_runs { runs : list Run; run_card : Z }.
#[global] Instance RunContainer_eq_dec : EqDecision RunContainer.
Proof. solve_decision. Defined.

Definition sum_cardinality (rs : list Run) : Z := foldr (λ r n, run_cardinality r + n) 0 rs.

Definition runs_new : RunContainer := mk_runs [] 0.
Definition from_runs (rs : list Run) : RunContainer := mk_runs rs (sum_cardinality rs).
Definition from_runs_with_cardinality (rs : list Run) (n : Z) : RunContainer := mk_runs rs n.

(** The loop of [from_sorted_values] with the open run [start..prev]. *)
Fixpoint runs_of_sorted (s prev : Z) (vs : list Z) : list Run :=
  match vs with
  | [] => [mk_run s (u16_sub prev s)]
  | v :: vs =>
      if v =? u16_add prev 1 then runs_of_sorted s v vs
      else mk_run s (u16_sub prev s) :: runs_of_sorted v v vs
  end.
Definition runs_from_sorted_values (vs : list Z) : RunContainer :=
  match vs with
  | [] => runs_new
  | v :: vs' => mk_runs (runs_of_sorted v v vs') (zlen vs)
  end.

(** ** Lookup and update *)

Definition run_cmp (value : Z) (run : Run) : comparison :=
  if value <? start run then Gt else if run_end run <? value then Lt else Eq.
Definition find_run (value : Z) (rs : list Run) : result nat nat := binary_search_by (run_cmp value) rs.

Definition set_length (n : Z) (r : Run) : Run := mk_run (start r) n.

(** [self.runs[pos - 1]] and [self.runs[pos]], where they exist. *)
Definition prev_run (rs : list Run) (pos : nat) : option Run :=
  match pos with O => None | S i => rs !! i end.

Definition runs_insert (value : Z) (c : RunContainer) : RunContainer * bool :=
  match find_run value (runs c) with
  | Ok _ => (c, false)
  | Err pos =>
      let extends_prev :=
        match prev_run (runs c) pos with Some p => u16_add (run_end p) 1 =? value | None => false end in
      let extends_next :=
        match runs c !! pos with Some n => start n =? u16_add value 1 | None => false end in
      let rs :=
        match extends_prev, extends_next with
        | true, true =>
            let next_end := from_option run_end 0 (runs c !! pos) in
            delete pos (alter (λ p, set_length (u16_sub next_end (start p)) p) (pos - 1)%nat (runs c))
        | true, false => alter (λ p, set_length (u16_add (length_ p) 1) p) (pos - 1)%nat (runs c)
        | false, true => alter (λ n, mk_run value (u16_add (length_ n) 1)) pos (runs c)
        | false, false => vec_insert pos (mk_run value 0) (runs c)
        end in
      (mk_runs rs (run_card c + 1), true)
  end.

Definition runs_remove (value : Z) (c : RunContainer) : RunContainer * bool :=
  match find_run value (runs c) with
  | Ok idx =>
      let run := default (mk_run 0 0) (runs c !! idx) in
      let rs :=
        if length_ run =? 0 then delete idx (runs c)
        else if value =? start run then
          alter (λ r, mk_run (u16_add (start r) 1) (u16_sub (length_ r) 1)) idx (runs c)
        else if value =? run_end run then alter (λ r, set_length (u16_sub (length_ r) 1) r) idx (runs c)
        else
          let new_run := mk_run (u16_add value 1) (u16_sub (u16_sub (run_end run) value) 1) in
          vec_insert (S idx) new_run
            (alter (λ r, set_length (u16_sub (u16_sub value (start run)) 1) r) idx (runs c)) in
      (mk_runs rs (run_card c - 1), true)
  | Err _ => (c, false)
  end.

(** ** Reads *)

Definition runs_contains (c : RunContainer) (value : Z) : bool := is_ok (find_run value (runs c)).
Definition runs_cardinality (c : RunContainer) : Z := run_card c.
Definition runs_is_empty (c : RunContainer) : bool := run_card c =? 0.
Definition num_runs (c : RunContainer) : Z := zlen (runs c).
Definition runs_min (c : RunContainer) : option Z := start <$> head (runs c).
Definition runs_max (c : RunContainer) : option Z := run_end <$> last (runs c).

(** [for v in run.start..=run.end()] *)
Definition run_values (r : Run) : list Z := seqZ (start r) (run_end r - start r + 1).
Definition runs_values (rs : list Run) : list Z := rs ≫= run_values.
Definition runs_to_values (c : RunContainer) : list Z := runs_values (runs c).

Definition is_efficient (c : RunContainer) : bool := zlen (runs c) * 4 <=? run_card c * 2.

Fixpoint rank_loop (value count : Z) (rs : list Run) : Z :=
  match rs with
  | [] => count
  | run :: rs =>
      if value <? start run then count
      else if run_end run <=? value then rank_loop value (count + run_cardinality run) rs
      else count + u16_add (u16_sub value (start run)) 1
  end.
Definition runs_rank (c : RunContainer) (value : Z) : Z := rank_loop value 0 (runs c).

Fixpoint select_loop (rank : Z) (rs : list Run) : option Z :=
  match rs with
  | [] => None
  | run :: rs =>
      let card := run_cardinality run in
      if rank <? card then Some (u16_add (start run) (wrap 16 rank)) else select_loop (rank - card) rs
  end.
Definition runs_select (c : RunContainer) (rank : Z) : option Z := select_loop rank (runs c).

(** ** Set operations *)

(** [and]: overlap the two current runs, then advance the one that ends first. *)
Fixpoint and_loop (xs : list Run) : list Run → list Run :=
  fix go (ys : list Run) : list Run :=
    match xs, ys with
    | a :: xs', b :: ys' =>
        let s := Z.max (start a) (start b) in
        let e := Z.min (run_end a) (run_end b) in
        (if s <=? e then [mk_run s (u16_sub e s)] else []) ++
        (if run_end a <? run_end b then and_loop xs' ys else go ys')
    | _, _ => []
    end.
Definition runs_and (a b : RunContainer) : RunContainer :=
  let result := and_loop (runs a) (runs b) in
  from_runs_with_cardinality result (sum_cardinality result).

(** [or]: merge by start, then coalesce into the last pushed run. *)
Fixpoint merge_loop (xs : list Run) : list Run → list Run :=
  fix go (ys : list Run) : list Run :=
    match xs, ys with
    | a :: xs', b :: ys' =>
        if start a <=? start b then a :: merge_loop xs' ys else b :: go ys'
    | [], _ => ys
    | _, [] => xs
    end.
Fixpoint coalesce_loop (last : Run) (rest : list Run) : list Run :=
  match rest with
  | [] => [last]
  | run :: rest =>
      if start run <=? u16_saturating_add (run_end last) 1 then
        let new_end := Z.max (run_end last) (run_end run) in
        coalesce_loop (set_length (u16_sub new_end (start last)) last) rest
      else last :: coalesce_loop run rest
  end.
Definition runs_or (a b : RunContainer) : RunContainer :=
  match merge_loop (runs a) (runs b) with
  | [] => runs_new
  | first :: rest =>
      let result := coalesce_loop first rest in
      from_runs_with_cardinality result (sum_cardinality result)
  end.

(** [and_not]: subtract the overlapping runs of [other] from each run in turn. *)
Fixpoint skip_before (s : Z) (ys : list Run) : list Run :=
  match ys with
  | b :: ys' => if run_end b <? s then skip_before s ys' else ys
  | [] => []
  end.
Fixpoint subtract_loop (s e : Z) (ys : list Run) : list Run * Z :=
  match ys with
  | b :: ys' =>
      if start b <=? e then
        let out := if s <? start b then [mk_run s (u16_sub (u16_sub (start b) 1) s)] else [] in
        let '(rest, s') := subtract_loop (u16_saturating_add (run_end b) 1) e ys' in
        (out ++ rest, s')
      else ([], s)
  | [] => ([], s)
  end.
Definition subtract_run (a : Run) (ys : list Run) : list Run :=
  let '(out, s) := subtract_loop (start a) (run_end a) ys in
  out ++ if s <=? run_end a then [mk_run s (u16_sub (run_end a) s)] else [].
Fixpoint and_not_loop (xs ys : list Run) : list Run :=
  match xs with
  | [] => []
  | a :: xs => let ys := skip_before (start a) ys in subtract_run a ys ++ and_not_loop xs ys
  end.
Definition runs_and_not (a b : RunContainer) : RunContainer :=
  let result := and_not_loop (runs a) (runs b) in
  from_runs_with_cardinality result (sum_cardinality result).

(** ** The iterator: a run index and a [u32] cursor *)

Record RunIter := mk_iter { iter_runs : list Run; run_idx : nat; current : Z; initialized : bool }.

Definition runs_iter (c : RunContainer) : RunIter := mk_iter (runs c) 0 0 false.

Definition enter_run (it : RunIter) : RunIter :=
  match iter_runs it !! run_idx it with
  | Some r => mk_iter (iter_runs it) (run_idx it) (start r) (initialized it)
  | None => it
  end.

(** The [loop] of [next]; a round that does not return moves to the next run. *)
Fixpoint next_loop (fuel : nat) (it : RunIter) : option Z * RunIter :=
  match fuel with
  | O => (None, it)
  | S fuel =>
      match iter_runs it !! run_idx it with
      | None => (None, it)
      | Some run =>
          if current it <=? run_end run then
            (Some (wrap 16 (current it)),
             mk_iter (iter_runs it) (run_idx it) (current it + 1) (initialized it))
          else
            next_loop fuel
              (enter_run (mk_iter (iter_runs it) (S (run_idx it)) (current it) (initialized it)))
      end
  end.
Definition iter_next (it : RunIter) : option Z * RunIter :=
  let it :=
    if initialized it then it
    else enter_run (mk_iter (iter_runs it) (run_idx it) (current it) true) in
  next_loop (S (length (iter_runs it))) it.

(** Calling [next] until it returns [None], at most [fuel] times. *)
Fixpoint iter_collect (fuel : nat) (it : RunIter) : list Z :=
  match fuel with
  | O => []
  | S fuel => match iter_next it with (Some v, it) => v :: iter_collect fuel it | (None, _) => [] end
  end.

(** ** Well-formed runs *)

Fixpoint runs_in (lo : Z) (rs : list Run) (hi : Z) : Prop :=
  match rs with
  | [] => 0 ≤ lo ≤ hi ∧ hi ≤ 65536
  | r :: rs => 0 ≤ lo ≤ start r ∧ 0 ≤ length_ r ∧ runs_in (start r + length_ r + 1) rs hi
  end.
#[global] Instance runs_in_dec lo rs hi : Decision (runs_in lo rs hi).
Proof. revert lo. induction rs; intros lo; cbn; apply _. Defined.

Definition runs_wf (c : RunContainer) : Prop :=
  runs_in 0 (runs c) 65536 ∧ run_card c = sum_cardinality (runs c).

Definition run_has (r : Run) (v : Z) : Prop := start r ≤ v ≤ start r + length_ r.
#[global] Instance run_has_dec r v : Decision (run_has r v).
Proof. unfold run_has. apply _. Defined.

Lemma runs_in_bounds lo rs hi : runs_in lo rs hi → 0 ≤ lo ≤ hi ∧ hi ≤ 65536.
Proof.
  revert lo. induction rs as [|r rs IH]; intros lo; cbn; [done|].
  intros (? & ? & H%IH). lia.
Qed.

Lemma runs_in_head lo r rs hi :
  runs_in lo (r :: rs) hi → 0 ≤ lo ≤ start r ∧ 0 ≤ length_ r ∧ run_end r = start r + length_ r ∧
    start r + length_ r < hi ∧ hi ≤ 65536.
Proof.
  intros (? & ? & H%runs_in_bounds). split_and!; try lia. unfold run_end. by rewrite u16_add_small by lia.
Qed.

Lemma runs_in_tail lo r rs hi : runs_in lo (r :: rs) hi → runs_in (run_end r + 1) rs hi.
Proof. intros H. pose proof (runs_in_head _ _ _ _ H) as (_ & _ & -> & _). by destruct H as (_ & _ & ?). Qed.

Lemma runs_in_weaken lo lo' rs hi hi' :
  runs_in lo rs hi → 0 ≤ lo' ≤ lo → hi ≤ hi' ≤ 65536 → runs_in lo' rs hi'.
Proof.
  revert lo lo'. induction rs as [|r rs IH]; cbn; intros lo lo'; [lia|].
  intros (? & ? & Hrs) ??. split_and!; [lia..|]. eapply IH; [done| |lia].
  apply runs_in_bounds in Hrs. lia.
Qed.

Lemma runs_in_raise lo lo' rs hi :
  runs_in lo rs hi → (∀ r, head rs = Some r → lo' ≤ start r) → 0 ≤ lo' ≤ hi → runs_in lo' rs hi.
Proof.
  destruct rs as [|r rs]; cbn; [lia|]. intros (? & ? & Hrs) Hh ?. specialize (Hh r eq_refl).
  split_and!; [lia..|done].
Qed.

Lemma runs_in_app lo xs ys hi :
  runs_in lo (xs ++ ys) hi ↔ ∃ mid, runs_in lo xs mid ∧ runs_in mid ys hi.
Proof.
  revert lo. induction xs as [|x xs IH]; intros lo; cbn.
  - split.
    + intros H. pose proof (runs_in_bounds _ _ _ H). exists lo. split; [lia|done].
    + intros (mid & ? & H). eapply runs_in_weaken; [done|lia|]. apply runs_in_bounds in H. lia.
  - rewrite IH. naive_solver.
Qed.

Lemma runs_in_lookup lo rs hi i r :
  runs_in lo rs hi → rs !! i = Some r → lo ≤ start r ∧ 0 ≤ length_ r ∧
    run_end r = start r + length_ r ∧ start r + length_ r < hi.
Proof.
  intros H Hi. apply list_elem_of_split_length in Hi as (xs & ys & -> & _).
  apply runs_in_app in H as (mid & Hx%runs_in_bounds & Hy%runs_in_head). lia.
Qed.

(** ** The values of well-formed runs *)

Lemma elem_of_run_values r v : run_end r = start r + length_ r → (v ∈ run_values r ↔ run_has r v).
Proof. intros He. unfold run_values, run_has. rewrite elem_of_seqZ, He. lia. Qed.

Lemma runs_values_cons r rs : runs_values (r :: rs) = run_values r ++ runs_values rs.
Proof. done. Qed.
Lemma runs_values_app xs ys : runs_values (xs ++ ys) = runs_values xs ++ runs_values ys.
Proof. apply bind_app. Qed.

Lemma elem_of_runs_cons lo r rs hi v :
  runs_in lo (r :: rs) hi → (v ∈ runs_values (r :: rs) ↔ run_has r v ∨ v ∈ runs_values rs).
Proof.
  intros H%runs_in_head. rewrite runs_values_cons, elem_of_app, elem_of_run_values; [done|lia].
Qed.

Lemma runs_values_bounds lo rs hi v : runs_in lo rs hi → v ∈ runs_values rs → lo ≤ v < hi.
Proof.
  revert lo. induction rs as [|r rs IH]; intros lo H; [by intros ?%not_elem_of_nil|].
  rewrite elem_of_runs_cons by done.
  pose proof (runs_in_head _ _ _ _ H). intros [?|Hv%(IH _ (runs_in_tail _ _ _ _ H))]; unfold run_has in *; lia.
Qed.

Lemma runs_values_ascending lo rs hi : runs_in lo rs hi → ascending (runs_values rs).
Proof.
  revert lo. induction rs as [|r rs IH]; intros lo H; [constructor|].
  rewrite runs_values_cons. apply ascending_app. pose proof (runs_in_tail _ _ _ _ H) as Ht.
  split_and!; [|apply seqZ_ascending|by eapply IH].
  intros x y Hx Hy%(runs_values_bounds _ _ _ _ Ht). apply runs_in_head in H.
  rewrite elem_of_run_values in Hx by lia. unfold run_has in Hx. lia.
Qed.

Lemma sum_cardinality_app xs ys : sum_cardinality (xs ++ ys) = sum_cardinality xs + sum_cardinality ys.
Proof. induction xs as [|x xs IH]; [done|]. cbn. fold (sum_cardinality (xs ++ ys)) (sum_cardinality xs). lia. Qed.

Lemma zlen_run_values r : 0 ≤ length_ r → run_end r = start r + length_ r → zlen (run_values r) = run_cardinality r.
Proof.
  intros Hl He. unfold run_values, zlen. rewrite length_seqZ, He. unfold run_cardinality. lia.
Qed.

Lemma zlen_runs_values lo rs hi : runs_in lo rs hi → zlen (runs_values rs) = sum_cardinality rs.
Proof.
  revert lo. induction rs as [|r rs IH]; intros lo H; [done|].
  rewrite runs_values_cons, zlen_app, (IH _ (runs_in_tail _ _ _ _ H)).
  apply runs_in_head in H. rewrite zlen_run_values by lia. done.
Qed.

(** A container built from well-formed runs is well formed. *)
Lemma from_runs_wf rs : runs_in 0 rs 65536 → runs_wf (from_runs rs).
Proof. done. Qed.
Lemma from_runs_with_cardinality_wf rs :
  runs_in 0 rs 65536 → runs_wf (from_runs_with_cardinality rs (sum_cardinality rs)).
Proof. done. Qed.
Lemma runs_new_wf : runs_wf runs_new.
Proof. done. Qed.

(** ** Searching *)

Lemma runs_cmp_ordered lo rs hi v : runs_in lo rs hi → cmp_ordered (run_cmp v) rs.
Proof.
  intros H i j x y Hij Hx Hy.
  assert (run_end x < start y) as Hlt.
  { apply list_elem_of_split_length in Hx as (xs & ys & -> & Hl). apply runs_in_app in H as (mid & _ & H).
    rewrite lookup_app_r in Hy by lia. destruct (j - length xs)%nat as [|k] eqn:E; [lia|].
    cbn in Hy. apply runs_in_tail in H. apply (runs_in_lookup _ _ _ _ _ H) in Hy. lia. }
  pose proof (runs_in_lookup _ _ _ _ _ H Hx). pose proof (runs_in_lookup _ _ _ _ _ H Hy).
  unfold run_cmp. destruct (Z.ltb_spec v (start x)), (Z.ltb_spec v (start y)),
    (Z.ltb_spec (run_end x) v), (Z.ltb_spec (run_end y) v); split_and!; intros; try done; lia.
Qed.

(** What [find_run] tells: the run holding [v], or the gap [v] falls into. *)
Lemma find_run_spec lo rs hi v :
  runs_in lo rs hi → lo ≤ v < hi →
  match find_run v rs with
  | Ok i => ∃ xs r ys, rs = xs ++ r :: ys ∧ length xs = i ∧ run_has r v
  | Err i => ∃ xs ys, rs = xs ++ ys ∧ length xs = i ∧ runs_in lo xs v ∧ runs_in (v + 1) ys hi
  end.
Proof.
  intros H Hv. pose proof (binary_search_by_spec _ _ (runs_cmp_ordered _ _ _ v H)) as Hs.
  unfold find_run. destruct (binary_search_by _ rs) as [i|i].
  - destruct Hs as (r & Hr & Hc). pose proof (runs_in_lookup _ _ _ _ _ H Hr).
    apply list_elem_of_split_length in Hr as (xs & ys & -> & Hl). exists xs, r, ys. split_and!; [done..|].
    unfold run_cmp, run_has in *. destruct (Z.ltb_spec v (start r)), (Z.ltb_spec (run_end r) v); (done || lia).
  - destruct Hs as (Hi & Hlt & Hgt). exists (take i rs), (drop i rs).
    rewrite take_drop, length_take. split_and!; [done|lia|..].
    + rewrite <-(take_drop i rs) in H. apply runs_in_app in H as (mid & Ht & Hd).
      assert (v ≤ 65536) as H65 by (apply runs_in_bounds in Hd; lia). clear Hgt Hi Hd. revert lo Hv mid Ht. induction Hlt as [|r xs Hc _ IH]; cbn; intros lo Hv mid Ht.
      { lia. }
      destruct Ht as (? & ? & Ht). pose proof (runs_in_bounds _ _ _ Ht). unfold run_cmp in Hc.
      split_and!; [lia..|]. eapply IH; [|done].
      assert (run_end r = start r + length_ r) by (unfold run_end; rewrite u16_add_small by lia; done).
      destruct (Z.ltb_spec v (start r)), (Z.ltb_spec (run_end r) v); (done || lia).
    + rewrite <-(take_drop i rs) in H. apply runs_in_app in H as (mid & Ht & Hd).
      apply runs_in_bounds in Ht. eapply runs_in_raise; [done| |lia]. intros r Hh. destruct (drop i rs) as [|r' ys]; simplify_eq/=.
      inversion Hgt as [|?? Hc]; subst. unfold run_cmp in Hc.
      destruct (Z.ltb_spec v (start r)), (run_end r <? v); (done || lia).
Qed.

Lemma runs_contains_spec lo rs hi v :
  runs_in lo rs hi → lo ≤ v < hi → (is_ok (find_run v rs) = true ↔ v ∈ runs_values rs).
Proof.
  intros H Hv. pose proof (find_run_spec _ _ _ _ H Hv) as Hs. destruct (find_run v rs); cbn.
  - destruct Hs as (xs & r & ys & -> & _ & Hr). split; [|done]. intros _.
    rewrite runs_values_app, elem_of_app. right.
    apply runs_in_app in H as (mid & _ & H). rewrite elem_of_runs_cons by done. by left.
  - destruct Hs as (xs & ys & -> & _ & Hx & Hy). split; [done|].
    rewrite runs_values_app, elem_of_app.
    intros [Hin%(runs_values_bounds _ _ _ _ Hx)|Hin%(runs_values_bounds _ _ _ _ Hy)]; lia.
Qed.

(** ** Insertion *)

Lemma alter_middle {A} (f : A → A) xs x ys : alter f (length xs) (xs ++ x :: ys) = xs ++ f x :: ys.
Proof. induction xs as [|y xs IH]; [done|]. cbn. by f_equal. Qed.
Lemma vec_insert_middle {A} (x : A) xs ys : vec_insert (length xs) x (xs ++ ys) = xs ++ x :: ys.
Proof. unfold vec_insert. by rewrite take_app_length, drop_app_length. Qed.

Lemma runs_in_middle lo xs a m b ys hi :
  runs_in lo xs a → runs_in b ys hi → a ≤ start m → 0 ≤ length_ m → start m + length_ m + 1 ≤ b →
  runs_in lo (xs ++ m :: ys) hi.
Proof.
  intros Hx Hy ? ? ?. apply runs_in_app. exists (start m).
  pose proof (runs_in_bounds _ _ _ Hx). pose proof (runs_in_bounds _ _ _ Hy).
  split; [eapply runs_in_weaken; [done|lia..]|]. cbn. split_and!; [lia..|].
  eapply runs_in_weaken; [done|lia..].
Qed.

(** Replacing the runs [ps] by one run [m] that also holds [v] adds [v]. *)
Lemma runs_replaced xs ps m ys v :
  runs_in 0 (xs ++ ps ++ ys) 65536 → runs_in 0 (xs ++ m :: ys) 65536 →
  (∀ w, run_has m w ↔ w = v ∨ w ∈ runs_values ps) →
  run_cardinality m = sum_cardinality ps + 1 →
  (∀ w, w ∈ runs_values (xs ++ m :: ys) ↔ w = v ∨ w ∈ runs_values (xs ++ ps ++ ys)) ∧
  sum_cardinality (xs ++ m :: ys) = sum_cardinality (xs ++ ps ++ ys) + 1.
Proof.
  intros H1 H2 Hm Hc. apply runs_in_app in H2 as (mid & _ & H2). split.
  - intros w. rewrite !runs_values_app, !elem_of_app. rewrite elem_of_runs_cons by done.
    rewrite Hm. tauto.
  - rewrite !sum_cardinality_app. cbn. fold (sum_cardinality ys). lia.
Qed.

Lemma snoc_app {A} (xs : list A) p ys : (xs ++ [p]) ++ ys = xs ++ p :: ys.
Proof. by rewrite <-app_assoc. Qed.
Lemma length_snoc {A} (xs : list A) p : length (xs ++ [p]) = S (length xs).
Proof. rewrite length_app. cbn. lia. Qed.

(** The four ways an insertion closes or splits the gap between [xs] and [ys]. *)
Inductive gap_result (v : Z) : list Run → list Run → list Run → Prop :=
| gap_both xs p n ys :
    run_end p + 1 = v → start n = v + 1 →
    gap_result v (xs ++ [p]) (n :: ys) (xs ++ mk_run (start p) (u16_sub (run_end n) (start p)) :: ys)
| gap_prev xs p ys :
    run_end p + 1 = v → gap_result v (xs ++ [p]) ys (xs ++ mk_run (start p) (u16_add (length_ p) 1) :: ys)
| gap_next xs n ys :
    start n = v + 1 → gap_result v xs (n :: ys) (xs ++ mk_run v (u16_add (length_ n) 1) :: ys)
| gap_alone xs ys : gap_result v xs ys (xs ++ mk_run v 0 :: ys).

Lemma prev_run_gap xs ys : prev_run (xs ++ ys) (length xs) = last xs.
Proof.
  destruct xs as [|p xs _] using rev_ind; [done|].
  rewrite length_snoc, last_snoc, snoc_app. cbn [prev_run]. by apply list_lookup_middle.
Qed.

Lemma runs_insert_gap c xs ys v :
  u16 v → runs c = xs ++ ys → find_run v (runs c) = Err (length xs) →
  runs_in 0 xs v → runs_in (v + 1) ys 65536 →
  gap_result v xs ys (runs (runs_insert v c).1).
Proof.
  intros Hv Hc Hf Hx Hy. unfold u16 in Hv. unfold runs_insert. rewrite Hf, Hc, prev_run_gap.
  rewrite (lookup_app_r xs ys) by done. rewrite Nat.sub_diag.
  assert (∀ p, last xs = Some p → u16_add (run_end p) 1 = run_end p + 1) as Hprev.
  { intros p Hp. apply last_Some in Hp as (xs' & ->). apply runs_in_app in Hx as (mid & _ & Hp).
    pose proof (runs_in_head _ _ _ _ Hp). rewrite u16_add_small; lia. }
  assert (∀ n, ys !! 0%nat = Some n → u16_add v 1 = v + 1) as Hnext.
  { intros n Hn. destruct ys; [done|]. pose proof (runs_in_head _ _ _ _ Hy). rewrite u16_add_small; lia. }
  destruct (last xs) as [p|] eqn:Hp.
  - apply last_Some in Hp as (xs' & ->). rewrite Hprev by done.
    rewrite length_snoc, Nat.sub_succ, Nat.sub_0_r.
    destruct (ys !! 0%nat) as [n|] eqn:Hn.
    + destruct ys as [|n' ys]; simplify_eq/=. rewrite (Hnext n) by done.
      destruct (Z.eqb_spec (run_end p + 1) v), (Z.eqb_spec (start n) (v + 1)); cbn [runs fst].
      * rewrite snoc_app, alter_middle. set (m := set_length (u16_sub (run_end n) (start p)) p).
        rewrite <-(snoc_app xs' m), <-(length_snoc xs' m), delete_middle, (snoc_app xs' m). by constructor.
      * rewrite snoc_app, alter_middle. by apply gap_prev.
      * rewrite <-(length_snoc xs' p).
        rewrite alter_middle. by apply gap_next.
      * rewrite <-(length_snoc xs' p).
        rewrite vec_insert_middle. apply gap_alone.
    + destruct ys; [|done]. destruct (Z.eqb_spec (run_end p + 1) v); cbn [runs fst].
      * rewrite snoc_app, alter_middle. by apply gap_prev.
      * rewrite <-(length_snoc xs' p).
        rewrite vec_insert_middle. apply gap_alone.
  - destruct (ys !! 0%nat) as [n|] eqn:Hn.
    + destruct ys as [|n' ys]; simplify_eq/=. rewrite (Hnext n) by done.
      destruct (Z.eqb_spec (start n) (v + 1)); cbn [runs fst].
      * rewrite alter_middle. by apply gap_next.
      * rewrite vec_insert_middle. apply gap_alone.
    + cbn [runs fst]. rewrite vec_insert_middle. apply gap_alone.
Qed.

Lemma gap_result_spec xs ys zs v :
  u16 v → gap_result v xs ys zs → runs_in 0 xs v → runs_in (v + 1) ys 65536 →
  runs_in 0 zs 65536 ∧
  (∀ w, w ∈ runs_values zs ↔ w = v ∨ w ∈ runs_values (xs ++ ys)) ∧
  sum_cardinality zs = sum_cardinality (xs ++ ys) + 1.
Proof.
  intros Hv Hgap Hx Hy. unfold u16 in Hv.
  assert (runs_in 0 (xs ++ ys) 65536) as Hall.
  { apply runs_in_app. exists v. split; [done|]. eapply runs_in_weaken; [done|lia..]. }
  destruct Hgap as [xs p n ys Hp Hn|xs p ys Hp|xs n ys Hn|xs ys].
  - rewrite snoc_app in *. apply runs_in_app in Hx as (mid & Hx & Hp').
    pose proof (runs_in_head _ _ _ _ Hp'). pose proof (runs_in_head _ _ _ _ Hy).
    pose proof (runs_in_tail _ _ _ _ Hy) as Hys. rewrite u16_sub_small by lia.
    assert (runs_in 0 (xs ++ mk_run (start p) (run_end n - start p) :: ys) 65536) as Hm.
    { eapply runs_in_middle; [done|done|cbn; lia..]. }
    split; [done|]. apply (runs_replaced xs [p; n]); [done|done| |cbn; unfold run_cardinality; cbn; lia].
    intros w. rewrite (elem_of_runs_cons mid _ _ 65536) by (cbn; lia).
    rewrite (elem_of_runs_cons v _ _ 65536) by (cbn; lia). unfold run_has. cbn. rewrite elem_of_nil. lia.
  - rewrite snoc_app in *. apply runs_in_app in Hx as (mid & Hx & Hp').
    pose proof (runs_in_head _ _ _ _ Hp'). rewrite u16_add_small by lia.
    assert (runs_in 0 (xs ++ mk_run (start p) (length_ p + 1) :: ys) 65536) as Hm.
    { eapply runs_in_middle; [done|done|cbn; lia..]. }
    split; [done|]. apply (runs_replaced xs [p]); [done|done| |cbn; unfold run_cardinality; cbn; lia].
    intros w. rewrite (elem_of_runs_cons mid _ _ 65536) by (cbn; lia). unfold run_has. cbn. rewrite elem_of_nil. lia.
  - pose proof (runs_in_head _ _ _ _ Hy). pose proof (runs_in_tail _ _ _ _ Hy) as Hys. rewrite u16_add_small by lia.
    assert (runs_in 0 (xs ++ mk_run v (length_ n + 1) :: ys) 65536) as Hm.
    { eapply runs_in_middle; [done|done|cbn; lia..]. }
    split; [done|]. apply (runs_replaced xs [n]); [done|done| |cbn; unfold run_cardinality; cbn; lia].
    intros w. rewrite (elem_of_runs_cons (v + 1) _ _ 65536) by (cbn; lia). unfold run_has. cbn. rewrite elem_of_nil. lia.
  - assert (runs_in 0 (xs ++ mk_run v 0 :: ys) 65536) as Hm.
    { eapply runs_in_middle; [done|done|cbn; lia..]. }
    split; [done|]. apply (runs_replaced xs []); [done|done| |done].
    intros w. unfold run_has. cbn. rewrite elem_of_nil. lia.
Qed.

Lemma runs_insert_spec c v :
  runs_wf c → u16 v →
  runs_wf (runs_insert v c).1 ∧
  (runs_insert v c).2 = negb (runs_contains c v) ∧
  (∀ w, w ∈ runs_to_values (runs_insert v c).1 ↔ w = v ∨ w ∈ runs_to_values c).
Proof.
  intros [Hc Hcard] Hv. pose proof (find_run_spec _ _ _ _ Hc Hv) as Hf.
  pose proof (runs_contains_spec _ _ _ _ Hc Hv) as Hin.
  unfold runs_contains, runs_to_values. destruct (find_run v (runs c)) as [i|i] eqn:E.
  - unfold runs_insert. rewrite E. split_and!; [done..|]. intros w. cbn in *. naive_solver.
  - destruct Hf as (xs & ys & Hxy & <- & Hx & Hy).
    destruct (gap_result_spec xs ys (runs (runs_insert v c).1) v Hv) as (Hwf & Hmem & Hsum);
      [by apply runs_insert_gap|done..|].
    split_and!; [split; [done|]| |].
    + rewrite Hsum, <-Hxy, <-Hcard. unfold runs_insert. by rewrite E.
    + unfold runs_insert. by rewrite E.
    + intros w. by rewrite Hmem, Hxy.
Qed.

(** ** Removal *)

(** Replacing a run by runs inside it that hold the same values but [v]. *)
Lemma run_shrunk xs r ps ys v :
  runs_in 0 (xs ++ r :: ys) 65536 → run_has r v →
  runs_in (start r) ps (run_end r + 1) →
  (∀ w, w ∈ runs_values ps ↔ run_has r w ∧ w ≠ v) → sum_cardinality ps = run_cardinality r - 1 →
  runs_in 0 (xs ++ ps ++ ys) 65536 ∧
  (∀ w, w ∈ runs_values (xs ++ ps ++ ys) ↔ w ∈ runs_values (xs ++ r :: ys) ∧ w ≠ v) ∧
  sum_cardinality (xs ++ ps ++ ys) = sum_cardinality (xs ++ r :: ys) - 1.
Proof.
  intros H Hr Hps Hval Hsum. apply runs_in_app in H as (mid & Hx & Hy).
  pose proof (runs_in_head _ _ _ _ Hy). pose proof (runs_in_tail _ _ _ _ Hy) as Hys. unfold run_has in Hr.
  split_and!.
  - apply runs_in_app. exists (start r). split; [eapply runs_in_weaken; [done|lia..]|].
    apply runs_in_app. by exists (run_end r + 1).
  - intros w. rewrite !runs_values_app, !elem_of_app, Hval. rewrite (elem_of_runs_cons _ _ _ _ _ Hy).
    assert (w ∈ runs_values xs → w ≠ v) by (intros Hw%(runs_values_bounds _ _ _ _ Hx); lia).
    assert (w ∈ runs_values ys → w ≠ v) by (intros Hw%(runs_values_bounds _ _ _ _ Hys); lia).
    tauto.
  - rewrite !sum_cardinality_app, Hsum. cbn. fold (sum_cardinality ys). lia.
Qed.

Lemma elem_of_runs_values_1 r lo hi w : runs_in lo [r] hi → (w ∈ runs_values [r] ↔ run_has r w).
Proof. intros H. rewrite (elem_of_runs_cons _ _ _ _ _ H). cbn. rewrite elem_of_nil. tauto. Qed.

Lemma runs_remove_ok c xs r ys v :
  runs_in 0 (xs ++ r :: ys) 65536 → run_has r v → runs c = xs ++ r :: ys →
  find_run v (runs c) = Ok (length xs) →
  let rs' := runs (runs_remove v c).1 in
  runs_in 0 rs' 65536 ∧ (∀ w, w ∈ runs_values rs' ↔ w ∈ runs_values (runs c) ∧ w ≠ v) ∧
  sum_cardinality rs' = sum_cardinality (runs c) - 1.
Proof.
  intros H Hr Hc Hf. cbv zeta. unfold runs_remove. rewrite Hf, Hc, list_lookup_middle by done. cbn [default runs fst].
  pose proof H as (mid & _ & Hy)%runs_in_app. pose proof (runs_in_head _ _ _ _ Hy) as (? & ? & He & ? & ?).
  pose proof Hr as [? ?]. cbn [from_option id].
  destruct (Z.eqb_spec (length_ r) 0); [|destruct (Z.eqb_spec v (start r)); [|destruct (Z.eqb_spec v (run_end r))]].
  - rewrite delete_middle. apply (run_shrunk xs r [] ys v); [done|done|cbn; lia| |unfold run_cardinality; cbn; lia].
    intros w. unfold run_has. cbn. rewrite elem_of_nil. lia.
  - rewrite alter_middle. rewrite u16_add_small, u16_sub_small by lia.
    assert (runs_in (start r) [mk_run (start r + 1) (length_ r - 1)] (run_end r + 1)) as Hp by (cbn; lia).
    apply (run_shrunk xs r [_] ys v); [done|done|done| |unfold run_cardinality; cbn; unfold run_cardinality; cbn; lia].
    intros w. rewrite (elem_of_runs_values_1 _ _ _ _ Hp). unfold run_has. cbn. lia.
  - rewrite alter_middle. unfold set_length. rewrite u16_sub_small by lia.
    assert (runs_in (start r) [mk_run (start r) (length_ r - 1)] (run_end r + 1)) as Hp by (cbn; lia).
    apply (run_shrunk xs r [_] ys v); [done|done|done| |unfold run_cardinality; cbn; unfold run_cardinality; cbn; lia].
    intros w. rewrite (elem_of_runs_values_1 _ _ _ _ Hp). unfold run_has. cbn. lia.
  - rewrite alter_middle. unfold set_length. rewrite (u16_add_small v 1) by lia.
    rewrite (u16_sub_small v (start r)), (u16_sub_small (run_end r) v), !u16_sub_small by lia.
    rewrite <-(snoc_app xs), <-(length_snoc xs (mk_run (start r) (v - start r - 1))), vec_insert_middle, snoc_app.
    assert (runs_in (start r) [mk_run (start r) (v - start r - 1); mk_run (v + 1) (run_end r - v - 1)]
      (run_end r + 1)) as Hp by (cbn; lia).
    apply (run_shrunk xs r [_; _] ys v); [done|done|done| |unfold run_cardinality; cbn; unfold run_cardinality; cbn; lia].
    intros w. rewrite (elem_of_runs_cons _ _ _ _ _ Hp), (elem_of_runs_values_1 _ _ _ _ (runs_in_tail _ _ _ _ Hp)).
    unfold run_has. cbn. lia.
Qed.

Lemma runs_remove_spec c v :
  runs_wf c → u16 v →
  runs_wf (runs_remove v c).1 ∧
  (runs_remove v c).2 = runs_contains c v ∧
  (∀ w, w ∈ runs_to_values (runs_remove v c).1 ↔ w ∈ runs_to_values c ∧ w ≠ v).
Proof.
  intros [Hc Hcard] Hv. pose proof (find_run_spec _ _ _ _ Hc Hv) as Hf.
  pose proof (runs_contains_spec _ _ _ _ Hc Hv) as Hin.
  unfold runs_contains, runs_to_values. destruct (find_run v (runs c)) as [i|i] eqn:E.
  - destruct Hf as (xs & r & ys & Hxy & <- & Hr).
    destruct (runs_remove_ok c xs r ys v) as (Hwf & Hmem & Hsum); [by rewrite <-Hxy|done..|].
    split_and!; [split; [done|]| |done].
    + rewrite Hsum, <-Hcard. unfold runs_remove. by rewrite E.
    + unfold runs_remove. by rewrite E.
  - unfold runs_remove. rewrite E. split_and!; [done..|]. intros w. cbn in *. split; [|tauto].
    intros Hw. split; [done|]. intros ->. naive_solver.
Qed.

(** ** Reads *)

Lemma rank_loop_spec value count lo rs hi :
  runs_in lo rs hi → u16 value → rank_loop value count rs = count + count_le value (runs_values rs).
Proof.
  unfold count_le, u16. intros H Hv. revert lo count H. induction rs as [|r rs IH]; intros lo count H.
  { cbn. change (zlen (@nil Z)) with 0. lia. }
  pose proof (runs_in_head _ _ _ _ H) as (? & ? & He & ? & ?). pose proof (runs_in_tail _ _ _ _ H) as Ht.
  cbn [rank_loop]. rewrite runs_values_cons, filter_app, zlen_app.
  assert (value ≤ run_end r → filter (λ x, x ≤ value) (runs_values rs) = []) as Hrest.
  { intros Hle. apply filter_none. intros x Hx%(runs_values_bounds _ _ _ _ Ht). lia. }
  destruct (Z.ltb_spec value (start r)).
  - rewrite Hrest by lia. rewrite filter_none; [unfold zlen; cbn; lia|].
    intros x Hx%(elem_of_run_values _ _ He). unfold run_has in Hx. lia.
  - destruct (Z.leb_spec (run_end r) value).
    + rewrite (IH _ _ Ht), (filter_all _ (run_values r)), zlen_run_values; [lia|lia|done|].
      intros x Hx%(elem_of_run_values _ _ He). unfold run_has in Hx. lia.
    + rewrite Hrest by lia. rewrite u16_sub_small, u16_add_small by lia.
      assert (filter (λ x, x ≤ value) (run_values r) = seqZ (start r) (value - start r + 1)) as ->.
      { apply ascending_ext; [apply ascending_filter, seqZ_ascending|apply seqZ_ascending|].
        intros x. rewrite list_elem_of_filter, elem_of_run_values, elem_of_seqZ by done. unfold run_has. lia. }
      unfold zlen. rewrite length_seqZ. cbn [length]. lia.
Qed.

Lemma select_loop_spec rank lo rs hi :
  runs_in lo rs hi → 0 ≤ rank → select_loop rank rs = runs_values rs !! Z.to_nat rank.
Proof.
  intros H. revert lo rank H. induction rs as [|r rs IH]; intros lo rank H Hr; [done|].
  pose proof (runs_in_head _ _ _ _ H) as (? & ? & He & ? & ?). pose proof (runs_in_tail _ _ _ _ H) as Ht.
  cbn [select_loop]. rewrite runs_values_cons.
  pose proof (zlen_run_values r ltac:(lia) He) as Hlen. unfold zlen in Hlen.
  destruct (Z.ltb_spec rank (run_cardinality r)); unfold run_cardinality in *.
  - rewrite lookup_app_l by lia. unfold run_values. rewrite lookup_seqZ_lt by lia.
    f_equal. rewrite wrap_small by lia. rewrite u16_add_small by lia. lia.
  - rewrite lookup_app_r by lia. rewrite (IH _ _ Ht) by lia. f_equal. lia.
Qed.

Lemma runs_min_spec lo rs hi : runs_in lo rs hi → start <$> head rs = head (runs_values rs).
Proof.
  destruct rs as [|r rs]; [done|]. intros H%runs_in_head. cbn [head fmap option_fmap option_map].
  rewrite runs_values_cons. unfold run_values. by rewrite seqZ_cons by lia.
Qed.

Lemma runs_max_spec lo rs hi : runs_in lo rs hi → run_end <$> last rs = last (runs_values rs).
Proof.
  destruct rs as [|r rs _] using rev_ind; [done|]. intros H. apply runs_in_app in H as (mid & _ & H%runs_in_head).
  rewrite last_snoc, runs_values_app, last_app. change (runs_values [r]) with (run_values r ++ []).
  rewrite app_nil_r. unfold run_values.
  rewrite seqZ_app, last_app by lia. cbn. f_equal. lia.
Qed.

#[export] Instance runs_set : U16Set RunContainer := {
  set_wf := runs_wf;
  set_contains := runs_contains;
  set_values := runs_to_values;
  set_card := runs_cardinality;
  set_min := runs_min;
  set_max := runs_max;
  set_rank := runs_rank;
  set_select := runs_select;
}.

#[export] Instance runs_set_laws : U16SetLaws RunContainer.
Proof.
  split; intros c; intros; match goal with H : set_wf c |- _ => destruct H as [Hc Hcard] end; cbn.
  - by eapply runs_values_ascending.
  - apply Forall_forall. intros v Hv. by eapply runs_values_bounds.
  - by apply (runs_contains_spec 0 _ 65536).
  - unfold runs_cardinality, runs_to_values. by erewrite zlen_runs_values.
  - by eapply runs_min_spec.
  - by eapply runs_max_spec.
  - unfold runs_rank. by erewrite rank_loop_spec by done.
  - by eapply select_loop_spec.
Qed.

(** ** Intersection *)

Lemma and_loop_cons a xs b ys :
  and_loop (a :: xs) (b :: ys) =
    let s := Z.max (start a) (start b) in
    let e := Z.min (run_end a) (run_end b) in
    (if s <=? e then [mk_run s (u16_sub e s)] else []) ++
    (if run_end a <? run_end b then and_loop xs (b :: ys) else and_loop (a :: xs) ys).
Proof. done. Qed.

Lemma and_loop_spec xs : ∀ ys lo lo',
  runs_in lo xs 65536 → runs_in lo' ys 65536 →
  runs_in (Z.max lo lo') (and_loop xs ys) 65536 ∧
  ∀ v, v ∈ runs_values (and_loop xs ys) ↔ v ∈ runs_values xs ∧ v ∈ runs_values ys.
Proof.
  induction xs as [|a xs IHx]; intros ys lo lo' Hx Hy.
  { pose proof (runs_in_bounds _ _ _ Hy). split; [destruct ys; cbn in *; lia|].
    intros v. destruct ys; cbn; rewrite elem_of_nil; tauto. }
  revert lo' Hy. induction ys as [|b ys IHy]; intros lo' Hy.
  { pose proof (runs_in_bounds _ _ _ Hx). split; [cbn in *; lia|]. intros v. cbn. rewrite elem_of_nil. tauto. }
  pose proof (runs_in_head _ _ _ _ Hx) as (? & ? & Hea & ? & ?). pose proof (runs_in_tail _ _ _ _ Hx) as Htx.
  pose proof (runs_in_head _ _ _ _ Hy) as (? & ? & Heb & ? & ?). pose proof (runs_in_tail _ _ _ _ Hy) as Hty.
  rewrite and_loop_cons. cbv zeta.
  set (rest := if run_end a <? run_end b then and_loop xs (b :: ys) else and_loop (a :: xs) ys).
  set (s := Z.max (start a) (start b)). set (e := Z.min (run_end a) (run_end b)).
  assert (runs_in (Z.max (e + 1) (Z.max lo lo')) rest 65536 ∧ ∀ v, v ∈ runs_values rest ↔
    e < v ∧ v ∈ runs_values (a :: xs) ∧ v ∈ runs_values (b :: ys)) as [Hrest Hmem].
  { subst rest e. destruct (Z.ltb_spec (run_end a) (run_end b)).
    - destruct (IHx _ _ _ Htx Hy) as [Hw Hv]. split; [eapply runs_in_weaken; [done|lia..]|].
      intros v. rewrite Hv, (elem_of_runs_cons _ _ _ _ _ Hx). unfold run_has. split; [|naive_solver lia].
      intros [Hin Hin']. pose proof (runs_values_bounds _ _ _ _ Htx Hin). split_and!; [lia|tauto|done].
    - destruct (IHy _ Hty) as [Hw Hv]. split; [eapply runs_in_weaken; [done|lia..]|].
      intros v. rewrite Hv, (elem_of_runs_cons _ _ _ _ _ Hy). unfold run_has. split; [|naive_solver lia].
      intros [Hin Hin']. pose proof (runs_values_bounds _ _ _ _ Hty Hin'). split_and!; [lia|done|tauto]. }
  clearbody rest. clear IHx IHy.
  assert (∀ v, v ≤ e → v ∈ runs_values (a :: xs) ∧ v ∈ runs_values (b :: ys) ↔ s ≤ v) as Hlow.
  { intros v Hv. rewrite (elem_of_runs_cons _ _ _ _ _ Hx), (elem_of_runs_cons _ _ _ _ _ Hy). unfold run_has.
    pose proof (runs_values_bounds _ _ _ v Htx). pose proof (runs_values_bounds _ _ _ v Hty). subst s e. naive_solver lia. }
  destruct (Z.leb_spec s e); cbn [app].
  - rewrite u16_sub_small by lia. assert (runs_in (Z.max lo lo') (mk_run s (e - s) :: rest) 65536) as Hw.
    { cbn. split_and!; [lia..|]. eapply runs_in_weaken; [done|lia..]. }
    split; [done|]. intros v. rewrite (elem_of_runs_cons _ _ _ _ _ Hw), Hmem. unfold run_has. cbn.
    destruct (decide (v ≤ e)) as [Hle|Hgt]; [rewrite (Hlow v Hle)|]; naive_solver lia.
  - split; [eapply runs_in_weaken; [done|lia..]|]. intros v. rewrite Hmem.
    destruct (decide (v ≤ e)) as [Hle|Hgt]; [rewrite (Hlow v Hle)|]; naive_solver lia.
Qed.

Lemma runs_and_spec a b :
  runs_wf a → runs_wf b →
  runs_wf (runs_and a b) ∧
  ∀ v, v ∈ runs_to_values (runs_and a b) ↔ v ∈ runs_to_values a ∧ v ∈ runs_to_values b.
Proof.
  intros [Ha _] [Hb _]. destruct (and_loop_spec _ _ _ _ Ha Hb) as [Hw Hv].
  split; [by apply from_runs_with_cardinality_wf|done].
Qed.

(** ** Union *)

(** Runs sorted by start, each inside [u16]; they may overlap. *)
Fixpoint sorted_from (lo : Z) (rs : list Run) : Prop :=
  match rs with
  | [] => True
  | r :: rs => lo ≤ start r ∧ 0 ≤ start r ∧ 0 ≤ length_ r ∧ start r + length_ r < 65536 ∧ sorted_from (start r) rs
  end.

Definition some_has (rs : list Run) (v : Z) : Prop := Exists (λ r, run_has r v) rs.

Lemma sorted_from_weaken lo lo' rs : sorted_from lo rs → lo' ≤ lo → sorted_from lo' rs.
Proof. destruct rs; cbn; naive_solver lia. Qed.

Lemma runs_in_sorted lo rs hi : runs_in lo rs hi → sorted_from lo rs.
Proof.
  revert lo. induction rs as [|r rs IH]; intros lo H; [done|]. pose proof (runs_in_head _ _ _ _ H).
  cbn. split_and!; [lia..|]. eapply sorted_from_weaken; [by eapply IH, runs_in_tail|lia].
Qed.

Lemma elem_of_runs_values lo rs hi v : runs_in lo rs hi → (v ∈ runs_values rs ↔ some_has rs v).
Proof.
  unfold some_has. revert lo. induction rs as [|r rs IH]; intros lo H.
  - cbn. rewrite elem_of_nil, Exists_nil. done.
  - by rewrite (elem_of_runs_cons _ _ _ _ _ H), Exists_cons, (IH _ (runs_in_tail _ _ _ _ H)).
Qed.

Lemma merge_loop_cons a xs b ys :
  merge_loop (a :: xs) (b :: ys) =
    if start a <=? start b then a :: merge_loop xs (b :: ys) else b :: merge_loop (a :: xs) ys.
Proof. done. Qed.

Lemma merge_loop_spec xs : ∀ ys lo,
  sorted_from lo xs → sorted_from lo ys →
  sorted_from lo (merge_loop xs ys) ∧ ∀ v, some_has (merge_loop xs ys) v ↔ some_has xs v ∨ some_has ys v.
Proof.
  unfold some_has. induction xs as [|a xs IHx]; intros ys lo Hx Hy.
  { split; [by destruct ys|]. intros v. destruct ys; cbn; rewrite ?Exists_nil; tauto. }
  revert lo Hx Hy. induction ys as [|b ys IHy]; intros lo Hx Hy.
  { split; [done|]. intros v. cbn. rewrite (Exists_nil (λ r, run_has r v)). tauto. }
  rewrite merge_loop_cons. destruct Hx as (? & ? & ? & ? & Hx), Hy as (? & ? & ? & ? & Hy).
  destruct (Z.leb_spec (start a) (start b)).
  - destruct (IHx (b :: ys) (start a)) as [Hw Hv]; [done|cbn; split_and!; done|].
    split; [cbn; split_and!; done|]. intros v. rewrite !Exists_cons, Hv, Exists_cons. tauto.
  - destruct (IHy (start b)) as [Hw Hv]; [cbn; split_and!; (done || lia)|done|].
    split; [cbn; split_and!; done|]. intros v. rewrite !Exists_cons, Hv, Exists_cons. tauto.
Qed.

Lemma coalesce_loop_spec rest : ∀ last,
  0 ≤ start last → 0 ≤ length_ last → start last + length_ last < 65536 → sorted_from (start last) rest →
  runs_in (start last) (coalesce_loop last rest) 65536 ∧
  ∀ v, some_has (coalesce_loop last rest) v ↔ some_has (last :: rest) v.
Proof.
  unfold some_has. induction rest as [|r rest IH]; intros last H0 Hl He Hs; [split; [cbn; lia|done]|].
  destruct Hs as (? & ? & ? & ? & Hs). cbn [coalesce_loop].
  assert (run_end last = start last + length_ last) as Hel by (unfold run_end; rewrite u16_add_small by lia; done).
  assert (run_end r = start r + length_ r) as Her by (unfold run_end; rewrite u16_add_small by lia; done).
  rewrite Hel, Her. unfold u16_saturating_add, U16_MAX. cbv zeta.
  destruct (Z.leb_spec (start r) (Z.min 65535 (start last + length_ last + 1))).
  - rewrite u16_sub_small by lia. unfold set_length.
    destruct (IH (mk_run (start last) (Z.max (start last + length_ last) (start r + length_ r) - start last)))
      as [Hw Hv]; cbn [start length_] in *; [lia..|by eapply sorted_from_weaken|].
    split; [done|]. intros v. rewrite Hv, !Exists_cons. unfold run_has. cbn [start length_]. naive_solver lia.
  - destruct (IH r) as [Hw Hv]; [done..|]. split; [|intros v; by rewrite !(Exists_cons _ last), Hv].
    cbn. split_and!; [lia..|]. eapply runs_in_weaken; [done|lia..].
Qed.

Lemma runs_or_spec a b :
  runs_wf a → runs_wf b →
  runs_wf (runs_or a b) ∧
  ∀ v, v ∈ runs_to_values (runs_or a b) ↔ v ∈ runs_to_values a ∨ v ∈ runs_to_values b.
Proof.
  intros [Ha _] [Hb _]. unfold runs_to_values, runs_or.
  destruct (merge_loop_spec (runs a) (runs b) 0) as [Hs Hv]; [by eapply runs_in_sorted..|].
  destruct (merge_loop (runs a) (runs b)) as [|first rest].
  - split; [done|]. intros v. rewrite !(elem_of_runs_values _ _ _ _ Ha), (elem_of_runs_values _ _ _ _ Hb), <-Hv.
    cbn. unfold some_has. rewrite elem_of_nil, Exists_nil. done.
  - destruct Hs as (? & ? & ? & ? & Hs). destruct (coalesce_loop_spec rest first) as [Hw Hc]; [done..|].
    assert (runs_in 0 (coalesce_loop first rest) 65536) as Hw0 by (eapply runs_in_weaken; [done|lia..]).
    split; [by apply from_runs_with_cardinality_wf|]. intros v. cbn [runs from_runs_with_cardinality].
    by rewrite (elem_of_runs_values _ _ _ _ Hw0), Hc, Hv, (elem_of_runs_values _ _ _ _ Ha), (elem_of_runs_values _ _ _ _ Hb).
Qed.

(** ** Difference

    [start = b.end().saturating_add(1)] cannot step past 65535, so a run of the
    subtrahend that ends there leaves 65535 in the result when the minuend holds it
    too.  [difference_member] is the exact outcome. *)

Definition difference_member (xs ys : list Run) (v : Z) : Prop :=
  v ∈ runs_values xs ∧ (v ∉ runs_values ys ∨ v = U16_MAX).

Lemma skip_before_spec s ys lo :
  runs_in lo ys 65536 → 0 ≤ s →
  (∃ lo', runs_in lo' (skip_before s ys) 65536 ∧ lo ≤ lo') ∧
  (∀ b, head (skip_before s ys) = Some b → s ≤ run_end b) ∧
  ∀ v, s ≤ v → (v ∈ runs_values (skip_before s ys) ↔ v ∈ runs_values ys).
Proof.
  intros H Hs. revert lo H. induction ys as [|b ys IH]; intros lo H; cbn [skip_before].
  { split_and!; [exists lo; split; [done|lia]|done|done]. }
  pose proof (runs_in_head _ _ _ _ H). pose proof (runs_in_tail _ _ _ _ H) as Ht.
  destruct (Z.ltb_spec (run_end b) s).
  - destruct (IH _ Ht) as ((lo' & Hw & ?) & Hh & Hv).
    split_and!; [exists lo'; split; [done|lia]|done|]. intros v Hsv.
    rewrite Hv, (elem_of_runs_cons _ _ _ _ _ H) by done. unfold run_has. naive_solver lia.
  - split_and!; [exists lo; split; [done|lia]|intros ? [= <-]; lia|done].
Qed.

(** What is left of the minuend's run once no run of the subtrahend overlaps it. *)
Lemma subtract_final e s ys a :
  0 ≤ s ≤ 65535 → e ≤ 65535 → 0 ≤ a ≤ s → a ≤ e + 1 → (∀ v, v ≤ e → v ∉ runs_values ys) →
  let total := if s <=? e then [mk_run s (u16_sub e s)] else [] in
  runs_in a total (e + 1) ∧
  ∀ v, v ∈ runs_values total ↔ s ≤ v ≤ e ∧ (v ∉ runs_values ys ∨ v = U16_MAX).
Proof.
  intros ???? Hno. destruct (Z.leb_spec s e); cbv zeta.
  - rewrite u16_sub_small by lia. assert (runs_in a [mk_run s (e - s)] (e + 1)) as Hw by (cbn; lia).
    split; [done|]. intros v. rewrite (elem_of_runs_values_1 _ _ _ _ Hw). unfold run_has. cbn. split; [|lia].
    intros Hv. split; [lia|]. left. apply Hno. lia.
  - split; [cbn; lia|]. intros v. cbn. rewrite elem_of_nil. lia.
Qed.

(** Decide a goal that is arithmetic up to the truth of [v ∈ runs_values ys]. *)
Ltac by_membership v ys Hbound :=
  let E := fresh in
  destruct (decide (v ∈ runs_values ys)) as [E|E];
  [ pose proof (Hbound E); assert (v ∈ runs_values ys ↔ True) as -> by tauto
  | assert (v ∈ runs_values ys ↔ False) as -> by tauto ];
  clear E Hbound; lia.

(** The runs one run [s..e] of the minuend leaves. *)
Lemma subtract_loop_spec e ys : ∀ s lo a,
  runs_in lo ys 65536 → 0 ≤ s ≤ 65535 → e ≤ 65535 → 0 ≤ a ≤ s → a ≤ e + 1 →
  (∀ b, head ys = Some b → s ≤ run_end b) →
  let '(out, s') := subtract_loop s e ys in
  let total := out ++ if s' <=? e then [mk_run s' (u16_sub e s')] else [] in
  runs_in a total (e + 1) ∧
  ∀ v, v ∈ runs_values total ↔ s ≤ v ≤ e ∧ (v ∉ runs_values ys ∨ v = U16_MAX).
Proof.
  induction ys as [|b ys IH]; intros s lo a H Hs He Ha Hae Hh; cbn [subtract_loop].
  { apply subtract_final; [lia..|]. intros v _. apply not_elem_of_nil. }
  pose proof (runs_in_head _ _ _ _ H) as (? & ? & Heb & ? & ?). pose proof (runs_in_tail _ _ _ _ H) as Ht.
  specialize (Hh b eq_refl). destruct (Z.leb_spec (start b) e) as [Hle|Hgt].
  2:{ apply subtract_final; [lia..|]. intros v Hv Hin. pose proof (runs_values_bounds _ _ _ _ H Hin).
      rewrite (elem_of_runs_cons _ _ _ _ _ H) in Hin. destruct Hin as [Hin|Hin%(runs_values_bounds _ _ _ _ Ht)];
        unfold run_has in *; lia. }
  set (s1 := u16_saturating_add (run_end b) 1). unfold u16_saturating_add, U16_MAX in s1.
  specialize (IH s1 (run_end b + 1) (if s <? start b then start b else a) Ht).
  destruct (subtract_loop s1 e ys) as [rest s']. rewrite <-app_assoc.
  set (total := rest ++ _) in *.
  destruct IH as [Hw Hv]; [lia|lia|case_cmp; lia|case_cmp; lia| |].
  { intros b' Hb'. destruct ys; simplify_eq/=. pose proof (runs_in_head _ _ _ _ Ht). lia. }
  assert (∀ v, v ∈ runs_values (b :: ys) ↔ run_has b v ∨ v ∈ runs_values ys) as Hcons
    by (intros; by eapply elem_of_runs_cons).
  assert (∀ v, v ∈ runs_values ys → run_end b < v < 65536) as Hys
    by (intros v Hin%(runs_values_bounds _ _ _ _ Ht); lia).
  clearbody total. subst s1. destruct (Z.ltb_spec s (start b)); cbn [app].
  - rewrite (u16_sub_small (start b)) by lia. rewrite u16_sub_small by lia.
    assert (runs_in a (mk_run s (start b - 1 - s) :: total) (e + 1)) as Hw'.
    { cbn. split_and!; [lia..|]. by replace (s + (start b - 1 - s) + 1) with (start b) by lia. }
    split; [done|]. intros v. rewrite (elem_of_runs_cons _ _ _ _ _ Hw'), Hv, Hcons. specialize (Hys v).
    unfold run_has, U16_MAX. cbn [start length_]. by_membership v ys Hys.
  - split; [done|]. intros v. rewrite Hv, Hcons. specialize (Hys v).
    unfold run_has, U16_MAX. by_membership v ys Hys.
Qed.

Lemma and_not_loop_spec xs : ∀ ys lo lo',
  runs_in lo xs 65536 → runs_in lo' ys 65536 →
  runs_in lo (and_not_loop xs ys) 65536 ∧
  ∀ v, v ∈ runs_values (and_not_loop xs ys) ↔ difference_member xs ys v.
Proof.
  unfold difference_member. induction xs as [|a xs IH]; intros ys lo lo' Hx Hy; cbn [and_not_loop].
  { split; [done|]. intros v. rewrite elem_of_nil. tauto. }
  pose proof (runs_in_head _ _ _ _ Hx) as (? & ? & Hea & ? & ?). pose proof (runs_in_tail _ _ _ _ Hx) as Htx.
  destruct (skip_before_spec (start a) ys lo' Hy) as ((lo'' & Hs & _) & Hh & Hskip); [lia|].
  cbv zeta. set (ys' := skip_before (start a) ys) in *. clearbody ys'.
  destruct (IH ys' _ _ Htx Hs) as [Hw Hv]. unfold subtract_run.
  pose proof (subtract_loop_spec (run_end a) ys' (start a) lo'' lo Hs) as Hsub.
  destruct (subtract_loop _ _ _) as [out s']. destruct Hsub as [Hw1 Hv1]; [lia..|done|].
  split; [apply runs_in_app; by eexists|]. intros v. rewrite runs_values_app, elem_of_app, Hv1, Hv.
  rewrite (elem_of_runs_cons _ _ _ _ _ Hx). unfold run_has. specialize (Hskip v).
  pose proof (runs_values_bounds _ _ _ v Htx). naive_solver lia.
Qed.

Lemma runs_and_not_spec a b :
  runs_wf a → runs_wf b →
  runs_wf (runs_and_not a b) ∧
  ∀ v, v ∈ runs_to_values (runs_and_not a b) ↔
    v ∈ runs_to_values a ∧ (v ∉ runs_to_values b ∨ v = U16_MAX).
Proof.
  intros [Ha _] [Hb _]. destruct (and_not_loop_spec _ _ _ _ Ha Hb) as [Hw Hv].
  split; [by apply from_runs_with_cardinality_wf|done].
Qed.

(** ** Building from sorted values *)

Lemma runs_of_sorted_spec s prev vs :
  u16 s → s ≤ prev → Forall (Z.lt prev) vs → ascending vs → Forall u16 (prev :: vs) →
  runs_in s (runs_of_sorted s prev vs) 65536 ∧
  runs_values (runs_of_sorted s prev vs) = seqZ s (prev - s + 1) ++ vs.
Proof.
  unfold u16. revert s prev. induction vs as [|v vs IH]; intros s prev Hs Hsp Hlt Ha Hb; cbn [runs_of_sorted].
  - apply Forall_cons in Hb as [Hp _]. unfold u16 in Hp. rewrite u16_sub_small by lia. split; [cbn; lia|].
    rewrite runs_values_cons. unfold run_values, run_end. cbn. rewrite u16_add_small by lia.
    do 2 f_equal. lia.
  - apply Forall_cons in Hb as [Hp Hb]. apply Forall_cons in Hlt as [Hlt1 Hlt]. apply ascending_cons in Ha as [Hv Ha].
    pose proof Hb as [Hvb _]%Forall_cons. unfold u16 in *. rewrite u16_add_small by lia.
    destruct (Z.eqb_spec v (prev + 1)) as [->|].
    + destruct (IH s (prev + 1)) as [Hw Hval]; [lia|lia|done..|]. split; [done|]. rewrite Hval.
      replace (prev + 1 - s + 1) with (prev - s + 1 + 1) by lia. rewrite seqZ_app by lia.
      replace (s + (prev - s + 1)) with (prev + 1) by lia. by rewrite <-app_assoc.
    + destruct (IH v v) as [Hw Hval]; [lia|lia|done..|]. rewrite u16_sub_small by lia. split.
      * cbn. split_and!; [lia..|]. eapply runs_in_weaken; [done|lia..].
      * rewrite runs_values_cons, Hval. unfold run_values, run_end. cbn [start length_].
        rewrite u16_add_small by lia. replace (s + (prev - s) - s + 1) with (prev - s + 1) by lia.
        by replace (v - v + 1) with 1 by lia.
Qed.

Lemma runs_from_sorted_values_spec vs :
  ascending vs → Forall u16 vs →
  runs_wf (runs_from_sorted_values vs) ∧ runs_to_values (runs_from_sorted_values vs) = vs.
Proof.
  intros Ha Hb. destruct vs as [|v vs]; [done|]. pose proof Ha as [Hlt Ha']%ascending_cons.
  pose proof Hb as [Hv _]%Forall_cons.
  destruct (runs_of_sorted_spec v v vs) as [Hw Hval]; [done|lia|done..|].
  replace (v - v + 1) with 1 in Hval by lia. change (seqZ v 1 ++ vs) with (v :: vs) in Hval.
  assert (runs_in 0 (runs_of_sorted v v vs) 65536) as Hw0.
  { unfold u16 in Hv. eapply runs_in_weaken; [done|lia..]. }
  split; [split; [done|]|done]. cbn [runs run_card runs_from_sorted_values].
  by rewrite <-(zlen_runs_values _ _ _ Hw0), Hval.
Qed.

(** ** The iterator yields the values, in order, and stops *)

(** What an initialised iterator has still to yield. *)
Definition iter_rest (it : RunIter) : list Z :=
  match iter_runs it !! run_idx it with
  | None => []
  | Some r => seqZ (current it) (run_end r - current it + 1) ++ runs_values (drop (S (run_idx it)) (iter_runs it))
  end.
Definition iter_ok (rs : list Run) (it : RunIter) : Prop :=
  iter_runs it = rs ∧ 0 ≤ current it ∧ initialized it = true.

Lemma enter_run_rest rs it :
  runs_in 0 rs 65536 → iter_ok rs it →
  iter_ok rs (enter_run it) ∧ iter_rest (enter_run it) = runs_values (drop (run_idx it) rs).
Proof.
  intros H (<- & Hc & Hi). unfold enter_run, iter_rest. destruct (iter_runs it !! run_idx it) as [r|] eqn:E.
  - pose proof (runs_in_lookup _ _ _ _ _ H E). split; [split_and!; cbn; (done || lia)|].
    cbn. by rewrite E, (drop_S _ r _ E).
  - rewrite E. split; [done|]. apply lookup_ge_None in E. by rewrite drop_ge.
Qed.

Lemma next_loop_rest fuel rs : ∀ it,
  runs_in 0 rs 65536 → iter_ok rs it → (length rs - run_idx it < fuel)%nat →
  (next_loop fuel it).1 = head (iter_rest it) ∧
  iter_ok rs (next_loop fuel it).2 ∧ iter_rest (next_loop fuel it).2 = tail (iter_rest it).
Proof.
  induction fuel as [|fuel IH]; intros it H Hok Hf; [lia|]. pose proof Hok as (Hrs & Hc & Hi).
  cbn [next_loop]. unfold iter_rest at 1 3. destruct (iter_runs it !! run_idx it) as [r|] eqn:E.
  2:{ split_and!; [done..|]. cbn. unfold iter_rest. by rewrite E. }
  rewrite Hrs in E. pose proof (runs_in_lookup _ _ _ _ _ H E).
  destruct (Z.leb_spec (current it) (run_end r)).
  - cbn [fst snd]. rewrite wrap_small, seqZ_cons by lia. cbn [app head tail].
    split_and!; [done|split_and!; cbn; (done || lia)|]. unfold iter_rest. cbn. rewrite Hrs, E.
    do 2 f_equal; lia.
  - rewrite seqZ_nil by lia. cbn [app].
    destruct (enter_run_rest rs (mk_iter (iter_runs it) (S (run_idx it)) (current it) (initialized it)) H) as [Ho Hr].
    { by split_and!. }
    destruct (IH _ H Ho) as (Hn1 & Hn2 & Hn3).
    { apply lookup_lt_Some in E. unfold enter_run. cbn. case_match; cbn; lia. }
    rewrite Hn1, Hn3, Hr. cbn [run_idx]. rewrite <-Hrs in *. by split_and!.
Qed.

Lemma iter_collect_rest rs : ∀ fuel it,
  runs_in 0 rs 65536 → iter_ok rs it → (length (iter_rest it) < fuel)%nat → iter_collect fuel it = iter_rest it.
Proof.
  induction fuel as [|fuel IH]; intros it H Hok Hf; [lia|]. cbn [iter_collect]. unfold iter_next.
  pose proof Hok as (Hrs & Hc & Hi). rewrite Hi.
  destruct (next_loop_rest (S (length (iter_runs it))) rs it H Hok) as (Hn1 & Hn2 & Hn3); [rewrite Hrs; lia|].
  destruct (next_loop _ it) as [o it']. cbn [fst snd] in *. subst o.
  destruct (iter_rest it) as [|v l]; [done|]. cbn [head tail] in *. rewrite IH; [by rewrite Hn3|done..|].
  rewrite Hn3. cbn in Hf. lia.
Qed.

(** The first call enters the first run. *)
Lemma runs_iter_values c fuel :
  runs_wf c → (length (runs_to_values c) < fuel)%nat → iter_collect fuel (runs_iter c) = runs_to_values c.
Proof.
  intros [H _] Hf. destruct fuel as [|fuel]; [lia|].
  assert (iter_collect (S fuel) (runs_iter c) = iter_collect (S fuel) (enter_run (mk_iter (runs c) 0 0 true))) as ->.
  { unfold runs_iter. by destruct (runs c). }
  destruct (enter_run_rest (runs c) (mk_iter (runs c) 0 0 true) H) as [Ho Hr]; [by split_and!|].
  cbn [run_idx] in Hr. rewrite (iter_collect_rest (runs c)); rewrite ?Hr; done.
Qed.

Lemma runs_contains_values c v :
  runs_wf c → u16 v → (runs_contains c v = true ↔ v ∈ runs_to_values c).
Proof. intros [Hc _] Hv. by apply (runs_contains_spec 0 _ 65536). Qed.

Lemma runs_contains_decide c v :
  runs_wf c → u16 v → runs_contains c v = bool_decide (v ∈ runs_to_values c).
Proof.
  intros Hc Hv. apply eq_true_iff_eq. rewrite bool_decide_eq_true. by apply runs_contains_values.
Qed.

(** ** Properties *)

(** Inserting into a run container keeps its runs sorted and disjoint and its
    cardinality exact, answers whether the value was absent, and adds exactly it,
    whether the value extends a run at either end, joins two runs or starts its own. *)
Theorem runs_insert_correct (c : RunContainer) (v : Z) :
  runs_wf c → u16 v →
  runs_wf (runs_insert v c).1 ∧
  (runs_insert v c).2 = negb (runs_contains c v) ∧
  run_card (runs_insert v c).1 = run_card c + (if runs_contains c v then 0 else 1) ∧
  ∀ w, u16 w → runs_contains (runs_insert v c).1 w = (w =? v) || runs_contains c w.
Proof.
  intros Hc Hv. destruct (runs_insert_spec c v Hc Hv) as (Hw & Hr & Hm). split_and!; [done..| |].
  - assert (run_card c = zlen (runs_to_values c)) as Hcard by exact (card_values c Hc).
    assert (run_card (runs_insert v c).1 = zlen (runs_to_values (runs_insert v c).1)) as -> by exact (card_values _ Hw).
    rewrite Hcard. rewrite runs_contains_decide by done. case_bool_decide as Hin.
    + rewrite Z.add_0_r. f_equal. apply ascending_ext; [exact (values_ascending _ Hw)|exact (values_ascending c Hc)|].
      intros w. rewrite Hm. naive_solver.
    + assert (runs_to_values (runs_insert v c).1 ≡ₚ v :: runs_to_values c) as ->.
      { apply NoDup_Permutation; [apply ascending_NoDup; exact (values_ascending _ Hw)| |].
        - constructor; [done|]. apply ascending_NoDup. exact (values_ascending c Hc).
        - intros w. by rewrite Hm, elem_of_cons. }
      rewrite zlen_cons. lia.
  - intros w Hw16. rewrite !runs_contains_decide by done. apply eq_true_iff_eq.
    by rewrite orb_true_iff, Z.eqb_eq, !bool_decide_eq_true, Hm.
Qed.

Definition sample_runs : RunContainer := from_runs [mk_run 10 2; mk_run 14 0; mk_run 65530 5].
Lemma sample_runs_wf : runs_wf sample_runs.
Proof. split; [cbn; lia|reflexivity]. Qed.

Lemma runs_insert_correct_witness :
  runs_wf (runs_insert 13 sample_runs).1 ∧
  (runs_insert 13 sample_runs).2 = negb (runs_contains sample_runs 13) ∧
  run_card (runs_insert 13 sample_runs).1 = run_card sample_runs + (if runs_contains sample_runs 13 then 0 else 1) ∧
  ∀ w, u16 w → runs_contains (runs_insert 13 sample_runs).1 w = (w =? 13) || runs_contains sample_runs w.
Proof. apply runs_insert_correct; [apply sample_runs_wf|unfold u16; lia]. Defined.

(** Removing from a run container keeps it well formed, answers whether the value
    was there, and removes exactly it: the run shrinks, disappears or splits in two. *)
Theorem runs_remove_correct (c : RunContainer) (v : Z) :
  runs_wf c → u16 v →
  runs_wf (runs_remove v c).1 ∧
  (runs_remove v c).2 = runs_contains c v ∧
  runs_to_values (runs_remove v c).1 = filter (λ w, w ≠ v) (runs_to_values c).
Proof.
  intros Hc Hv. destruct (runs_remove_spec c v Hc Hv) as (Hw & Hr & Hm). split_and!; [done..|].
  apply ascending_ext; [exact (values_ascending _ Hw)|apply ascending_filter; exact (values_ascending c Hc)|].
  intros w. rewrite Hm, list_elem_of_filter. tauto.
Qed.

Lemma runs_remove_correct_witness :
  runs_wf (runs_remove 11 sample_runs).1 ∧
  (runs_remove 11 sample_runs).2 = runs_contains sample_runs 11 ∧
  runs_to_values (runs_remove 11 sample_runs).1 = filter (λ w, w ≠ 11) (runs_to_values sample_runs).
Proof. apply runs_remove_correct; [apply sample_runs_wf|unfold u16; lia]. Defined.

(** Run-length encoding loses nothing: encoding an ascending list of [u16]s gives
    a well-formed container whose expansion, and whose iterator drained, is that list. *)
Theorem runs_encoding_roundtrip (vs : list Z) :
  ascending vs → Forall u16 vs →
  let c := runs_from_sorted_values vs in
  runs_wf c ∧ runs_to_values c = vs ∧ iter_collect (S (length vs)) (runs_iter c) = vs.
Proof.
  intros Ha Hu c. destruct (runs_from_sorted_values_spec vs Ha Hu) as [Hw Hv]. split_and!; [done..|].
  unfold c. rewrite runs_iter_values by (done || rewrite Hv; lia). done.
Qed.

Lemma runs_encoding_roundtrip_witness :
  let c := runs_from_sorted_values [0; 1; 2; 7; 9; 10; 65534; 65535] in
  runs_wf c ∧ runs_to_values c = [0; 1; 2; 7; 9; 10; 65534; 65535] ∧
  iter_collect 9 (runs_iter c) = [0; 1; 2; 7; 9; 10; 65534; 65535].
Proof.
  apply (runs_encoding_roundtrip [0; 1; 2; 7; 9; 10; 65534; 65535]);
    repeat first [constructor | lia | progress unfold u16].
Defined.

(** Intersection and union of run containers are those of their values; the
    results are well formed (runs ordered and disjoint, cardinality exact). *)
Theorem runs_and_or_correct (a b : RunContainer) :
  runs_wf a → runs_wf b →
  runs_wf (runs_and a b) ∧ runs_wf (runs_or a b) ∧
  runs_to_values (runs_and a b) = filter (.∈ runs_to_values b) (runs_to_values a) ∧
  ∀ v, v ∈ runs_to_values (runs_or a b) ↔ v ∈ runs_to_values a ∨ v ∈ runs_to_values b.
Proof.
  intros Ha Hb. destruct (runs_and_spec a b Ha Hb) as [Hw Hm], (runs_or_spec a b Ha Hb) as [Hw' Hm'].
  split_and!; [done..| |done].
  apply ascending_ext; [exact (values_ascending _ Hw)|apply ascending_filter; exact (values_ascending a Ha)|].
  intros w. rewrite Hm, list_elem_of_filter. tauto.
Qed.

Lemma runs_and_or_correct_witness :
  let b := from_runs [mk_run 11 3; mk_run 65535 0] in
  runs_wf (runs_and sample_runs b) ∧ runs_wf (runs_or sample_runs b) ∧
  runs_to_values (runs_and sample_runs b) = filter (.∈ runs_to_values b) (runs_to_values sample_runs) ∧
  ∀ v, v ∈ runs_to_values (runs_or sample_runs b) ↔ v ∈ runs_to_values sample_runs ∨ v ∈ runs_to_values b.
Proof. apply runs_and_or_correct; [apply sample_runs_wf|split; [cbn; lia|reflexivity]]. Defined.

(** Difference of run containers keeps the values of the first operand that are
    not in the second, and also 65535 when both hold it: the subtraction loop resumes
    at [b.end().saturating_add(1)], which at the top of the range is [b.end()]. *)
Theorem runs_difference_exact (a b : RunContainer) :
  runs_wf a → runs_wf b →
  runs_wf (runs_and_not a b) ∧
  runs_to_values (runs_and_not a b) =
    filter (λ v, v ∉ runs_to_values b ∨ v = U16_MAX) (runs_to_values a).
Proof.
  intros Ha Hb. destruct (runs_and_not_spec a b Ha Hb) as [Hw Hm]. split; [done|].
  apply ascending_ext; [exact (values_ascending _ Hw)|apply ascending_filter; exact (values_ascending a Ha)|].
  intros w. rewrite Hm, list_elem_of_filter. tauto.
Qed.

Lemma runs_difference_exact_witness :
  runs_wf (runs_and_not sample_runs sample_runs) ∧
  runs_to_values (runs_and_not sample_runs sample_runs) =
    filter (λ v, v ∉ runs_to_values sample_runs ∨ v = U16_MAX) (runs_to_values sample_runs).
Proof. apply runs_difference_exact; apply sample_runs_wf. Defined.
