(* ===== verification/RunBitset.v ===== *)
(** * RunBitset: setting arrays and runs of positions in a bit array

    [src/minnal_db/src/index/simd_support/run_bitset.rs].  A run covers a partial
    head word, full middle words and a partial tail word; the kernels differ in how
    the middle words are filled, one slice fill (scalar) or registers of [W] words
    and a remainder. *)
From Stdlib Require Import Btauto.
From S2P Require Import Prelude Slices ArrayMerge Words RunContainer.

(** [(v >> 6) as usize] and [v & 63] *)
Definition word_of (v : Z) : Z := Z.shiftr v 6.
Definition bit_of (v : Z) : Z := Z.land v 63.

Definition set_bits_from_array (bits vs : list Z) : list Z :=
  foldl (λ bits v, word_update (λ w, Z.lor w (u64_shl 1 (bit_of v))) (word_of v) bits) bits vs.

Definition clear_bits_from_array (bits vs : list Z) : list Z :=
  foldl (λ bits v, word_update (λ w, Z.land w (u64_not (u64_shl 1 (bit_of v)))) (word_of v) bits) bits vs.

(** Bits [lo..=hi] of a word. *)
Definition word_mask (lo hi : Z) : Z :=
  let len := hi - lo + 1 in
  if len =? 64 then U64_MAX else u64_shl (u64_shl 1 len - 1) lo.

(** [bits[a..a + n].fill(!0)] *)
Definition fill_range (bits : list Z) (a n : nat) : list Z :=
  take a bits ++ replicate n U64_MAX ++ drop (a + n) bits.

(** [for chunk in 0..chunks { store(bits + a + chunk * W, all_ones) }] *)
Fixpoint fill_chunks (W : nat) (bits : list Z) (a chunks : nat) : list Z :=
  match chunks with
  | O => bits
  | S chunks => fill_chunks W (fill_range bits a W) (a + W) chunks
  end.
(** [for w in a..a + n { bits[w] = !0 }] *)
Fixpoint fill_words (bits : list Z) (a n : nat) : list Z :=
  match n with
  | O => bits
  | S n => fill_words (<[a := U64_MAX]> bits) (S a) n
  end.
Definition fill_vector (W : nat) (bits : list Z) (a n : nat) : list Z :=
  let chunks := (n / W)%nat in
  fill_words (fill_chunks W bits a chunks) (a + chunks * W) (n - chunks * W).

Definition set_run (fill : list Z → nat → nat → list Z) (bits : list Z) (run : Run) : list Z :=
  let first := start run in
  let last := run_end run in
  let first_word := word_of first in
  let last_word := word_of last in
  if first_word =? last_word then
    word_update (λ w, Z.lor w (word_mask (bit_of first) (bit_of last))) first_word bits
  else
    let bits := word_update (λ w, Z.lor w (u64_shl U64_MAX (bit_of first))) first_word bits in
    let bits := fill bits (Z.to_nat (first_word + 1)) (Z.to_nat (last_word - (first_word + 1))) in
    word_update (λ w, Z.lor w (word_mask 0 (bit_of last))) last_word bits.

Definition set_runs_into (bits : list Z) (rs : list Run) : list Z := foldl (set_run fill_range) bits rs.

Definition runs_to_bitmask_scalar (rs : list Run) : list Z := set_runs_into zero_bits rs.
Definition runs_to_bitmask_neon (rs : list Run) : list Z := foldl (set_run (fill_vector 2)) zero_bits rs.
Definition runs_to_bitmask_avx2 (rs : list Run) : list Z := foldl (set_run (fill_vector 4)) zero_bits rs.
Definition runs_to_bitmask_avx512 (rs : list Run) : list Z := foldl (set_run (fill_vector 8)) zero_bits rs.

Definition runs_to_bitmask `{Cpu} (rs : list Run) : list Z :=
  if target_x86_64 && avx512f then runs_to_bitmask_avx512 rs
  else if target_x86_64 && avx2 then runs_to_bitmask_avx2 rs
  else if target_aarch64 then runs_to_bitmask_neon rs
  else runs_to_bitmask_scalar rs.

(** ** Positions *)

Lemma word_of_div v : word_of v = v / 64.
Proof. unfold word_of. by rewrite Z.shiftr_div_pow2. Qed.
Lemma bit_of_mod v : bit_of v = v mod 64.
Proof. unfold bit_of. change 63 with (Z.ones 6). by rewrite Z.land_ones. Qed.

Lemma u64_max_testbit i : 0 ≤ i < 64 → Z.testbit U64_MAX i = true.
Proof. intros. change U64_MAX with (Z.ones 64). by apply Z.ones_spec_low. Qed.

Lemma word_mask_testbit lo hi i :
  0 ≤ lo ≤ hi → hi < 64 → 0 ≤ i < 64 → Z.testbit (word_mask lo hi) i = (lo <=? i) && (i <=? hi).
Proof.
  intros Hlo Hhi Hi. unfold word_mask. cbv zeta. destruct (Z.eqb_spec (hi - lo + 1) 64) as [He|Hne].
  - rewrite u64_max_testbit by done. symmetry. apply andb_true_iff. rewrite !Z.leb_le. lia.
  - rewrite u64_shl_testbit by lia. rewrite (proj2 (Z.ltb_lt i 64)) by lia. cbn [andb].
    assert (u64_shl 1 (hi - lo + 1) - 1 = Z.ones (hi - lo + 1)) as ->.
    { unfold u64_shl. rewrite Z.shiftl_1_l, wrap_small; [rewrite Z.ones_equiv; lia|].
      split; [lia|]. apply Z.pow_lt_mono_r; lia. }
    destruct (Z.leb_spec lo i); cbn [andb]; [|by apply Z.testbit_neg_r; lia].
    destruct (Z.leb_spec i hi).
    + apply Z.ones_spec_low. lia.
    + apply Z.ones_spec_high. lia.
Qed.

Lemma high_mask_testbit lo i :
  0 ≤ lo < 64 → 0 ≤ i < 64 → Z.testbit (u64_shl U64_MAX lo) i = (lo <=? i).
Proof.
  intros Hlo Hi. rewrite u64_shl_testbit by lia. rewrite (proj2 (Z.ltb_lt i 64)) by lia. cbn [andb].
  destruct (Z.leb_spec lo i); [apply u64_max_testbit; lia|apply Z.testbit_neg_r; lia].
Qed.

Lemma word_mask_u64 lo hi : u64 (word_mask lo hi).
Proof. unfold word_mask. cbv zeta. case_cmp; [done|apply wrap_u64]. Qed.
Lemma u64_shl_u64 w n : u64 (u64_shl w n).
Proof. apply wrap_u64. Qed.
#[export] Hint Resolve word_mask_u64 u64_shl_u64 u64_not_u64 u64_lor u64_land zero_bits_wf word_update_wf : minnal.

(** *** One position *)

(** A value is its word and its bit. *)
Lemma same_position v x :
  0 ≤ v → 0 ≤ x → (v / 64 =? x / 64) && (v mod 64 =? x mod 64) = (v =? x).
Proof.
  intros. apply eq_true_iff_eq. rewrite andb_true_iff, !Z.eqb_eq. split; [|by intros ->].
  intros [Hd Hm]. rewrite (Z.div_mod v 64), (Z.div_mod x 64) by lia. lia.
Qed.

Lemma bit_at_set_bit bits x v :
  wf_bits bits → u16 x → u16 v →
  bit_at (word_update (λ w, Z.lor w (u64_shl 1 (bit_of x))) (word_of x) bits) v = bit_at bits v || (v =? x).
Proof.
  intros Hb Hx Hv. pose proof (u16_word v Hv). pose proof (u16_word x Hx). unfold u16 in *.
  rewrite word_of_div, bit_of_mod, bit_at_word_update by (done || lia).
  rewrite <-(same_position v x) by lia. destruct (Z.eqb_spec (v / 64) (x / 64)) as [He|]; cbn [andb].
  - rewrite Z.lor_spec, one_shl_testbit by lia. unfold bit_at. by rewrite He.
  - by rewrite orb_false_r.
Qed.

Lemma bit_at_clear_bit bits x v :
  wf_bits bits → u16 x → u16 v →
  bit_at (word_update (λ w, Z.land w (u64_not (u64_shl 1 (bit_of x)))) (word_of x) bits) v =
    bit_at bits v && negb (v =? x).
Proof.
  intros Hb Hx Hv. pose proof (u16_word v Hv). pose proof (u16_word x Hx). unfold u16 in *.
  rewrite word_of_div, bit_of_mod, bit_at_word_update by (done || lia).
  rewrite <-(same_position v x) by lia. destruct (Z.eqb_spec (v / 64) (x / 64)) as [He|]; cbn [andb negb].
  - rewrite Z.land_spec, u64_not_testbit, one_shl_testbit by lia. unfold bit_at. rewrite He.
    rewrite (proj2 (Z.ltb_lt _ 64)) by lia. by rewrite xorb_true_r.
  - by rewrite andb_true_r.
Qed.

Lemma set_bit_wf bits x : wf_bits bits →
  wf_bits (word_update (λ w, Z.lor w (u64_shl 1 (bit_of x))) (word_of x) bits).
Proof. intros. apply word_update_wf; auto with minnal. Qed.
Lemma clear_bit_wf bits x : wf_bits bits →
  wf_bits (word_update (λ w, Z.land w (u64_not (u64_shl 1 (bit_of x)))) (word_of x) bits).
Proof. intros. apply word_update_wf; auto with minnal. Qed.

Lemma set_bits_from_array_spec vs : ∀ bits,
  wf_bits bits → Forall u16 vs →
  wf_bits (set_bits_from_array bits vs) ∧
  ∀ v, u16 v → bit_at (set_bits_from_array bits vs) v = bit_at bits v || bool_decide (v ∈ vs).
Proof.
  unfold set_bits_from_array. induction vs as [|x vs IH]; intros bits Hb Hvs; cbn [foldl].
  { split; [done|]. intros. by rewrite orb_false_r. }
  apply Forall_cons in Hvs as [Hx Hvs]. destruct (IH _ (set_bit_wf bits x Hb) Hvs) as [Hw Hv].
  split; [done|]. intros v Hv16. rewrite Hv, bit_at_set_bit, <-orb_assoc by done. f_equal.
  apply eq_true_iff_eq. rewrite orb_true_iff, !bool_decide_eq_true, Z.eqb_eq, elem_of_cons. done.
Qed.

Lemma clear_bits_from_array_spec vs : ∀ bits,
  wf_bits bits → Forall u16 vs →
  wf_bits (clear_bits_from_array bits vs) ∧
  ∀ v, u16 v → bit_at (clear_bits_from_array bits vs) v = bit_at bits v && negb (bool_decide (v ∈ vs)).
Proof.
  unfold clear_bits_from_array. induction vs as [|x vs IH]; intros bits Hb Hvs; cbn [foldl].
  { split; [done|]. intros. by rewrite andb_true_r. }
  apply Forall_cons in Hvs as [Hx Hvs]. destruct (IH _ (clear_bit_wf bits x Hb) Hvs) as [Hw Hv].
  split; [done|]. intros v Hv16. rewrite Hv, bit_at_clear_bit, <-andb_assoc by done. f_equal.
  apply eq_true_iff_eq. rewrite andb_true_iff, !negb_true_iff, !bool_decide_eq_false, Z.eqb_neq, not_elem_of_cons. done.
Qed.

(** ** Filling words *)

Lemma fill_range_wf bits a n : (a + n ≤ length bits)%nat → wf_bits bits → wf_bits (fill_range bits a n).
Proof.
  intros Hle [Hlen Hb]. split.
  - unfold zlen, fill_range in *. rewrite !length_app, length_take, length_replicate, length_drop. lia.
  - unfold fill_range. rewrite !Forall_app. split_and!; [by apply Forall_take| |by apply Forall_drop].
    by apply Forall_replicate.
Qed.

Lemma fill_range_app bits a n m :
  (a + n + m ≤ length bits)%nat → fill_range (fill_range bits a n) (a + n) m = fill_range bits a (n + m).
Proof.
  intros Hle. unfold fill_range. set (filled := take a bits ++ replicate n U64_MAX).
  assert (length filled = (a + n)%nat) as Hf.
  { unfold filled. rewrite length_app, length_take, length_replicate. lia. }
  rewrite (app_assoc (take a bits)). fold filled.
  rewrite take_app_length', drop_app_ge, drop_drop, Hf by (done || lia).
  replace (a + n + (a + n + m - (a + n)))%nat with (a + (n + m))%nat by lia.
  unfold filled. by rewrite replicate_add, <-!app_assoc.
Qed.

Lemma fill_words_range bits a n : (a + n ≤ length bits)%nat → fill_words bits a n = fill_range bits a n.
Proof.
  revert bits a. induction n as [|n IH]; intros bits a Hle; cbn [fill_words].
  { unfold fill_range. cbn [replicate app]. by rewrite Nat.add_0_r, take_drop. }
  assert (<[a := U64_MAX]> bits = fill_range bits a 1) as ->.
  { unfold fill_range. cbn [replicate app]. rewrite insert_take_drop by lia. by rewrite Nat.add_1_r. }
  rewrite IH.
  - rewrite <-(Nat.add_1_r a). by rewrite fill_range_app by lia.
  - unfold fill_range. rewrite !length_app, length_take, length_replicate, length_drop. lia.
Qed.

Lemma length_fill_range bits a n : (a + n ≤ length bits)%nat → length (fill_range bits a n) = length bits.
Proof. intros. unfold fill_range. rewrite !length_app, length_take, length_replicate, length_drop. lia. Qed.

Lemma fill_chunks_range W bits a chunks :
  (a + chunks * W ≤ length bits)%nat → fill_chunks W bits a chunks = fill_range bits a (chunks * W).
Proof.
  revert bits a. induction chunks as [|chunks IH]; intros bits a Hle; cbn [fill_chunks Nat.mul] in *.
  { unfold fill_range. cbn [replicate app]. by rewrite Nat.add_0_r, take_drop. }
  rewrite IH by (rewrite length_fill_range; lia). by rewrite fill_range_app by lia.
Qed.

Lemma fill_vector_range W bits a n :
  (a + n ≤ length bits)%nat → fill_vector W bits a n = fill_range bits a n.
Proof.
  intros Hle. unfold fill_vector. cbv zeta.
  assert (n / W * W ≤ n)%nat by (rewrite Nat.mul_comm; apply Nat.Div0.mul_div_le).
  rewrite fill_chunks_range, fill_words_range by (rewrite ?length_fill_range; lia).
  rewrite fill_range_app by lia. f_equal. lia.
Qed.

Lemma bit_at_fill_range bits a n v :
  (a + n ≤ length bits)%nat → wf_bits bits → u16 v →
  bit_at (fill_range bits a n) v =
    ((Z.of_nat a <=? v / 64) && (v / 64 <? Z.of_nat (a + n))) || bit_at bits v.
Proof.
  intros Hle Hb Hv. pose proof (u16_word v Hv) as [Hd Hm]. unfold bit_at, word_at, fill_range.
  destruct (Z.leb_spec (Z.of_nat a) (v / 64)); cbn [andb orb].
  - rewrite lookup_app_r by (rewrite length_take; lia). rewrite length_take, Nat.min_l by lia.
    destruct (Z.ltb_spec (v / 64) (Z.of_nat (a + n))); cbn [orb].
    + rewrite lookup_app_l by (rewrite length_replicate; lia).
      rewrite lookup_replicate_2 by lia. by apply u64_max_testbit.
    + rewrite lookup_app_r by (rewrite length_replicate; lia).
      rewrite length_replicate, lookup_drop. do 3 f_equal. lia.
  - rewrite lookup_app_l by (rewrite length_take; lia). by rewrite lookup_take_lt by lia.
Qed.

(** ** Runs *)

(** The words between the head and the tail of a run are all of it. *)
Lemma run_words s e v :
  0 ≤ s ≤ e → 0 ≤ v → s / 64 < e / 64 →
  (((v / 64 =? e / 64) && (v mod 64 <=? e mod 64)) ||
   ((s / 64 + 1 <=? v / 64) && (v / 64 <? e / 64)) ||
   ((v / 64 =? s / 64) && (s mod 64 <=? v mod 64))) = (s <=? v) && (v <=? e).
Proof.
  intros. pose proof (Z.div_mod v 64 ltac:(lia)). pose proof (Z.div_mod s 64 ltac:(lia)).
  pose proof (Z.div_mod e 64 ltac:(lia)). pose proof (Z.mod_pos_bound v 64 ltac:(lia)).
  pose proof (Z.mod_pos_bound s 64 ltac:(lia)). pose proof (Z.mod_pos_bound e 64 ltac:(lia)).
  apply eq_true_iff_eq. rewrite !orb_true_iff, !andb_true_iff, !Z.eqb_eq, !Z.leb_le, Z.ltb_lt.
  generalize dependent (v / 64). generalize dependent (s / 64). generalize dependent (e / 64).
  generalize dependent (v mod 64). generalize dependent (s mod 64). generalize dependent (e mod 64). intros. nia.
Qed.

Definition fill_ok (fill : list Z → nat → nat → list Z) : Prop :=
  ∀ bits a n, (a + n ≤ length bits)%nat → fill bits a n = fill_range bits a n.

Lemma run_has_bool r v :
  run_end r = start r + length_ r → bool_decide (run_has r v) = (start r <=? v) && (v <=? run_end r).
Proof.
  intros He. apply eq_true_iff_eq. rewrite bool_decide_eq_true, andb_true_iff, !Z.leb_le.
  unfold run_has. lia.
Qed.

Ltac div64 x := pose proof (Z.div_mod x 64 ltac:(lia)); pose proof (Z.mod_pos_bound x 64 ltac:(lia)).

(** A run inside one word. *)
Lemma set_run_word bits s e v :
  wf_bits bits → u16 s → u16 e → u16 v → s ≤ e → s / 64 = e / 64 →
  bit_at (word_update (λ w, Z.lor w (word_mask (s mod 64) (e mod 64))) (s / 64) bits) v =
    bit_at bits v || ((s <=? v) && (v <=? e)).
Proof.
  unfold u16. intros Hb Hs He Hv Hse Heq. div64 s. div64 e. div64 v.
  rewrite bit_at_word_update by (done || unfold u16; lia).
  destruct (Z.eqb_spec (v / 64) (s / 64)) as [Hvs|Hvs].
  - rewrite Z.lor_spec, word_mask_testbit by lia. unfold bit_at. rewrite <-Hvs. f_equal.
    apply eq_true_iff_eq. rewrite !andb_true_iff, !Z.leb_le. lia.
  - assert ((s <=? v) && (v <=? e) = false) as ->; [|by rewrite orb_false_r].
    apply not_true_iff_false. rewrite andb_true_iff, !Z.leb_le. lia.
Qed.

(** A run over several words: head, filled middle, tail. *)
Lemma set_run_words bits s e v :
  wf_bits bits → u16 s → u16 e → u16 v → s / 64 < e / 64 →
  let b1 := word_update (λ w, Z.lor w (u64_shl U64_MAX (s mod 64))) (s / 64) bits in
  let b2 := fill_range b1 (Z.to_nat (s / 64 + 1)) (Z.to_nat (e / 64 - (s / 64 + 1))) in
  wf_bits b1 ∧ wf_bits b2 ∧
  bit_at (word_update (λ w, Z.lor w (word_mask 0 (e mod 64))) (e / 64) b2) v =
    bit_at bits v || ((s <=? v) && (v <=? e)).
Proof.
  intros Hb Hs He Hv Hlt b1 b2. unfold u16 in *. div64 s. div64 e. div64 v.
  assert (wf_bits b1) as Hb1 by (apply word_update_wf; auto with minnal).
  assert (Z.to_nat (s / 64 + 1) + Z.to_nat (e / 64 - (s / 64 + 1)) ≤ length b1)%nat as Hle.
  { pose proof Hb1 as [Hlen1 _]. unfold zlen, BITSET_WORDS in Hlen1. lia. }
  pose proof (fill_range_wf _ _ _ Hle Hb1) as Hb2. fold b2 in Hb2. split_and!; [done..|].
  assert (bit_at b2 v = ((s / 64 + 1 <=? v / 64) && (v / 64 <? e / 64)) ||
    (bit_at bits v || ((v / 64 =? s / 64) && (s mod 64 <=? v mod 64)))) as Hmid.
  { unfold b2. rewrite bit_at_fill_range by (done || unfold u16; lia). rewrite Nat2Z.inj_add, !Z2Nat.id by lia.
    replace (s / 64 + 1 + (e / 64 - (s / 64 + 1))) with (e / 64) by lia. f_equal.
    unfold b1. rewrite bit_at_word_update by (done || unfold u16; lia).
    destruct (Z.eqb_spec (v / 64) (s / 64)) as [Hvs|]; cbn [andb]; [|by rewrite orb_false_r].
    rewrite Z.lor_spec, high_mask_testbit by lia. unfold bit_at. by rewrite Hvs. }
  rewrite bit_at_word_update by (done || unfold u16; lia). rewrite <-run_words by lia.
  destruct (Z.eqb_spec (v / 64) (e / 64)) as [Hve|Hve].
  - rewrite Z.lor_spec, word_mask_testbit by lia. rewrite <-Hve at 1. fold (bit_at b2 v). rewrite Hmid.
    rewrite (proj2 (Z.leb_le 0 _)) by lia. btauto.
  - rewrite Hmid. btauto.
Qed.

Lemma set_run_spec fill bits r :
  fill_ok fill → wf_bits bits → runs_in 0 [r] 65536 →
  wf_bits (set_run fill bits r) ∧
  ∀ v, u16 v → bit_at (set_run fill bits r) v = bit_at bits v || bool_decide (run_has r v).
Proof.
  intros Hfill Hb Hr. apply runs_in_head in Hr as (? & ? & He & ? & _). unfold set_run. cbv zeta.
  assert (u16 (start r) ∧ u16 (run_end r)) as [Hs16 He16] by (unfold u16; lia).
  assert (start r / 64 ≤ run_end r / 64) as Hmono by (apply Z.div_le_mono; lia).
  rewrite !word_of_div, !bit_of_mod. setoid_rewrite (run_has_bool r _ He).
  destruct (Z.eqb_spec (start r / 64) (run_end r / 64)) as [Heq|Hne].
  - split; [apply word_update_wf; auto with minnal|]. intros v Hv. apply set_run_word; (done || lia).
  - pose proof (λ v Hv, set_run_words bits (start r) (run_end r) v Hb Hs16 He16 Hv ltac:(lia)) as Hw.
    rewrite Hfill.
    2:{ destruct (Hw 0 ltac:(done)) as ([Hlen _] & _). unfold zlen, BITSET_WORDS in Hlen.
        apply u16_word in Hs16, He16. lia. }
    split; [|intros v Hv; by apply Hw]. destruct (Hw 0 ltac:(done)) as (_ & Hb2 & _).
    apply word_update_wf; auto with minnal.
Qed.

Lemma set_runs_spec fill rs : ∀ bits lo,
  fill_ok fill → wf_bits bits → runs_in lo rs 65536 →
  wf_bits (foldl (set_run fill) bits rs) ∧
  ∀ v, u16 v → bit_at (foldl (set_run fill) bits rs) v = bit_at bits v || bool_decide (v ∈ runs_values rs).
Proof.
  induction rs as [|r rs IH]; intros bits lo Hfill Hb Hr; cbn [foldl].
  { split; [done|]. intros. by rewrite orb_false_r. }
  destruct (set_run_spec fill bits r Hfill Hb) as [Hw1 Hv1].
  { pose proof (runs_in_head _ _ _ _ Hr). cbn. lia. }
  destruct (IH _ _ Hfill Hw1 (runs_in_tail _ _ _ _ Hr)) as [Hw Hv]. split; [done|].
  intros v Hv16. rewrite Hv, Hv1, <-orb_assoc by done. f_equal. apply eq_true_iff_eq.
  by rewrite orb_true_iff, !bool_decide_eq_true, (elem_of_runs_cons _ _ _ _ _ Hr).
Qed.

Lemma fill_range_ok : fill_ok fill_range.
Proof. done. Qed.
Lemma fill_vector_ok W : fill_ok (fill_vector W).
Proof. intros bits a n. apply fill_vector_range. Qed.

Lemma bit_at_zero v : u16 v → bit_at zero_bits v = false.
Proof.
  intros Hv%u16_word. unfold bit_at, word_at, zero_bits, BITSET_WORDS.
  rewrite lookup_replicate_2 by lia. apply Z.bits_0.
Qed.

(** On every CPU the mask holds exactly the values of the runs. *)
Lemma runs_to_bitmask_spec `{Cpu} rs :
  runs_in 0 rs 65536 →
  wf_bits (runs_to_bitmask rs) ∧
  ∀ v, u16 v → bit_at (runs_to_bitmask rs) v = bool_decide (v ∈ runs_values rs).
Proof.
  intros Hr.
  assert (∀ fill, fill_ok fill → wf_bits (foldl (set_run fill) zero_bits rs) ∧
    ∀ v, u16 v → bit_at (foldl (set_run fill) zero_bits rs) v = bool_decide (v ∈ runs_values rs)) as Hall.
  { intros fill Hfill. destruct (set_runs_spec fill rs zero_bits 0 Hfill zero_bits_wf Hr) as [Hw Hv].
    split; [done|]. intros v Hv16. by rewrite Hv, bit_at_zero. }
  unfold runs_to_bitmask. repeat case_match; apply Hall; first [apply fill_vector_ok|apply fill_range_ok].
Qed.
