(* ===== verification/BitsetContainer.v ===== *)
(** * BitsetContainer: 65536 bits and their cached count

    [src/minnal_db/src/index/container/bitset.rs]. *)
From Stdlib Require Import Btauto.
From S2P Require Import Prelude Slices U16Set ArrayMerge Words Popcount Bitwise Extract RunContainer RunBitset.

Definition BITSET_TO_ARRAY_THRESHOLD : Z := 4096.

Record BitsetContainer := mk_bitset { bs_bits : list Z; bs_card : Z }.

#[global] Instance BitsetContainer_eq_dec : EqDecision BitsetContainer.
Proof. solve_decision. Defined.

Definition bitset_new : BitsetContainer := mk_bitset zero_bits 0.
Definition from_raw_bits (bits : list Z) (card : Z) : BitsetContainer := mk_bitset bits card.

Definition word_and_bit (value : Z) : Z * Z := (word_of value, u64_shl 1 (bit_of value)).

Definition bitset_insert (value : Z) (c : BitsetContainer) : BitsetContainer * bool :=
  let '(word, bit) := word_and_bit value in
  if Z.land (word_at (bs_bits c) word) bit =? 0 then
    (mk_bitset (word_update (λ w, Z.lor w bit) word (bs_bits c)) (bs_card c + 1), true)
  else (c, false).

(** [set] is [insert] without the result. *)
Definition bitset_set (c : BitsetContainer) (value : Z) : BitsetContainer :=
  let '(word, bit) := word_and_bit value in
  if Z.land (word_at (bs_bits c) word) bit =? 0 then
    mk_bitset (word_update (λ w, Z.lor w bit) word (bs_bits c)) (bs_card c + 1)
  else c.

Definition bitset_remove (value : Z) (c : BitsetContainer) : BitsetContainer * bool :=
  let '(word, bit) := word_and_bit value in
  if negb (Z.land (word_at (bs_bits c) word) bit =? 0) then
    (mk_bitset (word_update (λ w, Z.land w (u64_not bit)) word (bs_bits c)) (bs_card c - 1), true)
  else (c, false).

Definition bitset_contains (c : BitsetContainer) (value : Z) : bool :=
  let '(word, bit) := word_and_bit value in negb (Z.land (word_at (bs_bits c) word) bit =? 0).

Definition bitset_from_values (vs : list Z) : BitsetContainer := foldl bitset_set bitset_new vs.
Definition bitset_from_sorted_values `{Cpu} (vs : list Z) : BitsetContainer :=
  let bits := set_bits_from_array zero_bits vs in mk_bitset bits (popcount_u64_slice bits).

Definition bitset_cardinality (c : BitsetContainer) : Z := bs_card c.
Definition bitset_is_empty (c : BitsetContainer) : bool := bs_card c =? 0.
Definition recompute_cardinality `{Cpu} (c : BitsetContainer) : BitsetContainer :=
  mk_bitset (bs_bits c) (popcount_u64_slice (bs_bits c)).

Fixpoint min_loop (i : Z) (ws : list Z) : option Z :=
  match ws with
  | [] => None
  | w :: ws =>
      if w =? 0 then min_loop (i + 1) ws
      else Some (u16_add (u16_mul (wrap 16 i) 64) (trailing_zeros w))
  end.
Definition bitset_min (c : BitsetContainer) : option Z := min_loop 0 (bs_bits c).

(** The reversed enumeration: [i] is the index of the head of [rev_ws]. *)
Fixpoint max_loop (i : Z) (rev_ws : list Z) : option Z :=
  match rev_ws with
  | [] => None
  | w :: ws =>
      if w =? 0 then max_loop (i - 1) ws
      else Some (u16_sub (u16_add (u16_mul (wrap 16 i) 64) 63) (leading_zeros w))
  end.
Definition bitset_max (c : BitsetContainer) : option Z :=
  max_loop (zlen (bs_bits c) - 1) (rev (bs_bits c)).

Definition should_demote (c : BitsetContainer) : bool := bs_card c <? BITSET_TO_ARRAY_THRESHOLD.

Definition bitset_to_values `{Cpu} (c : BitsetContainer) : list Z :=
  extract_bitset_to_values (bs_bits c) (bs_card c).

(** Bits [0..=bit_pos]. *)
Definition low_mask (bit_pos : Z) : Z :=
  if bit_pos =? 63 then U64_MAX else u64_shl 1 (bit_pos + 1) - 1.

Definition bitset_rank `{Cpu} (c : BitsetContainer) (value : Z) : Z :=
  let word_idx := word_of value in
  let bit_pos := bit_of value in
  let prefix := popcount_u64_slice (take (Z.to_nat word_idx) (bs_bits c)) in
  let partial := count_ones (Z.land (word_at (bs_bits c) word_idx) (low_mask bit_pos)) in
  prefix + partial.

(** [for _ in 0..rank { w &= w - 1 }] *)
Definition clear_lowest (n : nat) (w : Z) : Z := Nat.iter n (λ w, Z.land w (w - 1)) w.

Fixpoint bitset_select_loop (word_idx rank : Z) (ws : list Z) : option Z :=
  match ws with
  | [] => None
  | word :: ws =>
      let cnt := count_ones word in
      if rank <? cnt then
        let w := clear_lowest (Z.to_nat rank) word in
        Some (u16_add (u16_mul (wrap 16 word_idx) 64) (trailing_zeros w))
      else bitset_select_loop (word_idx + 1) (rank - cnt) ws
  end.
Definition bitset_select (c : BitsetContainer) (rank : Z) : option Z := bitset_select_loop 0 rank (bs_bits c).

(** [for w in a..a + n { bits[w] ^= u64::MAX }] *)
Fixpoint xor_words (bits : list Z) (a : Z) (n : nat) : list Z :=
  match n with
  | O => bits
  | S n => xor_words (word_update (λ w, Z.lxor w U64_MAX) a bits) (a + 1) n
  end.

Definition bitset_flip_range `{Cpu} (lo hi_inclusive : Z) (c : BitsetContainer) : BitsetContainer :=
  if hi_inclusive <? lo then c
  else
    let lo_word := word_of lo in
    let hi_word := word_of hi_inclusive in
    let lo_bit := bit_of lo in
    let hi_bit := bit_of hi_inclusive in
    let bits :=
      if lo_word =? hi_word then
        let lo_mask := u64_shl U64_MAX lo_bit in
        let hi_mask := low_mask hi_bit in
        word_update (λ w, Z.lxor w (Z.land lo_mask hi_mask)) lo_word (bs_bits c)
      else
        let bits := word_update (λ w, Z.lxor w (u64_shl U64_MAX lo_bit)) lo_word (bs_bits c) in
        let bits := xor_words bits (lo_word + 1) (Z.to_nat (hi_word - (lo_word + 1))) in
        word_update (λ w, Z.lxor w (low_mask hi_bit)) hi_word bits in
    recompute_cardinality (mk_bitset bits (bs_card c)).

Definition of_result (r : BitwiseResult) : BitsetContainer := mk_bitset (bits r) (cardinality r).
Definition bitset_and `{Cpu} (a b : BitsetContainer) : BitsetContainer :=
  of_result (bitwise_and (bs_bits a) (bs_bits b)).
Definition bitset_or `{Cpu} (a b : BitsetContainer) : BitsetContainer :=
  of_result (bitwise_or (bs_bits a) (bs_bits b)).
Definition bitset_and_not `{Cpu} (a b : BitsetContainer) : BitsetContainer :=
  of_result (bitwise_and_not (bs_bits a) (bs_bits b)).
Definition bitset_and_inplace `{Cpu} (a b : BitsetContainer) : BitsetContainer :=
  let '(bits, card) := and_inplace (bs_bits a) (bs_bits b) in mk_bitset bits card.
Definition bitset_or_inplace `{Cpu} (a b : BitsetContainer) : BitsetContainer :=
  let '(bits, card) := or_inplace (bs_bits a) (bs_bits b) in mk_bitset bits card.
Definition bitset_and_not_inplace `{Cpu} (a b : BitsetContainer) : BitsetContainer :=
  let '(bits, card) := and_not_inplace (bs_bits a) (bs_bits b) in mk_bitset bits card.

(** ** The iterator *)

Record BitsetIter := mk_bitset_iter { it_bits : list Z; word_idx : Z; current_word : Z; started : bool }.

Definition bitset_iter (c : BitsetContainer) : BitsetIter := mk_bitset_iter (bs_bits c) 0 0 false.

Fixpoint bitset_next_loop (fuel : nat) (it : BitsetIter) : option Z * BitsetIter :=
  match fuel with
  | O => (None, it)
  | S fuel =>
      if negb (started it) && (BITSET_WORDS <=? word_idx it) then (None, it)
      else
        let it :=
          if started it then it
          else mk_bitset_iter (it_bits it) (word_idx it) (word_at (it_bits it) (word_idx it)) true in
        if negb (current_word it =? 0) then
          let bit_pos := trailing_zeros (current_word it) in
          (Some (u16_add (u16_mul (wrap 16 (word_idx it)) 64) bit_pos),
           mk_bitset_iter (it_bits it) (word_idx it) (Z.land (current_word it) (current_word it - 1)) true)
        else
          let idx := word_idx it + 1 in
          if BITSET_WORDS <=? idx then (None, mk_bitset_iter (it_bits it) idx (current_word it) true)
          else bitset_next_loop fuel (mk_bitset_iter (it_bits it) idx (word_at (it_bits it) idx) true)
  end.
Definition bitset_iter_next (it : BitsetIter) : option Z * BitsetIter :=
  bitset_next_loop (S (Z.to_nat BITSET_WORDS)) it.

Fixpoint bitset_collect (fuel : nat) (it : BitsetIter) : list Z :=
  match fuel with
  | O => []
  | S fuel =>
      match bitset_iter_next it with (Some v, it) => v :: bitset_collect fuel it | (None, _) => [] end
  end.

(** ** Membership *)

Definition bitset_wf (c : BitsetContainer) : Prop :=
  wf_bits (bs_bits c) ∧ bs_card c = zlen (bits_values (bs_bits c)).

Lemma land_bit w k : 0 ≤ k < 64 → negb (Z.land w (u64_shl 1 k) =? 0) = Z.testbit w k.
Proof.
  intros Hk. destruct (Z.testbit w k) eqn:Hb.
  - apply negb_true_iff, Z.eqb_neq. intros H0.
    assert (Z.testbit (Z.land w (u64_shl 1 k)) k = true) as Ht; [|by rewrite H0, Z.bits_0 in Ht].
    by rewrite Z.land_spec, Hb, one_shl_testbit, Z.eqb_refl by lia.
  - apply negb_false_iff, Z.eqb_eq, Z.bits_inj'. intros i Hi. rewrite Z.land_spec, Z.bits_0.
    destruct (decide (i < 64)); [|by rewrite (u64_testbit_above (u64_shl 1 k)) by (apply wrap_u64 || lia); apply andb_false_r].
    rewrite one_shl_testbit by lia. destruct (Z.eqb_spec i k) as [->|]; [by rewrite Hb|apply andb_false_r].
Qed.

Lemma bitset_contains_bit_at c v : u16 v → bitset_contains c v = bit_at (bs_bits c) v.
Proof.
  intros Hv%u16_word. unfold bitset_contains, word_and_bit, bit_at.
  rewrite word_of_div, bit_of_mod. apply land_bit, Hv.
Qed.

Lemma bitset_values_spec `{Cpu} c : bitset_wf c → bitset_to_values c = bits_values (bs_bits c).
Proof. intros [Hb _]. by apply extract_bitset_to_values_spec. Qed.

Lemma bitset_contains_spec c v : bitset_wf c → u16 v →
  (bitset_contains c v = true ↔ v ∈ bits_values (bs_bits c)).
Proof. intros [Hb _] Hv. rewrite bitset_contains_bit_at, elem_of_bits_values by done. tauto. Qed.

(** ** Ends *)

Lemma min_loop_spec i ws :
  0 ≤ i → i + zlen ws ≤ 1024 → Forall u64 ws → min_loop i ws = head (bits_from 64 (64 * i) ws).
Proof.
  intros Hi Hle Hws. revert i Hi Hle. induction Hws as [|w ws Hw Hws IH]; intros i Hi Hle; [done|].
  rewrite zlen_cons in Hle. pose proof (zlen_nonneg ws). cbn [min_loop bits_from].
  destruct (Z.eqb_spec w 0) as [->|Hne].
  - rewrite IH by lia. change (word_bits 0) with (@nil Z). cbn [fmap list_fmap app]. do 2 f_equal. lia.
  - unfold trailing_zeros. destruct (word_bits w) as [|k l] eqn:E; [by apply word_bits_nil in E|].
    assert (k ∈ word_bits w) as [Hk _]%elem_of_word_bits by (rewrite E; left).
    cbn. rewrite wrap_small, u16_mul_small, u16_add_small by lia. f_equal. lia.
Qed.

Lemma max_loop_spec ws i :
  i = zlen ws - 1 → zlen ws ≤ 1024 → Forall u64 ws → max_loop i (rev ws) = last (bits_from 64 0 ws).
Proof.
  revert i. induction ws as [|w ws IH] using rev_ind; intros i Hi Hle Hws; [done|].
  rewrite zlen_app in *. change (zlen [w]) with 1 in *. pose proof (zlen_nonneg ws).
  apply Forall_app in Hws as [Hws Hw]. apply Forall_cons in Hw as [Hw _].
  rewrite rev_unit, bits_from_app. cbn [max_loop bits_from]. rewrite app_nil_r.
  destruct (Z.eqb_spec w 0) as [->|Hne].
  - change (word_bits 0) with (@nil Z). cbn [fmap list_fmap]. rewrite app_nil_r. apply IH; (done || lia).
  - unfold leading_zeros. rewrite last_app, fmap_last. destruct (last (word_bits w)) as [k|] eqn:E.
    + assert (k ∈ word_bits w) as [Hk _]%elem_of_word_bits.
      { apply last_Some in E as (l & ->). apply elem_of_app. right. left. }
      cbn. rewrite wrap_small, u16_mul_small, u16_add_small, u16_sub_small by lia. f_equal. lia.
    + apply last_None, word_bits_nil in E; done.
Qed.

(** ** Rank and select *)

Lemma low_mask_testbit k i : 0 ≤ k < 64 → 0 ≤ i < 64 → Z.testbit (low_mask k) i = (i <=? k).
Proof.
  intros Hk Hi. unfold low_mask. destruct (Z.eqb_spec k 63) as [->|].
  - rewrite u64_max_testbit by done. symmetry. apply Z.leb_le. lia.
  - assert (u64_shl 1 (k + 1) - 1 = Z.ones (k + 1)) as ->.
    { unfold u64_shl. rewrite Z.shiftl_1_l, wrap_small; [rewrite Z.ones_equiv; lia|].
      split; [lia|]. apply Z.pow_lt_mono_r; lia. }
    destruct (Z.leb_spec i k); [apply Z.ones_spec_low|apply Z.ones_spec_high]; lia.
Qed.

Lemma word_bits_low_mask w k : 0 ≤ k < 64 → word_bits (Z.land w (low_mask k)) = filter (λ i, i ≤ k) (word_bits w).
Proof.
  intros Hk. apply ascending_ext; [apply word_bits_ascending|apply ascending_filter, word_bits_ascending|].
  intros i. rewrite list_elem_of_filter, !elem_of_word_bits, Z.land_spec, andb_true_iff.
  split; [intros (Hi & Hb & Hm)|intros (Hik & Hi & Hb)].
  - rewrite low_mask_testbit in Hm by lia. apply Z.leb_le in Hm. done.
  - split_and!; [lia..|done|]. rewrite low_mask_testbit by lia. by apply Z.leb_le.
Qed.

Lemma bitset_rank_spec `{Cpu} c v :
  bitset_wf c → u16 v → bitset_rank c v = count_le v (bits_values (bs_bits c)).
Proof.
  intros [[Hlen Hb] _] Hv. pose proof (u16_word v Hv) as [Hd Hm]. unfold u16 in Hv.
  unfold bitset_rank, count_le, bits_values. rewrite word_of_div, bit_of_mod. cbv zeta.
  set (ws := bs_bits c) in *. set (k := Z.to_nat (v / 64)).
  pose proof (word_lookup ws (v / 64) (conj Hlen Hb) Hd) as Hw. fold k in Hw.
  rewrite popcount_u64_slice_spec.
  rewrite <-(take_drop_middle ws k _ Hw) at 3. rewrite bits_from_app, !filter_app, !zlen_app.
  assert (zlen (take k ws) = v / 64) as Htake.
  { unfold zlen, BITSET_WORDS in *. rewrite length_take. lia. }
  rewrite Htake, Z.add_0_l. cbn [bits_from]. rewrite filter_app, zlen_app.
  assert (Forall u64 (take k ws)) as Hft by (by apply Forall_take).
  assert (Forall u64 (drop (S k) ws)) as Hfd by (by apply Forall_drop).
  pose proof (Z.div_mod v 64 ltac:(lia)).
  rewrite (filter_all _ (bits_from 64 0 (take k ws))), zlen_bits_from.
  2:{ intros x Hx%elem_of_bits_from; [|done..]. rewrite Htake in Hx. lia. }
  rewrite (filter_none _ (bits_from 64 _ (drop (S k) ws))).
  2:{ intros x Hx%elem_of_bits_from; [|done..]. lia. }
  rewrite wrap_small.
  2:{ pose proof (zsum_count_ones_bound (take k ws)). lia. }
  rewrite filter_fmap, zlen_fmap. unfold count_ones at 2. rewrite word_bits_low_mask by done.
  rewrite zlen_nil, Z.add_0_r. do 2 f_equal. apply filter_ext_in. intros i _. lia.
Qed.

Lemma tail_drop {A} (l : list A) : tail l = drop 1 l.
Proof. by destruct l. Qed.

Lemma head_drop_lookup {A} n (l : list A) : head (drop n l) = l !! n.
Proof. by rewrite <-(Nat.add_0_r n) at 2; rewrite <-lookup_drop; destruct (drop n l). Qed.

Lemma word_bits_clear_n n w : word_bits (clear_lowest n w) = drop n (word_bits w).
Proof.
  revert w. induction n as [|n IH]; intros w; [done|]. unfold clear_lowest in *.
  rewrite Nat.iter_succ, word_bits_clear_lowest, IH, tail_drop, drop_drop. f_equal. lia.
Qed.

Lemma bitset_select_loop_spec i rank ws :
  0 ≤ i → i + zlen ws ≤ 1024 → 0 ≤ rank → Forall u64 ws →
  bitset_select_loop i rank ws = bits_from 64 (64 * i) ws !! Z.to_nat rank.
Proof.
  intros Hi Hle Hr Hws. revert i rank Hi Hle Hr. induction Hws as [|w ws Hw Hws IH]; intros i rank Hi Hle Hr; [done|].
  rewrite zlen_cons in Hle. pose proof (zlen_nonneg ws). cbn [bitset_select_loop bits_from]. cbv zeta.
  destruct (Z.ltb_spec rank (count_ones w)); unfold count_ones, zlen in *.
  - rewrite lookup_app_l by (rewrite length_fmap; lia). rewrite list_lookup_fmap.
    unfold trailing_zeros. rewrite word_bits_clear_n, head_drop_lookup.
    destruct (lookup_lt_is_Some_2 (word_bits w) (Z.to_nat rank)) as [k Hk]; [lia|].
    rewrite Hk. cbn. apply list_elem_of_lookup_2, elem_of_word_bits in Hk as [Hk _].
    rewrite wrap_small, u16_mul_small, u16_add_small by lia. f_equal. lia.
  - rewrite lookup_app_r by (rewrite length_fmap; lia). rewrite length_fmap, IH by lia.
    replace (64 * (i + 1)) with (64 * i + 64) by lia. f_equal. lia.
Qed.

#[export] Instance bitset_u16_set `{Cpu} : U16Set BitsetContainer := {
  set_wf := bitset_wf;
  set_contains := bitset_contains;
  set_values := bitset_to_values;
  set_card := bitset_cardinality;
  set_min := bitset_min;
  set_max := bitset_max;
  set_rank := bitset_rank;
  set_select := bitset_select;
}.

#[export] Instance bitset_u16_set_laws `{Cpu} : U16SetLaws BitsetContainer.
Proof.
  split; cbn; intros c; intros; rewrite ?bitset_values_spec by done;
    match goal with H : bitset_wf c |- _ => pose proof H as [[Hlen Hb] Hcard] end.
  - by apply bits_values_ascending.
  - apply Forall_forall. intros v [Hv _]%elem_of_bits_values; done.
  - by apply bitset_contains_spec.
  - done.
  - apply (min_loop_spec 0); [done| |done]. by rewrite Hlen.
  - apply max_loop_spec; [done| |done]. by rewrite Hlen.
  - by apply bitset_rank_spec.
  - apply (bitset_select_loop_spec 0); [done| |done..]. by rewrite Hlen.
Qed.

(** ** Insertion and removal *)

(** Adding a value that is absent adds one to the number of elements. *)
Lemma zlen_add_one l k x :
  ascending l → ascending k → x ∉ l → (∀ v, v ∈ k ↔ v = x ∨ v ∈ l) → zlen k = zlen l + 1.
Proof.
  intros Hl Hk Hx Hmem. assert (k ≡ₚ x :: l) as Hp.
  { apply NoDup_Permutation; [by apply ascending_NoDup| |].
    - constructor; [done|by apply ascending_NoDup].
    - intros v. by rewrite Hmem, elem_of_cons. }
  unfold zlen. apply Permutation_length in Hp. rewrite Hp. cbn. lia.
Qed.

Lemma zlen_bits_add bits bits' x :
  wf_bits bits → wf_bits bits' → u16 x → bit_at bits x = false →
  (∀ v, u16 v → bit_at bits' v = bit_at bits v || (v =? x)) →
  zlen (bits_values bits') = zlen (bits_values bits) + 1.
Proof.
  intros Hb Hb' Hx Hnot Hbit. apply (zlen_add_one _ _ x); [by apply bits_values_ascending..| |].
  - rewrite elem_of_bits_values by done. intros [_ H]. congruence.
  - intros v. rewrite !elem_of_bits_values by done. split.
    + intros [Hv H]. rewrite Hbit in H by done. apply orb_true_iff in H as [H|H%Z.eqb_eq]; tauto.
    + intros [->|[Hv H]]; (split; [done|]); rewrite Hbit by done; apply orb_true_iff; [right; lia|by left].
Qed.

Lemma word_and_bit_contains c v :
  Z.land (word_at (bs_bits c) (word_of v)) (u64_shl 1 (bit_of v)) =? 0 = negb (bitset_contains c v).
Proof. unfold bitset_contains, word_and_bit. by rewrite negb_involutive. Qed.

Lemma bitset_insert_spec c v :
  bitset_wf c → u16 v →
  bitset_wf (bitset_insert v c).1 ∧
  (bitset_insert v c).2 = negb (bitset_contains c v) ∧
  ∀ w, u16 w → bitset_contains (bitset_insert v c).1 w = (w =? v) || bitset_contains c w.
Proof.
  intros Hwf Hv. pose proof Hwf as [Hb Hc]. unfold bitset_insert, word_and_bit. rewrite word_and_bit_contains.
  destruct (bitset_contains c v) eqn:Hin; cbn [negb fst snd].
  - split_and!; [done..|]. intros w Hw. destruct (Z.eqb_spec w v) as [->|]; [done|done].
  - rewrite bitset_contains_bit_at in Hin by done. split_and!; [split|done|].
    + by apply set_bit_wf.
    + cbn [bs_card bs_bits]. rewrite Hc. symmetry. apply (zlen_bits_add _ _ v); [done|by apply set_bit_wf|done..|].
      intros w Hw. by apply bit_at_set_bit.
    + intros w Hw. rewrite !bitset_contains_bit_at by done. cbn [bs_bits].
      rewrite bit_at_set_bit by done. apply orb_comm.
Qed.

Lemma bitset_set_insert c v : bitset_set c v = (bitset_insert v c).1.
Proof. unfold bitset_set, bitset_insert. destruct (word_and_bit v). by case_match. Qed.

Lemma bitset_remove_spec c v :
  bitset_wf c → u16 v →
  bitset_wf (bitset_remove v c).1 ∧
  (bitset_remove v c).2 = bitset_contains c v ∧
  ∀ w, u16 w → bitset_contains (bitset_remove v c).1 w = bitset_contains c w && negb (w =? v).
Proof.
  intros Hwf Hv. pose proof Hwf as [Hb Hc]. unfold bitset_remove, word_and_bit. rewrite word_and_bit_contains, negb_involutive.
  destruct (bitset_contains c v) eqn:Hin; cbn [negb fst snd].
  - rewrite bitset_contains_bit_at in Hin by done. split_and!; [split|done|].
    + by apply clear_bit_wf.
    + cbn [bs_card bs_bits]. rewrite Hc. apply Z.sub_move_r. apply (zlen_bits_add _ _ v); [by apply clear_bit_wf|done..| |].
      * rewrite bit_at_clear_bit, Z.eqb_refl by done. apply andb_false_r.
      * intros w Hw. rewrite bit_at_clear_bit by done. destruct (Z.eqb_spec w v) as [->|]; cbn [negb].
        -- by rewrite Hin, orb_true_r.
        -- by rewrite andb_true_r, orb_false_r.
    + intros w Hw. rewrite !bitset_contains_bit_at by done. cbn [bs_bits]. by rewrite bit_at_clear_bit.
  - split_and!; [done..|]. intros w Hw. destruct (Z.eqb_spec w v) as [->|]; cbn [negb]; [by rewrite Hin|by rewrite andb_true_r].
Qed.

(** ** Bulk construction *)

Lemma bitset_new_wf : bitset_wf bitset_new.
Proof. split; [apply zero_bits_wf|]. vm_compute. done. Qed.

Lemma bitset_new_contains v : u16 v → bitset_contains bitset_new v = false.
Proof. intros Hv. rewrite bitset_contains_bit_at by done. by apply bit_at_zero. Qed.

Lemma bitset_from_values_spec vs :
  Forall u16 vs →
  bitset_wf (bitset_from_values vs) ∧
  ∀ v, u16 v → bitset_contains (bitset_from_values vs) v = bool_decide (v ∈ vs).
Proof.
  unfold bitset_from_values. intros Hvs.
  assert (∀ c, bitset_wf c → bitset_wf (foldl bitset_set c vs) ∧
    ∀ v, u16 v → bitset_contains (foldl bitset_set c vs) v = bitset_contains c v || bool_decide (v ∈ vs)) as Hfold.
  { induction Hvs as [|x vs Hx Hvs IH]; intros c Hc; cbn [foldl].
    { split; [done|]. intros. by rewrite orb_false_r. }
    destruct (bitset_insert_spec c x Hc Hx) as (Hw1 & _ & Hc1). rewrite bitset_set_insert.
    destruct (IH _ Hw1) as [Hw Hv]. split; [done|]. intros v Hv16. rewrite Hv, Hc1 by done.
    rewrite (orb_comm (v =? x)), <-orb_assoc. f_equal. apply eq_true_iff_eq.
    by rewrite orb_true_iff, !bool_decide_eq_true, Z.eqb_eq, elem_of_cons. }
  destruct (Hfold _ bitset_new_wf) as [Hw Hv]. split; [done|]. intros v Hv16.
  by rewrite Hv, bitset_new_contains.
Qed.

Section cpu.
Context `{Cpu}.

Lemma recount_wf bits card : wf_bits bits → bitset_wf (recompute_cardinality (mk_bitset bits card)).
Proof using. intros Hb. split; [done|]. by apply popcount_wf_bits. Qed.

Lemma bitset_from_sorted_values_spec vs :
  Forall u16 vs →
  bitset_wf (bitset_from_sorted_values vs) ∧
  ∀ v, u16 v → bitset_contains (bitset_from_sorted_values vs) v = bool_decide (v ∈ vs).
Proof using.
  intros Hvs. destruct (set_bits_from_array_spec vs zero_bits zero_bits_wf Hvs) as [Hw Hv].
  split; [by apply (recount_wf _ 0)|]. intros v Hv16. rewrite bitset_contains_bit_at by done.
  cbn [bs_bits bitset_from_sorted_values]. by rewrite Hv, bit_at_zero.
Qed.

(** ** Set operations *)

Lemma of_result_spec ws r :
  wf_bits ws → is_result ws r →
  bitset_wf (of_result r) ∧ ∀ v, u16 v → bitset_contains (of_result r) v = bit_at ws v.
Proof using.
  intros Hws [Hb Hc]. unfold of_result. rewrite Hb, Hc. split; [done|].
  intros v Hv. by apply bitset_contains_bit_at.
Qed.

Lemma inplace_spec ws (r : list Z * Z) :
  wf_bits ws → is_result_inplace ws r →
  let c := (let '(bits, card) := r in mk_bitset bits card) in
  bitset_wf c ∧ ∀ v, u16 v → bitset_contains c v = bit_at ws v.
Proof using.
  intros Hws [Hb Hc]. destruct r as [bits card]. cbn in Hb, Hc. subst. split; [done|].
  intros v Hv. by apply (bitset_contains_bit_at (mk_bitset ws (zlen (bits_values ws)))).
Qed.

Context (a b : BitsetContainer) (Ha : bitset_wf a) (Hb : bitset_wf b).

Lemma bitset_and_spec :
  bitset_wf (bitset_and a b) ∧
  ∀ v, u16 v → bitset_contains (bitset_and a b) v = bitset_contains a v && bitset_contains b v.
Proof using All.
  destruct Ha as [Ha' _], Hb as [Hb' _].
  destruct (of_result_spec _ _ (op_words_wf _ land_u64 _ _ Ha' Hb') (bitwise_and_result _ _ Ha' Hb')) as [Hw Hv].
  split; [done|]. intros v Hv16. by rewrite Hv, bit_at_and, !bitset_contains_bit_at.
Qed.

Lemma bitset_or_spec :
  bitset_wf (bitset_or a b) ∧
  ∀ v, u16 v → bitset_contains (bitset_or a b) v = bitset_contains a v || bitset_contains b v.
Proof using All.
  destruct Ha as [Ha' _], Hb as [Hb' _].
  destruct (of_result_spec _ _ (op_words_wf _ lor_u64 _ _ Ha' Hb') (bitwise_or_result _ _ Ha' Hb')) as [Hw Hv].
  split; [done|]. intros v Hv16. by rewrite Hv, bit_at_or, !bitset_contains_bit_at.
Qed.

Lemma bitset_and_not_spec :
  bitset_wf (bitset_and_not a b) ∧
  ∀ v, u16 v → bitset_contains (bitset_and_not a b) v = bitset_contains a v && negb (bitset_contains b v).
Proof using All.
  destruct Ha as [Ha' _], Hb as [Hb' _].
  destruct (of_result_spec _ _ (op_words_wf _ and_not_word_u64 _ _ Ha' Hb') (bitwise_and_not_result _ _ Ha' Hb')) as [Hw Hv].
  split; [done|]. intros v Hv16. by rewrite Hv, bit_at_and_not, !bitset_contains_bit_at.
Qed.

(** The in-place operations build the same container as the others. *)
Lemma bitset_inplace_same :
  bitset_and_inplace a b = bitset_and a b ∧ bitset_or_inplace a b = bitset_or a b ∧
  bitset_and_not_inplace a b = bitset_and_not a b.
Proof using All.
  destruct Ha as [Ha' _], Hb as [Hb' _].
  assert (∀ ws r (r' : list Z * Z), is_result ws r → is_result_inplace ws r' →
    (let '(bits, card) := r' in mk_bitset bits card) = of_result r) as Hsame.
  { intros ws r [bits card] [H1 H2] [H3 H4]. cbn in *. unfold of_result. congruence. }
  split_and!; eapply Hsame.
  - by apply bitwise_and_result. - by apply and_inplace_result.
  - by apply bitwise_or_result. - by apply or_inplace_result.
  - by apply bitwise_and_not_result. - by apply and_not_inplace_result.
Qed.
End cpu.

(** ** Complementing a range *)

Lemma u64_lxor w x : u64 w → u64 x → u64 (Z.lxor w x).
Proof.
  intros Hw Hx. apply u64_of_bits; [apply Z.lxor_nonneg; unfold u64 in *; lia|].
  intros i Hi. by rewrite Z.lxor_spec, !u64_testbit_above.
Qed.
Lemma low_mask_u64 k : 0 ≤ k < 64 → u64 (low_mask k).
Proof.
  intros Hk. unfold low_mask. case_cmp; [done|]. unfold u64_shl. pose proof (wrap_u64 (Z.shiftl 1 (k + 1))) as Hu.
  rewrite Z.shiftl_1_l in *. rewrite wrap_small in *; unfold u64 in *; [lia|..];
    (split; [lia|]; apply Z.pow_lt_mono_r; lia).
Qed.

Lemma xor_words_spec n : ∀ bits a,
  wf_bits bits → 0 ≤ a → a + Z.of_nat n ≤ 1024 →
  wf_bits (xor_words bits a n) ∧
  ∀ v, u16 v → bit_at (xor_words bits a n) v = xorb (bit_at bits v) ((a <=? v / 64) && (v / 64 <? a + Z.of_nat n)).
Proof.
  induction n as [|n IH]; intros bits a Hb Ha Hle; cbn [xor_words].
  { split; [done|]. intros v Hv. rewrite Z.add_0_r.
    destruct (Z.leb_spec a (v / 64)), (Z.ltb_spec (v / 64) a); (lia || by rewrite xorb_false_r). }
  destruct (IH (word_update (λ w, Z.lxor w U64_MAX) a bits) (a + 1)) as [Hw Hv]; [|lia..|].
  { apply word_update_wf; [|done]. intros w Hw. by apply u64_lxor. }
  split; [done|]. intros v Hv16. pose proof (u16_word v Hv16). rewrite Hv, bit_at_word_update by done.
  destruct (Z.eqb_spec (v / 64) a) as [He|Hne].
  - rewrite Z.lxor_spec, u64_max_testbit by lia. unfold bit_at. rewrite He.
    replace (a + 1 <=? a) with false by (symmetry; apply Z.leb_gt; lia).
    replace ((a <=? a) && (a <? a + Z.of_nat (S n))) with true; [by rewrite xorb_false_r|].
    symmetry. apply andb_true_iff. rewrite Z.leb_le, Z.ltb_lt. lia.
  - f_equal. apply eq_true_iff_eq. rewrite !andb_true_iff, !Z.leb_le, !Z.ltb_lt. lia.
Qed.

(** The bits [bitset_flip_range] writes for [lo <= hi]. *)
Definition flipped_bits (bits : list Z) (lo hi : Z) : list Z :=
  if word_of lo =? word_of hi then
    word_update (λ w, Z.lxor w (Z.land (u64_shl U64_MAX (bit_of lo)) (low_mask (bit_of hi)))) (word_of lo) bits
  else
    word_update (λ w, Z.lxor w (low_mask (bit_of hi))) (word_of hi)
      (xor_words (word_update (λ w, Z.lxor w (u64_shl U64_MAX (bit_of lo))) (word_of lo) bits)
        (word_of lo + 1) (Z.to_nat (word_of hi - (word_of lo + 1)))).

Lemma flipped_bits_word bits lo hi v :
  wf_bits bits → u16 lo → u16 hi → lo ≤ hi → u16 v → lo / 64 = hi / 64 →
  bit_at (flipped_bits bits lo hi) v = xorb (bit_at bits v) ((lo <=? v) && (v <=? hi)).
Proof.
  unfold u16. intros Hb Hlo Hhi Hle Hv Heq. div64 lo. div64 hi. div64 v.
  unfold flipped_bits. rewrite !word_of_div, !bit_of_mod, (proj2 (Z.eqb_eq _ _) Heq).
  rewrite bit_at_word_update by (done || unfold u16; lia). destruct (Z.eqb_spec (v / 64) (lo / 64)) as [Hvl|Hvl].
  - rewrite Z.lxor_spec, Z.land_spec, high_mask_testbit, low_mask_testbit by lia. unfold bit_at. rewrite <-Hvl. f_equal.
    apply eq_true_iff_eq. rewrite !andb_true_iff, !Z.leb_le. lia.
  - replace ((lo <=? v) && (v <=? hi)) with false; [by rewrite xorb_false_r|].
    symmetry. apply not_true_iff_false. rewrite andb_true_iff, !Z.leb_le. lia.
Qed.

Lemma flipped_bits_words bits lo hi v :
  wf_bits bits → u16 lo → u16 hi → u16 v → lo / 64 < hi / 64 →
  bit_at (flipped_bits bits lo hi) v = xorb (bit_at bits v) ((lo <=? v) && (v <=? hi)).
Proof.
  unfold u16. intros Hb Hlo Hhi Hv Hlt. div64 lo. div64 hi. div64 v.
  unfold flipped_bits. rewrite !word_of_div, !bit_of_mod, (proj2 (Z.eqb_neq _ _)) by lia.
  set (b1 := word_update _ (lo / 64) bits).
  assert (wf_bits b1) as Hb1.
  { apply word_update_wf; [|done]. intros w Hw. apply u64_lxor; auto with minnal. }
  destruct (xor_words_spec (Z.to_nat (hi / 64 - (lo / 64 + 1))) b1 (lo / 64 + 1) Hb1) as [Hw2 Hv2]; [lia..|].
  rewrite Z2Nat.id in Hv2 by lia. replace (lo / 64 + 1 + (hi / 64 - (lo / 64 + 1))) with (hi / 64) in Hv2 by lia.
  assert (u16 v) as Hv16 by (unfold u16; lia). specialize (Hv2 v Hv16).
  unfold b1 in Hv2 at 2. rewrite bit_at_word_update in Hv2 by (done || lia).
  rewrite bit_at_word_update by (done || lia). rewrite <-(run_words lo hi v) by lia.
  assert ((if v / 64 =? lo / 64 then Z.testbit (Z.lxor (word_at bits (lo / 64)) (u64_shl U64_MAX (lo mod 64))) (v mod 64)
    else bit_at bits v) = xorb (bit_at bits v) ((v / 64 =? lo / 64) && (lo mod 64 <=? v mod 64))) as Hhead.
  { destruct (Z.eqb_spec (v / 64) (lo / 64)) as [Hvl|]; cbn [andb]; [|by rewrite xorb_false_r].
    rewrite Z.lxor_spec, high_mask_testbit by lia. unfold bit_at. by rewrite Hvl. }
  rewrite Hhead in Hv2. clear Hhead.
  destruct (Z.eqb_spec (v / 64) (hi / 64)) as [Hvh|Hvh].
  - rewrite Z.lxor_spec, low_mask_testbit by lia. unfold bit_at in Hv2 at 1. rewrite Hvh in Hv2. rewrite Hv2, !Hvh.
    rewrite !(proj2 (Z.ltb_ge (hi / 64) (hi / 64))) by lia.
    rewrite !(proj2 (Z.eqb_neq (hi / 64) (lo / 64))) by lia. btauto.
  - rewrite Hv2. destruct (Z.eqb_spec (v / 64) (lo / 64)).
    + rewrite (proj2 (Z.leb_gt (lo / 64 + 1) (v / 64))) by lia. btauto.
    + btauto.
Qed.

Lemma flipped_bits_spec bits lo hi :
  wf_bits bits → u16 lo → u16 hi → lo ≤ hi →
  wf_bits (flipped_bits bits lo hi) ∧
  ∀ v, u16 v → bit_at (flipped_bits bits lo hi) v = xorb (bit_at bits v) ((lo <=? v) && (v <=? hi)).
Proof.
  intros Hb Hlo Hhi Hle. assert (lo / 64 ≤ hi / 64) as Hmono by (apply Z.div_le_mono; lia). split.
  - pose proof (u16_word lo Hlo). pose proof (u16_word hi Hhi).
    unfold flipped_bits. rewrite !word_of_div, !bit_of_mod. destruct (Z.eqb_spec (lo / 64) (hi / 64)).
    + apply word_update_wf; [|done]. intros w Hw. apply u64_lxor; auto with minnal.
    + apply word_update_wf; [intros w Hw; apply u64_lxor; [done|apply low_mask_u64; lia]|].
      apply xor_words_spec; [|lia..]. apply word_update_wf; [|done]. intros w Hw. apply u64_lxor; auto with minnal.
  - intros v Hv. destruct (decide (lo / 64 = hi / 64)); [apply flipped_bits_word|apply flipped_bits_words]; (done || lia).
Qed.

Lemma bitset_flip_range_spec `{Cpu} lo hi c :
  bitset_wf c → u16 lo → u16 hi →
  bitset_wf (bitset_flip_range lo hi c) ∧
  ∀ v, u16 v → bitset_contains (bitset_flip_range lo hi c) v = xorb (bitset_contains c v) ((lo <=? v) && (v <=? hi)).
Proof.
  intros Hc Hlo Hhi. unfold bitset_flip_range. destruct (Z.ltb_spec hi lo) as [Hlt|Hle].
  - split; [done|]. intros v Hv. replace ((lo <=? v) && (v <=? hi)) with false; [by rewrite xorb_false_r|].
    symmetry. apply not_true_iff_false. rewrite andb_true_iff, !Z.leb_le. lia.
  - cbv zeta. fold (flipped_bits (bs_bits c) lo hi). destruct Hc as [Hb _].
    destruct (flipped_bits_spec _ lo hi Hb Hlo Hhi Hle) as [Hw Hv]. split; [by apply recount_wf|].
    intros v Hv16. rewrite !bitset_contains_bit_at by done. by apply Hv.
Qed.

(** ** The iterator yields the values, in order, and stops *)

Definition bitset_iter_rest (it : BitsetIter) : list Z :=
  (Z.add (64 * word_idx it) <$> word_bits (current_word it)) ++
  bits_from 64 (64 * (word_idx it + 1)) (drop (Z.to_nat (word_idx it + 1)) (it_bits it)).

(** A started iterator over [bits]; past the last word its current word is empty. *)
Definition bitset_iter_ok (bits : list Z) (it : BitsetIter) : Prop :=
  it_bits it = bits ∧ started it = true ∧ u64 (current_word it) ∧ 0 ≤ word_idx it ∧
  (word_idx it < 1024 ∨ current_word it = 0).

Lemma bits_from_drop bits i :
  wf_bits bits → 0 ≤ i < 1024 →
  bits_from 64 (64 * i) (drop (Z.to_nat i) bits) =
    (Z.add (64 * i) <$> word_bits (word_at bits i)) ++ bits_from 64 (64 * (i + 1)) (drop (Z.to_nat (i + 1)) bits).
Proof.
  intros Hb Hi. rewrite (drop_S _ _ _ (word_lookup bits i Hb Hi)). cbn [bits_from]. f_equal.
  replace (64 * i + 64) with (64 * (i + 1)) by lia. by rewrite Z2Nat.inj_add, Nat.add_1_r by lia.
Qed.

Lemma bitset_next_loop_rest bits fuel : ∀ it,
  wf_bits bits → bitset_iter_ok bits it → (Z.to_nat (1024 - word_idx it) < fuel)%nat →
  (bitset_next_loop fuel it).1 = head (bitset_iter_rest it) ∧
  bitset_iter_ok bits (bitset_next_loop fuel it).2 ∧
  bitset_iter_rest (bitset_next_loop fuel it).2 = tail (bitset_iter_rest it).
Proof.
  induction fuel as [|fuel IH]; intros it Hb Hok Hf; [lia|].
  pose proof Hok as (Hbits & Hst & Hcur & Hidx & Hend). cbn [bitset_next_loop]. rewrite Hst. cbn [negb andb].
  unfold bitset_iter_rest at 1 3. destruct (Z.eqb_spec (current_word it) 0) as [H0|Hne]; cbn [negb].
  - rewrite H0. change (word_bits 0) with (@nil Z). cbn [fmap list_fmap app].
    unfold BITSET_WORDS. destruct (Z.leb_spec 1024 (word_idx it + 1)) as [Hlast|Hmore].
    + assert (drop (Z.to_nat (word_idx it + 1)) (it_bits it) = []) as Hnil.
      { apply drop_ge. rewrite Hbits. destruct Hb as [Hlen _]. unfold zlen, BITSET_WORDS in Hlen. lia. }
      rewrite Hnil. unfold bitset_iter_rest, bitset_iter_ok. cbn [fst snd it_bits current_word word_idx started bits_from head tail].
      rewrite drop_ge; [split_and!; [done..|lia|by right|done]|].
      rewrite Hbits. destruct Hb as [Hlen _]. unfold zlen, BITSET_WORDS in Hlen. lia.
    + destruct (IH (mk_bitset_iter (it_bits it) (word_idx it + 1) (word_at (it_bits it) (word_idx it + 1)) true) Hb)
        as (Hn1 & Hn2 & Hn3).
      { rewrite Hbits. split_and!; cbn; [done..|by apply word_at_u64|lia|left; lia]. }
      { cbn [word_idx]. lia. }
      rewrite Hn1, Hn3, Hbits. rewrite bits_from_drop by (done || lia). rewrite Hbits in Hn2. done.
  - cbn [fst snd]. unfold trailing_zeros.
    destruct (word_bits (current_word it)) as [|k l] eqn:E; [by apply word_bits_nil in E|].
    assert (k ∈ word_bits (current_word it)) as [Hk _]%elem_of_word_bits by (rewrite E; left).
    destruct Hend as [Hend|]; [|done]. cbn [default head from_option id fmap list_fmap app tail].
    rewrite wrap_small, u16_mul_small, u16_add_small by lia. split_and!.
    + f_equal. lia.
    + split_and!; cbn; [done..|by apply u64_land|lia|by left].
    + unfold bitset_iter_rest. cbn [it_bits current_word word_idx]. by rewrite word_bits_clear_lowest, E.
Qed.

Lemma bitset_collect_rest bits : ∀ fuel it,
  wf_bits bits → bitset_iter_ok bits it → (length (bitset_iter_rest it) < fuel)%nat →
  bitset_collect fuel it = bitset_iter_rest it.
Proof.
  induction fuel as [|fuel IH]; intros it Hb Hok Hf; [lia|]. cbn [bitset_collect]. unfold bitset_iter_next.
  pose proof Hok as (_ & _ & _ & Hidx & _).
  destruct (bitset_next_loop_rest bits (S (Z.to_nat BITSET_WORDS)) it Hb Hok) as (Hn1 & Hn2 & Hn3).
  { unfold BITSET_WORDS. lia. }
  destruct (bitset_next_loop _ it) as [o it']. cbn [fst snd] in *. subst o.
  destruct (bitset_iter_rest it) as [|v l]; [done|]. cbn [head tail] in *. rewrite IH; rewrite ?Hn3; try done.
  cbn in Hf. lia.
Qed.

Lemma bitset_iter_values c fuel :
  bitset_wf c → (length (bits_values (bs_bits c)) < fuel)%nat →
  bitset_collect fuel (bitset_iter c) = bits_values (bs_bits c).
Proof.
  intros [Hb _] Hf. set (it := mk_bitset_iter (bs_bits c) 0 (word_at (bs_bits c) 0) true).
  assert (bitset_iter_rest it = bits_values (bs_bits c)) as Hrest.
  { unfold bitset_iter_rest, it, bits_values. cbn [it_bits current_word word_idx].
    by rewrite <-(bits_from_drop _ 0). }
  assert (bitset_iter_ok (bs_bits c) it) as Hok.
  { split_and!; cbn; [done..|by apply word_at_u64|lia|left; lia]. }
  rewrite <-Hrest, <-(bitset_collect_rest (bs_bits c) fuel it Hb Hok) by (by rewrite Hrest).
  destruct fuel as [|fuel]; [done|]. done.
Qed.
