(* ===== verification/ContainerOps.v ===== *)
(** * ContainerOps: set operations between different container kinds

    [src/minnal_db/src/index/container/ops.rs]. *)
From S2P Require Import Prelude Slices U16Set ArrayMerge Words Popcount Bitwise Extract.
From S2P Require Import ArrayContainer RunContainer RunBitset BitsetContainer.

(** Draining [run.iter()]; a container never yields more than its cardinality. *)
Definition run_iter_list (run : RunContainer) : list Z :=
  iter_collect (S (Z.to_nat (run_card run))) (runs_iter run).

(** ** Array x Bitset *)

Definition array_and_bitset (array : ArrayContainer) (bitset : BitsetContainer) : ArrayContainer :=
  array_from_sorted (filter (λ v, bitset_contains bitset v = true) (values array)).

Definition array_or_bitset `{Cpu} (array : ArrayContainer) (bitset : BitsetContainer) : BitsetContainer :=
  recompute_cardinality (mk_bitset (set_bits_from_array (bs_bits bitset) (values array)) (bs_card bitset)).

Definition array_andnot_bitset (array : ArrayContainer) (bitset : BitsetContainer) : ArrayContainer :=
  array_from_sorted (filter (λ v, negb (bitset_contains bitset v) = true) (values array)).

Definition bitset_andnot_array `{Cpu} (bitset : BitsetContainer) (array : ArrayContainer) : BitsetContainer :=
  recompute_cardinality (mk_bitset (clear_bits_from_array (bs_bits bitset) (values array)) (bs_card bitset)).

(** ** Array x Run *)

Definition array_and_run (array : ArrayContainer) (run : RunContainer) : ArrayContainer :=
  array_from_sorted (filter (λ v, runs_contains run v = true) (values array)).

(** The merge of two peekable iterators. *)
Fixpoint merge_peekable (ai : list Z) : list Z → list Z :=
  fix go (ri : list Z) : list Z :=
    match ai, ri with
    | a :: ai', b :: ri' =>
        match a ?= b with
        | Lt => a :: merge_peekable ai' ri
        | Gt => b :: go ri'
        | Eq => a :: merge_peekable ai' ri'
        end
    | a :: ai', [] => a :: merge_peekable ai' []
    | [], b :: ri' => b :: go ri'
    | [], [] => []
    end.

Definition array_or_run_values (array : ArrayContainer) (run : RunContainer) : list Z :=
  merge_peekable (values array) (run_iter_list run).

Definition array_andnot_run (array : ArrayContainer) (run : RunContainer) : ArrayContainer :=
  array_from_sorted (filter (λ v, negb (runs_contains run v) = true) (values array)).

Definition run_andnot_array (run : RunContainer) (array : ArrayContainer) : list Z :=
  filter (λ v, negb (array_contains array v) = true) (run_iter_list run).

(** ** Bitset x Run *)

Definition bitset_and_run `{Cpu} (bitset : BitsetContainer) (run : RunContainer) : BitsetContainer :=
  of_result (bitwise_and (bs_bits bitset) (runs_to_bitmask (runs run))).
Definition bitset_or_run `{Cpu} (bitset : BitsetContainer) (run : RunContainer) : BitsetContainer :=
  of_result (bitwise_or (bs_bits bitset) (runs_to_bitmask (runs run))).
Definition bitset_andnot_run `{Cpu} (bitset : BitsetContainer) (run : RunContainer) : BitsetContainer :=
  of_result (bitwise_and_not (bs_bits bitset) (runs_to_bitmask (runs run))).

Definition run_andnot_bitset (run : RunContainer) (bitset : BitsetContainer) : list Z :=
  filter (λ v, negb (bitset_contains bitset v) = true) (run_iter_list run).

(** ** Correctness *)

Lemma run_iter_list_values run : runs_wf run → run_iter_list run = runs_to_values run.
Proof.
  intros Hr. apply runs_iter_values; [done|]. destruct Hr as [Hr Hc].
  rewrite Hc, <-(zlen_runs_values _ _ _ Hr). unfold zlen, runs_to_values. lia.
Qed.

Lemma merge_peekable_or ai ri : merge_peekable ai ri = ArrayMerge.or_scalar ai ri.
Proof.
  revert ri. induction ai as [|a ai IHa]; intros ri; induction ri as [|b ri IHb]; [done| | |].
  - cbn. f_equal. etrans; [apply IHb|by destruct ri].
  - cbn. f_equal. rewrite IHa. by destruct ai.
  - cbn. destruct (a ?= b); f_equal; [apply IHa..|apply IHb].
Qed.

Lemma filter_array_wf (P : Z → Prop) `{∀ x, Decision (P x)} array :
  array_wf array → array_wf (array_from_sorted (filter P (values array))).
Proof. intros [Ha Hb]. split; [by apply ascending_filter|by apply Forall_filter_of]. Qed.

Section ops.
Context `{Cpu} (a : ArrayContainer) (b : BitsetContainer) (r : RunContainer).
Context (Ha : array_wf a) (Hb : bitset_wf b) (Hr : runs_wf r).

Lemma filtered_array (f : Z → bool) :
  let c := array_from_sorted (filter (λ v, f v = true) (values a)) in
  array_wf c ∧ ∀ v, u16 v → array_contains c v = array_contains a v && f v.
Proof using Ha.
  assert (array_wf (array_from_sorted (filter (λ v, f v = true) (values a)))) as Hw by (by apply filter_array_wf).
  split; [done|]. intros v Hv. apply eq_true_iff_eq.
  rewrite andb_true_iff, !array_contains_spec by done. cbn. rewrite list_elem_of_filter. tauto.
Qed.

Lemma filtered_runs (f : Z → bool) :
  let vs := filter (λ v, f v = true) (run_iter_list r) in
  ascending vs ∧ Forall u16 vs ∧ ∀ v, u16 v → bool_decide (v ∈ vs) = runs_contains r v && f v.
Proof using Hr.
  cbv zeta. rewrite run_iter_list_values by done.
  pose proof (values_ascending r Hr) as Hasc. pose proof (values_u16 r Hr) as H16. cbn in Hasc, H16.
  split_and!; [by apply ascending_filter|by apply Forall_filter_of|]. intros v Hv.
  apply eq_true_iff_eq. rewrite bool_decide_eq_true, list_elem_of_filter, andb_true_iff.
  rewrite (runs_contains_values r v Hr Hv). tauto.
Qed.

Lemma array_contains_decide v : array_contains a v = bool_decide (v ∈ values a).
Proof using Ha. apply eq_true_iff_eq. rewrite bool_decide_eq_true. by apply array_contains_spec. Qed.

Lemma array_or_bitset_spec :
  bitset_wf (array_or_bitset a b) ∧
  ∀ v, u16 v → bitset_contains (array_or_bitset a b) v = array_contains a v || bitset_contains b v.
Proof using Ha Hb.
  destruct Hb as [Hb' _]. pose proof Ha as [_ H16].
  destruct (set_bits_from_array_spec _ _ Hb' H16) as [Hw Hv]. split; [by apply recount_wf|].
  intros v Hv16. rewrite !bitset_contains_bit_at, array_contains_decide by done.
  unfold array_or_bitset. cbn [bs_bits recompute_cardinality]. rewrite Hv by done. apply orb_comm.
Qed.

Lemma bitset_andnot_array_spec :
  bitset_wf (bitset_andnot_array b a) ∧
  ∀ v, u16 v → bitset_contains (bitset_andnot_array b a) v = bitset_contains b v && negb (array_contains a v).
Proof using Ha Hb.
  destruct Hb as [Hb' _]. pose proof Ha as [_ H16].
  destruct (clear_bits_from_array_spec _ _ Hb' H16) as [Hw Hv]. split; [by apply recount_wf|].
  intros v Hv16. rewrite !bitset_contains_bit_at, array_contains_decide by done.
  unfold bitset_andnot_array. cbn [bs_bits recompute_cardinality]. by rewrite Hv.
Qed.

Lemma array_or_run_values_spec :
  let vs := array_or_run_values a r in
  ascending vs ∧ Forall u16 vs ∧ ∀ v, u16 v → bool_decide (v ∈ vs) = array_contains a v || runs_contains r v.
Proof using Ha Hr.
  cbv zeta. unfold array_or_run_values. rewrite merge_peekable_or, run_iter_list_values by done.
  pose proof (values_ascending r Hr) as Hasc. pose proof (values_u16 r Hr) as H16. cbn in Hasc, H16.
  pose proof Ha as [Ha1 Ha2]. rewrite Forall_forall in Ha2, H16. split_and!.
  - by apply or_scalar_ascending.
  - apply Forall_forall. intros v [Hv|Hv]%elem_of_or_scalar; auto.
  - intros v Hv. apply eq_true_iff_eq.
    rewrite bool_decide_eq_true, elem_of_or_scalar, orb_true_iff, array_contains_spec by done.
    by rewrite (runs_contains_values r v Hr Hv).
Qed.

Lemma run_mask_spec :
  wf_bits (runs_to_bitmask (runs r)) ∧
  ∀ v, u16 v → bit_at (runs_to_bitmask (runs r)) v = runs_contains r v.
Proof using Hr.
  destruct (runs_to_bitmask_spec (runs r)) as [Hw Hv]; [apply Hr|]. split; [done|].
  intros v Hv16. rewrite Hv by done. symmetry. by apply runs_contains_decide.
Qed.

Lemma bitset_and_run_spec :
  bitset_wf (bitset_and_run b r) ∧
  ∀ v, u16 v → bitset_contains (bitset_and_run b r) v = bitset_contains b v && runs_contains r v.
Proof using Hb Hr.
  destruct Hb as [Hb' _], run_mask_spec as [Hm Hmv].
  destruct (of_result_spec _ _ (op_words_wf _ land_u64 _ _ Hb' Hm) (bitwise_and_result _ _ Hb' Hm)) as [Hw Hv].
  split; [done|]. intros v Hv16. unfold bitset_and_run. by rewrite Hv, bit_at_and, Hmv, !bitset_contains_bit_at.
Qed.

Lemma bitset_or_run_spec :
  bitset_wf (bitset_or_run b r) ∧
  ∀ v, u16 v → bitset_contains (bitset_or_run b r) v = bitset_contains b v || runs_contains r v.
Proof using Hb Hr.
  destruct Hb as [Hb' _], run_mask_spec as [Hm Hmv].
  destruct (of_result_spec _ _ (op_words_wf _ lor_u64 _ _ Hb' Hm) (bitwise_or_result _ _ Hb' Hm)) as [Hw Hv].
  split; [done|]. intros v Hv16. unfold bitset_or_run. by rewrite Hv, bit_at_or, Hmv, !bitset_contains_bit_at.
Qed.

Lemma bitset_andnot_run_spec :
  bitset_wf (bitset_andnot_run b r) ∧
  ∀ v, u16 v → bitset_contains (bitset_andnot_run b r) v = bitset_contains b v && negb (runs_contains r v).
Proof using Hb Hr.
  destruct Hb as [Hb' _], run_mask_spec as [Hm Hmv].
  destruct (of_result_spec _ _ (op_words_wf _ and_not_word_u64 _ _ Hb' Hm) (bitwise_and_not_result _ _ Hb' Hm)) as [Hw Hv].
  split; [done|]. intros v Hv16. unfold bitset_andnot_run. by rewrite Hv, bit_at_and_not, Hmv, !bitset_contains_bit_at.
Qed.
End ops.
