(* ===== verification/Container.v ===== *)
(** * Container: the three-way container and its canonical form

    [src/minnal_db/src/index/container/mod.rs].  A container is an array, a bitset
    or runs.  [container_wf] is the invariant every operation keeps: the payload is
    well formed and the kind matches the cardinality, arrays below 4096 values and
    bitsets from 4096 on, which is what the promotions and demotions of the code
    maintain. *)
From S2P Require Import Prelude Slices U16Set ArrayMerge Words Popcount Bitwise Extract.
From S2P Require Import ArrayContainer RunContainer RunBitset BitsetContainer ContainerOps.

Inductive Container :=
| CArray (a : ArrayContainer)
| CBitset (b : BitsetContainer)
| CRun (r : RunContainer).

#[global] Instance Container_eq_dec : EqDecision Container.
Proof. solve_decision. Defined.

Definition new_array : Container := CArray array_new.

(** [if values.len() >= ARRAY_TO_BITSET_THRESHOLD { Bitset } else { Array }] *)
Definition of_values (vs : list Z) : Container :=
  if ARRAY_TO_BITSET_THRESHOLD <=? zlen vs then CBitset (bitset_from_values vs)
  else CArray (array_from_sorted vs).

(** [if r.should_demote() { Array(r.to_values()) } else { Bitset(r) }] *)
Definition of_bitset `{Cpu} (r : BitsetContainer) : Container :=
  if should_demote r then CArray (array_from_sorted (bitset_to_values r)) else CBitset r.

Definition container_insert (value : Z) (c : Container) : Container * bool :=
  match c with
  | CArray a =>
      let '(a, inserted) := array_insert value a in
      if inserted && array_should_promote a then (CBitset (bitset_from_values (values a)), inserted)
      else (CArray a, inserted)
  | CBitset b => let '(b, inserted) := bitset_insert value b in (CBitset b, inserted)
  | CRun r => let '(r, inserted) := runs_insert value r in (CRun r, inserted)
  end.

Definition container_remove `{Cpu} (value : Z) (c : Container) : Container * bool :=
  match c with
  | CArray a => let '(a, removed) := array_remove value a in (CArray a, removed)
  | CBitset b =>
      let '(b, removed) := bitset_remove value b in
      if removed && should_demote b then (CArray (array_from_sorted (bitset_to_values b)), removed)
      else (CBitset b, removed)
  | CRun r => let '(r, removed) := runs_remove value r in (CRun r, removed)
  end.

Definition container_contains (c : Container) (value : Z) : bool :=
  match c with
  | CArray a => array_contains a value
  | CBitset b => bitset_contains b value
  | CRun r => runs_contains r value
  end.
Definition container_cardinality (c : Container) : Z :=
  match c with
  | CArray a => array_cardinality a
  | CBitset b => bitset_cardinality b
  | CRun r => runs_cardinality r
  end.
Definition container_is_empty (c : Container) : bool := container_cardinality c =? 0.
Definition container_min (c : Container) : option Z :=
  match c with CArray a => array_min a | CBitset b => bitset_min b | CRun r => runs_min r end.
Definition container_max (c : Container) : option Z :=
  match c with CArray a => array_max a | CBitset b => bitset_max b | CRun r => runs_max r end.

Definition optimize `{Cpu} (c : Container) : Container :=
  match c with
  | CArray a =>
      let run := runs_from_sorted_values (values a) in
      if is_efficient run then CRun run
      else if array_should_promote a then CBitset (bitset_from_values (values a)) else c
  | CBitset b =>
      if should_demote b then
        let vs := bitset_to_values b in
        let run := runs_from_sorted_values vs in
        if is_efficient run then CRun run else CArray (array_from_sorted vs)
      else
        let vs := bitset_to_values b in
        let run := runs_from_sorted_values vs in
        if num_runs run * 4 <? 8192 then CRun run else c
  | CRun r => if negb (is_efficient r) then of_values (runs_to_values r) else c
  end.

Definition to_values `{Cpu} (c : Container) : list Z :=
  match c with CArray a => values a | CBitset b => bitset_to_values b | CRun r => runs_to_values r end.
Definition container_rank `{Cpu} (c : Container) (value : Z) : Z :=
  match c with
  | CArray a => array_rank a value
  | CBitset b => bitset_rank b value
  | CRun r => runs_rank r value
  end.
Definition container_select (c : Container) (rank : Z) : option Z :=
  match c with
  | CArray a => array_select a rank
  | CBitset b => bitset_select b rank
  | CRun r => runs_select r rank
  end.

Definition container_flip_range `{Cpu} (lo hi_inclusive : Z) (c : Container) : Container :=
  let b := match c with CBitset b => b | _ => bitset_from_sorted_values (to_values c) end in
  let b := bitset_flip_range lo hi_inclusive b in
  let card := bitset_cardinality b in
  if card =? 0 then new_array
  else if card <? ARRAY_TO_BITSET_THRESHOLD then CArray (array_from_sorted (bitset_to_values b))
  else CBitset b.

(** [for w in a..a + n { bits[w] = 0 }] *)
Fixpoint zero_words (bits : list Z) (a : Z) (n : nat) : list Z :=
  match n with
  | O => bits
  | S n => zero_words (word_update (λ _, 0) a bits) (a + 1) n
  end.

Definition clip_bits (lo hi_inclusive : Z) (bits : list Z) : list Z :=
  let bits :=
    if 0 <? lo then
      let lo_word := word_of lo in
      word_update (λ w, Z.land w (u64_shl U64_MAX (bit_of lo))) lo_word
        (zero_words bits 0 (Z.to_nat lo_word))
    else bits in
  let hi_word := word_of hi_inclusive in
  let hi_bit := bit_of hi_inclusive in
  let bits := zero_words bits (hi_word + 1) (Z.to_nat (BITSET_WORDS - (hi_word + 1))) in
  if hi_bit <? 63 then word_update (λ w, Z.land w (u64_shl 1 (hi_bit + 1) - 1)) hi_word bits else bits.

Definition clip_run (lo hi_inclusive : Z) (run : Run) : option Run :=
  let s := Z.max (start run) lo in
  let e := Z.min (run_end run) hi_inclusive in
  if s <=? e then Some (mk_run s (u16_sub e s)) else None.

(** A slice [v[lo..hi]] with [lo <= hi]. *)
Definition slice {A} (lo hi : nat) (l : list A) : list A := take (hi - lo) (drop lo l).

Definition clip_to_range `{Cpu} (lo hi_inclusive : Z) (c : Container) : Container :=
  if (lo =? 0) && (hi_inclusive =? U16_MAX) then c
  else
    match c with
    | CArray a =>
        let vals := values a in
        let lo_pos := partition_point (λ v, v <? lo) vals in
        let hi_pos := partition_point (λ v, v <=? hi_inclusive) vals in
        CArray (array_from_sorted (slice lo_pos hi_pos vals))
    | CBitset b =>
        let b := recompute_cardinality (mk_bitset (clip_bits lo hi_inclusive (bs_bits b)) (bs_card b)) in
        if bitset_cardinality b =? 0 then new_array
        else of_bitset b
    | CRun r =>
        match omap (clip_run lo hi_inclusive) (runs r) with
        | [] => new_array
        | clipped => CRun (from_runs clipped)
        end
    end.

(** ** Set operations, all nine combinations *)

Definition container_and `{Cpu} (self other : Container) : Container :=
  match self, other with
  | CArray a, CArray b => CArray (array_and a b)
  | CBitset a, CBitset b => of_bitset (bitset_and a b)
  | CRun a, CRun b => CRun (runs_and a b)
  | CArray a, CBitset b => CArray (array_and_bitset a b)
  | CBitset b, CArray a => CArray (array_and_bitset a b)
  | CArray a, CRun r => CArray (array_and_run a r)
  | CRun r, CArray a => CArray (array_and_run a r)
  | CBitset b, CRun r => of_bitset (bitset_and_run b r)
  | CRun r, CBitset b => of_bitset (bitset_and_run b r)
  end.

Definition container_or `{Cpu} (self other : Container) : Container :=
  match self, other with
  | CArray a, CArray b =>
      let result := array_or a b in
      if array_should_promote result then CBitset (bitset_from_values (values result)) else CArray result
  | CBitset a, CBitset b => CBitset (bitset_or a b)
  | CRun a, CRun b => CRun (runs_or a b)
  | CArray a, CBitset b | CBitset b, CArray a => CBitset (array_or_bitset a b)
  | CArray a, CRun r | CRun r, CArray a => of_values (array_or_run_values a r)
  | CBitset b, CRun r | CRun r, CBitset b => CBitset (bitset_or_run b r)
  end.

Definition container_and_not `{Cpu} (self other : Container) : Container :=
  match self, other with
  | CArray a, CArray b => CArray (array_and_not a b)
  | CBitset a, CBitset b => of_bitset (bitset_and_not a b)
  | CRun a, CRun b =>
      let r := runs_and_not a b in
      if negb (is_efficient r) then of_values (runs_to_values r) else CRun r
  | CArray a, CBitset b => CArray (array_andnot_bitset a b)
  | CBitset b, CArray a => of_bitset (bitset_andnot_array b a)
  | CArray a, CRun r => CArray (array_andnot_run a r)
  | CRun r, CArray a => of_values (run_andnot_array r a)
  | CBitset b, CRun r => of_bitset (bitset_andnot_run b r)
  | CRun r, CBitset b => of_values (run_andnot_bitset r b)
  end.

(** ** The canonical form *)

Definition container_wf (c : Container) : Prop :=
  match c with
  | CArray a => array_wf a ∧ zlen (values a) < ARRAY_TO_BITSET_THRESHOLD
  | CBitset b => bitset_wf b ∧ BITSET_TO_ARRAY_THRESHOLD ≤ bs_card b
  | CRun r => runs_wf r
  end.

#[export] Instance container_u16_set `{Cpu} : U16Set Container := {
  set_wf := container_wf;
  set_contains := container_contains;
  set_values := to_values;
  set_card := container_cardinality;
  set_min := container_min;
  set_max := container_max;
  set_rank := container_rank;
  set_select := container_select;
}.

(** Each law of the container is the law of its payload. *)
#[export] Instance container_u16_set_laws `{Cpu} : U16SetLaws Container.
Proof.
  split.
  - intros [a|b|r] Hc;
      [exact (values_ascending a (proj1 Hc))|exact (values_ascending b (proj1 Hc))|exact (values_ascending r Hc)].
  - intros [a|b|r] Hc;
      [exact (values_u16 a (proj1 Hc))|exact (values_u16 b (proj1 Hc))|exact (values_u16 r Hc)].
  - intros [a|b|r] v Hc Hv;
      [exact (contains_values a v (proj1 Hc) Hv)|exact (contains_values b v (proj1 Hc) Hv)|exact (contains_values r v Hc Hv)].
  - intros [a|b|r] Hc;
      [exact (card_values a (proj1 Hc))|exact (card_values b (proj1 Hc))|exact (card_values r Hc)].
  - intros [a|b|r] Hc;
      [exact (min_values a (proj1 Hc))|exact (min_values b (proj1 Hc))|exact (min_values r Hc)].
  - intros [a|b|r] Hc;
      [exact (max_values a (proj1 Hc))|exact (max_values b (proj1 Hc))|exact (max_values r Hc)].
  - intros [a|b|r] v Hc Hv;
      [exact (rank_values a v (proj1 Hc) Hv)|exact (rank_values b v (proj1 Hc) Hv)|exact (rank_values r v Hc Hv)].
  - intros [a|b|r] k Hc Hk;
      [exact (select_values a k (proj1 Hc) Hk)|exact (select_values b k (proj1 Hc) Hk)|exact (select_values r k Hc Hk)].
Qed.

(** ** Building blocks *)

(** An ascending list inside another is no longer. *)
Lemma zlen_subset l k : ascending l → (∀ v, v ∈ l → v ∈ k) → zlen l ≤ zlen k.
Proof.
  intros Hl Hsub. unfold zlen. apply inj_le, submseteq_length, NoDup_submseteq; [by apply ascending_NoDup|done].
Qed.

Section operations.
Context `{Cpu}.

Lemma bitset_mono b b' :
  bitset_wf b → bitset_wf b' → (∀ v, u16 v → bitset_contains b v = true → bitset_contains b' v = true) →
  bs_card b ≤ bs_card b'.
Proof using.
  intros [Hb Hc] [Hb' Hc'] Hsub. rewrite Hc, Hc'. apply zlen_subset; [by apply bits_values_ascending|].
  intros v. rewrite !elem_of_bits_values by done. intros [Hv Hin]. split; [done|].
  rewrite <-bitset_contains_bit_at by done. apply Hsub; [done|]. by rewrite bitset_contains_bit_at.
Qed.

Lemma of_bitset_spec b :
  bitset_wf b → container_wf (of_bitset b) ∧
  ∀ v, u16 v → container_contains (of_bitset b) v = bitset_contains b v.
Proof using.
  intros Hb. unfold of_bitset, should_demote. destruct (Z.ltb_spec (bs_card b) BITSET_TO_ARRAY_THRESHOLD); [|done].
  pose proof Hb as [Hw Hc]. rewrite bitset_values_spec by done.
  assert (array_wf (array_from_sorted (bits_values (bs_bits b)))) as Ha.
  { split; [by apply bits_values_ascending|]. apply Forall_forall. intros v [Hv _]%elem_of_bits_values; done. }
  split; [split; [done|]|].
  - cbn. by rewrite <-Hc.
  - intros v Hv. apply eq_true_iff_eq. rewrite bitset_contains_spec by done. by apply array_contains_spec.
Qed.

Lemma bitset_of_ascending b vs :
  bitset_wf b → ascending vs → Forall u16 vs →
  (∀ v, u16 v → bitset_contains b v = bool_decide (v ∈ vs)) → bits_values (bs_bits b) = vs.
Proof using.
  intros Hb Ha Hu Hin. rewrite Forall_forall in Hu.
  apply ascending_ext; [apply bits_values_ascending, Hb|done|]. intros v. split.
  - intros Hv. assert (u16 v) as Hv16 by (apply elem_of_bits_values in Hv; [tauto|apply Hb]).
    apply bitset_contains_spec in Hv; [|done..]. rewrite Hin in Hv by done. by apply bool_decide_eq_true in Hv.
  - intros Hv. pose proof (Hu v Hv). apply bitset_contains_spec; [done..|]. rewrite Hin by done.
    by apply bool_decide_eq_true.
Qed.

Lemma bitset_from_values_canonical vs :
  ascending vs → Forall u16 vs → ARRAY_TO_BITSET_THRESHOLD ≤ zlen vs →
  container_wf (CBitset (bitset_from_values vs)) ∧
  ∀ v, u16 v → bitset_contains (bitset_from_values vs) v = bool_decide (v ∈ vs).
Proof using.
  intros Ha Hu Hlen. destruct (bitset_from_values_spec vs Hu) as [Hw Hv]. split; [|done]. split; [done|].
  pose proof Hw as [_ ->]. by rewrite (bitset_of_ascending _ vs).
Qed.

Lemma array_contains_in vs v :
  array_wf (mk_array vs) → array_contains (mk_array vs) v = bool_decide (v ∈ vs).
Proof using.
  intros Ha. apply eq_true_iff_eq. rewrite bool_decide_eq_true. by apply array_contains_spec.
Qed.

Lemma of_values_spec vs :
  ascending vs → Forall u16 vs →
  container_wf (of_values vs) ∧ ∀ v, u16 v → container_contains (of_values vs) v = bool_decide (v ∈ vs).
Proof using.
  intros Ha Hu. unfold of_values. destruct (Z.leb_spec ARRAY_TO_BITSET_THRESHOLD (zlen vs)).
  - by apply bitset_from_values_canonical.
  - split; [done|]. intros v _. by apply array_contains_in.
Qed.

(** ** Updates *)

Lemma container_insert_spec c v :
  container_wf c → u16 v →
  container_wf (container_insert v c).1 ∧
  (container_insert v c).2 = negb (container_contains c v) ∧
  ∀ w, u16 w → container_contains (container_insert v c).1 w = (w =? v) || container_contains c w.
Proof using.
  intros Hc Hv. destruct c as [a|b|r]; cbn [container_insert].
  - destruct Hc as [Ha Hlen]. destruct (array_insert_spec a v Ha Hv) as (Hw & Hr & Hin).
    pose proof (array_insert_card a v) as Hcard. destruct (array_insert v a) as [a' ins]. cbn [fst snd] in *.
    assert (∀ w, bool_decide (w ∈ values a') = (w =? v) || array_contains a w) as Hmem.
    { intros w. apply eq_true_iff_eq.
      by rewrite bool_decide_eq_true, Hin, orb_true_iff, Z.eqb_eq, array_contains_spec. }
    unfold array_should_promote. destruct (Z.leb_spec ARRAY_TO_BITSET_THRESHOLD (zlen (values a'))) as [Hp|Hp].
    + destruct ins; cbn [andb]; [|unfold array_cardinality in Hcard; lia]. cbn [fst snd].
      destruct (bitset_from_values_canonical (values a')) as [Hcan Hcv]; [apply Hw|apply Hw|done|].
      split_and!; [done..|]. intros w Hw16. cbn [container_contains]. by rewrite Hcv, Hmem.
    + rewrite andb_false_r. cbn [fst snd]. split_and!; [done..|]. intros w _. cbn [container_contains].
      rewrite <-Hmem. destruct a' as [vs']. by apply array_contains_in.
  - destruct Hc as [Hb Hlen]. destruct (bitset_insert_spec b v Hb Hv) as (Hw & Hr & Hin).
    destruct (bitset_insert v b) as [b' ins]. cbn [fst snd] in *. split_and!; [split; [done|]|done..].
    etrans; [exact Hlen|]. apply bitset_mono; [done..|]. intros w Hw16 Hb'. rewrite Hin, Hb' by done. apply orb_true_r.
  - destruct (runs_insert_spec r v Hc Hv) as (Hw & Hr & Hin).
    destruct (runs_insert v r) as [r' ins]. cbn [fst snd] in *. split_and!; [done..|].
    intros w Hw16. cbn [container_contains]. apply eq_true_iff_eq.
    by rewrite orb_true_iff, Z.eqb_eq, !runs_contains_values, Hin.
Qed.

Lemma container_remove_spec c v :
  container_wf c → u16 v →
  container_wf (container_remove v c).1 ∧
  (container_remove v c).2 = container_contains c v ∧
  ∀ w, u16 w → container_contains (container_remove v c).1 w = container_contains c w && negb (w =? v).
Proof using.
  intros Hc Hv. destruct c as [a|b|r]; cbn [container_remove].
  - destruct Hc as [Ha Hlen]. destruct (array_remove_spec a v Ha Hv) as (Hw & Hr & Hin).
    pose proof (array_remove_card a v Ha) as Hcard. destruct (array_remove v a) as [a' rem]. cbn [fst snd] in *.
    split_and!; [split; [done|]|done|].
    + unfold array_cardinality in Hcard. destruct rem; lia.
    + intros w _. cbn [container_contains]. apply eq_true_iff_eq.
      by rewrite andb_true_iff, negb_true_iff, Z.eqb_neq, !array_contains_spec, Hin.
  - destruct Hc as [Hb Hlen]. destruct (bitset_remove_spec b v Hb Hv) as (Hw & Hr & Hin).
    destruct (bitset_remove v b) as [b' rem] eqn:E. cbn [fst snd] in *. destruct rem; cbn [andb].
    + destruct (of_bitset_spec b' Hw) as [Hcan Hcv]. unfold of_bitset in Hcan, Hcv.
      destruct (should_demote b'); cbn [fst snd]; (split_and!; [done..|]); intros w Hw16;
        rewrite Hcv, Hin by done; done.
    + cbn [fst snd]. split_and!; [|done..]. split; [done|].
      unfold bitset_remove in E. destruct (word_and_bit v). case_match; by simplify_eq.
  - destruct (runs_remove_spec r v Hc Hv) as (Hw & Hr & Hin).
    destruct (runs_remove v r) as [r' rem]. cbn [fst snd] in *. split_and!; [done..|].
    intros w Hw16. cbn [container_contains]. apply eq_true_iff_eq.
    by rewrite andb_true_iff, negb_true_iff, Z.eqb_neq, !runs_contains_values, Hin.
Qed.

(** ** Re-encoding *)

Lemma runs_of_values_spec vs :
  ascending vs → Forall u16 vs →
  container_wf (CRun (runs_from_sorted_values vs)) ∧
  ∀ v, u16 v → runs_contains (runs_from_sorted_values vs) v = bool_decide (v ∈ vs).
Proof using.
  intros Ha Hu. destruct (runs_from_sorted_values_spec vs Ha Hu) as [Hw Hval]. split; [done|].
  intros v Hv. by rewrite runs_contains_decide, Hval.
Qed.

Lemma contains_to_values c v :
  container_wf c → u16 v → container_contains c v = bool_decide (v ∈ to_values c).
Proof using. intros Hc Hv. exact (contains_values_decide c v Hc Hv). Qed.

Lemma optimize_spec c :
  container_wf c →
  container_wf (optimize c) ∧ ∀ v, u16 v → container_contains (optimize c) v = container_contains c v.
Proof using.
  intros Hc. pose proof (values_ascending c Hc : ascending (to_values c)) as Ha.
  pose proof (values_u16 c Hc : Forall u16 (to_values c)) as Hu.
  destruct (runs_of_values_spec _ Ha Hu) as [Hrw Hrv].
  assert (∀ v, u16 v → container_contains (CRun (runs_from_sorted_values (to_values c))) v = container_contains c v)
    as Hsame by (intros v Hv; by rewrite (contains_to_values c), <-Hrv).
  clear Hrv.
  destruct c as [a|b|r]; cbn [optimize to_values] in *; cbv zeta.
  - destruct (is_efficient _); [done|]. destruct Hc as [Ha' Hlen]. unfold array_should_promote.
    by rewrite (proj2 (Z.leb_gt _ _)).
  - destruct Hc as [Hb Hlen]. unfold should_demote. rewrite (proj2 (Z.ltb_ge _ _)) by done.
    case_match; done.
  - destruct (negb _); [|done]. destruct (of_values_spec _ Ha Hu) as [Hw Hv]. split; [done|].
    intros v Hv16. by rewrite Hv, <-(contains_to_values (CRun r)).
Qed.

(** [if card == 0 { new_array() } else { .. }] *)
Lemma nonempty_bitset_spec b :
  bitset_wf b →
  container_wf (if bs_card b =? 0 then new_array else of_bitset b) ∧
  ∀ v, u16 v → container_contains (if bs_card b =? 0 then new_array else of_bitset b) v = bitset_contains b v.
Proof using.
  intros Hb. destruct (of_bitset_spec b Hb) as [Hcan Hcv]. destruct (Z.eqb_spec (bs_card b) 0) as [H0|]; [|done].
  split; [split; [apply array_new_wf|done]|]. intros v Hv.
  symmetry. apply not_true_iff_false. rewrite bitset_contains_spec by done.
  pose proof Hb as [_ Hcard]. rewrite H0 in Hcard. symmetry in Hcard. apply zlen_0_nil in Hcard. rewrite Hcard.
  apply not_elem_of_nil.
Qed.

Lemma container_flip_range_spec lo hi c :
  container_wf c → u16 lo → u16 hi →
  container_wf (container_flip_range lo hi c) ∧
  ∀ v, u16 v → container_contains (container_flip_range lo hi c) v =
    xorb (container_contains c v) ((lo <=? v) && (v <=? hi)).
Proof using.
  intros Hc Hlo Hhi. unfold container_flip_range. cbv zeta.
  set (b0 := match c with CBitset b => b | _ => _ end).
  assert (bitset_wf b0 ∧ ∀ v, u16 v → bitset_contains b0 v = container_contains c v) as [Hb0 Hv0].
  { pose proof (values_u16 c Hc : Forall u16 (to_values c)) as Hu.
    destruct (bitset_from_sorted_values_spec _ Hu) as [Hw Hv].
    assert (∀ v, u16 v → bitset_contains (bitset_from_sorted_values (to_values c)) v = container_contains c v)
      by (intros v Hv16; by rewrite (contains_to_values c), Hv).
    destruct c; [done|by destruct Hc|done]. }
  clearbody b0. destruct (bitset_flip_range_spec lo hi b0 Hb0 Hlo Hhi) as [Hw Hv].
  destruct (nonempty_bitset_spec _ Hw) as [Hcan Hcv]. split; [exact Hcan|].
  intros v Hv16. rewrite <-Hv0, <-Hv, <-Hcv by done. done.
Qed.
End operations.

(** ** Clipping *)

Definition in_range (lo hi v : Z) : bool := (lo <=? v) && (v <=? hi).

Lemma slice_partition lo hi vals :
  ascending vals → lo ≤ hi →
  slice (partition_point (λ v, v <? lo) vals) (partition_point (λ v, v <=? hi) vals) vals =
    filter (λ v, in_range lo hi v = true) vals.
Proof.
  intros Ha Hle. set (i := partition_point (λ v, v <? lo) vals). set (j := partition_point (λ v, v <=? hi) vals).
  assert (downward (λ v, v <? lo)) as Hd1 by (intros x y ? ?%Z.ltb_lt; apply Z.ltb_lt; lia).
  assert (downward (λ v, v <=? hi)) as Hd2 by (intros x y ? ?%Z.leb_le; apply Z.leb_le; lia).
  destruct (partition_point_spec _ vals Ha Hd1) as (Hi & Hlo & Hhi). fold i in Hi, Hlo, Hhi.
  rewrite Forall_forall in Hlo, Hhi.
  assert (take j vals = take i vals ++ filter (λ v, v <=? hi = true) (drop i vals)) as Htake.
  { unfold j. rewrite take_partition_point by done. rewrite <-(take_drop i vals) at 1. rewrite filter_app. f_equal.
    apply filter_all. intros x Hx%Hlo. apply Z.ltb_lt in Hx. apply Z.leb_le. lia. }
  assert (length (take i vals) = i) as Hleni by (rewrite length_take; lia).
  assert (i ≤ j)%nat as Hij.
  { assert (length (take j vals) ≤ j)%nat by (rewrite length_take; lia). rewrite Htake, length_app in *. lia. }
  unfold slice. rewrite take_drop_commute. replace (i + (j - i))%nat with j by lia.
  rewrite Htake, drop_app_length' by done. rewrite <-(take_drop i vals) at 2. rewrite filter_app.
  rewrite (filter_none _ (take i vals)).
  - cbn [app]. apply filter_ext_in. intros x Hx%Hhi. apply Z.ltb_ge in Hx. unfold in_range.
    rewrite andb_true_iff, !Z.leb_le. lia.
  - intros x Hx%Hlo. apply Z.ltb_lt in Hx. unfold in_range. rewrite andb_true_iff, !Z.leb_le. lia.
Qed.

Lemma zero_words_spec n : ∀ bits a,
  wf_bits bits → 0 ≤ a → a + Z.of_nat n ≤ 1024 →
  wf_bits (zero_words bits a n) ∧
  ∀ v, u16 v → bit_at (zero_words bits a n) v = bit_at bits v && negb ((a <=? v / 64) && (v / 64 <? a + Z.of_nat n)).
Proof.
  induction n as [|n IH]; intros bits a Hb Ha Hle; cbn [zero_words].
  { split; [done|]. intros v Hv. rewrite Z.add_0_r.
    destruct (Z.leb_spec a (v / 64)), (Z.ltb_spec (v / 64) a); (lia || by rewrite andb_true_r). }
  destruct (IH (word_update (λ _, 0) a bits) (a + 1)) as [Hw Hv]; [|lia..|].
  { by apply word_update_wf. }
  split; [done|]. intros v Hv16. pose proof (u16_word v Hv16). rewrite Hv, bit_at_word_update by done.
  destruct (Z.eqb_spec (v / 64) a) as [He|Hne].
  - rewrite Z.bits_0. cbn [andb]. symmetry. apply andb_false_iff. right. apply negb_false_iff, andb_true_iff.
    rewrite Z.leb_le, Z.ltb_lt. lia.
  - do 2 f_equal. apply eq_true_iff_eq. rewrite !andb_true_iff, !Z.leb_le, !Z.ltb_lt. lia.
Qed.

(** Masking one word keeps the positions of the other words. *)
Lemma bit_at_mask_word mask i bits v :
  wf_bits bits → u16 v → 0 ≤ i →
  bit_at (word_update (λ w, Z.land w mask) i bits) v =
    bit_at bits v && (negb (v / 64 =? i) || Z.testbit mask (v mod 64)).
Proof.
  intros Hb Hv Hi. rewrite bit_at_word_update by done. destruct (Z.eqb_spec (v / 64) i) as [<-|].
  - by rewrite Z.land_spec.
  - cbn. by rewrite andb_true_r.
Qed.

Lemma clip_bits_spec lo hi bits :
  wf_bits bits → u16 lo → u16 hi →
  wf_bits (clip_bits lo hi bits) ∧
  ∀ v, u16 v → bit_at (clip_bits lo hi bits) v = bit_at bits v && in_range lo hi v.
Proof.
  intros Hb Hlo Hhi. unfold clip_bits. cbv zeta. rewrite !word_of_div, !bit_of_mod.
  pose proof (u16_word lo Hlo) as [Hlod Hlom]. pose proof (u16_word hi Hhi) as [Hhid Hhim].
  set (b1 := if 0 <? lo then _ else bits).
  assert (wf_bits b1 ∧ ∀ v, u16 v → bit_at b1 v = bit_at bits v && (lo <=? v)) as [Hb1 Hv1].
  { unfold u16 in *. unfold b1. destruct (Z.ltb_spec 0 lo).
    - destruct (zero_words_spec (Z.to_nat (lo / 64)) bits 0 Hb) as [Hw Hv]; [lia|lia|].
      split; [apply word_update_wf; auto with minnal|]. intros v Hv16. div64 v. div64 lo.
      rewrite bit_at_mask_word, Hv, high_mask_testbit by (done || lia). rewrite <-andb_assoc. f_equal.
      apply eq_true_iff_eq.
      rewrite andb_true_iff, orb_true_iff, !negb_true_iff, andb_false_iff, Z.eqb_neq, Z.leb_gt, Z.ltb_ge, !Z.leb_le.
      rewrite Z2Nat.id by lia. lia.
    - split; [done|]. intros v Hv. rewrite (proj2 (Z.leb_le lo v)) by lia. by rewrite andb_true_r. }
  clearbody b1. unfold BITSET_WORDS.
  destruct (zero_words_spec (Z.to_nat (1024 - (hi / 64 + 1))) b1 (hi / 64 + 1) Hb1) as [Hw2 Hv2]; [lia|lia|].
  set (b2 := zero_words b1 _ _) in *. clearbody b2.
  assert (∀ v, u16 v → bit_at b2 v = bit_at bits v && (lo <=? v) && (v / 64 <=? hi / 64)) as Hv2'.
  { intros v Hv. rewrite Hv2, Hv1 by done. f_equal. rewrite Z2Nat.id by lia. apply u16_word in Hv as [Hvd _].
    apply eq_true_iff_eq. rewrite negb_true_iff, andb_false_iff, Z.leb_gt, Z.ltb_ge, Z.leb_le. lia. }
  destruct (Z.ltb_spec (hi mod 64) 63).
  - split; [apply word_update_wf; auto with minnal|]. intros v Hv. pose proof (u16_word v Hv) as [_ Hvm].
    pose proof (low_mask_testbit (hi mod 64) (v mod 64) ltac:(lia) Hvm) as Hm.
    unfold low_mask in Hm. rewrite (proj2 (Z.eqb_neq _ _)) in Hm by lia.
    rewrite bit_at_mask_word, Hm, Hv2' by (done || lia). unfold in_range, u16 in *. div64 v. div64 hi.
    rewrite <-!andb_assoc. do 2 f_equal. apply eq_true_iff_eq.
    rewrite andb_true_iff, orb_true_iff, negb_true_iff, Z.eqb_neq, !Z.leb_le. lia.
  - split; [done|]. intros v Hv. rewrite Hv2' by done. unfold in_range, u16 in *. div64 v. div64 hi.
    rewrite <-!andb_assoc. do 2 f_equal. apply eq_true_iff_eq. rewrite !Z.leb_le. lia.
Qed.

Lemma omap_cons_eq {A B} (f : A → option B) x l :
  omap f (x :: l) = match f x with Some y => y :: omap f l | None => omap f l end.
Proof. done. Qed.

Lemma clip_runs_spec lo hi rs : ∀ base,
  runs_in base rs 65536 → u16 lo → u16 hi →
  runs_in base (omap (clip_run lo hi) rs) 65536 ∧
  ∀ v, v ∈ runs_values (omap (clip_run lo hi) rs) ↔ v ∈ runs_values rs ∧ lo ≤ v ≤ hi.
Proof.
  induction rs as [|r rs IH]; intros base H Hlo Hhi; unfold u16 in *.
  { split; [done|]. intros v. cbn. rewrite elem_of_nil. tauto. }
  pose proof (runs_in_head _ _ _ _ H) as (? & ? & He & ? & ?). pose proof (runs_in_tail _ _ _ _ H) as Ht.
  destruct (IH _ Ht Hlo Hhi) as [Hw Hv]. rewrite omap_cons_eq.
  assert (clip_run lo hi r = if Z.max (start r) lo <=? Z.min (run_end r) hi then
    Some (mk_run (Z.max (start r) lo) (u16_sub (Z.min (run_end r) hi) (Z.max (start r) lo))) else None) as -> by done.
  pose proof (λ v, elem_of_runs_cons _ _ _ _ v H) as Hcons. unfold run_has in Hcons.
  destruct (Z.leb_spec (Z.max (start r) lo) (Z.min (run_end r) hi)).
  - rewrite u16_sub_small by lia.
    assert (runs_in base (mk_run (Z.max (start r) lo) (Z.min (run_end r) hi - Z.max (start r) lo) :: omap (clip_run lo hi) rs) 65536) as Hw'.
    { cbn. split_and!; [lia..|]. eapply runs_in_weaken; [done|lia..]. }
    split; [done|]. intros v. rewrite (elem_of_runs_cons _ _ _ _ _ Hw'), Hv, Hcons. unfold run_has. cbn [start length_].
    destruct (decide (v ∈ runs_values rs)) as [Hin|Hin].
    + pose proof (runs_values_bounds _ _ _ _ Ht Hin). assert (v ∈ runs_values rs ↔ True) as -> by tauto. clear Hin. lia.
    + assert (v ∈ runs_values rs ↔ False) as -> by tauto. clear Hin. lia.
  - split; [eapply runs_in_weaken; [done|lia..]|]. intros v. rewrite Hv, Hcons. split; [tauto|].
    intros [[?|?] ?]; [lia|done].
Qed.

Section clip.
Context `{Cpu} (lo hi : Z) (Hlo : u16 lo) (Hhi : u16 hi) (Hle : lo ≤ hi).

Lemma clip_to_range_spec c :
  container_wf c →
  container_wf (clip_to_range lo hi c) ∧
  ∀ v, u16 v → container_contains (clip_to_range lo hi c) v = container_contains c v && in_range lo hi v.
Proof using Hlo Hhi Hle.
  intros Hc. unfold clip_to_range. destruct (Z.eqb_spec lo 0) as [Hl0|]; cbn [andb];
    [destruct (Z.eqb_spec hi U16_MAX) as [Hmax|]|].
  1:{ split; [done|]. intros v Hv. unfold in_range, u16, U16_MAX in *.
      rewrite !(proj2 (Z.leb_le _ _)) by lia. by rewrite andb_true_r. }
  all: destruct c as [a|b|r]; cbv zeta.
  1,4: destruct Hc as [Ha Hlen]; rewrite slice_partition by (done || apply Ha);
    destruct (filtered_array a Ha (in_range lo hi)) as [Hw Hv]; split; [split; [done|]|done];
    cbn; pose proof (length_filter (λ v, in_range lo hi v = true) (values a)); unfold zlen in *; lia.
  1,3: destruct Hc as [[Hb _] _]; destruct (clip_bits_spec lo hi _ Hb Hlo Hhi) as [Hw Hv];
    destruct (nonempty_bitset_spec _ (recount_wf _ (bs_card b) Hw)) as [Hcan Hcv];
    split; [exact Hcan|]; intros v Hv16; etrans; [exact (Hcv v Hv16)|];
    cbn [container_contains]; rewrite !bitset_contains_bit_at by done; by apply Hv.
  all: destruct Hc as [Hr _]; destruct (clip_runs_spec lo hi _ _ Hr Hlo Hhi) as [Hw Hv];
    assert (∀ v, u16 v → runs_contains (from_runs (omap (clip_run lo hi) (runs r))) v =
      runs_contains r v && in_range lo hi v) as Hmem by
      (intros v Hv16; unfold runs_contains; cbn [runs from_runs]; apply eq_true_iff_eq;
       unfold in_range; rewrite !andb_true_iff, !Z.leb_le, !(runs_contains_spec 0 _ 65536) by done; by rewrite Hv);
    destruct (omap (clip_run lo hi) (runs r)) as [|r' rs]; [|done];
    split; [split; [apply array_new_wf|done]|]; intros v Hv16; cbn [container_contains]; by rewrite <-Hmem.
Qed.
End clip.

(** ** The nine combinations *)

Section set_operations.
Context `{Cpu}.

(** An array cut from a canonical array is canonical. *)
Lemma smaller_array_wf a a' :
  container_wf (CArray a) → array_wf a' → (∀ v, v ∈ values a' → v ∈ values a) → container_wf (CArray a').
Proof using.
  intros [_ Hlen] Ha' Hsub. split; [done|]. eapply Z.le_lt_trans; [|exact Hlen].
  apply zlen_subset; [apply Ha'|done].
Qed.

Lemma filtered_array_canonical a (f : Z → bool) :
  container_wf (CArray a) →
  let c := CArray (array_from_sorted (filter (λ v, f v = true) (values a))) in
  container_wf c ∧ ∀ v, u16 v → container_contains c v = array_contains a v && f v.
Proof using.
  intros Hc. pose proof Hc as [Ha _]. destruct (filtered_array a Ha f) as [Hw Hv].
  split; [|done]. eapply smaller_array_wf; [done..|]. intros v. cbn. rewrite list_elem_of_filter. tauto.
Qed.

(** A bitset that contains a canonical one is canonical. *)
Lemma larger_bitset_wf b b' :
  container_wf (CBitset b) → bitset_wf b' →
  (∀ v, u16 v → bitset_contains b v = true → bitset_contains b' v = true) → container_wf (CBitset b').
Proof using.
  intros [Hb Hlen] Hb' Hsub. split; [done|]. etrans; [exact Hlen|]. by apply bitset_mono.
Qed.

Lemma of_values_from vs (f : Z → bool) :
  ascending vs ∧ Forall u16 vs ∧ (∀ v, u16 v → bool_decide (v ∈ vs) = f v) →
  container_wf (of_values vs) ∧ ∀ v, u16 v → container_contains (of_values vs) v = f v.
Proof using.
  intros (Ha & Hu & Hf). destruct (of_values_spec vs Ha Hu) as [Hw Hv]. split; [done|].
  intros v Hv16. by rewrite Hv, Hf.
Qed.

Lemma of_bitset_from b (f : Z → bool) :
  bitset_wf b ∧ (∀ v, u16 v → bitset_contains b v = f v) →
  container_wf (of_bitset b) ∧ ∀ v, u16 v → container_contains (of_bitset b) v = f v.
Proof using.
  intros [Hb Hf]. destruct (of_bitset_spec b Hb) as [Hw Hv]. split; [done|]. intros v Hv16. by rewrite Hv, Hf.
Qed.

(** Results that agree with [f] up to a pointwise equality. *)
Lemma contains_ext c (f g : Z → bool) :
  container_wf c ∧ (∀ v, u16 v → container_contains c v = f v) → (∀ v, f v = g v) →
  container_wf c ∧ ∀ v, u16 v → container_contains c v = g v.
Proof using. intros [Hw Hf] Hfg. split; [done|]. intros v Hv. by rewrite Hf, Hfg. Qed.

Ltac member_bool :=
  intros v Hv16; cbn [container_contains]; apply eq_true_iff_eq;
  rewrite ?andb_true_iff, ?orb_true_iff, ?negb_true_iff, <-?not_true_iff_false,
    ?array_contains_spec, ?runs_contains_values by done.

Lemma container_and_spec c d :
  container_wf c → container_wf d →
  container_wf (container_and c d) ∧
  ∀ v, u16 v → container_contains (container_and c d) v = container_contains c v && container_contains d v.
Proof using.
  intros Hc Hd. destruct c as [a|b|r], d as [a'|b'|r']; cbn [container_and].
  - pose proof Hc as [Ha _]. pose proof Hd as [Ha' _]. destruct (array_and_spec a a' Ha Ha') as [Hw Hv].
    split; [|member_bool; by rewrite Hv]. eapply (smaller_array_wf a); [done..|]. intros v. rewrite Hv. tauto.
  - by apply filtered_array_canonical.
  - by apply filtered_array_canonical.
  - eapply contains_ext; [by apply filtered_array_canonical|]. intros v. apply andb_comm.
  - destruct Hc as [Hb _], Hd as [Hb' _]. by apply of_bitset_from, bitset_and_spec.
  - destruct Hc as [Hb _]. by apply of_bitset_from, bitset_and_run_spec.
  - eapply contains_ext; [by apply filtered_array_canonical|]. intros v. apply andb_comm.
  - destruct Hd as [Hb' _]. eapply contains_ext; [by apply of_bitset_from, bitset_and_run_spec|].
    intros v. apply andb_comm.
  - destruct (runs_and_spec r r' Hc Hd) as [Hw Hv]. split; [done|]. member_bool. by rewrite Hv.
Qed.

Lemma array_or_canonical a a' :
  container_wf (CArray a) → container_wf (CArray a') →
  let c := container_or (CArray a) (CArray a') in
  container_wf c ∧ ∀ v, u16 v → container_contains c v = array_contains a v || array_contains a' v.
Proof using.
  intros [Ha _] [Ha' _]. destruct (array_or_spec a a' Ha Ha') as [Hw Hv].
  cbn [container_or]. cbv zeta. change (array_should_promote (array_or a a')) with
    (ARRAY_TO_BITSET_THRESHOLD <=? zlen (values (array_or a a'))).
  destruct (of_values_from (values (array_or a a')) (λ v, array_contains a v || array_contains a' v)) as [Hcan Hcv].
  { split_and!; [apply Hw|apply Hw|]. intros v _. apply eq_true_iff_eq.
    by rewrite bool_decide_eq_true, Hv, orb_true_iff, !array_contains_spec. }
  unfold of_values in Hcan, Hcv. by case_match.
Qed.

Lemma array_or_bitset_canonical a b :
  container_wf (CArray a) → container_wf (CBitset b) →
  let c := CBitset (array_or_bitset a b) in
  container_wf c ∧ ∀ v, u16 v → container_contains c v = array_contains a v || bitset_contains b v.
Proof using.
  intros [Ha _] Hb. pose proof Hb as [Hb' _]. destruct (array_or_bitset_spec a b Ha Hb') as [Hw Hv].
  split; [|done]. eapply larger_bitset_wf; [done..|]. intros v Hv16 Hin. rewrite Hv, Hin by done. apply orb_true_r.
Qed.

Lemma bitset_or_run_canonical b r :
  container_wf (CBitset b) → container_wf (CRun r) →
  let c := CBitset (bitset_or_run b r) in
  container_wf c ∧ ∀ v, u16 v → container_contains c v = bitset_contains b v || runs_contains r v.
Proof using.
  intros Hb Hr. pose proof Hb as [Hb' _]. destruct (bitset_or_run_spec b r Hb' Hr) as [Hw Hv].
  split; [|done]. eapply larger_bitset_wf; [done..|]. intros v Hv16 Hin. by rewrite Hv, Hin.
Qed.

Lemma container_or_spec c d :
  container_wf c → container_wf d →
  container_wf (container_or c d) ∧
  ∀ v, u16 v → container_contains (container_or c d) v = container_contains c v || container_contains d v.
Proof using.
  intros Hc Hd. destruct c as [a|b|r], d as [a'|b'|r'].
  - by apply array_or_canonical.
  - by apply array_or_bitset_canonical.
  - destruct Hc as [Ha _]. by apply of_values_from, array_or_run_values_spec.
  - eapply contains_ext; [by apply array_or_bitset_canonical|]. intros v. apply orb_comm.
  - pose proof Hc as [Hb _]. destruct Hd as [Hb' _]. destruct (bitset_or_spec b b' Hb Hb') as [Hw Hv].
    split; [|done]. eapply larger_bitset_wf; [exact Hc|done|]. intros v Hv16 Hin. by rewrite Hv, Hin.
  - by apply bitset_or_run_canonical.
  - destruct Hd as [Ha' _]. eapply contains_ext; [by apply of_values_from, array_or_run_values_spec|].
    intros v. apply orb_comm.
  - eapply contains_ext; [by apply bitset_or_run_canonical|]. intros v. apply orb_comm.
  - cbn [container_or]. destruct (runs_or_spec r r' Hc Hd) as [Hw Hv]. split; [done|]. member_bool. by rewrite Hv.
Qed.

(** Two run containers that both end at 65535: the one case where the difference
    keeps a value of the subtrahend. *)
Definition both_runs (c d : Container) : bool :=
  match c, d with CRun _, CRun _ => true | _, _ => false end.

Lemma exact_difference c (f g : Z → bool) :
  container_wf c ∧ (∀ v, u16 v → container_contains c v = f v && negb (g v)) →
  container_wf c ∧ ∀ v, u16 v → container_contains c v = f v && (negb (g v) || false).
Proof using.
  intros H0. apply (contains_ext _ (λ v, f v && negb (g v))); [exact H0|]. intros v. by rewrite orb_false_r.
Qed.

Lemma container_and_not_spec c d :
  container_wf c → container_wf d →
  container_wf (container_and_not c d) ∧
  ∀ v, u16 v → container_contains (container_and_not c d) v =
    container_contains c v && (negb (container_contains d v) || (both_runs c d && (v =? U16_MAX))).
Proof using.
  intros Hc Hd. destruct c as [a|b|r], d as [a'|b'|r']; cbn [container_and_not both_runs andb];
    try apply exact_difference.
  - pose proof Hc as [Ha _]. pose proof Hd as [Ha' _]. destruct (array_and_not_spec a a' Ha Ha') as [Hw Hv].
    split; [|member_bool; by rewrite Hv]. eapply (smaller_array_wf a); [done..|]. intros v. rewrite Hv. tauto.
  - by apply (filtered_array_canonical a (λ v, negb (bitset_contains b' v))).
  - by apply (filtered_array_canonical a (λ v, negb (runs_contains r' v))).
  - destruct Hc as [Hb _], Hd as [Ha' _]. by apply of_bitset_from, bitset_andnot_array_spec.
  - destruct Hc as [Hb _], Hd as [Hb' _]. by apply of_bitset_from, bitset_and_not_spec.
  - destruct Hc as [Hb _]. by apply of_bitset_from, bitset_andnot_run_spec.
  - by apply of_values_from, (filtered_runs r Hc (λ v, negb (array_contains a' v))).
  - by apply of_values_from, (filtered_runs r Hc (λ v, negb (bitset_contains b' v))).
  - destruct (runs_and_not_spec r r' Hc Hd) as [Hw Hv].
    assert (∀ v, u16 v → runs_contains (runs_and_not r r') v =
      runs_contains r v && (negb (runs_contains r' v) || (v =? U16_MAX))) as Hmem.
    { member_bool. rewrite Hv, Z.eqb_eq. tauto. }
    cbv zeta. destruct (negb _); [|done]. eapply contains_ext; [apply of_values_from|reflexivity].
    pose proof (values_ascending _ Hw) as Hasc. pose proof (values_u16 _ Hw) as H16. cbn in Hasc, H16.
    split_and!; [done..|]. intros v Hv16. by rewrite <-runs_contains_decide, Hmem.
Qed.
End set_operations.

(** ** The reads, by name *)

Section reads_by_name.
Context `{Cpu}.

Lemma to_values_ascending c : container_wf c → ascending (to_values c).
Proof using. exact (values_ascending c). Qed.
Lemma elem_of_to_values c v : container_wf c → (v ∈ to_values c ↔ u16 v ∧ container_contains c v = true).
Proof using. exact (elem_of_values c v). Qed.
Lemma to_values_u16 c : container_wf c → Forall u16 (to_values c).
Proof using. exact (values_u16 c). Qed.
Lemma to_values_card c : container_wf c → container_cardinality c = zlen (to_values c).
Proof using. exact (card_values c). Qed.

Lemma to_values_rank c v : container_wf c → u16 v → container_rank c v = count_le v (to_values c).
Proof using. exact (rank_values c v). Qed.
Lemma to_values_select c r : container_wf c → 0 ≤ r → container_select c r = to_values c !! Z.to_nat r.
Proof using. exact (select_values c r). Qed.
Lemma to_values_min c : container_wf c → container_min c = head (to_values c).
Proof using. exact (min_values c). Qed.
Lemma to_values_max c : container_wf c → container_max c = last (to_values c).
Proof using. exact (max_values c). Qed.
End reads_by_name.

(** ** Properties *)

(** The state a container holds is the one its layout promises, so every read can be
    stated on [to_values], the ascending list of its members. *)

(** Inserting into any container keeps it canonical (an array below 4096 values
    becomes a bitset at 4096, a run container stays one), answers whether the value
    was absent, and adds exactly that value. *)
Theorem container_insert_correct `{Cpu} (c : Container) (v : Z) :
  container_wf c → u16 v →
  container_wf (container_insert v c).1 ∧
  (container_insert v c).2 = negb (container_contains c v) ∧
  ∀ w, w ∈ to_values (container_insert v c).1 ↔ w = v ∨ w ∈ to_values c.
Proof.
  intros Hc Hv. destruct (container_insert_spec c v Hc Hv) as (Hw & Hr & Hm). split_and!; [done..|].
  intros w. rewrite !elem_of_to_values by done. split.
  - intros [Hw16 Hin]. rewrite Hm in Hin by done. apply orb_true_iff in Hin as [->%Z.eqb_eq|]; auto.
  - intros [->|[Hw16 Hin]]; (split; [done|]); rewrite Hm by done; apply orb_true_iff; [left|by right].
    apply Z.eqb_refl.
Qed.

Definition full_array : Container := CArray (mk_array (seqZ 0 4095)).
Lemma full_array_wf : container_wf full_array.
Proof.
  split; [split; [apply seqZ_ascending|]|by vm_compute].
  apply Forall_forall. intros v Hv%elem_of_seqZ. unfold u16. lia.
Qed.

Lemma container_insert_correct_witness :
  container_wf (container_insert 9000 full_array).1 ∧
  (container_insert 9000 full_array).2 = negb (container_contains full_array 9000) ∧
  ∀ w, w ∈ @to_values scalar_cpu (container_insert 9000 full_array).1 ↔ w = 9000 ∨ w ∈ @to_values scalar_cpu full_array.
Proof. apply (@container_insert_correct scalar_cpu); [apply full_array_wf|unfold u16; lia]. Defined.

(** Removing from any container keeps it canonical (a bitset that falls below
    4096 values becomes an array), answers whether the value was there, and removes
    exactly it. *)
Theorem container_remove_correct `{Cpu} (c : Container) (v : Z) :
  container_wf c → u16 v →
  container_wf (container_remove v c).1 ∧
  (container_remove v c).2 = container_contains c v ∧
  to_values (container_remove v c).1 = filter (λ w, w ≠ v) (to_values c).
Proof.
  intros Hc Hv. destruct (container_remove_spec c v Hc Hv) as (Hw & Hr & Hm). split_and!; [done..|].
  apply ascending_ext; [by apply to_values_ascending|by apply ascending_filter, to_values_ascending|].
  intros w. rewrite list_elem_of_filter, !elem_of_to_values by done. split.
  - intros [Hw16 Hin]. rewrite Hm, andb_true_iff, negb_true_iff, Z.eqb_neq in Hin by done. tauto.
  - intros (Hne & Hw16 & Hin). split; [done|]. rewrite Hm, andb_true_iff, negb_true_iff, Z.eqb_neq by done. done.
Qed.

Lemma container_remove_correct_witness :
  container_wf (@container_remove scalar_cpu 7 full_array).1 ∧
  (@container_remove scalar_cpu 7 full_array).2 = container_contains full_array 7 ∧
  @to_values scalar_cpu (@container_remove scalar_cpu 7 full_array).1 = filter (λ w, w ≠ 7) (@to_values scalar_cpu full_array).
Proof. apply (@container_remove_correct scalar_cpu); [apply full_array_wf|unfold u16; lia]. Defined.

(** The layout never shows: two canonical containers with the same members, an
    array, a bitset or a run list each, give the same values, cardinality, minimum,
    maximum, rank and select; in particular a container and its optimized form do. *)
Theorem container_reads_agree `{Cpu} (c d : Container) :
  container_wf c → container_wf d →
  (∀ v, u16 v → container_contains c v = container_contains d v) →
  to_values c = to_values d ∧ container_cardinality c = container_cardinality d ∧
  container_min c = container_min d ∧ container_max c = container_max d ∧
  (∀ v, u16 v → container_rank c v = container_rank d v) ∧
  (∀ r, 0 ≤ r → container_select c r = container_select d r) ∧
  to_values (optimize c) = to_values d.
Proof.
  intros Hc Hd Hag. pose proof (agree_values c d Hc Hd Hag : to_values c = to_values d) as Hv.
  destruct (optimize_spec c Hc) as [Ho Hm].
  split_and!; [done|exact (agree_card c d Hc Hd Hag)| | | | |].
  - by rewrite !to_values_min, Hv.
  - by rewrite !to_values_max, Hv.
  - intros v Hv16. exact (agree_rank c d Hc Hd Hag v Hv16).
  - intros r Hr. exact (agree_select c d Hc Hd Hag r Hr).
  - assert (∀ v, u16 v → container_contains (optimize c) v = container_contains d v) as Hag'
      by (intros v Hv16; by rewrite Hm, Hag).
    exact (agree_values (optimize c) d Ho Hd Hag').
Qed.

Lemma container_reads_agree_witness :
  let c := CArray (mk_array [3; 4; 5]) in let d := CRun (from_runs [mk_run 3 2]) in
  @to_values scalar_cpu c = @to_values scalar_cpu d ∧ container_cardinality c = container_cardinality d ∧
  container_min c = container_min d ∧ container_max c = container_max d ∧
  (∀ v, u16 v → @container_rank scalar_cpu c v = @container_rank scalar_cpu d v) ∧
  (∀ r, 0 ≤ r → container_select c r = container_select d r) ∧
  @to_values scalar_cpu (@optimize scalar_cpu c) = @to_values scalar_cpu d.
Proof.
  cbv zeta. assert (container_wf (CArray (mk_array [3; 4; 5]))) as Hc.
  { split; [split; [repeat first [constructor | lia]|repeat constructor; lia]|done]. }
  assert (container_wf (CRun (from_runs [mk_run 3 2]))) as Hd by (split; [cbn; lia|done]).
  apply (@container_reads_agree scalar_cpu); [exact Hc|exact Hd|].
  intros v Hv. apply eq_true_iff_eq.
  rewrite !(@contains_to_values scalar_cpu), !bool_decide_eq_true by done. reflexivity.
Defined.

(** Flipping [lo, hi] toggles exactly the values of that range, clipping to it
    keeps exactly the members inside it, and both results are canonical. *)
Theorem container_range_correct `{Cpu} (c : Container) (lo hi : Z) :
  container_wf c → u16 lo → u16 hi → lo ≤ hi →
  container_wf (container_flip_range lo hi c) ∧ container_wf (clip_to_range lo hi c) ∧
  to_values (clip_to_range lo hi c) = filter (λ v, lo ≤ v ≤ hi) (to_values c) ∧
  (∀ v, u16 v → container_contains (container_flip_range lo hi c) v =
    xorb (container_contains c v) ((lo <=? v) && (v <=? hi))) ∧
  to_values (container_flip_range lo hi (container_flip_range lo hi c)) = to_values c.
Proof.
  intros Hc Hlo Hhi Hle. destruct (clip_to_range_spec lo hi Hlo Hhi Hle c Hc) as [Hcw Hcm].
  destruct (container_flip_range_spec lo hi c Hc Hlo Hhi) as [Hfw Hfm].
  destruct (container_flip_range_spec lo hi _ Hfw Hlo Hhi) as [Hffw Hffm].
  split_and!; [done..| |done|].
  - apply ascending_ext; [by apply to_values_ascending|by apply ascending_filter, to_values_ascending|].
    intros v. rewrite list_elem_of_filter, !elem_of_to_values by done. split.
    + intros [Hv Hin]. rewrite Hcm in Hin by done. unfold in_range in Hin.
      rewrite !andb_true_iff, !Z.leb_le in Hin. tauto.
    + intros ([? ?] & Hv & Hin). split; [done|]. rewrite Hcm, Hin by done. unfold in_range.
      by rewrite !(proj2 (Z.leb_le _ _)).
  - apply ascending_ext; [by apply to_values_ascending..|]. intros v. rewrite !elem_of_to_values by done.
    split; intros [Hv Hin]; (split; [done|]); rewrite <-Hin; [symmetry|]; rewrite Hffm, Hfm by done;
      by destruct (container_contains c v), (lo <=? v), (v <=? hi).
Qed.

Definition run_container : Container := CRun (from_runs [mk_run 10 20; mk_run 65530 5]).
Lemma run_container_wf : container_wf run_container.
Proof. split; [cbn; lia|done]. Qed.

Lemma container_range_correct_witness :
  container_wf (@container_flip_range scalar_cpu 5 12 run_container) ∧
  container_wf (@clip_to_range scalar_cpu 5 12 run_container) ∧
  @to_values scalar_cpu (@clip_to_range scalar_cpu 5 12 run_container) =
    filter (λ v, 5 ≤ v ≤ 12) (@to_values scalar_cpu run_container) ∧
  (∀ v, u16 v → container_contains (@container_flip_range scalar_cpu 5 12 run_container) v =
    xorb (container_contains run_container v) ((5 <=? v) && (v <=? 12))) ∧
  @to_values scalar_cpu (@container_flip_range scalar_cpu 5 12 (@container_flip_range scalar_cpu 5 12 run_container)) =
    @to_values scalar_cpu run_container.
Proof. apply (@container_range_correct scalar_cpu); [apply run_container_wf|unfold u16; lia..]. Defined.

(** For every pair of layouts the intersection and the union of two containers
    have exactly the members of the set operation and are canonical. *)
Theorem container_and_or_correct `{Cpu} (c d : Container) :
  container_wf c → container_wf d →
  container_wf (container_and c d) ∧ container_wf (container_or c d) ∧
  to_values (container_and c d) = filter (.∈ to_values d) (to_values c) ∧
  ∀ v, v ∈ to_values (container_or c d) ↔ v ∈ to_values c ∨ v ∈ to_values d.
Proof.
  intros Hc Hd. destruct (container_and_spec c d Hc Hd) as [Haw Ham], (container_or_spec c d Hc Hd) as [How Hom].
  split_and!; [done..| |].
  - apply ascending_ext; [by apply to_values_ascending|by apply ascending_filter, to_values_ascending|].
    intros v. rewrite list_elem_of_filter, !elem_of_to_values by done. split.
    + intros [Hv Hin]. rewrite Ham, andb_true_iff in Hin by done. tauto.
    + intros ([_ Hin] & Hv & Hin'). split; [done|]. by rewrite Ham, Hin, Hin'.
  - intros v. rewrite !elem_of_to_values by done. split.
    + intros [Hv Hin]. rewrite Hom, orb_true_iff in Hin by done. tauto.
    + intros [[Hv Hin]|[Hv Hin]]; (split; [done|]); rewrite Hom, Hin by done; [done|apply orb_true_r].
Qed.

Lemma container_and_or_correct_witness :
  container_wf (@container_and scalar_cpu full_array run_container) ∧
  container_wf (@container_or scalar_cpu full_array run_container) ∧
  @to_values scalar_cpu (@container_and scalar_cpu full_array run_container) =
    filter (.∈ @to_values scalar_cpu run_container) (@to_values scalar_cpu full_array) ∧
  ∀ v, v ∈ @to_values scalar_cpu (@container_or scalar_cpu full_array run_container) ↔
    v ∈ @to_values scalar_cpu full_array ∨ v ∈ @to_values scalar_cpu run_container.
Proof. apply (@container_and_or_correct scalar_cpu); [apply full_array_wf|apply run_container_wf]. Defined.

(** The difference of two containers has exactly the members of the first that
    the second lacks, unless both are run containers: then it also keeps 65535 when
    both hold it. *)
Theorem container_and_not_correct `{Cpu} (c d : Container) :
  container_wf c → container_wf d →
  container_wf (container_and_not c d) ∧
  to_values (container_and_not c d) =
    filter (λ v, v ∉ to_values d ∨ (both_runs c d = true ∧ v = U16_MAX)) (to_values c).
Proof.
  intros Hc Hd. destruct (container_and_not_spec c d Hc Hd) as [Hw Hm]. split; [done|].
  apply ascending_ext; [by apply to_values_ascending|by apply ascending_filter, to_values_ascending|].
  intros v. rewrite list_elem_of_filter, !elem_of_to_values by done. split.
  - intros [Hv Hin]. rewrite Hm, andb_true_iff, orb_true_iff, andb_true_iff, negb_true_iff, Z.eqb_eq in Hin by done.
    destruct Hin as [Hin [Hno|?]]; (split; [|done]); [left|by right]. intros [_ Hyes]. by rewrite Hno in Hyes.
  - intros (Hor & Hv & Hin). split; [done|]. rewrite Hm, andb_true_iff, orb_true_iff, andb_true_iff, negb_true_iff, Z.eqb_eq by done.
    split; [done|]. destruct Hor as [Hno|?]; [left|by right]. apply not_true_is_false. tauto.
Qed.

Lemma container_and_not_correct_witness :
  container_wf (@container_and_not scalar_cpu full_array run_container) ∧
  @to_values scalar_cpu (@container_and_not scalar_cpu full_array run_container) =
    filter (λ v, v ∉ @to_values scalar_cpu run_container ∨ (both_runs full_array run_container = true ∧ v = U16_MAX))
      (@to_values scalar_cpu full_array).
Proof. apply (@container_and_not_correct scalar_cpu); [apply full_array_wf|apply run_container_wf]. Defined.

