(* ===== verification/ContainerStore.v ===== *)
(** * ContainerStore: the map from high keys to containers

    [src/minnal_db/src/index/container_store.rs].  [Store] is what a bitmap needs
    from its store: a map from high keys to containers with an ordered reading, an
    in-place [modify] and a cached total cardinality.  [HeapStore], the backing of
    transient bitmaps, discharges it; the bitmap's theorems use the interface only. *)
From S2P Require Import Prelude Slices U16Set ArrayMerge Words Container.
From S2P Require Import ArrayContainer RunContainer BitsetContainer.

(** ** Ordered reading of a map *)

Definition entry_le (p q : Z * Container) : Prop := p.1 ≤ q.1.
#[global] Instance entry_le_dec p q : Decision (entry_le p q).
Proof. unfold entry_le. apply _. Defined.
#[global] Instance entry_le_total : Total entry_le.
Proof. intros p q. unfold entry_le. lia. Qed.
#[global] Instance entry_le_trans : Transitive entry_le.
Proof. intros p q r. unfold entry_le. lia. Qed.

(** Iterating a [BTreeMap]: its entries by ascending key. *)
Definition entries_of (m : gmap Z Container) : list (Z * Container) := merge_sort entry_le (map_to_list m).

(** The sum of a measure over the containers of a map. *)
Definition total_of (g : Container → Z) (m : gmap Z Container) : Z := zsum (g <$> (map_to_list m).*2).
Definition total_cardinality (m : gmap Z Container) : Z := total_of container_cardinality m.

Lemma elem_of_entries_of m k c : (k, c) ∈ entries_of m ↔ m !! k = Some c.
Proof. unfold entries_of. by rewrite merge_sort_Permutation, elem_of_map_to_list. Qed.

Lemma keys_ascending l : StronglySorted entry_le l → NoDup l.*1 → ascending l.*1.
Proof.
  induction 1 as [|[k c] l Hl IH Hk]; [constructor|]. rewrite fmap_cons, NoDup_cons. intros [Hnot Hnd].
  apply ascending_cons. split; [|by apply IH]. apply Forall_fmap. rewrite Forall_forall in Hk |- *.
  intros [k' c'] Hin. specialize (Hk _ Hin). unfold entry_le in Hk. cbn in *.
  assert (k ≠ k') by (intros ->; apply Hnot; apply list_elem_of_fmap; by exists (k', c')). lia.
Qed.

Lemma entries_of_ascending m : ascending (entries_of m).*1.
Proof.
  apply keys_ascending; [apply StronglySorted_merge_sort; apply _|].
  unfold entries_of. rewrite merge_sort_Permutation. apply NoDup_fst_map_to_list.
Qed.

Lemma zsum_permutation l k : l ≡ₚ k → zsum l = zsum k.
Proof. unfold zsum. induction 1; cbn; lia. Qed.

Lemma total_of_entries g m : total_of g m = zsum (g <$> (entries_of m).*2).
Proof. apply zsum_permutation. unfold entries_of. by rewrite merge_sort_Permutation. Qed.

Lemma total_of_insert_new g m k c : m !! k = None → total_of g (<[k := c]> m) = g c + total_of g m.
Proof.
  intros Hk. unfold total_of.
  rewrite (zsum_permutation _ (g <$> ((k, c) :: map_to_list m).*2)); [done|].
  by rewrite map_to_list_insert.
Qed.

Lemma total_of_delete g m k c : m !! k = Some c → total_of g (delete k m) = total_of g m - g c.
Proof.
  intros Hk. pose proof (total_of_insert_new g (delete k m) k c) as H.
  rewrite insert_delete_id in H by done. rewrite H by (apply lookup_delete_eq). lia.
Qed.

Lemma total_of_insert_old g m k c c' :
  m !! k = Some c' → total_of g (<[k := c]> m) = total_of g m - g c' + g c.
Proof.
  intros Hk. rewrite <-insert_delete_eq, total_of_insert_new by apply lookup_delete_eq.
  rewrite (total_of_delete _ _ _ c') by done. lia.
Qed.

(** ** The interface *)

(** What [modify] does to the map: run [f] on the entry (a new empty container when
    the key is absent and [create] is set) and drop an entry that ends up empty. *)
Definition modify_map (k : Z) (create : bool) (f : Container → Container * bool) (m : gmap Z Container) :
    gmap Z Container * bool :=
  match m !! k, create with
  | None, false => (m, false)
  | o, _ =>
      let '(c, changed) := f (default new_array o) in
      (if changed then if container_is_empty c then delete k m else <[k := c]> m else m, changed)
  end.

(** [f] reports every change it makes. *)
Definition honest (f : Container → Container * bool) : Prop := ∀ c, (f c).2 = false → (f c).1 = c.

(** The container operations the bitmap passes to [modify] are. *)
Lemma honest_insert low : honest (container_insert low).
Proof.
  intros [a|b|r]; cbn [container_insert].
  - unfold array_insert. destruct (binary_search low (values a)); cbn; [by destruct a|]. by case_match.
  - unfold bitset_insert. destruct (word_and_bit low) as [w bit]. by destruct (_ =? 0).
  - unfold runs_insert. by destruct (find_run low (runs r)).
Qed.

Lemma honest_remove `{Cpu} low : honest (container_remove low).
Proof.
  intros [a|b|r]; cbn [container_remove].
  - unfold array_remove. by destruct (binary_search low (values a)).
  - unfold bitset_remove. destruct (word_and_bit low) as [w bit]. destruct (negb _); cbn; [|done]. by case_match.
  - unfold runs_remove. by destruct (find_run low (runs r)).
Qed.

Class Store (S : Type) := {
  store_entries : S → gmap Z Container;
  store_wf : S → Prop;
  store_get : S → Z → option Container;
  store_sorted_entries : S → list (Z * Container);
  store_cardinality : S → Z;
  store_upsert : Z → Container → S → S * bool;
  store_modify : Z → bool → (Container → Container * bool) → S → S * bool;
  store_clear : S → S;
}.

Class StoreLaws (S : Type) `{Store S} := {
  store_get_spec (s : S) (k : Z) : store_wf s → store_get s k = store_entries s !! k;
  store_sorted_entries_spec (s : S) : store_wf s → store_sorted_entries s = entries_of (store_entries s);
  store_cardinality_spec (s : S) : store_wf s → store_cardinality s = total_cardinality (store_entries s);
  store_upsert_spec (s : S) (k : Z) (c : Container) : store_wf s →
    store_wf (store_upsert k c s).1 ∧ store_entries (store_upsert k c s).1 = <[k := c]> (store_entries s) ∧
    (store_upsert k c s).2 = bool_decide (store_entries s !! k = None);
  store_modify_spec (s : S) (k : Z) (create : bool) (f : Container → Container * bool) : store_wf s → honest f →
    store_wf (store_modify k create f s).1 ∧
    (store_entries (store_modify k create f s).1, (store_modify k create f s).2) =
      modify_map k create f (store_entries s);
  store_clear_spec (s : S) : store_wf s → store_wf (store_clear s) ∧ store_entries (store_clear s) = ∅;
}.

Definition store_sorted_keys {S} `{Store S} (s : S) : list Z := (store_sorted_entries s).*1.
Definition store_key_cards {S} `{Store S} (s : S) : list (Z * Z) :=
  (λ p, (p.1, container_cardinality p.2)) <$> store_sorted_entries s.

(** ** The heap backing *)

(** Heap bytes one stored container accounts for: its buffers' capacities, which
    only the allocator knows, and a fixed overhead. *)
Class HeapCost := heap_cost : Container → Z.

Record HeapStore := mk_heap { hs_map : gmap Z Container; hs_cardinality : Z; hs_bytes : Z }.

Definition heap_new : HeapStore := mk_heap ∅ 0 0.

Section heap.
Context `{HeapCost}.

Definition heap_upsert (key : Z) (container : Container) (h : HeapStore) : HeapStore * bool :=
  let new_card := container_cardinality container in
  let bytes := hs_bytes h + heap_cost container in
  let m := <[key := container]> (hs_map h) in
  match hs_map h !! key with
  | Some old =>
      (mk_heap m (hs_cardinality h - container_cardinality old + new_card) (bytes - heap_cost old), false)
  | None => (mk_heap m (hs_cardinality h + new_card) bytes, true)
  end.

Definition heap_insert_owned (key : Z) (container : Container) (h : HeapStore) : HeapStore :=
  let card := hs_cardinality h + container_cardinality container in
  let bytes := hs_bytes h + heap_cost container in
  let m := <[key := container]> (hs_map h) in
  match hs_map h !! key with
  | Some old => mk_heap m (card - container_cardinality old) (bytes - heap_cost old)
  | None => mk_heap m card bytes
  end.

Definition heap_remove_key (key : Z) (h : HeapStore) : HeapStore * Z :=
  match hs_map h !! key with
  | Some old =>
      let card := container_cardinality old in
      (mk_heap (delete key (hs_map h)) (hs_cardinality h - card) (hs_bytes h - heap_cost old), card)
  | None => (h, 0)
  end.

Definition heap_modify (key : Z) (create : bool) (f : Container → Container * bool) (h : HeapStore) :
    HeapStore * bool :=
  let finish m changed old_card new_card old_cost new_cost empty :=
    let bytes := hs_bytes h - old_cost + new_cost in
    if changed : bool then
      let card := hs_cardinality h - old_card + new_card in
      if (empty : bool) && bool_decide (is_Some ((m : gmap Z Container) !! key)) then
        (mk_heap (delete key m) card (bytes - new_cost), changed)
      else (mk_heap m card bytes, changed)
    else (mk_heap m (hs_cardinality h) bytes, changed) in
  match hs_map h !! key with
  | Some c =>
      let old_card := container_cardinality c in
      let old_cost := heap_cost c in
      let '(c, changed) := f c in
      finish (<[key := c]> (hs_map h)) changed old_card (container_cardinality c) old_cost (heap_cost c)
        (container_is_empty c)
  | None =>
      if create then
        let '(c, changed) := f new_array in
        let card := container_cardinality c in
        let cost := heap_cost c in
        let empty := container_is_empty c in
        let stored := changed && negb empty in
        finish (if stored then <[key := c]> (hs_map h) else hs_map h) changed 0 card 0
          (if stored then cost else 0) empty
      else (h, false)
  end.

Definition heap_clear (_ : HeapStore) : HeapStore := heap_new.
Definition heap_get (h : HeapStore) (key : Z) : option Container := hs_map h !! key.
Definition heap_sorted_entries (h : HeapStore) : list (Z * Container) := entries_of (hs_map h).
End heap.

(** ** The heap store is a store *)

Section heap_laws.
Context `{HeapCost}.

(** The cached totals are the totals. *)
Definition heap_wf (h : HeapStore) : Prop :=
  hs_cardinality h = total_cardinality (hs_map h) ∧ hs_bytes h = total_of heap_cost (hs_map h).

#[export] Instance heap_store : Store HeapStore := {
  store_entries := hs_map;
  store_wf := heap_wf;
  store_get := heap_get;
  store_sorted_entries := heap_sorted_entries;
  store_cardinality := hs_cardinality;
  store_upsert := heap_upsert;
  store_modify := heap_modify;
  store_clear := heap_clear;
}.

Lemma heap_new_wf : heap_wf heap_new.
Proof using. done. Qed.

Lemma heap_upsert_spec h k c :
  heap_wf h →
  heap_wf (heap_upsert k c h).1 ∧ hs_map (heap_upsert k c h).1 = <[k := c]> (hs_map h) ∧
  (heap_upsert k c h).2 = bool_decide (hs_map h !! k = None).
Proof using.
  intros [Hcard Hbytes]. unfold heap_upsert, heap_wf, total_cardinality in *. cbv zeta.
  destruct (hs_map h !! k) as [old|] eqn:E; cbn [fst snd hs_map hs_cardinality hs_bytes].
  - rewrite !(total_of_insert_old _ _ _ _ old) by done. split_and!; [lia..|done|done].
  - rewrite !total_of_insert_new by done. split_and!; [lia..|done|done].
Qed.

(** Taking ownership differs from [upsert] only in what it returns. *)
Lemma heap_insert_owned_upsert h k c :
  hs_map (heap_insert_owned k c h) = hs_map (heap_upsert k c h).1 ∧
  hs_cardinality (heap_insert_owned k c h) = hs_cardinality (heap_upsert k c h).1 ∧
  hs_bytes (heap_insert_owned k c h) = hs_bytes (heap_upsert k c h).1.
Proof using.
  unfold heap_insert_owned, heap_upsert. cbv zeta. case_match; cbn; split_and!; (done || lia).
Qed.

Lemma heap_remove_key_spec h k :
  heap_wf h →
  heap_wf (heap_remove_key k h).1 ∧ hs_map (heap_remove_key k h).1 = delete k (hs_map h) ∧
  (heap_remove_key k h).2 = from_option container_cardinality 0 (hs_map h !! k).
Proof using.
  intros Hwf. pose proof Hwf as [Hcard Hbytes]. unfold heap_remove_key, total_cardinality in *.
  destruct (hs_map h !! k) as [old|] eqn:E; cbn [fst snd from_option].
  - split_and!; [split; cbn; unfold total_cardinality; rewrite (total_of_delete _ _ _ old) by done; lia|done|done].
  - split_and!; [done| |done]. by rewrite delete_id.
Qed.

Lemma heap_modify_spec h k create f :
  heap_wf h → honest f →
  heap_wf (heap_modify k create f h).1 ∧
  (hs_map (heap_modify k create f h).1, (heap_modify k create f h).2) = modify_map k create f (hs_map h).
Proof using.
  intros Hwf Hf. pose proof Hwf as [Hcard Hbytes]. unfold heap_modify, modify_map. cbv zeta.
  destruct (hs_map h !! k) as [c|] eqn:E; cbn [default from_option id].
  - specialize (Hf c). destruct (f c) as [c' changed]. cbn [fst snd] in Hf.
    rewrite lookup_insert_eq, bool_decide_true by eauto. rewrite andb_true_r.
    unfold heap_wf, total_cardinality in *. destruct changed; [destruct (container_is_empty c') eqn:Hemp|]; cbn [fst snd hs_map hs_cardinality hs_bytes].
    + rewrite delete_insert_eq, !(total_of_delete _ _ _ c) by done.
      unfold container_is_empty in Hemp. apply Z.eqb_eq in Hemp. split; [lia|done].
    + rewrite !(total_of_insert_old _ _ _ _ c) by done. split; [lia|done].
    + rewrite Hf by done. rewrite insert_id by done. split; [lia|done].
  - destruct create; [|done].
    specialize (Hf new_array). destruct (f new_array) as [c' changed]. cbn [fst snd] in Hf.
    unfold heap_wf, total_cardinality in *. destruct changed; cbn [andb negb fst snd hs_map hs_cardinality hs_bytes].
    + destruct (container_is_empty c') eqn:Hemp; cbn [andb negb fst snd hs_map hs_cardinality hs_bytes].
      * rewrite E, bool_decide_false by (intros [? ?]; done). cbn [fst snd hs_map hs_cardinality hs_bytes].
        unfold container_is_empty in Hemp. apply Z.eqb_eq in Hemp. split; [lia|]. by rewrite delete_id.
      * rewrite !total_of_insert_new by done. split; [lia|done].
    + split; [lia|done].
Qed.

#[export] Instance heap_store_laws : StoreLaws HeapStore.
Proof using.
  split; cbn; try done.
  - by intros s [? _].
  - apply heap_upsert_spec.
  - intros s k create f Hs Hf. by apply heap_modify_spec.
Qed.
End heap_laws.

(** ** Properties *)

(** The heap store's updates change exactly the entry they name and keep the two
    running totals equal to the sums over the map they leave behind: the total
    cardinality, and the heap bytes, in which a replaced or emptied entry's cost is
    given back. [modify] drops an entry that ends up empty and creates one only when
    asked to. *)
Theorem heap_store_updates_correct `{HeapCost} (h : HeapStore) (k : Z) (c : Container)
    (create : bool) (f : Container → Container * bool) :
  heap_wf h → honest f →
  (heap_wf (heap_upsert k c h).1 ∧ hs_map (heap_upsert k c h).1 = <[k := c]> (hs_map h)) ∧
  heap_insert_owned k c h = (heap_upsert k c h).1 ∧
  (heap_wf (heap_remove_key k h).1 ∧ hs_map (heap_remove_key k h).1 = delete k (hs_map h)) ∧
  heap_wf (heap_modify k create f h).1 ∧
  (hs_map (heap_modify k create f h).1, (heap_modify k create f h).2) = modify_map k create f (hs_map h).
Proof.
  intros Hh Hf. destruct (heap_upsert_spec h k c Hh) as (Hu & Hum & _), (heap_remove_key_spec h k Hh) as (Hr & Hrm & _),
    (heap_modify_spec h k create f Hh Hf) as [Hm Hmm], (heap_insert_owned_upsert h k c) as (H1 & H2 & H3).
  split_and!; [done..| |done|done|done|done]. destruct (heap_insert_owned k c h), (heap_upsert k c h).1.
  cbn in *. by subst.
Qed.

Definition flat_cost : HeapCost := λ _, 48.

Lemma heap_store_updates_correct_witness :
  let h := (@heap_upsert flat_cost 3 (CArray (mk_array [1; 2])) heap_new).1 in
  let f := container_insert 9 in
  (@heap_wf flat_cost (@heap_upsert flat_cost 4 new_array h).1 ∧
    hs_map (@heap_upsert flat_cost 4 new_array h).1 = <[4 := new_array]> (hs_map h)) ∧
  @heap_insert_owned flat_cost 4 new_array h = (@heap_upsert flat_cost 4 new_array h).1 ∧
  (@heap_wf flat_cost (@heap_remove_key flat_cost 4 h).1 ∧
    hs_map (@heap_remove_key flat_cost 4 h).1 = delete 4 (hs_map h)) ∧
  @heap_wf flat_cost (@heap_modify flat_cost 4 true f h).1 ∧
  (hs_map (@heap_modify flat_cost 4 true f h).1, (@heap_modify flat_cost 4 true f h).2) = modify_map 4 true f (hs_map h).
Proof.
  cbv zeta. apply (@heap_store_updates_correct flat_cost).
  - apply heap_upsert_spec, heap_new_wf.
  - apply honest_insert.
Defined.
