(* ===== verification/Bitmap.v ===== *)
(** * Bitmap: the roaring bitmap over [u128] keys

    [src/minnal_db/src/index/bitmap.rs].  A value is split into a 112-bit high key
    and a 16-bit low value; the store maps high keys to containers.  The theorems
    are stated against the [Store] interface: the operand bitmaps may use any
    backing, results are built on the heap as in the source.  [member] is the set a
    bitmap denotes and [bitmap_values] its elements in ascending order. *)
From S2P Require Import Prelude Slices U16Set ArrayMerge Words Container ContainerStore.
From S2P Require Import ArrayContainer RunContainer BitsetContainer ContainerOps.

Definition MAX_FLIP_CONTAINER_SPAN : Z := 1048576.

Definition decompose (key : Z) : Z * Z := (Z.shiftr key 16, Z.land key 65535).
Definition compose (high low : Z) : Z := Z.lor (wrap 128 (Z.shiftl high 16)) low.

(** [container.iter()] drained, by the iterator of each kind. *)
Definition container_iter (c : Container) : list Z :=
  match c with
  | CArray a => values a
  | CBitset b => bitset_collect (S (Z.to_nat (bs_card b))) (bitset_iter b)
  | CRun r => run_iter_list r
  end.

Section bitmap.
Context `{Cpu} `{HeapCost}.

(** ** Updates and point reads *)
Section one.
Context {S : Type} `{Store S}.

Definition bitmap_insert (value : Z) (bm : S) : S * bool :=
  let '(high, low) := decompose value in store_modify high true (container_insert low) bm.
Definition bitmap_remove (value : Z) (bm : S) : S * bool :=
  let '(high, low) := decompose value in store_modify high false (container_remove low) bm.
Definition bitmap_clear (bm : S) : S := store_clear bm.
Definition bitmap_contains (bm : S) (value : Z) : bool :=
  let '(high, low) := decompose value in
  default false ((λ c, container_contains c low) <$> store_get bm high).
Definition bitmap_cardinality (bm : S) : Z := store_cardinality bm.
Definition bitmap_is_empty (bm : S) : bool := store_cardinality bm =? 0.

Definition bitmap_min (bm : S) : option Z :=
  high ← head (store_sorted_keys bm); c ← store_get bm high; compose high <$> container_min c.
Definition bitmap_max (bm : S) : option Z :=
  high ← last (store_sorted_keys bm); c ← store_get bm high; compose high <$> container_max c.

(** *** Rank and select walk the keys and cardinalities *)
Fixpoint rank_keys (bm : S) (high low prefix : Z) (key_cards : list (Z * Z)) : Z :=
  match key_cards with
  | [] => prefix
  | (k, card) :: rest =>
      match k ?= high with
      | Lt => rank_keys bm high low (prefix + card) rest
      | Eq => prefix + default 0 ((λ c, container_rank c low) <$> store_get bm k)
      | Gt => prefix
      end
  end.
Definition bitmap_rank (bm : S) (value : Z) : Z :=
  let '(high, low) := decompose value in rank_keys bm high low 0 (store_key_cards bm).

Fixpoint select_keys (bm : S) (rank : Z) (key_cards : list (Z * Z)) : option Z :=
  match key_cards with
  | [] => None
  | (high, card) :: rest =>
      if rank <? card then c ← store_get bm high; compose high <$> container_select c rank
      else select_keys bm (rank - card) rest
  end.
Definition bitmap_select (bm : S) (rank : Z) : option Z := select_keys bm rank (store_key_cards bm).

(** [flip] of [lo, hi); [None] is the panic of a span that is too wide. *)
Definition flip_block (lo_high lo_low hi_high hi_low : Z) (bm : S) (high : Z) : S :=
  let range_lo := if high =? lo_high then lo_low else 0 in
  let range_hi := if high =? hi_high then hi_low else U16_MAX in
  (store_modify high true (λ c, (container_flip_range range_lo range_hi c, true)) bm).1.
Definition bitmap_flip (lo hi : Z) (bm : S) : option S :=
  if hi <=? lo then Some bm
  else
    let '(lo_high, lo_low) := decompose lo in
    let '(hi_high, hi_low) := decompose (hi - 1) in
    let span := hi_high - lo_high + 1 in
    if span <=? MAX_FLIP_CONTAINER_SPAN then
      Some (foldl (flip_block lo_high lo_low hi_high hi_low) bm (seqZ lo_high span))
    else None.

Definition bitmap_iter (bm : S) : list Z :=
  store_sorted_entries bm ≫= λ p, compose p.1 <$> container_iter p.2.

(** *** Pages: skip whole containers, then enter the first one part-way *)
Fixpoint skip_containers (within : Z) (key_cards : list (Z * Z)) : Z * list (Z * Z) :=
  match key_cards with
  | [] => (within, [])
  | (k, card) :: rest => if within <? card then (within, key_cards) else skip_containers (within - card) rest
  end.
Fixpoint page_loop (bm : S) (remaining skip_within : Z) (key_cards : list (Z * Z)) : list Z :=
  match key_cards with
  | [] => []
  | (high, _) :: rest =>
      if remaining =? 0 then []
      else
        let lows := default [] ((λ c, take (Z.to_nat remaining) (drop (Z.to_nat skip_within) (container_iter c)))
                      <$> store_get bm high) in
        (compose high <$> lows) ++ page_loop bm (remaining - zlen lows) 0 rest
  end.
Definition bitmap_iter_page (bm : S) (offset limit : Z) : list Z :=
  let '(within, rest) := skip_containers offset (store_key_cards bm) in page_loop bm limit within rest.

Definition bitmap_optimize (bm : S) : S :=
  foldl (λ bm key, (store_modify key false (λ c, (optimize c, true)) bm).1) bm (store_sorted_keys bm).

Definition bitmap_clone (bm : S) : HeapStore :=
  foldl (λ r p, (heap_upsert p.1 p.2 r).1) heap_new (store_sorted_entries bm).

Definition bitmap_from_iter (empty : S) (vs : list Z) : S := foldl (λ bm v, (bitmap_insert v bm).1) empty vs.
End one.

(** ** Set operations: merges of two ordered entry lists into a new heap store *)

Definition put (key : Z) (c : Container) (r : HeapStore) : HeapStore := (heap_upsert key c r).1.
Definition put_nonempty (key : Z) (c : Container) (r : HeapStore) : HeapStore :=
  if negb (container_is_empty c) then put key c r else r.

Fixpoint and_entries (xs : list (Z * Container)) : list (Z * Container) → HeapStore → HeapStore :=
  fix go (ys : list (Z * Container)) (result : HeapStore) : HeapStore :=
    match xs, ys with
    | (ak, av) :: xs', (bk, bv) :: ys' =>
        match ak ?= bk with
        | Lt => and_entries xs' ys result
        | Gt => go ys' result
        | Eq => and_entries xs' ys' (put_nonempty ak (container_and av bv) result)
        end
    | _, _ => result
    end.

Fixpoint or_entries (xs : list (Z * Container)) : list (Z * Container) → HeapStore → HeapStore :=
  fix go (ys : list (Z * Container)) (result : HeapStore) : HeapStore :=
    match xs, ys with
    | (ak, av) :: xs', (bk, bv) :: ys' =>
        match ak ?= bk with
        | Lt => or_entries xs' ys (put ak av result)
        | Gt => go ys' (put bk bv result)
        | Eq => or_entries xs' ys' (put ak (container_or av bv) result)
        end
    | _, [] => foldl (λ r p, put p.1 p.2 r) result xs
    | [], _ => foldl (λ r p, put p.1 p.2 r) result ys
    end.

(** [while bi.peek() has bk < ak { bi.next() }] *)
Fixpoint skip_keys (ak : Z) (ys : list (Z * Container)) : list (Z * Container) :=
  match ys with
  | (bk, _) :: ys' => if bk <? ak then skip_keys ak ys' else ys
  | [] => []
  end.
Fixpoint and_not_entries (xs ys : list (Z * Container)) (result : HeapStore) : HeapStore :=
  match xs with
  | [] => result
  | (ak, av) :: xs =>
      let ys := skip_keys ak ys in
      let '(c, ys) :=
        match ys with
        | (bk, bv) :: ys' => if bk =? ak then (container_and_not av bv, ys') else (av, ys)
        | [] => (av, [])
        end in
      and_not_entries xs ys (put_nonempty ak c result)
  end.

Section two.
Context {S T : Type} `{Store S} `{Store T}.

Definition bitmap_and (self : S) (other : T) : HeapStore :=
  and_entries (store_sorted_entries self) (store_sorted_entries other) heap_new.
Definition bitmap_or (self : S) (other : T) : HeapStore :=
  or_entries (store_sorted_entries self) (store_sorted_entries other) heap_new.
Definition bitmap_and_not (self : S) (other : T) : HeapStore :=
  and_not_entries (store_sorted_entries self) (store_sorted_entries other) heap_new.

Definition clip_block (lo_high lo_low hi_high hi_low key : Z) (c : Container) : Container :=
  let lo_clip := if key =? lo_high then lo_low else 0 in
  let hi_clip := if key =? hi_high then hi_low else U16_MAX in
  clip_to_range lo_clip hi_clip c.

Definition bitmap_range_and (self : S) (other : T) (lo hi : Z) : HeapStore :=
  if hi <=? lo then heap_new
  else
    let '(lo_high, lo_low) := decompose lo in
    let '(hi_high, hi_low) := decompose (hi - 1) in
    foldl (λ result key,
      match store_get other key, store_get self key with
      | Some other_c, Some self_c =>
          put_nonempty key (clip_block lo_high lo_low hi_high hi_low key (container_and self_c other_c)) result
      | _, _ => result
      end) heap_new (filter (λ k, lo_high ≤ k ∧ k ≤ hi_high) (store_sorted_keys self)).

Fixpoint range_or_entries (clip : Z → Container → Container) (xs : list (Z * Container)) :
    list (Z * Container) → HeapStore → HeapStore :=
  fix go (ys : list (Z * Container)) (result : HeapStore) : HeapStore :=
    let emit key c result := put_nonempty key (clip key c) result in
    match xs, ys with
    | [], [] => result
    | (k, c) :: xs', [] => range_or_entries clip xs' [] (emit k c result)
    | [], (k, c) :: ys' => go ys' (emit k c result)
    | (ak, ac) :: xs', (bk, bc) :: ys' =>
        match ak ?= bk with
        | Lt => range_or_entries clip xs' ys (emit ak ac result)
        | Gt => go ys' (emit bk bc result)
        | Eq => range_or_entries clip xs' ys' (emit ak (container_or ac bc) result)
        end
    end.
Definition bitmap_range_or (self : S) (other : T) (lo hi : Z) : HeapStore :=
  if hi <=? lo then heap_new
  else
    let '(lo_high, lo_low) := decompose lo in
    let '(hi_high, hi_low) := decompose (hi - 1) in
    let window := filter (λ p : Z * Container, lo_high ≤ p.1 ∧ p.1 ≤ hi_high) in
    range_or_entries (clip_block lo_high lo_low hi_high hi_low)
      (window (store_sorted_entries self)) (window (store_sorted_entries other)) heap_new.

Definition bitmap_eq (self : S) (other : T) : bool :=
  (store_cardinality self =? store_cardinality other) &&
  bool_decide ((store_key_cards self).*1 = (store_key_cards other).*1) &&
  forallb (λ key, bool_decide (store_get self key = store_get other key)) (store_key_cards self).*1.
End two.

(** ** Bulk load *)

Definition build_container (lows : list Z) : Container :=
  if ARRAY_TO_BITSET_THRESHOLD <=? zlen lows then CBitset (bitset_from_sorted_values lows)
  else CArray (array_from_sorted lows).

(** The open block is [current_high] and [lows], in order. *)
Fixpoint load_loop (current_high : option Z) (lows : list Z) (keys : list Z) (bm : HeapStore) : HeapStore :=
  match keys with
  | [] => match current_high with Some h => put h (build_container lows) bm | None => bm end
  | key :: keys =>
      let '(high, low) := decompose key in
      if bool_decide (current_high = Some high) then load_loop current_high (lows ++ [low]) keys bm
      else
        match current_high with
        | Some h => load_loop (Some high) [low] keys (put h (build_container lows) bm)
        | None => load_loop (Some high) (lows ++ [low]) keys bm
        end
  end.
Definition from_sorted_iter (keys : list Z) : HeapStore := load_loop None [] keys heap_new.

(** [sort_unstable] then [dedup]. *)
Fixpoint dedup (l : list Z) : list Z :=
  match l with
  | x :: (y :: _) as l' => if x =? y then dedup l' else x :: dedup l'
  | _ => l
  end.
Definition from_unsorted_iter (keys : list Z) : HeapStore := from_sorted_iter (dedup (merge_sort Z.le keys)).
End bitmap.

(** ** Splitting a key *)

Lemma decompose_div key : decompose key = (key / 65536, key mod 65536).
Proof.
  unfold decompose. rewrite Z.shiftr_div_pow2 by lia. f_equal.
  change 65535 with (Z.ones 16). by rewrite Z.land_ones.
Qed.

Lemma low_u16 v : u16 (v mod 65536).
Proof. apply Z.mod_pos_bound. lia. Qed.

Lemma high_bound v : u128 v → 0 ≤ v / 65536 < 2 ^ 112.
Proof.
  unfold u128. intros Hv. split; [apply Z.div_pos; lia|]. apply Z.div_lt_upper_bound; [lia|].
  change (65536 * 2 ^ 112) with (2 ^ 128). lia.
Qed.

Lemma compose_add high low : 0 ≤ high < 2 ^ 112 → u16 low → compose high low = high * 65536 + low.
Proof.
  unfold u16. intros Hh Hl. unfold compose. rewrite Z.shiftl_mul_pow2 by lia. rewrite wrap_small.
  2:{ change (2 ^ 128) with (2 ^ 112 * 2 ^ 16). lia. }
  rewrite <-Z.lxor_lor.
  - rewrite <-Z.add_nocarry_lxor; [done|].
    apply Z.bits_inj'. intros i Hi. rewrite Z.land_spec, Z.bits_0. apply andb_false_iff.
    destruct (decide (i < 16)).
    + left. apply Z.mul_pow2_bits_low. lia.
    + right. apply (testbit_above 16); lia.
  - apply Z.bits_inj'. intros i Hi. rewrite Z.land_spec, Z.bits_0. apply andb_false_iff.
    destruct (decide (i < 16)).
    + left. apply Z.mul_pow2_bits_low. lia.
    + right. apply (testbit_above 16); lia.
Qed.

Lemma compose_split high low :
  0 ≤ high < 2 ^ 112 → u16 low →
  u128 (compose high low) ∧ compose high low / 65536 = high ∧ compose high low mod 65536 = low.
Proof.
  intros Hh Hl. rewrite compose_add by done. unfold u16 in Hl. split_and!.
  - unfold u128. change (2 ^ 128) with (2 ^ 112 * 65536). lia.
  - rewrite Z.div_add_l, Z.div_small by lia. lia.
  - rewrite Z.add_comm, Z.mod_add, Z.mod_small by lia. done.
Qed.

Lemma compose_decompose v : u128 v → compose (v / 65536) (v mod 65536) = v.
Proof.
  intros Hv. rewrite compose_add by (apply high_bound, Hv || apply low_u16).
  pose proof (Z.div_mod v 65536). lia.
Qed.

(** ** The set a map of containers denotes *)

Definition member_at (o : option Container) (low : Z) : bool :=
  match o with Some c => container_contains c low | None => false end.
Definition member_map (m : gmap Z Container) (v : Z) : bool := member_at (m !! (v / 65536)) (v mod 65536).

(** Canonical containers, none of them empty, under 112-bit keys. *)
Definition map_wf (m : gmap Z Container) : Prop :=
  ∀ k c, m !! k = Some c → container_wf c ∧ container_is_empty c = false ∧ 0 ≤ k < 2 ^ 112.

Definition bitmap_wf {S} `{Store S} (bm : S) : Prop := store_wf bm ∧ map_wf (store_entries bm).
Definition member {S} `{Store S} (bm : S) (v : Z) : bool := member_map (store_entries bm) v.

Definition map_values `{Cpu} (m : gmap Z Container) : list Z :=
  entries_of m ≫= λ p, compose p.1 <$> to_values p.2.
Definition bitmap_values `{Cpu} {S} `{Store S} (bm : S) : list Z := map_values (store_entries bm).

Lemma map_wf_empty : map_wf ∅.
Proof. intros k c. by rewrite lookup_empty. Qed.

Lemma empty_container_contains c v :
  container_wf c → container_is_empty c = true → u16 v → container_contains c v = false.
Proof.
  pose (cpu := {| target_x86_64 := false; target_aarch64 := false; avx512f := false; avx512bw := false;
    avx512vpopcntdq := false; avx2 := false |}).
  intros Hc He Hv. rewrite (contains_to_values c v Hc Hv). apply bool_decide_eq_false.
  unfold container_is_empty in He. apply Z.eqb_eq in He.
  pose proof (card_values c Hc : container_cardinality c = zlen (to_values c)) as Hcard.
  rewrite He in Hcard. symmetry in Hcard. apply zlen_0_nil in Hcard. rewrite Hcard. apply not_elem_of_nil.
Qed.

Lemma new_array_wf : container_wf new_array.
Proof. split; [apply array_new_wf|done]. Qed.

(** One entry changed: what [modify] does to the set. *)
Lemma modify_map_member m k create f (g : Z → bool → bool) :
  map_wf m → 0 ≤ k < 2 ^ 112 → honest f →
  (∀ c, container_wf c → container_wf (f c).1 ∧
    ∀ l, u16 l → container_contains (f c).1 l = g l (container_contains c l)) →
  (create = false → ∀ l, g l false = false) →
  let m' := (modify_map k create f m).1 in
  map_wf m' ∧ ∀ v, member_map m' v = if v / 65536 =? k then g (v mod 65536) (member_map m v) else member_map m v.
Proof.
  intros Hm Hk Hhon Hf Hcreate m'. unfold m', modify_map.
  assert (∀ c, container_wf c →
    (∀ l, u16 l → member_at (m !! k) l = container_contains c l) →
    let m' := if (f c).2 then if container_is_empty (f c).1 then delete k m else <[k := (f c).1]> m else m in
    map_wf m' ∧ ∀ v, member_map m' v = if v / 65536 =? k then g (v mod 65536) (member_map m v) else member_map m v) as Hstep.
  { intros c Hc Hat. destruct (Hf c Hc) as [Hw Hv]. cbv zeta. destruct (f c) as [c' changed] eqn:E. cbn [fst snd] in *.
    assert (∀ v, v / 65536 ≠ k → ∀ m', (∀ k', k' ≠ k → m' !! k' = m !! k') → member_map m' v = member_map m v) as Hother.
    { intros v Hne m1 Hm1. unfold member_map. by rewrite Hm1. }
    destruct changed; [destruct (container_is_empty c') eqn:Hemp|].
    - split.
      { intros k' c1. destruct (decide (k' = k)) as [->|]; [by rewrite lookup_delete_eq|].
        rewrite lookup_delete_ne by done. apply Hm. }
      intros v. destruct (Z.eqb_spec (v / 65536) k) as [He|Hne].
      + unfold member_map. rewrite He, lookup_delete_eq, Hat, <-Hv by apply low_u16. cbn.
        symmetry. apply empty_container_contains; [done..|apply low_u16].
      + apply Hother; [done|]. intros k' ?. by apply lookup_delete_ne.
    - split.
      { intros k' c1. destruct (decide (k' = k)) as [->|].
        - rewrite lookup_insert_eq. intros [= <-]. done.
        - rewrite lookup_insert_ne by done. apply Hm. }
      intros v. destruct (Z.eqb_spec (v / 65536) k) as [He|Hne].
      + unfold member_map. rewrite He, lookup_insert_eq, Hat, <-Hv by apply low_u16. done.
      + apply Hother; [done|]. intros k' ?. by apply lookup_insert_ne.
    - split; [done|]. intros v. destruct (Z.eqb_spec (v / 65536) k) as [He|Hne]; [|done].
      unfold member_map. rewrite He, Hat, <-Hv by apply low_u16. f_equal.
      specialize (Hhon c). rewrite E in Hhon. symmetry. by apply Hhon. }
  destruct (m !! k) as [c|] eqn:Ek; cbn [default from_option id].
  - pose proof (Hstep c) as Hc. destruct (Hm k c Ek) as (Hwc & _). specialize (Hc Hwc).
    destruct (f c) as [c' changed]. apply Hc. done.
  - destruct create.
    + pose proof (Hstep new_array new_array_wf) as Hc. destruct (f new_array) as [c' changed]. apply Hc. done.
    + split; [done|]. intros v. destruct (Z.eqb_spec (v / 65536) k) as [He|]; [|done].
      unfold member_map. cbn [fst]. rewrite He, Ek. unfold member_at. symmetry. by apply Hcreate.
Qed.

(** ** Updates *)

Section updates.
Context `{Cpu} {S : Type} `{StoreLaws S}.

Lemma modify_member (bm : S) k create f (g : Z → bool → bool) :
  bitmap_wf bm → 0 ≤ k < 2 ^ 112 → honest f →
  (∀ c, container_wf c → container_wf (f c).1 ∧
    ∀ l, u16 l → container_contains (f c).1 l = g l (container_contains c l)) →
  (create = false → ∀ l, g l false = false) →
  let bm' := (store_modify k create f bm).1 in
  bitmap_wf bm' ∧ ∀ v, member bm' v = if v / 65536 =? k then g (v mod 65536) (member bm v) else member bm v.
Proof using All.
  intros [Hs Hm] Hk Hhon Hf Hcreate bm'. destruct (store_modify_spec bm k create f Hs Hhon) as [Hs' He].
  destruct (modify_map_member _ k create f g Hm Hk Hhon Hf Hcreate) as [Hm' Hv].
  rewrite <-He in Hm', Hv. by split.
Qed.

(** The result of [modify] when the entry's result is the membership test. *)
Lemma modify_result (bm : S) v create f (h : bool → bool) :
  bitmap_wf bm → u128 v → honest f →
  (∀ c, container_wf c → (f c).2 = h (container_contains c (v mod 65536))) →
  (create = false → h false = false) →
  (store_modify (v / 65536) create f bm).2 = h (member bm v).
Proof using All.
  intros [Hs Hm] Hv Hhon Hf Hcreate. destruct (store_modify_spec bm (v / 65536) create f Hs Hhon) as [_ He].
  pose proof (f_equal snd He) as Hr. cbn [snd] in Hr. rewrite Hr.
  unfold modify_map, member, member_map. destruct (store_entries bm !! (v / 65536)) as [c|] eqn:E; cbn [default from_option id].
  - destruct (Hm _ _ E) as (Hc & _). specialize (Hf c Hc). by destruct (f c).
  - destruct create; [|symmetry; by apply Hcreate]. pose proof (Hf new_array new_array_wf) as Hn.
    by destruct (f new_array).
Qed.

Lemma split_eq v w : (w / 65536 =? v / 65536) && (w mod 65536 =? v mod 65536) = (w =? v).
Proof using.
  apply eq_true_iff_eq. rewrite andb_true_iff, !Z.eqb_eq. split; [|by intros ->].
  intros [Hd Hmod]. rewrite (Z.div_mod w 65536), (Z.div_mod v 65536) by lia. lia.
Qed.

Lemma insert_member (bm : S) v :
  bitmap_wf bm → u128 v →
  bitmap_wf (bitmap_insert v bm).1 ∧ (bitmap_insert v bm).2 = negb (member bm v) ∧
  ∀ w, member (bitmap_insert v bm).1 w = (w =? v) || member bm w.
Proof using All.
  intros Hbm Hv. unfold bitmap_insert. rewrite decompose_div.
  destruct (modify_member bm (v / 65536) true (container_insert (v mod 65536)) (λ l b, (l =? v mod 65536) || b))
    as [Hw Hm]; [done|by apply high_bound|apply honest_insert| |done|].
  { intros c Hc. destruct (container_insert_spec c _ Hc (low_u16 v)) as (Hcw & _ & Hin). split; [done|].
    intros l Hl. by apply Hin. }
  split_and!; [done| |].
  - apply modify_result; [done..|apply honest_insert| |done].
    intros c Hc. apply container_insert_spec; [done|apply low_u16].
  - intros w. rewrite Hm, <-(split_eq v w). by destruct (w / 65536 =? v / 65536).
Qed.

Lemma remove_member (bm : S) v :
  bitmap_wf bm → u128 v →
  bitmap_wf (bitmap_remove v bm).1 ∧ (bitmap_remove v bm).2 = member bm v ∧
  ∀ w, member (bitmap_remove v bm).1 w = member bm w && negb (w =? v).
Proof using All.
  intros Hbm Hv. unfold bitmap_remove. rewrite decompose_div.
  destruct (modify_member bm (v / 65536) false (container_remove (v mod 65536)) (λ l b, b && negb (l =? v mod 65536)))
    as [Hw Hm]; [done|by apply high_bound|apply honest_remove| |done|].
  { intros c Hc. destruct (container_remove_spec c _ Hc (low_u16 v)) as (Hcw & _ & Hin). split; [done|].
    intros l Hl. by apply Hin. }
  split_and!; [done| |].
  - apply (modify_result bm v false _ (λ b, b)); [done..|apply honest_remove| |done].
    intros c Hc. apply container_remove_spec; [done|apply low_u16].
  - intros w. rewrite Hm, <-(split_eq v w). destruct (w / 65536 =? v / 65536); [done|]. cbn. by rewrite andb_true_r.
Qed.

Lemma clear_member (bm : S) : bitmap_wf bm → bitmap_wf (bitmap_clear bm) ∧ ∀ v, member (bitmap_clear bm) v = false.
Proof using All.
  intros [Hs _]. destruct (store_clear_spec bm Hs) as [Hw He]. unfold bitmap_wf, member, bitmap_clear. rewrite He.
  split; [split; [done|apply map_wf_empty]|]. intros v. unfold member_map. by rewrite lookup_empty.
Qed.

Lemma contains_member (bm : S) v : bitmap_wf bm → bitmap_contains bm v = member bm v.
Proof using All.
  intros [Hs _]. unfold bitmap_contains, member, member_map. rewrite decompose_div, store_get_spec by done.
  by destruct (store_entries bm !! _).
Qed.

Lemma from_iter_member (empty : S) vs :
  bitmap_wf empty → (∀ v, member empty v = false) → Forall u128 vs →
  bitmap_wf (bitmap_from_iter empty vs) ∧ ∀ v, member (bitmap_from_iter empty vs) v = bool_decide (v ∈ vs).
Proof using All.
  intros Hwf Hempty Hvs. unfold bitmap_from_iter.
  assert (∀ bm : S, bitmap_wf bm → bitmap_wf (foldl (λ bm v, (bitmap_insert v bm).1) bm vs) ∧
    ∀ v, member (foldl (λ bm v, (bitmap_insert v bm).1) bm vs) v = member bm v || bool_decide (v ∈ vs)) as Hfold.
  { clear Hempty Hwf. induction Hvs as [|x vs Hx Hvs IH]; intros bm Hbm; cbn [foldl].
    { split; [done|]. intros. by rewrite orb_false_r. }
    destruct (insert_member bm x Hbm Hx) as (Hw & _ & Hm). destruct (IH _ Hw) as [Hw' Hm']. split; [done|].
    intros v. rewrite Hm', Hm. rewrite (orb_comm (v =? x)), <-orb_assoc. f_equal. apply eq_true_iff_eq.
    by rewrite orb_true_iff, !bool_decide_eq_true, Z.eqb_eq, elem_of_cons. }
  destruct (Hfold empty Hwf) as [Hw Hm]. split; [done|]. intros v. by rewrite Hm, Hempty.
Qed.

(** *** Flip *)

Definition in_block (lo_high lo_low hi_high hi_low v : Z) : bool :=
  ((if v / 65536 =? lo_high then lo_low else 0) <=? v mod 65536) &&
  (v mod 65536 <=? if v / 65536 =? hi_high then hi_low else U16_MAX).

Lemma flip_block_member (bm : S) lo_high lo_low hi_high hi_low high :
  bitmap_wf bm → u16 lo_low → u16 hi_low → 0 ≤ high < 2 ^ 112 →
  let bm' := flip_block lo_high lo_low hi_high hi_low bm high in
  bitmap_wf bm' ∧
  ∀ v, member bm' v = xorb (member bm v) ((v / 65536 =? high) && in_block lo_high lo_low hi_high hi_low v).
Proof using All.
  intros Hbm Hlo Hhi Hh. unfold flip_block. cbv zeta.
  set (rlo := if high =? lo_high then lo_low else 0). set (rhi := if high =? hi_high then hi_low else U16_MAX).
  assert (u16 rlo ∧ u16 rhi) as [Hrlo Hrhi] by (unfold rlo, rhi, u16 in *; repeat case_match; done).
  destruct (modify_member bm high true (λ c, (container_flip_range rlo rhi c, true))
    (λ l b, xorb b ((rlo <=? l) && (l <=? rhi)))) as [Hw Hm]; [done..| | |].
  { intros c Hc. cbn [fst]. by apply container_flip_range_spec. }
  { done. }
  split; [done|]. intros v. rewrite Hm. destruct (Z.eqb_spec (v / 65536) high) as [<-|]; cbn [andb]; [done|].
  by rewrite xorb_false_r.
Qed.

Lemma flip_blocks_member lo_high lo_low hi_high hi_low n : ∀ (bm : S) a,
  bitmap_wf bm → u16 lo_low → u16 hi_low → 0 ≤ a → a + Z.of_nat n ≤ 2 ^ 112 →
  let bm' := foldl (flip_block lo_high lo_low hi_high hi_low) bm (seqZ a (Z.of_nat n)) in
  bitmap_wf bm' ∧
  ∀ v, member bm' v = xorb (member bm v)
    ((a <=? v / 65536) && (v / 65536 <? a + Z.of_nat n) && in_block lo_high lo_low hi_high hi_low v).
Proof using All.
  induction n as [|n IH]; intros bm a Hbm Hlo Hhi Ha Hle.
  { cbv zeta. change (seqZ a (Z.of_nat 0)) with (@nil Z). cbn [foldl]. split; [done|]. intros v.
    destruct (Z.leb_spec a (v / 65536)), (Z.ltb_spec (v / 65536) (a + Z.of_nat 0)); first [lia|cbn [andb]; by rewrite xorb_false_r]. }
  cbv zeta. rewrite seqZ_cons by lia. cbn [foldl]. replace (Z.pred (Z.of_nat (Datatypes.S n))) with (Z.of_nat n) by lia.
  destruct (flip_block_member bm lo_high lo_low hi_high hi_low a Hbm Hlo Hhi) as [Hw Hm]; [lia|].
  destruct (IH _ (Z.succ a) Hw Hlo Hhi) as [Hw' Hm']; [lia..|]. split; [done|].
  intros v. rewrite Hm', Hm, xorb_assoc. f_equal.
  destruct (in_block lo_high lo_low hi_high hi_low v); [rewrite !andb_true_r|by rewrite !andb_false_r].
  destruct (Z.eqb_spec (v / 65536) a), (Z.leb_spec (Z.succ a) (v / 65536)), (Z.leb_spec a (v / 65536)),
    (Z.ltb_spec (v / 65536) (Z.succ a + Z.of_nat n)), (Z.ltb_spec (v / 65536) (a + Z.of_nat (Datatypes.S n))); (lia || done).
Qed.

(** The blocks of the span and the clipped ends are the range itself. *)
Lemma blocks_range lo hi v :
  0 ≤ lo → lo < hi → 0 ≤ v →
  (lo / 65536 <=? v / 65536) && (v / 65536 <? (hi - 1) / 65536 + 1) &&
    in_block (lo / 65536) (lo mod 65536) ((hi - 1) / 65536) ((hi - 1) mod 65536) v = (lo <=? v) && (v <? hi).
Proof using.
  intros Hlo Hlt Hv. unfold in_block, U16_MAX.
  pose proof (Z.div_mod v 65536 ltac:(lia)). pose proof (Z.mod_pos_bound v 65536 ltac:(lia)).
  pose proof (Z.div_mod lo 65536 ltac:(lia)). pose proof (Z.mod_pos_bound lo 65536 ltac:(lia)).
  pose proof (Z.div_mod (hi - 1) 65536 ltac:(lia)). pose proof (Z.mod_pos_bound (hi - 1) 65536 ltac:(lia)).
  apply eq_true_iff_eq. rewrite !andb_true_iff, !Z.leb_le, !Z.ltb_lt.
  destruct (Z.eqb_spec (v / 65536) (lo / 65536)), (Z.eqb_spec (v / 65536) ((hi - 1) / 65536)); lia.
Qed.

Lemma flip_member (bm bm' : S) lo hi :
  bitmap_wf bm → u128 lo → u128 hi → bitmap_flip lo hi bm = Some bm' →
  bitmap_wf bm' ∧ ∀ v, 0 ≤ v → member bm' v = xorb (member bm v) ((lo <=? v) && (v <? hi)).
Proof using All.
  intros Hbm Hlo Hhi. unfold bitmap_flip. destruct (Z.leb_spec hi lo) as [Hle|Hlt].
  - intros [= <-]. split; [done|]. intros v _.
    destruct (Z.leb_spec lo v), (Z.ltb_spec v hi); first [lia|cbn [andb]; by rewrite xorb_false_r].
  - rewrite !decompose_div. case_match; [|done]. intros [= <-].
    assert (u128 (hi - 1)) as Hhi' by (unfold u128 in *; lia).
    pose proof (high_bound _ Hlo). pose proof (high_bound _ Hhi').
    assert (lo / 65536 ≤ (hi - 1) / 65536) by (apply Z.div_le_mono; lia).
    destruct (flip_blocks_member (lo / 65536) (lo mod 65536) ((hi - 1) / 65536) ((hi - 1) mod 65536)
      (Z.to_nat ((hi - 1) / 65536 - lo / 65536 + 1)) bm (lo / 65536)) as [Hw Hm];
      [done|apply low_u16..|lia|lia|].
    rewrite Z2Nat.id in Hw, Hm by lia. split; [done|]. intros v Hv. rewrite Hm. f_equal.
    rewrite <-(blocks_range lo hi v) by (unfold u128 in *; lia).
    by replace (lo / 65536 + ((hi - 1) / 65536 - lo / 65536 + 1)) with ((hi - 1) / 65536 + 1) by lia.
Qed.

(** *** Optimize *)

Lemma optimize_member (bm : S) :
  bitmap_wf bm → bitmap_wf (bitmap_optimize bm) ∧ ∀ v, member (bitmap_optimize bm) v = member bm v.
Proof using All.
  intros Hbm. unfold bitmap_optimize. unfold store_sorted_keys.
  pose proof Hbm as [Hs Hm]. rewrite store_sorted_entries_spec by done.
  assert (∀ k, k ∈ (entries_of (store_entries bm)).*1 → 0 ≤ k < 2 ^ 112) as Hkeys.
  { intros k ([k' c] & -> & Hin)%list_elem_of_fmap. apply elem_of_entries_of in Hin. by apply (Hm _ _ Hin). }
  clear Hs Hm. revert Hkeys. generalize ((entries_of (store_entries bm)).*1) as keys. intros keys. revert bm Hbm.
  induction keys as [|k keys IH]; intros bm Hbm Hkeys; [done|]. cbn [foldl].
  destruct (modify_member bm k false (λ c, (optimize c, true)) (λ _ b, b)) as [Hw Hmem];
    [done|apply Hkeys; left|done| |done|].
  { intros c Hc. cbn [fst]. by apply optimize_spec. }
  destruct (IH _ Hw) as [Hw' Hmem']; [intros k' Hk'; apply Hkeys; by right|]. split; [done|].
  intros v. rewrite Hmem', Hmem. by case_match.
Qed.
End updates.

Lemma heap_new_bitmap_wf `{HeapCost} : bitmap_wf heap_new.
Proof. split; [apply heap_new_wf|apply map_wf_empty]. Qed.
