(* ===== verification/BitmapReads.v ===== *)
(** * BitmapReads: the ordered reads of a bitmap

    Cardinality, iteration, rank, select, minimum, maximum and pages of
    [src/minnal_db/src/index/bitmap.rs] are those of one ascending list of [u128]s,
    [bitmap_values], whose elements are the members.  Every read walks the entries
    in key order; the lemmas are by induction on that list. *)
From S2P Require Import Prelude Slices U16Set ArrayMerge Words Container ContainerStore.
From S2P Require Import ArrayContainer RunContainer BitsetContainer ContainerOps Bitmap.

(** ** Entry lists *)

Definition block_values `{Cpu} (es : list (Z * Container)) : list Z :=
  es ≫= λ p, compose p.1 <$> to_values p.2.

Definition entry_wf (p : Z * Container) : Prop :=
  container_wf p.2 ∧ container_is_empty p.2 = false ∧ 0 ≤ p.1 < 2 ^ 112.

Lemma map_entries_wf m : map_wf m → Forall entry_wf (entries_of m).
Proof. intros Hm. apply Forall_forall. intros [k c] Hin%elem_of_entries_of. by apply Hm. Qed.

Section reads.
Context `{Cpu}.
Implicit Types (es : list (Z * Container)) (c : Container).

Lemma to_values_nonempty c : container_wf c → container_is_empty c = false → to_values c ≠ [].
Proof using.
  intros Hc He Hv. unfold container_is_empty in He. rewrite to_values_card, Hv in He by done. done.
Qed.

Lemma compose_values k c :
  0 ≤ k < 2 ^ 112 → container_wf c → compose k <$> to_values c = (λ l, k * 65536 + l) <$> to_values c.
Proof using.
  intros Hk Hc. apply list_fmap_ext. intros i l Hi. apply compose_add; [done|].
  pose proof (to_values_u16 c Hc) as Hu. rewrite Forall_forall in Hu. apply Hu. by eapply list_elem_of_lookup_2.
Qed.

Lemma elem_of_block k c v :
  0 ≤ k < 2 ^ 112 → container_wf c →
  (v ∈ compose k <$> to_values c ↔ u128 v ∧ v / 65536 = k ∧ container_contains c (v mod 65536) = true).
Proof using.
  intros Hk Hc. rewrite list_elem_of_fmap. split.
  - intros (l & -> & Hl). assert (u16 l) as Hu.
    { pose proof (to_values_u16 c Hc) as Hall. rewrite Forall_forall in Hall. by apply Hall. }
    destruct (compose_split k l Hk Hu) as (Hc1 & Hd & Hmod). rewrite Hd, Hmod. split_and!; [done..|].
    rewrite contains_to_values by done. by apply bool_decide_eq_true.
  - intros (Hv & <- & Hin). exists (v mod 65536). split; [by rewrite compose_decompose|].
    rewrite contains_to_values in Hin by (done || apply low_u16). by apply bool_decide_eq_true in Hin.
Qed.

Lemma elem_of_block_values es v :
  Forall entry_wf es →
  (v ∈ block_values es ↔ u128 v ∧ ∃ c, (v / 65536, c) ∈ es ∧ container_contains c (v mod 65536) = true).
Proof using.
  induction 1 as [|[k c] es (Hc & He & Hk) Hes IH]; cbn [fst snd] in *.
  { split; [intros []%not_elem_of_nil|]. intros (_ & c & []%not_elem_of_nil & _). }
  unfold block_values. rewrite bind_cons, elem_of_app. fold (block_values es). cbn [fst snd].
  rewrite elem_of_block, IH by done. split.
  - intros [(Hv & <- & Hin)|(Hv & c' & Hin & Hcon)]; (split; [done|]).
    + exists c. split; [left|done].
    + exists c'. split; [by right|done].
  - intros (Hv & c' & [Heq|Hin]%elem_of_cons & Hcon); [left|right].
    + by injection Heq as <- ->.
    + split; [done|]. by exists c'.
Qed.

(** Blocks of ascending keys do not overlap. *)
Lemma block_values_ascending es : Forall entry_wf es → ascending es.*1 → ascending (block_values es).
Proof using.
  induction 1 as [|[k c] es (Hc & He & Hk) Hes IH]; [constructor|]. rewrite fmap_cons. cbn [fst snd] in *.
  intros [Ha Hlt]%ascending_inv. unfold block_values. rewrite bind_cons. fold (block_values es).
  apply ascending_app. split_and!; [| |by apply IH].
  - cbn [fst snd]. intros x y Hxin Hyin. apply elem_of_block in Hxin as (_ & Hx & _); [|done..].
    apply elem_of_block_values in Hyin as (_ & c' & Hin & _); [|done].
    assert (k < y / 65536) by (apply Hlt, list_elem_of_fmap; by exists (y / 65536, c')).
    destruct (Z.lt_ge_cases x y) as [|Hle]; [done|]. apply (Z.div_le_mono _ _ 65536) in Hle; lia.
  - cbn [fst snd]. rewrite compose_values by done. apply ascending_fmap; [lia|]. exact (values_ascending c Hc).
Qed.

Lemma block_values_length es :
  Forall entry_wf es → zlen (block_values es) = zsum (container_cardinality <$> es.*2).
Proof using.
  induction 1 as [|[k c] es (Hc & He & Hk) Hes IH]; [done|]. unfold block_values. rewrite bind_cons, zlen_app, zlen_fmap.
  fold (block_values es). cbn [fst snd] in *. rewrite IH, <-to_values_card by done. done.
Qed.

(** *** Iteration *)
Lemma container_iter_values c : container_wf c → container_iter c = to_values c.
Proof using.
  destruct c as [a|b|r]; intros Hc; cbn [container_iter to_values]; [done| |].
  - destruct Hc as [[Hb Hcard] _]. assert (bitset_wf b) as Hw by done.
    rewrite bitset_values_spec by done. apply bitset_iter_values; [done|]. unfold zlen in Hcard. lia.
  - unfold run_iter_list. apply runs_iter_values; [done|]. rewrite (to_values_card (CRun r) Hc : run_card r = _).
    unfold zlen. cbn [to_values]. lia.
Qed.

(** *** Rank *)
Lemma count_le_app v l k : count_le v (l ++ k) = count_le v l + count_le v k.
Proof using. unfold count_le. by rewrite filter_app, zlen_app. Qed.

Lemma count_le_block v k c :
  0 ≤ k < 2 ^ 112 → container_wf c →
  count_le v (compose k <$> to_values c) =
    match k ?= v / 65536 with
    | Lt => zlen (to_values c) | Eq => container_rank c (v mod 65536) | Gt => 0
    end.
Proof using.
  intros Hk Hc. rewrite compose_values by done. unfold count_le. rewrite filter_fmap, zlen_fmap.
  assert (∀ l, l ∈ to_values c → u16 l) as Hu by (apply Forall_forall, to_values_u16, Hc).
  pose proof (Z.div_mod v 65536 ltac:(lia)). pose proof (low_u16 v) as Hl. unfold u16 in *.
  destruct (Z.compare_spec k (v / 65536)) as [Heq|Hlt|Hgt].
  - rewrite to_values_rank by (done || apply low_u16). unfold count_le. f_equal.
    apply filter_ext_in. intros l _. lia.
  - rewrite filter_all; [done|]. intros l Hin. specialize (Hu l Hin). lia.
  - rewrite filter_none; [done|]. intros l Hin. specialize (Hu l Hin). lia.
Qed.

Lemma count_le_blocks_above v es :
  Forall entry_wf es → (∀ k, k ∈ es.*1 → v / 65536 < k) → count_le v (block_values es) = 0.
Proof using.
  induction 1 as [|[k c] es (Hc & _ & Hk) Hes IH]; intros Habove; [done|].
  unfold block_values. rewrite bind_cons, count_le_app, count_le_block by done. fold (block_values es).
  cbn [fst snd] in *. rewrite IH by (intros k' Hk'; apply Habove; by right).
  rewrite (proj2 (Z.compare_gt_iff _ _)); [done|]. apply Habove. left.
Qed.
End reads.

(** ** The walks over [key_cards] *)

Definition key_cards_of (es : list (Z * Container)) : list (Z * Z) :=
  (λ p, (p.1, container_cardinality p.2)) <$> es.

Section walks.
Context `{Cpu} {S : Type} `{Store S} (bm : S) (es : list (Z * Container)).
Context (Hwf : Forall entry_wf es) (Hasc : ascending es.*1).
Context (Hget : ∀ k c, (k, c) ∈ es → store_get bm k = Some c).

Lemma rank_keys_spec v prefix :
  rank_keys bm (v / 65536) (v mod 65536) prefix (key_cards_of es) = prefix + count_le v (block_values es).
Proof using All.
  revert prefix Hasc Hget. revert Hwf. induction 1 as [|[k c] es' (Hc & _ & Hk) Hes IH]; intros prefix Ha Hg.
  { change (count_le v (block_values [])) with 0. cbn. lia. }
  destruct (ascending_inv _ _ Ha) as [Ha' Hlt]. cbn [fst snd] in Hc, Hk.
  unfold block_values. rewrite bind_cons, count_le_app, count_le_block by done. fold (block_values es').
  cbn [key_cards_of fmap list_fmap fst snd rank_keys]. fold (key_cards_of es').
  destruct (Z.compare_spec k (v / 65536)) as [Heq|Hltk|Hgt].
  - rewrite (Hg k c) by left. cbn [fmap option_fmap option_map default from_option id].
    rewrite count_le_blocks_above; [lia|done|]. intros k' Hk'. specialize (Hlt k' Hk'). cbn in Hlt. lia.
  - rewrite IH; [|done|intros k' c' Hin; apply Hg; by right]. rewrite (to_values_card c) by done. lia.
  - rewrite count_le_blocks_above; [lia|done|]. intros k' Hk'. specialize (Hlt k' Hk'). cbn in Hlt. lia.
Qed.

Lemma select_keys_spec r :
  0 ≤ r → select_keys bm r (key_cards_of es) = block_values es !! Z.to_nat r.
Proof using All.
  revert r Hasc Hget. revert Hwf. induction 1 as [|[k c] es' (Hc & _ & Hk) Hes IH]; intros r Ha Hg Hr; [done|].
  destruct (ascending_inv _ _ Ha) as [Ha' _]. cbn [fst snd] in Hc, Hk.
  cbn [key_cards_of fmap list_fmap fst snd select_keys]. fold (key_cards_of es').
  unfold block_values. rewrite bind_cons. fold (block_values es'). cbn [fst snd].
  pose proof (to_values_card c Hc) as Hcard. unfold zlen in Hcard. destruct (Z.ltb_spec r (container_cardinality c)).
  - rewrite (Hg k c) by left. cbn [mbind option_bind].
    rewrite to_values_select, lookup_app_l, list_lookup_fmap by (done || (rewrite length_fmap; lia)); done.
  - rewrite IH; [|done|intros k' c' Hin; apply Hg; by right|lia].
    rewrite lookup_app_r by (rewrite length_fmap; lia). rewrite length_fmap. f_equal. lia.
Qed.

Lemma page_loop_spec remaining skip :
  0 ≤ remaining → 0 ≤ skip →
  (∀ p, head es = Some p → skip ≤ container_cardinality p.2) →
  page_loop bm remaining skip (key_cards_of es) =
    take (Z.to_nat remaining) (drop (Z.to_nat skip) (block_values es)).
Proof using All.
  revert remaining skip Hasc Hget.
  revert Hwf. induction 1 as [|[k c] es' (Hc & _ & Hk) Hes IH]; intros remaining skip Ha Hg Hr Hs Hhead.
  { cbn. by rewrite drop_nil, take_nil. }
  destruct (ascending_inv _ _ Ha) as [Ha' _]. cbn [fst snd] in Hc, Hk.
  cbn [key_cards_of fmap list_fmap fst snd page_loop]. fold (key_cards_of es').
  unfold block_values. rewrite bind_cons. fold (block_values es'). cbn [fst snd].
  pose proof (to_values_card c Hc) as Hcard. unfold zlen in Hcard. specialize (Hhead _ eq_refl). cbn [snd] in Hhead.
  destruct (Z.eqb_spec remaining 0) as [->|]; [done|].
  rewrite (Hg k c) by left. cbn [fmap option_fmap option_map default from_option id].
  rewrite container_iter_values by done. rewrite IH; [|done|intros k' c' Hin; apply Hg; by right| |lia|].
  - rewrite skipn_O, drop_app_le by (rewrite length_fmap; lia). rewrite firstn_app. f_equal.
    + by rewrite fmap_take, fmap_drop.
    + f_equal. unfold zlen. rewrite length_take, !length_drop, length_fmap. lia.
  - unfold zlen. rewrite length_take. lia.
  - intros p Hp. destruct es' as [|[k' c'] es']; [done|]. injection Hp as <-. cbn [snd].
    apply Forall_cons in Hes as [(Hc' & _) _]. cbn in Hc'. rewrite to_values_card by done. apply zlen_nonneg.
Qed.
End walks.

(** Skipping whole containers drops their values. *)
Lemma skip_containers_spec `{Cpu} es offset :
  Forall entry_wf es → 0 ≤ offset →
  ∃ es', (skip_containers offset (key_cards_of es)).2 = key_cards_of es' ∧
    let skip := (skip_containers offset (key_cards_of es)).1 in
    suffix es' es ∧ 0 ≤ skip ∧ (∀ p, head es' = Some p → skip ≤ container_cardinality p.2) ∧
    drop (Z.to_nat skip) (block_values es') = drop (Z.to_nat offset) (block_values es).
Proof.
  intros Hes. revert offset. induction Hes as [|[k c] es (Hc & _ & Hk) Hes IH]; intros offset Ho.
  { exists []. cbn. split_and!; [done|done|lia|done|]. by rewrite !drop_nil. }
  cbn [fst snd] in Hc, Hk. cbn [key_cards_of fmap list_fmap fst snd skip_containers]. fold (key_cards_of es).
  destruct (Z.ltb_spec offset (container_cardinality c)).
  - exists ((k, c) :: es). cbn [fst snd]. split_and!; [done|done|lia| |done]. intros p [= <-]. cbn. lia.
  - destruct (IH (offset - container_cardinality c)) as (es' & He & Hsuf & Hs & Hh & Hd); [lia|].
    exists es'. split_and!; [done|by apply suffix_cons_r|done..|]. rewrite Hd. unfold block_values. rewrite bind_cons.
    fold (block_values es). pose proof (to_values_card c Hc) as Hcard. unfold zlen in Hcard. cbn [fst snd].
    rewrite drop_app_ge by (rewrite length_fmap; lia). f_equal. rewrite length_fmap. lia.
Qed.

Lemma last_blocks `{Cpu} es k c :
  container_wf c → container_is_empty c = false →
  last (block_values (es ++ [(k, c)])) = compose k <$> last (to_values c).
Proof.
  intros Hc He. unfold block_values. rewrite bind_app. cbn [mbind list_bind fst snd]. rewrite app_nil_r.
  rewrite last_app, fmap_last. pose proof (to_values_nonempty c Hc He) as Hne.
  destruct (last (to_values c)) eqn:E; [done|]. by apply last_None in E.
Qed.

Lemma count_le_lookup l : ∀ i v, ascending l → l !! i = Some v → count_le v l = Z.of_nat i + 1.
Proof.
  unfold count_le. induction l as [|x l IH]; intros i v Ha Hi; [done|].
  pose proof (ascending_inv _ _ Ha) as [Ha' Hlt]. rewrite filter_cons. destruct i as [|i]; cbn [lookup list_lookup] in Hi.
  - injection Hi as ->. rewrite decide_True by lia. rewrite zlen_cons, filter_none; [done|].
    intros y Hy. specialize (Hlt y Hy). lia.
  - assert (x < v) by (apply Hlt; by eapply list_elem_of_lookup_2). rewrite decide_True by lia.
    rewrite zlen_cons, (IH i v Ha' Hi). lia.
Qed.

(** ** The reads of a bitmap *)

Section bitmap_reads.
Context `{Cpu} {S : Type} `{StoreLaws S} (bm : S) (Hbm : bitmap_wf bm).

Lemma sorted_entries_wf :
  let es := store_sorted_entries bm in
  Forall entry_wf es ∧ ascending es.*1 ∧ bitmap_values bm = block_values es ∧
  ∀ k c, (k, c) ∈ es ↔ store_entries bm !! k = Some c.
Proof using All.
  cbv zeta. destruct Hbm as [Hs Hm]. rewrite store_sorted_entries_spec by done. split_and!.
  - by apply map_entries_wf.
  - apply entries_of_ascending.
  - done.
  - apply elem_of_entries_of.
Qed.

Lemma entries_get k c : (k, c) ∈ store_sorted_entries bm → store_get bm k = Some c.
Proof using All.
  destruct sorted_entries_wf as (_ & _ & _ & Hin). destruct Hbm as [Hs _]. rewrite store_get_spec by done. apply Hin.
Qed.

Lemma bitmap_values_ascending : ascending (bitmap_values bm).
Proof using All.
  destruct sorted_entries_wf as (Hw & Ha & -> & _). by apply block_values_ascending.
Qed.

Lemma elem_of_bitmap_values v : v ∈ bitmap_values bm ↔ u128 v ∧ member bm v = true.
Proof using All.
  destruct sorted_entries_wf as (Hw & Ha & -> & Hin). rewrite elem_of_block_values by done.
  unfold member, member_map. split; intros [Hv Hc]; (split; [done|]).
  - destruct Hc as (c & He%Hin & Hcon). by rewrite He.
  - destruct (store_entries bm !! (v / 65536)) as [c|] eqn:E; [|done]. exists c. split; [by apply Hin|done].
Qed.

Lemma bitmap_cardinality_values : bitmap_cardinality bm = zlen (bitmap_values bm).
Proof using All.
  destruct sorted_entries_wf as (Hw & Ha & -> & _). destruct Hbm as [Hs _]. unfold bitmap_cardinality.
  rewrite store_cardinality_spec, block_values_length by done. rewrite store_sorted_entries_spec by done.
  apply total_of_entries.
Qed.

Lemma bitmap_iter_values : bitmap_iter bm = bitmap_values bm.
Proof using All.
  destruct sorted_entries_wf as (Hw & Ha & -> & _). unfold bitmap_iter, block_values.
  induction Hw as [|[k c] es (Hc & _ & Hk) Hes IH]; [done|]. rewrite !bind_cons. f_equal; [|by apply IH, (ascending_inv k)].
  cbn [fst snd] in *. by rewrite container_iter_values.
Qed.

Lemma bitmap_rank_values v : u128 v → bitmap_rank bm v = count_le v (bitmap_values bm).
Proof using All.
  intros Hv. destruct sorted_entries_wf as (Hw & Ha & -> & _). unfold bitmap_rank. rewrite decompose_div.
  apply (rank_keys_spec bm _ Hw Ha entries_get v 0).
Qed.

Lemma bitmap_select_values r : 0 ≤ r → bitmap_select bm r = bitmap_values bm !! Z.to_nat r.
Proof using All.
  destruct sorted_entries_wf as (Hw & Ha & -> & _). apply (select_keys_spec bm _ Hw Ha entries_get).
Qed.

Lemma bitmap_iter_page_values offset limit :
  0 ≤ offset → 0 ≤ limit →
  bitmap_iter_page bm offset limit = take (Z.to_nat limit) (drop (Z.to_nat offset) (bitmap_values bm)).
Proof using All.
  intros Ho Hl. destruct sorted_entries_wf as (Hw & Ha & -> & _). unfold bitmap_iter_page, store_key_cards.
  destruct (skip_containers_spec _ offset Hw Ho) as (es' & He & [pre Hpre] & Hs & Hh & Hd).
  fold (key_cards_of (store_sorted_entries bm)). destruct (skip_containers _ _) as [skip rest]. cbn [fst snd] in *. subst rest.
  pose proof entries_get as Hget. rewrite Hpre in Hw, Ha, Hget. rewrite fmap_app in Ha.
  apply Forall_app in Hw as [_ Hw]. apply ascending_app in Ha as (_ & _ & Ha).
  rewrite (page_loop_spec bm es' Hw Ha) by (done || (intros k c Hin; apply Hget, elem_of_app; by right)).
  by rewrite Hd.
Qed.

Lemma bitmap_min_values : bitmap_min bm = head (bitmap_values bm).
Proof using All.
  pose proof entries_get as Hget. destruct sorted_entries_wf as (Hw & Ha & -> & _). unfold bitmap_min, store_sorted_keys.
  destruct (store_sorted_entries bm) as [|[k c] es]; [done|]. cbn [fmap list_fmap head mbind option_bind fst].
  rewrite (Hget k c) by left. apply Forall_cons in Hw as [(Hc & He & Hk) _]. cbn [fst snd] in *. cbn [mbind option_bind].
  rewrite to_values_min by done. unfold block_values. rewrite bind_cons. cbn [fst snd].
  pose proof (to_values_nonempty c Hc He). by destruct (to_values c).
Qed.

Lemma bitmap_max_values : bitmap_max bm = last (bitmap_values bm).
Proof using All.
  pose proof entries_get as Hget. destruct sorted_entries_wf as (Hw & Ha & -> & _). unfold bitmap_max, store_sorted_keys.
  destruct (store_sorted_entries bm) as [|[k c] es _] using rev_ind; [done|]. rewrite fmap_app, fmap_cons, fmap_nil, last_snoc.
  cbn [mbind option_bind fst]. rewrite (Hget k c) by (apply elem_of_app; right; left).
  apply Forall_app in Hw as [_ [(Hc & He & Hk) _]%Forall_cons]. cbn [fst snd] in *. cbn [mbind option_bind].
  by rewrite last_blocks, to_values_max.
Qed.

Lemma bitmap_is_empty_values : bitmap_is_empty bm = bool_decide (bitmap_values bm = []).
Proof using All.
  unfold bitmap_is_empty. pose proof bitmap_cardinality_values as Hc. unfold bitmap_cardinality in Hc. rewrite Hc.
  apply eq_true_iff_eq. rewrite Z.eqb_eq, bool_decide_eq_true. apply zlen_0_nil.
Qed.
End bitmap_reads.

(** ** Properties *)

(** C32: Iterating a bitmap lists its members in ascending order, once each; the
    cardinality is their number, and a page is the slice of that list at its offset,
    reached without walking the containers it skips. *)
Theorem bitmap_iteration_correct `{Cpu} {S : Type} `{StoreLaws S} (bm : S) (offset limit : Z) :
  bitmap_wf bm → 0 ≤ offset → 0 ≤ limit →
  ascending (bitmap_iter bm) ∧ (∀ v, v ∈ bitmap_iter bm ↔ u128 v ∧ bitmap_contains bm v = true) ∧
  bitmap_cardinality bm = zlen (bitmap_iter bm) ∧
  bitmap_iter_page bm offset limit = take (Z.to_nat limit) (drop (Z.to_nat offset) (bitmap_iter bm)).
Proof.
  intros Hbm Ho Hl. rewrite bitmap_iter_values by done. split_and!.
  - by apply bitmap_values_ascending.
  - intros v. by rewrite contains_member, elem_of_bitmap_values.
  - by apply bitmap_cardinality_values.
  - by apply bitmap_iter_page_values.
Qed.

#[local] Existing Instance scalar_cpu.
#[local] Existing Instance flat_cost.
Definition two_values : HeapStore := (bitmap_insert 70000 (bitmap_insert 5 heap_new).1).1.
Lemma two_values_wf : bitmap_wf two_values.
Proof.
  apply insert_member; [apply insert_member; [apply heap_new_bitmap_wf|]|]; unfold u128; lia.
Qed.

Lemma bitmap_iteration_correct_witness :
  ascending (bitmap_iter two_values) ∧
  (∀ v, v ∈ bitmap_iter two_values ↔ u128 v ∧ bitmap_contains two_values v = true) ∧
  bitmap_cardinality two_values = zlen (bitmap_iter two_values) ∧
  bitmap_iter_page two_values 1 10 = take (Z.to_nat 10) (drop (Z.to_nat 1) (bitmap_iter two_values)).
Proof. apply bitmap_iteration_correct; [apply two_values_wf|lia..]. Defined.

(** [rank] and [select] are inverse: the member of rank [r] has [r + 1] members at
    or below it, a member is selected back by its rank less one, and [select] answers
    exactly for the ranks below the cardinality. *)
Theorem bitmap_rank_select_inverse `{Cpu} {S : Type} `{StoreLaws S} (bm : S) :
  bitmap_wf bm →
  (∀ r v, 0 ≤ r → bitmap_select bm r = Some v → bitmap_rank bm v = r + 1) ∧
  (∀ v, u128 v → bitmap_contains bm v = true → bitmap_select bm (bitmap_rank bm v - 1) = Some v) ∧
  (∀ r, 0 ≤ r → is_Some (bitmap_select bm r) ↔ r < bitmap_cardinality bm).
Proof.
  intros Hbm. pose proof (bitmap_values_ascending bm Hbm) as Ha.
  assert (∀ i v, bitmap_values bm !! i = Some v → u128 v ∧ bitmap_rank bm v = Z.of_nat i + 1) as Hrank.
  { intros i v Hi. assert (v ∈ bitmap_values bm) as Hin by (by eapply list_elem_of_lookup_2).
    apply elem_of_bitmap_values in Hin as [Hv _]; [|done]. split; [done|].
    rewrite bitmap_rank_values by done. by apply count_le_lookup. }
  split_and!.
  - intros r v Hr. rewrite bitmap_select_values by done. intros Hs. destruct (Hrank _ _ Hs) as [_ ->]. lia.
  - intros v Hv Hin. rewrite contains_member in Hin by done.
    assert (v ∈ bitmap_values bm) as [i Hi]%list_elem_of_lookup_1 by (by apply elem_of_bitmap_values).
    destruct (Hrank _ _ Hi) as [_ ->]. rewrite bitmap_select_values by (done || lia).
    by replace (Z.to_nat (Z.of_nat i + 1 - 1)) with i by lia.
  - intros r Hr. rewrite bitmap_select_values, bitmap_cardinality_values, lookup_lt_is_Some by done. unfold zlen. lia.
Qed.

Lemma bitmap_rank_select_inverse_witness :
  (∀ r v, 0 ≤ r → bitmap_select two_values r = Some v → bitmap_rank two_values v = r + 1) ∧
  (∀ v, u128 v → bitmap_contains two_values v = true → bitmap_select two_values (bitmap_rank two_values v - 1) = Some v) ∧
  (∀ r, 0 ≤ r → is_Some (bitmap_select two_values r) ↔ r < bitmap_cardinality two_values).
Proof. apply bitmap_rank_select_inverse, two_values_wf. Defined.
