(* ===== verification/BitmapSets.v ===== *)
(** * BitmapSets: set operations, bulk loads and equality of bitmaps

    The merges of [src/minnal_db/src/index/bitmap.rs] over two ordered entry lists
    are characterised by lookups: the entry of the result at a key is a function of
    the operands' entries at that key.  Membership follows from the container
    operations' lemmas. *)
From S2P Require Import Prelude Slices U16Set ArrayMerge Words Container ContainerStore.
From S2P Require Import ArrayContainer RunContainer BitsetContainer ContainerOps Bitmap BitmapReads.

(** ** Entry lists as partial functions *)

Fixpoint find_key (es : list (Z * Container)) (k : Z) : option Container :=
  match es with
  | [] => None
  | (k', c) :: es => if k' =? k then Some c else find_key es k
  end.

Lemma find_key_None es k : k ∉ es.*1 → find_key es k = None.
Proof.
  induction es as [|[k' c] es IH]; [done|]. rewrite fmap_cons, not_elem_of_cons. intros [Hne Hin]. cbn in *.
  rewrite (proj2 (Z.eqb_neq _ _)) by done. by apply IH.
Qed.

Lemma find_key_below es k k' : ascending (k' :: es.*1) → k ≤ k' → find_key es k = None.
Proof.
  intros [_ Hlt]%ascending_inv Hle. apply find_key_None. intros Hin. specialize (Hlt k Hin). lia.
Qed.

Lemma find_key_Some es k c : ascending es.*1 → (find_key es k = Some c ↔ (k, c) ∈ es).
Proof.
  induction es as [|[k' c'] es IH]; intros Ha; [by rewrite elem_of_nil|].
  cbn [find_key]. rewrite elem_of_cons. pose proof (ascending_inv _ _ Ha) as [Ha' Hlt]. specialize (IH Ha').
  destruct (Z.eqb_spec k' k) as [->|Hne]; [|naive_solver].
  split; [intros [= ->]; by left|]. intros [[= ->]|Hin]; [done|].
  specialize (Hlt k). cbn in Hlt. enough (k < k) by lia. apply Hlt, list_elem_of_fmap. by exists (k, c).
Qed.

Lemma find_key_entries m k : find_key (entries_of m) k = m !! k.
Proof.
  apply option_eq. intros c. rewrite find_key_Some by apply entries_of_ascending. apply elem_of_entries_of.
Qed.

(** An empty container is not stored. *)
Definition stored (c : Container) (old : option Container) : option Container :=
  if container_is_empty c then old else Some c.

Section entries.
Context `{Cpu} `{HeapCost}.

Lemma put_lookup key c r k :
  hs_map (put key c r) !! k = if key =? k then Some c else hs_map r !! k.
Proof using.
  unfold put, heap_upsert. cbv zeta.
  assert (<[key:=c]> (hs_map r) !! k = if key =? k then Some c else hs_map r !! k) as Hins.
  { destruct (Z.eqb_spec key k) as [->|]; [by rewrite lookup_insert_eq|by rewrite lookup_insert_ne]. }
  by destruct (hs_map r !! key).
Qed.

Lemma put_nonempty_lookup key c r k :
  hs_map (put_nonempty key c r) !! k = if key =? k then stored c (hs_map r !! k) else hs_map r !! k.
Proof using.
  unfold put_nonempty, stored. destruct (container_is_empty c); cbn [negb]; [by case_match|]. apply put_lookup.
Qed.

Lemma put_wf key c r : heap_wf r → heap_wf (put key c r).
Proof using. apply heap_upsert_spec. Qed.
Lemma put_nonempty_wf key c r : heap_wf r → heap_wf (put_nonempty key c r).
Proof using. intros Hr. unfold put_nonempty. case_match; [by apply put_wf|done]. Qed.

(** *** Intersection *)
Lemma and_entries_cons ak av xs bk bv ys r :
  and_entries ((ak, av) :: xs) ((bk, bv) :: ys) r =
    match ak ?= bk with
    | Lt => and_entries xs ((bk, bv) :: ys) r
    | Gt => and_entries ((ak, av) :: xs) ys r
    | Eq => and_entries xs ys (put_nonempty ak (container_and av bv) r)
    end.
Proof using. done. Qed.

Definition and_at (x y old : option Container) : option Container :=
  match x, y with Some a, Some b => stored (container_and a b) old | _, _ => old end.

Lemma and_entries_spec xs ys r :
  ascending xs.*1 → ascending ys.*1 → heap_wf r →
  heap_wf (and_entries xs ys r) ∧
  ∀ k, hs_map (and_entries xs ys r) !! k = and_at (find_key xs k) (find_key ys k) (hs_map r !! k).
Proof using.
  revert ys r. induction xs as [|[ak av] xs IHx]; [by destruct ys|].
  intros ys. induction ys as [|[bk bv] ys IHy]; intros r Hx Hy Hr.
  { split; [done|]. intros k. cbn -[find_key]. by destruct (find_key _ k). }
  pose proof (ascending_inv _ _ Hx) as [Hx' _]. pose proof (ascending_inv _ _ Hy) as [Hy' _].
  rewrite and_entries_cons. destruct (Z.compare_spec ak bk) as [->|Hlt|Hgt].
  - destruct (IHx ys (put_nonempty bk (container_and av bv) r)) as [Hw Hm]; [done..|by apply put_nonempty_wf|].
    split; [done|]. intros k. rewrite Hm, put_nonempty_lookup. cbn [find_key].
    destruct (Z.eqb_spec bk k) as [->|]; [|done]. by rewrite (find_key_below xs k k) by (done || lia).
  - destruct (IHx ((bk, bv) :: ys) r) as [Hw Hm]; [done..|]. split; [done|]. intros k. rewrite Hm. cbn [find_key].
    destruct (Z.eqb_spec ak k) as [->|]; [|done]. rewrite (find_key_below xs k k) by (done || lia).
    rewrite (proj2 (Z.eqb_neq _ _)) by lia. by rewrite (find_key_below ys k bk) by (done || lia).
  - destruct (IHy r) as [Hw Hm]; [done..|]. split; [done|]. intros k. rewrite Hm. cbn [find_key].
    destruct (Z.eqb_spec bk k) as [->|]; [|done]. rewrite (proj2 (Z.eqb_neq _ _)) by lia.
    rewrite (find_key_below ys k k), (find_key_below xs k ak) by (done || lia). done.
Qed.

(** *** Union *)
Lemma or_entries_cons ak av xs bk bv ys r :
  or_entries ((ak, av) :: xs) ((bk, bv) :: ys) r =
    match ak ?= bk with
    | Lt => or_entries xs ((bk, bv) :: ys) (put ak av r)
    | Gt => or_entries ((ak, av) :: xs) ys (put bk bv r)
    | Eq => or_entries xs ys (put ak (container_or av bv) r)
    end.
Proof using. done. Qed.

Lemma put_all_spec xs r :
  ascending xs.*1 → heap_wf r →
  heap_wf (foldl (λ r p, put p.1 p.2 r) r xs) ∧
  ∀ k, hs_map (foldl (λ r p, put p.1 p.2 r) r xs) !! k =
    match find_key xs k with Some c => Some c | None => hs_map r !! k end.
Proof using.
  revert r. induction xs as [|[k' c] xs IH]; intros r Hx Hr; [done|]. pose proof (ascending_inv _ _ Hx) as [Hx' _].
  cbn [foldl fst snd]. destruct (IH (put k' c r)) as [Hw Hm]; [done|by apply put_wf|]. split; [done|].
  intros k. rewrite Hm, put_lookup. cbn [find_key]. destruct (Z.eqb_spec k' k) as [->|]; [|done].
  by rewrite (find_key_below xs k k) by (done || lia).
Qed.

Definition or_at (x y old : option Container) : option Container :=
  match x, y with
  | Some a, Some b => Some (container_or a b)
  | Some c, None | None, Some c => Some c
  | None, None => old
  end.

Lemma or_entries_spec xs ys r :
  ascending xs.*1 → ascending ys.*1 → heap_wf r →
  heap_wf (or_entries xs ys r) ∧
  ∀ k, hs_map (or_entries xs ys r) !! k = or_at (find_key xs k) (find_key ys k) (hs_map r !! k).
Proof using.
  revert ys r. induction xs as [|[ak av] xs IHx].
  { intros ys r _ Hy Hr. assert (or_entries [] ys r = foldl (λ r p, put p.1 p.2 r) r ys) as -> by (by destruct ys).
    destruct (put_all_spec ys r Hy Hr) as [Hw Hm]. split; [done|]. intros k. rewrite Hm. by destruct (find_key ys k). }
  intros ys. induction ys as [|[bk bv] ys IHy]; intros r Hx Hy Hr.
  { destruct (put_all_spec ((ak, av) :: xs) r Hx Hr) as [Hw Hm]. split; [done|]. intros k.
    change (or_entries _ _ _) with (foldl (λ r p, put p.1 p.2 r) r ((ak, av) :: xs)). rewrite Hm.
    by destruct (find_key _ k). }
  pose proof (ascending_inv _ _ Hx) as [Hx' _]. pose proof (ascending_inv _ _ Hy) as [Hy' _].
  rewrite or_entries_cons. destruct (Z.compare_spec ak bk) as [->|Hlt|Hgt].
  - destruct (IHx ys (put bk (container_or av bv) r)) as [Hw Hm]; [done..|by apply put_wf|].
    split; [done|]. intros k. rewrite Hm, put_lookup. cbn [find_key]. destruct (Z.eqb_spec bk k) as [->|]; [|done].
    by rewrite (find_key_below xs k k), (find_key_below ys k k) by (done || lia).
  - destruct (IHx ((bk, bv) :: ys) (put ak av r)) as [Hw Hm]; [done..|by apply put_wf|]. split; [done|].
    intros k. rewrite Hm, put_lookup. cbn [find_key]. destruct (Z.eqb_spec ak k) as [->|]; [|done].
    rewrite (find_key_below xs k k), (proj2 (Z.eqb_neq bk k)), (find_key_below ys k bk) by (done || lia). done.
  - destruct (IHy (put bk bv r)) as [Hw Hm]; [done..|by apply put_wf|]. split; [done|].
    intros k. rewrite Hm, put_lookup. cbn [find_key]. destruct (Z.eqb_spec bk k) as [->|]; [|done].
    rewrite (proj2 (Z.eqb_neq ak k)), (find_key_below ys k k), (find_key_below xs k ak) by (done || lia). done.
Qed.

(** *** Difference *)
Lemma skip_keys_spec ak ys :
  ascending ys.*1 →
  suffix (skip_keys ak ys) ys ∧
  (∀ k, ak ≤ k → find_key (skip_keys ak ys) k = find_key ys k) ∧
  (∀ p, head (skip_keys ak ys) = Some p → ak ≤ p.1).
Proof using.
  induction ys as [|[bk bv] ys IH]; intros Hy; [done|]. pose proof (ascending_inv _ _ Hy) as [Hy' _].
  cbn [skip_keys]. destruct (Z.ltb_spec bk ak).
  - destruct (IH Hy') as (Hs & Hf & Hh). split_and!; [by apply suffix_cons_r| |done].
    intros k Hk. cbn [find_key]. rewrite (proj2 (Z.eqb_neq _ _)) by lia. by apply Hf.
  - split_and!; [done|done|]. intros p [= <-]. done.
Qed.

Definition and_not_at (x y old : option Container) : option Container :=
  match x with
  | Some a => stored (match y with Some b => container_and_not a b | None => a end) old
  | None => old
  end.

Lemma and_not_entries_spec xs ys r :
  ascending xs.*1 → ascending ys.*1 → heap_wf r →
  heap_wf (and_not_entries xs ys r) ∧
  ∀ k, hs_map (and_not_entries xs ys r) !! k = and_not_at (find_key xs k) (find_key ys k) (hs_map r !! k).
Proof using.
  revert ys r. induction xs as [|[ak av] xs IH]; intros ys r Hx Hy Hr; [done|].
  pose proof (ascending_inv _ _ Hx) as [Hx' Hxlt]. cbn [and_not_entries]. cbv zeta.
  destruct (skip_keys_spec ak ys Hy) as (Hs & Hf & Hh).
  set (rest := skip_keys ak ys) in *. clearbody rest.
  set (step := match rest with
    | [] => (av, []) | (bk, bv) :: ys' => if bk =? ak then (container_and_not av bv, ys') else (av, rest) end).
  assert (ascending rest.*1) as Hrest.
  { destruct Hs as [pre ->]. rewrite fmap_app in Hy. by apply ascending_app in Hy as (_ & _ & ?). }
  assert (step.1 = match find_key ys ak with Some b => container_and_not av b | None => av end ∧
    ascending step.2.*1 ∧ ∀ k, ak < k → find_key step.2 k = find_key ys k) as (Hc & Ha & Hfind).
  { unfold step. clear step. rewrite <-Hf by lia. destruct rest as [|[bk bv] ys']; cbn [find_key].
    - split_and!; [done..|]. intros k Hk. rewrite <-Hf by lia. done.
    - specialize (Hh _ eq_refl). cbn in Hh. pose proof (ascending_inv _ _ Hrest) as [Hys' _].
      destruct (Z.eqb_spec bk ak) as [->|]; cbn [fst snd].
      + split_and!; [done..|]. intros k Hk. rewrite <-Hf by lia. cbn [find_key].
        by rewrite (proj2 (Z.eqb_neq _ _)) by lia.
      + rewrite (find_key_below ys' ak bk) by (done || lia). split_and!; [done..|]. intros k Hk. rewrite <-Hf by lia. done. }
  destruct step as [c ys1]. cbn [fst snd] in *. subst c.
  destruct (IH ys1 (put_nonempty ak (match find_key ys ak with Some b => container_and_not av b | None => av end) r))
    as [Hw Hm]; [done..|by apply put_nonempty_wf|].
  split; [done|]. intros k. rewrite Hm, put_nonempty_lookup. cbn [find_key]. destruct (Z.eqb_spec ak k) as [->|Hne].
  - by rewrite (find_key_below xs k k) by (done || lia).
  - destruct (find_key xs k) as [a|] eqn:E; [|done]. unfold and_not_at. rewrite Hfind; [done|].
    apply find_key_Some in E; [|done]. apply Hxlt, list_elem_of_fmap. by exists (k, a).
Qed.

(** *** Range merges: clipped containers *)
Lemma range_or_entries_cons clip ak ac xs bk bc ys r :
  range_or_entries clip ((ak, ac) :: xs) ((bk, bc) :: ys) r =
    match ak ?= bk with
    | Lt => range_or_entries clip xs ((bk, bc) :: ys) (put_nonempty ak (clip ak ac) r)
    | Gt => range_or_entries clip ((ak, ac) :: xs) ys (put_nonempty bk (clip bk bc) r)
    | Eq => range_or_entries clip xs ys (put_nonempty ak (clip ak (container_or ac bc)) r)
    end.
Proof using. done. Qed.

Definition range_or_at (clip : Container → Container) (x y old : option Container) : option Container :=
  match or_at x y None with Some c => stored (clip c) old | None => old end.

Lemma range_or_entries_spec clip xs ys r :
  ascending xs.*1 → ascending ys.*1 → heap_wf r →
  heap_wf (range_or_entries clip xs ys r) ∧
  ∀ k, hs_map (range_or_entries clip xs ys r) !! k =
    range_or_at (clip k) (find_key xs k) (find_key ys k) (hs_map r !! k).
Proof using.
  revert ys r. induction xs as [|[ak av] xs IHx].
  { intros ys. induction ys as [|[bk bv] ys IHy]; intros r Hx Hy Hr; [done|].
    pose proof (ascending_inv _ _ Hy) as [Hy' _].
    change (range_or_entries clip [] ((bk, bv) :: ys) r) with (range_or_entries clip [] ys (put_nonempty bk (clip bk bv) r)).
    destruct (IHy (put_nonempty bk (clip bk bv) r)) as [Hw Hm]; [done..|by apply put_nonempty_wf|]. split; [done|].
    intros k. rewrite Hm, put_nonempty_lookup. cbn [find_key]. destruct (Z.eqb_spec bk k) as [->|]; [|done].
    by rewrite (find_key_below ys k k) by (done || lia). }
  intros ys. induction ys as [|[bk bv] ys IHy]; intros r Hx Hy Hr;
    pose proof (ascending_inv _ _ Hx) as [Hx' _].
  { change (range_or_entries clip ((ak, av) :: xs) [] r) with (range_or_entries clip xs [] (put_nonempty ak (clip ak av) r)).
    destruct (IHx [] (put_nonempty ak (clip ak av) r)) as [Hw Hm]; [done..|by apply put_nonempty_wf|]. split; [done|].
    intros k. rewrite Hm, put_nonempty_lookup. cbn [find_key]. destruct (Z.eqb_spec ak k) as [->|]; [|done].
    by rewrite (find_key_below xs k k) by (done || lia). }
  pose proof (ascending_inv _ _ Hy) as [Hy' _].
  rewrite range_or_entries_cons. destruct (Z.compare_spec ak bk) as [->|Hlt|Hgt].
  - destruct (IHx ys (put_nonempty bk (clip bk (container_or av bv)) r)) as [Hw Hm]; [done..|by apply put_nonempty_wf|].
    split; [done|]. intros k. rewrite Hm, put_nonempty_lookup. cbn [find_key]. destruct (Z.eqb_spec bk k) as [->|]; [|done].
    by rewrite (find_key_below xs k k), (find_key_below ys k k) by (done || lia).
  - destruct (IHx ((bk, bv) :: ys) (put_nonempty ak (clip ak av) r)) as [Hw Hm]; [done..|by apply put_nonempty_wf|].
    split; [done|]. intros k. rewrite Hm, put_nonempty_lookup. cbn [find_key]. destruct (Z.eqb_spec ak k) as [->|]; [|done].
    rewrite (find_key_below xs k k), (proj2 (Z.eqb_neq bk k)), (find_key_below ys k bk) by (done || lia). done.
  - destruct (IHy (put_nonempty bk (clip bk bv) r)) as [Hw Hm]; [done..|by apply put_nonempty_wf|]. split; [done|].
    intros k. rewrite Hm, put_nonempty_lookup. cbn [find_key]. destruct (Z.eqb_spec bk k) as [->|]; [|done].
    rewrite (proj2 (Z.eqb_neq ak k)), (find_key_below ys k k), (find_key_below xs k ak) by (done || lia). done.
Qed.

(** The keys of [range_and], each emitted once. *)
Lemma emit_keys_spec (emit : Z → option Container) ks r :
  ascending ks → heap_wf r →
  let r' := foldl (λ r k, match emit k with Some c => put_nonempty k c r | None => r end) r ks in
  heap_wf r' ∧ ∀ k, hs_map r' !! k =
    if decide (k ∈ ks) then match emit k with Some c => stored c (hs_map r !! k) | None => hs_map r !! k end
    else hs_map r !! k.
Proof using.
  cbv zeta. revert r. induction ks as [|k' ks IH]; intros r Ha Hr; [done|].
  pose proof (ascending_inv _ _ Ha) as [Ha' Hlt]. cbn [foldl].
  set (r1 := match emit k' with Some c => put_nonempty k' c r | None => r end).
  assert (heap_wf r1) as Hr1 by (unfold r1; case_match; [by apply put_nonempty_wf|done]).
  assert (∀ k, hs_map r1 !! k = if decide (k = k') then
    match emit k with Some c => stored c (hs_map r !! k) | None => hs_map r !! k end else hs_map r !! k) as Hl1.
  { intros k. unfold r1. destruct (decide (k = k')) as [->|Hne]; destruct (emit k'); rewrite ?put_nonempty_lookup; try done.
    - by rewrite Z.eqb_refl.
    - by rewrite (proj2 (Z.eqb_neq _ _)) by done. }
  destruct (IH r1 Ha' Hr1) as [Hw Hm]. split; [done|]. intros k. rewrite Hm, Hl1.
  destruct (decide (k = k')) as [->|Hne].
  - rewrite decide_False, decide_True; [done|left|]. intros Hin. specialize (Hlt _ Hin). lia.
  - destruct (decide (k ∈ ks)); [by rewrite decide_True by (by right)|].
    rewrite decide_False; [done|]. by rewrite elem_of_cons; intros [|].
Qed.
End entries.

(** ** Results as sets *)

Lemma stored_member c l : container_wf c → u16 l → member_at (stored c None) l = container_contains c l.
Proof.
  intros Hc Hl. unfold stored. destruct (container_is_empty c) eqn:E; [|done]. cbn. symmetry.
  by apply empty_container_contains.
Qed.

(** A heap store described key by key, with the containers it may hold. *)
Lemma result_member `{HeapCost} (h : HeapStore) (f : Z → bool) :
  heap_wf h →
  (∀ k c, hs_map h !! k = Some c → container_wf c ∧ container_is_empty c = false ∧ 0 ≤ k < 2 ^ 112) →
  (∀ v, u128 v → member_at (hs_map h !! (v / 65536)) (v mod 65536) = f v) →
  bitmap_wf h ∧ ∀ v, u128 v → member h v = f v.
Proof. intros Hw Hm Hf. by split_and!. Qed.

Section sets.
Context `{Cpu} `{HeapCost} {S T : Type} `{StoreLaws S} `{StoreLaws T}.
Context (self : S) (other : T) (Hself : bitmap_wf self) (Hother : bitmap_wf other).

Lemma find_key_store {R} `{StoreLaws R} (bm : R) k :
  bitmap_wf bm → find_key (store_sorted_entries bm) k = store_entries bm !! k.
Proof using.
  intros [Hs _]. rewrite store_sorted_entries_spec by done. apply find_key_entries.
Qed.

Lemma entries_ascending {R} `{StoreLaws R} (bm : R) : bitmap_wf bm → ascending (store_sorted_entries bm).*1.
Proof using. intros [Hs _]. rewrite store_sorted_entries_spec by done. apply entries_of_ascending. Qed.

Lemma entry_at {R} `{StoreLaws R} (bm : R) k c :
  bitmap_wf bm → store_entries bm !! k = Some c → container_wf c ∧ container_is_empty c = false ∧ 0 ≤ k < 2 ^ 112.
Proof using. intros [_ Hm]. apply Hm. Qed.

Lemma nonempty_or c d : container_wf c → container_wf d → container_is_empty c = false → container_is_empty (container_or c d) = false.
Proof using.
  intros Hc Hd He. destruct (container_or_spec c d Hc Hd) as [Hw Hor].
  destruct (to_values c) as [|l vs] eqn:E; [by apply to_values_nonempty in E|].
  assert (l ∈ to_values c) as Hl by (rewrite E; left).
  assert (u16 l) as Hu by (pose proof (to_values_u16 c Hc) as Hall; rewrite Forall_forall in Hall; by apply Hall).
  destruct (container_is_empty (container_or c d)) eqn:Ho; [|done].
  pose proof (empty_container_contains _ l Hw Ho Hu) as Hno. rewrite Hor in Hno by done.
  apply orb_false_iff in Hno as [Hno _]. rewrite contains_to_values in Hno by done. by apply bool_decide_eq_false in Hno.
Qed.

(** The stored entry of a non-empty result. *)
Lemma stored_Some c c' : stored c None = Some c' → c' = c ∧ container_is_empty c = false.
Proof using. unfold stored. destruct (container_is_empty c); naive_solver. Qed.

Lemma and_member :
  bitmap_wf (bitmap_and self other) ∧
  ∀ v, u128 v → member (bitmap_and self other) v = member self v && member other v.
Proof using All.
  destruct (and_entries_spec _ _ _ (entries_ascending self Hself) (entries_ascending other Hother) heap_new_wf) as [Hw Hm].
  fold (bitmap_and self other) in Hw, Hm.
  assert (∀ k, hs_map (bitmap_and self other) !! k =
    and_at (store_entries self !! k) (store_entries other !! k) None) as Hl.
  { intros k. by rewrite Hm, !find_key_store. }
  apply result_member; [done|intros k c|intros v Hv]; rewrite Hl; unfold member, member_map;
    destruct (store_entries self !! _) as [a|] eqn:Ea, (store_entries other !! _) as [b|] eqn:Eb; cbn [and_at];
    try done; destruct (entry_at self _ _ Hself Ea) as (Hca & _ & Hk);
    try (destruct (entry_at other _ _ Hother Eb) as (Hcb & _); destruct (container_and_spec a b Hca Hcb) as [Hc Hin]).
  - intros [-> ?]%stored_Some. done.
  - rewrite stored_member by (done || apply low_u16). apply Hin, low_u16.
  - cbn. by rewrite andb_false_r.
Qed.

Lemma or_member :
  bitmap_wf (bitmap_or self other) ∧
  ∀ v, u128 v → member (bitmap_or self other) v = member self v || member other v.
Proof using All.
  destruct (or_entries_spec _ _ _ (entries_ascending self Hself) (entries_ascending other Hother) heap_new_wf) as [Hw Hm].
  fold (bitmap_or self other) in Hw, Hm.
  assert (∀ k, hs_map (bitmap_or self other) !! k =
    or_at (store_entries self !! k) (store_entries other !! k) None) as Hl.
  { intros k. by rewrite Hm, !find_key_store. }
  apply result_member; [done|intros k c|intros v Hv]; rewrite Hl; unfold member, member_map;
    destruct (store_entries self !! _) as [a|] eqn:Ea, (store_entries other !! _) as [b|] eqn:Eb; cbn [or_at]; try done.
  - intros [= <-]. destruct (entry_at self _ _ Hself Ea) as (Hca & Hea & Hk), (entry_at other _ _ Hother Eb) as (Hcb & _).
    split; [by apply container_or_spec|]. split; [by apply nonempty_or|done].
  - intros [= <-]. by apply (entry_at self).
  - intros [= <-]. by apply (entry_at other).
  - destruct (entry_at self _ _ Hself Ea) as (Hca & Hea & Hk), (entry_at other _ _ Hother Eb) as (Hcb & _).
    apply container_or_spec; [done..|apply low_u16].
  - cbn. by rewrite orb_false_r.
Qed.

(** The key at which the operands store a run container each. *)
Definition runs_meet (v : Z) : bool :=
  match store_entries self !! (v / 65536), store_entries other !! (v / 65536) with
  | Some a, Some b => both_runs a b
  | _, _ => false
  end.

Lemma and_not_member :
  bitmap_wf (bitmap_and_not self other) ∧
  ∀ v, u128 v → member (bitmap_and_not self other) v =
    member self v && (negb (member other v) || (runs_meet v && (v mod 65536 =? U16_MAX))).
Proof using All.
  destruct (and_not_entries_spec _ _ _ (entries_ascending self Hself) (entries_ascending other Hother) heap_new_wf) as [Hw Hm].
  fold (bitmap_and_not self other) in Hw, Hm.
  assert (∀ k, hs_map (bitmap_and_not self other) !! k =
    and_not_at (store_entries self !! k) (store_entries other !! k) None) as Hl.
  { intros k. by rewrite Hm, !find_key_store. }
  apply result_member; [done|intros k c|intros v Hv]; rewrite Hl; unfold member, member_map, runs_meet;
    destruct (store_entries self !! _) as [a|] eqn:Ea, (store_entries other !! _) as [b|] eqn:Eb; cbn [and_not_at];
    try done; destruct (entry_at self _ _ Hself Ea) as (Hca & Hea & Hk);
    try (destruct (entry_at other _ _ Hother Eb) as (Hcb & _); destruct (container_and_not_spec a b Hca Hcb) as [Hc Hin]).
  1,2: intros [-> ?]%stored_Some; done.
  - rewrite stored_member by (done || apply low_u16). apply Hin, low_u16.
  - rewrite stored_member by (done || apply low_u16). cbn. by rewrite andb_true_r.
Qed.

(** *** Ranges *)

Section range.
Context (lo hi : Z) (Hlo : u128 lo) (Hhi : u128 hi) (Hlt : lo < hi).

Abbreviation clip := (clip_block (lo / 65536) (lo mod 65536) ((hi - 1) / 65536) ((hi - 1) mod 65536)).

Lemma clip_block_member k c :
  lo / 65536 ≤ k ≤ (hi - 1) / 65536 → container_wf c →
  container_wf (clip k c) ∧
  ∀ v, u128 v → v / 65536 = k →
    container_contains (clip k c) (v mod 65536) = container_contains c (v mod 65536) && (lo <=? v) && (v <? hi).
Proof using Hlo Hhi Hlt.
  intros Hk Hc. unfold clip_block. cbv zeta.
  set (a := if k =? lo / 65536 then lo mod 65536 else 0).
  set (b := if k =? (hi - 1) / 65536 then (hi - 1) mod 65536 else U16_MAX).
  pose proof (low_u16 lo). pose proof (low_u16 (hi - 1)).
  assert (u16 a ∧ u16 b) as [Ha Hb] by (unfold a, b; split; case_match; done).
  assert (a ≤ b) as Hab.
  { unfold a, b, U16_MAX, u16 in *. pose proof (Z.div_mod lo 65536 ltac:(lia)). pose proof (Z.div_mod (hi - 1) 65536 ltac:(lia)).
    destruct (Z.eqb_spec k (lo / 65536)), (Z.eqb_spec k ((hi - 1) / 65536)); lia. }
  destruct (clip_to_range_spec a b Ha Hb Hab c Hc) as [Hw Hin]. split; [done|].
  intros v Hv <-. rewrite Hin by apply low_u16. rewrite <-andb_assoc. f_equal.
  unfold u128 in *. rewrite <-(blocks_range lo hi v) by lia. unfold in_block.
  rewrite (proj2 (Z.leb_le (lo / 65536) (v / 65536))), (proj2 (Z.ltb_lt (v / 65536) _)) by lia. done.
Qed.

(** Outside the window of keys nothing is in the range. *)
Lemma outside_window v :
  u128 v → ¬ (lo / 65536 ≤ v / 65536 ≤ (hi - 1) / 65536) → (lo <=? v) && (v <? hi) = false.
Proof using Hlo.
  intros Hv Hout. apply andb_false_iff. rewrite Z.leb_gt, Z.ltb_ge.
  destruct (Z.lt_ge_cases v lo) as [|Hge]; [by left|]. destruct (Z.le_gt_cases hi v) as [|Hle]; [by right|].
  exfalso. apply Hout. split; apply Z.div_le_mono; lia.
Qed.

Definition in_window (k : Z) : Prop := lo / 65536 ≤ k ∧ k ≤ (hi - 1) / 65536.
#[local] Instance in_window_dec k : Decision (in_window k).
Proof using. unfold in_window. apply _. Defined.

Lemma find_key_window es k :
  find_key (filter (λ p : Z * Container, in_window p.1) es) k = if decide (in_window k) then find_key es k else None.
Proof using.
  induction es as [|[k' c] es IH]; [by case_decide|]. rewrite filter_cons. cbn [fst find_key].
  destruct (decide (in_window k')); cbn [find_key]; rewrite IH; destruct (Z.eqb_spec k' k) as [->|]; try done;
    by case_decide.
Qed.

Lemma window_ascending (es : list (Z * Container)) :
  ascending es.*1 → ascending (filter (λ p : Z * Container, in_window p.1) es).*1.
Proof using.
  intros Ha. rewrite <-(filter_fmap fst in_window). by apply ascending_filter.
Qed.

Lemma range_lookup_member (h : HeapStore) (f : Z → option Container) (g : Z → bool) :
  heap_wf h →
  (∀ k, hs_map h !! k = if decide (in_window k) then match f k with Some c => stored (clip k c) None | None => None end else None) →
  (∀ k c, f k = Some c → container_wf c ∧ 0 ≤ k < 2 ^ 112) →
  (∀ v, u128 v → member_at (f (v / 65536)) (v mod 65536) = g v) →
  bitmap_wf h ∧ ∀ v, u128 v → member h v = g v && (lo <=? v) && (v <? hi).
Proof using Hlo Hhi Hlt.
  intros Hw Hl Hf Hg. apply result_member; [done|intros k c|intros v Hv]; rewrite Hl.
  - destruct (decide (in_window k)) as [Hwin|]; [|done]. destruct (f k) as [c1|] eqn:E; [|done].
    destruct (Hf _ _ E) as [Hc Hk]. intros [-> He]%stored_Some. split; [by apply clip_block_member|done].
  - rewrite <-Hg by done. destruct (decide (in_window (v / 65536))) as [Hwin|Hout].
    + destruct (f (v / 65536)) as [c|] eqn:E; [|done]. destruct (Hf _ _ E) as [Hc Hk].
      destruct (clip_block_member _ c Hwin Hc) as [Hcw Hin].
      rewrite stored_member by (done || apply low_u16). by apply Hin.
    + rewrite <-andb_assoc, outside_window by done. by rewrite andb_false_r.
Qed.

Lemma range_or_member :
  bitmap_wf (bitmap_range_or self other lo hi) ∧
  ∀ v, u128 v → member (bitmap_range_or self other lo hi) v = (member self v || member other v) && (lo <=? v) && (v <? hi).
Proof using All.
  unfold bitmap_range_or. rewrite (proj2 (Z.leb_gt hi lo)), !decompose_div by done. cbv zeta.
  set (xs := filter _ (store_sorted_entries self)). set (ys := filter _ (store_sorted_entries other)).
  destruct (range_or_entries_spec clip xs ys heap_new) as [Hw Hm];
    [by apply window_ascending, entries_ascending..|apply heap_new_wf|].
  apply (range_lookup_member _ (λ k, or_at (store_entries self !! k) (store_entries other !! k) None)); [done| | |].
  - intros k. rewrite Hm. unfold xs, ys, range_or_at. change (hs_map heap_new !! k) with (@None Container).
    rewrite !find_key_window, !find_key_store by done. by destruct (decide (in_window k)).
  - intros k c. destruct (store_entries self !! k) as [a|] eqn:Ea, (store_entries other !! k) as [b|] eqn:Eb; cbn [or_at]; intros [= <-].
    + destruct (entry_at self _ _ Hself Ea) as (Hca & _ & Hk), (entry_at other _ _ Hother Eb) as (Hcb & _).
      split; [by apply container_or_spec|done].
    + by destruct (entry_at self _ _ Hself Ea) as (? & _ & ?).
    + by destruct (entry_at other _ _ Hother Eb) as (? & _ & ?).
  - intros v Hv. unfold member, member_map.
    destruct (store_entries self !! _) as [a|] eqn:Ea, (store_entries other !! _) as [b|] eqn:Eb; cbn [or_at]; try done.
    + destruct (entry_at self _ _ Hself Ea) as (Hca & _), (entry_at other _ _ Hother Eb) as (Hcb & _).
      apply container_or_spec; [done..|apply low_u16].
    + cbn. by rewrite orb_false_r.
Qed.

Lemma range_and_member :
  bitmap_wf (bitmap_range_and self other lo hi) ∧
  ∀ v, u128 v → member (bitmap_range_and self other lo hi) v = member self v && member other v && (lo <=? v) && (v <? hi).
Proof using All.
  unfold bitmap_range_and. rewrite (proj2 (Z.leb_gt hi lo)), !decompose_div by done.
  set (both := λ k, match store_entries self !! k, store_entries other !! k with
    | Some a, Some b => Some (container_and a b) | _, _ => None end).
  set (emit := λ k, clip k <$> both k).
  assert (∀ ks r, foldl (λ r k, match store_get other k, store_get self k with
      | Some b, Some a => put_nonempty k (clip k (container_and a b)) r | _, _ => r end) r ks =
    foldl (λ r k, match emit k with Some c => put_nonempty k c r | None => r end) r ks) as Hfold.
  { intros ks. induction ks as [|k ks IH]; intros r; [done|]. cbn [foldl]. rewrite IH. f_equal. unfold emit, both.
    destruct Hself as [Hs _], Hother as [Ho _]. rewrite !store_get_spec by done. by destruct (store_entries self !! k), (store_entries other !! k). }
  rewrite Hfold. clear Hfold.
  destruct (emit_keys_spec emit (filter in_window (store_sorted_keys self)) heap_new) as [Hw Hm];
    [by apply ascending_filter, entries_ascending|apply heap_new_wf|].
  apply (range_lookup_member _ both); [done| | |].
  - intros k. rewrite Hm. change (hs_map heap_new !! k) with (@None Container).
    unfold emit. destruct (decide (in_window k)) as [Hin|Hout].
    + destruct (decide (k ∈ _)) as [Hk|Hk]; [by destruct (both k)|]. destruct (both k) as [c|] eqn:E; [|done].
      exfalso. apply Hk, list_elem_of_filter. split; [done|]. unfold both in E.
      destruct (store_entries self !! k) as [a|] eqn:Ea; [|done]. unfold store_sorted_keys. apply list_elem_of_fmap.
      exists (k, a). split; [done|]. apply find_key_Some; [by apply entries_ascending|]. by rewrite find_key_store.
    + rewrite decide_False; [done|]. by intros [? _]%list_elem_of_filter.
  - intros k c. unfold both. destruct (store_entries self !! k) as [a|] eqn:Ea, (store_entries other !! k) as [b|] eqn:Eb; intros [= <-].
    destruct (entry_at self _ _ Hself Ea) as (Hca & _ & Hk), (entry_at other _ _ Hother Eb) as (Hcb & _).
    split; [by apply container_and_spec|done].
  - intros v Hv. unfold both, member, member_map.
    destruct (store_entries self !! _) as [a|] eqn:Ea, (store_entries other !! _) as [b|] eqn:Eb; cbn [member_at]; try done.
    + destruct (entry_at self _ _ Hself Ea) as (Hca & _), (entry_at other _ _ Hother Eb) as (Hcb & _).
      apply container_and_spec; [done..|apply low_u16].
    + by rewrite andb_false_r.
Qed.
End range.
End sets.

(** ** Bulk load *)

Section load.
Context `{Cpu} `{HeapCost}.

Lemma build_container_spec lows :
  ascending lows → Forall u16 lows → lows ≠ [] →
  container_wf (build_container lows) ∧ container_is_empty (build_container lows) = false ∧
  ∀ l, u16 l → container_contains (build_container lows) l = bool_decide (l ∈ lows).
Proof using.
  intros Ha Hu Hne. assert (0 < zlen lows) as Hpos.
  { pose proof (zlen_nonneg lows). enough (zlen lows ≠ 0) by lia. by rewrite zlen_0_nil. }
  unfold build_container. destruct (Z.leb_spec ARRAY_TO_BITSET_THRESHOLD (zlen lows)) as [Hbig|Hsmall].
  - destruct (bitset_from_sorted_values_spec _ Hu) as [Hw Hin].
    assert (container_cardinality (CBitset (bitset_from_sorted_values lows)) = zlen lows) as Hcard.
    { assert (set_values (bitset_from_sorted_values lows) = lows) as Hv.
      { apply ascending_ext; [by apply values_ascending|done|]. intros v.
        rewrite elem_of_values by done. pose proof Hu as Hu'. rewrite Forall_forall in Hu'. split.
        - intros [Hv Hc]. change (bitset_contains (bitset_from_sorted_values lows) v = true) in Hc.
          rewrite Hin in Hc by done. by apply bool_decide_eq_true in Hc.
        - intros Hv. split; [by apply Hu'|]. change (bitset_contains (bitset_from_sorted_values lows) v = true).
          rewrite Hin by (by apply Hu'). by apply bool_decide_eq_true. }
      rewrite <-Hv at 2. change (set_card (bitset_from_sorted_values lows) = zlen (set_values (bitset_from_sorted_values lows))). by apply card_values. }
    split_and!; [split; [done|]| |done].
    + cbn [container_cardinality] in Hcard. unfold bitset_cardinality, ARRAY_TO_BITSET_THRESHOLD, BITSET_TO_ARRAY_THRESHOLD in *. lia.
    + unfold container_is_empty. rewrite Hcard. apply Z.eqb_neq. lia.
  - split_and!; [done| |].
    + unfold container_is_empty. apply Z.eqb_neq. change (zlen lows ≠ 0). lia.
    + intros l Hl. by apply array_contains_in.
Qed.

(** The list a state of the loader still stands for. *)
Definition pending (current_high : option Z) (lows : list Z) : list Z :=
  match current_high with Some h => compose h <$> lows | None => [] end.

Definition load_inv (current_high : option Z) (lows : list Z) (r : HeapStore) : Prop :=
  bitmap_wf r ∧ ascending lows ∧ Forall u16 lows ∧
  match current_high with
  | Some h => 0 ≤ h < 2 ^ 112 ∧ lows ≠ [] ∧ ∀ k, h ≤ k → hs_map r !! k = None
  | None => lows = [] ∧ hs_map r = ∅
  end.

Lemma put_block_spec h lows r :
  load_inv (Some h) lows r →
  let r' := put h (build_container lows) r in
  bitmap_wf r' ∧ (∀ k, h < k → hs_map r' !! k = None) ∧
  ∀ v, u128 v → member r' v = member r v || bool_decide (v ∈ compose h <$> lows).
Proof using.
  intros ([Hs Hm] & Ha & Hu & Hh & Hne & Habove) r'. destruct (build_container_spec lows Ha Hu Hne) as (Hw & He & Hin).
  unfold r'. split_and!.
  - split; [by apply put_wf|]. intros k c. cbn [store_entries heap_store]. rewrite put_lookup.
    destruct (Z.eqb_spec h k) as [<-|]; [intros [= <-]; done|apply Hm].
  - intros k Hk. rewrite put_lookup, (proj2 (Z.eqb_neq _ _)) by lia. apply Habove. lia.
  - intros v Hv. unfold member, member_map. cbn [store_entries heap_store]. rewrite put_lookup.
    assert (v ∈ compose h <$> lows ↔ v / 65536 = h ∧ v mod 65536 ∈ lows) as Hmem.
    { rewrite list_elem_of_fmap. rewrite Forall_forall in Hu. split.
      - intros (l & -> & Hl). destruct (compose_split h l Hh (Hu _ Hl)) as (_ & -> & ->). done.
      - intros [<- Hl]. exists (v mod 65536). split; [by rewrite compose_decompose|done]. }
    destruct (Z.eqb_spec h (v / 65536)) as [Heq|Hne'].
    + rewrite Habove by lia. cbn [member_at orb]. rewrite Hin by apply low_u16. apply bool_decide_ext. rewrite Hmem. naive_solver.
    + rewrite (bool_decide_false (v ∈ _)) by (rewrite Hmem; naive_solver). by rewrite orb_false_r.
Qed.

Lemma load_loop_spec keys : ∀ current_high lows r,
  load_inv current_high lows r → Forall u128 keys → ascending (pending current_high lows ++ keys) →
  bitmap_wf (load_loop current_high lows keys r) ∧
  ∀ v, u128 v → member (load_loop current_high lows keys r) v =
    member r v || bool_decide (v ∈ pending current_high lows ++ keys).
Proof using.
  induction keys as [|key keys IH]; intros o lows r Hinv Hkeys Hasc; cbn [load_loop].
  - rewrite app_nil_r. destruct o as [h|].
    + by destruct (put_block_spec h lows r Hinv) as (Hw & _ & Hin).
    + destruct Hinv as (Hr & _). split; [done|]. intros v Hv. cbn [pending].
      rewrite bool_decide_false by (by intros ?%not_elem_of_nil). by rewrite orb_false_r.
  - apply Forall_cons in Hkeys as [Hkey Hkeys]. rewrite decompose_div.
    pose proof (compose_decompose key Hkey) as Hcd. pose proof (high_bound key Hkey) as Hhb.
    pose proof (low_u16 key) as Hl16.
    assert (pending (Some (key / 65536)) [key mod 65536] ++ keys = key :: keys) as Hone.
    { cbn [pending fmap list_fmap app]. by rewrite Hcd. }
    case_bool_decide as Ho.
    + subst o. destruct Hinv as (Hr & Ha & Hu & Hh & Hne & Habove).
      assert (pending (Some (key / 65536)) (lows ++ [key mod 65536]) ++ keys =
        pending (Some (key / 65536)) lows ++ key :: keys) as Happ.
      { cbn [pending]. rewrite fmap_app, <-app_assoc. cbn [fmap list_fmap app]. by rewrite Hcd. }
      rewrite <-Happ in Hasc |- *. apply IH; [|done..]. split_and!; [done|..|lia|lia|by destruct lows|done].
      * apply ascending_app. split_and!; [|done|repeat constructor].
        intros x y Hx ->%list_elem_of_singleton. rewrite Forall_forall in Hu.
        rewrite Happ in Hasc. apply ascending_app in Hasc as (Hlt & _ & _). cbn [pending] in Hlt.
        specialize (Hlt (compose (key / 65536) x) key).
        rewrite compose_add in Hlt by (lia || by apply Hu). pose proof (Z.div_mod key 65536 ltac:(lia)).
        enough (key / 65536 * 65536 + x < key) by lia. apply Hlt; [|left].
        apply list_elem_of_fmap. exists x. by rewrite compose_add by (lia || by apply Hu).
      * apply Forall_app. split; [done|]. by apply Forall_singleton.
    + destruct o as [h|].
      * destruct (put_block_spec h lows r Hinv) as (Hw & Habove & Hin). destruct Hinv as (Hr & Ha & Hu & Hh & Hne & _).
        assert (h < key / 65536) as Hlt.
        { destruct lows as [|l lows]; [done|]. apply ascending_app in Hasc as (Hcross & _ & _).
          apply Forall_cons in Hu as [Hl _]. specialize (Hcross (compose h l) key).
          cbn [pending fmap list_fmap] in Hcross. rewrite compose_add in Hcross by done.
          assert (h * 65536 + l < key) as Hck by (apply Hcross; left).
          assert (h ≠ key / 65536) by (intros ->; done).
          enough (h ≤ key / 65536) by lia. unfold u16 in Hl. apply Z.div_le_lower_bound; lia. }
        destruct (IH (Some (key / 65536)) [key mod 65536] (put h (build_container lows) r)) as [Hw' Hin'].
        { split_and!; [done|repeat constructor|by apply Forall_singleton|lia|lia|done|]. intros k Hk. apply Habove. lia. }
        { done. }
        { rewrite Hone. by apply ascending_app in Hasc as (_ & _ & ?). }
        split; [done|]. intros v Hv. rewrite Hin', Hin, Hone, <-orb_assoc by done. f_equal. cbn [pending].
        apply eq_true_iff_eq. by rewrite orb_true_iff, !bool_decide_eq_true, elem_of_app.
      * destruct Hinv as (Hr & _ & _ & -> & Hempty). cbn [app pending] in *. rewrite <-Hone in Hasc |- *. apply IH; [|done..].
        split_and!; [done|repeat constructor|by apply Forall_singleton|lia|lia|done|].
        intros k _. by rewrite Hempty.
Qed.

Lemma from_sorted_iter_member keys :
  ascending keys → Forall u128 keys →
  bitmap_wf (from_sorted_iter keys) ∧
  ∀ v, u128 v → member (from_sorted_iter keys) v = bool_decide (v ∈ keys).
Proof using.
  intros Ha Hu. unfold from_sorted_iter. destruct (load_loop_spec keys None [] heap_new) as [Hw Hin]; [|done..|].
  { split_and!; [apply heap_new_bitmap_wf|constructor|constructor|done|done]. }
  split; [done|]. intros v Hv. by rewrite Hin.
Qed.
End load.

Lemma dedup_cons2 x y l : dedup (x :: y :: l) = if x =? y then dedup (y :: l) else x :: dedup (y :: l).
Proof. done. Qed.

(** [dedup] of a sorted list is strictly ascending with the same elements. *)
Lemma dedup_spec l :
  StronglySorted Z.le l → ascending (dedup l) ∧ ∀ v, v ∈ dedup l ↔ v ∈ l.
Proof.
  induction l as [|x l IH]; [split; [constructor|done]|]. intros Hs.
  destruct l as [|y l]; [split; [repeat constructor|done]|].
  assert (StronglySorted Z.le (y :: l) ∧ Forall (Z.le x) (y :: l)) as [Hl Hx] by (inversion Hs; by subst).
  destruct (IH Hl) as [Ha Hv]. rewrite dedup_cons2. destruct (Z.eqb_spec x y) as [->|Hne].
  - split; [done|]. intros v. rewrite Hv, !elem_of_cons. tauto.
  - split.
    + apply ascending_cons. split; [|done]. apply Forall_forall. intros z Hz%Hv. rewrite Forall_forall in Hx.
      pose proof (Hx y (list_elem_of_here _ _)). pose proof (Hx z Hz).
      assert (y ≤ z); [|lia]. apply elem_of_cons in Hz as [->|Hz]; [lia|].
      inversion Hl as [|?? _ Hall]; subst. rewrite Forall_forall in Hall. by apply Hall.
    + intros v. by rewrite elem_of_cons, Hv, (elem_of_cons _ v x).
Qed.

Lemma from_unsorted_iter_member `{Cpu} `{HeapCost} keys :
  Forall u128 keys →
  bitmap_wf (from_unsorted_iter keys) ∧
  ∀ v, u128 v → member (from_unsorted_iter keys) v = bool_decide (v ∈ keys).
Proof.
  intros Hu. unfold from_unsorted_iter.
  destruct (dedup_spec (merge_sort Z.le keys)) as [Ha Hv]; [apply StronglySorted_merge_sort; apply _|].
  assert (∀ v, v ∈ dedup (merge_sort Z.le keys) ↔ v ∈ keys) as Hin by (intros v; by rewrite Hv, merge_sort_Permutation).
  destruct (from_sorted_iter_member _ Ha) as [Hw Hm].
  { rewrite Forall_forall in Hu |- *. intros v ?%Hin. by apply Hu. }
  split; [done|]. intros v Hv128. rewrite Hm by done. by apply bool_decide_ext.
Qed.

(** ** Copies and equality *)

Section copies.
Context `{Cpu} `{HeapCost} {S T : Type} `{StoreLaws S} `{StoreLaws T}.

(** [clone] keeps every entry, whatever the backing of the original. *)
Lemma clone_entries (bm : S) :
  bitmap_wf bm → heap_wf (bitmap_clone bm) ∧ hs_map (bitmap_clone bm) = store_entries bm.
Proof using All.
  intros Hbm. unfold bitmap_clone.
  destruct (put_all_spec (store_sorted_entries bm) heap_new (entries_ascending bm Hbm) heap_new_wf) as [Hw Hm].
  split; [exact Hw|]. apply map_eq. intros k. unfold put in Hm. rewrite Hm, find_key_store by done.
  by destruct (store_entries bm !! k).
Qed.

Lemma bitmap_eq_entries (self : S) (other : T) :
  bitmap_wf self → bitmap_wf other →
  bitmap_eq self other = bool_decide (store_entries self = store_entries other).
Proof using All.
  intros Hself Hother. unfold bitmap_eq.
  assert (∀ {R} `{Store R} (bm : R), (store_key_cards bm).*1 = (store_sorted_entries bm).*1) as Hkeys.
  { intros R ? bm. unfold store_key_cards. rewrite <-list_fmap_compose. by apply list_fmap_ext. }
  rewrite !Hkeys. pose proof Hself as [Hs _]. pose proof Hother as [Ho _].
  rewrite !store_cardinality_spec, !store_sorted_entries_spec by done.
  apply eq_true_iff_eq. rewrite !andb_true_iff, !bool_decide_eq_true, Z.eqb_eq, forallb_forall. split.
  - intros [[_ Hk] Hall]. apply map_eq. intros k.
    destruct (decide (k ∈ (entries_of (store_entries self)).*1)) as [Hin|Hout].
    + apply list_elem_of_In in Hin. specialize (Hall k Hin). apply bool_decide_eq_true in Hall.
      by rewrite !store_get_spec in Hall by done.
    + rewrite <-!find_key_entries, !find_key_None; [done|by rewrite <-Hk|done].
  - intros He. rewrite He. split_and!; [done..|]. intros k _. apply bool_decide_eq_true. rewrite (store_get_spec self), (store_get_spec other) by done. by f_equal.
Qed.
End copies.

(** ** Properties *)

(** C29: Intersection of two bitmaps, whatever the backing of each, is a well-formed
    bitmap whose members are the members of both. *)
Theorem bitmap_and_correct `{Cpu} `{HeapCost} {S T : Type} `{StoreLaws S} `{StoreLaws T} (self : S) (other : T) :
  bitmap_wf self → bitmap_wf other →
  bitmap_wf (bitmap_and self other) ∧
  bitmap_iter (bitmap_and self other) = filter (λ v, member other v = true) (bitmap_iter self).
Proof.
  intros Hself Hother. destruct (and_member self other Hself Hother) as [Hw Hm]. split; [done|].
  rewrite !bitmap_iter_values by done.
  apply ascending_ext; [by apply bitmap_values_ascending|by apply ascending_filter, bitmap_values_ascending|].
  intros v. rewrite list_elem_of_filter, !elem_of_bitmap_values by done.
  split; [intros [Hv Hin]|intros (Hin & Hv & Hin')]; rewrite Hm in * by done; [apply andb_true_iff in Hin; tauto|].
  by rewrite Hin, Hin'.
Qed.

Definition sample_a : HeapStore := @from_unsorted_iter scalar_cpu flat_cost [70000; 3; 5; 131072; 3].
Definition sample_b : HeapStore := @from_unsorted_iter scalar_cpu flat_cost [5; 131072; 9].
Lemma sample_wf l : Forall u128 l → @bitmap_wf _ (@heap_store flat_cost) (@from_unsorted_iter scalar_cpu flat_cost l).
Proof. intros Hl. by apply (@from_unsorted_iter_member scalar_cpu flat_cost). Qed.
Lemma sample_a_wf : @bitmap_wf _ (@heap_store flat_cost) sample_a.
Proof. apply sample_wf. repeat constructor; unfold u128; lia. Qed.
Lemma sample_b_wf : @bitmap_wf _ (@heap_store flat_cost) sample_b.
Proof. apply sample_wf. repeat constructor; unfold u128; lia. Qed.
#[local] Existing Instance scalar_cpu.
#[local] Existing Instance flat_cost.

Lemma bitmap_and_correct_witness :
  bitmap_wf (bitmap_and sample_a sample_b) ∧
  bitmap_iter (bitmap_and sample_a sample_b) = filter (λ v, member sample_b v = true) (bitmap_iter sample_a).
Proof. apply bitmap_and_correct; [apply sample_a_wf|apply sample_b_wf]. Defined.

(** C30: Union of two bitmaps is a well-formed bitmap whose members are the members of
    either. *)
Theorem bitmap_or_correct `{Cpu} `{HeapCost} {S T : Type} `{StoreLaws S} `{StoreLaws T} (self : S) (other : T) :
  bitmap_wf self → bitmap_wf other →
  bitmap_wf (bitmap_or self other) ∧
  ∀ v, v ∈ bitmap_iter (bitmap_or self other) ↔ v ∈ bitmap_iter self ∨ v ∈ bitmap_iter other.
Proof.
  intros Hself Hother. destruct (or_member self other Hself Hother) as [Hw Hm]. split; [done|].
  intros v. rewrite !bitmap_iter_values, !elem_of_bitmap_values by done. split.
  - intros [Hv Hin]. rewrite Hm, orb_true_iff in Hin by done. tauto.
  - intros [[Hv Hin]|[Hv Hin]]; (split; [done|]); rewrite Hm, Hin by done; [done|apply orb_true_r].
Qed.

Lemma bitmap_or_correct_witness :
  bitmap_wf (bitmap_or sample_a sample_b) ∧
  ∀ v, v ∈ bitmap_iter (bitmap_or sample_a sample_b) ↔ v ∈ bitmap_iter sample_a ∨ v ∈ bitmap_iter sample_b.
Proof. apply bitmap_or_correct; [apply sample_a_wf|apply sample_b_wf]. Defined.

(** C28: Difference of two bitmaps is a well-formed bitmap whose members are the
    members of the first that the second lacks; where both store a run container
    under the same high key, a common member that is the last value of that key's
    range (low bits 65535) stays. *)
Theorem bitmap_and_not_correct `{Cpu} `{HeapCost} {S T : Type} `{StoreLaws S} `{StoreLaws T} (self : S) (other : T) :
  bitmap_wf self → bitmap_wf other →
  bitmap_wf (bitmap_and_not self other) ∧
  bitmap_iter (bitmap_and_not self other) =
    filter (λ v, member other v = false ∨ (runs_meet self other v = true ∧ v mod 65536 = U16_MAX)) (bitmap_iter self).
Proof.
  intros Hself Hother. destruct (and_not_member self other Hself Hother) as [Hw Hm]. split; [done|].
  rewrite !bitmap_iter_values by done.
  apply ascending_ext; [by apply bitmap_values_ascending|by apply ascending_filter, bitmap_values_ascending|].
  intros v. rewrite list_elem_of_filter, !elem_of_bitmap_values by done.
  split; [intros [Hv Hin]|intros (Hor & Hv & Hin)].
  - rewrite Hm, andb_true_iff, orb_true_iff, andb_true_iff, negb_true_iff, Z.eqb_eq in Hin by done. tauto.
  - split; [done|]. rewrite Hm, andb_true_iff, orb_true_iff, andb_true_iff, negb_true_iff, Z.eqb_eq by done. tauto.
Qed.

Lemma bitmap_and_not_correct_witness :
  bitmap_wf (bitmap_and_not sample_a sample_b) ∧
  bitmap_iter (bitmap_and_not sample_a sample_b) =
    filter (λ v, member sample_b v = false ∨ (runs_meet sample_a sample_b v = true ∧ v mod 65536 = U16_MAX))
      (bitmap_iter sample_a).
Proof. apply bitmap_and_not_correct; [apply sample_a_wf|apply sample_b_wf]. Defined.

(** C31: The range forms of intersection and union are the plain ones restricted to
    [lo, hi): the window of keys and the clipping of the two end containers lose and
    add nothing. *)
Theorem bitmap_range_ops_correct `{Cpu} `{HeapCost} {S T : Type} `{StoreLaws S} `{StoreLaws T}
    (self : S) (other : T) (lo hi : Z) :
  bitmap_wf self → bitmap_wf other → u128 lo → u128 hi →
  bitmap_iter (bitmap_range_and self other lo hi) = filter (λ v, lo ≤ v < hi) (bitmap_iter (bitmap_and self other)) ∧
  bitmap_iter (bitmap_range_or self other lo hi) = filter (λ v, lo ≤ v < hi) (bitmap_iter (bitmap_or self other)).
Proof.
  intros Hself Hother Hlo Hhi.
  assert (∀ (r full : HeapStore), bitmap_wf r → bitmap_wf full →
    (∀ v, u128 v → member r v = member full v && (lo <=? v) && (v <? hi)) →
    bitmap_iter r = filter (λ v, lo ≤ v < hi) (bitmap_iter full)) as Hfilter.
  { intros r full Hr Hf Hrf. rewrite !bitmap_iter_values by done.
    apply ascending_ext; [by apply bitmap_values_ascending|by apply ascending_filter, bitmap_values_ascending|].
    intros v. rewrite list_elem_of_filter, !elem_of_bitmap_values by done.
    split; [intros [Hv Hin]|intros (Hrange & Hv & Hin)].
    - rewrite Hrf, !andb_true_iff, Z.leb_le, Z.ltb_lt in Hin by done. tauto.
    - split; [done|]. rewrite Hrf, !andb_true_iff, Z.leb_le, Z.ltb_lt by done. tauto. }
  destruct (and_member self other Hself Hother) as [Haw Ham], (or_member self other Hself Hother) as [How Hom].
  destruct (Z.le_gt_cases hi lo) as [Hle|Hlt].
  - unfold bitmap_range_and, bitmap_range_or. rewrite (proj2 (Z.leb_le hi lo)) by done.
    rewrite !filter_none by (intros v _; lia). done.
  - destruct (range_and_member self other Hself Hother lo hi Hlo Hhi Hlt) as [Hrw Hrm],
      (range_or_member self other Hself Hother lo hi Hlo Hhi Hlt) as [Hrw' Hrm'].
    split; apply Hfilter; try done; intros v Hv; [by rewrite Hrm, Ham|by rewrite Hrm', Hom].
Qed.

Lemma bitmap_range_ops_correct_witness :
  bitmap_iter (bitmap_range_and sample_a sample_b 5 131072) =
    filter (λ v, 5 ≤ v < 131072) (bitmap_iter (bitmap_and sample_a sample_b)) ∧
  bitmap_iter (bitmap_range_or sample_a sample_b 5 131072) =
    filter (λ v, 5 ≤ v < 131072) (bitmap_iter (bitmap_or sample_a sample_b)).
Proof. apply bitmap_range_ops_correct; [apply sample_a_wf|apply sample_b_wf|unfold u128; lia..]. Defined.

(** Loading keys in any order, with repetitions, and inserting them one at a time
    give the same set: sorting, removing duplicates and cutting the keys into blocks
    of one high part loses and invents nothing. *)
Theorem from_unsorted_iter_correct `{Cpu} `{HeapCost} (keys : list Z) :
  Forall u128 keys →
  bitmap_wf (from_unsorted_iter keys) ∧
  bitmap_iter (from_unsorted_iter keys) = bitmap_iter (bitmap_from_iter heap_new keys) ∧
  ∀ v, v ∈ bitmap_iter (from_unsorted_iter keys) ↔ v ∈ keys.
Proof.
  intros Hu. destruct (from_unsorted_iter_member keys Hu) as [Hw Hm].
  destruct (from_iter_member heap_new keys heap_new_bitmap_wf) as [Hiw Him];
    [intros v; unfold member, member_map; cbn; by rewrite lookup_empty|done|].
  rewrite !bitmap_iter_values by done. rewrite Forall_forall in Hu. split_and!; [done| |].
  - apply ascending_ext; [by apply bitmap_values_ascending..|]. intros v. rewrite !elem_of_bitmap_values by done.
    split; intros [Hv Hin]; (split; [done|]); [by rewrite Him, <-Hm|by rewrite Hm, <-Him].
  - intros v. rewrite elem_of_bitmap_values by done. split.
    + intros [Hv Hin]. rewrite Hm in Hin by done. by apply bool_decide_eq_true in Hin.
    + intros Hin. split; [by apply Hu|]. rewrite Hm by (by apply Hu). by apply bool_decide_eq_true.
Qed.

Lemma from_unsorted_iter_correct_witness :
  bitmap_wf sample_a ∧ bitmap_iter sample_a = bitmap_iter (bitmap_from_iter heap_new [70000; 3; 5; 131072; 3]) ∧
  ∀ v, v ∈ bitmap_iter sample_a ↔ v ∈ [70000; 3; 5; 131072; 3].
Proof. apply (from_unsorted_iter_correct [70000; 3; 5; 131072; 3]). repeat constructor; unfold u128; lia. Defined.

(** [clone] copies a bitmap of any backing to an equal heap bitmap, and [==] is
    equality of the stored maps: equal bitmaps have the same members. *)
Theorem bitmap_clone_eq_correct `{Cpu} `{HeapCost} {S T : Type} `{StoreLaws S} `{StoreLaws T} (self : S) (other : T) :
  bitmap_wf self → bitmap_wf other →
  bitmap_wf (bitmap_clone self) ∧ bitmap_eq self (bitmap_clone self) = true ∧
  (bitmap_eq self other = true ↔ store_entries self = store_entries other) ∧
  (bitmap_eq self other = true → bitmap_iter self = bitmap_iter other).
Proof.
  intros Hself Hother. destruct (clone_entries self Hself) as [Hcw Hce].
  assert (bitmap_wf (bitmap_clone self)) as Hcb.
  { split; [done|]. cbn [store_entries heap_store]. rewrite Hce. apply Hself. }
  rewrite !bitmap_eq_entries, !bool_decide_eq_true by done. split_and!; [done|done|done|].
  intros He. rewrite !bitmap_iter_values by done. unfold bitmap_values. by rewrite He.
Qed.

Lemma bitmap_clone_eq_correct_witness :
  bitmap_wf (bitmap_clone sample_a) ∧ bitmap_eq sample_a (bitmap_clone sample_a) = true ∧
  (bitmap_eq sample_a sample_b = true ↔ store_entries sample_a = store_entries sample_b) ∧
  (bitmap_eq sample_a sample_b = true → bitmap_iter sample_a = bitmap_iter sample_b).
Proof. apply bitmap_clone_eq_correct; [apply sample_a_wf|apply sample_b_wf]. Defined.
