(* ===== verification/BitmapSpec.v ===== *)
(** * BitmapSpec: a bitmap refines a finite set of [u128]s

    The abstract machine keeps a [gset Z]; the concrete one is any store that
    satisfies the [Store] laws, driven through the operations of
    [src/minnal_db/src/index/bitmap.rs].  One step of a call is simulated by one
    step of the set, with the same answer; a sequence of calls by induction. *)
From S2P Require Import Prelude Slices U16Set ArrayMerge Words Container ContainerStore.
From S2P Require Import Bitmap BitmapReads BitmapSets.

(** ** Calls and answers *)

Inductive call :=
| CInsert (v : Z)
| CRemove (v : Z)
| CFlip (lo hi : Z)
| CClear
| COptimize
| CContains (v : Z)
| CCardinality
| CMin
| CMax
| CRank (v : Z)
| CSelect (r : Z)
| CPage (offset limit : Z).

Inductive answer :=
| ADone
| ABool (b : bool)
| ANum (n : Z)
| AOpt (o : option Z)
| AList (l : list Z).

(** ** The specification *)

Definition set_values_of (X : gset Z) : list Z := merge_sort Z.le (elements X).

Definition set_step (c : call) (X : gset Z) : gset Z * answer :=
  match c with
  | CInsert v => ({[v]} ∪ X, ABool (bool_decide (v ∉ X)))
  | CRemove v => (X ∖ {[v]}, ABool (bool_decide (v ∈ X)))
  | CFlip lo hi =>
      let R : gset Z := list_to_set (seqZ lo (hi - lo)) in ((X ∖ R) ∪ (R ∖ X), ADone)
  | CClear => (∅, ADone)
  | COptimize => (X, ADone)
  | CContains v => (X, ABool (bool_decide (v ∈ X)))
  | CCardinality => (X, ANum (Z.of_nat (size X)))
  | CMin => (X, AOpt (head (set_values_of X)))
  | CMax => (X, AOpt (last (set_values_of X)))
  | CRank v => (X, ANum (Z.of_nat (size (filter (λ x, x ≤ v) X))))
  | CSelect r => (X, AOpt (set_values_of X !! Z.to_nat r))
  | CPage offset limit => (X, AList (take (Z.to_nat limit) (drop (Z.to_nat offset) (set_values_of X))))
  end.

Fixpoint set_run (cs : list call) (X : gset Z) : gset Z * list answer :=
  match cs with
  | [] => (X, [])
  | c :: cs => let '(X1, a) := set_step c X in let '(X2, l) := set_run cs X1 in (X2, a :: l)
  end.

(** ** The implementation *)

(** [None] is a panic: only [flip] of a too wide span does. *)
Definition bitmap_step `{Cpu} {S} `{Store S} (c : call) (bm : S) : option (S * answer) :=
  match c with
  | CInsert v => let '(bm, b) := bitmap_insert v bm in Some (bm, ABool b)
  | CRemove v => let '(bm, b) := bitmap_remove v bm in Some (bm, ABool b)
  | CFlip lo hi => (λ bm, (bm, ADone)) <$> bitmap_flip lo hi bm
  | CClear => Some (bitmap_clear bm, ADone)
  | COptimize => Some (bitmap_optimize bm, ADone)
  | CContains v => Some (bm, ABool (bitmap_contains bm v))
  | CCardinality => Some (bm, ANum (bitmap_cardinality bm))
  | CMin => Some (bm, AOpt (bitmap_min bm))
  | CMax => Some (bm, AOpt (bitmap_max bm))
  | CRank v => Some (bm, ANum (bitmap_rank bm v))
  | CSelect r => Some (bm, AOpt (bitmap_select bm r))
  | CPage offset limit => Some (bm, AList (bitmap_iter_page bm offset limit))
  end.

Fixpoint bitmap_run `{Cpu} {S} `{Store S} (cs : list call) (bm : S) : option (S * list answer) :=
  match cs with
  | [] => Some (bm, [])
  | c :: cs =>
      '(bm, a) ← bitmap_step c bm; '(bm, l) ← bitmap_run cs bm; Some (bm, a :: l)
  end.

(** Arguments are [u128]s and [usize]s; a flipped span fits the container limit. *)
Definition call_ok (c : call) : Prop :=
  match c with
  | CInsert v | CRemove v | CContains v | CRank v => u128 v
  | CFlip lo hi => u128 lo ∧ u128 hi ∧ (lo < hi → (hi - 1) / 65536 - lo / 65536 + 1 ≤ MAX_FLIP_CONTAINER_SPAN)
  | CSelect r => 0 ≤ r
  | CPage offset limit => 0 ≤ offset ∧ 0 ≤ limit
  | _ => True
  end.
#[global] Instance call_ok_dec c : Decision (call_ok c).
Proof. destruct c; cbn; apply _. Defined.

(** ** The simulation *)

Section refinement.
Context `{Cpu} {S : Type} `{StoreLaws S}.

Definition refines (bm : S) (X : gset Z) : Prop :=
  bitmap_wf bm ∧ ∀ v, v ∈ X ↔ u128 v ∧ member bm v = true.

Lemma refines_values bm X : refines bm X → bitmap_values bm = set_values_of X.
Proof using All.
  intros [Hbm HX]. unfold set_values_of.
  assert (StronglySorted Z.le (merge_sort Z.le (elements X))) as Hs by (apply StronglySorted_merge_sort; apply _).
  apply ascending_ext; [by apply bitmap_values_ascending| |].
  - assert (NoDup (merge_sort Z.le (elements X))) as Hnd by (rewrite merge_sort_Permutation; apply NoDup_elements).
    revert Hs Hnd. generalize (merge_sort Z.le (elements X)). intros l.
    induction 1 as [|x l Hl IH Hx]; [constructor|]. rewrite NoDup_cons. intros [Hnot Hnd]. apply ascending_cons.
    split; [|by apply IH]. rewrite Forall_forall in Hx |- *. intros y Hy. specialize (Hx y Hy).
    assert (x ≠ y) by (intros ->; done). lia.
  - intros v. rewrite elem_of_bitmap_values, merge_sort_Permutation, elem_of_elements by done. by rewrite HX.
Qed.

Lemma refines_count bm X v :
  refines bm X → count_le v (bitmap_values bm) = Z.of_nat (size (filter (λ x, x ≤ v) X)).
Proof using All.
  intros HR. rewrite (refines_values _ _ HR). unfold count_le, zlen, size, set_size, set_values_of. cbn. f_equal.
  apply Permutation_length. symmetry.
  apply NoDup_Permutation; [apply NoDup_elements|apply NoDup_filter; rewrite merge_sort_Permutation; apply NoDup_elements|].
  intros x. by rewrite elem_of_elements, elem_of_filter, list_elem_of_filter, merge_sort_Permutation, elem_of_elements.
Qed.

Lemma refines_in bm X v : refines bm X → u128 v → member bm v = bool_decide (v ∈ X).
Proof using.
  intros [_ HX] Hv. apply eq_true_iff_eq. rewrite bool_decide_eq_true, HX. tauto.
Qed.

(** A new state described by membership. *)
Lemma refines_of (bm : S) (X : gset Z) :
  bitmap_wf bm → (∀ v, u128 v → member bm v = bool_decide (v ∈ X)) → (∀ v, v ∈ X → u128 v) → refines bm X.
Proof using.
  intros Hbm Hm HX. split; [done|]. intros v. split.
  - intros Hv. split; [by apply HX|]. rewrite Hm by (by apply HX). by apply bool_decide_eq_true.
  - intros [Hv Hin]. rewrite Hm in Hin by done. by apply bool_decide_eq_true in Hin.
Qed.

Lemma flip_total (bm : S) lo hi : call_ok (CFlip lo hi) → is_Some (bitmap_flip lo hi bm).
Proof using.
  intros (Hlo & Hhi & Hspan). unfold bitmap_flip. destruct (Z.leb_spec hi lo); [by eexists|].
  rewrite !decompose_div. cbv zeta. rewrite (proj2 (Z.leb_le _ _)) by lia. by eexists.
Qed.

Lemma step_refines c bm X :
  refines bm X → call_ok c →
  ∃ bm', bitmap_step c bm = Some (bm', (set_step c X).2) ∧ refines bm' (set_step c X).1.
Proof using All.
  intros HR Hc. pose proof HR as [Hbm HX]. pose proof (refines_values _ _ HR) as Hvals.
  destruct c as [v|v|lo hi| | |v| | | |v|r|offset limit]; cbn [bitmap_step set_step call_ok fst snd] in *.
  - destruct (insert_member bm v Hbm Hc) as (Hw & Hr & Hm). destruct (bitmap_insert v bm) as [bm' b]. cbn [fst snd] in *.
    exists bm'. split; [subst b; rewrite (refines_in _ X) by done; do 3 f_equal; symmetry; apply bool_decide_not|].
    apply refines_of; [done| |].
    + intros w Hw128. rewrite Hm, (refines_in _ X) by done. apply eq_true_iff_eq.
      by rewrite orb_true_iff, Z.eqb_eq, !bool_decide_eq_true, elem_of_union, elem_of_singleton.
    + intros w [->%elem_of_singleton|Hw']%elem_of_union; [done|by apply HX].
  - destruct (remove_member bm v Hbm Hc) as (Hw & Hr & Hm). destruct (bitmap_remove v bm) as [bm' b]. cbn [fst snd] in *.
    exists bm'. split; [subst b; by rewrite (refines_in _ X)|].
    apply refines_of; [done| |].
    + intros w Hw128. rewrite Hm, (refines_in _ X) by done. apply eq_true_iff_eq.
      by rewrite andb_true_iff, negb_true_iff, Z.eqb_neq, !bool_decide_eq_true, elem_of_difference, elem_of_singleton.
    + intros w [Hw' _]%elem_of_difference. by apply HX.
  - destruct (flip_total bm lo hi Hc) as [bm' E]. rewrite E. destruct Hc as (Hlo & Hhi & _).
    destruct (flip_member bm bm' lo hi Hbm Hlo Hhi E) as [Hw Hm]. exists bm'. split; [done|].
    assert (∀ w, w ∈ (list_to_set (seqZ lo (hi - lo)) : gset Z) ↔ lo ≤ w < hi) as HR'.
    { intros w. rewrite elem_of_list_to_set, elem_of_seqZ. lia. }
    apply refines_of; [done| |].
    + intros w Hw128. rewrite Hm, (refines_in _ X) by (done || unfold u128 in *; lia). apply eq_true_iff_eq.
      rewrite bool_decide_eq_true, elem_of_union, !elem_of_difference, HR'.
      destruct (Z.leb_spec lo w), (Z.ltb_spec w hi); case_bool_decide; cbn; intuition (lia || done).
    + intros w. rewrite elem_of_union, !elem_of_difference, HR'. unfold u128 in *.
      intros [[?%HX _]|[? _]]; [tauto|lia].
  - destruct (clear_member bm Hbm) as [Hw Hm]. eexists. split; [done|]. apply refines_of; [done| |by intros w ?%not_elem_of_empty].
    intros w _. rewrite Hm. symmetry. apply bool_decide_eq_false, not_elem_of_empty.
  - destruct (optimize_member bm Hbm) as [Hw Hm]. eexists. split; [done|]. split; [done|]. intros w. by rewrite Hm.
  - exists bm. split; [|done]. by rewrite contains_member, (refines_in _ X).
  - exists bm. split; [|done]. rewrite bitmap_cardinality_values, Hvals by done. unfold zlen, set_values_of.
    by rewrite merge_sort_Permutation.
  - exists bm. split; [|done]. by rewrite bitmap_min_values, Hvals.
  - exists bm. split; [|done]. by rewrite bitmap_max_values, Hvals.
  - exists bm. split; [|done]. by rewrite bitmap_rank_values, (refines_count _ _ _ HR).
  - exists bm. split; [|done]. by rewrite bitmap_select_values, Hvals.
  - exists bm. destruct Hc. split; [|done]. by rewrite bitmap_iter_page_values, Hvals.
Qed.

Lemma run_refines cs : ∀ bm X,
  refines bm X → Forall call_ok cs →
  ∃ bm', bitmap_run cs bm = Some (bm', (set_run cs X).2) ∧ refines bm' (set_run cs X).1.
Proof using All.
  induction cs as [|c cs IH]; intros bm X HR Hcs; [by exists bm|]. apply Forall_cons in Hcs as [Hc Hcs].
  cbn [bitmap_run set_run]. destruct (step_refines c bm X HR Hc) as (bm1 & -> & HR1). cbn [mbind option_bind].
  destruct (set_step c X) as [X1 a]. cbn [fst snd] in *. destruct (IH bm1 X1 HR1 Hcs) as (bm2 & -> & HR2).
  cbn [mbind option_bind]. destruct (set_run cs X1) as [X2 l]. by exists bm2.
Qed.
End refinement.

Lemma heap_new_refines `{Cpu} `{HeapCost} : refines heap_new ∅.
Proof.
  apply refines_of; [apply heap_new_bitmap_wf| |by intros v ?%not_elem_of_empty].
  intros v _. symmetry. apply bool_decide_eq_false, not_elem_of_empty.
Qed.

(** ** Properties *)

(** C1: A bitmap refines a finite set of [u128]s: from a state that represents a set,
    any sequence of insertions, removals, range flips, clears, optimizations and
    reads (membership, cardinality, minimum, maximum, rank, select, pages) runs to
    the end without a panic, answers every call as the set does, and ends in a
    well-formed bitmap that represents the set the specification ends in. *)
Theorem bitmap_refines_set `{Cpu} {S : Type} `{StoreLaws S} (cs : list call) (bm : S) (X : gset Z) :
  refines bm X → Forall call_ok cs →
  ∃ bm', bitmap_run cs bm = Some (bm', (set_run cs X).2) ∧ refines bm' (set_run cs X).1.
Proof. apply run_refines. Qed.

#[local] Existing Instance scalar_cpu.
#[local] Existing Instance flat_cost.
Definition sample_calls : list call :=
  [CInsert 70000; CInsert 5; CFlip 3 9; CRemove 70000; COptimize; CRank 7; CSelect 1; CPage 1 3; CCardinality].

Lemma bitmap_refines_set_witness :
  ∃ bm', bitmap_run sample_calls heap_new = Some (bm', (set_run sample_calls ∅).2) ∧
    refines bm' (set_run sample_calls ∅).1.
Proof.
  apply bitmap_refines_set; [apply heap_new_refines|].
  apply (bool_decide_unpack _). vm_compute. exact I.
Defined.
