(* ===== verification/QueryLexer.v ===== *)
(** * QueryLexer: the tokenizer of the query language

    [src/minnal_db/src/index/query/lexer.rs] and [error.rs].  A string is its UTF-8
    bytes, each a [Z] in [0, 256); the lexer's state is the bytes not yet read and
    the offset of the first of them.  The message of a syntax error is the case that
    raised it, with the values the source formats into the text. *)
From S2P Require Import Prelude.

Abbreviation bytes := (list Z).

(** ** Tokens and errors *)

Inductive Token :=
| Ident (s : bytes)
| StrLit (s : bytes)
| IntLit (n : Z)
| BoolLit (b : bool)
| TEq | TNe | TLt | TLe | TGt | TGe
| TAnd | TOr | TNot | TIn
| LParen | RParen | Comma
| Eof.

Inductive SyntaxMsg :=
| ExpectedEqAfterBang
| UnexpectedCharacter (ch : Z)
| UnterminatedString
| UnterminatedEscape
| StringNotUtf8
| ExpectedDigitAfterMinus
| IntegerOutOfRange
| UnexpectedTokenAfterExpression (t : Token)
| ExpectedRParen
| ExpectedTerm (t : Token)
| ExpectedFieldName (t : Token)
| ExpectedOperator (t : Token)
| InRequiresList
| ExpectedCommaOrRParen (t : Token)
| ExpectedLiteral (t : Token).

Inductive Limit := NestingLimit | TermsLimit.

Inductive QueryError :=
| Syntax (pos : Z) (msg : SyntaxMsg)
| UnknownField (name : bytes)
| InactiveField (field : bytes)
| TypeMismatch (field : bytes) (expected got : string)
| UnsupportedOp (op ty : string)
| EmptyInList
| TooComplex (which : Limit).

#[global] Instance Token_eq_dec : EqDecision Token.
Proof. solve_decision. Defined.

(** ** Bytes *)

Definition char (a : Ascii.ascii) : Z := Z.of_nat (Ascii.nat_of_ascii a).
Fixpoint str (s : string) : bytes :=
  match s with EmptyString => [] | String a s => char a :: str s end.

Definition in_bytes (lo hi c : Z) : bool := (lo <=? c) && (c <=? hi).
Definition is_digit (c : Z) : bool := in_bytes 48 57 c.
Definition is_lower (c : Z) : bool := in_bytes 97 122 c.
Definition is_upper (c : Z) : bool := in_bytes 65 90 c.
Definition is_ident_start (c : Z) : bool := is_lower c || is_upper c || (c =? 95).
Definition is_ident_char (c : Z) : bool := is_lower c || is_upper c || is_digit c || (c =? 95).
Definition is_space (c : Z) : bool := (c =? 32) || (c =? 9) || (c =? 10) || (c =? 13).
Definition is_quote (c : Z) : bool := (c =? 39) || (c =? 34).
Definition to_ascii_uppercase (s : bytes) : bytes := (λ c, if is_lower c then c - 32 else c) <$> s.

(** Rust's [String::from_utf8] accepts exactly the well-formed byte sequences of the
    Unicode standard (table 3-7), read here by a byte automaton. *)
Inductive utf8_state := U_start | U_cont1 | U_cont2 | U_cont3 | U_e0 | U_ed | U_f0 | U_f4.

Definition utf8_step (s : utf8_state) (b : Z) : option utf8_state :=
  match s with
  | U_start =>
      if in_bytes 0 127 b then Some U_start
      else if in_bytes 194 223 b then Some U_cont1
      else if b =? 224 then Some U_e0
      else if b =? 237 then Some U_ed
      else if in_bytes 225 239 b then Some U_cont2
      else if b =? 240 then Some U_f0
      else if in_bytes 241 243 b then Some U_cont3
      else if b =? 244 then Some U_f4
      else None
  | U_cont1 => if in_bytes 128 191 b then Some U_start else None
  | U_cont2 => if in_bytes 128 191 b then Some U_cont1 else None
  | U_cont3 => if in_bytes 128 191 b then Some U_cont2 else None
  | U_e0 => if in_bytes 160 191 b then Some U_cont1 else None
  | U_ed => if in_bytes 128 159 b then Some U_cont1 else None
  | U_f0 => if in_bytes 144 191 b then Some U_cont2 else None
  | U_f4 => if in_bytes 128 143 b then Some U_cont2 else None
  end.

Fixpoint utf8_run (s : utf8_state) (l : bytes) : option utf8_state :=
  match l with [] => Some s | b :: l => s ← utf8_step s b; utf8_run s l end.

Definition utf8_valid (l : bytes) : bool :=
  match utf8_run U_start l with Some U_start => true | _ => false end.

(** [str::parse::<i64>] of an optional minus and decimal digits. *)
Definition I64_MIN : Z := -9223372036854775808.
Definition I64_MAX : Z := 9223372036854775807.
Definition digits_value (l : bytes) : Z := foldl (λ acc c, acc * 10 + (c - 48)) 0 l.
Definition parse_i64 (neg : bool) (digits : bytes) : option Z :=
  let n := if neg then - digits_value digits else digits_value digits in
  if (I64_MIN <=? n) && (n <=? I64_MAX) then Some n else None.

(** ** The lexer *)

Record Lexer := mk_lexer { rest : bytes; pos : Z }.

Definition lexer_new (input : bytes) : Lexer := mk_lexer input 0.
Definition lexer_peek (lx : Lexer) : option Z := head (rest lx).
Definition lexer_advance (lx : Lexer) : option Z * Lexer :=
  match rest lx with [] => (None, lx) | c :: l => (Some c, mk_lexer l (pos lx + 1)) end.

(** A [while matches!(peek, ..) advance] loop: the bytes read and the state after. *)
Fixpoint take_bytes (p : Z → bool) (l : bytes) : bytes * bytes :=
  match l with
  | c :: l' => if p c then let '(a, b) := take_bytes p l' in (c :: a, b) else ([], l)
  | [] => ([], [])
  end.
Definition advance_while (p : Z → bool) (lx : Lexer) : bytes * Lexer :=
  let '(a, b) := take_bytes p (rest lx) in (a, mk_lexer b (pos lx + zlen a)).

Definition skip_whitespace (lx : Lexer) : Lexer := (advance_while is_space lx).2.

(** The loop of [lex_string] over the bytes after the opening quote. *)
Fixpoint string_loop (quote start : Z) (l : bytes) (at_ : Z) (buf : bytes) : result (bytes * Lexer) QueryError :=
  match l with
  | [] => Err (Syntax start UnterminatedString)
  | ch :: l =>
      if ch =? quote then Ok (buf, mk_lexer l (at_ + 1))
      else if ch =? 92 then
        match l with
        | [] => Err (Syntax start UnterminatedEscape)
        | e :: l =>
            string_loop quote start l (at_ + 2)
              (buf ++ (if e =? 39 then [39] else if e =? 34 then [34] else if e =? 110 then [10]
                       else if e =? 116 then [9] else if e =? 92 then [92] else [92; e]))
        end
      else string_loop quote start l (at_ + 1) (buf ++ [ch])
  end.

Definition lex_string (start : Z) (lx : Lexer) : result (Token * Lexer) QueryError :=
  match lexer_advance lx with
  | (Some quote, lx) =>
      match string_loop quote start (rest lx) (pos lx) [] with
      | Err e => Err e
      | Ok (buf, lx) => if utf8_valid buf then Ok (StrLit buf, lx) else Err (Syntax start StringNotUtf8)
      end
  | (None, _) => Err (Syntax start UnterminatedString)
  end.

Definition lex_number (start : Z) (lx : Lexer) : result (Token * Lexer) QueryError :=
  let neg := bool_decide (lexer_peek lx = Some 45) in
  let lx := if neg then (lexer_advance lx).2 else lx in
  let '(digits, lx) := advance_while is_digit lx in
  if bool_decide (digits = []) then Err (Syntax start ExpectedDigitAfterMinus)
  else
    match parse_i64 neg digits with
    | Some n => Ok (IntLit n, lx)
    | None => Err (Syntax start IntegerOutOfRange)
    end.

Definition keyword (word : bytes) : Token :=
  let w := to_ascii_uppercase word in
  if bool_decide (w = str "AND") then TAnd
  else if bool_decide (w = str "OR") then TOr
  else if bool_decide (w = str "NOT") then TNot
  else if bool_decide (w = str "IN") then TIn
  else if bool_decide (w = str "TRUE") then BoolLit true
  else if bool_decide (w = str "FALSE") then BoolLit false
  else Ident word.

Definition lex_ident (lx : Lexer) : result (Token * Lexer) QueryError :=
  let '(word, lx) := advance_while is_ident_char lx in Ok (keyword word, lx).

(** One or two bytes: an operator with an optional [=] after it. *)
Definition lex_op (with_eq alone : result Token QueryError) (lx : Lexer) : result (Token * Lexer) QueryError :=
  let lx := (lexer_advance lx).2 in
  if bool_decide (lexer_peek lx = Some 61) then result_bind with_eq (λ t, Ok (t, (lexer_advance lx).2))
  else result_bind alone (λ t, Ok (t, lx)).

(** The [match] of [next_token] on the first byte after the blanks. *)
Definition lex_from (ch : Z) (lx : Lexer) : result (Token * Lexer) QueryError :=
  let start := pos lx in
  let one t := Ok (t, (lexer_advance lx).2) in
  if ch =? 40 then one LParen
  else if ch =? 41 then one RParen
  else if ch =? 44 then one Comma
  else if ch =? 61 then one TEq
  else if ch =? 33 then lex_op (Ok TNe) (Err (Syntax start ExpectedEqAfterBang)) lx
  else if ch =? 60 then lex_op (Ok TLe) (Ok TLt) lx
  else if ch =? 62 then lex_op (Ok TGe) (Ok TGt) lx
  else if is_quote ch then lex_string start lx
  else if (ch =? 45) || is_digit ch then lex_number start lx
  else if is_ident_start ch then lex_ident lx
  else Err (Syntax start (UnexpectedCharacter ch)).

Definition next_token (lx : Lexer) : result (Token * Lexer) QueryError :=
  let lx := skip_whitespace lx in
  match lexer_peek lx with None => Ok (Eof, lx) | Some ch => lex_from ch lx end.

(** Lexing to the end of the input, as the parser does one token at a time. *)
Fixpoint lex_all (fuel : nat) (lx : Lexer) : option (result (list Token) QueryError) :=
  match fuel with
  | O => None
  | S fuel =>
      match next_token lx with
      | Err e => Some (Err e)
      | Ok (Eof, _) => Some (Ok [])
      | Ok (t, lx) =>
          r ← lex_all fuel lx; Some (match r with Ok ts => Ok (t :: ts) | Err e => Err e end)
      end
  end.

(** ** Progress *)

Lemma take_bytes_spec p l :
  let '(a, b) := take_bytes p l in
  l = a ++ b ∧ Forall (λ c, p c = true) a ∧ ∀ c, head b = Some c → p c = false.
Proof.
  induction l as [|c l IH]; cbn [take_bytes]; [done|]. destruct (p c) eqn:E.
  - destruct (take_bytes p l) as [a b]. destruct IH as (-> & Ha & Hb). split_and!; [done|by constructor|done].
  - split_and!; [done|constructor|]. by intros ? [= <-].
Qed.

Lemma take_bytes_app p a b :
  Forall (λ c, p c = true) a → (∀ c, head b = Some c → p c = false) → take_bytes p (a ++ b) = (a, b).
Proof.
  intros Ha Hb. induction Ha as [|c a Hc Ha IH]; cbn [app take_bytes].
  - destruct b as [|c b]; [done|]. cbn. by rewrite (Hb c).
  - by rewrite Hc, IH.
Qed.

(** [lx'] is [lx] after reading some bytes. *)
Definition reads (lx lx' : Lexer) : Prop := suffix (rest lx') (rest lx).

Lemma reads_length lx lx' : reads lx lx' → (length (rest lx') ≤ length (rest lx))%nat.
Proof. apply suffix_length. Qed.

Lemma advance_while_reads p lx : reads lx (advance_while p lx).2.
Proof.
  unfold advance_while, reads. pose proof (take_bytes_spec p (rest lx)) as H.
  destruct (take_bytes p (rest lx)) as [a b]. destruct H as (Hl & _ & _). cbn. by exists a.
Qed.

Lemma string_loop_reads quote start : ∀ l at_ buf buf' lx,
  string_loop quote start l at_ buf = Ok (buf', lx) → suffix (rest lx) l ∧ (length (rest lx) < length l)%nat.
Proof.
  intros l at_ buf buf' lx. revert at_ buf.
  assert (∀ k l', (length l' ≤ k)%nat → ∀ at_ buf, string_loop quote start l' at_ buf = Ok (buf', lx) →
    suffix (rest lx) l' ∧ (length (rest lx) < length l')%nat) as Hk; [|by eapply Hk].
  clear. induction k as [|k IH]; intros l Hl at_ buf; (destruct l as [|ch l]; [done|]); cbn [length] in Hl; [lia|].
  cbn [string_loop]. case_match.
  - intros [= <- <-]. cbn. split; [by exists [ch]|lia].
  - case_match.
    + destruct l as [|e l]; [done|]. cbn [length] in Hl. intros H'. apply IH in H' as [Hs Hlen]; [|lia].
      split; [by apply suffix_cons_r, suffix_cons_r|cbn; lia].
    + intros H'. apply IH in H' as [Hs Hlen]; [|lia]. split; [by apply suffix_cons_r|cbn; lia].
Qed.

Lemma lexer_advance_reads lx : reads lx (lexer_advance lx).2.
Proof. unfold lexer_advance, reads. destruct (rest lx) as [|c l] eqn:E; cbn; [by rewrite E|by exists [c]]. Qed.

Lemma reads_trans lx lx' lx'' : reads lx lx' → reads lx' lx'' → reads lx lx''.
Proof. unfold reads. intros. by etrans. Qed.

Definition consumes (l : bytes) (r : result (Token * Lexer) QueryError) : Prop :=
  match r with Ok (t, lx') => t ≠ Eof ∧ suffix (rest lx') l | Err _ => True end.

Lemma lexer_advance_cons ch l p : lexer_advance (mk_lexer (ch :: l) p) = (Some ch, mk_lexer l (p + 1)).
Proof. done. Qed.

Lemma lex_op_consumes w a ch l p :
  w ≠ Ok Eof → a ≠ Ok Eof → consumes l (lex_op w a (mk_lexer (ch :: l) p)).
Proof.
  intros Hw Ha. unfold lex_op. rewrite lexer_advance_cons. cbn [snd]. cbv zeta. case_bool_decide.
  - destruct w as [e|]; [|done]. split; [congruence|]. apply lexer_advance_reads.
  - destruct a as [e|]; [|done]. split; [congruence|done].
Qed.

Lemma keyword_not_eof w : keyword w ≠ Eof.
Proof. unfold keyword. cbv zeta. by repeat case_bool_decide. Qed.

Lemma lex_string_consumes start ch l p : consumes l (lex_string start (mk_lexer (ch :: l) p)).
Proof.
  unfold lex_string. rewrite lexer_advance_cons. cbn [rest pos].
  destruct (string_loop _ _ _ _ _) as [[buf lx]|e] eqn:E; [|done]. case_match; [|done].
  split; [done|]. by apply string_loop_reads in E as [? _].
Qed.

Lemma lex_ident_consumes ch l p : is_ident_char ch = true → consumes l (lex_ident (mk_lexer (ch :: l) p)).
Proof.
  intros Hch. unfold lex_ident, advance_while. cbn [rest take_bytes]. rewrite Hch.
  pose proof (take_bytes_spec is_ident_char l) as H. destruct (take_bytes is_ident_char l) as [a b].
  destruct H as (-> & _ & _). split; [apply keyword_not_eof|]. by exists a.
Qed.

Lemma lex_number_consumes start ch l p :
  (ch =? 45) || is_digit ch = true → consumes l (lex_number start (mk_lexer (ch :: l) p)).
Proof.
  intros Hch. unfold lex_number, lexer_peek. cbn [rest head].
  destruct (Z.eqb_spec ch 45) as [->|Hne]; cbn [orb] in Hch.
  - rewrite bool_decide_true, lexer_advance_cons by done. cbn [snd].
    pose proof (advance_while_reads is_digit (mk_lexer l (p + 1))) as Hr.
    destruct (advance_while is_digit _) as [ds lx]. case_bool_decide; [done|]. case_match; [|done]. done.
  - rewrite bool_decide_false by congruence. unfold advance_while. cbn [rest take_bytes]. rewrite Hch.
    pose proof (take_bytes_spec is_digit l) as H. destruct (take_bytes is_digit l) as [a b].
    destruct H as (-> & _ & _). rewrite bool_decide_false by done. case_match; [|done]. split; [done|]. by exists a.
Qed.

Lemma is_ident_start_char c : is_ident_start c = true → is_ident_char c = true.
Proof. unfold is_ident_start, is_ident_char. rewrite !orb_true_iff. tauto. Qed.

Lemma lex_from_consumes ch l p : consumes l (lex_from ch (mk_lexer (ch :: l) p)).
Proof.
  unfold lex_from. cbv zeta. rewrite lexer_advance_cons. cbn [snd].
  repeat (case_match; [first [done | by apply lex_op_consumes | apply lex_string_consumes
    | by apply lex_number_consumes | by apply lex_ident_consumes, is_ident_start_char]|]).
  done.
Qed.

(** A token is at least one byte; [Eof] is returned only at the end. *)
Lemma next_token_reads lx t lx' :
  next_token lx = Ok (t, lx') →
  reads lx lx' ∧ (t = Eof → rest lx' = []) ∧ (t ≠ Eof → (length (rest lx') < length (rest lx))%nat).
Proof.
  unfold next_token, lexer_peek. cbv zeta. pose proof (advance_while_reads is_space lx) as Hw.
  fold (skip_whitespace lx) in Hw. pose proof (reads_length _ _ Hw) as Hwl.
  destruct (skip_whitespace lx) as [l p]. cbn [rest] in *. destruct l as [|ch l]; cbn [head].
  - intros [= <- <-]. split_and!; done.
  - pose proof (lex_from_consumes ch l p) as Hc. intros E. rewrite E in Hc. destruct Hc as [Ht Hs].
    unfold reads in *. cbn [rest] in *. split_and!; [|done|].
    + etrans; [|done]. by apply suffix_cons_r.
    + intros _. apply suffix_length in Hs. cbn in Hwl. lia.
Qed.

(** Lexing ends: one step per byte, and one for [Eof], are enough. *)
Lemma lex_all_total lx : ∀ fuel, (length (rest lx) < fuel)%nat → is_Some (lex_all fuel lx).
Proof.
  intros fuel. revert lx. induction fuel as [|fuel IH]; intros lx Hf; [lia|]. cbn [lex_all].
  destruct (next_token lx) as [[t lx']|e] eqn:E; [|by eexists].
  apply next_token_reads in E as (_ & _ & Hn).
  destruct t; try (destruct (IH lx') as [r ->]; [specialize (Hn ltac:(done)); lia|]; by eexists). by eexists.
Qed.

(** ** UTF-8: a literal cut out of valid text is valid *)

Definition valid (l : bytes) : Prop := utf8_run U_start l = Some U_start.

Lemma utf8_valid_iff l : utf8_valid l = true ↔ valid l.
Proof. unfold utf8_valid, valid. destruct (utf8_run U_start l) as [[]|]; naive_solver. Qed.

Lemma utf8_run_app s l k : utf8_run s (l ++ k) = s' ← utf8_run s l; utf8_run s' k.
Proof.
  revert s. induction l as [|b l IH]; intros s; [done|]. cbn. destruct (utf8_step s b); [apply IH|done].
Qed.

Definition ascii (c : Z) : Prop := 0 ≤ c ≤ 127.

Lemma utf8_step_ascii s c : ascii c → utf8_step s c = match s with U_start => Some U_start | _ => None end.
Proof.
  unfold ascii, utf8_step, in_bytes. intros Hc. destruct s; repeat case_match; try done;
    rewrite ?andb_true_iff, ?andb_false_iff, ?Z.leb_le, ?Z.leb_gt in *; lia.
Qed.

Lemma valid_ascii_cons c l : ascii c → valid (c :: l) ↔ valid l.
Proof. intros Hc. unfold valid. cbn [utf8_run]. by rewrite utf8_step_ascii. Qed.

Lemma valid_ascii_app a b : Forall ascii a → valid (a ++ b) ↔ valid b.
Proof. induction 1 as [|c a Hc Ha IH]; [done|]. cbn [app]. by rewrite valid_ascii_cons. Qed.

Lemma in_bytes_ascii lo hi c : 0 ≤ lo → hi ≤ 127 → in_bytes lo hi c = true → ascii c.
Proof. unfold in_bytes, ascii. rewrite andb_true_iff, !Z.leb_le. lia. Qed.

Lemma is_digit_ascii c : is_digit c = true → ascii c.
Proof. by apply (in_bytes_ascii 48 57). Qed.
Lemma is_space_ascii c : is_space c = true → ascii c.
Proof. unfold is_space, ascii. rewrite !orb_true_iff, !Z.eqb_eq. lia. Qed.
Lemma is_ident_char_ascii c : is_ident_char c = true → ascii c.
Proof.
  unfold is_ident_char. rewrite !orb_true_iff, Z.eqb_eq.
  intros [[[?|?]|?]| ->]; [by apply (in_bytes_ascii 97 122)|by apply (in_bytes_ascii 65 90)|by apply is_digit_ascii|done].
Qed.
Lemma is_quote_ascii c : is_quote c = true → ascii c.
Proof. unfold is_quote, ascii. rewrite orb_true_iff, !Z.eqb_eq. lia. Qed.

Lemma advance_while_valid p lx :
  (∀ c, p c = true → ascii c) → valid (rest lx) → valid (rest (advance_while p lx).2).
Proof.
  intros Hp Hv. unfold advance_while. pose proof (take_bytes_spec p (rest lx)) as H.
  destruct (take_bytes p (rest lx)) as [a b]. destruct H as (Hl & Ha & _). cbn. rewrite Hl in Hv.
  rewrite valid_ascii_app in Hv; [done|]. eapply Forall_impl; [done|]. auto.
Qed.

(** The scan keeps [buf] and the input in step: whatever bytes of a character are
    in [buf], the rest of it is next in the input. *)
Lemma string_loop_valid quote start : is_quote quote = true → ∀ k l at_ buf s,
  (length l ≤ k)%nat → utf8_run U_start buf = Some s → utf8_run s l = Some U_start →
  match string_loop quote start l at_ buf with
  | Ok (buf', lx) => utf8_valid buf' = true ∧ valid (rest lx)
  | Err e => ∀ p, e ≠ Syntax p StringNotUtf8
  end.
Proof.
  intros Hq k. pose proof (is_quote_ascii _ Hq) as Hqa.
  induction k as [|k IH]; intros l at_ buf s Hl Hbuf Hrun; (destruct l as [|ch l]; [done|]); cbn [length] in Hl; [lia|].
  cbn [string_loop utf8_run] in *. destruct (Z.eqb_spec ch quote) as [->|].
  - rewrite utf8_step_ascii in Hrun by done. destruct s; try done. split; [by apply utf8_valid_iff|done].
  - destruct (Z.eqb_spec ch 92) as [->|].
    + rewrite utf8_step_ascii in Hrun by done. destruct s; try done. cbn [mbind option_bind] in Hrun.
      destruct l as [|e l]; [done|]. cbn [length utf8_run] in *.
      assert (∀ c, ascii c → ascii e → ∀ at_, match string_loop quote start l at_ (buf ++ [c]) with
        | Ok (buf', lx) => utf8_valid buf' = true ∧ valid (rest lx) | Err e => ∀ p, e ≠ Syntax p StringNotUtf8 end) as Hesc.
      { intros c Hc He at'. apply (IH _ _ _ U_start); [lia| |by rewrite utf8_step_ascii in Hrun].
        rewrite utf8_run_app, Hbuf. cbn [mbind option_bind utf8_run]. by rewrite utf8_step_ascii. }
      do 5 (match goal with |- context [if e =? ?c then _ else _] => destruct (Z.eqb_spec e c) as [->|] end; [by apply Hesc|]).
      destruct (utf8_step U_start e) as [s'|] eqn:Es; [|done]. apply (IH _ _ _ s'); [lia| |done].
      rewrite utf8_run_app, Hbuf. cbn [mbind option_bind utf8_run]. rewrite (utf8_step_ascii U_start 92) by done.
      cbn [mbind option_bind]. by rewrite Es.
    + destruct (utf8_step s ch) as [s'|] eqn:Es; [|done]. apply (IH _ _ _ s'); [lia| |done].
      rewrite utf8_run_app, Hbuf. cbn [mbind option_bind utf8_run]. by rewrite Es.
Qed.

Definition keeps_valid (r : result (Token * Lexer) QueryError) : Prop :=
  match r with
  | Ok (t, lx) => valid (rest lx) ∧ (∀ s, t = StrLit s → utf8_valid s = true)
  | Err e => ∀ p, e ≠ Syntax p StringNotUtf8
  end.

Lemma lex_string_valid start ch l p :
  is_quote ch = true → valid (ch :: l) → keeps_valid (lex_string start (mk_lexer (ch :: l) p)).
Proof.
  intros Hq Hv. rewrite valid_ascii_cons in Hv by (by apply is_quote_ascii).
  unfold lex_string. rewrite lexer_advance_cons. cbn [rest pos].
  pose proof (string_loop_valid ch start Hq (length l) l (p + 1) [] U_start ltac:(done) ltac:(done) Hv) as H.
  destruct (string_loop _ _ _ _ _) as [[buf lx]|e]; [|done]. destruct H as [Hb Hr]. rewrite Hb.
  split; [done|]. intros s Hs. injection Hs as <-. done.
Qed.

Lemma keyword_not_str w s : keyword w ≠ StrLit s.
Proof. unfold keyword. cbv zeta. by repeat case_bool_decide. Qed.

Lemma lex_op_valid w a ch l p :
  ascii ch → valid (ch :: l) → (∀ t s, w = Ok t → t ≠ StrLit s) → (∀ t s, a = Ok t → t ≠ StrLit s) →
  (∀ e p, w = Err e → e ≠ Syntax p StringNotUtf8) → (∀ e p, a = Err e → e ≠ Syntax p StringNotUtf8) →
  keeps_valid (lex_op w a (mk_lexer (ch :: l) p)).
Proof.
  intros Hc Hv Hw Ha Hwe Hae. rewrite valid_ascii_cons in Hv by done.
  unfold lex_op. rewrite lexer_advance_cons. cbn [snd]. cbv zeta. case_bool_decide as Hp.
  - unfold lexer_peek in Hp. cbn [rest] in Hp. destruct l as [|c l]; [done|]. injection Hp as ->.
    rewrite valid_ascii_cons in Hv by done. destruct w as [t|e]; cbn; [|intros p'; by apply Hwe].
    split; [done|]. intros s ->. by destruct (Hw _ s eq_refl).
  - destruct a as [t|e]; cbn; [|intros p'; by apply Hae]. split; [done|]. intros s ->. by destruct (Ha _ s eq_refl).
Qed.

Lemma lex_number_valid start ch l p :
  ascii ch → valid (ch :: l) → keeps_valid (lex_number start (mk_lexer (ch :: l) p)).
Proof.
  intros Hc Hv. unfold lex_number. cbv zeta.
  set (lx := if bool_decide _ then _ else _).
  assert (valid (rest lx)) as Hlx.
  { unfold lx. case_bool_decide; [|done]. rewrite lexer_advance_cons. cbn. by rewrite valid_ascii_cons in Hv. }
  pose proof (advance_while_valid is_digit lx is_digit_ascii Hlx) as Hd. destruct (advance_while is_digit lx) as [ds lx'].
  case_bool_decide; [done|]. case_match; [|done]. split; [done|]. by intros s ?.
Qed.

Lemma lex_from_valid ch l p : valid (ch :: l) → keeps_valid (lex_from ch (mk_lexer (ch :: l) p)).
Proof.
  intros Hv. unfold lex_from. cbv zeta. rewrite lexer_advance_cons. cbn [snd].
  assert (∀ c t, ascii c → ch = c → (∀ s, t ≠ StrLit s) → keeps_valid (Ok (t, mk_lexer l (p + 1)))) as Hone.
  { intros c t Hc -> Ht. rewrite valid_ascii_cons in Hv by done. split; [done|]. intros s ->. by destruct (Ht s). }
  repeat match goal with |- context [if ch =? ?c then _ else _] => destruct (Z.eqb_spec ch c) as [Hch|?] end;
    try (by eapply (Hone ch); [subst ch; done|..]).
  1-3: apply lex_op_valid; [subst ch; done|done|..]; naive_solver.
  destruct (is_quote ch) eqn:Eq; [by apply lex_string_valid|].
  destruct (Z.eqb_spec ch 45) as [->|]; [by apply lex_number_valid|]. cbn [orb].
  destruct (is_digit ch) eqn:Ed; [by apply lex_number_valid; [apply is_digit_ascii|]|].
  destruct (is_ident_start ch) eqn:Ei; [|done]. unfold lex_ident.
  pose proof (advance_while_valid is_ident_char (mk_lexer (ch :: l) p) is_ident_char_ascii Hv) as Hd.
  destruct (advance_while is_ident_char _) as [w lx']. split; [done|]. intros s Hs. by apply keyword_not_str in Hs.
Qed.

Lemma next_token_valid lx : valid (rest lx) → keeps_valid (next_token lx).
Proof.
  intros Hv. unfold next_token, lexer_peek. cbv zeta.
  pose proof (advance_while_valid is_space lx is_space_ascii Hv) as Hw. fold (skip_whitespace lx) in Hw.
  destruct (skip_whitespace lx) as [l p]. cbn [rest] in *. destruct l as [|ch l]; cbn [head].
  - split; [done|]. by intros s ?.
  - by apply lex_from_valid.
Qed.

(** ** Printing and reading back *)

(** Decimal digits of a natural number below [10 ^ fuel]. *)
Fixpoint dec_digits (fuel : nat) (n : Z) : bytes :=
  match fuel with
  | O => []
  | S fuel => if n <? 10 then [48 + n] else dec_digits fuel (n / 10) ++ [48 + n mod 10]
  end.

Definition print_string (s : bytes) : bytes :=
  [34] ++ (s ≫= λ c, if c =? 34 then [92; 34] else if c =? 92 then [92; 92] else [c]) ++ [34].

Definition print_token (t : Token) : bytes :=
  match t with
  | Ident s => s
  | StrLit s => print_string s
  | IntLit n => if n <? 0 then 45 :: dec_digits 19 (- n) else dec_digits 19 n
  | BoolLit true => str "TRUE" | BoolLit false => str "FALSE"
  | TEq => str "=" | TNe => str "!=" | TLt => str "<" | TLe => str "<=" | TGt => str ">" | TGe => str ">="
  | TAnd => str "AND" | TOr => str "OR" | TNot => str "NOT" | TIn => str "IN"
  | LParen => str "(" | RParen => str ")" | Comma => str ","
  | Eof => []
  end.

(** Each token followed by a blank. *)
Definition print_tokens (ts : list Token) : bytes := ts ≫= λ t, print_token t ++ [32].

(** What the lexer can produce: an identifier that is not a keyword, an integer of 64
    bits, valid text. *)
Definition token_wf (t : Token) : bool :=
  match t with
  | Ident s => match s with
               | c :: _ => is_ident_start c && forallb is_ident_char s && bool_decide (keyword s = Ident s)
               | [] => false
               end
  | StrLit s => utf8_valid s
  | IntLit n => (I64_MIN <=? n) && (n <=? I64_MAX)
  | Eof => false
  | _ => true
  end.

Lemma digits_value_app a c : digits_value (a ++ [c]) = digits_value a * 10 + (c - 48).
Proof. unfold digits_value. by rewrite foldl_app. Qed.

Lemma dec_digits_spec fuel : ∀ n, 0 ≤ n → n < 10 ^ Z.of_nat fuel → (0 < fuel)%nat →
  digits_value (dec_digits fuel n) = n ∧ Forall (λ c, is_digit c = true) (dec_digits fuel n) ∧ dec_digits fuel n ≠ [].
Proof.
  induction fuel as [|fuel IH]; intros n Hn Hlt Hf; [lia|]. cbn [dec_digits]. unfold is_digit, in_bytes.
  destruct (Z.ltb_spec n 10).
  - split_and!; [unfold digits_value; cbn; lia| |done]. constructor; [|done]. rewrite andb_true_iff, !Z.leb_le. lia.
  - destruct fuel as [|fuel]; [change (10 ^ Z.of_nat 1) with 10 in Hlt; lia|].
    destruct (IH (n / 10)) as (Hv & Hd & _); [by apply Z.div_pos| |lia|].
    { apply Z.div_lt_upper_bound; [lia|]. rewrite Nat2Z.inj_succ, Z.pow_succ_r in Hlt by lia. lia. }
    pose proof (Z.div_mod n 10 ltac:(lia)). pose proof (Z.mod_pos_bound n 10 ltac:(lia)). split_and!.
    + rewrite digits_value_app, Hv. lia.
    + apply Forall_app. split; [done|]. constructor; [|done]. rewrite andb_true_iff, !Z.leb_le. lia.
    + by destruct (dec_digits _ _).
Qed.

(** *** One token *)

Lemma skip_whitespace_blank l p : skip_whitespace (mk_lexer (32 :: l) p) = skip_whitespace (mk_lexer l (p + 1)).
Proof.
  unfold skip_whitespace, advance_while. cbn [rest pos take_bytes]. change (is_space 32) with true. cbv iota.
  destruct (take_bytes is_space l) as [a b]. cbn [snd]. f_equal. rewrite zlen_cons. lia.
Qed.

Lemma next_token_blank l p : next_token (mk_lexer (32 :: l) p) = next_token (mk_lexer l (p + 1)).
Proof. unfold next_token. by rewrite skip_whitespace_blank. Qed.

Lemma next_token_nonspace ch l p :
  is_space ch = false → next_token (mk_lexer (ch :: l) p) = lex_from ch (mk_lexer (ch :: l) p).
Proof.
  intros Hs. unfold next_token, skip_whitespace, advance_while. cbn [rest pos take_bytes]. rewrite Hs. cbn [snd].
  rewrite zlen_nil, Z.add_0_r. done.
Qed.

Definition reads_as (l : bytes) (t : Token) : Prop :=
  ∀ l' p, ∃ p', next_token (mk_lexer (l ++ 32 :: l') p) = Ok (t, mk_lexer (32 :: l') p').

Lemma advance_while_stop p a l q :
  Forall (λ c, p c = true) a → p 32 = false →
  advance_while p (mk_lexer (a ++ 32 :: l) q) = (a, mk_lexer (32 :: l) (q + zlen a)).
Proof. intros Ha Hp. unfold advance_while. cbn [rest pos]. rewrite take_bytes_app; [done|done|]. by intros c [= <-]. Qed.

Lemma number_reads neg ds n :
  Forall (λ c, is_digit c = true) ds → ds ≠ [] → parse_i64 neg ds = Some n →
  reads_as ((if neg then [45] else []) ++ ds) (IntLit n).
Proof.
  intros Hds Hne Hp l' p. destruct ds as [|d ds]; [done|]. pose proof Hds as [Hd _]%Forall_cons.
  assert (d ≠ 45 ∧ is_space d = false ∧ is_quote d = false ∧ ¬ (d = 40 ∨ d = 41 ∨ d = 44 ∨ d = 61 ∨ d = 33 ∨ d = 60 ∨ d = 62))
    as (Hd45 & Hds' & Hdq & Hdo).
  { unfold is_digit, in_bytes, is_space, is_quote in *. rewrite andb_true_iff, !Z.leb_le in Hd.
    rewrite !orb_false_iff, !Z.eqb_neq. lia. }
  destruct neg; cbn [app].
  - exists (p + 1 + zlen (d :: ds)). rewrite next_token_nonspace by done. unfold lex_from. cbv zeta.
    change (lex_number p (mk_lexer (45 :: d :: ds ++ 32 :: l') p) = Ok (IntLit n, mk_lexer (32 :: l') (p + 1 + zlen (d :: ds)))).
    unfold lex_number, lexer_peek. cbn [rest head]. rewrite bool_decide_true, lexer_advance_cons by done. cbn [snd]. cbv zeta.
    change (d :: ds ++ 32 :: l') with ((d :: ds) ++ 32 :: l'). rewrite advance_while_stop by done.
    rewrite bool_decide_false by done. by rewrite Hp.
  - exists (p + zlen (d :: ds)). rewrite next_token_nonspace by done. unfold lex_from. cbv zeta.
    repeat match goal with |- context [if d =? ?c then _ else _] => rewrite (proj2 (Z.eqb_neq d c)) by lia end.
    rewrite Hdq, (proj2 (Z.eqb_neq d 45)), Hd by done. cbn [orb].
    unfold lex_number, lexer_peek. cbn [rest head pos]. rewrite bool_decide_false by congruence. cbv zeta.
    change (d :: ds ++ 32 :: l') with ((d :: ds) ++ 32 :: l'). rewrite advance_while_stop by done.
    rewrite bool_decide_false by done. by rewrite Hp.
Qed.

Lemma word_reads s c w :
  s = c :: w → is_ident_start c = true → Forall (λ c, is_ident_char c = true) s → reads_as s (keyword s).
Proof.
  intros -> Hc Hs l' p. exists (p + zlen (c :: w)).
  assert (is_space c = false ∧ is_quote c = false ∧ is_digit c = false ∧
    ¬ (c = 40 ∨ c = 41 ∨ c = 44 ∨ c = 61 ∨ c = 33 ∨ c = 60 ∨ c = 62 ∨ c = 45)) as (Hsp & Hq & Hd & Ho).
  { unfold is_ident_start, is_lower, is_upper, is_digit, in_bytes, is_space, is_quote in *.
    rewrite !orb_true_iff, !andb_true_iff, !Z.leb_le, Z.eqb_eq in Hc.
    rewrite !orb_false_iff, andb_false_iff, !Z.eqb_neq, !Z.leb_gt. lia. }
  cbn [app]. rewrite next_token_nonspace by done. unfold lex_from. cbv zeta.
  repeat match goal with |- context [if c =? ?k then _ else _] => rewrite (proj2 (Z.eqb_neq c k)) by lia end.
  rewrite Hq, (proj2 (Z.eqb_neq c 45)), Hd, Hc by lia. cbn [orb]. unfold lex_ident.
  change (c :: w ++ 32 :: l') with ((c :: w) ++ 32 :: l'). by rewrite advance_while_stop.
Qed.

Lemma string_loop_print quote_start s : ∀ l at_ buf, ∃ p',
  string_loop 34 quote_start ((s ≫= λ c, if c =? 34 then [92; 34] else if c =? 92 then [92; 92] else [c]) ++ 34 :: l) at_ buf =
    Ok (buf ++ s, mk_lexer l p').
Proof.
  induction s as [|c s IH]; intros l at_ buf.
  - exists (at_ + 1). cbn. by rewrite app_nil_r.
  - rewrite bind_cons, <-app_assoc. destruct (Z.eqb_spec c 34) as [->|H34]; [|destruct (Z.eqb_spec c 92) as [->|H92]].
    + destruct (IH l (at_ + 2) (buf ++ [34])) as [p' E]. exists p'. cbn [app string_loop]. cbn [Z.eqb Pos.eqb].
      rewrite E. by rewrite <-app_assoc.
    + destruct (IH l (at_ + 2) (buf ++ [92])) as [p' E]. exists p'. cbn [app string_loop]. cbn [Z.eqb Pos.eqb].
      rewrite E. by rewrite <-app_assoc.
    + destruct (IH l (at_ + 1) (buf ++ [c])) as [p' E]. exists p'. cbn [app string_loop].
      rewrite (proj2 (Z.eqb_neq c 34)), (proj2 (Z.eqb_neq c 92)), E by done. by rewrite <-app_assoc.
Qed.

Lemma string_reads s : utf8_valid s = true → reads_as (print_string s) (StrLit s).
Proof.
  intros Hs l' p. unfold print_string. cbn [app]. rewrite <-!app_assoc. cbn [app].
  destruct (string_loop_print p s (32 :: l') (p + 1) []) as [p' E]. exists p'.
  rewrite next_token_nonspace by done. unfold lex_from. cbv zeta. cbn [Z.eqb Pos.eqb orb is_quote].
  unfold lex_string. rewrite lexer_advance_cons. cbn [rest pos]. rewrite E. cbn [app]. by rewrite Hs.
Qed.

Lemma token_reads t : token_wf t = true → reads_as (print_token t) t.
Proof.
  assert (∀ s c w, s = c :: w → is_ident_start c = true → forallb is_ident_char s = true → reads_as s (keyword s)) as Hword.
  { intros s c w Hs Hc Hall. eapply word_reads; [done..|]. apply Forall_forall. intros x Hx.
    rewrite forallb_forall in Hall. by apply Hall, list_elem_of_In. }
  destruct t as [s|s|n|b| | | | | | | | | | | | | |]; intros Hwf; cbn [token_wf print_token] in *;
    try (intros l' p; eexists; reflexivity); try done.
  - destruct s as [|c s]; [done|]. rewrite !andb_true_iff, bool_decide_eq_true in Hwf. destruct Hwf as [[Hc Hall] Hk].
    rewrite <-Hk. by eapply Hword.
  - by apply string_reads.
  - rewrite andb_true_iff, !Z.leb_le in Hwf. unfold I64_MIN, I64_MAX in Hwf. destruct (Z.ltb_spec n 0).
    + destruct (dec_digits_spec 19 (- n)) as (Hv & Hd & Hne); [lia| |lia|].
      { change (10 ^ Z.of_nat 19) with 10000000000000000000. lia. }
      apply (number_reads true); [done..|]. unfold parse_i64. rewrite Hv, Z.opp_involutive.
      unfold I64_MIN, I64_MAX. by rewrite !(proj2 (Z.leb_le _ _)) by lia.
    + destruct (dec_digits_spec 19 n) as (Hv & Hd & Hne); [lia| |lia|].
      { change (10 ^ Z.of_nat 19) with 10000000000000000000. lia. }
      apply (number_reads false (dec_digits 19 n)); [done..|]. unfold parse_i64. rewrite Hv.
      unfold I64_MIN, I64_MAX. by rewrite !(proj2 (Z.leb_le _ _)) by lia.
  - destruct b; [eapply (Hword (str "TRUE"))|eapply (Hword (str "FALSE"))]; reflexivity.
Qed.

(** *** A list of tokens *)

Lemma print_tokens_cons t ts : print_tokens (t :: ts) = print_token t ++ 32 :: print_tokens ts.
Proof. unfold print_tokens. rewrite bind_cons, <-app_assoc. done. Qed.

Lemma lex_all_cons t l p lx ts fuel :
  t ≠ Eof → next_token (mk_lexer l p) = Ok (t, lx) → lex_all fuel lx = Some (Ok ts) →
  lex_all (S fuel) (mk_lexer l p) = Some (Ok (t :: ts)).
Proof. intros Ht Hn Hl. cbn [lex_all]. rewrite Hn, Hl. by destruct t. Qed.

Lemma lex_print_tokens ts : ∀ p pre fuel,
  forallb token_wf ts = true → (pre = [] ∨ pre = [32]) → (length ts < fuel)%nat →
  lex_all fuel (mk_lexer (pre ++ print_tokens ts) p) = Some (Ok ts).
Proof.
  induction ts as [|t ts IH]; intros p pre fuel Hwf Hpre Hf; (destruct fuel as [|fuel]; [cbn in Hf; lia|]).
  - destruct Hpre as [-> | ->]; reflexivity.
  - cbn [forallb] in Hwf. apply andb_true_iff in Hwf as [Ht Hts]. rewrite print_tokens_cons.
    assert (t ≠ Eof) as Hne by (by intros ->).
    assert (∃ p', next_token (mk_lexer (pre ++ print_token t ++ 32 :: print_tokens ts) p) =
      Ok (t, mk_lexer (32 :: print_tokens ts) p')) as [p' E].
    { destruct Hpre as [-> | ->]; [by apply token_reads|]. cbn [app]. rewrite next_token_blank. by apply token_reads. }
    eapply lex_all_cons; [done|done|]. apply (IH p' [32] fuel); [done|by right|cbn in Hf; lia].
Qed.

Lemma lex_all_valid fuel : ∀ lx r,
  valid (rest lx) → lex_all fuel lx = Some r →
  (∀ p, r ≠ Err (Syntax p StringNotUtf8)) ∧ (∀ ts s, r = Ok ts → StrLit s ∈ ts → utf8_valid s = true).
Proof.
  induction fuel as [|fuel IH]; intros lx r Hv; [done|]. cbn [lex_all].
  pose proof (next_token_valid lx Hv) as Hn. destruct (next_token lx) as [[t lx']|e].
  - destruct Hn as [Hv' Hs]. assert (t = Eof ∨ t ≠ Eof) as [->|Ht] by (destruct t; auto).
    { intros [= <-]. split; [done|]. intros ts s [= <-] []%not_elem_of_nil. }
    destruct (lex_all fuel lx') as [r'|] eqn:E; [|by destruct t]. destruct (IH lx' r' Hv' E) as [He Hts].
    intros Hr. assert (r = match r' with Ok ts => Ok (t :: ts) | Err e => Err e end) as -> by (destruct t; by injection Hr).
    split.
    + intros p. destruct r'; [done|]. apply He.
    + intros ts s. destruct r' as [ts'|]; [|done]. intros [= <-] Hin. apply elem_of_cons in Hin as [Heq|Hin]; [by apply Hs; subst|by eapply Hts].
  - intros [= <-]. split; [|done]. intros p [= ->]. by apply (Hn p).
Qed.

(** ** Properties *)

(** C38: Printing tokens and lexing the text gives them back: identifiers, strings with
    their quotes and backslashes escaped, integers from [i64::MIN] to [i64::MAX],
    booleans, keywords and operators. *)
Theorem lexer_roundtrip (ts : list Token) :
  forallb token_wf ts = true → lex_all (S (length ts)) (lexer_new (print_tokens ts)) = Some (Ok ts).
Proof. intros Hts. by apply (lex_print_tokens ts 0 []); [|left|lia]. Qed.

Lemma lexer_roundtrip_witness :
  let ts := [Ident (str "age"); TGe; IntLit (-9223372036854775808); TAnd; Ident (str "name"); TIn; LParen;
             StrLit (str "O'Brien\"); Comma; StrLit [34; 224; 174; 164]; RParen] in
  lex_all (S (length ts)) (lexer_new (print_tokens ts)) = Some (Ok ts).
Proof. cbv zeta. apply lexer_roundtrip. vm_compute. reflexivity. Defined.

(** C39: On any UTF-8 input the lexer stops after at most one token per byte, and the
    bytes a string literal copies, escapes included, are always whole characters: the
    error for a literal that is not UTF-8 is never returned, and every string it
    yields is valid text. *)
Theorem lexer_total_utf8 (input : bytes) :
  utf8_valid input = true →
  ∃ r, lex_all (S (length input)) (lexer_new input) = Some r ∧
    (∀ p, r ≠ Err (Syntax p StringNotUtf8)) ∧ (∀ ts s, r = Ok ts → StrLit s ∈ ts → utf8_valid s = true).
Proof.
  intros Hv%utf8_valid_iff. destruct (lex_all_total (lexer_new input) (S (length input))) as [r Hr]; [cbn; lia|].
  exists r. split; [done|]. by apply (lex_all_valid (S (length input)) (lexer_new input)).
Qed.

Lemma lexer_total_utf8_witness :
  ∃ r, lex_all (S 9) (lexer_new ([39; 92; 224; 174; 164; 39; 32] ++ str "<=")) = Some r ∧
    (∀ p, r ≠ Err (Syntax p StringNotUtf8)) ∧ (∀ ts s, r = Ok ts → StrLit s ∈ ts → utf8_valid s = true).
Proof. apply (lexer_total_utf8 ([39; 92; 224; 174; 164; 39; 32] ++ str "<=")). vm_compute. reflexivity. Defined.
