(* ===== verification/QueryParser.v ===== *)
(** * QueryParser: the recursive-descent parser of the query language

    [src/minnal_db/src/index/query/parser.rs].  A grammar rule is a computation over
    the parser's state that may fail with a [QueryError]; the rules call each other,
    so they carry fuel and return [None] without it.  [parse] gives them four units
    per byte of input, which [parse_total] shows to be enough.  The grammar of the
    source's comment is the relation [gram_or]; [parse_iff_grammar] states that
    the parser accepts exactly its sentences, within the two complexity limits. *)
From S2P Require Import Prelude QueryLexer.

(** ** The syntax tree *)

Inductive Op := OpEq | OpNe | OpLt | OpLe | OpGt | OpGe | OpIn.

Inductive RawValue :=
| VStr (s : bytes)
| VInt (n : Z)
| VBool (b : bool)
| VList (items : list RawValue).

Inductive RawExpr :=
| EAnd (l r : RawExpr)
| EOr (l r : RawExpr)
| ENot (e : RawExpr)
| EPredicate (field : bytes) (op : Op) (value : RawValue).

#[global] Instance Op_eq_dec : EqDecision Op.
Proof. solve_decision. Defined.

Definition MAX_PARSE_DEPTH : Z := 64.
Definition MAX_PARSE_NODES : Z := 512.

(** ** Parser state and its monad *)

Record Parser := mk_parser {
  lexer : Lexer;
  current : Token;
  tok_pos : Z;
  depth : Z;
  nodes : Z;
}.

Definition M (A : Type) : Type := Parser → option (result (A * Parser) QueryError).

#[global] Instance M_ret : MRet M := λ A a p, Some (Ok (a, p)).
#[global] Instance M_bind : MBind M := λ A B f m p,
  match m p with
  | None => None
  | Some (Err e) => Some (Err e)
  | Some (Ok (a, p)) => f a p
  end.

Definition fail {A} (e : QueryError) : M A := λ _, Some (Err e).
Definition out_of_fuel {A} : M A := λ _, None.
(** A syntax error at the position of the current token. *)
Definition syntax {A} (msg : SyntaxMsg) : M A := λ p, Some (Err (Syntax (tok_pos p) msg)).
Definition peek : M Token := λ p, Some (Ok (current p, p)).

Definition advance : M Token := λ p,
  let tok_pos := pos (lexer p) in
  match next_token (lexer p) with
  | Err e => Some (Err e)
  | Ok (next, lx) => Some (Ok (current p, mk_parser lx next tok_pos (depth p) (nodes p)))
  end.

Definition enter : M () := λ p,
  let d := depth p + 1 in
  if MAX_PARSE_DEPTH <? d then Some (Err (TooComplex NestingLimit))
  else Some (Ok ((), mk_parser (lexer p) (current p) (tok_pos p) d (nodes p))).
Definition leave : M () := λ p,
  Some (Ok ((), mk_parser (lexer p) (current p) (tok_pos p) (depth p - 1) (nodes p))).
Definition add_node : M () := λ p,
  let n := nodes p + 1 in
  if MAX_PARSE_NODES <? n then Some (Err (TooComplex TermsLimit))
  else Some (Ok ((), mk_parser (lexer p) (current p) (tok_pos p) (depth p) n)).

(** ** Grammar rules *)

Definition literal (t : Token) : option RawValue :=
  match t with
  | StrLit s => Some (VStr s) | IntLit n => Some (VInt n) | BoolLit b => Some (VBool b) | _ => None
  end.

Definition parse_scalar : M RawValue :=
  t ← advance; match literal t with Some v => mret v | None => syntax (ExpectedLiteral t) end.

Fixpoint in_list_loop (fuel : nat) (items : list RawValue) : M (list RawValue) :=
  match fuel with
  | O => out_of_fuel
  | S fuel =>
      v ← parse_scalar;
      t ← peek;
      match t with
      | Comma => _ ← advance; in_list_loop fuel (items ++ [v])
      | RParen => _ ← advance; mret (items ++ [v])
      | other => syntax (ExpectedCommaOrRParen other)
      end
  end.

Definition parse_in_list (fuel : nat) : M RawValue :=
  t ← peek;
  if bool_decide (t = LParen) then
    _ ← advance;
    items ← in_list_loop fuel [];
    if bool_decide (length items = 0%nat) then fail EmptyInList else mret (VList items)
  else syntax InRequiresList.

Definition operator (t : Token) : option Op :=
  match t with
  | TEq => Some OpEq | TNe => Some OpNe | TLt => Some OpLt | TLe => Some OpLe
  | TGt => Some OpGt | TGe => Some OpGe | TIn => Some OpIn
  | _ => None
  end.

Definition parse_predicate (fuel : nat) : M RawExpr :=
  t ← advance;
  match t with
  | Ident field =>
      t ← advance;
      match operator t with
      | Some op =>
          value ← (if bool_decide (op = OpIn) then parse_in_list fuel else parse_scalar);
          _ ← add_node;
          mret (EPredicate field op value)
      | None => syntax (ExpectedOperator t)
      end
  | tok => syntax (ExpectedFieldName tok)
  end.

Fixpoint parse_or (fuel : nat) : M RawExpr :=
  match fuel with
  | O => out_of_fuel
  | S fuel => left ← parse_and fuel; or_loop fuel left
  end
with or_loop (fuel : nat) (left : RawExpr) : M RawExpr :=
  match fuel with
  | O => out_of_fuel
  | S fuel =>
      t ← peek;
      if bool_decide (t = TOr) then
        _ ← advance; right ← parse_and fuel; _ ← add_node; or_loop fuel (EOr left right)
      else mret left
  end
with parse_and (fuel : nat) : M RawExpr :=
  match fuel with
  | O => out_of_fuel
  | S fuel => left ← parse_term fuel; and_loop fuel left
  end
with and_loop (fuel : nat) (left : RawExpr) : M RawExpr :=
  match fuel with
  | O => out_of_fuel
  | S fuel =>
      t ← peek;
      if bool_decide (t = TAnd) then
        _ ← advance; right ← parse_term fuel; _ ← add_node; and_loop fuel (EAnd left right)
      else mret left
  end
with parse_term (fuel : nat) : M RawExpr :=
  match fuel with
  | O => out_of_fuel
  | S fuel =>
      t ← peek;
      match t with
      | TNot =>
          _ ← advance; _ ← enter; inner ← parse_term fuel; _ ← leave; _ ← add_node; mret (ENot inner)
      | LParen =>
          _ ← advance; _ ← enter; expr ← parse_or fuel; _ ← leave;
          t ← peek;
          if bool_decide (t = RParen) then _ ← advance; mret expr else syntax ExpectedRParen
      | Ident _ => parse_predicate fuel
      | other => syntax (ExpectedTerm other)
      end
  end.

Definition parser_new (input : bytes) : result Parser QueryError :=
  let lx := lexer_new input in
  match next_token lx with
  | Err e => Err e
  | Ok (t, lx') => Ok (mk_parser lx' t (pos lx) 0 0)
  end.

Definition parse_with (fuel : nat) (input : bytes) : option (result RawExpr QueryError) :=
  match parser_new input with
  | Err e => Some (Err e)
  | Ok p =>
      match parse_or fuel p with
      | None => None
      | Some (Err e) => Some (Err e)
      | Some (Ok (expr, p)) =>
          if bool_decide (current p = Eof) then Some (Ok expr)
          else Some (Err (Syntax (tok_pos p) (UnexpectedTokenAfterExpression (current p))))
      end
  end.

Definition parse_fuel (input : bytes) : nat := 4 * length input + 3.
Definition parse (input : bytes) : option (result RawExpr QueryError) := parse_with (parse_fuel input) input.

(** ** Termination: the fuel of [parse] is enough *)

Definition left_over (p : Parser) : nat :=
  (length (rest (lexer p)) + if bool_decide (current p = Eof) then 0 else 1)%nat.

(** [m] ends from [p], having used at least [k] of what was left. *)
Definition ends {A} (k : nat) (m : M A) (p : Parser) : Prop :=
  ∃ r, m p = Some r ∧ ∀ a p', r = Ok (a, p') → (left_over p' + k ≤ left_over p)%nat.

Lemma ends_ret {A} (a : A) p : ends 0 (mret a) p.
Proof. eexists. split; [done|]. intros ? ? [= <- <-]. lia. Qed.

Lemma ends_err {A} k (e : QueryError) (m : M A) p : m p = Some (Err e) → ends k m p.
Proof. intros Hm. eexists. by split. Qed.

Lemma ends_weaken {A} k k' (m : M A) p : ends k m p → (k' ≤ k)%nat → ends k' m p.
Proof. intros (r & Hr & Hk) Hle. exists r. split; [done|]. intros a p' Hok. specialize (Hk a p' Hok). lia. Qed.

Lemma ends_bind {A B} k k1 (m : M A) (f : A → M B) p :
  ends k1 m p → (∀ a p', (left_over p' + k1 ≤ left_over p)%nat → ends (k - k1) (f a) p') → ends k (m ≫= f) p.
Proof.
  intros (r & Hr & Hk) Hf. unfold ends, mbind, M_bind. rewrite Hr. destruct r as [[a p1]|e]; [|by eexists].
  specialize (Hk a p1 eq_refl). destruct (Hf a p1 Hk) as (r2 & Hr2 & Hk2). exists r2. split; [done|].
  intros b p2 ->. specialize (Hk2 b p2 eq_refl). lia.
Qed.

Lemma advance_left p : ends (if bool_decide (current p = Eof) then 0 else 1) advance p.
Proof.
  unfold advance, ends. destruct (next_token (lexer p)) as [[t lx]|e] eqn:E; [|by eexists]. eexists. split; [done|].
  intros a p' [= <- <-]. apply next_token_reads in E as (_ & He & Hn). unfold left_over. cbn [lexer current].
  repeat case_bool_decide; rewrite ?He by done; cbn [length]; try specialize (Hn ltac:(done)); lia.
Qed.

Lemma ends_advance {B} k (f : Token → M B) p :
  current p ≠ Eof → (∀ p', (left_over p' < left_over p)%nat → ends (k - 1) (f (current p)) p') →
  ends k (advance ≫= f) p.
Proof.
  intros Hne Hf. pose proof (advance_left p) as Ha. rewrite bool_decide_false in Ha by done.
  destruct Ha as (r & Hr & Hk). unfold ends, mbind, M_bind. rewrite Hr. destruct r as [[a p1]|e]; [|by eexists].
  assert (a = current p) as ->.
  { unfold advance in Hr. by destruct (next_token (lexer p)) as [[? ?]|]; inversion Hr. }
  specialize (Hk _ p1 eq_refl). destruct (Hf p1 ltac:(lia)) as (r2 & Hr2 & Hk2). exists r2. split; [done|].
  intros b p2 ->. specialize (Hk2 b p2 eq_refl). lia.
Qed.

Lemma ends_peek {B} k (f : Token → M B) p : ends k (f (current p)) p → ends k (peek ≫= f) p.
Proof. done. Qed.

Lemma add_node_left p : ends 0 add_node p.
Proof.
  unfold add_node, ends. case_match; [by eexists|]. eexists. split; [done|]. intros [] p' [= <-]. unfold left_over. cbn. lia.
Qed.
Lemma enter_left p : ends 0 enter p.
Proof.
  unfold enter, ends. case_match; [by eexists|]. eexists. split; [done|]. intros [] p' [= <-]. unfold left_over. cbn. lia.
Qed.
Lemma leave_left p : ends 0 leave p.
Proof. eexists. split; [done|]. intros [] p' [= <-]. unfold left_over. cbn. lia. Qed.

(** Reading a token that is not the sentinel. *)
Lemma advance_current p t p' : advance p = Some (Ok (t, p')) → t = current p.
Proof. unfold advance. by destruct (next_token (lexer p)) as [[? ?]|]; intros [= <- _]. Qed.

Lemma parse_scalar_left p : ends 1 parse_scalar p.
Proof.
  unfold parse_scalar. destruct (decide (current p = Eof)) as [He|Hne].
  - destruct (advance_left p) as (r & Hr & _). unfold ends, mbind, M_bind. rewrite Hr.
    destruct r as [[t p1]|e]; [|by eexists]. apply advance_current in Hr. rewrite Hr, He. by eexists.
  - apply ends_advance; [done|]. intros p' Hp. destruct (literal _); [apply ends_ret|by eapply ends_err].
Qed.

Lemma in_list_loop_left fuel : ∀ items p, (left_over p < fuel)%nat → ends 1 (in_list_loop fuel items) p.
Proof.
  induction fuel as [|fuel IH]; intros items p Hf; [lia|]. cbn [in_list_loop].
  eapply (ends_bind _ 1); [apply parse_scalar_left|]. intros v p1 Hp1. apply ends_peek.
  destruct (current p1) eqn:Ec; try (by eapply ends_err).
  - apply ends_advance; [congruence|]. intros p2 Hp2. apply ends_ret.
  - apply ends_advance; [congruence|]. intros p2 Hp2. eapply ends_weaken; [apply IH; lia|lia].
Qed.

Lemma parse_predicate_left fuel p : (left_over p ≤ fuel)%nat → current p ≠ Eof → ends 1 (parse_predicate fuel) p.
Proof.
  intros Hf Hne. unfold parse_predicate. apply ends_advance; [done|]. intros p1 Hp1. destruct (current p); try (by eapply ends_err).
  destruct (decide (current p1 = Eof)) as [He|Hne1].
  { destruct (advance_left p1) as (r & Hr & _). unfold ends, mbind, M_bind. rewrite Hr.
    destruct r as [[t p2]|e]; [|by eexists]. apply advance_current in Hr. rewrite Hr, He. by eexists. }
  apply ends_advance; [done|]. intros p2 Hp2. destruct (operator _) as [op|]; [|by eapply ends_err].
  eapply (ends_bind _ 0).
  - case_bool_decide; [|eapply ends_weaken; [apply parse_scalar_left|lia]]. unfold parse_in_list. apply ends_peek.
    case_bool_decide as Hl; [|by eapply ends_err]. apply ends_advance; [by rewrite Hl|]. intros p3 Hp3.
    eapply (ends_bind _ 0); [eapply ends_weaken; [apply in_list_loop_left; lia|lia]|]. intros items p4 Hp4.
    case_bool_decide; [by eapply ends_err|apply ends_ret].
  - intros v p3 Hp3. eapply (ends_bind _ 0); [apply add_node_left|]. intros [] p4 Hp4. apply ends_ret.
Qed.

Lemma grammar_left fuel :
  (∀ p, (4 * left_over p + 3 ≤ fuel)%nat → ends 1 (parse_or fuel) p) ∧
  (∀ e p, (4 * left_over p + 1 ≤ fuel)%nat → ends 0 (or_loop fuel e) p) ∧
  (∀ p, (4 * left_over p + 2 ≤ fuel)%nat → ends 1 (parse_and fuel) p) ∧
  (∀ e p, (4 * left_over p + 1 ≤ fuel)%nat → ends 0 (and_loop fuel e) p) ∧
  (∀ p, (4 * left_over p + 1 ≤ fuel)%nat → ends 1 (parse_term fuel) p).
Proof.
  induction fuel as [|fuel (IHor & IHol & IHand & IHal & IHterm)]; [split_and!; intros; lia|].
  split_and!; [intros p Hf|intros e p Hf|intros p Hf|intros e p Hf|intros p Hf];
    cbn [parse_or or_loop parse_and and_loop parse_term].
  - eapply (ends_bind _ 1); [apply IHand; lia|]. intros l p1 Hp1. eapply ends_weaken; [apply IHol; lia|lia].
  - apply ends_peek. case_bool_decide as Ht; [|apply ends_ret]. apply ends_advance; [by rewrite Ht|]. intros p1 Hp1.
    eapply (ends_bind _ 1); [apply IHand; lia|]. intros r p2 Hp2.
    eapply (ends_bind _ 0); [apply add_node_left|]. intros [] p3 Hp3. eapply ends_weaken; [apply IHol; lia|lia].
  - eapply (ends_bind _ 1); [apply IHterm; lia|]. intros l p1 Hp1. eapply ends_weaken; [apply IHal; lia|lia].
  - apply ends_peek. case_bool_decide as Ht; [|apply ends_ret]. apply ends_advance; [by rewrite Ht|]. intros p1 Hp1.
    eapply (ends_bind _ 1); [apply IHterm; lia|]. intros r p2 Hp2.
    eapply (ends_bind _ 0); [apply add_node_left|]. intros [] p3 Hp3. eapply ends_weaken; [apply IHal; lia|lia].
  - apply ends_peek. destruct (current p) eqn:Ec; try (by eapply ends_err).
    + apply parse_predicate_left; [lia|congruence].
    + apply ends_advance; [congruence|]. intros p1 Hp1. eapply (ends_bind _ 0); [apply enter_left|]. intros [] p2 Hp2.
      eapply (ends_bind _ 0); [eapply ends_weaken; [apply IHterm; lia|lia]|]. intros inner p3 Hp3.
      eapply (ends_bind _ 0); [apply leave_left|]. intros [] p4 Hp4.
      eapply (ends_bind _ 0); [apply add_node_left|]. intros [] p5 Hp5. apply ends_ret.
    + apply ends_advance; [congruence|]. intros p1 Hp1. eapply (ends_bind _ 0); [apply enter_left|]. intros [] p2 Hp2.
      eapply (ends_bind _ 0); [eapply ends_weaken; [apply IHor; lia|lia]|]. intros inner p3 Hp3.
      eapply (ends_bind _ 0); [apply leave_left|]. intros [] p4 Hp4. apply ends_peek.
      case_bool_decide as Hr; [|by eapply ends_err]. 
      eapply (ends_bind _ 0); [eapply ends_weaken; [apply advance_left|lia]|]. intros t p5 Hp5. apply ends_ret.
Qed.

Lemma parse_with_total fuel input : (4 * length input + 3 ≤ fuel)%nat → is_Some (parse_with fuel input).
Proof.
  intros Hf. unfold parse_with, parser_new. cbv zeta. destruct (next_token (lexer_new input)) as [[t lx]|e] eqn:E; [|by eexists].
  apply next_token_reads in E as (Hr & He & Hn). apply reads_length in Hr. cbn [rest lexer_new] in *.
  set (p := mk_parser lx t (pos (lexer_new input)) 0 0).
  assert (left_over p ≤ length input)%nat.
  { unfold left_over, p. cbn [lexer current]. case_bool_decide; [lia|]. specialize (Hn ltac:(done)). lia. }
  destruct (proj1 (grammar_left fuel) p) as (r & Hres & _); [lia|]. rewrite Hres.
  destruct r as [[expr p']|e]; [|by eexists]. case_bool_decide; by eexists.
Qed.

(** ** The grammar *)

Inductive gram_items : list Token → list RawValue → Prop :=
| items_one t v : literal t = Some v → gram_items [t; RParen] [v]
| items_more t v ts vs : literal t = Some v → gram_items ts vs → gram_items (t :: Comma :: ts) (v :: vs).

Inductive gram_pred : list Token → RawExpr → Prop :=
| pred_scalar f o op t v :
    operator o = Some op → op ≠ OpIn → literal t = Some v → gram_pred [Ident f; o; t] (EPredicate f op v)
| pred_in f ts vs : gram_items ts vs → gram_pred (Ident f :: TIn :: LParen :: ts) (EPredicate f OpIn (VList vs)).

(** [gram_or d ts e]: the tokens [ts] are a sentence with tree [e], in which
    parentheses and [NOT] are nested [d] deep.  [NOT] binds tightest, then [AND], then
    [OR]; both are left-associative. *)
Inductive gram_or : Z → list Token → RawExpr → Prop :=
| or_one d ts e : gram_and d ts e → gram_or d ts e
| or_more d1 d2 ts1 ts2 l r :
    gram_or d1 ts1 l → gram_and d2 ts2 r → gram_or (Z.max d1 d2) (ts1 ++ TOr :: ts2) (EOr l r)
with gram_and : Z → list Token → RawExpr → Prop :=
| and_one d ts e : gram_term d ts e → gram_and d ts e
| and_more d1 d2 ts1 ts2 l r :
    gram_and d1 ts1 l → gram_term d2 ts2 r → gram_and (Z.max d1 d2) (ts1 ++ TAnd :: ts2) (EAnd l r)
with gram_term : Z → list Token → RawExpr → Prop :=
| term_not d ts e : gram_term d ts e → gram_term (d + 1) (TNot :: ts) (ENot e)
| term_paren d ts e : gram_or d ts e → gram_term (d + 1) (LParen :: ts ++ [RParen]) e
| term_pred ts e : gram_pred ts e → gram_term 0 ts e.

Scheme gram_or_mut := Induction for gram_or Sort Prop
  with gram_and_mut := Induction for gram_and Sort Prop
  with gram_term_mut := Induction for gram_term Sort Prop.
Combined Scheme gram_ind from gram_or_mut, gram_and_mut, gram_term_mut.

Fixpoint expr_nodes (e : RawExpr) : Z :=
  match e with
  | EAnd l r | EOr l r => 1 + expr_nodes l + expr_nodes r
  | ENot e => 1 + expr_nodes e
  | EPredicate _ _ _ => 1
  end.

(** Where the parser stands: the lexer after the current token, and that token. *)
Definition front (p : Parser) : Lexer * Token := (lexer p, current p).

Inductive reads_tokens : Lexer * Token → list Token → Lexer * Token → Prop :=
| reads_nil s : reads_tokens s [] s
| reads_cons lx t lx' t' ts s :
    next_token lx = Ok (t', lx') → reads_tokens (lx', t') ts s → reads_tokens (lx, t) (t :: ts) s.

Lemma reads_tokens_app s a b s' : reads_tokens s (a ++ b) s' ↔ ∃ m, reads_tokens s a m ∧ reads_tokens m b s'.
Proof.
  split.
  - revert s. induction a as [|t a IH]; intros s Hs; [by exists s; split; [constructor|]|].
    inversion Hs as [|lx ? lx' t' ? ? Hn Hr]; subst. destruct (IH _ Hr) as (m & Ha & Hb). exists m. split; [by econstructor|done].
  - intros (m & Ha & Hb). induction Ha; [done|]. econstructor; eauto.
Qed.

(** ** Running the monad *)

Lemma bind_ok {A B} (m : M A) (f : A → M B) p b p2 :
  (m ≫= f) p = Some (Ok (b, p2)) ↔ ∃ a p1, m p = Some (Ok (a, p1)) ∧ f a p1 = Some (Ok (b, p2)).
Proof. unfold mbind, M_bind. destruct (m p) as [[[a p1]|e]|]; naive_solver. Qed.

Lemma bind_some {A B} (m : M A) (f : A → M B) p a p1 : m p = Some (Ok (a, p1)) → (m ≫= f) p = f a p1.
Proof. unfold mbind, M_bind. by intros ->. Qed.

Lemma advance_ok p t p' :
  advance p = Some (Ok (t, p')) →
  t = current p ∧ reads_tokens (front p) [t] (front p') ∧ depth p' = depth p ∧ nodes p' = nodes p.
Proof.
  unfold advance. destruct (next_token (lexer p)) as [[t' lx]|e] eqn:E; [|done]. intros [= <- <-].
  split_and!; [done| |done|done]. unfold front. cbn. eapply reads_cons; [done|constructor].
Qed.

Lemma add_node_ok p u p' :
  add_node p = Some (Ok (u, p')) →
  front p' = front p ∧ depth p' = depth p ∧ nodes p' = nodes p + 1 ∧ nodes p' ≤ MAX_PARSE_NODES.
Proof. unfold add_node. cbv zeta. case_match eqn:E; [done|]. intros [= <- <-]. apply Z.ltb_ge in E. done. Qed.

Lemma enter_ok p u p' :
  enter p = Some (Ok (u, p')) →
  front p' = front p ∧ depth p' = depth p + 1 ∧ nodes p' = nodes p ∧ depth p' ≤ MAX_PARSE_DEPTH.
Proof. unfold enter. cbv zeta. case_match eqn:E; [done|]. intros [= <- <-]. apply Z.ltb_ge in E. done. Qed.

Lemma leave_ok p u p' :
  leave p = Some (Ok (u, p')) → front p' = front p ∧ depth p' = depth p - 1 ∧ nodes p' = nodes p.
Proof. intros [= <- <-]. done. Qed.

(** ** Soundness: what is parsed is a sentence with that tree *)

(** [m] read the tokens [ts] from [p] to [p'], and left the counters as they should. *)
Definition read (p : Parser) (ts : list Token) (p' : Parser) : Prop :=
  reads_tokens (front p) ts (front p') ∧ depth p' = depth p.

Lemma read_app p a p1 b p' : read p a p1 → read p1 b p' → read p (a ++ b) p'.
Proof. intros [H1 H2] [H3 H4]. split; [|congruence]. apply reads_tokens_app. eauto. Qed.

Lemma read_cons p t p1 b p' : read p [t] p1 → read p1 b p' → read p (t :: b) p'.
Proof. apply (read_app p [t]). Qed.

Lemma advance_read p t p' : advance p = Some (Ok (t, p')) → read p [t] p' ∧ t = current p ∧ nodes p' = nodes p.
Proof. intros H. apply advance_ok in H as (? & ? & ? & ?). done. Qed.

Lemma parse_scalar_ok p v p' :
  parse_scalar p = Some (Ok (v, p')) → ∃ t, literal t = Some v ∧ read p [t] p' ∧ nodes p' = nodes p.
Proof.
  unfold parse_scalar. intros (t & p1 & Ha & Hm)%bind_ok. apply advance_read in Ha as (Hr & _ & Hn).
  destruct (literal t) as [v'|] eqn:E; [|done]. injection Hm as <- <-. by exists t.
Qed.

Lemma in_list_loop_ok fuel : ∀ items p vs p',
  in_list_loop fuel items p = Some (Ok (vs, p')) →
  ∃ ts vs', gram_items ts vs' ∧ vs = items ++ vs' ∧ read p ts p' ∧ nodes p' = nodes p.
Proof.
  induction fuel as [|fuel IH]; intros items p vs p'; [done|]. cbn [in_list_loop].
  intros (v & p1 & Hv & (t & p2 & [= <- <-] & Hm)%bind_ok)%bind_ok. apply parse_scalar_ok in Hv as (tv & Hl & Hr & Hn).
  destruct (current p1) eqn:Ec; try done; apply bind_ok in Hm as (t2 & p3 & Ha & Hm); apply advance_read in Ha as (Hr2 & -> & Hn2);
    rewrite Ec in Hr2.
  - injection Hm as <- <-. exists [tv; RParen], [v]. split_and!; [by constructor|done|by eapply read_cons|congruence].
  - apply IH in Hm as (ts & vs' & Hg & -> & Hr3 & Hn3). exists (tv :: Comma :: ts), (v :: vs').
    split_and!; [by constructor|by rewrite <-app_assoc| |congruence]. eapply read_cons; [done|]. by eapply read_cons.
Qed.

Lemma parse_predicate_ok fuel p e p' :
  parse_predicate fuel p = Some (Ok (e, p')) →
  ∃ ts, gram_pred ts e ∧ read p ts p' ∧ nodes p' = nodes p + expr_nodes e ∧ nodes p' ≤ MAX_PARSE_NODES.
Proof.
  unfold parse_predicate. intros (t & p1 & Ha & Hm)%bind_ok. apply advance_read in Ha as (Hr1 & -> & Hn1).
  destruct (current p) eqn:Ec; try done. apply bind_ok in Hm as (o & p2 & Ha & Hm). apply advance_read in Ha as (Hr2 & -> & Hn2).
  destruct (operator (current p1)) as [op|] eqn:Eo; [|done].
  apply bind_ok in Hm as (v & p3 & Hv & (u & p4 & Hadd & [= <- <-])%bind_ok). apply add_node_ok in Hadd as (Hf & Hd & Hn & Hmax).
  assert (∃ tv, gram_pred (Ident s :: current p1 :: tv) (EPredicate s op v) ∧ read p2 tv p3 ∧ nodes p3 = nodes p2) as (tv & Hg & Hr3 & Hn3).
  { case_bool_decide as Hin.
    - subst op. assert (current p1 = TIn) as -> by (by destruct (current p1)). unfold parse_in_list in Hv.
      apply bind_ok in Hv as (t & pa & [= <- <-] & Hv). case_bool_decide as Hl; [|done].
      apply bind_ok in Hv as (t & pb & Ha & (items & pc & Hloop & Hv)%bind_ok). apply advance_read in Ha as (Hra & -> & Hna).
      apply in_list_loop_ok in Hloop as (ts & vs & Hg & -> & Hrb & Hnb). cbn [app] in Hv. case_bool_decide; [done|].
      injection Hv as <- <-. exists (LParen :: ts). split_and!; [by constructor| |congruence]. rewrite Hl in Hra. by eapply read_cons.
    - apply parse_scalar_ok in Hv as (tv & Hl & Hr & Hnv). exists [tv]. split_and!; [by econstructor|done|done]. }
  exists (Ident s :: current p1 :: tv). split_and!; [done| |cbn; lia|done].
  eapply read_cons; [done|]. eapply read_cons; [done|]. destruct Hr3 as [H1 H2]. split; [by rewrite Hf|congruence].
Qed.

Definition within (p : Parser) : Prop := depth p ≤ MAX_PARSE_DEPTH ∧ nodes p ≤ MAX_PARSE_NODES.

Definition sound (G : Z → list Token → RawExpr → Prop) (m : M RawExpr) : Prop :=
  ∀ p e p', within p → m p = Some (Ok (e, p')) →
  ∃ d ts, G d ts e ∧ read p ts p' ∧ within p' ∧ nodes p' = nodes p + expr_nodes e ∧ depth p + d ≤ MAX_PARSE_DEPTH.

Definition sound_loop (G : Z → list Token → RawExpr → Prop) (m : RawExpr → M RawExpr) : Prop :=
  ∀ e0 p e p', within p → m e0 p = Some (Ok (e, p')) →
  ∃ ts, read p ts p' ∧ within p' ∧ nodes p' + expr_nodes e0 = nodes p + expr_nodes e ∧
    ∀ d0 ts0, G d0 ts0 e0 → depth p + d0 ≤ MAX_PARSE_DEPTH →
      ∃ d, G d (ts0 ++ ts) e ∧ depth p + d ≤ MAX_PARSE_DEPTH.

(** A rule that is an operand and a loop over it. *)
Lemma chain_sound G1 G2 m loop :
  (∀ d ts e, G1 d ts e → G2 d ts e) → sound G1 m → sound_loop G2 loop → sound G2 (l ← m; loop l).
Proof.
  intros Hone Hm Hl p e p' Hp (l & p1 & H1 & H2)%bind_ok. destruct (Hm _ _ _ Hp H1) as (d & ts & Hg & Hr & Hp1 & Hn & Hd).
  destruct (Hl _ _ _ _ Hp1 H2) as (ts2 & Hr2 & Hp2 & Hn2 & Hext). pose proof Hr as [_ Hdep].
  destruct (Hext d ts (Hone _ _ _ Hg)) as (d' & Hg' & Hd'); [lia|]. exists d', (ts ++ ts2).
  split_and!; [done|by eapply read_app|done|lia|lia].
Qed.

Lemma loop_sound G1 G2 m (t : Token) (mk : RawExpr → RawExpr → RawExpr) (loop : RawExpr → M RawExpr) :
  (∀ l r, expr_nodes (mk l r) = 1 + expr_nodes l + expr_nodes r) →
  (∀ d1 d2 ts1 ts2 l r, G2 d1 ts1 l → G1 d2 ts2 r → G2 (Z.max d1 d2) (ts1 ++ t :: ts2) (mk l r)) →
  sound G1 m → sound_loop G2 loop →
  sound_loop G2 (λ left, tok ← peek;
    if bool_decide (tok = t) then _ ← advance; right ← m; _ ← add_node; loop (mk left right) else mret left).
Proof.
  intros Hnodes Hmore Hm Hl e0 p e p' Hp (tok & p0 & [= <- <-] & H1)%bind_ok. case_bool_decide as Ht.
  - apply bind_ok in H1 as (t1 & p1 & Ha & (r & p2 & H2 & (u & p3 & Hadd & H3)%bind_ok)%bind_ok).
    apply advance_read in Ha as (Hr1 & -> & Hn1). pose proof Hr1 as [_ Hd1].
    destruct (Hm p1 r p2) as (d & ts & Hg & Hr2 & Hp2 & Hn2 & Hd2); [unfold within in *; lia|done|].
    apply add_node_ok in Hadd as (Hf & Hd3 & Hn3 & Hmax). pose proof Hr2 as [_ Hd2'].
    destruct (Hl (mk e0 r) p3 e p') as (ts' & Hr4 & Hp4 & Hn4 & Hext); [unfold within in *; lia|done|].
    rewrite Hnodes in Hn4. exists (t :: ts ++ ts'). split_and!; [|done|lia|].
    + rewrite Ht in Hr1. eapply read_cons; [done|]. eapply read_app; [done|]. destruct Hr4 as [H5 H6].
      split; [by rewrite <-Hf|congruence].
    + intros d0 ts0 Hg0 Hd0. destruct (Hext (Z.max d0 d) (ts0 ++ t :: ts)) as (d' & Hg' & Hd'); [by apply Hmore|lia|].
      exists d'. rewrite <-app_assoc in Hg'. split; [done|lia].
  - injection H1 as <- <-. exists []. split_and!; [split; [constructor|done]|done|lia|].
    intros d0 ts0 Hg0 Hd0. exists d0. by rewrite app_nil_r.
Qed.

Lemma grammar_sound fuel :
  sound gram_or (parse_or fuel) ∧ sound_loop gram_or (or_loop fuel) ∧
  sound gram_and (parse_and fuel) ∧ sound_loop gram_and (and_loop fuel) ∧ sound gram_term (parse_term fuel).
Proof.
  induction fuel as [|fuel (IHor & IHol & IHand & IHal & IHterm)]; [split_and!; done|]. split_and!.
  - exact (chain_sound _ _ _ _ or_one IHand IHol).
  - exact (loop_sound _ _ _ _ EOr _ (λ _ _, eq_refl) or_more IHand IHol).
  - exact (chain_sound _ _ _ _ and_one IHterm IHal).
  - exact (loop_sound _ _ _ _ EAnd _ (λ _ _, eq_refl) and_more IHterm IHal).
  - intros p e p' Hp. cbn [parse_term]. intros (t & p0 & [= <- <-] & H1)%bind_ok. destruct (current p) eqn:Ec; try done.
    + apply parse_predicate_ok in H1 as (ts & Hg & Hr & Hn & Hmax). pose proof Hr as [_ Hd]. unfold within in *.
      exists 0, ts. split_and!; [by constructor|done|lia..].
    + apply bind_ok in H1 as (t1 & p1 & Ha & (u1 & p2 & He & (inner & p3 & Hi & (u2 & p4 & Hl & (u3 & p5 & Hadd & [= <- <-])%bind_ok)%bind_ok)%bind_ok)%bind_ok).
      apply advance_read in Ha as (Hr1 & -> & Hn1). apply enter_ok in He as (Hf2 & Hd2 & Hn2 & Hmax2).
      apply leave_ok in Hl as (Hf4 & Hd4 & Hn4). apply add_node_ok in Hadd as (Hf5 & Hd5 & Hn5 & Hmax5). pose proof Hr1 as [_ Hd1].
      destruct (IHterm p2 inner p3) as (d & ts & Hg & Hr3 & Hp3 & Hn3 & Hd3); [unfold within in *; lia|done|]. pose proof Hr3 as [Hrt Hd3'].
      exists (d + 1), (TNot :: ts). unfold within in *. split_and!; [by constructor| |lia|lia|cbn; lia|lia].
      rewrite Ec in Hr1. eapply read_cons; [done|]. rewrite Hf2 in Hrt. split; [|lia]. rewrite Hf5, Hf4. done.
    + apply bind_ok in H1 as (t1 & p1 & Ha & (u1 & p2 & He & (inner & p3 & Hi & (u2 & p4 & Hl & (t5 & p5 & [= <- <-] & H5)%bind_ok)%bind_ok)%bind_ok)%bind_ok).
      apply advance_read in Ha as (Hr1 & -> & Hn1). apply enter_ok in He as (Hf2 & Hd2 & Hn2 & Hmax2).
      apply leave_ok in Hl as (Hf4 & Hd4 & Hn4). pose proof Hr1 as [_ Hd1]. case_bool_decide as Hrp; [|done].
      apply bind_ok in H5 as (t6 & p6 & Ha & [= <- <-]). apply advance_read in Ha as (Hr6 & -> & Hn6). pose proof Hr6 as [_ Hd6].
      destruct (IHor p2 inner p3) as (d & ts & Hg & Hr3 & Hp3 & Hn3 & Hd3); [unfold within in *; lia|done|]. pose proof Hr3 as [Hrt Hd3'].
      exists (d + 1), (LParen :: ts ++ [RParen]). unfold within in *. split_and!; [by constructor| |lia|lia|lia|lia].
      rewrite Ec in Hr1. rewrite Hrp in Hr6. eapply read_cons; [done|]. eapply read_app; [|done].
      rewrite Hf2 in Hrt. split; [by rewrite Hf4|lia].
Qed.

(** ** Completeness: every sentence within the limits is parsed to its tree *)

Definition extends {A} (m m' : M A) : Prop := ∀ p r, m p = Some r → m' p = Some r.

Lemma extends_refl {A} (m : M A) : extends m m.
Proof. by intros p r. Qed.

Lemma extends_bind {A B} (m m' : M A) (f f' : A → M B) :
  extends m m' → (∀ a, extends (f a) (f' a)) → extends (m ≫= f) (m' ≫= f').
Proof.
  intros Hm Hf p r. unfold mbind, M_bind. destruct (m p) as [x|] eqn:E; [|done]. rewrite (Hm _ _ E).
  destruct x as [[a p1]|e]; [apply Hf|done].
Qed.

Ltac extend :=
  first [ done | apply extends_refl | assumption
        | match goal with H : ∀ _, extends _ _ |- _ => apply H end ].

Lemma in_list_loop_mono fuel : ∀ items, extends (in_list_loop fuel items) (in_list_loop (S fuel) items).
Proof.
  induction fuel as [|fuel IH]; intros items; [done|]. cbn [in_list_loop].
  apply extends_bind; [extend|intros v]. apply extends_bind; [extend|intros t].
  destruct t; try extend. apply extends_bind; [extend|intros _]. apply IH.
Qed.

Lemma parse_predicate_mono fuel : extends (parse_predicate fuel) (parse_predicate (S fuel)).
Proof.
  unfold parse_predicate. apply extends_bind; [extend|intros t]. destruct t; try extend.
  apply extends_bind; [extend|intros o]. destruct (operator o); [|extend].
  apply extends_bind; [|intros v; extend]. case_bool_decide; [|extend]. unfold parse_in_list.
  apply extends_bind; [extend|intros t]. case_bool_decide; [|extend]. apply extends_bind; [extend|intros _].
  apply extends_bind; [apply in_list_loop_mono|intros items; extend].
Qed.

Lemma grammar_mono fuel :
  extends (parse_or fuel) (parse_or (S fuel)) ∧ (∀ e, extends (or_loop fuel e) (or_loop (S fuel) e)) ∧
  extends (parse_and fuel) (parse_and (S fuel)) ∧ (∀ e, extends (and_loop fuel e) (and_loop (S fuel) e)) ∧
  extends (parse_term fuel) (parse_term (S fuel)).
Proof.
  induction fuel as [|fuel (IHor & IHol & IHand & IHal & IHterm)]; [split_and!; done|].
  split_and!; [|intros e| |intros e|].
  - apply (extends_bind (parse_and fuel) (parse_and (S fuel))); [extend|intros l; apply IHol].
  - apply (extends_bind peek peek); [extend|intros t]. case_bool_decide; [|extend].
    apply extends_bind; [extend|intros _]. apply extends_bind; [extend|intros r]. apply extends_bind; [extend|intros _]. apply IHol.
  - apply (extends_bind (parse_term fuel) (parse_term (S fuel))); [extend|intros l; apply IHal].
  - apply (extends_bind peek peek); [extend|intros t]. case_bool_decide; [|extend].
    apply extends_bind; [extend|intros _]. apply extends_bind; [extend|intros r]. apply extends_bind; [extend|intros _]. apply IHal.
  - apply (extends_bind peek peek); [extend|intros t]. destruct t; try extend; [apply parse_predicate_mono| |].
    + apply extends_bind; [extend|intros _]. apply extends_bind; [extend|intros _]. apply extends_bind; [extend|intros e]. extend.
    + apply extends_bind; [extend|intros _]. apply extends_bind; [extend|intros _]. apply extends_bind; [extend|intros e]. extend.
Qed.

Lemma mono_le {A} (f : nat → M A) : (∀ n, extends (f n) (f (S n))) → ∀ n n', (n ≤ n')%nat → extends (f n) (f n').
Proof.
  intros Hf n n'. induction 1 as [|n' Hle IH]; [apply extends_refl|]. intros p r Hr. by apply Hf, IH.
Qed.

(** From [p], the parser state [p'] is reached by reading [ts]; [q] has its front. *)
Definition stands (q : Parser) (s : Lexer * Token) (d n : Z) : Prop := front q = s ∧ depth q = d ∧ nodes q = n.

Lemma advance_reads p t ts s :
  reads_tokens (front p) (t :: ts) s →
  ∃ p', advance p = Some (Ok (t, p')) ∧ reads_tokens (front p') ts s ∧ depth p' = depth p ∧ nodes p' = nodes p ∧ current p = t.
Proof.
  intros Hr. inversion Hr as [|lx ? lx' t' ? ? Hn Hr']; subst. unfold advance. rewrite Hn. eexists. split; [done|]. done.
Qed.

Lemma reads_nil_inv s s' : reads_tokens s [] s' → s' = s.
Proof. by inversion 1. Qed.

Lemma parse_scalar_complete p t v s :
  literal t = Some v → reads_tokens (front p) [t] s →
  ∃ p', parse_scalar p = Some (Ok (v, p')) ∧ stands p' s (depth p) (nodes p).
Proof.
  intros Hl Hr. apply advance_reads in Hr as (p' & Ha & ->%reads_nil_inv & Hd & Hn & _). exists p'. unfold parse_scalar.
  rewrite (bind_some _ _ _ _ _ Ha), Hl. done.
Qed.

Lemma in_list_complete ts vs : gram_items ts vs → ∀ items p s,
  reads_tokens (front p) ts s →
  ∃ fuel p', in_list_loop fuel items p = Some (Ok (items ++ vs, p')) ∧ stands p' s (depth p) (nodes p).
Proof.
  induction 1 as [t v Hl|t v ts vs Hl Hg IH]; intros items p s Hr.
  - change [t; RParen] with ([t] ++ [RParen]) in Hr. apply reads_tokens_app in Hr as (m & Hr1 & Hr2).
    destruct (parse_scalar_complete p t v m Hl Hr1) as (p1 & Hs & <- & Hd & Hn).
    apply advance_reads in Hr2 as (p2 & Ha & ->%reads_nil_inv & Hd2 & Hn2 & Hc). exists 1%nat, p2. cbn [in_list_loop].
    rewrite (bind_some _ _ _ _ _ Hs), (bind_some peek _ p1 RParen p1) by (unfold peek; by rewrite Hc).
    rewrite (bind_some _ _ _ _ _ Ha). split; [done|]. split_and!; [done|lia|lia].
  - change (t :: Comma :: ts) with ([t] ++ Comma :: ts) in Hr. apply reads_tokens_app in Hr as (m & Hr1 & Hr2).
    destruct (parse_scalar_complete p t v m Hl Hr1) as (p1 & Hs & <- & Hd & Hn).
    apply advance_reads in Hr2 as (p2 & Ha & Hr3 & Hd2 & Hn2 & Hc).
    destruct (IH (items ++ [v]) p2 s Hr3) as (fuel & p3 & Hloop & Hf3 & Hd3 & Hn3). exists (S fuel), p3. cbn [in_list_loop].
    rewrite (bind_some _ _ _ _ _ Hs), (bind_some peek _ p1 Comma p1) by (unfold peek; by rewrite Hc).
    rewrite (bind_some _ _ _ _ _ Ha), Hloop, <-app_assoc. split; [done|]. split_and!; [done|lia|lia].
Qed.

Lemma add_node_complete p : nodes p + 1 ≤ MAX_PARSE_NODES →
  ∃ p', add_node p = Some (Ok ((), p')) ∧ stands p' (front p) (depth p) (nodes p + 1).
Proof. intros Hn. unfold add_node. cbv zeta. rewrite (proj2 (Z.ltb_ge _ _)) by done. by eexists. Qed.

Lemma enter_complete p : depth p + 1 ≤ MAX_PARSE_DEPTH →
  ∃ p', enter p = Some (Ok ((), p')) ∧ stands p' (front p) (depth p + 1) (nodes p).
Proof. intros Hn. unfold enter. cbv zeta. rewrite (proj2 (Z.ltb_ge _ _)) by done. by eexists. Qed.

Lemma leave_complete p : ∃ p', leave p = Some (Ok ((), p')) ∧ stands p' (front p) (depth p - 1) (nodes p).
Proof. by eexists. Qed.

(** [m] parses [ts] to [e] wherever the token after it may [follow]. *)
Definition complete (follow : Token → Prop) (d : Z) (ts : list Token) (e : RawExpr) (m : nat → M RawExpr) : Prop :=
  ∀ p s, reads_tokens (front p) ts s → follow s.2 → depth p + d ≤ MAX_PARSE_DEPTH → nodes p + expr_nodes e ≤ MAX_PARSE_NODES →
  ∃ fuel p', m fuel p = Some (Ok (e, p')) ∧ stands p' s (depth p) (nodes p + expr_nodes e).

Lemma parse_predicate_complete ts e : gram_pred ts e → complete (λ _, True) 0 ts e parse_predicate.
Proof.
  intros Hg p s Hr _ Hd Hn. destruct Hg as [f o op t v Ho Hne Hl|f ts vs Hg]; cbn [expr_nodes] in *.
  - apply advance_reads in Hr as (p1 & Ha1 & Hr1 & Hd1 & Hn1 & _). apply advance_reads in Hr1 as (p2 & Ha2 & Hr2 & Hd2 & Hn2 & _).
    destruct (parse_scalar_complete p2 t v s Hl Hr2) as (p3 & Hs & Hf3 & Hd3 & Hn3).
    destruct (add_node_complete p3) as (p4 & Hadd & Hf4 & Hd4 & Hn4); [lia|]. exists 0%nat, p4. unfold parse_predicate.
    rewrite (bind_some _ _ _ _ _ Ha1), (bind_some _ _ _ _ _ Ha2), Ho, bool_decide_false by done.
    rewrite (bind_some _ _ _ _ _ Hs), (bind_some _ _ _ _ _ Hadd). split; [done|]. split_and!; [congruence|lia|lia].
  - apply advance_reads in Hr as (p1 & Ha1 & Hr1 & Hd1 & Hn1 & _). apply advance_reads in Hr1 as (p2 & Ha2 & Hr2 & Hd2 & Hn2 & _).
    apply advance_reads in Hr2 as (p3 & Ha3 & Hr3 & Hd3 & Hn3 & Hc3).
    destruct (in_list_complete ts vs Hg [] p3 s Hr3) as (fuel & p4 & Hloop & Hf4 & Hd4 & Hn4).
    destruct (add_node_complete p4) as (p5 & Hadd & Hf5 & Hd5 & Hn5); [lia|]. exists fuel, p5. unfold parse_predicate.
    rewrite (bind_some _ _ _ _ _ Ha1), (bind_some _ _ _ _ _ Ha2). cbn [operator]. rewrite bool_decide_true by done.
    assert (parse_in_list fuel p2 = Some (Ok (VList vs, p4))) as Hin.
    { unfold parse_in_list. rewrite (bind_some peek _ p2 LParen p2) by (unfold peek; by rewrite Hc3).
      rewrite bool_decide_true, (bind_some _ _ _ _ _ Ha3), (bind_some _ _ _ _ _ Hloop) by done. cbn [app].
      rewrite bool_decide_false; [done|]. by destruct Hg. }
    rewrite (bind_some _ _ _ _ _ Hin), (bind_some _ _ _ _ _ Hadd). split; [done|]. split_and!; [congruence|lia|lia].
Qed.

(** A chain of operands: the rule gets to its loop with the tree so far. *)
Definition reaches_loop (follow : Token → Prop) (d : Z) (ts : list Token) (e : RawExpr) (m : nat → M RawExpr)
    (loop : nat → RawExpr → M RawExpr) : Prop :=
  ∀ p s, reads_tokens (front p) ts s → follow s.2 → depth p + d ≤ MAX_PARSE_DEPTH → nodes p + expr_nodes e ≤ MAX_PARSE_NODES →
  ∃ k p', stands p' s (depth p) (nodes p + expr_nodes e) ∧
    ∀ fuel r, loop fuel e p' = Some r → m (fuel + k)%nat p = Some r.

Section chain.
Context (m1 m2 : nat → M RawExpr) (loop : nat → RawExpr → M RawExpr) (tok : Token) (mk : RawExpr → RawExpr → RawExpr).
Context (Hm1 : ∀ n, extends (m1 n) (m1 (S n))) (Hm2 : ∀ n, extends (m2 n) (m2 (S n))).
Context (Hloop : ∀ n e, extends (loop n e) (loop (S n) e)).
Context (Hm2_eq : ∀ n, m2 (S n) = (l ← m1 n; loop n l)).
Context (Hloop_eq : ∀ n e, loop (S n) e = (t ← peek;
  if bool_decide (t = tok) then _ ← advance; right ← m1 n; _ ← add_node; loop n (mk e right) else mret e)).
Context (Hnodes : ∀ l r, expr_nodes (mk l r) = 1 + expr_nodes l + expr_nodes r).
Context (follow : Token → Prop) (Hfollow : follow tok).

Lemma chain_one d ts e : complete follow d ts e m1 → reaches_loop follow d ts e m2 loop.
Proof using Hm1 Hm2 Hloop Hm2_eq.
  intros Hc p s Hr Hs Hd Hn. destruct (Hc p s Hr Hs Hd Hn) as (k & p' & Hm & Hst). exists (S k), p'. split; [done|].
  intros fuel r Hl. replace (fuel + S k)%nat with (S (fuel + k)) by lia. rewrite Hm2_eq.
  rewrite (bind_some _ _ p e p'); [|eapply (mono_le m1 Hm1 k); [lia|done]].
  eapply (mono_le (λ n, loop n e) (λ n, Hloop n e) fuel); [lia|done].
Qed.

Lemma expr_nodes_pos e : 1 ≤ expr_nodes e.
Proof using. induction e; cbn; lia. Qed.

Lemma chain_more d1 d2 ts1 ts2 l r :
  reaches_loop follow d1 ts1 l m2 loop → complete follow d2 ts2 r m1 →
  reaches_loop follow (Z.max d1 d2) (ts1 ++ tok :: ts2) (mk l r) m2 loop.
Proof using Hm1 Hm2 Hloop Hloop_eq Hnodes Hfollow.
  intros H1 H2 p s Hr Hs Hd Hn. rewrite Hnodes in Hn. apply reads_tokens_app in Hr as (s1 & Hr1 & Hr2).
  pose proof (expr_nodes_pos r).
  assert (s1.2 = tok) as Hs1 by (by inversion Hr2).
  destruct (H1 p s1 Hr1) as (k1 & p1 & (<- & Hd1 & Hn1) & Hk1); [by rewrite Hs1|lia|lia|].
  apply advance_reads in Hr2 as (p2 & Ha & Hr3 & Hd2 & Hn2 & Hc).
  destruct (H2 p2 s Hr3) as (k2 & p3 & Hm & Hf3 & Hd3 & Hn3); [done|lia|lia|].
  destruct (add_node_complete p3) as (p4 & Hadd & Hf4 & Hd4 & Hn4); [lia|].
  exists (k1 + k2 + 1)%nat, p4. rewrite Hnodes. split; [split_and!; [congruence|lia|lia]|]. intros fuel res Hres.
  replace (fuel + (k1 + k2 + 1))%nat with (S (fuel + k2) + k1)%nat by lia. apply Hk1. rewrite Hloop_eq.
  rewrite (bind_some peek _ p1 tok p1) by (unfold peek; by rewrite Hc).
  rewrite bool_decide_true, (bind_some _ _ _ _ _ Ha) by done.
  rewrite (bind_some (m1 (fuel + k2)%nat) _ p2 r p3); [|eapply (mono_le m1 Hm1 k2); [lia|done]].
  rewrite (bind_some _ _ _ _ _ Hadd). eapply (mono_le (λ n, loop n (mk l r)) (λ n, Hloop n _) fuel); [lia|done].
Qed.

(** Where no further operand follows, the loop returns the tree. *)
Lemma reaches_complete d ts e : reaches_loop follow d ts e m2 loop → complete (λ t, follow t ∧ t ≠ tok) d ts e m2.
Proof using Hloop_eq.
  intros H p s Hr [Hs Hne] Hd Hn. destruct (H p s Hr Hs Hd Hn) as (k & p' & Hst & Hk). exists (1 + k)%nat, p'. split; [|done].
  apply Hk. rewrite Hloop_eq. rewrite (bind_some peek _ p' (current p') p') by done.
  rewrite bool_decide_false; [done|]. destruct Hst as (Hf & _). intros Hc. apply Hne. by rewrite <-Hf.
Qed.
End chain.

Lemma complete_weaken (follow follow' : Token → Prop) d ts e m :
  complete follow d ts e m → (∀ t, follow' t → follow t) → complete follow' d ts e m.
Proof. intros Hc Hf p s Hr Hs. apply Hc; auto. Qed.

Definition not_and (t : Token) : Prop := t ≠ TAnd.

Lemma gram_depth_nonneg :
  (∀ d ts e, gram_or d ts e → 0 ≤ d) ∧ (∀ d ts e, gram_and d ts e → 0 ≤ d) ∧ (∀ d ts e, gram_term d ts e → 0 ≤ d).
Proof. apply gram_ind; intros; lia. Qed.

Lemma grammar_complete :
  (∀ d ts e, gram_or d ts e → reaches_loop not_and d ts e parse_or or_loop) ∧
  (∀ d ts e, gram_and d ts e → reaches_loop (λ _, True) d ts e parse_and and_loop) ∧
  (∀ d ts e, gram_term d ts e → complete (λ _, True) d ts e parse_term).
Proof.
  assert (∀ d ts e, reaches_loop (λ _, True) d ts e parse_and and_loop → complete not_and d ts e parse_and) as Hand.
  { intros d ts e H. eapply complete_weaken; [eapply (reaches_complete parse_term parse_and and_loop TAnd EAnd); [done|exact H]|].
    by intros t Ht. }
  assert (∀ d ts e, reaches_loop not_and d ts e parse_or or_loop → complete (λ t, t = RParen ∨ t = Eof) d ts e parse_or) as Hor.
  { intros d ts e H. eapply complete_weaken; [eapply (reaches_complete parse_and parse_or or_loop TOr EOr); [done|exact H]|].
    intros t [-> | ->]; done. }
  pose proof (λ n, proj1 (grammar_mono n)) as Mor. pose proof (λ n, proj1 (proj2 (grammar_mono n))) as Mol.
  pose proof (λ n, proj1 (proj2 (proj2 (grammar_mono n)))) as Mand.
  pose proof (λ n, proj1 (proj2 (proj2 (proj2 (grammar_mono n))))) as Mal.
  pose proof (λ n, proj2 (proj2 (proj2 (proj2 (grammar_mono n))))) as Mterm.
  destruct gram_depth_nonneg as (Dor & _ & Dterm).
  apply gram_ind.
  - intros d ts e _ IH. apply (chain_one parse_and parse_or or_loop Mand Mor Mol (λ _, eq_refl)). by apply Hand.
  - intros d1 d2 ts1 ts2 l r _ IH1 _ IH2.
    apply (chain_more parse_and parse_or or_loop TOr EOr Mand Mor Mol (λ _ _, eq_refl) (λ _ _, eq_refl)); [done|done|by apply Hand].
  - intros d ts e _ IH. by apply (chain_one parse_term parse_and and_loop Mterm Mand Mal (λ _, eq_refl)).
  - intros d1 d2 ts1 ts2 l r _ IH1 _ IH2.
    by apply (chain_more parse_term parse_and and_loop TAnd EAnd Mterm Mand Mal (λ _ _, eq_refl) (λ _ _, eq_refl)).
  - intros d ts e Hg%Dterm IH p s Hr _ Hd Hn. cbn [expr_nodes] in *. apply advance_reads in Hr as (p1 & Ha & Hr1 & Hd1 & Hn1 & Hc).
    destruct (enter_complete p1) as (p2 & He & Hf2 & Hd2 & Hn2); [lia|]. rewrite <-Hf2 in Hr1.
    destruct (IH p2 s Hr1) as (k & p3 & Hm & Hf3 & Hd3 & Hn3); [done|lia|lia|].
    destruct (leave_complete p3) as (p4 & Hl & Hf4 & Hd4 & Hn4).
    destruct (add_node_complete p4) as (p5 & Hadd & Hf5 & Hd5 & Hn5); [lia|]. exists (S k), p5. cbn [parse_term].
    rewrite (bind_some peek _ p TNot p) by (unfold peek; by rewrite Hc).
    rewrite (bind_some _ _ _ _ _ Ha), (bind_some _ _ _ _ _ He), (bind_some _ _ _ _ _ Hm), (bind_some _ _ _ _ _ Hl),
      (bind_some _ _ _ _ _ Hadd). split; [done|]. split_and!; [congruence|lia|lia].
  - intros d ts e Hg%Dor IH p s Hr _ Hd Hn. apply advance_reads in Hr as (p1 & Ha & Hr1 & Hd1 & Hn1 & Hc).
    destruct (enter_complete p1) as (p2 & He & Hf2 & Hd2 & Hn2); [lia|]. rewrite <-Hf2 in Hr1.
    apply reads_tokens_app in Hr1 as (m & Hr2 & Hr3). assert (m.2 = RParen) as Hm2 by (by inversion Hr3).
    destruct (Hor _ _ _ IH p2 m Hr2) as (k & p3 & Hm & Hf3 & Hd3 & Hn3); [by left|lia|lia|].
    destruct (leave_complete p3) as (p4 & Hl & Hf4 & Hd4 & Hn4). rewrite <-Hf3, <-Hf4 in Hr3.
    apply advance_reads in Hr3 as (p5 & Ha5 & ->%reads_nil_inv & Hd5 & Hn5 & Hc5). exists (S k), p5. cbn [parse_term].
    rewrite (bind_some peek _ p LParen p) by (unfold peek; by rewrite Hc).
    rewrite (bind_some _ _ _ _ _ Ha), (bind_some _ _ _ _ _ He), (bind_some _ _ _ _ _ Hm), (bind_some _ _ _ _ _ Hl).
    rewrite (bind_some peek _ p4 RParen p4) by (unfold peek; by rewrite Hc5).
    rewrite bool_decide_true, (bind_some _ _ _ _ _ Ha5) by done. split; [done|]. split_and!; [done|lia|lia].
  - intros ts e Hg p s Hr Hs Hd Hn. destruct (parse_predicate_complete ts e Hg p s Hr Hs Hd Hn) as (k & p' & Hm & Hst).
    exists (S k), p'. split; [|done]. cbn [parse_term].
    assert (∃ f, current p = Ident f) as [f Hc] by (destruct Hg; inversion Hr; by eexists).
    rewrite (bind_some peek _ p (Ident f) p) by (unfold peek; by rewrite Hc). done.
Qed.

Lemma parse_or_complete d ts e : gram_or d ts e → complete (λ t, t = RParen ∨ t = Eof) d ts e parse_or.
Proof.
  intros Hg%(proj1 grammar_complete). eapply complete_weaken.
  - eapply (reaches_complete parse_and parse_or or_loop TOr EOr); [done|exact Hg].
  - by intros t [-> | ->].
Qed.

(** ** From bytes to tokens *)

Definition not_eof (t : Token) : Prop := t ≠ Eof.

Lemma literal_not_eof t v : literal t = Some v → not_eof t.
Proof. by destruct t. Qed.

Lemma gram_items_not_eof ts vs : gram_items ts vs → Forall not_eof ts.
Proof.
  induction 1 as [t v Hl|t v ts vs Hl _ IH];
    (constructor; [by eapply literal_not_eof|constructor; [done|]]); [constructor|done].
Qed.

Lemma gram_not_eof :
  (∀ d ts e, gram_or d ts e → Forall not_eof ts) ∧ (∀ d ts e, gram_and d ts e → Forall not_eof ts) ∧
  (∀ d ts e, gram_term d ts e → Forall not_eof ts).
Proof.
  apply gram_ind; intros; rewrite ?Forall_cons, ?Forall_app, ?Forall_cons; try (split_and!; (done || by constructor)); try done.
  match goal with H : gram_pred _ _ |- _ => destruct H as [f o op t v Ho Hne Hl|f ts vs Hg] end.
  - do 3 (constructor; [first [done|by destruct o|by eapply literal_not_eof]|]). constructor.
  - constructor; [done|]. constructor; [done|]. constructor; [done|]. by eapply gram_items_not_eof.
Qed.

Lemma lex_all_mono n m lx r : lex_all n lx = Some r → (n ≤ m)%nat → lex_all m lx = Some r.
Proof.
  revert m lx r. induction n as [|n IH]; intros m lx r Hr Hle; [done|]. destruct m as [|m]; [lia|]. cbn [lex_all] in *.
  destruct (next_token lx) as [[t lx']|e]; [|done].
  destruct (lex_all n lx') as [r'|] eqn:E; [rewrite (IH m lx' r' E) by lia|]; by destruct t.
Qed.

Lemma lex_all_reads ts : ∀ fuel lx,
  lex_all fuel lx = Some (Ok ts) →
  ∃ t lx' s, next_token lx = Ok (t, lx') ∧ reads_tokens (lx', t) ts s ∧ s.2 = Eof.
Proof.
  induction ts as [|u ts IH]; intros [|fuel] lx; [done| |done|]; cbn [lex_all].
  - destruct (next_token lx) as [[t lx']|e]; [|done]. intros H. exists t, lx', (lx', t). split_and!; [done|constructor|].
    destruct (lex_all fuel lx') as [[?|?]|]; by destruct t.
  - destruct (next_token lx) as [[t lx']|e]; [|done]. intros H. exists t, lx'.
    assert (t = u ∧ lex_all fuel lx' = Some (Ok ts)) as [-> Hl].
    { destruct (lex_all fuel lx') as [[?|?]|]; destruct t; try done; by injection H as <- <-. }
    destruct (IH _ _ Hl) as (t2 & lx2 & s & Hn & Hr & Hs). exists s. split_and!; [done|by econstructor|done].
Qed.

Lemma reads_lex_all ts : ∀ lx t lx' s,
  next_token lx = Ok (t, lx') → reads_tokens (lx', t) ts s → s.2 = Eof → Forall not_eof ts →
  lex_all (S (length ts)) lx = Some (Ok ts).
Proof.
  induction ts as [|u ts IH]; intros lx t lx' s Hn Hr Hs Hts.
  - apply reads_nil_inv in Hr. subst s. cbn in Hs. subst t. cbn [lex_all length]. by rewrite Hn.
  - inversion Hr as [|lx1 ? lx2 t2 ? ? Hn2 Hr2]; subst. apply Forall_cons in Hts as [Hu Hts].
    pose proof (IH _ _ _ _ Hn2 Hr2 Hs Hts) as Hl. change (length (u :: ts)) with (S (length ts)).
    destruct lx as [l p]. by eapply lex_all_cons.
Qed.

(** The tokens of a text. *)
Definition lexes (input : bytes) (ts : list Token) : Prop :=
  lex_all (S (length input)) (lexer_new input) = Some (Ok ts).

Lemma lexes_of input ts fuel : lex_all fuel (lexer_new input) = Some (Ok ts) → lexes input ts.
Proof.
  intros H. destruct (lex_all_total (lexer_new input) (S (length input))) as [r Hr]; [cbn; lia|]. unfold lexes.
  destruct (le_ge_dec fuel (S (length input))) as [Hle|Hge].
  - by eapply lex_all_mono.
  - pose proof (lex_all_mono _ _ _ _ Hr Hge) as H'. congruence.
Qed.

Lemma parse_iff input e :
  parse input = Some (Ok e) ↔
  ∃ d ts, lexes input ts ∧ gram_or d ts e ∧ d ≤ MAX_PARSE_DEPTH ∧ expr_nodes e ≤ MAX_PARSE_NODES.
Proof.
  unfold parse, parse_with, parser_new. cbv zeta. split.
  - destruct (next_token (lexer_new input)) as [[t lx]|err] eqn:En; [|done].
    set (p := mk_parser lx t (pos (lexer_new input)) 0 0). destruct (parse_or _ p) as [[[e' p']|err]|] eqn:Ep; [|done..].
    case_bool_decide as Heof; [|done]. intros [= ->].
    destruct (proj1 (grammar_sound (parse_fuel input)) p e p') as (d & ts & Hg & [Hr _] & Hp & Hn & Hd); [by unfold within|done|].
    exists d, ts. split_and!; [|done|done|].
    + eapply lexes_of, reads_lex_all; [done|exact Hr|done|]. by eapply (proj1 gram_not_eof).
    + destruct Hp as [_ Hp]. change (nodes p) with 0 in Hn. lia.
  - intros (d & ts & Hl & Hg & Hd & Hn). apply lex_all_reads in Hl as (t & lx & s & En & Hr & Hs). rewrite En.
    set (p := mk_parser lx t (pos (lexer_new input)) 0 0).
    destruct (parse_or_complete d ts e Hg p s Hr) as (k & p' & Hk & Hf & _); [by right|cbn; lia|cbn; lia|].
    destruct (parse_with_total (parse_fuel input) input) as [r Hres]; [unfold parse_fuel; lia|].
    unfold parse_with, parser_new in Hres. cbv zeta in Hres. rewrite En in Hres. fold p in Hres.
    assert (parse_or (parse_fuel input) p = Some (Ok (e, p'))) as ->.
    { destruct (parse_or (parse_fuel input) p) as [x|] eqn:Ex; [|done]. pose proof (λ n, proj1 (grammar_mono n)) as Mor.
      destruct (le_ge_dec k (parse_fuel input)) as [Hle|Hge].
      - by rewrite <-Ex; apply (mono_le parse_or Mor k (parse_fuel input)).
      - pose proof (mono_le parse_or Mor _ _ Hge _ _ Ex) as Hx. congruence. }
    rewrite bool_decide_true; [done|]. rewrite <-Hs, <-Hf. done.
Qed.

(** ** Errors *)

(** What the parser reports: a syntax error or a complexity limit. *)
Definition parse_error (e : QueryError) : Prop :=
  match e with Syntax _ _ | TooComplex _ => True | _ => False end.

Definition errs {A} (m : M A) : Prop := ∀ p e, m p = Some (Err e) → parse_error e.

Lemma errs_bind {A B} (m : M A) (f : A → M B) : errs m → (∀ a, errs (f a)) → errs (m ≫= f).
Proof.
  intros Hm Hf p e. unfold mbind, M_bind. destruct (m p) as [[[a p1]|e']|] eqn:E; [apply Hf| |done].
  intros [= ->]. by eapply Hm.
Qed.

Lemma lexer_errs lx e : next_token lx = Err e → parse_error e.
Proof.
  assert (∀ q st l at_ buf e, string_loop q st l at_ buf = Err e → parse_error e) as Hs.
  { intros q st l. remember (length l) as n eqn:Hn. assert (length l ≤ n)%nat as Hle by lia. clear Hn. revert l Hle.
    induction n as [|n IH]; intros [|ch l] Hle at_ buf e'; cbn [string_loop length] in *; try lia; try (by intros [= <-]).
    destruct (ch =? q); [done|]. destruct (ch =? 92); [|apply IH; lia].
    destruct l as [|c l]; [by intros [= <-]|]. cbn [length] in Hle. apply IH. lia. }
  unfold next_token. cbv zeta. destruct (lexer_peek _) as [ch|]; [|done]. unfold lex_from. cbv zeta.
  repeat match goal with |- context [if ch =? ?c then _ else _] => destruct (ch =? c) end; try done.
  1-3: unfold lex_op; cbv zeta; case_bool_decide; cbn; by intros [= <-].
  destruct (is_quote ch).
  { unfold lex_string. destruct (lexer_advance _) as [[q|] lx']; [|by intros [= <-]].
    destruct (string_loop _ _ _ _ _) as [[buf lx2]|e'] eqn:E; [by case_match; [|intros [= <-]]|]. intros [= <-]. by eapply Hs. }
  destruct (_ || is_digit ch).
  { unfold lex_number. cbv zeta. destruct (advance_while _ _) as [ds lx']. case_bool_decide; [by intros [= <-]|].
    case_match; [done|by intros [= <-]]. }
  destruct (is_ident_start ch); [|by intros [= <-]]. unfold lex_ident. by destruct (advance_while _ _).
Qed.

Lemma errs_advance : errs advance.
Proof. intros p e. unfold advance. destruct (next_token _) as [[? ?]|e'] eqn:E; [done|]. intros [= <-]. by eapply lexer_errs. Qed.
Lemma errs_peek : errs peek.
Proof. done. Qed.
Lemma errs_leave : errs leave.
Proof. done. Qed.
Lemma errs_enter : errs enter.
Proof. intros p e. unfold enter. cbv zeta. case_match; [|done]. by intros [= <-]. Qed.
Lemma errs_add_node : errs add_node.
Proof. intros p e. unfold add_node. cbv zeta. case_match; [|done]. by intros [= <-]. Qed.
Lemma errs_syntax {A} msg : errs (syntax (A:=A) msg).
Proof. by intros p e [= <-]. Qed.
Lemma errs_ret {A} (a : A) : errs (mret a).
Proof. done. Qed.
Create HintDb errs.
#[local] Hint Resolve errs_advance errs_peek errs_leave errs_enter errs_add_node errs_syntax errs_ret : errs.
Ltac errs := repeat first [solve [auto with errs] | done | apply errs_bind; [|intros ?] | case_match].

Lemma errs_scalar : errs parse_scalar.
Proof. unfold parse_scalar. errs. Qed.
#[local] Hint Resolve errs_scalar : errs.

Lemma in_list_loop_errs fuel : ∀ items, errs (in_list_loop fuel items).
Proof. induction fuel as [|fuel IH]; intros items; cbn [in_list_loop]; [done|]. errs. Qed.

Lemma in_list_loop_nonempty fuel items p vs p' : in_list_loop fuel items p = Some (Ok (vs, p')) → length vs ≠ 0%nat.
Proof.
  intros H. apply in_list_loop_ok in H as (ts & vs' & Hg & -> & _). rewrite length_app. destruct Hg; cbn; lia.
Qed.

(** The check for an empty list never fires: the loop has pushed an item. *)
Lemma parse_in_list_errs fuel : errs (parse_in_list fuel).
Proof.
  unfold parse_in_list. apply errs_bind; [auto with errs|intros t]. case_bool_decide; [|auto with errs].
  apply errs_bind; [auto with errs|intros _]. intros p e. unfold mbind, M_bind.
  destruct (in_list_loop fuel [] p) as [[[vs p1]|e']|] eqn:E; [| |done].
  - apply in_list_loop_nonempty in E. rewrite bool_decide_false by done. done.
  - intros [= ->]. by eapply in_list_loop_errs.
Qed.

Lemma parse_predicate_errs fuel : errs (parse_predicate fuel).
Proof.
  unfold parse_predicate. apply errs_bind; [auto with errs|intros t]. destruct t; auto with errs.
  apply errs_bind; [auto with errs|intros o]. destruct (operator o); [|auto with errs].
  apply errs_bind; [case_bool_decide; [apply parse_in_list_errs|auto with errs]|intros v].
  apply errs_bind; auto with errs.
Qed.

Lemma grammar_errs fuel :
  errs (parse_or fuel) ∧ (∀ e, errs (or_loop fuel e)) ∧ errs (parse_and fuel) ∧ (∀ e, errs (and_loop fuel e)) ∧
  errs (parse_term fuel).
Proof.
  induction fuel as [|fuel (IHor & IHol & IHand & IHal & IHterm)]; [split_and!; done|].
  split_and!; [|intros e| |intros e|]; cbn [parse_or or_loop parse_and and_loop parse_term].
  - apply (errs_bind (parse_and fuel)); auto.
  - apply (errs_bind peek); [auto with errs|intros t]. case_bool_decide; [|auto with errs]. errs.
  - apply (errs_bind (parse_term fuel)); auto.
  - apply (errs_bind peek); [auto with errs|intros t]. case_bool_decide; [|auto with errs]. errs.
  - apply (errs_bind peek); [auto with errs|intros t]. destruct t; try solve [auto with errs]; [apply parse_predicate_errs| |]; errs.
Qed.

Lemma parse_errs input e : parse input = Some (Err e) → parse_error e.
Proof.
  unfold parse, parse_with, parser_new. cbv zeta. destruct (next_token _) as [[t lx]|e'] eqn:En.
  - destruct (parse_or _ _) as [[[x p']|e']|] eqn:Ep; [|intros [= ->]; by eapply (proj1 (grammar_errs _))|done].
    case_bool_decide; [done|]. by intros [= <-].
  - intros [= <-]. by eapply lexer_errs.
Qed.

(** ** Printing an expression *)

Definition op_token (op : Op) : Token :=
  match op with OpEq => TEq | OpNe => TNe | OpLt => TLt | OpLe => TLe | OpGt => TGt | OpGe => TGe | OpIn => TIn end.

Definition scalar_token (v : RawValue) : Token :=
  match v with VStr s => StrLit s | VInt n => IntLit n | VBool b => BoolLit b | VList _ => Eof end.

Fixpoint items_tokens (vs : list RawValue) : list Token :=
  match vs with
  | [] => []
  | [v] => [scalar_token v; RParen]
  | v :: vs => scalar_token v :: Comma :: items_tokens vs
  end.

Definition value_tokens (v : RawValue) : list Token :=
  match v with VList vs => LParen :: items_tokens vs | _ => [scalar_token v] end.

(** [level] is what the context binds tighter than: 0 under [OR] on the left, 1 under
    [AND] on the left or [OR] on the right, 2 elsewhere.  Parentheses are written only
    where the tree needs them. *)
Definition parens (b : bool) (ts : list Token) : list Token := if b then LParen :: ts ++ [RParen] else ts.
Fixpoint expr_tokens (level : nat) (e : RawExpr) : list Token :=
  match e with
  | EOr l r => parens (0 <? level)%nat (expr_tokens 0 l ++ TOr :: expr_tokens 1 r)
  | EAnd l r => parens (1 <? level)%nat (expr_tokens 1 l ++ TAnd :: expr_tokens 2 r)
  | ENot e => TNot :: expr_tokens 2 e
  | EPredicate f op v => Ident f :: op_token op :: value_tokens v
  end.

(** How deep the printed parentheses and [NOT]s nest. *)
Fixpoint nesting (level : nat) (e : RawExpr) : Z :=
  match e with
  | EOr l r => (if (0 <? level)%nat then 1 else 0) + Z.max (nesting 0 l) (nesting 1 r)
  | EAnd l r => (if (1 <? level)%nat then 1 else 0) + Z.max (nesting 1 l) (nesting 2 r)
  | ENot e => nesting 2 e + 1
  | EPredicate _ _ _ => 0
  end.

Definition scalar_wf (v : RawValue) : bool :=
  match v with VList _ => false | _ => token_wf (scalar_token v) end.
Fixpoint expr_wf (e : RawExpr) : bool :=
  match e with
  | EOr l r | EAnd l r => expr_wf l && expr_wf r
  | ENot e => expr_wf e
  | EPredicate f op v =>
      token_wf (Ident f) &&
      match v with
      | VList vs => bool_decide (op = OpIn) && negb (bool_decide (vs = [])) && forallb scalar_wf vs
      | _ => negb (bool_decide (op = OpIn)) && scalar_wf v
      end
  end.

Lemma scalar_literal v : scalar_wf v = true → literal (scalar_token v) = Some v.
Proof. by destruct v. Qed.

Lemma items_tokens_gram vs : vs ≠ [] → forallb scalar_wf vs = true → gram_items (items_tokens vs) vs.
Proof.
  induction vs as [|v vs IH]; [done|]. intros _ [Hv Hvs]%andb_true_iff. apply scalar_literal in Hv.
  destruct vs as [|w vs]; [by constructor|]. constructor; [done|]. by apply IH.
Qed.

Lemma operator_token op : operator (op_token op) = Some op.
Proof. by destruct op. Qed.

Lemma predicate_gram f op v : expr_wf (EPredicate f op v) = true → gram_pred (Ident f :: op_token op :: value_tokens v) (EPredicate f op v).
Proof.
  cbn [expr_wf]. intros [_ H]%andb_true_iff.
  assert (∀ v, scalar_wf v = true → op ≠ OpIn → gram_pred [Ident f; op_token op; scalar_token v] (EPredicate f op v)) as Hs.
  { intros w Hw Hop. econstructor; [apply operator_token|done|by apply scalar_literal]. }
  destruct v as [s|n|b|vs]; cbn [value_tokens].
  1-3: rewrite andb_true_iff, negb_true_iff, bool_decide_eq_false in H; destruct H; by apply Hs.
  rewrite !andb_true_iff, negb_true_iff, bool_decide_eq_true, bool_decide_eq_false in H. destruct H as [[-> Hne] Hvs].
  constructor. by apply items_tokens_gram.
Qed.

Lemma expr_tokens_gram e : expr_wf e = true →
  gram_or (nesting 0 e) (expr_tokens 0 e) e ∧ gram_and (nesting 1 e) (expr_tokens 1 e) e ∧
  gram_term (nesting 2 e) (expr_tokens 2 e) e.
Proof.
  induction e as [l IHl r IHr|l IHl r IHr|e IH|f op v]; cbn [expr_wf].
  - intros [Hl Hr]%andb_true_iff. destruct (IHl Hl) as (_ & Hl1 & _), (IHr Hr) as (_ & _ & Hr2).
    pose proof (and_more _ _ _ _ _ _ Hl1 Hr2) as Hand. cbn [expr_tokens nesting Nat.ltb Nat.leb parens]. rewrite !Z.add_0_l.
    split_and!; [by apply or_one|done|]. rewrite Z.add_comm. apply term_paren. by apply or_one.
  - intros [Hl Hr]%andb_true_iff. destruct (IHl Hl) as (Hl0 & _ & _), (IHr Hr) as (_ & Hr1 & _).
    pose proof (or_more _ _ _ _ _ _ Hl0 Hr1) as Hor. cbn [expr_tokens nesting Nat.ltb Nat.leb parens]. rewrite !Z.add_0_l.
    rewrite (Z.add_comm 1). split_and!; [done|apply and_one|]; by apply term_paren.
  - intros He. destruct (IH He) as (_ & _ & H2). pose proof (term_not _ _ _ H2) as Hn.
    split_and!; [by apply or_one, and_one|by apply and_one|done].
  - intros Hp. pose proof (term_pred _ _ (predicate_gram f op v Hp)) as Ht.
    split_and!; [by apply or_one, and_one|by apply and_one|done].
Qed.

Lemma forallb_items vs : forallb scalar_wf vs = true → forallb token_wf (items_tokens vs) = true.
Proof.
  induction vs as [|v vs IH]; [done|]. intros [Hv Hvs]%andb_true_iff.
  assert (token_wf (scalar_token v) = true) as Hv' by (by destruct v). specialize (IH Hvs).
  destruct vs as [|w vs]; cbn [items_tokens forallb] in *; rewrite Hv'; [done|exact IH].
Qed.

Lemma expr_tokens_wf e : ∀ level, expr_wf e = true → forallb token_wf (expr_tokens level e) = true.
Proof.
  assert (∀ b ts, forallb token_wf ts = true → forallb token_wf (parens b ts) = true) as Hp.
  { intros [] ts Hts; cbn [parens]; [|done]. cbn [forallb token_wf andb]. by rewrite forallb_app, Hts. }
  induction e as [l IHl r IHr|l IHl r IHr|e IH|f op v]; intros level; cbn [expr_wf expr_tokens].
  1,2: intros [Hl Hr]%andb_true_iff; apply Hp; rewrite forallb_app; cbn [forallb token_wf andb]; by rewrite IHl, IHr.
  - apply IH.
  - intros [Hf H]%andb_true_iff. change (token_wf (Ident f) && (token_wf (op_token op) && forallb token_wf (value_tokens v)) = true).
    rewrite Hf. assert (token_wf (op_token op) = true) as -> by (by destruct op). cbn [andb].
    destruct v as [s|n|b|vs]; cbn [value_tokens].
    1-3: apply andb_true_iff in H as [_ Hs]; cbn [forallb]; rewrite andb_true_r; exact Hs.
    rewrite !andb_true_iff in H. destruct H as [_ Hvs]. by apply forallb_items.
Qed.

(** ** Properties *)

(** C35: The parser is the grammar: it accepts a text with a tree exactly when the text
    lexes to tokens that the grammar derives with that tree (NOT binding tighter than
    AND, AND than OR, both left-associative), with at most 64 nested parentheses and
    NOTs and at most 512 nodes. *)
Theorem parse_iff_grammar (input : bytes) (e : RawExpr) :
  parse input = Some (Ok e) ↔
  ∃ d ts, lexes input ts ∧ gram_or d ts e ∧ d ≤ MAX_PARSE_DEPTH ∧ expr_nodes e ≤ MAX_PARSE_NODES.
Proof. apply parse_iff. Qed.

(** C36: Parsing ends on every input, in fuel linear in its length: with a tree, or with
    a syntax error or a complexity limit. The error for an empty [IN] list is never
    reported. *)
Theorem parse_total (input : bytes) :
  (∃ e, parse input = Some (Ok e)) ∨ (∃ err, parse input = Some (Err err) ∧ parse_error err ∧ err ≠ EmptyInList).
Proof.
  destruct (parse_with_total (parse_fuel input) input) as [r Hr]; [unfold parse_fuel; lia|].
  destruct r as [e|err]; [by left; exists e|right]. exists err. split; [done|].
  pose proof (parse_errs input err Hr) as He. split; [done|]. by intros ->.
Qed.

(** C37: An expression within the limits, printed with parentheses only where the tree
    needs them, parses back to itself: the precedence and the associativity of the
    parser are those of the printer, for every operator, literal and [IN] list. *)
Theorem print_parse_roundtrip (e : RawExpr) :
  expr_wf e = true → nesting 0 e ≤ MAX_PARSE_DEPTH → expr_nodes e ≤ MAX_PARSE_NODES →
  parse (print_tokens (expr_tokens 0 e)) = Some (Ok e).
Proof.
  intros Hwf Hd Hn. apply parse_iff. exists (nesting 0 e), (expr_tokens 0 e). split_and!; [|by apply expr_tokens_gram|done|done].
  eapply lexes_of. apply (lex_print_tokens _ 0 [] (S (length (expr_tokens 0 e)))); [by apply expr_tokens_wf|by left|lia].
Qed.

Definition sample_expr : RawExpr :=
  EOr (EPredicate (str "a") OpEq (VInt (-1)))
    (EAnd (ENot (EOr (EPredicate (str "b") OpIn (VList [VStr (str "x\y"); VBool true])) (EPredicate (str "c") OpLt (VInt 3))))
      (EPredicate (str "d") OpNe (VBool false))).

Lemma print_parse_roundtrip_witness : parse (print_tokens (expr_tokens 0 sample_expr)) = Some (Ok sample_expr).
Proof. apply print_parse_roundtrip; [vm_compute; reflexivity|vm_compute; discriminate..]. Defined.
