(* ===== verification/Bytes.v ===== *)
(** * Bytes: memory-mapped regions and little-endian fields

    The engine's files are memory maps: byte regions read and written in place.  A
    region is a list of bytes, each a [Z] in [0, 256); [bread] and [bwrite] are the
    slice read and the [copy_from_slice] of the source, which panics outside the
    region, so the lemmas below ask for room.  Integers are stored little-endian. *)
From S2P Require Import Prelude.

Abbreviation region := (list Z).

Definition byte (b : Z) : Prop := 0 ≤ b < 256.

(** ** Reads and writes *)

Definition bread (data : region) (at_ len : Z) : region := take (Z.to_nat len) (drop (Z.to_nat at_) data).
Definition bwrite (data : region) (at_ : Z) (bs : region) : region :=
  take (Z.to_nat at_) data ++ bs ++ drop (Z.to_nat at_ + length bs) data.

(** [MmapMut] zero-filled to a larger size. *)
Definition bgrow (data : region) (size : Z) : region := data ++ replicate (Z.to_nat size - length data) 0.
Definition bzero (size : Z) : region := replicate (Z.to_nat size) 0.

(** The range [at_, at_ + len) lies in the region. *)
Definition in_region (data : region) (at_ len : Z) : Prop := 0 ≤ at_ ∧ 0 ≤ len ∧ at_ + len ≤ zlen data.

Lemma bread_length data a n : in_region data a n → zlen (bread data a n) = n.
Proof. intros (? & ? & Hl). unfold bread, zlen in *. rewrite length_take, length_drop. lia. Qed.

Lemma bwrite_length data a bs : in_region data a (zlen bs) → zlen (bwrite data a bs) = zlen data.
Proof.
  intros (? & ? & Hl). unfold bwrite, zlen in *. rewrite !length_app, length_take, length_drop. lia.
Qed.

Lemma bread_bwrite_same data a bs : in_region data a (zlen bs) → bread (bwrite data a bs) a (zlen bs) = bs.
Proof.
  intros (? & ? & Hl). unfold bread, bwrite, zlen in *. rewrite drop_app_length' by (rewrite length_take; lia).
  by rewrite take_app_length' by lia.
Qed.

Lemma bread_bwrite_before data a bs b n :
  in_region data a (zlen bs) → 0 ≤ b → 0 ≤ n → b + n ≤ a → bread (bwrite data a bs) b n = bread data b n.
Proof.
  intros (? & ? & Hl) ? ? Hd. unfold bread, bwrite, zlen in *.
  rewrite !take_drop_commute, take_app_le, take_take by (rewrite length_take; lia).
  do 2 f_equal. lia.
Qed.

Lemma bread_bwrite_after data a bs b n :
  in_region data a (zlen bs) → a + zlen bs ≤ b → bread (bwrite data a bs) b n = bread data b n.
Proof.
  intros (? & ? & Hl) Hd. unfold bread, bwrite, zlen in *. f_equal.
  rewrite app_assoc, drop_app_ge by (rewrite length_app, length_take; lia).
  rewrite drop_drop. f_equal. rewrite length_app, length_take. lia.
Qed.

Lemma bread_bwrite_disjoint data a bs b n :
  in_region data a (zlen bs) → 0 ≤ b → 0 ≤ n → b + n ≤ a ∨ a + zlen bs ≤ b →
  bread (bwrite data a bs) b n = bread data b n.
Proof. intros ? ? ? [?|?]; [by apply bread_bwrite_before|by apply bread_bwrite_after]. Qed.

Lemma bgrow_length data size : zlen (bgrow data size) = Z.max (zlen data) size.
Proof. unfold bgrow, zlen. rewrite length_app, length_replicate. lia. Qed.

Lemma bread_bgrow data size a n : in_region data a n → bread (bgrow data size) a n = bread data a n.
Proof.
  intros (? & ? & Hl). unfold bread, bgrow, zlen in *.
  rewrite drop_app_le by lia. apply take_app_le. rewrite length_drop. lia.
Qed.

Lemma bread_bzero size a n : in_region (bzero size) a n → bread (bzero size) a n = replicate (Z.to_nat n) 0.
Proof.
  intros (? & ? & Hl). unfold bread, bzero, zlen in *. rewrite length_replicate in Hl.
  rewrite drop_replicate, take_replicate. f_equal. lia.
Qed.

Lemma bread_bread data a n b m : 0 ≤ a → 0 ≤ b → 0 ≤ m → b + m ≤ n → bread (bread data a n) b m = bread data (a + b) m.
Proof.
  intros. unfold bread. rewrite take_drop_commute, take_take, Nat.min_l by lia.
  rewrite <-take_drop_commute, drop_drop. do 2 f_equal. lia.
Qed.

Lemma bread_0 data n : bread data 0 n = take (Z.to_nat n) data.
Proof. unfold bread. by rewrite drop_0. Qed.

Lemma bread_all data : bread data 0 (zlen data) = data.
Proof. rewrite bread_0. apply take_ge. unfold zlen. lia. Qed.

Lemma bread_app_l a b i n : 0 ≤ i → 0 ≤ n → i + n ≤ zlen a → bread (a ++ b) i n = bread a i n.
Proof. intros. unfold bread, zlen in *. rewrite drop_app_le by lia. apply take_app_le. rewrite length_drop. lia. Qed.

Lemma bread_app_r a b i n : zlen a ≤ i → bread (a ++ b) i n = bread b (i - zlen a) n.
Proof. intros. unfold bread, zlen in *. rewrite drop_app_ge by lia. do 2 f_equal. lia. Qed.

(** ** Little-endian integers *)

Fixpoint le_bytes (n : nat) (x : Z) : region :=
  match n with O => [] | S n => x mod 256 :: le_bytes n (x / 256) end.
Definition le_value (l : region) : Z := foldr (λ b acc, b + 256 * acc) 0 l.

Lemma le_bytes_length n x : length (le_bytes n x) = n.
Proof. revert x. induction n; intros x; cbn; auto. Qed.

Lemma le_bytes_zlen n x : zlen (le_bytes n x) = Z.of_nat n.
Proof. unfold zlen. by rewrite le_bytes_length. Qed.

Lemma le_bytes_byte n x : Forall byte (le_bytes n x).
Proof. revert x. induction n; intros x; constructor; [|done]. apply Z.mod_pos_bound. lia. Qed.

Lemma le_value_bytes n x : 0 ≤ x < 256 ^ Z.of_nat n → le_value (le_bytes n x) = x.
Proof.
  revert x. induction n as [|n IH]; intros x Hx; [cbn in *; lia|]. cbn [le_bytes le_value foldr].
  change (foldr _ 0 (le_bytes n (x / 256))) with (le_value (le_bytes n (x / 256))).
  rewrite Nat2Z.inj_succ, Z.pow_succ_r in Hx by lia.
  rewrite IH; [pose proof (Z.div_mod x 256 ltac:(lia)); lia|].
  split; [apply Z.div_pos; lia|apply Z.div_lt_upper_bound; lia].
Qed.

Lemma le_value_bound l : Forall byte l → 0 ≤ le_value l < 256 ^ zlen l.
Proof.
  induction 1 as [|b l Hb Hl IH]; [done|]. cbn [le_value foldr]. fold (le_value l).
  rewrite zlen_cons, Z.pow_add_r, Z.pow_1_r by (pose proof (zlen_nonneg l); lia). unfold byte in Hb. lia.
Qed.

Lemma le_bytes_value l : Forall byte l → le_bytes (length l) (le_value l) = l.
Proof.
  induction 1 as [|b l Hb Hl IH]; [done|]. cbn [length le_bytes le_value foldr]. fold (le_value l).
  unfold byte in Hb. rewrite (Z.mul_comm 256), Z.mod_add, Z.mod_small, Z.div_add, Z.div_small by lia.
  by rewrite Z.add_0_l, IH.
Qed.

Lemma le_value_zeros n : le_value (replicate n 0) = 0.
Proof. induction n as [|n IH]; [done|]. cbn [replicate le_value foldr]. fold (le_value (replicate n 0)). lia. Qed.

(** ** Fields of a region *)

Definition get_le (data : region) (at_ len : Z) : Z := le_value (bread data at_ len).
Definition put_le (data : region) (at_ : Z) (n : nat) (x : Z) : region := bwrite data at_ (le_bytes n x).
Definition get_byte (data : region) (at_ : Z) : Z := get_le data at_ 1.
Definition put_byte (data : region) (at_ x : Z) : region := bwrite data at_ [x].

Lemma get_le_app_l a b i n : 0 ≤ i → 0 ≤ n → i + n ≤ zlen a → get_le (a ++ b) i n = get_le a i n.
Proof. intros. unfold get_le. by rewrite bread_app_l. Qed.
Lemma get_le_app_r a b i n : zlen a ≤ i → get_le (a ++ b) i n = get_le b (i - zlen a) n.
Proof. intros. unfold get_le. by rewrite bread_app_r. Qed.

Lemma get_le_bytes n x : 0 ≤ x < 256 ^ Z.of_nat n → get_le (le_bytes n x) 0 (Z.of_nat n) = x.
Proof.
  intros. unfold get_le. replace (Z.of_nat n) with (zlen (le_bytes n x)) by apply le_bytes_zlen. rewrite bread_all. by apply le_value_bytes.
Qed.

Lemma Forall_byte_bread l a n : Forall byte l → Forall byte (bread l a n).
Proof. intros. unfold bread. by apply Forall_take, Forall_drop. Qed.

Lemma le_bytes_get l a n : Forall byte l → in_region l a n → le_bytes (Z.to_nat n) (get_le l a n) = bread l a n.
Proof.
  intros Hb Hin. unfold get_le. pose proof (bread_length l a n Hin) as Hz.
  replace (Z.to_nat n) with (length (bread l a n)) by (unfold zlen in Hz; lia).
  by apply le_bytes_value, Forall_byte_bread.
Qed.

Lemma bread_join l a n b m :
  0 ≤ a → 0 ≤ n → 0 ≤ m → b = a + n → bread l a n ++ bread l b m = bread l a (n + m).
Proof.
  intros ??? ->. unfold bread. rewrite Z2Nat.inj_add, (Z2Nat.inj_add n) by lia.
  rewrite <-drop_drop. by rewrite take_take_drop.
Qed.

Lemma get_le_bound l a n : Forall byte l → in_region l a n → 0 ≤ get_le l a n < 256 ^ n.
Proof.
  intros Hb Hin. pose proof (le_value_bound _ (Forall_byte_bread l a n Hb)) as H.
  by rewrite (bread_length l a n Hin) in H.
Qed.

(** [crc32fast::hash], of the bytes of one or several slices; the engine relies on its
    width only. *)
Class Crc := crc32 : region → Z.
Class CrcLaws `{Crc} := crc32_range (b : region) : 0 ≤ crc32 b < 2 ^ 32.

(** ** Records of fields

    A file header or a table slot is a run of little-endian fields, each a width in
    bytes and a value; padding is a field of value 0. *)
Abbreviation fields := (list (nat * Z)).
Notation fU8 x := (1%nat, x) (only parsing).
Notation fU32 x := (4%nat, x) (only parsing).
Notation fU64 x := (8%nat, x) (only parsing).
Notation fU128 x := (16%nat, x) (only parsing).
Notation fPad n := (n%nat, 0) (only parsing).

Definition fields_bytes (fs : fields) : region := fs ≫= λ f, le_bytes f.1 f.2.
Definition fields_width (fs : fields) : Z := foldr (λ f acc, Z.of_nat f.1 + acc) 0 fs.
(** Writing the fields one after the other. *)
Fixpoint put_fields (data : region) (at_ : Z) (fs : fields) : region :=
  match fs with
  | [] => data
  | (n, x) :: fs => put_fields (put_le data at_ n x) (at_ + Z.of_nat n) fs
  end.

Lemma fields_bytes_zlen fs : zlen (fields_bytes fs) = fields_width fs.
Proof.
  induction fs as [|[n x] fs IH]; [done|]. unfold fields_bytes. rewrite bind_cons, zlen_app.
  fold (fields_bytes fs). rewrite IH, le_bytes_zlen. done.
Qed.

Lemma fields_bytes_byte fs : Forall byte (fields_bytes fs).
Proof.
  induction fs as [|[n x] fs IH]; [constructor|]. unfold fields_bytes. rewrite bind_cons.
  apply Forall_app. split; [apply le_bytes_byte|done].
Qed.

Lemma fields_width_nonneg fs : 0 ≤ fields_width fs.
Proof. induction fs as [|[n x] fs IH]; [done|]. cbn [fields_width foldr fst]. fold (fields_width fs). lia. Qed.

Lemma bwrite_join data a x b y :
  in_region data a (zlen x + zlen y) → b = a + zlen x → bwrite (bwrite data a x) b y = bwrite data a (x ++ y).
Proof.
  intros (? & ? & Hl) ->. pose proof (zlen_nonneg y). unfold bwrite, zlen in *.
  rewrite (app_assoc (take _ _) x), (take_app_length' (take _ _ ++ x)) by (rewrite length_app, length_take; lia).
  rewrite drop_app_ge by (rewrite length_app, length_take; lia). rewrite drop_drop, <-!app_assoc.
  do 4 f_equal. rewrite !length_app, length_take. lia.
Qed.

Lemma put_fields_bwrite fs : ∀ data a, in_region data a (fields_width fs) → put_fields data a fs = bwrite data a (fields_bytes fs).
Proof.
  induction fs as [|[n x] fs IH]; intros data a Hin.
  - cbn. unfold bwrite. cbn. rewrite Nat.add_0_r. by rewrite take_drop.
  - pose proof (fields_width_nonneg fs). destruct Hin as (? & ? & Hl). cbn [put_fields fields_width foldr fst snd] in *.
    fold (fields_width fs) in *. unfold put_le at 1. rewrite IH.
    + rewrite bwrite_join; [done| |by rewrite le_bytes_zlen]. rewrite le_bytes_zlen, fields_bytes_zlen.
      unfold in_region. lia.
    + unfold in_region, put_le. rewrite bwrite_length; [lia|]. rewrite le_bytes_zlen. unfold in_region. lia.
Qed.

Lemma bread_inside data a bs b n :
  in_region data a (zlen bs) → a ≤ b → 0 ≤ n → b + n ≤ a + zlen bs → bread (bwrite data a bs) b n = bread bs (b - a) n.
Proof.
  intros Hin ???. rewrite <-(bread_bwrite_same data a bs Hin) at 2.
  rewrite bread_bread by (destruct Hin; lia). f_equal. lia.
Qed.

(** Reading one field of a record back. *)
Lemma get_field pre n x post data a i :
  let fs := pre ++ (n, x) :: post in
  in_region data a (fields_width fs) → 0 ≤ x < 256 ^ Z.of_nat n → i = a + fields_width pre →
  get_le (bwrite data a (fields_bytes fs)) i (Z.of_nat n) = x.
Proof.
  cbv zeta. intros Hin Hx ->.
  assert (fields_width (pre ++ (n, x) :: post) = fields_width pre + (Z.of_nat n + fields_width post)) as Hw.
  { clear. induction pre as [|[m y] pre IH]; [done|]. cbn [app fields_width foldr fst] in *.
    fold (fields_width (pre ++ (n, x) :: post)) (fields_width pre). lia. }
  pose proof (fields_width_nonneg pre). pose proof (fields_width_nonneg post).
  unfold get_le. rewrite bread_inside; rewrite ?fields_bytes_zlen; [|done|lia|lia|lia].
  replace (a + fields_width pre - a) with (fields_width pre) by lia.
  unfold fields_bytes. rewrite bind_app, bind_cons. cbn [fst snd]. fold (fields_bytes pre) (fields_bytes post).
  rewrite bread_app_r by (rewrite fields_bytes_zlen; lia). rewrite fields_bytes_zlen, Z.sub_diag.
  rewrite bread_app_l by (rewrite ?le_bytes_zlen; lia).
  replace (Z.of_nat n) with (zlen (le_bytes n x)) at 1 by apply le_bytes_zlen. rewrite bread_all. by apply le_value_bytes.
Qed.

Lemma bgrow_0 data size a n : zlen data ≤ a → 0 ≤ n → a + n ≤ size → bread (bgrow data size) a n = replicate (Z.to_nat n) 0.
Proof.
  intros. unfold bread, bgrow, zlen in *. rewrite drop_app_ge by lia. rewrite drop_replicate, take_replicate.
  f_equal. lia.
Qed.

(** ** Chunks *)

(** [as_chunks]: the whole chunks of [n] bytes. *)
Definition as_chunks (n : Z) (l : region) : list region := (λ i, bread l (i * n) n) <$> seqZ 0 (zlen l / n).

Lemma as_chunks_cons n a l : 0 < n → zlen a = n → as_chunks n (a ++ l) = a :: as_chunks n l.
Proof.
  intros Hn Ha. unfold as_chunks. rewrite zlen_app, Ha. pose proof (zlen_nonneg l).
  replace (n + zlen l) with (1 * n + zlen l) by lia. rewrite Z.div_add_l by lia.
  assert (0 ≤ zlen l / n) by (apply Z.div_pos; lia).
  rewrite seqZ_cons, fmap_cons by lia. f_equal.
  - rewrite Z.mul_0_l, bread_app_l, <-Ha by lia. apply bread_all.
  - replace (Z.pred (1 + zlen l / n)) with (zlen l / n) by lia.
    replace (Z.succ 0) with (1 + 0) by lia. rewrite <-fmap_add_seqZ, <-list_fmap_compose.
    apply list_fmap_ext. intros j i Hi. apply list_elem_of_lookup_2, elem_of_seqZ in Hi. cbn.
    rewrite bread_app_r by lia. f_equal. lia.
Qed.

Lemma as_chunks_short n l : zlen l < n → as_chunks n l = [].
Proof. intros. unfold as_chunks. rewrite Z.div_small by (pose proof (zlen_nonneg l); lia). done. Qed.

Lemma zlen_bind {A} (f : A → region) n l : Forall (λ x, zlen (f x) = n) l → zlen (l ≫= f) = n * zlen l.
Proof.
  induction 1 as [|x l Hx Hl IH]; [by rewrite (@zlen_nil A), Z.mul_0_r|]. rewrite bind_cons, zlen_app, zlen_cons, Hx, IH. lia.
Qed.

Lemma as_chunks_bind {A} (f : A → region) n l :
  0 < n → Forall (λ x, zlen (f x) = n) l → as_chunks n (l ≫= f) = f <$> l.
Proof.
  intros Hn. induction 1 as [|x l Hx Hl IH]; [by apply as_chunks_short|].
  by rewrite bind_cons, as_chunks_cons, IH.
Qed.

(** A whole number of chunks: joining them gives the bytes back. *)
Lemma as_chunks_inv n k : 0 < n → ∀ l, zlen l = Z.of_nat k * n →
  Forall (λ c, zlen c = n) (as_chunks n l) ∧ l = as_chunks n l ≫= id ∧ zlen (as_chunks n l) = Z.of_nat k.
Proof.
  intros Hn. induction k as [|k IH]; intros l Hl.
  { assert (l = []) as -> by (apply zlen_0_nil; lia). rewrite as_chunks_short by (cbn; lia). done. }
  assert (∃ a b, l = a ++ b ∧ zlen a = n) as (a & b & -> & Ha).
  { exists (take (Z.to_nat n) l), (drop (Z.to_nat n) l). rewrite take_drop. split; [done|].
    unfold zlen in *. rewrite length_take. lia. }
  destruct (IH b) as (IH1 & IH2 & IH3); [rewrite zlen_app in Hl; lia|].
  rewrite as_chunks_cons by done. split_and!; [by constructor|by rewrite bind_cons, <-IH2|rewrite zlen_cons; lia].
Qed.

(** ** Pieces of a concatenation *)

Lemma bread_at pre x post i : i = zlen pre → bread (pre ++ x ++ post) i (zlen x) = x.
Proof.
  intros ->. rewrite bread_app_r, Z.sub_diag, bread_app_l, bread_all by (pose proof (zlen_nonneg x); lia). done.
Qed.

Lemma get_le_at pre n x post i : i = zlen pre → 0 ≤ x < 256 ^ Z.of_nat n → get_le (pre ++ le_bytes n x ++ post) i (Z.of_nat n) = x.
Proof.
  intros -> Hx. unfold get_le. rewrite <-(le_bytes_zlen n x). rewrite bread_at by done. by apply le_value_bytes.
Qed.

(** The same, of a region that is such a concatenation. *)
Lemma bread_part l pre x post i n : l = pre ++ x ++ post → i = zlen pre → n = zlen x → bread l i n = x.
Proof. intros -> -> ->. by apply bread_at. Qed.

Lemma get_le_part l pre n x post i k :
  l = pre ++ le_bytes n x ++ post → i = zlen pre → k = Z.of_nat n → 0 ≤ x < 256 ^ Z.of_nat n → get_le l i k = x.
Proof. intros -> -> -> Hx. by apply get_le_at. Qed.

(** ** Checked arithmetic on [usize] *)

Definition checked_mul (a b : Z) : option Z := if a * b <? 2 ^ 64 then Some (a * b) else None.
Definition checked_add (a b : Z) : option Z := if a + b <? 2 ^ 64 then Some (a + b) else None.

