(* ===== verification/HashTable.v ===== *)
(** * HashTable: open addressing with linear probing

    The key tables of [src/minnal_db/src/index/container_store.rs] and
    [blob_store.rs] are the same hash table over slots of different shapes.  A table
    is a function from slot numbers to slots and a capacity; a slot has a state byte
    and a key.  [probe] is the search both stores use, [place] the loop that fills a
    new table.  [table_wf] is the invariant that makes probing find every key, and
    [table_map] the map a well-formed table stands for. *)
From S2P Require Import Prelude Words.

Definition STATE_EMPTY : Z := 0.
Definition STATE_OCCUPIED : Z := 1.
Definition STATE_TOMBSTONE : Z := 2.

Definition u64_add (a b : Z) : Z := wrap 64 (a + b).
Definition u64_mul (a b : Z) : Z := wrap 64 (a * b).
Definition rotate_left (x n : Z) : Z := Z.lor (wrap 64 (Z.shiftl x n)) (Z.shiftr x (64 - n)).
Definition rotate_right (x n : Z) : Z := rotate_left x (64 - n).

Definition hash_key (key : Z) : Z :=
  let lo := wrap 64 key in
  let hi := wrap 64 (Z.shiftr key 64) in
  u64_add (u64_mul (u64_add lo (rotate_left hi 17)) 0x9e3779b97f4a7c15) (Z.lxor hi (rotate_right lo 13)).

Lemma hash_key_nonneg key : 0 ≤ hash_key key.
Proof. apply Z.mod_pos_bound. lia. Qed.

(** Slot number [d] steps after [start], around the table. *)
Definition nth_slot (cap start d : Z) : Z := (start + d) mod cap.

Section table.
Context {slot : Type} (state key_of : slot → Z).

Definition occupied_by (key : Z) (s : slot) : bool := (state s =? STATE_OCCUPIED) && (key_of s =? key).

Section probe.
Variables (slot_at : Z → slot) (cap start key : Z).

Fixpoint probe_loop (fuel : nat) (first_tombstone : option Z) (i : Z) : option (Z * bool) :=
  match fuel with
  | O => None
  | S fuel =>
      let s := slot_at i in
      if state s =? STATE_EMPTY then Some (default i first_tombstone, false)
      else if occupied_by key s then Some (i, true)
      else
        let first_tombstone :=
          match first_tombstone with
          | None => if state s =? STATE_TOMBSTONE then Some i else None
          | Some t => Some t
          end in
        let i := (i + 1) mod cap in
        if i =? start then Some (default start first_tombstone, false) else probe_loop fuel first_tombstone i
  end.
End probe.

(** One turn around the table is enough fuel ([probe_loop_spec]). *)
Definition probe (slot_at : Z → slot) (cap key : Z) : Z * bool :=
  let start := hash_key key mod cap in
  default (start, false) (probe_loop slot_at cap start key (Z.to_nat cap) None start).

(** The loop that puts a slot into a table under construction. *)
Fixpoint place_loop (slot_at : Z → slot) (cap : Z) (fuel : nat) (i : Z) : option Z :=
  match fuel with
  | O => None
  | S fuel => if state (slot_at i) =? STATE_EMPTY then Some i else place_loop slot_at cap fuel ((i + 1) mod cap)
  end.
Definition place (slot_at : Z → slot) (cap key : Z) : Z :=
  let start := hash_key key mod cap in default start (place_loop slot_at cap (Z.to_nat cap) start).

(** ** The invariant and the map of a table *)

Definition occupied (s : slot) : bool := state s =? STATE_OCCUPIED.

(** Steps from a key's first slot to slot [j]. *)
Definition distance (cap key j : Z) : Z := (j - hash_key key mod cap) mod cap.

Record table_wf (slot_at : Z → slot) (cap : Z) : Prop := {
  table_cap : 0 < cap;
  (* no gap between a key's first slot and the one that holds it *)
  table_path j : 0 ≤ j < cap → occupied (slot_at j) = true →
    ∀ d, 0 ≤ d < distance cap (key_of (slot_at j)) j →
      state (slot_at (nth_slot cap (hash_key (key_of (slot_at j)) mod cap) d)) ≠ STATE_EMPTY;
  table_unique i j : 0 ≤ i < cap → 0 ≤ j < cap → occupied (slot_at i) = true → occupied (slot_at j) = true →
    key_of (slot_at i) = key_of (slot_at j) → i = j;
}.

(** The live slots in slot order. *)
Definition live_slots (slot_at : Z → slot) (cap : Z) : list slot :=
  filter (λ s, occupied s = true) (slot_at <$> seqZ 0 cap).
Definition table_map (slot_at : Z → slot) (cap : Z) : gmap Z slot :=
  list_to_map ((λ s, (key_of s, s)) <$> live_slots slot_at cap).

(** Slots that are not empty. *)
Definition used (slot_at : Z → slot) (cap : Z) : Z :=
  zlen (filter (λ i, state (slot_at i) ≠ STATE_EMPTY) (seqZ 0 cap)).

(** [t'] is [t] with slot [j] replaced by [s]. *)
Definition updates (cap j : Z) (s : slot) (t t' : Z → slot) : Prop :=
  t' j = s ∧ ∀ i, 0 ≤ i < cap → i ≠ j → t' i = t i.

(** ** Probing *)

Lemma nth_slot_range cap start d : 0 < cap → 0 ≤ nth_slot cap start d < cap.
Proof. apply Z.mod_pos_bound. Qed.

Lemma nth_slot_next cap start d : 0 < cap → (nth_slot cap start d + 1) mod cap = nth_slot cap start (d + 1).
Proof. intros. unfold nth_slot. rewrite Z.add_mod_idemp_l by lia. f_equal. lia. Qed.

Lemma nth_slot_inj cap start d d' :
  0 ≤ d < cap → 0 ≤ d' < cap → nth_slot cap start d = nth_slot cap start d' → d = d'.
Proof.
  unfold nth_slot. intros Hd Hd' He. rewrite <-(Z.mod_small d cap), <-(Z.mod_small d' cap) by done.
  replace d with ((start + d) + - start) by lia. replace d' with ((start + d') + - start) by lia.
  by rewrite <-Z.add_mod_idemp_l, He, Z.add_mod_idemp_l by lia.
Qed.

Lemma nth_slot_0 cap start : 0 ≤ start < cap → nth_slot cap start 0 = start.
Proof. intros. unfold nth_slot. rewrite Z.add_0_r. by apply Z.mod_small. Qed.

Lemma nth_slot_distance cap key j : 0 ≤ j < cap → nth_slot cap (hash_key key mod cap) (distance cap key j) = j.
Proof.
  intros. unfold nth_slot, distance. rewrite Z.add_mod_idemp_r by lia.
  replace (_ + _) with j by lia. by apply Z.mod_small.
Qed.

Lemma distance_nth cap key d : 0 ≤ d < cap → distance cap key (nth_slot cap (hash_key key mod cap) d) = d.
Proof.
  intros. apply (nth_slot_inj cap (hash_key key mod cap)); [apply Z.mod_pos_bound; lia|done|].
  apply nth_slot_distance, nth_slot_range. lia.
Qed.

Section probe_spec.
Variables (t : Z → slot) (cap start key : Z).
Hypothesis Hstart : 0 ≤ start < cap.

Definition clear_before (e : Z) : Prop := ∀ d, 0 ≤ d < e →
  state (t (nth_slot cap start d)) ≠ STATE_EMPTY ∧ occupied_by key (t (nth_slot cap start d)) = false.

(** What a search that starts at [start] ends with: the key's slot, or a free slot on
    the way to the first empty one. *)
Definition probe_post (r : Z * bool) : Prop :=
  if r.2 then 0 ≤ r.1 < cap ∧ occupied_by key (t r.1) = true
  else ∃ e, 0 ≤ e ≤ cap ∧ clear_before e ∧ (e < cap → state (t (nth_slot cap start e)) = STATE_EMPTY) ∧
    ((∃ d, 0 ≤ d < cap ∧ d ≤ e ∧ r.1 = nth_slot cap start d ∧
        (state (t r.1) = STATE_EMPTY ∨ state (t r.1) = STATE_TOMBSTONE)) ∨
     (e = cap ∧ r.1 = start)).

Lemma probe_loop_spec fuel : ∀ d ft,
  0 ≤ d → d + Z.of_nat fuel = cap → (0 < fuel)%nat → clear_before d →
  match ft with
  | Some i => ∃ d', 0 ≤ d' < d ∧ i = nth_slot cap start d' ∧ state (t i) = STATE_TOMBSTONE
  | None => True
  end →
  ∃ r, probe_loop t cap start key fuel ft (nth_slot cap start d) = Some r ∧ probe_post r.
Proof using Hstart.
  induction fuel as [|fuel IH]; intros d ft Hd Hf Hpos Hclear Hft; [lia|]. clear Hpos. cbn [probe_loop]. cbv zeta.
  destruct (Z.eqb_spec (state (t (nth_slot cap start d))) STATE_EMPTY) as [He|He].
  { eexists. split; [done|]. unfold probe_post. cbn [fst snd]. exists d. split_and!; [lia|lia|done|done|]. left.
    destruct ft as [i|]; cbn [default from_option id].
    - destruct Hft as (d' & ? & -> & ?). exists d'. split_and!; [lia|lia|lia|done|by right].
    - exists d. split_and!; [lia|lia|lia|done|by left]. }
  destruct (occupied_by key (t (nth_slot cap start d))) eqn:Ho.
  { eexists. split; [done|]. split; [apply nth_slot_range; lia|done]. }
  assert (clear_before (d + 1)) as Hclear'.
  { intros x Hx. destruct (decide (x = d)) as [->|]; [done|]. apply Hclear. lia. }
  rewrite nth_slot_next by lia.
  set (ft' := match ft with None => _ | Some t => _ end).
  assert (match ft' with
    | Some i => ∃ d', 0 ≤ d' < d + 1 ∧ i = nth_slot cap start d' ∧ state (t i) = STATE_TOMBSTONE
    | None => True end) as Hft'.
  { subst ft'. destruct ft as [i|].
    - destruct Hft as (d' & ? & ? & ?). exists d'. split_and!; [lia|lia|done|done].
    - destruct (Z.eqb_spec (state (t (nth_slot cap start d))) STATE_TOMBSTONE); [|done].
      exists d. split_and!; [lia|lia|done|done]. }
  clearbody ft'. destruct (Z.eqb_spec (nth_slot cap start (d + 1)) start) as [Hw|Hw].
  - assert (d + 1 = cap) as Hcap.
    { destruct (Z.eq_dec (d + 1) cap) as [|Hne]; [done|]. exfalso.
      rewrite <-(nth_slot_0 cap start) in Hw at 2 by done. apply nth_slot_inj in Hw; lia. }
    eexists. split; [done|]. exists cap. cbn [fst snd]. split_and!; [lia|lia|by rewrite <-Hcap|lia|].
    destruct ft' as [i|]; cbn [default from_option id]; [left|by right].
    destruct Hft' as (d' & ? & -> & ?). exists d'. split_and!; [lia|lia|lia|done|by right].
  - apply IH; [lia|lia| |done|done].
    destruct fuel; [|lia]. exfalso. apply Hw. replace (d + 1) with cap by lia.
    unfold nth_slot. rewrite <-Z.add_mod_idemp_r, Z.mod_same, Z.add_0_r by lia. by apply Z.mod_small.
Qed.
End probe_spec.

(** The search never runs out of fuel and ends as [probe_post] says. *)
Lemma probe_post_probe t cap key : 0 < cap → probe_post t cap (hash_key key mod cap) key (probe t cap key).
Proof using.
  intros Hcap. assert (0 ≤ hash_key key mod cap < cap) as Hs by (apply Z.mod_pos_bound; lia).
  destruct (probe_loop_spec t cap (hash_key key mod cap) key Hs (Z.to_nat cap) 0 None) as (r & Hr & Hpost);
    [lia|lia|lia|intros d ?; lia|done|].
  unfold probe. rewrite nth_slot_0 in Hr by done. by rewrite Hr.
Qed.

Lemma occupied_by_iff key s : occupied_by key s = true ↔ occupied s = true ∧ key_of s = key.
Proof using. unfold occupied_by, occupied. rewrite andb_true_iff, !Z.eqb_eq. done. Qed.

(** In a well-formed table a key that is held is found, where it is held. *)
Lemma probe_found t cap key j :
  table_wf t cap → 0 ≤ j < cap → occupied_by key (t j) = true → probe t cap key = (j, true).
Proof using.
  intros [Hcap Hpath Huniq] Hj Ho. pose proof (probe_post_probe t cap key Hcap) as Hp.
  apply occupied_by_iff in Ho as Ho'. destruct Ho' as [Hocc Hkey].
  destruct (probe t cap key) as [i [|]]; unfold probe_post in Hp; cbn in Hp.
  - destruct Hp as [Hi Hio]. apply occupied_by_iff in Hio as [? ?]. f_equal. apply Huniq; try done. congruence.
  - exfalso. destruct Hp as (e & He & Hclear & Hempty & _).
    pose proof (nth_slot_distance cap key j Hj) as Hd.
    assert (0 ≤ distance cap key j < cap) as Hr by (apply Z.mod_pos_bound; lia).
    destruct (Z.lt_ge_cases (distance cap key j) e) as [Hlt|Hge].
    + destruct (Hclear (distance cap key j)) as [_ Hno]; [lia|]. rewrite Hd in Hno. congruence.
    + destruct (Z.eq_dec (distance cap key j) e) as [He'|].
      * rewrite <-He' in Hempty. rewrite Hd in Hempty. unfold occupied in Hocc. apply Z.eqb_eq in Hocc.
        rewrite Hempty in Hocc by lia. done.
      * rewrite <-Hkey in *. apply (Hpath j Hj Hocc e); [lia|apply Hempty; lia].
Qed.

(** A key that is not held ends at a free slot with no gap before it, when the table
    has an empty slot. *)
Lemma probe_missing t cap key :
  table_wf t cap → (∃ i, 0 ≤ i < cap ∧ state (t i) = STATE_EMPTY) →
  (∀ i, 0 ≤ i < cap → occupied_by key (t i) = false) →
  ∃ j, probe t cap key = (j, false) ∧ 0 ≤ j < cap ∧
    (state (t j) = STATE_EMPTY ∨ state (t j) = STATE_TOMBSTONE) ∧
    ∀ d, 0 ≤ d < distance cap key j → state (t (nth_slot cap (hash_key key mod cap) d)) ≠ STATE_EMPTY.
Proof using.
  intros [Hcap Hpath Huniq] (i & Hi & Hie) Hno. pose proof (probe_post_probe t cap key Hcap) as Hp.
  destruct (probe t cap key) as [j [|]]; unfold probe_post in Hp; cbn in Hp.
  { destruct Hp as [Hj Hjo]. rewrite Hno in Hjo by done. done. }
  destruct Hp as (e & He & Hclear & _ & [(d & Hd & Hde & -> & Hst)|[-> _]]).
  - exists (nth_slot cap (hash_key key mod cap) d). split_and!; [done|apply nth_slot_range; lia..|done|].
    rewrite distance_nth by lia. intros d' Hd'. apply Hclear. lia.
  - exfalso. pose proof (nth_slot_distance cap key i Hi) as Hdi.
    destruct (Hclear (distance cap key i)) as [Hne _]; [apply Z.mod_pos_bound; lia|].
    by rewrite Hdi in Hne.
Qed.

(** ** The map of a table *)

Lemma elem_of_live_slots t cap s :
  s ∈ live_slots t cap ↔ occupied s = true ∧ ∃ i, 0 ≤ i < cap ∧ t i = s.
Proof using.
  unfold live_slots. rewrite list_elem_of_filter, list_elem_of_fmap. split.
  - intros (? & i & -> & Hi). apply elem_of_seqZ in Hi. split; [done|]. exists i. split; [lia|done].
  - intros (? & i & ? & <-). split; [done|]. exists i. split; [done|]. apply elem_of_seqZ. lia.
Qed.

Lemma live_keys_NoDup t cap : table_wf t cap → NoDup (key_of <$> live_slots t cap).
Proof using.
  intros [_ _ Huniq]. unfold live_slots.
  assert (∀ l, NoDup l → (∀ i, i ∈ l → 0 ≤ i < cap) → NoDup (key_of <$> filter (λ s, occupied s = true) (t <$> l))) as H.
  { induction l as [|i l IH]; intros Hnd Hl; [constructor|]. apply NoDup_cons in Hnd as [Hi Hnd].
    assert (NoDup (key_of <$> filter (λ s, occupied s = true) (t <$> l))) as IH'.
    { apply IH; [done|]. intros x Hx. apply Hl. by right. }
    rewrite fmap_cons, filter_cons. case_decide as Ho; [|done]. rewrite fmap_cons. apply NoDup_cons. split; [|done].
    rewrite list_elem_of_fmap. intros (s & Hk & Hs). apply list_elem_of_filter in Hs as [Hos Hs].
    apply list_elem_of_fmap in Hs as (x & -> & Hx). apply Hi.
    rewrite (Huniq i x); try done; apply Hl; [by left|by right]. }
  apply H; [apply NoDup_seqZ|]. intros i Hi. apply elem_of_seqZ in Hi. lia.
Qed.

Lemma table_map_lookup t cap k s :
  table_wf t cap → table_map t cap !! k = Some s ↔ occupied_by k s = true ∧ ∃ i, 0 ≤ i < cap ∧ t i = s.
Proof using.
  intros Hwf. unfold table_map. rewrite occupied_by_iff.
  rewrite <-elem_of_list_to_map.
  - rewrite list_elem_of_fmap. split.
    + intros (x & [= -> ->] & Hx). apply elem_of_live_slots in Hx. naive_solver.
    + intros ((? & <-) & ?). exists s. split; [done|]. by apply elem_of_live_slots.
  - rewrite <-list_fmap_compose. by apply live_keys_NoDup.
Qed.

Lemma table_map_size t cap : table_wf t cap → Z.of_nat (size (table_map t cap)) = zlen (live_slots t cap).
Proof using.
  intros Hwf. unfold table_map, zlen. rewrite <-(length_fmap (λ s, (key_of s, s))).
  f_equal. rewrite map_size_list_to_map; [done|]. rewrite <-list_fmap_compose. by apply live_keys_NoDup.
Qed.

Lemma table_map_none t cap k :
  table_wf t cap → table_map t cap !! k = None ↔ ∀ i, 0 ≤ i < cap → occupied_by k (t i) = false.
Proof using.
  intros Hwf. split.
  - intros Hn i Hi. apply not_true_iff_false. intros Ho.
    assert (table_map t cap !! k = Some (t i)) as Hs by (apply table_map_lookup; eauto). congruence.
  - intros Hall. apply eq_None_not_Some. intros [s Hs].
    apply table_map_lookup in Hs as (Ho & i & Hi & <-); [|done]. rewrite Hall in Ho by done. done.
Qed.

Lemma table_map_key t cap k s : table_wf t cap → table_map t cap !! k = Some s → key_of s = k ∧ occupied s = true.
Proof using. intros Hwf Hs. apply table_map_lookup in Hs as [Ho _]; [|done]. by apply occupied_by_iff in Ho as []. Qed.

(** Probing reads the map. *)
Lemma probe_map t cap k :
  table_wf t cap →
  (let '(i, found) := probe t cap k in if found : bool then Some (t i) else None) = table_map t cap !! k.
Proof using.
  intros Hwf. destruct (table_map t cap !! k) as [s|] eqn:E.
  - apply table_map_lookup in E as (Ho & i & Hi & <-); [|done]. by rewrite (probe_found t cap k i).
  - pose proof (proj1 (table_map_none t cap k Hwf) E) as Hno.
    pose proof (probe_post_probe t cap k (table_cap _ _ Hwf)) as Hp.
    destruct (probe t cap k) as [i [|]]; [|done]. destruct Hp as [Hi Ho]. cbn in Hi, Ho. by rewrite Hno in Ho.
Qed.

Lemma table_ext t t' cap : (∀ i, 0 ≤ i < cap → t' i = t i) → table_map t' cap = table_map t cap.
Proof using.
  intros H. unfold table_map, live_slots. do 3 f_equal.
  apply list_fmap_ext. intros i x Hx. apply H. apply list_elem_of_lookup_2, elem_of_seqZ in Hx. lia.
Qed.

Lemma table_wf_ext t t' cap : (∀ i, 0 ≤ i < cap → t' i = t i) → table_wf t cap → table_wf t' cap.
Proof using.
  intros H [Hcap Hp Hu]. split; [done| |].
  - intros j Hj Ho d Hd. rewrite (H j Hj) in *. rewrite H by (by apply nth_slot_range). by apply Hp.
  - intros i j Hi Hj. rewrite !H by done. by apply Hu.
Qed.

Lemma used_ext t t' cap : (∀ i, 0 ≤ i < cap → t' i = t i) → used t' cap = used t cap.
Proof using.
  intros H. unfold used. f_equal. apply filter_ext_in. intros i Hi. apply elem_of_seqZ in Hi. by rewrite H by lia.
Qed.

(** ** Changing one slot *)

Lemma table_insert t t' cap j s :
  table_wf t cap → 0 ≤ j < cap → updates cap j s t t' → occupied s = true →
  (∀ i, 0 ≤ i < cap → occupied_by (key_of s) (t i) = true → i = j) →
  (occupied (t j) = true → key_of (t j) = key_of s) →
  (∀ d, 0 ≤ d < distance cap (key_of s) j → state (t (nth_slot cap (hash_key (key_of s) mod cap) d)) ≠ STATE_EMPTY) →
  table_wf t' cap ∧ table_map t' cap = <[key_of s := s]> (table_map t cap).
Proof using.
  intros Hwf Hj [Hnew Hold] Hs Hother Hsame Hpath. pose proof Hwf as [Hcap Hp Hu].
  assert (∀ i, 0 ≤ i < cap → state (t i) ≠ STATE_EMPTY → state (t' i) ≠ STATE_EMPTY) as Hmono.
  { intros i Hi Hne. destruct (Z.eq_dec i j) as [->|]; [|by rewrite Hold].
    rewrite Hnew. apply Z.eqb_eq in Hs. by rewrite Hs. }
  assert (table_wf t' cap) as Hwf'.
  { split; [done| |].
    - intros i Hi Ho d Hd. apply Hmono; [by apply nth_slot_range|].
      destruct (Z.eq_dec i j) as [->|].
      + rewrite Hnew in Hd |- *. by apply Hpath.
      + rewrite Hold in Ho, Hd |- * by done. by apply Hp.
    - intros a b Ha Hb Hoa Hob Hk.
      destruct (Z.eq_dec a j) as [->|], (Z.eq_dec b j) as [->|]; try done.
      + rewrite Hnew in Hk. rewrite Hold in Hob, Hk by done. symmetry. apply Hother; [done|]. by apply occupied_by_iff.
      + rewrite Hnew in Hk. rewrite Hold in Hoa, Hk by done. apply Hother; [done|]. by apply occupied_by_iff.
      + rewrite Hold in Hoa, Hk by done. rewrite Hold in Hob, Hk by done. by apply Hu. }
  split; [done|]. apply map_eq. intros k. apply option_eq. intros x. rewrite table_map_lookup by done.
  destruct (Z.eq_dec k (key_of s)) as [->|Hk].
  - rewrite lookup_insert_eq. split.
    + intros (Ho & i & Hi & <-). destruct (Z.eq_dec i j) as [->|Hne]; [by rewrite Hnew|].
      rewrite Hold in Ho by done. by apply Hother in Ho.
    + intros [= <-]. split; [by apply occupied_by_iff|]. by exists j.
  - rewrite lookup_insert_ne, table_map_lookup by done. split.
    + intros (Ho & i & Hi & <-). split; [done|]. destruct (Z.eq_dec i j) as [->|].
      * rewrite Hnew in Ho. by apply occupied_by_iff in Ho as [_ ?].
      * exists i. by rewrite Hold.
    + intros (Ho & i & Hi & <-). split; [done|]. exists i. split; [done|]. apply Hold; [done|]. intros ->.
      apply occupied_by_iff in Ho as [Ho ?]. apply Hsame in Ho. congruence.
Qed.

Lemma table_delete t t' cap j s :
  table_wf t cap → 0 ≤ j < cap → updates cap j s t t' → occupied (t j) = true → state s = STATE_TOMBSTONE →
  table_wf t' cap ∧ table_map t' cap = delete (key_of (t j)) (table_map t cap).
Proof using.
  intros Hwf Hj [Hnew Hold] Hoj Hs. pose proof Hwf as [Hcap Hp Hu].
  assert (occupied (t' j) = false) as Hj' by (rewrite Hnew; unfold occupied; by rewrite Hs).
  assert (∀ i, 0 ≤ i < cap → occupied (t' i) = true → i ≠ j ∧ t' i = t i) as Hocc.
  { intros i Hi Ho. assert (i ≠ j) by congruence. eauto. }
  assert (table_wf t' cap) as Hwf'.
  { split; [done| |].
    - intros i Hi Ho d Hd. destruct (Hocc i Hi Ho) as [? Heq]. rewrite Heq in *.
      set (x := nth_slot cap _ d) in *. destruct (Z.eq_dec x j) as [->|]; [rewrite Hnew, Hs; done|].
      rewrite Hold by (done || by apply nth_slot_range). by apply Hp.
    - intros a b Ha Hb Hoa Hob Hk. destruct (Hocc a Ha Hoa) as [? Ea], (Hocc b Hb Hob) as [? Eb].
      rewrite Ea, Eb in *. by apply Hu. }
  split; [done|]. apply map_eq. intros k. apply option_eq. intros x.
  rewrite table_map_lookup by done. rewrite lookup_delete_Some, table_map_lookup by done. split.
  - intros (Ho & i & Hi & <-). apply occupied_by_iff in Ho as Ho'. destruct Ho' as [Hoi Hki].
    destruct (Hocc i Hi Hoi) as [Hne Heq]. split; [|split; [done|exists i; by rewrite Heq]].
    intros Hk. apply Hne. rewrite Heq in *. apply Hu; congruence.
  - intros (Hk & Ho & i & Hi & <-). split; [done|]. exists i. split; [done|]. apply Hold; [done|].
    intros ->. by apply occupied_by_iff in Ho as [_ ?].
Qed.

(** ** Counting the slots that are not empty *)

Definition slot_used (s : slot) : Z := if state s =? STATE_EMPTY then 0 else 1.

Lemma slot_used_live s : state s = STATE_OCCUPIED → slot_used s = 1.
Proof using. intros Hs. unfold slot_used. by rewrite Hs. Qed.
Lemma slot_used_bounds s : 0 ≤ slot_used s ≤ 1.
Proof using. unfold slot_used. case_match; lia. Qed.

Lemma used_sum t cap : used t cap = zsum ((λ i, slot_used (t i)) <$> seqZ 0 cap).
Proof using.
  unfold used. induction (seqZ 0 cap) as [|i l IH]; [done|]. rewrite filter_cons, fmap_cons. cbn [zsum foldr] in *.
  unfold slot_used at 1. destruct (Z.eqb_spec (state (t i)) STATE_EMPTY); case_decide; try done;
    rewrite ?zlen_cons; unfold zsum in *; cbn [foldr]; lia.
Qed.

Lemma used_update t t' cap j s :
  0 ≤ j < cap → updates cap j s t t' → used t' cap = used t cap - slot_used (t j) + slot_used s.
Proof using.
  intros Hj [Hnew Hold]. rewrite !used_sum.
  assert (∀ l, NoDup l → (∀ i, i ∈ l → 0 ≤ i < cap) →
    zsum ((λ i, slot_used (t' i)) <$> l) = zsum ((λ i, slot_used (t i)) <$> l) +
      (if bool_decide (j ∈ l) then slot_used s - slot_used (t j) else 0)) as H.
  { induction l as [|i l IH]; intros Hnd Hl; [done|]. apply NoDup_cons in Hnd as [Hi Hnd].
    rewrite !fmap_cons. unfold zsum in *. cbn [foldr]. rewrite IH; [|done|intros x Hx; apply Hl; by right].
    destruct (Z.eq_dec i j) as [->|Hne].
    - rewrite Hnew, (bool_decide_false (j ∈ l)), (bool_decide_true (j ∈ j :: l)) by (done || by left). lia.
    - rewrite Hold by (done || apply Hl; by left). case_bool_decide as H1; case_bool_decide as H2; try lia.
      + exfalso. apply H2. by right.
      + exfalso. apply elem_of_cons in H2 as [->|]; done. }
  rewrite H; [|apply NoDup_seqZ|intros i Hi; apply elem_of_seqZ in Hi; lia].
  rewrite bool_decide_true by (apply elem_of_seqZ; lia). lia.
Qed.

Lemma used_bounds t cap : 0 ≤ cap → 0 ≤ used t cap ≤ cap.
Proof using.
  intros Hcap. unfold used, zlen. pose proof (length_filter (λ i, state (t i) ≠ STATE_EMPTY) (seqZ 0 cap)) as H.
  rewrite length_seqZ in H. lia.
Qed.

Lemma used_room t cap : used t cap < cap → ∃ i, 0 ≤ i < cap ∧ state (t i) = STATE_EMPTY.
Proof using.
  intros Hlt. destruct (decide (Exists (λ i, state (t i) = STATE_EMPTY) (seqZ 0 cap))) as [He|Hn].
  - apply Exists_exists in He as (i & Hi & He). exists i. apply elem_of_seqZ in Hi. split; [lia|done].
  - exfalso. apply not_Exists_Forall in Hn; [|apply _]. unfold used in Hlt.
    rewrite filter_all in Hlt by (by apply Forall_forall). unfold zlen in Hlt. rewrite length_seqZ in Hlt. lia.
Qed.

Lemma used_empty t cap : (∀ i, 0 ≤ i < cap → state (t i) = STATE_EMPTY) → used t cap = 0.
Proof using.
  intros He. unfold used. rewrite filter_none; [done|]. intros i Hi Hne.
  apply elem_of_seqZ in Hi. apply Hne, He. lia.
Qed.

Lemma live_used t cap : zlen (live_slots t cap) ≤ used t cap.
Proof using.
  unfold live_slots, used. induction (seqZ 0 cap) as [|i l IH]; [done|].
  rewrite fmap_cons, !filter_cons. case_decide as Ho; case_decide as Hu; rewrite ?zlen_cons; try lia.
  exfalso. unfold occupied in Ho. by rewrite Hu in Ho.
Qed.

Lemma table_empty t cap :
  0 < cap → (∀ i, 0 ≤ i < cap → state (t i) = STATE_EMPTY) → table_wf t cap ∧ table_map t cap = ∅.
Proof using.
  intros Hcap He. assert (∀ i, 0 ≤ i < cap → occupied (t i) = false) as Hno.
  { intros i Hi. unfold occupied. by rewrite He. }
  assert (table_wf t cap) as Hwf.
  { split; [done| |]; [intros j Hj Ho|intros i j Hi Hj Ho]; by rewrite Hno in Ho. }
  split; [done|]. apply map_empty. intros k. apply table_map_none; [done|].
  intros i Hi. unfold occupied_by. unfold occupied in Hno. by rewrite Hno.
Qed.

(** ** Filling a new table *)

Lemma place_loop_spec t cap start fuel : 0 ≤ start < cap → ∀ d,
  0 ≤ d → d + Z.of_nat fuel = cap →
  (∀ d', 0 ≤ d' < d → state (t (nth_slot cap start d')) ≠ STATE_EMPTY) →
  (∃ e, d ≤ e < cap ∧ state (t (nth_slot cap start e)) = STATE_EMPTY) →
  ∃ e, place_loop t cap fuel (nth_slot cap start d) = Some (nth_slot cap start e) ∧ 0 ≤ e < cap ∧
    state (t (nth_slot cap start e)) = STATE_EMPTY ∧
    ∀ d', 0 ≤ d' < e → state (t (nth_slot cap start d')) ≠ STATE_EMPTY.
Proof using.
  intros Hs. induction fuel as [|fuel IH]; intros d Hd Hf Hbefore (e & He & Hst); [lia|]. cbn [place_loop].
  destruct (Z.eqb_spec (state (t (nth_slot cap start d))) STATE_EMPTY) as [Hd'|Hd'].
  - exists d. split_and!; (done || lia).
  - rewrite nth_slot_next by lia. apply IH; [lia|lia| |].
    + intros x Hx. destruct (Z.eq_dec x d) as [->|]; [done|]. apply Hbefore. lia.
    + exists e. split; [|done]. destruct (Z.eq_dec d e) as [->|]; [done|lia].
Qed.

Lemma place_spec t cap key :
  (∃ i, 0 ≤ i < cap ∧ state (t i) = STATE_EMPTY) →
  0 ≤ place t cap key < cap ∧ state (t (place t cap key)) = STATE_EMPTY ∧
  ∀ d, 0 ≤ d < distance cap key (place t cap key) → state (t (nth_slot cap (hash_key key mod cap) d)) ≠ STATE_EMPTY.
Proof using.
  intros (i & Hi & He). assert (0 ≤ hash_key key mod cap < cap) as Hs by (apply Z.mod_pos_bound; lia).
  destruct (place_loop_spec t cap _ (Z.to_nat cap) Hs 0) as (e & Hl & Her & Hst & Hbefore);
    [lia|lia|lia|exists (distance cap key i); rewrite nth_slot_distance by done; split; [apply Z.mod_pos_bound; lia|done]|].
  unfold place. rewrite nth_slot_0 in Hl by done. rewrite Hl. cbn.
  split_and!; [apply nth_slot_range; lia..|done|]. by rewrite distance_nth by done.
Qed.

Section fill.
Context {T : Type} (at_ : T → Z → slot) (write : T → Z → slot → T).

(** The loop of [rehash] and [build_key_table]: each live slot goes to the first
    empty place from its first slot on. *)
Definition fill (cap : Z) (entries : list slot) (table : T) : T :=
  foldl (λ tb s, write tb (place (at_ tb) cap (key_of s)) s) table entries.

Lemma fill_spec (ok : T → Prop) (good : slot → Prop) cap entries table :
  (∀ tb i s, ok tb → 0 ≤ i < cap → good s → ok (write tb i s) ∧ updates cap i s (at_ tb) (at_ (write tb i s))) →
  ok table → table_wf (at_ table) cap → Forall (λ s, occupied s = true ∧ good s) entries →
  NoDup (key_of <$> entries) → (∀ s, s ∈ entries → table_map (at_ table) cap !! key_of s = None) →
  used (at_ table) cap + zlen entries ≤ cap →
  let table' := fill cap entries table in
  ok table' ∧ table_wf (at_ table') cap ∧
  table_map (at_ table') cap = list_to_map ((λ s, (key_of s, s)) <$> entries) ∪ table_map (at_ table) cap ∧
  used (at_ table') cap = used (at_ table) cap + zlen entries.
Proof using.
  intros Hwrite. cbv zeta. revert table.
  induction entries as [|s entries IH]; intros table Hok Hwf Hall Hnd Hnew Hroom.
  { cbn. split_and!; [done..|by rewrite (left_id ∅ (∪))|rewrite zlen_nil; lia]. }
  apply Forall_cons in Hall as [[Ho Hg] Hall]. rewrite fmap_cons in Hnd. apply NoDup_cons in Hnd as [Hs Hnd].
  rewrite zlen_cons in Hroom. pose proof (zlen_nonneg entries).
  destruct (place_spec (at_ table) cap (key_of s)) as (Hj & Hemp & Hpath); [apply used_room; lia|].
  set (j := place (at_ table) cap (key_of s)) in *.
  destruct (Hwrite table j s Hok Hj Hg) as [Hok' Hup].
  assert (occupied (at_ table j) = false) as Hoj by (unfold occupied; by rewrite Hemp).
  destruct (table_insert _ _ _ _ _ Hwf Hj Hup Ho) as [Hwf' Hmap']; [|by rewrite Hoj|done|].
  { intros i Hi Hio. exfalso. pose proof (proj1 (table_map_none _ _ _ Hwf) (Hnew s ltac:(by left)) i Hi). congruence. }
  pose proof (used_update _ _ _ _ _ Hj Hup) as Hused. unfold slot_used in Hused. rewrite Hemp in Hused. cbn in Hused.
  apply Z.eqb_eq in Ho as Ho'. rewrite Ho' in Hused. cbn in Hused.
  cbn [fill foldl]. fold j. fold (fill cap entries (write table j s)).
  destruct (IH (write table j s)) as (IHok & IHwf & IHmap & IHused); [done|done|done|done| |lia|].
  { intros x Hx. rewrite Hmap', lookup_insert_ne; [apply Hnew; by right|]. intros Hk. apply Hs.
    apply list_elem_of_fmap. by exists x. }
  split_and!; [done|done| |rewrite IHused, zlen_cons; lia].
  rewrite IHmap, Hmap'. cbn [fmap list_fmap list_to_map foldr]. cbn.
  rewrite <-insert_union_r, <-insert_union_l; [done|].
  apply not_elem_of_list_to_map. rewrite <-list_fmap_compose. done.
Qed.
End fill.
End table.

