(* ===== verification/DirStorage.v ===== *)
(** * DirStorage: the directory of a stored bitmap

    [src/minnal_db/src/index/storage.rs].  A stored bitmap is a directory: an
    ascending list of container keys with the offset and length of each container's
    blob, behind a magic number and a count and before a checksum.  The checksum
    function ([crc32fast::hash]) and the container codec ([rkyv]) are third-party
    code: the classes [Crc] and [Rkyv]. *)
From S2P Require Import Prelude Slices Bytes Container.

(** [rkyv]: serializing a container and the checked access of a blob.  Reading what
    was written gives the container back. *)
Class Rkyv := {
  rkyv_to_bytes : Container → option region;
  rkyv_access : region → option Container;
}.
Class RkyvLaws `{Rkyv} := {
  rkyv_roundtrip c b : rkyv_to_bytes c = Some b → rkyv_access b = Some c;
  rkyv_bytes c b : rkyv_to_bytes c = Some b → Forall byte b;
}.

Inductive StorageError :=
| RkyvError
| NotADirectory
| CountOverflow
| LengthMismatch (len count : Z)
| ChecksumMismatch
| OutOfOrder.

#[global] Instance StorageError_eq_dec : EqDecision StorageError.
Proof. solve_decision. Defined.

Definition DIR_MAGIC : region := [77; 66; 68; 49].
Definition DIR_HEADER : Z := 8.
Definition DIR_ENTRY : Z := 28.
Definition DIR_CRC : Z := 4.

Record DirEntry := mk_dir_entry { d_key : Z; d_offset : Z; d_len : Z }.

#[global] Instance DirEntry_eq_dec : EqDecision DirEntry.
Proof. solve_decision. Defined.

Definition encode_container `{Rkyv} (c : Container) : result region StorageError :=
  match rkyv_to_bytes c with Some b => Ok b | None => Err RkyvError end.
Definition decode_container `{Rkyv} (blob : region) : result Container StorageError :=
  match rkyv_access blob with Some c => Ok c | None => Err RkyvError end.

(** ** Encoding *)

Definition encode_entry (e : DirEntry) : region := le_bytes 16 (d_key e) ++ le_bytes 8 (d_offset e) ++ le_bytes 4 (d_len e).
Definition encode_dir `{Crc} (entries : list DirEntry) : region :=
  let out := DIR_MAGIC ++ le_bytes 4 (zlen entries) ++ (entries ≫= encode_entry) in
  out ++ le_bytes 4 (crc32 out).

(** ** Decoding *)

Definition decode_entry (c : region) : DirEntry := mk_dir_entry (get_le c 0 16) (get_le c 16 8) (get_le c 24 4).

Fixpoint keys_sorted (es : list DirEntry) : bool :=
  match es with
  | a :: (b :: _) as es' => (d_key a <? d_key b) && keys_sorted es'
  | _ => true
  end.

Definition decode_dir `{Crc} (bytes : region) : result (list DirEntry) StorageError :=
  if (zlen bytes <? DIR_HEADER + DIR_CRC) || negb (bool_decide (bread bytes 0 4 = DIR_MAGIC)) then Err NotADirectory
  else
    let count := get_le bytes 4 4 in
    match n ← checked_mul count DIR_ENTRY; checked_add n DIR_HEADER with
    | None => Err CountOverflow
    | Some body =>
        if negb (zlen bytes =? body + DIR_CRC) then Err (LengthMismatch (zlen bytes) count)
        else if negb (get_le bytes body DIR_CRC =? crc32 (bread bytes 0 body)) then Err ChecksumMismatch
        else
          let entries := decode_entry <$> as_chunks DIR_ENTRY (bread bytes DIR_HEADER (body - DIR_HEADER)) in
          if negb (keys_sorted entries) then Err OutOfOrder else Ok entries
    end.

Definition find_entry (entries : list DirEntry) (key : Z) : option DirEntry :=
  match binary_search_by (λ e, d_key e ?= key) entries with Ok i => entries !! i | Err _ => None end.

Definition dir_count (bytes : region) : result Z StorageError :=
  if (zlen bytes <? DIR_HEADER + DIR_CRC) || negb (bool_decide (bread bytes 0 4 = DIR_MAGIC)) then Err NotADirectory
  else
    let count := get_le bytes 4 4 in
    match n ← checked_mul count DIR_ENTRY; checked_add n (DIR_HEADER + DIR_CRC) with
    | Some n => if n =? zlen bytes then Ok count else Err (LengthMismatch (zlen bytes) count)
    | None => Err (LengthMismatch (zlen bytes) count)
    end.

(** The bisection over the encoded entries; the interval halves, so its width is fuel
    enough. *)
Fixpoint lookup_loop (entry : Z → DirEntry) (key : Z) (fuel : nat) (lo hi : Z) : option DirEntry :=
  match fuel with
  | O => None
  | S fuel =>
      if lo <? hi then
        let mid := lo + (hi - lo) / 2 in
        let e := entry mid in
        match d_key e ?= key with
        | Eq => Some e
        | Lt => lookup_loop entry key fuel (mid + 1) hi
        | Gt => lookup_loop entry key fuel lo mid
        end
      else None
  end.
Definition lookup_dir (bytes : region) (key : Z) : result (option DirEntry) StorageError :=
  result_bind (dir_count bytes) (λ count,
    let entry i := decode_entry (bread bytes (DIR_HEADER + i * DIR_ENTRY) DIR_ENTRY) in
    Ok (lookup_loop entry key (S (Z.to_nat count)) 0 count)).

(** ** Well-formed directories *)

Definition entry_wf (e : DirEntry) : Prop := u128 (d_key e) ∧ u64 (d_offset e) ∧ 0 ≤ d_len e < 2 ^ 32.
#[global] Instance entry_wf_dec e : Decision (entry_wf e).
Proof. unfold entry_wf. apply _. Defined.
Definition dir_wf (es : list DirEntry) : Prop := ascending (d_key <$> es) ∧ Forall entry_wf es ∧ zlen es < 2 ^ 32.

(** The entry of a key. *)
Definition dir_find (es : list DirEntry) (key : Z) : option DirEntry := list_find (λ e, d_key e = key) es ≫= λ p, Some p.2.

Lemma keys_sorted_iff es : keys_sorted es = true ↔ ascending (d_key <$> es).
Proof.
  induction es as [|a [|b es] IH]; [split; [constructor|done]|split; [repeat constructor|done]|].
  change (keys_sorted (a :: b :: es)) with ((d_key a <? d_key b) && keys_sorted (b :: es)).
  rewrite andb_true_iff, IH, Z.ltb_lt. cbn [fmap list_fmap]. rewrite !ascending_cons. split.
  - intros (Hlt & Hb & Has). split; [|done]. constructor; [done|]. eapply Forall_impl; [done|]. cbn. lia.
  - intros (Ha & Hb & Has). apply Forall_cons in Ha as [? ?]. done.
Qed.

Lemma dir_find_Some es key e :
  ascending (d_key <$> es) → dir_find es key = Some e ↔ e ∈ es ∧ d_key e = key.
Proof.
  intros Hs. unfold dir_find. split.
  - intros H. apply bind_Some in H as ([i x] & Hf & [= <-]). apply list_find_Some in Hf as (Hi & Hk & _).
    split; [by eapply list_elem_of_lookup_2|done].
  - intros [He Hk]. apply list_elem_of_lookup in He as [i Hi].
    assert (list_find (λ e, d_key e = key) es = Some (i, e)) as ->; [|done].
    apply list_find_Some. split_and!; [done|done|]. intros j y Hj Hlt Hy.
    pose proof (ascending_lookup (d_key <$> es) j i (d_key y) (d_key e) Hs) as H.
    rewrite !list_lookup_fmap, Hj, Hi in H. specialize (H eq_refl eq_refl Hlt). lia.
Qed.

Lemma dir_find_None es key : dir_find es key = None ↔ ∀ e, e ∈ es → d_key e ≠ key.
Proof.
  unfold dir_find. destruct (list_find (λ e, d_key e = key) es) as [[i x]|] eqn:E; cbn.
  - apply list_find_Some in E as (Hi & Hk & _). split; [done|]. intros H. exfalso.
    apply (H x); [by eapply list_elem_of_lookup_2|done].
  - split; [|done]. intros _. apply list_find_None in E. by rewrite Forall_forall in E.
Qed.

Lemma lookup_loop_find es key entry :
  ascending (d_key <$> es) → (∀ i e, es !! i = Some e → entry (Z.of_nat i) = e) → ∀ fuel lo hi,
  0 ≤ lo ≤ hi → hi ≤ zlen es → hi - lo < Z.of_nat fuel →
  (∀ i e, Z.of_nat i < lo → es !! i = Some e → d_key e < key) →
  (∀ i e, hi ≤ Z.of_nat i → es !! i = Some e → key < d_key e) →
  lookup_loop entry key fuel lo hi = dir_find es key.
Proof.
  intros Hs Hentry. induction fuel as [|fuel IH]; intros lo hi Hlo Hhi Hf Hbelow Habove; [lia|].
  cbn [lookup_loop]. cbv zeta. destruct (Z.ltb_spec lo hi) as [Hlt|Hge].
  2:{ symmetry. apply dir_find_None. intros e He Hk. apply list_elem_of_lookup in He as [i Hi].
      destruct (Z.lt_ge_cases (Z.of_nat i) lo) as [Hl|Hl]; [specialize (Hbelow i e Hl Hi); lia|].
      specialize (Habove i e ltac:(lia) Hi). lia. }
  assert (lo ≤ lo + (hi - lo) / 2 < hi) as Hmid.
  { pose proof (Z.div_pos (hi - lo) 2). pose proof (Z.div_lt_upper_bound (hi - lo) 2 (hi - lo)). lia. }
  set (mid := lo + (hi - lo) / 2) in *. clearbody mid.
  destruct (lookup_lt_is_Some_2 es (Z.to_nat mid)) as [e He]; [unfold zlen in Hhi; lia|].
  assert (entry mid = e) as -> by (rewrite <-(Hentry _ _ He); f_equal; lia).
  assert (∀ i j x y, (i < j)%nat → es !! i = Some x → es !! j = Some y → d_key x < d_key y) as Hord.
  { intros i j x y Hij Hx Hy. apply (ascending_lookup (d_key <$> es) i j); [done|by rewrite list_lookup_fmap, ?Hx, ?Hy..|done]. }
  destruct (Z.compare_spec (d_key e) key) as [Hk|Hk|Hk].
  - symmetry. apply dir_find_Some; [done|]. split; [by eapply list_elem_of_lookup_2|done].
  - apply IH; [lia|lia|lia| |done]. intros i x Hi Hx.
    destruct (decide (i = Z.to_nat mid)) as [->|]; [congruence|].
    specialize (Hord i (Z.to_nat mid) x e ltac:(lia) Hx He). lia.
  - apply IH; [lia|lia|lia|done|]. intros i x Hi Hx.
    destruct (decide (i = Z.to_nat mid)) as [->|]; [congruence|].
    specialize (Hord (Z.to_nat mid) i e x ltac:(lia) He Hx). lia.
Qed.

Lemma find_entry_spec es key : ascending (d_key <$> es) → find_entry es key = dir_find es key.
Proof.
  intros Hs. assert (cmp_ordered (λ e, d_key e ?= key) es) as Ho.
  { intros i j x y Hij Hx Hy.
    assert (d_key x < d_key y).
    { apply (ascending_lookup (d_key <$> es) i j); [done|by rewrite list_lookup_fmap, ?Hx, ?Hy..|done]. }
    rewrite !Z.compare_lt_iff, !Z.compare_eq_iff, !Z.compare_gt_iff. lia. }
  pose proof (binary_search_by_spec _ _ Ho) as H. unfold find_entry.
  destruct (binary_search_by _ es) as [i|i].
  - destruct H as (x & Hi & Hk). rewrite Hi. symmetry. apply Z.compare_eq_iff in Hk. apply dir_find_Some; [done|].
    split; [by eapply list_elem_of_lookup_2|done].
  - destruct H as (_ & Hlt & Hgt). symmetry. apply dir_find_None. intros e He <-.
    rewrite <-(take_drop i es), elem_of_app in He. rewrite !Forall_forall in Hlt, Hgt.
    destruct He as [He|He]; [apply Hlt in He|apply Hgt in He]; rewrite Z.compare_refl in He; done.
Qed.

(** ** Entries *)

Lemma encode_entry_zlen e : zlen (encode_entry e) = DIR_ENTRY.
Proof. unfold encode_entry. by rewrite !zlen_app, !le_bytes_zlen. Qed.

Lemma decode_encode_entry e : entry_wf e → decode_entry (encode_entry e) = e.
Proof.
  intros (Hk & Ho & Hl). destruct e as [k o l]. unfold decode_entry, encode_entry, u128, u64 in *. cbn [d_key d_offset d_len] in *.
  pose proof (get_le_bytes 16 k Hk) as G1. pose proof (get_le_bytes 8 o Ho) as G2. pose proof (get_le_bytes 4 l Hl) as G3.
  rewrite get_le_app_l by (rewrite ?le_bytes_zlen; lia).
  rewrite (get_le_app_r _ _ 16), (get_le_app_l (le_bytes 8 o)) by (rewrite ?le_bytes_zlen; lia).
  rewrite (get_le_app_r _ _ 24), (get_le_app_r (le_bytes 8 o)) by (rewrite ?le_bytes_zlen; lia).
  rewrite !le_bytes_zlen. change (16 - Z.of_nat 16) with 0. change (24 - Z.of_nat 16 - Z.of_nat 8) with 0.
  change (Z.of_nat 16) with 16 in G1. change (Z.of_nat 8) with 8 in G2. change (Z.of_nat 4) with 4 in G3.
  by rewrite G1, G2, G3.
Qed.

Lemma encode_decode_entry c : Forall byte c → zlen c = DIR_ENTRY → encode_entry (decode_entry c) = c ∧ entry_wf (decode_entry c).
Proof.
  intros Hb Hc. unfold DIR_ENTRY in Hc. split.
  - unfold encode_entry, decode_entry. cbn [d_key d_offset d_len].
    change 16%nat with (Z.to_nat 16). change 8%nat with (Z.to_nat 8). change 4%nat with (Z.to_nat 4).
    rewrite !le_bytes_get by (done || unfold in_region; lia).
    rewrite (bread_join c 16 8), (bread_join c 0 16) by lia. replace (16 + (8 + 4)) with (zlen c) by lia. apply bread_all.
  - split_and!; apply get_le_bound; (done || unfold in_region; lia).
Qed.

(** ** The codec *)

Section codec.
Context `{CrcLaws}.

Definition dir_body (es : list DirEntry) : region := DIR_MAGIC ++ le_bytes 4 (zlen es) ++ (es ≫= encode_entry).

Lemma entries_zlen es : zlen (es ≫= encode_entry) = DIR_ENTRY * zlen es.
Proof using. apply zlen_bind, Forall_forall. intros e _. apply encode_entry_zlen. Qed.

Lemma dir_body_zlen es : zlen (dir_body es) = DIR_HEADER + zlen es * DIR_ENTRY.
Proof using. unfold dir_body. rewrite !zlen_app, le_bytes_zlen, entries_zlen. unfold DIR_ENTRY, DIR_HEADER. change (zlen DIR_MAGIC) with 4. lia. Qed.

Lemma encode_dir_zlen es : zlen (encode_dir es) = DIR_HEADER + zlen es * DIR_ENTRY + DIR_CRC.
Proof using. unfold encode_dir. fold (dir_body es). by rewrite zlen_app, dir_body_zlen, le_bytes_zlen. Qed.

Lemma encode_dir_head es :
  bread (encode_dir es) 0 4 = DIR_MAGIC ∧ (zlen es < 2 ^ 32 → get_le (encode_dir es) 4 4 = zlen es) ∧
  bread (encode_dir es) DIR_HEADER (zlen es * DIR_ENTRY) = es ≫= encode_entry ∧
  bread (encode_dir es) 0 (DIR_HEADER + zlen es * DIR_ENTRY) = dir_body es ∧
  get_le (encode_dir es) (DIR_HEADER + zlen es * DIR_ENTRY) DIR_CRC = crc32 (dir_body es).
Proof using All.
  pose proof (zlen_nonneg es) as Hn. pose proof (dir_body_zlen es) as Hb. pose proof (entries_zlen es) as He.
  unfold encode_dir. fold (dir_body es).
  assert (bread (dir_body es ++ le_bytes 4 (crc32 (dir_body es))) 0 (DIR_HEADER + zlen es * DIR_ENTRY) = dir_body es) as Hbody.
  { rewrite <-Hb, bread_app_l, bread_all by (lia || apply zlen_nonneg). done. }
  unfold DIR_HEADER, DIR_ENTRY, DIR_CRC in *.
  split_and!.
  - rewrite bread_app_l by lia. unfold dir_body. by rewrite bread_app_l.
  - intros Hlt. rewrite get_le_app_l by lia. unfold dir_body. rewrite get_le_app_r by done.
    change (4 - zlen DIR_MAGIC) with 0.
    rewrite get_le_app_l by (rewrite ?le_bytes_zlen; lia). apply (get_le_bytes 4). lia.
  - rewrite bread_app_l by lia. unfold dir_body.
    rewrite bread_app_r by done. change (8 - zlen DIR_MAGIC) with 4.
    rewrite bread_app_r by (rewrite le_bytes_zlen; done). rewrite le_bytes_zlen. change (4 - Z.of_nat 4) with 0.
    replace (zlen es * 28) with (zlen (es ≫= encode_entry)) by lia. apply bread_all.
  - done.
  - rewrite get_le_app_r by lia. rewrite Hb, Z.sub_diag. apply (get_le_bytes 4), crc32_range.
Qed.

Lemma decode_encode_dir es : dir_wf es → decode_dir (encode_dir es) = Ok es.
Proof using All.
  intros (Hs & Hwf & Hlen). destruct (encode_dir_head es) as (H1 & H2 & H3 & H4 & H5).
  pose proof (zlen_nonneg es). unfold decode_dir. rewrite encode_dir_zlen, H1, H2 by done.
  rewrite bool_decide_true by done. unfold DIR_HEADER, DIR_ENTRY, DIR_CRC in *.
  rewrite (proj2 (Z.ltb_ge _ _)) by lia. cbn [orb negb]. unfold checked_mul, checked_add.
  rewrite (proj2 (Z.ltb_lt (zlen es * 28) _)) by lia. cbn [mbind option_bind].
  rewrite (proj2 (Z.ltb_lt (zlen es * 28 + 8) _)) by lia.
  rewrite (Z.add_comm _ 8), Z.eqb_refl. cbn [negb]. rewrite H4, H5, Z.eqb_refl. cbn [negb].
  replace (8 + zlen es * 28 - 8) with (zlen es * 28) by lia. rewrite H3.
  rewrite as_chunks_bind by (done || apply Forall_forall; intros; apply encode_entry_zlen).
  assert (decode_entry <$> (encode_entry <$> es) = es) as Hes.
  { rewrite <-list_fmap_compose. clear -Hwf. induction Hwf as [|e es He Hes IH]; [done|].
    cbn [fmap list_fmap]. f_equal; [by apply decode_encode_entry|done]. }
  rewrite Hes. by rewrite (proj2 (keys_sorted_iff es)).
Qed.

(** A directory that decodes is the encoding of what it decodes to. *)
Lemma encode_decode_dir b es : Forall byte b → decode_dir b = Ok es → encode_dir es = b ∧ dir_wf es.
Proof using All.
  intros Hb. unfold decode_dir.
  destruct (zlen b <? DIR_HEADER + DIR_CRC) eqn:E1; [done|]. cbn [orb]. case_bool_decide as E2; [|done]. cbn [negb].
  apply Z.ltb_ge in E1. unfold DIR_HEADER, DIR_ENTRY, DIR_CRC in *.
  destruct (_ ≫= _) as [body|] eqn:E3; [|done].
  assert (0 ≤ get_le b 4 4 < 2 ^ 32) as Hc by (apply get_le_bound; [done|unfold in_region; lia]).
  set (n := get_le b 4 4) in *. unfold checked_mul, checked_add in E3.
  destruct (n * 28 <? 2 ^ 64); [|done]. cbn [mbind option_bind] in E3. destruct (n * 28 + 8 <? 2 ^ 64); [|done].
  injection E3 as <-.
  destruct (Z.eqb_spec (zlen b) (n * 28 + 8 + 4)) as [E4|]; [cbn [negb]|done].
  destruct (Z.eqb_spec (get_le b (n * 28 + 8) 4) (crc32 (bread b 0 (n * 28 + 8)))) as [E5|]; [cbn [negb]|done].
  destruct (keys_sorted _) eqn:E6; [cbn [negb]|done]. intros [= <-].
  replace (n * 28 + 8 - 8) with (n * 28) in * by lia. set (mid := bread b 8 (n * 28)) in *.
  assert (zlen mid = n * 28) as Hmid by (apply bread_length; unfold in_region; lia).
  destruct (as_chunks_inv 28 (Z.to_nat n) ltac:(lia) mid) as (C1 & C2 & C3); [lia|].
  assert (Forall (Forall byte) (as_chunks 28 mid)) as C4.
  { unfold as_chunks. apply Forall_fmap, Forall_forall. intros i _. by do 2 apply Forall_byte_bread. }
  set (cs := as_chunks 28 mid) in *.
  assert ((decode_entry <$> cs) ≫= encode_entry = mid ∧ Forall entry_wf (decode_entry <$> cs)) as [C5 C6].
  { rewrite C2. clearbody cs. clear -C1 C4. revert C4. induction C1 as [|c cs Hc Hcs IH]; intros C4; [done|].
    apply Forall_cons in C4 as [Hcb C4]. destruct (encode_decode_entry c Hcb Hc) as [He Hw].
    destruct (IH C4) as [IH1 IH2]. cbn [fmap list_fmap]. rewrite !bind_cons, He, IH1. split; [done|by constructor]. }
  assert (zlen (decode_entry <$> cs) = n) as Hn by (rewrite zlen_fmap; lia).
  split; [|split_and!; [by apply keys_sorted_iff|done|lia]].
  unfold encode_dir. fold (dir_body (decode_entry <$> cs)).
  assert (dir_body (decode_entry <$> cs) = bread b 0 (n * 28 + 8)) as Hbody.
  { unfold dir_body. rewrite Hn, C5. subst n mid. change 4%nat with (Z.to_nat 4). rewrite (le_bytes_get b 4 4), <-E2 by (done || unfold in_region; lia).
    rewrite app_assoc, (bread_join b 0 4), (bread_join b 0) by lia. f_equal. lia. }
  change 4%nat with (Z.to_nat 4). rewrite Hbody, <-E5, (le_bytes_get b _ 4), (bread_join b 0) by (done || unfold in_region; lia).
  rewrite <-E4. apply bread_all.
Qed.

(** ** Looking a key up *)

Lemma lookup_encoded es i e :
  es !! i = Some e → entry_wf e →
  decode_entry (bread (encode_dir es) (DIR_HEADER + Z.of_nat i * DIR_ENTRY) DIR_ENTRY) = e.
Proof using All.
  intros Hi Hwf. destruct (encode_dir_head es) as (_ & _ & H3 & _). apply lookup_lt_Some in Hi as Hlt.
  rewrite <-(bread_bread _ DIR_HEADER (zlen es * DIR_ENTRY)), H3
    by (unfold DIR_HEADER, DIR_ENTRY, zlen; lia).
  assert (as_chunks DIR_ENTRY (es ≫= encode_entry) !! i = Some (encode_entry e)) as Hc.
  { rewrite as_chunks_bind by (done || apply Forall_forall; intros; apply encode_entry_zlen).
    by rewrite list_lookup_fmap, Hi. }
  unfold as_chunks in Hc. rewrite list_lookup_fmap in Hc. apply fmap_Some in Hc as (x & Hx & Hc).
  apply lookup_seqZ in Hx as [-> _]. rewrite Z.add_0_l in Hc. rewrite <-Hc. by apply decode_encode_entry.
Qed.

Lemma dir_count_encode es : zlen es < 2 ^ 32 → dir_count (encode_dir es) = Ok (zlen es).
Proof using All.
  intros Hlen. destruct (encode_dir_head es) as (H1 & H2 & _). pose proof (zlen_nonneg es).
  unfold dir_count. rewrite encode_dir_zlen, H1, H2 by done. rewrite bool_decide_true by done.
  unfold DIR_HEADER, DIR_ENTRY, DIR_CRC. rewrite (proj2 (Z.ltb_ge _ _)) by lia. cbn [orb negb].
  unfold checked_mul, checked_add. rewrite (proj2 (Z.ltb_lt (zlen es * 28) _)) by lia. cbn [mbind option_bind].
  rewrite (proj2 (Z.ltb_lt (zlen es * 28 + (8 + 4)) _)) by lia.
  by rewrite (proj2 (Z.eqb_eq _ _)) by lia.
Qed.

Lemma lookup_dir_encode es key : dir_wf es → lookup_dir (encode_dir es) key = Ok (dir_find es key).
Proof using All.
  intros (Hs & Hwf & Hlen). unfold lookup_dir. rewrite dir_count_encode by done. cbn [result_bind]. f_equal.
  pose proof (zlen_nonneg es). apply lookup_loop_find; [done| |lia..| |].
  - intros i e Hi. apply lookup_encoded; [done|]. by eapply Forall_lookup_1.
  - intros i e ? Hi. lia.
  - intros i e Hge Hi. apply lookup_lt_Some in Hi. unfold zlen in Hge. lia.
Qed.
End codec.

(** ** Properties *)

(** C34: The directory codec.  Decoding the encoding of a directory (ascending keys,
    fields of their widths) gives it back, with its length from [dir_count] and, for
    every key, the entry [lookup_dir] finds by bisection on the bytes; and any byte
    string that decodes is the encoding of what it decodes to, so no directory with a
    wrong length, checksum or order is accepted. *)
Theorem dir_codec_correct `{CrcLaws} (es : list DirEntry) (b : region) (key : Z) :
  dir_wf es → Forall byte b →
  decode_dir (encode_dir es) = Ok es ∧ dir_count (encode_dir es) = Ok (zlen es) ∧
  lookup_dir (encode_dir es) key = Ok (dir_find es key) ∧ find_entry es key = dir_find es key ∧
  ∀ es', decode_dir b = Ok es' → encode_dir es' = b ∧ dir_wf es'.
Proof.
  intros Hes Hb. split_and!.
  - by apply decode_encode_dir.
  - apply dir_count_encode, Hes.
  - by apply lookup_dir_encode.
  - by apply find_entry_spec, Hes.
  - intros es'. by apply encode_decode_dir.
Qed.

Definition sum_crc : Crc := λ b, foldr Z.add 7 b mod 2 ^ 32.
Lemma sum_crc_laws : @CrcLaws sum_crc.
Proof. intros b. apply Z.mod_pos_bound. lia. Defined.

Lemma dir_codec_correct_witness :
  let es := [mk_dir_entry 3 0 100; mk_dir_entry (2 ^ 100) 112 40] in
  @decode_dir sum_crc (@encode_dir sum_crc es) = Ok es.
Proof.
  cbv zeta. apply (@dir_codec_correct sum_crc sum_crc_laws _ [] 3); [|constructor].
  split_and!.
  - apply keys_sorted_iff. reflexivity.
  - apply (bool_decide_unpack _). vm_compute. exact I.
  - reflexivity.
Defined.
