(* ===== verification/BlobStore.v ===== *)
(** * BlobStore: the memory-mapped blob store of a field index

    [src/minnal_db/src/index/blob_store.rs].  Two regions: a key table (a header and
    an open-addressing table of 48-byte slots) and an append-only value region.  The
    operations below work on the bytes, as the source does; [blob_map] is the map a
    well-formed store stands for.  An operation that grows a region returns [None]
    where the source panics because the mapping cannot grow (beyond [isize::MAX]) or
    a blob's length does not fit its [u32] field.  I/O failures are not modelled; a
    persistent store is its current file images. *)
From S2P Require Import Prelude Words Bytes HashTable Container DirStorage.

Inductive BlobLayout := Flat | Directory.
#[global] Instance BlobLayout_eq_dec : EqDecision BlobLayout.
Proof. solve_decision. Defined.

Definition MAGIC : Z := 0x4D494E4E414C4253.
Definition VERSION : Z := 2.
Definition HEADER_SIZE : Z := 64.
Definition SLOT_SIZE : Z := 48.
Definition INITIAL_CAPACITY : Z := 16.
Definition INITIAL_KEY_SIZE : Z := HEADER_SIZE + INITIAL_CAPACITY * SLOT_SIZE.
Definition INITIAL_VAL_SIZE : Z := 4096.
Definition VALUE_ALIGNMENT : Z := 16.
Definition STATE_OCCUPIED_CHECKED : Z := 3.
Definition U32_MAX : Z := 4294967295.
(** The largest mapping: [isize::MAX] bytes. *)
Definition MAX_MAP : Z := 2 ^ 63 - 1.

(** ** Header *)

Record Header := mk_header { capacity : Z; count : Z; tombstone_count : Z; value_write_pos : Z }.

Definition read_header (data : region) : Header :=
  mk_header (get_le data 16 8) (get_le data 24 8) (get_le data 32 8) (get_le data 48 8).
Definition header_fields (h : Header) : fields :=
  [fU64 MAGIC; fU32 VERSION; fPad 4; fU64 (capacity h); fU64 (count h); fU64 (tombstone_count h); fPad 8;
   fU64 (value_write_pos h); fPad 8].
Definition write_header (data : region) (h : Header) : region := put_fields data 0 (header_fields h).
Definition init_header (data : region) (cap : Z) : region := write_header data (mk_header cap 0 0 0).

(** ** Slots *)

Record Slot := mk_slot { s_state : Z; s_key : Z; s_offset : Z; s_len : Z }.

Definition slot_byte_offset (i : Z) : Z := HEADER_SIZE + i * SLOT_SIZE.

Definition read_slot (data : region) (i : Z) : Slot :=
  let b := slot_byte_offset i in
  let state := get_byte data b in
  mk_slot (if state =? STATE_OCCUPIED_CHECKED then STATE_OCCUPIED else state)
    (get_le data (b + 8) 16) (get_le data (b + 24) 8) (get_le data (b + 32) 4).

Section crc.
Context `{Crc}.

Definition write_slot (data : region) (i : Z) (s : Slot) : region :=
  let b := slot_byte_offset i in
  let state := if s_state s =? STATE_OCCUPIED then STATE_OCCUPIED_CHECKED else s_state s in
  let data := put_fields data b [fU8 state; fPad 7; fU128 (s_key s); fU64 (s_offset s); fU32 (s_len s)] in
  put_fields data (b + 36) [fU32 (crc32 (bread data b 36)); fPad 8].

Definition slot_checksum_ok (data : region) (i : Z) : bool :=
  let b := slot_byte_offset i in
  if negb (get_byte data b =? STATE_OCCUPIED_CHECKED) then true
  else get_le data (b + 36) 4 =? crc32 (bread data b 36).
End crc.

Definition u32_len (len : Z) : option Z := if len <=? U32_MAX then Some len else None.

(** ** The mapped regions *)

Definition next_power_of_two (x : Z) : Z := 2 ^ Z.log2_up x.

Definition ensure_capacity (data : region) (needed : Z) : option region :=
  if needed <=? zlen data then Some data
  else
    let new_size := Z.max (next_power_of_two (Z.max (zlen data) needed)) needed in
    if MAX_MAP <? new_size then None else Some (bgrow data new_size).
Definition truncate (data : region) (new_size : Z) : region :=
  let new_size := Z.max new_size 1 in
  if new_size =? zlen data then data else bgrow (take (Z.to_nat new_size) data) new_size.

Definition align_up (offset align : Z) : Z := Z.ldiff (wrap 64 (offset + align - 1)) (align - 1).

(** ** The store *)

Record BlobStore := mk_blob {
  key_data : region;
  val_data : region;
  (* [dir] is [Some] *)
  persistent : bool;
  dead_bytes : Z;
  damaged_at_open : Z;
  layout : BlobLayout;
}.

Definition with_key (b : BlobStore) (k : region) : BlobStore :=
  mk_blob k (val_data b) (persistent b) (dead_bytes b) (damaged_at_open b) (layout b).
Definition header (b : BlobStore) : Header := read_header (key_data b).
Definition set_header (b : BlobStore) (h : Header) : BlobStore := with_key b (write_header (key_data b) h).

Definition new_anon_with (l : BlobLayout) : BlobStore :=
  mk_blob (init_header (bzero INITIAL_KEY_SIZE) INITIAL_CAPACITY) (bzero INITIAL_VAL_SIZE) false 0 0 l.
Definition create_with (l : BlobLayout) : BlobStore :=
  mk_blob (init_header (bzero INITIAL_KEY_SIZE) INITIAL_CAPACITY) (bzero INITIAL_VAL_SIZE) true 0 0 l.

Section store.
Context `{Crc}.

Definition value_slice (b : BlobStore) (offset len : Z) : option region :=
  end_ ← checked_add offset len;
  if end_ <=? zlen (val_data b) then Some (bread (val_data b) offset len) else None.

Definition dir_entries (b : BlobStore) (offset len : Z) : option (list DirEntry) :=
  if bool_decide (layout b = Directory) then
    bytes ← value_slice b offset len;
    match decode_dir bytes with Ok es => Some es | Err _ => None end
  else None.

Definition aligned_sum (es : list DirEntry) : Z := zsum ((λ e, align_up (d_len e) VALUE_ALIGNMENT) <$> es).
Definition owned_bytes (b : BlobStore) (s : Slot) : Z :=
  align_up (s_len s) VALUE_ALIGNMENT + default 0 (aligned_sum <$> dir_entries b (s_offset s) (s_len s)).

Definition table_slots (data : region) (cap : Z) : list Slot :=
  filter (λ s, s_state s = STATE_OCCUPIED) (read_slot data <$> seqZ 0 cap).
Definition live (b : BlobStore) : list Slot := table_slots (key_data b) (capacity (header b)).

Definition compacted_value_bytes (b : BlobStore) : Z := zsum (owned_bytes b <$> live b).
Definition logical_bytes (b : BlobStore) : Z := align_up (value_write_pos (header b)) VALUE_ALIGNMENT.
Definition live_bytes (b : BlobStore) : Z := compacted_value_bytes b.

Definition blob_probe (b : BlobStore) (key : Z) : Z * bool :=
  probe s_state s_key (read_slot (key_data b)) (capacity (header b)) key.

Definition keys (b : BlobStore) : list Z := s_key <$> live b.
Definition get_ref (b : BlobStore) (key : Z) : option region :=
  let '(idx, found) := blob_probe b key in
  if found : bool then let s := read_slot (key_data b) idx in value_slice b (s_offset s) (s_len s) else None.
(** Slicing panics on a range past the region. *)
Definition iter_entries (b : BlobStore) : option (list (Z * region)) :=
  mapM (λ s, pair (s_key s) <$> value_slice b (s_offset s) (s_len s)) (live b).

(** *** Growing the key table *)

Definition needs_rehash (b : BlobStore) : bool :=
  let h := header b in capacity h * 7 <? (count h + tombstone_count h) * 10.

Definition fill_table (cap : Z) (entries : list Slot) (data : region) : region :=
  fill s_state s_key read_slot write_slot cap entries data.

Definition build_key_table (cap wpos : Z) (placements : list Slot) : option region :=
  let size := HEADER_SIZE + cap * SLOT_SIZE in
  if MAX_MAP <? size then None
  else Some (fill_table cap placements (write_header (bzero size) (mk_header cap (zlen placements) 0 wpos))).

Definition rehash (b : BlobStore) : option BlobStore :=
  let h := header b in
  let new_cap := capacity h * 2 in
  let entries := live b in
  if persistent b then with_key b <$> build_key_table new_cap (value_write_pos h) entries
  else
    kdata ← ensure_capacity (key_data b) (HEADER_SIZE + new_cap * SLOT_SIZE);
    let kdata := bwrite kdata HEADER_SIZE (bzero (new_cap * SLOT_SIZE)) in
    let kdata := write_header kdata (mk_header new_cap 0 0 (value_write_pos h)) in
    let kdata := fill_table new_cap entries kdata in
    let h := read_header kdata in
    Some (with_key b (write_header kdata (mk_header (capacity h) (zlen entries) (tombstone_count h) (value_write_pos h)))).

(** *** Mutation *)

Definition append_value (blob : region) (b : BlobStore) : option (BlobStore * (Z * Z)) :=
  let aligned_offset := align_up (value_write_pos (header b)) VALUE_ALIGNMENT in
  let new_val_end := aligned_offset + zlen blob in
  val ← ensure_capacity (val_data b) new_val_end;
  let val := bwrite val aligned_offset blob in
  let b := mk_blob (key_data b) val (persistent b) (dead_bytes b) (damaged_at_open b) (layout b) in
  let h := header b in
  let b := set_header b (mk_header (capacity h) (count h) (tombstone_count h) new_val_end) in
  len ← u32_len (zlen blob);
  Some (b, (aligned_offset, len)).

Definition add_dead (b : BlobStore) (dead : Z) : BlobStore :=
  mk_blob (key_data b) (val_data b) (persistent b) (Z.min U64_MAX (dead_bytes b + dead)) (damaged_at_open b) (layout b).

(** Bytes that replacing slot [old] by a blob at [offset] leaves dead. *)
Definition replaced_bytes (b : BlobStore) (old : Slot) (offset len : Z) : Z :=
  align_up (s_len old) VALUE_ALIGNMENT +
  match dir_entries b (s_offset old) (s_len old) with
  | Some old_entries =>
      let kept := d_offset <$> default [] (dir_entries b offset len) in
      aligned_sum (filter (λ e, d_offset e ∉ kept) old_entries)
  | None => 0
  end.

Definition set_slot (key offset len : Z) (b : BlobStore) : option (BlobStore * bool) :=
  b ← (if needs_rehash b then rehash b else Some b);
  let '(idx, found) := blob_probe b key in
  let b := if found : bool then add_dead b (replaced_bytes b (read_slot (key_data b) idx) offset len) else b in
  let b := with_key b (write_slot (key_data b) idx (mk_slot STATE_OCCUPIED key offset len)) in
  let h := header b in
  let b := if found then b
    else set_header b (mk_header (capacity h) (count h + 1) (tombstone_count h) (value_write_pos h)) in
  Some (b, negb found).

Definition remove_key (key : Z) (b : BlobStore) : BlobStore :=
  let '(idx, found) := blob_probe b key in
  if negb found then b
  else
    let b := add_dead b (owned_bytes b (read_slot (key_data b) idx)) in
    let kdata := put_byte (key_data b) (slot_byte_offset idx) STATE_TOMBSTONE in
    let h := read_header kdata in
    with_key b (write_header kdata (mk_header (capacity h) (count h - 1) (tombstone_count h + 1) (value_write_pos h))).
End store.

(** ** The codec of headers and slots *)

Definition header_ok (h : Header) : Prop :=
  u64 (capacity h) ∧ u64 (count h) ∧ u64 (tombstone_count h) ∧ u64 (value_write_pos h).
Definition slot_ok (s : Slot) : Prop :=
  0 ≤ s_state s ≤ 2 ∧ u128 (s_key s) ∧ u64 (s_offset s) ∧ 0 ≤ s_len s < 2 ^ 32.
(** The table of [cap] slots lies in the region. *)
Definition table_fits (data : region) (cap : Z) : Prop := slot_byte_offset cap ≤ zlen data.

Lemma write_header_bwrite data h :
  HEADER_SIZE ≤ zlen data → write_header data h = bwrite data 0 (fields_bytes (header_fields h)).
Proof. intros. apply put_fields_bwrite. unfold in_region. cbn. unfold HEADER_SIZE in *. lia. Qed.

Lemma header_fields_zlen h : zlen (fields_bytes (header_fields h)) = HEADER_SIZE.
Proof. by rewrite fields_bytes_zlen. Qed.

Lemma write_header_zlen data h : HEADER_SIZE ≤ zlen data → zlen (write_header data h) = zlen data.
Proof.
  intros. rewrite write_header_bwrite by done. apply bwrite_length. rewrite header_fields_zlen.
  unfold in_region, HEADER_SIZE in *. lia.
Qed.

Lemma read_write_header data h : header_ok h → HEADER_SIZE ≤ zlen data → read_header (write_header data h) = h.
Proof.
  intros (H1 & H2 & H3 & H4) Hl. rewrite write_header_bwrite by done. unfold read_header.
  assert (in_region data 0 (fields_width (header_fields h))) as Hin.
  { unfold in_region. change (fields_width (header_fields h)) with HEADER_SIZE. unfold HEADER_SIZE in *. lia. }
  destruct h as [c n t w]. cbn [capacity count tombstone_count value_write_pos] in *. f_equal.
  - by apply (get_field [fU64 MAGIC; fU32 VERSION; fPad 4] 8 c).
  - by apply (get_field [fU64 MAGIC; fU32 VERSION; fPad 4; fU64 c] 8 n).
  - by apply (get_field [fU64 MAGIC; fU32 VERSION; fPad 4; fU64 c; fU64 n] 8 t).
  - by apply (get_field [fU64 MAGIC; fU32 VERSION; fPad 4; fU64 c; fU64 n; fU64 t; fPad 8] 8 w [fPad 8]).
Qed.

(** Reading a slot or the header looks at its own bytes only. *)
Lemma read_slot_ext data data' i :
  bread data' (slot_byte_offset i) SLOT_SIZE = bread data (slot_byte_offset i) SLOT_SIZE → 0 ≤ i →
  read_slot data' i = read_slot data i.
Proof.
  intros He Hi. unfold read_slot, get_byte, get_le. unfold slot_byte_offset, HEADER_SIZE, SLOT_SIZE in *.
  set (b := 64 + i * 48) in *. assert (0 ≤ b) by lia.
  assert (∀ k n, 0 ≤ k → 0 ≤ n → k + n ≤ 48 → bread data' (b + k) n = bread data (b + k) n) as Hk.
  { intros k n ???. rewrite <-(bread_bread data' b 48 k n), <-(bread_bread data b 48 k n), He by lia. done. }
  pose proof (Hk 0 1) as H0. rewrite Z.add_0_r in H0. by rewrite H0, !Hk by lia.
Qed.

Lemma read_header_ext data data' : bread data' 0 HEADER_SIZE = bread data 0 HEADER_SIZE → read_header data' = read_header data.
Proof.
  intros He. unfold read_header, get_le, HEADER_SIZE in *.
  assert (∀ k n, 0 ≤ k → 0 ≤ n → k + n ≤ 64 → bread data' k n = bread data k n) as Hk.
  { intros k n ???. rewrite <-(Z.add_0_l k), <-(bread_bread data' 0 64), <-(bread_bread data 0 64), He by lia. done. }
  by rewrite !Hk by lia.
Qed.

Lemma read_slot_header data h i :
  HEADER_SIZE ≤ zlen data → 0 ≤ i → read_slot (write_header data h) i = read_slot data i.
Proof.
  intros Hl Hi. apply read_slot_ext; [|done]. rewrite write_header_bwrite by done.
  apply bread_bwrite_after; rewrite header_fields_zlen; unfold in_region, slot_byte_offset, SLOT_SIZE, HEADER_SIZE in *; lia.
Qed.

Section slot_codec.
Context `{CrcLaws}.

Definition disk_state (state : Z) : Z := if state =? STATE_OCCUPIED then STATE_OCCUPIED_CHECKED else state.
Definition slot_fields (s : Slot) : fields :=
  [fU8 (disk_state (s_state s)); fPad 7; fU128 (s_key s); fU64 (s_offset s); fU32 (s_len s)].
Definition slot_image (s : Slot) : fields :=
  slot_fields s ++ [fU32 (crc32 (fields_bytes (slot_fields s))); fPad 8].

Lemma slot_image_zlen s : zlen (fields_bytes (slot_image s)) = SLOT_SIZE.
Proof using. by rewrite fields_bytes_zlen. Qed.

Lemma fields_bytes_app fs gs : fields_bytes (fs ++ gs) = fields_bytes fs ++ fields_bytes gs.
Proof using. apply bind_app. Qed.

Lemma slot_in_region data cap i : table_fits data cap → 0 ≤ i < cap → in_region data (slot_byte_offset i) SLOT_SIZE.
Proof using. unfold table_fits, in_region, slot_byte_offset, SLOT_SIZE, HEADER_SIZE. lia. Qed.

Lemma write_slot_bwrite data cap i s :
  table_fits data cap → 0 ≤ i < cap → write_slot data i s = bwrite data (slot_byte_offset i) (fields_bytes (slot_image s)).
Proof using.
  intros Hf Hi. destruct (slot_in_region data cap i Hf Hi) as (? & ? & ?). unfold SLOT_SIZE in *.
  unfold write_slot. cbv zeta. fold (disk_state (s_state s)). fold (slot_fields s).
  assert (zlen (fields_bytes (slot_fields s)) = 36) as Hz by (by rewrite fields_bytes_zlen).
  assert (in_region data (slot_byte_offset i) 36) as Hin by (unfold in_region; lia).
  rewrite (put_fields_bwrite (slot_fields s)) by done.
  rewrite <-Hz at 2. rewrite bread_bwrite_same by (by rewrite Hz).
  rewrite put_fields_bwrite.
  - unfold slot_image. rewrite fields_bytes_app. apply bwrite_join; [|by rewrite Hz].
    rewrite Hz, fields_bytes_zlen. unfold in_region. cbn. lia.
  - unfold in_region. rewrite bwrite_length by (by rewrite Hz). cbn. lia.
Qed.

Lemma write_slot_zlen data cap i s : table_fits data cap → 0 ≤ i < cap → zlen (write_slot data i s) = zlen data.
Proof using.
  intros Hf Hi. rewrite (write_slot_bwrite data cap) by done. apply bwrite_length. rewrite slot_image_zlen.
  by apply (slot_in_region data cap).
Qed.

Lemma slot_fields_in data cap i s gs :
  table_fits data cap → 0 ≤ i < cap → fields_width gs = 12 → in_region data (slot_byte_offset i) (fields_width (slot_fields s ++ gs)).
Proof using.
  intros Hf Hi Hg. destruct (slot_in_region data cap i Hf Hi) as (? & ? & ?). unfold SLOT_SIZE in *.
  assert (fields_width (slot_fields s ++ gs) = 48) as ->; [|unfold in_region; lia].
  unfold slot_fields. cbn [app fields_width foldr fst]. fold (fields_width gs). lia.
Qed.

Lemma read_write_slot data cap i s :
  slot_ok s → table_fits data cap → 0 ≤ i < cap →
  read_slot (write_slot data i s) i = s ∧ slot_checksum_ok (write_slot data i s) i = true.
Proof using All.
  intros (Hst & Hk & Ho & Hl) Hf Hi. rewrite (write_slot_bwrite data cap) by done.
  pose proof (slot_fields_in data cap i s [fU32 (crc32 (fields_bytes (slot_fields s))); fPad 8] Hf Hi eq_refl) as Hin.
  assert (0 ≤ disk_state (s_state s) < 256 ^ Z.of_nat 1) as Hd by (unfold disk_state, STATE_OCCUPIED_CHECKED; case_match; cbn; lia).
  destruct s as [st k o l]. cbn [s_state s_key s_offset s_len] in *.
  set (b := slot_byte_offset i) in *. set (c := crc32 _) in *.
  assert (get_byte (bwrite data b (fields_bytes (slot_image (mk_slot st k o l)))) b = disk_state st) as Hb.
  { apply (get_field [] 1 (disk_state st) _ data b b); [done|done|cbn; lia]. }
  split.
  - unfold read_slot. cbv zeta. fold b. rewrite Hb. f_equal.
    + unfold disk_state, STATE_OCCUPIED_CHECKED, STATE_OCCUPIED. destruct (Z.eqb_spec st 1) as [->|]; [done|].
      destruct (Z.eqb_spec st 3); lia.
    + apply (get_field [fU8 (disk_state st); fPad 7] 16 k _ data b); [done|done|cbn; lia].
    + apply (get_field [fU8 (disk_state st); fPad 7; fU128 k] 8 o _ data b); [done|done|cbn; lia].
    + apply (get_field [fU8 (disk_state st); fPad 7; fU128 k; fU64 o] 4 l _ data b); [done|done|cbn; lia].
  - unfold slot_checksum_ok. cbv zeta. fold b. case_match; [done|]. apply Z.eqb_eq.
    transitivity c.
    + apply (get_field (slot_fields (mk_slot st k o l)) 4 c [fPad 8] data b); [done|apply crc32_range|cbn; lia].
    + unfold c. f_equal. symmetry.
      assert (zlen (fields_bytes (slot_fields (mk_slot st k o l))) = 36) as Hz by (by rewrite fields_bytes_zlen).
      rewrite bread_inside; rewrite ?slot_image_zlen; unfold SLOT_SIZE; [|by apply (slot_in_region data cap)|lia..].
      unfold slot_image. rewrite fields_bytes_app.
      rewrite Z.sub_diag, bread_app_l by lia. rewrite <-Hz. apply bread_all.
Qed.

Lemma read_slot_other data cap i j s :
  table_fits data cap → 0 ≤ i < cap → 0 ≤ j < cap → i ≠ j → read_slot (write_slot data i s) j = read_slot data j.
Proof using.
  intros Hf Hi Hj Hne. apply read_slot_ext; [|lia]. rewrite (write_slot_bwrite data cap) by done.
  destruct (slot_in_region data cap i Hf Hi) as (? & ? & ?).
  apply bread_bwrite_disjoint; rewrite ?slot_image_zlen; unfold in_region, slot_byte_offset, SLOT_SIZE, HEADER_SIZE in *; lia.
Qed.

Lemma read_header_slot data cap i s :
  table_fits data cap → 0 ≤ i < cap → read_header (write_slot data i s) = read_header data.
Proof using.
  intros Hf Hi. apply read_header_ext. rewrite (write_slot_bwrite data cap) by done.
  destruct (slot_in_region data cap i Hf Hi) as (? & ? & ?).
  apply bread_bwrite_before; rewrite ?slot_image_zlen; unfold in_region, slot_byte_offset, SLOT_SIZE, HEADER_SIZE in *; lia.
Qed.

(** Marking a slot's state byte in place. *)
Lemma put_state_spec data cap i st :
  table_fits data cap → 0 ≤ i < cap → 0 ≤ st < 3 →
  let data' := put_byte data (slot_byte_offset i) st in
  zlen data' = zlen data ∧ read_header data' = read_header data ∧ s_state (read_slot data' i) = st ∧
  ∀ j, 0 ≤ j < cap → i ≠ j → read_slot data' j = read_slot data j.
Proof using.
  intros Hf Hi Hst. cbv zeta. destruct (slot_in_region data cap i Hf Hi) as (? & ? & ?). unfold SLOT_SIZE in *.
  assert (in_region data (slot_byte_offset i) (zlen [st])) as Hin by (change (zlen [st]) with 1; unfold in_region; lia).
  unfold put_byte. split_and!.
  - by apply bwrite_length.
  - apply read_header_ext. apply bread_bwrite_before; unfold slot_byte_offset, SLOT_SIZE, HEADER_SIZE in *; (done || lia).
  - unfold read_slot, get_byte, get_le. cbv zeta. cbn [s_state].
    change 1 with (zlen [st]) at 1 2. rewrite bread_bwrite_same by done. cbn [le_value foldr]. rewrite Z.mul_0_r, Z.add_0_r.
    unfold STATE_OCCUPIED_CHECKED. destruct (Z.eqb_spec st 3); lia.
  - intros j Hj Hne. apply read_slot_ext; [|lia].
    apply bread_bwrite_disjoint; [done|..]; unfold slot_byte_offset, HEADER_SIZE, SLOT_SIZE, zlen in *; cbn [length] in *; lia.
Qed.
End slot_codec.

(** ** The invariant *)

Definition keys_map (data : region) : gmap Z Slot :=
  table_map s_state s_key (read_slot data) (capacity (read_header data)).

(** A key table: its header counts its slots, and leaves room for the probe to end. *)
Record keys_wf (data : region) : Prop := {
  kw_header : header_ok (read_header data);
  kw_fits : table_fits data (capacity (read_header data));
  kw_max : zlen data ≤ MAX_MAP;
  kw_cap : 16 ≤ capacity (read_header data) ∧ ∃ k, 0 ≤ k ∧ capacity (read_header data) = 2 ^ k;
  kw_table : table_wf s_state s_key (read_slot data) (capacity (read_header data));
  kw_slots i : 0 ≤ i < capacity (read_header data) → slot_ok (read_slot data i);
  kw_count : count (read_header data) = Z.of_nat (size (keys_map data));
  kw_used : used s_state (read_slot data) (capacity (read_header data)) ≤
    count (read_header data) + tombstone_count (read_header data);
  kw_load : count (read_header data) + tombstone_count (read_header data) ≤ capacity (read_header data);
}.

Definition blob_map (b : BlobStore) : gmap Z Slot := keys_map (key_data b).
Definition write_pos (b : BlobStore) : Z := value_write_pos (header b).

Record blob_wf (b : BlobStore) : Prop := {
  bw_keys : keys_wf (key_data b);
  bw_pos : write_pos b ≤ zlen (val_data b);
  bw_max : zlen (val_data b) ≤ MAX_MAP;
  bw_live k s : blob_map b !! k = Some s → s_offset s + s_len s ≤ write_pos b;
}.

Lemma table_fits_header data cap : 0 ≤ cap → table_fits data cap → HEADER_SIZE ≤ zlen data.
Proof. unfold table_fits, slot_byte_offset, HEADER_SIZE, SLOT_SIZE. lia. Qed.

Lemma keys_wf_header_room data : keys_wf data → HEADER_SIZE ≤ zlen data.
Proof. intros Hw. apply (table_fits_header data (capacity (read_header data))), kw_fits; [pose proof (kw_cap _ Hw); lia|done]. Qed.

Lemma table_fits_small data cap : table_fits data cap → zlen data ≤ MAX_MAP → cap < 2 ^ 62.
Proof. unfold table_fits, slot_byte_offset, HEADER_SIZE, SLOT_SIZE, MAX_MAP. lia. Qed.

(** Changing a header's write position only. *)
Lemma keys_wf_set_pos data w :
  keys_wf data → u64 w →
  let h := read_header data in
  let data' := write_header data (mk_header (capacity h) (count h) (tombstone_count h) w) in
  keys_wf data' ∧ keys_map data' = keys_map data ∧ zlen data' = zlen data ∧
  read_header data' = mk_header (capacity h) (count h) (tombstone_count h) w.
Proof.
  intros Hw Hu. cbv zeta. pose proof (keys_wf_header_room _ Hw) as Hroom.
  set (h' := mk_header _ _ _ w). set (data' := write_header data h').
  assert (read_header data' = h') as Hh.
  { apply read_write_header; [|done]. destruct (kw_header _ Hw) as (? & ? & ? & ?). by split_and!. }
  assert (∀ i, 0 ≤ i < capacity (read_header data) → read_slot data' i = read_slot data i) as Hs
    by (intros i Hi; apply read_slot_header; [done|lia]).
  assert (keys_map data' = keys_map data) as Hm.
  { unfold keys_map. rewrite Hh. cbn [capacity h']. by apply table_ext. }
  assert (zlen data' = zlen data) as Hz by (by apply write_header_zlen).
  destruct Hw as [Hhd Hfit Hmax Hcap Htab Hslots Hcount Hused Hload]. split_and!; [|done..].
  split; rewrite ?Hh, ?Hm, ?Hz; cbn [capacity count tombstone_count value_write_pos h']; try done.
  - destruct Hhd as (? & ? & ? & ?). by split_and!.
  - unfold table_fits in *. by rewrite Hz.
  - by apply (table_wf_ext _ _ (read_slot data)).
  - intros i Hi. rewrite Hs by done. by apply Hslots.
  - rewrite (used_ext _ (read_slot data)) by done. lia.
Qed.

Section blob_laws.
Context `{CrcLaws}.

Definition live_slot (key offset len : Z) : Slot := mk_slot STATE_OCCUPIED key offset len.

(** Writing one slot changes that slot. *)
Lemma write_slot_updates data cap i s :
  slot_ok s → table_fits data cap → 0 ≤ i < cap → updates cap i s (read_slot data) (read_slot (write_slot data i s)).
Proof using All.
  intros Hs Hf Hi. split; [by apply (read_write_slot data cap)|]. intros j Hj Hne. by apply (read_slot_other data cap).
Qed.

Lemma write_slot_ok data cap i s :
  slot_ok s → table_fits data cap → 0 ≤ i < cap → (∀ j, 0 ≤ j < cap → slot_ok (read_slot data j)) →
  ∀ j, 0 ≤ j < cap → slot_ok (read_slot (write_slot data i s) j).
Proof using All.
  intros Hs Hf Hi Hall j Hj. destruct (write_slot_updates data cap i s Hs Hf Hi) as [Hn Ho].
  destruct (Z.eq_dec j i) as [->|]; [by rewrite Hn|]. rewrite Ho by done. by apply Hall.
Qed.

Lemma size_insert_table data (k : Z) s :
  Z.of_nat (size (<[k := s]> (keys_map data))) =
    Z.of_nat (size (keys_map data)) + (if bool_decide (is_Some (keys_map data !! k)) then 0 else 1).
Proof using.
  rewrite map_size_insert. case_bool_decide as Hb.
  - destruct Hb as [x ->]. unfold id. lia.
  - rewrite (proj2 (eq_None_not_Some _)) by done. lia.
Qed.

(** Pointing a key at a slot, the table having room. *)
Lemma keys_put data s :
  keys_wf data → slot_ok s → s_state s = STATE_OCCUPIED →
  (count (read_header data) + tombstone_count (read_header data)) * 10 ≤ capacity (read_header data) * 7 →
  let h := read_header data in
  let '(idx, found) := probe s_state s_key (read_slot data) (capacity h) (s_key s) in
  let data1 := write_slot data idx s in
  let data' := if found : bool then data1
    else write_header data1 (mk_header (capacity h) (count h + 1) (tombstone_count h) (value_write_pos h)) in
  0 ≤ idx < capacity h ∧ read_header data1 = h ∧
  found = bool_decide (is_Some (keys_map data !! s_key s)) ∧
  (found = true → keys_map data !! s_key s = Some (read_slot data idx)) ∧
  keys_wf data' ∧ keys_map data' = <[s_key s := s]> (keys_map data) ∧ zlen data' = zlen data ∧
  value_write_pos (read_header data') = value_write_pos h ∧ tombstone_count (read_header data') = tombstone_count h.
Proof using All.
  intros Hw Hs Hocc Hload. cbv zeta. pose proof (keys_wf_header_room _ Hw) as Hroom.
  pose proof (table_fits_small _ _ (kw_fits _ Hw) (kw_max _ Hw)) as Hsmall.
  pose proof (size_insert_table data (s_key s) s) as Hsize.
  destruct Hw as [Hhd Hfit Hmax Hcap Htab Hslots Hcount Hused Hld].
  set (h := read_header data) in *.
  pose proof (used_bounds s_state (read_slot data) (capacity h) ltac:(lia)) as Hub.
  assert (occupied s_state s = true) as Hocc' by (unfold occupied; by rewrite Hocc).
  pose proof (slot_used_live s_state s Hocc) as Hsu.
  destruct (keys_map data !! s_key s) as [old|] eqn:E.
  - (* the key's own slot *)
    apply table_map_lookup in E as E'; [|done]. destruct E' as (Ho & j & Hj & <-). fold h in Hj.
    rewrite (probe_found s_state s_key (read_slot data) (capacity h) (s_key s) j) by done.
    set (data1 := write_slot data j s).
    assert (read_header data1 = h) as Hh1 by (by apply (read_header_slot data (capacity h))).
    assert (zlen data1 = zlen data) as Hz by (by apply (write_slot_zlen data (capacity h))).
    pose proof (write_slot_updates data (capacity h) j s Hs Hfit Hj) as Hup. apply occupied_by_iff in Ho as Ho2. destruct Ho2 as [Hoj Hkj].
    destruct (table_insert s_state s_key _ _ _ _ _ Htab Hj Hup Hocc') as [Htab' Hmap']; [| done| |].
    { intros i Hi Hio. apply occupied_by_iff in Hio as [Hio Hik]. apply (table_unique _ _ _ _ Htab); (done || congruence). }
    { intros d Hd. rewrite <-Hkj in Hd |- *. by apply (table_path _ _ _ _ Htab). }
    pose proof (used_update s_state _ _ _ _ _ Hj Hup) as Hu'. rewrite Hsu in Hu'.
    unfold occupied in Hoj. apply Z.eqb_eq in Hoj. rewrite (slot_used_live _ _ Hoj) in Hu'. fold data1 in Hu'.
    assert (keys_map data1 = <[s_key s := s]> (keys_map data)) as Hm1 by (unfold keys_map; by rewrite Hh1).
    rewrite bool_decide_true by eauto. split_and!; [apply Hj|apply Hj|done|done|done| |done|done|by rewrite Hh1|by rewrite Hh1].
    split; rewrite ?Hh1, ?Hm1, ?Hz; fold h; try done.
    + unfold table_fits in *. by rewrite Hz.
    + by apply write_slot_ok.
    + rewrite Hsize. rewrite bool_decide_true by eauto. lia.
    + lia.
  - (* a free slot *)
    pose proof (proj1 (table_map_none _ _ _ _ _ Htab) E) as Hno.
    destruct (probe_missing s_state s_key (read_slot data) (capacity h) (s_key s) Htab) as (j & Hp & Hj & Hst & Hpath);
      [apply used_room; lia|done|]. rewrite Hp.
    set (data1 := write_slot data j s).
    assert (read_header data1 = h) as Hh1 by (by apply (read_header_slot data (capacity h))).
    assert (zlen data1 = zlen data) as Hz by (by apply (write_slot_zlen data (capacity h))).
    pose proof (write_slot_updates data (capacity h) j s Hs Hfit Hj) as Hup.
    destruct (table_insert s_state s_key _ _ _ _ _ Htab Hj Hup Hocc') as [Htab' Hmap']; [| |done|].
    { intros i Hi Hio. by rewrite Hno in Hio. }
    { intros Hoj. unfold occupied in Hoj. apply Z.eqb_eq in Hoj. rewrite Hoj in Hst. by destruct Hst. }
    pose proof (used_update s_state _ _ _ _ _ Hj Hup) as Hu'. rewrite Hsu in Hu'.
    pose proof (slot_used_bounds s_state (read_slot data j)) as Hb. fold data1 in Hu'.
    set (h' := mk_header (capacity h) (count h + 1) (tombstone_count h) (value_write_pos h)). set (data' := write_header data1 h').
    destruct Hhd as (Hu1 & Hu2 & Hu3 & Hu4).
    assert (read_header data' = h') as Hh'.
    { apply read_write_header; [|by rewrite Hz]. split_and!; [done| |done|done]. change (u64 (count h + 1)). unfold u64 in *. lia. }
    assert (zlen data' = zlen data) as Hz' by (unfold data'; by rewrite write_header_zlen, Hz by (by rewrite Hz)).
    assert (∀ i, 0 ≤ i < (capacity h) → read_slot data' i = read_slot data1 i) as Hs'.
    { intros i Hi. apply read_slot_header; [by rewrite Hz|lia]. }
    assert (keys_map data' = <[s_key s := s]> (keys_map data)) as Hm'.
    { unfold keys_map. rewrite Hh'. cbn [capacity h']. rewrite (table_ext _ _ (read_slot data1)) by done. done. }
    rewrite bool_decide_false by (by intros [? ?]). split_and!; [apply Hj|apply Hj|done|done|done| |done|done|by rewrite Hh'|by rewrite Hh'].
    split; rewrite ?Hh', ?Hm', ?Hz'; cbn [capacity count tombstone_count value_write_pos h']; try done.
    + split_and!; [done| |done|done]. change (u64 (count h + 1)). unfold u64 in *. lia.
    + unfold table_fits in *. by rewrite Hz'.
    + by apply (table_wf_ext _ _ (read_slot data1)).
    + intros i Hi. rewrite Hs' by done. by apply (write_slot_ok data (capacity h)).
    + rewrite Hsize, bool_decide_false by (by intros [? ?]). lia.
    + rewrite (used_ext _ (read_slot data1)) by done. lia.
    + lia.
Qed.

(** *** Growing the table *)

Lemma table_slots_live data cap : table_slots data cap = live_slots s_state (read_slot data) cap.
Proof using.
  unfold table_slots, live_slots. apply filter_ext_in. intros s _. unfold occupied. by rewrite Z.eqb_eq.
Qed.

Lemma read_slot_zero data i :
  0 ≤ i → bread data (slot_byte_offset i) SLOT_SIZE = replicate (Z.to_nat SLOT_SIZE) 0 → read_slot data i = mk_slot 0 0 0 0.
Proof using.
  intros Hi He. rewrite (read_slot_ext (bzero (slot_byte_offset i + SLOT_SIZE)) data i); [|rewrite He|done].
  - unfold read_slot, get_byte, get_le. cbv zeta.
    rewrite !bread_bzero, !le_value_zeros by
      (unfold in_region, bzero, zlen, slot_byte_offset, HEADER_SIZE, SLOT_SIZE in *; rewrite ?length_replicate; lia). done.
  - rewrite bread_bzero; [done|].
    unfold in_region, bzero, zlen, slot_byte_offset, HEADER_SIZE, SLOT_SIZE in *; rewrite ?length_replicate; lia.
Qed.

Lemma fill_table_spec data entries :
  let h := read_header data in
  table_fits data (capacity h) → 0 < capacity h → (∀ i, 0 ≤ i < capacity h → read_slot data i = mk_slot 0 0 0 0) →
  Forall (λ s, s_state s = STATE_OCCUPIED ∧ slot_ok s) entries → NoDup (s_key <$> entries) → zlen entries ≤ capacity h →
  let data' := fill_table (capacity h) entries data in
  read_header data' = h ∧ zlen data' = zlen data ∧
  (∀ i, 0 ≤ i < capacity h → slot_ok (read_slot data' i)) ∧
  table_wf s_state s_key (read_slot data') (capacity h) ∧
  table_map s_state s_key (read_slot data') (capacity h) = list_to_map ((λ s, (s_key s, s)) <$> entries) ∧
  used s_state (read_slot data') (capacity h) = zlen entries.
Proof using All.
  cbv zeta. set (h := read_header data). intros Hfit Hcap Hzero Hall Hnd Hroom.
  destruct (table_empty s_state s_key (read_slot data) (capacity h) Hcap) as [Hwf Hmap].
  { intros i Hi. by rewrite Hzero. }
  assert (used s_state (read_slot data) (capacity h) = 0) as Hu by (apply used_empty; intros i Hi; by rewrite Hzero).
  destruct (fill_spec s_state s_key read_slot write_slot
    (λ d, table_fits d (capacity h) ∧ read_header d = h ∧ zlen d = zlen data ∧ ∀ i, 0 ≤ i < capacity h → slot_ok (read_slot d i))
    slot_ok (capacity h) entries data) as ((_ & Hh & Hz & Hok) & Hwf' & Hmap' & Hu'); try done.
  - intros d i s (Hf & Hh & Hz & Hok) Hi Hs. split; [|by apply write_slot_updates].
    rewrite (read_header_slot d (capacity h)), (write_slot_zlen d (capacity h)) by done. split_and!; [|done|done|by apply write_slot_ok].
    unfold table_fits in *. by rewrite (write_slot_zlen d (capacity h)).
  - split_and!; [done..|]. intros i Hi. rewrite Hzero by done. unfold slot_ok, u128, u64. cbn. lia.
  - eapply Forall_impl; [done|]. intros s [Ho ?]. split; [|done]. unfold occupied. by rewrite Ho.
  - intros s _. by rewrite Hmap.
  - rewrite Hu. lia.
  - fold (fill_table (capacity h) entries data) in *. split_and!; [done..| |].
    + by rewrite Hmap', Hmap, (right_id ∅ (∪)).
    + rewrite Hu', Hu. lia.
Qed.

(** A fresh table filled with the live slots of a well-formed one. *)
Lemma refill_wf data data0 n t :
  keys_wf data → let h := read_header data in let cap' := capacity h * 2 in
  read_header data0 = mk_header cap' n t (value_write_pos h) → table_fits data0 cap' → zlen data0 ≤ MAX_MAP →
  (∀ i, 0 ≤ i < cap' → read_slot data0 i = mk_slot 0 0 0 0) →
  let entries := table_slots data (capacity h) in
  let data1 := fill_table cap' entries data0 in
  let h' := mk_header cap' (zlen entries) 0 (value_write_pos h) in
  read_header data1 = read_header data0 ∧ zlen data1 = zlen data0 ∧ header_ok h' ∧
  ∀ data2, zlen data2 = zlen data1 → read_header data2 = h' → (∀ i, 0 ≤ i < cap' → read_slot data2 i = read_slot data1 i) →
    keys_wf data2 ∧ keys_map data2 = keys_map data ∧ (count h' + tombstone_count h') * 10 ≤ capacity h' * 7.
Proof using All.
  intros Hw. cbv zeta. intros Hh0 Hfit Hmax Hzero.
  pose proof (table_fits_small _ _ Hfit Hmax) as Hsmall.
  destruct Hw as [Hhd Hfit0 Hmax0 Hcap Htab Hslots Hcount Hused Hld]. set (h := read_header data) in *.
  set (entries := table_slots data (capacity h)).
  assert (Forall (λ s, s_state s = STATE_OCCUPIED ∧ slot_ok s) entries) as Hall.
  { apply Forall_forall. intros s Hs. unfold entries in Hs. rewrite table_slots_live in Hs.
    apply elem_of_live_slots in Hs as (Ho & i & Hi & <-). split; [by apply Z.eqb_eq|by apply Hslots]. }
  assert (NoDup (s_key <$> entries)) as Hnd by (unfold entries; rewrite table_slots_live; by apply live_keys_NoDup).
  pose proof (table_map_size s_state s_key (read_slot data) (capacity h) Htab) as Hsz. rewrite <-table_slots_live in Hsz. fold entries in Hsz.
  change (table_map s_state s_key (read_slot data) (capacity h)) with (keys_map data) in Hsz. pose proof (zlen_nonneg entries) as Hnn. destruct Hhd as (Hu1 & Hu2 & Hu3 & Hu4).
  assert (zlen entries ≤ capacity h) as Hle by (unfold u64 in *; lia).
  destruct (fill_table_spec data0 entries) as (F1 & F2 & F3 & F4 & F5 & F6); rewrite ?Hh0; cbn [capacity]; try done; [lia|lia|].
  rewrite Hh0 in F1, F2, F3, F4, F5, F6. cbn [capacity] in F1, F2, F3, F4, F5, F6.
  refine (conj _ (conj _ (conj _ _))); [done|done|unfold header_ok; cbn [capacity count tombstone_count value_write_pos]; unfold u64 in *; lia|].
  intros data2 Hz2 Hh2 Hs2.
  assert (keys_map data2 = keys_map data) as Hm2.
  { unfold keys_map at 1. rewrite Hh2. cbn [capacity]. rewrite (table_ext _ _ _ _ _ Hs2), F5.
    unfold keys_map, table_map. fold h. by rewrite <-table_slots_live. }
  split_and!; [|done|cbn [capacity count tombstone_count]; lia].
  split; rewrite ?Hh2, ?Hm2; cbn [capacity count tombstone_count value_write_pos].
  - unfold header_ok; cbn [capacity count tombstone_count value_write_pos]; unfold u64 in *; lia.
  - unfold table_fits in *. lia.
  - lia.
  - split; [lia|]. destruct Hcap as [_ (k & Hk & ->)]. exists (k + 1). split; [lia|]. rewrite Z.pow_add_r by lia. done.
  - by apply (table_wf_ext _ _ _ _ _ Hs2).
  - intros i Hi. rewrite Hs2 by done. by apply F3.
  - lia.
  - rewrite (used_ext _ _ _ _ Hs2). lia.
  - lia.
Qed.

Lemma in_region_bzero size a n : in_region (bzero size) a n ↔ 0 ≤ a ∧ 0 ≤ n ∧ a + n ≤ Z.max 0 size.
Proof using. unfold in_region, bzero, zlen. rewrite length_replicate. lia. Qed.

Lemma table_size_ok data :
  keys_wf data → let h := read_header data in let entries := table_slots data (capacity h) in
  zlen entries ≤ capacity h ∧
  header_ok (mk_header (capacity h * 2) (zlen entries) 0 (value_write_pos h)).
Proof using.
  intros Hw. cbv zeta. pose proof (table_fits_small _ _ (kw_fits _ Hw) (kw_max _ Hw)) as Hsmall.
  pose proof (table_map_size _ _ _ _ (kw_table _ Hw)) as Hsz. rewrite <-table_slots_live in Hsz.
  change (table_map s_state s_key (read_slot data) (capacity (read_header data))) with (keys_map data) in Hsz.
  destruct (kw_header _ Hw) as (H1 & H2 & H3 & H4). pose proof (kw_count _ Hw). pose proof (kw_load _ Hw).
  pose proof (zlen_nonneg (table_slots data (capacity (read_header data)))).
  unfold u64 in *. split; [lia|]. unfold header_ok, u64. cbn [capacity count tombstone_count value_write_pos]. lia.
Qed.

(** *** The operations of the store *)

Lemma blob_wf_keys b k :
  blob_wf b → keys_wf k → value_write_pos (read_header k) = write_pos b →
  (∀ key s, keys_map k !! key = Some s → s_offset s + s_len s ≤ write_pos b) → blob_wf (with_key b k).
Proof using.
  intros [Hk Hp Hm Hl] Hk' Hpos Hl'. split; cbn [key_data val_data with_key]; [done| |done|].
  - unfold write_pos, header. cbn [key_data with_key]. by rewrite Hpos.
  - intros key s Hs. unfold write_pos, header. cbn [key_data with_key]. rewrite Hpos. by apply (Hl' key).
Qed.

Lemma next_power_of_two_spec x : 0 < x → x ≤ next_power_of_two x ∧ ∀ k, 0 ≤ k → x ≤ 2 ^ k → next_power_of_two x ≤ 2 ^ k.
Proof using.
  intros Hx. unfold next_power_of_two. split.
  - destruct (Z.eq_dec x 1) as [->|]; [done|]. apply Z.log2_up_spec. lia.
  - intros k Hk Hxk. apply Z.pow_le_mono_r; [lia|]. by apply Z.log2_up_le_pow2.
Qed.

Lemma ensure_capacity_spec data needed data' :
  zlen data ≤ MAX_MAP → 0 < needed → ensure_capacity data needed = Some data' →
  needed ≤ zlen data' ∧ zlen data ≤ zlen data' ≤ MAX_MAP ∧ ∃ size, data' = bgrow data size.
Proof using.
  intros Hmax Hn. unfold ensure_capacity. cbv zeta. destruct (Z.leb_spec needed (zlen data)).
  - intros [= <-]. split_and!; [done|done|done|]. exists 0. unfold bgrow. by rewrite app_nil_r.
  - destruct (Z.ltb_spec MAX_MAP (Z.max (next_power_of_two (Z.max (zlen data) needed)) needed)); [done|].
    intros [= <-]. rewrite bgrow_length. split_and!; [lia|lia|lia|by eexists].
Qed.

(** Growing is refused only beyond the largest mapping. *)
Lemma ensure_capacity_room data needed : 0 < needed ≤ 2 ^ 62 → is_Some (ensure_capacity data needed).
Proof using.
  intros Hn. unfold ensure_capacity. cbv zeta. destruct (Z.leb_spec needed (zlen data)); [by eexists|].
  destruct (next_power_of_two_spec (Z.max (zlen data) needed)) as [_ Hp]; [lia|].
  specialize (Hp 62 ltac:(lia) ltac:(lia)).
  destruct (Z.ltb_spec MAX_MAP (Z.max (next_power_of_two (Z.max (zlen data) needed)) needed)); [|by eexists].
  unfold MAX_MAP in *. lia.
Qed.

Lemma zeroed_slots data cap i :
  table_fits data cap → 0 ≤ i < cap →
  read_slot (bwrite data HEADER_SIZE (bzero (cap * SLOT_SIZE))) i = mk_slot 0 0 0 0.
Proof using.
  intros Hf Hi. assert (zlen (bzero (cap * SLOT_SIZE)) = cap * SLOT_SIZE) as Hz.
  { unfold bzero, zlen. rewrite length_replicate. unfold SLOT_SIZE. lia. }
  apply read_slot_zero; [lia|]. unfold table_fits, slot_byte_offset, SLOT_SIZE, HEADER_SIZE in *.
  rewrite bread_inside; rewrite ?Hz; [|unfold in_region; lia..].
  rewrite bread_bzero; [done|]. unfold in_region. rewrite Hz. lia.
Qed.

Definition room_keys (b : BlobStore) : Prop := capacity (header b) ≤ 2 ^ 55.

Lemma rehash_room b : room_keys b → 0 ≤ capacity (header b) → is_Some (rehash b).
Proof using.
  intros Hr Hpos. unfold room_keys in Hr. unfold rehash, build_key_table. cbv zeta.
  assert (0 < HEADER_SIZE + capacity (header b) * 2 * SLOT_SIZE ≤ 2 ^ 62) as Hs by (unfold HEADER_SIZE, SLOT_SIZE; lia).
  destruct (persistent b).
  - destruct (Z.ltb_spec MAX_MAP (HEADER_SIZE + capacity (header b) * 2 * SLOT_SIZE)); [unfold MAX_MAP in *; lia|].
    by eexists.
  - destruct (ensure_capacity_room (key_data b) _ Hs) as [k ->]. by eexists.
Qed.

Lemma rehash_spec b b' :
  blob_wf b → rehash b = Some b' →
  (∃ k, b' = with_key b k) ∧ blob_wf b' ∧ blob_map b' = blob_map b ∧ write_pos b' = write_pos b ∧
  (count (header b') + tombstone_count (header b')) * 10 ≤ capacity (header b') * 7 ∧ tombstone_count (header b') = 0.
Proof using All.
  intros Hwf. pose proof Hwf as [Hk Hp Hm Hl]. pose proof (kw_cap _ Hk) as [Hcap _].
  unfold rehash, build_key_table, live. cbv zeta. fold (write_pos b). unfold header in *.
  set (h := read_header (key_data b)) in *.
  assert (0 < HEADER_SIZE + capacity h * 2 * SLOT_SIZE) as Hpos by (unfold HEADER_SIZE, SLOT_SIZE; lia).
  assert (∀ k, keys_wf k → keys_map k = keys_map (key_data b) → value_write_pos (read_header k) = write_pos b →
    (count (read_header k) + tombstone_count (read_header k)) * 10 ≤ capacity (read_header k) * 7 → tombstone_count (read_header k) = 0 →
    (∃ k', with_key b k = with_key b k') ∧ blob_wf (with_key b k) ∧ blob_map (with_key b k) = blob_map b ∧
    write_pos (with_key b k) = write_pos b ∧
    (count (read_header (key_data (with_key b k))) + tombstone_count (read_header (key_data (with_key b k)))) * 10 ≤
      capacity (read_header (key_data (with_key b k))) * 7 ∧ tombstone_count (read_header (key_data (with_key b k))) = 0) as Hdone.
  { intros k Hk' Hmap Hwp Hload Ht. split_and!; [by eexists| |done|done|done|done].
    apply blob_wf_keys; [done..|]. intros key s Hs. rewrite Hmap in Hs. by apply (Hl key). }
  destruct (persistent b).
  - destruct (Z.ltb_spec MAX_MAP (HEADER_SIZE + capacity h * 2 * SLOT_SIZE)) as [|Hmax]; [done|].
    intros [= <-]. set (entries := table_slots _ _). set (size := HEADER_SIZE + _) in *.
    set (data0 := write_header (bzero size) _).
    assert (zlen (bzero size) = size) as Hz by (unfold bzero, zlen; rewrite length_replicate; lia).
    assert (HEADER_SIZE ≤ zlen (bzero size)) as Hroom by (rewrite Hz; unfold size, HEADER_SIZE, SLOT_SIZE; lia).
    assert (zlen data0 = size) as Hz0 by (unfold data0; by rewrite write_header_zlen).
    assert (table_fits (bzero size) (capacity h * 2)) as Hfit by (unfold table_fits; rewrite Hz; done).
    assert (∀ i, 0 ≤ i < capacity h * 2 → read_slot data0 i = mk_slot 0 0 0 0) as Hzero.
    { intros i Hi. unfold data0. rewrite read_slot_header by (done || lia).
      apply read_slot_zero; [lia|]. apply bread_bzero. rewrite in_region_bzero. unfold size, slot_byte_offset, HEADER_SIZE, SLOT_SIZE. lia. }
    destruct (table_size_ok (key_data b) Hk) as [Hlen Hok].
    assert (read_header data0 = mk_header (capacity h * 2) (zlen entries) 0 (write_pos b)) as Hh0.
    { apply read_write_header; [|done]. done. }
    destruct (refill_wf (key_data b) data0 _ _ Hk Hh0) as (R1 & R2 & R3 & R4); [unfold table_fits; by rewrite Hz0|lia|done|].
    assert (read_header (fill_table (capacity h * 2) entries data0) = mk_header (capacity h * 2) (zlen entries) 0 (write_pos b))
      as Hh1 by exact (eq_trans R1 Hh0).
    destruct (R4 _ eq_refl Hh1) as (W1 & W2 & W3); [done|].
    apply (Hdone (fill_table (capacity h * 2) entries data0)); [done|done|by rewrite Hh1|by rewrite Hh1|by rewrite Hh1].
  - intros Hb. apply bind_Some in Hb as (k0 & Ee & Hb). apply (inj Some) in Hb. subst b'.
    apply ensure_capacity_spec in Ee as (E1 & E2 & size & ->); [|apply Hk|done].
    set (k1 := bwrite (bgrow (key_data b) size) _ _). set (data0 := write_header k1 _). set (entries := table_slots _ _).
    assert (in_region (bgrow (key_data b) size) HEADER_SIZE (zlen (bzero (capacity h * 2 * SLOT_SIZE)))) as Hin.
    { unfold in_region, bzero, zlen in *. rewrite length_replicate. unfold HEADER_SIZE, SLOT_SIZE in *. lia. }
    assert (zlen k1 = zlen (bgrow (key_data b) size)) as Hz1 by (by apply bwrite_length).
    assert (HEADER_SIZE ≤ zlen k1) as Hroom by (rewrite Hz1; unfold HEADER_SIZE, SLOT_SIZE in *; lia).
    assert (zlen data0 = zlen k1) as Hz0 by (by apply write_header_zlen).
    destruct (table_size_ok (key_data b) Hk) as [Hlen Hok].
    assert (read_header data0 = mk_header (capacity h * 2) 0 0 (write_pos b)) as Hh0.
    { apply read_write_header; [|done]. destruct Hok as (? & ? & ? & ?). split_and!; [done|by unfold u64|done|done]. }
    assert (∀ i, 0 ≤ i < capacity h * 2 → read_slot data0 i = mk_slot 0 0 0 0) as Hzero.
    { intros i Hi. unfold data0. rewrite read_slot_header by (done || lia). apply zeroed_slots; [|done].
      unfold table_fits, slot_byte_offset. lia. }
    destruct (refill_wf (key_data b) data0 _ _ Hk Hh0) as (R1 & R2 & R3 & R4);
      [unfold table_fits, slot_byte_offset; fold h; lia|lia|done|].
    set (data1 := fill_table _ _ data0) in *. fold entries in R1, R2, R3, R4. fold data1 in R1, R2, R4.
    rewrite R1, Hh0. cbn [capacity tombstone_count value_write_pos].
    set (data2 := write_header data1 _).
    assert (read_header data2 = mk_header (capacity h * 2) (zlen entries) 0 (write_pos b)) as Hh2.
    { apply read_write_header; [done|]. lia. }
    destruct (R4 data2) as (W1 & W2 & W3); [apply write_header_zlen; lia|done| |].
    { intros i Hi. apply read_slot_header; lia. }
    apply Hdone; [done|done|by rewrite Hh2|by rewrite Hh2|by rewrite Hh2].
Qed.
End blob_laws.
