(* ===== verification/BlobStoreSpec.v ===== *)
(** * BlobStoreSpec: what the blob store promises

    The operations of [BlobStore] against the map the store stands for: appending
    leaves every slot and every earlier blob alone, setting and removing a slot are
    map insertion and deletion, whatever rehashing they cause, and reading a key
    reads the slice its slot names. *)
From S2P Require Import Prelude Words Bytes HashTable Container DirStorage BlobStore.

Lemma align_up_spec x : 0 ≤ x → x < 2 ^ 63 → x ≤ align_up x VALUE_ALIGNMENT < x + 16 ∧ align_up x VALUE_ALIGNMENT mod 16 = 0.
Proof.
  intros H0 H1. unfold align_up, VALUE_ALIGNMENT. rewrite wrap_small by lia.
  change (16 - 1) with (Z.ones 4). rewrite Z.ldiff_ones_r, Z.shiftl_mul_pow2, Z.shiftr_div_pow2 by lia.
  change (2 ^ 4) with 16. split; [|apply Z.mod_mul; lia].
  pose proof (Z.div_mod (x + 16 - 1) 16). pose proof (Z.mod_pos_bound (x + 16 - 1) 16). lia.
Qed.

Section spec.
Context `{CrcLaws}.

(** [value_slice] reads the region where the range fits. *)
Lemma value_slice_Some b o l :
  0 ≤ o → 0 ≤ l → o + l ≤ zlen (val_data b) → zlen (val_data b) ≤ MAX_MAP →
  value_slice b o l = Some (bread (val_data b) o l).
Proof using.
  intros. unfold value_slice, checked_add. rewrite (proj2 (Z.ltb_lt _ _)) by (unfold MAX_MAP in *; lia).
  cbn [mbind option_bind]. by rewrite (proj2 (Z.leb_le _ _)) by done.
Qed.

Lemma value_slice_val b b' o l : val_data b' = val_data b → value_slice b' o l = value_slice b o l.
Proof using. intros Hv. unfold value_slice. by rewrite Hv. Qed.

(** The slot of a key, and the blob it names. *)
Lemma get_ref_spec b k :
  blob_wf b → get_ref b k = s ← blob_map b !! k; value_slice b (s_offset s) (s_len s).
Proof using.
  intros Hwf. pose proof (probe_map _ s_key _ _ k (kw_table _ (bw_keys _ Hwf))) as Hp.
  unfold get_ref, blob_probe, header. unfold blob_map, keys_map. rewrite <-Hp.
  by destruct (probe _ _ _ _ _) as [i [|]].
Qed.

Lemma blob_map_bounds b k s :
  blob_wf b → blob_map b !! k = Some s →
  s_key s = k ∧ 0 ≤ s_offset s ∧ 0 ≤ s_len s < 2 ^ 32 ∧ s_offset s + s_len s ≤ write_pos b.
Proof using.
  intros Hwf Hs. pose proof (bw_live _ Hwf k s Hs) as Hl. unfold blob_map, keys_map in Hs.
  apply table_map_lookup in Hs as (Ho & i & Hi & <-); [|apply Hwf]. apply occupied_by_iff in Ho as [_ Hk].
  destruct (kw_slots _ (bw_keys _ Hwf) i Hi) as (_ & _ & Hoff & Hlen). unfold u64 in Hoff. split_and!; (done || lia).
Qed.

(** Every live slot names a slice of the region. *)
Lemma get_ref_live b k s :
  blob_wf b → blob_map b !! k = Some s → get_ref b k = Some (bread (val_data b) (s_offset s) (s_len s)).
Proof using.
  intros Hwf Hs. rewrite get_ref_spec, Hs by done. cbn [mbind option_bind].
  destruct (blob_map_bounds b k s Hwf Hs) as (_ & ? & ? & ?). destruct Hwf as [_ Hp Hm _].
  apply value_slice_Some; (done || lia).
Qed.

(** *** Appending *)

Lemma append_value_spec b blob b' o l :
  blob_wf b → append_value blob b = Some (b', (o, l)) →
  blob_wf b' ∧ blob_map b' = blob_map b ∧ persistent b' = persistent b ∧ layout b' = layout b ∧ dead_bytes b' = dead_bytes b ∧
  write_pos b ≤ o ∧ o mod 16 = 0 ∧ l = zlen blob ∧ write_pos b' = o + l ∧ value_slice b' o l = Some blob ∧
  ∀ o' l', 0 ≤ o' → 0 ≤ l' → o' + l' ≤ write_pos b → value_slice b' o' l' = value_slice b o' l'.
Proof using.
  intros Hwf. pose proof Hwf as [Hk Hp Hm Hl]. pose proof (kw_header _ Hk) as (_ & _ & _ & Hpos).
  pose proof (align_up_spec (write_pos b)) as Hal. pose proof (zlen_nonneg blob) as Hb.
  unfold append_value. cbv zeta. change (value_write_pos (header b)) with (write_pos b) in *.
  assert (0 ≤ write_pos b) as Hpos0 by apply Hpos.
  specialize (Hal Hpos0 ltac:(unfold MAX_MAP in *; lia)). set (o0 := align_up (write_pos b) VALUE_ALIGNMENT) in *; clearbody o0.
  intros Ha. apply bind_Some in Ha as (val & Ev & Ha).
  assert (in_region val o0 (zlen blob) ∧ zlen (val_data b) ≤ zlen val ≤ MAX_MAP ∧ ∃ size, val = bgrow (val_data b) size)
    as (Hin & Hz & size & Hval).
  { destruct (Z.eq_dec (o0 + zlen blob) 0) as [H00|].
    - unfold ensure_capacity in Ev. rewrite (proj2 (Z.leb_le _ _)) in Ev by (pose proof (zlen_nonneg (val_data b)); lia).
      injection Ev as <-. split_and!; [unfold in_region; pose proof (zlen_nonneg (val_data b)); lia|done|done|].
      exists 0. unfold bgrow. by rewrite app_nil_r.
    - apply ensure_capacity_spec in Ev as (? & ? & ?); [|done|lia]. split_and!; [unfold in_region; lia|lia|lia|done]. }
  destruct (keys_wf_set_pos (key_data b) (o0 + zlen blob) Hk) as (K1 & K2 & K3 & K4);
    [destruct Hin as (? & ? & ?); unfold u64, MAX_MAP in *; lia|].
  apply bind_Some in Ha as (len & Hlen & Ha). unfold u32_len in Hlen.
  destruct (Z.leb_spec (zlen blob) U32_MAX); [|done]. apply (inj Some) in Hlen. apply (inj Some) in Ha.
  apply pair_equal_spec in Ha as [Hb' Hol]. apply pair_equal_spec in Hol as [<- <-]. subst len.
  cbn [set_header with_key header key_data val_data persistent dead_bytes damaged_at_open layout] in Hb'.
  assert (key_data b' = write_header (key_data b)
    (mk_header (capacity (read_header (key_data b))) (count (read_header (key_data b)))
       (tombstone_count (read_header (key_data b))) (o0 + zlen blob)) ∧ val_data b' = bwrite val o0 blob ∧
    persistent b' = persistent b ∧ layout b' = layout b ∧ dead_bytes b' = dead_bytes b) as (B1 & B2 & B3 & B4 & B5) by (by subst b').
  clear Hb'. rewrite <-B1 in K1, K2, K3, K4.
  assert (write_pos b' = o0 + zlen blob) as Hwp by (unfold write_pos, header; by rewrite K4).
  assert (zlen (val_data b') = zlen val) as Hzv by (rewrite B2; by apply bwrite_length).
  split_and!; [|done|done|done|done|lia|lia|done|done| |].
  - split; [done|destruct Hin; lia|lia|]. intros k s Hs. unfold blob_map in Hs. rewrite K2 in Hs. specialize (Hl k s Hs). lia.
  - rewrite value_slice_Some by (destruct Hin; lia). rewrite B2. f_equal. by apply bread_bwrite_same.
  - intros o' l' ? ? ?. rewrite !value_slice_Some by lia. f_equal.
    rewrite B2, bread_bwrite_before by (done || lia). rewrite Hval. apply bread_bgrow. unfold in_region. lia.
Qed.

(** Appending moves the write position only, past at most fifteen bytes of padding. *)
Lemma append_header b blob b' o l :
  blob_wf b → append_value blob b = Some (b', (o, l)) →
  header b' = mk_header (capacity (header b)) (count (header b)) (tombstone_count (header b)) (o + l) ∧ o < write_pos b + 16.
Proof using.
  intros Hwf Ha. destruct (append_value_spec b blob b' o l Hwf Ha) as (_ & _ & _ & _ & _ & Ho & _ & Hl & Hp & _).
  pose proof (bw_keys _ Hwf) as Hk. destruct (kw_header _ Hk) as (H1 & H2 & H3 & H4).
  unfold append_value in Ha. cbv zeta in Ha. apply bind_Some in Ha as (val & Ev & Ha).
  apply bind_Some in Ha as (len & Hlen & Ha). apply (inj Some) in Ha. apply pair_equal_spec in Ha as [<- Hol].
  apply pair_equal_spec in Hol as [Ho' ->]. clear Hp. split.
  2:{ rewrite <-Ho'. change (value_write_pos (header b)) with (write_pos b). destruct H4 as [H4 _].
      change (value_write_pos (read_header (key_data b))) with (write_pos b) in H4. pose proof (bw_max _ Hwf). pose proof (bw_pos _ Hwf).
      destruct (align_up_spec (write_pos b)); [done|unfold MAX_MAP in *; lia|lia]. }
  unfold header. cbn [set_header with_key key_data].
  assert (u64 (align_up (value_write_pos (header b)) VALUE_ALIGNMENT + zlen blob)) as Hu.
  { rewrite Ho'. unfold ensure_capacity in Ev. cbv zeta in Ev. pose proof (zlen_nonneg blob).
    assert (o + zlen blob ≤ MAX_MAP).
    { rewrite Ho' in Ev. destruct Hwf as [_ _ Hm _].
      destruct (Z.leb_spec (o + zlen blob) (zlen (val_data b))); [lia|].
      destruct (Z.ltb_spec MAX_MAP (Z.max (next_power_of_two (Z.max (zlen (val_data b)) (o + zlen blob))) (o + zlen blob))); [done|lia]. }
    change (value_write_pos (read_header (key_data b))) with (write_pos b) in H4. unfold u64, MAX_MAP in *. lia. }
  unfold u32_len in Hlen. destruct (Z.leb_spec (zlen blob) U32_MAX); [|done]. apply (inj Some) in Hlen. subst l.
  rewrite read_write_header; [by rewrite <-Ho'| |by apply keys_wf_header_room].
  unfold header_ok. cbn [capacity count tombstone_count value_write_pos]. done.
Qed.

Lemma append_capacity b blob b' o l :
  blob_wf b → append_value blob b = Some (b', (o, l)) → capacity (header b') = capacity (header b).
Proof using. intros Hwf Ha. by destruct (append_header b blob b' o l Hwf Ha) as [-> _]. Qed.

(** Appending fails only on a blob of 4 GiB or a region at the mapping limit. *)
Lemma append_value_room b blob :
  blob_wf b → zlen blob ≤ U32_MAX → write_pos b + 16 + zlen blob ≤ 2 ^ 62 → is_Some (append_value blob b).
Proof using.
  intros Hwf Hlen Hroom. pose proof (kw_header _ (bw_keys _ Hwf)) as (_ & _ & _ & Hpos).
  change (value_write_pos (read_header (key_data b))) with (write_pos b) in Hpos. unfold u64 in Hpos.
  pose proof (zlen_nonneg blob).
  destruct (align_up_spec (write_pos b)) as [Hal _]; [lia|lia|]. unfold append_value. cbv zeta.
  change (value_write_pos (header b)) with (write_pos b).
  assert (is_Some (ensure_capacity (val_data b) (align_up (write_pos b) VALUE_ALIGNMENT + zlen blob))) as [v ->].
  { destruct (Z.eq_dec (align_up (write_pos b) VALUE_ALIGNMENT + zlen blob) 0) as [->|].
    - unfold ensure_capacity. rewrite (proj2 (Z.leb_le _ _)) by apply zlen_nonneg. by eexists.
    - apply ensure_capacity_room. lia. }
  unfold u32_len. cbn [mbind option_bind]. rewrite (proj2 (Z.leb_le _ _)) by done. by eexists.
Qed.

(** *** Setting and removing slots *)

(** Marking a slot changes its state byte only. *)
Lemma put_state_fields data cap i st :
  table_fits data cap → 0 ≤ i < cap →
  let s := read_slot data i in let s' := read_slot (put_byte data (slot_byte_offset i) st) i in
  s_key s' = s_key s ∧ s_offset s' = s_offset s ∧ s_len s' = s_len s.
Proof using.
  intros Hf Hi. cbv zeta. destruct (slot_in_region data cap i Hf Hi) as (? & ? & ?). unfold SLOT_SIZE in *.
  assert (in_region data (slot_byte_offset i) (zlen [st])) as Hin by (change (zlen [st]) with 1; unfold in_region; lia).
  assert (∀ k n, 1 ≤ k → bread (put_byte data (slot_byte_offset i) st) (slot_byte_offset i + k) n = bread data (slot_byte_offset i + k) n)
    as Hr by (intros k n Hk; apply bread_bwrite_after; [done|change (zlen [st]) with 1; lia]).
  unfold read_slot, get_le. cbv zeta. cbn [s_key s_offset s_len]. by rewrite !Hr by lia.
Qed.

(** The operations below change the key table and the dead-byte count only. *)
Definition same_values (b b' : BlobStore) : Prop :=
  val_data b' = val_data b ∧ persistent b' = persistent b ∧ layout b' = layout b ∧ damaged_at_open b' = damaged_at_open b ∧
  write_pos b' = write_pos b.

Lemma set_slot_spec b b' key offset len new :
  blob_wf b → u128 key → 0 ≤ offset → 0 ≤ len < 2 ^ 32 → offset + len ≤ write_pos b →
  set_slot key offset len b = Some (b', new) →
  blob_wf b' ∧ blob_map b' = <[key := live_slot key offset len]> (blob_map b) ∧ same_values b b' ∧
  new = bool_decide (blob_map b !! key = None) ∧
  count (header b') + tombstone_count (header b') ≤ count (header b) + tombstone_count (header b) + 1.
Proof using All.
  intros Hwf Hkey Hoff Hlen Hend. unfold set_slot. intros Hs. apply bind_Some in Hs as (b1 & Hb1 & Hs).
  assert ((∃ k, b1 = with_key b k) ∧ blob_wf b1 ∧ blob_map b1 = blob_map b ∧ write_pos b1 = write_pos b ∧
    (count (header b1) + tombstone_count (header b1)) * 10 ≤ capacity (header b1) * 7 ∧
    count (header b1) + tombstone_count (header b1) ≤ count (header b) + tombstone_count (header b))
    as (Hk1 & Hwf1 & Hm1 & Hp1 & Hload & Hused).
  { unfold needs_rehash in Hb1. destruct (Z.ltb_spec (capacity (header b) * 7) ((count (header b) + tombstone_count (header b)) * 10)).
    - destruct (rehash_spec b b1 Hwf Hb1) as (R1 & R2 & R3 & R4 & R5 & R6). split_and!; [done..|]. unfold header, blob_map in *.
      pose proof (kw_count _ (bw_keys _ R2)) as Rc. pose proof (kw_count _ (bw_keys _ Hwf)) as Rc'.
      destruct (kw_header _ (bw_keys _ Hwf)) as (_ & _ & Rt & _). unfold u64 in Rt. rewrite Rc, R3, <-Rc', R6. lia.
    - apply (inj Some) in Hb1. subst b1. split_and!; [by exists (key_data b); destruct b|done|done|done|done|done]. }
  pose proof (kw_header _ (bw_keys _ Hwf)) as (_ & _ & _ & Hpos). fold (write_pos b) in Hpos.
  assert (zlen (val_data b) ≤ MAX_MAP ∧ write_pos b ≤ zlen (val_data b)) as [Hmax Hval] by (split; apply Hwf).
  assert (slot_ok (live_slot key offset len)) as Hok.
  { unfold slot_ok, live_slot, STATE_OCCUPIED, u64, MAX_MAP in *. cbn [s_state s_key s_offset s_len]. split_and!; (done || lia). }
  pose proof (keys_put (key_data b1) (live_slot key offset len) (bw_keys _ Hwf1) Hok eq_refl Hload) as Hput.
  cbv zeta in Hput. unfold blob_probe, header in Hs. cbn [s_key live_slot] in Hput.
  destruct (probe s_state s_key (read_slot (key_data b1)) (capacity (read_header (key_data b1))) key) as [idx found].
  destruct Hput as (Hidx & Hh1 & Hfound & _ & Hkw & Hkm & _ & Hkp & Hkt). destruct Hk1 as [k1 ->].
  apply (inj Some) in Hs. apply pair_equal_spec in Hs as [<- <-].
  unfold blob_map, write_pos, header in *. cbn [with_key key_data val_data] in *. rewrite Hm1 in Hfound, Hkm.
  assert (∀ kd, keys_wf kd → keys_map kd = <[key := live_slot key offset len]> (keys_map (key_data b)) →
    value_write_pos (read_header kd) = value_write_pos (read_header (key_data b)) →
    ∀ d, blob_wf (mk_blob kd (val_data b) (persistent b) d (damaged_at_open b) (layout b))) as Hwf'.
  { intros kd K1 K2 K3 d. split; cbn [key_data val_data]; [done|by unfold write_pos, header; cbn [key_data]; rewrite K3|done|].
    intros k s Hs. unfold blob_map, write_pos, header in *. cbn [key_data] in *. rewrite K2 in Hs. rewrite K3.
    apply lookup_insert_Some in Hs as [[<- <-]|[_ Hs]]; [done|]. by apply (bw_live _ Hwf k). }
  apply (λ e, eq_trans e Hp1) in Hkp. fold (live_slot key offset len). destruct found.
  - split; [by apply Hwf'|split; [done|split]].
    + unfold same_values, write_pos, header. cbn [with_key add_dead key_data val_data persistent layout damaged_at_open].
      split_and!; done.
    + cbn [negb]. symmetry in Hfound. apply bool_decide_eq_true in Hfound as [x Hx].
      split; [|cbn [with_key add_dead key_data]; rewrite Hh1; lia]. symmetry. apply bool_decide_eq_false. by rewrite Hx.
  - cbn [set_header with_key key_data]. rewrite !Hh1. split; [by apply Hwf'|split; [done|split]].
    + unfold same_values, write_pos, header. cbn [set_header with_key key_data val_data persistent layout damaged_at_open]. split_and!; done.
    + cbn [negb]. symmetry in Hfound. apply bool_decide_eq_false in Hfound. split; [symmetry; apply bool_decide_eq_true; by apply eq_None_not_Some|].
      cbn [set_header with_key key_data]. pose proof (kw_count _ Hkw) as Hc1. pose proof (kw_count _ (bw_keys _ Hwf1)) as Hc2.
      cbn [with_key key_data] in Hc2. rewrite Hkt, Hc1, Hkm.
      pose proof (map_size_insert key (live_slot key offset len) (keys_map (key_data b))) as Hsz. rewrite Hm1 in Hc2.
      destruct (keys_map (key_data b) !! key); [by destruct Hfound|]. rewrite Hsz. lia.
Qed.

Lemma set_slot_room b key offset len : blob_wf b → room_keys b → is_Some (set_slot key offset len b).
Proof using.
  intros Hwf Hr. unfold set_slot.
  assert (is_Some (if needs_rehash b then rehash b else Some b)) as [b1 ->].
  { destruct (needs_rehash b); [|by eexists]. apply rehash_room; [done|]. pose proof (kw_cap _ (bw_keys _ Hwf)). unfold header. lia. }
  cbn [mbind option_bind]. destruct (blob_probe b1 key) as [idx [|]]; by eexists.
Qed.

Lemma remove_key_spec b key :
  blob_wf b → blob_wf (remove_key key b) ∧ blob_map (remove_key key b) = delete key (blob_map b) ∧ same_values b (remove_key key b).
Proof using All.
  intros Hwf. pose proof Hwf as [Hk Hp Hm Hl]. unfold remove_key, blob_probe, header.
  pose proof (probe_map s_state s_key (read_slot (key_data b)) _ key (kw_table _ Hk)) as Hpm.
  pose proof (probe_post_probe s_state s_key (read_slot (key_data b)) (capacity (read_header (key_data b))) key) as Hpp.
  pose proof (kw_cap _ Hk) as [Hcap _]. specialize (Hpp ltac:(lia)).
  set (h := read_header (key_data b)) in *.
  destruct (probe _ _ _ _ _) as [j [|]]; cbn [negb].
  2:{ split_and!; [done| |done..]. unfold blob_map, keys_map. fold h. rewrite delete_id by done. done. }
  destruct Hpp as [Hj Ho]. cbn [fst] in Hj, Ho. apply occupied_by_iff in Ho as [Ho Hkey].
  destruct (put_state_spec (key_data b) (capacity h) j STATE_TOMBSTONE (kw_fits _ Hk) Hj ltac:(unfold STATE_TOMBSTONE; lia))
    as (P1 & P2 & P3 & P4). cbn [add_dead key_data].
  set (kd := put_byte (key_data b) (slot_byte_offset j) STATE_TOMBSTONE) in *. rewrite P2. fold h.
  assert (updates (capacity h) j (read_slot kd j) (read_slot (key_data b)) (read_slot kd)) as Hup
    by (split; [done|intros i Hi Hne; apply P4; [done|congruence]]).
  destruct (table_delete s_state s_key _ _ _ _ _ (kw_table _ Hk) Hj Hup Ho P3) as [T1 T2]. rewrite Hkey in T2.
  pose proof (used_update s_state _ _ _ _ _ Hj Hup) as Hu.
  apply Z.eqb_eq in Ho as Ho'. rewrite (slot_used_live _ _ Ho') in Hu.
  assert (slot_used s_state (read_slot kd j) = 1) as Hu1 by (unfold slot_used; by rewrite P3). rewrite Hu1 in Hu.
  assert (keys_map (key_data b) !! key = Some (read_slot (key_data b) j)) as Hlk by done.
  assert (size (delete key (keys_map (key_data b))) = Nat.pred (size (keys_map (key_data b)))) as Hsz by (apply map_size_delete_Some; by eexists).
  pose proof (kw_count _ Hk) as Hcount. pose proof (kw_load _ Hk) as Hload. pose proof (kw_used _ Hk) as Hused.
  fold h in Hcount, Hload, Hused. destruct (kw_header _ Hk) as (U1 & U2 & U3 & U4). fold h in U1, U2, U3, U4.
  assert (size (keys_map (key_data b)) ≠ 0%nat) as Hne.
  { intros H00. apply map_size_empty_iff in H00. by rewrite H00 in Hlk. }
  pose proof (table_fits_small _ _ (kw_fits _ Hk) (kw_max _ Hk)) as Hsmall. fold h in Hsmall.
  set (h' := mk_header (capacity h) (count h - 1) (tombstone_count h + 1) (value_write_pos h)).
  assert (HEADER_SIZE ≤ zlen kd) as Hroom by (rewrite P1; by apply keys_wf_header_room).
  assert (read_header (write_header kd h') = h') as Hh'.
  { apply read_write_header; [|done]. unfold header_ok, h', u64 in *. cbn [capacity count tombstone_count value_write_pos]. lia. }
  assert (∀ i, 0 ≤ i < capacity h → read_slot (write_header kd h') i = read_slot kd i) as Hs'
    by (intros i Hi; apply read_slot_header; [done|lia]).
  assert (zlen (write_header kd h') = zlen (key_data b)) as Hz by (by rewrite write_header_zlen).
  assert (keys_map (write_header kd h') = delete key (keys_map (key_data b))) as Hkm.
  { unfold keys_map at 1. rewrite Hh'. cbn [capacity h']. rewrite (table_ext _ _ (read_slot kd)) by done. exact T2. }
  assert (keys_wf (write_header kd h')) as Hkw.
  { split; rewrite ?Hh', ?Hkm, ?Hz; cbn [capacity count tombstone_count value_write_pos h'];
      try exact (kw_max _ Hk); try exact (kw_cap _ Hk).
    - unfold header_ok, h', u64 in *. cbn [capacity count tombstone_count value_write_pos]. lia.
    - unfold table_fits. rewrite Hz. apply Hk.
    - by apply (table_wf_ext _ _ (read_slot kd)).
    - intros i Hi. rewrite Hs' by done. destruct (Z.eq_dec i j) as [->|].
      + pose proof (kw_slots _ Hk j Hj) as (_ & Hs2 & Hs3 & Hs4).
        destruct (put_state_fields (key_data b) (capacity h) j STATE_TOMBSTONE (kw_fits _ Hk) Hj) as (F1 & F2 & F3).
        unfold slot_ok. fold kd in F1, F2, F3. rewrite P3, F1, F2, F3. unfold STATE_TOMBSTONE. split_and!; (done || lia).
      + rewrite P4 by (done || congruence). by apply Hk.
    - unfold h'. cbn [count]. lia.
    - rewrite (used_ext _ (read_slot kd)) by done. unfold h'. cbn [count tombstone_count capacity]. lia.
    - unfold h'. cbn [count tombstone_count capacity]. lia. }
  split_and!; [|done|].
  - split; cbn [key_data val_data with_key add_dead]; [done|unfold write_pos, header; cbn [key_data with_key]; by rewrite Hh'|done|].
    intros k s Hs. unfold blob_map, write_pos, header in *. cbn [key_data with_key] in *. rewrite Hkm in Hs. rewrite Hh'.
    apply lookup_delete_Some in Hs as [_ Hs]. by apply (Hl k).
  - unfold same_values, write_pos, header. cbn [key_data val_data with_key add_dead persistent layout damaged_at_open]. rewrite Hh'. done.
Qed.
End spec.

(** ** The store as a map of blobs *)

Definition blob_values (b : BlobStore) : gmap Z region :=
  (λ s, bread (val_data b) (s_offset s) (s_len s)) <$> blob_map b.

Lemma get_ref_values b k : blob_wf b → get_ref b k = blob_values b !! k.
Proof.
  intros Hwf. unfold blob_values. rewrite lookup_fmap. destruct (blob_map b !! k) as [s|] eqn:E.
  - by rewrite (get_ref_live b k s).
  - by rewrite get_ref_spec, E.
Qed.

(** Slices that end before the write position read the same bytes in both stores. *)
Lemma blob_values_stable b b' :
  blob_wf b → blob_wf b' →
  (∀ o l, 0 ≤ o → 0 ≤ l → o + l ≤ write_pos b → value_slice b' o l = value_slice b o l) →
  ∀ k s, blob_map b !! k = Some s → bread (val_data b') (s_offset s) (s_len s) = bread (val_data b) (s_offset s) (s_len s).
Proof.
  intros Hwf Hwf' Hst k s Hs. destruct (blob_map_bounds b k s Hwf Hs) as (_ & ? & ? & ?).
  specialize (Hst (s_offset s) (s_len s) ltac:(lia) ltac:(lia) ltac:(lia)).
  pose proof Hwf as [_ Hp Hm _]. pose proof Hwf' as [_ Hp' Hm' _].
  rewrite (value_slice_Some b) in Hst by (done || lia). unfold value_slice in Hst.
  apply bind_Some in Hst as (e & He & Hst). destruct (e <=? zlen (val_data b')); [|done]. by apply (inj Some) in Hst.
Qed.

Lemma live_map b : blob_wf b → map_to_list (blob_map b) ≡ₚ (λ s, (s_key s, s)) <$> live b.
Proof.
  intros Hwf. unfold blob_map, keys_map, table_map, live. rewrite table_slots_live. unfold header.
  apply map_to_list_to_map. rewrite <-list_fmap_compose. apply live_keys_NoDup, Hwf.
Qed.

Lemma live_in_map b s : blob_wf b → s ∈ live b → blob_map b !! s_key s = Some s.
Proof.
  intros Hwf Hs. apply elem_of_map_to_list. rewrite live_map by done. apply list_elem_of_fmap. by exists s.
Qed.

Lemma iter_entries_spec b : blob_wf b → ∃ es, iter_entries b = Some es ∧ es ≡ₚ map_to_list (blob_values b).
Proof.
  intros Hwf. exists ((λ s, (s_key s, bread (val_data b) (s_offset s) (s_len s))) <$> live b). split.
  - unfold iter_entries. apply mapM_Some. apply Forall2_fmap_r. apply Forall_Forall2_diag.
    apply Forall_forall. intros s Hs. apply live_in_map in Hs; [|done].
    destruct (blob_map_bounds b _ s Hwf Hs) as (_ & ? & ? & ?). pose proof Hwf as [_ Hp Hm _].
    rewrite value_slice_Some by (done || lia). done.
  - unfold blob_values. rewrite map_to_list_fmap, live_map, <-list_fmap_compose by done. done.
Qed.

Lemma new_store_wf `{CrcLaws} b l :
  b = new_anon_with l ∨ b = create_with l → blob_wf b ∧ blob_map b = ∅.
Proof.
  intros Hb. set (kd := init_header (bzero INITIAL_KEY_SIZE) INITIAL_CAPACITY).
  assert (key_data b = kd ∧ val_data b = bzero INITIAL_VAL_SIZE) as [Hk Hv] by (by destruct Hb as [->| ->]).
  assert (read_header kd = mk_header 16 0 0 0) as Hh by (vm_compute; reflexivity).
  assert (zlen kd = INITIAL_KEY_SIZE) as Hz by (vm_compute; reflexivity).
  assert (∀ i, 0 ≤ i < 16 → read_slot kd i = mk_slot 0 0 0 0) as Hs.
  { intros i Hi. unfold kd, init_header. rewrite read_slot_header; [|vm_compute; discriminate|lia].
    apply read_slot_zero; [lia|]. apply bread_bzero. rewrite in_region_bzero.
    unfold slot_byte_offset, INITIAL_KEY_SIZE, HEADER_SIZE, SLOT_SIZE, INITIAL_CAPACITY. lia. }
  clearbody kd. destruct (table_empty s_state s_key (read_slot kd) 16) as [Hwf Hmap]; [done|intros i Hi; by rewrite Hs|].
  assert (keys_map kd = ∅) as Hm by (unfold keys_map; by rewrite Hh).
  assert (used s_state (read_slot kd) 16 = 0) as Hu by (apply used_empty; intros i Hi; by rewrite Hs).
  split; [|unfold blob_map; by rewrite Hk].
  split; rewrite ?Hk, ?Hv.
  - split; rewrite ?Hh, ?Hm, ?Hz; cbn [capacity count tombstone_count].
    + unfold header_ok, u64. cbn [capacity count tombstone_count value_write_pos]. lia.
    + unfold table_fits. rewrite Hz. reflexivity.
    + unfold MAX_MAP, INITIAL_KEY_SIZE, HEADER_SIZE, INITIAL_CAPACITY, SLOT_SIZE. lia.
    + split; [lia|]. by exists 4.
    + done.
    + intros i Hi. rewrite Hs by done. unfold slot_ok, u128, u64. cbn [s_state s_key s_offset s_len]. lia.
    + by rewrite map_size_empty.
    + by rewrite Hu.
    + lia.
  - unfold write_pos, header. rewrite Hk, Hh. done.
  - done.
  - intros k s. unfold blob_map. rewrite Hk, Hm. by rewrite lookup_empty.
Qed.

(** ** Properties *)

(** C27: The blob store is a map from keys to blobs.  Reading a key and listing the
    entries read the map; appending a blob changes no entry, and pointing a key at the
    appended blob, rehashing the table when it is over its load factor, inserts it and
    reports whether the key is new; removing a key deletes it.  The invariant holds
    after each step, and a blob below 4 GiB is stored as long as the regions stay far
    below the mapping limit. *)
Theorem blob_store_refines_map `{CrcLaws} (b : BlobStore) (key : Z) (blob : region) :
  blob_wf b → u128 key →
  (∀ k, get_ref b k = blob_values b !! k) ∧ (∃ es, iter_entries b = Some es ∧ es ≡ₚ map_to_list (blob_values b)) ∧
  (∀ b1 o l b2 new, append_value blob b = Some (b1, (o, l)) → set_slot key o l b1 = Some (b2, new) →
    blob_wf b1 ∧ blob_values b1 = blob_values b ∧ blob_wf b2 ∧ blob_values b2 = <[key := blob]> (blob_values b) ∧
    new = bool_decide (blob_values b !! key = None)) ∧
  (blob_wf (remove_key key b) ∧ blob_values (remove_key key b) = delete key (blob_values b)) ∧
  (zlen blob ≤ U32_MAX → write_pos b + 16 + zlen blob ≤ 2 ^ 62 → room_keys b →
    ∃ b1 o l, append_value blob b = Some (b1, (o, l)) ∧ is_Some (set_slot key o l b1)).
Proof.
  intros Hwf Hkey. split_and!.
  - intros k. by apply get_ref_values.
  - by apply iter_entries_spec.
  - intros b1 o l b2 new Ha Hs.
    destruct (append_value_spec b blob b1 o l Hwf Ha) as (Hw1 & Hm1 & _ & _ & _ & Ho & _ & Hl & Hp1 & Hsl & Hst).
    pose proof (kw_header _ (bw_keys _ Hwf)) as (_ & _ & _ & Hpos). change (u64 (write_pos b)) in Hpos.
    assert (0 ≤ l < 2 ^ 32) as Hlr.
    { split; [subst l; apply zlen_nonneg|]. unfold append_value in Ha. apply bind_Some in Ha as (v & _ & Ha).
      apply bind_Some in Ha as (len & Hlen & Ha). unfold u32_len in Hlen. destruct (Z.leb_spec (zlen blob) U32_MAX); [|done].
      unfold U32_MAX in *. lia. }
    destruct (set_slot_spec b1 b2 key o l new Hw1 Hkey) as (Hw2 & Hm2 & (Hv2 & _) & Hnew & _);
      [destruct Hpos; lia|exact Hlr|rewrite Hp1; reflexivity|exact Hs|].
    assert (blob_values b1 = blob_values b) as Hv1.
    { unfold blob_values. rewrite Hm1. apply map_eq. intros k. rewrite !lookup_fmap.
      destruct (blob_map b !! k) as [s|] eqn:E; [|done]. cbn. f_equal. by apply (blob_values_stable b b1 Hwf Hw1 Hst k). }
    split_and!; [done|done|done| |].
    + rewrite <-Hv1. unfold blob_values. rewrite Hm2, Hv2, fmap_insert. f_equal. cbn [s_offset s_len live_slot].
      destruct Hw1 as [_ Hwp Hmx _]. rewrite value_slice_Some in Hsl by (destruct Hpos; lia). by apply (inj Some) in Hsl.
    + rewrite Hnew, Hm1. apply bool_decide_ext. unfold blob_values. rewrite lookup_fmap.
      by destruct (blob_map b !! key).
  - by apply remove_key_spec.
  - destruct (remove_key_spec b key Hwf) as (_ & Hm & (Hv & _)). unfold blob_values. by rewrite Hm, Hv, fmap_delete.
  - intros H1 H2 Hr. destruct (append_value_room b blob Hwf H1 H2) as [[b1 [o l]] Ha]. exists b1, o, l. split; [done|].
    destruct (append_value_spec b blob b1 o l Hwf Ha) as (Hw1 & _). apply set_slot_room; [done|].
    unfold room_keys in *. by rewrite (append_capacity b blob b1 o l).
Qed.

Lemma blob_store_refines_map_witness :
  let b := new_anon_with Directory in
  blob_wf (remove_key (H := sum_crc) 5 b) ∧
  ∃ b1 o l, append_value [1; 2; 3] b = Some (b1, (o, l)) ∧ is_Some (set_slot (H := sum_crc) 5 o l b1).
Proof.
  cbv zeta.
  destruct (@blob_store_refines_map sum_crc sum_crc_laws (new_anon_with Directory) 5 [1; 2; 3]) as (_ & _ & _ & [Hr _] & Hroom).
  - apply (@new_store_wf sum_crc sum_crc_laws _ Directory). by left.
  - apply (bool_decide_unpack _). vm_compute. exact I.
  - split; [done|]. apply Hroom.
    + apply (bool_decide_unpack _). vm_compute. exact I.
    + apply (bool_decide_unpack _). vm_compute. exact I.
    + unfold room_keys. apply (bool_decide_unpack _). vm_compute. exact I.
Defined.
