(* ===== verification/BlobOpen.v ===== *)
(** * BlobOpen: opening a blob store's files

    [validate_open], [repair_at_open] and [open_with] of
    [src/minnal_db/src/index/blob_store.rs], over the bytes of the two files.  The
    kernel may have written any mix of old and new pages before a crash; [torn_file]
    describes the file such a crash leaves, and [open_repairs] what opening makes of
    it.  The completion of an interrupted compaction ([recover_compaction]) is file
    renaming and is not modelled. *)
From S2P Require Import Prelude Words Bytes HashTable Container DirStorage BlobStore BlobStoreSpec.

Inductive OpenError :=
| KeyFileTooSmall
| BadMagic (magic : Z)
| UnsupportedVersion (version : Z)
| BadCapacity (capacity : Z)
| CapacityOverflow
| KeyFileShort (len capacity need : Z).

Definition is_power_of_two (x : Z) : bool := (0 <? x) && (2 ^ Z.log2 x =? x).

Definition validate_open (key : region) (val_len : Z) : result () OpenError :=
  if zlen key <? HEADER_SIZE then Err KeyFileTooSmall
  else
    let magic := get_le key 0 8 in
    if negb (magic =? MAGIC) then Err (BadMagic magic)
    else
      let version := get_le key 8 4 in
      if negb (version =? VERSION) then Err (UnsupportedVersion version)
      else
        let hdr := read_header key in
        if (capacity hdr =? 0) || negb (is_power_of_two (capacity hdr)) then Err (BadCapacity (capacity hdr))
        else
          match s ← checked_mul (capacity hdr) SLOT_SIZE; checked_add s HEADER_SIZE with
          | None => Err CapacityOverflow
          | Some need => if zlen key <? need then Err (KeyFileShort (zlen key) (capacity hdr) need) else Ok ()
          end.

(** An empty file is served by a fresh anonymous map. *)
Definition open_file (file : region) : region := if zlen file =? 0 then bzero INITIAL_KEY_SIZE else file.

Section open.
Context `{Crc}.

Fixpoint dir_end (val_len m : Z) (es : list DirEntry) : option Z :=
  match es with
  | [] => Some m
  | e :: es =>
      c_end ← checked_add (d_offset e) (d_len e);
      if c_end <=? val_len then dir_end val_len (Z.max m c_end) es else None
  end.

(** The end of a live slot's data, if the slot is intact. *)
Definition slot_end (val : region) (l : BlobLayout) (ok : bool) (s : Slot) : option Z :=
  end_ ← checked_add (s_offset s) (s_len s);
  if ok && (end_ <=? zlen val) then
    match l with
    | Flat => Some end_
    | Directory =>
        match decode_dir (bread val (s_offset s) (end_ - s_offset s)) with
        | Ok es => dir_end (zlen val) end_ es
        | Err _ => None
        end
    end
  else None.

Record Repair := mk_repair { r_key : region; r_live : Z; r_tombs : Z; r_damaged : Z; r_max_end : Z }.

Definition repair_slot (val : region) (l : BlobLayout) (r : Repair) (i : Z) : Repair :=
  let ok := slot_checksum_ok (r_key r) i in
  let s := read_slot (r_key r) i in
  if s_state s =? STATE_OCCUPIED then
    match slot_end val l ok s with
    | Some end_ => mk_repair (r_key r) (r_live r + 1) (r_tombs r) (r_damaged r) (Z.max (r_max_end r) end_)
    | None =>
        mk_repair (put_byte (r_key r) (slot_byte_offset i) STATE_TOMBSTONE) (r_live r) (r_tombs r + 1)
          (r_damaged r + 1) (r_max_end r)
    end
  else if s_state s =? STATE_TOMBSTONE then mk_repair (r_key r) (r_live r) (r_tombs r + 1) (r_damaged r) (r_max_end r)
  else r.

Definition repair_at_open (b : BlobStore) : BlobStore :=
  let cap := capacity (header b) in
  let r := foldl (repair_slot (val_data b) (layout b)) (mk_repair (key_data b) 0 0 0 0) (seqZ 0 cap) in
  let h := read_header (r_key r) in
  let h := mk_header (capacity h) (r_live r) (r_tombs r) (Z.max (Z.min (value_write_pos h) (zlen (val_data b))) (r_max_end r)) in
  mk_blob (write_header (r_key r) h) (val_data b) (persistent b) (dead_bytes b) (r_damaged r) (layout b).

Definition open_with (l : BlobLayout) (key_file val_file : region) : result BlobStore OpenError :=
  let key := open_file key_file in
  let val := open_file val_file in
  result_bind (validate_open key (zlen val)) (λ _,
    let b := repair_at_open (mk_blob key val true 0 0 l) in
    Ok (mk_blob (key_data b) (val_data b) (persistent b) (Z.max 0 (logical_bytes b - live_bytes b)) (damaged_at_open b) (layout b))).
End open.

(** ** What the operations leave on disk *)

Section sealed.
Context `{CrcLaws}.

(** Every live slot carries its checksum. *)
Definition sums (data : region) (cap : Z) : Prop := ∀ i, 0 ≤ i < cap → slot_checksum_ok data i = true.
Record sealed (data : region) : Prop := {
  sl_magic : get_le data 0 8 = MAGIC;
  sl_version : get_le data 8 4 = VERSION;
  sl_sums : sums data (capacity (read_header data));
}.

Lemma checksum_ext data data' i :
  bread data' (slot_byte_offset i) SLOT_SIZE = bread data (slot_byte_offset i) SLOT_SIZE → 0 ≤ i →
  slot_checksum_ok data' i = slot_checksum_ok data i.
Proof using.
  intros He Hi. unfold slot_checksum_ok, get_byte, get_le. unfold slot_byte_offset, HEADER_SIZE, SLOT_SIZE in *.
  set (b := 64 + i * 48) in *. assert (0 ≤ b) by lia.
  assert (∀ k n, 0 ≤ k → 0 ≤ n → k + n ≤ 48 → bread data' (b + k) n = bread data (b + k) n) as Hk.
  { intros k n ???. rewrite <-(bread_bread data' b 48 k n), <-(bread_bread data b 48 k n), He by lia. done. }
  pose proof (Hk 0 1) as H1'. pose proof (Hk 0 36) as H2'. rewrite Z.add_0_r in H1', H2'. by rewrite H1', H2', Hk by lia.
Qed.

Lemma write_header_magic data h : HEADER_SIZE ≤ zlen data → get_le (write_header data h) 0 8 = MAGIC ∧ get_le (write_header data h) 8 4 = VERSION.
Proof using.
  intros Hl. rewrite write_header_bwrite by done.
  assert (in_region data 0 (fields_width (header_fields h))) as Hin.
  { unfold in_region. change (fields_width (header_fields h)) with HEADER_SIZE. unfold HEADER_SIZE in *. lia. }
  split.
  - by apply (get_field [] 8 MAGIC).
  - by apply (get_field [fU64 MAGIC] 4 VERSION).
Qed.

Lemma sums_header data h cap : HEADER_SIZE ≤ zlen data → sums data cap → sums (write_header data h) cap.
Proof using.
  intros Hl Hs i Hi. rewrite (checksum_ext data); [by apply Hs| |lia]. rewrite write_header_bwrite by done.
  apply bread_bwrite_after; rewrite header_fields_zlen; unfold in_region, slot_byte_offset, SLOT_SIZE, HEADER_SIZE in *; lia.
Qed.

Lemma sums_slot data cap i s : slot_ok s → table_fits data cap → 0 ≤ i < cap → sums data cap → sums (write_slot data i s) cap.
Proof using All.
  intros Hok Hf Hi Hs j Hj. destruct (Z.eq_dec j i) as [->|Hne]; [by apply (read_write_slot data cap)|].
  rewrite (checksum_ext data); [by apply Hs| |lia]. rewrite (write_slot_bwrite data cap) by done.
  destruct (slot_in_region data cap i Hf Hi) as (? & ? & ?).
  apply bread_bwrite_disjoint; rewrite ?slot_image_zlen; unfold in_region, slot_byte_offset, SLOT_SIZE, HEADER_SIZE in *; lia.
Qed.

Lemma checksum_dead data i : s_state (read_slot data i) ≠ STATE_OCCUPIED → slot_checksum_ok data i = true.
Proof using.
  unfold read_slot, slot_checksum_ok. cbv zeta. cbn [s_state]. destruct (get_byte data (slot_byte_offset i) =? STATE_OCCUPIED_CHECKED); done.
Qed.

Lemma checksum_state data cap i j :
  table_fits data cap → 0 ≤ i < cap → 0 ≤ j < cap →
  slot_checksum_ok (put_byte data (slot_byte_offset i) STATE_TOMBSTONE) j = if decide (j = i) then true else slot_checksum_ok data j.
Proof using.
  intros Hf Hi Hj. case_decide as Hne.
  - subst j. apply checksum_dead. destruct (put_state_spec data cap i STATE_TOMBSTONE Hf Hi) as (_ & _ & -> & _); done.
  - apply checksum_ext; [|lia]. unfold put_byte. destruct (slot_in_region data cap i Hf Hi) as (? & ? & ?).
    apply bread_bwrite_disjoint; unfold in_region, slot_byte_offset, HEADER_SIZE, SLOT_SIZE, zlen in *; cbn [length] in *; lia.
Qed.

Lemma sums_state data cap i :
  table_fits data cap → 0 ≤ i < cap → sums data cap → sums (put_byte data (slot_byte_offset i) STATE_TOMBSTONE) cap.
Proof using. intros Hf Hi Hs j Hj. rewrite (checksum_state data cap) by done. case_decide; [done|by apply Hs]. Qed.

Lemma place_range {slot} (state : slot → Z) t cap key : 0 < cap → 0 ≤ place state t cap key < cap.
Proof using.
  intros Hc. unfold place. assert (∀ fuel i, 0 ≤ i < cap → 0 ≤ default (hash_key key mod cap) (place_loop state t cap fuel i) < cap) as Hl.
  { induction fuel as [|fuel IH]; intros i Hi; cbn [place_loop]; [apply Z.mod_pos_bound; lia|].
    destruct (_ =? _); [done|]. apply IH, Z.mod_pos_bound. lia. }
  apply Hl, Z.mod_pos_bound. lia.
Qed.

Lemma probe_in_range (t : Z → Slot) cap key : 0 < cap → 0 ≤ (probe s_state s_key t cap key).1 < cap.
Proof using.
  intros Hc. pose proof (probe_post_probe s_state s_key t cap key Hc) as Hp. destruct (probe s_state s_key t cap key) as [j found].
  destruct found; cbn in *; [by destruct Hp|]. destruct Hp as (e & _ & _ & _ & [(d & Hd & _ & -> & _)|[_ ->]]).
  - by apply nth_slot_range.
  - apply Z.mod_pos_bound. lia.
Qed.

Lemma sums_fill entries : ∀ data cap,
  table_fits data cap → 0 < cap → Forall slot_ok entries → sums data cap → sums (fill_table cap entries data) cap.
Proof using All.
  induction entries as [|s entries IH]; intros data cap Hf Hc Hok Hs; [done|]. apply Forall_cons in Hok as [Hs1 Hok].
  change (fill_table cap (s :: entries) data) with (fill_table cap entries (write_slot data (place s_state (read_slot data) cap (s_key s)) s)).
  assert (0 ≤ place s_state (read_slot data) cap (s_key s) < cap) as Hp by (by apply place_range).
  apply IH; [|done|done|by apply sums_slot]. unfold table_fits in *. by rewrite (write_slot_zlen data cap).
Qed.

Lemma fill_header entries : ∀ data cap, table_fits data cap → 0 < cap →
  read_header (fill_table cap entries data) = read_header data ∧ zlen (fill_table cap entries data) = zlen data.
Proof using.
  induction entries as [|s entries IH]; intros data cap Hf Hc; [done|].
  change (fill_table cap (s :: entries) data) with (fill_table cap entries (write_slot data (place s_state (read_slot data) cap (s_key s)) s)).
  pose proof (place_range s_state (read_slot data) cap (s_key s) Hc) as Hp.
  destruct (IH (write_slot data (place s_state (read_slot data) cap (s_key s)) s) cap) as [-> ->]; [|done|].
  { unfold table_fits in *. by rewrite (write_slot_zlen data cap). }
  by rewrite (read_header_slot data cap), (write_slot_zlen data cap).
Qed.

Lemma sealed_header data h :
  HEADER_SIZE ≤ zlen data → header_ok h → sums data (capacity h) → sealed (write_header data h).
Proof using.
  intros Hl Hh Hs. destruct (write_header_magic data h Hl). split; [done|done|]. rewrite read_write_header by done. by apply sums_header.
Qed.

Lemma head_ext data data' : bread data' 0 HEADER_SIZE = bread data 0 HEADER_SIZE →
  get_le data' 0 8 = get_le data 0 8 ∧ get_le data' 8 4 = get_le data 8 4.
Proof using.
  intros He. unfold get_le, HEADER_SIZE in *.
  assert (∀ k n, 0 ≤ k → 0 ≤ n → k + n ≤ 64 → bread data' k n = bread data k n) as Hk.
  { intros k n ???. rewrite <-(Z.add_0_l k), <-(bread_bread data' 0 64), <-(bread_bread data 0 64), He by lia. done. }
  by rewrite !Hk by lia.
Qed.

Lemma sealed_slot data cap i s :
  cap = capacity (read_header data) → slot_ok s → table_fits data cap → 0 ≤ i < cap → sealed data → sealed (write_slot data i s).
Proof using All.
  intros -> Hok Hf Hi [Hm Hv Hs].
  assert (bread (write_slot data i s) 0 HEADER_SIZE = bread data 0 HEADER_SIZE) as He.
  { rewrite (write_slot_bwrite data (capacity (read_header data))) by done.
    destruct (slot_in_region data (capacity (read_header data)) i Hf Hi) as (? & ? & ?).
    apply bread_bwrite_before; rewrite ?slot_image_zlen; unfold in_region, slot_byte_offset, SLOT_SIZE, HEADER_SIZE in *; lia. }
  destruct (head_ext _ _ He) as [E1 E2]. split; rewrite ?E1, ?E2; [done|done|]. rewrite (read_header_ext _ _ He). by apply sums_slot.
Qed.

Lemma sealed_fill entries : ∀ data cap,
  cap = capacity (read_header data) → table_fits data cap → 0 < cap → Forall slot_ok entries → sealed data →
  sealed (fill_table cap entries data).
Proof using All.
  induction entries as [|s entries IH]; intros data cap He Hf Hc Hok Hs; [done|]. apply Forall_cons in Hok as [Hs1 Hok].
  change (fill_table cap (s :: entries) data) with (fill_table cap entries (write_slot data (place s_state (read_slot data) cap (s_key s)) s)).
  pose proof (place_range s_state (read_slot data) cap (s_key s) Hc) as Hp.
  apply IH; [by rewrite (read_header_slot data cap)| |done|done|by apply (sealed_slot data cap)].
  unfold table_fits in *. by rewrite (write_slot_zlen data cap).
Qed.

Lemma sums_zero data cap : (∀ i, 0 ≤ i < cap → read_slot data i = mk_slot 0 0 0 0) → sums data cap.
Proof using. intros Hz i Hi. apply checksum_dead. by rewrite Hz. Qed.

Lemma table_slots_ok b : blob_wf b → Forall slot_ok (table_slots (key_data b) (capacity (header b))).
Proof using.
  intros Hb. apply Forall_forall. intros s Hs. rewrite table_slots_live in Hs. apply elem_of_live_slots in Hs as (_ & i & Hi & <-).
  by apply (kw_slots _ (bw_keys _ Hb)).
Qed.

Lemma zlen_bzero n : 0 ≤ n → zlen (bzero n) = n.
Proof using. intros. unfold bzero, zlen. rewrite length_replicate. lia. Qed.

Lemma sealed_rehash b b' : blob_wf b → rehash b = Some b' → sealed (key_data b').
Proof using All.
  intros Hb Hr. pose proof (bw_keys _ Hb) as Hk. pose proof (kw_cap _ Hk) as [Hcap _]. pose proof (table_slots_ok b Hb) as Hslots.
  unfold rehash, build_key_table, live, header in *. set (h := read_header (key_data b)) in *. cbv zeta in Hr.
  destruct (table_size_ok (key_data b) Hk) as [_ (U1 & U2 & U3 & U4)]. fold h in U1, U2, U4. cbn [capacity count value_write_pos] in U1, U2, U4.
  set (entries := table_slots _ _) in *. destruct (persistent b).
  - destruct (Z.ltb_spec MAX_MAP (HEADER_SIZE + capacity h * 2 * SLOT_SIZE)) as [|Hmax]; [done|]. injection Hr as <-.
    set (size := HEADER_SIZE + _) in *. assert (zlen (bzero size) = size) as Hz by (apply zlen_bzero; unfold size, HEADER_SIZE, SLOT_SIZE; lia).
    assert (HEADER_SIZE ≤ zlen (bzero size)) as Hroom by (rewrite Hz; unfold size, HEADER_SIZE, SLOT_SIZE; lia).
    set (data0 := write_header (bzero size) _).
    assert (read_header data0 = mk_header (capacity h * 2) (zlen entries) 0 (value_write_pos h)) as Hh0 by (by apply read_write_header).
    assert (∀ i, 0 ≤ i < capacity h * 2 → read_slot (bzero size) i = mk_slot 0 0 0 0) as Hzero.
    { intros i Hi. apply read_slot_zero; [lia|]. apply bread_bzero. rewrite in_region_bzero.
      unfold size, slot_byte_offset, HEADER_SIZE, SLOT_SIZE. lia. }
    cbn [key_data with_key]. assert (sealed data0) as H0' by (apply sealed_header; [done|done|by apply sums_zero]).
    by apply (sealed_fill entries data0 (capacity h * 2)); [rewrite Hh0|unfold table_fits, data0; rewrite write_header_zlen, Hz|lia| |].
  - apply bind_Some in Hr as (k0 & Ee & Hr). apply (inj Some) in Hr. subst b'. cbn [key_data with_key].
    apply ensure_capacity_spec in Ee as (E1 & E2 & size & ->); [|apply Hk|unfold HEADER_SIZE, SLOT_SIZE; lia].
    set (k1 := bwrite _ _ _). set (data0 := write_header k1 _).
    assert (in_region (bgrow (key_data b) size) HEADER_SIZE (zlen (bzero (capacity h * 2 * SLOT_SIZE)))) as Hin.
    { rewrite zlen_bzero by (unfold SLOT_SIZE; lia). unfold in_region, HEADER_SIZE, SLOT_SIZE in *. lia. }
    assert (zlen k1 = zlen (bgrow (key_data b) size)) as Hz1 by (by apply bwrite_length).
    assert (HEADER_SIZE ≤ zlen k1) as Hroom by (rewrite Hz1; unfold HEADER_SIZE, SLOT_SIZE in *; lia).
    assert (read_header data0 = mk_header (capacity h * 2) 0 0 (value_write_pos h)) as Hh0.
    { apply read_write_header; [|done]. split_and!; [done|by unfold u64|by unfold u64|done]. }
    assert (table_fits data0 (capacity h * 2)) as Hf0 by (unfold table_fits, data0, slot_byte_offset; rewrite write_header_zlen, Hz1; done).
    assert (∀ i, 0 ≤ i < capacity h * 2 → read_slot k1 i = mk_slot 0 0 0 0) as Hzero.
    { intros i Hi. apply zeroed_slots; [|done].
      unfold table_fits, slot_byte_offset. lia. }
    pose proof (fill_header entries data0 (capacity h * 2) Hf0 ltac:(lia)) as [F1 F2].
    rewrite F1, Hh0. cbn [capacity tombstone_count value_write_pos]. apply sealed_header.
    + rewrite F2. unfold data0. by rewrite write_header_zlen.
    + split_and!; [done|done|by unfold u64|done].
    + cbn [capacity]. apply sums_fill; [done|lia|done|]. by apply sums_header, sums_zero.
Qed.

Lemma sealed_new l : sealed (key_data (create_with l)).
Proof using.
  cbn [create_with key_data]. unfold init_header.
  assert (zlen (bzero INITIAL_KEY_SIZE) = INITIAL_KEY_SIZE) as Hz by (by apply zlen_bzero).
  apply sealed_header; [by rewrite Hz|split_and!; by unfold u64|]. apply sums_zero. intros i Hi. cbn [capacity] in Hi.
  apply read_slot_zero; [lia|]. apply bread_bzero. rewrite in_region_bzero.
  unfold INITIAL_KEY_SIZE, INITIAL_CAPACITY, slot_byte_offset, HEADER_SIZE, SLOT_SIZE in *. lia.
Qed.

Lemma append_value_u32 blob b b' o l : append_value blob b = Some (b', (o, l)) → l ≤ U32_MAX ∧ l = zlen blob.
Proof using.
  unfold append_value. cbv zeta. intros Ha. apply bind_Some in Ha as (val & _ & Ha). apply bind_Some in Ha as (len & Hlen & Ha).
  unfold u32_len in Hlen. destruct (Z.leb_spec (zlen blob) U32_MAX); [|done]. apply (inj Some) in Hlen. subst len.
  by apply (inj Some), pair_equal_spec in Ha as [_ [= _ <-]].
Qed.

Lemma sealed_append b blob b' o l : blob_wf b → sealed (key_data b) → append_value blob b = Some (b', (o, l)) → sealed (key_data b').
Proof using.
  intros Hb Hs Ha. destruct (append_value_spec b blob b' o l Hb Ha) as (Hw & _ & _ & _ & _ & _ & _ & Hl & Hp & _).
  pose proof (kw_header _ (bw_keys _ Hw)) as (_ & _ & _ & Hu). change (u64 (write_pos b')) in Hu. rewrite Hp in Hu.
  unfold append_value in Ha. cbv zeta in Ha. apply bind_Some in Ha as (val & _ & Ha). apply bind_Some in Ha as (len & Hlen & Ha).
  unfold u32_len in Hlen. destruct (Z.leb_spec (zlen blob) U32_MAX); [|done]. apply (inj Some) in Hlen. subst len.
  apply (inj Some), pair_equal_spec in Ha as [<- Ha]. apply pair_equal_spec in Ha as [<- <-]. cbn [set_header with_key key_data header].
  pose proof (kw_header _ (bw_keys _ Hb)) as (H1' & H2' & H3' & _).
  apply sealed_header; [by apply keys_wf_header_room, Hb|by split_and!|]. cbn [capacity]. apply Hs.
Qed.

Lemma sealed_set_slot b b' key offset len new :
  blob_wf b → sealed (key_data b) → u128 key → 0 ≤ offset → 0 ≤ len < 2 ^ 32 → offset + len ≤ write_pos b →
  set_slot key offset len b = Some (b', new) → sealed (key_data b').
Proof using All.
  intros Hb Hs Hkey Hoff Hlen Hend Hrun.
  pose proof (kw_header _ (bw_keys _ Hb)) as (_ & _ & _ & Hpos). change (u64 (write_pos b)) in Hpos. unfold u64 in Hpos.
  assert (slot_ok (live_slot key offset len)) as Hok.
  { unfold slot_ok, live_slot, STATE_OCCUPIED, u64. cbn [s_state s_key s_offset s_len]. split_and!; (done || lia). }
  unfold set_slot in Hrun. apply bind_Some in Hrun as (b1 & Hb1 & Hrun).
  assert (blob_wf b1 ∧ sealed (key_data b1)) as [Hw1 Hs1].
  { destruct (needs_rehash b); [|injection Hb1 as <-; by split]. split; [by destruct (rehash_spec b b1 Hb Hb1) as (_ & ? & _)|by eapply sealed_rehash]. }
  pose proof (bw_keys _ Hw1) as Hk1. pose proof (kw_cap _ Hk1) as [Hcap _].
  unfold blob_probe, header in Hrun.
  assert (∀ idx found, probe s_state s_key (read_slot (key_data b1)) (capacity (read_header (key_data b1))) key = (idx, found) →
    0 ≤ idx < capacity (read_header (key_data b1))) as Hidx.
  { intros idx found Hp. pose proof (probe_in_range (read_slot (key_data b1)) (capacity (read_header (key_data b1))) key ltac:(lia)) as Hr. by rewrite Hp in Hr. }
  destruct (probe _ _ _ _ _) as [idx found] eqn:Ep. specialize (Hidx _ _ eq_refl).
  apply (inj Some), pair_equal_spec in Hrun as [<- _].
  assert (sealed (write_slot (key_data b1) idx (live_slot key offset len))) as Hs2.
  { apply (sealed_slot _ (capacity (read_header (key_data b1)))); [done|done|apply Hk1|done|done]. }
  destruct found; cbn [with_key set_header add_dead key_data]; [done|].
  rewrite !(read_header_slot _ (capacity (read_header (key_data b1)))) by (done || apply Hk1).
  pose proof (kw_header _ Hk1) as (H1' & H2' & H3' & H4'). pose proof (kw_load _ Hk1). pose proof (table_fits_small _ _ (kw_fits _ Hk1) (kw_max _ Hk1)).
  apply sealed_header.
  - rewrite (write_slot_zlen _ (capacity (read_header (key_data b1)))) by (done || apply Hk1). by apply keys_wf_header_room.
  - unfold header_ok. cbn [capacity count tombstone_count value_write_pos]. unfold u64 in *. split_and!; lia.
  - cbn [capacity]. destruct Hs2 as [_ _ Hs2]. by rewrite (read_header_slot _ (capacity (read_header (key_data b1)))) in Hs2 by (done || apply Hk1).
Qed.

Lemma sealed_remove b key : blob_wf b → sealed (key_data b) → sealed (key_data (remove_key key b)).
Proof using All.
  intros Hb Hs. pose proof (bw_keys _ Hb) as Hk. pose proof (kw_cap _ Hk) as [Hcap _]. unfold remove_key, blob_probe, header.
  pose proof (probe_in_range (read_slot (key_data b)) (capacity (read_header (key_data b))) key ltac:(lia)) as Hidx.
  pose proof (bw_keys _ (proj1 (remove_key_spec b key Hb))) as Hk'. unfold remove_key, blob_probe, header in Hk'.
  destruct (probe _ _ _ _ _) as [idx [|]]; cbn [negb fst] in *; [|done]. cbn [add_dead key_data with_key] in *.
  destruct (put_state_spec (key_data b) (capacity (read_header (key_data b))) idx STATE_TOMBSTONE (kw_fits _ Hk) Hidx) as (Z1 & Z2 & _); [done|].
  pose proof (kw_header _ Hk') as Hok. rewrite Z2 in *.
  assert (HEADER_SIZE ≤ zlen (put_byte (key_data b) (slot_byte_offset idx) STATE_TOMBSTONE)) as Hroom by (rewrite Z1; by apply keys_wf_header_room).
  pose proof (kw_header _ Hk) as (H1' & H2' & H3' & H4').
  destruct (write_header_magic _ (mk_header (capacity (read_header (key_data b))) (count (read_header (key_data b)) - 1)
    (tombstone_count (read_header (key_data b)) + 1) (value_write_pos (read_header (key_data b)))) Hroom) as [M1 M2].
  split; [done|done|]. apply sums_header; [done|].
  assert (capacity (read_header (write_header (put_byte (key_data b) (slot_byte_offset idx) STATE_TOMBSTONE)
    (mk_header (capacity (read_header (key_data b))) (count (read_header (key_data b)) - 1)
       (tombstone_count (read_header (key_data b)) + 1) (value_write_pos (read_header (key_data b)))))) =
    capacity (read_header (key_data b))) as ->.
  { unfold read_header at 1. cbn [capacity]. rewrite write_header_bwrite by done.
    apply (get_field [fU64 MAGIC; fU32 VERSION; fPad 4] 8 (capacity (read_header (key_data b))) _ _ 0 16); [|done|done].
    unfold in_region. cbn. unfold HEADER_SIZE in *. lia. }
  apply sums_state; [apply Hk|done|apply Hs].
Qed.
End sealed.

(** ** Opening after a crash *)

(** How many of the first [n] slots satisfy a test. *)
Definition tally (P : Z → bool) (n : Z) : Z := zlen (filter (λ i, P i = true) (seqZ 0 n)).

Lemma tally_next P n : 0 ≤ n → tally P (n + 1) = tally P n + (if P n then 1 else 0).
Proof.
  intros Hn. unfold tally. rewrite seqZ_app, filter_app, zlen_app by lia. f_equal.
  rewrite seqZ_cons by lia. rewrite seqZ_nil by lia. rewrite filter_cons, filter_nil, Z.add_0_l.
  destruct (P n) eqn:E; [by rewrite decide_True|by rewrite decide_False by done].
Qed.

Lemma zlen_filter_map {A B} (f : A → B) (P : B → Prop) `{!∀ x, Decision (P x)} l : zlen (filter P (f <$> l)) = zlen (filter (λ x, P (f x)) l).
Proof.
  induction l as [|x l IH]; [done|]. rewrite fmap_cons, !filter_cons. case_decide; rewrite ?zlen_cons, IH; done.
Qed.

(** The slots counted as live or as tombstones are all that are not empty. *)
Lemma tally_used (P : Z → Slot) n :
  (∀ i, 0 ≤ i < n → 0 ≤ s_state (P i) ≤ 2) → 0 ≤ n →
  used s_state P n = tally (λ j, s_state (P j) =? STATE_OCCUPIED) n + tally (λ j, s_state (P j) =? STATE_TOMBSTONE) n.
Proof.
  intros Hst Hn. unfold used, tally.
  assert (∀ l, (∀ i, i ∈ l → 0 ≤ s_state (P i) ≤ 2) →
    zlen (filter (λ i, s_state (P i) ≠ STATE_EMPTY) l) =
    zlen (filter (λ i, (s_state (P i) =? STATE_OCCUPIED) = true) l) + zlen (filter (λ i, (s_state (P i) =? STATE_TOMBSTONE) = true) l)) as Hl.
  { induction l as [|i l IH]; intros Hs; [done|]. specialize (Hs i ltac:(left)) as Hi. rewrite !filter_cons.
    specialize (IH ltac:(intros; apply Hs; by right)). unfold STATE_EMPTY, STATE_OCCUPIED, STATE_TOMBSTONE in *.
    destruct (Z.eqb_spec (s_state (P i)) 1), (Z.eqb_spec (s_state (P i)) 2); repeat case_decide; try done; rewrite ?zlen_cons; lia. }
  apply Hl. intros i Hi. apply elem_of_seqZ in Hi. apply Hst. lia.
Qed.

Section repairs.
Context `{CrcLaws}.

(** A slot's blob is a directory whose containers the file holds. *)
Definition blob_readable (b : BlobStore) (s : Slot) : Prop :=
  match layout b with
  | Flat => True
  | Directory => ∃ es, decode_dir (bread (val_data b) (s_offset s) (s_len s)) = Ok es ∧
      Forall (λ e, 0 ≤ d_offset e ∧ 0 ≤ d_len e ∧ d_offset e + d_len e ≤ write_pos b) es
  end.
Definition blobs_readable (b : BlobStore) : Prop := ∀ k s, blob_map b !! k = Some s → blob_readable b s.

Definition slot_torn (torn : gset Z) (s : Slot) : bool := (s_state s =? STATE_OCCUPIED) && bool_decide (s_key s ∈ torn).

(** The key file of store [b] after a crash: the slots of the keys in [torn] were being
    written and hold a mix of bytes that fails its checksum; the header may be stale. *)
Record torn_file (b : BlobStore) (torn : gset Z) (key : region) : Prop := {
  tf_len : zlen key = zlen (key_data b);
  tf_magic : get_le key 0 8 = MAGIC;
  tf_version : get_le key 8 4 = VERSION;
  tf_cap : capacity (read_header key) = capacity (header b);
  tf_pos : u64 (value_write_pos (read_header key));
  tf_same i : 0 ≤ i < capacity (header b) → slot_torn torn (read_slot (key_data b) i) = false →
    bread key (slot_byte_offset i) SLOT_SIZE = bread (key_data b) (slot_byte_offset i) SLOT_SIZE;
  tf_torn i : 0 ≤ i < capacity (header b) → slot_torn torn (read_slot (key_data b) i) = true →
    slot_ok (read_slot key i) ∧ s_state (read_slot key i) = STATE_OCCUPIED ∧ slot_checksum_ok key i = false;
}.

Variables (b : BlobStore) (torn : gset Z) (key : region).
Hypotheses (Hwf : blob_wf b) (Hseal : sealed (key_data b)) (Hread : blobs_readable b) (Hfile : torn_file b torn key).

Let cap := capacity (header b).
(** The slots after the repair. *)
Let masked (i : Z) : Slot :=
  if slot_torn torn (read_slot (key_data b) i)
  then let s := read_slot key i in mk_slot STATE_TOMBSTONE (s_key s) (s_offset s) (s_len s)
  else read_slot (key_data b) i.

Lemma dir_end_bounded es m w :
  m ≤ w → w ≤ zlen (val_data b) → w < 2 ^ 64 → Forall (λ e, 0 ≤ d_offset e ∧ 0 ≤ d_len e ∧ d_offset e + d_len e ≤ w) es →
  ∃ m', dir_end (zlen (val_data b)) m es = Some m' ∧ m ≤ m' ≤ w.
Proof using.
  revert m. induction es as [|e es IH]; intros m Hm Hw Hu Hes; [by exists m|]. apply Forall_cons in Hes as [(? & ? & ?) Hes].
  cbn [dir_end]. unfold checked_add. rewrite (proj2 (Z.ltb_lt _ _)) by lia. cbn [mbind option_bind]. rewrite (proj2 (Z.leb_le _ _)) by lia.
  destruct (IH (Z.max m (d_offset e + d_len e))) as (m' & -> & ?); [lia|done..|]. exists m'. split; [done|lia].
Qed.

Lemma slot_end_live i :
  0 ≤ i < cap → s_state (read_slot (key_data b) i) = STATE_OCCUPIED →
  let s := read_slot (key_data b) i in
  ∃ e, slot_end (val_data b) (layout b) true s = Some e ∧ s_offset s + s_len s ≤ e ≤ write_pos b.
Proof using Hwf Hread.
  intros Hi Ho. cbv zeta. set (s := read_slot (key_data b) i) in *. pose proof Hwf as [Hk Hp Hm Hl].
  assert (blob_map b !! s_key s = Some s) as Hs.
  { unfold blob_map, keys_map. apply table_map_lookup; [apply Hk|]. split; [|by exists i].
    apply occupied_by_iff. split; [by unfold occupied; rewrite Ho|done]. }
  specialize (Hl _ _ Hs) as Hend. destruct (kw_slots _ Hk i Hi) as (_ & _ & Hoff & Hlen). fold s in Hoff, Hlen.
  unfold u64, MAX_MAP in *. unfold slot_end, checked_add. rewrite (proj2 (Z.ltb_lt _ _)) by lia. cbn [mbind option_bind andb].
  rewrite (proj2 (Z.leb_le _ _)) by lia. specialize (Hread _ _ Hs). unfold blob_readable in Hread.
  destruct (layout b); [eexists; split; [done|lia]|]. destruct Hread as (es & Hd & Hes).
  replace (s_offset s + s_len s - s_offset s) with (s_len s) by lia. rewrite Hd.
  destruct (dir_end_bounded es (s_offset s + s_len s) (write_pos b)) as (e & He & ?); [lia|done|lia|done|].
  exists e. split; [done|lia].
Qed.

Record repaired (n : Z) (r : Repair) : Prop := {
  rp_len : zlen (r_key r) = zlen key;
  rp_header : read_header (r_key r) = read_header key;
  rp_done j : 0 ≤ j < n → read_slot (r_key r) j = masked j;
  rp_todo j : n ≤ j < cap → bread (r_key r) (slot_byte_offset j) SLOT_SIZE = bread key (slot_byte_offset j) SLOT_SIZE;
  rp_live : r_live r = tally (λ j, s_state (masked j) =? STATE_OCCUPIED) n;
  rp_tombs : r_tombs r = tally (λ j, s_state (masked j) =? STATE_TOMBSTONE) n;
  rp_damaged : r_damaged r = tally (λ j, slot_torn torn (read_slot (key_data b) j)) n;
  rp_max : 0 ≤ r_max_end r ≤ write_pos b;
  rp_sums : sums (r_key r) n;
  rp_ends j : 0 ≤ j < n → s_state (masked j) = STATE_OCCUPIED → s_offset (masked j) + s_len (masked j) ≤ r_max_end r;
}.

Lemma repair_step n r :
  0 ≤ n < cap → repaired n r → repaired (n + 1) (repair_slot (val_data b) (layout b) r n).
Proof using Hwf Hseal Hread Hfile.
  intros Hn [R1 R2 R3 R4 R5 R6 R7 R8 R10 R9]. pose proof (kw_fits _ (bw_keys _ Hwf)) as Hfit. fold (header b) in Hfit. fold cap in Hfit.
  pose proof (kw_slots _ (bw_keys _ Hwf)) as Hslots. fold (header b) in Hslots. fold cap in Hslots.
  assert (table_fits (r_key r) cap) as Hfit' by (unfold table_fits in *; by rewrite R1, (tf_len _ _ _ Hfile)).
  assert (read_slot (r_key r) n = read_slot key n) as Hs by (apply read_slot_ext; [apply R4; lia|lia]).
  assert (slot_checksum_ok (r_key r) n = slot_checksum_ok key n) as Hck by (apply checksum_ext; [apply R4; lia|lia]).
  unfold repair_slot. cbv zeta. rewrite Hs, Hck.
  assert (∀ j, 0 ≤ j < n + 1 → j ≠ n → 0 ≤ j < n) as Hlt by lia.
  pose proof (tally_next (λ j, s_state (masked j) =? STATE_OCCUPIED) n ltac:(lia)) as T1.
  pose proof (tally_next (λ j, s_state (masked j) =? STATE_TOMBSTONE) n ltac:(lia)) as T2.
  pose proof (tally_next (λ j, slot_torn torn (read_slot (key_data b) j)) n ltac:(lia)) as T3.
  cbv beta in T1, T2, T3. destruct (slot_torn torn (read_slot (key_data b) n)) eqn:Et.
  - destruct (tf_torn _ _ _ Hfile n Hn Et) as (Hok & Ho & Hbad). rewrite Ho, Hbad. cbn [Z.eqb STATE_OCCUPIED Pos.eqb].
    assert (slot_end (val_data b) (layout b) false (read_slot key n) = None) as ->.
    { unfold slot_end. by destruct (checked_add _ _). }
    destruct (put_state_spec (r_key r) cap n STATE_TOMBSTONE Hfit' Hn) as (P1 & P2 & P3 & P4); [done|].
    destruct (put_state_fields (r_key r) cap n STATE_TOMBSTONE Hfit' Hn) as (P5 & P6 & P7). rewrite Hs in P5, P6, P7.
    assert (s_state (masked n) = STATE_TOMBSTONE) as Hmt by (unfold masked; by rewrite Et).
    rewrite Hmt in T1, T2. cbn in T1, T2.
    split; cbn [r_key r_live r_tombs r_damaged r_max_end]; [by rewrite P1|by rewrite P2| | |lia|lia|lia|done| |].
    + intros j Hj. destruct (Z.eq_dec j n) as [->|Hne].
      * unfold masked. rewrite Et. cbv zeta. rewrite <-P5, <-P6, <-P7. clear -P3. revert P3. destruct (read_slot (put_byte _ _ _) n). cbn. by intros ->.
      * rewrite P4 by lia. apply R3. lia.
    + intros j Hj. rewrite <-R4 by lia. unfold put_byte. destruct (slot_in_region (r_key r) cap n Hfit' Hn) as (? & ? & ?).
      apply bread_bwrite_disjoint; unfold in_region, slot_byte_offset, HEADER_SIZE, SLOT_SIZE, zlen in *; cbn [length] in *; lia.
    + intros j Hj. rewrite (checksum_state (r_key r) cap) by (done || lia). case_decide; [done|]. apply R10. lia.
    + intros j Hj. destruct (Z.eq_dec j n) as [->|Hne]; [unfold masked; by rewrite Et|]. apply R9. lia.
  - assert (read_slot key n = read_slot (key_data b) n) as Hs2 by (apply read_slot_ext; [by apply (tf_same _ _ _ Hfile)|lia]).
    assert (slot_checksum_ok key n = true) as Hkn.
    { rewrite (checksum_ext (key_data b)); [by apply (sl_sums _ Hseal)|by apply (tf_same _ _ _ Hfile)|lia]. }
    assert (masked n = read_slot (key_data b) n) as Hmn by (unfold masked; by rewrite Et).
    rewrite Hkn in *. rewrite Hs2. rewrite <-Hs2, <-Hs in Hmn.
    assert (∀ j, 0 ≤ j < n + 1 → read_slot (r_key r) j = masked j) as Hdone.
    { intros j Hj. destruct (Z.eq_dec j n) as [->|Hne]; [done|]. apply R3. lia. }
    assert (sums (r_key r) (n + 1)) as Hsums.
    { intros j Hj. destruct (Z.eq_dec j n) as [->|Hne]; [done|]. apply R10. lia. }
    assert (masked n = read_slot (key_data b) n) as Hmn' by congruence. rewrite Hmn' in T1, T2.
    destruct (Z.eqb_spec (s_state (read_slot (key_data b) n)) STATE_OCCUPIED) as [Ho|Ho].
    + destruct (slot_end_live n Hn Ho) as (e & He & Hb). cbv zeta in Hb. rewrite He. rewrite Ho in T2. cbn in T2.
      split; cbn [r_key r_live r_tombs r_damaged r_max_end]; [done|done|done| |lia|lia|lia|lia|done|].
      * intros j Hj. apply R4. lia.
      * intros j Hj Hjo. destruct (Z.eq_dec j n) as [->|Hne]; [rewrite Hmn'; lia|]. specialize (R9 j ltac:(lia) Hjo). lia.
    + destruct (Z.eqb_spec (s_state (read_slot (key_data b) n)) STATE_TOMBSTONE) as [Hd|Hd].
      * split; cbn [r_key r_live r_tombs r_damaged r_max_end]; [done|done|done| |lia|lia|lia|lia|done|].
        { intros j Hj. apply R4. lia. }
        intros j Hj Hjo. destruct (Z.eq_dec j n) as [->|Hne]; [rewrite Hmn' in Hjo; congruence|]. apply R9; [lia|done].
      * split; [done|done|done| |lia|lia|lia|lia|done|].
        { intros j Hj. apply R4. lia. }
        intros j Hj Hjo. destruct (Z.eq_dec j n) as [->|Hne]; [rewrite Hmn' in Hjo; congruence|]. apply R9; [lia|done].
Qed.

Lemma repair_all n : 0 ≤ n ≤ cap → repaired n (foldl (repair_slot (val_data b) (layout b)) (mk_repair key 0 0 0 0) (seqZ 0 n)).
Proof using Hwf Hseal Hread Hfile.
  intros Hn. rewrite <-(Z2Nat.id n) in Hn |- * by lia. induction (Z.to_nat n) as [|k IH].
  { pose proof (kw_header _ (bw_keys _ Hwf)) as (_ & _ & _ & Hpos). change (u64 (write_pos b)) in Hpos. unfold u64 in Hpos.
    change (seqZ 0 (Z.of_nat 0)) with (@nil Z). cbn [foldl].
    split; cbn [r_key r_live r_tombs r_damaged r_max_end]; try done; unfold sums; intros; lia. }
  rewrite Nat2Z.inj_succ in *. unfold Z.succ. rewrite seqZ_app by lia. rewrite foldl_app, (seqZ_cons (0 + _)) by lia.
  rewrite (seqZ_nil (Z.succ _)) by lia. cbn [foldl]. rewrite Z.add_0_l. apply repair_step; [lia|]. apply IH. lia.
Qed.

Lemma masked_live i : s_state (masked i) = STATE_OCCUPIED → masked i = read_slot (key_data b) i ∧ s_key (read_slot (key_data b) i) ∉ torn.
Proof using.
  unfold masked. destruct (slot_torn torn (read_slot (key_data b) i)) eqn:E; [done|]. intros Ho. split; [done|].
  unfold slot_torn in E. rewrite Ho in E. by apply bool_decide_eq_false in E.
Qed.

Lemma masked_used i : s_state (masked i) = STATE_EMPTY → s_state (read_slot (key_data b) i) = STATE_EMPTY.
Proof using. unfold masked. by destruct (slot_torn _ _). Qed.

Lemma masked_wf : table_wf s_state s_key masked cap.
Proof using Hwf.
  destruct (kw_table _ (bw_keys _ Hwf)) as [Hc Hp Hu]. fold (header b) in Hc, Hp, Hu. fold cap in Hc, Hp, Hu. split; [done| |].
  - intros j Hj Ho d Hd He. apply Z.eqb_eq in Ho. destruct (masked_live j Ho) as [Hm _]. rewrite Hm in Hd, He. apply masked_used in He.
    refine (Hp j Hj _ d Hd He). unfold occupied. rewrite <-Hm. by apply Z.eqb_eq.
  - intros i j Hi Hj Hoi Hoj Hk. apply Z.eqb_eq in Hoi, Hoj. destruct (masked_live i Hoi) as [Ei _]. destruct (masked_live j Hoj) as [Ej _].
    apply Hu; [done|done|unfold occupied; rewrite <-Ei; by apply Z.eqb_eq|unfold occupied; rewrite <-Ej; by apply Z.eqb_eq|congruence].
Qed.

Lemma masked_map : table_map s_state s_key masked cap = filter (λ p : Z * Slot, p.1 ∉ torn) (blob_map b).
Proof using Hwf.
  pose proof (kw_table _ (bw_keys _ Hwf)) as Ht. fold (header b) in Ht. fold cap in Ht.
  apply map_eq. intros k. apply option_eq. intros s. rewrite table_map_lookup by apply masked_wf.
  rewrite map_lookup_filter_Some. cbn [fst]. change (blob_map b) with (table_map s_state s_key (read_slot (key_data b)) cap).
  rewrite table_map_lookup by done. rewrite occupied_by_iff. unfold occupied. rewrite Z.eqb_eq. split.
  - intros ([Ho Hk] & i & Hi & <-). destruct (masked_live i Ho) as [Hm Hnt]. rewrite <-Hk, Hm. split; [|done].
    rewrite <-Hm at 1. split; [done|]. by exists i.
  - intros ([[Ho Hk] (i & Hi & <-)] & Hnt). split; [done|]. exists i. split; [done|]. unfold masked, slot_torn. rewrite Hk.
    rewrite bool_decide_false by done. by rewrite andb_false_r.
Qed.

(** Every live slot is either kept or damaged. *)
Lemma tally_split n : 0 ≤ n →
  tally (λ j, s_state (read_slot (key_data b) j) =? STATE_OCCUPIED) n =
  tally (λ j, s_state (masked j) =? STATE_OCCUPIED) n + tally (λ j, slot_torn torn (read_slot (key_data b) j)) n.
Proof using.
  intros Hn. rewrite <-(Z2Nat.id n) by done. induction (Z.to_nat n) as [|k IH]; [done|].
  rewrite Nat2Z.inj_succ. unfold Z.succ. rewrite !tally_next by lia. rewrite IH. cbv beta.
  assert (s_state (masked (Z.of_nat k)) = if slot_torn torn (read_slot (key_data b) (Z.of_nat k)) then STATE_TOMBSTONE
    else s_state (read_slot (key_data b) (Z.of_nat k))) as -> by (unfold masked; by destruct (slot_torn _ _)).
  destruct (slot_torn torn (read_slot (key_data b) (Z.of_nat k))) eqn:E.
  - assert (s_state (read_slot (key_data b) (Z.of_nat k)) =? STATE_OCCUPIED = true) as -> by (unfold slot_torn in E; by apply andb_true_iff in E as [? _]).
    change (STATE_TOMBSTONE =? STATE_OCCUPIED) with false. cbv iota. lia.
  - lia.
Qed.

Lemma live_tally (c : BlobStore) : blob_wf c → count (header c) = tally (λ j, s_state (read_slot (key_data c) j) =? STATE_OCCUPIED) (capacity (header c)).
Proof using.
  intros Hc. pose proof (kw_count _ (bw_keys _ Hc)) as Hn. unfold keys_map in Hn. rewrite table_map_size in Hn by apply (bw_keys _ Hc).
  unfold header. rewrite Hn. unfold live_slots. by rewrite zlen_filter_map.
Qed.

Lemma repair_reopens :
  let b' := repair_at_open (mk_blob key (val_data b) true 0 0 (layout b)) in
  blob_wf b' ∧ blob_map b' = filter (λ p : Z * Slot, p.1 ∉ torn) (blob_map b) ∧
  val_data b' = val_data b ∧ layout b' = layout b ∧ persistent b' = true ∧
  damaged_at_open b' = count (header b) - count (header b') ∧
  write_pos b' = Z.max (Z.min (value_write_pos (read_header key)) (zlen (val_data b))) 
    (r_max_end (foldl (repair_slot (val_data b) (layout b)) (mk_repair key 0 0 0 0) (seqZ 0 cap))) ∧
  r_max_end (foldl (repair_slot (val_data b) (layout b)) (mk_repair key 0 0 0 0) (seqZ 0 cap)) ≤ write_pos b ∧
  sealed (key_data b').
Proof using All.
  cbv zeta. pose proof (bw_keys _ Hwf) as Hk. pose proof (kw_cap _ Hk) as [Hcap Hpow]. fold (header b) in Hcap, Hpow. fold cap in Hcap, Hpow.
  pose proof (kw_fits _ Hk) as Hfit. fold (header b) in Hfit. fold cap in Hfit.
  assert (cap < 2 ^ 62) as Hsmall by (apply (table_fits_small (key_data b)); [done|apply Hk]).
  unfold repair_at_open, header. cbn [key_data val_data layout persistent dead_bytes]. rewrite (tf_cap _ _ _ Hfile). fold cap.
  destruct (repair_all cap ltac:(lia)) as [R1 R2 R3 R4 R5 R6 R7 R8 R10 R9].
  set (r := foldl (repair_slot (val_data b) (layout b)) (mk_repair key 0 0 0 0) (seqZ 0 cap)) in *. clearbody r.
  rewrite R2, (tf_cap _ _ _ Hfile). fold cap. set (w := Z.max (Z.min (value_write_pos (read_header key)) (zlen (val_data b))) (r_max_end r)).
  set (h' := mk_header cap (r_live r) (r_tombs r) w).
  assert (∀ i, 0 ≤ i < cap → slot_ok (masked i)) as Hok.
  { intros i Hi. unfold masked. destruct (slot_torn torn (read_slot (key_data b) i)) eqn:E; [|by apply (kw_slots _ Hk)].
    destruct (tf_torn _ _ _ Hfile i Hi E) as ((_ & ? & ? & ?) & _). unfold slot_ok, STATE_TOMBSTONE. cbn [s_state s_key s_offset s_len]. done. }
  pose proof (tally_used masked cap (λ i Hi, proj1 (Hok i Hi)) ltac:(lia)) as Hused. rewrite <-R5, <-R6 in Hused.
  pose proof (used_bounds s_state masked cap ltac:(lia)) as Hub.
  assert (0 ≤ r_live r ∧ 0 ≤ r_tombs r) as [Hl0 Ht0] by (rewrite R5, R6; split; apply zlen_nonneg).
  pose proof (kw_header _ Hk) as (_ & _ & _ & Hpos). change (u64 (write_pos b)) in Hpos.
  pose proof (bw_pos _ Hwf) as Hbp. pose proof (bw_max _ Hwf) as Hbm. pose proof (tf_pos _ _ _ Hfile) as Hkp.
  assert (0 ≤ w ≤ zlen (val_data b)) as Hw by (unfold w, u64 in *; lia).
  assert (HEADER_SIZE ≤ zlen (r_key r)) as Hroom by (rewrite R1, (tf_len _ _ _ Hfile); by apply keys_wf_header_room).
  assert (header_ok h') as Hh' by (unfold h', header_ok; cbn [capacity count tombstone_count value_write_pos]; unfold u64, MAX_MAP in *; lia).
  assert (read_header (write_header (r_key r) h') = h') as Hrh by (by apply read_write_header).
  assert (∀ i, 0 ≤ i < cap → read_slot (write_header (r_key r) h') i = masked i) as Hslots.
  { intros i Hi. rewrite read_slot_header by (done || lia). by apply R3. }
  assert (keys_map (write_header (r_key r) h') = filter (λ p : Z * Slot, p.1 ∉ torn) (blob_map b)) as Hmap.
  { unfold keys_map. rewrite Hrh. cbn [capacity h']. rewrite (table_ext _ _ masked) by done. apply masked_map. }
  assert (keys_wf (write_header (r_key r) h')) as Hkw.
  { split; rewrite ?Hrh, ?write_header_zlen, ?R1, ?(tf_len _ _ _ Hfile) by done; cbn [capacity count tombstone_count value_write_pos h'];
      try done; try (by apply Hk).
    - unfold table_fits in *. by rewrite write_header_zlen, R1, (tf_len _ _ _ Hfile).
    - apply (table_wf_ext _ _ masked); [done|]. apply masked_wf.
    - intros i Hi. try fold h'. rewrite Hslots by done. by apply Hok.
    - fold h'. rewrite Hmap, <-masked_map, table_map_size by apply masked_wf. unfold live_slots. rewrite zlen_filter_map, R5. reflexivity.
    - try fold h'. rewrite (used_ext _ masked) by done. lia.
    - lia. }
  split; [|split; [done|split; [done|split; [done|split; [done|split; [|split]]]]]].
  - split; cbn [key_data val_data]; [done|unfold write_pos, header; cbn [key_data]; rewrite Hrh; apply Hw|done|].
    intros k s Hs. change (keys_map (write_header (r_key r) h') !! k = Some s) in Hs. unfold write_pos, header. cbn [key_data].
    rewrite Hrh. cbn [value_write_pos h']. rewrite Hmap, <-masked_map in Hs. apply table_map_lookup in Hs as [Ho (i & Hi & <-)]; [|apply masked_wf].
    apply occupied_by_iff in Ho as [Ho _]. apply Z.eqb_eq in Ho. specialize (R9 i Hi Ho). unfold w. lia.
  - cbn [damaged_at_open header key_data]. unfold header. cbn [key_data]. rewrite Hrh. cbn [count h'].
    fold (header b). rewrite (live_tally b Hwf). fold cap. rewrite tally_split by lia. lia.
  - unfold write_pos, header. cbn [key_data]. by rewrite Hrh.
  - split; [lia|]. by apply sealed_header.
Qed.

End repairs.

Lemma open_validates key val_len :
  HEADER_SIZE ≤ zlen key → get_le key 0 8 = MAGIC → get_le key 8 4 = VERSION →
  (∃ k, 0 ≤ k ∧ capacity (read_header key) = 2 ^ k) → table_fits key (capacity (read_header key)) → zlen key ≤ MAX_MAP →
  validate_open key val_len = Ok ().
Proof.
  intros Hl Hm Hv (k & Hk & Hc) Hf Hx. unfold validate_open. rewrite (proj2 (Z.ltb_ge _ _)) by done. rewrite Hm, Hv, !Z.eqb_refl. cbn [negb].
  assert (0 < capacity (read_header key)) by (rewrite Hc; lia). rewrite (proj2 (Z.eqb_neq _ _)) by lia.
  assert (is_power_of_two (capacity (read_header key)) = true) as ->.
  { unfold is_power_of_two. rewrite (proj2 (Z.ltb_lt _ _)) by done. rewrite Hc, Z.log2_pow2 by done. apply Z.eqb_refl. }
  cbn [orb negb]. unfold table_fits, slot_byte_offset, HEADER_SIZE, SLOT_SIZE, MAX_MAP, checked_mul, checked_add in *.
  rewrite (proj2 (Z.ltb_lt _ _)) by lia. cbn [mbind option_bind]. rewrite (proj2 (Z.ltb_lt _ _)) by lia.
  by rewrite (proj2 (Z.ltb_ge _ _)) by lia.
Qed.

Lemma open_torn `{CrcLaws} (b : BlobStore) (torn : gset Z) (key : region) :
  blob_wf b → sealed (key_data b) → blobs_readable b → torn_file b torn key → 0 < zlen (val_data b) →
  ∃ b', open_with (layout b) key (val_data b) = Ok b' ∧ blob_wf b' ∧ sealed (key_data b') ∧
    blob_map b' = filter (λ p : Z * Slot, p.1 ∉ torn) (blob_map b) ∧
    val_data b' = val_data b ∧ layout b' = layout b ∧ persistent b' = true ∧
    damaged_at_open b' = count (header b) - count (header b') ∧
    (value_write_pos (read_header key) = write_pos b → write_pos b' = write_pos b).
Proof.
  intros Hwf Hseal Hread Hfile Hval. destruct (repair_reopens b torn key Hwf Hseal Hread Hfile) as (R1 & R2 & R3 & R4 & R5 & R6 & R7 & R8 & R9).
  pose proof (tf_len _ _ _ Hfile) as Hlen. pose proof (keys_wf_header_room _ (bw_keys _ Hwf)) as Hroom. pose proof (kw_cap _ (bw_keys _ Hwf)) as [_ Hpow].
  unfold open_with, open_file. rewrite !(proj2 (Z.eqb_neq _ _)) by (unfold HEADER_SIZE in *; lia).
  rewrite open_validates.
  - cbn [result_bind]. set (b1 := repair_at_open _) in *. eexists. split; [done|]. split; [by destruct R1|].
    do 6 (split; [done|]). intros Hp. rewrite <-(Z.min_l (write_pos b) (zlen (val_data b))) by apply Hwf.
    change (write_pos (mk_blob _ _ _ _ _ _)) with (write_pos b1). rewrite R7, Hp. pose proof (bw_pos _ Hwf). lia.
  - lia.
  - apply Hfile.
  - apply Hfile.
  - rewrite (tf_cap _ _ _ Hfile). exact Hpow.
  - rewrite (tf_cap _ _ _ Hfile). unfold table_fits. rewrite Hlen. apply (kw_fits _ (bw_keys _ Hwf)).
  - rewrite Hlen. apply (kw_max _ (bw_keys _ Hwf)).
Qed.

(** C17: opening the files a crash left behind, some slots torn and the header stale,
    succeeds with a well-formed store that has lost exactly the torn entries: every
    other key reads the blob it read before, no new append can overwrite it, and the
    entries lost are counted. *)
Theorem open_repairs `{CrcLaws} (b : BlobStore) (torn : gset Z) (key : region) :
  blob_wf b → sealed (key_data b) → blobs_readable b → torn_file b torn key → 0 < zlen (val_data b) →
  ∃ b', open_with (layout b) key (val_data b) = Ok b' ∧ blob_wf b' ∧ sealed (key_data b') ∧
    (∀ k, get_ref b' k = if decide (k ∈ torn) then None else get_ref b k) ∧
    (∀ k s, blob_map b' !! k = Some s → s_offset s + s_len s ≤ write_pos b') ∧
    damaged_at_open b' = count (header b) - count (header b').
Proof.
  intros Hwf Hseal Hread Hfile Hval. destruct (open_torn b torn key Hwf Hseal Hread Hfile Hval) as (b' & Ho & R1 & Rs & R2 & R3 & _ & _ & R6 & _).
  exists b'. split; [done|]. split; [done|]. split; [done|]. split; [|split; [apply R1|done]].
  intros k. rewrite !get_ref_spec by done. rewrite R2. case_decide as Hin.
  - rewrite (proj2 (map_lookup_filter_None _ _ _)); [done|]. right. intros s _. cbn. by intros [].
  - destruct (blob_map b !! k) as [s|] eqn:E.
    2:{ rewrite (proj2 (map_lookup_filter_None _ _ _)); [done|by left]. }
    rewrite (proj2 (map_lookup_filter_Some _ _ _ s)) by done. cbn [mbind option_bind]. by apply value_slice_val.
Qed.

(** Opening the files of a store that was closed in peace. *)
Lemma open_clean `{CrcLaws} (b : BlobStore) :
  blob_wf b → sealed (key_data b) → blobs_readable b → 0 < zlen (val_data b) →
  ∃ b', open_with (layout b) (key_data b) (val_data b) = Ok b' ∧ blob_wf b' ∧ sealed (key_data b') ∧
    blob_map b' = blob_map b ∧ val_data b' = val_data b ∧ layout b' = layout b ∧ persistent b' = true ∧
    damaged_at_open b' = 0 ∧ write_pos b' = write_pos b.
Proof.
  intros Hwf Hseal Hread Hval. assert (torn_file b ∅ (key_data b)) as Hfile.
  { pose proof (kw_header _ (bw_keys _ Hwf)) as (_ & _ & _ & ?). split; try done; [apply Hseal|apply Hseal|].
    intros i _. unfold slot_torn. rewrite bool_decide_false by set_solver. by rewrite andb_false_r. }
  destruct (open_torn b ∅ (key_data b) Hwf Hseal Hread Hfile Hval) as (b' & Ho & R1 & Rs & R2 & R3 & R4 & R5 & R6 & R7).
  assert (blob_map b' = blob_map b) as Hm by (rewrite R2; apply map_filter_id; intros k s _; set_solver).
  exists b'. split; [done|]. do 6 (split; [done|]). split; [|by apply R7].
  pose proof (kw_count _ (bw_keys _ R1)) as C1. pose proof (kw_count _ (bw_keys _ Hwf)) as C2.
  change (count (header b') = Z.of_nat (size (blob_map b'))) in C1. change (count (header b) = Z.of_nat (size (blob_map b))) in C2.
  rewrite R6, C1, C2, Hm. lia.
Qed.

#[local] Existing Instance sum_crc.
#[local] Existing Instance sum_crc_laws.

(** A store of two entries, and its files after a crash that tore the second slot and
    left the header of the empty store. *)
Definition two_entries : option BlobStore :=
  '(b, (o, l)) ← append_value [1; 2; 3] (create_with Flat);
  '(b, _) ← set_slot 5 o l b;
  '(b, (o, l)) ← append_value [4] b;
  '(b, _) ← set_slot 9 o l b;
  Some b.
Definition tear (b : BlobStore) (key : Z) : region :=
  write_header (put_byte (key_data b) (slot_byte_offset (blob_probe b key).1 + 36) 255) (mk_header 16 0 0 0).

Lemma two_entries_wf b : two_entries = Some b → blob_wf b ∧ sealed (key_data b) ∧ layout b = Flat.
Proof.
  unfold two_entries. intros H1. apply bind_Some in H1 as ([b1 [o1 l1]] & Ha1 & H1). apply bind_Some in H1 as ([b2 n2] & Hs2 & H1).
  apply bind_Some in H1 as ([b3 [o3 l3]] & Ha3 & H1). apply bind_Some in H1 as ([b4 n4] & Hs4 & H1). apply (inj Some) in H1. subst b4.
  destruct (new_store_wf (create_with Flat) Flat) as [W0 _]; [by right|]. pose proof (sealed_new Flat) as S0.
  assert (∀ b0 blob b' o l key b'' n, blob_wf b0 → sealed (key_data b0) → layout b0 = Flat → u128 key →
    append_value blob b0 = Some (b', (o, l)) → set_slot key o l b' = Some (b'', n) →
    blob_wf b'' ∧ sealed (key_data b'') ∧ layout b'' = Flat) as Hput.
  { intros b0 blob b' o l key b'' n W S L Hk Ha Hs. destruct (append_value_u32 _ _ _ _ _ Ha) as [Hl Hl'].
    destruct (append_value_spec b0 blob b' o l W Ha) as (W' & _ & _ & L' & _ & Ho & _ & _ & Hp & _). subst l.
    pose proof (kw_header _ (bw_keys _ W)) as (_ & _ & _ & Hpos). change (u64 (write_pos b0)) in Hpos. unfold u64 in Hpos.
    pose proof (zlen_nonneg blob). pose proof (sealed_append _ _ _ _ _ W S Ha) as S'. unfold U32_MAX in Hl.
    destruct (set_slot_spec b' b'' key o (zlen blob) n W' Hk) as (W'' & _ & (_ & _ & L'' & _) & _); [lia|lia|lia|done|].
    split; [done|]. split; [|congruence]. eapply sealed_set_slot; [exact W'|exact S'|exact Hk| | | |exact Hs]; lia. }
  destruct (Hput _ _ _ _ _ 5 _ _ W0 S0 eq_refl ltac:(by unfold u128) Ha1 Hs2) as (W2 & S2 & L2).
  exact (Hput _ _ _ _ _ 9 _ _ W2 S2 L2 ltac:(by unfold u128) Ha3 Hs4).
Qed.

Lemma two_entries_torn b : two_entries = Some b → torn_file b {[9]} (tear b 9).
Proof.
  intros Hb.
  assert (match two_entries with
    | Some b => bool_decide (zlen (tear b 9) = zlen (key_data b) ∧ get_le (tear b 9) 0 8 = MAGIC ∧ get_le (tear b 9) 8 4 = VERSION ∧
        capacity (read_header (tear b 9)) = capacity (header b) ∧ u64 (value_write_pos (read_header (tear b 9)))) &&
        forallb (λ i, if slot_torn {[9]} (read_slot (key_data b) i)
          then bool_decide (slot_ok (read_slot (tear b 9) i)) && (s_state (read_slot (tear b 9) i) =? STATE_OCCUPIED) &&
            negb (slot_checksum_ok (tear b 9) i)
          else bool_decide (bread (tear b 9) (slot_byte_offset i) SLOT_SIZE = bread (key_data b) (slot_byte_offset i) SLOT_SIZE))
          (seqZ 0 (capacity (header b)))
    | None => false end = true) as Hc by (vm_compute; reflexivity).
  rewrite Hb in Hc. apply andb_true_iff in Hc as [Hc Hall]. apply bool_decide_eq_true in Hc as (C1 & C2 & C3 & C4 & C5).
  rewrite forallb_forall in Hall.
  split; [exact C1|exact C2|exact C3|exact C4|exact C5| |]; intros i Hi Ht; specialize (Hall i ltac:(apply list_elem_of_In, elem_of_seqZ; lia)); rewrite Ht in Hall.
  - apply bool_decide_eq_true in Hall. exact Hall.
  - apply andb_true_iff in Hall as [Hall H3]. apply andb_true_iff in Hall as [H1 H2]. apply bool_decide_eq_true in H1.
    apply Z.eqb_eq in H2. apply negb_true_iff in H3. exact (conj H1 (conj H2 H3)).
Qed.

Lemma open_repairs_witness :
  ∃ b b', two_entries = Some b ∧ open_with Flat (tear b 9) (val_data b) = Ok b' ∧ get_ref b' 5 = Some [1; 2; 3] ∧ get_ref b' 9 = None.
Proof.
  assert (match two_entries with Some b => bool_decide (0 < zlen (val_data b) ∧ get_ref b 5 = Some [1; 2; 3]) | None => false end = true) as Hc
    by (vm_compute; reflexivity).
  destruct two_entries as [b|] eqn:Hb; [|discriminate Hc]. apply bool_decide_eq_true in Hc as [Hv Hg].
  destruct (two_entries_wf b Hb) as (Hwf & Hs & Hl).
  assert (blobs_readable b) as Hread by (intros k s _; unfold blob_readable; by rewrite Hl).
  destruct (open_repairs b {[9]} (tear b 9) Hwf Hs Hread (two_entries_torn b Hb) Hv) as (b' & Ho & _ & _ & Hr & _).
  exists b, b'. split; [done|]. split; [by rewrite <-Hl|]. split.
  - rewrite Hr. rewrite decide_False; [exact Hg|]. intros Hin. apply elem_of_singleton in Hin. discriminate Hin.
  - rewrite Hr. rewrite decide_True; [done|]. by apply elem_of_singleton.
Defined.
