(* ===== verification/OrdMap.v ===== *)
(** * OrdMap: ordered maps

    Rust's [BTreeMap] as the ascending association list of its entries: iteration is
    the list itself, and [range] a sublist of it.  [Ordered] is the [Ord] trait; its
    instances are the key types of the indexes: [bool], [i64] and [u128] as [Z], and
    strings as lists of bytes. *)
From S2P Require Import Prelude.

(** ** Total orders *)

Class Ordered (V : Type) := cmp : V → V → comparison.
Class OrderedLaws (V : Type) `{Ordered V} := {
  cmp_eq (a b : V) : cmp a b = Eq ↔ a = b;
  cmp_flip (a b : V) : cmp b a = CompOpp (cmp a b);
  cmp_trans (a b c : V) : cmp a b = Lt → cmp b c = Lt → cmp a c = Lt;
}.

#[global] Instance Z_ordered : Ordered Z := Z.compare.
#[global] Instance Z_ordered_laws : OrderedLaws Z.
Proof.
  split; unfold cmp, Z_ordered; intros.
  - apply Z.compare_eq_iff.
  - apply Z.compare_antisym.
  - rewrite Z.compare_lt_iff in *. lia.
Qed.

#[global] Instance bool_ordered : Ordered bool := λ a b, Z.b2z a ?= Z.b2z b.
#[global] Instance bool_ordered_laws : OrderedLaws bool.
Proof. split; unfold cmp, bool_ordered; [by intros [] []|by intros [] []|by intros [] [] []]. Qed.

(** Lexicographic order; on byte strings it is the order of Rust's [str]. *)
Fixpoint list_cmp {A} `{Ordered A} (l k : list A) : comparison :=
  match l, k with
  | [], [] => Eq
  | [], _ :: _ => Lt
  | _ :: _, [] => Gt
  | x :: l, y :: k => match cmp x y with Eq => list_cmp l k | c => c end
  end.
#[global] Instance list_ordered {A} `{Ordered A} : Ordered (list A) := list_cmp.
#[global] Instance list_ordered_laws {A} `{OrderedLaws A} : OrderedLaws (list A).
Proof.
  split; unfold cmp, list_ordered.
  - induction a as [|x a IH]; intros [|y b]; cbn; [done..|].
    pose proof (proj2 (cmp_eq x x) eq_refl) as Hx. destruct (cmp x y) eqn:E.
    + apply cmp_eq in E. subst. rewrite IH. naive_solver.
    + split; [done|]. intros [= <- _]. by rewrite E in Hx.
    + split; [done|]. intros [= <- _]. by rewrite E in Hx.
  - induction a as [|x a IH]; intros [|y b]; cbn; [done..|]. rewrite (cmp_flip x y). destruct (cmp x y); [apply IH|done..].
  - induction a as [|x a IH]; intros [|y b] [|z c]; cbn; try done.
    destruct (cmp x y) eqn:E; [apply cmp_eq in E; subst|destruct (cmp y z) eqn:E'|done].
    + destruct (cmp y z); [apply IH|done..].
    + apply cmp_eq in E'. subst. by rewrite E.
    + by rewrite (cmp_trans _ _ _ E E').
    + done.
Qed.

Section order.
Context {V : Type} `{OrderedLaws V}.

Lemma cmp_refl (a : V) : cmp a a = Eq.
Proof. by apply cmp_eq. Qed.
Lemma cmp_gt (a b : V) : cmp a b = Gt ↔ cmp b a = Lt.
Proof. rewrite (cmp_flip a b). by destruct (cmp a b). Qed.
#[global] Instance ordered_eq_dec : EqDecision V | 100.
Proof.
  intros a b. destruct (cmp a b) eqn:E; [left; by apply cmp_eq|right; intros ->; by rewrite cmp_refl in E..].
Qed.
End order.

(** ** Maps *)

Definition ordmap (V A : Type) : Type := list (V * A).

(** Ends of a range. *)
Inductive Bound (V : Type) :=
| Unbounded
| Included (v : V)
| Excluded (v : V).
Arguments Unbounded {V}.
Arguments Included {V} v.
Arguments Excluded {V} v.

Section ops.
Context {V : Type} `{Ordered V} {A : Type}.

Fixpoint om_get (v : V) (m : ordmap V A) : option A :=
  match m with
  | [] => None
  | (k, a) :: m => match cmp v k with Eq => Some a | Lt => None | Gt => om_get v m end
  end.
Fixpoint om_insert (v : V) (x : A) (m : ordmap V A) : ordmap V A :=
  match m with
  | [] => [(v, x)]
  | (k, a) :: m' =>
      match cmp v k with Eq => (v, x) :: m' | Lt => (v, x) :: m | Gt => (k, a) :: om_insert v x m' end
  end.
Fixpoint om_remove (v : V) (m : ordmap V A) : ordmap V A :=
  match m with
  | [] => []
  | (k, a) :: m' => match cmp v k with Eq => m' | Lt => m | Gt => (k, a) :: om_remove v m' end
  end.

Definition above (lo : Bound V) (v : V) : bool :=
  match lo with Unbounded => true | Included x => bool_decide (cmp x v ≠ Gt) | Excluded x => bool_decide (cmp x v = Lt) end.
Definition below (hi : Bound V) (v : V) : bool :=
  match hi with Unbounded => true | Included x => bool_decide (cmp v x ≠ Gt) | Excluded x => bool_decide (cmp v x = Lt) end.

(** [range] panics when it starts past its end, or at the same excluded value. *)
Definition range_panics (lo hi : Bound V) : bool :=
  match lo, hi with
  | Unbounded, _ | _, Unbounded => false
  | Excluded x, Excluded y => bool_decide (cmp x y ≠ Lt)
  | Included x, Included y | Included x, Excluded y | Excluded x, Included y => bool_decide (cmp x y = Gt)
  end.
Definition om_range (lo hi : Bound V) (m : ordmap V A) : option (ordmap V A) :=
  if range_panics lo hi then None
  else Some (filter (λ p, above lo p.1 && below hi p.1 = true) m).

Definition om_before (p q : V * A) : Prop := cmp p.1 q.1 = Lt.
Definition om_wf (m : ordmap V A) : Prop := StronglySorted om_before m.
End ops.

Section laws.
Context {V : Type} `{OrderedLaws V} `{!EqDecision V} {A : Type}.
Implicit Types (m : ordmap V A) (v k : V) (a x : A).

Lemma om_wf_cons v a m : om_wf ((v, a) :: m) ↔ (∀ k x, (k, x) ∈ m → cmp v k = Lt) ∧ om_wf m.
Proof.
  unfold om_wf. split.
  - intros Hs. apply StronglySorted_inv in Hs as [Hs Hf]. split; [|done]. intros k x Hin.
    rewrite Forall_forall in Hf. by specialize (Hf _ Hin).
  - intros [Hf Hs]. constructor; [done|]. apply Forall_forall. intros [k x] Hin. by apply (Hf k x).
Qed.

Lemma om_get_Some v a m : om_wf m → om_get v m = Some a ↔ (v, a) ∈ m.
Proof.
  induction m as [|[k x] m IH]; intros Hm; [by rewrite elem_of_nil|]. apply om_wf_cons in Hm as [Hk Hm].
  cbn [om_get]. rewrite elem_of_cons. destruct (cmp v k) eqn:E.
  - apply cmp_eq in E. subst. split; [intros [= ->]; by left|intros [[= ->]|Hin]; [done|]].
    apply Hk in Hin. by rewrite cmp_refl in Hin.
  - split; [done|]. intros [[= -> ->]|Hin]; [by rewrite cmp_refl in E|].
    pose proof (Hk _ _ Hin) as Hl. pose proof (cmp_trans _ _ _ E Hl) as Hc. by rewrite cmp_refl in Hc.
  - rewrite IH by done. split; [by right|]. intros [[= -> ->]|Hin]; [by rewrite cmp_refl in E|done].
Qed.

Lemma om_get_None v m : om_wf m → om_get v m = None ↔ ∀ a, (v, a) ∉ m.
Proof.
  intros Hm. rewrite eq_None_not_Some. split.
  - intros Hn a Hin. apply Hn. exists a. by apply om_get_Some.
  - intros Hn [a Ha]. apply (Hn a). by apply om_get_Some.
Qed.

Lemma om_get_cons v k a m : om_wf ((k, a) :: m) → om_get v ((k, a) :: m) = if decide (v = k) then Some a else om_get v m.
Proof.
  intros Hm. pose proof Hm as Hm'. apply om_wf_cons in Hm' as [Hk Hm']. apply option_eq. intros x.
  rewrite om_get_Some by done. rewrite elem_of_cons. case_decide as Hvk; [subst|rewrite om_get_Some by done].
  - split; [|intros [= ->]; by left]. intros [[= ->]|Hin]; [done|]. apply Hk in Hin. by rewrite cmp_refl in Hin.
  - split; [by intros [[= -> ->]|]|by right].
Qed.

(** Membership determines the order. *)
Lemma om_ext m m' : om_wf m → om_wf m' → (∀ v, om_get v m = om_get v m') → m = m'.
Proof.
  intros Hm Hm' He. assert (∀ p, p ∈ m ↔ p ∈ m') as Hin.
  { intros [v a]. rewrite <-!om_get_Some, He by done. done. }
  clear He. revert m' Hm' Hin. induction m as [|[v a] m IH]; intros [|[k x] m'] Hm' Hin.
  - done.
  - exfalso. apply (elem_of_nil (k, x)), Hin. left.
  - exfalso. apply (elem_of_nil (v, a)), Hin. left.
  - apply om_wf_cons in Hm as [Hv Hm], Hm' as [Hk Hm'].
    assert ((v, a) = (k, x)) as [= -> ->].
    { assert ((v, a) ∈ (k, x) :: m') as H1 by (apply Hin; left).
      assert ((k, x) ∈ (v, a) :: m) as H2 by (apply Hin; left).
      apply elem_of_cons in H1 as [|H1]; [done|]. apply elem_of_cons in H2 as [|H2]; [done|].
      apply Hk in H1. apply Hv in H2. pose proof (cmp_trans _ _ _ H1 H2) as Hc. by rewrite cmp_refl in Hc. }
    f_equal. apply IH; [done..|]. intros [u y]. specialize (Hin (u, y)). rewrite !elem_of_cons in Hin.
    split; intros Hu.
    + destruct (proj1 Hin (or_intror Hu)) as [[= -> ->]|]; [|done]. apply Hv in Hu. by rewrite cmp_refl in Hu.
    + destruct (proj2 Hin (or_intror Hu)) as [[= -> ->]|]; [|done]. apply Hk in Hu. by rewrite cmp_refl in Hu.
Qed.

Lemma elem_of_om_insert v a m p : p ∈ om_insert v a m → p = (v, a) ∨ p ∈ m.
Proof.
  induction m as [|[k x] m IH]; cbn [om_insert]; [rewrite elem_of_cons; tauto|].
  destruct (cmp v k); rewrite ?elem_of_cons; naive_solver.
Qed.

Lemma om_insert_wf v a m : om_wf m → om_wf (om_insert v a m).
Proof.
  induction m as [|[k x] m IH]; intros Hm; cbn [om_insert]; [by repeat constructor|].
  pose proof Hm as Hm0. apply om_wf_cons in Hm as [Hk Hm]. destruct (cmp v k) eqn:E.
  - apply cmp_eq in E. subst. by apply om_wf_cons.
  - apply om_wf_cons. split; [|done]. intros k' x' [[= -> ->]|Hin]%elem_of_cons; [done|].
    by eapply cmp_trans, Hk.
  - apply om_wf_cons. split; [|by apply IH]. intros k' x' [[= -> ->]|Hin]%elem_of_om_insert; [by apply cmp_gt|by eapply Hk].
Qed.

Lemma om_get_below v k a m : om_wf ((k, a) :: m) → cmp v k = Lt → om_get v m = None.
Proof.
  intros Hm Hv. apply om_wf_cons in Hm as [Hk Hm]. apply om_get_None; [done|]. intros x Hin.
  apply Hk in Hin. pose proof (cmp_trans _ _ _ Hv Hin) as Hc. by rewrite cmp_refl in Hc.
Qed.

Lemma om_get_insert v k a m : om_get v (om_insert k a m) = if decide (v = k) then Some a else om_get v m.
Proof.
  case_decide as Hvk; [subst|].
  - induction m as [|[k' x] m IH]; cbn; [by rewrite cmp_refl|]. destruct (cmp k k') eqn:E; cbn; rewrite ?cmp_refl, ?E; done.
  - assert (cmp v k ≠ Eq) as Hne by (intros ?%cmp_eq; done).
    induction m as [|[k' x] m IH]; cbn; [by destruct (cmp v k)|]. destruct (cmp k k') eqn:E; cbn.
    + apply cmp_eq in E. subst. by destruct (cmp v k').
    + destruct (cmp v k) eqn:E1; [done| |done]. by rewrite (cmp_trans _ _ _ E1 E).
    + by rewrite IH.
Qed.

Lemma om_remove_sublist v m : om_remove v m `sublist_of` m.
Proof.
  induction m as [|[k x] m IH]; cbn [om_remove]; [done|]. destruct (cmp v k); [by constructor|done|by constructor].
Qed.

Lemma om_wf_sublist m m' : m' `sublist_of` m → om_wf m → om_wf m'.
Proof.
  induction 1 as [|[k x] l l' Hs IH|[k x] l l' Hs IH]; intros Hm; [done|apply om_wf_cons in Hm as [Hk Hm]..].
  - apply om_wf_cons. split; [|by apply IH]. intros k' x' Hin. apply (Hk k' x'). by eapply elem_of_sublist.
  - by apply IH.
Qed.

Lemma om_remove_wf v m : om_wf m → om_wf (om_remove v m).
Proof. apply om_wf_sublist, om_remove_sublist. Qed.

Lemma om_get_remove v k m : om_wf m → om_get v (om_remove k m) = if decide (v = k) then None else om_get v m.
Proof.
  intros Hm. induction m as [|[k' x] m IH]; cbn [om_remove]; [by case_decide|].
  pose proof Hm as Hm0. apply om_wf_cons in Hm as [Hk Hm]. specialize (IH Hm). destruct (cmp k k') eqn:E.
  - apply cmp_eq in E. subst. case_decide as Hv; [subst|].
    + apply om_get_None; [done|]. intros a Hin. apply Hk in Hin. by rewrite cmp_refl in Hin.
    + cbn. destruct (cmp v k') eqn:E'; [by apply cmp_eq in E'|by eapply om_get_below|done].
  - case_decide as Hv; [subst|done]. cbn. by rewrite E.
  - cbn. rewrite IH. destruct (cmp v k') eqn:E'; [| |done].
    + apply cmp_eq in E'. subst. case_decide; [subst; by rewrite cmp_refl in E|done].
    + by case_decide.
Qed.

Lemma om_wf_NoDup m : om_wf m → NoDup m.*1.
Proof.
  induction m as [|[k x] m IH]; intros Hm; [constructor|]. apply om_wf_cons in Hm as [Hk Hm].
  rewrite fmap_cons. constructor; [|by apply IH]. intros Hin. apply list_elem_of_fmap in Hin as ([k' y] & Heq & Hin).
  cbn in Heq. subst. apply Hk in Hin. by rewrite cmp_refl in Hin.
Qed.

Lemma om_range_Some lo hi m r :
  om_wf m → om_range lo hi m = Some r →
  om_wf r ∧ ∀ v a, (v, a) ∈ r ↔ (v, a) ∈ m ∧ above lo v = true ∧ below hi v = true.
Proof.
  intros Hm Hr. unfold om_range in Hr. destruct (range_panics lo hi); [done|]. apply (inj Some) in Hr. subst r. split.
  - eapply om_wf_sublist; [|done]. apply sublist_filter.
  - intros v a. rewrite list_elem_of_filter, andb_true_iff. tauto.
Qed.
(** Sums over the values. *)
Definition om_sum (g : A → Z) m : Z := foldr (λ p acc, g p.2 + acc) 0 m.

Lemma om_sum_cons g v a m : om_sum g ((v, a) :: m) = g a + om_sum g m.
Proof using. done. Qed.

Lemma om_sum_insert g v a m :
  om_wf m → om_sum g (om_insert v a m) = om_sum g m + g a - from_option g 0 (om_get v m).
Proof using.
  induction m as [|[k x] m IH]; intros Hm; [cbn; lia|]. apply StronglySorted_inv in Hm as [Hm _]. cbn [om_insert om_get].
  destruct (cmp v k); rewrite ?om_sum_cons, ?IH by done; cbn [from_option]; lia.
Qed.

Lemma om_sum_remove g v m :
  om_wf m → om_sum g (om_remove v m) = om_sum g m - from_option g 0 (om_get v m).
Proof using.
  induction m as [|[k x] m IH]; intros Hm; [cbn; lia|]. apply StronglySorted_inv in Hm as [Hm _]. cbn [om_remove om_get].
  destruct (cmp v k); rewrite ?om_sum_cons, ?IH by done; cbn [from_option]; lia.
Qed.

Lemma om_sum_nonneg g m : (∀ a, 0 ≤ g a) → 0 ≤ om_sum g m.
Proof using. intros Hg. induction m as [|[k x] m IH]; cbn; [lia|]. specialize (Hg x). unfold om_sum in IH. lia. Qed.
End laws.
