(* ===== verification/OverlayBudget.v ===== *)
(** * OverlayBudget: the memory budget of the field-index overlays

    [src/minnal_db/src/index/overlay_budget.rs].  One counter shared by every field of
    a database; the fields [charge] it as their overlays grow and shrink.  The counters
    are [u64]s that wrap on addition; a release saturates at zero. *)
From S2P Require Import Prelude.

Definition DEFAULT_INDEX_OVERLAY_SOFT_BYTES : Z := 32 * 1024 * 1024.
Definition DEFAULT_INDEX_OVERLAY_HARD_BYTES : Z := 64 * 1024 * 1024.

Record IndexOverlayBudget := mk_budget {
  used : Z;
  soft : Z;
  hard : Z;
  peak : Z;
  soft_crossings : Z;
  hard_spills : Z;
  hard_spill_nanos : Z;
}.

Definition budget_new (soft hard : Z) : IndexOverlayBudget := mk_budget 0 (Z.min soft hard) hard 0 0 0 0.
Definition budget_default : IndexOverlayBudget :=
  budget_new DEFAULT_INDEX_OVERLAY_SOFT_BYTES DEFAULT_INDEX_OVERLAY_HARD_BYTES.

Definition over_soft (b : IndexOverlayBudget) : bool := soft b <=? used b.
Definition over_hard (b : IndexOverlayBudget) : bool := hard b <? used b.

Definition charge (delta : Z) (b : IndexOverlayBudget) : IndexOverlayBudget :=
  if 0 <=? delta then
    let before := used b in
    let after := wrap 64 (before + delta) in
    mk_budget after (soft b) (hard b) (Z.max (peak b) after)
      (if (before <? soft b) && (soft b <=? after) then wrap 64 (soft_crossings b + 1) else soft_crossings b)
      (hard_spills b) (hard_spill_nanos b)
  else
    mk_budget (Z.max 0 (used b - Z.abs delta)) (soft b) (hard b) (peak b) (soft_crossings b) (hard_spills b)
      (hard_spill_nanos b).

Definition note_hard_spill (took_nanos : Z) (b : IndexOverlayBudget) : IndexOverlayBudget :=
  mk_budget (used b) (soft b) (hard b) (peak b) (soft_crossings b) (wrap 64 (hard_spills b + 1))
    (wrap 64 (hard_spill_nanos b + wrap 64 took_nanos)).

(** [stats]: the snapshot served to operators. *)
Record IndexOverlayStats := mk_stats {
  used_bytes : Z;
  peak_bytes : Z;
  soft_limit_bytes : Z;
  hard_limit_bytes : Z;
  stat_soft_crossings : Z;
  stat_hard_spills : Z;
  hard_spill_micros : Z;
}.
Definition stats (b : IndexOverlayBudget) : IndexOverlayStats :=
  mk_stats (used b) (peak b) (soft b) (hard b) (soft_crossings b) (hard_spills b) (hard_spill_nanos b / 1000).

(** ** The invariant *)

Record budget_wf (b : IndexOverlayBudget) : Prop := {
  budget_used : 0 ≤ used b ≤ peak b;
  budget_peak : peak b < 2 ^ 64;
  budget_limits : soft b ≤ hard b;
}.

Lemma budget_new_wf s h : budget_wf (budget_new s h).
Proof. split; cbn; lia. Qed.

Lemma charge_wf delta b : budget_wf b → budget_wf (charge delta b).
Proof.
  intros [Hu Hp Hl]. unfold charge. cbv zeta. destruct (Z.leb_spec 0 delta).
  - pose proof (Z.mod_pos_bound (used b + delta) (2 ^ 64)) as Hm. unfold wrap. split; cbn [used soft hard peak]; lia.
  - split; cbn [used soft hard peak]; lia.
Qed.

(** A charge that neither overflows nor releases more than is held is exact. *)
Lemma charge_exact delta b : budget_wf b → 0 ≤ used b + delta < 2 ^ 64 → used (charge delta b) = used b + delta.
Proof.
  intros Hb Hr. unfold charge. cbv zeta. destruct (Z.leb_spec 0 delta); cbn [used]; [by apply wrap_small|lia].
Qed.

Lemma charge_limits delta b : soft (charge delta b) = soft b ∧ hard (charge delta b) = hard b.
Proof. unfold charge. by destruct (0 <=? delta). Qed.
