(* ===== verification/FieldIndex.v ===== *)
(** * FieldIndex: the inverted index of one field

    [src/minnal_db/src/index/field/field_index.rs] and [predicate.rs].  An ordered map
    from values to slots, a blob store that holds one directory of containers per slot,
    and the overlay of the containers changed since the last spill.  A method that
    reads stored data may meet a directory or container that does not decode: it serves
    it as empty and latches the [corrupted] flag, which a read takes by shared
    reference; a read is therefore a value and the flag it raises.  [None] is a panic.
    The version counter and the slot counter are unbounded here ([u64] and [u128] in
    the source). *)
From S2P Require Import Prelude Slices Words Bytes OrdMap HashTable Container ArrayMerge ContainerStore Bitmap.
From S2P Require Import DirStorage BlobStore OverlayBudget.

(** Heap bytes a container's buffers take ([Vec] capacities, known to the allocator
    only), and the size of an overlay map entry. *)
Class HeapBytes := { heap_bytes : Container → Z; overlay_entry_size : Z }.
Class HeapBytesLaws `{HeapBytes} := {
  heap_bytes_nonneg c : 0 ≤ heap_bytes c;
  heap_bytes_new : heap_bytes new_array = 0;
  overlay_entry_nonneg : 0 ≤ overlay_entry_size;
}.

Inductive Predicate (V : Type) :=
| PEq (v : V)
| PNe (v : V)
| PLt (v : V)
| PLe (v : V)
| PGt (v : V)
| PGe (v : V)
| PBetween (lo hi : V)
| PIn (vs : list V).
Arguments PEq {V} v.
Arguments PNe {V} v.
Arguments PLt {V} v.
Arguments PLe {V} v.
Arguments PGt {V} v.
Arguments PGe {V} v.
Arguments PBetween {V} lo hi.
Arguments PIn {V} vs.

(** One slot's changes since the last spill; [None] is a container that emptied. *)
Record SlotChanges := mk_changes {
  sc_containers : ordmap Z (option Container);
  sc_ver : gmap Z Z;
  sc_empty : bool;
  sc_bytes : Z;
}.
Definition no_changes : SlotChanges := mk_changes [] ∅ false 0.

Record StagedDir := mk_staged {
  sd_slot : Z;
  sd_ver : Z;
  sd_offset : Z;
  sd_len : Z;
  sd_containers : list (Z * Z);
}.
Record SpillStage := mk_spill { st_sets : list StagedDir; st_removals : list (Z * Z) }.

Record FieldIndex (V : Type) := mk_field {
  ordering : ordmap V Z;
  bitmaps : BlobStore;
  next_slot : Z;
  corrupted : bool;
  overlay : gmap Z SlotChanges;
  emptied : ordmap V Z;
  overlay_ver : gmap Z Z;
  next_ver : Z;
  overlay_bytes : Z;
  budget : IndexOverlayBudget;
}.
Arguments mk_field {V}.
Arguments ordering {V}.
Arguments bitmaps {V}.
Arguments next_slot {V}.
Arguments corrupted {V}.
Arguments overlay {V}.
Arguments emptied {V}.
Arguments overlay_ver {V}.
Arguments next_ver {V}.
Arguments overlay_bytes {V}.
Arguments budget {V}.

Definition OVERLAY_SLOT_OVERHEAD : Z := 64.
Definition OVERLAY_CONTAINER_OVERHEAD `{HeapBytes} : Z := overlay_entry_size + 16.

(** Group row ids by container key. *)
Definition add_row (groups : ordmap Z (list Z)) (row : Z) : ordmap Z (list Z) :=
  let '(high, low) := decompose row in om_insert high (default [] (om_get high groups) ++ [low]) groups.
Definition group_rows (row_ids : list Z) : ordmap Z (list Z) := foldl add_row [] row_ids.

(** The closures [insert_many] and [remove_all_for_rows] pass to [modify_container]. *)
Definition insert_lows (lows : list Z) (c : Container) : Container * bool :=
  foldl (λ p low, let '(c, i) := container_insert low p.1 in (c, i || p.2)) (c, false) lows.
Definition remove_lows `{Cpu} (lows : list Z) (c : Container) : Container * bool :=
  foldl (λ p low, let '(c, i) := container_remove low p.1 in (c, i || p.2)) (c, false) lows.

Section updates.
Context {V : Type}.
Implicit Type f : FieldIndex V.

Definition set_ordering (o : ordmap V Z) f : FieldIndex V :=
  mk_field o (bitmaps f) (next_slot f) (corrupted f) (overlay f) (emptied f) (overlay_ver f) (next_ver f) (overlay_bytes f) (budget f).
Definition set_emptied (e : ordmap V Z) f : FieldIndex V :=
  mk_field (ordering f) (bitmaps f) (next_slot f) (corrupted f) (overlay f) e (overlay_ver f) (next_ver f) (overlay_bytes f) (budget f).
Definition set_bitmaps (b : BlobStore) f : FieldIndex V :=
  mk_field (ordering f) b (next_slot f) (corrupted f) (overlay f) (emptied f) (overlay_ver f) (next_ver f) (overlay_bytes f) (budget f).
Definition set_overlay (o : gmap Z SlotChanges) f : FieldIndex V :=
  mk_field (ordering f) (bitmaps f) (next_slot f) (corrupted f) o (emptied f) (overlay_ver f) (next_ver f) (overlay_bytes f) (budget f).
Definition set_versions (vs : gmap Z Z) (next : Z) f : FieldIndex V :=
  mk_field (ordering f) (bitmaps f) (next_slot f) (corrupted f) (overlay f) (emptied f) vs next (overlay_bytes f) (budget f).
Definition set_next_slot (n : Z) f : FieldIndex V :=
  mk_field (ordering f) (bitmaps f) n (corrupted f) (overlay f) (emptied f) (overlay_ver f) (next_ver f) (overlay_bytes f) (budget f).
(** Latch the corruption flag. *)
Definition raise (b : bool) f : FieldIndex V :=
  mk_field (ordering f) (bitmaps f) (next_slot f) (corrupted f || b) (overlay f) (emptied f) (overlay_ver f) (next_ver f) (overlay_bytes f) (budget f).
Definition charge_bytes (delta : Z) f : FieldIndex V :=
  mk_field (ordering f) (bitmaps f) (next_slot f) (corrupted f) (overlay f) (emptied f) (overlay_ver f) (next_ver f)
    (Z.max 0 (overlay_bytes f + delta)) (charge delta (budget f)).
(** Change one slot's overlay entry. *)
Definition alter_changes (slot : Z) (g : SlotChanges → SlotChanges) f : FieldIndex V :=
  set_overlay (alter g slot (overlay f)) f.
End updates.

Definition put_container (key : Z) (c : option Container) (ch : SlotChanges) : SlotChanges :=
  mk_changes (om_insert key c (sc_containers ch)) (sc_ver ch) (sc_empty ch) (sc_bytes ch).
Definition put_version (key ver : Z) (ch : SlotChanges) : SlotChanges :=
  mk_changes (sc_containers ch) (<[key := ver]> (sc_ver ch)) (sc_empty ch) (sc_bytes ch).
Definition put_empty (b : bool) (ch : SlotChanges) : SlotChanges :=
  mk_changes (sc_containers ch) (sc_ver ch) b (sc_bytes ch).
Definition add_bytes (delta : Z) (ch : SlotChanges) : SlotChanges :=
  mk_changes (sc_containers ch) (sc_ver ch) (sc_empty ch) (Z.max 0 (sc_bytes ch + delta)).

Section index.
Context {V : Type} `{Ordered V} `{Cpu} `{HeapCost} `{Crc} `{Rkyv} `{HeapBytes}.
Implicit Type f : FieldIndex V.

(** ** Construction *)

Definition from_parts (o : ordmap V Z) (b : BlobStore) (next : Z) : FieldIndex V :=
  mk_field o b next false ∅ [] ∅ 0 0 budget_default.
Definition field_new : FieldIndex V := from_parts [] (new_anon_with Directory) 0.

(** Move the held bytes to a shared budget; the old budget is the second component. *)
Definition set_overlay_budget (b : IndexOverlayBudget) f : FieldIndex V * IndexOverlayBudget :=
  (mk_field (ordering f) (bitmaps f) (next_slot f) (corrupted f) (overlay f) (emptied f) (overlay_ver f) (next_ver f)
     (overlay_bytes f) (charge (overlay_bytes f) b),
   charge (- overlay_bytes f) (budget f)).

(** ** Stored data, with the corruption flag a read raises *)

Definition stored_dir (b : BlobStore) (slot : Z) : list DirEntry * bool :=
  match get_ref b slot with
  | None => ([], false)
  | Some bytes => match decode_dir bytes with Ok es => (es, false) | Err _ => ([], true) end
  end.
Definition stored_entry (b : BlobStore) (slot key : Z) : option DirEntry * bool :=
  match get_ref b slot with
  | None => (None, false)
  | Some bytes => match lookup_dir bytes key with Ok o => (o, false) | Err _ => (None, true) end
  end.
Definition stored_count (b : BlobStore) (slot : Z) : Z :=
  match get_ref b slot with
  | None => 0
  | Some bytes => match dir_count bytes with Ok n => n | Err _ => 0 end
  end.
Definition stored_container (b : BlobStore) (e : DirEntry) : option Container * bool :=
  match value_slice b (d_offset e) (d_len e) with
  | Some bytes => match decode_container bytes with Ok c => (Some c, false) | Err _ => (None, true) end
  | None => (None, true)
  end.

(** [stored_entry] and then [stored_container]. *)
Definition load_stored (b : BlobStore) (slot key : Z) : option Container * bool :=
  let '(e, r) := stored_entry b slot key in
  match e with None => (None, r) | Some e => let '(c, r') := stored_container b e in (c, r || r') end.

(** The overlay's word on a container: [None] when it does not cover it. *)
Definition overlay_at f (slot key : Z) : option (option Container) :=
  ch ← overlay f !! slot; om_get key (sc_containers ch).

(** ** Changing one container *)

Definition charge_slot (slot delta : Z) f : FieldIndex V := charge_bytes delta (alter_changes slot (add_bytes delta) f).

Definition touch (slot : Z) f : FieldIndex V :=
  let f := match overlay f !! slot with
           | Some _ => f
           | None => charge_slot slot OVERLAY_SLOT_OVERHEAD (set_overlay (<[slot := no_changes]> (overlay f)) f)
           end in
  set_versions (<[slot := next_ver f]> (overlay_ver f)) (next_ver f + 1) f.

Definition slot_has_container f (slot key : Z) : bool * bool :=
  match overlay_at f slot key with
  | Some c => (bool_decide (is_Some c), false)
  | None => let '(e, r) := stored_entry (bitmaps f) slot key in (bool_decide (is_Some e), r)
  end.

Definition is_live (c : option Container) : bool := match c with Some _ => true | None => false end.

(** The keys of [ks] that are stored, counted, with the flags the look-ups raise. *)
Fixpoint count_stored (b : BlobStore) (slot : Z) (ks : list Z) : Z * bool :=
  match ks with
  | [] => (0, false)
  | k :: ks =>
      let '(e, r) := stored_entry b slot k in
      let '(n, r') := count_stored b slot ks in
      (match e with Some _ => n + 1 | None => n end, r || r')
  end.

Definition recompute_empty (slot : Z) f : FieldIndex V :=
  match overlay f !! slot with
  | None => f
  | Some ch =>
      if existsb is_live (sc_containers ch).*2 then alter_changes slot (put_empty false) f
      else
        let '(overridden, r) := count_stored (bitmaps f) slot (sc_containers ch).*1 in
        alter_changes slot (put_empty (overridden =? stored_count (bitmaps f) slot)) (raise r f)
  end.

Definition slot_is_empty f (slot : Z) : bool :=
  match overlay f !! slot with Some ch => sc_empty ch | None => false end.

(** Load the container into the overlay unless it is there. *)
Definition load_overlay (slot key : Z) f : FieldIndex V :=
  match overlay_at f slot key with
  | Some _ => f
  | None =>
      let '(c, r) := load_stored (bitmaps f) slot key in
      charge_slot slot (OVERLAY_CONTAINER_OVERHEAD + from_option heap_bytes 0 c)
        (alter_changes slot (put_container key c) (raise r f))
  end.

Definition modify_container (slot key : Z) (create : bool) (fn : Container → Container * bool) f : FieldIndex V * bool :=
  let '(has, r) := if create then (true, false) else slot_has_container f slot key in
  let f := raise r f in
  if negb has then (f, false)
  else
    let f := touch slot f in
    let f := alter_changes slot (put_version key (default 0 (overlay_ver f !! slot))) f in
    let f := load_overlay slot key f in
    match default None (overlay_at f slot key), create with
    | None, false => (f, false)
    | o, _ =>
        let c := default new_array o in
        let before := heap_bytes c in
        let '(c, changed) := fn c in
        let gone := container_is_empty c in
        let after := if gone then 0 else heap_bytes c in
        let f := alter_changes slot (put_container key (if gone then None else Some c)) f in
        let f := if gone then recompute_empty slot f else alter_changes slot (put_empty false) f in
        (charge_slot slot (after - before) f, changed)
    end.

(** ** Writes *)

Definition slot_for_insert (value : V) f : Z * FieldIndex V :=
  match om_get value (ordering f) with
  | Some id => (id, f)
  | None =>
      let '(id, f) := match om_get value (emptied f) with
                      | Some id => (id, set_emptied (om_remove value (emptied f)) f)
                      | None => (next_slot f, set_next_slot (next_slot f + 1) f)
                      end in
      (id, set_ordering (om_insert value id (ordering f)) f)
  end.

Definition insert_many (value : V) (row_ids : list Z) f : FieldIndex V :=
  match row_ids with
  | [] => f
  | _ =>
      let '(slot, f) := slot_for_insert value f in
      foldl (λ f g, (modify_container slot g.1 true (insert_lows g.2) f).1) f (group_rows row_ids)
  end.
Definition insert (value : V) (row_id : Z) f : FieldIndex V := insert_many value [row_id] f.

(** The value's entry leaves [ordering] when its bitmap empties. *)
Definition retire (value : V) (slot : Z) f : FieldIndex V :=
  set_emptied (om_insert value slot (emptied f)) (set_ordering (om_remove value (ordering f)) f).

Definition remove (value : V) (row_id : Z) f : FieldIndex V :=
  match om_get value (ordering f) with
  | None => f
  | Some slot =>
      let '(high, low) := decompose row_id in
      let '(f, changed) := modify_container slot high false (container_remove low) f in
      if changed && slot_is_empty f slot then retire value slot f else f
  end.

Definition contains_any (lows : list Z) (c : option Container) : bool :=
  match c with Some c => existsb (container_contains c) lows | None => false end.
(** [any] over the groups, stopping at the first hit. *)
Fixpoint any_group f (slot : Z) (groups : ordmap Z (list Z)) : bool * bool :=
  match groups with
  | [] => (false, false)
  | (high, lows) :: groups =>
      let '(c, r) := match overlay_at f slot high with Some c => (c, false) | None => load_stored (bitmaps f) slot high end in
      if contains_any lows c then (true, r) else let '(b, r') := any_group f slot groups in (b, r || r')
  end.
Definition slot_contains_any f (slot : Z) (groups : ordmap Z (list Z)) : bool * bool := any_group f slot groups.

Definition remove_group (slot : Z) (p : FieldIndex V * bool) (g : Z * list Z) : FieldIndex V * bool :=
  let '(f, c) := modify_container slot g.1 false (remove_lows g.2) p.1 in (f, c || p.2).
Definition clear_slot (groups : ordmap Z (list Z)) (p : FieldIndex V * list Z) (e : V * Z) : FieldIndex V * list Z :=
  let '(f, removed) := p in
  let '(value, slot) := e in
  let '(hit, r) := slot_contains_any f slot groups in
  let f := raise r f in
  if negb hit then (f, removed)
  else
    let '(f, changed) := foldl (remove_group slot) (f, false) groups in
    if changed && slot_is_empty f slot then (retire value slot f, removed ++ [slot]) else (f, removed).
Definition remove_all_for_rows (row_ids : list Z) f : FieldIndex V * list Z :=
  match row_ids with
  | [] => (f, [])
  | _ => foldl (clear_slot (group_rows row_ids)) (f, []) (ordering f)
  end.
Definition remove_all_for_row (row_id : Z) f : FieldIndex V * list Z := remove_all_for_rows [row_id] f.

Definition set (value : V) (row_id : Z) f : FieldIndex V * list Z :=
  let '(f, removed) := remove_all_for_row row_id f in (insert value row_id f, removed).

(** ** Spilling *)

(** Apply the overlay's changes to the directory; [None] is a container that does not
    encode. *)
Fixpoint encode_changes (cs : ordmap Z (option Container)) (entries : ordmap Z DirEntry) (blobs : list (Z * region)) :
    option (ordmap Z DirEntry * list (Z * region)) :=
  match cs with
  | [] => Some (entries, blobs)
  | (key, None) :: cs => encode_changes cs (om_remove key entries) blobs
  | (key, Some c) :: cs =>
      match encode_container c with
      | Ok bytes => encode_changes cs entries (blobs ++ [(key, bytes)])
      | Err _ => None
      end
  end.
Fixpoint append_blobs (blobs : list (Z * region)) (entries : ordmap Z DirEntry) (b : BlobStore) :
    option (BlobStore * ordmap Z DirEntry) :=
  match blobs with
  | [] => Some (b, entries)
  | (key, bytes) :: blobs =>
      '(b, (offset, len)) ← append_value bytes b;
      append_blobs blobs (om_insert key (mk_dir_entry key offset len) entries) b
  end.

Definition stage_slot (p : FieldIndex V * SpillStage) (slot : Z) : option (FieldIndex V * SpillStage) :=
  let '(f, stage) := p in
  ver ← overlay_ver f !! slot;
  ch ← overlay f !! slot;
  if sc_empty ch then Some (f, mk_spill (st_sets stage) (st_removals stage ++ [(slot, ver)]))
  else
    let '(dir, r) := stored_dir (bitmaps f) slot in
    let f := raise r f in
    let entries := foldl (λ m e, om_insert (d_key e) e m) [] dir in
    let staged := map_to_list (sc_ver ch) in
    match encode_changes (sc_containers ch) entries [] with
    | None => Some (raise true f, stage)
    | Some (entries, blobs) =>
        '(b, entries) ← append_blobs blobs entries (bitmaps f);
        '(b, (offset, len)) ← append_value (encode_dir entries.*2) b;
        Some (set_bitmaps b f, mk_spill (st_sets stage ++ [mk_staged slot ver offset len staged]) (st_removals stage))
    end.
Fixpoint stage_slots (p : FieldIndex V * SpillStage) (slots : list Z) : option (FieldIndex V * SpillStage) :=
  match slots with [] => Some p | s :: slots => p ← stage_slot p s; stage_slots p slots end.
(** [slots] are the overlay's keys in the order the hash map yields them. *)
Definition stage (slots : list Z) f : option (FieldIndex V * SpillStage) := stage_slots (f, mk_spill [] []) slots.

Definition drop_overlay_entry_if_unchanged (slot ver : Z) f : FieldIndex V * bool :=
  if negb (bool_decide (overlay_ver f !! slot = Some ver)) then (f, false)
  else
    let f := set_versions (delete slot (overlay_ver f)) (next_ver f) f in
    let f := match overlay f !! slot with
             | Some ch => charge_bytes (- sc_bytes ch) (set_overlay (delete slot (overlay f)) f)
             | None => f
             end in
    (f, true).

Definition drop_container (p : SlotChanges * Z) (kv : Z * Z) : SlotChanges * Z :=
  let '(ch, freed) := p in
  let '(key, ver) := kv in
  if bool_decide (sc_ver ch !! key = Some ver) then
    let ch' := mk_changes (om_remove key (sc_containers ch)) (delete key (sc_ver ch)) (sc_empty ch) (sc_bytes ch) in
    match om_get key (sc_containers ch) with
    | Some c => (ch', freed + (OVERLAY_CONTAINER_OVERHEAD + from_option heap_bytes 0 c))
    | None => (ch', freed)
    end
  else (ch, freed).
Definition drop_staged_containers (slot : Z) (staged : list (Z * Z)) f : FieldIndex V :=
  match overlay f !! slot with
  | None => f
  | Some ch =>
      let '(ch, freed) := foldl drop_container (ch, 0) staged in
      let ch := mk_changes (sc_containers ch) (sc_ver ch) (sc_empty ch) (Z.max 0 (sc_bytes ch - freed)) in
      charge_bytes (- freed) (set_overlay (<[slot := ch]> (overlay f)) f)
  end.

Definition commit_set (f : FieldIndex V) (s : StagedDir) : option (FieldIndex V) :=
  '(b, _) ← set_slot (sd_slot s) (sd_offset s) (sd_len s) (bitmaps f);
  let '(f, dropped) := drop_overlay_entry_if_unchanged (sd_slot s) (sd_ver s) (set_bitmaps b f) in
  Some (if dropped then f else drop_staged_containers (sd_slot s) (sd_containers s) f).
Fixpoint commit_sets (f : FieldIndex V) (sets : list StagedDir) : option (FieldIndex V) :=
  match sets with [] => Some f | s :: sets => f ← commit_set f s; commit_sets f sets end.

Definition commit_removal (p : FieldIndex V * list Z) (rm : Z * Z) : FieldIndex V * list Z :=
  let '(f, freed) := p in
  let '(slot, ver) := rm in
  let '(f, dropped) := drop_overlay_entry_if_unchanged slot ver f in
  if negb dropped then (f, freed)
  else
    let f := set_bitmaps (remove_key slot (bitmaps f)) f in
    match list_find (λ p : V * Z, p.2 = slot) (emptied f) with
    | Some (_, (value, _)) => (set_emptied (om_remove value (emptied f)) f, freed ++ [slot])
    | None => (f, freed)
    end.
Definition commit (s : SpillStage) f : option (FieldIndex V * list Z) :=
  f ← commit_sets f (st_sets s); Some (foldl commit_removal (f, []) (st_removals s)).

Definition spill (slots : list Z) f : option (FieldIndex V * list Z) :=
  '(f, s) ← stage slots f; commit s f.

(** ** Reads *)

Fixpoint load_stored_entries (b : BlobStore) (covered : Z → bool) (es : list DirEntry) (bm : HeapStore) : HeapStore * bool :=
  match es with
  | [] => (bm, false)
  | e :: es =>
      if covered (d_key e) then load_stored_entries b covered es bm
      else
        let '(c, r) := stored_container b e in
        let bm := match c with Some c => heap_insert_owned (d_key e) c bm | None => bm end in
        let '(bm, r') := load_stored_entries b covered es bm in (bm, r || r')
  end.
Definition load_bitmap f (slot : Z) : HeapStore * bool :=
  let covered key := bool_decide (is_Some (overlay_at f slot key)) in
  let '(dir, r) := stored_dir (bitmaps f) slot in
  let '(bm, r') := load_stored_entries (bitmaps f) covered dir heap_new in
  let changes := match overlay f !! slot with Some ch => sc_containers ch | None => [] end in
  (foldl (λ bm p, match p.2 with Some c => heap_insert_owned p.1 c bm | None => bm end) bm changes, r || r').

Fixpoint or_slots f (slots : list Z) (result : HeapStore) : HeapStore * bool :=
  match slots with
  | [] => (result, false)
  | s :: slots =>
      let '(bm, r) := load_bitmap f s in
      let '(result, r') := or_slots f slots (bitmap_or result bm) in (result, r || r')
  end.
Definition or_range f (lo hi : Bound V) : option (HeapStore * bool) :=
  m ← om_range lo hi (ordering f); Some (or_slots f m.*2 heap_new).

Definition evaluate f (p : Predicate V) : option (HeapStore * bool) :=
  match p with
  | PEq v => Some (match om_get v (ordering f) with Some slot => load_bitmap f slot | None => (heap_new, false) end)
  | PNe v => Some (or_slots f (filter (λ e, cmp e.1 v ≠ Eq) (ordering f)).*2 heap_new)
  | PLt v => or_range f Unbounded (Excluded v)
  | PLe v => or_range f Unbounded (Included v)
  | PGt v => or_range f (Excluded v) Unbounded
  | PGe v => or_range f (Included v) Unbounded
  | PBetween lo hi => or_range f (Included lo) (Included hi)
  | PIn vs => Some (or_slots f (omap (λ v, om_get v (ordering f)) vs) heap_new)
  end.

Definition contains_value f (value : V) : bool := bool_decide (is_Some (om_get value (ordering f))).
Definition slot_id_for f (value : V) : option Z := om_get value (ordering f).
Definition distinct_count f : Z := zlen (ordering f).
Definition field_iter f : list (V * HeapStore) := (λ e, (e.1, (load_bitmap f e.2).1)) <$> ordering f.
Definition mapped_values f : list (V * Z) := ordering f.
Definition forget_value (value : V) f : FieldIndex V := set_ordering (om_remove value (ordering f)) f.
Definition raise_next_slot (at_ : Z) f : FieldIndex V := set_next_slot (Z.max (next_slot f) at_) f.
(** [Drop]: the budget the index leaves behind. *)
Definition field_drop f : IndexOverlayBudget := charge (- overlay_bytes f) (budget f).
End index.
