(* ===== verification/FieldChange.v ===== *)
(** * FieldChange: changing one container of a field index

    The invariant of the overlay ([core_wf]) and the effect of [modify_container] of
    [src/minnal_db/src/index/field/field_index.rs]: [content] is the container a slot
    holds under a key, the overlay's if it covers the key and the stored one if not. *)
From S2P Require Import Prelude Slices ArrayMerge Words Container ContainerStore Bitmap Bytes HashTable DirStorage BlobStore BlobStoreSpec.
From S2P Require Import OrdMap OverlayBudget FieldIndex.

(** ** What a field index reads from its blob store

    [stored_dir], [stored_entry], [stored_count] and [stored_container] of
    [src/minnal_db/src/index/field/field_index.rs] over a clean store, one whose blobs
    are directories of containers: no read raises the corruption flag, and the reads
    agree on one map from container keys to containers. *)

(** Containers of a field index: canonical, not empty, and never run-length encoded
    ([insert] and [remove] do not make runs). *)
Definition not_run (c : Container) : Prop := match c with CRun _ => False | _ => True end.
Definition good (c : Container) : Prop := container_wf c ∧ container_is_empty c = false ∧ not_run c.
Definition high_key (k : Z) : Prop := 0 ≤ k < 2 ^ 112.

Section stored.
Context `{CrcLaws} `{RkyvLaws}.

Definition entry_ok (b : BlobStore) (e : DirEntry) : Prop :=
  high_key (d_key e) ∧ d_offset e + d_len e ≤ write_pos b ∧
  ∃ bytes c, value_slice b (d_offset e) (d_len e) = Some bytes ∧ decode_container bytes = Ok c ∧ good c.
Definition dir_ok (b : BlobStore) (blob : region) (es : list DirEntry) : Prop :=
  blob = encode_dir es ∧ dir_wf es ∧ Forall (entry_ok b) es.
Definition store_clean (b : BlobStore) : Prop :=
  ∀ slot blob, blob_values b !! slot = Some blob → ∃ es, dir_ok b blob es.

(** The container a directory lists under a key. *)
Definition dir_container (b : BlobStore) (es : list DirEntry) (key : Z) : option Container :=
  e ← dir_find es key; (stored_container b e).1.
Definition stored_at (b : BlobStore) (slot key : Z) : option Container := (load_stored b slot key).1.

Lemma entry_ok_container b e : entry_ok b e → ∃ c, stored_container b e = (Some c, false) ∧ good c.
Proof using. intros (_ & _ & bytes & c & Hs & Hd & Hc). exists c. unfold stored_container. by rewrite Hs, Hd. Qed.

Lemma dir_find_ok b es key e : Forall (entry_ok b) es → dir_wf es → dir_find es key = Some e → entry_ok b e ∧ d_key e = key ∧ e ∈ es.
Proof using.
  intros Hes [Hs _] He. apply dir_find_Some in He as [Hin Hk]; [|done]. rewrite Forall_forall in Hes. split_and!; [by apply Hes|done|done].
Qed.

(** The one description every read of a slot agrees with. *)
Record slot_dir (b : BlobStore) (slot : Z) (es : list DirEntry) : Prop := {
  sdir_wf : dir_wf es;
  sdir_entries : Forall (entry_ok b) es;
  sdir_dir : stored_dir b slot = (es, false);
  sdir_entry key : stored_entry b slot key = (dir_find es key, false);
  sdir_count : stored_count b slot = zlen es;
  sdir_absent : get_ref b slot = None → es = [];
}.

Lemma stored_slot b slot : blob_wf b → store_clean b → ∃ es, slot_dir b slot es.
Proof using All.
  intros Hwf Hc. pose proof (get_ref_values b slot Hwf) as Hr. destruct (blob_values b !! slot) as [blob|] eqn:E.
  - destruct (Hc slot blob E) as (es & -> & Hes & Hall). exists es.
    split; unfold stored_dir, stored_entry, stored_count; rewrite ?Hr.
    + done.
    + done.
    + by rewrite decode_encode_dir.
    + intros key. by rewrite lookup_dir_encode.
    + rewrite dir_count_encode by apply Hes. done.
    + done.
  - exists []. split; unfold stored_dir, stored_entry, stored_count; rewrite ?Hr; try done. split_and!; [by constructor..|done].
Qed.

Lemma load_slot_dir b slot es key : slot_dir b slot es → load_stored b slot key = (dir_container b es key, false).
Proof using.
  intros Hs. unfold load_stored, dir_container. rewrite (sdir_entry _ _ _ Hs). destruct (dir_find es key) as [e|] eqn:E; [|done].
  apply (dir_find_ok b) in E as (He & _ & _); [|apply Hs..]. destruct (entry_ok_container b e He) as (c & Hc & _).
  cbn [mbind option_bind]. by rewrite Hc.
Qed.

Lemma stored_at_dir b slot es key : slot_dir b slot es → stored_at b slot key = dir_container b es key.
Proof using. intros Hs. unfold stored_at. by rewrite (load_slot_dir _ _ _ _ Hs). Qed.

Lemma dir_container_good b es key c :
  dir_wf es → Forall (entry_ok b) es → dir_container b es key = Some c → good c ∧ high_key key.
Proof using.
  intros Hwf Hes Hc. unfold dir_container in Hc. apply bind_Some in Hc as (e & He & Hc).
  apply (dir_find_ok b) in He as (He & Hk & _); [|done..]. pose proof He as [Hkey _]. rewrite Hk in Hkey. split; [|done].
  destruct (entry_ok_container b e He) as (c' & Hc' & Hg). rewrite Hc' in Hc. by injection Hc as <-.
Qed.

Lemma dir_container_None b es key :
  dir_wf es → Forall (entry_ok b) es → dir_container b es key = None ↔ dir_find es key = None.
Proof using.
  intros Hwf Hes. unfold dir_container. destruct (dir_find es key) as [e|] eqn:E; [|done].
  apply (dir_find_ok b) in E as (He & _ & _); [|done..]. destruct (entry_ok_container b e He) as (c & Hc & _).
  cbn [mbind option_bind]. by rewrite Hc.
Qed.

Lemma stored_at_good b slot key c :
  blob_wf b → store_clean b → stored_at b slot key = Some c → good c ∧ high_key key.
Proof using All.
  intros Hwf Hc Hs. destruct (stored_slot b slot Hwf Hc) as [es Hes]. rewrite (stored_at_dir _ _ es) in Hs by done.
  apply (dir_container_good b es); [apply Hes..|done].
Qed.

(** *** Counting the stored keys the overlay covers *)

Lemma count_stored_filter b slot es ks :
  slot_dir b slot es → count_stored b slot ks = (zlen (filter (λ k, is_Some (dir_find es k)) ks), false).
Proof using.
  intros Hs. induction ks as [|k ks IH]; [done|]. cbn [count_stored]. rewrite (sdir_entry _ _ _ Hs), IH, filter_cons.
  destruct (dir_find es k) as [e|]; [rewrite decide_True by done|rewrite decide_False by (intros [? ?]; done)]; cbn [orb]; [|done].
  f_equal. rewrite zlen_cons. lia.
Qed.

Lemma dir_find_keys es k : ascending (d_key <$> es) → is_Some (dir_find es k) ↔ k ∈ d_key <$> es.
Proof using.
  intros Hs. rewrite list_elem_of_fmap. split.
  - intros [e He]. apply dir_find_Some in He as [Hin Hk]; [|done]. by exists e.
  - intros (e & -> & Hin). exists e. by apply dir_find_Some.
Qed.

Lemma covered_all b slot es ks :
  slot_dir b slot es → NoDup ks →
  (zlen (filter (λ k, is_Some (dir_find es k)) ks) =? stored_count b slot) = true ↔ ∀ k, is_Some (dir_find es k) → k ∈ ks.
Proof using.
  intros Hs Hnd. pose proof (sdir_wf _ _ _ Hs) as [Hasc _]. rewrite (sdir_count _ _ _ Hs), Z.eqb_eq. unfold zlen. rewrite Nat2Z.inj_iff.
  set (fk := filter (λ k, is_Some (dir_find es k)) ks). assert (NoDup fk) as Hf by (by apply NoDup_filter).
  assert (NoDup (d_key <$> es)) as He by (by apply ascending_NoDup).
  assert (fk ⊆ d_key <$> es) as Hsub.
  { intros k Hk. apply list_elem_of_filter in Hk as [Hk _]. by apply dir_find_keys. }
  assert (fk ⊆+ d_key <$> es) as Hsm by (by apply NoDup_submseteq).
  split.
  - intros Hlen k Hk. assert (fk ≡ₚ d_key <$> es) as Hp by (apply submseteq_length_Permutation; [done|rewrite length_fmap; lia]).
    apply dir_find_keys in Hk; [|done]. rewrite <-Hp in Hk. by apply list_elem_of_filter in Hk as [_ Hk].
  - intros Hall. rewrite <-(length_fmap d_key es). apply Permutation_length, NoDup_Permutation; [done..|].
    intros k. split; [apply Hsub|]. intros Hk. apply dir_find_keys in Hk; [|done]. apply list_elem_of_filter. split; [done|by apply Hall].
Qed.

(** *** Stability *)

(** Entries keep their meaning in a store that reads the same below the write position. *)
Definition stable (b b' : BlobStore) : Prop :=
  write_pos b ≤ write_pos b' ∧
  ∀ o l, 0 ≤ o → 0 ≤ l → o + l ≤ write_pos b → value_slice b' o l = value_slice b o l.

Lemma stable_refl b : stable b b.
Proof using. split; [lia|done]. Qed.
Lemma stable_trans b1 b2 b3 : stable b1 b2 → stable b2 b3 → stable b1 b3.
Proof using. intros [P1 S1] [P2 S2]. split; [lia|]. intros o l ? ? ?. rewrite S2, S1 by lia. done. Qed.

Lemma entry_ok_stable b b' e : stable b b' → entry_wf e → entry_ok b e → entry_ok b' e ∧ stored_container b' e = stored_container b e.
Proof using.
  intros [Hp Hst] (_ & Ho & Hl) (Hk & Hend & bytes & c & Hs & Hc). unfold u64 in Ho.
  assert (value_slice b' (d_offset e) (d_len e) = value_slice b (d_offset e) (d_len e)) as Heq by (apply Hst; lia).
  split; [|unfold stored_container; by rewrite Heq]. split; [done|]. split; [lia|]. exists bytes, c. by rewrite Heq.
Qed.

Lemma entries_stable b b' es :
  stable b b' → dir_wf es → Forall (entry_ok b) es →
  Forall (entry_ok b') es ∧ ∀ key, dir_container b' es key = dir_container b es key.
Proof using.
  intros Hst (Hs & Hwf & Hlen) Hes. split.
  - rewrite Forall_forall in Hes, Hwf |- *. intros e He. by apply (entry_ok_stable b); [| apply Hwf|apply Hes].
  - intros key. unfold dir_container. destruct (dir_find es key) as [e|] eqn:E; [|done]. cbn [mbind option_bind].
    apply dir_find_Some in E as [He _]; [|done]. rewrite Forall_forall in Hes, Hwf.
    destruct (entry_ok_stable b b' e) as [_ ->]; [done|by apply Hwf|by apply Hes|done].
Qed.

Lemma slot_dir_stable b b' slot es :
  stable b b' → get_ref b' slot = get_ref b slot → slot_dir b slot es → slot_dir b' slot es.
Proof using.
  intros Hst Hg Hs. destruct (entries_stable b b' es Hst) as [Hes _]; [apply Hs..|].
  destruct Hs as [D1 D2 D3 D4 D5 D6]. unfold stored_dir, stored_entry, stored_count in *.
  split; unfold stored_dir, stored_entry, stored_count; rewrite ?Hg; done.
Qed.
End stored.

(** ** Changing one container of a field index *)

Lemma alter_lookup_Some {A} (m : gmap Z A) i g x : m !! i = Some x → alter g i m = <[i := g x]> m.
Proof. intros Hx. rewrite <-(insert_id m i x Hx) at 1. apply alter_insert_eq. Qed.

Section change.
Context {V : Type} `{Ordered V} `{Cpu} `{HeapCost} `{CrcLaws} `{RkyvLaws} `{HeapBytes}.
Implicit Type f : FieldIndex V.

Definition content f (slot key : Z) : option Container :=
  match overlay_at f slot key with Some o => o | None => stored_at (bitmaps f) slot key end.

Record changes_wf f (slot : Z) (ch : SlotChanges) : Prop := {
  cw_sorted : om_wf (sc_containers ch);
  cw_good k o : om_get k (sc_containers ch) = Some o → high_key k ∧ ∀ c, o = Some c → good c;
  cw_ver k : is_Some (sc_ver ch !! k) ↔ is_Some (om_get k (sc_containers ch));
  cw_bound k v : sc_ver ch !! k = Some v → v < next_ver f;
  cw_empty : sc_empty ch = true ↔ ∀ k, content f slot k = None;
  cw_slot : 0 ≤ slot < next_slot f;
}.

Record core_wf f : Prop := {
  cf_blob : blob_wf (bitmaps f);
  cf_clean : store_clean (bitmaps f);
  cf_overlay slot ch : overlay f !! slot = Some ch → changes_wf f slot ch;
  cf_ver slot : is_Some (overlay_ver f !! slot) ↔ is_Some (overlay f !! slot);
  cf_bound slot v : overlay_ver f !! slot = Some v → v < next_ver f;
}.

(** The parts a change of a container leaves alone. *)
Definition same_frame f f' : Prop :=
  ordering f' = ordering f ∧ emptied f' = emptied f ∧ bitmaps f' = bitmaps f ∧ next_slot f' = next_slot f ∧
  corrupted f' = corrupted f.

Lemma same_frame_refl f : same_frame f f.
Proof using. done. Qed.
Lemma same_frame_trans f1 f2 f3 : same_frame f1 f2 → same_frame f2 f3 → same_frame f1 f3.
Proof using. unfold same_frame. intuition congruence. Qed.

Lemma content_good f slot key c : core_wf f → content f slot key = Some c → good c ∧ high_key key.
Proof using All.
  intros Hf. unfold content, overlay_at. destruct (overlay f !! slot) as [ch|] eqn:E; cbn [mbind option_bind].
  - destruct (om_get key (sc_containers ch)) as [o|] eqn:Eo.
    + intros ->. destruct (cw_good _ _ _ (cf_overlay _ Hf _ _ E) _ _ Eo) as [Hk Hg]. split; [by apply Hg|done].
    + apply stored_at_good; apply Hf.
  - apply stored_at_good; apply Hf.
Qed.

(** A newly touched slot starts from [no_changes]. *)
Definition changes_of f (slot : Z) : SlotChanges := default no_changes (overlay f !! slot).

Lemma overlay_at_changes f slot key : overlay_at f slot key = om_get key (sc_containers (changes_of f slot)).
Proof using. unfold overlay_at, changes_of. by destruct (overlay f !! slot). Qed.

Lemma changes_of_sorted f slot : core_wf f → om_wf (sc_containers (changes_of f slot)).
Proof using.
  intros Hf. unfold changes_of. destruct (overlay f !! slot) as [ch|] eqn:E; [by eapply cw_sorted, cf_overlay|constructor].
Qed.

(** *** The steps of [modify_container] *)

Lemma touch_spec slot f :
  ∃ bytes, overlay (touch slot f) = <[slot := mk_changes (sc_containers (changes_of f slot)) (sc_ver (changes_of f slot))
      (sc_empty (changes_of f slot)) bytes]> (overlay f) ∧
    overlay_ver (touch slot f) = <[slot := next_ver f]> (overlay_ver f) ∧ next_ver (touch slot f) = next_ver f + 1 ∧
    same_frame f (touch slot f).
Proof using.
  unfold touch, changes_of. destruct (overlay f !! slot) as [[cs vs e b]|] eqn:E; cbn [default from_option id sc_containers sc_ver sc_empty].
  - exists b. cbn [overlay set_versions overlay_ver next_ver]. by rewrite insert_id.
  - exists (sc_bytes (add_bytes OVERLAY_SLOT_OVERHEAD no_changes)).
    cbn [charge_slot charge_bytes alter_changes set_overlay set_versions overlay overlay_ver next_ver].
    split; [|done]. by rewrite alter_insert_eq.
Qed.

Lemma existsb_live (m : ordmap Z (option Container)) : om_wf m → existsb is_live m.*2 = true ↔ ∃ k c, om_get k m = Some (Some c).
Proof using.
  intros Hm. rewrite existsb_exists. split.
  - intros (o & Hin & Ho). apply list_elem_of_In, list_elem_of_fmap in Hin as ([k o'] & -> & Hin). cbn [snd] in Ho.
    destruct o' as [c|]; [|done]. exists k, c. by apply om_get_Some.
  - intros (k & c & Hk). exists (Some c). split; [|done]. apply list_elem_of_In, list_elem_of_fmap.
    exists (k, Some c). split; [done|]. by apply om_get_Some.
Qed.

Lemma om_get_keys {A} k (m : ordmap Z A) : om_wf m → is_Some (om_get k m) ↔ k ∈ m.*1.
Proof using.
  intros Hm. rewrite list_elem_of_fmap. split.
  - intros [a Ha]. exists (k, a). split; [done|]. by apply om_get_Some.
  - intros ([k' a] & -> & Hin). exists a. by apply om_get_Some.
Qed.

Lemma recompute_spec slot f ch :
  blob_wf (bitmaps f) → store_clean (bitmaps f) → overlay f !! slot = Some ch → om_wf (sc_containers ch) →
  ∃ e, (e = true ↔ ∀ k, content f slot k = None) ∧
    overlay (recompute_empty slot f) = <[slot := put_empty e ch]> (overlay f) ∧
    overlay_ver (recompute_empty slot f) = overlay_ver f ∧ next_ver (recompute_empty slot f) = next_ver f ∧
    same_frame f (recompute_empty slot f).
Proof using All.
  intros Hb Hc Hch Hs. unfold recompute_empty. rewrite Hch.
  assert (∀ k, content f slot k = match om_get k (sc_containers ch) with Some o => o | None => stored_at (bitmaps f) slot k end) as Hcont
    by (intros k; unfold content, overlay_at; by rewrite Hch).
  destruct (existsb is_live _) eqn:El.
  - apply existsb_live in El as (k & c & Hk); [|done]. exists false. split; [split; [done|]|].
    + intros Hn. specialize (Hn k). by rewrite Hcont, Hk in Hn.
    + cbn. split_and!; [|done..]. by apply alter_lookup_Some.
  - destruct (stored_slot _ slot Hb Hc) as [es Hes]. rewrite (count_stored_filter _ _ _ _ Hes).
    eexists. split; [|cbn; split_and!; [by apply alter_lookup_Some|done..|unfold same_frame; cbn; by rewrite orb_false_r]].
    rewrite (covered_all _ _ _ _ Hes) by (by apply om_wf_NoDup).
    assert (∀ k c, om_get k (sc_containers ch) ≠ Some (Some c)) as Hnl.
    { intros k c Hk. rewrite (proj2 (existsb_live _ Hs)) in El; [done|]. by exists k, c. }
    setoid_rewrite (λ k, eq_trans (Hcont k) (f_equal (λ d, match om_get k (sc_containers ch) with Some o => o | None => d end) (stored_at_dir _ _ es k Hes))).
    pose proof (λ k, dir_container_None _ es k (sdir_wf _ _ _ Hes) (sdir_entries _ _ _ Hes)) as Hn.
    setoid_rewrite <-(om_get_keys _ _ Hs). split; intros Ha k; specialize (Ha k).
    + destruct (om_get k (sc_containers ch)) as [[c|]|] eqn:Ek; [by apply Hnl in Ek|done|]. apply Hn.
      destruct (dir_find es k); [|done]. by destruct Ha as [? ?].
    + intros [x Hx]. destruct (om_get k (sc_containers ch)); [done|]. apply Hn in Ha. by rewrite Hx in Ha.
Qed.

Lemma slot_has_container_spec f slot key :
  core_wf f → slot_has_container f slot key = (bool_decide (is_Some (content f slot key)), false).
Proof using All.
  intros Hf. unfold slot_has_container, content. destruct (overlay_at f slot key); [done|].
  destruct (stored_slot (bitmaps f) slot) as [es Hes]; [apply Hf..|].
  rewrite (sdir_entry _ _ _ Hes), (stored_at_dir _ _ es key Hes). f_equal. apply bool_decide_ext.
  pose proof (dir_container_None _ es key (sdir_wf _ _ _ Hes) (sdir_entries _ _ _ Hes)) as Hn.
  rewrite <-!not_eq_None_Some. tauto.
Qed.

(** [f'] is [f] with [o] under [key] of [slot], written at the next version. *)
Record changed_at f f' (slot key : Z) (o : option Container) : Prop := {
  ca_core : core_wf f';
  ca_frame : same_frame f f';
  ca_content s k : content f' s k = if decide (s = slot ∧ k = key) then o else content f s k;
  ca_next : next_ver f' = next_ver f + 1;
  ca_other s : s ≠ slot → overlay f' !! s = overlay f !! s ∧ overlay_ver f' !! s = overlay_ver f !! s;
  ca_slot : ∃ ch, overlay f' !! slot = Some ch ∧ overlay_ver f' !! slot = Some (next_ver f) ∧
    (∀ k, om_get k (sc_containers ch) = if decide (k = key) then Some o else om_get k (sc_containers (changes_of f slot))) ∧
    sc_ver ch = <[key := next_ver f]> (sc_ver (changes_of f slot));
}.

Lemma content_changed f f' slot key o ch :
  same_frame f f' → overlay f' = <[slot := ch]> (overlay f) →
  (∀ k, om_get k (sc_containers ch) = if decide (k = key) then Some o else om_get k (sc_containers (changes_of f slot))) →
  ∀ s k, content f' s k = if decide (s = slot ∧ k = key) then o else content f s k.
Proof using.
  intros (_ & _ & Hb & _) Ho Hg s k. unfold content. rewrite Hb, !overlay_at_changes. unfold changes_of at 1. rewrite Ho.
  destruct (decide (s = slot)) as [->|Hne].
  - rewrite lookup_insert_eq. cbn [default from_option id]. rewrite Hg. destruct (decide (k = key)) as [->|Hk].
    + by rewrite decide_True.
    + rewrite decide_False by (intros [_ ?]; done). done.
  - rewrite lookup_insert_ne by done. rewrite decide_False by (intros [? _]; done). done.
Qed.

Lemma changed_at_intro f f' slot key o ch :
  core_wf f → 0 ≤ slot < next_slot f → high_key key → (∀ c, o = Some c → good c) →
  same_frame f f' → next_ver f' = next_ver f + 1 → overlay_ver f' = <[slot := next_ver f]> (overlay_ver f) →
  overlay f' = <[slot := ch]> (overlay f) → om_wf (sc_containers ch) →
  (∀ k, om_get k (sc_containers ch) = if decide (k = key) then Some o else om_get k (sc_containers (changes_of f slot))) →
  sc_ver ch = <[key := next_ver f]> (sc_ver (changes_of f slot)) →
  (sc_empty ch = true ↔ ∀ k, content f' slot k = None) →
  changed_at f f' slot key o.
Proof using All.
  intros Hf Hslot Hkey Hgood Hfr Hnv Hov Ho Hs Hg Hver He. pose proof Hf as [Hblob Hclean Hover Hvd Hvb].
  pose proof (content_changed f f' slot key o ch Hfr Ho Hg) as Hc. pose proof Hfr as (_ & _ & Hb & Hns & _).
  assert (∀ s, s ≠ slot → ∀ k, content f' s k = content f s k) as Hcs.
  { intros s Hne k. rewrite Hc. by rewrite decide_False by (intros [? _]; done). }
  split; [split|done|done|done| |].
  - by rewrite Hb.
  - by rewrite Hb.
  - intros s ch'. rewrite Ho. intros [[<- <-]|[Hne Hs']]%lookup_insert_Some.
    + assert (∀ k, is_Some (sc_ver (changes_of f slot) !! k) ↔ is_Some (om_get k (sc_containers (changes_of f slot)))) as Hdom.
      { intros k. unfold changes_of. destruct (overlay f !! slot) as [ch0|] eqn:E; cbn; [by eapply cw_ver, Hover|].
        rewrite lookup_empty. by split; intros [? ?]. }
      split; [done| | | |done|lia].
      * intros k o'. rewrite Hg. destruct (decide (k = key)) as [->|]; [intros [= <-]; done|].
        unfold changes_of. destruct (overlay f !! slot) as [ch0|] eqn:E; [by eapply cw_good, Hover|done].
      * intros k. rewrite Hver, Hg. destruct (decide (k = key)) as [->|].
        { rewrite lookup_insert_eq. by split; eexists. }
        rewrite lookup_insert_ne by done. apply Hdom.
      * intros k v. rewrite Hver, Hnv. intros [[<- <-]|[_ Hv]]%lookup_insert_Some; [lia|].
        unfold changes_of in Hv. destruct (overlay f !! slot) as [ch0|] eqn:E; cbn in Hv; [|by rewrite lookup_empty in Hv].
        pose proof (cw_bound _ _ _ (Hover _ _ E) _ _ Hv). lia.
    + destruct (Hover _ _ Hs') as [C1 C2 C3 C4 C5 C6]. split; [done..| | |lia].
      * intros k v Hv. specialize (C4 k v Hv). lia.
      * rewrite C5. by setoid_rewrite Hcs.
  - intros s. rewrite Hov, Ho. destruct (decide (s = slot)) as [->|]; [rewrite !lookup_insert_eq; by split; eexists|].
    rewrite !lookup_insert_ne by done. apply Hvd.
  - intros s v. rewrite Hov, Hnv. intros [[<- <-]|[_ Hv]]%lookup_insert_Some; [lia|]. specialize (Hvb s v Hv). lia.
  - intros s Hne. by rewrite Ho, Hov, !lookup_insert_ne.
  - exists ch. rewrite Ho, Hov, !lookup_insert_eq. done.
Qed.

(** *** Loading *)

(** The container under [key] has a fresh version and is in the overlay. *)
Definition loaded_at f f' (slot key : Z) : Prop :=
  same_frame f f' ∧ next_ver f' = next_ver f + 1 ∧ overlay_ver f' = <[slot := next_ver f]> (overlay_ver f) ∧
  ∃ cs e b, overlay f' = <[slot := mk_changes cs (<[key := next_ver f]> (sc_ver (changes_of f slot))) e b]> (overlay f) ∧
    om_wf cs ∧ om_get key cs = Some (content f slot key) ∧
    ∀ k, k ≠ key → om_get k cs = om_get k (sc_containers (changes_of f slot)).

Lemma load_spec f slot key :
  core_wf f →
  loaded_at f (load_overlay slot key
    (alter_changes slot (put_version key (default 0 (overlay_ver (touch slot f) !! slot))) (touch slot f))) slot key.
Proof using All.
  intros Hf. destruct (touch_spec slot f) as (b & Ho & Hv & Hn & Hfr). pose proof (changes_of_sorted f slot Hf) as Hs.
  rewrite Hv, lookup_insert_eq. cbn [default from_option id].
  set (f1 := alter_changes slot (put_version key (next_ver f)) (touch slot f)).
  assert (overlay f1 = <[slot := mk_changes (sc_containers (changes_of f slot))
      (<[key := next_ver f]> (sc_ver (changes_of f slot))) (sc_empty (changes_of f slot)) b]> (overlay f)) as Ho1.
  { unfold f1. cbn [alter_changes set_overlay overlay]. rewrite Ho. by rewrite alter_insert_eq. }
  assert (same_frame f f1 ∧ next_ver f1 = next_ver f + 1 ∧ overlay_ver f1 = <[slot := next_ver f]> (overlay_ver f))
    as (Hfr1 & Hn1 & Hv1) by done.
  clearbody f1. assert (overlay_at f1 slot key = overlay_at f slot key) as Hat.
  { rewrite !overlay_at_changes. unfold changes_of at 1. by rewrite Ho1, lookup_insert_eq. }
  unfold load_overlay. rewrite Hat. destruct (overlay_at f slot key) as [o|] eqn:E.
  - split_and!; [done..|]. eexists _, _, _. split; [done|]. split; [done|]. split; [|done].
    rewrite <-overlay_at_changes. unfold content. by rewrite E.
  - pose proof Hfr1 as (_ & _ & Hb & _). rewrite Hb.
    destruct (stored_slot (bitmaps f) slot) as [es Hes]; [apply Hf..|]. rewrite (load_slot_dir _ _ es key Hes).
    unfold loaded_at. cbn [charge_slot charge_bytes alter_changes set_overlay overlay overlay_ver next_ver raise].
    rewrite Ho1, !alter_insert_eq.
    split; [|split; [done|split; [done|]]].
    { destruct Hfr1 as (? & ? & ? & ? & ?). unfold same_frame. cbn. by rewrite orb_false_r. }
    eexists _, _, _. split; [done|]. cbn [put_container sc_containers]. split; [by apply om_insert_wf|]. split.
    + rewrite om_get_insert, decide_True by done. unfold content. by rewrite E, (stored_at_dir _ _ es key Hes).
    + intros k Hk. by rewrite om_get_insert, decide_False.
Qed.

(** *** Changing *)

Definition kept (c : Container) : option Container := if container_is_empty c then None else Some c.

Lemma raise_false f : raise false f = f.
Proof using. destruct f. unfold raise. cbn. by rewrite orb_false_r. Qed.

Lemma alter_frame g slot f : same_frame f (alter_changes slot g f).
Proof using. done. Qed.

Lemma store_changed f f2 slot key c cs e b after before :
  core_wf f → 0 ≤ slot < next_slot f → high_key key → container_wf c → not_run c →
  same_frame f f2 → next_ver f2 = next_ver f + 1 → overlay_ver f2 = <[slot := next_ver f]> (overlay_ver f) →
  overlay f2 = <[slot := mk_changes cs (<[key := next_ver f]> (sc_ver (changes_of f slot))) e b]> (overlay f) →
  om_wf cs → (∀ k, k ≠ key → om_get k cs = om_get k (sc_containers (changes_of f slot))) →
  let f3 := alter_changes slot (put_container key (kept c)) f2 in
  let f4 := if container_is_empty c then recompute_empty slot f3 else alter_changes slot (put_empty false) f3 in
  changed_at f (charge_slot slot (after - before) f4) slot key (kept c).
Proof using All.
  intros Hf Hslot Hkey Hc Hrun Hfr Hn Hv Ho Hs Hcs f3 f4.
  set (cs' := om_insert key (kept c) cs).
  assert (∀ k, om_get k cs' = if decide (k = key) then Some (kept c) else om_get k (sc_containers (changes_of f slot))) as Hg.
  { intros k. unfold cs'. rewrite om_get_insert. case_decide; [done|by apply Hcs]. }
  assert (om_wf cs') as Hs' by (by apply om_insert_wf).
  assert (overlay f3 = <[slot := mk_changes cs' (<[key := next_ver f]> (sc_ver (changes_of f slot))) e b]> (overlay f)) as Ho3.
  { unfold f3. cbn [alter_changes set_overlay overlay]. rewrite Ho. by rewrite alter_insert_eq. }
  assert (∀ e' b', ∃ b'', add_bytes (after - before) (mk_changes cs' (<[key := next_ver f]> (sc_ver (changes_of f slot))) e' b') =
    mk_changes cs' (<[key := next_ver f]> (sc_ver (changes_of f slot))) e' b'') as Hadd by (intros e' b'; by eexists).
  assert (∀ c', kept c = Some c' → good c') as Hgood.
  { unfold kept. intros c'. destruct (container_is_empty c) eqn:E; [done|]. by intros [= <-]. }
  assert (bitmaps f3 = bitmaps f) as Hb3 by apply Hfr.
  assert (same_frame f f3 ∧ next_ver f3 = next_ver f + 1 ∧ overlay_ver f3 = <[slot := next_ver f]> (overlay_ver f))
    as (Hfr3 & Hn3 & Hv3) by done.
  assert (∃ e', let f5 := f4 in
    overlay f4 = <[slot := mk_changes cs' (<[key := next_ver f]> (sc_ver (changes_of f slot))) e' b]> (overlay f) ∧
    same_frame f f4 ∧ next_ver f4 = next_ver f + 1 ∧ overlay_ver f4 = <[slot := next_ver f]> (overlay_ver f) ∧
    (e' = true ↔ ∀ k, content f3 slot k = None)) as (e' & Ho4 & Hfr4 & Hn4 & Hv4 & He').
  { unfold f4. clear Hadd. unfold kept in Hg. destruct (container_is_empty c) eqn:E.
    - destruct (recompute_spec slot f3 (mk_changes cs' (<[key := next_ver f]> (sc_ver (changes_of f slot))) e b))
        as (e' & He' & Ho4 & Hv4 & Hn4 & Hfr4).
      { rewrite Hb3. apply Hf. }
      { rewrite Hb3. apply Hf. }
      { by rewrite Ho3, lookup_insert_eq. }
      { done. }
      exists e'. rewrite Hn4, Hv4, Ho4, Ho3, insert_insert_eq.
      do 4 (split; [done || by eapply same_frame_trans|]). done.
    - exists false. cbn [alter_changes set_overlay overlay]. rewrite Ho3, alter_insert_eq.
      do 4 (split; [done|]). split; [done|]. intros Hn'. specialize (Hn' key). rewrite (content_changed f f3 slot key _ _ Hfr3 Ho3 Hg) in Hn'.
      by rewrite decide_True in Hn'. }
  cbv zeta in Ho4. destruct (Hadd e' b) as [b' Hab]. clearbody f4.
  assert (overlay (charge_slot slot (after - before) f4) =
    <[slot := mk_changes cs' (<[key := next_ver f]> (sc_ver (changes_of f slot))) e' b']> (overlay f)) as Ho5.
  { cbn [charge_slot charge_bytes alter_changes set_overlay overlay]. by rewrite Ho4, alter_insert_eq, Hab. }
  eapply changed_at_intro; [done..|exact Ho5|done|done|done|]. cbn [sc_empty]. rewrite He'.
  assert (same_frame f (charge_slot slot (after - before) f4)) as Hfr5 by done.
  split; intros Hn' k; specialize (Hn' k);
    rewrite (content_changed f _ slot key _ _ Hfr5 Ho5 Hg) in *; rewrite (content_changed f _ slot key _ _ Hfr3 Ho3 Hg) in *; done.
Qed.

Lemma modify_spec f slot key create fn :
  core_wf f → 0 ≤ slot < next_slot f → high_key key →
  (create = true ∨ is_Some (content f slot key)) →
  container_wf (fn (default new_array (content f slot key))).1 → not_run (fn (default new_array (content f slot key))).1 →
  changed_at f (modify_container slot key create fn f).1 slot key (kept (fn (default new_array (content f slot key))).1) ∧
  (modify_container slot key create fn f).2 = (fn (default new_array (content f slot key))).2.
Proof using All.
  intros Hf Hslot Hkey Hcreate Hwf Hrun. unfold modify_container.
  assert ((if create then (true, false) else slot_has_container f slot key) = (true, false)) as ->.
  { destruct create; [done|]. rewrite slot_has_container_spec by done. destruct Hcreate as [|Hs]; [done|]. by rewrite bool_decide_true. }
  rewrite raise_false. cbn [negb].
  destruct (load_spec f slot key Hf) as (Hfr & Hn & Hv & cs & e & b & Ho & Hs & Hk & Hcs).
  set (f2 := load_overlay _ _ _) in *. clearbody f2.
  assert (overlay_at f2 slot key = Some (content f slot key)) as ->.
  { rewrite overlay_at_changes. unfold changes_of. by rewrite Ho, lookup_insert_eq. }
  cbn [default from_option id].
  assert (∀ A (x y : A), match content f slot key with None => if create then x else y | Some _ => x end = x) as Hm.
  { intros A x y. destruct create; [by case_match|]. destruct Hcreate as [|[c ->]]; done. }
  destruct (content f slot key) as [c0|] eqn:Ec; cbn [default from_option id] in *.
  - destruct (fn c0) as [c changed]. cbn [fst snd] in *. split; [|done].
    by apply (store_changed f f2 slot key c cs e b (if container_is_empty c then 0 else heap_bytes c) (heap_bytes c0)).
  - destruct create; [|by destruct Hcreate as [|[? ?]]]. destruct (fn new_array) as [c changed]. cbn [fst snd] in *. split; [|done].
    by apply (store_changed f f2 slot key c cs e b (if container_is_empty c then 0 else heap_bytes c) (heap_bytes new_array)).
Qed.

(** Without [create], a container that is not there is not made. *)
Lemma modify_absent f slot key fn :
  core_wf f → content f slot key = None → modify_container slot key false fn f = (f, false).
Proof using All.
  intros Hf Hc. unfold modify_container. rewrite slot_has_container_spec, Hc by done.
  rewrite bool_decide_false by (intros [? ?]; done). cbn [negb]. by rewrite raise_false.
Qed.
End change.
