(* ===== verification/FieldUpdates.v ===== *)
(** * FieldUpdates: the writes of a field index

    [insert], [insert_many], [set], [remove] and [remove_all_for_rows] of
    [src/minnal_db/src/index/field/field_index.rs], over the map from values to rows
    that the index stands for ([has_row]). *)
From S2P Require Import Prelude Slices Words Bytes OrdMap HashTable ArrayMerge Container ContainerStore Bitmap BitmapReads.
From S2P Require Import DirStorage BlobStore BlobStoreSpec OverlayBudget FieldIndex FieldChange.

(** ** Batches on one container *)

Lemma not_run_insert low c : not_run c → not_run (container_insert low c).1.
Proof. destruct c as [a|b|r]; cbn [container_insert]; [|by case_match|done]. case_match. by case_match. Qed.
Lemma not_run_remove `{Cpu} low c : not_run c → not_run (container_remove low c).1.
Proof. destruct c as [a|b|r]; cbn [container_remove]; [by case_match| |done]. case_match. by case_match. Qed.

Section batch.
Context `{Cpu} (step : Z → Container → Container * bool) (g : bool → bool).
Hypothesis Hstep : ∀ low c, container_wf c → u16 low → container_wf (step low c).1 ∧
  ∀ l, u16 l → container_contains (step low c).1 l = if decide (l = low) then g (container_contains c l) else container_contains c l.
Hypothesis Hrun : ∀ low c, not_run c → not_run (step low c).1.
Hypothesis Hhonest : ∀ low, honest (step low).
Hypothesis Hg : ∀ b, g (g b) = g b.

Let run (lows : list Z) (p : Container * bool) : Container * bool :=
  foldl (λ p low, let '(c, i) := step low p.1 in (c, i || p.2)) p lows.

Lemma batch_spec lows : ∀ c b, container_wf c → not_run c → Forall u16 lows →
  container_wf (run lows (c, b)).1 ∧ not_run (run lows (c, b)).1 ∧
  (∀ l, u16 l → container_contains (run lows (c, b)).1 l = if decide (l ∈ lows) then g (container_contains c l) else container_contains c l) ∧
  ((run lows (c, b)).2 = false → (run lows (c, b)).1 = c ∧ b = false).
Proof using Hstep Hrun Hhonest Hg.
  induction lows as [|low lows IH]; intros c b Hc Hr Hl.
  { unfold run. cbn [foldl fst snd]. split_and!; [done|done| |done]. intros l _.
    by rewrite decide_False by apply not_elem_of_nil. }
  apply Forall_cons in Hl as [Hlow Hl]. unfold run in *. cbn [foldl fst snd].
  destruct (Hstep low c Hc Hlow) as [Hc' Hin']. pose proof (Hrun low c Hr) as Hr'. pose proof (Hhonest low c) as Hh.
  destruct (step low c) as [c' i]. cbn [fst snd] in *. destruct (IH c' (i || b) Hc' Hr' Hl) as (I1 & I2 & I3 & I4).
  split_and!; [done|done| |].
  - intros l Hlu. rewrite I3, Hin' by done. destruct (decide (l ∈ lows)) as [Hin|Hin].
    + destruct (decide (l ∈ low :: lows)) as [_|[]]; [|by right]. case_decide; [apply Hg|done].
    + destruct (decide (l ∈ low :: lows)) as [Hc'l|Hnot]; destruct (decide (l = low)) as [->|Hne]; [done| |by destruct Hnot; left|done].
      by apply elem_of_cons in Hc'l as [|].
  - intros Hf. destruct (I4 Hf) as [-> [-> ->]%orb_false_iff]. split; [by apply Hh|done].
Qed.
End batch.

Section closures.
Context `{Cpu}.

Lemma insert_lows_spec lows c :
  container_wf c → not_run c → Forall u16 lows →
  container_wf (insert_lows lows c).1 ∧ not_run (insert_lows lows c).1 ∧
  (∀ l, u16 l → container_contains (insert_lows lows c).1 l = bool_decide (l ∈ lows) || container_contains c l) ∧
  ((insert_lows lows c).2 = false → (insert_lows lows c).1 = c).
Proof.
  intros Hc Hr Hl. destruct (batch_spec container_insert (λ _, true)) with lows c false as (I1 & I2 & I3 & I4); try done.
  - intros low c' Hc' Hlow. destruct (container_insert_spec c' low Hc' Hlow) as (W & _ & Hin). split; [done|].
    intros l Hlu. rewrite Hin by done. case_decide; [subst; by rewrite Z.eqb_refl|by rewrite (proj2 (Z.eqb_neq _ _))].
  - apply not_run_insert.
  - apply honest_insert.
  - split_and!; [done|done| |by intros Hf; apply I4].
    intros l Hlu. unfold insert_lows. rewrite I3 by done. case_decide; [by rewrite bool_decide_true|by rewrite bool_decide_false].
Qed.

Lemma remove_lows_spec lows c :
  container_wf c → not_run c → Forall u16 lows →
  container_wf (remove_lows lows c).1 ∧ not_run (remove_lows lows c).1 ∧
  (∀ l, u16 l → container_contains (remove_lows lows c).1 l = negb (bool_decide (l ∈ lows)) && container_contains c l) ∧
  ((remove_lows lows c).2 = false → (remove_lows lows c).1 = c).
Proof.
  intros Hc Hr Hl. destruct (batch_spec container_remove (λ _, false)) with lows c false as (I1 & I2 & I3 & I4); try done.
  - intros low c' Hc' Hlow. destruct (container_remove_spec c' low Hc' Hlow) as (W & _ & Hin). split; [done|].
    intros l Hlu. rewrite Hin by done.
    case_decide; [subst; by rewrite Z.eqb_refl, andb_false_r|by rewrite (proj2 (Z.eqb_neq _ _)), andb_true_r].
  - intros low c'. apply not_run_remove.
  - apply honest_remove.
  - split_and!; [done|done| |by intros Hf; apply I4].
    intros l Hlu. unfold remove_lows. rewrite I3 by done. case_decide; [by rewrite bool_decide_true|by rewrite bool_decide_false].
Qed.
End closures.

(** ** Grouping rows *)

Definition in_groups (groups : ordmap Z (list Z)) (h l : Z) : Prop := ∃ lows, om_get h groups = Some lows ∧ l ∈ lows.

Record groups_wf (groups : ordmap Z (list Z)) : Prop := {
  gw_sorted : om_wf groups;
  gw_keys h lows : (h, lows) ∈ groups → high_key h ∧ Forall u16 lows ∧ lows ≠ [];
}.

Lemma add_row_spec groups row :
  groups_wf groups → u128 row →
  groups_wf (add_row groups row) ∧
  ∀ h l, in_groups (add_row groups row) h l ↔ in_groups groups h l ∨ (h = row / 65536 ∧ l = row mod 65536).
Proof.
  intros [Hs Hk] Hrow. unfold add_row. rewrite decompose_div. split; [split|].
  - by apply om_insert_wf.
  - intros h lows [[= -> ->]|Hin]%elem_of_om_insert; [|by apply Hk].
    split; [apply high_bound, Hrow|]. split; [|by destruct (default [] _)].
    apply Forall_app. split; [|constructor; [apply low_u16|constructor]].
    destruct (om_get (row / 65536) groups) as [lows|] eqn:E; [|constructor].
    apply om_get_Some in E; [|done]. by eapply Hk.
  - intros h l. unfold in_groups. setoid_rewrite om_get_insert. destruct (decide (h = row / 65536)) as [->|Hne].
    + split.
      * intros (lows & [= <-] & Hin). apply elem_of_app in Hin as [Hin|Hin%list_elem_of_singleton]; [left|by right].
        destruct (om_get (row / 65536) groups) as [lows|]; [by exists lows|by apply elem_of_nil in Hin].
      * intros [(lows & -> & Hin)|[_ ->]]; eexists; (split; [done|]); apply elem_of_app; [by left|].
        right. by apply list_elem_of_singleton.
    + split; [by left|]. by intros [|[? _]].
Qed.

Lemma group_rows_spec rows :
  Forall u128 rows →
  groups_wf (group_rows rows) ∧ ∀ h l, in_groups (group_rows rows) h l ↔ ∃ row, row ∈ rows ∧ h = row / 65536 ∧ l = row mod 65536.
Proof.
  intros Hr. unfold group_rows.
  assert (∀ g, groups_wf g → groups_wf (foldl add_row g rows) ∧ ∀ h l, in_groups (foldl add_row g rows) h l ↔
    in_groups g h l ∨ ∃ row, row ∈ rows ∧ h = row / 65536 ∧ l = row mod 65536) as Hgen.
  { induction Hr as [|row rows Hrow Hr IH]; intros g Hg; cbn [foldl].
    - split; [done|]. intros h l. split; [by left|]. intros [|(? & ?%elem_of_nil & _)]; done.
    - destruct (add_row_spec g row Hg Hrow) as [Hw Hi]. destruct (IH _ Hw) as [Hw' Hi']. split; [done|].
      intros h l. rewrite Hi', Hi. setoid_rewrite elem_of_cons. naive_solver. }
  destruct (Hgen []) as [Hw Hi]; [split; [constructor|by intros ? ? ?%elem_of_nil]|].
  split; [done|]. intros h l. rewrite Hi. split; [intros [(? & ? & _)|]; done|by right].
Qed.

Lemma in_groups_cons h lows groups k l :
  om_wf ((h, lows) :: groups) → in_groups ((h, lows) :: groups) k l ↔ (k = h ∧ l ∈ lows) ∨ in_groups groups k l.
Proof.
  intros Hs. pose proof Hs as Hs'. apply om_wf_cons in Hs' as [_ Hs']. unfold in_groups. split.
  - intros (ls & Hls & Hl). apply om_get_Some in Hls; [|done]. apply elem_of_cons in Hls as [[= -> ->]|Hls]; [by left|right].
    exists ls. split; [by apply om_get_Some|done].
  - intros [[-> Hl]|(ls & Hls & Hl)].
    + exists lows. split; [apply om_get_Some; [done|left]|done].
    + exists ls. split; [|done]. apply om_get_Some; [done|]. right. by apply om_get_Some.
Qed.

Lemma groups_wf_cons h lows groups :
  groups_wf ((h, lows) :: groups) → high_key h ∧ Forall u16 lows ∧ lows ≠ [] ∧ groups_wf groups.
Proof.
  intros [Hs Hk]. destruct (Hk h lows) as (? & ? & ?); [left|]. split_and!; [done..|].
  apply om_wf_cons in Hs as [_ Hs]. split; [done|]. intros. apply Hk. by right.
Qed.

(** ** The rows of a slot *)

Section updates.
Context {V : Type} `{OrderedLaws V} `{!EqDecision V} `{Cpu} `{HeapCost} `{CrcLaws} `{RkyvLaws} `{HeapBytes}.
Implicit Type f : FieldIndex V.

Definition holds f (slot h l : Z) : Prop := u16 l ∧ member_at (content f slot h) l = true.

Lemma kept_member c l : container_wf c → u16 l → member_at (kept c) l = container_contains c l.
Proof using.
  intros Hc Hl. unfold kept. destruct (container_is_empty c) eqn:E; [|done]. symmetry. by apply empty_container_contains.
Qed.

Lemma holds_good f slot h l : core_wf f → holds f slot h l → high_key h.
Proof using All.
  intros Hf [_ Hm]. destruct (content f slot h) as [c|] eqn:E; [|done]. by eapply (content_good f).
Qed.

(** A slot holds a row when it holds a container. *)
Lemma content_holds f slot h : core_wf f → is_Some (content f slot h) ↔ ∃ l, holds f slot h l.
Proof using All.
  intros Hf. split.
  - intros [c Hc]. destruct (content_good f _ _ _ Hf Hc) as [(Hwf & He & _) _].
    destruct (to_values c) as [|l vs] eqn:Ev; [by apply to_values_nonempty in Ev|].
    assert (l ∈ to_values c) as Hl by (rewrite Ev; left). apply elem_of_to_values in Hl as [Hl Hin]; [|done].
    exists l. unfold holds. by rewrite Hc.
  - intros (l & _ & Hm). destruct (content f slot h); [by eexists|done].
Qed.

Lemma content_none f slot : core_wf f → (∀ h, content f slot h = None) ↔ ∀ h l, ¬ holds f slot h l.
Proof using All.
  intros Hf. split.
  - intros Hn h l Hh. assert (is_Some (content f slot h)) as [c Hc] by (apply content_holds; [done|by exists l]). by rewrite Hn in Hc.
  - intros Hn h. apply eq_None_not_Some. rewrite content_holds by done. by intros [l Hl%Hn].
Qed.

Definition default_container f slot h : Container := default new_array (content f slot h).

Lemma default_good f slot h : core_wf f → container_wf (default_container f slot h) ∧ not_run (default_container f slot h).
Proof using All.
  intros Hf. unfold default_container. destruct (content f slot h) as [c|] eqn:E; cbn [default from_option id].
  - by destruct (content_good f _ _ _ Hf E) as [(? & _ & ?) _].
  - split; [apply new_array_wf|done].
Qed.

Lemma default_contains f slot h l : u16 l → container_contains (default_container f slot h) l = true ↔ holds f slot h l.
Proof using.
  intros Hl. unfold default_container, holds. destruct (content f slot h); cbn; [tauto|]. split; [done|by intros []].
Qed.

Lemma changed_holds f f' slot key c s h l :
  changed_at f f' slot key (kept c) → container_wf c →
  holds f' s h l ↔ if decide (s = slot ∧ h = key) then u16 l ∧ container_contains c l = true else holds f s h l.
Proof using.
  intros Hch Hc. unfold holds. rewrite (ca_content _ _ _ _ _ Hch). case_decide; [|done].
  split; intros [Hl Hm]; (split; [done|]); by rewrite kept_member in *.
Qed.

(** ** Growth of the overlay between two states *)

(** What a stage relies on: nothing staged disappears, and what changed since has a
    newer version. *)
Record evolves f f' : Prop := {
  ev_bitmaps : bitmaps f' = bitmaps f;
  ev_clean : corrupted f' = corrupted f;
  ev_next : next_ver f ≤ next_ver f';
  ev_slots : next_slot f ≤ next_slot f';
  ev_entry s ch : overlay f !! s = Some ch → ∃ ch', overlay f' !! s = Some ch' ∧
    ((overlay_ver f' !! s = overlay_ver f !! s ∧ ch' = ch) ∨ ∃ v, overlay_ver f' !! s = Some v ∧ next_ver f ≤ v) ∧
    ∀ k, (om_get k (sc_containers ch') = om_get k (sc_containers ch) ∧ sc_ver ch' !! k = sc_ver ch !! k) ∨
      ∃ v, sc_ver ch' !! k = Some v ∧ next_ver f ≤ v ∧ is_Some (om_get k (sc_containers ch'));
}.

Lemma evolves_refl f : evolves f f.
Proof using. split; [done|done|lia|lia|]. intros s ch Hs. exists ch. split; [done|]. split; [by left|]. by left. Qed.

Lemma evolves_maps f f' :
  bitmaps f' = bitmaps f → corrupted f' = corrupted f → next_ver f' = next_ver f → next_slot f ≤ next_slot f' →
  overlay f' = overlay f → overlay_ver f' = overlay_ver f → evolves f f'.
Proof using.
  intros Hb Hc Hn Hs Ho Hv. split; [done|done|lia|done|]. intros s ch. rewrite Ho, Hv. apply (ev_entry _ _ (evolves_refl f)).
Qed.

Lemma evolves_trans f1 f2 f3 : evolves f1 f2 → evolves f2 f3 → evolves f1 f3.
Proof using.
  intros [B1 C1 N1 S1 E1] [B2 C2 N2 S2 E2]. split; [congruence|congruence|lia|lia|]. intros s ch Hs.
  destruct (E1 s ch Hs) as (ch2 & Hs2 & Hv2 & Hk2). destruct (E2 s ch2 Hs2) as (ch3 & Hs3 & Hv3 & Hk3).
  exists ch3. split; [done|]. split.
  - destruct Hv3 as [[Hv3 ->]|(v & Hv & Hle)]; [|right; exists v; split; [done|lia]].
    destruct Hv2 as [[Hv2 ->]|(v & Hv & Hle)]; [left; split; [congruence|done]|right; exists v; split; [congruence|lia]].
  - intros k. destruct (Hk3 k) as [[-> ->]|(v & ? & ? & ?)]; [apply Hk2|]. right. exists v. split_and!; [done|lia|done].
Qed.

Lemma changed_evolves f f' slot key o : changed_at f f' slot key o → evolves f f'.
Proof using.
  intros [_ (_ & _ & Hb & Hn & Hc) _ Hnext Hother (ch' & Ho & Hv & Hg & Hver)]. split; [done|done|lia|lia|].
  intros s ch Hs. destruct (decide (s = slot)) as [->|Hne].
  - exists ch'. split; [done|]. assert (changes_of f slot = ch) as Hch by (unfold changes_of; by rewrite Hs). rewrite Hch in *.
    split; [right; exists (next_ver f); split; [done|lia]|]. intros k. rewrite Hg, Hver. destruct (decide (k = key)) as [->|Hk].
    + right. exists (next_ver f). rewrite lookup_insert_eq. split_and!; [done|lia|by eexists].
    + left. by rewrite lookup_insert_ne by done.
  - destruct (Hother s Hne) as [-> ->]. exists ch. split; [done|]. split; [by left|]. by left.
Qed.

(** ** Batches over the containers of a slot *)

Definition groups_fold (slot : Z) (groups : ordmap Z (list Z)) f : FieldIndex V :=
  foldl (λ f g, (modify_container slot g.1 true (insert_lows g.2) f).1) f groups.

Definition keeps_maps f f' : Prop :=
  ordering f' = ordering f ∧ emptied f' = emptied f ∧ next_slot f' = next_slot f.

Lemma insert_groups_spec slot groups : groups_wf groups → ∀ f, core_wf f → 0 ≤ slot < next_slot f →
  let f' := groups_fold slot groups f in
  core_wf f' ∧ evolves f f' ∧ keeps_maps f f' ∧
  ∀ s h l, holds f' s h l ↔ holds f s h l ∨ (s = slot ∧ in_groups groups h l).
Proof using All.
  induction groups as [|[key lows] groups IH]; intros Hg f Hf Hslot f'.
  { split; [done|]. split; [apply evolves_refl|]. split; [done|]. intros s h l. split; [by left|].
    intros [|[_ (ls & ? & _)]]; done. }
  destruct (groups_wf_cons _ _ _ Hg) as (Hkey & Hlows & _ & Hg').
  destruct (default_good f slot key Hf) as [Hcw Hcr]. unfold default_container in *.
  destruct (insert_lows_spec lows _ Hcw Hcr Hlows) as (Hw & Hr & Hin & _).
  destruct (modify_spec f slot key true (insert_lows lows) Hf Hslot Hkey (or_introl eq_refl) Hw Hr) as [Hch _].
  unfold f', groups_fold. cbn [foldl fst snd]. set (f1 := (modify_container slot key true (insert_lows lows) f).1) in *.
  pose proof (ca_frame _ _ _ _ _ Hch) as (Ho & He & _ & Hn & _).
  destruct (IH Hg' f1) as (Hc2 & Hev2 & (Ho2 & He2 & Hn2) & Hh2); [apply Hch|by rewrite Hn|].
  fold (groups_fold slot groups f1). set (f2 := groups_fold slot groups f1) in *.
  split; [done|]. split; [by eapply evolves_trans; [eapply changed_evolves|]|].
  split; [unfold keeps_maps; by rewrite Ho2, He2, Hn2|]. intros s h l. rewrite Hh2.
  rewrite (in_groups_cons key lows groups h l) by apply Hg. rewrite (changed_holds _ _ _ _ _ s h l Hch Hw).
  destruct (decide (s = slot ∧ h = key)) as [[-> ->]|Hne].
  - assert (u16 l ∧ container_contains (insert_lows lows (default_container f slot key)).1 l = true ↔ holds f slot key l ∨ l ∈ lows) as ->.
    { unfold default_container. split.
      - intros [Hl Hc]. rewrite Hin in Hc by done. apply orb_true_iff in Hc as [Hc|Hc]; [right; by apply bool_decide_eq_true in Hc|].
        left. by apply default_contains.
      - intros [Hh|Hl].
        + pose proof Hh as [Hl _]. split; [done|]. rewrite Hin by done. apply orb_true_iff. right. by apply default_contains.
        + rewrite Forall_forall in Hlows. pose proof (Hlows l Hl) as Hu. split; [done|]. rewrite Hin by done.
          by rewrite bool_decide_true by done. }
    tauto.
  - tauto.
Qed.

Lemma kept_good c : good c → kept c = Some c.
Proof using. intros (_ & He & _). unfold kept. by rewrite He. Qed.

Lemma modify_remove_spec slot key fn lows f :
  core_wf f → 0 ≤ slot < next_slot f → high_key key → Forall u16 lows →
  (∀ c, container_wf c → not_run c → container_wf (fn c).1 ∧ not_run (fn c).1 ∧
    (∀ l, u16 l → container_contains (fn c).1 l = negb (bool_decide (l ∈ lows)) && container_contains c l) ∧
    ((fn c).2 = false → (fn c).1 = c)) →
  let p := modify_container slot key false fn f in
  core_wf p.1 ∧ evolves f p.1 ∧ keeps_maps f p.1 ∧
  (∀ s h l, holds p.1 s h l ↔ holds f s h l ∧ ¬ (s = slot ∧ h = key ∧ l ∈ lows)) ∧
  (p.2 = false → ∀ s h l, holds p.1 s h l ↔ holds f s h l) ∧ (p.2 = true → is_Some (overlay p.1 !! slot)).
Proof using All.
  intros Hf Hslot Hkey Hlows Hfn p. unfold p. destruct (content f slot key) as [c|] eqn:E.
  - destruct (content_good f _ _ _ Hf E) as [Hg _]. pose proof Hg as (Hcw & _ & Hcr).
    destruct (Hfn c Hcw Hcr) as (Hw & Hr & Hin & Hsame).
    destruct (modify_spec f slot key false fn Hf Hslot Hkey) as [Hch Hb]; rewrite ?E; cbn [default from_option id]; [right; by eexists|done|done|].
    rewrite E in Hch, Hb. cbn [default from_option id] in Hch, Hb. pose proof (ca_frame _ _ _ _ _ Hch) as (Ho & He & _ & Hn & _).
    assert (∀ l, u16 l → container_contains c l = true ↔ holds f slot key l) as Hc
      by (intros l Hl; unfold holds; rewrite E; cbn; tauto).
    split; [apply Hch|]. split; [by eapply changed_evolves|]. split; [done|]. split; [|split].
    + intros s h l. rewrite (changed_holds _ _ _ _ _ s h l Hch Hw). destruct (decide (s = slot ∧ h = key)) as [[-> ->]|Hne]; [|tauto].
      split.
      * intros [Hl Ht]. rewrite Hin, andb_true_iff, negb_true_iff, bool_decide_eq_false in Ht by done. destruct Ht as [Hni Ht].
        split; [by apply Hc|tauto].
      * intros [Hh Hni]. pose proof Hh as [Hl _]. split; [done|]. rewrite Hin, andb_true_iff, negb_true_iff, bool_decide_eq_false by done.
        split; [tauto|by apply Hc].
    + rewrite Hb. intros Hf'. apply Hsame in Hf'. intros s h l. rewrite (changed_holds _ _ _ _ _ s h l Hch Hw), Hf'.
      destruct (decide (s = slot ∧ h = key)) as [[-> ->]|Hne]; [|done]. split.
      * intros [Hl Ht]. by apply Hc.
      * intros Hh. pose proof Hh as [Hl _]. split; [done|by apply Hc].
    + intros _. destruct (ca_slot _ _ _ _ _ Hch) as (ch & -> & _). by eexists.
  - rewrite (modify_absent f slot key fn Hf E). cbn [fst snd]. split; [done|]. split; [apply evolves_refl|]. split; [done|].
    split; [|split; [done|done]]. intros s h l. split; [|by intros []]. intros Hh. split; [done|].
    intros (-> & -> & _). destruct Hh as [_ Hh]. by rewrite E in Hh.
Qed.

Lemma remove_groups_spec slot groups : groups_wf groups → ∀ f b, core_wf f → 0 ≤ slot < next_slot f →
  let p := foldl (remove_group slot) (f, b) groups in
  core_wf p.1 ∧ evolves f p.1 ∧ keeps_maps f p.1 ∧
  (∀ s h l, holds p.1 s h l ↔ holds f s h l ∧ ¬ (s = slot ∧ in_groups groups h l)) ∧
  (p.2 = false → b = false ∧ ∀ s h l, holds p.1 s h l ↔ holds f s h l) ∧
  (p.2 = true → b = true ∨ is_Some (overlay p.1 !! slot)).
Proof using All.
  induction groups as [|[key lows] groups IH]; intros Hg f b Hf Hslot p.
  { cbn in p. unfold p. cbn [fst snd]. split; [done|]. split; [apply evolves_refl|]. split; [done|]. split; [|split; [done|by left]].
    intros s h l. split; [|by intros []]. intros Hh. split; [done|]. by intros [_ (ls & ? & _)]. }
  destruct (groups_wf_cons _ _ _ Hg) as (Hkey & Hlows & _ & Hg').
  destruct (modify_remove_spec slot key (remove_lows lows) lows f Hf Hslot Hkey Hlows) as (Hc1 & Hev1 & (Ho1 & He1 & Hn1) & Hh1 & Hs1 & Ht1).
  { intros c Hcw Hcr. by apply remove_lows_spec. }
  unfold p. cbn [foldl].
  assert (remove_group slot (f, b) (key, lows) = (let '(f, c) := modify_container slot key false (remove_lows lows) f in (f, c || b)))
    as -> by done.
  destruct (modify_container slot key false (remove_lows lows) f) as [f1 c1]. cbn [fst snd] in *.
  destruct (IH Hg' f1 (c1 || b) Hc1) as (Hc2 & Hev2 & (Ho2 & He2 & Hn2) & Hh2 & Hs2 & Ht2); [by rewrite Hn1|].
  set (q := foldl (remove_group slot) (f1, c1 || b) groups) in *.
  split; [done|]. split; [by eapply evolves_trans|]. split; [unfold keeps_maps; by rewrite Ho2, He2, Hn2|]. split; [|split].
  - intros s h l. rewrite Hh2, Hh1, (in_groups_cons key lows groups h l) by apply Hg. tauto.
  - intros Hq. destruct (Hs2 Hq) as [[-> ->]%orb_false_iff Hsame]. split; [done|]. intros s h l. by rewrite Hsame, Hs1.
  - intros Hq. destruct (Ht2 Hq) as [[Hc|Hb]%orb_true_iff|Ho]; [right|by left|by right].
    destruct (Ht1 Hc) as [ch Hch]. destruct (ev_entry _ _ Hev2 _ _ Hch) as (ch' & Hch' & _). by exists ch'.
Qed.

(** ** Values and slots *)

(** The slot a value has, or keeps until the next spill. *)
Definition slot_of f (v : V) : option Z :=
  match om_get v (ordering f) with Some s => Some s | None => om_get v (emptied f) end.

Definition has_row f (v : V) (row : Z) : bool :=
  match om_get v (ordering f) with Some s => member_at (content f s (row / 65536)) (row mod 65536) | None => false end.

Record index_wf f : Prop := {
  iw_core : core_wf f;
  iw_ordering : om_wf (ordering f);
  iw_emptied : om_wf (emptied f);
  iw_disjoint v s : om_get v (ordering f) = Some s → om_get v (emptied f) = None;
  iw_inj v v' s : slot_of f v = Some s → slot_of f v' = Some s → v = v';
  iw_range v s : slot_of f v = Some s → 0 ≤ s < next_slot f;
  iw_next : 0 ≤ next_slot f;
  iw_home s h l : holds f s h l → ∃ v, om_get v (ordering f) = Some s;
  iw_waiting v s : om_get v (emptied f) = Some s → is_Some (overlay f !! s);
}.

(** Every value of [ordering] has a row. *)
Record field_wf f : Prop := {
  fw_index : index_wf f;
  fw_live v s : om_get v (ordering f) = Some s → ∃ h l, holds f s h l;
}.

Lemma ordering_slot_of f v s : om_get v (ordering f) = Some s → slot_of f v = Some s.
Proof using. intros Hv. unfold slot_of. by rewrite Hv. Qed.

Lemma has_row_holds f v row :
  index_wf f → has_row f v row = true ↔ ∃ s, slot_of f v = Some s ∧ holds f s (row / 65536) (row mod 65536).
Proof using.
  intros Hf. unfold has_row, holds. split.
  - destruct (om_get v (ordering f)) as [s|] eqn:E; [|done]. intros Hm. exists s.
    split; [by apply ordering_slot_of|]. split; [apply low_u16|done].
  - intros (s & Hs & Hh). destruct (iw_home _ Hf s _ _ Hh) as [v' Hv']. pose proof (ordering_slot_of _ _ _ Hv') as Hs'.
    rewrite (iw_inj _ Hf _ _ _ Hs Hs'), Hv'. by destruct Hh.
Qed.

Lemma keeps_slot_of f f' : keeps_maps f f' → ∀ v, slot_of f' v = slot_of f v.
Proof using. intros (Ho & He & _) v. unfold slot_of. by rewrite Ho, He. Qed.

Lemma index_wf_keeps f f' :
  index_wf f → core_wf f' → keeps_maps f f' → (∀ s h l, holds f' s h l → ∃ v, om_get v (ordering f) = Some s) →
  (∀ v s, om_get v (emptied f) = Some s → is_Some (overlay f' !! s)) → index_wf f'.
Proof using.
  intros Hf Hc Hk Hhome Hwait. pose proof (keeps_slot_of _ _ Hk) as Hs. destruct Hk as (Ho & He & Hn). destruct Hf. split.
  - done.
  - by rewrite Ho.
  - by rewrite He.
  - rewrite Ho, He. done.
  - intros v v' s. rewrite !Hs. eauto.
  - intros v s. rewrite Hs, Hn. eauto.
  - by rewrite Hn.
  - intros s h l Hh. rewrite Ho. eauto.
  - intros v s. rewrite He. apply Hwait.
Qed.

Lemma evolves_waiting f f' : index_wf f → evolves f f' → ∀ v s, om_get v (emptied f) = Some s → is_Some (overlay f' !! s).
Proof using.
  intros Hf Hev v s Hs. destruct (iw_waiting _ Hf v s Hs) as [ch Hch]. destruct (ev_entry _ _ Hev s ch Hch) as (ch' & ? & _). by exists ch'.
Qed.

(** *** Insertion *)

Lemma slot_for_insert_spec value f :
  index_wf f →
  let '(slot, f') := slot_for_insert value f in
  index_wf f' ∧ evolves f f' ∧ om_get value (ordering f') = Some slot ∧ 0 ≤ slot < next_slot f' ∧
  (∀ v, v ≠ value → om_get v (ordering f') = om_get v (ordering f)) ∧
  (∀ v, v ≠ value → slot_of f' v = slot_of f v) ∧ (∀ s, slot_of f value = Some s → s = slot) ∧
  (∀ s h l, holds f' s h l ↔ holds f s h l) ∧ (slot_of f value = None → ∀ h l, ¬ holds f slot h l).
Proof using All.
  intros Hf. unfold slot_for_insert. destruct (om_get value (ordering f)) as [id|] eqn:E.
  { split; [done|]. split; [apply evolves_refl|]. split; [done|]. split; [eapply iw_range; [done|by apply ordering_slot_of]|].
    split; [done|]. split; [done|]. split; [|split; [done|]].
    - intros s. rewrite (ordering_slot_of _ _ _ E). by intros [= ->].
    - by rewrite (ordering_slot_of _ _ _ E). }
  assert (∀ id f1, core_wf f1 → evolves f f1 → (∀ s h l, holds f1 s h l ↔ holds f s h l) →
    ordering f1 = ordering f → om_wf (emptied f1) → om_get value (emptied f1) = None →
    (∀ v, v ≠ value → om_get v (emptied f1) = om_get v (emptied f)) → 0 ≤ id < next_slot f1 →
    (∀ v, v ≠ value → slot_of f v ≠ Some id) → (∀ s, slot_of f value = Some s → s = id) →
    (slot_of f value = None → ∀ h l, ¬ holds f id h l) →
    let f' := set_ordering (om_insert value id (ordering f1)) f1 in
    index_wf f' ∧ evolves f f' ∧ om_get value (ordering f') = Some id ∧ 0 ≤ id < next_slot f' ∧
    (∀ v, v ≠ value → om_get v (ordering f') = om_get v (ordering f)) ∧
    (∀ v, v ≠ value → slot_of f' v = slot_of f v) ∧ (∀ s, slot_of f value = Some s → s = id) ∧
    (∀ s h l, holds f' s h l ↔ holds f s h l) ∧ (slot_of f value = None → ∀ h l, ¬ holds f id h l)) as Hgen.
  { intros id f1 Hc1 Hev Hh Ho Hew Hen Heo Hid Hfresh Hval Hnone f'.
    assert (∀ v, om_get v (ordering f') = if decide (v = value) then Some id else om_get v (ordering f)) as Hord.
    { intros v. unfold f'. cbn [set_ordering ordering]. by rewrite om_get_insert, Ho. }
    assert (∀ v, v ≠ value → slot_of f' v = slot_of f v) as Hso.
    { intros v Hv. unfold slot_of. rewrite Hord, decide_False by done. change (emptied f') with (emptied f1). by rewrite Heo. }
    assert (slot_of f' value = Some id) as Hsv by (apply ordering_slot_of; by rewrite Hord, decide_True).
    split; [split|split; [|split; [|split; [|split; [|split; [|split; [|split]]]]]]].
    - destruct Hc1 as [C1 C2 C3 C4 C5]. split; [done..| |done|done]. intros s ch Hs.
      destruct (C3 s ch Hs) as [D1 D2 D3 D4 D5 D6]. by split.
    - unfold f'. cbn [set_ordering ordering]. rewrite Ho. apply om_insert_wf, Hf.
    - done.
    - intros v s. rewrite Hord. change (emptied f') with (emptied f1). destruct (decide (v = value)) as [->|Hv]; [done|].
      rewrite Heo by done. by eapply iw_disjoint.
    - intros v v' s. destruct (decide (v = value)) as [->|Hv], (decide (v' = value)) as [->|Hv']; rewrite ?Hsv, ?Hso by done; try done.
      + intros [= <-] Hs. by apply Hfresh in Hs.
      + intros Hs [= <-]. by apply Hfresh in Hs.
      + by eapply iw_inj.
    - intros v s. change (next_slot f') with (next_slot f1). destruct (decide (v = value)) as [->|Hv]; rewrite ?Hsv, ?Hso by done.
      + by intros [= <-].
      + intros Hs. pose proof (iw_range _ Hf _ _ Hs). pose proof (ev_slots _ _ Hev). lia.
    - change (next_slot f') with (next_slot f1). lia.
    - intros s h l Hs. apply (Hh s h l) in Hs. destruct (iw_home _ Hf _ _ _ Hs) as [v Hv]. exists v. rewrite Hord.
      rewrite decide_False; [done|]. intros ->. by rewrite E in Hv.
    - intros v s. change (emptied f') with (emptied f1). destruct (decide (v = value)) as [->|Hv]; [by rewrite Hen|].
      rewrite Heo by done. change (overlay f') with (overlay f1). by apply (evolves_waiting f f1).
    - by destruct Hev.
    - by rewrite Hord, decide_True.
    - done.
    - intros v Hv. by rewrite Hord, decide_False.
    - done.
    - done.
    - done.
    - done. }
  assert (slot_of f value = om_get value (emptied f)) as Hsv by (unfold slot_of; by rewrite E).
  destruct (om_get value (emptied f)) as [id|] eqn:Ee; apply Hgen.
  - destruct (iw_core _ Hf) as [C1 C2 C3 C4 C5]. split; [done..| |done|done]. intros s ch Hs.
    destruct (C3 s ch Hs) as [D1 D2 D3 D4 D5 D6]. by split.
  - by apply evolves_maps.
  - done.
  - done.
  - apply om_remove_wf, Hf.
  - cbn. by rewrite om_get_remove, decide_True by (apply Hf || done).
  - intros v Hv. cbn. by rewrite om_get_remove, decide_False by (apply Hf || done).
  - exact (iw_range _ Hf _ _ Hsv).
  - intros v Hv Hs. apply Hv. by apply (iw_inj _ Hf _ _ id).
  - intros s. rewrite Hsv. by intros [= ->].
  - by rewrite Hsv.
  - destruct (iw_core _ Hf) as [C1 C2 C3 C4 C5]. split; [done..| |done|done]. intros s ch Hs.
    destruct (C3 s ch Hs) as [D1 D2 D3 D4 D5 D6]. split; try done. cbn. lia.
  - apply evolves_maps; try done. cbn. lia.
  - done.
  - done.
  - apply Hf.
  - done.
  - done.
  - pose proof (iw_next _ Hf). cbn. lia.
  - intros v _ Hs. pose proof (iw_range _ Hf _ _ Hs). lia.
  - by rewrite Hsv.
  - intros _ h l Hh. destruct (iw_home _ Hf _ _ _ Hh) as [v Hv]. pose proof (iw_range _ Hf _ _ (ordering_slot_of _ _ _ Hv)). lia.
Qed.

Lemma insert_many_spec value rows f :
  field_wf f → Forall u128 rows →
  field_wf (insert_many value rows f) ∧ evolves f (insert_many value rows f) ∧
  ∀ v row, u128 row → has_row (insert_many value rows f) v row = bool_decide (v = value ∧ row ∈ rows) || has_row f v row.
Proof using All.
  intros [Hf Hlive] Hrows. destruct (decide (rows = [])) as [->|Hne].
  { split; [done|]. split; [apply evolves_refl|]. intros v row _. rewrite bool_decide_false; [done|]. by intros [_ ?%elem_of_nil]. }
  assert (insert_many value rows f = let '(slot, f1) := slot_for_insert value f in groups_fold slot (group_rows rows) f1) as ->
    by (by destruct rows).
  pose proof (slot_for_insert_spec value f Hf) as Hsi. destruct (slot_for_insert value f) as [slot f1].
  destruct Hsi as (Hf1 & Hev1 & Hv1 & Hslot & Ho1 & Hso1 & Hsv1 & Hh1 & Hn1).
  destruct (group_rows_spec rows Hrows) as [Hgw Hgi].
  destruct (insert_groups_spec slot _ Hgw f1 (iw_core _ Hf1) Hslot) as (Hc2 & Hev2 & Hk2 & Hh2).
  set (f2 := groups_fold slot (group_rows rows) f1) in *.
  assert (index_wf f2) as Hf2.
  { apply (index_wf_keeps f1); [done..| |by apply evolves_waiting]. intros s h l [Hs|[-> _]]%Hh2; [by eapply iw_home|by exists value]. }
  split; [|split; [by eapply evolves_trans|]].
  - split; [done|]. destruct Hk2 as (-> & _). intros v s Hv. destruct (decide (v = value)) as [->|Hne'].
    + rewrite Hv1 in Hv. injection Hv as <-. destruct rows as [|row rows]; [done|].
      exists (row / 65536), (row mod 65536). apply Hh2. right. split; [done|]. apply Hgi. exists row. split; [left|done].
    + rewrite Ho1 in Hv by done. destruct (Hlive v s Hv) as (h & l & Hh). exists h, l. apply Hh2. left. by apply Hh1.
  - intros v row Hrow. apply eq_true_iff_eq. rewrite orb_true_iff, bool_decide_eq_true, !has_row_holds by done.
    setoid_rewrite (keeps_slot_of _ _ Hk2). setoid_rewrite Hh2. setoid_rewrite Hgi. setoid_rewrite Hh1.
    assert ((∃ r, r ∈ rows ∧ row / 65536 = r / 65536 ∧ row mod 65536 = r mod 65536) ↔ row ∈ rows) as Hrr.
    { split; [|by exists row]. intros (r & Hr & Hd & Hm). replace row with r; [done|].
      rewrite (Z.div_mod r 65536), (Z.div_mod row 65536) by lia. lia. }
    destruct (decide (v = value)) as [->|Hnv].
    + pose proof (ordering_slot_of _ _ _ Hv1) as Hs1. split.
      * intros (s & Hs & [Hh|[-> Hr]]); [|left; split; [done|by apply Hrr]]. rewrite Hs1 in Hs. injection Hs as <-.
        right. destruct (slot_of f value) as [s|] eqn:Es; [exists s; split; [done|]; by rewrite (Hsv1 s eq_refl)|].
        by destruct (Hn1 eq_refl _ _ Hh).
      * intros [[_ Hr]|(s & Hs & Hh)].
        { exists slot. split; [done|]. right. split; [done|by apply Hrr]. }
        apply Hsv1 in Hs as Heq. subst s. exists slot. split; [done|]. by left.
    + rewrite Hso1 by done. split.
      * intros (s & Hs & [Hh|[-> _]]); [right; by exists s|]. exfalso. apply Hnv.
        eapply (iw_inj _ Hf1); [by rewrite Hso1|by apply ordering_slot_of].
      * intros [[? _]|(s & Hs & Hh)]; [done|]. exists s. split; [done|by left].
Qed.

(** *** Removal *)

Lemma slot_is_empty_spec f slot :
  core_wf f → is_Some (overlay f !! slot) → slot_is_empty f slot = true ↔ ∀ h l, ¬ holds f slot h l.
Proof using All.
  intros Hf [ch Hch]. unfold slot_is_empty. rewrite Hch, (cw_empty _ _ _ (cf_overlay _ Hf _ _ Hch)). by apply content_none.
Qed.

(** Only listed keys have a container, so a slot that is not empty has one. *)
Lemma slot_not_empty f slot :
  core_wf f → is_Some (overlay f !! slot) → slot_is_empty f slot = false → ∃ h l, holds f slot h l.
Proof using All.
  intros Hf [ch Hch] He. destruct (stored_slot (bitmaps f) slot) as [es Hes]; [apply Hf..|].
  assert (∀ k, content f slot k = match om_get k (sc_containers ch) with Some o => o | None => dir_container (bitmaps f) es k end) as Hc.
  { intros k. unfold content, overlay_at. rewrite Hch. cbn [mbind option_bind]. by rewrite (stored_at_dir _ _ es k Hes). }
  set (ks := (sc_containers ch).*1 ++ (d_key <$> es)).
  destruct (decide (Exists (λ k, is_Some (content f slot k)) ks)) as [Hex|Hex].
  - apply Exists_exists in Hex as (k & _ & Hk). apply content_holds in Hk as [l Hl]; [|done]. by exists k, l.
  - exfalso. assert (slot_is_empty f slot = true) as Ht; [|by rewrite Ht in He].
    apply slot_is_empty_spec; [done|by exists ch|]. apply content_none; [done|]. intros k.
    destruct (decide (k ∈ ks)) as [Hk|Hk].
    + apply eq_None_not_Some. intros Hs. apply Hex, Exists_exists. by exists k.
    + unfold ks in Hk. rewrite elem_of_app in Hk. pose proof (cw_sorted _ _ _ (cf_overlay _ Hf _ _ Hch)) as Hs.
      rewrite Hc. destruct (om_get k (sc_containers ch)) as [o|] eqn:E.
      { destruct Hk. left. apply om_get_keys; [done|]. by exists o. }
      pose proof (sdir_wf _ _ _ Hes) as Hw. apply dir_container_None; [done|apply Hes|].
      apply eq_None_not_Some. intros Hd. destruct Hk. right. apply dir_find_keys; [apply Hw|done].
Qed.

Lemma retire_spec value slot f :
  index_wf f → om_get value (ordering f) = Some slot → (∀ h l, ¬ holds f slot h l) → is_Some (overlay f !! slot) →
  index_wf (retire value slot f) ∧ evolves f (retire value slot f) ∧
  (∀ v, slot_of (retire value slot f) v = slot_of f v) ∧
  (∀ v, om_get v (ordering (retire value slot f)) = if decide (v = value) then None else om_get v (ordering f)).
Proof using All.
  intros Hf Hv Hn Hover. set (f' := retire value slot f).
  assert (∀ v, om_get v (ordering f') = if decide (v = value) then None else om_get v (ordering f)) as Ho
    by (intros v; cbn; apply om_get_remove, Hf).
  assert (∀ v, om_get v (emptied f') = if decide (v = value) then Some slot else om_get v (emptied f)) as He
    by (intros v; cbn; apply om_get_insert).
  assert (∀ v, slot_of f' v = slot_of f v) as Hs.
  { intros v. unfold slot_of. rewrite Ho, He. destruct (decide (v = value)) as [->|]; [by rewrite Hv|done]. }
  split; [split|split; [by apply evolves_maps|split; [done|done]]].
  - destruct (iw_core _ Hf) as [C1 C2 C3 C4 C5]. split; [done..| |done|done]. intros s ch Hch.
    destruct (C3 s ch Hch) as [D1 D2 D3 D4 D5 D6]. by split.
  - cbn. apply om_remove_wf, Hf.
  - cbn. apply om_insert_wf, Hf.
  - intros v s. rewrite Ho, He. destruct (decide (v = value)); [done|]. by apply (iw_disjoint _ Hf).
  - intros v v' s. rewrite !Hs. by apply (iw_inj _ Hf).
  - intros v s. rewrite Hs. by apply (iw_range _ Hf).
  - apply (iw_next _ Hf).
  - intros s h l Hh. destruct (iw_home _ Hf s h l Hh) as [v Hv']. exists v. rewrite Ho, decide_False; [done|].
    intros ->. rewrite Hv in Hv'. injection Hv' as ->. by eapply Hn.
  - intros v s. rewrite He. destruct (decide (v = value)); [by intros [= <-]|]. apply (iw_waiting _ Hf).
Qed.

(** The end of a removal: [value] leaves [ordering] when its slot emptied. *)
Definition settle (value : V) (slot : Z) (changed : bool) f : FieldIndex V :=
  if changed && slot_is_empty f slot then retire value slot f else f.

Lemma settle_spec f0 f1 changed value slot (R : Z → Z → Prop) :
  field_wf f0 → om_get value (ordering f0) = Some slot → core_wf f1 → evolves f0 f1 → keeps_maps f0 f1 →
  (∀ s h l, holds f1 s h l ↔ holds f0 s h l ∧ ¬ (s = slot ∧ R h l)) →
  (changed = false → ∀ s h l, holds f1 s h l ↔ holds f0 s h l) → (changed = true → is_Some (overlay f1 !! slot)) →
  let f2 := settle value slot changed f1 in
  field_wf f2 ∧ evolves f0 f2 ∧ (∀ v, slot_of f2 v = slot_of f0 v) ∧ (∀ s h l, holds f2 s h l ↔ holds f1 s h l) ∧
  (∀ v, v ≠ value → om_get v (ordering f2) = om_get v (ordering f0)) ∧
  om_get value (ordering f2) = if changed && slot_is_empty f1 slot then None else Some slot.
Proof using All.
  intros [Hf Hlive] Hv Hc1 Hev Hk Hh Hsame Hover f2. pose proof (keeps_slot_of _ _ Hk) as Hs1.
  assert (index_wf f1) as Hf1.
  { apply (index_wf_keeps f0); [done..| |by apply evolves_waiting]. intros s h l [Hs _]%Hh. by eapply iw_home. }
  pose proof Hk as (Ho1 & _). unfold f2, settle. destruct (changed && slot_is_empty f1 slot) eqn:E.
  - apply andb_true_iff in E as [-> E]. pose proof (proj1 (slot_is_empty_spec f1 slot Hc1 (Hover eq_refl)) E) as Hn.
    destruct (retire_spec value slot f1 Hf1) as (Hw & Hev' & Hs2 & Ho2); [by rewrite Ho1|done|by apply Hover|].
    split; [split; [done|]|split; [by eapply evolves_trans|split; [|split; [done|split]]]].
    + intros v s. rewrite Ho2, Ho1. destruct (decide (v = value)) as [|Hne]; [done|]. intros Hs.
      destruct (Hlive v s Hs) as (h & l & Hhl). exists h, l. change (holds f1 s h l). apply Hh. split; [done|]. intros [-> _].
      apply Hne. by eapply (iw_inj _ Hf); apply ordering_slot_of.
    + intros v. by rewrite Hs2, Hs1.
    + intros v Hne. by rewrite Ho2, decide_False, Ho1.
    + by rewrite Ho2, decide_True.
  - split; [split; [done|]|split; [done|split; [done|split; [done|split; [by rewrite Ho1|by rewrite Ho1]]]]].
    intros v s. rewrite Ho1. intros Hs. destruct (Hlive v s Hs) as (h & l & Hhl).
    destruct changed; [|exists h, l; by apply Hsame]. destruct (decide (s = slot)) as [->|Hne].
    + cbn [andb] in E. by apply slot_not_empty; [|apply Hover|].
    + exists h, l. apply Hh. split; [done|]. by intros [].
Qed.

(** A row is its container key and its low half. *)
Lemma row_split (r row : Z) : r = row ↔ r / 65536 = row / 65536 ∧ r mod 65536 = row mod 65536.
Proof using.
  split; [by intros ->|]. intros [Hd Hm]. rewrite (Z.div_mod r 65536), (Z.div_mod row 65536) by lia. lia.
Qed.

Lemma has_row_removed f f' (P : Z → Z → Z → Prop) (Q : V → Z → Prop) :
  index_wf f → index_wf f' → (∀ v, slot_of f' v = slot_of f v) →
  (∀ s h l, holds f' s h l ↔ holds f s h l ∧ ¬ P s h l) →
  (∀ v s row, om_get v (ordering f) = Some s → P s (row / 65536) (row mod 65536) ↔ Q v row) →
  ∀ v row, has_row f' v row = true ↔ has_row f v row = true ∧ ¬ Q v row.
Proof using.
  intros Hf Hf' Hs Hh Hq v row. rewrite !has_row_holds by done. setoid_rewrite Hs. setoid_rewrite Hh. split.
  - intros (s & Hv & Hhl & Hn). split; [by exists s|].
    destruct (iw_home _ Hf _ _ _ Hhl) as [v' Hv']. pose proof (iw_inj _ Hf _ _ _ Hv (ordering_slot_of _ _ _ Hv')) as <-.
    by rewrite <-(Hq v s row Hv').
  - intros ((s & Hv & Hhl) & Hn). exists s. split; [done|]. split; [done|].
    destruct (iw_home _ Hf _ _ _ Hhl) as [v' Hv']. pose proof (iw_inj _ Hf _ _ _ Hv (ordering_slot_of _ _ _ Hv')) as <-.
    by rewrite (Hq v s row Hv').
Qed.

Lemma ordering_inj f v v' s :
  index_wf f → om_get v (ordering f) = Some s → om_get v' (ordering f) = Some s → v = v'.
Proof using. intros Hf Hs Hs'. by eapply (iw_inj _ Hf); apply ordering_slot_of. Qed.

Lemma remove_spec value row f :
  field_wf f → u128 row →
  field_wf (remove value row f) ∧ evolves f (remove value row f) ∧ (∀ v, slot_of (remove value row f) v = slot_of f v) ∧
  ∀ v r, u128 r → has_row (remove value row f) v r = has_row f v r && negb (bool_decide (v = value ∧ r = row)).
Proof using All.
  intros Hfw Hrow. pose proof Hfw as [Hf Hlive]. unfold remove. destruct (om_get value (ordering f)) as [slot|] eqn:E.
  2:{ split; [done|]. split; [apply evolves_refl|]. split; [done|]. intros v r _. case_bool_decide as Hvr; [|by rewrite andb_true_r].
      destruct Hvr as [-> ->]. unfold has_row. by rewrite E. }
  rewrite decompose_div. pose proof (iw_range _ Hf _ _ (ordering_slot_of _ _ _ E)) as Hslot.
  destruct (modify_remove_spec slot (row / 65536) (container_remove (row mod 65536)) [row mod 65536] f (iw_core _ Hf) Hslot)
    as (Hc1 & Hev1 & Hk1 & Hh1 & Hs1 & Ho1); [apply high_bound, Hrow|constructor; [apply low_u16|constructor]| |].
  { intros c Hc Hr. destruct (container_remove_spec c (row mod 65536) Hc (low_u16 row)) as (W & _ & Hin). split; [done|].
    split; [by apply not_run_remove|]. split; [|apply honest_remove]. intros l Hl. rewrite Hin by done.
    rewrite andb_comm. f_equal. f_equal. apply eq_true_iff_eq. by rewrite Z.eqb_eq, bool_decide_eq_true, list_elem_of_singleton. }
  destruct (modify_container slot (row / 65536) false (container_remove (row mod 65536)) f) as [f1 changed]. cbn [fst snd] in *.
  destruct (settle_spec f f1 changed value slot (λ h l, h = row / 65536 ∧ l ∈ [row mod 65536]) Hfw E Hc1 Hev1 Hk1 Hh1 Hs1 Ho1)
    as (Hw2 & Hev2 & Hs2 & Hh2 & _). fold (settle value slot changed f1). set (f2 := settle value slot changed f1) in *.
  split; [done|]. split; [done|]. split; [done|]. intros v r Hr. apply eq_true_iff_eq.
  rewrite andb_true_iff, negb_true_iff, bool_decide_eq_false.
  apply (has_row_removed f f2 (λ s h l, s = slot ∧ h = row / 65536 ∧ l ∈ [row mod 65536]) (λ v r, v = value ∧ r = row)).
  - done.
  - apply Hw2.
  - done.
  - intros s h l. by rewrite Hh2, Hh1.
  - intros v' s r' Hv'. rewrite list_elem_of_singleton, (row_split r' row). split.
    + intros [-> Hd]. split; [|done]. by apply (ordering_inj f _ _ slot).
    + intros [-> Hd]. split; [|done]. rewrite E in Hv'. by injection Hv' as <-.
Qed.

(** *** Removal from every value *)

Lemma contains_any_spec f slot h lows :
  Forall u16 lows → contains_any lows (content f slot h) = true ↔ ∃ l, l ∈ lows ∧ holds f slot h l.
Proof using.
  intros Hl. rewrite Forall_forall in Hl. unfold contains_any, holds. destruct (content f slot h) as [c|]; cbn [member_at].
  - rewrite existsb_exists. setoid_rewrite <-list_elem_of_In. split.
    + intros (l & Hin & Hc). exists l. split_and!; [done|by apply Hl|done].
    + intros (l & Hin & _ & Hc). by exists l.
  - split; [done|]. by intros (l & _ & _ & ?).
Qed.

Lemma any_group_spec slot groups f :
  groups_wf groups → core_wf f →
  (any_group f slot groups).2 = false ∧
  ((any_group f slot groups).1 = true ↔ ∃ h l, in_groups groups h l ∧ holds f slot h l).
Proof using All.
  intros Hg Hf. induction groups as [|[h lows] groups IH].
  { split; [done|]. split; [done|]. by intros (h & l & (ls & ? & _) & _). }
  destruct (groups_wf_cons _ _ _ Hg) as (_ & Hlows & _ & Hg'). cbn [any_group].
  assert (match overlay_at f slot h with Some c => (c, false) | None => load_stored (bitmaps f) slot h end = (content f slot h, false)) as ->.
  { unfold content. destruct (overlay_at f slot h); [done|]. destruct (stored_slot (bitmaps f) slot) as [es Hes]; [apply Hf..|].
    by rewrite (load_slot_dir _ _ es h Hes), (stored_at_dir _ _ es h Hes). }
  destruct (IH Hg') as [IH1 IH2]. pose proof (contains_any_spec f slot h lows Hlows) as Ha.
  setoid_rewrite (λ k l, in_groups_cons h lows groups k l (gw_sorted _ Hg)).
  destruct (contains_any lows (content f slot h)).
  - split; [done|]. split; [|done]. intros _. destruct (proj1 Ha eq_refl) as (l & Hl & Hh). exists h, l. split; [by left|done].
  - destruct (any_group f slot groups) as [b r]. cbn [fst snd] in *. split; [done|]. rewrite IH2. split.
    + intros (k & l & Hin & Hh). exists k, l. split; [by right|done].
    + intros (k & l & [[-> Hl]|Hin] & Hh); [|by exists k, l]. by assert (false = true) by (apply Ha; by exists l).
Qed.

Definition clears f f' (groups : ordmap Z (list Z)) (slots : list Z) : Prop :=
  ∀ s h l, holds f' s h l ↔ holds f s h l ∧ ¬ (s ∈ slots ∧ in_groups groups h l).

Lemma clear_slot_spec groups f removed value slot :
  groups_wf groups → field_wf f → om_get value (ordering f) = Some slot →
  let p := clear_slot groups (f, removed) (value, slot) in
  field_wf p.1 ∧ evolves f p.1 ∧ (∀ v, slot_of p.1 v = slot_of f v) ∧ clears f p.1 groups [slot] ∧
  (∀ v, v ≠ value → om_get v (ordering p.1) = om_get v (ordering f)) ∧
  ((om_get value (ordering p.1) = Some slot ∧ p.2 = removed) ∨ (om_get value (ordering p.1) = None ∧ p.2 = removed ++ [slot])).
Proof using All.
  intros Hg Hfw E p. pose proof Hfw as [Hf _]. unfold p, clear_slot, slot_contains_any.
  destruct (any_group_spec slot groups f Hg (iw_core _ Hf)) as [Hr Hhit]. destruct (any_group f slot groups) as [hit r]. cbn [fst snd] in *.
  subst r. rewrite raise_false. destruct hit; cbn [negb].
  - destruct (remove_groups_spec slot groups Hg f false (iw_core _ Hf)) as (Hc1 & Hev1 & Hk1 & Hh1 & Hs1 & Ho1);
      [by eapply iw_range, ordering_slot_of|].
    destruct (foldl (remove_group slot) (f, false) groups) as [f1 changed]. cbn [fst snd] in *.
    destruct (settle_spec f f1 changed value slot (λ h l, in_groups groups h l) Hfw E Hc1 Hev1 Hk1 Hh1) as (Hw2 & Hev2 & Hs2 & Hh2 & Hv2 & He2).
    { intros Hc. by apply Hs1. }
    { intros Hc. by destruct (Ho1 Hc). }
    assert (clears f (settle value slot changed f1) groups [slot]) as Hcl
      by (intros s h l; rewrite Hh2, Hh1, list_elem_of_singleton; done).
    unfold settle in *. destruct (changed && slot_is_empty f1 slot); cbn [fst snd].
    + do 5 (split; [done|]). by right.
    + do 5 (split; [done|]). by left.
  - cbn [fst snd]. split; [done|]. split; [apply evolves_refl|]. split; [done|]. split; [|split; [done|by left]].
    intros s h l. split; [|by intros []]. intros Hh. split; [done|]. intros [->%list_elem_of_singleton Hin].
    assert (false = true); [|done]. apply Hhit. by exists h, l.
Qed.

Lemma clear_slots_spec groups es : groups_wf groups → ∀ f removed, field_wf f → NoDup es.*1 →
  (∀ v s, (v, s) ∈ es → om_get v (ordering f) = Some s) →
  let p := foldl (clear_slot groups) (f, removed) es in
  field_wf p.1 ∧ evolves f p.1 ∧ (∀ v, slot_of p.1 v = slot_of f v) ∧ clears f p.1 groups es.*2 ∧
  ∃ more, p.2 = removed ++ more ∧ ∀ s, s ∈ more ↔ ∃ v, (v, s) ∈ es ∧ om_get v (ordering p.1) = None.
Proof using All.
  intros Hg. induction es as [|[value slot] es IH]; intros f removed Hfw Hnd Hes p.
  { split; [done|]. split; [apply evolves_refl|]. split; [done|]. split.
    - intros s h l. split; [|by intros []]. intros Hh. split; [done|]. by intros [?%elem_of_nil _].
    - exists []. rewrite app_nil_r. split; [done|]. intros s. split; [by intros ?%elem_of_nil|]. by intros (v & ?%elem_of_nil & _). }
  assert (om_get value (ordering f) = Some slot) as E by (apply Hes; left).
  rewrite fmap_cons in Hnd. apply NoDup_cons in Hnd as [Hnot Hnd]. cbn [fst] in Hnot.
  assert (∀ v s, (v, s) ∈ es → v ≠ value) as Hne.
  { intros v s Hin ->. apply Hnot. apply list_elem_of_fmap. by exists (value, s). }
  destruct (clear_slot_spec groups f removed value slot Hg Hfw E) as (Hw1 & Hev1 & Hs1 & Hc1 & Ho1 & He1).
  unfold p. cbn [foldl]. destruct (clear_slot groups (f, removed) (value, slot)) as [f1 removed1]. cbn [fst snd] in *.
  destruct (IH f1 removed1 Hw1 Hnd) as (Hw2 & Hev2 & Hs2 & Hc2 & more & Hm & Hmore).
  { intros v s Hin. rewrite Ho1 by (by eapply Hne). apply Hes. by right. }
  set (q := foldl (clear_slot groups) (f1, removed1) es) in *.
  split; [done|]. split; [by eapply evolves_trans|]. split; [intros v; by rewrite Hs2, Hs1|]. split.
  { intros s h l. rewrite (Hc2 s h l), (Hc1 s h l), list_elem_of_singleton, fmap_cons, elem_of_cons. cbn [snd]. tauto. }
  assert (om_get value (ordering q.1) = None ↔ om_get value (ordering f1) = None) as Hval.
  { assert (∀ g, field_wf g → om_get value (ordering g) = None ↔ ∀ s, slot_of g value = Some s → ∀ h l, ¬ holds g s h l) as Hempty.
    { intros g [Hgw Hgl]. split.
      - intros Hn s Hs h l Hh. destruct (iw_home _ Hgw _ _ _ Hh) as [v Hv].
        pose proof (iw_inj _ Hgw _ _ _ Hs (ordering_slot_of _ _ _ Hv)) as ->. by rewrite Hn in Hv.
      - intros Hn. destruct (om_get value (ordering g)) as [s|] eqn:Eg; [|done]. destruct (Hgl _ _ Eg) as (h & l & Hh).
        by destruct (Hn s (ordering_slot_of _ _ _ Eg) h l). }
    rewrite !Hempty by done. setoid_rewrite Hs2. split; intros Hn s Hs h l Hh; apply (Hn s Hs h l).
    - apply (Hc2 s h l). split; [done|]. intros [Hin _]. apply list_elem_of_fmap in Hin as ([v s'] & -> & Hin). cbn [snd] in *.
      apply (Hne v s' Hin). rewrite Hs1 in Hs. apply (iw_inj _ (fw_index _ Hfw) _ _ s'); [|done].
      apply ordering_slot_of, Hes. by right.
    - by apply (Hc2 s h l). }
  destruct He1 as [[He1 ->]|[He1 ->]].
  - exists more. split; [done|]. intros s. rewrite Hmore. setoid_rewrite elem_of_cons. split.
    + intros (v & Hin & Hv). exists v. split; [by right|done].
    + intros (v & [[= -> ->]|Hin] & Hv); [|by exists v]. apply Hval in Hv. by rewrite He1 in Hv.
  - exists (slot :: more). rewrite Hm, <-app_assoc. split; [done|]. intros s. rewrite elem_of_cons, Hmore.
    setoid_rewrite elem_of_cons. split.
    + intros [->|(v & Hin & Hv)]; [exists value; split; [by left|by apply Hval]|]. exists v. split; [by right|done].
    + intros (v & [[= -> ->]|Hin] & Hv); [by left|right; by exists v].
Qed.

Lemma remove_all_spec rows f :
  field_wf f → Forall u128 rows →
  let p := remove_all_for_rows rows f in
  field_wf p.1 ∧ evolves f p.1 ∧ (∀ v, slot_of p.1 v = slot_of f v) ∧
  (∀ v r, u128 r → has_row p.1 v r = has_row f v r && negb (bool_decide (r ∈ rows))) ∧
  ∀ s, s ∈ p.2 ↔ ∃ v, om_get v (ordering f) = Some s ∧ om_get v (ordering p.1) = None.
Proof using All.
  intros Hfw Hrows p. pose proof Hfw as [Hf Hlive]. destruct (decide (rows = [])) as [->|Hne].
  { split; [done|]. split; [apply evolves_refl|]. split; [done|]. split.
    - intros v r _. rewrite bool_decide_false by apply not_elem_of_nil. by rewrite andb_true_r.
    - intros s. split; [by intros ?%elem_of_nil|]. intros (v & Hv & Hn). cbn in Hn. by rewrite Hv in Hn. }
  assert (p = foldl (clear_slot (group_rows rows)) (f, []) (ordering f)) as -> by (unfold p; by destruct rows).
  destruct (group_rows_spec rows Hrows) as [Hg Hgi]. pose proof (iw_ordering _ Hf) as How.
  destruct (clear_slots_spec (group_rows rows) (ordering f) Hg f [] Hfw (om_wf_NoDup _ How)) as (Hw & Hev & Hs & Hc & more & Hm & Hmore).
  { intros v s Hin. by apply om_get_Some. }
  set (q := foldl _ _ _) in *. split; [done|]. split; [done|]. split; [done|]. split.
  - intros v r Hr. apply eq_true_iff_eq. rewrite andb_true_iff, negb_true_iff, bool_decide_eq_false.
    apply (has_row_removed f q.1 (λ s h l, s ∈ (ordering f).*2 ∧ in_groups (group_rows rows) h l) (λ _ r, r ∈ rows)).
    + done.
    + apply Hw.
    + done.
    + intros s h l. apply Hc.
    + intros v' s r' Hv'. rewrite (Hgi (r' / 65536)). split.
      * intros (_ & row & Hin & Hd). apply row_split in Hd. by subst.
      * intros Hin. split; [|by exists r']. apply list_elem_of_fmap. exists (v', s). split; [done|]. by apply om_get_Some.
  - intros s. rewrite Hm. cbn [app]. rewrite Hmore. setoid_rewrite (λ v, iff_sym (om_get_Some (A := Z) v s _ How)). done.
Qed.

Lemma set_spec value row f :
  field_wf f → u128 row →
  let p := set value row f in
  field_wf p.1 ∧ evolves f p.1 ∧
  ∀ v r, u128 r → has_row p.1 v r = if decide (r = row) then bool_decide (v = value) else has_row f v r.
Proof using All.
  intros Hfw Hrow p. assert (Forall u128 [row]) as Hr by (constructor; [done|constructor]).
  destruct (remove_all_spec [row] f Hfw Hr) as (Hw1 & Hev1 & _ & Hh1 & _). unfold p, set, remove_all_for_row.
  destruct (remove_all_for_rows [row] f) as [f1 removed]. cbn [fst snd] in *.
  destruct (insert_many_spec value [row] f1 Hw1 Hr) as (Hw2 & Hev2 & Hh2). split; [done|]. split; [by eapply evolves_trans|].
  intros v r Hu. unfold insert. rewrite Hh2, Hh1 by done. destruct (decide (r = row)) as [->|Hne].
  - rewrite (bool_decide_true (row ∈ [row])) by (by apply list_elem_of_singleton). rewrite andb_false_r, orb_false_r.
    apply bool_decide_ext. rewrite list_elem_of_singleton. tauto.
  - rewrite !bool_decide_false; [by rewrite andb_true_r|by rewrite list_elem_of_singleton|].
    rewrite list_elem_of_singleton. by intros [].
Qed.
End updates.
