(* ===== verification/FieldSpill.v ===== *)
(** * FieldSpill: staging and committing the overlay of a field index

    [stage] and [commit] of [src/minnal_db/src/index/field/field_index.rs].  A stage
    appends the changed containers and new directories; a commit, after any writes in
    between, points the slots at them and drops what did not change since.  [stage_ok]
    is what a stage keeps promising while the index is written to: neither phase
    changes a row of the index. *)
From S2P Require Import Prelude Slices Words Bytes OrdMap HashTable ArrayMerge Container ContainerStore Bitmap BitmapReads.
From S2P Require Import DirStorage BlobStore BlobStoreSpec OverlayBudget FieldIndex FieldChange FieldUpdates.

Section spill.
Context {V : Type} `{OrderedLaws V} `{!EqDecision V} `{Cpu} `{HeapCost} `{CrcLaws} `{RkyvLaws} `{HeapBytes}.
Implicit Type f : FieldIndex V.

(** ** Directories under construction *)

Record entries_inv (b : BlobStore) (m : ordmap Z DirEntry) : Prop := {
  ei_sorted : om_wf m;
  ei_entry k e : om_get k m = Some e → d_key e = k ∧ entry_wf e ∧ entry_ok b e;
}.

Lemma dir_find_cons e es k : dir_find (e :: es) k = if decide (d_key e = k) then Some e else dir_find es k.
Proof using.
  unfold dir_find. cbn [list_find]. destruct (decide (d_key e = k)); [done|].
  by destruct (list_find (λ e, d_key e = k) es) as [[i x]|].
Qed.

Lemma dir_find_entries (m : ordmap Z DirEntry) k :
  om_wf m → (∀ k e, om_get k m = Some e → d_key e = k) → dir_find m.*2 k = om_get k m.
Proof using.
  induction m as [|[k' e] m IH]; intros Hm Hk; [done|]. rewrite fmap_cons, dir_find_cons. cbn [snd].
  pose proof Hm as Hm'. apply om_wf_cons in Hm' as [Hlt Hm'].
  assert (d_key e = k') as Hke by (apply Hk; apply om_get_Some; [done|left]).
  assert (∀ k0 e0, om_get k0 m = Some e0 → d_key e0 = k0) as Hk'.
  { intros k0 e0 Hg. apply Hk. apply om_get_Some; [done|]. right. by apply om_get_Some. }
  rewrite IH by done. apply option_eq. intros x. destruct (decide (d_key e = k)) as [Heq|Hne].
  - rewrite (om_get_Some k x ((k', e) :: m)) by done. rewrite elem_of_cons. split.
    + intros [= <-]. left. congruence.
    + intros [[= -> ->]|Hin]; [done|]. apply Hlt in Hin. rewrite <-Heq, Hke in Hin. unfold cmp, Z_ordered in Hin.
      by rewrite Z.compare_refl in Hin.
  - rewrite (om_get_Some k x ((k', e) :: m)), (om_get_Some k x m) by done. rewrite elem_of_cons. split; [by right|].
    intros [[= -> ->]|Hin]; done.
Qed.

Lemma entries_ascending_keys (m : ordmap Z DirEntry) :
  om_wf m → (∀ k e, om_get k m = Some e → d_key e = k) → ascending (d_key <$> m.*2).
Proof using.
  induction m as [|[k' e] m IH]; intros Hm Hk; [constructor|]. pose proof Hm as Hm'. apply om_wf_cons in Hm' as [Hlt Hm'].
  assert (∀ k0 e0, om_get k0 m = Some e0 → d_key e0 = k0) as Hk'.
  { intros k0 e0 Hg. apply Hk. apply om_get_Some; [done|]. right. by apply om_get_Some. }
  rewrite !fmap_cons. cbn [snd]. apply ascending_cons. split; [|by apply IH]. apply Forall_forall. intros x Hx.
  rewrite <-list_fmap_compose in Hx. apply list_elem_of_fmap in Hx as ([k e0] & -> & Hin). cbn.
  rewrite (Hk k' e) by (apply om_get_Some; [done|left]). rewrite (Hk' k e0) by (by apply om_get_Some).
  apply Hlt in Hin. by apply Z.compare_lt_iff in Hin.
Qed.

Lemma entries_dir b m :
  entries_inv b m → zlen m < 2 ^ 32 →
  dir_wf m.*2 ∧ Forall (entry_ok b) m.*2 ∧ ∀ k, dir_find m.*2 k = om_get k m.
Proof using.
  intros [Hs He] Hlen. assert (∀ k e, om_get k m = Some e → d_key e = k) as Hk by (intros k e Hg; by apply He).
  assert (∀ e, e ∈ m.*2 → entry_wf e ∧ entry_ok b e) as Hall.
  { intros e Hin. apply list_elem_of_fmap in Hin as ([k e'] & -> & Hin). apply om_get_Some in Hin; [|done]. destruct (He k e' Hin) as (_ & ? & ?). done. }
  split; [split_and!|split].
  - by apply entries_ascending_keys.
  - apply Forall_forall. intros e Hin. by apply Hall.
  - by rewrite zlen_fmap.
  - apply Forall_forall. intros e Hin. by apply Hall.
  - intros k. by apply dir_find_entries.
Qed.

Lemma load_entries es : NoDup (d_key <$> es) → ∀ (m : ordmap Z DirEntry) k, om_wf m →
  om_wf (foldl (λ m e, om_insert (d_key e) e m) m es) ∧
  om_get k (foldl (λ m e, om_insert (d_key e) e m) m es) = match dir_find es k with Some e => Some e | None => om_get k m end.
Proof using.
  induction es as [|e es IH]; intros Hnd m k Hm; [done|]. rewrite fmap_cons in Hnd. apply NoDup_cons in Hnd as [Hnot Hnd].
  cbn [foldl]. destruct (IH Hnd (om_insert (d_key e) e m) k) as [IH1 IH2]; [by apply om_insert_wf|]. split; [done|].
  rewrite IH2, dir_find_cons, om_get_insert. destruct (decide (d_key e = k)) as [<-|Hne].
  - rewrite decide_True by done. replace (dir_find es (d_key e)) with (@None DirEntry); [done|].
    symmetry. apply dir_find_None. intros e' Hin Hk. apply Hnot. rewrite <-Hk. by apply list_elem_of_fmap_2.
  - by rewrite (decide_False (P := k = d_key e)) by congruence.
Qed.

Lemma entries_inv_stable b b' m : stable b b' → entries_inv b m → entries_inv b' m.
Proof using.
  intros Hst [Hs He]. split; [done|]. intros k e Hg. destruct (He k e Hg) as (Hk & Hw & Ho). split_and!; [done..|].
  by apply (entry_ok_stable b b' e).
Qed.

(** ** Appending *)

Definition keeps_blobs (b b' : BlobStore) : Prop := blob_wf b' ∧ stable b b' ∧ (∀ k, get_ref b' k = get_ref b k).

Lemma keeps_blobs_trans b1 b2 b3 : keeps_blobs b1 b2 → keeps_blobs b2 b3 → keeps_blobs b1 b3.
Proof using. intros (_ & S1 & G1) (W & S2 & G2). split; [done|]. split; [by eapply stable_trans|]. intros k. by rewrite G2, G1. Qed.

Lemma append_keeps b blob b' o l :
  blob_wf b → append_value blob b = Some (b', (o, l)) →
  keeps_blobs b b' ∧ 0 ≤ o ∧ u64 o ∧ 0 ≤ l < 2 ^ 32 ∧ o + l ≤ write_pos b' ∧ l = zlen blob ∧ zlen blob ≤ U32_MAX ∧
  value_slice b' o l = Some blob.
Proof using All.
  intros Hwf Ha. destruct (append_value_spec b blob b' o l Hwf Ha) as (Hw1 & Hm1 & _ & _ & _ & Ho & _ & Hl & Hp1 & Hsl & Hst).
  pose proof (kw_header _ (bw_keys _ Hwf)) as (_ & _ & _ & Hpos). change (u64 (write_pos b)) in Hpos.
  pose proof (kw_header _ (bw_keys _ Hw1)) as (_ & _ & _ & Hpos1). change (u64 (write_pos b')) in Hpos1.
  pose proof (zlen_nonneg blob) as Hz.
  assert (zlen blob ≤ U32_MAX) as Hu.
  { unfold append_value in Ha. apply bind_Some in Ha as (v & _ & Ha). apply bind_Some in Ha as (len & Hlen & _).
    unfold u32_len in Hlen. by destruct (Z.leb_spec (zlen blob) U32_MAX). }
  unfold u64, U32_MAX in *. split; [|lia || (split_and!; (done || lia))].
  split; [done|]. split; [split; [lia|done]|]. intros k. rewrite !get_ref_spec, Hm1 by done.
  destruct (blob_map b !! k) as [s|] eqn:E; [|done]. cbn [mbind option_bind].
  destruct (blob_map_bounds b k s Hwf E) as (_ & ? & ? & ?). apply Hst; lia.
Qed.

(** ** Encoding the changes of a slot *)

Lemma encode_changes_spec cs : om_wf cs → ∀ m blobs m' blobs',
  om_wf m → encode_changes cs m blobs = Some (m', blobs') →
  om_wf m' ∧ (∀ k, om_get k m' = match om_get k cs with Some None => None | _ => om_get k m end) ∧
  ∃ add, blobs' = blobs ++ add ∧ NoDup add.*1 ∧
    (∀ k bytes, (k, bytes) ∈ add ↔ ∃ c, om_get k cs = Some (Some c) ∧ encode_container c = Ok bytes) ∧
    ∀ k c, om_get k cs = Some (Some c) → ∃ bytes, encode_container c = Ok bytes.
Proof using.
  induction cs as [|[key o] cs IH]; intros Hcs m blobs m' blobs' Hm He.
  { cbn in He. apply (inj Some) in He. apply pair_equal_spec in He as [<- <-]. split; [done|]. split; [done|].
    exists []. rewrite app_nil_r. split; [done|]. split; [constructor|]. split; [|done]. intros k bytes.
    split; [by intros ?%elem_of_nil|]. by intros (c & ? & _). }
  pose proof Hcs as Hcs'. apply om_wf_cons in Hcs' as [Hlt Hcs'].
  assert (∀ k, om_get k ((key, o) :: cs) = if decide (k = key) then Some o else om_get k cs) as Hget by (intros k; by apply om_get_cons).
  assert (om_get key cs = None) as Hkey.
  { apply om_get_None; [done|]. intros a Hin. apply Hlt in Hin. by rewrite cmp_refl in Hin. }
  cbn [encode_changes] in He. destruct o as [c|].
  - destruct (encode_container c) as [bytes|] eqn:Ec; [|done].
    destruct (IH Hcs' _ _ _ _ Hm He) as (Hw & Hg & add & -> & Hnd & Hadd & Hall). split; [done|]. split.
    + intros k. rewrite Hg, Hget. destruct (decide (k = key)) as [->|]; [by rewrite Hkey|done].
    + exists ((key, bytes) :: add). rewrite <-app_assoc. split; [done|]. split.
      * rewrite fmap_cons. constructor; [|done]. intros Hin. apply list_elem_of_fmap in Hin as ([k b] & Hk & Hin). cbn in Hk. subst k.
        apply Hadd in Hin as (c' & Hc' & _). by rewrite Hkey in Hc'.
      * split.
        2:{ intros k c'. rewrite Hget. destruct (decide (k = key)); [intros [= <-]; by exists bytes|by apply Hall]. }
        intros k b. rewrite elem_of_cons, Hadd, Hget. destruct (decide (k = key)) as [->|Hne].
        { split; [|intros (c' & [= <-] & Hb); left; congruence]. intros [[= ->]|(c' & Hc' & _)]; [by exists c|by rewrite Hkey in Hc']. }
        split; [|by right]. by intros [[= -> _]|].
  - destruct (IH Hcs' _ _ _ _ (om_remove_wf key m Hm) He) as (Hw & Hg & add & -> & Hnd & Hadd & Hall). split; [done|]. split.
    + intros k. rewrite Hg, Hget, om_get_remove by done. destruct (decide (k = key)) as [->|]; [by rewrite Hkey|done].
    + exists add. split; [done|]. split; [done|]. split.
      * intros k b. rewrite Hadd, Hget. destruct (decide (k = key)) as [->|]; [|done]. rewrite Hkey. split; by intros (c & ? & _).
      * intros k c. rewrite Hget. destruct (decide (k = key)); [done|]. apply Hall.
Qed.

Lemma encode_decode_container c bytes : encode_container c = Ok bytes → decode_container bytes = Ok c.
Proof using All.
  unfold encode_container, decode_container. destruct (rkyv_to_bytes c) as [b|] eqn:E; [|done]. intros [= <-].
  by rewrite (rkyv_roundtrip c b E).
Qed.

Lemma append_blobs_spec blobs : NoDup blobs.*1 → ∀ b m b' m',
  blob_wf b → entries_inv b m →
  (∀ k bytes, (k, bytes) ∈ blobs → high_key k ∧ ∃ c, good c ∧ encode_container c = Ok bytes) →
  append_blobs blobs m b = Some (b', m') →
  keeps_blobs b b' ∧ entries_inv b' m' ∧
  (∀ k, k ∉ blobs.*1 → om_get k m' = om_get k m) ∧
  ∀ k bytes c, (k, bytes) ∈ blobs → encode_container c = Ok bytes →
    ∃ e, om_get k m' = Some e ∧ stored_container b' e = (Some c, false).
Proof using All.
  induction blobs as [|[key bytes] blobs IH]; intros Hnd b m b' m' Hwf Hm Hb Ha.
  { cbn in Ha. apply (inj Some) in Ha. apply pair_equal_spec in Ha as [<- <-]. split; [split; [done|split; [apply stable_refl|done]]|].
    split; [done|]. split; [done|]. by intros k bytes c ?%elem_of_nil. }
  rewrite fmap_cons in Hnd. apply NoDup_cons in Hnd as [Hnot Hnd]. cbn [fst] in Hnot.
  cbn [append_blobs] in Ha. apply bind_Some in Ha as ([b1 [offset len]] & Ha1 & Ha).
  destruct (append_keeps b bytes b1 offset len Hwf Ha1) as (Hk1 & Ho & Hou & Hl & Hend & _ & _ & Hsl).
  pose proof Hk1 as (Hwf1 & Hst1 & _). destruct (Hb key bytes) as (Hhigh & c0 & Hg0 & Hc0); [left|].
  set (e := mk_dir_entry key offset len) in *.
  assert (entry_wf e) as Hew by (unfold entry_wf, e, u128, high_key in *; cbn [d_key d_offset d_len]; split_and!; (done || lia)).
  assert (stored_container b1 e = (Some c0, false)) as Hsc.
  { unfold stored_container, e. cbn [d_offset d_len]. by rewrite Hsl, (encode_decode_container c0). }
  assert (entry_ok b1 e) as Heo.
  { split; [done|]. split; [exact Hend|]. exists bytes, c0. split; [done|]. split; [by apply encode_decode_container|done]. }
  assert (entries_inv b1 (om_insert key e m)) as Hm1.
  { destruct (entries_inv_stable b b1 m Hst1 Hm) as [Hs He]. split; [by apply om_insert_wf|]. intros k e0.
    rewrite om_get_insert. destruct (decide (k = key)) as [->|]; [|by apply He]. by intros [= <-]. }
  destruct (IH Hnd b1 _ b' m' Hwf1 Hm1) as (Hk2 & Hm2 & Hg2 & Hc2); [intros; apply Hb; by right|done|].
  split; [by eapply keeps_blobs_trans|]. split; [done|]. split.
  - intros k Hk. rewrite fmap_cons, not_elem_of_cons in Hk. destruct Hk as [Hne Hk]. cbn [fst] in Hne.
    rewrite Hg2, om_get_insert, decide_False by done. done.
  - intros k bs c [[= -> ->]|Hin]%elem_of_cons Hc; [|by eapply Hc2].
    exists e. rewrite Hg2, om_get_insert, decide_True by done. split; [done|].
    destruct Hk2 as (_ & Hst2 & _). destruct (entry_ok_stable b1 b' e Hst2 Hew Heo) as [_ ->]. rewrite Hsc.
    apply encode_decode_container in Hc, Hc0. congruence.
Qed.

(** ** What a stage promises *)

Record set_ok f (s : StagedDir) (es : list DirEntry) (ch : SlotChanges) : Prop := {
  so_blob : value_slice (bitmaps f) (sd_offset s) (sd_len s) = Some (encode_dir es);
  so_range : 0 ≤ sd_offset s ∧ 0 ≤ sd_len s < 2 ^ 32 ∧ sd_offset s + sd_len s ≤ write_pos (bitmaps f);
  so_wf : dir_wf es;
  so_entries : Forall (entry_ok (bitmaps f)) es;
  so_overlay : overlay f !! sd_slot s = Some ch;
  so_next : sd_ver s < next_ver f;
  so_keys : NoDup (sd_containers s).*1;
  so_vers k v : (k, v) ∈ sd_containers s → v < next_ver f;
  (* a container not written since was staged *)
  so_same k v o : (k, v) ∈ sd_containers s → sc_ver ch !! k = Some v → om_get k (sc_containers ch) = Some o →
    o = dir_container (bitmaps f) es k;
  (* a container the overlay does not cover was carried over *)
  so_rest k : om_get k (sc_containers ch) = None → dir_container (bitmaps f) es k = stored_at (bitmaps f) (sd_slot s) k;
  (* a slot not written since was staged whole *)
  so_whole k : overlay_ver f !! sd_slot s = Some (sd_ver s) → is_Some (om_get k (sc_containers ch)) →
    ∃ v, (k, v) ∈ sd_containers s ∧ sc_ver ch !! k = Some v;
  so_live : overlay_ver f !! sd_slot s = Some (sd_ver s) → sc_empty ch = false;
}.

Definition set_good f (s : StagedDir) : Prop := ∃ es ch, set_ok f s es ch.
Definition removal_good f (rm : Z * Z) : Prop :=
  is_Some (overlay f !! rm.1) ∧ rm.2 < next_ver f ∧ (overlay_ver f !! rm.1 = Some rm.2 → ∀ k, content f rm.1 k = None).

Record stage_ok f (st : SpillStage) : Prop := {
  sk_sets : Forall (set_good f) (st_sets st);
  sk_removals : Forall (removal_good f) (st_removals st);
  sk_slots : NoDup ((sd_slot <$> st_sets st) ++ (st_removals st).*1);
}.

(** How one slot may move between two states. *)
Record slot_evolves f f' (slot : Z) : Prop := {
  se_stable : stable (bitmaps f) (bitmaps f');
  se_ref : get_ref (bitmaps f') slot = get_ref (bitmaps f) slot;
  se_next : next_ver f ≤ next_ver f';
  se_entry ch : overlay f !! slot = Some ch → ∃ ch', overlay f' !! slot = Some ch' ∧
    ((overlay_ver f' !! slot = overlay_ver f !! slot ∧ ch' = ch) ∨ ∃ v, overlay_ver f' !! slot = Some v ∧ next_ver f ≤ v) ∧
    ∀ k, (om_get k (sc_containers ch') = om_get k (sc_containers ch) ∧ sc_ver ch' !! k = sc_ver ch !! k) ∨
      ∃ v, sc_ver ch' !! k = Some v ∧ next_ver f ≤ v ∧ is_Some (om_get k (sc_containers ch'));
}.

Lemma evolves_slot f f' slot : evolves f f' → slot_evolves f f' slot.
Proof using.
  intros [Hb _ Hn _ He]. split; [rewrite Hb; apply stable_refl|by rewrite Hb|done|]. intros ch Hch. by apply He.
Qed.

Lemma same_entry f f' slot :
  stable (bitmaps f) (bitmaps f') → get_ref (bitmaps f') slot = get_ref (bitmaps f) slot → next_ver f ≤ next_ver f' →
  overlay f' !! slot = overlay f !! slot → overlay_ver f' !! slot = overlay_ver f !! slot → slot_evolves f f' slot.
Proof using.
  intros Hs Hr Hn Ho Hv. split; [done..|]. intros ch Hch. exists ch. rewrite Ho, Hv. split; [done|]. split; [by left|]. by left.
Qed.

Lemma stored_at_stable b b' slot k :
  blob_wf b → store_clean b → stable b b' → get_ref b' slot = get_ref b slot → stored_at b' slot k = stored_at b slot k.
Proof using All.
  intros Hb Hc Hst Hr. destruct (stored_slot b slot Hb Hc) as [es Hes]. pose proof (slot_dir_stable b b' slot es Hst Hr Hes) as Hes'.
  rewrite (stored_at_dir b slot es k Hes), (stored_at_dir b' slot es k Hes').
  apply (entries_stable b b' es Hst); apply Hes.
Qed.

Lemma set_good_evolves f f' s : core_wf f → slot_evolves f f' (sd_slot s) → set_good f s → set_good f' s.
Proof using All.
  intros Hf [Hst Hr Hn He] (es & ch & [S1 S2 S3 S4 S5 S6 S7 S8 S9 S10 S11 S12]). destruct (He ch S5) as (ch' & Ho & Hv & Hk).
  destruct (entries_stable _ _ es Hst S3 S4) as [Hes Hdc]. exists es, ch'. destruct S2 as (R1 & R2 & R3). pose proof Hst as [Hp Hval].
  split; try done.
  - rewrite Hval by lia. done.
  - lia.
  - lia.
  - intros k v Hin. specialize (S8 k v Hin). lia.
  - intros k v o Hin Hvk Hg. rewrite Hdc. destruct (Hk k) as [[Hgk Hvk']|(v' & Hvk' & Hle & _)].
    + apply (S9 k v); congruence.
    + specialize (S8 k v Hin). rewrite Hvk in Hvk'. injection Hvk' as <-. lia.
  - intros k Hg. rewrite Hdc. rewrite (stored_at_stable (bitmaps f)) by (done || apply Hf). apply S10.
    destruct (Hk k) as [[Hgk _]|(v & _ & _ & [o Ho'])]; congruence.
  - intros k Hvs Hg. destruct Hv as [[Hv ->]|(v & Hv & Hle)]; [apply S11; [congruence|done]|].
    rewrite Hvs in Hv. injection Hv as <-. lia.
  - intros Hvs. destruct Hv as [[Hv ->]|(v & Hv & Hle)]; [apply S12; congruence|].
    rewrite Hvs in Hv. injection Hv as <-. lia.
Qed.

Lemma removal_good_evolves f f' rm : core_wf f → slot_evolves f f' rm.1 → removal_good f rm → removal_good f' rm.
Proof using All.
  destruct rm as [slot ver]. intros Hf [Hst Hr Hn He] ([ch Hch] & Hlt & Hc). cbn [fst snd] in *.
  destruct (He ch Hch) as (ch' & Ho & Hv & _). split; [by exists ch'|]. split; [cbn; lia|]. cbn [fst snd]. intros Hvs k.
  destruct Hv as [[Hv ->]|(v & Hv & Hle)]; [|rewrite Hvs in Hv; injection Hv as <-; lia].
  rewrite Hv in Hvs. specialize (Hc Hvs k). unfold content, overlay_at in *. rewrite Ho. rewrite Hch in Hc.
  by rewrite (stored_at_stable (bitmaps f)) by (done || apply Hf).
Qed.

Lemma stage_ok_evolves f f' st : core_wf f → (∀ s, slot_evolves f f' s) → stage_ok f st → stage_ok f' st.
Proof using All.
  intros Hf He [S1 S2 S3]. split; [| |done].
  - eapply Forall_impl; [done|]. intros s. by apply set_good_evolves.
  - eapply Forall_impl; [done|]. intros rm. by apply removal_good_evolves.
Qed.

(** ** Staging *)

(** Everything but the blob store and the corruption flag stays. *)
Record same_index f f' : Prop := {
  si_ordering : ordering f' = ordering f;
  si_emptied : emptied f' = emptied f;
  si_next_slot : next_slot f' = next_slot f;
  si_overlay : overlay f' = overlay f;
  si_ver : overlay_ver f' = overlay_ver f;
  si_next : next_ver f' = next_ver f;
  si_blobs : keeps_blobs (bitmaps f) (bitmaps f');
}.

Lemma same_index_refl f : core_wf f → same_index f f.
Proof using. intros Hf. split; try done. split; [apply Hf|]. split; [apply stable_refl|done]. Qed.
Lemma same_index_trans f1 f2 f3 : same_index f1 f2 → same_index f2 f3 → same_index f1 f3.
Proof using. intros [] []. split; try congruence. by eapply keeps_blobs_trans. Qed.

Lemma same_index_slot f f' slot : same_index f f' → slot_evolves f f' slot.
Proof using.
  intros []. destruct si_blobs0 as (_ & Hst & Hr). apply same_entry; [done|by rewrite Hr|lia|by rewrite si_overlay0|by rewrite si_ver0].
Qed.

Lemma keeps_blobs_clean b b' : blob_wf b → store_clean b → keeps_blobs b b' → store_clean b'.
Proof using All.
  intros Hb Hc (Hb' & Hst & Hr) slot blob Hv. rewrite <-get_ref_values, Hr, get_ref_values in Hv by done.
  destruct (Hc slot blob Hv) as (es & He & Hw & Hall). exists es. split; [done|]. split; [done|]. by apply (entries_stable b b' es).
Qed.

Lemma same_index_content f f' s k : core_wf f → same_index f f' → content f' s k = content f s k.
Proof using All.
  intros Hf [_ _ _ Ho _ _ (_ & Hst & Hr)]. unfold content, overlay_at. rewrite Ho.
  by rewrite (stored_at_stable (bitmaps f) (bitmaps f')) by (done || apply Hf).
Qed.

Lemma same_index_core f f' : core_wf f → same_index f f' → core_wf f'.
Proof using All.
  intros Hf Hs. pose proof (λ s k, same_index_content f f' s k Hf Hs) as Hc. destruct Hf as [C1 C2 C3 C4 C5], Hs as [_ _ Hns Ho Hv Hn Hk].
  split.
  - apply Hk.
  - by eapply keeps_blobs_clean.
  - intros s ch. rewrite Ho. intros Hs. destruct (C3 s ch Hs) as [D1 D2 D3 D4 D5 D6]. split; [done|done|done| | |by rewrite Hns].
    + intros k v. rewrite Hn. apply D4.
    + rewrite D5. by setoid_rewrite Hc.
  - intros s. by rewrite Hv, Ho.
  - intros s v. rewrite Hv, Hn. apply C5.
Qed.

Lemma stored_entries b slot es :
  slot_dir b slot es →
  entries_inv b (foldl (λ m e, om_insert (d_key e) e m) [] es) ∧
  ∀ k, om_get k (foldl (λ m e, om_insert (d_key e) e m) [] es) = dir_find es k.
Proof using.
  intros Hs. pose proof (sdir_wf _ _ _ Hs) as (Hasc & Hwf & _). pose proof (ascending_NoDup _ Hasc) as Hnd.
  assert (∀ k, om_get k (foldl (λ m e, om_insert (d_key e) e m) [] es) = dir_find es k) as Hg.
  { intros k. destruct (load_entries es Hnd [] k) as [_ ->]; [constructor|]. by destruct (dir_find es k). }
  split; [|done]. split; [by apply (load_entries es Hnd [] 0); constructor|].
  intros k e. rewrite Hg. intros He. apply dir_find_Some in He as [Hin Hk]; [|done].
  rewrite Forall_forall in Hwf. pose proof (sdir_entries _ _ _ Hs) as Hes. rewrite Forall_forall in Hes.
  split_and!; [done|by apply Hwf|by apply Hes].
Qed.

Definition extends (st st' : SpillStage) (slot : Z) (f' : FieldIndex V) : Prop :=
  (∃ s, sd_slot s = slot ∧ set_good f' s ∧ overlay_ver f' !! slot = Some (sd_ver s) ∧ st' = mk_spill (st_sets st ++ [s]) (st_removals st)) ∨
  (∃ ver, removal_good f' (slot, ver) ∧ overlay_ver f' !! slot = Some ver ∧ st' = mk_spill (st_sets st) (st_removals st ++ [(slot, ver)])) ∨
  (st' = st ∧ corrupted f' = true).

Lemma stage_slot_spec f st slot f' st' :
  core_wf f → stage_slot (f, st) slot = Some (f', st') →
  same_index f f' ∧ extends st st' slot f' ∧ (corrupted f = true → corrupted f' = true).
Proof using All.
  intros Hf. cbn [stage_slot]. intros Hstage. apply bind_Some in Hstage as (ver & Hver & Hstage).
  apply bind_Some in Hstage as (ch & Hch & Hstage). pose proof (cf_overlay _ Hf _ _ Hch) as [D1 D2 D3 D4 D5 D6].
  pose proof (cf_bound _ Hf _ _ Hver) as Hvb. destruct (sc_empty ch) eqn:Ee.
  { apply (inj Some) in Hstage. apply pair_equal_spec in Hstage as [<- <-]. split; [by apply same_index_refl|]. split; [|done].
    right; left. exists ver. split; [|done]. split; [by exists ch|]. split; [done|]. intros _. by apply D5. }
  destruct (stored_slot (bitmaps f) slot) as [dir Hdir]; [apply Hf..|]. rewrite (sdir_dir _ _ _ Hdir), raise_false in Hstage.
  destruct (stored_entries _ _ _ Hdir) as [Hm Hmg]. set (m := foldl (λ m e, om_insert (d_key e) e m) [] dir) in *. clearbody m.
  destruct (encode_changes (sc_containers ch) m []) as [[m1 blobs]|] eqn:Ee1.
  2:{ apply (inj Some) in Hstage. apply pair_equal_spec in Hstage as [<- <-]. split; [by destruct (same_index_refl f Hf)|].
      split; [|intros _; apply orb_true_r]. right; right. split; [done|]. apply orb_true_r. }
  destruct (encode_changes_spec _ D1 _ _ _ _ (ei_sorted _ _ Hm) Ee1) as (Hs1 & Hg1 & add & Hadd & Hnd & Hin & Hall).
  cbn [app] in Hadd. subst blobs. apply bind_Some in Hstage as ([b1 m2] & Ha & Hstage).
  apply bind_Some in Hstage as ([b2 [offset len]] & Ha2 & Hstage).
  apply (inj Some) in Hstage. apply pair_equal_spec in Hstage as [<- <-].
  assert (entries_inv (bitmaps f) m1) as Hm1.
  { split; [done|]. intros k e. rewrite Hg1. destruct (om_get k (sc_containers ch)) as [[c|]|]; [|done|]; apply Hm. }
  destruct (append_blobs_spec add Hnd (bitmaps f) m1 b1 m2 (cf_blob _ Hf) Hm1) as (Hk1 & Hm2 & Hold & Hnew); [|done|].
  { intros k bytes Hkb. apply Hin in Hkb as (c & Hc & Hb). destruct (D2 _ _ Hc) as [Hh Hg]. split; [done|]. exists c. split; [by apply Hg|done]. }
  destruct (append_keeps b1 _ b2 offset len (proj1 Hk1) Ha2) as (Hk2 & Ho & _ & Hl & Hend & Hlen & Hmax & Hsl).
  pose proof (keeps_blobs_trans _ _ _ Hk1 Hk2) as Hk. pose proof Hk as (Hw2 & Hst & Href). pose proof Hk2 as (_ & Hst2 & _).
  pose proof (entries_inv_stable b1 b2 m2 Hst2 Hm2) as Hm2'.
  assert (zlen m2 < 2 ^ 32) as Hcount.
  { rewrite encode_dir_zlen, zlen_fmap in Hmax. unfold DIR_HEADER, DIR_ENTRY, DIR_CRC, U32_MAX in Hmax. pose proof (zlen_nonneg m2). lia. }
  destruct (entries_dir b2 m2 Hm2' Hcount) as (Hdw & Hde & Hdf). destruct (entries_dir b1 m2 Hm2 Hcount) as (_ & Hde1 & _).
  assert (same_index f (set_bitmaps b2 f)) as Hsi by (split; done).
  split; [done|]. split; [|done]. left. eexists. split; [|split; [|split; [|done]]]; [done| |done]. exists m2.*2, ch.
  assert (∀ k, k ∉ add.*1 → om_get k m2 = om_get k m1) as Hold' by done.
  assert (∀ k, om_get k (sc_containers ch) = Some None ∨ om_get k (sc_containers ch) = None → k ∉ add.*1) as Hna.
  { intros k Hk' Hka. apply list_elem_of_fmap in Hka as ([k0 b0] & -> & Hka). apply Hin in Hka as (c & Hc & _). cbn in Hk'.
    destruct Hk'; congruence. }
  assert (∀ k, dir_container b2 m2.*2 k = e ← om_get k m2; (stored_container b2 e).1) as Hdc by (intros k; unfold dir_container; by rewrite Hdf).
  split; cbn [sd_slot sd_ver sd_offset sd_len sd_containers bitmaps set_bitmaps overlay next_ver overlay_ver]; try done.
  - apply NoDup_fst_map_to_list.
  - intros k v Hkv. apply elem_of_map_to_list in Hkv. by eapply D4.
  - intros k v o _ _ Ho'. rewrite Hdc. destruct o as [c|].
    + destruct (Hall k c Ho') as [bytes Hb]. destruct (Hnew k bytes c) as (e & He & Hec); [apply Hin; by exists c|done|].
      rewrite He. cbn [mbind option_bind].
      destruct (ei_entry _ _ Hm2 _ _ He) as (_ & Hew & Heo). destruct (entry_ok_stable b1 b2 e Hst2 Hew Heo) as [_ ->]. by rewrite Hec.
    + rewrite Hold' by (apply Hna; by left). by rewrite Hg1, Ho'.
  - intros k Hn. rewrite Hdc, Hold', Hg1, Hn, Hmg by (apply Hna; by right).
    rewrite (stored_at_stable (bitmaps f)) by (done || apply Hf). rewrite (stored_at_dir _ _ dir k Hdir).
    destruct (entries_stable _ _ dir Hst) as [_ Hdd]; [apply Hdir..|]. by rewrite <-Hdd.
  - intros k _ Hk'. apply D3 in Hk' as [v Hv]. exists v. split; [by apply elem_of_map_to_list|done].
Qed.

(** No staged slot was written to since. *)
Definition fresh f (st : SpillStage) : Prop :=
  Forall (λ s, overlay_ver f !! sd_slot s = Some (sd_ver s)) (st_sets st) ∧
  Forall (λ rm : Z * Z, overlay_ver f !! rm.1 = Some rm.2) (st_removals st).

Lemma stage_slots_spec slots : ∀ f st f' st',
  core_wf f → stage_ok f st → NoDup ((sd_slot <$> st_sets st) ++ (st_removals st).*1 ++ slots) →
  stage_slots (f, st) slots = Some (f', st') →
  same_index f f' ∧ stage_ok f' st' ∧ (corrupted f = true → corrupted f' = true) ∧
  (fresh f st → fresh f' st') ∧
  (corrupted f' = false → ∀ s, s ∈ slots → s ∈ (sd_slot <$> st_sets st') ++ (st_removals st').*1) ∧
  ∀ s, s ∈ (sd_slot <$> st_sets st) ++ (st_removals st).*1 → s ∈ (sd_slot <$> st_sets st') ++ (st_removals st').*1.
Proof using All.
  induction slots as [|slot slots IH]; intros f st f' st' Hf Hst Hnd Hrun.
  { apply (inj Some) in Hrun. apply pair_equal_spec in Hrun as [<- <-]. split; [by apply same_index_refl|]. do 3 (split; [done|]).
    split; [|done]. by intros _ s ?%elem_of_nil. }
  cbn [stage_slots] in Hrun. apply bind_Some in Hrun as ([f1 st1] & Hs1 & Hrun).
  destruct (stage_slot_spec f st slot f1 st1 Hf Hs1) as (Hsi & Hext & Hcor1). pose proof (same_index_core f f1 Hf Hsi) as Hf1.
  assert (stage_ok f1 st) as Hst1 by (apply (stage_ok_evolves f); [done|intros s; by apply same_index_slot|done]).
  pose proof Hst1 as [K1 K2 K3].
  assert (stage_ok f1 st1 ∧ NoDup ((sd_slot <$> st_sets st1) ++ (st_removals st1).*1 ++ slots) ∧
    (fresh f st → fresh f1 st1) ∧
    (∀ s, s ∈ (sd_slot <$> st_sets st1) ++ (st_removals st1).*1 ↔
      s ∈ (sd_slot <$> st_sets st) ++ (st_removals st).*1 ∨ (s = slot ∧ ¬ (st1 = st)))) as (Hok1 & Hnd1 & Hfr1 & Hin1).
  { pose proof (si_ver _ _ Hsi) as Hvs.
    destruct Hext as [(s & Hslot & Hg & Hvn & ->)|[(ver & Hg & Hvn & ->)|[-> _]]]; cbn [st_sets st_removals].
    - assert ((sd_slot <$> st_sets st ++ [s]) ++ (st_removals st).*1 ++ slots ≡ₚ (sd_slot <$> st_sets st) ++ (st_removals st).*1 ++ slot :: slots) as Hp.
      { rewrite fmap_app, <-Hslot. cbn [fmap list_fmap]. rewrite <-app_assoc. cbn [app]. by rewrite (Permutation_middle (st_removals st).*1). }
      split; [split; cbn [st_sets st_removals]|split; [|split]].
      + apply Forall_app. split; [done|by constructor].
      + done.
      + rewrite <-Hp in Hnd. rewrite app_assoc in Hnd. by apply NoDup_app in Hnd as [? _].
      + by rewrite Hp.
      + intros [Fs Fr]. unfold fresh. rewrite Hvs. split; [|done]. apply Forall_app. split; [done|].
        constructor; [by rewrite <-Hvs, Hslot|constructor].
      + intros s'. rewrite fmap_app, !elem_of_app. cbn [fmap list_fmap]. rewrite list_elem_of_singleton, Hslot.
        assert (mk_spill (st_sets st ++ [s]) (st_removals st) ≠ st) as Hneq.
        { intros Heq. apply (f_equal st_sets) in Heq. cbn in Heq. apply (f_equal length) in Heq. rewrite length_app in Heq. cbn in Heq. lia. }
        clear -Hneq. tauto.
    - assert ((sd_slot <$> st_sets st) ++ (st_removals st ++ [(slot, ver)]).*1 ++ slots ≡ₚ (sd_slot <$> st_sets st) ++ (st_removals st).*1 ++ slot :: slots) as Hp.
      { rewrite fmap_app. cbn [fmap list_fmap fst]. by rewrite <-app_assoc. }
      split; [split; cbn [st_sets st_removals]|split; [|split]].
      + done.
      + apply Forall_app. split; [done|by constructor].
      + rewrite <-Hp in Hnd. rewrite app_assoc in Hnd. by apply NoDup_app in Hnd as [? _].
      + by rewrite Hp.
      + intros [Fs Fr]. unfold fresh. rewrite Hvs. split; [done|]. apply Forall_app. split; [done|].
        constructor; [by rewrite <-Hvs|constructor].
      + intros s'. rewrite fmap_app, !elem_of_app. cbn [fmap list_fmap fst]. rewrite list_elem_of_singleton.
        assert (mk_spill (st_sets st) (st_removals st ++ [(slot, ver)]) ≠ st) as Hneq.
        { intros Heq. apply (f_equal st_removals) in Heq. cbn in Heq. apply (f_equal length) in Heq. rewrite length_app in Heq. cbn in Heq. lia. }
        clear -Hneq. tauto.
    - split; [done|]. split; [|split; [unfold fresh; by rewrite Hvs|intros s'; clear; tauto]]. rewrite app_assoc in Hnd |- *. apply NoDup_app in Hnd as (N1 & N2 & N3).
      apply NoDup_cons in N3 as [_ N3]. apply NoDup_app. split_and!; [done| |done]. intros x Hx Hxs. apply (N2 x Hx). by right. }
  destruct (IH f1 st1 f' st' Hf1 Hok1 Hnd1 Hrun) as (Hsi2 & Hok2 & Hcor2 & Hfr2 & Hall2 & Hmono2).
  split; [by eapply same_index_trans|]. split; [done|]. split; [by intros ?%Hcor1%Hcor2|]. split; [by intros ?%Hfr1%Hfr2|]. split.
  - intros Hc s [->|Hs]%elem_of_cons; [|by apply Hall2]. apply Hmono2, Hin1. right. split; [done|]. intros Heq.
    destruct Hext as [(s & _ & _ & _ & ->)|[(ver & _ & _ & ->)|[_ Hc1]]].
    + apply (f_equal st_sets), (f_equal length) in Heq. cbn in Heq. rewrite length_app in Heq. cbn in Heq. lia.
    + apply (f_equal st_removals), (f_equal length) in Heq. cbn in Heq. rewrite length_app in Heq. cbn in Heq. lia.
    + by rewrite (Hcor2 Hc1) in Hc.
  - intros s Hs. apply Hmono2, Hin1. by left.
Qed.
End spill.
