(* ===== verification/FieldCommit.v ===== *)
(** * FieldCommit: committing a staged overlay

    [commit], [drop_overlay_entry_if_unchanged] and [drop_staged_containers] of
    [src/minnal_db/src/index/field/field_index.rs]: the second phase of a spill, run on
    any state the index reached since the stage. *)
From S2P Require Import Prelude Slices Words Bytes OrdMap HashTable ArrayMerge Container ContainerStore Bitmap BitmapReads.
From S2P Require Import DirStorage BlobStore BlobStoreSpec OverlayBudget FieldIndex FieldChange FieldUpdates FieldSpill.

Section commit.
Context {V : Type} `{OrderedLaws V} `{!EqDecision V} `{Cpu} `{HeapCost} `{CrcLaws} `{RkyvLaws} `{HeapBytes}.
Implicit Type f : FieldIndex V.

(** The rows stay; only [slot] may lose overlay data. *)
Record settles f f' (slot : Z) : Prop := {
  sl_core : core_wf f';
  sl_content s k : content f' s k = content f s k;
  sl_ordering : ordering f' = ordering f;
  sl_next_slot : next_slot f' = next_slot f;
  sl_next : next_ver f' = next_ver f;
  sl_corrupted : corrupted f' = corrupted f;
  sl_others s : s ≠ slot → slot_evolves f f' s;
  sl_exact s : s ≠ slot → overlay f' !! s = overlay f !! s ∧ overlay_ver f' !! s = overlay_ver f !! s;
}.

Lemma clean_refs b : blob_wf b →
  (∀ slot blob, get_ref b slot = Some blob → ∃ es, dir_ok b blob es) → store_clean b.
Proof using. intros Hb Hc slot blob Hv. apply (Hc slot). by rewrite get_ref_values. Qed.

Lemma settles_intro f f' slot :
  core_wf f → blob_wf (bitmaps f') → store_clean (bitmaps f') → stable (bitmaps f) (bitmaps f') →
  (∀ s, s ≠ slot → get_ref (bitmaps f') s = get_ref (bitmaps f) s) →
  ordering f' = ordering f → next_slot f' = next_slot f → next_ver f' = next_ver f → corrupted f' = corrupted f →
  (∀ s, s ≠ slot → overlay f' !! s = overlay f !! s ∧ overlay_ver f' !! s = overlay_ver f !! s) →
  (∀ k, content f' slot k = content f slot k) →
  match overlay f' !! slot with
  | None => overlay_ver f' !! slot = None
  | Some ch' => overlay_ver f' !! slot = overlay_ver f !! slot ∧ ∃ ch, overlay f !! slot = Some ch ∧
      om_wf (sc_containers ch') ∧ sc_empty ch' = sc_empty ch ∧
      ∀ k, (om_get k (sc_containers ch') = om_get k (sc_containers ch) ∧ sc_ver ch' !! k = sc_ver ch !! k) ∨
        (om_get k (sc_containers ch') = None ∧ sc_ver ch' !! k = None)
  end →
  settles f f' slot.
Proof using All.
  intros Hf Hb Hc Hst Hr Ho Hns Hn Hcor Hoth Hslot Hch. pose proof Hf as [C1 C2 C3 C4 C5].
  assert (∀ s k, content f' s k = content f s k) as Hcont.
  { intros s k. destruct (decide (s = slot)) as [->|Hne]; [done|]. unfold content, overlay_at. destruct (Hoth s Hne) as [-> _].
    by rewrite (stored_at_stable (bitmaps f) (bitmaps f') s k C1 C2 Hst (Hr s Hne)). }
  split; try done; [split; try done|].
  - intros s ch' Hs. destruct (decide (s = slot)) as [->|Hne].
    + rewrite Hs in Hch. destruct Hch as (_ & ch & Hch & Hw & He & Hk). destruct (C3 slot ch Hch) as [D1 D2 D3 D4 D5 D6].
      split; [done| | | | |by rewrite Hns].
      * intros k o Hg. destruct (Hk k) as [[Hgk _]|[Hgk _]]; [|congruence]. apply D2. congruence.
      * intros k. destruct (Hk k) as [[-> ->]|[-> ->]]; [apply D3|]. by split; intros [? ?].
      * intros k v Hv. rewrite Hn. destruct (Hk k) as [[_ Hvk]|[_ Hvk]]; [|congruence]. apply (D4 k). congruence.
      * rewrite He, D5. by setoid_rewrite Hcont.
    + destruct (Hoth s Hne) as [Hos _]. rewrite Hos in Hs. destruct (C3 s ch' Hs) as [D1 D2 D3 D4 D5 D6].
      split; [done|done|done| | |by rewrite Hns].
      * intros k v Hv. rewrite Hn. by apply (D4 k).
      * rewrite D5. by setoid_rewrite Hcont.
  - intros s. destruct (decide (s = slot)) as [->|Hne]; [|destruct (Hoth s Hne) as [-> ->]; apply C4].
    destruct (overlay f' !! slot) as [ch'|]; [|rewrite Hch; by split; intros [? ?]].
    destruct Hch as (-> & ch & Hch & _). rewrite C4, Hch. by split; eexists.
  - intros s v Hv. rewrite Hn. destruct (decide (s = slot)) as [->|Hne]; [|destruct (Hoth s Hne) as [_ Hvs]; apply (C5 s); congruence].
    destruct (overlay f' !! slot) as [ch'|]; [|by rewrite Hch in Hv]. destruct Hch as (Hvs & _). apply (C5 slot). congruence.
  - intros s Hne. destruct (Hoth s Hne) as [Hos Hvs]. apply same_entry; [done|by apply Hr|lia|done|done].
Qed.

(** *** Pointing a slot at a staged directory *)

Lemma set_slot_points f s es ch b' new :
  core_wf f → set_ok f s es ch → u128 (sd_slot s) → set_slot (sd_slot s) (sd_offset s) (sd_len s) (bitmaps f) = Some (b', new) →
  blob_wf b' ∧ store_clean b' ∧ stable (bitmaps f) b' ∧ (∀ k, k ≠ sd_slot s → get_ref b' k = get_ref (bitmaps f) k) ∧
  ∀ k, stored_at b' (sd_slot s) k = dir_container (bitmaps f) es k.
Proof using All.
  intros Hf [S1 (R1 & R2 & R3) S3 S4 S5 S6 S7 S8 S9 S10 S11 S12] Hu Hs. set (slot := sd_slot s) in *.
  destruct (set_slot_spec (bitmaps f) b' slot (sd_offset s) (sd_len s) new (cf_blob _ Hf) Hu R1 R2 R3 Hs)
    as (Hw & Hm & (Hv & _ & _ & _ & Hp) & _).
  assert (∀ o l, value_slice b' o l = value_slice (bitmaps f) o l) as Hval by (intros o l; by apply value_slice_val).
  assert (stable (bitmaps f) b') as Hst by (split; [lia|done]).
  destruct (entries_stable _ _ es Hst S3 S4) as [Hes Hdc].
  assert (get_ref b' slot = Some (encode_dir es)) as Hg.
  { rewrite get_ref_spec, Hm, lookup_insert_eq by done. cbn [mbind option_bind]. by rewrite Hval. }
  assert (∀ k, k ≠ slot → get_ref b' k = get_ref (bitmaps f) k) as Hr.
  { intros k Hk. rewrite !get_ref_spec, Hm, lookup_insert_ne by (done || apply Hf).
    destruct (blob_map (bitmaps f) !! k); [|done]. cbn [mbind option_bind]. apply Hval. }
  assert (store_clean b') as Hc.
  { apply clean_refs; [done|]. intros k blob. destruct (decide (k = slot)) as [->|Hk].
    - rewrite Hg. intros [= <-]. by exists es.
    - rewrite Hr by done. rewrite get_ref_values by apply Hf. intros Hb. destruct (cf_clean _ Hf k blob Hb) as (es' & He & Hw' & Hall).
      exists es'. split; [done|]. split; [done|]. by apply (entries_stable _ _ es' Hst). }
  split_and!; [done..|]. intros k. destruct (stored_slot b' slot Hw Hc) as [es' Hes'].
  rewrite (stored_at_dir _ _ es' k Hes'). pose proof (sdir_dir _ _ _ Hes') as Hd. unfold stored_dir in Hd.
  rewrite Hg, decode_encode_dir in Hd by done. apply pair_equal_spec in Hd as [<- _]. apply Hdc.
Qed.

(** *** Dropping what was written out *)

Lemma drop_containers_spec staged : NoDup staged.*1 → ∀ ch freed, om_wf (sc_containers ch) →
  let ch' := (foldl drop_container (ch, freed) staged).1 in
  om_wf (sc_containers ch') ∧ sc_empty ch' = sc_empty ch ∧
  ∀ k, (∃ v, (k, v) ∈ staged ∧ sc_ver ch !! k = Some v) ∧ om_get k (sc_containers ch') = None ∧ sc_ver ch' !! k = None ∨
    (¬ ∃ v, (k, v) ∈ staged ∧ sc_ver ch !! k = Some v) ∧
      om_get k (sc_containers ch') = om_get k (sc_containers ch) ∧ sc_ver ch' !! k = sc_ver ch !! k.
Proof using.
  induction staged as [|[key ver] staged IH]; intros Hnd ch freed Hw ch'.
  { split; [done|]. split; [done|]. intros k. right. split; [|done]. by intros (v & ?%elem_of_nil & _). }
  rewrite fmap_cons in Hnd. apply NoDup_cons in Hnd as [Hnot Hnd]. cbn [fst] in Hnot.
  assert (∀ v, (key, v) ∉ staged) as Hkey by (intros v Hin; apply Hnot, list_elem_of_fmap; by exists (key, v)).
  unfold ch'. cbn [foldl].
  destruct (decide (sc_ver ch !! key = Some ver)) as [Hv|Hv].
  - set (ch1 := mk_changes (om_remove key (sc_containers ch)) (delete key (sc_ver ch)) (sc_empty ch) (sc_bytes ch)).
    assert (∃ fr, drop_container (ch, freed) (key, ver) = (ch1, fr)) as [fr ->].
    { unfold drop_container. rewrite bool_decide_true by done. destruct (om_get key (sc_containers ch)); by eexists. }
    destruct (IH Hnd ch1 fr) as (I1 & I2 & I3); [by apply om_remove_wf|]. split; [done|]. split; [done|]. intros k.
    destruct (I3 k) as [((v & Hin & Hvk) & Hg & Hvk')|(Hno & Hg & Hvk')]; destruct (decide (k = key)) as [->|Hne].
    + by apply Hkey in Hin.
    + left. split; [|done]. exists v. split; [by right|]. cbn in Hvk. by rewrite lookup_delete_ne in Hvk.
    + left. split; [exists ver; split; [left|done]|]. rewrite Hg, Hvk'. cbn [ch1 sc_containers sc_ver].
      rewrite om_get_remove, decide_True by done. by rewrite lookup_delete_eq.
    + right. split.
      * intros (v & [[= -> ->]|Hin]%elem_of_cons & Hvk); [done|]. apply Hno. exists v. split; [done|]. cbn. by rewrite lookup_delete_ne.
      * rewrite Hg, Hvk'. cbn [ch1 sc_containers sc_ver]. by rewrite om_get_remove, decide_False, lookup_delete_ne.
  - assert (drop_container (ch, freed) (key, ver) = (ch, freed)) as -> by (unfold drop_container; by rewrite bool_decide_false).
    destruct (IH Hnd ch freed Hw) as (I1 & I2 & I3). split; [done|]. split; [done|]. intros k.
    destruct (I3 k) as [((v & Hin & Hvk) & Hg)|(Hno & Hg)].
    + left. split; [|done]. exists v. split; [by right|done].
    + right. split; [|done]. intros (v & [[= -> ->]|Hin]%elem_of_cons & Hvk); [done|]. apply Hno. by exists v.
Qed.

Lemma drop_unchanged_spec slot ver f :
  let '(f', dropped) := drop_overlay_entry_if_unchanged slot ver f in
  ordering f' = ordering f ∧ emptied f' = emptied f ∧ bitmaps f' = bitmaps f ∧ next_slot f' = next_slot f ∧
  next_ver f' = next_ver f ∧ corrupted f' = corrupted f ∧
  if dropped : bool then overlay_ver f !! slot = Some ver ∧ overlay f' = delete slot (overlay f) ∧ overlay_ver f' = delete slot (overlay_ver f)
  else overlay_ver f !! slot ≠ Some ver ∧ f' = f.
Proof using.
  unfold drop_overlay_entry_if_unchanged. destruct (decide (overlay_ver f !! slot = Some ver)) as [Hv|Hv].
  - rewrite bool_decide_true by done. cbn [negb overlay set_versions]. destruct (overlay f !! slot) as [ch|] eqn:E; cbn.
    + done.
    + split_and!; try done. by rewrite delete_id.
  - by rewrite bool_decide_false.
Qed.

Lemma commit_set_spec f s es ch f' :
  core_wf f → set_ok f s es ch → u128 (sd_slot s) → commit_set f s = Some f' →
  settles f f' (sd_slot s) ∧ emptied f' = emptied f ∧
  (is_Some (overlay f' !! sd_slot s) ∨ ∃ k, is_Some (content f (sd_slot s) k)) ∧
  (overlay_ver f !! sd_slot s = Some (sd_ver s) → overlay f' = delete (sd_slot s) (overlay f)).
Proof using All.
  intros Hf Hok Hu Hrun. unfold commit_set in Hrun. apply bind_Some in Hrun as ([b new] & Hs & Hrun).
  destruct (set_slot_points f s es ch b new Hf Hok Hu Hs) as (Hw & Hc & Hst & Hr & Hat).
  set (f1 := set_bitmaps b f) in *. pose proof (drop_unchanged_spec (sd_slot s) (sd_ver s) f1) as Hd.
  destruct (drop_overlay_entry_if_unchanged (sd_slot s) (sd_ver s) f1) as [f2 dropped]. apply (inj Some) in Hrun.
  destruct Hd as (E1 & E2 & E3 & E4 & E5 & E6 & Hd). set (slot := sd_slot s) in *.
  destruct Hok as [_ _ _ _ Hch _ Hkeys _ Hsame Hrest Hwhole Hlive]. fold slot in Hch, Hrest, Hwhole, Hlive.
  assert (∀ k, content f slot k = match om_get k (sc_containers ch) with Some o => o | None => stored_at (bitmaps f) slot k end) as Hcont
    by (intros k; unfold content, overlay_at; by rewrite Hch).
  destruct dropped; subst f'.
  - destruct Hd as (Hver & Ho & Hv). cbn [f1 set_bitmaps overlay overlay_ver] in Ho, Hv.
    split; [|split; [done|split; [|done]]].
    2:{ right. specialize (Hlive Hver). destruct (slot_not_empty f slot Hf) as (h & l & _ & Hh); [by exists ch| |].
        - unfold slot_is_empty. by rewrite Hch.
        - exists h. unfold member_at in Hh. by destruct (content f slot h). }
    apply settles_intro; rewrite ?E3; try done.
    + intros s' Hne. by rewrite Ho, Hv, !lookup_delete_ne.
    + intros k. rewrite Hcont. unfold content, overlay_at. rewrite Ho, lookup_delete_eq, E3. cbn [mbind option_bind f1 bitmaps set_bitmaps].
      rewrite Hat. destruct (om_get k (sc_containers ch)) as [o|] eqn:Eo; [|by apply Hrest].
      destruct (Hwhole k Hver) as (v & Hin & Hvk); [by eexists|]. symmetry. by apply (Hsame k v o).
    + by rewrite Ho, lookup_delete_eq, Hv, lookup_delete_eq.
  - destruct Hd as [Hver ->]. unfold drop_staged_containers. change (overlay f1 !! slot) with (overlay f !! slot). rewrite Hch.
    pose proof (cf_overlay _ Hf _ _ Hch) as Hchw.
    pose proof (drop_containers_spec (sd_containers s) Hkeys ch 0 (cw_sorted _ _ _ Hchw)) as Hdc.
    destruct (foldl drop_container (ch, 0) (sd_containers s)) as [ch' freed]. cbn [fst] in Hdc. destruct Hdc as (Hw' & He' & Hk').
    split; [|split; [done|split]]; [|left; cbn; rewrite lookup_insert_eq; by eexists|by intros Hver'; destruct Hver].
    assert (∀ c0 k, om_get k (sc_containers (mk_changes (sc_containers ch') (sc_ver ch') (sc_empty ch') c0)) = om_get k (sc_containers ch')) as _ by done.
    apply settles_intro; try done.
    + intros s' Hne. cbn. by rewrite lookup_insert_ne.
    + intros k. rewrite Hcont. unfold content, overlay_at. cbn [overlay charge_bytes set_overlay f1 set_bitmaps bitmaps].
      rewrite lookup_insert_eq. cbn [mbind option_bind sc_containers]. rewrite Hat.
      destruct (Hk' k) as [((v & Hin & Hvk) & -> & _)|(Hno & -> & _)].
      * destruct (om_get k (sc_containers ch)) as [o|] eqn:Eo; [symmetry; by apply (Hsame k v o)|by apply Hrest].
      * destruct (om_get k (sc_containers ch)) as [o|] eqn:Eo; [done|by apply Hrest].
    + cbn [overlay charge_bytes set_overlay]. rewrite lookup_insert_eq. split; [done|]. exists ch. split; [done|].
      split; [done|]. split; [done|]. cbn [sc_containers sc_ver]. intros k.
      destruct (Hk' k) as [(_ & -> & ->)|(_ & -> & ->)]; [by right|by left].
Qed.

Lemma commit_removal_spec f freed slot ver f' freed' :
  core_wf f → removal_good f (slot, ver) → commit_removal (f, freed) (slot, ver) = (f', freed') →
  settles f f' slot ∧
  ((emptied f' = emptied f ∧ freed' = freed) ∨
   (freed' = freed ++ [slot] ∧ get_ref (bitmaps f') slot = None ∧
    ∃ v, (v, slot) ∈ emptied f ∧ emptied f' = om_remove v (emptied f))) ∧
  (∀ s, get_ref (bitmaps f) s = None → get_ref (bitmaps f') s = None) ∧
  ((∀ s, is_Some (overlay f !! s) → s ≠ slot → is_Some (overlay f' !! s)) ∧
   (is_Some (overlay f' !! slot) ∨ (∀ v, (v, slot) ∉ emptied f) ∨ ∃ v, (v, slot) ∈ emptied f ∧ emptied f' = om_remove v (emptied f))) ∧
  (overlay_ver f !! slot = Some ver → overlay f' = delete slot (overlay f)).
Proof using All.
  intros Hf (Hov & _ & Hnone) Hrun. cbn [fst snd] in *. unfold commit_removal in Hrun.
  pose proof (drop_unchanged_spec slot ver f) as Hd. destruct (drop_overlay_entry_if_unchanged slot ver f) as [f1 dropped].
  destruct Hd as (E1 & E2 & E3 & E4 & E5 & E6 & Hd). destruct dropped; cbn [negb] in Hrun.
  2:{ destruct Hd as [Hver ->]. apply pair_equal_spec in Hrun as [<- <-]. split; [|split; [by left|split; [done|split; [by split; [done|left]|by intros ?]]]].
      apply settles_intro; try done; try apply Hf. destruct Hov as [ch Hch]. rewrite Hch.
      split; [done|]. exists ch. split; [done|]. split; [by eapply cw_sorted, cf_overlay|]. split; [done|]. by left. }
  destruct Hd as (Hver & Ho & Hv). specialize (Hnone Hver).
  destruct (remove_key_spec (bitmaps f) slot (cf_blob _ Hf)) as (Hw & Hm & (Hval & _ & _ & _ & Hp)).
  set (b' := remove_key slot (bitmaps f)) in *.
  assert (∀ o l, value_slice b' o l = value_slice (bitmaps f) o l) as Hvs by (intros o l; by apply value_slice_val).
  assert (stable (bitmaps f) b') as Hst by (split; [lia|done]).
  assert (get_ref b' slot = None) as Hg by (by rewrite get_ref_spec, Hm, lookup_delete_eq).
  assert (∀ k, k ≠ slot → get_ref b' k = get_ref (bitmaps f) k) as Hr.
  { intros k Hk. rewrite !get_ref_spec, Hm, lookup_delete_ne by (done || apply Hf).
    destruct (blob_map (bitmaps f) !! k); [|done]. cbn [mbind option_bind]. apply Hvs. }
  assert (store_clean b') as Hc.
  { apply clean_refs; [done|]. intros k blob. destruct (decide (k = slot)) as [->|Hk]; [by rewrite Hg|].
    rewrite Hr by done. rewrite get_ref_values by apply Hf. intros Hb. destruct (cf_clean _ Hf k blob Hb) as (es' & He & Hw' & Hall).
    exists es'. split; [done|]. split; [done|]. by apply (entries_stable _ _ es' Hst). }
  assert (∀ f2, bitmaps f2 = b' → overlay f2 = overlay f1 → overlay_ver f2 = overlay_ver f1 → ordering f2 = ordering f1 →
    next_slot f2 = next_slot f1 → next_ver f2 = next_ver f1 → corrupted f2 = corrupted f1 → settles f f2 slot) as Hset.
  { intros f2 B1 B2 B3 B4 B5 B6 B7. apply settles_intro; rewrite ?B1; try done; try congruence.
    - intros s Hne. by rewrite B2, B3, Ho, Hv, !lookup_delete_ne.
    - intros k. rewrite Hnone. unfold content, overlay_at. rewrite B2, Ho, lookup_delete_eq, B1. cbn [mbind option_bind].
      unfold stored_at, load_stored, stored_entry. by rewrite Hg.
    - by rewrite B2, Ho, lookup_delete_eq, B3, Hv, lookup_delete_eq. }
  assert (∀ s, get_ref (bitmaps f) s = None → get_ref b' s = None) as Hgone.
  { intros s Hs. destruct (decide (s = slot)) as [->|Hne]; [done|by rewrite Hr]. }
  assert (∀ s, is_Some (overlay f !! s) → s ≠ slot → is_Some (overlay f1 !! s)) as Hov1 by (intros s Hs Hne; by rewrite Ho, lookup_delete_ne).
  rewrite E3 in Hrun. fold b' in Hrun. change (emptied (set_bitmaps b' f1)) with (emptied f1) in Hrun. rewrite E2 in Hrun.
  destruct (list_find (λ p : V * Z, p.2 = slot) (emptied f)) as [[i [v s]]|] eqn:Ef; apply pair_equal_spec in Hrun as [<- <-].
  - apply list_find_Some in Ef as (Hi & Hs & _). cbn in Hs. subst s. split; [by apply Hset|]. split; [|split; [done|split; [|done]]].
    2:{ split; [done|]. right. right. exists v. split; [by eapply list_elem_of_lookup_2|done]. }
    right. split; [done|]. split; [done|]. exists v. split; [by eapply list_elem_of_lookup_2|done].
  - split; [by apply Hset|]. split; [by left|]. split; [done|]. split; [|done]. split; [done|]. right. left. intros v Hin.
    apply list_find_None in Ef. rewrite Forall_forall in Ef. by apply (Ef (v, slot)).
Qed.

(** ** The whole commit *)

Lemma settles_set f f' slot s : core_wf f → settles f f' slot → sd_slot s ≠ slot → set_good f s → set_good f' s.
Proof using All. intros Hf Hs Hne. apply set_good_evolves; [done|]. by apply (sl_others _ _ _ Hs). Qed.
Lemma settles_removal f f' slot rm : core_wf f → settles f f' slot → rm.1 ≠ slot → removal_good f rm → removal_good f' rm.
Proof using All. intros Hf Hs Hne. apply removal_good_evolves; [done|]. by apply (sl_others _ _ _ Hs). Qed.

(** What a sequence of settling steps keeps. *)
Record committed f f' : Prop := {
  cm_core : core_wf f';
  cm_content s k : content f' s k = content f s k;
  cm_ordering : ordering f' = ordering f;
  cm_next_slot : next_slot f' = next_slot f;
  cm_corrupted : corrupted f' = corrupted f;
}.

Lemma committed_step f f1 f2 slot : committed f f1 → settles f1 f2 slot → committed f f2.
Proof using.
  intros [] []. split; try done; congruence.
Qed.

Lemma commit_sets_spec sets : ∀ f f', core_wf f → Forall (set_good f) sets → NoDup (sd_slot <$> sets) →
  next_slot f ≤ 2 ^ 128 → commit_sets f sets = Some f' →
  committed f f' ∧ emptied f' = emptied f ∧
  (∀ s, is_Some (overlay f !! s) → (∀ k, content f s k = None) → is_Some (overlay f' !! s)) ∧
  (∀ rm, rm.1 ∉ sd_slot <$> sets → removal_good f rm → removal_good f' rm) ∧
  (∀ s, s ∉ sd_slot <$> sets → overlay f' !! s = overlay f !! s ∧ overlay_ver f' !! s = overlay_ver f !! s) ∧
  (Forall (λ s, overlay_ver f !! sd_slot s = Some (sd_ver s)) sets → ∀ s, s ∈ sd_slot <$> sets → overlay f' !! s = None).
Proof using All.
  induction sets as [|s sets IH]; intros f f' Hf Hg Hnd Hu Hrun.
  { apply (inj Some) in Hrun. subst f'. split; [by split|]. do 4 (split; [done|]). by intros _ s ?%elem_of_nil. }
  apply Forall_cons in Hg as [(es & ch & Hok) Hg]. rewrite fmap_cons in Hnd. apply NoDup_cons in Hnd as [Hnot Hnd].
  cbn [commit_sets] in Hrun. apply bind_Some in Hrun as (f1 & Hc1 & Hrun).
  assert (u128 (sd_slot s)) as Hslot.
  { pose proof (cw_slot _ _ _ (cf_overlay _ Hf _ _ (so_overlay _ _ _ _ Hok))). unfold u128. lia. }
  destruct (commit_set_spec f s es ch f1 Hf Hok Hslot Hc1) as (Hs1 & He1 & Hl1 & Hx1). pose proof (sl_core _ _ _ Hs1) as Hf1.
  assert (∀ s', s' ∈ sets → sd_slot s' ≠ sd_slot s) as Hne.
  { intros s' Hin Heq. apply Hnot. rewrite <-Heq. by apply list_elem_of_fmap_2. }
  destruct (IH f1 f' Hf1) as ([K1 K2 K3 K4 K5] & He2 & Hl2 & Hr2 & Ho2 & Hx2); [|done| |done|].
  { rewrite Forall_forall in Hg |- *. intros s' Hin. apply (settles_set f f1 (sd_slot s)); [done|done|by apply Hne|by apply Hg]. }
  { by rewrite (sl_next_slot _ _ _ Hs1). }
  split; [destruct Hs1; split; try done; congruence|].
  split; [by rewrite He2|]. split; [|split; [|split]].
  - intros s' Hs' Hn. apply Hl2; [|intros k; rewrite (sl_content _ _ _ Hs1); apply Hn]. destruct (decide (s' = sd_slot s)) as [->|Hne'].
    + destruct Hl1 as [?|[k [c Hk]]]; [done|]. by rewrite Hn in Hk.
    + destruct (sl_exact _ _ _ Hs1 s' Hne') as [-> _]. done.
  - intros rm Hin Hrm. rewrite fmap_cons, not_elem_of_cons in Hin. destruct Hin as [Hn Hin].
    apply Hr2; [done|]. by apply (settles_removal f f1 (sd_slot s)).
  - intros s' Hin. rewrite fmap_cons, not_elem_of_cons in Hin. destruct Hin as [Hn Hin].
    destruct (Ho2 s' Hin) as [-> ->]. by apply (sl_exact _ _ _ Hs1).
  - intros Hv s' Hin. apply Forall_cons in Hv as [Hv Hvs]. rewrite fmap_cons, elem_of_cons in Hin. destruct Hin as [->|Hin].
    + destruct (Ho2 (sd_slot s) Hnot) as [-> _]. rewrite (Hx1 Hv). apply lookup_delete_eq.
    + apply Hx2; [|done]. rewrite Forall_forall in Hvs |- *. intros s0 Hin0.
      destruct (sl_exact _ _ _ Hs1 (sd_slot s0) (Hne s0 Hin0)) as [_ ->]. by apply Hvs.
Qed.

Lemma index_wf_settles f f' slot :
  index_wf f → settles f f' slot → om_wf (emptied f') →
  (∀ v s, om_get v (emptied f') = Some s → om_get v (emptied f) = Some s) →
  (∀ v s, om_get v (emptied f') = Some s → is_Some (overlay f' !! s)) → index_wf f'.
Proof using.
  intros [I1 I2 I3 I4 I5 I6 I7 I8 I9] [S1 S2 S3 S4 S5 S6 S7 S8] Hw He Hwait.
  assert (∀ v s, slot_of f' v = Some s → slot_of f v = Some s) as Hs.
  { intros v s. unfold slot_of. rewrite S3. destruct (om_get v (ordering f)); [done|apply He]. }
  split.
  - done.
  - by rewrite S3.
  - done.
  - intros v s. rewrite S3. intros Hv. apply eq_None_not_Some. intros [s' Hs']. apply He in Hs'. by rewrite (I4 v s Hv) in Hs'.
  - intros v v' s Hv Hv'. by eapply I5; apply Hs.
  - intros v s Hv. rewrite S4. by eapply I6, Hs.
  - by rewrite S4.
  - intros s h l Hh. rewrite S3. apply (I8 s h l). unfold holds in *. by rewrite <-S2.
  - done.
Qed.

Lemma emptied_slot_of f v s : index_wf f → om_get v (emptied f) = Some s → slot_of f v = Some s.
Proof using.
  intros Hf Hv. unfold slot_of. destruct (om_get v (ordering f)) eqn:E; [|done]. by rewrite (iw_disjoint _ Hf _ _ E) in Hv.
Qed.
Lemma emptied_inj f v v' s : index_wf f → om_get v (emptied f) = Some s → om_get v' (emptied f) = Some s → v = v'.
Proof using. intros Hf Hv Hv'. apply (iw_inj _ Hf v v' s); by apply emptied_slot_of. Qed.

Definition released f (s : Z) : Prop := get_ref (bitmaps f) s = None ∧ ∀ v, slot_of f v ≠ Some s.

Lemma commit_removals_spec rms : ∀ f freed f' freed', index_wf f → Forall (removal_good f) rms → NoDup rms.*1 →
  Forall (released f) freed → foldl commit_removal (f, freed) rms = (f', freed') →
  committed f f' ∧ index_wf f' ∧ Forall (released f') freed' ∧
  (∀ s, s ∉ rms.*1 → overlay f' !! s = overlay f !! s) ∧
  (Forall (λ rm : Z * Z, overlay_ver f !! rm.1 = Some rm.2) rms → ∀ s, s ∈ rms.*1 → overlay f' !! s = None).
Proof using All.
  induction rms as [|[slot ver] rms IH]; intros f freed f' freed' Hf Hg Hnd Hfr Hrun.
  { cbn in Hrun. apply pair_equal_spec in Hrun as [<- <-]. split; [split; try done; apply Hf|]. do 3 (split; [done|]).
    by intros _ s ?%elem_of_nil. }
  apply Forall_cons in Hg as [Hrm Hg]. rewrite fmap_cons in Hnd. apply NoDup_cons in Hnd as [Hnot Hnd]. cbn [fst] in Hnot.
  cbn [foldl] in Hrun. destruct (commit_removal (f, freed) (slot, ver)) as [f1 freed1] eqn:Hc1.
  destruct (commit_removal_spec f freed slot ver f1 freed1 (iw_core _ Hf) Hrm Hc1) as (Hs1 & He1 & Hgone & [Hov1 Hov2] & Hx1).
  assert (om_wf (emptied f1) ∧ ∀ v s, om_get v (emptied f1) = Some s → om_get v (emptied f) = Some s) as [Hew Heg].
  { destruct He1 as [[-> _]|(_ & _ & v0 & Hin & ->)]; [split; [apply Hf|done]|]. split; [apply om_remove_wf, Hf|].
    intros v s. rewrite om_get_remove by apply Hf. by case_decide. }
  assert (∀ v s, om_get v (emptied f1) = Some s → is_Some (overlay f1 !! s)) as Hwait.
  { intros v s Hs. pose proof (Heg v s Hs) as Hs'. destruct (decide (s = slot)) as [->|Hne]; [|apply Hov1; [by apply (iw_waiting _ Hf v)|done]].
    destruct Hov2 as [?|[Hno|(v0 & Hin & He0)]]; [done| |].
    - apply om_get_Some in Hs'; [|apply Hf]. by apply Hno in Hs'.
    - apply om_get_Some in Hin; [|apply Hf]. pose proof (emptied_inj f v v0 slot Hf Hs' Hin) as ->.
      by rewrite He0, om_get_remove, decide_True in Hs by (apply Hf || done). }
  pose proof (index_wf_settles f f1 slot Hf Hs1 Hew Heg Hwait) as Hf1.
  assert (∀ v s, slot_of f1 v = Some s → slot_of f v = Some s) as Hsub.
  { intros v s. unfold slot_of. rewrite (sl_ordering _ _ _ Hs1). destruct (om_get v (ordering f)); [done|apply Heg]. }
  assert (∀ rm, rm ∈ rms → rm.1 ≠ slot) as Hne.
  { intros rm Hin Heq. apply Hnot. rewrite <-Heq. by apply list_elem_of_fmap_2. }
  assert (Forall (released f1) freed1) as Hfr1.
  { assert (Forall (released f1) freed) as Hfr0.
    { eapply Forall_impl; [done|]. intros s [Hr Hv]. split; [by apply Hgone|]. intros v Hs. by apply (Hv v), Hsub. }
    destruct He1 as [[_ ->]|(-> & Hr & v0 & Hin & He)]; [done|]. apply Forall_app. split; [done|]. constructor; [|constructor].
    split; [done|]. intros v Hs. assert (om_get v0 (emptied f) = Some slot) as Hv0 by (apply om_get_Some; [apply Hf|done]).
    assert (om_get v0 (ordering f) = None) as Hno.
    { apply eq_None_not_Some. intros [s Hs']. by rewrite (iw_disjoint _ Hf _ _ Hs') in Hv0. }
    assert (slot_of f v0 = Some slot) as Hs0 by (unfold slot_of; by rewrite Hno).
    pose proof (iw_inj _ Hf _ _ _ (Hsub _ _ Hs) Hs0) as ->. unfold slot_of in Hs.
    rewrite (sl_ordering _ _ _ Hs1), Hno, He, om_get_remove, decide_True in Hs by (apply Hf || done). done. }
  destruct (IH f1 freed1 f' freed' Hf1) as ([K1 K2 K3 K4 K5] & Hw2 & Hr2 & Ho2 & Hx2); [|done..|].
  { rewrite Forall_forall in Hg |- *. intros rm Hin. apply (settles_removal f f1 slot); [apply Hf|done|by apply Hne|by apply Hg]. }
  split; [destruct Hs1; split; try done; congruence|]. split; [done|]. split; [done|]. split.
  - intros s Hin. rewrite fmap_cons, not_elem_of_cons in Hin. destruct Hin as [Hn Hin]. cbn [fst] in Hn.
    rewrite Ho2 by done. by apply (sl_exact _ _ _ Hs1).
  - intros Hv s Hin. apply Forall_cons in Hv as [Hv Hvs]. cbn [fst snd] in Hv. rewrite fmap_cons, elem_of_cons in Hin.
    cbn [fst] in Hin. destruct Hin as [->|Hin].
    + rewrite Ho2 by done. rewrite (Hx1 Hv). apply lookup_delete_eq.
    + apply Hx2; [|done]. rewrite Forall_forall in Hvs |- *. intros rm Hrm0.
      destruct (sl_exact _ _ _ Hs1 rm.1 (Hne rm Hrm0)) as [_ ->]. by apply Hvs.
Qed.

Lemma commit_spec f st f' freed :
  field_wf f → stage_ok f st → next_slot f ≤ 2 ^ 128 → commit st f = Some (f', freed) →
  field_wf f' ∧ (∀ v row, has_row f' v row = has_row f v row) ∧ ordering f' = ordering f ∧ corrupted f' = corrupted f ∧
  next_slot f' = next_slot f ∧ Forall (released f') freed ∧
  (fresh f st → ∀ s, s ∈ (sd_slot <$> st_sets st) ++ (st_removals st).*1 → overlay f' !! s = None) ∧
  (∀ s, s ∉ (sd_slot <$> st_sets st) ++ (st_removals st).*1 → overlay f' !! s = overlay f !! s).
Proof using All.
  intros [Hf Hlive] [K1 K2 K3] Hu Hrun. unfold commit in Hrun. apply bind_Some in Hrun as (f1 & Hc1 & Hrun).
  apply (inj Some) in Hrun. apply NoDup_app in K3 as (N1 & N2 & N3).
  destruct (commit_sets_spec _ f f1 (iw_core _ Hf) K1 N1 Hu Hc1) as ([C1 C2 C3 C4 C5] & He1 & Hl1 & Hr1 & Ho1 & Hx1).
  assert (index_wf f1) as Hf1.
  { apply (index_wf_keeps f); [done..| |].
    - intros s h l Hh. apply (iw_home _ Hf s h l). unfold holds in *. by rewrite <-C2.
    - intros v s Hs. apply Hl1; [by apply (iw_waiting _ Hf v)|]. apply content_none; [apply Hf|]. intros h l Hh.
      destruct (iw_home _ Hf s h l Hh) as [v' Hv']. pose proof (iw_inj _ Hf v v' s (emptied_slot_of f v s Hf Hs) (ordering_slot_of _ _ _ Hv')) as ->.
      by rewrite (iw_disjoint _ Hf _ _ Hv') in Hs. }
  assert (∀ s, s ∈ (st_removals st).*1 → s ∉ sd_slot <$> st_sets st) as Hdis by (intros s Hin Hin'; by apply (N2 s)).
  assert (Forall (removal_good f1) (st_removals st)) as K2'.
  { rewrite Forall_forall in K2 |- *. intros rm Hin. apply Hr1; [|by apply K2]. apply Hdis. by apply list_elem_of_fmap_2. }
  destruct (commit_removals_spec _ f1 [] f' freed Hf1 K2' N3 (Forall_nil_2 _) Hrun) as ([D1 D2 D3 D4 D5] & Hw2 & Hfr & Ho2 & Hx2).
  assert (∀ s k, content f' s k = content f s k) as Hc by (intros s k; by rewrite D2, C2).
  assert (ordering f' = ordering f) as Ho by congruence.
  split; [split; [done|]|split; [|split; [done|split; [congruence|split; [congruence|split; [done|split]]]]]].
  - intros v s. rewrite Ho. intros Hv. destruct (Hlive v s Hv) as (h & l & Hh). exists h, l. unfold holds in *. by rewrite Hc.
  - intros v row. unfold has_row. rewrite Ho. destruct (om_get v (ordering f)); [by rewrite Hc|done].
  - intros [F1 F2] s Hin. apply elem_of_app in Hin as [Hin|Hin].
    + rewrite Ho2 by (intros Hin'; by apply (N2 s)). by apply Hx1.
    + apply Hx2; [|done]. rewrite Forall_forall in F2 |- *. intros rm Hrm.
      destruct (Ho1 rm.1) as [_ ->]; [apply Hdis; by apply list_elem_of_fmap_2|by apply F2].
  - intros s Hin. rewrite not_elem_of_app in Hin. destruct Hin as [Hi1 Hi2]. rewrite Ho2 by done. by apply Ho1.
Qed.

(** ** The whole stage *)

Lemma stage_spec slots f f' st :
  field_wf f → slots ≡ₚ elements (dom (overlay f)) → stage slots f = Some (f', st) →
  field_wf f' ∧ stage_ok f' st ∧ fresh f' st ∧ same_index f f' ∧ (∀ v row, has_row f' v row = has_row f v row) ∧
  (corrupted f' = false → ∀ s, is_Some (overlay f' !! s) → s ∈ (sd_slot <$> st_sets st) ++ (st_removals st).*1).
Proof using All.
  intros [Hf Hlive] Hp Hrun. unfold stage in Hrun. pose proof (iw_core _ Hf) as Hcf.
  destruct (stage_slots_spec slots f (mk_spill [] []) f' st Hcf) as (Hsi & Hok & _ & Hfresh & Hall & _); [by split; constructor| |done|].
  { cbn. rewrite Hp. apply NoDup_elements. }
  pose proof (λ s k, same_index_content f f' s k Hcf Hsi) as Hc. pose proof (same_index_core f f' Hcf Hsi) as Hcf'.
  assert (index_wf f') as Hf'.
  { apply (index_wf_keeps f); [done|done|by destruct Hsi| |intros v s; rewrite (si_overlay _ _ Hsi); apply (iw_waiting _ Hf)].
    intros s h l Hh. apply (iw_home _ Hf s h l). unfold holds in *. by rewrite <-Hc. }
  pose proof (si_ordering _ _ Hsi) as Ho. split; [split; [done|]|split; [done|split; [apply Hfresh; by split; constructor|split; [done|split]]]].
  - intros v s. rewrite Ho. intros Hv. destruct (Hlive v s Hv) as (h & l & Hh). exists h, l. unfold holds in *. by rewrite Hc.
  - intros v row. unfold has_row. rewrite Ho. destruct (om_get v (ordering f)); [by rewrite Hc|done].
  - intros Hcor s Hs. apply Hall; [done|]. rewrite Hp, elem_of_elements, elem_of_dom. by rewrite <-(si_overlay _ _ Hsi).
Qed.
End commit.
