(* ===== verification/FieldReads.v ===== *)
(** * FieldReads: evaluating a predicate on a field index

    [evaluate] and [load_bitmap] of [src/minnal_db/src/index/field/field_index.rs]: the
    rows a predicate selects are the rows of the values that satisfy it. *)
From S2P Require Import Prelude Slices ArrayMerge Words Container ContainerStore Bitmap BitmapReads BitmapSets Bytes HashTable DirStorage.
From S2P Require Import BlobStore BlobStoreSpec BlobOpen OrdMap OverlayBudget FieldIndex FieldChange FieldUpdates FieldSpill FieldCommit.

(** ** The files and the slots of a field index across a spill

    What [src/minnal_db/src/index/field/field_index.rs] promises the keymap that
    [src/minnal_db/src/index/field/value.rs] keeps beside it: staging and committing leave a store
    whose files open again ([filed]), an insertion gives a new value the next slot and
    changes no other, and a commit releases the slots it reports and no other. *)

(** ** Stores whose files open again *)

Section filed.
Context `{CrcLaws}.

Record filed (l : BlobLayout) (b : BlobStore) : Prop := {
  fl_wf : blob_wf b;
  fl_sealed : sealed (key_data b);
  fl_layout : layout b = l;
  fl_values : 0 < zlen (val_data b);
}.

Lemma filed_new l : filed l (create_with l).
Proof using All.
  split; [apply (new_store_wf (create_with l) l); by right|apply sealed_new|done|by vm_compute].
Qed.

Lemma append_grows b blob b' o l : blob_wf b → append_value blob b = Some (b', (o, l)) → zlen (val_data b) ≤ zlen (val_data b').
Proof using.
  intros Hb Ha. pose proof (kw_header _ (bw_keys _ Hb)) as (_ & _ & _ & Hpos). change (u64 (write_pos b)) in Hpos.
  pose proof (bw_max _ Hb). pose proof (bw_pos _ Hb). pose proof (zlen_nonneg blob).
  destruct (align_up_spec (write_pos b)) as [Hal _]; [unfold u64 in Hpos; lia|unfold MAX_MAP in *; lia|].
  unfold append_value in Ha. cbv zeta in Ha. change (value_write_pos (header b)) with (write_pos b) in Ha.
  unfold u64 in Hpos. set (o0 := align_up (write_pos b) VALUE_ALIGNMENT) in *. clearbody o0.
  apply bind_Some in Ha as (val & Ev & Ha). apply bind_Some in Ha as (len & _ & Ha).
  apply (inj Some), pair_equal_spec in Ha as [<- _]. cbn [set_header with_key val_data].
  assert (in_region val o0 (zlen blob) ∧ zlen (val_data b) ≤ zlen val) as [Hin Hz]; [|by rewrite bwrite_length].
  destruct (Z.eq_dec (o0 + zlen blob) 0) as [H00|].
  - unfold ensure_capacity in Ev. rewrite (proj2 (Z.leb_le _ _)) in Ev by (pose proof (zlen_nonneg (val_data b)); lia).
    injection Ev as <-. split; [unfold in_region; pose proof (zlen_nonneg (val_data b)); lia|done].
  - apply ensure_capacity_spec in Ev as (? & ? & ?); [|done|lia]. split; [unfold in_region; lia|lia].
Qed.

Lemma filed_append l b blob b' o len : filed l b → append_value blob b = Some (b', (o, len)) → filed l b'.
Proof using All.
  intros [Hw Hs Hl Hv] Ha. destruct (append_value_spec b blob b' o len Hw Ha) as (Hw' & _ & _ & Hl' & _).
  split; [done|exact (sealed_append b blob b' o len Hw Hs Ha)|congruence|]. pose proof (append_grows b blob b' o len Hw Ha). lia.
Qed.

Lemma filed_set_slot l b key offset len b' new :
  filed l b → u128 key → 0 ≤ offset → 0 ≤ len < 2 ^ 32 → offset + len ≤ write_pos b →
  set_slot key offset len b = Some (b', new) → filed l b'.
Proof using All.
  intros [Hw Hs Hl Hv] Hk Ho Hlen He Hrun. destruct (set_slot_spec b b' key offset len new Hw Hk Ho Hlen He Hrun) as (Hw' & _ & (Hv' & _ & Hl' & _) & _).
  split; [done|by apply (sealed_set_slot b b' key offset len new)|congruence|by rewrite Hv'].
Qed.

Lemma filed_remove l b key : filed l b → filed l (remove_key key b).
Proof using All.
  intros [Hw Hs Hl Hv]. destruct (remove_key_spec b key Hw) as (Hw' & _ & (Hv' & _ & Hl' & _)).
  split; [done|by apply sealed_remove|congruence|by rewrite Hv'].
Qed.

Lemma filed_open l b : filed l b → blobs_readable b →
  ∃ b', open_with l (key_data b) (val_data b) = Ok b' ∧ filed l b' ∧ blob_map b' = blob_map b ∧ val_data b' = val_data b ∧
    write_pos b' = write_pos b ∧ damaged_at_open b' = 0.
Proof using All.
  intros [Hw Hs Hl Hv] Hr. destruct (open_clean b Hw Hs Hr Hv) as (b' & Ho & R1 & R2 & R3 & R4 & R5 & _ & R7 & R8).
  rewrite Hl in Ho. exists b'. split; [done|]. split; [split; [done|done|congruence|by rewrite R4]|done].
Qed.

(** *** Values *)

Lemma append_values b blob b' o l : blob_wf b → append_value blob b = Some (b', (o, l)) → blob_values b' = blob_values b.
Proof using.
  intros Hw Ha. destruct (append_value_spec b blob b' o l Hw Ha) as (Hw1 & Hm1 & _ & _ & _ & _ & _ & _ & _ & _ & Hst).
  unfold blob_values. rewrite Hm1. apply map_eq. intros k. rewrite !lookup_fmap.
  destruct (blob_map b !! k) as [s|] eqn:E; [|done]. cbn. f_equal. by apply (blob_values_stable b b' Hw Hw1 Hst k).
Qed.

Lemma set_slot_values b key offset len blob b' new :
  blob_wf b → u128 key → 0 ≤ offset → 0 ≤ len < 2 ^ 32 → offset + len ≤ write_pos b → value_slice b offset len = Some blob →
  set_slot key offset len b = Some (b', new) → blob_values b' = <[key := blob]> (blob_values b) ∧ write_pos b' = write_pos b ∧ val_data b' = val_data b.
Proof using All.
  intros Hw Hk Ho Hlen He Hsl Hrun. destruct (set_slot_spec b b' key offset len new Hw Hk Ho Hlen He Hrun) as (Hw' & Hm & (Hv & _ & _ & _ & Hp) & _).
  split; [|done]. unfold blob_values. rewrite Hm, Hv, fmap_insert. f_equal. cbn [s_offset s_len live_slot].
  pose proof (bw_pos _ Hw). rewrite value_slice_Some in Hsl by (apply Hw || lia). by apply (inj Some) in Hsl.
Qed.

Lemma remove_values b key : blob_wf b → blob_values (remove_key key b) = delete key (blob_values b).
Proof using All.
  intros Hw. destruct (remove_key_spec b key Hw) as (_ & Hm & (Hv & _)). unfold blob_values. by rewrite Hm, Hv, fmap_delete.
Qed.
End filed.

(** ** A field index across its writes and its spill *)

Section slots.
Context {V : Type} `{OrderedLaws V} `{!EqDecision V} `{Cpu} `{HeapCost} `{CrcLaws} `{RkyvLaws} `{HeapBytes}.
Implicit Type f : FieldIndex V.

(** *** Insertion *)

Lemma slot_for_insert_slots value f :
  index_wf f →
  let '(slot, f') := slot_for_insert value f in
  (∀ v, slot_of f' v = if decide (v = value) then Some slot else slot_of f v) ∧
  ((slot_of f value = Some slot ∧ next_slot f' = next_slot f) ∨
   (slot_of f value = None ∧ slot = next_slot f ∧ next_slot f' = next_slot f + 1)).
Proof using All.
  intros Hf. pose proof (slot_for_insert_spec value f Hf) as Hs. destruct (slot_for_insert value f) as [slot f'] eqn:E.
  destruct Hs as (_ & _ & Hv & _ & _ & Ho & Hsame & _). split.
  - intros v. case_decide as Hd; [subst v; by apply ordering_slot_of|by apply Ho].
  - unfold slot_for_insert in E. unfold slot_of. destruct (om_get value (ordering f)) as [id|]; [left; by apply pair_equal_spec in E as [-> <-]|].
    destruct (om_get value (emptied f)) as [id|]; apply pair_equal_spec in E as [<- <-]; [by left|by right].
Qed.

Lemma insert_many_slots value rows f :
  field_wf f → Forall u128 rows → rows ≠ [] →
  let f' := insert_many value rows f in
  ∃ slot, om_get value (ordering f') = Some slot ∧ (∀ v, slot_of f' v = if decide (v = value) then Some slot else slot_of f v) ∧
  ((slot_of f value = Some slot ∧ next_slot f' = next_slot f) ∨
   (slot_of f value = None ∧ slot = next_slot f ∧ next_slot f' = next_slot f + 1)).
Proof using All.
  intros [Hf _] Hrows Hne f'.
  assert (f' = let '(slot, f1) := slot_for_insert value f in groups_fold slot (group_rows rows) f1) as -> by (unfold f'; by destruct rows).
  pose proof (slot_for_insert_slots value f Hf) as Hs. pose proof (slot_for_insert_spec value f Hf) as Hsi.
  destruct (slot_for_insert value f) as [slot f1]. destruct Hs as [Hs1 Hs2], Hsi as (Hf1 & _ & Hv & Hslot & _).
  destruct (group_rows_spec rows Hrows) as [Hgw _].
  destruct (insert_groups_spec slot _ Hgw f1 (iw_core _ Hf1) Hslot) as (_ & _ & Hk & _). pose proof (keeps_slot_of _ _ Hk) as Hks.
  destruct Hk as (-> & _ & ->). exists slot. split; [done|]. split; [|done]. intros v. by rewrite Hks.
Qed.

(** *** Staging *)

Lemma append_blobs_filed l blobs : ∀ b m b' m', filed l b → append_blobs blobs m b = Some (b', m') → filed l b'.
Proof using All.
  induction blobs as [|[k bytes] blobs IH]; intros b m b' m' Hb Hrun; cbn [append_blobs] in Hrun.
  { by apply (inj Some), pair_equal_spec in Hrun as [<- _]. }
  apply bind_Some in Hrun as ([b1 [o len]] & Ha & Hrun). apply (IH b1 _ b' m' (filed_append l b bytes b1 o len Hb Ha) Hrun).
Qed.

Lemma stage_slot_filed l f st slot f' st' : filed l (bitmaps f) → stage_slot (f, st) slot = Some (f', st') → filed l (bitmaps f').
Proof using All.
  intros Hb Hs. cbn [stage_slot] in Hs. apply bind_Some in Hs as (ver & _ & Hs). apply bind_Some in Hs as (ch & _ & Hs).
  destruct (sc_empty ch); [by apply (inj Some), pair_equal_spec in Hs as [<- _]|].
  destruct (stored_dir (bitmaps f) slot) as [dir r]. destruct (encode_changes _ _ _) as [[m blobs]|];
    [|by apply (inj Some), pair_equal_spec in Hs as [<- _]].
  apply bind_Some in Hs as ([b1 m1] & Ha1 & Hs). apply bind_Some in Hs as ([b2 [o len]] & Ha2 & Hs).
  apply (inj Some), pair_equal_spec in Hs as [<- _]. cbn [bitmaps set_bitmaps].
  apply (filed_append l b1 (encode_dir m1.*2) b2 o len); [|done]. by apply (append_blobs_filed l blobs (bitmaps f) m b1 m1).
Qed.

Lemma stage_filed l slots f f' st : filed l (bitmaps f) → stage slots f = Some (f', st) → filed l (bitmaps f').
Proof using All.
  unfold stage. generalize (mk_spill [] []) as st0. revert f. induction slots as [|s slots IH]; intros f st0 Hb Hs; cbn [stage_slots] in Hs.
  { by apply (inj Some), pair_equal_spec in Hs as [<- _]. }
  apply bind_Some in Hs as ([f1 st1] & Hs1 & Hs). apply (IH f1 st1); [|done]. by apply (stage_slot_filed l f st0 s f1 st1).
Qed.

(** *** Committing *)

Lemma commit_set_filed l f s es ch f' :
  filed l (bitmaps f) → set_ok f s es ch → u128 (sd_slot s) → commit_set f s = Some f' → filed l (bitmaps f').
Proof using All.
  intros Hb [_ (R1 & R2 & R3) _ _ _ _ _ _ _ _ _ _] Hu Hrun. unfold commit_set in Hrun. apply bind_Some in Hrun as ([b new] & Hs & Hrun).
  pose proof (filed_set_slot l _ _ _ _ _ _ Hb Hu R1 R2 R3 Hs) as Hb'.
  pose proof (drop_unchanged_spec (sd_slot s) (sd_ver s) (set_bitmaps b f)) as Hd.
  destruct (drop_overlay_entry_if_unchanged _ _ _) as [f2 dropped]. destruct Hd as (_ & _ & E3 & _). cbn [bitmaps set_bitmaps] in E3.
  apply (inj Some) in Hrun. subst f'. destruct dropped; [by rewrite E3|]. unfold drop_staged_containers.
  destruct (overlay f2 !! sd_slot s); [|by rewrite E3]. destruct (foldl drop_container _ _). cbn. by rewrite E3.
Qed.

Lemma commit_sets_filed l sets : ∀ f f', core_wf f → Forall (set_good f) sets → NoDup (sd_slot <$> sets) →
  next_slot f ≤ 2 ^ 128 → filed l (bitmaps f) → commit_sets f sets = Some f' → filed l (bitmaps f').
Proof using All.
  induction sets as [|s sets IH]; intros f f' Hf Hg Hnd Hu Hb Hrun; [by apply (inj Some) in Hrun; subst|].
  apply Forall_cons in Hg as [(es & ch & Hok) Hg]. rewrite fmap_cons in Hnd. apply NoDup_cons in Hnd as [Hnot Hnd].
  cbn [commit_sets] in Hrun. apply bind_Some in Hrun as (f1 & Hc1 & Hrun).
  assert (u128 (sd_slot s)) as Hslot.
  { pose proof (cw_slot _ _ _ (cf_overlay _ Hf _ _ (so_overlay _ _ _ _ Hok))). unfold u128. lia. }
  destruct (commit_set_spec f s es ch f1 Hf Hok Hslot Hc1) as (Hs1 & _).
  apply (IH f1 f'); [apply Hs1| |done|by rewrite (sl_next_slot _ _ _ Hs1)|by apply (commit_set_filed l f s es ch)|done].
  rewrite Forall_forall in Hg |- *. intros s' Hin. apply (settles_set f f1 (sd_slot s)); [done|done| |by apply Hg].
  intros Heq. apply Hnot. rewrite <-Heq. by apply list_elem_of_fmap_2.
Qed.

(** A removal releases the emptied value's slot, or nothing. *)
Lemma commit_removal_slots l f freed slot ver :
  filed l (bitmaps f) → om_wf (emptied f) →
  let p := commit_removal (f, freed) (slot, ver) in
  filed l (bitmaps p.1) ∧ ordering p.1 = ordering f ∧ om_wf (emptied p.1) ∧
  ((emptied p.1 = emptied f ∧ p.2 = freed) ∨
   (∃ v, om_get v (emptied f) = Some slot ∧ emptied p.1 = om_remove v (emptied f) ∧ p.2 = freed ++ [slot])).
Proof using All.
  intros Hb He. unfold commit_removal. pose proof (drop_unchanged_spec slot ver f) as Hd.
  destruct (drop_overlay_entry_if_unchanged slot ver f) as [f1 dropped]. destruct Hd as (E1 & E2 & E3 & _ & _ & _ & Hd).
  destruct dropped; cbn [negb].
  2:{ destruct Hd as [_ ->]. cbn [fst snd]. split; [done|]. split; [done|]. split; [done|by left]. }
  change (emptied (set_bitmaps (remove_key slot (bitmaps f1)) f1)) with (emptied f1). rewrite E2, E3.
  pose proof (filed_remove l _ slot Hb) as Hb'.
  destruct (list_find (λ p : V * Z, p.2 = slot) (emptied f)) as [[i [v s]]|] eqn:Ef; cbn [fst snd].
  - apply list_find_Some in Ef as (Hi & Hs & _). cbn in Hs. subst s. split; [done|]. split; [done|]. split; [by apply om_remove_wf|].
    right. exists v. split; [|done]. apply om_get_Some; [done|]. by eapply list_elem_of_lookup_2.
  - split; [done|]. split; [done|]. split; [by cbn; rewrite E2|]. left. by cbn; rewrite E2.
Qed.

Lemma commit_removals_slots l rms : ∀ f freed, filed l (bitmaps f) → om_wf (emptied f) →
  let p := foldl commit_removal (f, freed) rms in
  filed l (bitmaps p.1) ∧ (∀ s, s ∈ freed → s ∈ p.2) ∧
  (∀ v s, slot_of f v = Some s → slot_of p.1 v = Some s ∨ s ∈ p.2) ∧
  (∀ v s, slot_of p.1 v = Some s → slot_of f v = Some s) ∧
  (∀ s, s ∈ p.2 → s ∈ freed ∨ (s ∈ rms.*1 ∧ ∃ v, om_get v (emptied f) = Some s)).
Proof using All.
  induction rms as [|[slot ver] rms IH]; intros f freed Hb He.
  { cbn [foldl fst snd]. split; [done|]. split; [done|]. split; [by left|]. split; [done|]. by left. }
  cbn [foldl]. destruct (commit_removal_slots l f freed slot ver Hb He) as (Hb1 & Ho & He1 & Hcase).
  destruct (commit_removal (f, freed) (slot, ver)) as [f1 freed1]. cbn [fst snd] in *.
  destruct (IH f1 freed1 Hb1 He1) as (I1 & I2 & I3 & I4 & I5). set (p := foldl commit_removal (f1, freed1) rms) in *.
  assert ((∀ s, s ∈ freed → s ∈ freed1) ∧ (∀ v s, slot_of f v = Some s → slot_of f1 v = Some s ∨ s ∈ freed1) ∧
    (∀ v s, slot_of f1 v = Some s → slot_of f v = Some s) ∧ (∀ v s, om_get v (emptied f1) = Some s → om_get v (emptied f) = Some s) ∧
    (∀ s, s ∈ freed1 → s ∈ freed ∨ (s = slot ∧ ∃ v, om_get v (emptied f) = Some s))) as (J1 & J2 & J3 & J4 & J5).
  { unfold slot_of. rewrite Ho. destruct Hcase as [[-> ->]|(v0 & Hv0 & -> & ->)].
    - split; [done|]. split; [by left|]. split; [done|]. split; [done|]. by left.
    - split; [set_solver|]. split; [|split; [|split]].
      + intros v s. destruct (om_get v (ordering f)); [by left|]. rewrite om_get_remove by done. case_decide as Hd; [|by left].
        subst v. rewrite Hv0. intros [= <-]. right. set_solver.
      + intros v s. destruct (om_get v (ordering f)); [done|]. rewrite om_get_remove by done. by case_decide.
      + intros v s. rewrite om_get_remove by done. by case_decide.
      + intros s [Hin|Hin]%elem_of_app; [by left|right; apply list_elem_of_singleton in Hin as ->]. split; [done|by exists v0]. }
  rewrite fmap_cons. cbn [fst]. split; [done|]. split; [naive_solver|]. split; [|split; [naive_solver|]].
  - intros v s Hs. destruct (J2 v s Hs) as [Hs1|Hs1]; [by apply I3|right; by apply I2].
  - intros s Hs. destruct (I5 s Hs) as [Hs1|(Hs1 & v & Hv)]; [|right; split; [by right|exists v; by apply J4]].
    destruct (J5 s Hs1) as [Hl|[-> Hl]]; [by left|]. right. split; [by left|done].
Qed.

Lemma commit_slots l f st f' freed :
  field_wf f → stage_ok f st → next_slot f ≤ 2 ^ 128 → filed l (bitmaps f) → commit st f = Some (f', freed) →
  filed l (bitmaps f') ∧ (∀ v s, slot_of f v = Some s → slot_of f' v = Some s ∨ s ∈ freed) ∧
  (∀ v s, slot_of f' v = Some s → slot_of f v = Some s) ∧
  (∀ s, s ∈ freed → s ∈ (st_removals st).*1 ∧ ∃ v, slot_of f v = Some s).
Proof using All.
  intros [Hf _] [K1 K2 K3] Hu Hb Hrun. unfold commit in Hrun. apply bind_Some in Hrun as (f1 & Hc1 & Hrun).
  apply (inj Some) in Hrun. apply NoDup_app in K3 as (N1 & _).
  pose proof (commit_sets_filed l _ f f1 (iw_core _ Hf) K1 N1 Hu Hb Hc1) as Hb1.
  destruct (commit_sets_spec _ f f1 (iw_core _ Hf) K1 N1 Hu Hc1) as ([_ _ Ho _ _] & He & _).
  assert (∀ v, slot_of f1 v = slot_of f v) as Hs by (intros v; unfold slot_of; by rewrite Ho, He).
  destruct (commit_removals_slots l (st_removals st) f1 [] Hb1) as (I1 & _ & I3 & I4 & I5); [rewrite He; apply Hf|].
  rewrite Hrun in I1, I3, I4, I5. cbn [fst snd] in *. setoid_rewrite Hs in I3. setoid_rewrite Hs in I4.
  split; [done|]. split; [done|]. split; [done|]. intros s Hin. destruct (I5 s Hin) as [Hnil|(Hr & v & Hv)]; [by apply elem_of_nil in Hnil|].
  split; [done|]. exists v. rewrite He in Hv. unfold slot_of. destruct (om_get v (ordering f)) as [s'|] eqn:E; [|done].
  by rewrite (iw_disjoint _ Hf _ _ E) in Hv.
Qed.
End slots.

(** ** Evaluating a predicate on a field index *)

(** A bitmap without run containers. *)
Definition no_runs (h : HeapStore) : Prop := ∀ k c, hs_map h !! k = Some c → not_run c.

Lemma no_runs_or `{Cpu} `{HeapCost} (a b : HeapStore) :
  bitmap_wf a → bitmap_wf b → no_runs a → no_runs b → no_runs (bitmap_or a b).
Proof.
  intros Ha Hb Hra Hrb k c.
  destruct (or_entries_spec _ _ _ (entries_ascending a Ha) (entries_ascending b Hb) heap_new_wf) as [_ Hm].
  fold (bitmap_or a b) in Hm. rewrite Hm, !find_key_store by done. change (store_entries a) with (hs_map a). change (store_entries b) with (hs_map b).
  unfold or_at. destruct (hs_map a !! k) as [x|] eqn:Ea, (hs_map b !! k) as [y|] eqn:Eb; [| | |done]; intros [= <-].
  - apply Hra in Ea. apply Hrb in Eb. destruct x as [x|x|x], y as [y|y|y]; cbn in *; try done. by case_match.
  - by apply (Hra k).
  - by apply (Hrb k).
Qed.

Section reads.
Context {V : Type} `{OrderedLaws V} `{!EqDecision V} `{Cpu} `{HeapCost} `{CrcLaws} `{RkyvLaws} `{HeapBytes}.
Implicit Type f : FieldIndex V.

Lemma insert_owned_spec (k : Z) c (h : HeapStore) :
  heap_wf h → heap_wf (heap_insert_owned k c h) ∧ hs_map (heap_insert_owned k c h) = <[k := c]> (hs_map h).
Proof using.
  intros Hh. destruct (heap_upsert_spec h k c Hh) as (Hw & Hm & _), (heap_insert_owned_upsert h k c) as (E1 & E2 & E3).
  split; [|congruence]. unfold heap_wf in *. by rewrite E1, E2, E3.
Qed.

Lemma load_entries_spec b covered es bm :
  Forall (entry_ok b) es → NoDup (d_key <$> es) → heap_wf bm →
  let p := load_stored_entries b covered es bm in
  p.2 = false ∧ heap_wf p.1 ∧ ∀ k, hs_map p.1 !! k = if covered k : bool then hs_map bm !! k else
    match dir_find es k with Some e => (stored_container b e).1 | None => hs_map bm !! k end.
Proof using.
  revert bm. induction es as [|e es IH]; intros bm Hes Hnd Hbm.
  { split; [done|]. split; [done|]. intros k. by destruct (covered k). }
  apply Forall_cons in Hes as [He Hes]. rewrite fmap_cons in Hnd. apply NoDup_cons in Hnd as [Hnot Hnd].
  assert (dir_find es (d_key e) = None) as Hkey.
  { apply dir_find_None. intros e' Hin Hk. apply Hnot. rewrite <-Hk. by apply list_elem_of_fmap_2. }
  assert (∀ k, dir_find (e :: es) k = if decide (d_key e = k) then Some e else dir_find es k) as Hcons.
  { intros k. unfold dir_find. cbn [list_find]. destruct (decide (d_key e = k)); [done|].
    by destruct (list_find (λ e, d_key e = k) es) as [[i x]|]. }
  cbn [load_stored_entries]. destruct (covered (d_key e)) eqn:Ec.
  - destruct (IH bm Hes Hnd Hbm) as (I1 & I2 & I3). split; [done|]. split; [done|]. intros k. rewrite I3, Hcons.
    destruct (decide (d_key e = k)) as [<-|]; [by rewrite Ec|done].
  - destruct (entry_ok_container b e He) as (c & Hc & _). rewrite Hc.
    destruct (insert_owned_spec (d_key e) c bm Hbm) as [Hw Hm].
    destruct (IH (heap_insert_owned (d_key e) c bm) Hes Hnd Hw) as (I1 & I2 & I3).
    destruct (load_stored_entries b covered es _) as [bm' r]. cbn [fst snd] in *. subst r. split; [done|]. split; [done|].
    intros k. rewrite I3, Hm, Hcons. destruct (decide (d_key e = k)) as [<-|Hne].
    + by rewrite Ec, Hkey, lookup_insert_eq, Hc.
    + rewrite lookup_insert_ne by done. done.
Qed.

Definition put_changes (changes : ordmap Z (option Container)) (bm : HeapStore) : HeapStore :=
  foldl (λ bm p, match p.2 with Some c => heap_insert_owned p.1 c bm | None => bm end) bm changes.

Lemma put_changes_spec changes : om_wf changes → ∀ bm, heap_wf bm →
  heap_wf (put_changes changes bm) ∧
  ∀ k, hs_map (put_changes changes bm) !! k = match om_get k changes with Some (Some c) => Some c | _ => hs_map bm !! k end.
Proof using.
  induction changes as [|[key o] changes IH]; intros Hs bm Hbm; [done|].
  pose proof Hs as Hs'. apply om_wf_cons in Hs' as [Hlt Hs'].
  assert (om_get key changes = None) as Hkey.
  { apply om_get_None; [done|]. intros a Hin. apply Hlt in Hin. by rewrite cmp_refl in Hin. }
  unfold put_changes. cbn [foldl fst snd].
  assert (heap_wf (match o with Some c => heap_insert_owned key c bm | None => bm end) ∧
    ∀ k, hs_map (match o with Some c => heap_insert_owned key c bm | None => bm end) !! k =
      match o with Some c => if decide (k = key) then Some c else hs_map bm !! k | None => hs_map bm !! k end) as [Hw Hm].
  { destruct o as [c|]; [|done]. destruct (insert_owned_spec key c bm Hbm) as [Hw Hm]. split; [done|]. intros k. rewrite Hm.
    case_decide; [subst; apply lookup_insert_eq|by apply lookup_insert_ne]. }
  destruct (IH Hs' _ Hw) as [Hw2 Hm2]. split; [done|]. intros k. fold (put_changes changes). rewrite Hm2, om_get_cons, Hm by done.
  destruct (decide (k = key)) as [->|Hne]; [by rewrite Hkey; destruct o|]. by destruct o.
Qed.

Definition loaded f (slot : Z) (bm : HeapStore) : Prop :=
  bitmap_wf bm ∧ no_runs bm ∧ ∀ row, member bm row = member_at (content f slot (row / 65536)) (row mod 65536).

Lemma load_bitmap_spec f slot : core_wf f → ∃ bm, load_bitmap f slot = (bm, false) ∧ loaded f slot bm.
Proof using All.
  intros Hf. unfold load_bitmap. destruct (stored_slot (bitmaps f) slot) as [es Hes]; [apply Hf..|].
  rewrite (sdir_dir _ _ _ Hes). pose proof (sdir_wf _ _ _ Hes) as (Hasc & _).
  destruct (load_entries_spec (bitmaps f) (λ key, bool_decide (is_Some (overlay_at f slot key))) es heap_new
    (sdir_entries _ _ _ Hes) (ascending_NoDup _ Hasc) heap_new_wf) as (L1 & L2 & L3).
  destruct (load_stored_entries _ _ es heap_new) as [bm r]. cbn [fst snd] in *. subst r.
  set (changes := match overlay f !! slot with Some ch => sc_containers ch | None => [] end).
  assert (om_wf changes ∧ ∀ k, overlay_at f slot k = om_get k changes) as [Hcs Hoa].
  { unfold changes, overlay_at. destruct (overlay f !! slot) as [ch|] eqn:E; [|split; [constructor|done]].
    split; [by eapply cw_sorted, cf_overlay|done]. }
  clearbody changes. destruct (put_changes_spec changes Hcs bm L2) as [Hw Hm]. fold (put_changes changes bm).
  set (res := put_changes changes bm) in *. exists res. split; [done|].
  assert (∀ k, hs_map res !! k = content f slot k) as Hc.
  { intros k. rewrite Hm, L3. unfold content. rewrite Hoa, (stored_at_dir _ _ es k Hes). unfold dir_container.
    destruct (om_get k changes) as [[c|]|] eqn:E; [done| |].
    - by rewrite bool_decide_true by by eexists.
    - rewrite bool_decide_false by (intros [? ?]; done). by destruct (dir_find es k). }
  split; [split|split].
  - exact Hw.
  - intros k c. change (store_entries res) with (hs_map res). rewrite Hc. intros Hk.
    destruct (content_good f slot k c Hf Hk) as [(? & ? & _) ?]. done.
  - intros k c. rewrite Hc. intros Hk. by destruct (content_good f slot k c Hf Hk) as [(_ & _ & ?) _].
  - intros row. unfold member, member_map. change (store_entries res) with (hs_map res). by rewrite Hc.
Qed.

Definition rows_of_slots f (slots : list Z) (row : Z) : Prop :=
  ∃ s, s ∈ slots ∧ member_at (content f s (row / 65536)) (row mod 65536) = true.

Lemma or_slots_spec f slots : core_wf f → ∀ result, bitmap_wf result → no_runs result →
  ∃ bm, or_slots f slots result = (bm, false) ∧ bitmap_wf bm ∧ no_runs bm ∧
    ∀ row, u128 row → member bm row = true ↔ member result row = true ∨ rows_of_slots f slots row.
Proof using All.
  intros Hf. induction slots as [|s slots IH]; intros result Hr Hn.
  { exists result. split_and!; [done..|]. intros row _. split; [by left|]. by intros [|(s & ?%elem_of_nil & _)]. }
  cbn [or_slots]. destruct (load_bitmap_spec f s Hf) as (bm & -> & Hbw & Hbn & Hbm).
  destruct (or_member result bm Hr Hbw) as [Hw Hm].
  destruct (IH (bitmap_or result bm) Hw (no_runs_or _ _ Hr Hbw Hn Hbn)) as (bm' & -> & Hw' & Hn' & Hm').
  exists bm'. split_and!; [done..|]. intros row Hrow. rewrite Hm', Hm, orb_true_iff, Hbm by done. unfold rows_of_slots.
  setoid_rewrite elem_of_cons. naive_solver.
Qed.

(** ** Predicates *)

Definition satisfies (p : Predicate V) (v : V) : Prop :=
  match p with
  | PEq w => v = w
  | PNe w => v ≠ w
  | PLt w => cmp v w = Lt
  | PLe w => cmp v w ≠ Gt
  | PGt w => cmp w v = Lt
  | PGe w => cmp w v ≠ Gt
  | PBetween lo hi => cmp lo v ≠ Gt ∧ cmp v hi ≠ Gt
  | PIn vs => v ∈ vs
  end.
#[global] Instance satisfies_dec p v : Decision (satisfies p v).
Proof using EqDecision0. destruct p; cbn; apply _. Defined.

(** The one predicate [evaluate] panics on: [BTreeMap::range] from above its end. *)
Definition evaluate_panics (p : Predicate V) : bool :=
  match p with PBetween lo hi => bool_decide (cmp lo hi = Gt) | _ => false end.

Lemma has_row_slots f (slots : list Z) (P : V → Prop) row :
  (∀ s, s ∈ slots ↔ ∃ v, P v ∧ om_get v (ordering f) = Some s) →
  rows_of_slots f slots row ↔ ∃ v, P v ∧ has_row f v row = true.
Proof using.
  intros Hs. unfold rows_of_slots, has_row. split.
  - intros (s & Hin & Hm). apply Hs in Hin as (v & Hv & Ho). exists v. by rewrite Ho.
  - intros (v & Hv & Hm). destruct (om_get v (ordering f)) as [s|] eqn:E; [|done]. exists s. split; [|done]. apply Hs. by exists v.
Qed.

Lemma ordering_slots f (m : ordmap V Z) (P : V → Prop) :
  om_wf (ordering f) → (∀ v s, (v, s) ∈ m ↔ (v, s) ∈ ordering f ∧ P v) →
  ∀ s, s ∈ m.*2 ↔ ∃ v, P v ∧ om_get v (ordering f) = Some s.
Proof using All.
  intros Ho Hm s. rewrite list_elem_of_fmap. split.
  - intros ([v s'] & -> & Hin). apply Hm in Hin as [Hin Hv]. exists v. split; [done|]. by apply om_get_Some.
  - intros (v & Hv & Hs). exists (v, s). split; [done|]. apply Hm. split; [by apply om_get_Some|done].
Qed.

Lemma heap_new_no_runs : no_runs heap_new.
Proof using. intros k c. cbn. by rewrite lookup_empty. Qed.

Lemma member_new row : member heap_new row = false.
Proof using. unfold member, member_map. cbn. by rewrite lookup_empty. Qed.

Lemma evaluate_spec f p :
  field_wf f →
  if evaluate_panics p then evaluate f p = None
  else ∃ bm, evaluate f p = Some (bm, false) ∧ bitmap_wf bm ∧ no_runs bm ∧
    ∀ row, u128 row → member bm row = true ↔ ∃ v, satisfies p v ∧ has_row f v row = true.
Proof using All.
  intros [Hf _]. pose proof (iw_core _ Hf) as Hc. pose proof (iw_ordering _ Hf) as Ho.
  assert (∀ slots (P : V → Prop), (∀ s, s ∈ slots ↔ ∃ v, P v ∧ om_get v (ordering f) = Some s) →
    ∃ bm, Some (or_slots f slots heap_new) = Some (bm, false) ∧ bitmap_wf bm ∧ no_runs bm ∧
      ∀ row, u128 row → member bm row = true ↔ ∃ v, P v ∧ has_row f v row = true) as Hor.
  { intros slots P Hs. destruct (or_slots_spec f slots Hc heap_new heap_new_bitmap_wf heap_new_no_runs) as (bm & -> & Hw & Hn & Hm).
    exists bm. split_and!; [done..|]. intros row Hrow. rewrite Hm, member_new, (has_row_slots f slots P) by done. naive_solver. }
  assert (∀ lo hi (P : V → Prop), range_panics lo hi = false → (∀ v, P v ↔ above lo v = true ∧ below hi v = true) →
    ∃ bm, or_range f lo hi = Some (bm, false) ∧ bitmap_wf bm ∧ no_runs bm ∧
      ∀ row, u128 row → member bm row = true ↔ ∃ v, P v ∧ has_row f v row = true) as Hrange.
  { intros lo hi P Hp HP. unfold or_range. destruct (om_range lo hi (ordering f)) as [m|] eqn:E.
    2:{ unfold om_range in E. by rewrite Hp in E. }
    cbn [mbind option_bind]. apply Hor. apply ordering_slots; [done|]. intros v s.
    destruct (om_range_Some lo hi (ordering f) m Ho E) as [_ ->]. by rewrite HP. }
  destruct p as [w|w|w|w|w|w|lo hi|vs]; cbn [evaluate evaluate_panics satisfies].
  - destruct (om_get w (ordering f)) as [slot|] eqn:E.
    + destruct (load_bitmap_spec f slot Hc) as (bm & -> & Hw & Hn & Hm). exists bm. split_and!; [done..|].
      intros row Hrow. rewrite Hm. unfold has_row. split; [intros Ht; exists w; by rewrite E|]. by intros (v & -> & Ht); rewrite E in Ht.
    + exists heap_new. split_and!; [done|apply heap_new_bitmap_wf|apply heap_new_no_runs|]. intros row Hrow. rewrite member_new.
      split; [done|]. intros (v & -> & Ht). unfold has_row in Ht. by rewrite E in Ht.
  - apply Hor. apply ordering_slots; [done|]. intros v s. rewrite list_elem_of_filter. cbn [fst]. rewrite cmp_eq. tauto.
  - apply Hrange; [done|]. intros v. cbn. rewrite bool_decide_eq_true. tauto.
  - apply Hrange; [done|]. intros v. cbn. rewrite bool_decide_eq_true. tauto.
  - apply Hrange; [done|]. intros v. cbn. rewrite bool_decide_eq_true. tauto.
  - apply Hrange; [done|]. intros v. cbn. rewrite bool_decide_eq_true. tauto.
  - case_bool_decide as Hgt.
    + unfold or_range, om_range, range_panics. by rewrite bool_decide_true.
    + apply Hrange; [by apply bool_decide_eq_false|]. intros v. cbn. rewrite !bool_decide_eq_true. done.
  - apply Hor. intros s. rewrite list_elem_of_omap. done.
Qed.
End reads.
