(* ===== verification/FieldIndexSpec.v ===== *)
(** * FieldIndexSpec: the field index refines a relation between values and rows

    The specification of [src/minnal_db/src/index/field/field_index.rs]: a relation
    between values and rows that insertions, scalar updates and removals change, and
    that staging and committing a spill leave alone.  The index runs as a state machine
    whose spill may be staged, interleaved with any writes, and then committed; the
    stage meets the overlay's slots in whatever order the hash map yields them. *)
From S2P Require Import Prelude Slices Words Bytes OrdMap HashTable ArrayMerge ArrayContainer Container ContainerStore Bitmap BitmapReads BitmapSets.
From S2P Require Import DirStorage BlobStore BlobStoreSpec OverlayBudget FieldIndex FieldChange FieldUpdates FieldSpill FieldCommit FieldReads.

Inductive field_op (V : Type) :=
| FInsert (value : V) (rows : list Z)
| FSet (value : V) (row : Z)
| FRemove (value : V) (row : Z)
| FRemoveAll (rows : list Z)
| FStage
| FCommit.
Arguments FInsert {V} value rows.
Arguments FSet {V} value row.
Arguments FRemove {V} value row.
Arguments FRemoveAll {V} rows.
Arguments FStage {V}.
Arguments FCommit {V}.

Section machine.
Context {V : Type} `{OrderedLaws V} `{!EqDecision V} `{Cpu} `{HeapCost} `{CrcLaws} `{RkyvLaws} `{HeapBytes}.
Implicit Type f : FieldIndex V.

(** ** Specification *)

Definition rows_step (op : field_op V) (R : V → Z → bool) (v : V) (row : Z) : bool :=
  match op with
  | FInsert value rows => bool_decide (v = value ∧ row ∈ rows) || R v row
  | FSet value r => if decide (row = r) then bool_decide (v = value) else R v row
  | FRemove value r => R v row && negb (bool_decide (v = value ∧ row = r))
  | FRemoveAll rows => R v row && negb (bool_decide (row ∈ rows))
  | FStage | FCommit => R v row
  end.

Definition op_rows (op : field_op V) : list Z :=
  match op with
  | FInsert _ rows | FRemoveAll rows => rows
  | FSet _ row | FRemove _ row => [row]
  | FStage | FCommit => []
  end.

(** ** The index and the stage in flight *)

Definition state : Type := FieldIndex V * option SpillStage.

Inductive field_step : state → field_op V → state → Prop :=
| step_insert f st value rows : field_step (f, st) (FInsert value rows) (insert_many value rows f, st)
| step_set f st value row : field_step (f, st) (FSet value row) ((set value row f).1, st)
| step_remove f st value row : field_step (f, st) (FRemove value row) (remove value row f, st)
| step_remove_all f st rows : field_step (f, st) (FRemoveAll rows) ((remove_all_for_rows rows f).1, st)
| step_stage f slots f' st :
    slots ≡ₚ elements (dom (overlay f)) → stage slots f = Some (f', st) → field_step (f, None) FStage (f', Some st)
| step_commit f st f' freed : commit st f = Some (f', freed) → field_step (f, Some st) FCommit (f', None).

Inductive field_run : state → list (field_op V) → state → Prop :=
| run_nil s : field_run s [] s
| run_cons s1 op s2 ops s3 : field_step s1 op s2 → field_run s2 ops s3 → field_run s1 (op :: ops) s3.

(** ** The invariant *)

Record state_wf (s : state) : Prop := {
  sw_field : field_wf s.1;
  sw_stage st : s.2 = Some st → stage_ok s.1 st;
}.

Definition represents (s : state) (R : V → Z → bool) : Prop :=
  state_wf s ∧ ∀ v row, u128 row → has_row s.1 v row = R v row.

(** A commit allocates no slot. *)
Lemma commit_next_slot f st f' freed : commit st f = Some (f', freed) → next_slot f' = next_slot f.
Proof using.
  assert (∀ slot ver f, next_slot (drop_overlay_entry_if_unchanged slot ver f).1 = next_slot f) as Hdrop.
  { intros slot ver f0. pose proof (drop_unchanged_spec slot ver f0) as Hd.
    destruct (drop_overlay_entry_if_unchanged slot ver f0). by destruct Hd as (_ & _ & _ & ? & _). }
  assert (∀ sets f1 f2, commit_sets f1 sets = Some f2 → next_slot f2 = next_slot f1) as Hsets.
  { induction sets as [|s sets IH]; intros f1 f2 Hs; cbn [commit_sets] in Hs; [by apply (inj Some) in Hs; subst|].
    apply bind_Some in Hs as (f3 & Hs & Hs2). rewrite (IH _ _ Hs2). unfold commit_set in Hs.
    apply bind_Some in Hs as ([b new] & _ & Hs). specialize (Hdrop (sd_slot s) (sd_ver s) (set_bitmaps b f1)).
    destruct (drop_overlay_entry_if_unchanged _ _ _) as [f4 d]. apply (inj Some) in Hs. subst f3. cbn [fst next_slot set_bitmaps] in Hdrop.
    destruct d; [done|]. rewrite <-Hdrop. unfold drop_staged_containers. destruct (overlay f4 !! sd_slot s); [|done]. by case_match. }
  assert (∀ rms (p : FieldIndex V * list Z), next_slot (foldl commit_removal p rms).1 = next_slot p.1) as Hrms.
  { induction rms as [|[slot ver] rms IH]; intros [f1 fr]; [done|]. cbn [foldl]. rewrite IH. unfold commit_removal.
    specialize (Hdrop slot ver f1). destruct (drop_overlay_entry_if_unchanged slot ver f1) as [f2 d]. cbn [fst] in *.
    destruct d; cbn [negb]; [|done]. destruct (list_find _ _) as [[? [? ?]]|]; done. }
  unfold commit. intros Hc. apply bind_Some in Hc as (f1 & H1' & Hc). apply (inj Some) in Hc.
  pose proof (Hrms (st_removals st) (f1, [])) as Hx. rewrite Hc in Hx. cbn [fst] in Hx. rewrite Hx. by apply (Hsets _ _ _ H1').
Qed.

Lemma step_correct s op s' R :
  represents s R → field_step s op s' → Forall u128 (op_rows op) → next_slot s.1 ≤ 2 ^ 128 →
  represents s' (rows_step op R) ∧ next_slot s.1 ≤ next_slot s'.1.
Proof using All.
  intros [[Hf Hst] HR] Hs Hrows Hu. destruct Hs as [f st value rows|f st value row|f st value row|f st rows|f slots f' st Hp Hs|f st f' freed Hs];
    cbn [fst snd op_rows] in *.
  - destruct (insert_many_spec value rows f Hf Hrows) as (Hw & Hev & Hh). split; [|by destruct Hev]. split; [split; [done|]|].
    + intros st' Hst'. apply (stage_ok_evolves f); [apply Hf|intros; by apply evolves_slot|by apply Hst].
    + intros v r Hr. cbn. by rewrite Hh, HR.
  - apply Forall_cons in Hrows as [Hrow _]. destruct (set_spec value row f Hf Hrow) as (Hw & Hev & Hh).
    split; [|by destruct Hev]. split; [split; [done|]|].
    + intros st' Hst'. apply (stage_ok_evolves f); [apply Hf|intros; by apply evolves_slot|by apply Hst].
    + intros v r Hr. cbn. rewrite Hh by done. by rewrite HR.
  - apply Forall_cons in Hrows as [Hrow _]. destruct (remove_spec value row f Hf Hrow) as (Hw & Hev & _ & Hh).
    split; [|by destruct Hev]. split; [split; [done|]|].
    + intros st' Hst'. apply (stage_ok_evolves f); [apply Hf|intros; by apply evolves_slot|by apply Hst].
    + intros v r Hr. cbn. by rewrite Hh, HR.
  - destruct (remove_all_spec rows f Hf Hrows) as (Hw & Hev & _ & Hh & _). split; [|by destruct Hev]. split; [split; [done|]|].
    + intros st' Hst'. apply (stage_ok_evolves f); [apply Hf|intros; by apply evolves_slot|by apply Hst].
    + intros v r Hr. cbn. by rewrite Hh, HR.
  - destruct (stage_spec slots f f' st Hf Hp Hs) as (Hw & Hok & _ & Hsi & Hh & _).
    split; [|rewrite (si_next_slot _ _ Hsi); lia]. split; [split; [done|]|].
    + by intros st' [= <-].
    + intros v r Hr. cbn. by rewrite Hh, HR.
  - destruct (commit_spec f st f' freed Hf (Hst _ eq_refl) Hu Hs) as (Hw & Hh & _ & _ & Hn & _).
    split; [|lia]. split; [split; done|]. intros v r Hr. cbn. by rewrite Hh, HR.
Qed.

(** Slots are only ever added. *)
Lemma modify_next_slot slot key create fn f : next_slot (modify_container slot key create fn f).1 = next_slot f.
Proof using.
  assert (∀ s f, next_slot (touch s f) = next_slot f) as Ht by (intros s f0; unfold touch; by destruct (overlay f0 !! s)).
  assert (∀ s k f, next_slot (load_overlay s k f) = next_slot f) as Hl.
  { intros s k f0. unfold load_overlay. destruct (overlay_at f0 s k); [done|]. by destruct (load_stored _ _ _). }
  assert (∀ s f, next_slot (recompute_empty s f) = next_slot f) as Hr.
  { intros s f0. unfold recompute_empty. destruct (overlay f0 !! s); [|done]. destruct (existsb _ _); [done|]. by destruct (count_stored _ _ _). }
  unfold modify_container. destruct (if create then (true, false) else slot_has_container f slot key) as [[|] r]; cbn [negb]; [|done].
  set (f2 := load_overlay _ _ _).
  assert (next_slot f2 = next_slot f) as <- by (unfold f2; rewrite Hl; exact (Ht slot (raise r f))). clearbody f2. clear -Hr.
  destruct (default None (overlay_at f2 slot key)) as [c|], create; try done;
    destruct (fn _) as [c' ch]; cbn [fst next_slot charge_slot charge_bytes alter_changes set_overlay];
    destruct (container_is_empty c'); by rewrite ?Hr.
Qed.

Lemma insert_next_slot value rows f : next_slot f ≤ next_slot (insert_many value rows f).
Proof using.
  assert (next_slot f ≤ next_slot (slot_for_insert value f).2) as Hs.
  { unfold slot_for_insert. destruct (om_get value (ordering f)); [cbn; lia|]. destruct (om_get value (emptied f)); cbn; lia. }
  destruct rows as [|row rows]; [cbn; lia|]. unfold insert_many. destruct (slot_for_insert value f) as [slot f1]. cbn [snd] in Hs.
  generalize dependent f1. induction (group_rows (row :: rows)) as [|g gs IH]; intros f1 Hs; [done|]. cbn [foldl]. apply IH.
  by rewrite modify_next_slot.
Qed.

Lemma remove_all_next_slot rows f : next_slot (remove_all_for_rows rows f).1 = next_slot f.
Proof using.
  assert (∀ slot gs (p : FieldIndex V * bool), next_slot (foldl (remove_group slot) p gs).1 = next_slot p.1) as Hg.
  { intros slot. induction gs as [|g gs IH]; intros [f0 b]; [done|]. cbn [foldl]. rewrite IH. unfold remove_group.
    pose proof (modify_next_slot slot g.1 false (remove_lows g.2) f0) as Hm. cbn [fst]. by destruct (modify_container _ _ _ _ _). }
  destruct rows as [|row rows]; [done|]. unfold remove_all_for_rows. generalize (group_rows (row :: rows)) as gs. intros gs.
  assert (∀ es (p : FieldIndex V * list Z), next_slot (foldl (clear_slot gs) p es).1 = next_slot p.1) as Hc; [|apply Hc].
  induction es as [|[v s] es IH]; intros [f0 l]; [done|]. cbn [foldl]. rewrite IH. unfold clear_slot.
  destruct (slot_contains_any f0 s gs) as [hit r]. destruct hit; cbn [negb]; [|done].
  specialize (Hg s gs (raise r f0, false)). destruct (foldl (remove_group s) _ gs) as [f1 ch]. by destruct (ch && slot_is_empty f1 s).
Qed.

Lemma stage_next_slot slots f f' st : stage slots f = Some (f', st) → next_slot f' = next_slot f.
Proof using.
  unfold stage. generalize (mk_spill [] []) as st0. revert f. induction slots as [|s slots IH]; intros f st0 Hs; cbn [stage_slots] in Hs.
  { by apply (inj Some), pair_equal_spec in Hs as [<- _]. }
  apply bind_Some in Hs as ([f1 st1] & Hs1 & Hs). rewrite (IH _ _ Hs). clear IH Hs. cbn [stage_slot] in Hs1.
  apply bind_Some in Hs1 as (ver & _ & Hs1). apply bind_Some in Hs1 as (ch & _ & Hs1).
  destruct (sc_empty ch); [by apply (inj Some), pair_equal_spec in Hs1 as [<- _]|].
  destruct (stored_dir (bitmaps f) s) as [dir r]. destruct (encode_changes _ _ _) as [[m blobs]|];
    [|by apply (inj Some), pair_equal_spec in Hs1 as [<- _]].
  apply bind_Some in Hs1 as ([b1 m1] & _ & Hs1). apply bind_Some in Hs1 as ([b2 [o l]] & _ & Hs1).
  by apply (inj Some), pair_equal_spec in Hs1 as [<- _].
Qed.

Lemma step_next_slot s op s' : field_step s op s' → next_slot s.1 ≤ next_slot s'.1.
Proof using.
  intros Hs. destruct Hs as [f st value rows|f st value row|f st value row|f st rows|f slots f' st Hp Hs|f st f' freed Hs]; cbn [fst].
  - apply insert_next_slot.
  - unfold set, remove_all_for_row. pose proof (remove_all_next_slot [row] f) as Hr.
    destruct (remove_all_for_rows [row] f) as [f1 l]. cbn [fst] in *. rewrite <-Hr. apply insert_next_slot.
  - unfold remove. destruct (om_get value (ordering f)) as [slot|]; [|lia]. destruct (decompose row) as [h l].
    pose proof (modify_next_slot slot h false (container_remove l) f) as Hm. destruct (modify_container _ _ _ _ _) as [f1 ch]. cbn [fst] in Hm.
    destruct (ch && slot_is_empty f1 slot); cbn; lia.
  - rewrite remove_all_next_slot. lia.
  - rewrite (stage_next_slot slots f f' st Hs). lia.
  - rewrite (commit_next_slot f st f' freed Hs). lia.
Qed.

Lemma run_next_slot s ops s' : field_run s ops s' → next_slot s.1 ≤ next_slot s'.1.
Proof using. induction 1 as [s|s1 op s2 ops s3 Hs Hr IH]; [lia|]. pose proof (step_next_slot _ _ _ Hs). lia. Qed.

(** The machine as a program: the stage takes the overlay's slots in the map's own order. *)
Definition exec_op (s : state) (op : field_op V) : option state :=
  let '(f, st) := s in
  match op with
  | FInsert value rows => Some (insert_many value rows f, st)
  | FSet value row => Some ((set value row f).1, st)
  | FRemove value row => Some (remove value row f, st)
  | FRemoveAll rows => Some ((remove_all_for_rows rows f).1, st)
  | FStage => match st with Some _ => None | None => '(f, st) ← stage (elements (dom (overlay f))) f; Some (f, Some st) end
  | FCommit => st ← st; '(f, _) ← commit st f; Some (f, None)
  end.
Fixpoint exec_run (s : state) (ops : list (field_op V)) : option state :=
  match ops with [] => Some s | op :: ops => s ← exec_op s op; exec_run s ops end.

Lemma exec_run_sound ops : ∀ s s', exec_run s ops = Some s' → field_run s ops s'.
Proof using.
  induction ops as [|op ops IH]; intros s s' He; cbn [exec_run] in He; [apply (inj Some) in He; subst; constructor|].
  apply bind_Some in He as (s1 & H1' & He). apply run_cons with s1; [|by apply IH]. destruct s as [f st].
  destruct op; cbn [exec_op] in H1'; try (apply (inj Some) in H1'; subst s1; constructor).
  - destruct st; [done|]. apply bind_Some in H1' as ([f1 st1] & Hs & H1'). apply (inj Some) in H1'. subst s1.
    by apply step_stage with (elements (dom (overlay f))).
  - destruct st as [st|]; [|done]. cbn [mbind option_bind] in H1'. apply bind_Some in H1' as ([f1 fr] & Hs & H1').
    apply (inj Some) in H1'. subst s1. by apply step_commit with fr.
Qed.

Lemma run_correct s ops s' : field_run s ops s' → ∀ R,
  represents s R → Forall (λ op, Forall u128 (op_rows op)) ops → next_slot s'.1 ≤ 2 ^ 128 →
  represents s' (foldl (λ R op, rows_step op R) R ops).
Proof using All.
  induction 1 as [s|s1 op s2 ops s3 Hs Hr IH]; intros R HR Hops Hu; [done|]. apply Forall_cons in Hops as [Hop Hops].
  pose proof (step_next_slot _ _ _ Hs). pose proof (run_next_slot _ _ _ Hr).
  apply IH; [|done|done]. apply (step_correct s1); [done|done|done|lia].
Qed.

(** C2: whatever writes, stages and commits a field index runs through, in whatever
    order the stage meets the overlay's slots and whatever is written between a stage
    and its commit, the index keeps its invariant and holds exactly the rows the writes
    leave, which is what a later equality query reads. *)
Theorem field_index_refines_rows s ops s' R :
  represents s R → Forall (λ op, Forall u128 (op_rows op)) ops → field_run s ops s' → next_slot s'.1 ≤ 2 ^ 128 →
  let R' := foldl (λ R op, rows_step op R) R ops in
  represents s' R' ∧
  ∀ v, ∃ bm, evaluate s'.1 (PEq v) = Some (bm, false) ∧ bitmap_wf bm ∧ ∀ row, u128 row → member bm row = R' v row.
Proof using All.
  intros HR Hops Hrun Hu R'. pose proof (run_correct s ops s' Hrun R HR Hops Hu) as HR'. fold R' in HR'. split; [done|].
  intros v. destruct HR' as [[Hf _] Hrows]. destruct (evaluate_spec s'.1 (PEq v) Hf) as (bm & He & Hw & _ & Hm).
  exists bm. split; [done|]. split; [done|]. intros row Hrow. rewrite <-Hrows by done. apply eq_true_iff_eq. rewrite Hm by done.
  cbn [satisfies]. split; [by intros (v' & -> & ?)|by exists v].
Qed.

(** C18: a predicate on a field index panics when it is a range from above its own end,
    and in that case only; otherwise it reads, without finding corruption, the rows
    whose value satisfies it. *)
Theorem evaluate_correct f p :
  field_wf f →
  (evaluate f p = None ↔ ∃ lo hi, p = PBetween lo hi ∧ cmp lo hi = Gt) ∧
  ∀ bm r, evaluate f p = Some (bm, r) →
    r = false ∧ bitmap_wf bm ∧
    ∀ row, u128 row → bitmap_contains bm row = true ↔ ∃ v, has_row f v row = true ∧ satisfies p v.
Proof using All.
  intros Hf. pose proof (evaluate_spec f p Hf) as He. destruct (evaluate_panics p) eqn:Ep.
  - split; [|intros bm r Hs; by rewrite He in Hs]. split; [|done]. intros _. destruct p; try done.
    apply bool_decide_eq_true in Ep. by eexists _, _.
  - destruct He as (bm & He & Hw & _ & Hm). split.
    + rewrite He. split; [done|]. intros (lo & hi & -> & Hgt). cbn in Ep. by rewrite bool_decide_true in Ep.
    + intros bm' r Hs. rewrite He in Hs. apply (inj Some), pair_equal_spec in Hs as [<- <-]. split; [done|]. split; [done|].
      intros row Hrow. rewrite contains_member, Hm by done. naive_solver.
Qed.
End machine.

(** An index over an empty store. *)
Lemma empty_index_wf {V} `{OrderedLaws V} `{!EqDecision V} `{Cpu} `{HeapCost} `{CrcLaws} `{RkyvLaws} `{HeapBytes} (b : BlobStore) :
  blob_wf b → blob_map b = ∅ → represents (from_parts (V := V) [] b 0, None) (λ _ _, false).
Proof.
  intros Hw Hm. set (f := from_parts (V := V) [] b 0).
  assert (core_wf f) as Hc.
  { split; [done| |intros s ch Hs; cbn in Hs; by rewrite lookup_empty in Hs| |intros s v Hs; cbn in Hs; by rewrite lookup_empty in Hs].
    - intros slot blob. cbn. unfold blob_values. by rewrite Hm, fmap_empty, lookup_empty.
    - intros slot. cbn. by rewrite !lookup_empty. }
  assert (∀ s h l, ¬ holds f s h l) as Hn.
  { intros s h l [_ Hh]. unfold content, overlay_at in Hh. cbn [overlay f from_parts bitmaps] in Hh. rewrite lookup_empty in Hh.
    cbn [mbind option_bind] in Hh. unfold stored_at, load_stored, stored_entry in Hh.
    rewrite get_ref_spec, Hm, lookup_empty in Hh by done. done. }
  assert (index_wf f) as Hi.
  { split; [done|constructor|constructor|done|done|done|cbn; lia| |done]. intros s h l Hh. by destruct (Hn s h l). }
  split; [split; [by split|done]|done].
Qed.

Lemma field_new_wf {V} `{OrderedLaws V} `{!EqDecision V} `{Cpu} `{HeapCost} `{CrcLaws} `{RkyvLaws} `{HeapBytes} :
  represents (field_new (V := V), None) (λ _ _, false).
Proof. destruct (new_store_wf (new_anon_with Directory) Directory) as [Hw Hm]; [by left|]. by apply empty_index_wf. Qed.

(** ** A concrete instance of the codecs *)

(** Arrays of bytes, serialized as they are; the other containers do not encode. *)
Definition byte_rkyv : Rkyv := {|
  rkyv_to_bytes c := match c with CArray a => if decide (Forall byte (values a)) then Some (values a) else None | _ => None end;
  rkyv_access b := Some (CArray (mk_array b));
|}.
Lemma byte_rkyv_laws : @RkyvLaws byte_rkyv.
Proof.
  split; intros [a|b|r] bs; cbn; try done; case_decide; try done; intros [= <-]; [by destruct a|done].
Defined.
Definition sample_heap_bytes : HeapBytes := {|
  heap_bytes c := Z.max 0 (2 * container_cardinality c); overlay_entry_size := 56 |}.

#[local] Existing Instance scalar_cpu.
#[local] Existing Instance flat_cost.
#[local] Existing Instance sum_crc.
#[local] Existing Instance sum_crc_laws.
#[local] Existing Instance byte_rkyv.
#[local] Existing Instance byte_rkyv_laws.
#[local] Existing Instance sample_heap_bytes.

Definition sample_ops : list (field_op Z) :=
  [FInsert 7 [1; 65540]; FInsert 9 [5; 1]; FStage; FSet 7 5; FCommit; FRemove 7 1; FStage; FCommit; FRemoveAll [65540]].

Lemma field_index_refines_rows_witness :
  ∃ s', field_run (field_new, None) sample_ops s' ∧
    represents s' (foldl (λ R op, rows_step op R) (λ _ _, false) sample_ops).
Proof.
  assert (match exec_run (field_new, None) sample_ops with Some s' => next_slot s'.1 <=? 2 ^ 128 | None => false end = true) as He
    by (vm_compute; reflexivity).
  destruct (exec_run (field_new, None) sample_ops) as [s'|] eqn:E; [|discriminate He]. apply exec_run_sound in E.
  exists s'. split; [exact E|]. refine (proj1 (field_index_refines_rows (field_new, None) sample_ops s' _ field_new_wf _ E _)).
  - apply (bool_decide_unpack _). vm_compute. exact I.
  - apply Z.leb_le. exact He.
Defined.

Definition sample_index : FieldIndex Z := insert_many 9 [5; 1] (insert_many 7 [1; 65540] field_new).
Lemma sample_index_wf : field_wf sample_index.
Proof.
  unfold sample_index. apply insert_many_spec; [apply insert_many_spec; [apply field_new_wf|]|];
    apply (bool_decide_unpack _); vm_compute; exact I.
Qed.

Lemma evaluate_correct_witness :
  (evaluate sample_index (PBetween 8 3) = None ↔ ∃ lo hi, PBetween 8 3 = PBetween lo hi ∧ cmp lo hi = Gt) ∧
  ∀ bm r, evaluate sample_index (PBetween 8 3) = Some (bm, r) →
    r = false ∧ bitmap_wf bm ∧
    ∀ row, u128 row → bitmap_contains bm row = true ↔ ∃ v, has_row sample_index v row = true ∧ satisfies (PBetween 8 3) v.
Proof. apply (evaluate_correct sample_index (PBetween 8 3)), sample_index_wf. Defined.
