(* ===== verification/FieldAccounting.v ===== *)
(** * FieldAccounting: the bytes a field index charges for its overlay

    [overlay_bytes] and the per-slot [bytes] of
    [src/minnal_db/src/index/field/field_index.rs]: counters the writes, the commits
    and the drops adjust by differences.  [accounted] says they are what a recount of
    the overlay gives, which is what makes a release on commit or drop the exact
    opposite of the charges before it. *)
From S2P Require Import Prelude Slices Words Bytes OrdMap HashTable ArrayMerge ArrayContainer Container ContainerStore Bitmap BitmapReads.
From S2P Require Import DirStorage BlobStore BlobStoreSpec OverlayBudget FieldIndex FieldChange FieldUpdates FieldSpill FieldCommit.
From S2P Require Import FieldReads FieldIndexSpec.

(** ** Sums over a map *)

Definition map_sum {A} (g : A → Z) (m : gmap Z A) : Z := map_fold (λ _ a acc, g a + acc) 0 m.

Lemma map_sum_empty {A} (g : A → Z) : map_sum g ∅ = 0.
Proof. apply map_fold_empty. Qed.
Lemma map_sum_new {A} (g : A → Z) m k a : m !! k = None → map_sum g (<[k := a]> m) = g a + map_sum g m.
Proof. intros Hk. unfold map_sum. rewrite map_fold_insert_L; [done| |done]. intros. lia. Qed.
Lemma map_sum_delete {A} (g : A → Z) m k : map_sum g (delete k m) = map_sum g m - from_option g 0 (m !! k).
Proof.
  destruct (m !! k) as [a|] eqn:E; cbn; [|rewrite delete_id by done; lia].
  rewrite <-(insert_delete_id m k a) at 2 by done. rewrite map_sum_new by apply lookup_delete_eq. lia.
Qed.
Lemma map_sum_insert {A} (g : A → Z) m k a : map_sum g (<[k := a]> m) = map_sum g m + g a - from_option g 0 (m !! k).
Proof. rewrite <-insert_delete_eq, map_sum_new by apply lookup_delete_eq. rewrite map_sum_delete. lia. Qed.
Lemma map_sum_nonneg {A} (g : A → Z) m : (∀ k a, m !! k = Some a → 0 ≤ g a) → 0 ≤ map_sum g m.
Proof.
  induction m as [|k a m Hk IH] using map_ind; intros Hg; [by rewrite map_sum_empty|]. rewrite map_sum_new by done.
  specialize (Hg k a (lookup_insert_eq _ _ _)) as Ha. assert (0 ≤ map_sum g m); [|lia]. apply IH. intros k' a' Hk'.
  apply (Hg k'). rewrite lookup_insert_ne; [done|congruence].
Qed.

Lemma map_sum_ext {A} (g h : A → Z) m : (∀ k a, m !! k = Some a → g a = h a) → map_sum g m = map_sum h m.
Proof.
  induction m as [|k a m Hk IH] using map_ind; intros Hg; [by rewrite !map_sum_empty|]. rewrite !map_sum_new by done.
  rewrite (Hg k a (lookup_insert_eq _ _ _)), IH; [done|]. intros k' a' Hk'. apply (Hg k'). rewrite lookup_insert_ne; [done|congruence].
Qed.

Section accounting.
Context {V : Type} `{OrderedLaws V} `{!EqDecision V} `{Cpu} `{HeapCost} `{CrcLaws} `{RkyvLaws} `{HeapBytesLaws}.
Implicit Type f : FieldIndex V.

Definition container_cost (c : option Container) : Z := OVERLAY_CONTAINER_OVERHEAD + from_option heap_bytes 0 c.
Definition changes_cost (ch : SlotChanges) : Z := OVERLAY_SLOT_OVERHEAD + om_sum container_cost (sc_containers ch).

Lemma container_cost_nonneg c : 0 ≤ container_cost c.
Proof using All.
  unfold container_cost, OVERLAY_CONTAINER_OVERHEAD. pose proof overlay_entry_nonneg.
  destruct c as [c|]; cbn; [pose proof (heap_bytes_nonneg c)|]; lia.
Qed.
Lemma changes_cost_nonneg ch : 0 ≤ changes_cost ch.
Proof using All. unfold changes_cost, OVERLAY_SLOT_OVERHEAD. pose proof (om_sum_nonneg container_cost (sc_containers ch) container_cost_nonneg). lia. Qed.

(** A slot's counter is short of the recount by [d]. *)
Definition short (d : Z) (ch : SlotChanges) : Prop := om_wf (sc_containers ch) ∧ sc_bytes ch + d = changes_cost ch.

Record accounted f : Prop := {
  ac_slots s ch : overlay f !! s = Some ch → short 0 ch;
  ac_total : overlay_bytes f = map_sum sc_bytes (overlay f);
}.
(** The same, one slot being short by [d]. *)
Record short_at f (slot d : Z) : Prop := {
  sa_others s ch : s ≠ slot → overlay f !! s = Some ch → short 0 ch;
  sa_slot : ∃ ch, overlay f !! slot = Some ch ∧ short d ch;
  sa_total : overlay_bytes f = map_sum sc_bytes (overlay f);
}.

Lemma short_nonneg ch : short 0 ch → 0 ≤ sc_bytes ch.
Proof using All. intros [_ Hs]. pose proof (changes_cost_nonneg ch). lia. Qed.

Lemma accounted_total f : accounted f → 0 ≤ overlay_bytes f.
Proof using All. intros [Hs ->]. apply map_sum_nonneg. intros k ch Hk. by apply short_nonneg, (Hs k). Qed.

Lemma accounted_short f slot : accounted f → is_Some (overlay f !! slot) → short_at f slot 0.
Proof using. intros [Hs Ht] [ch Hch]. split; [by intros s ch' _; apply Hs| |done]. exists ch. split; [done|]. by apply (Hs slot). Qed.
Lemma short_accounted f slot : short_at f slot 0 → accounted f.
Proof using.
  intros [Ho (ch & Hch & Hs) Ht]. split; [|done]. intros s ch'. destruct (decide (s = slot)) as [->|Hne]; [congruence|by apply Ho].
Qed.

Lemma short_alter f slot d d' g :
  (∀ ch, overlay f !! slot = Some ch → short d ch → short d' (g ch) ∧ sc_bytes (g ch) = sc_bytes ch) →
  short_at f slot d → short_at (alter_changes slot g f) slot d'.
Proof using.
  intros Hg [Ho (ch & Hch & Hs) Ht]. destruct (Hg ch Hch Hs) as [Hs' Hb]. unfold alter_changes.
  assert (alter g slot (overlay f) = <[slot := g ch]> (overlay f)) as E by (by apply alter_lookup_Some).
  split; cbn [overlay set_overlay overlay_bytes]; rewrite E.
  - intros s ch' Hne Hs2. rewrite lookup_insert_ne in Hs2 by done. by apply (Ho s).
  - exists (g ch). by rewrite lookup_insert_eq.
  - rewrite map_sum_insert, Hch, Ht, Hb. cbn. lia.
Qed.

Lemma short_same f f' slot d : overlay f' = overlay f → overlay_bytes f' = overlay_bytes f → short_at f slot d → short_at f' slot d.
Proof using. intros E1 E2 []. split; rewrite ?E1, ?E2; done. Qed.
Lemma accounted_same f f' : overlay f' = overlay f → overlay_bytes f' = overlay_bytes f → accounted f → accounted f'.
Proof using. intros E1 E2 []. split; rewrite ?E1, ?E2; done. Qed.

(** Charging what a slot is short of. *)
Lemma charge_short f slot d : short_at f slot d → short_at (charge_slot slot d f) slot 0.
Proof using All.
  intros [Ho (ch & Hch & [Hw Hs]) Ht]. unfold charge_slot, alter_changes.
  assert (alter (add_bytes d) slot (overlay f) = <[slot := add_bytes d ch]> (overlay f)) as E by (by apply alter_lookup_Some).
  pose proof (changes_cost_nonneg ch) as Hn.
  assert (sc_bytes (add_bytes d ch) = sc_bytes ch + d) as Hb by (cbn; lia).
  assert (map_sum sc_bytes (<[slot := add_bytes d ch]> (overlay f)) = map_sum sc_bytes (overlay f) + d) as Hsum
    by (rewrite map_sum_insert, Hch, Hb; cbn; lia).
  split; cbn [overlay charge_bytes set_overlay overlay_bytes]; rewrite E.
  - intros s ch' Hne Hs2. rewrite lookup_insert_ne in Hs2 by done. by apply (Ho s).
  - exists (add_bytes d ch). rewrite lookup_insert_eq. split; [done|]. split; [done|]. rewrite Hb.
    change (changes_cost (add_bytes d ch)) with (changes_cost ch). lia.
  - rewrite Hsum, Ht. apply Z.max_r. rewrite <-Hsum. apply map_sum_nonneg. intros k ch' Hk. apply lookup_insert_Some in Hk as [[_ <-]|[Hne Hk]].
    + rewrite Hb. lia.
    + apply short_nonneg. by apply (Ho k).
Qed.

Lemma overlay_at_alter f slot ch g key :
  overlay f !! slot = Some ch → overlay_at (alter_changes slot g f) slot key = om_get key (sc_containers (g ch)).
Proof using. intros Hch. unfold overlay_at, alter_changes. cbn [overlay set_overlay]. by rewrite (alter_lookup_Some _ _ _ ch), lookup_insert_eq. Qed.
Lemma overlay_at_charge f slot d key : overlay_at (charge_slot slot d f) slot key = overlay_at f slot key.
Proof using.
  unfold overlay_at, charge_slot, alter_changes. cbn [overlay charge_bytes set_overlay]. rewrite lookup_alter_eq.
  by destruct (overlay f !! slot).
Qed.

(** ** Writing *)

Lemma touch_accounted slot f : accounted f → accounted (touch slot f) ∧ is_Some (overlay (touch slot f) !! slot).
Proof using All.
  intros Hf. unfold touch. destruct (overlay f !! slot) as [ch|] eqn:E.
  { split; [by apply (accounted_same f)|]. cbn. by rewrite E. }
  set (f1 := set_overlay (<[slot := no_changes]> (overlay f)) f).
  assert (short_at f1 slot OVERLAY_SLOT_OVERHEAD) as Hs.
  { destruct Hf as [Hs Ht]. split; cbn [f1 overlay set_overlay overlay_bytes].
    - intros s ch' Hne Hs2. rewrite lookup_insert_ne in Hs2 by done. by apply (Hs s).
    - exists no_changes. rewrite lookup_insert_eq. split; [done|]. split; [constructor|]. done.
    - rewrite map_sum_insert, E, Ht. cbn. lia. }
  apply charge_short in Hs. split; [|destruct Hs as [_ (ch & Hch & _) _]; cbn in *; by rewrite Hch].
  apply (accounted_same (charge_slot slot OVERLAY_SLOT_OVERHEAD f1)); [done|done|]. by apply (short_accounted _ slot).
Qed.

(** Replacing the container under a key. *)
Lemma put_container_short f slot key c d :
  short_at f slot d →
  short_at (alter_changes slot (put_container key c) f) slot (d + container_cost c - from_option container_cost 0 (overlay_at f slot key)).
Proof using All.
  intros Hs. eapply short_alter; [|exact Hs]. intros ch Hch [Hw Hb]. split; [|done]. split; [by apply om_insert_wf|].
  unfold changes_cost in *. cbn [put_container sc_containers sc_bytes]. rewrite om_sum_insert by done. unfold overlay_at. rewrite Hch.
  cbn [mbind option_bind]. lia.
Qed.

Lemma load_overlay_accounted slot key f :
  accounted f → is_Some (overlay f !! slot) →
  accounted (load_overlay slot key f) ∧ is_Some (overlay_at (load_overlay slot key f) slot key).
Proof using All.
  intros Hf Hs. unfold load_overlay. destruct (overlay_at f slot key) as [c|] eqn:E; [by rewrite E|].
  destruct (load_stored (bitmaps f) slot key) as [c r].
  pose proof (put_container_short (raise r f) slot key c 0 (short_same f (raise r f) slot 0 eq_refl eq_refl (accounted_short f slot Hf Hs))) as Hp.
  change (overlay_at (raise r f) slot key) with (overlay_at f slot key) in Hp. rewrite E in Hp. cbn [from_option] in Hp.
  replace (0 + container_cost c - 0) with (OVERLAY_CONTAINER_OVERHEAD + from_option heap_bytes 0 c) in Hp by (unfold container_cost; lia).
  split; [by eapply short_accounted, charge_short|]. destruct Hs as [ch Hch].
  rewrite overlay_at_charge, (overlay_at_alter _ _ ch) by done. cbn [put_container sc_containers].
  rewrite om_get_insert, decide_True by done. by eexists.
Qed.

Lemma recompute_short f slot d : short_at f slot d → short_at (recompute_empty slot f) slot d.
Proof using All.
  intros Hs. unfold recompute_empty. destruct (overlay f !! slot); [|done]. destruct (existsb _ _).
  - by eapply short_alter; [|exact Hs].
  - destruct (count_stored _ _ _) as [n r]. eapply short_alter; [|by apply (short_same f)]. done.
Qed.

Lemma modify_accounted slot key create fn f : accounted f → accounted (modify_container slot key create fn f).1.
Proof using All.
  intros Hf. unfold modify_container. destruct (if create then (true, false) else slot_has_container f slot key) as [[|] r]; cbn [negb];
    [|by apply (accounted_same f)].
  destruct (touch_accounted slot (raise r f)) as [Hf1 Hs1]; [by apply (accounted_same f)|].
  set (f1 := touch slot (raise r f)) in *. clearbody f1.
  set (f2 := alter_changes slot (put_version key (default 0 (overlay_ver f1 !! slot))) f1).
  assert (short_at f2 slot 0) as Hf2.
  { unfold f2. eapply short_alter; [|by apply accounted_short]. intros ch _ [Hw Hb]. done. }
  destruct (load_overlay_accounted slot key f2) as [Hf3 Hc3]; [by apply (short_accounted _ slot)| |].
  { destruct Hf2 as [_ (ch & Hch & _) _]. by eexists. }
  set (f3 := load_overlay slot key f2) in *. clearbody f3. clear Hf2 f2 Hf1 Hs1 f1.
  assert (is_Some (overlay f3 !! slot)) as Hs3.
  { destruct Hc3 as [c Hc]. unfold overlay_at in Hc. apply bind_Some in Hc as (ch & Hch & _). by eexists. }
  destruct Hc3 as [o Ho]. rewrite Ho. cbn [default from_option]. pose proof (accounted_short f3 slot Hf3 Hs3) as Hsh.
  assert (∀ c changed, accounted (charge_slot slot ((if container_is_empty c then 0 else heap_bytes c) - heap_bytes (default new_array o))
    (if container_is_empty c then recompute_empty slot (alter_changes slot (put_container key (if container_is_empty c then None else Some c)) f3)
     else alter_changes slot (put_empty false) (alter_changes slot (put_container key (if container_is_empty c then None else Some c)) f3)),
    changed : bool).1) as Hput.
  { intros c changed. cbn [fst]. apply (short_accounted _ slot), charge_short.
    pose proof (put_container_short f3 slot key (if container_is_empty c then None else Some c) 0 Hsh) as Hp.
    rewrite Ho in Hp. cbn [from_option] in Hp.
    match type of Hp with short_at _ _ ?d => replace d with ((if container_is_empty c then 0 else heap_bytes c) - heap_bytes (default new_array o)) in Hp end.
    2:{ unfold container_cost. pose proof heap_bytes_new. destruct (container_is_empty c), o; cbn; lia. }
    destruct (container_is_empty c); [by apply recompute_short|]. by eapply short_alter; [|exact Hp]. }
  destruct o as [c|], create; try exact Hf3; cbn [default from_option id] in *; destruct (fn _) as [c' ch]; apply Hput.
Qed.

Lemma insert_many_accounted value rows f : accounted f → accounted (insert_many value rows f).
Proof using All.
  intros Hf. unfold insert_many. destruct rows as [|row rows]; [done|].
  assert (accounted (slot_for_insert value f).2) as Hs.
  { unfold slot_for_insert. destruct (om_get value (ordering f)); [done|]. by destruct (om_get value (emptied f)); apply (accounted_same f). }
  destruct (slot_for_insert value f) as [slot f1]. cbn [snd] in Hs. clear Hf.
  generalize dependent f1. induction (group_rows (row :: rows)) as [|g gs IH]; intros f1 Hs; [done|]. cbn [foldl]. by apply IH, modify_accounted.
Qed.

Lemma remove_accounted value row f : accounted f → accounted (remove value row f).
Proof using All.
  intros Hf. unfold remove. destruct (om_get value (ordering f)) as [slot|]; [|done]. destruct (decompose row) as [h l].
  pose proof (modify_accounted slot h false (container_remove l) f Hf) as Hm. destruct (modify_container _ _ _ _ _) as [f1 ch]. cbn [fst] in Hm.
  destruct (ch && slot_is_empty f1 slot); [by apply (accounted_same f1)|done].
Qed.

Lemma remove_all_accounted rows f : accounted f → accounted (remove_all_for_rows rows f).1.
Proof using All.
  intros Hf.
  assert (∀ slot gs (p : FieldIndex V * bool), accounted p.1 → accounted (foldl (remove_group slot) p gs).1) as Hg.
  { intros slot. induction gs as [|g gs IH]; intros [f0 b] Hf0; [done|]. cbn [foldl]. apply IH. unfold remove_group.
    pose proof (modify_accounted slot g.1 false (remove_lows g.2) f0 Hf0) as Hm. cbn [fst]. by destruct (modify_container _ _ _ _ _). }
  destruct rows as [|row rows]; [done|]. unfold remove_all_for_rows. generalize (group_rows (row :: rows)) as gs. intros gs.
  assert (∀ es (p : FieldIndex V * list Z), accounted p.1 → accounted (foldl (clear_slot gs) p es).1) as Hc; [|by apply Hc].
  induction es as [|[v s] es IH]; intros [f0 l] Hf0; [done|]. cbn [foldl fst] in *. apply IH. unfold clear_slot.
  destruct (slot_contains_any f0 s gs) as [hit r]. destruct hit; cbn [negb]; [|by apply (accounted_same f0)].
  specialize (Hg s gs (raise r f0, false)). destruct (foldl (remove_group s) _ gs) as [f1 ch].
  assert (accounted f1) as H1' by (apply Hg, (accounted_same f0); done).
  by destruct (ch && slot_is_empty f1 s); [apply (accounted_same f1)|].
Qed.

(** ** Spilling *)

Lemma stage_overlay slots f f' st :
  stage slots f = Some (f', st) → overlay f' = overlay f ∧ overlay_bytes f' = overlay_bytes f.
Proof using.
  unfold stage. generalize (mk_spill [] []) as st0. revert f. induction slots as [|s slots IH]; intros f st0 Hs; cbn [stage_slots] in Hs.
  { by apply (inj Some), pair_equal_spec in Hs as [<- _]. }
  apply bind_Some in Hs as ([f1 st1] & Hs1 & Hs). destruct (IH _ _ Hs) as [-> ->]. clear IH Hs. cbn [stage_slot] in Hs1.
  apply bind_Some in Hs1 as (ver & _ & Hs1). apply bind_Some in Hs1 as (ch & _ & Hs1).
  destruct (sc_empty ch); [by apply (inj Some), pair_equal_spec in Hs1 as [<- _]|].
  destruct (stored_dir (bitmaps f) s) as [dir r]. destruct (encode_changes _ _ _) as [[m blobs]|];
    [|by apply (inj Some), pair_equal_spec in Hs1 as [<- _]].
  apply bind_Some in Hs1 as ([b1 m1] & _ & Hs1). apply bind_Some in Hs1 as ([b2 [o l]] & _ & Hs1).
  by apply (inj Some), pair_equal_spec in Hs1 as [<- _].
Qed.

Lemma drop_unchanged_accounted slot ver f : accounted f → accounted (drop_overlay_entry_if_unchanged slot ver f).1.
Proof using All.
  intros Hf. unfold drop_overlay_entry_if_unchanged. destruct (negb _); [done|]. cbn [overlay set_versions fst].
  destruct (overlay f !! slot) as [ch|] eqn:E; [|by apply (accounted_same f)]. destruct Hf as [Hs Ht].
  assert (map_sum sc_bytes (delete slot (overlay f)) = map_sum sc_bytes (overlay f) - sc_bytes ch) as Hd by (by rewrite map_sum_delete, E).
  split; cbn [overlay charge_bytes set_overlay overlay_bytes set_versions].
  - intros s ch'. destruct (decide (s = slot)) as [->|Hne]; [by rewrite lookup_delete_eq|]. rewrite lookup_delete_ne by done. apply Hs.
  - rewrite Ht. replace (map_sum sc_bytes (overlay f) + - sc_bytes ch) with (map_sum sc_bytes (delete slot (overlay f))) by lia.
    apply Z.max_r, map_sum_nonneg.
    intros k ch' Hk. apply lookup_delete_Some in Hk as [_ Hk]. by apply short_nonneg, (Hs k).
Qed.

Lemma drop_containers_cost staged : ∀ ch freed, om_wf (sc_containers ch) →
  let '(ch', freed') := foldl drop_container (ch, freed) staged in
  om_wf (sc_containers ch') ∧ sc_bytes ch' = sc_bytes ch ∧ changes_cost ch' + freed' = changes_cost ch + freed.
Proof using.
  induction staged as [|[key ver] staged IH]; intros ch freed Hw; [done|]. cbn [foldl].
  unfold drop_container at 2. case_bool_decide; [|by apply IH].
  pose proof (om_sum_remove container_cost key (sc_containers ch) Hw) as Hr.
  destruct (om_get key (sc_containers ch)) as [c|];
    (match goal with |- context [foldl drop_container (?c1, ?fr) staged] => specialize (IH c1 fr (om_remove_wf key _ Hw)) end);
    destruct (foldl _ _ _) as [ch' freed']; destruct IH as (I1 & I2 & I3); (split; [done|]); (split; [done|]);
    rewrite I3; unfold changes_cost; cbn [sc_containers]; rewrite Hr; cbn [from_option]; unfold container_cost; lia.
Qed.

Lemma drop_staged_accounted slot staged f : accounted f → accounted (drop_staged_containers slot staged f).
Proof using All.
  intros Hf. unfold drop_staged_containers. destruct (overlay f !! slot) as [ch|] eqn:E; [|done].
  destruct (accounted_short f slot Hf) as [_ (ch' & Hch' & [Hw Hb]) _]; [by eexists|]. rewrite E in Hch'. injection Hch' as <-.
  pose proof (drop_containers_cost staged ch 0 Hw) as Hd. destruct (foldl drop_container (ch, 0) staged) as [ch1 freed].
  destruct Hd as (Hw1 & Hb1 & Hc1). pose proof (changes_cost_nonneg ch1) as Hn. destruct Hf as [Hs Ht].
  set (ch2 := mk_changes (sc_containers ch1) (sc_ver ch1) (sc_empty ch1) (Z.max 0 (sc_bytes ch1 - freed))).
  assert (short 0 ch2) as Hs2.
  { split; [done|]. change (changes_cost ch2) with (changes_cost ch1). cbn [ch2 sc_bytes]. lia. }
  assert (sc_bytes ch2 = sc_bytes ch - freed) as Hb2 by (cbn [ch2 sc_bytes]; lia).
  assert (∀ k c, <[slot := ch2]> (overlay f) !! k = Some c → short 0 c) as Hall.
  { intros k c Hk. apply lookup_insert_Some in Hk as [[_ <-]|[_ Hk]]; [done|by apply (Hs k)]. }
  assert (map_sum sc_bytes (<[slot := ch2]> (overlay f)) = map_sum sc_bytes (overlay f) + - freed) as Hsum
    by (rewrite map_sum_insert, E, Hb2; cbn [from_option]; lia).
  split; cbn [overlay charge_bytes set_overlay overlay_bytes]; [done|]. rewrite Ht, <-Hsum. apply Z.max_r.
  apply map_sum_nonneg. intros k c Hk. by apply short_nonneg, (Hall k).
Qed.

Lemma commit_accounted f st f' freed : accounted f → commit st f = Some (f', freed) → accounted f'.
Proof using All.
  assert (∀ sets f1 f2, accounted f1 → commit_sets f1 sets = Some f2 → accounted f2) as Hsets.
  { induction sets as [|s sets IH]; intros f1 f2 Hf1 Hs; cbn [commit_sets] in Hs; [by apply (inj Some) in Hs; subst|].
    apply bind_Some in Hs as (f3 & Hs & Hs2). apply (IH f3); [|done]. unfold commit_set in Hs.
    apply bind_Some in Hs as ([b new] & _ & Hs).
    pose proof (drop_unchanged_accounted (sd_slot s) (sd_ver s) (set_bitmaps b f1)) as Hd.
    destruct (drop_overlay_entry_if_unchanged _ _ _) as [f4 d]. apply (inj Some) in Hs. subst f3. cbn [fst] in Hd.
    assert (accounted f4) as H4' by (apply Hd; by apply (accounted_same f1)). destruct d; [done|by apply drop_staged_accounted]. }
  assert (∀ rms (p : FieldIndex V * list Z), accounted p.1 → accounted (foldl commit_removal p rms).1) as Hrms.
  { induction rms as [|[slot ver] rms IH]; intros [f1 fr] Hf1; [done|]. cbn [foldl fst] in *. apply IH. unfold commit_removal.
    pose proof (drop_unchanged_accounted slot ver f1 Hf1) as Hd. destruct (drop_overlay_entry_if_unchanged slot ver f1) as [f2 d].
    cbn [fst] in Hd. destruct d; cbn [negb]; [|done].
    by destruct (list_find _ _) as [[? [? ?]]|]; apply (accounted_same f2). }
  intros Hf Hc. unfold commit in Hc. apply bind_Some in Hc as (f1 & H1' & Hc). apply (inj Some) in Hc.
  pose proof (Hrms (st_removals st) (f1, []) (Hsets _ _ _ Hf H1')) as Hx. by rewrite Hc in Hx.
Qed.

Lemma step_accounted s op s' : field_step s op s' → accounted s.1 → accounted s'.1.
Proof using All.
  intros Hs Hf. destruct Hs as [f st value rows|f st value row|f st value row|f st rows|f slots f' st Hp Hs|f st f' freed Hs]; cbn [fst] in *.
  - by apply insert_many_accounted.
  - unfold set, remove_all_for_row. pose proof (remove_all_accounted [row] f Hf) as Hr.
    destruct (remove_all_for_rows [row] f) as [f1 l]. by apply insert_many_accounted.
  - by apply remove_accounted.
  - by apply remove_all_accounted.
  - destruct (stage_overlay slots f f' st Hs). by apply (accounted_same f).
  - by apply (commit_accounted f st f' freed).
Qed.

(** C19: through any run of writes, stages and commits, the overlay's byte counters stay
    what a recount of the overlay gives: no charge is lost to the saturation at zero, a
    commit releases exactly what it drops, and an index whose overlay is empty is
    charged nothing. *)
Theorem overlay_accounting_exact s ops s' :
  accounted s.1 → field_run s ops s' →
  accounted s'.1 ∧ 0 ≤ overlay_bytes s'.1 ∧ overlay_bytes s'.1 = map_sum changes_cost (overlay s'.1) ∧
  (overlay s'.1 = ∅ → overlay_bytes s'.1 = 0).
Proof using All.
  intros Hf Hrun. assert (accounted s'.1) as Hf'.
  { revert Hf. induction Hrun as [s|s1 op s2 ops s3 Hs Hr IH]; intros Hf; [done|]. apply IH. by apply (step_accounted _ _ _ Hs). }
  split; [done|]. split; [by apply accounted_total|]. split; [|intros He; rewrite (ac_total _ Hf'), He; apply map_sum_empty].
  rewrite (ac_total _ Hf'). apply map_sum_ext. intros k ch Hk. destruct (ac_slots _ Hf' k ch Hk) as [_ Hb]. lia.
Qed.
End accounting.

#[local] Existing Instance scalar_cpu.
#[local] Existing Instance flat_cost.
#[local] Existing Instance sum_crc.
#[local] Existing Instance sum_crc_laws.
#[local] Existing Instance byte_rkyv.
#[local] Existing Instance byte_rkyv_laws.
#[local] Existing Instance sample_heap_bytes.
Lemma sample_heap_bytes_laws : @HeapBytesLaws sample_heap_bytes.
Proof.
  split; [|done..]. intros c. apply Z.le_max_l.
Defined.
#[local] Existing Instance sample_heap_bytes_laws.

Lemma overlay_accounting_exact_witness :
  ∃ s', field_run (field_new, None) sample_ops s' ∧ overlay_bytes s'.1 = map_sum changes_cost (overlay s'.1).
Proof.
  assert (bool_decide (is_Some (exec_run (field_new, None) sample_ops)) = true) as He by (vm_compute; reflexivity).
  destruct (exec_run (field_new, None) sample_ops) as [s'|] eqn:E; [|discriminate He]. apply exec_run_sound in E.
  exists s'. split; [exact E|]. refine (proj1 (proj2 (proj2 (overlay_accounting_exact (field_new, None) sample_ops s' _ E)))).
  split; [|reflexivity]. intros s ch Hs. cbn in Hs. by rewrite lookup_empty in Hs.
Defined.
