(* ===== verification/FieldRoom.v ===== *)
(** * FieldRoom: a spill with room to write completes

    The two-phase spill of [src/minnal_db/src/index/field/field_index.rs] can stop half
    way: a container may not encode, a blob may be too long for its directory entry, and
    the value file or the key table may be out of space.  [spill_room] is what those
    cases leave; with it a stage and its commit both return, empty the overlay, and
    release every byte charged for it. *)
From S2P Require Import Prelude Slices Words Bytes OrdMap HashTable ArrayMerge ArrayContainer Container ContainerStore Bitmap BitmapReads.
From S2P Require Import DirStorage BlobStore BlobStoreSpec OverlayBudget FieldIndex FieldChange FieldUpdates FieldSpill FieldCommit.
From S2P Require Import FieldReads FieldIndexSpec FieldAccounting.

Section room.
Context {V : Type} `{OrderedLaws V} `{!EqDecision V} `{Cpu} `{HeapCost} `{CrcLaws} `{RkyvLaws} `{HeapBytesLaws}.
Implicit Type f : FieldIndex V.

(** ** What a stage writes *)

Definition staged_entries (b : BlobStore) (slot : Z) : ordmap Z DirEntry :=
  foldl (λ m e, om_insert (d_key e) e m) [] (stored_dir b slot).1.

(** The directory and the container blobs a slot's changes encode to. *)
Definition slot_writes f (slot : Z) (ch : SlotChanges) : option (ordmap Z DirEntry * list (Z * region)) :=
  encode_changes (sc_containers ch) (staged_entries (bitmaps f) slot) [].

Definition blobs_size (blobs : list (Z * region)) : Z := foldr (λ p acc, 16 + zlen p.2 + acc) 0 blobs.
Definition dir_size (w : ordmap Z DirEntry * list (Z * region)) : Z :=
  DIR_HEADER + (zlen w.1 + zlen w.2) * DIR_ENTRY + DIR_CRC.
(** An upper bound of the bytes a slot's stage appends, padding included. *)
Definition slot_need f (slot : Z) : Z :=
  match overlay f !! slot with
  | Some ch =>
      if sc_empty ch then 0
      else match slot_writes f slot ch with Some w => blobs_size w.2 + 16 + dir_size w | None => 0 end
  | None => 0
  end.
Definition slots_need f (slots : list Z) : Z := foldr (λ s acc, slot_need f s + acc) 0 slots.

(** Every changed container encodes, to a blob whose length a directory entry holds. *)
Definition slot_fits f (slot : Z) : Prop :=
  ∀ ch, overlay f !! slot = Some ch → sc_empty ch = false →
    ∃ w, slot_writes f slot ch = Some w ∧ dir_size w ≤ U32_MAX ∧ Forall (λ p, zlen p.2 ≤ U32_MAX) w.2.

Definition slots_used (b : BlobStore) : Z := count (header b) + tombstone_count (header b).

Record spill_room f (slots : list Z) : Prop := {
  sr_fits : Forall (slot_fits f) slots;
  sr_values : write_pos (bitmaps f) + slots_need f slots ≤ 2 ^ 62;
  sr_keys : slots_used (bitmaps f) + zlen slots ≤ 2 ^ 54;
}.

(** ** Staging *)

Lemma blobs_size_nonneg blobs : 0 ≤ blobs_size blobs.
Proof using. induction blobs as [|[k b] blobs IH]; cbn; [lia|]. pose proof (zlen_nonneg b). unfold blobs_size in IH. lia. Qed.
Lemma slot_need_nonneg f slot : 0 ≤ slot_need f slot.
Proof using.
  unfold slot_need. destruct (overlay f !! slot) as [ch|]; [|lia]. destruct (sc_empty ch); [lia|].
  destruct (slot_writes f slot ch) as [w|]; [|lia]. pose proof (blobs_size_nonneg w.2). pose proof (zlen_nonneg w.1).
  pose proof (zlen_nonneg w.2). unfold dir_size, DIR_HEADER, DIR_ENTRY, DIR_CRC. lia.
Qed.
Lemma slots_need_nonneg f slots : 0 ≤ slots_need f slots.
Proof using. induction slots as [|s slots IH]; cbn; [lia|]. pose proof (slot_need_nonneg f s). unfold slots_need in IH. lia. Qed.

Lemma append_room b blob :
  blob_wf b → zlen blob ≤ U32_MAX → write_pos b + (16 + zlen blob) ≤ 2 ^ 62 →
  ∃ b' o l, append_value blob b = Some (b', (o, l)) ∧ blob_wf b' ∧
    write_pos b' ≤ write_pos b + (16 + zlen blob) ∧ slots_used b' = slots_used b.
Proof using All.
  intros Hwf Hl Hr. destruct (append_value_room b blob Hwf Hl) as [[b' [o l]] Ha]; [lia|]. exists b', o, l. split; [done|].
  destruct (append_value_spec b blob b' o l Hwf Ha) as (Hw & _ & _ & _ & _ & _ & _ & -> & Hp & _).
  destruct (append_header b blob b' o _ Hwf Ha) as [Hh Ho]. split; [done|]. split; [lia|]. unfold slots_used. by rewrite Hh.
Qed.

Lemma om_insert_zlen {A} k (a : A) (m : ordmap Z A) : zlen (om_insert k a m) ≤ zlen m + 1.
Proof using. induction m as [|[k' a'] m IH]; [done|]. cbn [om_insert]. destruct (cmp k k'); rewrite !zlen_cons; lia. Qed.

Lemma append_blobs_room blobs : ∀ b m,
  blob_wf b → Forall (λ p, zlen p.2 ≤ U32_MAX) blobs → write_pos b + blobs_size blobs ≤ 2 ^ 62 →
  ∃ b' m', append_blobs blobs m b = Some (b', m') ∧ blob_wf b' ∧ write_pos b' ≤ write_pos b + blobs_size blobs ∧
    slots_used b' = slots_used b ∧ zlen m' ≤ zlen m + zlen blobs.
Proof using All.
  induction blobs as [|[key bytes] blobs IH]; intros b m Hwf Hl Hr.
  { exists b, m. change (blobs_size []) with 0. unfold zlen. cbn [append_blobs length]. split_and!; (done || lia). }
  apply Forall_cons in Hl as [Hlb Hl]. cbn [snd] in Hlb.
  change (blobs_size ((key, bytes) :: blobs)) with (16 + zlen bytes + blobs_size blobs) in *.
  pose proof (blobs_size_nonneg blobs).
  destruct (append_room b bytes Hwf Hlb) as (b1 & o & l & Ha & Hw1 & Hp1 & Hu1); [lia|].
  destruct (IH b1 (om_insert key (mk_dir_entry key o l) m) Hw1 Hl) as (b2 & m2 & Hb & Hw2 & Hp2 & Hu2 & Hm2); [lia|].
  exists b2, m2. cbn [append_blobs]. rewrite Ha. cbn [mbind option_bind].
  pose proof (om_insert_zlen key (mk_dir_entry key o l) m). rewrite zlen_cons. split_and!; [done|done|lia|congruence|lia].
Qed.

Lemma stage_slot_room f st slot :
  core_wf f → is_Some (overlay f !! slot) → slot_fits f slot → write_pos (bitmaps f) + slot_need f slot ≤ 2 ^ 62 →
  ∃ f' st', stage_slot (f, st) slot = Some (f', st') ∧ write_pos (bitmaps f') ≤ write_pos (bitmaps f) + slot_need f slot ∧
    slots_used (bitmaps f') = slots_used (bitmaps f) ∧ corrupted f' = corrupted f ∧ zlen (st_sets st') ≤ zlen (st_sets st) + 1.
Proof using All.
  intros Hf Hs Hfit Hr. assert (is_Some (overlay_ver f !! slot)) as [ver Hver] by (by apply (cf_ver _ Hf)).
  destruct Hs as [ch Hch]. cbn [stage_slot]. rewrite Hver, Hch. cbn [mbind option_bind]. unfold slot_need in *. rewrite Hch in *.
  destruct (sc_empty ch) eqn:Ee.
  { eexists _, _. split; [done|]. cbn [st_sets]. split_and!; (done || lia). }
  destruct (Hfit ch Hch Ee) as ([m blobs] & Hw & Hd & Hb). rewrite Hw in *. unfold slot_writes, staged_entries in Hw.
  destruct (stored_slot (bitmaps f) slot) as [dir Hdir]; [apply Hf..|]. rewrite (sdir_dir _ _ _ Hdir) in *. cbn [fst snd] in *.
  change (bitmaps (raise false f)) with (bitmaps f). rewrite Hw. unfold dir_size, DIR_HEADER, DIR_ENTRY, DIR_CRC in *. cbn [fst snd] in *.
  pose proof (zlen_nonneg m). pose proof (zlen_nonneg blobs).
  destruct (append_blobs_room blobs (bitmaps f) m (cf_blob _ Hf) Hb) as (b1 & m1 & Ha & Hw1 & Hp1 & Hu1 & Hm1); [lia|].
  rewrite Ha. cbn [mbind option_bind].
  assert (zlen (encode_dir m1.*2) = 8 + zlen m1 * 28 + 4) as Hz by (by rewrite encode_dir_zlen, zlen_fmap).
  destruct (append_room b1 (encode_dir m1.*2) Hw1) as (b2 & o & l & Ha2 & Hw2 & Hp2 & Hu2); [lia|lia|].
  rewrite Ha2. cbn [mbind option_bind]. eexists _, _. split; [done|]. cbn [set_bitmaps raise bitmaps corrupted st_sets].
  rewrite zlen_app, orb_false_r. split_and!; [lia|congruence|done|done].
Qed.

Lemma same_index_fits f f' slot : same_index f f' → slot_need f' slot = slot_need f slot ∧ (slot_fits f slot → slot_fits f' slot).
Proof using.
  intros [_ _ _ Ho _ _ (_ & _ & Hr)].
  assert (∀ ch, slot_writes f' slot ch = slot_writes f slot ch) as Hw.
  { intros ch. unfold slot_writes, staged_entries, stored_dir. by rewrite Hr. }
  split.
  - unfold slot_need. rewrite Ho. destruct (overlay f !! slot); [|done]. by rewrite Hw.
  - intros Hf ch. rewrite Ho, Hw. apply Hf.
Qed.

Lemma stage_slots_room slots : ∀ f st,
  core_wf f → Forall (λ s, is_Some (overlay f !! s)) slots → Forall (slot_fits f) slots →
  write_pos (bitmaps f) + slots_need f slots ≤ 2 ^ 62 →
  ∃ f' st', stage_slots (f, st) slots = Some (f', st') ∧ slots_used (bitmaps f') = slots_used (bitmaps f) ∧
    corrupted f' = corrupted f ∧ zlen (st_sets st') ≤ zlen (st_sets st) + zlen slots.
Proof using All.
  induction slots as [|s slots IH]; intros f st Hf Hs Hfit Hr.
  { exists f, st. rewrite zlen_nil. split_and!; (done || lia). }
  apply Forall_cons in Hs as [Hs1 Hs]. apply Forall_cons in Hfit as [Hfit1 Hfit].
  change (slots_need f (s :: slots)) with (slot_need f s + slots_need f slots) in Hr. pose proof (slots_need_nonneg f slots).
  destruct (stage_slot_room f st s Hf Hs1 Hfit1) as (f1 & st1 & Hrun & Hp & Hu & Hc & Hz); [lia|].
  destruct (stage_slot_spec f st s f1 st1 Hf Hrun) as (Hsi & _). pose proof (λ s, same_index_fits f f1 s Hsi) as Hsame.
  assert (slots_need f1 slots = slots_need f slots) as Hn.
  { clear -Hsame. induction slots as [|s' slots IH]; [done|]. cbn. destruct (Hsame s') as [-> _]. unfold slots_need in IH. by rewrite IH. }
  destruct (IH f1 st1) as (f2 & st2 & Hrun2 & Hu2 & Hc2 & Hz2).
  - by apply (same_index_core f).
  - eapply Forall_impl; [exact Hs|]. intros s' Hs'. rewrite (si_overlay _ _ Hsi). exact Hs'.
  - eapply Forall_impl; [exact Hfit|]. intros s' Hs'. by apply Hsame.
  - lia.
  - exists f2, st2. cbn [stage_slots]. rewrite Hrun. cbn [mbind option_bind]. rewrite zlen_cons. split_and!; [done|congruence..|lia].
Qed.

(** ** Committing *)

Lemma set_slot_completes b key offset len : blob_wf b → slots_used b ≤ 2 ^ 54 → is_Some (set_slot key offset len b).
Proof using All.
  intros Hwf Hr. unfold set_slot, slots_used in *.
  assert (is_Some (if needs_rehash b then rehash b else Some b)) as [b1 ->].
  { destruct (needs_rehash b) eqn:E; [|by eexists]. unfold needs_rehash in E. apply Z.ltb_lt in E. apply rehash_room; [unfold room_keys; lia|].
    pose proof (kw_cap _ (bw_keys _ Hwf)). unfold header. lia. }
  cbn [mbind option_bind]. destruct (blob_probe b1 key) as [idx [|]]; by eexists.
Qed.

Lemma commit_set_room f s :
  core_wf f → set_good f s → next_slot f ≤ 2 ^ 128 → slots_used (bitmaps f) + 1 ≤ 2 ^ 54 →
  ∃ f', commit_set f s = Some f' ∧ slots_used (bitmaps f') ≤ slots_used (bitmaps f) + 1.
Proof using All.
  intros Hf (es & ch & Hok) Hu Hr. destruct (so_range _ _ _ _ Hok) as (R1 & R2 & R3).
  assert (u128 (sd_slot s)) as Hslot.
  { pose proof (cw_slot _ _ _ (cf_overlay _ Hf _ _ (so_overlay _ _ _ _ Hok))). unfold u128. lia. }
  destruct (set_slot_completes (bitmaps f) (sd_slot s) (sd_offset s) (sd_len s) (cf_blob _ Hf)) as [[b new] Hs]; [lia|].
  destruct (set_slot_spec (bitmaps f) b _ _ _ new (cf_blob _ Hf) Hslot R1 R2 R3 Hs) as (_ & _ & _ & _ & Hused).
  unfold commit_set. rewrite Hs. cbn [mbind option_bind]. pose proof (drop_unchanged_spec (sd_slot s) (sd_ver s) (set_bitmaps b f)) as Hd.
  destruct (drop_overlay_entry_if_unchanged _ _ _) as [f2 d]. destruct Hd as (_ & _ & Hb & _). eexists. split; [done|].
  assert (bitmaps (if d then f2 else drop_staged_containers (sd_slot s) (sd_containers s) f2) = b) as ->.
  { destruct d; [done|]. change (bitmaps f2 = b) in Hb. unfold drop_staged_containers. destruct (overlay f2 !! sd_slot s); [|done]. by destruct (foldl _ _ _). }
  done.
Qed.

Lemma commit_sets_room sets : ∀ f,
  core_wf f → Forall (set_good f) sets → NoDup (sd_slot <$> sets) → next_slot f ≤ 2 ^ 128 →
  slots_used (bitmaps f) + zlen sets ≤ 2 ^ 54 → is_Some (commit_sets f sets).
Proof using All.
  induction sets as [|s sets IH]; intros f Hf Hg Hnd Hu Hr; [by eexists|]. apply Forall_cons in Hg as [Hg1 Hg]. rewrite zlen_cons in Hr.
  rewrite fmap_cons in Hnd. apply NoDup_cons in Hnd as [Hnot Hnd]. pose proof (zlen_nonneg sets).
  destruct (commit_set_room f s Hf Hg1 Hu) as (f1 & Hc & Hu1); [lia|]. cbn [commit_sets]. rewrite Hc. cbn [mbind option_bind].
  destruct Hg1 as (es & ch & Hok).
  assert (u128 (sd_slot s)) as Hslot.
  { pose proof (cw_slot _ _ _ (cf_overlay _ Hf _ _ (so_overlay _ _ _ _ Hok))). unfold u128. lia. }
  destruct (commit_set_spec f s es ch f1 Hf Hok Hslot Hc) as (Hs & _). apply IH; [apply Hs| |done|by rewrite (sl_next_slot _ _ _ Hs)|lia].
  rewrite Forall_forall in Hg |- *. intros s' Hin. apply (settles_set f f1 (sd_slot s)); [done|done| |by apply Hg].
  intros Heq. apply Hnot. rewrite <-Heq. by apply list_elem_of_fmap_2.
Qed.

(** C16: a spill with room completes: its stage and its commit return, the overlay is
    empty and charged nothing afterwards, and not a row has changed. *)
Theorem spill_completes f slots :
  field_wf f → accounted f → corrupted f = false → next_slot f ≤ 2 ^ 128 → slots ≡ₚ elements (dom (overlay f)) → spill_room f slots →
  ∃ f' freed, spill slots f = Some (f', freed) ∧ field_wf f' ∧ overlay f' = ∅ ∧ overlay_bytes f' = 0 ∧ corrupted f' = false ∧
    ∀ v row, has_row f' v row = has_row f v row.
Proof using All.
  intros Hf Hacc Hcor Hu Hp [R1 R2 R3]. pose proof (iw_core _ (fw_index _ Hf)) as Hc.
  destruct (stage_slots_room slots f (mk_spill [] []) Hc) as (f1 & st & Hs & Hus & Hc1 & Hz); [|done|done|].
  { apply Forall_forall. intros s. rewrite Hp, elem_of_elements, elem_of_dom. done. }
  cbn [st_sets] in Hz. rewrite zlen_nil in Hz.
  destruct (stage_spec slots f f1 st Hf Hp Hs) as (Hf1 & Hok & Hfr & Hsi & Hrows & Hall).
  pose proof (si_next_slot _ _ Hsi) as Hn.
  destruct (commit_sets_room (st_sets st) f1) as [f2 Hs2]; [apply Hf1|apply Hok| |by rewrite Hn|lia|].
  { pose proof (sk_slots _ _ Hok) as Hnd. by apply NoDup_app in Hnd as (? & _). }
  destruct (foldl commit_removal (f2, []) (st_removals st)) as [f' freed] eqn:Hrm.
  assert (commit st f1 = Some (f', freed)) as Hcm by (unfold commit; rewrite Hs2; cbn [mbind option_bind]; by rewrite Hrm).
  destruct (commit_spec f1 st f' freed Hf1 Hok ltac:(by rewrite Hn) Hcm) as (Hf' & Hrows' & _ & Hc' & _ & _ & Hgone & Hrest).
  assert (corrupted f1 = false) as Hc1' by congruence.
  assert (overlay f' = ∅) as He.
  { apply map_eq. intros s. rewrite lookup_empty.
    destruct (decide (s ∈ (sd_slot <$> st_sets st) ++ (st_removals st).*1)) as [Hin|Hin]; [by apply Hgone|].
    rewrite Hrest by done. apply eq_None_not_Some. intros Hsome. by apply Hin, Hall. }
  exists f', freed. split; [unfold spill, stage; rewrite Hs; exact Hcm|]. split; [done|]. split; [done|]. split; [|split; [congruence|]].
  - destruct (stage_overlay slots f f1 st Hs) as [Ho Hb].
    pose proof (commit_accounted f1 st f' freed (accounted_same f f1 Ho Hb Hacc) Hcm) as Ha.
    rewrite (ac_total _ Ha), He. apply map_sum_empty.
  - intros v row. by rewrite Hrows', Hrows.
Qed.
End room.

#[local] Existing Instance scalar_cpu.
#[local] Existing Instance flat_cost.
#[local] Existing Instance sum_crc.
#[local] Existing Instance sum_crc_laws.
#[local] Existing Instance byte_rkyv.
#[local] Existing Instance byte_rkyv_laws.
#[local] Existing Instance sample_heap_bytes.
#[local] Existing Instance sample_heap_bytes_laws.

Lemma sample_index_accounted : accounted sample_index.
Proof.
  unfold sample_index. apply insert_many_accounted, insert_many_accounted. split; [|reflexivity].
  intros s ch Hs. cbn in Hs. by rewrite lookup_empty in Hs.
Qed.
Lemma sample_index_room : spill_room sample_index (elements (dom (overlay sample_index))).
Proof.
  split.
  - assert (elements (dom (overlay sample_index)) = [1; 0]) as -> by (vm_compute; reflexivity).
    assert (∀ s, existsb (Z.eqb s) [0; 1] = true → slot_fits sample_index s) as Hs.
    { intros s Hs ch Hch He. destruct (slot_writes sample_index s ch) as [w|] eqn:E.
      - exists w. split; [done|].
        assert (match overlay sample_index !! s with
                | Some ch => match slot_writes sample_index s ch with
                             | Some w => bool_decide (dir_size w ≤ U32_MAX ∧ Forall (λ p, zlen p.2 ≤ U32_MAX) w.2)
                             | None => false end | None => false end = true) as Hb.
        { apply existsb_exists in Hs as (x & Hx & ->%Z.eqb_eq). destruct Hx as [<-|[<-|[]]]; vm_compute; reflexivity. }
        rewrite Hch, E in Hb. by apply bool_decide_eq_true in Hb.
      - exfalso.
        assert (match overlay sample_index !! s with
                | Some ch => bool_decide (is_Some (slot_writes sample_index s ch)) | None => false end = true) as Hb.
        { apply existsb_exists in Hs as (x & Hx & ->%Z.eqb_eq). destruct Hx as [<-|[<-|[]]]; vm_compute; reflexivity. }
        rewrite Hch, E in Hb. by apply bool_decide_eq_true in Hb as [? ?]. }
    constructor; [by apply Hs|]. constructor; [by apply Hs|constructor].
  - apply Z.leb_le. vm_compute. reflexivity.
  - apply Z.leb_le. vm_compute. reflexivity.
Qed.

Lemma spill_completes_witness :
  let slots := elements (dom (overlay sample_index)) in
  ∃ f' freed, spill slots sample_index = Some (f', freed) ∧ field_wf f' ∧ overlay f' = ∅ ∧ overlay_bytes f' = 0 ∧
    corrupted f' = false ∧ ∀ v row, has_row f' v row = has_row sample_index v row.
Proof.
  apply spill_completes.
  - apply sample_index_wf.
  - apply sample_index_accounted.
  - vm_compute. reflexivity.
  - apply Z.leb_le. vm_compute. reflexivity.
  - reflexivity.
  - apply sample_index_room.
Defined.
