(* ===== verification/DynFieldIndex.v ===== *)
(** * DynFieldIndex: a field index of any value type, and its keymap

    [src/minnal_db/src/index/field/value.rs].  A [DynFieldIndex] is a typed field index
    and the bookkeeping of its keymap, the blob store that names the value of every
    slot so that the index can be rebuilt when it is opened.  The operations are written
    once, over a value type with its keymap codec ([IndexType]), where the source repeats
    them for its three types.  [None] is a panic; what a sync of the value files returns
    and how long a spill takes are arguments ([Io]), and [MapOrder] is the order in which
    a hash map yields its keys. *)
From S2P Require Import Prelude Words Bytes OrdMap HashTable ArrayMerge Container ContainerStore Bitmap QueryLexer.
From S2P Require Import DirStorage BlobStore BlobOpen OverlayBudget FieldIndex.

Inductive IndexValue :=
| IVBool (b : bool)
| IVInt (n : Z)
| IVStr (s : region).
Inductive IndexValueType := TyBool | TyInt | TyStr.

#[global] Instance IndexValue_eq_dec : EqDecision IndexValue.
Proof. solve_decision. Defined.

Inductive DynError :=
| ValueMismatch (holds : IndexValueType) (received : IndexValue)
| ValueTooLarge (len max_bytes : Z).

(** ** The keymap's codec of values *)

Class IndexType (V : Type) := { serialize : V → region; deserialize : region → option V }.

Definition serialize_bool (v : bool) : region := [Z.b2z v].
Definition serialize_int (v : Z) : region := le_bytes 8 (wrap 64 v).
Definition serialize_str (v : region) : region := v.
Definition from_le_i64 (b : region) : Z := let u := le_value b in if u <? 2 ^ 63 then u else u - 2 ^ 64.

(** The decoding steps of [rebuild_ordering_bool], [_int] and [_str]. *)
Definition deserialize_bool (b : region) : option bool := (λ x, negb (x =? 0)) <$> head b.
Definition deserialize_int (b : region) : option Z := if zlen b <? 8 then None else Some (from_le_i64 (take 8 b)).
Definition deserialize_str (b : region) : option region := if utf8_valid b then Some b else None.

#[export] Instance bool_index_type : IndexType bool := {| serialize := serialize_bool; deserialize := deserialize_bool |}.
#[export] Instance int_index_type : IndexType Z := {| serialize := serialize_int; deserialize := deserialize_int |}.
#[export] Instance str_index_type : IndexType region := {| serialize := serialize_str; deserialize := deserialize_str |}.

Definition value_blob_len (value : IndexValue) : Z :=
  match value with IVBool _ => 1 | IVInt _ => 8 | IVStr s => zlen s end.
Definition check_value_size (value : IndexValue) (max_bytes : Z) : result () DynError :=
  let len := value_blob_len value in if max_bytes <? len then Err (ValueTooLarge len max_bytes) else Ok ().

(** ** State *)

(** The fields of [DynFieldIndex] besides the typed index. *)
Record Keymap := mk_keymap {
  km_store : option BlobStore;
  km_pending : list (Z * region);
  km_free_next : list Z;
  km_in_flight : bool;
  km_damaged : Z;
}.
Definition with_parts (store : option BlobStore) : Keymap := mk_keymap store [] [] false 0.

Record DynSpillStage := mk_dyn_stage {
  ds_field : SpillStage;
  ds_keymap_sets : list (Z * (Z * Z));
  ds_keymap_pending : list (Z * region);
  ds_keymap_removals : list Z;
}.

Class MapOrder := map_order : gset Z → list Z.
Class MapOrderLaws `{MapOrder} := map_order_elements (s : gset Z) : map_order s ≡ₚ elements s.

(** A concrete order. *)
Definition elements_order : MapOrder := λ s, elements s.
Lemma elements_order_laws : @MapOrderLaws elements_order.
Proof. by intros s. Defined.

Record Io := mk_io { sync_values_ok : bool; spill_nanos : Z }.

Definition has_store (k : Keymap) : bool := match km_store k with Some _ => true | None => false end.
Definition push_pending (e : Z * region) (k : Keymap) : Keymap :=
  mk_keymap (km_store k) (km_pending k ++ [e]) (km_free_next k) (km_in_flight k) (km_damaged k).

Section typed.
Context {V : Type} `{Ordered V} `{IndexType V} `{Cpu} `{HeapCost} `{Crc} `{Rkyv} `{HeapBytes} `{MapOrder}.

Definition Typed : Type := FieldIndex V * Keymap.
Implicit Type t : Typed.

Definition set_budget (b : IndexOverlayBudget) (f : FieldIndex V) : FieldIndex V :=
  mk_field (ordering f) (bitmaps f) (next_slot f) (corrupted f) (overlay f) (emptied f) (overlay_ver f) (next_ver f) (overlay_bytes f) b.

(** ** Spilling *)

Fixpoint append_pending (pending : list (Z * region)) (ks : BlobStore) : option (BlobStore * list (Z * (Z * Z))) :=
  match pending with
  | [] => Some (ks, [])
  | (slot, bytes) :: pending =>
      '(ks, ol) ← append_value bytes ks;
      '(ks, sets) ← append_pending pending ks;
      Some (ks, (slot, ol) :: sets)
  end.
Fixpoint set_keymap (sets : list (Z * (Z * Z))) (ks : BlobStore) : option BlobStore :=
  match sets with
  | [] => Some ks
  | (slot, (offset, len)) :: sets => '(ks, _) ← set_slot slot offset len ks; set_keymap sets ks
  end.

Definition dyn_stage t : option (Typed * DynSpillStage) :=
  let '(f, k) := t in
  '(f, field) ← stage (map_order (dom (overlay f))) f;
  '(store, sets) ← match km_store k with
                   | Some ks => '(ks, sets) ← append_pending (km_pending k) ks; Some (Some ks, sets)
                   | None => Some (None, [])
                   end;
  Some ((f, mk_keymap store [] [] true (km_damaged k)), mk_dyn_stage field sets (km_pending k) (km_free_next k)).

Definition dyn_commit (s : DynSpillStage) t : option Typed :=
  let '(f, k) := t in
  '(f, freed) ← commit (ds_field s) f;
  match km_store k with
  | Some ks =>
      ks ← set_keymap (ds_keymap_sets s) ks;
      let ks := foldl (λ ks slot, remove_key slot ks) ks (ds_keymap_removals s) in
      Some (f, mk_keymap (Some ks) (km_pending k) (km_free_next k ++ freed) false (km_damaged k))
  | None => Some (f, mk_keymap None (km_pending k) (km_free_next k) false (km_damaged k))
  end.

Definition dyn_abort (s : DynSpillStage) t : Typed :=
  let '(f, k) := t in
  (f, mk_keymap (km_store k) (ds_keymap_pending s ++ km_pending k) (ds_keymap_removals s ++ km_free_next k) false (km_damaged k)).

Definition dyn_spill (io : Io) t : option Typed :=
  if km_in_flight t.2 then Some t
  else
    '(t, s) ← dyn_stage t;
    if sync_values_ok io then dyn_commit s t else Some (dyn_abort s t).

Definition spill_if_over_budget (io : Io) t : option Typed :=
  if over_hard (budget t.1) && (0 <? overlay_bytes t.1) then
    '(f, k) ← dyn_spill io t;
    Some (set_budget (note_hard_spill (spill_nanos io) (budget f)) f, k)
  else Some t.

(** ** Writes *)

(** A value that is given a new slot queues its keymap entry. *)
Definition typed_insert_many (v : V) (row_ids : list Z) t : option Typed :=
  let '(f, k) := t in
  let prev := next_slot f in
  let f := insert_many v row_ids f in
  if negb (next_slot f =? prev) && has_store k then
    slot_id ← slot_id_for f v; Some (f, push_pending (slot_id, serialize v) k)
  else Some (f, k).
Definition typed_remove (v : V) (row_id : Z) t : Typed := (remove v row_id t.1, t.2).
Definition typed_remove_all (row_ids : list Z) t : Typed := ((remove_all_for_rows row_ids t.1).1, t.2).

(** ** Opening *)

Definition rebuild_step (p : ordmap V Z * option Z) (e : Z * region) : ordmap V Z * option Z :=
  match deserialize e.2 with
  | None => p
  | Some v => (om_insert v e.1 p.1, Some (match p.2 with None => e.1 | Some m => Z.max m e.1 end))
  end.
Definition rebuild_ordering (ks : BlobStore) : option (ordmap V Z * Z) :=
  entries ← iter_entries ks;
  let '(map, max_slot) := foldl rebuild_step ([], None) entries in
  Some (map, match max_slot with None => 0 | Some m => m + 1 end).

Definition forget_missing (stored : gset Z) (p : FieldIndex V * BlobStore) (e : V * Z) : FieldIndex V * BlobStore :=
  if decide (e.2 ∈ stored) then p else (forget_value e.1 p.1, remove_key e.2 p.2).
Definition drop_orphan (f : FieldIndex V) (slot : Z) : FieldIndex V := set_bitmaps (remove_key slot (bitmaps f)) f.

Definition reconcile_at_open t : Typed :=
  let '(f, k) := t in
  match km_store k with
  | None => t
  | Some ks =>
      let damaged := damaged_at_open (bitmaps f) + damaged_at_open ks in
      let stored : gset Z := list_to_set (keys (bitmaps f)) in
      let mapped : gset Z := list_to_set (ordering f).*2 in
      let '(f, ks) := foldl (forget_missing stored) (f, ks) (mapped_values f) in
      let f := foldl drop_orphan f (map_order (stored ∖ mapped)) in
      let f := match map_order stored with
               | [] => f
               | m :: ms => raise_next_slot (foldl Z.max m ms + 1) f
               end in
      (f, mk_keymap (Some ks) (km_pending k) (km_free_next k) (km_in_flight k) damaged)
  end.

(** The files of a store, when they exist. *)
Definition Files : Type := option (region * region).
Definition typed_open (bitmap_files keymap_files : Files) : option (result Typed OpenError) :=
  match (match bitmap_files with Some (kf, vf) => open_with Directory kf vf | None => Ok (create_with Directory) end) with
  | Err e => Some (Err e)
  | Ok bitmaps =>
      match keymap_files with
      | Some (kf, vf) =>
          match open_with Flat kf vf with
          | Err e => Some (Err e)
          | Ok ks =>
              '(ordering, next_slot) ← rebuild_ordering ks;
              Some (Ok (reconcile_at_open (from_parts ordering bitmaps next_slot, with_parts (Some ks))))
          end
      | None => Some (Ok (reconcile_at_open (from_parts [] bitmaps 0, with_parts (Some (create_with Flat)))))
      end
  end.
End typed.
Arguments Typed V : clear implicits.

(** ** The index of any type *)

Inductive DynFieldIndexInner :=
| InBool (f : FieldIndex bool)
| InInt (f : FieldIndex Z)
| InStr (f : FieldIndex region).

Record DynFieldIndex := mk_dyn { inner : DynFieldIndexInner; keymap : Keymap }.

Section dyn.
Context `{Cpu} `{HeapCost} `{Crc} `{Rkyv} `{HeapBytes} `{MapOrder}.

Definition value_type (d : DynFieldIndex) : IndexValueType :=
  match inner d with InBool _ => TyBool | InInt _ => TyInt | InStr _ => TyStr end.

Definition as_bool (o : option (Typed bool)) : option DynFieldIndex := '(f, k) ← o; Some (mk_dyn (InBool f) k).
Definition as_int (o : option (Typed Z)) : option DynFieldIndex := '(f, k) ← o; Some (mk_dyn (InInt f) k).
Definition as_str (o : option (Typed region)) : option DynFieldIndex := '(f, k) ← o; Some (mk_dyn (InStr f) k).

(** An operation on the typed index, whatever its type. *)
Definition on_typed (op : ∀ V : Type, Ordered V → IndexType V → Typed V → option (Typed V)) (d : DynFieldIndex) : option DynFieldIndex :=
  match inner d with
  | InBool f => as_bool (op bool _ _ (f, keymap d))
  | InInt f => as_int (op Z _ _ (f, keymap d))
  | InStr f => as_str (op region _ _ (f, keymap d))
  end.

Definition dyn_new (value_type : IndexValueType) : DynFieldIndex :=
  match value_type with
  | TyBool => mk_dyn (InBool field_new) (with_parts None)
  | TyInt => mk_dyn (InInt field_new) (with_parts None)
  | TyStr => mk_dyn (InStr field_new) (with_parts None)
  end.

Definition dyn_open (value_type : IndexValueType) (bitmap_files keymap_files : Files) : option (result DynFieldIndex OpenError) :=
  match value_type with
  | TyBool => r ← typed_open (V := bool) bitmap_files keymap_files; Some (let? t := r in Ok (mk_dyn (InBool t.1) t.2))%minnal
  | TyInt => r ← typed_open (V := Z) bitmap_files keymap_files; Some (let? t := r in Ok (mk_dyn (InInt t.1) t.2))%minnal
  | TyStr => r ← typed_open (V := region) bitmap_files keymap_files; Some (let? t := r in Ok (mk_dyn (InStr t.1) t.2))%minnal
  end.

(** A write returns the index with its result: an error may come after a change. *)
Definition dyn_insert_many (io : Io) (value : IndexValue) (row_ids : list Z) (d : DynFieldIndex) :
    option (DynFieldIndex * result () DynError) :=
  match check_value_size value U32_MAX with
  | Err e => Some (d, Err e)
  | Ok _ =>
      match row_ids with
      | [] => Some (d, Ok ())
      | _ =>
          match inner d, value with
          | InBool f, IVBool v =>
              d ← as_bool (t ← typed_insert_many v row_ids (f, keymap d); spill_if_over_budget io t); Some (d, Ok ())
          | InInt f, IVInt v =>
              d ← as_int (t ← typed_insert_many v row_ids (f, keymap d); spill_if_over_budget io t); Some (d, Ok ())
          | InStr f, IVStr v =>
              d ← as_str (t ← typed_insert_many v row_ids (f, keymap d); spill_if_over_budget io t); Some (d, Ok ())
          | _, _ => Some (d, Err (ValueMismatch (value_type d) value))
          end
      end
  end.
Definition dyn_insert (io : Io) (value : IndexValue) (row_id : Z) (d : DynFieldIndex) := dyn_insert_many io value [row_id] d.

Definition dyn_remove_inner (value : IndexValue) (row_id : Z) (d : DynFieldIndex) : DynFieldIndex * bool :=
  match inner d, value with
  | InBool f, IVBool v => (mk_dyn (InBool (remove v row_id f)) (keymap d), true)
  | InInt f, IVInt v => (mk_dyn (InInt (remove v row_id f)) (keymap d), true)
  | InStr f, IVStr v => (mk_dyn (InStr (remove v row_id f)) (keymap d), true)
  | _, _ => (d, false)
  end.
Definition dyn_spill_if_over_budget (io : Io) (d : DynFieldIndex) : option DynFieldIndex :=
  on_typed (λ V _ _ t, spill_if_over_budget io t) d.
Definition dyn_remove (io : Io) (value : IndexValue) (row_id : Z) (d : DynFieldIndex) : option (DynFieldIndex * bool) :=
  let '(d, removed) := dyn_remove_inner value row_id d in
  d ← dyn_spill_if_over_budget io d; Some (d, removed).

Definition dyn_remove_all_for_rows (io : Io) (row_ids : list Z) (d : DynFieldIndex) : option DynFieldIndex :=
  d ← on_typed (λ V _ _ t, Some (typed_remove_all row_ids t)) d; dyn_spill_if_over_budget io d.
Definition dyn_remove_all_for_row (io : Io) (row_id : Z) (d : DynFieldIndex) : option DynFieldIndex :=
  dyn_remove_all_for_rows io [row_id] d.

(** The two halves of [set] may each spill, so each has its outcome. *)
Definition dyn_set (io io' : Io) (value : IndexValue) (row_id : Z) (d : DynFieldIndex) : option (DynFieldIndex * result () DynError) :=
  d ← dyn_remove_all_for_row io row_id d; dyn_insert io' value row_id d.

Definition dyn_update (io io' : Io) (old new : option IndexValue) (row_id : Z) (d : DynFieldIndex) :
    option (DynFieldIndex * result () DynError) :=
  if bool_decide (old = new) then Some (d, Ok ())
  else
    d ← match old with Some o => '(d, _) ← dyn_remove io o row_id d; Some d | None => Some d end;
    match new with Some n => dyn_insert io' n row_id d | None => Some (d, Ok ()) end.

(** ** Reads and statistics *)

Definition dyn_distinct_count (d : DynFieldIndex) : Z :=
  match inner d with InBool f => distinct_count f | InInt f => distinct_count f | InStr f => distinct_count f end.
Definition dyn_corruption_detected (d : DynFieldIndex) : bool :=
  match inner d with InBool f => corrupted f | InInt f => corrupted f | InStr f => corrupted f end.
Definition dyn_overlay_bytes (d : DynFieldIndex) : Z :=
  match inner d with InBool f => overlay_bytes f | InInt f => overlay_bytes f | InStr f => overlay_bytes f end.
Definition dyn_overlay_budget (d : DynFieldIndex) : IndexOverlayBudget :=
  match inner d with InBool f => budget f | InInt f => budget f | InStr f => budget f end.
Definition dyn_bitmap_store (d : DynFieldIndex) : BlobStore :=
  match inner d with InBool f => bitmaps f | InInt f => bitmaps f | InStr f => bitmaps f end.
Definition reclaimable_dead_bytes (d : DynFieldIndex) : Z :=
  Z.min U64_MAX (dead_bytes (dyn_bitmap_store d) + match km_store (keymap d) with Some ks => dead_bytes ks | None => 0 end).

(** The bitmaps [for_each_bitmap] visits, in order. *)
Definition for_each_bitmap (d : DynFieldIndex) : list HeapStore :=
  match inner d with InBool f => (field_iter f).*2 | InInt f => (field_iter f).*2 | InStr f => (field_iter f).*2 end.
End dyn.
