(* ===== verification/DynIndexSpec.v ===== *)
(** * DynIndexSpec: a field index with its keymap, across spills and reopening

    The typed index of [src/minnal_db/src/index/field/value.rs] as a state machine: writes,
    the spill staged, committed or given up with writes in between, and the invariant
    ([typed_ok]) that ties the keymap to the slots of the index.  Closing a spilled index
    and opening its two stores gives back its rows. *)
From S2P Require Import Prelude Slices ArrayMerge Words ArrayContainer Container ContainerStore Bitmap BitmapReads BitmapSets QueryLexer.
From S2P Require Import Bytes HashTable DirStorage BlobStore BlobStoreSpec BlobOpen OrdMap OverlayBudget FieldIndex FieldChange FieldUpdates.
From S2P Require Import FieldSpill FieldCommit FieldReads FieldIndexSpec DynFieldIndex.

(** ** The keymap of a field index

    The blob store in which [src/minnal_db/src/index/field/value.rs] names the value of every
    slot, as a map: staging its pending entries and committing them ([set_keymap]), and
    what rebuilding the order from its entries yields. *)

(** ** Codecs *)

Class IndexTypeLaws (V : Type) `{IndexType V} := {
  value_ok : V → Prop;
  deserialize_serialize v : value_ok v → deserialize (serialize v) = Some v;
}.

Definition i64 (n : Z) : Prop := - 2 ^ 63 ≤ n < 2 ^ 63.

#[export] Instance bool_type_laws : IndexTypeLaws bool.
Proof. split with (λ _, True). by intros [] _. Defined.
#[export] Instance int_type_laws : IndexTypeLaws Z.
Proof.
  split with i64. intros n Hn. unfold deserialize, serialize, int_index_type, deserialize_int, serialize_int.
  rewrite le_bytes_zlen. rewrite (proj2 (Z.ltb_ge _ _)) by lia. rewrite take_ge by (by rewrite le_bytes_length).
  f_equal. unfold from_le_i64, wrap, i64 in *. rewrite le_value_bytes by (apply Z.mod_pos_bound; lia).
  destruct (Z.ltb_spec (n mod 2 ^ 64) (2 ^ 63)) as [Hl|Hl].
  - destruct (Z.lt_ge_cases n 0); [|rewrite Z.mod_small by lia; done].
    rewrite <-(Z.mod_unique n (2 ^ 64) (-1) (n + 2 ^ 64)) in Hl by lia. lia.
  - destruct (Z.lt_ge_cases n 0); [|rewrite Z.mod_small in Hl by lia; lia].
    rewrite <-(Z.mod_unique n (2 ^ 64) (-1) (n + 2 ^ 64)) by lia. lia.
Defined.
#[export] Instance str_type_laws : IndexTypeLaws region.
Proof. split with (λ s, utf8_valid s = true). intros v Hv. cbn. unfold deserialize_str, serialize_str. by rewrite Hv. Defined.

Lemma serialize_inj {V} `{IndexTypeLaws V} (v w : V) : value_ok v → value_ok w → serialize v = serialize w → v = w.
Proof. intros Hv Hw He. apply deserialize_serialize in Hv, Hw. rewrite He in Hv. congruence. Qed.

(** ** Inserting a list of entries *)

Definition put_all (es : list (Z * region)) (m : gmap Z region) : gmap Z region := foldl (λ m e, <[e.1 := e.2]> m) m es.

Lemma put_all_lookup es : ∀ m s b, put_all es m !! s = Some b → (s, b) ∈ es ∨ m !! s = Some b.
Proof.
  induction es as [|[s0 b0] es IH]; intros m s b Hs; [by right|]. apply (IH (<[s0 := b0]> m)) in Hs as [Hs|Hs]; [left; by right|].
  apply lookup_insert_Some in Hs as [[<- <-]|[_ Hs]]; [left; by left|by right].
Qed.
Lemma put_all_keeps es : ∀ m s, is_Some (m !! s) → is_Some (put_all es m !! s).
Proof.
  induction es as [|[s0 b0] es IH]; intros m s Hs; [done|]. apply (IH (<[s0 := b0]> m)). apply lookup_insert_is_Some'. by right.
Qed.
Lemma put_all_in es : ∀ m s b, (s, b) ∈ es → is_Some (put_all es m !! s).
Proof.
  induction es as [|[s0 b0] es IH]; intros m s b Hin; [by apply elem_of_nil in Hin|]. apply elem_of_cons in Hin as [[= <- <-]|Hin].
  - apply (put_all_keeps es (<[s := b]> m)). rewrite lookup_insert_eq. by eexists.
  - by apply (IH (<[s0 := b0]> m) s b).
Qed.

(** ** Staging and committing *)

Section keymap.
Context `{CrcLaws}.

(** The blob of a pending entry, appended. *)
Definition staged_at (ks : BlobStore) (e : Z * region) (s : Z * (Z * Z)) : Prop :=
  s.1 = e.1 ∧ 0 ≤ s.2.1 ∧ 0 ≤ s.2.2 < 2 ^ 32 ∧ s.2.1 + s.2.2 ≤ write_pos ks ∧ value_slice ks s.2.1 s.2.2 = Some e.2.

Lemma append_pending_spec pending : ∀ ks ks' sets,
  filed Flat ks → append_pending pending ks = Some (ks', sets) →
  filed Flat ks' ∧ blob_values ks' = blob_values ks ∧ Forall2 (staged_at ks') pending sets ∧ write_pos ks ≤ write_pos ks' ∧
  ∀ o l, 0 ≤ o → 0 ≤ l → o + l ≤ write_pos ks → value_slice ks' o l = value_slice ks o l.
Proof using All.
  induction pending as [|[slot bytes] pending IH]; intros ks ks' sets Hks Hrun; cbn [append_pending] in Hrun.
  { apply (inj Some), pair_equal_spec in Hrun as [<- <-]. split; [done|]. split; [done|]. split; [constructor|]. split; [lia|done]. }
  apply bind_Some in Hrun as ([ks1 [o l]] & Ha & Hrun). apply bind_Some in Hrun as ([ks2 sets2] & Hp & Hrun).
  apply (inj Some), pair_equal_spec in Hrun as [<- <-].
  destruct (append_value_spec ks bytes ks1 o l (fl_wf _ _ Hks) Ha) as (Hw1 & _ & _ & _ & _ & Ho & _ & Hl & Hp1 & Hsl & Hst).
  destruct (append_value_u32 bytes ks ks1 o l Ha) as [Hu _]. pose proof (zlen_nonneg bytes).
  destruct (kw_header _ (bw_keys _ (fl_wf _ _ Hks))) as (_ & _ & _ & Hpos). change (u64 (write_pos ks)) in Hpos. unfold u64, U32_MAX in *.
  destruct (IH ks1 ks2 sets2 (filed_append Flat ks bytes ks1 o l Hks Ha) Hp) as (I1 & I2 & I3 & I4 & I5).
  split; [done|]. split; [by rewrite I2; eapply append_values; [apply Hks|]|]. split; [|split; [lia|]].
  - constructor; [|done]. unfold staged_at. cbn [fst snd]. split; [done|]. split; [lia|]. split; [lia|]. split; [lia|].
    rewrite I5 by lia. done.
  - intros o' l' ? ? ?. rewrite I5, Hst by lia. done.
Qed.

Lemma set_keymap_spec pending sets : ∀ ks ks', Forall2 (staged_at ks) pending sets → Forall u128 pending.*1 →
  filed Flat ks → set_keymap sets ks = Some ks' →
  filed Flat ks' ∧ blob_values ks' = put_all pending (blob_values ks).
Proof using All.
  revert sets. induction pending as [|[slot bytes] pending IH]; intros sets ks ks' Hst Hu Hks Hrun.
  { apply Forall2_nil_inv_l in Hst as ->. by apply (inj Some) in Hrun as <-. }
  apply Forall2_cons_inv_l in Hst as ([slot' [o l]] & sets' & Hat & Hst & ->). destruct Hat as (Heq & Ho & Hl & He & Hsl).
  cbn [fst snd] in *. subst slot'. apply Forall_cons in Hu as [Hslot Hu]. cbn [set_keymap] in Hrun.
  apply bind_Some in Hrun as ([ks1 new] & Hs & Hrun). cbn [fst] in Hslot.
  pose proof (filed_set_slot Flat ks slot o l ks1 new Hks Hslot Ho Hl He Hs) as Hks1.
  destruct (set_slot_values ks slot o l bytes ks1 new (fl_wf _ _ Hks) Hslot Ho Hl He Hsl Hs) as (Hv1 & Hp1 & Hd1).
  destruct (IH sets' ks1 ks') as [I1 I2]; [|done..|].
  { eapply Forall2_impl; [done|]. intros e s (E1 & E2 & E3 & E4 & E5). split; [done|]. split; [done|]. split; [done|]. split; [lia|].
    rewrite <-E5. by apply value_slice_val. }
  split; [done|]. rewrite I2, Hv1. done.
Qed.

Lemma remove_keys_spec l slots : ∀ ks, filed l ks →
  let ks' := foldl (λ ks slot, remove_key slot ks) ks slots in
  filed l ks' ∧ val_data ks' = val_data ks ∧ write_pos ks' = write_pos ks ∧
  ∀ s, blob_values ks' !! s = if decide (s ∈ slots) then None else blob_values ks !! s.
Proof using All.
  induction slots as [|slot slots IH]; intros ks Hks; [done|]. cbn [foldl].
  destruct (IH (remove_key slot ks) (filed_remove l ks slot Hks)) as (I1 & I2 & I3 & I4).
  destruct (remove_key_spec ks slot (fl_wf _ _ Hks)) as (_ & _ & (Hv & _ & _ & _ & Hp)).
  split; [done|]. split; [by rewrite I2|]. split; [by rewrite I3|]. intros s. rewrite I4.
  rewrite remove_values by apply Hks. destruct (decide (s ∈ slots)) as [Hin|Hin].
  - by rewrite decide_True by by right.
  - destruct (decide (s = slot)) as [->|Hne].
    + rewrite lookup_delete_eq, decide_True by left. done.
    + rewrite lookup_delete_ne by done. rewrite decide_False; [done|]. by intros [?|?]%elem_of_cons.
Qed.

(** ** Rebuilding the order *)

Context {V : Type} `{OrderedLaws V} `{!EqDecision V} `{IndexType V}.

Record rebuilt (es : list (Z * region)) (m : ordmap V Z) (next : Z) : Prop := {
  rb_sorted : om_wf m;
  rb_from v s : om_get v m = Some s → ∃ b, (s, b) ∈ es ∧ deserialize b = Some v;
  rb_all s b v : (s, b) ∈ es → deserialize b = Some v → is_Some (om_get v m) ∧ s < next;
}.

Lemma rebuild_fold es : ∀ m next p, foldl rebuild_step (m, next) es = p → om_wf m →
  om_wf p.1 ∧
  (∀ v s, om_get v p.1 = Some s → om_get v m = Some s ∨ ∃ b, (s, b) ∈ es ∧ deserialize b = Some v) ∧
  (∀ v, is_Some (om_get v m) → is_Some (om_get v p.1)) ∧
  (∀ n, next = Some n → ∃ n', p.2 = Some n' ∧ n ≤ n') ∧
  (∀ s b v, (s, b) ∈ es → deserialize b = Some v → is_Some (om_get v p.1) ∧ ∃ n, p.2 = Some n ∧ s ≤ n).
Proof using All.
  induction es as [|[slot bytes] es IH]; intros m next p <- Hm.
  { cbn [foldl fst snd]. split; [done|]. split; [by left|]. split; [done|]. split.
    - intros n Hn. exists n. split; [done|lia].
    - intros s b v Hin. by apply elem_of_nil in Hin. }
  cbn [foldl]. set (q := foldl rebuild_step _ es). assert (foldl rebuild_step (rebuild_step (m, next) (slot, bytes)) es = q) as Hq by done.
  clearbody q. unfold rebuild_step at 2 in Hq. cbn [fst snd] in Hq. destruct (deserialize bytes) as [w|] eqn:Ed.
  - set (next1 := Some (match next with None => slot | Some n => Z.max n slot end)).
    destruct (IH (om_insert w slot m) next1 q Hq (om_insert_wf w slot m Hm)) as (I1 & I2 & I3 & I4 & I5). split; [done|]. split; [|split; [|split]].
    + intros v s Hv. apply I2 in Hv as [Hv|(b & Hin & Hb)]; [|right; exists b; split; [by right|done]].
      rewrite om_get_insert in Hv. case_decide as Hd; [|by left]. injection Hv as <-. subst v. right. exists bytes. split; [left|done].
    + intros v Hv. apply I3. rewrite om_get_insert. case_decide; [by eexists|done].
    + intros n ->. destruct (I4 _ eq_refl) as (n' & Hn' & Hle). exists n'. split; [done|lia].
    + intros s b v Hin Hb. apply elem_of_cons in Hin as [[= -> ->]|Hin]; [|by apply (I5 s b)].
      rewrite Ed in Hb. injection Hb as <-. split; [apply I3; rewrite om_get_insert, decide_True by done; by eexists|].
      destruct (I4 _ eq_refl) as (n' & Hn' & Hle). exists n'. split; [done|]. destruct next; lia.
  - destruct (IH m next q Hq Hm) as (I1 & I2 & I3 & I4 & I5).
    split; [done|]. split; [|split; [done|split; [done|]]].
    + intros v s Hv. apply I2 in Hv as [Hv|(b & Hin & Hb)]; [by left|]. right. exists b. split; [by right|done].
    + intros s b v Hin Hb. apply elem_of_cons in Hin as [[= -> ->]|Hin]; [by rewrite Ed in Hb|by apply (I5 s b)].
Qed.

Lemma rebuild_spec ks : blob_wf ks → ∃ es m next,
  rebuild_ordering ks = Some (m, next) ∧ es ≡ₚ map_to_list (blob_values ks) ∧ rebuilt es m next ∧ (es = [] → next = 0).
Proof using All.
  intros Hks. destruct (iter_entries_spec ks Hks) as (es & Hes & Hp). unfold rebuild_ordering. rewrite Hes. cbn [mbind option_bind].
  destruct (foldl rebuild_step ([], None) es) as [m o] eqn:E.
  destruct (rebuild_fold es [] None (m, o) E ltac:(constructor)) as (I1 & I2 & _ & _ & I5). cbn [fst snd] in *. exists es, m. eexists. split; [done|]. split; [done|].
  split; [split; [done| |]|].
  - intros v s Hv. by destruct (I2 v s Hv) as [?|?].
  - intros s b v Hin Hb. destruct (I5 s b v Hin Hb) as (Hs & n & -> & Hle). split; [done|lia].
  - intros ->. by apply pair_equal_spec in E as [_ <-].
Qed.
End keymap.

(** ** A field index with its keymap, across spills and reopening *)

Section typed_index.
Context {V : Type} `{OrderedLaws V} `{!EqDecision V} `{IndexTypeLaws V} `{Cpu} `{HeapCost} `{CrcLaws} `{RkyvLaws} `{HeapBytes} `{MapOrderLaws}.
Implicit Types (f : FieldIndex V) (k : Keymap) (st : option DynSpillStage) (t : Typed V).

(** ** The invariant *)

(** Entries on their way to the keymap, and slots whose entries are on their way out. *)
Definition pending k st : list (Z * region) := match st with Some s => ds_keymap_pending s | None => [] end ++ km_pending k.
Definition leaving k st : list Z := match st with Some s => ds_keymap_removals s | None => [] end ++ km_free_next k.

Record keymap_ok f k st (ks : BlobStore) : Prop := {
  ko_known v s : slot_of f v = Some s → value_ok v ∧ (blob_values ks !! s = Some (serialize v) ∨ (s, serialize v) ∈ pending k st);
  ko_entry s b : blob_values ks !! s = Some b ∨ (s, b) ∈ pending k st →
    ∃ v, b = serialize v ∧ value_ok v ∧ 0 ≤ s < next_slot f ∧ (slot_of f v = Some s ∨ s ∈ leaving k st);
  ko_leaving s : s ∈ leaving k st → 0 ≤ s < next_slot f ∧ (∀ v, slot_of f v ≠ Some s) ∧ ∀ b, (s, b) ∉ pending k st;
  ko_again s v s' : s ∈ leaving k st → blob_values ks !! s = Some (serialize v) → slot_of f v = Some s' →
    (s', serialize v) ∈ pending k st;
  ko_once s s' b : s ∈ leaving k st → s' ∈ leaving k st → blob_values ks !! s = Some b → blob_values ks !! s' = Some b → s = s';
}.

Record typed_ok t st : Prop := {
  to_field : field_wf t.1;
  to_bitmaps : filed Directory (bitmaps t.1);
  to_store : ∃ ks, km_store t.2 = Some ks ∧ filed Flat ks ∧ keymap_ok t.1 t.2 st ks ∧
    ∀ s, st = Some s → Forall2 (staged_at ks) (ds_keymap_pending s) (ds_keymap_sets s);
  to_stage s : st = Some s → stage_ok t.1 (ds_field s) ∧ km_free_next t.2 = [] ∧
    ∀ slot b, (slot, b) ∈ km_pending t.2 → slot ∉ (st_removals (ds_field s)).*1;
  to_flight : km_in_flight t.2 = bool_decide (is_Some st);
}.

(** The keymap depends on the slots of the index only. *)
Lemma keymap_ok_slots f f' k st ks :
  keymap_ok f k st ks → (∀ v, slot_of f' v = slot_of f v) → next_slot f ≤ next_slot f' → keymap_ok f' k st ks.
Proof using.
  intros [K1 K2 K3 K4 K5] Hs Hn. split.
  - intros v s. rewrite Hs. apply K1.
  - intros s b Hb. destruct (K2 s b Hb) as (v & ? & ? & ? & ?). exists v. rewrite Hs. split_and!; (done || lia).
  - intros s Hl. destruct (K3 s Hl) as (? & ? & ?). split; [lia|]. split; [|done]. intros v. by rewrite Hs.
  - intros s v s'. rewrite Hs. apply K4.
  - done.
Qed.

Lemma typed_ok_slots f f' k st :
  typed_ok (f, k) st → field_wf f' → evolves f f' → (∀ v, slot_of f' v = slot_of f v) → typed_ok (f', k) st.
Proof using All.
  intros [T1 T2 (ks & T3 & T4 & T5 & T6) T7 T8] Hf Hev Hs. cbn [fst snd] in *. split; cbn [fst snd]; [done| | | |done].
  - by rewrite (ev_bitmaps _ _ Hev).
  - exists ks. split; [done|]. split; [done|]. split; [|done]. apply (keymap_ok_slots f); [done|done|apply Hev].
  - intros s Hs'. destruct (T7 s Hs') as (U1 & U2). split; [|done].
    apply (stage_ok_evolves f); [apply T1|intros slot; by apply evolves_slot|done].
Qed.

(** ** Writes *)

Lemma removal_slots f (sp : SpillStage) : core_wf f → stage_ok f sp → ∀ s, s ∈ (st_removals sp).*1 → s < next_slot f.
Proof using.
  intros Hf [_ Hr _] s Hs. apply list_elem_of_fmap in Hs as (rm & -> & Hin). rewrite Forall_forall in Hr.
  destruct (Hr _ Hin) as ([ch Hch] & _). apply (cw_slot _ _ _ (cf_overlay _ Hf _ _ Hch)).
Qed.

(** A value that gets the next slot is pending. *)
Lemma keymap_ok_new f f' k st ks v :
  index_wf f → keymap_ok f k st ks → value_ok v → slot_of f v = None → next_slot f' = next_slot f + 1 →
  (∀ v', slot_of f' v' = if decide (v' = v) then Some (next_slot f) else slot_of f v') →
  keymap_ok f' (push_pending (next_slot f, serialize v) k) st ks.
Proof using EqDecision0.
  intros Hf [K1 K2 K3 K4 K5] Hv Hnone Hn Hs. pose proof (iw_next _ Hf).
  assert (∀ e, e ∈ pending (push_pending (next_slot f, serialize v) k) st ↔ e ∈ pending k st ∨ e = (next_slot f, serialize v)) as Hp.
  { intros e. unfold pending. cbn [push_pending km_pending]. rewrite !elem_of_app, list_elem_of_singleton. tauto. }
  change (leaving (push_pending (next_slot f, serialize v) k) st) with (leaving k st) in *.
  split.
  - intros v' s. rewrite Hs, Hp. case_decide; [intros [= <-]; subst; split; [done|]; right; by right|].
    intros Hs'. destruct (K1 v' s Hs') as [? [?|?]]; (split; [done|]); [by left|right; by left].
  - intros s b. rewrite Hp. intros Hb. assert ((blob_values ks !! s = Some b ∨ (s, b) ∈ pending k st) ∨ (s, b) = (next_slot f, serialize v)) as [Hb'|[= -> ->]]
      by (clear -Hb; tauto).
    + destruct (K2 s b Hb') as (v' & -> & Hv' & Hr & Hsl). exists v'. split; [done|]. split; [done|]. split; [lia|].
      destruct Hsl as [Hsl|]; [left|by right]. rewrite Hs, decide_False; [done|]. intros ->. congruence.
    + exists v. split; [done|]. split; [done|]. split; [lia|]. left. by rewrite Hs, decide_True.
  - intros s Hl. destruct (K3 s Hl) as (? & Hno & Hp'). split; [lia|]. split.
    + intros v'. rewrite Hs. case_decide; [|done]. intros [= <-]. lia.
    + intros b. rewrite Hp. intros [?|[= -> _]]; [by eapply Hp'|lia].
  - intros s v' s' Hl Hb. rewrite Hs, Hp. case_decide as Hd.
    + subst v'. intros [= <-]. by right.
    + intros Hs'. left. by apply (K4 s v' s').
  - done.
Qed.

Lemma typed_insert_ok v rows t st :
  typed_ok t st → value_ok v → Forall u128 rows →
  ∃ t', typed_insert_many v rows t = Some t' ∧ typed_ok t' st ∧ next_slot t.1 ≤ next_slot t'.1 ∧
    ∀ w row, u128 row → has_row t'.1 w row = bool_decide (w = v ∧ row ∈ rows) || has_row t.1 w row.
Proof using All.
  destruct t as [f k]. intros Ht Hv Hrows. pose proof Ht as [T1 T2 (ks & T3 & T4 & T5 & T6) T7 T8]. cbn [fst snd] in *.
  destruct (insert_many_spec v rows f T1 Hrows) as (Hw & Hev & Hrow). unfold typed_insert_many, has_store. rewrite T3.
  destruct (decide (rows = [])) as [->|Hne].
  { change (insert_many v [] f) with f in *. rewrite Z.eqb_refl. exists (f, k). split; [done|]. split; [done|]. split; [cbn; lia|done]. }
  destruct (insert_many_slots v rows f T1 Hrows Hne) as (slot & Hslot & Hs & Hcase). set (f' := insert_many v rows f) in *.
  destruct Hcase as [[Hold Hn]|(Hnone & -> & Hn)].
  - rewrite Hn, Z.eqb_refl. exists (f', k). split; [done|]. split; [|split; [cbn; lia|done]].
    apply (typed_ok_slots f); [done|done|done|]. intros w. rewrite Hs. case_decide; [by subst|done].
  - rewrite Hn. rewrite (proj2 (Z.eqb_neq _ _)) by lia. cbn [negb andb]. unfold slot_id_for. rewrite Hslot. cbn [mbind option_bind].
    exists (f', push_pending (next_slot f, serialize v) k). split; [done|]. split; [|split; [cbn; lia|done]].
    split; cbn [fst snd push_pending km_store km_in_flight km_free_next km_pending]; [done| | | |done].
    + by rewrite (ev_bitmaps _ _ Hev).
    + exists ks. split; [done|]. split; [done|]. split; [|done]. apply (keymap_ok_new f); [apply T1|done..].
    + intros s Hst. destruct (T7 s Hst) as (U1 & U2 & U3). split; [|split; [done|]].
      * apply (stage_ok_evolves f); [apply T1|intros x; by apply evolves_slot|done].
      * intros x b [Hin|Hin]%elem_of_app; [by apply (U3 x b)|]. apply list_elem_of_singleton in Hin as [= -> ->]. intros Hr.
        pose proof (removal_slots f _ (iw_core _ (fw_index _ T1)) U1 _ Hr). lia.
Qed.

Lemma typed_remove_ok v row t st :
  typed_ok t st → u128 row →
  typed_ok (typed_remove v row t) st ∧ next_slot t.1 ≤ next_slot (typed_remove v row t).1 ∧
  ∀ w r, u128 r → has_row (typed_remove v row t).1 w r = has_row t.1 w r && negb (bool_decide (w = v ∧ r = row)).
Proof using All.
  destruct t as [f k]. intros Ht Hrow. destruct (remove_spec v row f (to_field _ _ Ht) Hrow) as (Hw & Hev & Hs & Hr).
  split; [by apply (typed_ok_slots f)|]. split; [apply Hev|done].
Qed.

Lemma typed_remove_all_ok rows t st :
  typed_ok t st → Forall u128 rows →
  typed_ok (typed_remove_all rows t) st ∧ next_slot t.1 ≤ next_slot (typed_remove_all rows t).1 ∧
  ∀ w r, u128 r → has_row (typed_remove_all rows t).1 w r = has_row t.1 w r && negb (bool_decide (r ∈ rows)).
Proof using All.
  destruct t as [f k]. intros Ht Hrows. destruct (remove_all_spec rows f (to_field _ _ Ht) Hrows) as (Hw & Hev & Hs & Hr & _).
  split; [by apply (typed_ok_slots f)|]. split; [apply Hev|done].
Qed.

(** ** Spills *)

Lemma dyn_stage_ok t t' s :
  typed_ok t None → dyn_stage t = Some (t', s) →
  typed_ok t' (Some s) ∧ next_slot t'.1 = next_slot t.1 ∧ (∀ v row, has_row t'.1 v row = has_row t.1 v row) ∧
  km_pending t'.2 = [] ∧ fresh t'.1 (ds_field s) ∧
  (corrupted t'.1 = false → ∀ x, is_Some (overlay t'.1 !! x) → x ∈ (sd_slot <$> st_sets (ds_field s)) ++ (st_removals (ds_field s)).*1).
Proof using All.
  destruct t as [f k]. intros [T1 T2 (ks & T3 & T4 & T5 & _) _ T8] Hs. cbn [fst snd] in *. unfold dyn_stage in Hs. rewrite T3 in Hs.
  apply bind_Some in Hs as ([f1 field] & Hst & Hs). apply bind_Some in Hs as ([store sets] & Hk & Hs).
  apply bind_Some in Hk as ([ks1 sets1] & Ha & Hk). apply (inj Some), pair_equal_spec in Hk as [<- <-].
  apply (inj Some), pair_equal_spec in Hs as [<- <-].
  destruct (stage_spec _ f f1 field T1 (map_order_elements _) Hst) as (Hw & Hok & Hfr & Hsi & Hrow & Hall).
  destruct (append_pending_spec _ ks ks1 sets1 T4 Ha) as (A1 & A2 & A3 & _).
  assert (∀ v, slot_of f1 v = slot_of f v) as Hslot by (intros v; unfold slot_of; by rewrite (si_ordering _ _ Hsi), (si_emptied _ _ Hsi)).
  split; [|split; [apply (si_next_slot _ _ Hsi)|split; [done|split; [done|split; [done|done]]]]].
  split; cbn [fst snd km_store km_pending km_free_next km_in_flight]; [done|by eapply stage_filed| | |done].
  - exists ks1. split; [done|]. split; [done|]. split; [|by intros s [= <-]].
    apply (keymap_ok_slots f); [|done|rewrite (si_next_slot _ _ Hsi); lia].
    destruct T5 as [K1 K2 K3 K4 K5]. unfold pending, leaving in *. cbn [app] in *.
    split; unfold pending, leaving; cbn [ds_keymap_pending ds_keymap_removals km_pending km_free_next]; rewrite ?app_nil_r, ?A2; done.
  - intros s [= <-]. cbn [ds_field]. split; [done|]. split; [done|]. intros slot b Hin. by apply elem_of_nil in Hin.
Qed.

Lemma dyn_abort_ok t s : typed_ok t (Some s) → typed_ok (dyn_abort s t) None.
Proof using.
  destruct t as [f k]. intros [T1 T2 (ks & T3 & T4 & T5 & T6) T7 T8]. cbn [fst snd] in *. unfold dyn_abort.
  split; cbn [fst snd km_store km_in_flight]; [done|done| |done|done].
  exists ks. split; [done|]. split; [done|]. split; [|done]. by destruct T5 as [K1 K2 K3 K4 K5]; split.
Qed.

Lemma keymap_ok_commit f f' k k' s ks ks' freed :
  index_wf f → keymap_ok f k (Some s) ks → km_free_next k = [] → km_pending k' = km_pending k → km_free_next k' = freed →
  next_slot f' = next_slot f → Forall (released f') freed →
  (∀ v x, slot_of f v = Some x → slot_of f' v = Some x ∨ x ∈ freed) → (∀ v x, slot_of f' v = Some x → slot_of f v = Some x) →
  (∀ x, x ∈ freed → (∀ b, (x, b) ∉ km_pending k) ∧ ∃ v, slot_of f v = Some x) →
  (∀ x, blob_values ks' !! x =
    if decide (x ∈ ds_keymap_removals s) then None else put_all (ds_keymap_pending s) (blob_values ks) !! x) →
  keymap_ok f' k' None ks'.
Proof using All.
  intros Hf [K1 K2 K3 K4 K5] Hnil Hp' Hl' Hn Hrel Hgo Hback Hfreed Hv. unfold pending, leaving in *. rewrite Hnil, app_nil_r in *.
  set (P := ds_keymap_pending s) in *. set (R := ds_keymap_removals s) in *.
  assert (∀ x b, blob_values ks' !! x = Some b → x ∉ R ∧ ∃ v, b = serialize v ∧ value_ok v ∧ 0 ≤ x < next_slot f ∧ slot_of f v = Some x) as Hold.
  { intros x b. rewrite Hv. case_decide as Hx; [done|]. intros Hb. split; [done|]. destruct (K2 x b) as (v & ? & ? & ? & [?|?]); [|by exists v|done].
    destruct (put_all_lookup P _ x b Hb); [right; apply elem_of_app; by left|by left]. }
  assert (∀ x, x ∈ freed → ∀ v, slot_of f' v ≠ Some x) as Hgone.
  { intros x Hx. rewrite Forall_forall in Hrel. by apply Hrel. }
  split; unfold pending, leaving; rewrite ?Hp', ?Hl'; cbn [app].
  - intros v x Hs'. apply Hback in Hs' as Hs. destruct (K1 v x Hs) as [Hok Hin]. split; [done|].
    assert (x ∉ R) as Hx by (intros Hx; by destruct (K3 x Hx) as (_ & Hno & _); apply (Hno v)).
    assert ((blob_values ks !! x = Some (serialize v) ∨ (x, serialize v) ∈ P) ∨ (x, serialize v) ∈ km_pending k) as [Hin'|Hin']
      by (rewrite elem_of_app in Hin; clear -Hin; tauto); [left|by right].
    assert (is_Some (put_all P (blob_values ks) !! x)) as [b Hb].
    { destruct Hin' as [Hb|Hb]; [apply put_all_keeps; by eexists|by eapply put_all_in]. }
    assert (blob_values ks' !! x = Some b) as Hb' by (rewrite Hv, decide_False by done; done).
    destruct (Hold x b Hb') as (_ & v' & -> & _ & _ & Hs2). by rewrite Hb', (iw_inj _ Hf _ _ _ Hs Hs2).
  - intros x b Hb. rewrite Hn. destruct Hb as [Hb|Hb].
    + destruct (Hold x b Hb) as (_ & v & -> & Hok & Hr & Hs). exists v. split; [done|]. split; [done|]. split; [done|]. by apply Hgo.
    + destruct (K2 x b) as (v & -> & Hok & Hr & [Hs|Hs]); [right; apply elem_of_app; by right| |].
      * exists v. split; [done|]. split; [done|]. split; [done|]. by apply Hgo.
      * destruct (K3 x Hs) as (_ & _ & Hno). destruct (Hno (serialize v)). apply elem_of_app. by right.
  - intros x Hx. destruct (Hfreed x Hx) as (Hno & v & Hs). split; [rewrite Hn; by apply (iw_range _ Hf v)|]. split; [by apply Hgone|done].
  - intros x v x' Hx Hb Hs'. exfalso. apply Hback in Hs' as Hs. destruct (K1 v x' Hs) as [Hok _].
    destruct (Hold x _ Hb) as (_ & v' & He & Hok' & _ & Hs2). apply serialize_inj in He; [|done..]. subst v'.
    rewrite Hs in Hs2. injection Hs2 as ->. by apply (Hgone x Hx v).
  - intros x x' b _ _ Hb Hb'. destruct (Hold x b Hb) as (_ & v & -> & Hok & _ & Hs), (Hold x' _ Hb') as (_ & v' & He & Hok' & _ & Hs').
    apply serialize_inj in He; [|done..]. subst v'. congruence.
Qed.

Lemma dyn_commit_ok t t' s :
  typed_ok t (Some s) → next_slot t.1 ≤ 2 ^ 128 → dyn_commit s t = Some t' →
  typed_ok t' None ∧ next_slot t'.1 = next_slot t.1 ∧ (∀ v row, has_row t'.1 v row = has_row t.1 v row) ∧
  km_pending t'.2 = km_pending t.2 ∧ Forall (released t'.1) (km_free_next t'.2) ∧ corrupted t'.1 = corrupted t.1 ∧
  (fresh t.1 (ds_field s) → ∀ x, x ∈ (sd_slot <$> st_sets (ds_field s)) ++ (st_removals (ds_field s)).*1 → overlay t'.1 !! x = None) ∧
  (∀ x, x ∉ (sd_slot <$> st_sets (ds_field s)) ++ (st_removals (ds_field s)).*1 → overlay t'.1 !! x = overlay t.1 !! x).
Proof using All.
  destruct t as [f k]. intros [T1 T2 (ks & T3 & T4 & T5 & T6) T7 T8] Hu Hrun. cbn [fst snd] in *. destruct (T7 s eq_refl) as (U1 & U2 & U3).
  unfold dyn_commit in Hrun. apply bind_Some in Hrun as ([f1 freed] & Hc & Hrun). rewrite T3 in Hrun.
  apply bind_Some in Hrun as (ks1 & Hk & Hrun). apply (inj Some) in Hrun. subst t'. cbn [fst snd km_store km_pending km_free_next km_in_flight].
  destruct (commit_spec f _ f1 freed T1 U1 Hu Hc) as (Hw & Hrow & _ & Hcor & Hn & Hrel & Hgone & Hrest).
  destruct (commit_slots Directory f _ f1 freed T1 U1 Hu T2 Hc) as (Hb & Hgo & Hback & Hfreed).
  destruct (set_keymap_spec (ds_keymap_pending s) (ds_keymap_sets s) ks ks1 (T6 s eq_refl)) as [S1 S2]; [|done|done|].
  { apply Forall_forall. intros x Hx. apply list_elem_of_fmap in Hx as ([x' b] & -> & Hin). cbn [fst].
    destruct (ko_entry _ _ _ _ T5 x' b) as (_ & _ & _ & Hr & _); [right; unfold pending; apply elem_of_app; by left|]. unfold u128. lia. }
  destruct (remove_keys_spec Flat (ds_keymap_removals s) ks1 S1) as (R1 & _ & _ & R4). rewrite S2 in R4.
  split; [|split; [done|split; [done|split; [done|split; [by rewrite U2|split; [done|split; done]]]]]].
  split; cbn [fst snd km_store km_pending km_free_next km_in_flight]; [done|done| |done|done].
  eexists. split; [done|]. split; [exact R1|]. split; [|done].
  apply (keymap_ok_commit f f1 k _ s ks _ freed); try done.
  - apply T1.
  - cbn [km_free_next]. by rewrite U2.
  - intros x Hx. destruct (Hfreed x Hx) as [Hrm Hv]. split; [|done]. intros b Hin. by apply (U3 x b).
Qed.
End typed_index.
