(* ===== verification/DynReopen.v ===== *)
(** * DynReopen: closing a field index and opening its files

    [reconcile_at_open], [rebuild_ordering] and [open] of [src/minnal_db/src/index/field/value.rs]
    on the files of a spilled index: the keymap names exactly the slots that hold rows,
    the released slots it still names are forgotten, and every row is back. *)
From S2P Require Import Prelude Slices Words Bytes OrdMap HashTable ArrayMerge ArrayContainer Container ContainerStore Bitmap BitmapReads BitmapSets QueryLexer.
From S2P Require Import DirStorage BlobStore BlobStoreSpec BlobOpen OverlayBudget FieldIndex FieldChange FieldUpdates FieldSpill FieldCommit FieldReads.
From S2P Require Import FieldIndexSpec FieldReads DynFieldIndex DynIndexSpec.

Definition files_of (b : BlobStore) : Files := Some (key_data b, val_data b).

Section clean.
Context `{CrcLaws} `{RkyvLaws}.

Lemma clean_readable b : filed Directory b → store_clean b → blobs_readable b.
Proof using All.
  intros Hb Hc k s Hs. unfold blob_readable. rewrite (fl_layout _ _ Hb).
  destruct (Hc k (bread (val_data b) (s_offset s) (s_len s))) as (es & He & Hw & Hall).
  { unfold blob_values. by rewrite lookup_fmap, Hs. }
  exists es. split; [by rewrite He, decode_encode_dir|]. destruct Hw as (_ & Hwf & _). rewrite Forall_forall in Hall, Hwf |- *.
  intros e Hin. destruct (Hwf e Hin) as (_ & Ho & Hl), (Hall e Hin) as (_ & Hend & _). unfold u64 in *. lia.
Qed.

(** Losing entries keeps a store clean. *)
Lemma clean_sub b b' :
  blob_wf b → blob_wf b' → val_data b' = val_data b → write_pos b' = write_pos b →
  (∀ k blob, blob_values b' !! k = Some blob → blob_values b !! k = Some blob) → store_clean b → store_clean b' ∧ stable b b'.
Proof using All.
  intros Hb Hb' Hv Hp Hsub Hc. assert (stable b b') as Hst by (split; [lia|intros o l _ _ _; by apply value_slice_val]).
  split; [|done]. intros k blob Hk. destruct (Hc k blob (Hsub k blob Hk)) as (es & He & Hw & Hall). exists es. split; [done|]. split; [done|].
  by apply (entries_stable b b' es).
Qed.

Lemma stored_keys (b : BlobStore) x : blob_wf b → x ∈ keys b ↔ is_Some (blob_values b !! x).
Proof using All.
  intros Hb. unfold keys. rewrite list_elem_of_fmap. unfold blob_values. rewrite lookup_fmap, fmap_is_Some. split.
  - intros (s & -> & Hs). exists s. by apply live_in_map.
  - intros [s Hs]. apply elem_of_map_to_list in Hs. rewrite live_map in Hs by done. apply list_elem_of_fmap in Hs as (s' & [= -> ->] & Hs).
    by exists s'.
Qed.
End clean.

Section reopen.
Context {V : Type} `{OrderedLaws V} `{!EqDecision V} `{IndexTypeLaws V} `{Cpu} `{HeapCost} `{CrcLaws} `{RkyvLaws} `{HeapBytes} `{MapOrderLaws}.
Implicit Types (f : FieldIndex V) (k : Keymap) (st : option DynSpillStage) (t : Typed V).

(** ** A spilled index *)

Record flushed t : Prop := {
  fs_ok : typed_ok t None;
  fs_overlay : overlay t.1 = ∅;
  fs_pending : km_pending t.2 = [];
  fs_released : Forall (released t.1) (km_free_next t.2);
}.

Lemma spill_flushes io t t' :
  typed_ok t None → next_slot t.1 ≤ 2 ^ 128 → sync_values_ok io = true → dyn_spill io t = Some t' → corrupted t'.1 = false →
  flushed t' ∧ next_slot t'.1 = next_slot t.1 ∧ ∀ v row, has_row t'.1 v row = has_row t.1 v row.
Proof using All.
  intros Ht Hu Hio Hrun Hcor. unfold dyn_spill in Hrun. rewrite (to_flight _ _ Ht) in Hrun. cbn [bool_decide is_Some_dec] in Hrun.
  apply bind_Some in Hrun as ([t1 s] & Hs & Hrun). rewrite Hio in Hrun.
  destruct (dyn_stage_ok t t1 s Ht Hs) as (Ht1 & Hn1 & Hr1 & Hp1 & Hfr & Hall).
  destruct (dyn_commit_ok t1 t' s Ht1 ltac:(lia) Hrun) as (Ht2 & Hn2 & Hr2 & Hp2 & Hrel & Hc2 & Hgone & Hrest).
  split; [split; [done| |congruence|done]|split; [lia|intros v row; by rewrite Hr2]].
  apply map_eq. intros x. rewrite lookup_empty. destruct (decide (x ∈ (sd_slot <$> st_sets (ds_field s)) ++ (st_removals (ds_field s)).*1)) as [Hin|Hin].
  - by apply Hgone.
  - rewrite Hrest by done. apply eq_None_not_Some. intros Hx. apply Hin, Hall; [congruence|done].
Qed.

Lemma flushed_slot_of t v s : flushed t → slot_of t.1 v = Some s ↔ om_get v (ordering t.1) = Some s.
Proof using.
  intros Ht. split; [|apply ordering_slot_of]. unfold slot_of. destruct (om_get v (ordering t.1)); [done|]. intros Hs.
  destruct (iw_waiting _ (fw_index _ (to_field _ _ (fs_ok _ Ht))) v s Hs) as [ch Hch]. by rewrite (fs_overlay _ Ht), lookup_empty in Hch.
Qed.

(** ** Reconciliation *)

Lemma forget_fold (stored : gset Z) es : ∀ f ks, om_wf (ordering f) → filed Flat ks →
  let p := foldl (forget_missing stored) (f, ks) es in
  (∃ m, p.1 = set_ordering m f ∧ om_wf m ∧
    ∀ v s, om_get v m = Some s ↔ om_get v (ordering f) = Some s ∧ ∀ s', (v, s') ∈ es → s' ∈ stored) ∧
  filed Flat p.2 ∧
  ∀ s b, blob_values p.2 !! s = Some b ↔ blob_values ks !! s = Some b ∧ (s ∈ es.*2 → s ∈ stored).
Proof using All.
  induction es as [|[v0 s0] es IH]; intros f ks Hf Hks.
  { cbn [foldl fst snd]. split; [|split; [done|]].
    - exists (ordering f). split; [by destruct f|]. split; [done|]. intros v s. split; [|by intros []]. intros Hs. split; [done|].
      intros s' Hin. by apply elem_of_nil in Hin.
    - intros s b. split; [|by intros []]. intros Hb. split; [done|]. intros Hin. by apply elem_of_nil in Hin. }
  cbn [foldl]. unfold forget_missing at 2 4 6. cbn [fst snd]. case_decide as Hd.
  - destruct (IH f ks Hf Hks) as ((m & I1 & I2 & I3) & I4 & I5). split; [exists m; split; [done|split; [done|]]|split; [done|]].
    + intros v s. rewrite I3. split; intros [Hs Hall]; (split; [done|]); intros s' Hin; [|by apply Hall; right].
      apply elem_of_cons in Hin as [[= -> ->]|Hin]; [done|by apply Hall].
    + intros s b. rewrite I5. rewrite fmap_cons. cbn [snd]. split; intros [Hb Hall]; (split; [done|]); intros Hin; [|by apply Hall; right].
      apply elem_of_cons in Hin as [->|Hin]; [done|by apply Hall].
  - destruct (IH (forget_value v0 f) (remove_key s0 ks)) as ((m & I1 & I2 & I3) & I4 & I5);
      [by apply om_remove_wf|by apply filed_remove|]. split; [exists m; split; [done|split; [done|]]|split; [done|]].
    + intros v s. rewrite I3. cbn [forget_value set_ordering ordering]. rewrite om_get_remove by done. case_decide as Hv.
      * split; [by intros []|]. intros [_ Hall]. subst v. destruct Hd. apply Hall. left.
      * split; intros [Hs Hall]; (split; [done|]); intros s' Hin; [|by apply Hall; right].
        apply elem_of_cons in Hin as [[= -> ->]|Hin]; [done|by apply Hall].
    + intros s b. rewrite I5, remove_values by apply Hks. rewrite fmap_cons. cbn [snd]. rewrite lookup_delete_Some. split.
      * intros [[Hne Hb] Hall]. split; [done|]. intros Hin. apply elem_of_cons in Hin as [->|Hin]; [done|by apply Hall].
      * intros [Hb Hall]. split; [|intros Hin; apply Hall; by right]. split; [|done]. intros ->. apply Hd, Hall. left.
Qed.

Lemma orphans_fold slots : ∀ f,
  foldl drop_orphan f slots = set_bitmaps (foldl (λ b s, remove_key s b) (bitmaps f) slots) f.
Proof using.
  induction slots as [|s slots IH]; intros f; [by destruct f|]. cbn [foldl]. rewrite IH. done.
Qed.

Lemma max_fold ms : ∀ m x, x ∈ m :: ms → x ≤ foldl Z.max m ms.
Proof using.
  assert (∀ ms m, m ≤ foldl Z.max m ms) as Hm.
  { clear. induction ms as [|y ms IH]; intros m; [cbn; lia|]. cbn [foldl]. specialize (IH (Z.max m y)). lia. }
  induction ms as [|y ms IH]; intros m x Hx.
  - apply list_elem_of_singleton in Hx as ->. cbn. lia.
  - cbn [foldl]. apply elem_of_cons in Hx as [->|Hx]; [specialize (Hm ms (Z.max m y)); lia|].
    apply elem_of_cons in Hx as [->|Hx]; [specialize (Hm ms (Z.max m y)); lia|]. apply IH. by right.
Qed.

Lemma ordering_slots_iff f s : om_wf (ordering f) → s ∈ (ordering f).*2 ↔ ∃ v, om_get v (ordering f) = Some s.
Proof using All.
  intros Ho. rewrite list_elem_of_fmap. split.
  - intros ([v s'] & -> & Hin). exists v. by apply om_get_Some.
  - intros [v Hv]. exists (v, s). split; [done|]. by apply om_get_Some.
Qed.

(** What the reopened index is to the one that was closed. *)
Record reopens f f2 : Prop := {
  rp_ordering : om_wf (ordering f2);
  rp_slots v s : om_get v (ordering f2) = Some s ↔ om_get v (ordering f) = Some s;
  rp_empty : emptied f2 = [] ∧ overlay f2 = ∅ ∧ overlay_ver f2 = ∅;
  rp_bitmaps : filed Directory (bitmaps f2);
  rp_clean : store_clean (bitmaps f2);
  rp_stable : stable (bitmaps f) (bitmaps f2);
  rp_ref s : get_ref (bitmaps f2) s = if decide (s ∈ (ordering f).*2) then get_ref (bitmaps f) s else None;
  rp_next v s : om_get v (ordering f) = Some s → s < next_slot f2;
  rp_nonneg : 0 ≤ next_slot f2;
}.

Lemma reopens_wf t f2 :
  flushed t → reopens t.1 f2 → field_wf f2 ∧ (∀ v, slot_of f2 v = slot_of t.1 v) ∧ ∀ v row, has_row f2 v row = has_row t.1 v row.
Proof using All.
  intros Ht [R1 R2 (R3 & R4 & R5) R6 R7 R8 R9 R10 R11]. pose proof (to_field _ _ (fs_ok _ Ht)) as [Hf Hlive]. pose proof (iw_core _ Hf) as Hc.
  assert (core_wf f2) as Hc2.
  { split; [apply R6|done| | |]; rewrite ?R4, ?R5; intros slot; [intros ch; by rewrite lookup_empty|by rewrite !lookup_empty; split; intros [? ?]|intros v; by rewrite lookup_empty]. }
  assert (∀ v, om_get v (ordering f2) = om_get v (ordering t.1)) as Ho by (intros v; apply option_eq; intros s; apply R2).
  assert (∀ v, slot_of f2 v = slot_of t.1 v) as Hs.
  { intros v. apply option_eq. intros s. rewrite (flushed_slot_of t v s Ht), <-Ho. unfold slot_of. rewrite R3. by destruct (om_get v (ordering f2)). }
  assert (∀ s key, content f2 s key = if decide (s ∈ (ordering t.1).*2) then content t.1 s key else None) as Hcont.
  { intros s key. unfold content, overlay_at. rewrite R4, (fs_overlay _ Ht), lookup_empty. cbn [mbind option_bind].
    specialize (R9 s). case_decide as Hd; [apply (stored_at_stable (bitmaps t.1)); (done || apply Hc)|].
    unfold stored_at, load_stored, stored_entry. by rewrite R9. }
  assert (∀ s h l, holds f2 s h l → holds t.1 s h l ∧ ∃ v, om_get v (ordering t.1) = Some s) as Hh.
  { intros s h l [Hl Hm]. rewrite Hcont in Hm. case_decide as Hd; [|done]. split; [done|]. by apply ordering_slots_iff; [apply Hf|]. }
  split; [split|split; [done|]].
  - split; [done|done|rewrite R3; constructor|by rewrite R3| | |done| |by rewrite R3].
    + intros v v' s. rewrite !Hs. by apply (iw_inj _ Hf).
    + intros v s. rewrite Hs. intros Hv. split; [by apply (iw_range _ Hf v)|]. by apply (R10 v), flushed_slot_of.
    + intros s h l [_ [v Hv]]%Hh. exists v. by rewrite Ho.
  - intros v s Hv. rewrite Ho in Hv. destruct (Hlive v s Hv) as (h & l & Hl & Hm). exists h, l. split; [done|].
    rewrite Hcont, decide_True by (apply ordering_slots_iff; [apply Hf|by exists v]). done.
  - intros v row. unfold has_row. rewrite Ho. destruct (om_get v (ordering t.1)) as [s|] eqn:E; [|done].
    by rewrite Hcont, decide_True by (apply ordering_slots_iff; [apply Hf|by exists v]).
Qed.

(** The rebuilt order: the live values at their slots, and released slots. *)
Lemma rebuilt_slots t ks es m next :
  flushed t → keymap_ok t.1 t.2 None ks → es ≡ₚ map_to_list (blob_values ks) → rebuilt es m next →
  (∀ v s, om_get v m = Some s → om_get v (ordering t.1) = Some s ∨
    (s ∈ km_free_next t.2 ∧ blob_values ks !! s = Some (serialize v) ∧ value_ok v ∧ ∀ x, om_get v (ordering t.1) ≠ Some x)) ∧
  (∀ v s, om_get v (ordering t.1) = Some s → om_get v m = Some s ∧ blob_values ks !! s = Some (serialize v) ∧ value_ok v) ∧
  (∀ s b, blob_values ks !! s = Some b → s ∈ m.*2 ∧ 0 ≤ s < next).
Proof using All.
  intros Ht [K1 K2 K3 K4 K5] Hp [B1 B2 B3]. pose proof (fw_index _ (to_field _ _ (fs_ok _ Ht))) as Hf. pose proof (λ v s, flushed_slot_of t v s Ht) as Hso.
  assert (pending t.2 None = [] ∧ leaving t.2 None = km_free_next t.2) as [Hpend Hleav] by (unfold pending, leaving; by rewrite (fs_pending _ Ht)).
  rewrite Hpend, Hleav in *.
  assert (∀ s b, (s, b) ∈ es ↔ blob_values ks !! s = Some b) as Hes by (intros s b; by rewrite Hp, elem_of_map_to_list).
  assert (∀ v s, om_get v m = Some s → blob_values ks !! s = Some (serialize v) ∧ value_ok v ∧ (slot_of t.1 v = Some s ∨ s ∈ km_free_next t.2)) as Hfrom.
  { intros v s Hv. destruct (B2 v s Hv) as (b & Hin%Hes & Hd). destruct (K2 s b (or_introl Hin)) as (v' & -> & Hok & _ & Hs).
    rewrite deserialize_serialize in Hd by done. by injection Hd as ->. }
  assert (∀ s v, s ∈ km_free_next t.2 → blob_values ks !! s = Some (serialize v) → ∀ x, om_get v (ordering t.1) ≠ Some x) as Hagain.
  { intros s v Hs Hb x Hx%Hso. specialize (K4 s v x Hs Hb Hx). by apply elem_of_nil in K4. }
  assert (∀ v s, om_get v m = Some s → om_get v (ordering t.1) = Some s ∨
    (s ∈ km_free_next t.2 ∧ blob_values ks !! s = Some (serialize v) ∧ value_ok v ∧ ∀ x, om_get v (ordering t.1) ≠ Some x)) as H1'.
  { intros v s Hv. destruct (Hfrom v s Hv) as (Hb & Hok & [Hs|Hs]); [left; by apply Hso|right]. split; [done|]. split; [done|]. split; [done|]. by apply (Hagain s). }
  split; [done|]. split.
  - intros v s Hv. destruct (K1 v s (proj2 (Hso v s) Hv)) as [Hok [Hb|Hb]]; [|by apply elem_of_nil in Hb]. split; [|done].
    destruct (B3 s (serialize v) v) as [[s' Hs'] _]; [by apply Hes|by apply deserialize_serialize|]. rewrite Hs'. f_equal.
    destruct (H1' v s' Hs') as [Hx|(_ & _ & _ & Hno)]; [congruence|by apply Hno in Hv].
  - intros s b Hb. destruct (K2 s b (or_introl Hb)) as (v & -> & Hok & Hr & Hs).
    destruct (B3 s (serialize v) v) as [[s' Hs'] Hlt]; [by apply Hes|by apply deserialize_serialize|]. split; [|lia].
    assert (s' = s) as ->; [|apply list_elem_of_fmap; exists (v, s); split; [done|by apply om_get_Some]].
    destruct (Hfrom v s' Hs') as (Hb' & _ & Hs2), Hs as [Hs|Hs], Hs2 as [Hs2|Hs2].
    + congruence.
    + apply Hso in Hs. by apply (Hagain s' v) in Hs.
    + apply Hso in Hs2. by apply (Hagain s v) in Hs2.
    + by apply (K5 s' s (serialize v)).
Qed.

Lemma reconcile_spec t ks b1 ks1 es m next :
  flushed t → keymap_ok t.1 t.2 None ks →
  filed Directory b1 → blob_values b1 = blob_values (bitmaps t.1) → val_data b1 = val_data (bitmaps t.1) → write_pos b1 = write_pos (bitmaps t.1) →
  filed Flat ks1 → blob_values ks1 = blob_values ks → es ≡ₚ map_to_list (blob_values ks) → rebuilt es m next → (es = [] → next = 0) →
  let t2 := reconcile_at_open (from_parts m b1 next, with_parts (Some ks1)) in
  reopens t.1 t2.1 ∧ typed_ok t2 None ∧ km_damaged t2.2 = damaged_at_open b1 + damaged_at_open ks1.
Proof using All.
  intros Ht Hko Hb1 Hbv Hval Hpos Hks1 Hkv Hes Hrb Hnext t2. pose proof (rb_sorted _ _ _ Hrb) as Hm.
  pose proof (to_field _ _ (fs_ok _ Ht)) as [Hf Hlive]. pose proof (iw_core _ Hf) as Hc.
  destruct (rebuilt_slots t ks es m next Ht Hko Hes Hrb) as (S1 & S2 & S3).
  set (stored := list_to_set (keys b1) : gset Z). set (mapped := list_to_set m.*2 : gset Z).
  assert (∀ s, s ∈ stored ↔ is_Some (get_ref (bitmaps t.1) s)) as Hstored.
  { intros s. unfold stored. rewrite elem_of_list_to_set, stored_keys, Hbv by apply Hb1. by rewrite get_ref_values by apply Hc. }
  assert (∀ v s, om_get v (ordering t.1) = Some s → s ∈ stored) as Hlives.
  { intros v s Hv. apply Hstored. destruct (Hlive v s Hv) as (h & l & _ & Hh). apply not_eq_None_Some. intros Hn.
    unfold content, overlay_at in Hh. rewrite (fs_overlay _ Ht), lookup_empty in Hh. cbn [mbind option_bind] in Hh.
    unfold stored_at, load_stored, stored_entry in Hh. by rewrite Hn in Hh. }
  pose proof (fs_released _ Ht) as Hrel. rewrite Forall_forall in Hrel.
  destruct (forget_fold stored m (from_parts m b1 next) ks1 Hm Hks1) as ((m2 & F1 & F2 & F3) & F4 & F5).
  unfold t2, reconcile_at_open, mapped_values. cbn [with_parts km_store from_parts bitmaps ordering]. fold stored mapped.
  destruct (foldl (forget_missing stored) _ m) as [f1 ks2]. cbn [fst snd] in *. subst f1. cbn [from_parts ordering] in F3.
  rewrite orphans_fold. destruct (remove_keys_spec Directory (map_order (stored ∖ mapped)) b1 Hb1) as (D1 & D2 & D3 & D4).
  cbn [set_ordering bitmaps]. set (b2 := foldl _ b1 _) in *.
  assert (∀ v s, om_get v m2 = Some s ↔ om_get v (ordering t.1) = Some s) as Hslots.
  { intros v s. rewrite F3. split.
    - intros [Hv Hall]. destruct (S1 v s Hv) as [?|(Hs & _)]; [done|]. assert (s ∈ stored) as Hin by (apply Hall; by apply om_get_Some).
      apply Hstored in Hin. destruct (Hrel s Hs) as [Hn _]. by rewrite Hn in Hin; destruct Hin.
    - intros Hv. destruct (S2 v s Hv) as [Hv2 _]. split; [done|]. intros s' Hin. apply om_get_Some in Hin; [|done].
      rewrite Hv2 in Hin. injection Hin as <-. by apply (Hlives v). }
  assert (∀ s blob, blob_values b2 !! s = Some blob → blob_values (bitmaps t.1) !! s = Some blob) as Hsub.
  { intros s blob. rewrite D4, Hbv. by case_decide. }
  destruct (clean_sub (bitmaps t.1) b2 (cf_blob _ Hc) (fl_wf _ _ D1)) as [Hclean Hstable]; [by rewrite D2|by rewrite D3|done|apply Hc|].
  assert (∀ s, get_ref b2 s = if decide (s ∈ (ordering t.1).*2) then get_ref (bitmaps t.1) s else None) as Href.
  { intros s. rewrite !get_ref_values, D4, Hbv by (apply D1 || apply Hc).
    case_decide as Ho; rewrite map_order_elements in Ho; case_decide as Hl; try done.
    - apply ordering_slots_iff in Hl as [v Hv]; [|apply Hf]. destruct (S2 v s Hv) as [Hvm _].
      apply elem_of_elements, elem_of_difference in Ho as [_ []]. apply elem_of_list_to_set, list_elem_of_fmap. exists (v, s).
      split; [done|]. by apply om_get_Some.
    - apply eq_None_not_Some. intros Hs. rewrite <-get_ref_values in Hs by apply Hc. apply Hstored in Hs as Hin.
      assert (s ∈ mapped) as Hmap by (destruct (decide (s ∈ mapped)); [done|]; destruct Ho; apply elem_of_elements; set_solver).
      apply elem_of_list_to_set, list_elem_of_fmap in Hmap as ([v s'] & -> & Hvm). cbn [snd] in *. apply om_get_Some in Hvm; [|done].
      destruct (S1 v s' Hvm) as [Hv|(Hr & _)]; [apply Hl, ordering_slots_iff; [apply Hf|by exists v]|].
      destruct (Hrel s' Hr) as [Hn _]. rewrite Hn in Hs. by destruct Hs. }
  set (f3 := set_bitmaps b2 (set_ordering m2 (from_parts m b1 next))).
  set (f4 := match map_order stored with [] => f3 | x :: ms => raise_next_slot (foldl Z.max x ms + 1) f3 end).
  assert (ordering f4 = m2 ∧ bitmaps f4 = b2 ∧ emptied f4 = [] ∧ overlay f4 = ∅ ∧ overlay_ver f4 = ∅ ∧ next ≤ next_slot f4)
    as (E1 & E2 & E3 & E4 & E5 & E6) by (unfold f4; destruct (map_order stored); cbn; split_and!; (done || lia)).
  assert (0 ≤ next) as Hnn.
  { destruct es as [|[s b] es']; [by rewrite Hnext|]. destruct (S3 s b); [|lia]. apply elem_of_map_to_list. rewrite <-Hes. left. }
  assert (reopens t.1 f4) as Hre.
  { split; rewrite ?E1, ?E2, ?E3, ?E4, ?E5; try done.
    - intros v s Hv. destruct (S2 v s Hv) as (_ & Hb & _). destruct (S3 s _ Hb). lia.
    - lia. }
  split; [exact Hre|]. split; [|done].
  change (typed_ok (f4, mk_keymap (Some ks2) [] [] false (damaged_at_open b1 + damaged_at_open ks1)) None). destruct (reopens_wf t f4 Ht Hre) as (Hw & Hso & _).
  split; cbn [fst snd km_store km_pending km_free_next km_in_flight with_parts]; [done|by rewrite E2| |done|done].
  exists ks2. split; [done|]. split; [done|]. split; [|done].
  assert (∀ v s, slot_of f4 v = Some s ↔ om_get v (ordering t.1) = Some s) as Hso4 by (intros v s; by rewrite Hso, flushed_slot_of).
  split; unfold pending, leaving; cbn [km_pending km_free_next app].
  - intros v s Hv%Hso4. destruct (S2 v s Hv) as (Hvm & Hb & Hok). split; [done|]. left. apply F5. rewrite Hkv. split; [done|].
    intros _. by apply (Hlives v).
  - intros s b [Hb|Hb]; [|by apply elem_of_nil in Hb]. apply F5 in Hb as [Hb Hkeep]. rewrite Hkv in Hb.
    destruct (S3 s b Hb) as [Hin Hr]. specialize (Hkeep Hin).
    apply list_elem_of_fmap in Hin as ([v s'] & -> & Hvm). cbn [snd] in *. apply om_get_Some in Hvm; [|done].
    destruct (S1 v s' Hvm) as [Hv|(Hr2 & _)].
    + destruct (S2 v s' Hv) as (_ & Hb2 & Hok). exists v. rewrite Hb in Hb2. injection Hb2 as ->. split; [done|]. split; [done|].
      split; [lia|]. left. by apply Hso4.
    + apply Hstored in Hkeep. destruct (Hrel s' Hr2) as [Hn _]. rewrite Hn in Hkeep. by destruct Hkeep.
  - intros s Hs. by apply elem_of_nil in Hs.
  - intros s v s' Hs. by apply elem_of_nil in Hs.
  - intros s s' b Hs. by apply elem_of_nil in Hs.
Qed.

Lemma same_map_values b b' : blob_map b' = blob_map b → val_data b' = val_data b → blob_values b' = blob_values b.
Proof using. intros Hm Hv. unfold blob_values. by rewrite Hm, Hv. Qed.

Lemma reopen_ok t :
  flushed t → ∃ ks t2, km_store t.2 = Some ks ∧ typed_open (files_of (bitmaps t.1)) (files_of ks) = Some (Ok t2) ∧
    typed_ok t2 None ∧ (∀ v row, has_row t2.1 v row = has_row t.1 v row) ∧ km_damaged t2.2 = 0.
Proof using All.
  intros Ht. pose proof (fs_ok _ Ht) as Hok. destruct (to_store _ _ Hok) as (ks & Hks & Hfk & Hko & _).
  pose proof (iw_core _ (fw_index _ (to_field _ _ Hok))) as Hc.
  destruct (filed_open Directory (bitmaps t.1) (to_bitmaps _ _ Hok)) as (b1 & O1 & B1 & B2 & B3 & B4 & B5).
  { apply clean_readable; [apply Hok|apply Hc]. }
  destruct (filed_open Flat ks Hfk) as (ks1 & O2 & K1 & K2 & K3 & K4 & K5).
  { intros x s _. unfold blob_readable. by rewrite (fl_layout _ _ Hfk). }
  destruct (rebuild_spec (V := V) ks1 (fl_wf _ _ K1)) as (es & m & next & Hr & Hp & Hrb & Hn).
  rewrite (same_map_values ks ks1) in Hp by done. exists ks. eexists. split; [done|]. unfold typed_open, files_of. rewrite O1, O2, Hr.
  split; [done|].
  destruct (reconcile_spec t ks b1 ks1 es m next Ht Hko B1 (same_map_values _ _ B2 B3) B3 B4 K1 (same_map_values _ _ K2 K3) Hp Hrb Hn) as (R1 & R2 & R3).
  split; [exact R2|]. split; [by apply (reopens_wf t)|]. rewrite R3. lia.
Qed.

(** ** A new index *)

Lemma map_order_empty : map_order ∅ = [].
Proof using All. apply Permutation_nil. by rewrite map_order_elements, elements_empty. Qed.

Lemma fresh_open : ∃ t, typed_open (V := V) None None = Some (Ok t) ∧ typed_ok t None ∧ ∀ v row, has_row t.1 v row = false.
Proof using All.
  pose proof (filed_new Directory) as Hd. pose proof (filed_new Flat) as Hk.
  assert (∀ l, blob_values (create_with l) = ∅) as Hv.
  { intros l. unfold blob_values. destruct (new_store_wf (create_with l) l) as [_ ->]; [by right|]. apply fmap_empty. }
  assert (list_to_set (keys (create_with Directory)) = (∅ : gset Z)) as Hkeys.
  { apply set_eq. intros s. rewrite elem_of_list_to_set, stored_keys, Hv by apply Hd. rewrite lookup_empty. split; [by intros [? ?]|set_solver]. }
  eexists. split; [reflexivity|]. unfold reconcile_at_open. cbn [with_parts km_store from_parts bitmaps mapped_values ordering foldl fmap list_fmap list_to_set].
  rewrite Hkeys, difference_diag_L, map_order_empty. cbn [foldl].
  destruct (empty_index_wf (V := V) (create_with Directory) (fl_wf _ _ Hd)) as [[Hf _] Hr].
  { destruct (new_store_wf (create_with Directory) Directory) as [_ Hm]; [by right|done]. }
  split; [|done]. split; cbn [fst snd km_store km_pending km_free_next km_in_flight]; [done|done| |done|done].
  exists (create_with Flat). split; [done|]. split; [done|]. split; [|done].
  split; unfold pending, leaving; cbn [km_pending km_free_next app].
  - done.
  - intros s b. rewrite Hv, lookup_empty. by intros [?|Hin%elem_of_nil].
  - intros s Hs. by apply elem_of_nil in Hs.
  - intros s v s' Hs. by apply elem_of_nil in Hs.
  - intros s s' b Hs. by apply elem_of_nil in Hs.
Qed.

(** ** The machine *)

Inductive dyn_op :=
| DInsert (v : V) (rows : list Z)
| DRemove (v : V) (row : Z)
| DRemoveAll (rows : list Z)
| DStage
| DCommit
| DAbort
| DReopen.

Definition dyn_state : Type := Typed V * option DynSpillStage.

(** Spill, close and open; slot ids are 128 bits wide. *)
Definition close_open t : option (Typed V) :=
  if negb (next_slot t.1 <=? 2 ^ 128) then None
  else
    t ← dyn_spill (mk_io true 0) t;
    ks ← km_store t.2;
    if corrupted t.1 then None
    else match typed_open (files_of (bitmaps t.1)) (files_of ks) with Some (Ok t2) => Some t2 | _ => None end.

(** One step; [None] where it may not happen. *)
Definition dyn_exec (s : dyn_state) (op : dyn_op) : option dyn_state :=
  let '(t, st) := s in
  match op, st with
  | DInsert v rows, _ => t ← typed_insert_many v rows t; Some (t, st)
  | DRemove v row, _ => Some (typed_remove v row t, st)
  | DRemoveAll rows, _ => Some (typed_remove_all rows t, st)
  | DStage, None => '(t, s) ← dyn_stage t; Some (t, Some s)
  | DCommit, Some s => if next_slot t.1 <=? 2 ^ 128 then t ← dyn_commit s t; Some (t, None) else None
  | DAbort, Some s => Some (dyn_abort s t, None)
  | DReopen, None => t ← close_open t; Some (t, None)
  | _, _ => None
  end.
Fixpoint dyn_run (s : dyn_state) (ops : list dyn_op) : option dyn_state :=
  match ops with [] => Some s | op :: ops => s ← dyn_exec s op; dyn_run s ops end.

Definition op_ok (op : dyn_op) : Prop :=
  match op with
  | DInsert v rows => value_ok v ∧ Forall u128 rows
  | DRemove _ row => u128 row
  | DRemoveAll rows => Forall u128 rows
  | _ => True
  end.
Definition dyn_rows (R : V → Z → bool) (op : dyn_op) (v : V) (row : Z) : bool :=
  match op with
  | DInsert w rows => bool_decide (v = w ∧ row ∈ rows) || R v row
  | DRemove w r => R v row && negb (bool_decide (v = w ∧ row = r))
  | DRemoveAll rows => R v row && negb (bool_decide (row ∈ rows))
  | _ => R v row
  end.

Definition holds_rows (s : dyn_state) (R : V → Z → bool) : Prop :=
  typed_ok s.1 s.2 ∧ ∀ v row, u128 row → has_row s.1.1 v row = R v row.

Lemma close_open_ok t t2 : typed_ok t None → close_open t = Some t2 → typed_ok t2 None ∧ ∀ v row, has_row t2.1 v row = has_row t.1 v row.
Proof using All.
  intros Ht Hrun. unfold close_open in Hrun. destruct (Z.leb_spec (next_slot t.1) (2 ^ 128)) as [Hu|]; [|done]. cbn [negb] in Hrun.
  apply bind_Some in Hrun as (t1 & Hs & Hrun). apply bind_Some in Hrun as (ks & Hks & Hrun). destruct (corrupted t1.1) eqn:Hc; [done|].
  destruct (spill_flushes (mk_io true 0) t t1 Ht Hu eq_refl Hs Hc) as (Hfl & _ & Hr1).
  destruct (reopen_ok t1 Hfl) as (ks' & t2' & Hks' & Ho & Hok & Hr2 & _). rewrite Hks in Hks'. injection Hks' as <-. rewrite Ho in Hrun.
  injection Hrun as <-. split; [done|]. intros v row. by rewrite Hr2, Hr1.
Qed.

Lemma dyn_exec_ok s op s' R : holds_rows s R → op_ok op → dyn_exec s op = Some s' → holds_rows s' (dyn_rows R op).
Proof using All.
  destruct s as [t st]. intros [Ht HR] Hop Hs. cbn [fst snd] in *. destruct op as [v rows|v row|rows| | | |]; cbn [dyn_exec op_ok] in *.
  - destruct Hop as [Hv Hrows]. destruct (typed_insert_ok v rows t st Ht Hv Hrows) as (t' & Hi & Ht' & _ & Hr). rewrite Hi in Hs.
    injection Hs as <-. split; [done|]. intros w r Hu. cbn. by rewrite Hr, HR.
  - injection Hs as <-. destruct (typed_remove_ok v row t st Ht Hop) as (Ht' & _ & Hr). split; [done|]. intros w r Hu. cbn [fst]. by rewrite Hr, HR.
  - injection Hs as <-. destruct (typed_remove_all_ok rows t st Ht Hop) as (Ht' & _ & Hr). split; [done|]. intros w r Hu. cbn [fst]. by rewrite Hr, HR.
  - destruct st as [|]; [done|]. apply bind_Some in Hs as ([t' s] & Hs & [= <-]). destruct (dyn_stage_ok t t' s Ht Hs) as (Ht' & _ & Hr & _).
    split; [done|]. intros w r Hu. cbn [fst]. by rewrite Hr, HR.
  - destruct st as [s|]; [|done]. destruct (Z.leb_spec (next_slot t.1) (2 ^ 128)); [|done]. apply bind_Some in Hs as (t' & Hs & [= <-]).
    destruct (dyn_commit_ok t t' s Ht ltac:(done) Hs) as (Ht' & _ & Hr & _). split; [done|]. intros w r Hu. cbn [fst]. by rewrite Hr, HR.
  - destruct st as [s|]; [|done]. injection Hs as <-. split; [by apply dyn_abort_ok|]. destruct t as [f k]. intros w r Hu. by apply HR.
  - destruct st as [|]; [done|]. apply bind_Some in Hs as (t' & Hs & [= <-]). destruct (close_open_ok t t' Ht Hs) as [Ht' Hr].
    split; [done|]. intros w r Hu. cbn [fst]. by rewrite Hr, HR.
Qed.

Lemma dyn_run_ok ops : ∀ s s' R, holds_rows s R → Forall op_ok ops → dyn_run s ops = Some s' → holds_rows s' (foldl dyn_rows R ops).
Proof using All.
  induction ops as [|op ops IH]; intros s s' R Hs Hops Hrun; cbn [dyn_run] in Hrun; [by injection Hrun as <-|].
  apply Forall_cons in Hops as [Hop Hops]. apply bind_Some in Hrun as (s1 & H1' & Hrun). apply (IH s1); [|done..]. by apply (dyn_exec_ok s).
Qed.

(** C10: an index opened over no files, then written, spilled in two phases with writes in
    between, its spill committed or given up, closed and opened again, any number of
    times, holds exactly the rows its writes leave; and whenever a spill without an
    encoding failure has been synced, opening the files succeeds, finds nothing damaged
    and reads the same rows, although the keymap still names slots that are free. *)
Theorem index_survives_reopening t0 ops t st :
  typed_open (V := V) None None = Some (Ok t0) → Forall op_ok ops → dyn_run (t0, None) ops = Some (t, st) →
  (∀ v row, u128 row → has_row t.1 v row = foldl dyn_rows (λ _ _, false) ops v row) ∧
  ∀ io t1, st = None → next_slot t.1 ≤ 2 ^ 128 → sync_values_ok io = true → dyn_spill io t = Some t1 → corrupted t1.1 = false →
    ∃ ks t2, km_store t1.2 = Some ks ∧ typed_open (files_of (bitmaps t1.1)) (files_of ks) = Some (Ok t2) ∧ km_damaged t2.2 = 0 ∧
      ∀ v row, has_row t2.1 v row = has_row t.1 v row.
Proof using All.
  intros Ho Hops Hrun. destruct fresh_open as (t0' & Ho' & Hok & Hr). rewrite Ho in Ho'. injection Ho' as <-.
  destruct (dyn_run_ok ops (t0, None) (t, st) (λ _ _, false)) as [Ht HR]; [by split|done|done|]. cbn [fst snd] in *.
  split; [done|]. intros io t1 -> Hu Hio Hs Hc. destruct (spill_flushes io t t1 Ht Hu Hio Hs Hc) as (Hfl & _ & Hr1).
  destruct (reopen_ok t1 Hfl) as (ks & t2 & Hks & Hopen & _ & Hr2 & Hd). exists ks, t2. split; [done|]. split; [done|]. split; [done|].
  intros v row. by rewrite Hr2, Hr1.
Qed.
End reopen.

#[local] Existing Instance scalar_cpu.
#[local] Existing Instance flat_cost.
#[local] Existing Instance sum_crc.
#[local] Existing Instance sum_crc_laws.
#[local] Existing Instance byte_rkyv.
#[local] Existing Instance byte_rkyv_laws.
#[local] Existing Instance sample_heap_bytes.

#[local] Existing Instance elements_order.
#[local] Existing Instance elements_order_laws.

Definition reopen_ops : list (dyn_op (V := Z)) :=
  [DInsert 7 [1; 65540]; DInsert (-9) [5]; DStage; DInsert 8 [3]; DCommit; DRemove 7 1; DRemove (-9) 5; DReopen; DInsert (-9) [6]; DStage; DAbort; DReopen].

Lemma index_survives_reopening_witness :
  ∃ t0 t, typed_open (V := Z) None None = Some (Ok t0) ∧ dyn_run (t0, None) reopen_ops = Some (t, None) ∧
    ∀ v row, u128 row → has_row t.1 v row = foldl dyn_rows (λ _ _, false) reopen_ops v row.
Proof.
  destruct (fresh_open (V := Z)) as (t0 & Ho & _). exists t0.
  assert (match (match typed_open (V := Z) None None with Some (Ok t0) => dyn_run (t0, None) reopen_ops | _ => None end) with
    Some (t, None) => true | _ => false end = true) as Hrun by (vm_compute; reflexivity).
  rewrite Ho in Hrun. destruct (dyn_run (t0, None) reopen_ops) as [[t [st|]]|] eqn:E; [discriminate Hrun| |discriminate Hrun].
  exists t. split; [exact Ho|]. split; [reflexivity|]. refine (proj1 (index_survives_reopening t0 reopen_ops t None Ho _ E)).
  repeat constructor; cbn [op_ok value_ok]; try (apply (bool_decide_unpack _); vm_compute; exact I); cbv; lia || (split; lia).
Defined.
