(* ===== verification/QueryEval.v ===== *)
(** * QueryEval: validation and evaluation of queries

    [src/minnal_db/src/index/query/eval.rs].  The schema maps a field name to its id and
    [get_index] an id to the field's live index, read here at one moment (the source
    takes each index's read lock).  A query is validated as a whole, then evaluated;
    the bitmaps are those of the field indexes, whose corruption flags a read may raise
    without changing its result.  [None] is a panic. *)
From S2P Require Import Prelude Words Bytes OrdMap HashTable ArrayMerge Container ContainerStore Bitmap QueryLexer QueryParser.
From S2P Require Import DirStorage BlobStore OverlayBudget FieldIndex DynFieldIndex.

Abbreviation res A := (result A QueryError).

(** ** Coercions *)

Definition raw_type_name (v : RawValue) : string :=
  match v with VBool _ => "bool" | VInt _ => "integer" | VStr _ => "string" | VList _ => "list" end.

Definition coerce_bool (v : RawValue) (field : bytes) : res bool :=
  match v with VBool b => Ok b | _ => Err (TypeMismatch field "bool" (raw_type_name v)) end.
Definition coerce_int (v : RawValue) (field : bytes) : res Z :=
  match v with VInt n => Ok n | _ => Err (TypeMismatch field "integer" (raw_type_name v)) end.
Definition coerce_str (v : RawValue) (field : bytes) : res bytes :=
  match v with VStr s => Ok s | _ => Err (TypeMismatch field "string" (raw_type_name v)) end.

(** Collecting results: the first error wins. *)
Fixpoint coerce_all {A} (coerce : RawValue → bytes → res A) (items : list RawValue) (field : bytes) : res (list A) :=
  match items with
  | [] => Ok []
  | i :: items => result_bind (coerce i field) (λ a, result_bind (coerce_all coerce items field) (λ l, Ok (a :: l)))
  end.
Definition coerce_bool_list (v : RawValue) (field : bytes) : res (list bool) :=
  match v with
  | VList items => coerce_all coerce_bool items field
  | _ => Err (TypeMismatch field "bool list" (raw_type_name v))
  end.
Definition coerce_int_list (v : RawValue) (field : bytes) : res (list Z) :=
  match v with
  | VList items => coerce_all coerce_int items field
  | _ => Err (TypeMismatch field "integer list" (raw_type_name v))
  end.
Definition coerce_str_list (v : RawValue) (field : bytes) : res (list bytes) :=
  match v with
  | VList items => coerce_all coerce_str items field
  | _ => Err (TypeMismatch field "string list" (raw_type_name v))
  end.

(** ** Predicate builders *)

Definition op_text (op : Op) : string :=
  match op with OpEq => "=" | OpNe => "!=" | OpLt => "<" | OpLe => "<=" | OpGt => ">" | OpGe => ">=" | OpIn => "IN" end.

Definition build_bool_pred (op : Op) (v : bool) : res (Predicate bool) :=
  match op with OpEq => Ok (PEq v) | OpNe => Ok (PNe v) | _ => Err (UnsupportedOp (op_text op) "bool") end.
(** [IN] is handled before: reaching it panics. *)
Definition build_ord_pred {V} (op : Op) (v : V) : option (res (Predicate V)) :=
  match op with
  | OpEq => Some (Ok (PEq v))
  | OpNe => Some (Ok (PNe v))
  | OpLt => Some (Ok (PLt v))
  | OpLe => Some (Ok (PLe v))
  | OpGt => Some (Ok (PGt v))
  | OpGe => Some (Ok (PGe v))
  | OpIn => None
  end.
Definition build_int_pred : Op → Z → option (res (Predicate Z)) := build_ord_pred.
Definition build_str_pred : Op → bytes → option (res (Predicate bytes)) := build_ord_pred.

Definition build_bool_predicate (op : Op) (raw : RawValue) (field : bytes) : option (res (Predicate bool)) :=
  Some (if bool_decide (op = OpIn) then result_bind (coerce_bool_list raw field) (λ vs, Ok (PIn vs))
        else result_bind (coerce_bool raw field) (build_bool_pred op)).
Definition build_int_predicate (op : Op) (raw : RawValue) (field : bytes) : option (res (Predicate Z)) :=
  if bool_decide (op = OpIn) then Some (result_bind (coerce_int_list raw field) (λ vs, Ok (PIn vs)))
  else match coerce_int raw field with Ok v => build_int_pred op v | Err e => Some (Err e) end.
Definition build_str_predicate (op : Op) (raw : RawValue) (field : bytes) : option (res (Predicate bytes)) :=
  if bool_decide (op = OpIn) then Some (result_bind (coerce_str_list raw field) (λ vs, Ok (PIn vs)))
  else match coerce_str raw field with Ok v => build_str_pred op v | Err e => Some (Err e) end.

(** ** The database a query runs against *)

Definition SchemaMap : Type := gmap bytes Z.

Section eval.
Context `{Cpu} `{HeapCost} `{Crc} `{Rkyv} `{MapOrder}.
Variables (schema : SchemaMap) (get_index : Z → option DynFieldIndex).

(** The two look-ups every predicate starts with. *)
Definition field_index (field : bytes) : res DynFieldIndex :=
  match schema !! field with
  | None => Err (UnknownField field)
  | Some id => match get_index id with None => Err (InactiveField field) | Some idx => Ok idx end
  end.

(** ** Validation *)

Definition validate_predicate (field : bytes) (op : Op) (raw : RawValue) : option (res ()) :=
  match field_index field with
  | Err e => Some (Err e)
  | Ok idx =>
      match inner idx with
      | InBool _ => r ← build_bool_predicate op raw field; Some (result_bind r (λ _, Ok ()))
      | InInt _ => r ← build_int_predicate op raw field; Some (result_bind r (λ _, Ok ()))
      | InStr _ => r ← build_str_predicate op raw field; Some (result_bind r (λ _, Ok ()))
      end
  end.

Fixpoint validate (expr : RawExpr) : option (res ()) :=
  match expr with
  | EAnd l r | EOr l r =>
      v ← validate l;
      match v with Err e => Some (Err e) | Ok _ => validate r end
  | ENot e => validate e
  | EPredicate field op value => validate_predicate field op value
  end.

(** ** Evaluation *)

Fixpoint collect_field_ids (expr : RawExpr) (out : gset Z) : gset Z :=
  match expr with
  | EAnd l r | EOr l r => collect_field_ids r (collect_field_ids l out)
  | ENot e => collect_field_ids e out
  | EPredicate field _ _ => match schema !! field with Some id => {[id]} ∪ out | None => out end
  end.

Definition eval_typed {V} `{Ordered V} (f : FieldIndex V) (p : res (Predicate V)) : option (res HeapStore) :=
  match p with
  | Ok p => '(bm, _) ← evaluate f p; Some (Ok bm)
  | Err e => Some (Err e)
  end.
Definition eval_dyn (idx : DynFieldIndex) (field : bytes) (op : Op) (raw : RawValue) : option (res HeapStore) :=
  match inner idx with
  | InBool f => p ← build_bool_predicate op raw field; eval_typed f p
  | InInt f => p ← build_int_predicate op raw field; eval_typed f p
  | InStr f => p ← build_str_predicate op raw field; eval_typed f p
  end.
Definition eval_predicate (field : bytes) (op : Op) (raw : RawValue) : option (res HeapStore) :=
  match field_index field with
  | Err e => Some (Err e)
  | Ok idx => eval_dyn idx field op raw
  end.

(** The rows that have a value of one of the fields, met in the set's order. *)
Definition universe_of (ids : list Z) (universe : HeapStore) : HeapStore :=
  foldl (λ u id, match get_index id with Some idx => foldl bitmap_or u (for_each_bitmap idx) | None => u end) universe ids.

Fixpoint eval_expr (expr : RawExpr) : option (res HeapStore) :=
  match expr with
  | EAnd lhs rhs =>
      l ← eval_expr lhs;
      match l with
      | Err e => Some (Err e)
      | Ok l =>
          if bitmap_is_empty l then Some (Ok l)
          else r ← eval_expr rhs; Some (result_bind r (λ r, Ok (bitmap_and l r)))
      end
  | EOr lhs rhs =>
      l ← eval_expr lhs;
      match l with
      | Err e => Some (Err e)
      | Ok l => r ← eval_expr rhs; Some (result_bind r (λ r, Ok (bitmap_or l r)))
      end
  | ENot e =>
      inner_bm ← eval_expr e;
      match inner_bm with
      | Err e => Some (Err e)
      | Ok inner_bm => Some (Ok (bitmap_and_not (universe_of (map_order (collect_field_ids e ∅)) heap_new) inner_bm))
      end
  | EPredicate field op value => eval_predicate field op value
  end.

Definition evaluate_query (expr : RawExpr) : option (res HeapStore) :=
  v ← validate expr;
  match v with Err e => Some (Err e) | Ok _ => eval_expr expr end.

Definition parse_and_evaluate (input : bytes) : option (res HeapStore) :=
  p ← parse input;
  match p with Err e => Some (Err e) | Ok expr => evaluate_query expr end.
End eval.
