(* ===== verification/QuerySpec.v ===== *)
(** * QuerySpec: what a query means

    The meaning of the expressions of [src/minnal_db/src/index/query/]: the first error a
    query has, read off its leaves and the types of the fields ([first_error]), and the
    rows it selects ([matches]).  [evaluate_query] validates and evaluates to exactly
    these, over field indexes in any well-formed state. *)
From S2P Require Import Prelude Slices Words Bytes OrdMap HashTable ArrayMerge ArrayContainer Container ContainerStore Bitmap BitmapReads BitmapSets.
From S2P Require Import QueryLexer QueryParser DirStorage BlobStore BlobStoreSpec OverlayBudget FieldIndex FieldChange FieldUpdates.
From S2P Require Import FieldReads FieldIndexSpec DynFieldIndex QueryEval.

(** ** Values and operators *)

Definition raw_value (raw : RawValue) : option IndexValue :=
  match raw with VBool b => Some (IVBool b) | VInt n => Some (IVInt n) | VStr s => Some (IVStr s) | VList _ => None end.

(** The order within a type; booleans are not ordered by queries. *)
Definition value_cmp (v w : IndexValue) : option comparison :=
  match v, w with
  | IVInt a, IVInt b => Some (cmp a b)
  | IVStr a, IVStr b => Some (cmp a b)
  | _, _ => None
  end.

Definition value_matches (op : Op) (raw : RawValue) (v : IndexValue) : Prop :=
  match op with
  | OpIn => match raw with VList items => Some v ∈ raw_value <$> items | _ => False end
  | OpEq => raw_value raw = Some v
  | OpNe => ∃ w, raw_value raw = Some w ∧ v ≠ w
  | OpLt => ∃ w, raw_value raw = Some w ∧ value_cmp v w = Some Lt
  | OpLe => ∃ w, raw_value raw = Some w ∧ (value_cmp v w = Some Lt ∨ value_cmp v w = Some Eq)
  | OpGt => ∃ w, raw_value raw = Some w ∧ value_cmp v w = Some Gt
  | OpGe => ∃ w, raw_value raw = Some w ∧ (value_cmp v w = Some Gt ∨ value_cmp v w = Some Eq)
  end.

(** ** Types *)

Definition type_name (ty : IndexValueType) : string := match ty with TyBool => "bool" | TyInt => "integer" | TyStr => "string" end.
Definition has_type (ty : IndexValueType) (raw : RawValue) : bool :=
  match ty, raw with TyBool, VBool _ | TyInt, VInt _ | TyStr, VStr _ => true | _, _ => false end.
Definition supports (ty : IndexValueType) (op : Op) : bool :=
  match ty, op with TyBool, OpLt | TyBool, OpLe | TyBool, OpGt | TyBool, OpGe => false | _, _ => true end.

Fixpoint first_bad (ty : IndexValueType) (items : list RawValue) : option RawValue :=
  match items with [] => None | i :: items => if has_type ty i then first_bad ty items else Some i end.

Definition type_error (ty : IndexValueType) (field : bytes) (op : Op) (raw : RawValue) : option QueryError :=
  match op, raw with
  | OpIn, VList items => (λ i, TypeMismatch field (type_name ty) (raw_type_name i)) <$> first_bad ty items
  | OpIn, _ => Some (TypeMismatch field (type_name ty +:+ " list") (raw_type_name raw))
  | _, _ =>
      if negb (has_type ty raw) then Some (TypeMismatch field (type_name ty) (raw_type_name raw))
      else if supports ty op then None else Some (UnsupportedOp (op_text op) (type_name ty))
  end.

Section spec.
Context `{Cpu} `{HeapCost} `{CrcLaws} `{RkyvLaws} `{HeapBytes} `{MapOrderLaws}.
Variables (schema : SchemaMap) (get_index : Z → option DynFieldIndex).

(** The first error of a query, left to right. *)
Definition leaf_error (field : bytes) (op : Op) (raw : RawValue) : option QueryError :=
  match schema !! field with
  | None => Some (UnknownField field)
  | Some id =>
      match get_index id with
      | None => Some (InactiveField field)
      | Some d => type_error (value_type d) field op raw
      end
  end.
Fixpoint first_error (e : RawExpr) : option QueryError :=
  match e with
  | EAnd l r | EOr l r => match first_error l with Some err => Some err | None => first_error r end
  | ENot e => first_error e
  | EPredicate field op raw => leaf_error field op raw
  end.

Fixpoint fields_of (e : RawExpr) : list bytes :=
  match e with
  | EAnd l r | EOr l r => fields_of l ++ fields_of r
  | ENot e => fields_of e
  | EPredicate field _ _ => [field]
  end.

(** The row has the value in the field's index. *)
Definition index_holds (d : DynFieldIndex) (v : IndexValue) (row : Z) : Prop :=
  match inner d, v with
  | InBool f, IVBool b => has_row f b row = true
  | InInt f, IVInt n => has_row f n row = true
  | InStr f, IVStr s => has_row f s row = true
  | _, _ => False
  end.
Definition field_holds (field : bytes) (v : IndexValue) (row : Z) : Prop :=
  ∃ id d, schema !! field = Some id ∧ get_index id = Some d ∧ index_holds d v row.

Fixpoint matches (e : RawExpr) (row : Z) : Prop :=
  match e with
  | EAnd l r => matches l row ∧ matches r row
  | EOr l r => matches l row ∨ matches r row
  | ENot e => (∃ field v, field ∈ fields_of e ∧ field_holds field v row) ∧ ¬ matches e row
  | EPredicate field op raw => ∃ v, field_holds field v row ∧ value_matches op raw v
  end.

Definition dyn_wf (d : DynFieldIndex) : Prop :=
  match inner d with InBool f => field_wf f | InInt f => field_wf f | InStr f => field_wf f end.
Definition indexes_wf : Prop := ∀ id d, get_index id = Some d → dyn_wf d.

(** ** Building predicates *)

(** What a builder makes of a literal: a predicate with the operator's meaning, or the
    type error. *)
Definition builds {V} `{Ordered V} (inject : V → IndexValue) (ty : IndexValueType) (field : bytes) (op : Op) (raw : RawValue)
    (r : option (res (Predicate V))) : Prop :=
  match r with
  | Some (Ok p) => type_error ty field op raw = None ∧ evaluate_panics p = false ∧ ∀ v, satisfies p v ↔ value_matches op raw (inject v)
  | Some (Err e) => type_error ty field op raw = Some e
  | None => False
  end.

Definition coerces {V} (inject : V → IndexValue) (ty : IndexValueType) (coerce : RawValue → bytes → res V) : Prop :=
  ∀ raw field, match coerce raw field with
  | Ok v => has_type ty raw = true ∧ raw_value raw = Some (inject v)
  | Err e => has_type ty raw = false ∧ e = TypeMismatch field (type_name ty) (raw_type_name raw)
  end.

Lemma coerce_all_spec {V} (inject : V → IndexValue) ty coerce items field :
  coerces inject ty coerce →
  match coerce_all coerce items field with
  | Ok vs => first_bad ty items = None ∧ raw_value <$> items = (λ v, Some (inject v)) <$> vs
  | Err e => ∃ i, first_bad ty items = Some i ∧ e = TypeMismatch field (type_name ty) (raw_type_name i)
  end.
Proof using.
  intros Hc. induction items as [|i items IH]; [done|]. cbn [coerce_all first_bad]. specialize (Hc i field).
  destruct (coerce i field) as [v|e]; destruct Hc as [Ht Hv]; rewrite Ht; cbn [result_bind]; [|by exists i].
  destruct (coerce_all coerce items field) as [vs|e]; cbn [result_bind]; [|done]. destruct IH as [-> Hvs].
  split; [done|]. rewrite !fmap_cons. by rewrite Hvs, Hv.
Qed.

Lemma in_builds {V} `{Ordered V} (inject : V → IndexValue) `{!Inj (=) (=) inject} ty coerce field raw :
  coerces inject ty coerce →
  builds inject ty field OpIn raw (Some (result_bind
    (match raw with VList items => coerce_all coerce items field | _ => Err (TypeMismatch field (type_name ty +:+ " list") (raw_type_name raw)) end)
    (λ vs, Ok (PIn vs)))).
Proof using.
  intros Hc. unfold builds, type_error. destruct raw as [s|n|b|items]; cbn [result_bind]; try done.
  pose proof (coerce_all_spec inject ty coerce items field Hc) as Ha. destruct (coerce_all coerce items field) as [vs|e]; cbn [result_bind].
  - destruct Ha as [-> Hvs]. split; [done|]. split; [done|]. intros v. cbn [satisfies value_matches]. rewrite Hvs, list_elem_of_fmap.
    split; [by exists v|]. by intros (w & [= ->%(inj inject)] & ?).
  - by destruct Ha as (i & -> & ->).
Qed.

Lemma bool_coerces : coerces IVBool TyBool coerce_bool.
Proof using. by intros []. Qed.
Lemma int_coerces : coerces IVInt TyInt coerce_int.
Proof using. by intros []. Qed.
Lemma str_coerces : coerces IVStr TyStr coerce_str.
Proof using. by intros []. Qed.
#[local] Instance IVBool_inj : Inj (=) (=) IVBool.
Proof using. by intros ?? [= ->]. Qed.
#[local] Instance IVInt_inj : Inj (=) (=) IVInt.
Proof using. by intros ?? [= ->]. Qed.
#[local] Instance IVStr_inj : Inj (=) (=) IVStr.
Proof using. by intros ?? [= ->]. Qed.

Lemma bool_builds field op raw : builds IVBool TyBool field op raw (build_bool_predicate op raw field).
Proof using.
  unfold build_bool_predicate. case_bool_decide as Hop.
  - subst op. exact (in_builds IVBool TyBool coerce_bool field raw bool_coerces).
  - destruct op, raw as [s|n|b|items]; try done; cbn; split; try done; (split; [done|]); intros v; naive_solver.
Qed.

(** A scalar comparison in an ordered type. *)
Lemma scalar_builds {V} `{OrderedLaws V} (inject : V → IndexValue) `{!Inj (=) (=) inject} ty coerce field op raw :
  coerces inject ty coerce → ty ≠ TyBool → op ≠ OpIn →
  (∀ v w, value_cmp (inject v) (inject w) = Some (cmp v w)) →
  builds inject ty field op raw (match coerce raw field with Ok v => build_ord_pred op v | Err e => Some (Err e) end).
Proof using.
  intros Hc Hty Hop Hcmp. specialize (Hc raw field).
  assert (type_error ty field op raw = if negb (has_type ty raw) then Some (TypeMismatch field (type_name ty) (raw_type_name raw)) else None) as He.
  { unfold type_error. destruct op, raw; try done; destruct ty; done. }
  destruct (coerce raw field) as [w|e]; destruct Hc as [Ht Hv].
  2:{ cbn [builds]. by rewrite He, Ht, Hv. }
  unfold builds. destruct op; cbn [build_ord_pred]; try done; rewrite He, Ht; (split; [done|]); (split; [done|]);
    intros v; cbn [satisfies value_matches]; rewrite Hv.
  - split; [by intros ->|by intros [= ->%(inj inject)]].
  - split; [intros Hne; exists (inject w); split; [done|by intros ?%(inj inject)]|intros (x & [= <-] & Hne) ->; done].
  - split; [intros Hlt; exists (inject w); by rewrite Hcmp, Hlt|intros (x & [= <-] & Hlt); rewrite Hcmp in Hlt; by injection Hlt].
  - split; [intros Hlt; exists (inject w); rewrite Hcmp; split; [done|]; destruct (cmp v w); naive_solver|].
    intros (x & [= <-] & Hlt). rewrite Hcmp in Hlt. destruct Hlt as [[= ->]|[= ->]]; done.
  - rewrite <-cmp_gt. split; [intros Hlt; exists (inject w); by rewrite Hcmp, Hlt|intros (x & [= <-] & Hlt); rewrite Hcmp in Hlt; by injection Hlt].
  - assert (cmp w v ≠ Gt ↔ cmp v w ≠ Lt) as -> by (by rewrite cmp_gt).
    split; [intros Hlt; exists (inject w); rewrite Hcmp; split; [done|]; destruct (cmp v w); naive_solver|].
    intros (x & [= <-] & Hlt). rewrite Hcmp in Hlt. destruct Hlt as [[= ->]|[= ->]]; done.
Qed.

Lemma int_builds field op raw : builds IVInt TyInt field op raw (build_int_predicate op raw field).
Proof using.
  unfold build_int_predicate. case_bool_decide as Hop.
  - subst op. exact (in_builds IVInt TyInt coerce_int field raw int_coerces).
  - by apply (scalar_builds IVInt TyInt coerce_int field op raw int_coerces).
Qed.
Lemma str_builds field op raw : builds IVStr TyStr field op raw (build_str_predicate op raw field).
Proof using.
  unfold build_str_predicate. case_bool_decide as Hop.
  - subst op. exact (in_builds IVStr TyStr coerce_str field raw str_coerces).
  - by apply (scalar_builds IVStr TyStr coerce_str field op raw str_coerces).
Qed.

(** ** Predicates on an index *)

Definition selected (P : Z → Prop) (bm : HeapStore) : Prop :=
  bitmap_wf bm ∧ ∀ row, u128 row → member bm row = true ↔ P row.

Lemma eval_typed_spec {V} `{OrderedLaws V} `{!EqDecision V} (inject : V → IndexValue) ty (f : FieldIndex V) field op raw b :
  field_wf f → builds inject ty field op raw b →
  match type_error ty field op raw with
  | Some err => (p ← b; eval_typed f p) = Some (Err err)
  | None => ∃ bm, (p ← b; eval_typed f p) = Some (Ok bm) ∧
      selected (λ row, ∃ v, has_row f v row = true ∧ value_matches op raw (inject v)) bm
  end.
Proof using All.
  intros Hf Hb. destruct b as [[p|e]|]; cbn [builds] in Hb; [|by rewrite Hb|done].
  destruct Hb as (-> & Hp & Hsat). pose proof (evaluate_spec f p Hf) as He. rewrite Hp in He.
  destruct He as (bm & He & Hw & _ & Hm). exists bm. cbn [mbind option_bind eval_typed]. rewrite He. split; [done|]. split; [done|].
  intros row Hrow. rewrite Hm by done. setoid_rewrite Hsat. naive_solver.
Qed.

Lemma eval_dyn_spec d field op raw :
  dyn_wf d →
  match type_error (value_type d) field op raw with
  | Some err => eval_dyn d field op raw = Some (Err err)
  | None => ∃ bm, eval_dyn d field op raw = Some (Ok bm) ∧ selected (λ row, ∃ v, index_holds d v row ∧ value_matches op raw v) bm
  end.
Proof using All.
  intros Hd. unfold dyn_wf, eval_dyn, value_type, index_holds in *. destruct (inner d) as [f|f|f].
  - pose proof (eval_typed_spec IVBool TyBool f field op raw _ Hd (bool_builds field op raw)) as He.
    destruct (type_error _ _ _ _); [done|]. destruct He as (bm & -> & Hw & Hm). exists bm. split; [done|]. split; [done|].
    intros row Hrow. rewrite Hm by done. split; [intros (v & Hv); by exists (IVBool v)|intros ([v|v|v] & Hv & Ho); naive_solver].
  - pose proof (eval_typed_spec IVInt TyInt f field op raw _ Hd (int_builds field op raw)) as He.
    destruct (type_error _ _ _ _); [done|]. destruct He as (bm & -> & Hw & Hm). exists bm. split; [done|]. split; [done|].
    intros row Hrow. rewrite Hm by done. split; [intros (v & Hv); by exists (IVInt v)|intros ([v|v|v] & Hv & Ho); naive_solver].
  - pose proof (eval_typed_spec IVStr TyStr f field op raw _ Hd (str_builds field op raw)) as He.
    destruct (type_error _ _ _ _); [done|]. destruct He as (bm & -> & Hw & Hm). exists bm. split; [done|]. split; [done|].
    intros row Hrow. rewrite Hm by done. split; [intros (v & Hv); by exists (IVStr v)|intros ([v|v|v] & Hv & Ho); naive_solver].
Qed.

Lemma eval_predicate_spec field op raw :
  indexes_wf →
  match leaf_error field op raw with
  | Some err => eval_predicate schema get_index field op raw = Some (Err err)
  | None => ∃ bm, eval_predicate schema get_index field op raw = Some (Ok bm) ∧ selected (matches (EPredicate field op raw)) bm
  end.
Proof using All.
  intros Hi. unfold leaf_error, eval_predicate, field_index. destruct (schema !! field) as [id|] eqn:Es; [|done].
  destruct (get_index id) as [d|] eqn:Ed; [|done]. pose proof (eval_dyn_spec d field op raw (Hi _ _ Ed)) as He.
  destruct (type_error _ _ _ _); [done|]. destruct He as (bm & -> & Hw & Hm). exists bm. split; [done|]. split; [done|].
  intros row Hrow. rewrite Hm by done. cbn [matches]. unfold field_holds. naive_solver.
Qed.

(** ** Validation *)

Lemma validate_typed {V} `{Ordered V} (inject : V → IndexValue) ty field op raw b :
  builds inject ty field op raw b →
  (r ← b; Some (result_bind r (λ _, Ok ()))) = Some (match type_error ty field op raw with Some err => Err err | None => Ok () end).
Proof using. destruct b as [[p|e]|]; cbn; [by intros (-> & _)|by intros ->|done]. Qed.

Lemma validate_spec e :
  validate schema get_index e = Some (match first_error e with Some err => Err err | None => Ok () end).
Proof using.
  induction e as [l IHl r IHr|l IHl r IHr|e IH|field op raw]; cbn [validate first_error].
  1,2: rewrite IHl; cbn [mbind option_bind]; by destruct (first_error l).
  - done.
  - unfold validate_predicate, field_index, leaf_error. destruct (schema !! field) as [id|]; [|done].
    destruct (get_index id) as [d|]; [|done]. unfold value_type. destruct (inner d) as [f|f|f].
    + apply (validate_typed IVBool), bool_builds.
    + apply (validate_typed IVInt), int_builds.
    + apply (validate_typed IVStr), str_builds.
Qed.

(** ** The rows of the fields of a query *)

Lemma for_each_bitmap_spec d :
  dyn_wf d →
  Forall (λ bm, bitmap_wf bm ∧ no_runs bm) (for_each_bitmap d) ∧
  ∀ row, (∃ bm, bm ∈ for_each_bitmap d ∧ member bm row = true) ↔ ∃ v, index_holds d v row.
Proof using All.
  assert (∀ V `{OrderedLaws V} `{!EqDecision V} (f : FieldIndex V), field_wf f →
    Forall (λ bm, bitmap_wf bm ∧ no_runs bm) (field_iter f).*2 ∧
    ∀ row, (∃ bm, bm ∈ (field_iter f).*2 ∧ member bm row = true) ↔ ∃ v, has_row f v row = true) as Hf.
  { intros V HO HL HE f [Hf _]. pose proof (iw_core _ Hf) as Hc. unfold field_iter. split.
    - rewrite !Forall_fmap. apply Forall_forall. intros [v s] _. cbn. destruct (load_bitmap_spec f s Hc) as (bm & -> & Hw & Hn & _). done.
    - intros row. setoid_rewrite list_elem_of_fmap. setoid_rewrite list_elem_of_fmap. split.
      + intros (bm & (p & -> & ([v s] & -> & Hin)) & Hm). cbn in Hm. destruct (load_bitmap_spec f s Hc) as (bm & Hb & _ & _ & Hbm).
        rewrite Hb in Hm. cbn in Hm. exists v. unfold has_row. apply om_get_Some in Hin; [|apply Hf]. by rewrite Hin, <-Hbm.
      + intros (v & Hr). unfold has_row in Hr. destruct (om_get v (ordering f)) as [s|] eqn:E; [|done].
        destruct (load_bitmap_spec f s Hc) as (bm & Hb & _ & _ & Hbm). exists bm. rewrite Hbm. split; [|done].
        exists (v, bm). split; [done|]. exists (v, s). cbn. rewrite Hb. split; [done|]. by apply om_get_Some; [apply Hf|]. }
  intros Hd. unfold dyn_wf, for_each_bitmap, index_holds in *. destruct (inner d) as [f|f|f];
    destruct (Hf _ _ _ _ f Hd) as [Hw Hm]; (split; [done|]); intros row; rewrite Hm; clear.
  - split; [intros [v Hv]; by exists (IVBool v)|intros [[v|v|v] Hv]; [by exists v|done..]].
  - split; [intros [v Hv]; by exists (IVInt v)|intros [[v|v|v] Hv]; [done|by exists v|done]].
  - split; [intros [v Hv]; by exists (IVStr v)|intros [[v|v|v] Hv]; [done..|by exists v]].
Qed.

Definition run_free (P : Z → Prop) (bm : HeapStore) : Prop := selected P bm ∧ no_runs bm.

Lemma or_all_spec bms : ∀ u P, Forall (λ bm, bitmap_wf bm ∧ no_runs bm) bms → run_free P u →
  run_free (λ row, P row ∨ ∃ bm, bm ∈ bms ∧ member bm row = true) (foldl bitmap_or u bms).
Proof using All.
  induction bms as [|bm bms IH]; intros u P Hb [[Hw Hm] Hn].
  { split; [split; [done|]|done]. intros row Hrow. cbn [foldl]. rewrite Hm by done. set_solver. }
  apply Forall_cons in Hb as [[Hbw Hbn] Hb]. cbn [foldl]. destruct (or_member u bm Hw Hbw) as [Hw' Hm'].
  destruct (IH (bitmap_or u bm) (λ row, P row ∨ member bm row = true) Hb) as [[I1 I2] I3].
  { split; [split; [done|]|by apply no_runs_or]. intros row Hrow. by rewrite Hm', orb_true_iff, Hm. }
  split; [split; [done|]|done]. intros row Hrow. rewrite I2 by done. setoid_rewrite elem_of_cons. naive_solver.
Qed.

Lemma universe_spec ids : indexes_wf → ∀ u P, run_free P u →
  run_free (λ row, P row ∨ ∃ id d v, id ∈ ids ∧ get_index id = Some d ∧ index_holds d v row) (universe_of get_index ids u).
Proof using All.
  intros Hi. unfold universe_of. induction ids as [|id ids IH]; intros u P Hu.
  { destruct Hu as [[Hw Hm] Hn]. split; [split; [done|]|done]. intros row Hrow. cbn [foldl]. rewrite Hm by done. set_solver. }
  cbn [foldl]. set (u' := match get_index id with Some _ => _ | None => _ end).
  assert (run_free (λ row, P row ∨ ∃ d v, get_index id = Some d ∧ index_holds d v row) u') as Hu'.
  { subst u'. destruct (get_index id) as [d|] eqn:Ed.
    - destruct (for_each_bitmap_spec d (Hi _ _ Ed)) as [Hw Hm]. destruct (or_all_spec _ u P Hw Hu) as [[U1 U2] U3].
      split; [split; [done|]|done]. intros row Hrow. rewrite U2, Hm by done. naive_solver.
    - destruct Hu as [[Hw Hm] Hn]. split; [split; [done|]|done]. intros row Hrow. rewrite Hm by done. naive_solver. }
  destruct (IH u' _ Hu') as [[I1 I2] I3]. split; [split; [done|]|done]. intros row Hrow. rewrite I2 by done.
  setoid_rewrite elem_of_cons. naive_solver.
Qed.

Lemma collect_field_ids_spec e : ∀ out id,
  id ∈ collect_field_ids schema e out ↔ id ∈ out ∨ ∃ field, field ∈ fields_of e ∧ schema !! field = Some id.
Proof using get_index.
  induction e as [l IHl r IHr|l IHl r IHr|e IH|field op raw]; intros out id; cbn [collect_field_ids fields_of].
  1,2: rewrite IHr, IHl; setoid_rewrite elem_of_app; naive_solver.
  - apply IH.
  - setoid_rewrite list_elem_of_singleton. destruct (schema !! field) as [i|] eqn:E; [rewrite elem_of_union, elem_of_singleton|]; naive_solver.
Qed.

(** ** Expressions *)

Lemma eval_expr_spec e :
  indexes_wf → first_error e = None → ∃ bm, eval_expr schema get_index e = Some (Ok bm) ∧ selected (matches e) bm.
Proof using All.
  intros Hi. induction e as [l IHl r IHr|l IHl r IHr|e IH|field op raw]; cbn [first_error eval_expr]; intros He.
  - destruct (first_error l); [done|]. destruct IHl as (bl & -> & Hlw & Hlm); [done|]. destruct IHr as (br & -> & Hrw & Hrm); [done|].
    cbn [mbind option_bind result_bind]. destruct (bitmap_is_empty bl) eqn:Eb.
    + exists bl. split; [done|]. split; [done|]. intros row Hrow. cbn [matches].
      assert (member bl row = false) as Hno; [|rewrite <-Hlm, Hno by done; naive_solver].
      rewrite bitmap_is_empty_values, bool_decide_eq_true in Eb by done. apply not_true_iff_false. intros Hin.
      assert (row ∈ bitmap_values bl) as Hv by (by apply elem_of_bitmap_values). rewrite Eb in Hv. set_solver.
    + destruct (and_member bl br Hlw Hrw) as [Hw Hm]. exists (bitmap_and bl br). split; [done|]. split; [done|].
      intros row Hrow. by rewrite Hm, andb_true_iff, Hlm, Hrm.
  - destruct (first_error l); [done|]. destruct IHl as (bl & -> & Hlw & Hlm); [done|]. destruct IHr as (br & -> & Hrw & Hrm); [done|].
    destruct (or_member bl br Hlw Hrw) as [Hw Hm]. exists (bitmap_or bl br). split; [done|]. split; [done|].
    intros row Hrow. by rewrite Hm, orb_true_iff, Hlm, Hrm.
  - destruct IH as (be & -> & Hew & Hem); [done|]. cbn [mbind option_bind]. set (ids := map_order _).
    destruct (universe_spec ids Hi heap_new (λ _, False)) as [[Huw Hum] Hun].
    { split; [split; [apply heap_new_bitmap_wf|]|apply heap_new_no_runs]. intros row _. by rewrite member_new. }
    set (u := universe_of get_index ids heap_new) in *. destruct (and_not_member u be Huw Hew) as [Hw Hm].
    exists (bitmap_and_not u be). split; [done|]. split; [done|]. intros row Hrow. rewrite Hm by done.
    assert (runs_meet u be row = false) as ->.
    { unfold runs_meet. change (store_entries u) with (hs_map u). destruct (hs_map u !! _) as [a|] eqn:Ea; [|done].
      apply Hun in Ea. destruct (store_entries be !! _); [|done]. by destruct a. }
    rewrite orb_false_r, andb_true_iff, negb_true_iff, <-not_true_iff_false, Hem, Hum by done. cbn [matches].
    assert (∀ id, id ∈ ids ↔ ∃ field, field ∈ fields_of e ∧ schema !! field = Some id) as Hids.
    { intros id. unfold ids. rewrite map_order_elements, elem_of_elements, collect_field_ids_spec. set_solver. }
    setoid_rewrite Hids. unfold field_holds. naive_solver.
  - pose proof (eval_predicate_spec field op raw Hi) as Hp. by rewrite He in Hp.
Qed.

(** C26: a query over well-formed indexes is answered, never panicking; it fails exactly
    when one of its predicates names no field, an inactive field, a literal of another
    type or an operator the type has not, whatever the data and however the connectives
    would short-circuit, and the error is that of the leftmost such predicate. *)
Theorem query_errors_correct e :
  indexes_wf →
  match first_error e with
  | Some err => evaluate_query schema get_index e = Some (Err err)
  | None => ∃ bm, evaluate_query schema get_index e = Some (Ok bm)
  end.
Proof using All.
  intros Hi. unfold evaluate_query. rewrite validate_spec. destruct (first_error e) as [err|] eqn:E; [done|].
  destruct (eval_expr_spec e Hi E) as (bm & -> & _). by exists bm.
Qed.

(** C6: the bitmap a query returns holds exactly the rows that match it: [AND], [OR] and
    the comparisons as written, [NOT] within the rows that have a value of one of the
    fields it negates over. *)
Theorem query_rows_correct e bm :
  indexes_wf → evaluate_query schema get_index e = Some (Ok bm) →
  bitmap_wf bm ∧ ∀ row, u128 row → bitmap_contains bm row = true ↔ matches e row.
Proof using All.
  intros Hi. unfold evaluate_query. rewrite validate_spec. destruct (first_error e) as [err|] eqn:E; [done|].
  destruct (eval_expr_spec e Hi E) as (bm' & -> & Hw & Hm). intros [= <-]. split; [done|]. intros row Hrow.
  by rewrite contains_member, Hm.
Qed.
End spec.

(** ** A concrete database *)

#[local] Existing Instance scalar_cpu.
#[local] Existing Instance flat_cost.
#[local] Existing Instance sum_crc.
#[local] Existing Instance sum_crc_laws.
#[local] Existing Instance byte_rkyv.
#[local] Existing Instance byte_rkyv_laws.
#[local] Existing Instance sample_heap_bytes.

#[local] Existing Instance elements_order.
#[local] Existing Instance elements_order_laws.

Definition sample_schema : SchemaMap := {[str "age" := 0]}.
Definition sample_get_index (id : Z) : option DynFieldIndex :=
  if id =? 0 then Some (mk_dyn (InInt sample_index) (with_parts None)) else None.
Lemma sample_indexes_wf : indexes_wf sample_get_index.
Proof. intros id d. unfold sample_get_index. destruct (id =? 0); intros [= <-]. exact sample_index_wf. Qed.

(** [age < 0 AND age = 'x']: an error although no row is below. *)
Definition sample_error : RawExpr := EAnd (EPredicate (str "age") OpLt (VInt 0)) (EPredicate (str "age") OpEq (VStr (str "x"))).
Lemma query_errors_correct_witness :
  evaluate_query sample_schema sample_get_index sample_error = Some (Err (TypeMismatch (str "age") "integer" "string")).
Proof. exact (query_errors_correct sample_schema sample_get_index sample_error sample_indexes_wf). Defined.

(** [NOT age = 7]: row 5 has the value 9 only, row 1 both. *)
Definition sample_not : RawExpr := ENot (EPredicate (str "age") OpEq (VInt 7)).
Lemma query_rows_correct_witness :
  ∃ bm, evaluate_query sample_schema sample_get_index sample_not = Some (Ok bm) ∧ bitmap_iter bm = [5] ∧
    bitmap_wf bm ∧ ∀ row, u128 row → bitmap_contains bm row = true ↔ matches sample_schema sample_get_index sample_not row.
Proof.
  assert (match evaluate_query sample_schema sample_get_index sample_not with Some (Ok bm) => bitmap_iter bm | _ => [] end = [5]) as He
    by (vm_compute; reflexivity).
  destruct (evaluate_query sample_schema sample_get_index sample_not) as [[bm|e]|] eqn:E; [|discriminate He..].
  exists bm. split; [reflexivity|]. split; [exact He|]. exact (query_rows_correct sample_schema sample_get_index sample_not bm sample_indexes_wf E).
Defined.
