(* ===== verification/CommitRounds.v ===== *)
(** * Commit rounds: concurrent callers share one fsync

    [CommitRounds] of db/commit_rounds.rs, with the round that SegmentedLog::commit of
    db/segmented_log.rs hands it.  A caller is a program counter; its steps are the
    stretches of [commit] between two releases of the state lock.  Beside the callers stand
    the log (the tail of what is written), the disk (what is on stable storage, and whether
    the kernel has dropped pages after a failed fsync) and the rotation of a segment, which
    may succeed, advancing the durable position, or fail, poisoning the rounds.  A failing
    fsync and the recording of its poison are one step. *)
From S2P Require Import Prelude.

(** ** The state *)

(** [State]. *)
Record State := mk_State { durable : Z; running : bool; waiting : Z }.

(** [CommitRounds]: the state and the reason of the first failure. *)
Record Rounds := mk_Rounds { state : State; poisoned : option string }.

(** Where a caller stands: about to append [len] bytes and commit them; at the loop's top;
    waiting for a round, notified or not; leading a round before its snapshot; syncing the
    file whose tail it took; holding the round's outcome; back from [commit]. *)
Inductive pc :=
| Idle (len : Z)
| Entering (end_ : Z)
| Asleep (end_ : Z)
| Woken (end_ : Z)
| Leads (end_ : Z) (others_waiting : bool)
| Syncing (end_ tail : Z)
| Covered (end_ : Z) (covered : result Z string)
| Returned (end_ : Z) (r : result bool string).

(** The callers, the rounds, the log's tail, what is on stable storage, and whether a
    failed fsync made the kernel drop pages. *)
Record World := mk_World {
  callers : list pc;
  rounds : Rounds;
  written : Z;
  stable : Z;
  dropped : bool;
}.

(** ** The operations *)

Definition new (durable : Z) : Rounds := mk_Rounds (mk_State durable false 0) None.

Definition set_durable (r : Rounds) (position : Z) : Rounds :=
  mk_Rounds (mk_State (Z.max (durable (state r)) position) (running (state r)) (waiting (state r))) (poisoned r).
Definition set_running (r : Rounds) (b : bool) : Rounds :=
  mk_Rounds (mk_State (durable (state r)) b (waiting (state r))) (poisoned r).
Definition add_waiting (r : Rounds) (n : Z) : Rounds :=
  mk_Rounds (mk_State (durable (state r)) (running (state r)) (waiting (state r) + n)) (poisoned r).

Definition advance (r : Rounds) (position : Z) : Rounds := set_durable r position.

Definition check_poisoned (r : Rounds) : result unit string :=
  match poisoned r with None => Ok () | Some why => Err why end.

(** [poisoned.lock().get_or_insert(why).clone()]. *)
Definition get_or_insert (r : Rounds) (why : string) : Rounds * string :=
  match poisoned r with
  | Some first => (r, first)
  | None => (mk_Rounds (state r) (Some why), why)
  end.

(** [round_done.notify_all()]. *)
Definition notify (p : pc) : pc := match p with Asleep e => Woken e | _ => p end.
Definition notify_all (cs : list pc) : list pc := notify <$> cs.

(** The loop of [commit] from its top to where it releases the lock or returns. *)
Definition loop_top (r : Rounds) (end_ : Z) : Rounds * pc :=
  match check_poisoned r with
  | Err why => (r, Returned end_ (Err why))
  | Ok _ =>
    if end_ <=? durable (state r) then (r, Returned end_ (Ok false))
    else if running (state r) then (add_waiting r 1, Asleep end_)
    else (set_running r true, Leads end_ (0 <? waiting (state r)))
  end.

(** [round().and_then(check_poisoned).map_err(get_or_insert)]. *)
Definition round_outcome (r : Rounds) (round : result Z string) : Rounds * result Z string :=
  match (let? position := round in let? _ := check_poisoned r in Ok position)%minnal with
  | Ok position => (r, Ok position)
  | Err why => let '(r, why) := get_or_insert r why in (r, Err why)
  end.

(** The end of a round, under the state lock: [running] is cleared, the waiting callers are
    notified (by the caller's step, below), the position is published. *)
Definition publish (r : Rounds) (end_ : Z) (covered : result Z string) : Rounds * pc :=
  let r := set_running r false in
  match covered with
  | Ok position =>
    let r := set_durable r position in
    if end_ <=? durable (state r) then (r, Returned end_ (Ok true)) else loop_top r end_
  | Err why => (r, Returned end_ (Err why))
  end.

(** ** Steps *)

Definition set_caller (w : World) (i : nat) (rp : Rounds * pc) : World :=
  mk_World (<[i := rp.2]> (callers w)) rp.1 (written w) (stable w) (dropped w).

(** A caller's next step; [fsync] is the operating system's answer to a sync it waits for
    ([None]: it succeeded). *)
Definition caller_next (w : World) (i : nat) (fsync : option string) : option World :=
  match callers w !! i with
  | Some (Idle len) =>
    let end_ := written w + len in
    Some (mk_World (<[i := Entering end_]> (callers w)) (rounds w) end_ (stable w) (dropped w))
  | Some (Entering e) => Some (set_caller w i (loop_top (rounds w) e))
  | Some (Asleep _) => None
  | Some (Woken e) => Some (set_caller w i (loop_top (add_waiting (rounds w) (-1)) e))
  | Some (Leads e _) => Some (set_caller w i (rounds w, Syncing e (written w)))
  | Some (Syncing e tail) =>
    match fsync with
    | None =>
      let '(r, covered) := round_outcome (rounds w) (Ok tail) in
      Some (mk_World (<[i := Covered e covered]> (callers w)) r (written w)
              (if dropped w then stable w else Z.max (stable w) tail) (dropped w))
    | Some why =>
      let '(r, covered) := round_outcome (rounds w) (Err why) in
      Some (mk_World (<[i := Covered e covered]> (callers w)) r (written w) (stable w) true)
    end
  | Some (Covered e covered) =>
    Some (set_caller (mk_World (notify_all (callers w)) (rounds w) (written w) (stable w) (dropped w))
            i (publish (rounds w) e covered))
  | Some (Returned _ _) => None
  | None => None
  end.

(** [poison]. *)
Definition poison (w : World) (why : string) : World :=
  let '(r, _) := get_or_insert (rounds w) why in
  mk_World (notify_all (callers w)) r (written w) (stable w) (dropped w).

(** A rotation's fsync of the segment it seals, whose answer is [fsync]: the rounds advance
    to the segment's end and the tail moves to the [next] segment, or the rounds are
    poisoned. *)
Definition rotate_next (w : World) (fsync : option string) (next : Z) : World :=
  match fsync with
  | None =>
    mk_World (callers w) (advance (rounds w) (written w)) (Z.max (written w) next)
      (if dropped w then stable w else Z.max (stable w) (written w)) (dropped w)
  | Some why => poison (mk_World (callers w) (rounds w) (written w) (stable w) true) why
  end.

(** What happens: a caller's step with the answer of its fsync, or a rotation. *)
Inductive event :=
| Caller (i : nat) (fsync : option string)
| Rotation (fsync : option string) (next : Z).

Definition next (w : World) (ev : event) : option World :=
  match ev with
  | Caller i fsync => caller_next w i fsync
  | Rotation fsync next => Some (rotate_next w fsync next)
  end.

Fixpoint run (w : World) (schedule : list event) : option World :=
  match schedule with
  | [] => Some w
  | ev :: rest => match next w ev with Some w => run w rest | None => None end
  end.

(** Callers that append the lengths [lens], on a log durable below [tail]. *)
Definition start (tail : Z) (lens : list Z) : World := mk_World (Idle <$> lens) (new tail) tail tail false.

(** A leader: the caller that set [running]. *)
Definition leads (p : pc) : bool :=
  match p with Leads _ _ | Syncing _ _ | Covered _ _ => true | _ => false end.
Definition waits (p : pc) : bool := match p with Asleep _ | Woken _ => true | _ => false end.
Definition returned (p : pc) : bool := match p with Returned _ _ => true | _ => false end.

(** ** Invariant *)

(** What holds of one caller, with the first failure's reason, the tail and what is stable. *)
Definition caller_ok (why : option string) (tail stable : Z) (p : pc) : Prop :=
  match p with
  | Idle len => 0 ≤ len
  | Entering e | Asleep e | Woken e | Leads e _ => e ≤ tail
  | Syncing e t => e ≤ t ≤ tail
  | Covered e (Ok position) => e ≤ position ≤ stable
  | Returned e (Ok _) => e ≤ stable
  | Covered _ (Err w) | Returned _ (Err w) => why = Some w
  end.

Definition tally (f : pc → nat) (cs : list pc) : nat := sum_list_with f cs.

Record world_ok (w : World) : Prop := {
  wo_callers : Forall (caller_ok (poisoned (rounds w)) (written w) (stable w)) (callers w);
  wo_trusted : poisoned (rounds w) = None → durable (state (rounds w)) ≤ stable w ∧ dropped w = false;
  wo_stable : stable w ≤ written w;
  wo_leader : tally (Nat.b2n ∘ leads) (callers w) = Nat.b2n (running (state (rounds w)));
  wo_waiting : waiting (state (rounds w)) = Z.of_nat (tally (Nat.b2n ∘ waits) (callers w));
  wo_awake : Forall (λ p, match p with Asleep _ => running (state (rounds w)) = true | _ => True end) (callers w);
}.

Lemma tally_insert f cs i p q : cs !! i = Some p → (tally f (<[i := q]> cs) + f p = tally f cs + f q)%nat.
Proof.
  revert i. induction cs as [|c cs IH]; intros [|i] Hi; simplify_eq/=; unfold tally in *; simpl; [lia|].
  specialize (IH i Hi). lia.
Qed.

Lemma tally_notify f cs : (∀ e, f (Woken e) = f (Asleep e)) → tally f (notify_all cs) = tally f cs.
Proof. intros Hf. induction cs as [|[] cs IH]; simpl; rewrite ?IH, ?Hf; done. Qed.

Lemma tally_lookup f cs i p : cs !! i = Some p → (f p ≤ tally f cs)%nat.
Proof. revert i. induction cs as [|c cs IH]; intros [|i] Hi; simplify_eq/=; unfold tally in *; simpl; [lia|]. specialize (IH i Hi). lia. Qed.

Lemma caller_ok_mono why why' tail tail' st st' p :
  (∀ r, why = Some r → why' = Some r) → tail ≤ tail' → st ≤ st' → caller_ok why tail st p → caller_ok why' tail' st' p.
Proof. intros Hw Ht Hs. destruct p as [| | | | | |e []|e []]; simpl; try lia; auto. Qed.

Lemma caller_ok_notify why tail st p : caller_ok why tail st p → caller_ok why tail st (notify p).
Proof. by destruct p. Qed.

Lemma notify_awake (P : Prop) cs : Forall (λ p, match p with Asleep _ => P | _ => True end) (notify_all cs).
Proof. apply Forall_fmap, Forall_true. by intros []. Qed.

Lemma awake_insert (b : bool) cs i q :
  Forall (λ p, match p with Asleep _ => b = true | _ => True end) cs →
  match q with Asleep _ => b = true | _ => True end →
  Forall (λ p, match p with Asleep _ => b = true | _ => True end) (<[i := q]> cs).
Proof. intros. by apply Forall_insert. Qed.

(** The loop's top, by a caller whose bytes are written: what becomes of the rounds. *)
Lemma loop_top_ok r e tail st r' q :
  loop_top r e = (r', q) → e ≤ tail → (poisoned r = None → durable (state r) ≤ st) →
  caller_ok (poisoned r') tail st q ∧ poisoned r' = poisoned r ∧ durable (state r') = durable (state r) ∧
  Nat.b2n (running (state r')) = (Nat.b2n (running (state r)) + Nat.b2n (leads q))%nat ∧
  waiting (state r') = waiting (state r) + Z.of_nat (Nat.b2n (waits q)) ∧
  (running (state r) = true → running (state r') = true) ∧
  match q with
  | Asleep _ => running (state r') = true
  | Returned _ _ | Leads _ _ => True
  | _ => False
  end.
Proof.
  unfold loop_top, check_poisoned. intros Hl He Hd.
  destruct (poisoned r) as [why|] eqn:Hp; simplify_eq/=; [rewrite Hp; repeat split; auto; lia|].
  destruct (Z.leb_spec e (durable (state r))); simplify_eq/=.
  - specialize (Hd eq_refl). rewrite Hp. repeat split; auto; lia.
  - destruct (running (state r)) eqn:Hr; simplify_eq/=; rewrite ?Hr, ?Hp; repeat split; auto; lia.
Qed.

Lemma leads_notify p : leads (notify p) = leads p.
Proof. by destruct p. Qed.
Lemma waits_notify p : waits (notify p) = waits p.
Proof. by destruct p. Qed.

(** One caller moves from [p] to [q], the others notified or not. *)
Lemma world_ok_set w i p q cs r' tail' st' dr' :
  world_ok w → callers w !! i = Some p →
  (cs = callers w ∧ (running (state (rounds w)) = true → running (state r') = true)) ∨ cs = notify_all (callers w) →
  (∀ why, poisoned (rounds w) = Some why → poisoned r' = Some why) →
  written w ≤ tail' → stable w ≤ st' ≤ tail' →
  caller_ok (poisoned r') tail' st' q →
  match q with Asleep _ => running (state r') = true | _ => True end →
  (poisoned r' = None → durable (state r') ≤ st' ∧ dr' = false) →
  (Nat.b2n (running (state r')) + Nat.b2n (leads p) = Nat.b2n (running (state (rounds w))) + Nat.b2n (leads q))%nat →
  waiting (state r') + Z.of_nat (Nat.b2n (waits p)) = waiting (state (rounds w)) + Z.of_nat (Nat.b2n (waits q)) →
  world_ok (mk_World (<[i := q]> cs) r' tail' st' dr').
Proof.
  intros [Hc Ht Hst Hl Hwt Ha] Hi Hcs Hwhy Htl Hs Hq Hqa Htr Hrun Hwait.
  assert (∃ p', cs !! i = Some p' ∧ leads p' = leads p ∧ waits p' = waits p) as (p' & Hi' & Hlp & Hwp).
  { destruct Hcs as [[-> _] | ->]; [by exists p|]. exists (notify p).
    unfold notify_all. rewrite list_lookup_fmap, Hi, leads_notify, waits_notify. done. }
  assert (Forall (caller_ok (poisoned r') tail' st') cs) as Hok.
  { assert (Forall (caller_ok (poisoned r') tail' st') (callers w)) as Hok.
    { eapply Forall_impl; [exact Hc|]. intros x Hx. eapply caller_ok_mono; [exact Hwhy|exact Htl|apply Hs|exact Hx]. }
    destruct Hcs as [[-> _] | ->]; [done|]. apply Forall_fmap. eapply Forall_impl; [exact Hok|]. intros x Hx. by apply caller_ok_notify. }
  split; simpl; [by apply Forall_insert|done|lia| | |].
  - pose proof (tally_insert (Nat.b2n ∘ leads) cs i p' q Hi') as Hti.
    assert (tally (Nat.b2n ∘ leads) cs = tally (Nat.b2n ∘ leads) (callers w)) as Hts.
    { destruct Hcs as [[-> _] | ->]; [done|by apply tally_notify]. }
    simpl in Hti. rewrite Hlp in Hti. lia.
  - pose proof (tally_insert (Nat.b2n ∘ waits) cs i p' q Hi') as Hti.
    assert (tally (Nat.b2n ∘ waits) cs = tally (Nat.b2n ∘ waits) (callers w)) as Hts.
    { destruct Hcs as [[-> _] | ->]; [done|by apply tally_notify]. }
    simpl in Hti. rewrite Hwp in Hti. lia.
  - apply awake_insert; [|done]. destruct Hcs as [[-> Hr] | ->]; [|apply notify_awake].
    eapply Forall_impl; [exact Ha|]. intros []; auto.
Qed.

Lemma get_or_insert_spec r why : ∃ first,
  get_or_insert r why = (mk_Rounds (state r) (Some first), first) ∧
  match poisoned r with Some old => first = old | None => first = why end.
Proof. unfold get_or_insert. destruct r as [s [old|]]; simpl; eauto. Qed.

Lemma round_outcome_spec r round r' covered : round_outcome r round = (r', covered) →
  state r' = state r ∧ (∀ why, poisoned r = Some why → poisoned r' = Some why) ∧
  match covered with
  | Ok position => round = Ok position ∧ poisoned r = None ∧ poisoned r' = None
  | Err why => poisoned r' = Some why
  end ∧ (is_ok round = false → is_ok covered = false).
Proof.
  unfold round_outcome, check_poisoned, get_or_insert, result_bind. destruct r as [s [old|]], round; intros ?; simplify_eq/=;
    repeat split; naive_solver.
Qed.

Lemma publish_ok r e covered tail st r' q :
  publish r e covered = (r', q) → caller_ok (poisoned r) tail st (Covered e covered) →
  (poisoned r = None → durable (state r) ≤ st) →
  running (state r) = true →
  returned q = true ∧ caller_ok (poisoned r) tail st q ∧ poisoned r' = poisoned r ∧ (poisoned r = None → durable (state r') ≤ st) ∧
  running (state r') = false ∧ waiting (state r') = waiting (state r).
Proof.
  unfold publish. intros Hp Hc Hd Hr. destruct covered as [position|why]; simplify_eq/=; [|by repeat split].
  destruct (Z.leb_spec e (Z.max (durable (state r)) position)); simplify_eq/=; [|lia].
  repeat split; auto; [lia|]. intros Hn. specialize (Hd Hn). lia.
Qed.

Lemma caller_of w i p : world_ok w → callers w !! i = Some p → caller_ok (poisoned (rounds w)) (written w) (stable w) p.
Proof. intros Hw Hi. exact (proj1 (Forall_lookup _ _) (wo_callers _ Hw) i p Hi). Qed.

Lemma leader_runs w i p : world_ok w → callers w !! i = Some p → leads p = true → running (state (rounds w)) = true.
Proof.
  intros Hw Hi Hl. pose proof (tally_lookup (Nat.b2n ∘ leads) _ _ _ Hi) as Ht.
  rewrite (wo_leader _ Hw) in Ht. simpl in Ht. rewrite Hl in Ht. destruct (running _); simpl in *; [done|lia].
Qed.

Lemma loop_top_step w i p r e r' q :
  world_ok w → callers w !! i = Some p → leads p = false → e ≤ written w →
  state r = mk_State (durable (state (rounds w))) (running (state (rounds w))) (waiting (state (rounds w)) - Z.of_nat (Nat.b2n (waits p))) →
  poisoned r = poisoned (rounds w) →
  loop_top r e = (r', q) → world_ok (set_caller w i (r', q)).
Proof.
  intros Hw Hi Hlp He Hs Hp Hl. pose proof (wo_trusted _ Hw) as Ht. pose proof (wo_stable _ Hw).
  destruct (loop_top_ok r e (written w) (stable w) r' q Hl He) as (Hq & Hp' & Hd & Hr & Hwt & Hmono & Hqs).
  { rewrite Hs, Hp. intros Hn. by destruct (Ht Hn). }
  rewrite Hs in *. simpl in *. rewrite Hp in *.
  unfold set_caller. simpl. eapply world_ok_set; [exact Hw|exact Hi|by left|..].
  - by rewrite Hp'.
  - lia.
  - lia.
  - done.
  - by destruct q.
  - rewrite Hp', Hd. done.
  - rewrite Hlp, Hr. simpl. lia.
  - lia.
Qed.

Lemma caller_next_ok w i fsync w' : world_ok w → caller_next w i fsync = Some w' → world_ok w'.
Proof.
  intros Hw. unfold caller_next. destruct (callers w !! i) as [p|] eqn:Hi; [|done].
  pose proof (caller_of _ _ _ Hw Hi) as Hp. pose proof (wo_stable _ Hw) as Hst. pose proof (wo_trusted _ Hw) as Ht.
  destruct p as [len|e|e|e|e ow|e tail|e covered|e r]; intros Hn; simplify_eq/=.
  - eapply world_ok_set; [exact Hw|exact Hi|by left|done|simpl; lia|simpl; lia|simpl; lia|done|done|done|done].
  - destruct (loop_top _ _) as [r' q] eqn:Hl. eapply (loop_top_step w i _ (rounds w) e); [done|exact Hi|done|done| |done|exact Hl].
    simpl. rewrite Z.sub_0_r. by destruct (state (rounds w)).
  - destruct (loop_top _ _) as [r' q] eqn:Hl. by eapply (loop_top_step w i _ (add_waiting (rounds w) (-1)) e); [done|exact Hi|done|done| | |exact Hl].
  - eapply world_ok_set; [exact Hw|exact Hi|by left|done|simpl; lia|simpl; lia|simpl; lia|done|done|done|done].
  - pose proof (leader_runs _ _ _ Hw Hi eq_refl) as Hr.
    destruct fsync as [why|].
    + destruct (round_outcome _ _) as [r' covered] eqn:Ho. simplify_eq/=.
      destruct (round_outcome_spec _ _ _ _ Ho) as (Hs & Hwhy & Hc & He). specialize (He eq_refl).
      destruct covered as [|why']; [done|].
      eapply world_ok_set; [exact Hw|exact Hi|left; by rewrite Hs|done|simpl; lia|simpl; lia|done|done|by rewrite Hc| | ];
        rewrite Hs; reflexivity.
    + destruct (round_outcome _ _) as [r' covered] eqn:Ho. simplify_eq/=.
      destruct (round_outcome_spec _ _ _ _ Ho) as (Hs & Hwhy & Hc & _).
      eapply world_ok_set; [exact Hw|exact Hi|left; by rewrite Hs|done|simpl; lia|simpl; destruct (dropped w); lia| |done| | | ].
      * destruct covered as [position|why']; simpl; [|done]. destruct Hc as (Hpos & Hn & _). simplify_eq.
        destruct (Ht Hn) as [_ ->]. lia.
      * intros Hn. assert (poisoned (rounds w) = None) as Hn'.
        { destruct (poisoned (rounds w)) eqn:Hq; [|done]. by rewrite (Hwhy _ eq_refl) in Hn. }
        destruct (Ht Hn') as [Hd Hdr]. rewrite Hs, Hdr. split; [lia|done].
      * rewrite Hs. destruct covered; reflexivity.
      * rewrite Hs. destruct covered; reflexivity.
  - pose proof (leader_runs _ _ _ Hw Hi eq_refl) as Hr.
    destruct (publish _ _ _) as [r' q] eqn:Hpub.
    destruct (publish_ok _ _ _ (written w) (stable w) _ _ Hpub Hp) as (Hq & Hqok & Hp' & Hd & Hr' & Hwt); [by intros; apply Ht|done|].
    unfold set_caller. simpl. destruct q; try done. eapply world_ok_set; [exact Hw|exact Hi|by right|..]; simpl.
    + by rewrite Hp'.
    + lia.
    + lia.
    + by rewrite Hp'.
    + done.
    + rewrite Hp'. intros Hn. split; [by apply Hd|by apply Ht].
    + rewrite Hr', Hr. done.
    + lia.
Qed.

(** What a rotation keeps: the callers' order and the reason of the first failure. *)
Lemma rotate_next_ok w fsync nx : world_ok w → world_ok (rotate_next w fsync nx).
Proof.
  intros [Hc Ht Hst Hl Hwt Ha]. unfold rotate_next, poison. destruct fsync as [why|]; simpl.
  - destruct (get_or_insert_spec (rounds w) why) as (first & -> & Hf). split; simpl; [| |done| | |apply notify_awake].
    + apply Forall_fmap. eapply Forall_impl; [exact Hc|]. intros p Hp. apply caller_ok_notify.
      eapply caller_ok_mono; [..|exact Hp]; [|done|done]. intros r. destruct (poisoned (rounds w)); naive_solver.
    + done.
    + rewrite tally_notify by done. exact Hl.
    + rewrite tally_notify by done. exact Hwt.
  - split; simpl; [|intros Hn; destruct (Ht Hn) as [? ->]; split; [lia|done]|destruct (dropped w); lia|exact Hl|exact Hwt|exact Ha].
    eapply Forall_impl; [exact Hc|]. intros p Hp. eapply caller_ok_mono; [..|exact Hp]; [done|lia|destruct (dropped w); lia].
Qed.

Lemma next_ok w ev w' : world_ok w → next w ev = Some w' → world_ok w'.
Proof. intros Hw. destruct ev; simpl; intros; simplify_eq; [by eapply caller_next_ok|by apply rotate_next_ok]. Qed.

Lemma run_ok w sched w' : world_ok w → run w sched = Some w' → world_ok w'.
Proof.
  revert w. induction sched as [|ev sched IH]; simpl; intros w Hw Hr; simplify_eq; [done|].
  destruct (next w ev) eqn:Hn; [|done]. eapply IH; [|exact Hr]. by eapply next_ok.
Qed.

Lemma start_ok tail lens : Forall (λ len, 0 ≤ len) lens → world_ok (start tail lens).
Proof.
  intros Hl. split; simpl; [by apply Forall_fmap|by split|done| | |].
  - clear Hl. by induction lens.
  - clear Hl. by induction lens.
  - by apply Forall_fmap, Forall_true.
Qed.

(** ** Poison is for good *)

(** What a caller that has not been told Ok may still hold. *)
Definition refused (p : pc) : Prop :=
  match p with Covered _ (Ok _) | Returned _ (Ok _) => False | _ => True end.

Lemma refused_notify p : refused p → refused (notify p).
Proof. by destruct p. Qed.

Lemma loop_top_poisoned r e why : poisoned r = Some why → loop_top r e = (r, Returned e (Err why)).
Proof. unfold loop_top, check_poisoned. by intros ->. Qed.

Lemma round_outcome_poisoned r round why : poisoned r = Some why → round_outcome r round = (r, Err why).
Proof. unfold round_outcome, check_poisoned, get_or_insert, result_bind. intros Hp. rewrite Hp. by destruct round; rewrite ?Hp. Qed.

Lemma lookup_notify_all cs (i : nat) p : cs !! i = Some p → notify_all cs !! i = Some (notify p).
Proof. intros Hi. unfold notify_all. by rewrite list_lookup_fmap, Hi. Qed.

Lemma poisoned_insert (cs : list pc) (i j : nat) p q :
  cs !! i = Some p → refused p → (∀ c, cs !! j = Some c → refused c → refused q) →
  ∃ p', <[j := q]> cs !! i = Some p' ∧ refused p'.
Proof.
  intros Hi Hp Hq. destruct (decide (i = j)) as [->|Hne].
  - exists q. split; [apply list_lookup_insert_eq; by eapply lookup_lt_Some|by eapply Hq].
  - exists p. by rewrite list_lookup_insert_ne.
Qed.

Lemma poisoned_next w ev w' why i p :
  next w ev = Some w' → poisoned (rounds w) = Some why → callers w !! i = Some p → refused p →
  poisoned (rounds w') = Some why ∧ ∃ p', callers w' !! i = Some p' ∧ refused p'.
Proof.
  intros Hn Hw Hi Hp. destruct ev as [j fsync|fsync nx]; simpl in Hn.
  - unfold caller_next in Hn. destruct (callers w !! j) as [c|] eqn:Hj; [|done].
    destruct c as [len|e|e|e|e ow|e tail|e covered|e r]; try discriminate Hn;
      rewrite ?(loop_top_poisoned _ _ why) in Hn by done.
    + simplify_eq/=. split; [done|]. (eapply poisoned_insert; [exact Hi|exact Hp|by intros]).
    + simplify_eq/=. split; [done|]. (eapply poisoned_insert; [exact Hi|exact Hp|by intros]).
    + simplify_eq/=. split; [done|]. (eapply poisoned_insert; [exact Hi|exact Hp|by intros]).
    + simplify_eq/=. split; [done|]. (eapply poisoned_insert; [exact Hi|exact Hp|by intros]).
    + destruct fsync; rewrite (round_outcome_poisoned _ _ why) in Hn by done; simplify_eq/=; (split; [done|]); (eapply poisoned_insert; [exact Hi|exact Hp|by intros]).
    + destruct (publish _ _ _) as [r' q] eqn:Hpub. simplify_eq/=.
      assert (poisoned r' = Some why) as Hr'.
      { unfold publish in Hpub. destruct covered; [|by simplify_eq]. case_match; [by simplify_eq|].
        rewrite (loop_top_poisoned _ _ why) in Hpub by done. by simplify_eq. }
      split; [done|]. eapply poisoned_insert; [by apply lookup_notify_all|by apply refused_notify|].
      intros c Hc Hrc. rewrite (lookup_notify_all _ _ _ Hj) in Hc. simplify_eq/=. destruct covered; [done|].
      unfold publish in Hpub. by simplify_eq.
  - destruct fsync; simplify_eq/=; [|split; [done|by exists p]].
    unfold poison, get_or_insert. simpl. rewrite Hw. simpl. split; [done|].
    exists (notify p). split; [by apply lookup_notify_all|by apply refused_notify].
Qed.

Lemma poisoned_run w sched w' why i p :
  run w sched = Some w' → poisoned (rounds w) = Some why → callers w !! i = Some p → refused p →
  poisoned (rounds w') = Some why ∧ ∃ p', callers w' !! i = Some p' ∧ refused p'.
Proof.
  revert w p. induction sched as [|ev sched IH]; simpl; intros w p Hr Hw Hi Hp; simplify_eq; [eauto|].
  destruct (next w ev) as [w1|] eqn:Hn; [|done].
  destruct (poisoned_next _ _ _ _ _ _ Hn Hw Hi Hp) as (Hw1 & p1 & Hi1 & Hp1). by eapply IH.
Qed.

(** ** Progress *)

(** What a caller has left to do, among [n] callers. *)
Definition work (n : nat) (p : pc) : nat :=
  match p with
  | Returned _ _ => 0
  | Covered _ _ => n + 1
  | Syncing _ _ => n + 2
  | Leads _ _ => n + 3
  | Asleep _ => n + 4
  | Woken _ | Entering _ => n + 5
  | Idle _ => n + 6
  end.

Definition total_work (w : World) : nat := tally (work (length (callers w))) (callers w).

Lemma tally_work_notify n cs : (tally (work n) (notify_all cs) ≤ tally (work n) cs + length cs)%nat.
Proof. unfold tally. induction cs as [|[] cs IH]; simpl in *; lia. Qed.

Lemma next_length w ev w' : next w ev = Some w' → length (callers w') = length (callers w).
Proof.
  destruct ev as [i fsync|fsync nx]; simpl; unfold caller_next, rotate_next, poison.
  - destruct (callers w !! i) as [[]|]; intros; repeat case_match; simplify_eq/=;
      unfold notify_all; by rewrite length_insert, ?length_fmap.
  - intros. repeat case_match; simplify_eq/=; unfold notify_all; by rewrite ?length_fmap.
Qed.

Lemma loop_top_work n r e r' q : loop_top r e = (r', q) → (work n q ≤ n + 4)%nat.
Proof. unfold loop_top. intros. repeat case_match; simplify_eq/=; lia. Qed.

(** Every step of a caller does some of the work. *)
Lemma caller_next_work w i fsync w' :
  world_ok w → caller_next w i fsync = Some w' → (total_work w' < total_work w)%nat.
Proof.
  intros Hw Hn. unfold total_work. rewrite (next_length w (Caller i fsync) w' Hn).
  set (n := length (callers w)).
  assert (∀ p q, callers w !! i = Some p → (work n q < work n p)%nat →
    (tally (work n) (<[i := q]> (callers w)) < tally (work n) (callers w))%nat) as Hset.
  { intros p q Hi Hlt. pose proof (tally_insert (work n) _ i p q Hi). lia. }
  unfold caller_next in Hn. destruct (callers w !! i) as [p|] eqn:Hi; [|done].
  pose proof (caller_of _ _ _ Hw Hi) as Hp.
  destruct p as [len|e|e|e|e ow|e tail|e covered|e r]; simplify_eq/=.
  - apply (Hset _ _ eq_refl). simpl. lia.
  - destruct (loop_top _ _) as [r' q] eqn:Hl. apply (Hset _ _ eq_refl). pose proof (loop_top_work n _ _ _ _ Hl). simpl. lia.
  - destruct (loop_top _ _) as [r' q] eqn:Hl. apply (Hset _ _ eq_refl). pose proof (loop_top_work n _ _ _ _ Hl). simpl. lia.
  - apply (Hset _ _ eq_refl). simpl. lia.
  - assert (∃ c, callers w' = <[i := Covered e c]> (callers w)) as [c ->].
    { repeat case_match; simplify_eq/=; eauto. }
    apply (Hset _ _ eq_refl). simpl. lia.
  - pose proof (leader_runs _ _ _ Hw Hi eq_refl) as Hr. destruct (publish _ _ _) as [r' q] eqn:Hpub.
    destruct (publish_ok _ _ _ (written w) (stable w) _ _ Hpub Hp) as (Hq & _); [by intros; apply (wo_trusted _ Hw)|done|].
    destruct q; try done. simpl.
    pose proof (tally_insert (work n) _ i _ (Returned end_ r) (lookup_notify_all _ _ _ Hi)) as Hti. simpl in Hti.
    pose proof (tally_work_notify n (callers w)). fold n in H. lia.
Qed.

(** A rotation gives work only when it fails: the callers it wakes. *)
Lemma rotate_next_work w fsync nx :
  (total_work (rotate_next w fsync nx) ≤ total_work w + match fsync with Some _ => length (callers w) | None => 0 end)%nat.
Proof.
  unfold total_work. rewrite (next_length w (Rotation fsync nx)) by done. unfold rotate_next, poison.
  destruct fsync; simpl; [|lia]. destruct (get_or_insert _ _). simpl. apply tally_work_notify.
Qed.

(** The steps of callers in a schedule, and its failing rotations. *)
Definition caller_steps (sched : list event) : nat :=
  sum_list_with (λ ev, match ev with Caller _ _ => 1 | _ => 0 end)%nat sched.
Definition failing_rotations (sched : list event) : nat :=
  sum_list_with (λ ev, match ev with Rotation (Some _) _ => 1 | _ => 0 end)%nat sched.

Lemma run_work w sched w' :
  world_ok w → run w sched = Some w' →
  length (callers w') = length (callers w) ∧
  (caller_steps sched + total_work w' ≤ total_work w + length (callers w) * failing_rotations sched)%nat.
Proof.
  revert w. induction sched as [|ev sched IH]; simpl; intros w Hw Hr; simplify_eq; [lia|].
  destruct (next w ev) as [w1|] eqn:Hn; [|done].
  destruct (IH w1) as [Hlen Hwork]; [by eapply next_ok|done|].
  pose proof (next_length _ _ _ Hn) as Hl. split; [lia|]. rewrite Hl in Hwork.
  destruct ev as [i fsync|fsync nx]; simpl in Hn.
  - pose proof (caller_next_work _ _ _ _ Hw Hn). lia.
  - simplify_eq. pose proof (rotate_next_work w fsync nx). destruct fsync; nia.
Qed.

(** No lost wakeup: while a caller has not returned, some caller can step. *)
Lemma someone_steps w i p :
  world_ok w → callers w !! i = Some p → returned p = false → ∃ j, ∀ fsync, is_Some (caller_next w j fsync).
Proof.
  intros Hw Hi Hp. assert ((∃ e, p = Asleep e) ∨ ∀ e, p ≠ Asleep e) as [[e ->]|Hne] by (destruct p; naive_solver).
  - pose proof (proj1 (Forall_lookup _ _) (wo_awake _ Hw) i _ Hi) as Hr. simpl in Hr.
    pose proof (wo_leader _ Hw) as Hl. rewrite Hr in Hl.
    assert (∃ j q, callers w !! j = Some q ∧ leads q = true) as (j & q & Hj & Hq).
    { clear -Hl. induction (callers w) as [|c cs IH]; [done|]. destruct (leads c) eqn:Hc; [by exists 0%nat, c|].
      unfold tally in *. simpl in Hl. rewrite Hc in Hl. destruct (IH Hl) as (j & q & ? & ?). by exists (S j), q. }
    exists j. intros fsync. unfold caller_next. rewrite Hj. destruct q; try done. destruct fsync; destruct (round_outcome _ _); eauto.
  - exists i. intros fsync. unfold caller_next. rewrite Hi. destruct p; try done; [naive_solver|].
    destruct fsync; destruct (round_outcome _ _); eauto.
Qed.

Lemma start_work tail lens : total_work (start tail lens) = (length lens * (length lens + 6))%nat.
Proof.
  unfold total_work, tally. simpl. rewrite length_fmap. generalize (length lens) at 1 3 as n. intros n.
  induction lens as [|len lens IH]; [done|]. csimpl. rewrite IH. lia.
Qed.

(** ** The contract *)


(** Three callers on a log durable below 16: the first leads alone, the second and third
    write while it syncs, and share the next round. *)
Definition shared_rounds : list event :=
  [Caller 0 None; Caller 0 None; Caller 0 None; Caller 1 None; Caller 2 None; Caller 1 None; Caller 2 None;
   Caller 0 None; Caller 0 None; Caller 2 None; Caller 1 None; Caller 2 None; Caller 2 None; Caller 2 None; Caller 1 None].


(** C24: Commits return: the callers of a schedule take at most n * (n + 6) steps, and n more
    per failing rotation, whatever the answers of their fsyncs; and while one of them has
    not returned, one of them can step, whatever its fsync answers (no wakeup is lost).  So
    a schedule that lets callers step while any can ends with every caller returned. *)
Theorem commit_returns tail lens sched w :
  Forall (λ len, 0 ≤ len) lens → run (start tail lens) sched = Some w →
  let n := length lens in
  (caller_steps sched ≤ n * (n + 6) + n * failing_rotations sched)%nat ∧
  ((∃ i p, callers w !! i = Some p ∧ returned p = false) →
   ∃ j, ∀ fsync, is_Some (caller_next w j fsync)).
Proof.
  intros Hl Hr n. pose proof (start_ok tail lens Hl) as Hs. split.
  - pose proof (run_work _ _ _ Hs Hr) as [_ Hw]. rewrite start_work in Hw. simpl in Hw. rewrite length_fmap in Hw.
    fold n in Hw. lia.
  - intros (i & p & Hi & Hp). eapply someone_steps; [by eapply run_ok|done|done].
Qed.

(** The first round fails while the second caller waits for it. *)
Definition failed_round : list event :=
  [Caller 0 None; Caller 0 None; Caller 1 None; Caller 1 None; Caller 0 None; Caller 0 (Some "EIO"%string); Caller 0 None].

Example failed_round_reported :
  callers <$> run (start 16 [10; 20]) (failed_round ++ [Caller 1 None]) =
  Some [Returned 26 (Err "EIO"%string); Returned 46 (Err "EIO"%string)].
Proof. reflexivity. Qed.

Lemma commit_returns_witness : ∃ w, run (start 16 [10; 20]) failed_round = Some w ∧
  callers w !! 1%nat = Some (Woken 46) ∧ (∃ j, ∀ fsync, is_Some (caller_next w j fsync)).
Proof.
  let w := eval vm_compute in (run (start 16 [10; 20]) failed_round) in match w with Some ?w => exists w end.
  split; [by vm_compute|]. split; [by vm_compute|].
  refine (proj2 (commit_returns 16 [10; 20] failed_round _ _ _) _); [|by vm_compute|exists 1%nat, (Woken 46); by vm_compute].
  repeat constructor; lia.
Defined.
