(* ===== verification/LogProgress.v ===== *)
(** * LogProgress: positions in a log and its saved progress

    The positions of db/segmented_log.rs, [(segment_id << 32) | byte], [Progress] (the
    retired cut and the offsets of the namespaces above it) and its file [ProgressFile]. *)
From S2P Require Import Prelude Slices Bytes.
#[local] Open Scope minnal_scope.

(** ** Positions *)

Definition SEGMENT_HEADER_LEN : Z := 16.

Definition position (segment_id byte : Z) : Z := Z.lor (wrap 64 (Z.shiftl segment_id 32)) byte.
Definition split (pos : Z) : Z * Z := (Z.shiftr pos 32, wrap 32 pos).
Definition segment_of (pos : Z) : Z := Z.shiftr pos 32.
Definition segment_start (segment_id : Z) : Z := position segment_id SEGMENT_HEADER_LEN.

Definition u32 (x : Z) : Prop := 0 ≤ x < 2 ^ 32.

Lemma lor_low w h l : 0 ≤ w → 0 ≤ l < 2 ^ w → Z.lor (h * 2 ^ w) l = h * 2 ^ w + l.
Proof.
  intros Hw Hl. assert (Z.land (h * 2 ^ w) l = 0) as Hz.
  { apply Z.bits_inj'. intros i Hi. rewrite Z.land_spec, Z.bits_0. apply andb_false_iff.
    destruct (decide (i < w)); [left; by apply Z.mul_pow2_bits_low|right]. apply Z.testbit_false; [done|].
    rewrite Z.div_small; [done|]. split; [lia|]. eapply Z.lt_le_trans; [apply Hl|]. apply Z.pow_le_mono_r; lia. }
  rewrite <-Z.lxor_lor by done. by rewrite <-Z.add_nocarry_lxor.
Qed.

Lemma position_eq id b : u32 id → u32 b → position id b = id * 2 ^ 32 + b.
Proof.
  unfold u32, position, wrap. intros. rewrite Z.shiftl_mul_pow2, Z.mod_small by lia. by apply lor_low.
Qed.

Lemma segment_of_eq pos : segment_of pos = pos / 2 ^ 32.
Proof. unfold segment_of. by rewrite Z.shiftr_div_pow2. Qed.

Lemma split_pos_eq pos : split pos = (pos / 2 ^ 32, pos mod 2 ^ 32).
Proof. unfold split, wrap. by rewrite Z.shiftr_div_pow2. Qed.

Lemma split_position id b : u32 id → u32 b → split (position id b) = (id, b).
Proof.
  intros Hi Hb. rewrite split_pos_eq, position_eq by done. unfold u32 in *.
  rewrite Z.div_add_l, Z.div_small, (Z.add_comm (id * _)), Z.mod_add, Z.mod_small by lia. f_equal. lia.
Qed.

Lemma segment_of_position id b : u32 id → u32 b → segment_of (position id b) = id.
Proof. intros. change (segment_of (position id b)) with (fst (split (position id b))). by rewrite split_position. Qed.

(** Positions compare as pairs. *)
Lemma position_lt id b id' b' : u32 id → u32 b → u32 id' → u32 b' →
  position id b < position id' b' ↔ id < id' ∨ id = id' ∧ b < b'.
Proof. intros. rewrite !position_eq by done. unfold u32 in *. nia. Qed.

Lemma position_u64 id b : u32 id → u32 b → u64 (position id b).
Proof. intros. rewrite position_eq by done. unfold u32, u64 in *. lia. Qed.

Lemma position_split pos : u64 pos → position (split pos).1 (split pos).2 = pos.
Proof.
  intros Hp. rewrite split_pos_eq. simpl. unfold u64 in Hp. rewrite position_eq; unfold u32.
  - pose proof (Z.div_mod pos (2 ^ 32)). lia.
  - split; [apply Z.div_pos; lia|apply Z.div_lt_upper_bound; lia].
  - apply Z.mod_pos_bound. lia.
Qed.

(** ** Errors *)

(** [LogError]; a message is kept without the numbers printed in it. *)
Inductive LogError :=
| Io
| Corruption (why : string)
| RecordTooLarge (len max : Z)
| Poisoned (why : string).

(** ** Progress *)

Record OpenFrom := mk_OpenFrom { from_cut : option Z; from_furthest : Z }.
Record Progress := mk_Progress { cut : Z; safe : list (Z * Z) }.

Definition replay_from (p : Progress) (ns : Z) : Z :=
  match binary_search_by (λ e : Z * Z, Z.compare e.1 ns) (safe p) with
  | Ok i => match safe p !! i with Some (_, s) => Z.max s (cut p) | None => cut p end
  | Err _ => cut p
  end.

Definition furthest (p : Progress) : Z := foldr Z.max (cut p) (safe p).*2.

Definition open_from (saved : option Progress) : OpenFrom :=
  mk_OpenFrom (cut <$> saved) (match saved with Some p => furthest p | None => 0 end).

(** What [ProgressFile::decode] checks of the namespaces' offsets. *)
Record progress_ok (p : Progress) : Prop := {
  po_cut : u64 (cut p);
  po_safe : Forall (λ e : Z * Z, u32 e.1 ∧ u64 e.2 ∧ cut p ≤ e.2) (safe p);
  po_sorted : ascending (safe p).*1;
}.

Lemma furthest_spec p : cut p ≤ furthest p ∧ Forall (λ e : Z * Z, e.2 ≤ furthest p) (safe p).
Proof.
  unfold furthest. induction (safe p) as [|[n s] l [IH1 IH2]]; [by split|]. csimpl. split; [lia|].
  constructor; [simpl; lia|]. eapply Forall_impl; [exact IH2|]. simpl. lia.
Qed.

(** Replay of a namespace starts at its own offset, or at the cut. *)
Lemma replay_from_spec p ns : progress_ok p →
  (∀ s, (ns, s) ∈ safe p → replay_from p ns = s) ∧ (ns ∉ (safe p).*1 → replay_from p ns = cut p).
Proof.
  intros [_ Hs Ha]. unfold replay_from.
  assert (cmp_ordered (λ e : Z * Z, Z.compare e.1 ns) (safe p)) as Ho.
  { intros i j x y Hij Hx Hy.
    assert (x.1 < y.1).
    { apply (ascending_lookup (safe p).*1 i j); [done|by rewrite list_lookup_fmap, ?Hx, ?Hy..|done]. }
    rewrite !Z.compare_lt_iff, !Z.compare_eq_iff, !Z.compare_gt_iff. lia. }
  pose proof (binary_search_by_spec _ _ Ho) as H. destruct (binary_search_by _ _) as [i|i].
  - destruct H as ([n s] & Hi & Hc). apply Z.compare_eq_iff in Hc. simpl in Hc. subst n. rewrite Hi.
    rewrite Forall_forall in Hs. pose proof (Hs _ (list_elem_of_lookup_2 _ _ _ Hi)) as (_ & _ & Hle). simpl in Hle.
    split; intros.
    + rewrite Z.max_l by done. apply list_elem_of_lookup_1 in H as [j Hj].
      destruct (decide (i = j)) as [->|Hne]; [congruence|]. exfalso.
      assert (ns < ns); [|lia].
      destruct (decide (i < j)%nat); [apply (ascending_lookup (safe p).*1 i j)|apply (ascending_lookup (safe p).*1 j i)];
        (done || lia || by rewrite list_lookup_fmap, ?Hi, ?Hj).
    + destruct H. apply list_elem_of_fmap. exists (ns, s). split; [done|]. by eapply list_elem_of_lookup_2.
  - destruct H as (_ & Hlt & Hgt). split; [|done]. intros s He. exfalso.
    rewrite <-(take_drop i (safe p)), elem_of_app in He. rewrite !Forall_forall in Hlt, Hgt.
    destruct He as [He|He]; [apply Hlt in He|apply Hgt in He]; simpl in He; by rewrite Z.compare_refl in He.
Qed.

(** ** The progress file *)

Section file.
Context `{Crc}.

Definition PROGRESS_VERSION : Z := 3.
Definition PROGRESS_FIXED_LEN : Z := 4 + 4 + 8 + 4.
Definition PROGRESS_ENTRY_LEN : Z := 4 + 8.

Definition encode_progress_entry (e : Z * Z) : region := le_bytes 4 e.1 ++ le_bytes 8 e.2.
Definition decode_progress_entry (c : region) : Z * Z := (get_le c 0 4, get_le c 4 8).

Definition encode_progress_body (magic : region) (p : Progress) (extra : region) : region :=
  magic ++ le_bytes 4 PROGRESS_VERSION ++ le_bytes 8 (cut p) ++ le_bytes 4 (zlen (safe p)) ++
  (safe p ≫= encode_progress_entry) ++ le_bytes 4 (zlen extra) ++ extra.
Definition encode_progress (magic : region) (p : Progress) (extra : region) : region :=
  let b := encode_progress_body magic p extra in b ++ le_bytes 4 (crc32 b).

(** [safe.windows(2).any(..)], negated. *)
Fixpoint namespaces_sorted (es : list (Z * Z)) : bool :=
  match es with
  | a :: (b :: _) as es' => (a.1 <? b.1) && namespaces_sorted es'
  | _ => true
  end.

Definition decode_progress (magic bytes : region) : result (Progress * region) LogError :=
  if (zlen bytes <? PROGRESS_FIXED_LEN + 8) || negb (bool_decide (bread bytes 0 4 = magic)) then Err (Corruption "no header")
  else
    let body := bread bytes 0 (zlen bytes - 4) in
    if negb (crc32 body =? get_le bytes (zlen bytes - 4) 4) then Err (Corruption "CRC mismatch")
    else if negb (get_le body 4 4 =? PROGRESS_VERSION) then Err (Corruption "version")
    else
      let cut := get_le body 8 8 in
      let count := get_le body 16 4 in
      match checked_mul count PROGRESS_ENTRY_LEN with
      | None => Err (Corruption "entry count overflows")
      | Some n =>
        match e ← checked_add PROGRESS_FIXED_LEN n; if e + 4 <=? zlen body then Some e else None with
        | None => Err (Corruption "length does not match its entry count")
        | Some entries_end =>
          let safe := decode_progress_entry <$>
            as_chunks PROGRESS_ENTRY_LEN (bread body PROGRESS_FIXED_LEN (entries_end - PROGRESS_FIXED_LEN)) in
          let extra_len := get_le body entries_end 4 in
          if negb (zlen body =? entries_end + 4 + extra_len) then Err (Corruption "length does not match its extra bytes")
          else if negb (namespaces_sorted safe) then Err (Corruption "namespaces are not sorted")
          else if existsb (λ e, e.2 <? cut) safe then Err (Corruption "safe offset is below the cut")
          else Ok (mk_Progress cut safe, bread body (entries_end + 4) (zlen body - (entries_end + 4)))
        end
      end.

(** ** Reading back what was written *)

Lemma namespaces_sorted_iff es : namespaces_sorted es = true ↔ ascending es.*1.
Proof using.
  induction es as [|a es IH]; [split; [intros; constructor|done]|]. csimpl.
  destruct es as [|b es]; [split; [intros; repeat constructor|done]|].
  change (namespaces_sorted (a :: b :: es)) with ((a.1 <? b.1) && namespaces_sorted (b :: es)).
  rewrite andb_true_iff, Z.ltb_lt, IH, ascending_cons. csimpl. split.
  - intros [Hl Ha]. split; [|done]. apply ascending_inv in Ha as Ha'. destruct Ha' as [_ Hb]. constructor; [done|].
    apply Forall_forall. intros y Hy. specialize (Hb y Hy). lia.
  - intros [Hl Ha]. split; [|done]. by inversion Hl.
Qed.

Lemma encode_progress_entry_zlen e : zlen (encode_progress_entry e) = PROGRESS_ENTRY_LEN.
Proof using. unfold encode_progress_entry. by rewrite zlen_app, !le_bytes_zlen. Qed.

Lemma decode_encode_progress_entry e : u32 e.1 → u64 e.2 → decode_progress_entry (encode_progress_entry e) = e.
Proof using.
  intros Hn Hs. destruct e as [n s]. unfold decode_progress_entry, encode_progress_entry. simpl in *. f_equal.
  - apply (get_le_at [] 4 n); [done|]. exact Hn.
  - apply (get_le_part _ (le_bytes 4 n) 8 s []); [by rewrite app_nil_r|by rewrite le_bytes_zlen|done|exact Hs].
Qed.

Lemma encode_decode_progress_entry c :
  Forall byte c → zlen c = PROGRESS_ENTRY_LEN →
  encode_progress_entry (decode_progress_entry c) = c ∧ u32 (decode_progress_entry c).1 ∧ u64 (decode_progress_entry c).2.
Proof using.
  intros Hb Hc. unfold PROGRESS_ENTRY_LEN in Hc. split; [|split; apply get_le_bound; (done || unfold in_region; lia)].
  unfold encode_progress_entry, decode_progress_entry. cbn [fst snd].
  change 8%nat with (Z.to_nat 8). change 4%nat with (Z.to_nat 4).
  rewrite !le_bytes_get by (done || unfold in_region; lia).
  rewrite bread_join by lia. rewrite <-Hc. apply bread_all.
Qed.

Lemma progress_entries_zlen es : zlen (es ≫= encode_progress_entry) = 12 * zlen es.
Proof using. apply zlen_bind, Forall_forall. intros e _. apply encode_progress_entry_zlen. Qed.

Lemma encode_progress_body_zlen magic p extra : zlen magic = 4 →
  zlen (encode_progress_body magic p extra) = 20 + 12 * zlen (safe p) + 4 + zlen extra.
Proof using. intros Hm. unfold encode_progress_body. rewrite !zlen_app, !le_bytes_zlen, progress_entries_zlen. lia. Qed.

(** The fields of an encoded body. *)
Lemma encode_progress_body_fields magic p extra :
  zlen magic = 4 → progress_ok p → zlen (safe p) < 2 ^ 32 → zlen extra < 2 ^ 32 →
  let b := encode_progress_body magic p extra in
  let n := 12 * zlen (safe p) in
  bread b 0 4 = magic ∧ get_le b 4 4 = PROGRESS_VERSION ∧ get_le b 8 8 = cut p ∧ get_le b 16 4 = zlen (safe p) ∧
  bread b 20 n = safe p ≫= encode_progress_entry ∧ get_le b (20 + n) 4 = zlen extra ∧
  bread b (20 + n + 4) (zlen b - (20 + n + 4)) = extra.
Proof using.
  intros Hm [Hc _ _] Hn He b n. pose proof (zlen_nonneg (safe p)). pose proof (zlen_nonneg extra).
  pose proof (progress_entries_zlen (safe p)) as Hz. fold n in Hz.
  set (es := safe p ≫= encode_progress_entry) in *.
  assert (zlen b = 20 + n + 4 + zlen extra) as Hb by (unfold b, n; by rewrite encode_progress_body_zlen).
  unfold b, encode_progress_body in *. fold es in Hb |- *. set (m := le_bytes 4 PROGRESS_VERSION) in *.
  pose proof (le_bytes_zlen 4 PROGRESS_VERSION) as Hv. fold m in Hv. pose proof (le_bytes_zlen 8 (cut p)) as Hcz.
  pose proof (le_bytes_zlen 4 (zlen (safe p))) as Hsz. pose proof (le_bytes_zlen 4 (zlen extra)) as Hez.
  split_and!.
  - by apply (bread_part _ [] magic (m ++ le_bytes 8 (cut p) ++ le_bytes 4 (zlen (safe p)) ++ es ++ le_bytes 4 (zlen extra) ++ extra)).
  - by eapply (get_le_part _ magic 4).
  - eapply (get_le_part _ (magic ++ m) 8); [by rewrite <-!app_assoc|rewrite zlen_app; lia|done|exact Hc].
  - eapply (get_le_part _ (magic ++ m ++ le_bytes 8 (cut p)) 4); [by rewrite <-!app_assoc|rewrite !zlen_app; lia|done|lia].
  - eapply (bread_part _ (magic ++ m ++ le_bytes 8 (cut p) ++ le_bytes 4 (zlen (safe p))));
      [by rewrite <-!app_assoc|rewrite !zlen_app; lia|lia].
  - eapply (get_le_part _ (magic ++ m ++ le_bytes 8 (cut p) ++ le_bytes 4 (zlen (safe p)) ++ es) 4);
      [by rewrite <-!app_assoc|rewrite !zlen_app; lia|done|lia].
  - rewrite Hb. eapply (bread_part _ (magic ++ m ++ le_bytes 8 (cut p) ++ le_bytes 4 (zlen (safe p)) ++ es ++ le_bytes 4 (zlen extra)) _ []);
      [by rewrite <-!app_assoc, app_nil_r|rewrite !zlen_app; lia|lia].
Qed.

Lemma decode_encode_progress `{!CrcLaws} magic p extra :
  zlen magic = 4 → progress_ok p → zlen (safe p) < 2 ^ 32 → zlen extra < 2 ^ 32 →
  decode_progress magic (encode_progress magic p extra) = Ok (p, extra).
Proof using.
  intros Hm Hp Hn He. destruct (encode_progress_body_fields magic p extra Hm Hp Hn He) as (F1 & F2 & F3 & F4 & F5 & F6 & F7).
  pose proof (encode_progress_body_zlen magic p extra Hm) as Hb. pose proof (zlen_nonneg (safe p)). pose proof (zlen_nonneg extra).
  set (b := encode_progress_body magic p extra) in *. set (n := zlen (safe p)) in *.
  assert (zlen (encode_progress magic p extra) = zlen b + 4) as Hz.
  { unfold encode_progress. fold b. by rewrite zlen_app, le_bytes_zlen. }
  unfold decode_progress. rewrite Hz. replace (zlen b + 4 - 4) with (zlen b) by lia.
  assert (bread (encode_progress magic p extra) 0 4 = magic) as ->.
  { unfold encode_progress. fold b. by rewrite bread_app_l by lia. }
  assert (bread (encode_progress magic p extra) 0 (zlen b) = b) as ->.
  { unfold encode_progress. fold b. by rewrite bread_app_l, bread_all by lia. }
  assert (get_le (encode_progress magic p extra) (zlen b) 4 = crc32 b) as ->.
  { unfold encode_progress. fold b. eapply (get_le_part _ b 4 _ []); [by rewrite app_nil_r|done|done|apply crc32_range]. }
  unfold PROGRESS_FIXED_LEN, PROGRESS_ENTRY_LEN in *. cbv zeta. rewrite (proj2 (Z.ltb_ge _ _)), bool_decide_true by (done || lia).
  cbn [orb negb]. rewrite Z.eqb_refl, F2, F3, F4. cbn [negb]. rewrite Z.eqb_refl. cbn [negb].
  unfold checked_mul, checked_add. replace (n * (4 + 8)) with (12 * n) by lia.
  rewrite (proj2 (Z.ltb_lt (12 * n) _)) by lia. cbn [mbind option_bind].
  replace (4 + 4 + 8 + 4 + 12 * n) with (20 + 12 * n) by lia. rewrite (proj2 (Z.ltb_lt (20 + 12 * n) _)) by lia. cbn [mbind option_bind].
  rewrite (proj2 (Z.leb_le _ _)) by lia. change (4 + 4 + 8 + 4) with 20.
  replace (20 + 12 * n - 20) with (12 * n) by lia.
  rewrite F5, F6, F7, Hb, (proj2 (Z.eqb_eq _ _)) by lia. cbn [negb]. change (4 + 8) with PROGRESS_ENTRY_LEN.
  rewrite as_chunks_bind by (done || apply Forall_forall; intros; apply encode_progress_entry_zlen).
  destruct Hp as [Hc Hs Ha].
  assert (decode_progress_entry <$> (encode_progress_entry <$> safe p) = safe p) as ->.
  { rewrite <-list_fmap_compose. clear -Hs. induction Hs as [|e es (? & ? & ?) Hes IH]; [done|].
    csimpl. f_equal; [by apply decode_encode_progress_entry|done]. }
  rewrite (proj2 (namespaces_sorted_iff _) Ha). cbn [negb].
  assert (existsb (λ e : Z * Z, e.2 <? cut p) (safe p) = false) as ->; [|by destruct p].
  clear -Hs. induction Hs as [|e es (? & ? & ?) Hes IH]; [done|]. simpl. rewrite IH, orb_false_r. apply Z.ltb_ge. lia.
Qed.

Lemma decoded_entries cs : Forall (λ c, zlen c = 12) cs → Forall byte (cs ≫= id) →
  (decode_progress_entry <$> cs) ≫= encode_progress_entry = cs ≫= id ∧
  Forall (λ e : Z * Z, u32 e.1 ∧ u64 e.2) (decode_progress_entry <$> cs).
Proof using.
  induction 1 as [|c cs Hc Hcs IH]; [by split|]. rewrite fmap_cons, !bind_cons. change (id c) with c. intros [Hb1 Hb2]%Forall_app.
  destruct (encode_decode_progress_entry c Hb1 Hc) as (-> & Hn & Hs). destruct (IH Hb2) as [-> Hok].
  split; [done|by constructor].
Qed.

Lemma decode_progress_sound magic bytes p extra :
  zlen magic = 4 → Forall byte bytes → decode_progress magic bytes = Ok (p, extra) →
  progress_ok p ∧ encode_progress magic p extra = bytes.
Proof using.
  intros Hm Hb Hd. unfold decode_progress in Hd. unfold PROGRESS_FIXED_LEN, PROGRESS_ENTRY_LEN, PROGRESS_VERSION in *.
  destruct (Z.ltb_spec (zlen bytes) (4 + 4 + 8 + 4 + 8)); [done|]. cbn [orb] in Hd. case_bool_decide as Hmag; [|done]. cbn [negb] in Hd.
  set (body := bread bytes 0 (zlen bytes - 4)) in *.
  assert (zlen body = zlen bytes - 4) as Hbz by (apply bread_length; unfold in_region; lia).
  destruct (Z.eqb_spec (crc32 body) (get_le bytes (zlen bytes - 4) 4)) as [Hcrc|]; [|done]. cbn [negb] in Hd.
  destruct (Z.eqb_spec (get_le body 4 4) 3) as [Hver|]; [|done]. cbn [negb] in Hd.
  set (n := get_le body 16 4) in *. destruct (checked_mul n (4 + 8)) as [m|] eqn:Hcm; [|done].
  unfold checked_mul in Hcm. destruct (Z.ltb_spec (n * (4 + 8)) (2 ^ 64)); [|done]. assert (m = 12 * n) as -> by (simplify_eq; lia).
  unfold checked_add in Hd. destruct (Z.ltb_spec (4 + 4 + 8 + 4 + 12 * n) (2 ^ 64)); [|done]. cbn [mbind option_bind] in Hd.
  destruct (Z.leb_spec (4 + 4 + 8 + 4 + 12 * n + 4) (zlen body)); [|done].
  change (4 + 4 + 8 + 4) with 20 in *. replace (20 + 12 * n - 20) with (12 * n) in * by lia.
  set (x := get_le body (20 + 12 * n) 4) in *.
  destruct (Z.eqb_spec (zlen body) (20 + 12 * n + 4 + x)) as [Hx|]; [|done]. cbn [negb] in Hd.
  set (es := decode_progress_entry <$> as_chunks (4 + 8) (bread body 20 (12 * n))) in *.
  destruct (namespaces_sorted es) eqn:Hs; [|done]. cbn [negb] in Hd.
  destruct (existsb _ es) eqn:Hcut; [done|]. simplify_eq.
  assert (Forall byte body) as Hbb by by apply Forall_byte_bread.
  assert (0 ≤ n) as Hn0 by (apply get_le_bound; [done|unfold in_region; lia]).
  assert (0 ≤ x < 256 ^ 4) as Hx0 by (apply get_le_bound; [done|unfold in_region; lia]).
  assert (in_region body 20 (12 * n)) as Hin by (unfold in_region; lia).
  destruct (as_chunks_inv 12 (Z.to_nat n) ltac:(lia) (bread body 20 (12 * n))) as (Hch & Hjoin & Hcnt).
  { rewrite bread_length by done. lia. }
  set (cs := as_chunks 12 (bread body 20 (12 * n))) in *. change (4 + 8) with 12 in es. fold cs in es.
  assert (Forall byte (bread body 20 (12 * n))) as Hbe by by apply Forall_byte_bread.
  destruct (decoded_entries cs) as (Hes & Hok); [done|by rewrite <-Hjoin|]. fold es in Hes, Hok. rewrite <-Hjoin in Hes.
  assert (zlen es = n) as Hez by (unfold es; rewrite zlen_fmap, Hcnt; lia).
  split.
  - split; simpl; [apply get_le_bound; [done|unfold in_region; lia]| |by apply namespaces_sorted_iff].
    apply Forall_forall. intros e He. rewrite Forall_forall in Hok. destruct (Hok e He). split_and!; [done|done|].
    apply Z.ltb_ge. destruct (e.2 <? get_le body 8 8) eqn:Hlt; [|done]. exfalso.
    rewrite (proj2 (existsb_exists _ _)) in Hcut; [done|]. exists e. split; [by apply list_elem_of_In|done].
  - assert (encode_progress_body (bread bytes 0 4) (mk_Progress (get_le body 8 8) es)
      (bread body (20 + 12 * n + 4) (zlen body - (20 + 12 * n + 4))) = body) as Hbody.
    { unfold encode_progress_body, PROGRESS_VERSION. cbn [safe cut]. rewrite Hes, Hez, bread_length by (unfold in_region; lia).
      replace (zlen body - (20 + 12 * n + 4)) with x by lia. unfold x, n. rewrite <-Hver at 1.
      change 8%nat with (Z.to_nat 8). change 4%nat with (Z.to_nat 4).
      rewrite !le_bytes_get by (done || unfold in_region; lia). fold n. fold x.
      replace (bread bytes 0 4) with (bread body 0 4) by (unfold body; rewrite bread_bread by lia; f_equal; lia).
      rewrite !bread_join by lia. rewrite <-(bread_all body) at 2. f_equal. lia. }
    unfold encode_progress. rewrite Hbody, Hcrc. change 4%nat with (Z.to_nat 4). rewrite le_bytes_get by (done || unfold in_region; lia).
    unfold body. rewrite bread_join by lia. replace (zlen bytes - 4 + 4) with (zlen bytes) by lia. apply bread_all.
Qed.


(** ** The contract *)

(** C33: The progress file is exact: what is encoded decodes to itself, extra bytes included,
    and bytes that decode are the encoding of what they decode to, with its namespaces
    ascending and no offset below the cut; replay of a namespace then starts at its own
    offset, or at the cut when it has none, and nothing saved lies above [furthest]. *)
Theorem progress_file_exact `{!CrcLaws} magic : zlen magic = 4 →
  (∀ p extra, progress_ok p → zlen (safe p) < 2 ^ 32 → zlen extra < 2 ^ 32 →
    decode_progress magic (encode_progress magic p extra) = Ok (p, extra)) ∧
  (∀ bytes p extra, Forall byte bytes → decode_progress magic bytes = Ok (p, extra) →
    encode_progress magic p extra = bytes ∧
    (∀ ns s, (ns, s) ∈ safe p → replay_from p ns = s) ∧
    (∀ ns, ns ∉ (safe p).*1 → replay_from p ns = cut p) ∧
    (∀ ns, cut p ≤ replay_from p ns ≤ furthest p)).
Proof using.
  intros Hm. split; [intros p extra; by apply decode_encode_progress|].
  intros bytes p extra Hb Hd. destruct (decode_progress_sound magic bytes p extra Hm Hb Hd) as [Hp He]. split; [done|].
  split; [intros ns s; by apply (replay_from_spec p ns)|]. split; [intros ns; by apply (replay_from_spec p ns)|].
  intros ns. destruct (furthest_spec p) as [Hf Hs]. rewrite Forall_forall in Hs. pose proof (po_safe _ Hp) as Hsafe. rewrite Forall_forall in Hsafe.
  destruct (decide (ns ∈ (safe p).*1)) as [Hin|Hin].
  - apply list_elem_of_fmap in Hin as ([n s] & -> & Hin). cbn [fst]. rewrite (proj1 (replay_from_spec p n Hp) s Hin).
    specialize (Hs _ Hin). destruct (Hsafe _ Hin) as (_ & _ & Hle). simpl in *. lia.
  - rewrite (proj2 (replay_from_spec p ns Hp) Hin). lia.
Qed.
End file.

(** A checksum for the examples. *)
#[local] Instance sum_crc : Crc := λ b, foldr Z.add 0 b mod 2 ^ 32.
#[local] Instance sum_crc_laws : CrcLaws.
Proof. intros b. apply Z.mod_pos_bound. lia. Qed.

Definition example_progress : Progress := mk_Progress (position 3 16) [(1, position 3 40); (7, position 4 16)].

Lemma progress_file_exact_witness :
  zlen [77; 80; 82; 71] = 4 ∧
  decode_progress [77; 80; 82; 71] (encode_progress [77; 80; 82; 71] example_progress [9]) = Ok (example_progress, [9]) ∧
  replay_from example_progress 7 = position 4 16.
Proof.
  assert (progress_ok example_progress) as Hp.
  { split; [by vm_compute|..].
    - repeat constructor; by vm_compute.
    - repeat constructor. }
  destruct (progress_file_exact [77; 80; 82; 71] eq_refl) as [Hrt Hex].
  assert (decode_progress [77; 80; 82; 71] (encode_progress [77; 80; 82; 71] example_progress [9]) = Ok (example_progress, [9])) as Hd.
  { by apply Hrt. }
  split; [done|]. split; [exact Hd|].
  assert (Forall byte (encode_progress [77; 80; 82; 71] example_progress [9])) as Hb.
  { vm_compute. repeat (constructor; [split; [intros ?; discriminate|reflexivity]|]). constructor. }
  destruct (Hex _ _ _ Hb Hd) as (_ & Hr & _). apply Hr. right. left.
Defined.
