(* ===== verification/SegmentedLog.v ===== *)
(** * SegmentedLog: a segmented, checksummed, append-only log

    db/segmented_log.rs and db/segment_prep.rs: the format of both write-ahead logs of the
    engine.  A log is a directory of segment files, here a map from segment ids to bytes;
    each operation takes what the operating system answers.  A callback that changes what
    it captured is a function on that state.  Messages are kept without their numbers. *)
From S2P Require Import Prelude Slices Bytes LogProgress CommitRounds.
#[local] Open Scope minnal_scope.

Definition FRAME_HEADER_LEN : Z := 8.
Definition END_MARKER : Z := 4294967295.
Definition END_MARKER_LEN : Z := 4.
Definition MIN_SEGMENT_SIZE : Z := 64.
Definition READ_AHEAD : Z := 64 * 1024.

(** [LogFormat]. *)
Record LogFormat := mk_LogFormat { format_name : string; magic : region; version : Z }.

Record OpenReport := mk_OpenReport { report_tail : Z; torn_bytes_dropped : Z }.

Inductive WalkEnd :=
| Unwritten (pos : Z)
| Sealed (pos : Z)
| Torn (pos bytes : Z) (reason : string).

(** ** Files *)

(** The segments of the log's directory; other files are ignored by [list_segments]. *)
Abbreviation segment_dir := (gmap Z region).

Definition list_segments (dir : segment_dir) : list Z := merge_sort Z.le (elements (dom dir)).
Definition has_segments (dir : segment_dir) : bool := negb (bool_decide (list_segments dir = [])).

Definition file_len (file : region) : result Z LogError :=
  if zlen file <? 2 ^ 32 then Ok (zlen file) else Err (Corruption "segment size").

(** [File::set_len]: cut, or extended with zeros. *)
Definition set_len (file : region) (size : Z) : region :=
  take (Z.to_nat size) file ++ replicate (Z.to_nat size - length file) 0.

(** [FileExt::write_all_at] that fails after [n] bytes, if it does. *)
Definition write_some (file : region) (at_ : Z) (bs : region) (fails : option nat) : region :=
  bwrite file at_ (match fails with None => bs | Some n => take n bs end).

Definition header_bytes (format : LogFormat) (segment_id : Z) : region :=
  magic format ++ le_bytes 4 (version format) ++ le_bytes 8 segment_id.

Definition check_header (format : LogFormat) (file : region) (segment_id : Z) : result unit LogError :=
  let h := bread file 0 SEGMENT_HEADER_LEN in
  if negb (bool_decide (bread h 0 4 = magic format)) then Err (Corruption "segment has no header")
  else if negb (get_le h 4 4 =? version format) then Err (Corruption "segment has another format version")
  else if negb (get_le h 8 8 =? segment_id) then Err (Corruption "segment file holds another segment")
  else Ok ().

Definition header_is_blank (file : region) : bool :=
  forallb (λ b, b =? 0) (bread file 0 SEGMENT_HEADER_LEN).

Definition check_segment_id (segment_id : Z) : result unit LogError :=
  if 2 ^ 32 - 1 <? segment_id then Err (Corruption "segment ids exhausted") else Ok ().

(** A new segment's file: its header, at its full size. *)
Definition segment_file (format : LogFormat) (segment_id size : Z) : region :=
  set_len (header_bytes format segment_id) size.

(** [create_segment] on a file system that does its part. *)
Definition create_segment (format : LogFormat) (dir : segment_dir) (segment_id size : Z) : result segment_dir LogError :=
  let? _ := check_segment_id segment_id in
  Ok (<[segment_id := segment_file format segment_id size]> dir).

Definition zero_past (file : region) (pos len segment_size : Z) : region :=
  let file := if pos <? len then set_len file pos else file in
  set_len file (Z.max len segment_size).

(** ** Segments prepared ahead (segment_prep.rs) *)

(** [zero_fill]: zeros, in chunks, then the header over them. *)
Fixpoint zero_fill_loop (fuel : nat) (file : region) (chunk offset size : Z) : region :=
  match fuel with
  | O => file
  | S fuel =>
    if offset <? size then
      let n := Z.min chunk (size - offset) in
      zero_fill_loop fuel (bwrite file offset (bzero n)) chunk (offset + n) size
    else file
  end.
Definition zero_fill (size : Z) (header : region) : region :=
  let file := zero_fill_loop (Z.to_nat size) [] (Z.min (Z.shiftl 1 20) size) 0 size in
  if bool_decide (header = []) then file else bwrite file 0 header.

(** [SegmentPrep]: the preparation under way, with the file its thread leaves ([None]: the
    thread fails), and [started_below]. *)
Record SegmentPrep := mk_SegmentPrep { pending : option (Z * option region); started_below : Z }.

Definition prep_new : SegmentPrep := mk_SegmentPrep None 0.
Definition started (p : SegmentPrep) (segment_id : Z) : bool := segment_id <? started_below p.

(** [start]; [spawned]: the thread was started, [filled]: it succeeds. *)
Definition prep_start (p : SegmentPrep) (segment_id size : Z) (header : region) (spawned filled : bool) : SegmentPrep :=
  if match pending p with Some (id, _) => segment_id <=? id | None => false end then p
  else if spawned then
    mk_SegmentPrep (Some (segment_id, if filled then Some (zero_fill size header) else None))
      (Z.max (started_below p) (segment_id + 1))
  else p.

(** [install]: the prepared file to move into place, if there is one for this segment. *)
Definition prep_install (p : SegmentPrep) (segment_id : Z) : SegmentPrep * option region :=
  (mk_SegmentPrep None (started_below p),
   match pending p with
   | Some (id, Some file) => if id =? segment_id then Some file else None
   | _ => None
   end).

(** ** Reading frames *)

Section log.
Context `{Crc}.

(** [window]: the buffer, the range of the file it holds, where [pos] is in it. *)
Definition window (file buf : region) (held : Z * Z) (pos need limit : Z) : region * (Z * Z) * Z :=
  if (pos <? held.1) || (held.2 <? pos + need) then
    let len := Z.min (Z.max need READ_AHEAD) (limit - pos) in
    (bread file pos len, (pos, pos + len), 0)
  else (buf, held, pos - held.1).

Section walk.
Context {St E : Type} (f : St → Z → region → result St E).

Fixpoint walk_loop (file : region) (segment_id limit : Z) (fuel : nat) (buf : region) (held : Z * Z) (pos : Z) (st : St) :
    result (St * WalkEnd) E :=
  match fuel with
  | O => Ok (st, Torn pos 0 "out of fuel")
  | S fuel =>
    if limit <=? pos then Ok (st, Unwritten pos)
    else
      let left := limit - pos in
      if left <? END_MARKER_LEN then Ok (st, Torn pos left "bytes where a frame length belongs")
      else
        let '(buf, held, at_) := window file buf held pos (Z.min left FRAME_HEADER_LEN) limit in
        let len := get_le buf at_ 4 in
        if len =? 0 then Ok (st, Unwritten pos)
        else if len =? END_MARKER then Ok (st, Sealed pos)
        else if (left <? FRAME_HEADER_LEN) || (left - FRAME_HEADER_LEN <? len)
        then Ok (st, Torn pos left "frame length runs past the end")
        else
          let '(buf, held, at_) := window file buf held pos (FRAME_HEADER_LEN + len) limit in
          let crc := get_le buf (at_ + 4) 4 in
          let body := bread buf (at_ + FRAME_HEADER_LEN) len in
          if negb (crc32 body =? crc) then Ok (st, Torn pos (FRAME_HEADER_LEN + len) "CRC mismatch")
          else
            let? st := f st (position segment_id pos) body in
            walk_loop file segment_id limit fuel buf held (pos + (FRAME_HEADER_LEN + len)) st
  end.

(** [walk_segment]; every frame read moves the position, so the bytes left are fuel. *)
Definition walk_segment (file : region) (segment_id start limit : Z) (buf : region) (st : St) : result (St * WalkEnd) E :=
  walk_loop file segment_id limit (S (Z.to_nat (limit - start))) buf (0, 0) start st.
End walk.

Definition sealed_at_or_below (file : region) (segment_id from len : Z) : result (option Z) LogError :=
  let limit := Z.min (Z.min (from + END_MARKER_LEN) (2 ^ 32 - 1)) len in
  let? r := walk_segment (λ (_ : unit) _ _, Ok ()) file segment_id SEGMENT_HEADER_LEN limit [] () in
  match r.2 with
  | Sealed pos => Ok (if pos <=? from then Some pos else None)
  | _ => Ok None
  end.

(** ** The log *)

(** [Active], without its file, the directory's file of that id.  [written], [synced] and
    [first_open_segment] are the power-loss model the source compiles in for its tests: how
    far each segment was written, and how much of that an fsync covered. *)
Record Active := mk_Active { a_segment_id : Z; a_pos : Z }.

Record SegmentedLog := mk_SegmentedLog {
  dir : segment_dir;
  format : LogFormat;
  segment_size : Z;
  active : Active;
  tail : Z;
  rounds : Rounds;
  prep : SegmentPrep;
  sealed_ends : gmap Z Z;
  written : gmap Z Z;
  synced : gmap Z Z;
  first_open_segment : Z;
}.

Definition set_active (log : SegmentedLog) (a : Active) : SegmentedLog :=
  mk_SegmentedLog (dir log) (format log) (segment_size log) a (tail log) (rounds log) (prep log)
    (sealed_ends log) (written log) (synced log) (first_open_segment log).
Definition set_tail (log : SegmentedLog) (t : Z) : SegmentedLog :=
  mk_SegmentedLog (dir log) (format log) (segment_size log) (active log) t (rounds log) (prep log)
    (sealed_ends log) (written log) (synced log) (first_open_segment log).
Definition set_rounds (log : SegmentedLog) (r : Rounds) : SegmentedLog :=
  mk_SegmentedLog (dir log) (format log) (segment_size log) (active log) (tail log) r (prep log)
    (sealed_ends log) (written log) (synced log) (first_open_segment log).
Definition set_prep (log : SegmentedLog) (p : SegmentPrep) : SegmentedLog :=
  mk_SegmentedLog (dir log) (format log) (segment_size log) (active log) (tail log) (rounds log) p
    (sealed_ends log) (written log) (synced log) (first_open_segment log).
Definition set_dir (log : SegmentedLog) (d : segment_dir) : SegmentedLog :=
  mk_SegmentedLog d (format log) (segment_size log) (active log) (tail log) (rounds log)
    (prep log) (sealed_ends log) (written log) (synced log) (first_open_segment log).
Definition set_ends (log : SegmentedLog) (ends : gmap Z Z) : SegmentedLog :=
  mk_SegmentedLog (dir log) (format log) (segment_size log) (active log) (tail log) (rounds log)
    (prep log) ends (written log) (synced log) (first_open_segment log).
Definition set_written (log : SegmentedLog) (w : gmap Z Z) : SegmentedLog :=
  mk_SegmentedLog (dir log) (format log) (segment_size log) (active log) (tail log) (rounds log)
    (prep log) (sealed_ends log) w (synced log) (first_open_segment log).
Definition set_synced (log : SegmentedLog) (s : gmap Z Z) : SegmentedLog :=
  mk_SegmentedLog (dir log) (format log) (segment_size log) (active log) (tail log) (rounds log)
    (prep log) (sealed_ends log) (written log) s (first_open_segment log).

(** The active segment's file, and the log with it rewritten. *)
Definition active_file (log : SegmentedLog) : region := default [] (dir log !! a_segment_id (active log)).
Definition write_active (log : SegmentedLog) (file : region) : SegmentedLog :=
  set_dir log (<[a_segment_id (active log) := file]> (dir log)).

Definition log_durable (log : SegmentedLog) : Z := durable (state (rounds log)).
Definition active_segment (log : SegmentedLog) : Z := segment_of (tail log).
Definition max_frame_len (log : SegmentedLog) : Z := segment_size log - SEGMENT_HEADER_LEN - END_MARKER_LEN.

Definition log_check_poisoned (log : SegmentedLog) : result unit LogError :=
  match check_poisoned (rounds log) with Ok _ => Ok () | Err why => Err (Poisoned why) end.

(** [note_written]. *)
Definition note_written (log : SegmentedLog) (segment_id end_ : Z) : SegmentedLog :=
  set_written log (<[segment_id := Z.max (default 0 (written log !! segment_id)) end_]> (written log)).

(** [sync_file] of a segment whose fsync succeeds or not: it covers what was written before. *)
Definition sync_file (log : SegmentedLog) (segment_id : Z) (ok : bool) : SegmentedLog :=
  if ok then
    set_synced log (<[segment_id := Z.max (default 0 (synced log !! segment_id)) (default 0 (written log !! segment_id))]> (synced log))
  else log.

(** [poison]. *)
Definition log_poison (log : SegmentedLog) (why : string) : SegmentedLog * LogError :=
  let '(r, why) := get_or_insert (rounds log) why in (set_rounds log r, Poisoned why).

(** ** Opening *)

Section open.
Context {St E : Type} (lift : LogError → E) (visit : St → Z → region → result St E).

Definition lifted {A} (r : result A LogError) : result A E :=
  match r with Ok a => Ok a | Err e => Err (lift e) end.
Definition corrupt {A} (why : string) : result A E := Err (lift (Corruption why)).

Definition visit_from_cut (cut : Z) (st : St) (at_ : Z) (body : region) : result St E :=
  if at_ <? cut then Ok st else visit st at_ body.

(** [ids.windows(2).find(|w| w[1] != w[0] + 1)], negated. *)
Fixpoint contiguous (ids : list Z) : bool :=
  match ids with
  | a :: (b :: _) as ids' => (b =? a + 1) && contiguous ids'
  | _ => true
  end.

(** The cut must not be below the oldest segment; without progress the log starts at 0. *)
Definition check_cut (cut oldest : option Z) : result unit E :=
  match cut, oldest with
  | Some cut, Some oldest => if segment_of cut <? oldest then corrupt "the retired cut is below the oldest segment" else Ok ()
  | None, Some oldest => if 0 <? oldest then corrupt "no progress was saved" else Ok ()
  | _, None => Ok ()
  end.

(** One sealed segment of [open]: where its records end, or nothing when it is retired. *)
Definition open_sealed_one (format : LogFormat) (dir : segment_dir) (cut id : Z) (st : St) (ends : gmap Z Z) :
    result (St * gmap Z Z) E :=
  let file := default [] (dir !! id) in
  let? len := lifted (file_len file) in
  if len <? SEGMENT_HEADER_LEN then corrupt "segment is shorter than its header"
  else
    let? _ := lifted (check_header format file id) in
    let '(cut_id, cut_byte) := split cut in
    if id <? cut_id then Ok (st, ends)
    else
      let start := if id =? cut_id then Z.max cut_byte SEGMENT_HEADER_LEN else SEGMENT_HEADER_LEN in
      let? r := walk_segment (visit_from_cut cut) file id start len [] st in
      let '(st, walk_end) := r in
      match walk_end with
      | Sealed pos => Ok (st, <[id := pos]> ends)
      | Unwritten pos =>
        let? at_or_below := lifted (sealed_at_or_below file id start len) in
        match at_or_below with
        | Some end_ => if (pos =? start) && (SEGMENT_HEADER_LEN <? start) then Ok (st, <[id := end_]> ends)
                       else corrupt "segment is not sealed but is not the last"
        | None => corrupt "segment is not sealed but is not the last"
        end
      | Torn _ _ _ => corrupt "segment (not the last) is damaged"
      end.

Fixpoint open_sealed (format : LogFormat) (dir : segment_dir) (cut : Z) (sealed : list Z) (st : St) (ends : gmap Z Z) :
    result (St * gmap Z Z) E :=
  match sealed with
  | [] => Ok (st, ends)
  | id :: sealed =>
    let? r := open_sealed_one format dir cut id st ends in
    open_sealed format dir cut sealed r.1 r.2
  end.

(** What [open] makes of the last segment. *)
Record Opened := mk_Opened {
  o_st : St; o_dir : segment_dir; o_segment : Z; o_pos : Z; o_ends : gmap Z Z; o_torn : Z
}.

Definition open_last (format : LogFormat) (dir : segment_dir) (segment_size cut : Z) (last : option Z)
    (st : St) (ends : gmap Z Z) : result Opened E :=
  match last with
  | None =>
    let? dir := lifted (create_segment format dir 0 segment_size) in
    Ok (mk_Opened st dir 0 SEGMENT_HEADER_LEN ends 0)
  | Some id =>
    let file := default [] (dir !! id) in
    let? len := lifted (file_len file) in
    if (len <? SEGMENT_HEADER_LEN) || header_is_blank file then
      let? dir := lifted (create_segment format dir id segment_size) in
      Ok (mk_Opened st dir id SEGMENT_HEADER_LEN ends (Z.min len SEGMENT_HEADER_LEN))
    else
      let? _ := lifted (check_header format file id) in
      let? r := walk_segment (visit_from_cut cut) file id SEGMENT_HEADER_LEN len [] st in
      let '(st, walk_end) := r in
      match walk_end with
      | Unwritten pos => Ok (mk_Opened st (<[id := zero_past file pos len segment_size]> dir) id pos ends 0)
      | Torn pos bytes _ => Ok (mk_Opened st (<[id := zero_past file pos len segment_size]> dir) id pos ends bytes)
      | Sealed pos =>
        let? dir := lifted (create_segment format dir (id + 1) segment_size) in
        Ok (mk_Opened st dir (id + 1) SEGMENT_HEADER_LEN (<[id := pos]> ends) 0)
      end
  end.

(** The last segment is sealed at the tail when saved progress names positions past it. *)
Definition open_past_progress (format : LogFormat) (segment_size furthest : Z) (o : Opened) : result Opened E :=
  if o_segment o <? segment_of furthest then corrupt "saved progress names a position past the last segment"
  else if position (o_segment o) (o_pos o) <? furthest then
    let file := default [] (o_dir o !! o_segment o) in
    let dir := <[o_segment o := bwrite file (o_pos o) (le_bytes 4 END_MARKER)]> (o_dir o) in
    let? dir := lifted (create_segment format dir (o_segment o + 1) segment_size) in
    Ok (mk_Opened (o_st o) dir (o_segment o + 1) SEGMENT_HEADER_LEN (<[o_segment o := o_pos o]> (o_ends o)) (o_torn o))
  else Ok o.

(** [SegmentedLog::open]. *)
Definition open (dir : segment_dir) (format : LogFormat) (segment_size : Z) (from : OpenFrom) (st : St) :
    result (St * SegmentedLog * OpenReport) E :=
  let segment_size := Z.max segment_size MIN_SEGMENT_SIZE in
  let ids := list_segments dir in
  if negb (contiguous ids) then corrupt "segment is missing"
  else
    let? _ := check_cut (from_cut from) (head ids) in
    let cut := default 0 (from_cut from) in
    let? r := open_sealed format dir cut (take (length ids - 1) ids) st ∅ in
    let? o := open_last format dir segment_size cut (last ids) r.1 r.2 in
    let? o := open_past_progress format segment_size (from_furthest from) o in
    let t := position (o_segment o) (o_pos o) in
    Ok (o_st o,
        mk_SegmentedLog (o_dir o) format segment_size (mk_Active (o_segment o) (o_pos o)) t (new t) prep_new (o_ends o)
          {[o_segment o := o_pos o]} {[o_segment o := o_pos o]} (o_segment o),
        mk_OpenReport t (o_torn o)).
End open.

(** ** Appending *)

(** What the operating system answers during an append: the write of a frame fails after
    some bytes, if it does; a rotation's marker write likewise; its fsync; the creation of
    the next segment, with the file it leaves behind when it fails; and whether a thread
    that prepares the next segment starts and succeeds. *)
Record AppendIo := mk_AppendIo {
  io_write : option nat;
  io_marker : option nat;
  io_sync : bool;
  io_create : result unit (option region);
  io_spawned : bool;
  io_filled : bool;
}.

Definition frame (body : region) : region := le_bytes 4 (zlen body) ++ le_bytes 4 (crc32 body) ++ body.

(** [try_rotate]. *)
Definition try_rotate (io : AppendIo) (log : SegmentedLog) : SegmentedLog * result unit LogError :=
  let a := active log in
  let log := write_active log (write_some (active_file log) (a_pos a) (le_bytes 4 END_MARKER) (io_marker io)) in
  if io_marker io then (log, Err Io)
  else
    let log := note_written log (a_segment_id a) (a_pos a + END_MARKER_LEN) in
    let log := sync_file log (a_segment_id a) (io_sync io) in
    if negb (io_sync io) then (log, Err Io) else
    let log := set_rounds log (advance (rounds log) (position (a_segment_id a) (a_pos a))) in
    let log := set_ends log (<[a_segment_id a := a_pos a]> (sealed_ends log)) in
    let next := a_segment_id a + 1 in
    match check_segment_id next with
    | Err e => (log, Err e)
    | Ok _ =>
      let '(p, prepared) := prep_install (prep log) next in
      let log := set_prep log p in
      match io_create io with
      | Err leftover => (set_dir log (match leftover with Some file => <[next := file]> (dir log) | None => dir log end), Err Io)
      | Ok _ =>
        let file := default (segment_file (format log) next (segment_size log)) prepared in
        let log := set_dir log (<[next := file]> (dir log)) in
        let log := set_written log (<[next := SEGMENT_HEADER_LEN]> (written log)) in
        let log := set_synced log (<[next := SEGMENT_HEADER_LEN]> (synced log)) in
        (set_tail (set_active log (mk_Active next SEGMENT_HEADER_LEN)) (segment_start next), Ok ())
      end
    end.

(** [rotate]: any failure poisons the log. *)
Definition rotate (io : AppendIo) (log : SegmentedLog) : SegmentedLog * result unit LogError :=
  match try_rotate io log with
  | (log, Ok _) => (log, Ok ())
  | (log, Err (Poisoned why)) => (log, Err (Poisoned why))
  | (log, Err _) => let '(log, e) := log_poison log "rotating" in (log, Err e)
  end.

(** The write of a frame at the tail; past half a segment the next one is prepared. *)
Definition append_frame (io : AppendIo) (log : SegmentedLog) (bytes : region) : SegmentedLog * result (Z * Z) LogError :=
  let a := active log in
  let log := write_active log (write_some (active_file log) (a_pos a) bytes (io_write io)) in
  if io_write io then (log, Err Io)
  else
    let a' := mk_Active (a_segment_id a) (a_pos a + zlen bytes) in
    let log := note_written (set_active log a') (a_segment_id a') (a_pos a') in
    let next := a_segment_id a' + 1 in
    let log :=
      if (segment_size log <=? a_pos a' * 2) && negb (started (prep log) next)
      then set_prep log (prep_start (prep log) next (segment_size log) (header_bytes (format log) next) (io_spawned io) (io_filled io))
      else log in
    let end_ := position (a_segment_id a') (a_pos a') in
    (set_tail log end_, Ok (position (a_segment_id a) (a_pos a), end_)).

(** [append]; the parts of the body are one after the other in the frame. *)
Definition append (io : AppendIo) (log : SegmentedLog) (parts : list region) : SegmentedLog * result (Z * Z) LogError :=
  let body := concat parts in
  let frame_len := FRAME_HEADER_LEN + zlen body in
  if max_frame_len log <? frame_len then (log, Err (RecordTooLarge frame_len (max_frame_len log)))
  else
    match log_check_poisoned log with
    | Err e => (log, Err e)
    | Ok _ =>
      if segment_size log <? a_pos (active log) + frame_len + END_MARKER_LEN then
        match rotate io log with
        | (log, Ok _) => append_frame io log (frame body)
        | (log, Err e) => (log, Err e)
        end
      else append_frame io log (frame body)
    end.

(** ** Making durable *)

(** [commit] by a caller alone: at most one round, whose fsync answers [fsync].  [None]: the
    round covered less than [end_], and the caller syncs again. *)
Definition commit (log : SegmentedLog) (end_ : Z) (fsync : option string) : option (SegmentedLog * result bool LogError) :=
  let answer log (r : Rounds) (res : result bool string) :=
    Some (set_rounds log r, match res with Ok led => Ok led | Err why => Err (Poisoned why) end) in
  match loop_top (rounds log) end_ with
  | (r, Returned _ res) => answer log r res
  | (r, _) =>
    let snapshot := position (a_segment_id (active log)) (a_pos (active log)) in
    let log := sync_file log (a_segment_id (active log)) (bool_decide (fsync = None)) in
    let '(r, covered) := round_outcome r (match fsync with None => Ok snapshot | Some why => Err why end) in
    match publish r end_ covered with
    | (r, Returned _ res) => answer log r res
    | _ => None
    end
  end.

Definition sync (log : SegmentedLog) (fsync : option string) : option (SegmentedLog * result bool LogError) :=
  commit log (tail log) fsync.

(** ** Reading *)

Section for_each.
Context {St E : Type} (lift : LogError → E) (f : St → Z → region → result St E).

(** The loop of [for_each_with]; every turn moves to a later segment, so the number of
    segment ids up to the end's is fuel. *)
Fixpoint for_each_loop (fuel : nat) (log : SegmentedLog) (start id end_id end_pos : Z) (st : St) : result St E :=
  match fuel with
  | O => Ok st
  | S fuel =>
    if end_id <? id then Ok st
    else
      match dir log !! id with
      | None =>
        match head (list_segments (dir log)) with
        | Some oldest =>
          if id <? oldest then for_each_loop fuel log (segment_start oldest) oldest end_id end_pos st
          else corrupt lift "segment is missing"
        | None => corrupt lift "segment is missing"
        end
      | Some file =>
        let? _ := lifted lift (check_header (format log) file id) in
        let from := if id =? segment_of start then Z.max (split start).2 SEGMENT_HEADER_LEN else SEGMENT_HEADER_LEN in
        let? len := lifted lift (file_len file) in
        let limit := if id =? end_id then Z.min end_pos len else len in
        let? r := walk_segment f file id from limit [] st in
        let '(st, walk_end) := r in
        match walk_end with
        | Unwritten pos =>
          if id =? end_id then for_each_loop fuel log start (id + 1) end_id end_pos st
          else if (pos =? from) && (SEGMENT_HEADER_LEN <? from) then
            let? at_or_below := lifted lift (sealed_at_or_below file id from len) in
            match at_or_below with
            | Some _ => for_each_loop fuel log start (id + 1) end_id end_pos st
            | None => corrupt lift "segment ends unexpectedly"
            end
          else corrupt lift "segment ends unexpectedly"
        | Sealed _ => for_each_loop fuel log start (id + 1) end_id end_pos st
        | Torn _ _ _ => corrupt lift "segment is damaged"
        end
      end
  end.

(** [for_each_with]. *)
Definition for_each_with (log : SegmentedLog) (start end_ : Z) (st : St) : result St E :=
  if end_ <=? start then Ok st
  else
    let '(end_id, end_pos) := split end_ in
    let id := segment_of start in
    for_each_loop (2 + Z.to_nat (end_id - id)) log start id end_id end_pos st.
End for_each.

Definition segment_end (log : SegmentedLog) (segment_id : Z) : option Z :=
  if segment_id =? segment_of (tail log) then Some (tail log)
  else position segment_id <$> sealed_ends log !! segment_id.

Definition bytes_between (log : SegmentedLog) (from to : Z) : Z :=
  if to <=? from then 0
  else
    let '(to_id, to_byte) := split to in
    foldr Z.add 0
      ((λ id,
          let end_ := if id =? to_id then Some to_byte else sealed_ends log !! id in
          let start := if id =? segment_of from then Z.max (split from).2 SEGMENT_HEADER_LEN else SEGMENT_HEADER_LEN in
          match end_ with Some end_ => Z.max 0 (end_ - start) | None => 0 end) <$>
       seqZ (segment_of from) (to_id - segment_of from + 1)).

Definition missing_segments (log : SegmentedLog) (start end_ : Z) : list Z :=
  if end_ <=? start then []
  else filter (λ id, dir log !! id = None) (seqZ (segment_of start) (segment_of end_ - segment_of start + 1)).

Definition segments (log : SegmentedLog) : list (Z * Z) :=
  omap (λ id, (λ file, (id, zlen file)) <$> dir log !! id) (list_segments (dir log)).

(** [power_loss_extents]: how many bytes of a segment's file survive a power loss. *)
Definition power_loss_extent (log : SegmentedLog) (segment_id : Z) : option Z :=
  if segment_id <? first_open_segment log then None else Some (default 0 (synced log !! segment_id)).

(** [lose_unsynced]: zero every byte no fsync covered, keeping the files' sizes. *)
Definition lose_unsynced (log : SegmentedLog) : segment_dir :=
  map_imap (λ id file,
    Some (match power_loss_extent log id with
          | Some durable => if durable <? zlen file then set_len (set_len file durable) (zlen file) else file
          | None => file
          end)) (dir log).

Definition oldest_segment (log : SegmentedLog) : option Z := head (list_segments (dir log)).

(** ** Retiring *)

(** [delete_segments_below]; [fails_after]: how many files are removed before a removal
    fails, if one does. *)
Definition delete_segments_below (log : SegmentedLog) (segment_id : Z) (fails_after : option nat) :
    SegmentedLog * result (Z * Z) LogError :=
  let below := Z.min segment_id (active_segment log) in
  let old := filter (λ id, id < below) (list_segments (dir log)) in
  let gone := match fails_after with Some n => take n old | None => old end in
  let failed := bool_decide (length gone < length old)%nat in
  let bytes := foldr Z.add 0 ((λ id, zlen (default [] (dir log !! id))) <$> gone) in
  let log := set_dir log (foldr delete (dir log) gone) in
  let log := set_ends log (filter (λ e : Z * Z, below ≤ e.1) (sealed_ends log)) in
  (log, if failed && bool_decide (gone = []) then Err Io else Ok (zlen gone, bytes)).
End log.
