(* ===== verification/LogFrames.v ===== *)
(** * LogFrames: what a walk over a segment reads

    The frames at the head of a byte string, read without the window of segmented_log.rs:
    [walk_loop_spec] shows that the windowed loop reads the same, and [walk_frames] what it
    hands over when the bytes are frames followed by something that is none. *)
From S2P Require Import Prelude Slices Bytes LogProgress SegmentedLog.
#[local] Open Scope minnal_scope.

Section frames.
Context `{Crc}.

(** A frame at the head of [rest], or how a walk ends there. *)
Definition read_frame (rest : region) : (Z → WalkEnd) + region :=
  let left := zlen rest in
  if left <=? 0 then inl Unwritten
  else if left <? END_MARKER_LEN then inl (λ pos, Torn pos left "bytes where a frame length belongs")
  else
    let len := get_le rest 0 4 in
    if len =? 0 then inl Unwritten
    else if len =? END_MARKER then inl Sealed
    else if (left <? FRAME_HEADER_LEN) || (left - FRAME_HEADER_LEN <? len)
    then inl (λ pos, Torn pos left "frame length runs past the end")
    else
      let body := bread rest FRAME_HEADER_LEN len in
      if negb (crc32 body =? get_le rest 4 4) then inl (λ pos, Torn pos (FRAME_HEADER_LEN + len) "CRC mismatch")
      else inr body.

Definition stops_with (rest : region) (we : Z → WalkEnd) : Prop := read_frame rest = inl we.

(** A body a frame can carry: not empty, as a length of 0 is unwritten space. *)
Definition body_ok (body : region) : Prop := 0 < zlen body < END_MARKER.

Definition frames (bodies : list region) : region := bodies ≫= frame.
Definition frame_zlen (body : region) : Z := FRAME_HEADER_LEN + zlen body.

Lemma frame_length body : zlen (frame body) = frame_zlen body.
Proof using. unfold frame, frame_zlen, FRAME_HEADER_LEN. rewrite !zlen_app, !le_bytes_zlen. lia. Qed.

Lemma frames_cons body bodies : frames (body :: bodies) = frame body ++ frames bodies.
Proof using. apply bind_cons. Qed.
Lemma frames_app l k : frames (l ++ k) = frames l ++ frames k.
Proof using. apply bind_app. Qed.
Lemma frames_one body : frames [body] = frame body.
Proof using. unfold frames. by rewrite bind_cons, app_nil_r. Qed.

Lemma read_frame_frame `{!CrcLaws} body rest : body_ok body → read_frame (frame body ++ rest) = inr body.
Proof using.
  intros [Hpos Hlt]. pose proof (crc32_range body) as Hc. pose proof (zlen_nonneg rest).
  assert (zlen (frame body ++ rest) = 8 + zlen body + zlen rest) as Hz by (rewrite zlen_app, frame_length; done).
  assert (get_le (frame body ++ rest) 0 4 = zlen body) as Hl.
  { eapply (get_le_part _ [] 4 _ (le_bytes 4 (crc32 body) ++ body ++ rest)); [unfold frame; by rewrite <-!app_assoc|done|done|].
    unfold END_MARKER in Hlt. lia. }
  assert (get_le (frame body ++ rest) 4 4 = crc32 body) as Hcrc.
  { eapply (get_le_part _ (le_bytes 4 (zlen body)) 4 _ (body ++ rest)); [unfold frame; by rewrite <-!app_assoc|by rewrite le_bytes_zlen|done|exact Hc]. }
  assert (bread (frame body ++ rest) 8 (zlen body) = body) as Hb.
  { eapply (bread_part _ (le_bytes 4 (zlen body) ++ le_bytes 4 (crc32 body)) _ rest); [unfold frame; by rewrite <-!app_assoc| |done].
    by rewrite zlen_app, !le_bytes_zlen. }
  unfold read_frame, FRAME_HEADER_LEN, END_MARKER_LEN, END_MARKER in *. rewrite Hz, Hl, Hcrc, Hb.
  rewrite (proj2 (Z.leb_gt _ _)), (proj2 (Z.ltb_ge _ 4)), (proj2 (Z.eqb_neq _ 0)), (proj2 (Z.eqb_neq _ 4294967295)) by lia.
  rewrite (proj2 (Z.ltb_ge _ 8)), (proj2 (Z.ltb_ge _ (zlen body))), Z.eqb_refl by lia. done.
Qed.

(** ** The window *)

Definition holds (file buf : region) (held : Z * Z) : Prop :=
  (held.1 = held.2 ∧ 0 ≤ held.1) ∨ (0 ≤ held.1 ≤ held.2 ∧ held.2 ≤ zlen file ∧ buf = bread file held.1 (held.2 - held.1)).

Lemma window_spec file buf held pos need limit buf' held' at_ :
  holds file buf held → 0 ≤ pos → 0 < need → pos + need ≤ limit → limit ≤ zlen file →
  window file buf held pos need limit = (buf', held', at_) →
  holds file buf' held' ∧ ∀ i n, 0 ≤ i → 0 ≤ n → i + n ≤ need → bread buf' (at_ + i) n = bread file (pos + i) n.
Proof using.
  intros Hh Hp Hn Hl Hf. unfold window, READ_AHEAD. destruct held as [a b]. simpl in *.
  destruct (Z.ltb_spec pos a), (Z.ltb_spec b (pos + need)); cbn [orb]; intros ?; simplify_eq.
  1-3: split; [right; simpl; split; [lia|split; [lia|f_equal; lia]]|]; intros; rewrite bread_bread by lia; f_equal; lia.
  split; [done|]. destruct Hh as [[? ?]|(? & ? & Hb)]; simpl in *; [lia|].
  intros. rewrite Hb, bread_bread by lia. f_equal. lia.
Qed.

(** ** The loop *)

Section walk.
Context {St E : Type} (f : St → Z → region → result St E).

(** One turn of the loop reads the frame at the head of what is left. *)
Lemma walk_loop_step file id limit fuel buf held pos st :
  Forall byte file → holds file buf held → 0 ≤ pos → limit ≤ zlen file →
  match read_frame (bread file pos (limit - pos)) with
  | inl we => walk_loop f file id limit (S fuel) buf held pos st = Ok (st, we pos)
  | inr body => ∃ buf' held', holds file buf' held' ∧
      walk_loop f file id limit (S fuel) buf held pos st =
      (let? st := f st (position id pos) body in walk_loop f file id limit fuel buf' held' (pos + frame_zlen body) st)
  end.
Proof using.
  intros Hby Hh Hp Hl. cbn [walk_loop]. destruct (Z.leb_spec limit pos).
  { unfold bread. replace (Z.to_nat (limit - pos)) with 0%nat by lia. done. }
  assert (zlen (bread file pos (limit - pos)) = limit - pos) as Hz by (apply bread_length; unfold in_region; lia).
  unfold read_frame. rewrite Hz, (proj2 (Z.leb_gt _ _)) by lia. unfold END_MARKER_LEN, FRAME_HEADER_LEN in *.
  destruct (Z.ltb_spec (limit - pos) 4); [done|].
  destruct (window file buf held pos _ limit) as [[buf1 held1] at1] eqn:Hw1.
  destruct (window_spec file buf held pos (Z.min (limit - pos) 8) limit buf1 held1 at1) as [Hh1 Hb1]; [done|lia..|done|].
  assert (get_le buf1 at1 4 = get_le (bread file pos (limit - pos)) 0 4) as ->.
  { unfold get_le. rewrite bread_bread by lia. rewrite <-(Z.add_0_r at1), Hb1 by lia. done. }
  set (rest := bread file pos (limit - pos)) in *. set (len := get_le rest 0 4).
  destruct (Z.eqb_spec len 0); [done|]. destruct (Z.eqb_spec len END_MARKER); [done|].
  destruct (Z.ltb_spec (limit - pos) 8); [done|]. destruct (Z.ltb_spec (limit - pos - 8) len); [done|]. cbn [orb].
  destruct (window file buf1 held1 pos _ limit) as [[buf2 held2] at2] eqn:Hw2.
  assert (0 ≤ len) as Hlen.
  { apply get_le_bound; [by apply Forall_byte_bread|unfold in_region; lia]. }
  destruct (window_spec file buf1 held1 pos (8 + len) limit buf2 held2 at2) as [Hh2 Hb2]; [done|lia..|done|].
  assert (get_le buf2 (at2 + 4) 4 = get_le rest 4 4) as ->.
  { unfold get_le, rest. rewrite bread_bread, Hb2 by lia. done. }
  assert (bread buf2 (at2 + 8) len = bread rest 8 len) as ->.
  { unfold rest. rewrite bread_bread, Hb2 by lia. done. }
  destruct (crc32 (bread rest 8 len) =? get_le rest 4 4); cbn [negb]; [|done].
  exists buf2, held2. split; [done|]. unfold frame_zlen, FRAME_HEADER_LEN. rewrite bread_length by (unfold in_region; lia). done.
Qed.

(** The records of the [bodies] framed from [pos] on. *)
Fixpoint records_at (id pos : Z) (bodies : list region) : list (Z * region) :=
  match bodies with
  | [] => []
  | body :: bodies => (position id pos, body) :: records_at id (pos + frame_zlen body) bodies
  end.

(** Records handed over one after the other. *)
Fixpoint visit_all (st : St) (recs : list (Z * region)) : result St E :=
  match recs with
  | [] => Ok st
  | (at_, body) :: recs => let? st := f st at_ body in visit_all st recs
  end.

Lemma visit_all_app st r1 r2 : visit_all st (r1 ++ r2) = (let? st := visit_all st r1 in visit_all st r2).
Proof using.
  revert st. induction r1 as [|[a b] r1 IH]; intros st; [done|]. simpl. destruct (f st a b); [apply IH|done].
Qed.

Lemma walk_loop_frames `{!CrcLaws} file id limit bodies we rest fuel buf held pos st :
  Forall byte file → holds file buf held → 0 ≤ pos → limit ≤ zlen file → Forall body_ok bodies →
  bread file pos (limit - pos) = frames bodies ++ rest → stops_with rest we → (length bodies < fuel)%nat →
  walk_loop f file id limit fuel buf held pos st =
  (let? st := visit_all st (records_at id pos bodies) in Ok (st, we (pos + zlen (frames bodies)))).
Proof using.
  intros Hby Hh Hp Hl Hok. revert fuel buf held pos st Hh Hp.
  induction Hok as [|body bodies Hb Hok IH]; intros fuel buf held pos st Hh Hp Hr Hs Hf;
    (destruct fuel as [|fuel]; [simpl in Hf; lia|]); pose proof (walk_loop_step file id limit fuel buf held pos st Hby Hh Hp Hl) as Hstep.
  - rewrite Hr, app_nil_l in Hstep. red in Hs. rewrite Hs in Hstep. rewrite Hstep. simpl. by rewrite Z.add_0_r.
  - rewrite Hr, frames_cons, <-app_assoc, read_frame_frame in Hstep by done. destruct Hstep as (buf' & held' & Hh' & ->).
    cbn [records_at visit_all]. destruct (f st (position id pos) body) as [st'|e]; [|done]. cbn [result_bind].
    assert (0 ≤ zlen body) by apply zlen_nonneg. rewrite IH; [|done|unfold frame_zlen, FRAME_HEADER_LEN; lia| |done|simpl in Hf; lia].
    + destruct (visit_all _ _); [|done]. cbn [result_bind]. do 3 f_equal. rewrite frames_cons, zlen_app, frame_length. lia.
    + assert (0 < limit - pos) as Hpl.
      { assert (0 < zlen (bread file pos (limit - pos))) as Hz.
        { rewrite Hr, frames_cons, <-app_assoc, zlen_app, frame_length. pose proof (zlen_nonneg (frames bodies ++ rest)).
          unfold frame_zlen, FRAME_HEADER_LEN. lia. }
        unfold bread in Hz. destruct (Z.le_gt_cases (limit - pos) 0); [|done].
        replace (Z.to_nat (limit - pos)) with 0%nat in Hz by lia. vm_compute in Hz. done. }
      assert (zlen (bread file pos (limit - pos)) = limit - pos) as Hz by (apply bread_length; unfold in_region; lia).
      rewrite Hr, frames_cons, <-app_assoc, zlen_app, frame_length in Hz. pose proof (zlen_nonneg (frames bodies ++ rest)) as Hnn.
      unfold frame_zlen, FRAME_HEADER_LEN in *.
      replace (bread file (pos + (8 + zlen body)) (limit - (pos + (8 + zlen body))))
        with (bread (bread file pos (limit - pos)) (8 + zlen body) (limit - (pos + (8 + zlen body)))) by (rewrite bread_bread by lia; done).
      rewrite Hr, frames_cons, <-app_assoc, bread_app_r by (rewrite frame_length; unfold frame_zlen, FRAME_HEADER_LEN; lia).
      rewrite frame_length. unfold frame_zlen, FRAME_HEADER_LEN. rewrite Z.sub_diag.
      replace (limit - (pos + (8 + zlen body))) with (zlen (frames bodies ++ rest)) by lia. apply bread_all.
Qed.

Lemma frames_count bodies : Forall body_ok bodies → zlen bodies ≤ zlen (frames bodies).
Proof using.
  induction 1 as [|b bs Hb Hbs IH]; [done|]. rewrite frames_cons, zlen_app, zlen_cons, frame_length. unfold frame_zlen, FRAME_HEADER_LEN, body_ok in *. lia.
Qed.

(** A walk over frames hands over their records, and ends where they end. *)
Lemma walk_frames `{!CrcLaws} file id start limit bodies we rest buf st :
  Forall byte file → 0 ≤ start ≤ limit → limit ≤ zlen file → Forall body_ok bodies →
  bread file start (limit - start) = frames bodies ++ rest → stops_with rest we →
  walk_segment f file id start limit buf st =
  (let? st := visit_all st (records_at id start bodies) in Ok (st, we (start + zlen (frames bodies)))).
Proof using.
  intros Hby Hs Hl Hok Hr Hw. unfold walk_segment. eapply walk_loop_frames; [done|by left|lia|done|done|exact Hr|done|].
  pose proof (frames_count bodies Hok) as Hc.
  assert (zlen (frames bodies ++ rest) = limit - start) as Hz by (rewrite <-Hr; apply bread_length; unfold in_region; lia).
  rewrite zlen_app in Hz. pose proof (zlen_nonneg rest). unfold zlen at 1 in Hc. lia.
Qed.
End walk.
End frames.
