(* ===== verification/LogOpen.v ===== *)
(** * LogOpen: opening a directory of segments

    The shapes a log's directory can have on disk, after a clean stop or a power loss, and
    what [open] makes of them: it hands over exactly the records at or above the cut, in
    order, and leaves nothing past the tail. *)
From S2P Require Import Prelude Slices Bytes LogProgress CommitRounds SegmentedLog LogFrames.
#[local] Open Scope minnal_scope.

(** ** Files cut and extended *)

Lemma set_len_grow file size : zlen file ≤ size → set_len file size = file ++ bzero (size - zlen file).
Proof.
  intros. unfold set_len, bzero, zlen in *. rewrite take_ge by lia. do 2 f_equal. lia.
Qed.

Lemma set_len_cut a b : set_len (a ++ b) (zlen a) = a.
Proof.
  unfold set_len, zlen. rewrite Nat2Z.id, take_app_length, length_app.
  replace (length a - (length a + length b))%nat with 0%nat by lia. apply app_nil_r.
Qed.

Lemma bzero_zlen n : 0 ≤ n → zlen (bzero n) = n.
Proof. intros. unfold zlen, bzero. rewrite length_replicate. lia. Qed.

Lemma bzero_byte n : Forall byte (bzero n).
Proof. apply Forall_replicate. unfold byte. lia. Qed.

Lemma bzero_app a b : 0 ≤ a → 0 ≤ b → bzero a ++ bzero b = bzero (a + b).
Proof. intros. unfold bzero. rewrite <-replicate_add. f_equal. lia. Qed.

Lemma zero_past_spec pre post size : zlen pre ≤ zlen (pre ++ post) →
  zero_past (pre ++ post) (zlen pre) (zlen (pre ++ post)) size = pre ++ bzero (Z.max (zlen (pre ++ post)) size - zlen pre).
Proof.
  intros Hl. unfold zero_past. destruct (Z.ltb_spec (zlen pre) (zlen (pre ++ post))) as [Hlt|Hge].
  - rewrite set_len_cut, set_len_grow by lia. done.
  - rewrite set_len_grow by lia. rewrite zlen_app in *. pose proof (zlen_nonneg post).
    assert (post = []) as -> by (apply zlen_0_nil; lia). rewrite app_nil_r. do 2 f_equal. rewrite zlen_nil. lia.
Qed.

(** ** Headers *)

Record format_ok (fmt : LogFormat) : Prop := {
  fo_magic : zlen (magic fmt) = 4;
  fo_bytes : Forall byte (magic fmt);
  fo_blank : forallb (λ b, b =? 0) (magic fmt) = false;
  fo_version : u32 (version fmt);
}.

Section headers.
Context (fmt : LogFormat) (Hfmt : format_ok fmt).

Lemma header_bytes_zlen id : zlen (header_bytes fmt id) = SEGMENT_HEADER_LEN.
Proof using Hfmt. unfold header_bytes. rewrite !zlen_app, !le_bytes_zlen, (fo_magic _ Hfmt). done. Qed.

Lemma header_bytes_byte id : Forall byte (header_bytes fmt id).
Proof using Hfmt.
  unfold header_bytes. rewrite !Forall_app. split_and!; [apply Hfmt|apply le_bytes_byte|apply le_bytes_byte].
Qed.

Lemma header_read id rest : bread (header_bytes fmt id ++ rest) 0 SEGMENT_HEADER_LEN = header_bytes fmt id.
Proof using Hfmt. eapply (bread_part _ [] _ rest); [done|done|by rewrite header_bytes_zlen]. Qed.

Lemma check_header_ok id rest : u64 id → check_header fmt (header_bytes fmt id ++ rest) id = Ok ().
Proof using Hfmt.
  intros Hid. unfold check_header. rewrite header_read.
  assert (bread (header_bytes fmt id) 0 4 = magic fmt) as ->.
  { eapply (bread_part _ [] _ (le_bytes 4 (version fmt) ++ le_bytes 8 id)); [done|done|by rewrite (fo_magic _ Hfmt)]. }
  assert (get_le (header_bytes fmt id) 4 4 = version fmt) as ->.
  { eapply (get_le_part _ (magic fmt) 4); [done|by rewrite (fo_magic _ Hfmt)|done|apply Hfmt]. }
  assert (get_le (header_bytes fmt id) 8 8 = id) as ->.
  { eapply (get_le_part _ (magic fmt ++ le_bytes 4 (version fmt)) 8 _ []);
      [by rewrite app_nil_r, <-app_assoc|by rewrite zlen_app, le_bytes_zlen, (fo_magic _ Hfmt)|done|exact Hid]. }
  by rewrite bool_decide_true, !Z.eqb_refl.
Qed.

Lemma header_not_blank id rest : header_is_blank (header_bytes fmt id ++ rest) = false.
Proof using Hfmt.
  unfold header_is_blank. rewrite header_read. unfold header_bytes. by rewrite forallb_app, (fo_blank _ Hfmt).
Qed.

Lemma segment_file_eq id size : SEGMENT_HEADER_LEN ≤ size → segment_file fmt id size = header_bytes fmt id ++ bzero (size - SEGMENT_HEADER_LEN).
Proof using Hfmt. intros. unfold segment_file. by rewrite set_len_grow, header_bytes_zlen by (rewrite header_bytes_zlen; done). Qed.
End headers.

(** ** Where walks end *)

(** A walk's end at the tail: unwritten space or a torn frame, not a seal. *)
Definition tail_stop (we : Z → WalkEnd) : Prop :=
  ∀ pos, match we pos with Unwritten p | Torn p _ _ => p = pos | Sealed _ => False end.

Section stops.
Context `{Crc}.

Lemma stops_nil : stops_with [] Unwritten.
Proof using. done. Qed.

Lemma stops_zeros n : ∃ we, stops_with (bzero n) we ∧ tail_stop we.
Proof using.
  unfold stops_with, read_frame. destruct (Z.leb_spec (zlen (bzero n)) 0); [by exists Unwritten|].
  destruct (Z.ltb_spec (zlen (bzero n)) END_MARKER_LEN); [by eexists|].
  assert (get_le (bzero n) 0 4 = 0) as ->; [|by exists Unwritten].
  unfold get_le. rewrite bread_bzero by (unfold in_region, END_MARKER_LEN in *; lia). apply le_value_zeros.
Qed.

(** Four zero bytes are unwritten space. *)
Lemma stops_zero_word rest : 4 ≤ zlen rest → get_le rest 0 4 = 0 → stops_with rest Unwritten.
Proof using.
  intros Hl Hz. unfold stops_with, read_frame. rewrite (proj2 (Z.leb_gt _ _)) by lia.
  unfold END_MARKER_LEN. by rewrite (proj2 (Z.ltb_ge _ _)), Hz by lia.
Qed.

Definition marker : region := le_bytes 4 END_MARKER.

Lemma stops_marker r : stops_with (marker ++ r) Sealed.
Proof using.
  pose proof (zlen_nonneg r). unfold stops_with, read_frame. rewrite zlen_app. change (zlen marker) with 4.
  unfold END_MARKER_LEN. rewrite (proj2 (Z.leb_gt _ _)), (proj2 (Z.ltb_ge _ _)) by lia.
  rewrite get_le_app_l by (change (zlen marker) with 4; lia). done.
Qed.

(** A walk ends at the tail, or at an end marker. *)
Lemma stops_cases rest we : Forall byte rest → stops_with rest we →
  tail_stop we ∨ we = Sealed ∧ ∃ r, rest = marker ++ r.
Proof using.
  intros Hb. unfold stops_with, read_frame. repeat (case_match; try done); intros; simplify_eq; auto; try (left; intros pos; done).
  right. split; [done|]. exists (drop 4 rest). unfold marker.
  assert (get_le rest 0 4 = END_MARKER) as <- by (by apply Z.eqb_eq).
  assert (4 ≤ zlen rest) by (apply Z.ltb_ge; done).
  change 4%nat with (Z.to_nat 4) at 1. rewrite le_bytes_get by (done || unfold in_region; lia).
  rewrite bread_0. symmetry. apply take_drop.
Qed.
End stops.

(** ** What a directory holds *)

(** The records of consecutive segments from [id] on. *)
Fixpoint dir_records (id : Z) (segs : list (list region)) : list (Z * region) :=
  match segs with
  | [] => []
  | bodies :: segs => records_at id SEGMENT_HEADER_LEN bodies ++ dir_records (id + 1) segs
  end.

Lemma dir_records_app id l k : dir_records id (l ++ k) = dir_records id l ++ dir_records (id + zlen l) k.
Proof.
  revert id. induction l as [|b l IH]; intros id; [by rewrite zlen_nil, Z.add_0_r|].
  cbn [app dir_records]. rewrite IH, <-app_assoc, zlen_cons. do 3 f_equal. lia.
Qed.

Section shapes.
Context `{CrcLaws} (fmt : LogFormat) (Hfmt : format_ok fmt).

Definition seg_end (bodies : list region) : Z := SEGMENT_HEADER_LEN + zlen (frames bodies).

(** A segment file: its header, the frames of [bodies], then [rest], with room for the end
    marker reserved. *)
Record seg_file (id : Z) (bodies : list region) (rest file : region) : Prop := {
  sf_eq : file = header_bytes fmt id ++ frames bodies ++ rest;
  sf_bytes : Forall byte file;
  sf_len : zlen file < 2 ^ 32;
  sf_room : seg_end bodies + END_MARKER_LEN < 2 ^ 32;
  sf_bodies : Forall body_ok bodies;
}.

(** A segment with a successor ends in the end marker. *)
Definition sealed_file (id : Z) (bodies : list region) (file : region) : Prop :=
  ∃ r, seg_file id bodies (marker ++ r) file.

(** A last segment: frames, then something that is none; or one whose header never became
    durable. *)
Definition last_file (id : Z) (bodies : list region) (file : region) : Prop :=
  (∃ rest we, seg_file id bodies rest file ∧ stops_with rest we) ∨
  (bodies = [] ∧ zlen file < 2 ^ 32 ∧ (zlen file < SEGMENT_HEADER_LEN ∨ header_is_blank file = true)).

Definition sealed_dir (dir : segment_dir) (base : Z) (segs : list (list region)) : Prop :=
  ∀ i bodies, segs !! i = Some bodies → ∃ file, dir !! (base + Z.of_nat i) = Some file ∧ sealed_file (base + Z.of_nat i) bodies file.

(** A log's directory at rest: segments [base ..], all sealed but the last. *)
Record dir_ok (dir : segment_dir) (base : Z) (segs : list (list region)) (bodies : list region) : Prop := {
  do_ids : ∀ id, is_Some (dir !! id) ↔ base ≤ id ≤ base + zlen segs;
  do_base : 0 ≤ base ∧ base + zlen segs < 2 ^ 32;
  do_sealed : sealed_dir dir base segs;
  do_last : ∃ file, dir !! (base + zlen segs) = Some file ∧ last_file (base + zlen segs) bodies file;
}.

Lemma seg_file_zlen id bodies rest file : seg_file id bodies rest file → zlen file = seg_end bodies + zlen rest.
Proof using Hfmt. intros [-> _ _ _ _]. rewrite !zlen_app, header_bytes_zlen by done. unfold seg_end. lia. Qed.

Lemma frames_nonneg bodies : 0 ≤ zlen (frames bodies).
Proof using. apply zlen_nonneg. Qed.

(** Reading from where the frames of [b1] end. *)
Lemma seg_file_read id b1 b2 rest file start limit :
  seg_file id (b1 ++ b2) rest file → start = seg_end b1 → start ≤ limit → limit ≤ zlen file →
  bread file start (limit - start) = take (Z.to_nat (limit - start)) (frames b2 ++ rest).
Proof using Hfmt.
  intros Hs -> Hle Hl. pose proof (header_bytes_zlen fmt Hfmt id) as Hh. pose proof (frames_nonneg b1).
  destruct Hs as [-> _ _ _ _]. unfold seg_end in *. rewrite frames_app, <-app_assoc.
  rewrite bread_app_r by (rewrite Hh; lia). rewrite Hh.
  rewrite bread_app_r by lia. replace (SEGMENT_HEADER_LEN + zlen (frames b1) - SEGMENT_HEADER_LEN - zlen (frames b1)) with 0 by lia.
  apply bread_0.
Qed.

Lemma seg_file_read_all id b1 b2 rest file :
  seg_file id (b1 ++ b2) rest file → bread file (seg_end b1) (zlen file - seg_end b1) = frames b2 ++ rest.
Proof using Hfmt.
  intros Hs. pose proof (seg_file_zlen _ _ _ _ Hs) as Hz. pose proof (frames_nonneg b2). pose proof (zlen_nonneg rest).
  unfold seg_end in *. rewrite frames_app, zlen_app in Hz.
  rewrite (seg_file_read id b1 b2 rest) by (done || lia). apply take_ge.
  rewrite length_app. unfold zlen in *. lia.
Qed.

(** Walking a segment from a frame's start. *)
Lemma walk_seg_file {St E} (f : St → Z → region → result St E) id b1 b2 rest we file buf st :
  seg_file id (b1 ++ b2) rest file → stops_with rest we →
  walk_segment f file id (seg_end b1) (zlen file) buf st =
  (let? st := visit_all f st (records_at id (seg_end b1) b2) in Ok (st, we (seg_end (b1 ++ b2)))).
Proof using All.
  intros Hs Hw. pose proof (seg_file_zlen _ _ _ _ Hs) as Hz. pose proof (frames_nonneg b1). pose proof (frames_nonneg b2).
  pose proof (zlen_nonneg rest).
  erewrite (walk_frames f file id (seg_end b1) (zlen file) b2 we rest).
  - unfold seg_end. rewrite frames_app, zlen_app, Z.add_assoc. done.
  - apply Hs.
  - unfold seg_end in *. rewrite frames_app, zlen_app in Hz. unfold SEGMENT_HEADER_LEN in *. lia.
  - lia.
  - eapply Forall_app. apply (sf_bodies _ _ _ _ Hs).
  - by eapply seg_file_read_all.
  - done.
Qed.

Lemma seg_end_nil : seg_end [] = SEGMENT_HEADER_LEN.
Proof using. done. Qed.

(** The whole of a segment. *)
Lemma walk_seg_whole {St E} (f : St → Z → region → result St E) id bodies rest we file buf st :
  seg_file id bodies rest file → stops_with rest we →
  walk_segment f file id SEGMENT_HEADER_LEN (zlen file) buf st =
  (let? st := visit_all f st (records_at id SEGMENT_HEADER_LEN bodies) in Ok (st, we (seg_end bodies))).
Proof using All. intros. rewrite <-seg_end_nil. by apply (walk_seg_file f id [] bodies rest we). Qed.

Lemma visit_all_unit recs : visit_all (E := LogError) (λ (_ : unit) _ _, Ok ()) () recs = Ok ().
Proof using. by induction recs as [|[a b] recs IH]. Qed.

(** The end marker below where reading starts. *)
Lemma sealed_below id bodies file from len :
  sealed_file id bodies file → seg_end bodies ≤ from → from < 2 ^ 32 - 4 → len = zlen file → from + END_MARKER_LEN ≤ len →
  sealed_at_or_below file id from len = Ok (Some (seg_end bodies)).
Proof using All.
  intros [r Hs] Hge Hlt -> Hfit. pose proof (seg_file_zlen _ _ _ _ Hs) as Hz. rewrite zlen_app in Hz. change (zlen marker) with 4 in Hz.
  pose proof (frames_nonneg bodies). pose proof (zlen_nonneg r).
  unfold sealed_at_or_below, END_MARKER_LEN in *. rewrite !Z.min_l by lia.
  assert (bread file SEGMENT_HEADER_LEN (from + 4 - SEGMENT_HEADER_LEN) =
    frames bodies ++ marker ++ take (Z.to_nat (from - seg_end bodies)) r) as Hr.
  { rewrite <-seg_end_nil. rewrite (seg_file_read id [] bodies (marker ++ r)); [|done|done|rewrite seg_end_nil; unfold seg_end, SEGMENT_HEADER_LEN in *; lia|lia].
    rewrite seg_end_nil. unfold seg_end in *. rewrite take_app_ge by (unfold zlen in *; lia). f_equal.
    rewrite take_app_ge by (change (length marker) with 4%nat; unfold zlen in *; unfold SEGMENT_HEADER_LEN in *; lia). f_equal.
    change (length marker) with 4%nat. unfold zlen, SEGMENT_HEADER_LEN in *. f_equal. lia. }
  erewrite (walk_frames _ file id _ _ bodies Sealed); [|apply Hs|unfold seg_end, SEGMENT_HEADER_LEN in *; lia|lia|apply Hs|exact Hr|apply stops_marker].
  rewrite visit_all_unit. cbn [result_bind snd]. fold (seg_end bodies). by rewrite (proj2 (Z.leb_le _ _)).
Qed.

(** ** Records and the cut *)

Lemma records_at_bounds id pos bodies :
  u32 id → 0 ≤ pos → pos + zlen (frames bodies) < 2 ^ 32 →
  Forall (λ r : Z * region, position id pos ≤ r.1 < position id (pos + zlen (frames bodies))) (records_at id pos bodies).
Proof using.
  intros Hid. revert pos. induction bodies as [|b bs IH]; intros pos Hp Hl; [constructor|]. cbn [records_at].
  rewrite frames_cons, zlen_app, frame_length in *. pose proof (zlen_nonneg b). pose proof (zlen_nonneg (frames bs)).
  unfold frame_zlen, FRAME_HEADER_LEN in *. constructor.
  - cbn [fst]. rewrite !position_eq by (unfold u32 in *; lia). lia.
  - eapply Forall_impl; [apply IH; lia|]. intros r. cbn beta. rewrite !position_eq by (unfold u32 in *; lia). lia.
Qed.

Definition from_cut_on (cut : Z) (recs : list (Z * region)) : list (Z * region) := filter (λ r : Z * region, cut ≤ r.1) recs.

Lemma from_cut_app cut l k : from_cut_on cut (l ++ k) = from_cut_on cut l ++ from_cut_on cut k.
Proof using. apply filter_app. Qed.

Lemma from_cut_below cut recs : Forall (λ r : Z * region, r.1 < cut) recs → from_cut_on cut recs = [].
Proof using.
  induction 1 as [|r recs Hr Hrecs IH]; [done|]. unfold from_cut_on in *. by rewrite filter_cons_False by lia.
Qed.

Lemma from_cut_above cut recs : Forall (λ r : Z * region, cut ≤ r.1) recs → from_cut_on cut recs = recs.
Proof using.
  induction 1 as [|r recs Hr Hrecs IH]; [done|]. unfold from_cut_on in *. by rewrite filter_cons_True, IH by lia.
Qed.

Lemma records_at_app id pos b1 b2 :
  records_at id pos (b1 ++ b2) = records_at id pos b1 ++ records_at id (pos + zlen (frames b1)) b2.
Proof using.
  revert pos. induction b1 as [|b b1 IH]; intros pos; [by rewrite Z.add_0_r|].
  cbn [app records_at]. rewrite IH, frames_cons, zlen_app, frame_length, Z.add_assoc. done.
Qed.

(** Where a cut may lie in a sealed segment: at a record or the segment's end, or, when a
    power loss took the records it names, in the zeros past the end marker. *)
Definition cut_in (cut : Z) (bodies : list region) (file : region) : Prop :=
  let start := Z.max (split cut).2 SEGMENT_HEADER_LEN in
  (∃ b1 b2, bodies = b1 ++ b2 ∧ start = seg_end b1) ∨
  (seg_end bodies + END_MARKER_LEN ≤ start ∧ start + 4 ≤ zlen file ∧ get_le file start 4 = 0).

Section open.
Context {St E : Type} (lift : LogError → E) (visit : St → Z → region → result St E).

Lemma visit_all_from_cut cut st recs : visit_all (visit_from_cut visit cut) st recs = visit_all visit st (from_cut_on cut recs).
Proof using.
  revert st. induction recs as [|[a b] recs IH]; intros st; [done|]. cbn [visit_all]. unfold visit_from_cut at 1.
  unfold from_cut_on in *. destruct (Z.ltb_spec a cut).
  - rewrite filter_cons_False by (simpl; lia). apply IH.
  - rewrite filter_cons_True by (simpl; lia). cbn [visit_all]. destruct (visit st a b); [apply IH|done].
Qed.

Lemma cut_split cut : u64 cut → split cut = (segment_of cut, cut mod 2 ^ 32) ∧ u32 (segment_of cut) ∧
  cut = segment_of cut * 2 ^ 32 + cut mod 2 ^ 32.
Proof using.
  intros Hc. rewrite split_pos_eq, segment_of_eq. unfold u64, u32 in *. split_and!; [done|apply Z.div_pos; lia|apply Z.div_lt_upper_bound; lia|].
  pose proof (Z.div_mod cut (2 ^ 32)). lia.
Qed.

Lemma open_sealed_one_spec dir cut id bodies file st ends :
  dir !! id = Some file → sealed_file id bodies file → u32 id → u64 cut →
  (id = segment_of cut → cut_in cut bodies file) →
  open_sealed_one lift visit fmt dir cut id st ends =
  (let? st := visit_all visit st (from_cut_on cut (records_at id SEGMENT_HEADER_LEN bodies)) in
   Ok (st, if id <? segment_of cut then ends else <[id := seg_end bodies]> ends)).
Proof using All.
  intros Hd [r Hs] Hid Hcut Hin. pose proof (seg_file_zlen _ _ _ _ Hs) as Hz. pose proof (sf_len _ _ _ _ Hs) as Hlen.
  rewrite zlen_app in Hz. change (zlen marker) with 4 in Hz. pose proof (frames_nonneg bodies). pose proof (zlen_nonneg r).
  destruct (cut_split cut Hcut) as (Hsp & Hu & Heq). unfold seg_end in Hz. unfold SEGMENT_HEADER_LEN in Hz.
  assert (u32 (seg_end bodies)) as Hue by (unfold u32, seg_end, SEGMENT_HEADER_LEN; lia).
  pose proof (records_at_bounds id SEGMENT_HEADER_LEN bodies Hid ltac:(done) ltac:(unfold SEGMENT_HEADER_LEN; lia)) as Hb.
  fold (seg_end bodies) in Hb. rewrite !position_eq in Hb by (done || unfold u32, SEGMENT_HEADER_LEN; lia).
  pose proof (Z.mod_pos_bound cut (2 ^ 32) ltac:(lia)) as Hmod.
  unfold open_sealed_one. rewrite Hd. change (default [] (Some file)) with file. unfold file_len. rewrite (proj2 (Z.ltb_lt _ _)) by done. cbn [lifted result_bind].
  rewrite (proj2 (Z.ltb_ge _ SEGMENT_HEADER_LEN)) by (unfold SEGMENT_HEADER_LEN; lia).
  rewrite (sf_eq _ _ _ _ Hs) at 1. rewrite check_header_ok by (done || unfold u32, u64 in *; lia). cbn [lifted result_bind]. rewrite Hsp.
  destruct (Z.ltb_spec id (segment_of cut)) as [Hlt|Hge].
  { rewrite from_cut_below; [done|]. eapply Forall_impl; [exact Hb|]. intros x [_ Hx]. cbn beta.
    unfold u32 in *. nia. }
  assert (∀ b1 b2 start, bodies = b1 ++ b2 → start = seg_end b1 →
    Forall (λ x : Z * region, x.1 < cut) (records_at id SEGMENT_HEADER_LEN b1) →
    Forall (λ x : Z * region, cut ≤ x.1) (records_at id (seg_end b1) b2) →
    (let? r := walk_segment (visit_from_cut visit cut) file id start (zlen file) [] st in
     let '(st, walk_end) := r in
     match walk_end with
     | Sealed pos => Ok (st, <[id:=pos]> ends)
     | Unwritten pos =>
       let? at_or_below := lifted lift (sealed_at_or_below file id start (zlen file)) in
       match at_or_below with
       | Some end_ => if (pos =? start) && (SEGMENT_HEADER_LEN <? start) then Ok (st, <[id:=end_]> ends)
                      else corrupt lift "segment is not sealed but is not the last"
       | None => corrupt lift "segment is not sealed but is not the last"
       end
     | Torn _ _ _ => corrupt lift "segment (not the last) is damaged"
     end) =
    (let? st := visit_all visit st (from_cut_on cut (records_at id SEGMENT_HEADER_LEN bodies)) in
     Ok (st, <[id := seg_end bodies]> ends))) as Hwalk.
  { intros b1 b2 start -> -> Hlow Hhigh. rewrite (walk_seg_file _ id b1 b2 (marker ++ r) Sealed) by (done || apply stops_marker).
    rewrite visit_all_from_cut, records_at_app, from_cut_app, (from_cut_below _ (records_at id SEGMENT_HEADER_LEN b1)) by done.
    fold (seg_end b1). by destruct (visit_all _ _ _). }
  pose proof (frames_nonneg bodies) as Hfn.
  assert (∀ b1 b2, bodies = b1 ++ b2 → u32 (seg_end b1) ∧
    Forall (λ x : Z * region, x.1 < id * 2 ^ 32 + seg_end b1) (records_at id SEGMENT_HEADER_LEN b1) ∧
    Forall (λ x : Z * region, id * 2 ^ 32 + seg_end b1 ≤ x.1) (records_at id (seg_end b1) b2)) as Hsplit.
  { intros b1 b2 ->. clear Hwalk. pose proof (frames_nonneg b1). pose proof (frames_nonneg b2).
    unfold seg_end, SEGMENT_HEADER_LEN in *. rewrite frames_app, zlen_app in Hue. unfold u32 in Hue. split; [unfold u32; lia|].
    pose proof (records_at_bounds id 16 b1 Hid ltac:(lia) ltac:(lia)) as Hr1.
    assert (0 ≤ 16 + zlen (frames b1) ∧ 16 + zlen (frames b1) + zlen (frames b2) < 2 ^ 32) as [He1 He2] by lia.
    pose proof (records_at_bounds id (16 + zlen (frames b1)) b2 Hid He1 He2) as Hr2.
    rewrite !position_eq in Hr1, Hr2 by (done || unfold u32; lia).
    split; [eapply Forall_impl; [exact Hr1|]|eapply Forall_impl; [exact Hr2|]]; cbn beta; lia. }
  destruct (Z.eqb_spec id (segment_of cut)) as [Heqid|Hne].
  - specialize (Hin Heqid). unfold cut_in in Hin. rewrite Hsp in Hin. cbn [snd] in Hin. cbv zeta in Hin.
    destruct Hin as [(b1 & b2 & Hb12 & Hst)|(Hpast & Hfit & Hzero)].
    + destruct (Hsplit b1 b2 Hb12) as (Hu1 & Hlow & Hhigh). apply (Hwalk b1 b2); [done|done| |].
      * destruct (Z.le_gt_cases SEGMENT_HEADER_LEN (cut mod 2 ^ 32)) as [Hc|Hc].
        { eapply Forall_impl; [exact Hlow|]. cbn beta. intros x. lia. }
        assert (b1 = []) as ->; [|constructor]. apply zlen_0_nil.
        pose proof (frames_count b1) as Hcnt. pose proof (zlen_nonneg b1). unfold seg_end in Hst.
        pose proof (sf_bodies _ _ _ _ Hs) as Hok. rewrite Hb12, Forall_app in Hok. destruct Hok as [Hok _].
        specialize (Hcnt Hok). lia.
      * eapply Forall_impl; [exact Hhigh|]. cbn beta. intros x. unfold u32 in *. lia.
    + unfold END_MARKER_LEN in *. assert (SEGMENT_HEADER_LEN < cut mod 2 ^ 32) as Hbig by (unfold seg_end in *; lia).
      rewrite Z.max_l in * by lia. rewrite from_cut_below.
      2:{ destruct (Hsplit bodies [] ltac:(by rewrite app_nil_r)) as (_ & Hlow & _). eapply Forall_impl; [exact Hlow|]. cbn beta. intros x. lia. }
      rewrite (walk_frames _ file id _ _ [] Unwritten (bread file (cut mod 2 ^ 32) (zlen file - cut mod 2 ^ 32)));
        [|apply Hs|lia|lia|constructor|done|].
      2:{ apply stops_zero_word; [rewrite bread_length by (unfold in_region; lia); lia|].
          unfold get_le in *. by rewrite bread_bread, Z.add_0_r by lia. }
      cbn [visit_all records_at result_bind].
      rewrite (sealed_below id bodies file); [|by exists r|lia|lia|done|unfold END_MARKER_LEN; lia]. cbn [lifted result_bind].
      rewrite (proj2 (Z.eqb_eq _ _)), (proj2 (Z.ltb_lt _ _)) by (done || (change (zlen (frames [])) with 0; lia)). done.
  - apply (Hwalk [] bodies); [done|by rewrite seg_end_nil|constructor|].
    rewrite seg_end_nil. destruct (Hsplit [] bodies eq_refl) as (_ & _ & Hhigh). rewrite seg_end_nil in Hhigh.
    eapply Forall_impl; [exact Hhigh|]. cbn beta. intros x. unfold SEGMENT_HEADER_LEN. lia.
Qed.

(** The sealed segments, one after the other. *)
Fixpoint ends_of (cut id : Z) (segs : list (list region)) (ends : gmap Z Z) : gmap Z Z :=
  match segs with
  | [] => ends
  | bodies :: segs => ends_of cut (id + 1) segs (if id <? segment_of cut then ends else <[id := seg_end bodies]> ends)
  end.

Definition cut_in_dir (dir : segment_dir) (base cut : Z) (segs : list (list region)) : Prop :=
  ∀ i bodies file, segs !! i = Some bodies → dir !! (base + Z.of_nat i) = Some file →
    base + Z.of_nat i = segment_of cut → cut_in cut bodies file.

Lemma sealed_dir_cons dir base bodies segs : sealed_dir dir base (bodies :: segs) →
  (∃ file, dir !! base = Some file ∧ sealed_file base bodies file) ∧ sealed_dir dir (base + 1) segs.
Proof using.
  intros Hs. split.
  - destruct (Hs 0%nat bodies eq_refl) as (file & Hd & Hf). rewrite Z.add_0_r in *. eauto.
  - intros i bs Hi. destruct (Hs (S i) bs Hi) as (file & Hd & Hf). exists file.
    replace (base + 1 + Z.of_nat i) with (base + Z.of_nat (S i)) by lia. done.
Qed.

Lemma cut_in_dir_cons dir base cut bodies segs : cut_in_dir dir base cut (bodies :: segs) →
  (∀ file, dir !! base = Some file → base = segment_of cut → cut_in cut bodies file) ∧ cut_in_dir dir (base + 1) cut segs.
Proof using.
  intros Hc. split.
  - intros file Hd Heq. apply (Hc 0%nat bodies file eq_refl); by rewrite Z.add_0_r.
  - intros i bs file Hi Hd Heq. replace (base + 1 + Z.of_nat i) with (base + Z.of_nat (S i)) in * by lia. by apply (Hc (S i) bs file).
Qed.

Lemma open_sealed_spec dir base cut segs st ends :
  sealed_dir dir base segs → 0 ≤ base → base + zlen segs < 2 ^ 32 → u64 cut → cut_in_dir dir base cut segs →
  open_sealed lift visit fmt dir cut (seqZ base (zlen segs)) st ends =
  (let? st := visit_all visit st (from_cut_on cut (dir_records base segs)) in Ok (st, ends_of cut base segs ends)).
Proof using All.
  revert base st ends. induction segs as [|bodies segs IH]; intros base st ends Hs Hb Hl Hcut Hin; [done|].
  apply sealed_dir_cons in Hs as [(file & Hd & Hf) Hs]. apply cut_in_dir_cons in Hin as [Hin1 Hin].
  rewrite zlen_cons in *. pose proof (zlen_nonneg segs).
  rewrite seqZ_cons by lia. cbn [open_sealed dir_records ends_of].
  rewrite (open_sealed_one_spec dir cut base bodies file) by (done || (unfold u32; lia) || by apply Hin1).
  rewrite from_cut_app, visit_all_app. destruct (visit_all visit st _) as [st1|e]; [|done]. cbn [result_bind fst snd].
  replace (Z.succ base) with (base + 1) by lia. replace (Z.pred (1 + zlen segs)) with (zlen segs) by lia.
  rewrite IH by (done || lia). done.
Qed.
End open.

Lemma ascending_Sorted l : ascending l → Sorted Z.le l.
Proof using.
  induction 1 as [|x l Hl IH Hx]; constructor; [done|]. destruct Hx; constructor. lia.
Qed.

Lemma list_segments_seq dir base n :
  0 ≤ n → (∀ id, is_Some (dir !! id) ↔ base ≤ id < base + n) → list_segments dir = seqZ base n.
Proof using.
  intros Hn Hd. unfold list_segments. apply (Sorted_unique Z.le).
  - apply Sorted_merge_sort, _.
  - apply ascending_Sorted, seqZ_ascending.
  - rewrite merge_sort_Permutation. apply NoDup_Permutation; [apply NoDup_elements|apply ascending_NoDup, seqZ_ascending|].
    intros id. rewrite elem_of_elements, elem_of_dom, Hd, elem_of_seqZ. done.
Qed.

Lemma contiguous_cons a b l : contiguous (a :: b :: l) = (b =? a + 1) && contiguous (b :: l).
Proof using. done. Qed.

Lemma contiguous_seqZ base n : contiguous (seqZ base n) = true.
Proof using.
  destruct (Z.le_gt_cases n 0); [by rewrite seqZ_nil by lia|]. replace n with (Z.of_nat (Z.to_nat n)) by lia. generalize (Z.to_nat n).
  clear. intros n. revert base. induction n as [|n IH]; intros base; [done|]. rewrite seqZ_cons by lia.
  replace (Z.pred (Z.of_nat (S n))) with (Z.of_nat n) by lia. specialize (IH (Z.succ base)).
  destruct n as [|n]; [done|]. rewrite seqZ_cons in * by lia. rewrite contiguous_cons, IH, andb_true_r. apply Z.eqb_eq. lia.
Qed.

(** ** The last segment *)

Lemma bwrite_tail pre rest bs : bwrite (pre ++ rest) (zlen pre) bs = pre ++ bs ++ drop (length bs) rest.
Proof using.
  unfold bwrite, zlen. rewrite Nat2Z.id, take_app_length, drop_app_ge by lia. do 3 f_equal. lia.
Qed.

Lemma frame_bytes body : Forall byte body → Forall byte (frame body).
Proof using. intros. unfold frame. rewrite !Forall_app. split_and!; [apply le_bytes_byte|apply le_bytes_byte|done]. Qed.

(** A new segment's file holds no frame. *)
Lemma segment_file_ok id size : u32 id → MIN_SEGMENT_SIZE ≤ size < 2 ^ 32 →
  seg_file id [] (bzero (size - SEGMENT_HEADER_LEN)) (segment_file fmt id size).
Proof using Hfmt.
  intros Hid Hs. unfold MIN_SEGMENT_SIZE, SEGMENT_HEADER_LEN in *.
  assert (segment_file fmt id size = header_bytes fmt id ++ bzero (size - 16)) as Heq by (apply segment_file_eq; [done|unfold SEGMENT_HEADER_LEN; lia]).
  split; [exact Heq| | |done|constructor].
  - rewrite Heq. apply Forall_app. split; [by apply header_bytes_byte|apply bzero_byte].
  - rewrite Heq, zlen_app, header_bytes_zlen, bzero_zlen by (done || lia). unfold SEGMENT_HEADER_LEN. lia.
Qed.

(** What [open] has found and repaired so far: the active segment has nothing but zeros past
    its tail. *)
Record opened_ok (base : Z) (segs : list (list region)) (bodies : list region)
    (d : segment_dir) (seg pos : Z) (ends : gmap Z Z) : Prop := {
  oo_base : 0 ≤ base ∧ base + zlen segs < 2 ^ 32;
  oo_segment : seg = base + zlen segs;
  oo_pos : pos = seg_end bodies;
  oo_ids : ∀ id, is_Some (d !! id) ↔ base ≤ id ≤ base + zlen segs;
  oo_sealed : sealed_dir d base segs;
  oo_file : ∃ n file, d !! (base + zlen segs) = Some file ∧ seg_file (base + zlen segs) bodies (bzero n) file;
  oo_ends : ∀ i bs p, segs !! i = Some bs → ends !! (base + Z.of_nat i) = Some p → p = seg_end bs;
}.

Lemma sealed_dir_insert dir base segs id file : base + zlen segs ≤ id → sealed_dir dir base segs → sealed_dir (<[id := file]> dir) base segs.
Proof using.
  intros Hid Hs i bs Hi. destruct (Hs i bs Hi) as (f & Hd & Hf). exists f. split; [|done].
  apply lookup_lt_Some in Hi. rewrite lookup_insert_ne; [done|]. unfold zlen in Hid. lia.
Qed.

Lemma sealed_dir_app dir base segs bodies file :
  sealed_dir dir base segs → dir !! (base + zlen segs) = Some file → sealed_file (base + zlen segs) bodies file →
  sealed_dir dir base (segs ++ [bodies]).
Proof using.
  intros Hs Hd Hf i bs Hi. apply lookup_app_Some in Hi as [Hi|[Hle Hi]]; [by apply Hs|].
  apply list_lookup_singleton_Some in Hi as [Hi <-]. replace (Z.of_nat i) with (zlen segs) by (unfold zlen; lia). eauto.
Qed.

Lemma ends_app (ends : gmap Z Z) base segs bodies :
  (∀ i bs p, segs !! i = Some bs → ends !! (base + Z.of_nat i) = Some p → p = seg_end bs) →
  ∀ i bs p, (segs ++ [bodies]) !! i = Some bs → <[base + zlen segs := seg_end bodies]> ends !! (base + Z.of_nat i) = Some p →
  p = seg_end bs.
Proof using.
  intros He i bs p Hi Hp. apply lookup_app_Some in Hi as [Hi|[Hle Hi]].
  - rewrite lookup_insert_ne in Hp by (apply lookup_lt_Some in Hi; unfold zlen; lia). by eapply He.
  - apply list_lookup_singleton_Some in Hi as [Hi <-]. replace (Z.of_nat i) with (zlen segs) in Hp by (unfold zlen; lia).
    rewrite lookup_insert_eq in Hp. by simplify_eq.
Qed.

(** Sealing the last segment and creating the next. *)
Lemma next_segment size base segs bodies dir file (ends : gmap Z Z) :
  MIN_SEGMENT_SIZE ≤ size < 2 ^ 32 → 0 ≤ base → base + zlen segs + 1 < 2 ^ 32 →
  (∀ id, is_Some (dir !! id) ↔ base ≤ id ≤ base + zlen segs) → sealed_dir dir base segs →
  dir !! (base + zlen segs) = Some file → sealed_file (base + zlen segs) bodies file →
  (∀ i bs p, segs !! i = Some bs → ends !! (base + Z.of_nat i) = Some p → p = seg_end bs) →
  create_segment fmt dir (base + zlen segs + 1) size = Ok (<[base + zlen segs + 1 := segment_file fmt (base + zlen segs + 1) size]> dir) ∧
  opened_ok base (segs ++ [bodies]) [] (<[base + zlen segs + 1 := segment_file fmt (base + zlen segs + 1) size]> dir)
    (base + zlen segs + 1) SEGMENT_HEADER_LEN (<[base + zlen segs := seg_end bodies]> ends).
Proof using Hfmt.
  intros Hsz Hb Hl Hids Hs Hd Hf He. pose proof (zlen_nonneg segs).
  assert (zlen (segs ++ [bodies]) = zlen segs + 1) as Hz by (by rewrite zlen_app).
  split; [unfold create_segment, check_segment_id; by rewrite (proj2 (Z.ltb_ge _ _)) by lia|].
  split; rewrite ?Hz.
  - lia.
  - lia.
  - done.
  - intros id. destruct (decide (id = base + zlen segs + 1)) as [->|Hne].
    + rewrite lookup_insert_eq. split; [lia|eauto].
    + rewrite lookup_insert_ne, Hids by done. lia.
  - eapply sealed_dir_app; [apply sealed_dir_insert; [lia|done]|rewrite lookup_insert_ne by lia; done|done].
  - rewrite Z.add_assoc. eexists _, _. split; [apply lookup_insert_eq|]. apply segment_file_ok; [unfold u32; lia|done].
  - by apply ends_app.
Qed.

(** The segments after a reopening: the same, or a new one after them. *)
Definition extends (segs : list (list region)) (bodies : list region) (segs' : list (list region)) (bodies' : list region) : Prop :=
  (segs' = segs ∧ bodies' = bodies) ∨ (segs' = segs ++ [bodies] ∧ bodies' = []).

Lemma extends_records base segs bodies segs' bodies' : extends segs bodies segs' bodies' →
  dir_records base (segs' ++ [bodies']) = dir_records base (segs ++ [bodies]).
Proof using.
  intros [[-> ->]|[-> ->]]; [done|]. rewrite dir_records_app. cbn [dir_records records_at]. by rewrite !app_nil_r.
Qed.

Lemma lookup_replace (dir : segment_dir) id file file' : dir !! id = Some file →
  ∀ j, is_Some (<[id := file']> dir !! j) ↔ is_Some (dir !! j).
Proof using.
  intros Hd j. destruct (decide (j = id)) as [->|]; [rewrite lookup_insert_eq, Hd; split; eauto|by rewrite lookup_insert_ne].
Qed.

Lemma live_opened size dir base segs bodies rest file ends :
  MIN_SEGMENT_SIZE ≤ size < 2 ^ 32 → 0 ≤ base ∧ base + zlen segs < 2 ^ 32 →
  (∀ id, is_Some (dir !! id) ↔ base ≤ id ≤ base + zlen segs) → sealed_dir dir base segs →
  dir !! (base + zlen segs) = Some file → seg_file (base + zlen segs) bodies rest file →
  (∀ i bs p, segs !! i = Some bs → ends !! (base + Z.of_nat i) = Some p → p = seg_end bs) →
  opened_ok base segs bodies (<[base + zlen segs := zero_past file (seg_end bodies) (zlen file) size]> dir)
    (base + zlen segs) (seg_end bodies) ends.
Proof using Hfmt.
  intros Hsz Hb Hids Hs Hd Hf He. pose proof (seg_file_zlen _ _ _ _ Hf) as Hz. pose proof (zlen_nonneg rest). pose proof (frames_nonneg bodies).
  assert (zlen (header_bytes fmt (base + zlen segs) ++ frames bodies) = seg_end bodies) as Hpre.
  { rewrite zlen_app, header_bytes_zlen by done. done. }
  assert (zero_past file (seg_end bodies) (zlen file) size =
    header_bytes fmt (base + zlen segs) ++ frames bodies ++ bzero (Z.max (zlen file) size - seg_end bodies)) as Hzp.
  { assert (file = (header_bytes fmt (base + zlen segs) ++ frames bodies) ++ rest) as Hfe by (rewrite <-app_assoc; apply Hf).
    rewrite Hfe, <-Hpre. rewrite zero_past_spec; [by rewrite <-app_assoc|]. rewrite (zlen_app _ rest). lia. }
  split; [done|done|done| | | |done].
  - intros id. by rewrite (lookup_replace _ _ file).
  - by apply sealed_dir_insert.
  - eexists _, _. split; [apply lookup_insert_eq|]. destruct Hf as [Hfe Hfb Hfl Hfr Hfo]. split; [exact Hzp| | |done|done].
    + rewrite Hzp. rewrite Hfe in Hfb. rewrite !Forall_app in *. destruct Hfb as (? & ? & _). split_and!; [done|done|apply bzero_byte].
    + rewrite Hzp, app_assoc, zlen_app, Hpre, bzero_zlen; lia.
Qed.

(** ** The log's invariant *)

(** A log over the segments [segs], all sealed, and the active one's [bodies].  The file of a
    rotation that failed may lie above the active segment. *)
Record log_ok (log : SegmentedLog) (base : Z) (segs : list (list region)) (bodies : list region) : Prop := {
  lo_format : format log = fmt;
  lo_size : MIN_SEGMENT_SIZE ≤ segment_size log < 2 ^ 32;
  lo_base : 0 ≤ base ∧ base + zlen segs < 2 ^ 32;
  lo_active : active log = mk_Active (base + zlen segs) (seg_end bodies);
  lo_tail : tail log = position (base + zlen segs) (seg_end bodies);
  lo_ids : ∀ id, id ≠ base + zlen segs + 1 → is_Some (dir log !! id) ↔ base ≤ id ≤ base + zlen segs;
  lo_sealed : sealed_dir (dir log) base segs;
  lo_file : ∃ rest file, dir log !! (base + zlen segs) = Some file ∧ seg_file (base + zlen segs) bodies rest file;
  lo_left : ∀ left, dir log !! (base + zlen segs + 1) = Some left →
    poisoned (rounds log) ≠ None ∧ base + zlen segs + 1 < 2 ^ 32 ∧ last_file (base + zlen segs + 1) [] left ∧
    ∃ file s, dir log !! (base + zlen segs) = Some file ∧ sealed_file (base + zlen segs) bodies file ∧
      synced log !! (base + zlen segs) = Some s ∧ seg_end bodies + END_MARKER_LEN ≤ s;
  lo_rounds : running (state (rounds log)) = false;
  lo_durable : log_durable log ≤ tail log;
  lo_first : first_open_segment log ≤ base + zlen segs ∧ ∃ w s, 
    written log !! (base + zlen segs) = Some w ∧ synced log !! (base + zlen segs) = Some s ∧
      seg_end bodies ≤ w < 2 ^ 32 ∧ SEGMENT_HEADER_LEN ≤ s ≤ w ∧ log_durable log ≤ position (base + zlen segs) s;
  lo_synced : ∀ i bs, segs !! i = Some bs → first_open_segment log ≤ base + Z.of_nat i →
    ∃ s, synced log !! (base + Z.of_nat i) = Some s ∧ seg_end bs + END_MARKER_LEN ≤ s;
  lo_ends : ∀ i bs p, segs !! i = Some bs → sealed_ends log !! (base + Z.of_nat i) = Some p → p = seg_end bs;
  lo_prep : ∀ id file, pending (prep log) = Some (id, Some file) → file = segment_file fmt id (segment_size log);
}.

Section opening.
Context {St E : Type} (lift : LogError → E) (visit : St → Z → region → result St E).

Lemma open_last_spec dir base segs bodies size cut ends :
  dir_ok dir base segs bodies → MIN_SEGMENT_SIZE ≤ size < 2 ^ 32 → base + zlen segs + 1 < 2 ^ 32 →
  (∀ i bs p, segs !! i = Some bs → ends !! (base + Z.of_nat i) = Some p → p = seg_end bs) →
  ∃ d seg pos ends' torn segs' bodies',
    (∀ st, open_last lift visit fmt dir size cut (Some (base + zlen segs)) st ends =
      (let? st := visit_all visit st (from_cut_on cut (records_at (base + zlen segs) SEGMENT_HEADER_LEN bodies)) in
       Ok (mk_Opened st d seg pos ends' torn))) ∧
    opened_ok base segs' bodies' d seg pos ends' ∧
    extends segs bodies segs' bodies'.
Proof using All.
  intros [Hids Hb Hs (file & Hd & Hlast)] Hsz Hl He. unfold open_last. rewrite Hd. change (default [] (Some file)) with file.
  pose proof (zlen_nonneg segs).
  destruct Hlast as [(rest & we & Hf & Hw)|(-> & Hlen & Hun)].
  - pose proof (sf_len _ _ _ _ Hf) as Hlen. pose proof (seg_file_zlen _ _ _ _ Hf) as Hz. pose proof (frames_nonneg bodies).
    pose proof (zlen_nonneg rest). unfold file_len. rewrite (proj2 (Z.ltb_lt _ _)) by done. cbn [lifted result_bind].
    rewrite (proj2 (Z.ltb_ge _ SEGMENT_HEADER_LEN)) by (unfold seg_end, SEGMENT_HEADER_LEN in *; lia). cbn [orb].
    assert (header_is_blank file = false) as -> by (rewrite (sf_eq _ _ _ _ Hf); by apply header_not_blank).
    assert (check_header fmt file (base + zlen segs) = Ok ()) as Hch.
    { rewrite (sf_eq _ _ _ _ Hf). apply check_header_ok; [done|unfold u64; lia]. }
    rewrite Hch. cbn [lifted result_bind].
    assert (Forall byte rest) as Hrb.
    { pose proof (sf_bytes _ _ _ _ Hf) as Hfb. rewrite (sf_eq _ _ _ _ Hf), !Forall_app in Hfb. apply Hfb. }
    destruct (stops_cases rest we Hrb Hw) as [Htail|(-> & r & ->)].
    + specialize (Htail (seg_end bodies)). destruct (we (seg_end bodies)) as [p|p|p bytes reason] eqn:Hwe; [|done|]; subst p;
        (eexists _, _, _, ends, _, segs, bodies; split; [|split; [by eapply (live_opened size dir)|by left]]);
        intros st; rewrite (walk_seg_whole _ _ bodies rest we) by done; rewrite visit_all_from_cut;
        (destruct (visit_all visit st _) as [st'|e]; [|done]); cbn [result_bind]; by rewrite Hwe.
    + destruct (next_segment size base segs bodies dir file ends) as [Hc Ho];
        [done|lia|done|done|done|done|by exists r|done|].
      eexists _, _, _, _, _, (segs ++ [bodies]), []. split; [|split; [exact Ho|by right]].
      intros st. rewrite (walk_seg_whole _ _ bodies _ Sealed) by done. rewrite visit_all_from_cut.
        destruct (visit_all visit st _) as [st'|e]; [|done]. cbn [result_bind]. rewrite Hc. done.
  - unfold file_len. rewrite (proj2 (Z.ltb_lt _ _)) by done. cbn [lifted result_bind].
    assert ((zlen file <? SEGMENT_HEADER_LEN) || header_is_blank file = true) as ->.
    { apply orb_true_iff. destruct Hun; [left; by apply Z.ltb_lt|by right]. }
    unfold create_segment, check_segment_id. rewrite (proj2 (Z.ltb_ge _ _)) by lia. cbn [lifted result_bind].
    eexists _, _, _, ends, _, segs, []. split; [|split; [|by left]].
    + intros st. cbn [records_at]. unfold from_cut_on. rewrite filter_nil. done.
    + split; [done|done|done| | | |done].
      * intros id. by rewrite (lookup_replace _ _ file).
      * by apply sealed_dir_insert.
      * eexists _, _. split; [apply lookup_insert_eq|]. apply segment_file_ok; [unfold u32; lia|done].
Qed.

(** New appends land above every position the saved progress names. *)
Lemma open_past_progress_spec size base segs bodies furthest d seg pos ends torn :
  opened_ok base segs bodies d seg pos ends →
  MIN_SEGMENT_SIZE ≤ size < 2 ^ 32 → base + zlen segs + 1 < 2 ^ 32 → u64 furthest → segment_of furthest ≤ base + zlen segs →
  ∃ d' seg' pos' ends' segs' bodies',
    (∀ st : St, open_past_progress lift fmt size furthest (mk_Opened st d seg pos ends torn) = Ok (mk_Opened st d' seg' pos' ends' torn)) ∧
    opened_ok base segs' bodies' d' seg' pos' ends' ∧
    extends segs bodies segs' bodies' ∧ furthest ≤ position seg' pos'.
Proof using All.
  intros Ho Hsz Hl Hf Hseg. pose proof Ho as [Hb -> -> Hids Hs (n & file & Hd & Hfile) He].
  unfold open_past_progress. cbn [o_segment o_pos o_dir o_ends o_st o_torn].
  rewrite (proj2 (Z.ltb_ge _ _)) by done. pose proof (zlen_nonneg segs).
  destruct (Z.ltb_spec (position (base + zlen segs) (seg_end bodies)) furthest) as [Hlt|Hge].
  2:{ exists d, (base + zlen segs), (seg_end bodies), ends, segs, bodies. split; [done|]. split; [done|]. split; [by left|lia]. }
  rewrite Hd. change (default [] (Some file)) with file.
  set (file' := bwrite file (seg_end bodies) (le_bytes 4 END_MARKER)).
  assert (sealed_file (base + zlen segs) bodies file') as Hsf.
  { assert (zlen (header_bytes fmt (base + zlen segs) ++ frames bodies) = seg_end bodies) as Hpre.
    { rewrite zlen_app, header_bytes_zlen by done. done. }
    destruct Hfile as [Hfe Hfb Hfl Hfr Hfo]. rewrite app_assoc in Hfe.
    assert (file' = (header_bytes fmt (base + zlen segs) ++ frames bodies) ++ marker ++ drop 4 (bzero n)) as Hfe'.
    { unfold file'. rewrite Hfe, <-Hpre. apply bwrite_tail. }
    exists (drop 4 (bzero n)). rewrite <-app_assoc in Hfe'. split; [exact Hfe'| | |done|done].
    - rewrite Hfe'. rewrite Hfe, !Forall_app in Hfb. destruct Hfb as [[Hb1 Hb2] _]. rewrite !Forall_app.
      split_and!; [done|done|apply le_bytes_byte|apply Forall_drop, bzero_byte].
    - rewrite Hfe', app_assoc, zlen_app, Hpre, zlen_app. change (zlen marker) with 4. rewrite Hfe, zlen_app, Hpre in Hfl.
      unfold zlen in *. rewrite length_drop. unfold END_MARKER_LEN in *. lia. }
  destruct (next_segment size base segs bodies (<[base + zlen segs := file']> d) file' ends) as [Hc Ho'];
    [done|lia|done| |apply sealed_dir_insert; [lia|done]|apply lookup_insert_eq|done|done|].
  { intros id. by rewrite (lookup_replace _ _ file). }
  eexists _, _, _, _, (segs ++ [bodies]), []. split; [intros st; by rewrite Hc|]. split; [exact Ho'|]. split; [by right|].
  rewrite position_eq by (unfold u32, SEGMENT_HEADER_LEN; lia). rewrite segment_of_eq in Hseg.
  pose proof (Z.div_mod furthest (2 ^ 32) ltac:(lia)). pose proof (Z.mod_pos_bound furthest (2 ^ 32) ltac:(lia)). unfold SEGMENT_HEADER_LEN. nia.
Qed.

(** The saved progress fits the directory. *)
Record from_ok (dir : segment_dir) (base : Z) (segs : list (list region)) (from : OpenFrom) : Prop := {
  fr_cut : u64 (default 0 (from_cut from));
  fr_none : from_cut from = None → base = 0;
  fr_oldest : base ≤ segment_of (default 0 (from_cut from));
  fr_in : cut_in_dir dir base (default 0 (from_cut from)) segs;
  fr_furthest : u64 (from_furthest from) ∧ segment_of (from_furthest from) ≤ base + zlen segs;
}.

Lemma opened_log_ok base segs bodies size d seg pos ends :
  opened_ok base segs bodies d seg pos ends → MIN_SEGMENT_SIZE ≤ size < 2 ^ 32 →
  log_ok (mk_SegmentedLog d fmt size (mk_Active seg pos) (position seg pos) (new (position seg pos)) prep_new ends
            {[seg := pos]} {[seg := pos]} seg) base segs bodies.
Proof using All.
  intros [Hb -> -> Hids Hs (n & file & Hd & Hf) He] Hsz. pose proof (sf_room _ _ _ _ Hf) as Hroom. pose proof (frames_nonneg bodies).
  split; cbn [dir format segment_size active tail rounds prep sealed_ends written synced first_open_segment]; try done.
  - by eauto.
  - intros left Hl. assert (is_Some (d !! (base + zlen segs + 1))) as Hi by eauto. apply Hids in Hi. lia.
  - split; [done|]. exists (seg_end bodies), (seg_end bodies). rewrite !lookup_singleton_eq. unfold seg_end, SEGMENT_HEADER_LEN, END_MARKER_LEN in *.
    split_and!; try lia; done.
  - intros i bs Hi Hle. apply lookup_lt_Some in Hi. unfold zlen in Hle. lia.
Qed.

Lemma ends_of_below cut id segs (ends : gmap Z Z) j : j < id → ends_of cut id segs ends !! j = ends !! j.
Proof using.
  revert id ends. induction segs as [|bs segs IH]; intros id ends Hj; [done|]. cbn [ends_of]. rewrite IH by lia.
  case_match; [done|]. by rewrite lookup_insert_ne by lia.
Qed.

Lemma ends_of_spec cut id segs (ends : gmap Z Z) : (∀ j, id ≤ j → ends !! j = None) →
  ∀ i bs p, segs !! i = Some bs → ends_of cut id segs ends !! (id + Z.of_nat i) = Some p → p = seg_end bs.
Proof using.
  revert id ends. induction segs as [|b segs IH]; intros id ends Hn i bs p Hi Hp; [done|]. cbn [ends_of] in Hp.
  destruct i as [|i]; simplify_eq/=.
  - rewrite Z.add_0_r, ends_of_below in Hp by lia. case_match; [by rewrite Hn in Hp by lia|].
    rewrite lookup_insert_eq in Hp. by simplify_eq.
  - replace (id + Z.of_nat (S i)) with (id + 1 + Z.of_nat i) in Hp by lia. eapply IH; [|exact Hi|exact Hp].
    intros j Hj. case_match; [apply Hn; lia|]. rewrite lookup_insert_ne by lia. apply Hn. lia.
Qed.

(** [open] of a directory with segments: every record at or above the cut is handed over, in
    order; the log that results holds the same records, nothing past its tail, and its tail
    is above what the progress names. *)
Lemma open_spec dir base segs bodies size from :
  dir_ok dir base segs bodies → from_ok dir base segs from → size < 2 ^ 32 → base + zlen segs + 2 < 2 ^ 32 →
  ∃ log torn segs' bodies',
    (∀ st, open lift visit dir fmt size from st =
      (let? st := visit_all visit st (from_cut_on (default 0 (from_cut from)) (dir_records base (segs ++ [bodies]))) in
       Ok (st, log, mk_OpenReport (tail log) torn))) ∧
    log_ok log base segs' bodies' ∧ dir_records base (segs' ++ [bodies']) = dir_records base (segs ++ [bodies]) ∧
    zlen segs' ≤ zlen segs + 2 ∧
    from_furthest from ≤ tail log ∧ log_durable log = tail log ∧ poisoned (rounds log) = None.
Proof using All.
  intros Hdir [Hcut Hnone Hold Hin [Hfu Hfs]] Hsz Hl. pose proof Hdir as [Hids Hb Hs _]. pose proof (zlen_nonneg segs).
  set (cut := default 0 (from_cut from)) in *. set (sz := Z.max size MIN_SEGMENT_SIZE).
  assert (MIN_SEGMENT_SIZE ≤ sz < 2 ^ 32) as Hsz' by (unfold sz, MIN_SEGMENT_SIZE; lia).
  assert (list_segments dir = seqZ base (zlen segs + 1)) as Hls.
  { apply list_segments_seq; [lia|]. intros id. rewrite Hids. lia. }
  assert (∀ n, 0 ≤ n → seqZ base (n + 1) = seqZ base n ++ [base + n]) as Hsnoc.
  { intros n Hn. rewrite seqZ_app by lia. by rewrite (seqZ_cons _ 1). }
  destruct (open_last_spec dir base segs bodies sz cut (ends_of cut base segs ∅)) as (d & seg & pos & ends & torn & segs1 & bodies1 & Hlast & Ho & Hx);
    [done|done|lia|by apply ends_of_spec|].
  assert (zlen segs1 ≤ zlen segs + 1) as Hz1.
  { destruct Hx as [[-> ->]|[-> ->]]; rewrite ?zlen_app; change (zlen [bodies]) with 1; lia. }
  assert (zlen segs ≤ zlen segs1) as Hz1'.
  { destruct Hx as [[-> ->]|[-> ->]]; rewrite ?zlen_app; change (zlen [bodies]) with 1; lia. }
  destruct (open_past_progress_spec sz base segs1 bodies1 (from_furthest from) d seg pos ends torn)
    as (d' & seg' & pos' & ends' & segs2 & bodies2 & Hpast & Ho' & Hx' & Hfur); [done|done|lia|done|lia|].
  assert (zlen segs2 ≤ zlen segs1 + 1) as Hz2.
  { destruct Hx' as [[-> ->]|[-> ->]]; rewrite ?zlen_app; change (zlen [bodies1]) with 1; lia. }
  eexists _, torn, segs2, bodies2. split; [|split; [by apply (opened_log_ok base segs2 bodies2 sz d' seg' pos' ends')|]].
  - intros st. unfold open. fold sz. rewrite Hls, contiguous_seqZ. cbn [negb].
    assert (check_cut lift (from_cut from) (head (seqZ base (zlen segs + 1))) = Ok ()) as ->.
    { rewrite seqZ_cons by lia. cbn [head]. unfold check_cut, cut in *. destruct (from_cut from) as [c|]; cbn [default] in *.
      - rewrite (proj2 (Z.ltb_ge _ _)); [done|exact Hold].
      - rewrite (Hnone eq_refl). done. }
    cbn [result_bind]. fold cut. rewrite Hsnoc, last_snoc by lia. rewrite length_app.
    replace (length (seqZ base (zlen segs)) + length [(base + zlen segs)%Z] - 1)%nat with (length (seqZ base (zlen segs))) by (simpl; lia).
    rewrite take_app_length, open_sealed_spec by (done || lia).
    rewrite dir_records_app, from_cut_app, visit_all_app. destruct (visit_all visit st _) as [st1|e]; [|done]. cbn [result_bind fst snd].
    rewrite Hlast. cbn [dir_records]. rewrite app_nil_r. destruct (visit_all visit st1 _) as [st2|e]; [|done]. cbn [result_bind].
    by rewrite Hpast.
  - split; [by erewrite (extends_records _ segs1), (extends_records _ segs)|]. split; [lia|]. done.
Qed.

(** [open] of a directory without segments: a new log. *)
Lemma open_empty size st :
  size < 2 ^ 32 →
  ∃ log, open lift visit ∅ fmt size (mk_OpenFrom None 0) st = Ok (st, log, mk_OpenReport (tail log) 0) ∧
    log_ok log 0 [] [] ∧ log_durable log = tail log ∧ poisoned (rounds log) = None.
Proof using All.
  intros Hsz. set (sz := Z.max size MIN_SEGMENT_SIZE).
  assert (MIN_SEGMENT_SIZE ≤ sz < 2 ^ 32) as Hsz' by (unfold sz, MIN_SEGMENT_SIZE; lia).
  assert (list_segments ∅ = []) as Hls.
  { apply (list_segments_seq ∅ 0 0); [done|]. intros id. rewrite lookup_empty. split; [by intros []|lia]. }
  exists (mk_SegmentedLog (<[0 := segment_file fmt 0 sz]> ∅) fmt sz (mk_Active 0 SEGMENT_HEADER_LEN) (position 0 SEGMENT_HEADER_LEN)
    (new (position 0 SEGMENT_HEADER_LEN)) prep_new ∅ {[0 := SEGMENT_HEADER_LEN]} {[0 := SEGMENT_HEADER_LEN]} 0).
  split; [unfold open; rewrite Hls; reflexivity|]. split; [|done]. fold sz. apply (opened_log_ok 0 [] [] sz); [|done].
  split; [done|done|done| |done| |done].
  - intros id. change (0 + zlen []) with 0. destruct (decide (id = 0)) as [->|].
    + rewrite lookup_insert_eq. split; [lia|eauto].
    + rewrite lookup_insert_ne, lookup_empty by done. split; [by intros []|lia].
  - eexists _, _. split; [apply lookup_insert_eq|]. by apply segment_file_ok.
Qed.
End opening.
End shapes.
