(* ===== verification/LogWrites.v ===== *)
(** * LogWrites: what appends, rotations, commits and deletions keep of a log

    Each operation of segmented_log.rs against the invariant [log_ok]: the records it adds
    or keeps, what it makes durable, and that a failure leaves the records as they were. *)
From S2P Require Import Prelude Slices Bytes LogProgress CommitRounds SegmentedLog LogFrames LogOpen.
#[local] Open Scope minnal_scope.

Section writes.
Context `{CrcLaws} (fmt : LogFormat) (Hfmt : format_ok fmt).

#[local] Abbreviation log_ok := (log_ok fmt).
#[local] Abbreviation seg_file := (seg_file fmt).

(** The records of a log. *)
Definition records_of (base : Z) (segs : list (list region)) (bodies : list region) : list (Z * region) :=
  dir_records base (segs ++ [bodies]).

Lemma records_of_snoc base segs bodies body :
  records_of base segs (bodies ++ [body]) =
  records_of base segs bodies ++ [(position (base + zlen segs) (seg_end bodies), body)].
Proof using.
  unfold records_of. rewrite !dir_records_app. cbn [dir_records]. rewrite !app_nil_r, records_at_app, app_assoc. done.
Qed.

Lemma records_of_next base segs bodies : records_of base (segs ++ [bodies]) [] = records_of base segs bodies.
Proof using. unfold records_of. rewrite (dir_records_app base (segs ++ [bodies])). cbn [dir_records records_at]. by rewrite !app_nil_r. Qed.

Lemma active_file_eq log base segs bodies file :
  log_ok log base segs bodies → dir log !! (base + zlen segs) = Some file → active_file log = file.
Proof using. intros Hl Hd. unfold active_file. rewrite (lo_active _ _ _ _ _ Hl). cbn [a_segment_id]. by rewrite Hd. Qed.

(** Bytes written at the tail leave the frames below it. *)
Lemma seg_file_write id bodies rest file bs :
  seg_file id bodies rest file → Forall byte bs → seg_end bodies + zlen bs < 2 ^ 32 →
  seg_file id bodies (bs ++ drop (length bs) rest) (bwrite file (seg_end bodies) bs).
Proof using Hfmt.
  intros [Hfe Hfb Hfl Hfr Hfo] Hb Hl.
  assert (zlen (header_bytes fmt id ++ frames bodies) = seg_end bodies) as Hpre.
  { rewrite zlen_app, header_bytes_zlen by done. done. }
  rewrite app_assoc in Hfe.
  assert (bwrite file (seg_end bodies) bs = (header_bytes fmt id ++ frames bodies) ++ bs ++ drop (length bs) rest) as Hw.
  { rewrite Hfe, <-Hpre. apply bwrite_tail. }
  rewrite <-app_assoc in Hw. split; [exact Hw| | |done|done].
  - rewrite Hw. rewrite Hfe, !Forall_app in Hfb. destruct Hfb as [[Hb1 Hb2] Hb3]. rewrite !Forall_app. split_and!; [done|done|done|].
    by apply Forall_drop.
  - rewrite Hw, app_assoc, zlen_app, Hpre, zlen_app. rewrite Hfe, zlen_app, Hpre in Hfl.
    unfold zlen in *. rewrite length_drop. lia.
Qed.

(** A whole frame written there is one more body. *)
Lemma seg_file_frame id bodies rest file body :
  seg_file id bodies (frame body ++ rest) file → body_ok body → seg_end bodies + frame_zlen body + END_MARKER_LEN < 2 ^ 32 →
  seg_file id (bodies ++ [body]) rest file ∧ seg_end (bodies ++ [body]) = seg_end bodies + frame_zlen body.
Proof using.
  intros [Hfe Hfb Hfl Hfr Hfo] Hok Hl.
  assert (seg_end (bodies ++ [body]) = seg_end bodies + frame_zlen body) as He.
  { unfold seg_end. rewrite frames_app, zlen_app, frames_one, frame_length. lia. }
  split; [|done]. split; [|done|done|lia|by apply Forall_app; split; [|constructor]].
  rewrite frames_app, frames_one, <-app_assoc. done.
Qed.

Lemma no_leftover log base segs bodies :
  log_ok log base segs bodies → poisoned (rounds log) = None → dir log !! (base + zlen segs + 1) = None.
Proof using.
  intros Hl Hp. destruct (dir log !! _) as [left|] eqn:Hd; [|done]. by destruct (lo_left _ _ _ _ _ Hl left Hd) as [Hn _].
Qed.

(** Rewriting the active segment's file past the tail. *)
Lemma log_ok_rest log base segs bodies rest file' :
  log_ok log base segs bodies → dir log !! (base + zlen segs + 1) = None → seg_file (base + zlen segs) bodies rest file' →
  log_ok (write_active log file') base segs bodies.
Proof using.
  intros Hl Hno Hf. pose proof Hl as [Hfm Hsz Hb Ha Ht Hids Hs (rest0 & file0 & Hd0 & Hf0) Hleft Hr Hdur Hfirst Hsy He Hp].
  unfold write_active. rewrite Ha. cbn [a_segment_id].
  split; cbn [dir format segment_size active tail rounds prep sealed_ends written synced first_open_segment set_dir]; try done.
  - intros id Hne. rewrite (lookup_replace _ _ file0) by done. by apply Hids.
  - by apply sealed_dir_insert.
  - exists rest, file'. by rewrite lookup_insert_eq.
  - intros left. rewrite lookup_insert_ne, Hno by lia. done.
Qed.

Lemma write_some_bytes bs fails : Forall byte bs → ∃ bs', (∀ file at_, write_some file at_ bs fails = bwrite file at_ bs') ∧
  Forall byte bs' ∧ zlen bs' ≤ zlen bs ∧ (fails = None → bs' = bs).
Proof using.
  intros Hb. destruct fails as [n|]; [exists (take n bs)|by exists bs]. split_and!; [done|by apply Forall_take| |done].
  unfold zlen. rewrite length_take. lia.
Qed.

Lemma prep_ok_start p id size header spawned filled :
  (∀ j file, pending p = Some (j, Some file) → file = segment_file fmt j size) →
  zero_fill size header = segment_file fmt id size →
  ∀ j file, pending (prep_start p id size header spawned filled) = Some (j, Some file) → file = segment_file fmt j size.
Proof using.
  intros Hp Hz j file. unfold prep_start. repeat case_match; cbn [pending]; intros Hj; simplify_eq; eauto.
Qed.

Lemma zero_fill_loop_spec fuel chunk offset size : (Z.to_nat (size - offset) ≤ fuel)%nat → 0 < chunk → 0 ≤ offset ≤ size →
  zero_fill_loop fuel (bzero offset) chunk offset size = bzero size.
Proof using.
  revert offset. induction fuel as [|fuel IH]; intros offset Hf Hc Ho; cbn [zero_fill_loop].
  { by replace offset with size by lia. }
  destruct (Z.ltb_spec offset size); [|by replace offset with size by lia].
  assert (bwrite (bzero offset) offset (bzero (Z.min chunk (size - offset))) = bzero (offset + Z.min chunk (size - offset))) as ->.
  { pose proof (bwrite_tail (bzero offset) [] (bzero (Z.min chunk (size - offset)))) as Hw.
    rewrite app_nil_r, bzero_zlen in Hw by lia. rewrite Hw, drop_nil, app_nil_r. apply bzero_app; lia. }
  apply IH; lia.
Qed.

(** A segment prepared ahead is the segment [create_segment] makes. *)
Lemma zero_fill_segment id size : SEGMENT_HEADER_LEN ≤ size → zero_fill size (header_bytes fmt id) = segment_file fmt id size.
Proof using Hfmt.
  intros Hs. rewrite segment_file_eq by done. pose proof (header_bytes_zlen fmt Hfmt id) as Hh. unfold SEGMENT_HEADER_LEN in *.
  assert (zero_fill_loop (Z.to_nat size) [] (Z.min (Z.shiftl 1 20) size) 0 size = bzero size) as Hz.
  { apply (zero_fill_loop_spec (Z.to_nat size) _ 0); [lia| |lia]. change (Z.shiftl 1 20) with 1048576. lia. }
  unfold zero_fill. rewrite Hz. rewrite bool_decide_false by (intros Hn; rewrite Hn in Hh; done).
  replace size with (16 + (size - 16)) at 1 by lia. rewrite <-bzero_app by lia.
  pose proof (bwrite_tail [] (bzero 16 ++ bzero (size - 16)) (header_bytes fmt id)) as Hw. cbn [app] in Hw. rewrite zlen_nil in Hw.
  rewrite Hw. f_equal. apply drop_app_length'. unfold zlen, bzero in *. rewrite length_replicate. lia.
Qed.

Lemma set_prep_if (b : bool) log p :
  (if b then set_prep log p else log) = set_prep log (if b then p else prep log).
Proof using. by destruct log, b. Qed.

(** What an append or a rotation leaves: a log with the same records or one more, durable at
    least as far. *)
Lemma append_frame_spec io log base segs bodies body log' r :
  log_ok log base segs bodies → poisoned (rounds log) = None → Forall byte body → body_ok body →
  seg_end bodies + frame_zlen body + END_MARKER_LEN ≤ segment_size log →
  append_frame io log (frame body) = (log', r) →
  rounds log' = rounds log ∧
  match r with
  | Ok (s, e) => log_ok log' base segs (bodies ++ [body]) ∧ s = tail log ∧ e = tail log'
  | Err _ => log_ok log' base segs bodies ∧ io_write io ≠ None
  end.
Proof using All.
  intros Hl Hpn Hb Hok Hfit Ha. pose proof (no_leftover _ _ _ _ Hl Hpn) as Hno.
  pose proof (lo_file _ _ _ _ _ Hl) as (rest & file & Hd & Hf). pose proof (active_file_eq _ _ _ _ _ Hl Hd) as Haf.
  pose proof (lo_size _ _ _ _ _ Hl) as Hsz. pose proof (frame_length body) as Hfl. pose proof (proj1 Hok) as Hpos.
  unfold append_frame in Ha. rewrite (lo_active _ _ _ _ _ Hl), Haf in Ha. cbn [a_segment_id a_pos] in Ha.
  assert (Forall byte (frame body)) as Hfb by by apply frame_bytes.
  destruct (write_some_bytes (frame body) (io_write io) Hfb) as (bs & Hw & Hbs & Hbl & Hbe). rewrite Hw in Ha.
  unfold END_MARKER_LEN in *.
  pose proof (seg_file_write _ _ _ _ bs Hf Hbs ltac:(lia)) as Hf'.
  pose proof (log_ok_rest log base segs bodies _ _ Hl Hno Hf') as Hl'.
  destruct (io_write io) as [n|] eqn:Hio; [by simplify_eq|]. rewrite (Hbe eq_refl) in *. clear Hw Hbs Hbl Hbe.
  assert (seg_end bodies + frame_zlen body + 4 < 2 ^ 32) as Hroom by lia.
  destruct (seg_file_frame _ _ _ _ _ Hf' Hok Hroom) as [Hf2 He2].
  rewrite set_prep_if in Ha. injection Ha as <- <-. rewrite Hfl, <-He2. split; [done|].
  split; [|split; [by rewrite (lo_tail _ _ _ _ _ Hl)|done]].
  pose proof Hl' as [Hfm' Hsz' Hb' Ha' Ht' Hids' Hs' _ Hleft' Hr' Hdur' Hfirst' Hsy' He' Hp'].
  destruct Hfirst' as (Hfo & w & s & Hwr & Hsn & Hwb & Hsb & Hds).
  unfold write_active in *. rewrite (lo_active _ _ _ _ _ Hl) in *. cbn [a_segment_id] in *.
  assert (u32 (base + zlen segs) ∧ u32 (seg_end bodies) ∧ u32 (seg_end (bodies ++ [body]))) as (Hu1 & Hu2 & Hu3).
  { pose proof (zlen_nonneg segs). pose proof (frames_nonneg bodies). rewrite He2. unfold u32, seg_end, frame_zlen, FRAME_HEADER_LEN, SEGMENT_HEADER_LEN in *. lia. }
  split; cbn [dir format segment_size active tail rounds prep sealed_ends written synced first_open_segment set_dir set_tail set_prep set_active set_written note_written log_durable] in *; try done.
  - eexists _, _. split; [apply lookup_insert_eq|exact Hf2].
  - rewrite lookup_insert_ne, Hno by lia. done.
  - pose proof (lo_durable _ _ _ _ _ Hl) as Hdl. rewrite (lo_tail _ _ _ _ _ Hl) in Hdl.
    change (log_durable log ≤ position (base + zlen segs) (seg_end (bodies ++ [body]))). rewrite !position_eq in * by done. unfold frame_zlen, FRAME_HEADER_LEN in *. lia.
  - split; [done|]. exists (Z.max w (seg_end (bodies ++ [body]))), s. rewrite lookup_insert_eq, Hwr. cbn [default].
    unfold log_durable in *. cbn [rounds set_dir set_tail set_prep set_active set_written note_written] in *. unfold u32 in *.
    split_and!; try done; lia.
  - intros j f. case_match; [|apply Hp']. apply (prep_ok_start _ (base + zlen segs + 1)); [apply Hp'|].
    rewrite Hfm'. apply zero_fill_segment. unfold MIN_SEGMENT_SIZE, SEGMENT_HEADER_LEN in *. lia.
Qed.

(** ** Rotation, a step at a time *)

(** Setting the fields that the records do not depend on. *)
Ltac log_fields :=
  split; cbn [dir format segment_size active tail rounds prep sealed_ends written synced first_open_segment
    set_dir set_tail set_prep set_active set_written set_synced set_rounds set_ends note_written]; try done.

Lemma note_written_ok log base segs bodies end_ :
  log_ok log base segs bodies → end_ < 2 ^ 32 → log_ok (note_written log (base + zlen segs) end_) base segs bodies.
Proof using All.
  intros [Hfm Hsz Hb Ha Ht Hids Hs Hf Hleft Hr Hdur (Hfo & w & s & Hw & Hsn & Hwb & Hsb & Hds) Hsy He Hp] Hend. log_fields.
  split; [done|]. exists (Z.max w end_), s. rewrite lookup_insert_eq, Hw. cbn [default].
  split_and!; try done; lia.
Qed.

Lemma sync_file_ok log base segs bodies b :
  log_ok log base segs bodies → log_ok (sync_file log (base + zlen segs) b) base segs bodies.
Proof using All.
  intros Hl. destruct b; [|done]. pose proof Hl as [Hfm Hsz Hb Ha Ht Hids Hs Hf Hleft Hr Hdur (Hfo & w & s & Hw & Hsn & Hwb & Hsb & Hds) Hsy He Hp].
  unfold sync_file. rewrite Hw, Hsn. cbn [default]. log_fields.
  - intros left Hd. destruct (Hleft left Hd) as (? & ? & ? & file & s' & ? & ? & Hs' & ?). split; [done|split; [done|split; [done|]]].
    exists file, (Z.max s w). rewrite lookup_insert_eq. split_and!; try done. rewrite Hsn in Hs'. simplify_eq. lia.
  - split; [done|]. exists w, (Z.max s w). rewrite lookup_insert_eq. split_and!; try done; try lia.
    unfold log_durable in *. cbn [rounds set_synced]. etrans; [exact Hds|].
    destruct Hb. pose proof (zlen_nonneg segs). unfold SEGMENT_HEADER_LEN in *. rewrite !position_eq by (unfold u32; lia). lia.
  - intros i bs Hi Hle. rewrite lookup_insert_ne; [by apply Hsy|]. apply lookup_lt_Some in Hi. unfold zlen. lia.
Qed.

Lemma set_rounds_ok log base segs bodies r :
  log_ok log base segs bodies → running (state r) = false →
  (poisoned (rounds log) ≠ None → poisoned r ≠ None) →
  durable (state r) ≤ tail log →
  (∀ s, synced log !! (base + zlen segs) = Some s → durable (state r) ≤ position (base + zlen segs) s) →
  log_ok (set_rounds log r) base segs bodies.
Proof using All.
  intros [Hfm Hsz Hb Ha Ht Hids Hs Hf Hleft Hr Hdur (Hfo & w & s & Hw & Hsn & Hwb & Hsb & Hds) Hsy He Hp] Hrun Hpo Hd1 Hd2. log_fields.
  - intros left Hd. destruct (Hleft left Hd) as (? & ? & ?). split; [by apply Hpo|done].
  - split; [done|]. exists w, s. split_and!; try (done || lia). by apply Hd2.
Qed.

Lemma set_ends_ok log base segs bodies :
  log_ok log base segs bodies → log_ok (set_ends log (<[base + zlen segs := seg_end bodies]> (sealed_ends log))) base segs bodies.
Proof using All.
  intros [Hfm Hsz Hb Ha Ht Hids Hs Hf Hleft Hr Hdur Hfirst Hsy He Hp]. log_fields.
  intros i bs p Hi. rewrite lookup_insert_ne; [by apply He|]. apply lookup_lt_Some in Hi. unfold zlen. lia.
Qed.

Lemma set_prep_ok log base segs bodies p :
  log_ok log base segs bodies → (∀ id file, pending p = Some (id, Some file) → file = segment_file fmt id (segment_size log)) →
  log_ok (set_prep log p) base segs bodies.
Proof using All. intros [Hfm Hsz Hb Ha Ht Hids Hs Hf Hleft Hr Hdur Hfirst Hsy He Hp] Hp'. by log_fields. Qed.

(** A failed creation's file, with the active segment sealed and synced below it. *)
Lemma leftover_ok log base segs bodies left file s :
  log_ok log base segs bodies → poisoned (rounds log) ≠ None → base + zlen segs + 1 < 2 ^ 32 → last_file fmt (base + zlen segs + 1) [] left →
  dir log !! (base + zlen segs) = Some file → sealed_file fmt (base + zlen segs) bodies file →
  synced log !! (base + zlen segs) = Some s → seg_end bodies + END_MARKER_LEN ≤ s →
  log_ok (set_dir log (<[base + zlen segs + 1 := left]> (dir log))) base segs bodies.
Proof using All.
  intros [Hfm Hsz Hb Ha Ht Hids Hs (rest0 & file0 & Hd0 & Hf0) Hleft Hr Hdur Hfirst Hsy He Hp] Hpo Hbd Hlast Hd Hsf Hsn Hse. log_fields.
  - intros id Hne. rewrite lookup_insert_ne by done. by apply Hids.
  - apply sealed_dir_insert; [lia|done].
  - exists rest0, file0. by rewrite lookup_insert_ne by lia.
  - intros left'. rewrite lookup_insert_eq. intros [= <-]. split; [done|split; [done|split; [done|]]].
    exists file, s. by rewrite lookup_insert_ne by lia.
Qed.

(** The next segment becomes the active one. *)
Lemma next_active_ok log base segs bodies file s :
  log_ok log base segs bodies → dir log !! (base + zlen segs) = Some file → sealed_file fmt (base + zlen segs) bodies file →
  synced log !! (base + zlen segs) = Some s → seg_end bodies + END_MARKER_LEN ≤ s → base + zlen segs + 1 < 2 ^ 32 →
  sealed_ends log !! (base + zlen segs) = Some (seg_end bodies) →
  let next := base + zlen segs + 1 in
  log_ok (set_tail (set_active (set_synced (set_written (set_dir log (<[next := segment_file fmt next (segment_size log)]> (dir log)))
      (<[next := SEGMENT_HEADER_LEN]> (written log))) (<[next := SEGMENT_HEADER_LEN]> (synced log)))
      (mk_Active next SEGMENT_HEADER_LEN)) (segment_start next)) base (segs ++ [bodies]) [].
Proof using Hfmt.
  intros Hl Hd Hsf Hsn Hse Hid Hend next.
  pose proof Hl as [Hfm Hsz Hb Ha Ht Hids Hs _ Hleft Hr Hdur (Hfo & _) Hsy He Hp].
  assert (zlen (segs ++ [bodies]) = zlen segs + 1) as Hz by (by rewrite zlen_app). pose proof (zlen_nonneg segs).
  assert (base + zlen (segs ++ [bodies]) = next) as Hnx by (unfold next; lia).
  assert (u32 next ∧ u32 (base + zlen segs) ∧ u32 (seg_end bodies)) as (Hu1 & Hu2 & Hu3).
  { destruct Hsf as [r Hsf]. pose proof (sf_room _ _ _ _ _ Hsf). pose proof (frames_nonneg bodies).
    unfold u32, seg_end, next, SEGMENT_HEADER_LEN, END_MARKER_LEN in *. lia. }
  assert (log_durable log ≤ position next SEGMENT_HEADER_LEN) as Hdn.
  { etrans; [exact Hdur|]. rewrite Ht. rewrite !position_eq by (done || unfold u32, SEGMENT_HEADER_LEN; lia).
    unfold u32, next, SEGMENT_HEADER_LEN in *. lia. }
  log_fields; rewrite ?Hnx.
  - unfold next, u32 in *. lia.
  - done.
  - done.
  - intros id Hne. destruct (decide (id = next)) as [->|Hne'].
    + rewrite lookup_insert_eq. split; [unfold next; lia|eauto].
    + rewrite lookup_insert_ne, Hids by (done || unfold next in *; lia). unfold next in *. lia.
  - eapply sealed_dir_app; [apply sealed_dir_insert; [unfold next; lia|done]|rewrite lookup_insert_ne by (unfold next; lia); done|done].
  - eexists _, _. split; [apply lookup_insert_eq|]. by apply segment_file_ok.
  - intros left. rewrite lookup_insert_ne by lia. intros Hl'. exfalso.
    assert (is_Some (dir log !! (next + 1))) as Hi by eauto. apply Hids in Hi; unfold next in *; lia.
  - split; [unfold next; lia|]. exists SEGMENT_HEADER_LEN, SEGMENT_HEADER_LEN. rewrite !lookup_insert_eq.
    unfold SEGMENT_HEADER_LEN in *. split_and!; try done; lia.
  - intros i bs Hi Hle. apply lookup_app_Some in Hi as [Hi|[Hge Hi]].
    + rewrite lookup_insert_ne by (apply lookup_lt_Some in Hi; unfold next, zlen; lia). by apply Hsy.
    + apply list_lookup_singleton_Some in Hi as [Hi <-]. exists s. replace (Z.of_nat i) with (zlen segs) by (unfold zlen; lia).
      rewrite lookup_insert_ne by (unfold next; lia). done.
  - intros i bs p Hi. apply lookup_app_Some in Hi as [Hi|[Hge Hi]]; [by apply He|].
    apply list_lookup_singleton_Some in Hi as [Hi <-]. replace (Z.of_nat i) with (zlen segs) by (unfold zlen; lia).
    rewrite Hend. intros ?. by simplify_eq.
Qed.

(** What a creation that fails may leave behind: nothing, or a segment without frames. *)
Definition io_ok (io : AppendIo) (next : Z) : Prop :=
  match io_create io with Err (Some leftover) => last_file fmt next [] leftover | _ => True end.

(** What a rotation or an append that fails leaves. *)
Definition stopped (log log' : SegmentedLog) (base : Z) (segs : list (list region)) (bodies : list region) : Prop :=
  log_ok log' base segs bodies ∧ log_durable log ≤ log_durable log' ∧ segment_size log' = segment_size log ∧ tail log' = tail log.

Lemma poison_stops log base segs bodies why log' e :
  log_ok log base segs bodies → log_poison log why = (log', e) →
  stopped log log' base segs bodies ∧ poisoned (rounds log') ≠ None.
Proof using All.
  intros Hl Hp. unfold log_poison in Hp. destruct (get_or_insert_spec (rounds log) why) as (first & Hg & Hf). rewrite Hg in Hp.
  injection Hp as <- <-. split; [|done]. split; [|done].
  apply set_rounds_ok; cbn [state poisoned]; [done|apply Hl|done|apply Hl|].
  intros s Hs. destruct (lo_first _ _ _ _ _ Hl) as (_ & w & s' & _ & Hs' & _ & _ & Hd). rewrite Hs in Hs'. by simplify_eq.
Qed.

(** After the marker's write and fsync: the segment is sealed, durable up to its end. *)
Lemma try_rotate_sealed log base segs bodies :
  log_ok log base segs bodies → poisoned (rounds log) = None →
  let id := base + zlen segs in
  let log1 := write_active log (bwrite (active_file log) (seg_end bodies) (le_bytes 4 END_MARKER)) in
  let log2 := sync_file (note_written log1 id (seg_end bodies + END_MARKER_LEN)) id true in
  let log3 := set_rounds log2 (advance (rounds log2) (position id (seg_end bodies))) in
  let log4 := set_ends log3 (<[id := seg_end bodies]> (sealed_ends log3)) in
  log_ok log4 base segs bodies ∧
  ∃ file s, dir log4 !! id = Some file ∧ sealed_file fmt id bodies file ∧ synced log4 !! id = Some s ∧
    seg_end bodies + END_MARKER_LEN ≤ s.
Proof using All.
  intros Hl Hpn id log1 log2 log3 log4. pose proof (no_leftover _ _ _ _ Hl Hpn) as Hno.
  pose proof (lo_file _ _ _ _ _ Hl) as (rest & file & Hd & Hf). pose proof (active_file_eq _ _ _ _ _ Hl Hd) as Haf.
  pose proof (sf_room _ _ _ _ _ Hf) as Hroom. unfold END_MARKER_LEN in *.
  pose proof (seg_file_write _ _ _ _ (le_bytes 4 END_MARKER) Hf (le_bytes_byte _ _) ltac:(rewrite le_bytes_zlen; lia)) as Hf'.
  assert (log_ok log1 base segs bodies) as Hl1 by (unfold log1; rewrite Haf; by eapply log_ok_rest).
  assert (log_ok log2 base segs bodies) as Hl2 by (apply sync_file_ok, note_written_ok; [done|lia]).
  destruct (lo_first _ _ _ _ _ Hl) as (Hfo & w & s & Hw & Hsn & Hwb & Hsb & Hds).
  assert (synced log2 !! id = Some (Z.max s (Z.max w (seg_end bodies + 4)))) as Hs2.
  { unfold log2, sync_file. cbn [synced set_synced note_written set_written written]. rewrite !lookup_insert_eq.
    unfold log1, write_active. cbn [synced written set_dir]. fold id in Hw, Hsn. by rewrite Hw, Hsn. }
  assert (u32 id ∧ u32 (seg_end bodies)) as [Hu1 Hu2].
  { pose proof (lo_base _ _ _ _ _ Hl). pose proof (zlen_nonneg segs). pose proof (frames_nonneg bodies).
    unfold u32, id, seg_end, SEGMENT_HEADER_LEN in *. lia. }
  assert (log_ok log3 base segs bodies) as Hl3.
  { apply set_rounds_ok; [done|apply Hl2|done| |].
    - cbn [state durable advance set_durable]. rewrite (lo_tail _ _ _ _ _ Hl2). pose proof (lo_durable _ _ _ _ _ Hl2) as Hdur.
      rewrite (lo_tail _ _ _ _ _ Hl2) in Hdur. unfold log_durable in Hdur. fold id. fold id in Hdur. lia.
    - intros s' Hs'. fold id in Hs'. rewrite Hs2 in Hs'. injection Hs' as <-. cbn [state durable advance set_durable].
      pose proof (lo_durable _ _ _ _ _ Hl2) as Hdur. rewrite (lo_tail _ _ _ _ _ Hl2) in Hdur. unfold log_durable in Hdur. fold id. fold id in Hdur.
      unfold u32, SEGMENT_HEADER_LEN in *. rewrite !position_eq in * by (unfold u32; lia). lia. }
  split; [by apply set_ends_ok|].
  exists (bwrite file (seg_end bodies) (le_bytes 4 END_MARKER)), (Z.max s (Z.max w (seg_end bodies + 4))).
  split; [|split; [by eexists|split; [exact Hs2|lia]]].
  change (dir log4) with (dir log1). unfold log1, write_active. rewrite (lo_active _ _ _ _ _ Hl), Haf. cbn [dir set_dir a_segment_id].
  apply lookup_insert_eq.
Qed.

Lemma try_rotate_spec io log base segs bodies log' r :
  log_ok log base segs bodies → poisoned (rounds log) = None → io_ok io (base + zlen segs + 1) →
  try_rotate io log = (log', r) →
  log_durable log ≤ log_durable log' ∧ segment_size log' = segment_size log ∧
  match r with
  | Ok _ => log_ok log' base (segs ++ [bodies]) [] ∧ poisoned (rounds log') = None ∧ base + zlen segs + 1 < 2 ^ 32
  | Err e => tail log' = tail log ∧ (∀ why, e ≠ Poisoned why) ∧
      ∀ r', poisoned r' ≠ None → state r' = state (rounds log') → log_ok (set_rounds log' r') base segs bodies
  end.
Proof using All.
  intros Hl Hpn Hio Hr. pose proof (no_leftover _ _ _ _ Hl Hpn) as Hno.
  destruct (try_rotate_sealed log base segs bodies Hl Hpn) as (Hl4 & file & s & Hd & Hsf & Hs & Hse).
  pose proof (lo_base _ _ _ _ _ Hl) as Hb. pose proof (zlen_nonneg segs).
  pose proof (lo_file _ _ _ _ _ Hl) as (rest & file0 & Hd0 & Hf0). pose proof (active_file_eq _ _ _ _ _ Hl Hd0) as Haf.
  pose proof (sf_room _ _ _ _ _ Hf0) as Hroom.
  assert (∀ l r', log_ok l base segs bodies → poisoned r' ≠ None → state r' = state (rounds l) → log_ok (set_rounds l r') base segs bodies) as Hpois.
  { intros l r' Hl' Hp' Hs'. apply set_rounds_ok; rewrite ?Hs'; [done|apply Hl'|done|apply Hl'|].
    intros s' Hsy. destruct (lo_first _ _ _ _ _ Hl') as (_ & w & s1 & _ & Hs1 & _ & _ & Hd1). rewrite Hsy in Hs1. by simplify_eq. }
  unfold try_rotate in Hr. rewrite (lo_active _ _ _ _ _ Hl) in Hr. cbn [a_segment_id a_pos] in Hr.
  assert (∀ bs, Forall byte bs → zlen bs ≤ 4 → log_ok (write_active log (bwrite (active_file log) (seg_end bodies) bs)) base segs bodies) as Hwr.
  { intros bs Hbs Hlen. rewrite Haf. eapply log_ok_rest; [done|done|]. apply seg_file_write; [exact Hf0|done|]. unfold END_MARKER_LEN in *. lia. }
  destruct (write_some_bytes (le_bytes 4 END_MARKER) (io_marker io) (le_bytes_byte _ _)) as (bs & Hw & Hbs & Hbl & Hbe). rewrite Hw in Hr.
  rewrite le_bytes_zlen in Hbl. specialize (Hwr bs Hbs Hbl).
  destruct (io_marker io) as [k|] eqn:Hmk.
  { injection Hr as <- <-. split; [done|]. split; [done|]. split; [done|]. split; [done|]. intros r'. by apply Hpois. }
  rewrite (Hbe eq_refl) in *. clear Hw Hbs Hbl Hbe.
  destruct (io_sync io); cbn [negb] in Hr.
  2:{ injection Hr as <- <-. split; [done|]. split; [done|]. split; [done|]. split; [done|]. intros r'. apply Hpois. cbn [sync_file].
      apply note_written_ok; [done|]. unfold END_MARKER_LEN in *. lia. }
  set (log4 := set_ends _ _) in *.
  assert (log_durable log ≤ log_durable log4 ∧ segment_size log4 = segment_size log ∧ tail log4 = tail log ∧
    poisoned (rounds log4) = None) as (Hdur4 & Hsz4 & Ht4 & Hp4).
  { split; [|done]. unfold log_durable, log4. cbn [rounds set_ends set_rounds advance set_durable state durable sync_file set_synced
      note_written set_written write_active set_dir]. lia. }
  unfold check_segment_id in Hr. destruct (Z.ltb_spec (2 ^ 32 - 1) (base + zlen segs + 1)).
  { injection Hr as <- <-. split; [done|]. split; [done|]. split; [done|]. split; [done|]. intros r'. by apply Hpois. }
  pose proof (lo_prep _ _ _ _ _ Hl4) as Hprep4.
  destruct (prep_install (prep log4) (base + zlen segs + 1)) as [p prepared] eqn:Hpi.
  assert (pending p = None ∧ default (segment_file fmt (base + zlen segs + 1) (segment_size log4)) prepared =
    segment_file fmt (base + zlen segs + 1) (segment_size log4)) as [Hpp Hfile].
  { clear Hr. unfold prep_install in Hpi. destruct (pending (prep log4)) as [[j [f|]]|] eqn:Hpj.
    - destruct (Z.eqb_spec j (base + zlen segs + 1)) as [->|]; injection Hpi as <- <-; (split; [done|]); [|done].
      by rewrite <-(Hprep4 _ _ eq_refl).
    - by injection Hpi as <- <-.
    - by injection Hpi as <- <-. }
  set (log5 := set_prep log4 p) in *.
  assert (log_ok log5 base segs bodies) as Hl5 by (apply set_prep_ok; [done|intros j f; by rewrite Hpp]).
  destruct (io_create io) as [u|leftover] eqn:Hcr.
  - apply pair_eq in Hr as [<- <-]. rewrite (lo_format _ _ _ _ _ Hl5).
    split; [exact Hdur4|]. split; [exact Hsz4|]. split; [|split; [exact Hp4|lia]].
    change (segment_size log5) with (segment_size log4). rewrite Hfile.
    apply (next_active_ok log5 base segs bodies file s); try done; [lia|]. apply lookup_insert_eq.
  - unfold io_ok in Hio. rewrite Hcr in Hio. apply pair_eq in Hr as [<- <-].
    split; [exact Hdur4|]. split; [exact Hsz4|]. split; [exact Ht4|]. split; [done|]. intros r' Hr' Hst.
    assert (log_ok (set_rounds log5 r') base segs bodies) as Hl6 by by apply Hpois.
    destruct leftover as [f|]; [|exact Hl6].
    apply (leftover_ok (set_rounds log5 r') base segs bodies f file s); (done || lia).
Qed.

(** [rotate]: the next segment, empty, or a poisoned log over the same segments. *)
Lemma rotate_spec io log base segs bodies log' r :
  log_ok log base segs bodies → poisoned (rounds log) = None → io_ok io (base + zlen segs + 1) →
  rotate io log = (log', r) →
  match r with
  | Ok _ => log_ok log' base (segs ++ [bodies]) [] ∧ poisoned (rounds log') = None ∧ log_durable log ≤ log_durable log' ∧
      segment_size log' = segment_size log ∧ base + zlen segs + 1 < 2 ^ 32
  | Err _ => stopped log log' base segs bodies ∧ poisoned (rounds log') ≠ None
  end.
Proof using All.
  intros Hl Hpn Hio Hr. unfold rotate in Hr. destruct (try_rotate io log) as [log1 r1] eqn:Htry.
  destruct (try_rotate_spec _ _ _ _ _ _ _ Hl Hpn Hio Htry) as (Hdur & Hsz & Hok). destruct r1 as [[]|e].
  - injection Hr as <- <-. tauto.
  - destruct Hok as (Ht & Hne & Hpois). unfold log_poison in Hr.
    destruct (get_or_insert_spec (rounds log1) "rotating") as (first & Hg & _). rewrite Hg in Hr.
    assert (log' = set_rounds log1 (mk_Rounds (state (rounds log1)) (Some first)) ∧ ∃ e', r = Err e') as [-> [e' ->]].
    { destruct e as [| | |why]; try (injection Hr as <- <-; eauto). by destruct (Hne why). }
    split; [|done]. split; [by apply Hpois|]. done.
Qed.


(** ** Appends *)

Lemma tail_u32 log base segs bodies : log_ok log base segs bodies → u32 (base + zlen segs) ∧ u32 (seg_end bodies).
Proof using Hfmt.
  intros Hl. pose proof (lo_file _ _ _ _ _ Hl) as (rest & file & _ & Hf). pose proof (sf_room _ _ _ _ _ Hf).
  pose proof (lo_base _ _ _ _ _ Hl). pose proof (zlen_nonneg segs). pose proof (frames_nonneg bodies).
  unfold u32, seg_end, SEGMENT_HEADER_LEN, END_MARKER_LEN in *. lia.
Qed.

(** A frame appended where it fits. *)
Lemma append_here io log base segs bodies body log' r :
  log_ok log base segs bodies → poisoned (rounds log) = None → Forall byte body → 0 < zlen body →
  seg_end bodies + frame_zlen body + END_MARKER_LEN ≤ segment_size log →
  append_frame io log (frame body) = (log', r) →
  ∃ bodies', log_ok log' base segs bodies' ∧ log_durable log' = log_durable log ∧ poisoned (rounds log') = None ∧
    tail log ≤ tail log' ∧ (io_write io = None → is_ok r = true) ∧
    match r with
    | Ok (s, e) => records_of base segs bodies' = records_of base segs bodies ++ [(s, body)] ∧ s = tail log ∧ s < e ∧ e = tail log'
    | Err _ => bodies' = bodies
    end.
Proof using All.
  intros Hl Hpn Hb Hpos Hfit Ha. pose proof (lo_size _ _ _ _ _ Hl) as Hsz. pose proof (frames_nonneg bodies).
  destruct (append_frame_spec io log base segs bodies body log' r Hl Hpn Hb) as [Hr Hspec]; [|done|exact Ha|].
  { unfold body_ok, END_MARKER, frame_zlen, FRAME_HEADER_LEN, END_MARKER_LEN, seg_end, SEGMENT_HEADER_LEN in *. lia. }
  unfold log_durable. rewrite Hr. destruct r as [[s e]|err].
  - destruct Hspec as (Hl' & -> & ->). exists (bodies ++ [body]). pose proof (tail_u32 _ _ _ _ Hl) as [Hu1 Hu2].
    pose proof (tail_u32 _ _ _ _ Hl') as [_ Hu3].
    assert (seg_end (bodies ++ [body]) = seg_end bodies + frame_zlen body) as He.
    { unfold seg_end. rewrite frames_app, zlen_app, frames_one, frame_length. lia. }
    assert (tail log < tail log') as Hlt.
    { rewrite (lo_tail _ _ _ _ _ Hl), (lo_tail _ _ _ _ _ Hl'), !position_eq, He by done. unfold frame_zlen, FRAME_HEADER_LEN. lia. }
    rewrite records_of_snoc, <-(lo_tail _ _ _ _ _ Hl). split_and!; try done; lia.
  - destruct Hspec as (Hl' & Hio). exists bodies. split_and!; try done; try lia.
    by rewrite (lo_tail _ _ _ _ _ Hl), (lo_tail _ _ _ _ _ Hl').
Qed.

Lemma append_spec io log base segs bodies parts log' r :
  log_ok log base segs bodies → Forall byte (concat parts) → 0 < zlen (concat parts) → io_ok io (base + zlen segs + 1) →
  append io log parts = (log', r) →
  ∃ segs' bodies', log_ok log' base segs' bodies' ∧ zlen segs' ≤ zlen segs + 1 ∧
    log_durable log ≤ log_durable log' ∧ tail log ≤ tail log' ∧
    match r with
    | Ok (s, e) => records_of base segs' bodies' = records_of base segs bodies ++ [(s, concat parts)] ∧ tail log ≤ s ∧ s < e ∧ e = tail log'
    | Err _ => records_of base segs' bodies' = records_of base segs bodies
    end.
Proof using All.
  intros Hl Hb Hpos Hio Ha. pose proof (zlen_nonneg segs). unfold append in Ha. set (body := concat parts) in *.
  fold (frame_zlen body) in Ha. unfold max_frame_len in Ha.
  destruct (Z.ltb_spec (segment_size log - SEGMENT_HEADER_LEN - END_MARKER_LEN) (frame_zlen body)) as [|Hfits].
  { apply pair_eq in Ha as [<- <-]. exists segs, bodies. split_and!; try done; lia. }
  unfold log_check_poisoned, check_poisoned in Ha. destruct (poisoned (rounds log)) as [why|] eqn:Hpn.
  { apply pair_eq in Ha as [<- <-]. exists segs, bodies. split_and!; try done; lia. }
  rewrite (lo_active _ _ _ _ _ Hl) in Ha. cbn [a_pos] in Ha.
  destruct (Z.ltb_spec (segment_size log) (seg_end bodies + frame_zlen body + END_MARKER_LEN)) as [Hrot|Hhere].
  - destruct (rotate io log) as [log1 r1] eqn:Hr. pose proof (rotate_spec _ _ _ _ _ _ _ Hl Hpn Hio Hr) as Hspec. destruct r1 as [u|e].
    + destruct Hspec as (Hl1 & Hpn1 & Hdur & Hsz & Hid).
      destruct (append_here io log1 base (segs ++ [bodies]) [] body log' r Hl1 Hpn1 Hb Hpos) as (bodies' & Hl' & Hd' & _ & Ht' & _ & Hres);
        [rewrite Hsz, seg_end_nil; lia|exact Ha|].
      assert (tail log ≤ tail log1) as Ht1.
      { pose proof (tail_u32 _ _ _ _ Hl) as [Hu1 Hu2]. pose proof (tail_u32 _ _ _ _ Hl1) as [Hu3 Hu4].
        rewrite (lo_tail _ _ _ _ _ Hl), (lo_tail _ _ _ _ _ Hl1), !position_eq, zlen_app by done. change (zlen [bodies]) with 1.
        unfold u32 in *. lia. }
      exists (segs ++ [bodies]), bodies'. rewrite zlen_app. change (zlen [bodies]) with 1.
      split; [done|]. split; [lia|]. split; [lia|]. split; [lia|].
      destruct r as [[s e]|e]; [|by rewrite Hres, records_of_next].
      rewrite records_of_next in Hres. destruct Hres as (Hrec & -> & Hlt & He). split_and!; [done|lia|done|done].
    + destruct Hspec as ((Hl' & Hdur & _ & Ht) & _). apply pair_eq in Ha as [<- <-]. exists segs, bodies. split_and!; try done; lia.
  - destruct (append_here io log base segs bodies body log' r Hl Hpn Hb Hpos Hhere Ha) as (bodies' & Hl' & Hd' & _ & Ht' & _ & Hres).
    exists segs, bodies'. split; [done|]. split; [lia|]. split; [lia|]. split; [lia|].
    destruct r as [[s e]|e]; [|by rewrite Hres]. destruct Hres as (Hrec & -> & Hlt & He). split_and!; [done|lia|done|done].
Qed.

(** ** Commits *)

Lemma log_commit_spec log base segs bodies end_ fsync :
  log_ok log base segs bodies → end_ ≤ tail log →
  ∃ log' r, commit log end_ fsync = Some (log', r) ∧ log_ok log' base segs bodies ∧ tail log' = tail log ∧
    log_durable log ≤ log_durable log' ∧
    match r with
    | Ok _ => end_ ≤ log_durable log'
    | Err e => ∃ why, e = Poisoned why ∧ poisoned (rounds log') = Some why
    end ∧
    (fsync = None → poisoned (rounds log) = None → is_ok r = true).
Proof using All.
  intros Hl He. pose proof (tail_u32 _ _ _ _ Hl) as [Hu1 Hu2].
  unfold commit, loop_top, check_poisoned. destruct (poisoned (rounds log)) as [why|] eqn:Hpn.
  { eexists _, _. split; [reflexivity|]. replace (set_rounds log (rounds log)) with log by (by destruct log). split_and!; try done.
    by exists why. }
  destruct (Z.leb_spec end_ (durable (state (rounds log)))) as [Hle|Hgt].
  { eexists _, _. split; [reflexivity|]. replace (set_rounds log (rounds log)) with log by (by destruct log). split_and!; done. }
  rewrite (lo_rounds _ _ _ _ _ Hl). cbv zeta. rewrite (lo_active _ _ _ _ _ Hl). cbn [a_segment_id a_pos].
  pose proof (lo_durable _ _ _ _ _ Hl) as Hdur. rewrite (lo_tail _ _ _ _ _ Hl) in Hdur, He. unfold log_durable in Hdur.
  pose proof (sync_file_ok log base segs bodies (bool_decide (fsync = None)) Hl) as Hl1.
  unfold round_outcome, get_or_insert, check_poisoned. cbn [poisoned set_running]. rewrite Hpn.
  destruct fsync as [why|].
  - rewrite bool_decide_false by done. cbn [result_bind sync_file publish poisoned state set_running durable running waiting].
    eexists _, _. split; [reflexivity|]. split.
    { apply set_rounds_ok; cbn [state durable running waiting poisoned set_running]; [done|done|done| |].
      - rewrite (lo_tail _ _ _ _ _ Hl). done.
      - intros s Hs. destruct (lo_first _ _ _ _ _ Hl) as (_ & w & s' & _ & Hs' & _ & _ & Hd). rewrite Hs in Hs'. by simplify_eq. }
    split; [done|]. split; [done|]. split; [by exists why|done].
  - rewrite bool_decide_true in * by done. cbn [result_bind publish]. unfold set_durable, set_running. cbn [state durable running waiting poisoned].
    rewrite (proj2 (Z.leb_le _ _)) by lia. eexists _, _. split; [reflexivity|].
    destruct (lo_first _ _ _ _ _ Hl) as (_ & w & s & Hw & Hs & Hwb & Hsb & Hd).
    assert (synced (sync_file log (base + zlen segs) true) !! (base + zlen segs) = Some (Z.max s w)) as Hs1.
    { unfold sync_file. rewrite Hw, Hs. apply lookup_insert_eq. }
    split; [apply set_rounds_ok; cbn [state durable running waiting poisoned]; [exact Hl1|done| | |]|].
    + intros Hne. exfalso. apply Hne. exact Hpn.
    + rewrite (lo_tail _ _ _ _ _ Hl1). lia.
    + intros s' Hs'. rewrite Hs1 in Hs'. injection Hs' as <-. unfold u32, SEGMENT_HEADER_LEN in *.
      rewrite !position_eq in * by (unfold u32; lia). lia.
    + split; [done|]. unfold log_durable. cbn [rounds set_rounds state durable]. split; [lia|]. split; [lia|done].
Qed.

(** ** Deleting retired segments *)

Lemma lookup_foldr_delete (dir : segment_dir) (l : list Z) (id : Z) :
  foldr delete dir l !! id = if bool_decide (id ∈ l) then None else dir !! id.
Proof using.
  induction l as [|x l IH]; [done|]. cbn [foldr]. destruct (decide (id = x)) as [->|Hne].
  - rewrite lookup_delete_eq, bool_decide_true by left. done.
  - rewrite lookup_delete_ne, IH by done. by rewrite (bool_decide_ext _ (id ∈ x :: l)) by (rewrite elem_of_cons; tauto).
Qed.

Lemma filter_below_seqZ base n below : filter (λ id, id < below) (seqZ base n) = seqZ base (Z.min n (below - base)).
Proof using.
  apply ascending_ext; [apply ascending_filter, seqZ_ascending|apply seqZ_ascending|].
  intros v. rewrite list_elem_of_filter, !elem_of_seqZ. lia.
Qed.

Lemma take_seqZ k base n : take k (seqZ base n) = seqZ base (Z.min (Z.of_nat k) n).
Proof using.
  destruct (Z.le_gt_cases n 0) as [Hle|Hgt]; [by rewrite !seqZ_nil, take_nil by lia|].
  destruct (Z.le_gt_cases (Z.of_nat k) n) as [Hk|Hk].
  - rewrite Z.min_l by done. replace n with (Z.of_nat k + (n - Z.of_nat k)) by lia. rewrite seqZ_app by lia.
    apply take_app_length'. rewrite length_seqZ. lia.
  - rewrite Z.min_r by lia. apply take_ge. rewrite length_seqZ. lia.
Qed.

Lemma list_segments_log log base segs bodies :
  log_ok log base segs bodies → ∃ n, zlen segs + 1 ≤ n ∧ list_segments (dir log) = seqZ base n.
Proof using All.
  intros Hl. pose proof (zlen_nonneg segs). destruct (dir log !! (base + zlen segs + 1)) as [f|] eqn:Hn.
  - exists (zlen segs + 2). split; [lia|]. apply list_segments_seq; [lia|]. intros id.
    destruct (decide (id = base + zlen segs + 1)) as [->|Hne]; [rewrite Hn; split; [lia|eauto]|].
    rewrite (lo_ids _ _ _ _ _ Hl id Hne). lia.
  - exists (zlen segs + 1). split; [lia|]. apply list_segments_seq; [lia|]. intros id.
    destruct (decide (id = base + zlen segs + 1)) as [->|Hne]; [rewrite Hn; split; [by intros []|lia]|].
    rewrite (lo_ids _ _ _ _ _ Hl id Hne). lia.
Qed.

Lemma records_at_segment id pos bodies : u32 id → 0 ≤ pos → pos + zlen (frames bodies) < 2 ^ 32 →
  Forall (λ r : Z * region, segment_of r.1 = id) (records_at id pos bodies).
Proof using All.
  intros Hid Hp Hlt. revert pos Hp Hlt. induction bodies as [|b bs IH]; intros pos Hp Hlt; [constructor|]. cbn [records_at].
  rewrite frames_cons, zlen_app, frame_length in Hlt. pose proof (zlen_nonneg b). pose proof (zlen_nonneg (frames bs)).
  unfold frame_zlen, FRAME_HEADER_LEN in *. constructor; [cbn [fst]; apply segment_of_position; [done|unfold u32; lia]|].
  apply IH; lia.
Qed.

Lemma dir_records_segments base segs : 0 ≤ base → base + zlen segs ≤ 2 ^ 32 → Forall (λ bs, seg_end bs < 2 ^ 32) segs →
  Forall (λ r : Z * region, base ≤ segment_of r.1 < base + zlen segs) (dir_records base segs).
Proof using All.
  intros Hb Hl Hs. revert base Hb Hl. induction Hs as [|bs segs Hbs Hs IH]; intros base Hb Hl; [constructor|].
  rewrite zlen_cons in *. pose proof (zlen_nonneg segs). cbn [dir_records]. apply Forall_app. split.
  - eapply Forall_impl; [apply records_at_segment; [unfold u32; lia|done|exact Hbs]|]. cbn beta. lia.
  - eapply Forall_impl; [apply IH; lia|]. cbn beta. lia.
Qed.

Lemma filter_segments base k segs :
  0 ≤ base → base + zlen segs ≤ 2 ^ 32 → Forall (λ bs, seg_end bs < 2 ^ 32) segs → (k ≤ length segs)%nat →
  dir_records (base + Z.of_nat k) (drop k segs) =
  filter (λ r : Z * region, base + Z.of_nat k ≤ segment_of r.1) (dir_records base segs).
Proof using All.
  intros Hb Hl Hs Hk. rewrite <-(take_drop k segs) at 2. rewrite dir_records_app, filter_app.
  rewrite <-(take_drop k segs), Forall_app in Hs. destruct Hs as [Hs1 Hs2].
  assert (zlen (take k segs) = Z.of_nat k) as Hz by (unfold zlen; rewrite length_take; lia).
  assert (zlen (drop k segs) = zlen segs - Z.of_nat k) as Hz' by (unfold zlen; rewrite length_drop; lia).
  assert (base + zlen (take k segs) ≤ 2 ^ 32 ∧ 0 ≤ base + Z.of_nat k ∧ base + Z.of_nat k + zlen (drop k segs) ≤ 2 ^ 32) as (Hx1 & Hx2 & Hx3).
  { unfold zlen in *. lia. }
  pose proof (dir_records_segments base (take k segs) Hb Hx1 Hs1) as H1.
  pose proof (dir_records_segments (base + Z.of_nat k) (drop k segs) Hx2 Hx3 Hs2) as H2.
  rewrite Forall_forall in H1, H2.
  rewrite Hz, (filter_none _ (dir_records base (take k segs))), (filter_all _ (dir_records _ _)); [done| |].
  - intros r Hr. specialize (H2 r Hr). lia.
  - intros r Hr. specialize (H1 r Hr). lia.
Qed.

(** Deleting leaves the segments above; what was not deleted is one run. *)
Lemma delete_spec log base segs bodies segment_id fails_after log' r :
  log_ok log base segs bodies → delete_segments_below log segment_id fails_after = (log', r) →
  ∃ k, (k ≤ length segs)%nat ∧ (k = 0%nat ∨ base + Z.of_nat k ≤ segment_id) ∧
    log_ok log' (base + Z.of_nat k) (drop k segs) bodies ∧
    records_of (base + Z.of_nat k) (drop k segs) bodies =
      filter (λ r : Z * region, base + Z.of_nat k ≤ segment_of r.1) (records_of base segs bodies) ∧
    tail log' = tail log ∧ rounds log' = rounds log ∧
    (fails_after = None → base ≤ segment_id → base + Z.of_nat k = Z.min segment_id (base + zlen segs)).
Proof using All.
  intros Hl Hd. pose proof (tail_u32 _ _ _ _ Hl) as [Hu1 Hu2]. pose proof (zlen_nonneg segs).
  assert (active_segment log = base + zlen segs) as Hact.
  { unfold active_segment. rewrite (lo_tail _ _ _ _ _ Hl). by apply segment_of_position. }
  unfold delete_segments_below in Hd. rewrite Hact in Hd. set (below := Z.min segment_id (base + zlen segs)) in *.
  destruct (list_segments_log _ _ _ _ Hl) as (n & Hn & Hls). rewrite Hls, filter_below_seqZ in Hd.
  rewrite Z.min_r in Hd by lia.
  set (gone := match fails_after with Some m => take m (seqZ base (below - base)) | None => seqZ base (below - base) end) in *.
  assert (∃ k : nat, gone = seqZ base (Z.of_nat k) ∧ (k = 0%nat ∨ Z.of_nat k ≤ below - base) ∧
    (fails_after = None → base ≤ segment_id → Z.of_nat k = below - base)) as (k & Hgone & Hk & Hfull).
  { destruct fails_after as [m|].
    - exists (Z.to_nat (Z.min (Z.of_nat m) (below - base))). unfold gone. rewrite take_seqZ.
      split; [|split; [lia|done]]. destruct (Z.le_gt_cases (below - base) 0); [by rewrite !seqZ_nil by lia|]. f_equal. lia.
    - exists (Z.to_nat (below - base)). unfold gone.
      split; [|split; [lia|lia]]. destruct (Z.le_gt_cases (below - base) 0); [by rewrite !seqZ_nil by lia|]. f_equal. lia. }
  exists k. assert (k ≤ length segs)%nat as Hkl by (unfold zlen in *; lia).
  assert (base + Z.of_nat k ≤ base + zlen segs) as Hkz by (unfold zlen; lia).
  assert (base + Z.of_nat k + zlen (drop k segs) = base + zlen segs) as Hsum by (unfold zlen; rewrite length_drop; lia).
  apply pair_eq in Hd as [<- _]. split; [done|]. split; [lia|]. rewrite Hgone.
  assert (∀ id, base + Z.of_nat k ≤ id → foldr delete (dir log) (seqZ base (Z.of_nat k)) !! id = dir log !! id) as Hkeep.
  { intros id Hid. rewrite lookup_foldr_delete, bool_decide_false; [done|]. rewrite elem_of_seqZ. lia. }
  pose proof Hl as [Hfm Hsz Hb Ha Ht Hids Hs (rest & file & Hd & Hf) Hleft Hr Hdur (Hfo & w & s & Hw & Hsn & Hwb & Hsb & Hds) Hsy He Hp].
  assert (∀ i bs, drop k segs !! i = Some bs → segs !! (k + i)%nat = Some bs) as Hdrop by (intros i bs; by rewrite lookup_drop).
  split.
  { log_fields; rewrite ?Hsum.
    - lia.
    - done.
    - done.
    - intros id Hne. destruct (Z.le_gt_cases (base + Z.of_nat k) id) as [Hge|Hlt].
      + rewrite Hkeep, Hids by done. lia.
      + rewrite lookup_foldr_delete. split; [|lia]. destruct (decide (base ≤ id)) as [Hbi|Hbi].
        * rewrite bool_decide_true by (rewrite elem_of_seqZ; lia). by intros [].
        * rewrite bool_decide_false by (rewrite elem_of_seqZ; lia). rewrite Hids by done. lia.
    - intros i bs Hi. destruct (Hs (k + i)%nat bs (Hdrop i bs Hi)) as (f & Hdf & Hsf).
      exists f. replace (base + Z.of_nat k + Z.of_nat i) with (base + Z.of_nat (k + i)) by lia. by rewrite Hkeep by lia.
    - exists rest, file. by rewrite Hkeep by lia.
    - intros left. rewrite !Hkeep by lia. apply Hleft.
    - split; [done|]. exists w, s. done.
    - intros i bs Hi Hle. replace (base + Z.of_nat k + Z.of_nat i) with (base + Z.of_nat (k + i)) in * by lia.
      by apply Hsy; [apply Hdrop|].
    - intros i bs p Hi Hpp. apply map_lookup_filter_Some in Hpp as [Hpp _].
      replace (base + Z.of_nat k + Z.of_nat i) with (base + Z.of_nat (k + i)) in * by lia. by eapply He; [apply Hdrop|]. }
  split; [|split; [done|split; [done|]]].
  - unfold records_of. rewrite <-(drop_app_le segs [bodies] k) by done. apply filter_segments.
    + lia.
    + rewrite zlen_app. change (zlen [bodies]) with 1. unfold u32 in *. lia.
    + apply Forall_app. split; [|by constructor; [apply Hu2|]]. apply Forall_lookup. intros i bs Hi.
      destruct (Hs i bs Hi) as (f & _ & r0 & Hsf). pose proof (sf_room _ _ _ _ _ Hsf). unfold END_MARKER_LEN in *. lia.
    + rewrite length_app. lia.
  - intros Hfa Hbs. rewrite (Hfull Hfa Hbs). unfold below. lia.
Qed.
End writes.
