(* ===== verification/LogReads.v ===== *)
(** * LogReads: reading a log back

    [for_each_with] of segmented_log.rs hands over the records from a position to the tail,
    in order; segments already deleted are skipped. *)
From S2P Require Import Prelude Slices Bytes LogProgress CommitRounds SegmentedLog LogFrames LogOpen LogWrites.
#[local] Open Scope minnal_scope.

Section reads.
Context `{CrcLaws} (fmt : LogFormat) (Hfmt : format_ok fmt).
Context {St E : Type} (lift : LogError → E) (f : St → Z → region → result St E).

#[local] Abbreviation log_ok := (log_ok fmt).
#[local] Abbreviation seg_file := (seg_file fmt).

Lemma seg_file_checks id bodies rest file : seg_file id bodies rest file → u32 id →
  check_header fmt file id = Ok () ∧ file_len file = Ok (zlen file).
Proof using Hfmt.
  intros Hf Hid. split.
  - rewrite (sf_eq _ _ _ _ _ Hf). apply check_header_ok; [done|unfold u32, u64 in *; lia].
  - unfold file_len. by rewrite (proj2 (Z.ltb_lt _ _) (sf_len _ _ _ _ _ Hf)).
Qed.

(** One sealed segment of the loop, read from where the frames of [b1] end. *)
Lemma for_each_sealed fuel log start id end_id end_pos b1 b2 file st :
  format log = fmt → dir log !! id = Some file → sealed_file fmt id (b1 ++ b2) file → u32 id → id < end_id →
  (if id =? segment_of start then Z.max (split start).2 SEGMENT_HEADER_LEN else SEGMENT_HEADER_LEN) = seg_end b1 →
  for_each_loop lift f (S fuel) log start id end_id end_pos st =
  (let? st := visit_all f st (records_at id (seg_end b1) b2) in for_each_loop lift f fuel log start (id + 1) end_id end_pos st).
Proof using All.
  intros Hfm Hd [r Hf] Hid Hlt Hfrom. destruct (seg_file_checks _ _ _ _ Hf Hid) as [Hch Hlen].
  cbn [for_each_loop]. rewrite (proj2 (Z.ltb_ge _ _)), Hd, Hfm, Hch, Hlen by lia. cbn [lifted result_bind]. rewrite Hfrom.
  rewrite (proj2 (Z.eqb_neq id end_id)) by lia.
  rewrite (walk_seg_file fmt Hfmt f id b1 b2 (marker ++ r) Sealed) by (done || apply stops_marker).
  by destruct (visit_all f st _).
Qed.

(** The active segment, up to the tail. *)
Lemma for_each_active fuel log start id b1 b2 rest file st :
  format log = fmt → dir log !! id = Some file → seg_file id (b1 ++ b2) rest file → u32 id →
  (if id =? segment_of start then Z.max (split start).2 SEGMENT_HEADER_LEN else SEGMENT_HEADER_LEN) = seg_end b1 →
  for_each_loop lift f (S (S fuel)) log start id id (seg_end (b1 ++ b2)) st = visit_all f st (records_at id (seg_end b1) b2).
Proof using All.
  intros Hfm Hd Hf Hid Hfrom. destruct (seg_file_checks _ _ _ _ Hf Hid) as [Hch Hlen].
  pose proof (seg_file_zlen fmt Hfmt _ _ _ _ Hf) as Hz. pose proof (zlen_nonneg rest).
  cbn [for_each_loop]. rewrite (proj2 (Z.ltb_ge _ _)), Hd, Hfm, Hch, Hlen by lia. cbn [lifted result_bind]. rewrite Hfrom, Z.eqb_refl.
  rewrite Z.min_l by lia.
  assert (seg_end (b1 ++ b2) = seg_end b1 + zlen (frames b2)) as He by (unfold seg_end; rewrite frames_app, zlen_app; lia).
  pose proof (frames_nonneg b1). pose proof (frames_nonneg b2).
  rewrite (walk_frames f file id (seg_end b1) (seg_end (b1 ++ b2)) b2 Unwritten []).
  - destruct (visit_all f st _) as [st'|e]; [|done]. cbn [result_bind]. by rewrite (proj2 (Z.ltb_lt _ _)) by lia.
  - apply Hf.
  - unfold seg_end, SEGMENT_HEADER_LEN in *. lia.
  - lia.
  - pose proof (sf_bodies _ _ _ _ _ Hf) as Hok. rewrite Forall_app in Hok. apply Hok.
  - rewrite (seg_file_read fmt Hfmt id b1 b2 rest) by (done || lia). rewrite app_nil_r. apply take_app_length'.
    unfold zlen in *. lia.
  - done.
Qed.

(** The segments after the one reading starts in. *)
Lemma for_each_rest log base segs bodies start :
  log_ok log base segs bodies → ∀ m i fuel st, (i + m = length segs)%nat → segment_of start < base + Z.of_nat i → (S m < fuel)%nat →
  for_each_loop lift f fuel log start (base + Z.of_nat i) (base + zlen segs) (seg_end bodies) st =
  visit_all f st (dir_records (base + Z.of_nat i) (drop i (segs ++ [bodies]))).
Proof using All.
  intros Hl. pose proof (tail_u32 fmt Hfmt _ _ _ _ Hl) as [Hu _]. pose proof (lo_base _ _ _ _ _ Hl) as Hb.
  induction m as [|m IH]; intros i fuel st Him Hst Hf; (destruct fuel as [|fuel]; [lia|]).
  - replace (base + Z.of_nat i) with (base + zlen segs) in * by (unfold zlen; lia). destruct fuel as [|fuel]; [lia|].
    destruct (lo_file _ _ _ _ _ Hl) as (rest & file & Hd & Hfile).
    rewrite (for_each_active fuel log start (base + zlen segs) [] bodies rest file);
      [|apply Hl|done|done|done|rewrite (proj2 (Z.eqb_neq _ _)) by lia; done].
    replace i with (length segs) by lia. rewrite drop_app_length. cbn [dir_records]. by rewrite app_nil_r.
  - destruct (lookup_lt_is_Some_2 segs i) as [bs Hi]; [lia|].
    destruct (lo_sealed _ _ _ _ _ Hl i bs Hi) as (file & Hd & Hsf).
    rewrite (for_each_sealed fuel log start _ _ _ [] bs file);
      [|apply Hl|done|done|unfold u32, zlen in *; lia|unfold zlen; lia|rewrite (proj2 (Z.eqb_neq _ _)) by lia; done].
    assert (drop i (segs ++ [bodies]) = bs :: drop (S i) (segs ++ [bodies])) as ->.
    { apply drop_S. by apply lookup_app_l_Some. }
    cbn [dir_records]. rewrite visit_all_app. rewrite seg_end_nil. destruct (visit_all f st _) as [st'|e]; [|done]. cbn [result_bind].
    replace (base + Z.of_nat i + 1) with (base + Z.of_nat (S i)) by lia. apply IH; lia.
Qed.

(** A position reading may start at: a record's, or the end of a segment's records. *)
Definition boundary (base : Z) (all : list (list region)) (start : Z) (i : nat) (b1 b2 : list region) : Prop :=
  all !! i = Some (b1 ++ b2) ∧ start = position (base + Z.of_nat i) (seg_end b1).

Lemma log_ends log base segs bodies : log_ok log base segs bodies → Forall (λ bs, seg_end bs < 2 ^ 32) (segs ++ [bodies]).
Proof using H0 Hfmt.
  intros Hl. apply Forall_app. split; [|constructor; [apply (tail_u32 fmt Hfmt _ _ _ _ Hl)|done]]. apply Forall_lookup. intros i bs Hi.
  destruct (lo_sealed _ _ _ _ _ Hl i bs Hi) as (file & _ & r & Hsf). pose proof (sf_room _ _ _ _ _ Hsf). unfold END_MARKER_LEN in *. lia.
Qed.

Lemma dir_records_bounds base all : 0 ≤ base → base + zlen all ≤ 2 ^ 32 → Forall (λ bs, seg_end bs < 2 ^ 32) all →
  Forall (λ r : Z * region, base * 2 ^ 32 ≤ r.1 < (base + zlen all) * 2 ^ 32) (dir_records base all).
Proof using Hfmt.
  intros Hb Hl Hs. revert base Hb Hl. induction Hs as [|bs all Hbs Hs IH]; intros base Hb Hl; [constructor|].
  rewrite zlen_cons in *. pose proof (zlen_nonneg all). pose proof (frames_nonneg bs). cbn [dir_records]. cbn beta in Hbs.
  assert (u32 base ∧ 0 ≤ SEGMENT_HEADER_LEN ∧ SEGMENT_HEADER_LEN + zlen (frames bs) < 2 ^ 32) as (Hu & Hp & Hlt).
  { unfold u32, seg_end, SEGMENT_HEADER_LEN in *. lia. }
  apply Forall_app. split.
  - eapply Forall_impl; [exact (records_at_bounds base SEGMENT_HEADER_LEN bs Hu Hp Hlt)|]. cbn beta. intros r.
    unfold SEGMENT_HEADER_LEN in *. rewrite !position_eq by (unfold u32 in *; lia). lia.
  - eapply Forall_impl; [apply IH; lia|]. cbn beta. lia.
Qed.

Lemma from_cut_boundary base all start i b1 b2 :
  0 ≤ base → base + zlen all ≤ 2 ^ 32 → Forall (λ bs, seg_end bs < 2 ^ 32) all → boundary base all start i b1 b2 →
  from_cut_on start (dir_records base all) =
  records_at (base + Z.of_nat i) (seg_end b1) b2 ++ dir_records (base + Z.of_nat (S i)) (drop (S i) all).
Proof using H0 Hfmt.
  intros Hb Hl Hs [Hi ->]. pose proof (lookup_lt_Some _ _ _ Hi) as Hlt.
  pose proof (proj1 (Forall_lookup _ _) Hs i _ Hi) as Hsi. cbn beta in Hsi.
  assert (all = take i all ++ (b1 ++ b2) :: drop (S i) all) as Hall by (symmetry; by apply take_drop_middle).
  assert (zlen (take i all) = Z.of_nat i) as Hz1 by (unfold zlen; rewrite length_take; lia).
  assert (zlen (drop (S i) all) = zlen all - Z.of_nat i - 1) as Hz2 by (unfold zlen; rewrite length_drop; lia).
  set (l1 := take i all) in *. set (l2 := drop (S i) all) in *. rewrite Hall in Hs |- *. clear Hall.
  apply Forall_app in Hs as [Hs1 Hs2]. apply Forall_cons in Hs2 as [_ Hs2].
  rewrite dir_records_app, Hz1. cbn [dir_records]. rewrite records_at_app, !from_cut_app.
  pose proof (frames_nonneg b1). pose proof (frames_nonneg b2).
  assert (seg_end (b1 ++ b2) = seg_end b1 + zlen (frames b2)) as He by (unfold seg_end; rewrite frames_app, zlen_app; lia).
  assert (u32 (base + Z.of_nat i) ∧ u32 (seg_end b1)) as [Hu1 Hu2].
  { unfold u32, seg_end, zlen, SEGMENT_HEADER_LEN in *. lia. }
  rewrite (from_cut_below _ (dir_records base l1)), (from_cut_below _ (records_at _ SEGMENT_HEADER_LEN b1)); cycle 1.
  - eapply Forall_impl; [apply records_at_bounds; [done|done|unfold seg_end in *; lia]|]. intros r. cbn beta. fold (seg_end b1). lia.
  - assert (base + zlen l1 ≤ 2 ^ 32) as Hl1 by (unfold zlen in *; lia).
    eapply Forall_impl; [exact (dir_records_bounds base l1 Hb Hl1 Hs1)|]. intros r. cbn beta. rewrite position_eq by done.
    unfold u32, seg_end, SEGMENT_HEADER_LEN in *. lia.
  - cbn [app]. fold (seg_end b1). replace (base + Z.of_nat i + 1) with (base + Z.of_nat (S i)) by lia. f_equal.
    + apply from_cut_above. eapply Forall_impl; [apply records_at_bounds; [done|unfold u32 in *; lia|lia]|]. intros r. cbn beta. lia.
    + apply from_cut_above.
      assert (0 ≤ base + Z.of_nat (S i) ∧ base + Z.of_nat (S i) + zlen l2 ≤ 2 ^ 32) as [Hx1 Hx2] by (unfold zlen in *; lia).
      eapply Forall_impl; [exact (dir_records_bounds _ l2 Hx1 Hx2 Hs2)|]. intros r. cbn beta. rewrite position_eq by done.
      unfold u32, seg_end, SEGMENT_HEADER_LEN in *. lia.
Qed.

Lemma frames_nil_inv bodies : zlen (frames bodies) ≤ 0 → bodies = [].
Proof using.
  destruct bodies as [|b bs]; [done|]. rewrite frames_cons, zlen_app, frame_length. pose proof (frames_nonneg bs). pose proof (zlen_nonneg b).
  unfold frame_zlen, FRAME_HEADER_LEN. lia.
Qed.

(** The loop from where the frames of [b1] end in a segment. *)
Lemma for_each_first log base segs bodies start i b1 b2 fuel st :
  log_ok log base segs bodies → (segs ++ [bodies]) !! i = Some (b1 ++ b2) → (length segs - i + 1 < fuel)%nat →
  segment_of start = base + Z.of_nat i → Z.max (split start).2 SEGMENT_HEADER_LEN = seg_end b1 →
  for_each_loop lift f fuel log start (base + Z.of_nat i) (base + zlen segs) (seg_end bodies) st =
  visit_all f st (records_at (base + Z.of_nat i) (seg_end b1) b2 ++ dir_records (base + Z.of_nat (S i)) (drop (S i) (segs ++ [bodies]))).
Proof using All.
  intros Hl Hi Hf Hseg Hfrom. pose proof (lo_base _ _ _ _ _ Hl) as Hb. pose proof (tail_u32 fmt Hfmt _ _ _ _ Hl) as [Hu1 Hu2].
  pose proof (lookup_lt_Some _ _ _ Hi) as Hlt. rewrite length_app in Hlt. simpl in Hlt.
  assert (u32 (base + Z.of_nat i)) as Hu3 by (unfold u32, zlen in *; lia).
  assert ((if base + Z.of_nat i =? segment_of start then Z.max (split start).2 SEGMENT_HEADER_LEN else SEGMENT_HEADER_LEN) = seg_end b1) as Hfr.
  { by rewrite Hseg, Z.eqb_refl. }
  destruct fuel as [|fuel]; [lia|]. destruct (decide (i = length segs)) as [->|Hne].
  - rewrite list_lookup_middle in Hi by done. injection Hi as Hi. subst bodies. change (base + Z.of_nat (length segs)) with (base + zlen segs) in *.
    rewrite drop_ge by (rewrite length_app; simpl; lia). cbn [dir_records]. rewrite app_nil_r. destruct fuel as [|fuel]; [lia|].
    destruct (lo_file _ _ _ _ _ Hl) as (rest & file & Hd & Hfile).
    by apply (for_each_active _ log _ _ b1 b2 rest file); [apply Hl|..].
  - assert (segs !! i = Some (b1 ++ b2)) as Hi'. { rewrite lookup_app_l in Hi; [done|lia]. }
    destruct (lo_sealed _ _ _ _ _ Hl i _ Hi') as (file & Hd & Hsf).
    rewrite (for_each_sealed _ log _ _ _ _ b1 b2 file); [|apply Hl|done|done|done|unfold zlen; lia|done].
    rewrite visit_all_app. destruct (visit_all f st _) as [st'|e]; [|done]. cbn [result_bind].
    replace (base + Z.of_nat i + 1) with (base + Z.of_nat (S i)) by lia.
    apply (for_each_rest log base segs bodies _ Hl (length segs - S i)); [lia|lia|lia].
Qed.

(** Reading from a record on hands over the records from there to the tail. *)
Lemma for_each_spec log base segs bodies start i b1 b2 st :
  log_ok log base segs bodies → boundary base (segs ++ [bodies]) start i b1 b2 →
  for_each_with lift f log start (tail log) st = visit_all f st (from_cut_on start (records_of base segs bodies)).
Proof using All.
  intros Hl Hbd. pose proof (lo_base _ _ _ _ _ Hl) as Hb. pose proof (tail_u32 fmt Hfmt _ _ _ _ Hl) as [Hu1 Hu2].
  pose proof (log_ends _ _ _ _ Hl) as Hends. pose proof (zlen_nonneg segs).
  assert (base + zlen (segs ++ [bodies]) ≤ 2 ^ 32) as Hlen by (rewrite zlen_app; change (zlen [bodies]) with 1; unfold u32 in *; lia).
  unfold records_of. rewrite (from_cut_boundary _ _ _ _ _ _ (proj1 Hb) Hlen Hends Hbd). destruct Hbd as [Hi ->].
  pose proof (proj1 (Forall_lookup _ _) Hends i _ Hi) as Hsi. cbn beta in Hsi.
  pose proof (frames_nonneg b1). pose proof (frames_nonneg b2).
  assert (seg_end (b1 ++ b2) = seg_end b1 + zlen (frames b2)) as He by (unfold seg_end; rewrite frames_app, zlen_app; lia).
  pose proof (lookup_lt_Some _ _ _ Hi) as Hlt. rewrite length_app in Hlt. simpl in Hlt.
  assert (u32 (base + Z.of_nat i) ∧ u32 (seg_end b1)) as [Hu3 Hu4].
  { unfold u32, seg_end, zlen, SEGMENT_HEADER_LEN in *. lia. }
  unfold for_each_with. rewrite (lo_tail _ _ _ _ _ Hl), split_position, segment_of_position by done.
  destruct (Z.leb_spec (position (base + zlen segs) (seg_end bodies)) (position (base + Z.of_nat i) (seg_end b1))) as [Hle|Hgt].
  - rewrite !position_eq in Hle by done. assert (i = length segs) as -> by (unfold u32, zlen in *; lia).
    rewrite list_lookup_middle in Hi by done. injection Hi as Hi. subst bodies. change (Z.of_nat (length segs)) with (zlen segs) in Hle.
    rewrite (frames_nil_inv b2) by lia. by rewrite drop_ge by (rewrite length_app; simpl; lia).
  - apply for_each_first; [done|done|unfold zlen; lia|by apply segment_of_position|].
    rewrite split_position by done. unfold seg_end. cbn [snd]. lia.
Qed.

(** The whole log, from its oldest segment or from a position already deleted. *)
Lemma for_each_all log base segs bodies start st :
  log_ok log base segs bodies → u64 start → start ≤ position base SEGMENT_HEADER_LEN →
  for_each_with lift f log start (tail log) st = visit_all f st (records_of base segs bodies).
Proof using All.
  intros Hl Hst Hle. pose proof (lo_base _ _ _ _ _ Hl) as Hb. pose proof (tail_u32 fmt Hfmt _ _ _ _ Hl) as [Hu1 Hu2].
  pose proof (zlen_nonneg segs). assert (u32 base) as Hub by (unfold u32 in *; lia).
  assert (u32 SEGMENT_HEADER_LEN) as Huh by (unfold u32, SEGMENT_HEADER_LEN; lia).
  assert (∃ b, (segs ++ [bodies]) !! 0%nat = Some b) as [b Hb0] by (destruct segs; eauto).
  assert (records_of base segs bodies = records_at (base + Z.of_nat 0) (seg_end []) b ++ dir_records (base + Z.of_nat 1) (drop 1 (segs ++ [bodies]))) as ->.
  { unfold records_of. rewrite Z.add_0_r, seg_end_nil. destruct (segs ++ [bodies]) as [|b' l]; simplify_eq/=. by rewrite drop_0. }
  destruct (cut_split start Hst) as (Hsp & Hus & Heq). pose proof (Z.mod_pos_bound start (2 ^ 32) ltac:(lia)) as Hmod.
  rewrite position_eq in Hle by done. unfold for_each_with. rewrite (lo_tail _ _ _ _ _ Hl), split_position by done.
  destruct (Z.leb_spec (position (base + zlen segs) (seg_end bodies)) start) as [Hge|Hgt].
  - rewrite position_eq in Hge by done. unfold seg_end in Hge. pose proof (frames_nonneg bodies).
    assert (segs = []) as -> by (apply zlen_0_nil; lia). assert (bodies = []) as -> by (apply frames_nil_inv; lia). by simplify_eq/=.
  - destruct (decide (segment_of start = base)) as [Hsb|Hne].
    + rewrite Hsb. pose proof (for_each_first log base segs bodies start 0 [] b (2 + Z.to_nat (base + zlen segs - base)) st) as Hff.
      rewrite Hsp, Z.add_0_r, seg_end_nil in *. apply Hff; [done|done|unfold zlen; lia|done|cbn [snd]; unfold SEGMENT_HEADER_LEN in *; lia].
    + assert (segment_of start < base) as Hlt by (unfold SEGMENT_HEADER_LEN in *; lia).
      assert (dir log !! segment_of start = None) as Hd.
      { apply eq_None_not_Some. rewrite (lo_ids _ _ _ _ _ Hl) by lia. lia. }
      destruct (list_segments_log fmt Hfmt _ _ _ _ Hl) as (n & Hn & Hls).
      remember (S (Z.to_nat (base + zlen segs - segment_of start))) as fuel eqn:Hfuel.
      change (2 + Z.to_nat (base + zlen segs - segment_of start))%nat with (S (S (Z.to_nat (base + zlen segs - segment_of start)))).
      rewrite <-Hfuel. cbn [for_each_loop]. rewrite (proj2 (Z.ltb_ge _ _)), Hd, Hls, seqZ_cons by lia. cbn [head].
      rewrite (proj2 (Z.ltb_lt _ _)) by lia. unfold segment_start.
      pose proof (for_each_first log base segs bodies (position base SEGMENT_HEADER_LEN) 0 [] b fuel st) as Hff.
      rewrite split_position, segment_of_position, Z.add_0_r, seg_end_nil in * by done.
      apply Hff; [done|done|unfold zlen in *; lia|done|done].
Qed.
(** One segment: up to the end [segment_end] knows, or to where the next one starts. *)
Lemma for_each_segment log base segs bodies i bs st :
  log_ok log base segs bodies → (segs ++ [bodies]) !! i = Some bs →
  let id := base + Z.of_nat i in
  for_each_with lift f log (segment_start id) (default (segment_start (id + 1)) (segment_end log id)) st =
  visit_all f st (records_at id SEGMENT_HEADER_LEN bs).
Proof using All.
  intros Hl Hi id. pose proof (lo_base _ _ _ _ _ Hl) as Hb. pose proof (tail_u32 fmt Hfmt _ _ _ _ Hl) as [Hu1 Hu2].
  pose proof (proj1 (Forall_lookup _ _) (log_ends _ _ _ _ Hl) i _ Hi) as Hsi. cbn beta in Hsi. pose proof (frames_nonneg bs).
  pose proof (lookup_lt_Some _ _ _ Hi) as Hlt. rewrite length_app in Hlt. simpl in Hlt.
  assert (u32 id) as Hid by (unfold u32, id, zlen in *; lia).
  assert (u32 (seg_end bs)) as He by (unfold u32, seg_end, SEGMENT_HEADER_LEN in *; lia).
  assert (u32 SEGMENT_HEADER_LEN) as Huh by (unfold u32, SEGMENT_HEADER_LEN; lia).
  assert (∀ rest file, dir log !! id = Some file → seg_file id bs rest file → 
    for_each_with lift f log (segment_start id) (position id (seg_end bs)) st = visit_all f st (records_at id SEGMENT_HEADER_LEN bs)) as Hknown.
  { intros rest file Hd Hf. unfold for_each_with, segment_start. rewrite split_position, segment_of_position by done.
    destruct (Z.leb_spec (position id (seg_end bs)) (position id SEGMENT_HEADER_LEN)) as [Hle|_].
    - rewrite !position_eq in Hle by done. unfold seg_end in Hle. by rewrite (frames_nil_inv bs) by lia.
    - rewrite Z.sub_diag. change (2 + Z.to_nat 0)%nat with 2%nat.
      rewrite (for_each_active 0 log (position id SEGMENT_HEADER_LEN) id [] bs rest file); [done|apply Hl|done|done|done|].
      by rewrite split_position, segment_of_position, Z.eqb_refl, seg_end_nil by done. }
  unfold segment_end. rewrite (lo_tail _ _ _ _ _ Hl), segment_of_position by done. destruct (decide (i = length segs)) as [->|Hne].
  - rewrite list_lookup_middle in Hi by done. injection Hi as <-. destruct (lo_file _ _ _ _ _ Hl) as (rest & file & Hd & Hf).
    change (base + zlen segs) with id in *. rewrite Z.eqb_refl. by apply (Hknown rest file).
  - assert (segs !! i = Some bs) as Hi' by (rewrite lookup_app_l in Hi; [done|lia]).
    destruct (lo_sealed _ _ _ _ _ Hl i _ Hi') as (file & Hd & Hsf). fold id in Hd, Hsf.
    rewrite (proj2 (Z.eqb_neq id _)) by (unfold id, zlen; lia). destruct (sealed_ends log !! id) as [p|] eqn:Hp.
    + pose proof (lo_ends _ _ _ _ _ Hl i bs p Hi' Hp) as ->. destruct Hsf as [r Hf]. by apply (Hknown (marker ++ r) file).
    + simpl. assert (u32 (id + 1)) as Hid1 by (unfold u32, id, zlen in *; lia).
      unfold for_each_with, segment_start. rewrite split_position, segment_of_position by done.
      rewrite (proj2 (Z.leb_gt _ _)) by (rewrite !position_eq by done; lia).
      replace (Z.to_nat (id + 1 - id)) with 1%nat by lia. change (2 + 1)%nat with 3%nat.
      rewrite (for_each_sealed 2 log _ id (id + 1) _ [] bs file); [|apply Hl|done|done|done|lia|].
      2:{ by rewrite split_position, segment_of_position, Z.eqb_refl, seg_end_nil by done. }
      rewrite seg_end_nil. destruct (visit_all f st _) as [st'|e]; [|done]. cbn [result_bind].
      destruct (lookup_lt_is_Some_2 (segs ++ [bodies]) (S i)) as [bs1 Hi1]; [rewrite length_app; simpl; lia|].
      assert (∃ file1 rest1, dir log !! (id + 1) = Some file1 ∧ seg_file (id + 1) bs1 rest1 file1) as (file1 & rest1 & Hd1 & Hf1).
      { destruct (decide (S i = length segs)) as [Hlast|Hmid].
        - rewrite Hlast, list_lookup_middle in Hi1 by done. injection Hi1 as <-. destruct (lo_file _ _ _ _ _ Hl) as (rest1 & file1 & ?).
          exists file1, rest1. replace (id + 1) with (base + zlen segs) by (unfold id, zlen; lia). done.
        - rewrite lookup_app_l in Hi1 by lia. destruct (lo_sealed _ _ _ _ _ Hl _ _ Hi1) as (file1 & Hd1 & r & Hf1).
          replace (base + Z.of_nat (S i)) with (id + 1) in * by (unfold id; lia). eauto. }
      destruct (seg_file_checks _ _ _ _ Hf1 Hid1) as [Hch Hlen]. pose proof (seg_file_zlen fmt Hfmt _ _ _ _ Hf1) as Hz.
      pose proof (zlen_nonneg rest1). pose proof (frames_nonneg bs1).
      cbn [for_each_loop]. rewrite (proj2 (Z.ltb_ge _ _)), Hd1, (lo_format _ _ _ _ _ Hl), Hch, Hlen by lia. cbn [lifted result_bind].
      rewrite segment_of_position by done. rewrite (proj2 (Z.eqb_neq (id + 1) id)), Z.eqb_refl by lia.
      rewrite Z.min_l by (unfold seg_end, SEGMENT_HEADER_LEN in *; lia).
      rewrite (walk_frames f file1 (id + 1) SEGMENT_HEADER_LEN SEGMENT_HEADER_LEN [] Unwritten []).
      * cbn [records_at visit_all result_bind]. by rewrite (proj2 (Z.ltb_lt _ _)) by lia.
      * apply Hf1.
      * unfold SEGMENT_HEADER_LEN. lia.
      * unfold seg_end, SEGMENT_HEADER_LEN in *. lia.
      * constructor.
      * rewrite Z.sub_diag. done.
      * done.
Qed.
End reads.
