(* ===== verification/LogSpec.v ===== *)
(** * LogSpec: what a log promises across crashes

    The log of segmented_log.rs as a state machine: appends, commits, deletions of retired
    segments, and power losses followed by a reopening.  A power loss keeps, of each
    segment, what an fsync covered ([power_loss_extent], the model the source's own tests
    use), and anything at all past it, as long as no damaged frame passes the checksum. *)
From S2P Require Import Prelude Slices Bytes LogProgress CommitRounds SegmentedLog LogFrames LogOpen LogWrites LogReads.
#[local] Open Scope minnal_scope.

Section spec.
Context `{CrcLaws} (fmt : LogFormat) (Hfmt : format_ok fmt).

#[local] Abbreviation log_ok := (log_ok fmt).
#[local] Abbreviation seg_file := (seg_file fmt).

(** ** Reading everything *)

Definition collect (acc : list (Z * region)) (at_ : Z) (body : region) : result (list (Z * region)) LogError := Ok (acc ++ [(at_, body)]).

Lemma visit_all_collect acc recs : visit_all collect acc recs = Ok (acc ++ recs).
Proof using.
  revert acc. induction recs as [|[a b] recs IH]; intros acc; cbn [visit_all]; [by rewrite app_nil_r|].
  unfold collect at 1. cbn [result_bind]. by rewrite IH, <-app_assoc.
Qed.

(** All the records of a log, by [for_each] up to its tail. *)
Definition read_all (log : SegmentedLog) : result (list (Z * region)) LogError := for_each_with id collect log 0 (tail log) [].

Lemma read_all_spec log base segs bodies : log_ok log base segs bodies → read_all log = Ok (records_of base segs bodies).
Proof using All.
  intros Hl. unfold read_all. rewrite (for_each_all fmt Hfmt id collect log base segs bodies).
  - apply visit_all_collect.
  - done.
  - unfold u64. lia.
  - pose proof (lo_base _ _ _ _ _ Hl). pose proof (zlen_nonneg segs). unfold SEGMENT_HEADER_LEN. rewrite position_eq by (unfold u32; lia). lia.
Qed.

(** ** Power loss *)

(** Where a file departs from the frames written to it, no frame reads as whole: the
    checksum detects a torn one. *)
Definition torn_detected (id : Z) (bodies : list region) (file : region) : Prop :=
  ∀ j rest, file = header_bytes fmt id ++ frames (take j bodies) ++ rest →
    (∀ body rest', bodies !! j = Some body → rest ≠ frame body ++ rest') → ∃ we, stops_with rest we.

(** The bytes of a file after a power loss that keeps its first [kept] ([None]: all). *)
Definition survives (kept : option Z) (file file' : region) : Prop :=
  match kept with
  | None => file' = file
  | Some n => zlen file' = zlen file ∧ bread file' 0 n = bread file 0 n ∧ Forall byte file'
  end.

(** The directory after a power loss: every segment keeps what an fsync covered; the file
    of a failed rotation may or may not be there. *)
Record power_loss (log : SegmentedLog) (dir' : segment_dir) : Prop := {
  pl_kept : ∀ id file, dir log !! id = Some file → id ≤ active_segment log →
    ∃ file', dir' !! id = Some file' ∧ survives (power_loss_extent log id) file file';
  pl_new : ∀ id, is_Some (dir' !! id) → is_Some (dir log !! id);
  pl_left : ∀ left, dir' !! (active_segment log + 1) = Some left → last_file fmt (active_segment log + 1) [] left;
  pl_torn : ∀ file' bodies rest file, dir log !! active_segment log = Some file → seg_file (active_segment log) bodies rest file →
    dir' !! active_segment log = Some file' → seg_end bodies = a_pos (active log) → torn_detected (active_segment log) bodies file';
}.

Lemma active_segment_eq log base segs bodies : log_ok log base segs bodies → active_segment log = base + zlen segs.
Proof using Hfmt.
  intros Hl. destruct (tail_u32 fmt Hfmt _ _ _ _ Hl). unfold active_segment. rewrite (lo_tail _ _ _ _ _ Hl). by apply segment_of_position.
Qed.

(** A prefix kept of a region that starts with [pre]. *)
Lemma survives_prefix pre post n file' :
  survives (Some n) (pre ++ post) file' → zlen pre ≤ n → ∃ post', file' = pre ++ post' ∧ zlen post' = zlen post.
Proof using.
  intros (Hz & Hr & _) Hn. exists (drop (length pre) file'). rewrite !bread_0 in Hr.
  assert (take (length pre) file' = pre) as Hp.
  { assert (take (length pre) (take (Z.to_nat n) file') = take (length pre) (take (Z.to_nat n) (pre ++ post))) as Ht by (by rewrite Hr).
    rewrite !take_take, !Nat.min_l in Ht by (unfold zlen in Hn; lia). by rewrite take_app_length in Ht. }
  split; [rewrite <-(take_drop (length pre) file') at 1; by rewrite Hp|].
  rewrite zlen_app in Hz. unfold zlen in *. rewrite length_drop. lia.
Qed.

Lemma sealed_survives id bodies file file' n :
  sealed_file fmt id bodies file → survives n file file' → (∀ m, n = Some m → seg_end bodies + END_MARKER_LEN ≤ m) →
  sealed_file fmt id bodies file'.
Proof using Hfmt.
  intros [r Hf] Hs Hn. destruct n as [m|]; [|rewrite Hs; by exists r]. specialize (Hn m eq_refl).
  pose proof Hf as [Hfe Hfb Hfl Hfr Hfo]. pose proof Hs as (Hz & _ & Hb').
  assert (file = (header_bytes fmt id ++ frames bodies ++ marker) ++ r) as Hfe' by (rewrite Hfe, <-!app_assoc; done).
  rewrite Hfe' in Hs. apply survives_prefix in Hs as (r' & -> & _).
  - exists r'. split; [by rewrite <-!app_assoc|done|lia|done|done].
  - rewrite !zlen_app, header_bytes_zlen by done. change (zlen marker) with 4. unfold seg_end, END_MARKER_LEN in *. lia.
Qed.

(** The frames kept whole, up to the first that is not. *)
Lemma longest_prefix pre bodies file' : ∀ m j rest, (j + m = length bodies)%nat → file' = pre ++ frames (take j bodies) ++ rest →
  ∃ j' rest', (j ≤ j' ≤ length bodies)%nat ∧ file' = pre ++ frames (take j' bodies) ++ rest' ∧
    (∀ body rest'', bodies !! j' = Some body → rest' ≠ frame body ++ rest'').
Proof using.
  induction m as [|m IH]; intros j rest Hjm Hf.
  - exists j, rest. split; [lia|]. split; [done|]. intros body rest'' Hb. apply lookup_lt_Some in Hb. lia.
  - destruct (lookup_lt_is_Some_2 bodies j) as [body Hb]; [lia|].
    destruct (decide (take (length (frame body)) rest = frame body)) as [Hfr|Hfr].
    + destruct (IH (S j) (drop (length (frame body)) rest)) as (j' & rest' & Hj & Hf' & Hn); [lia| |exists j', rest'; split; [lia|done]].
      rewrite Hf at 1. rewrite (take_S_r _ _ _ Hb), frames_app, frames_one, <-app_assoc. do 2 f_equal.
      rewrite <-Hfr at 1. by rewrite take_drop.
    + exists j, rest. split; [lia|]. split; [done|]. intros body' rest'' Hb' ->. rewrite Hb in Hb'. simplify_eq.
      by rewrite take_app_length in Hfr.
Qed.

Lemma active_survives id bodies rest file file' n :
  seg_file id bodies rest file → survives (Some n) file file' → SEGMENT_HEADER_LEN ≤ n → torn_detected id bodies file' →
  ∃ j, (j ≤ length bodies)%nat ∧ last_file fmt id (take j bodies) file' ∧
    (∀ i, (i ≤ length bodies)%nat → seg_end (take i bodies) ≤ n → (i ≤ j)%nat).
Proof using All.
  intros Hf Hs Hn Ht. pose proof Hf as [Hfe Hfb Hfl Hfr Hfo]. pose proof Hs as (Hz & _ & Hb').
  assert (∀ i, (i ≤ length bodies)%nat → seg_end (take i bodies) ≤ n →
    ∃ rest', file' = header_bytes fmt id ++ frames (take i bodies) ++ rest') as Hkept.
  { intros i Hi Hin. assert (file = (header_bytes fmt id ++ frames (take i bodies)) ++ frames (drop i bodies) ++ rest) as Hfe'.
    { rewrite Hfe, <-(take_drop i bodies) at 1. rewrite frames_app, <-!app_assoc. done. }
    rewrite Hfe' in Hs. apply survives_prefix in Hs as (r' & -> & _); [exists r'; by rewrite <-app_assoc|].
    rewrite zlen_app, header_bytes_zlen by done. exact Hin. }
  destruct (Hkept 0%nat) as [rest0 Hf0]; [lia|exact Hn|].
  destruct (longest_prefix (header_bytes fmt id) bodies file' (length bodies) 0 rest0) as (j & rest' & Hj & Hfj & Hstop); [lia|exact Hf0|].
  exists j. split; [lia|]. split.
  - left. destruct (Ht j rest' Hfj Hstop) as [we Hwe]. exists rest', we. split; [|done].
    assert (frames bodies = frames (take j bodies) ++ frames (drop j bodies)) as Hfs by (rewrite <-frames_app, take_drop; done).
    split; [exact Hfj|done|lia| |].
    + unfold seg_end in *. rewrite Hfs, zlen_app in Hfr. pose proof (frames_nonneg (drop j bodies)). lia.
    + by apply Forall_take.
  - intros i Hi Hin. destruct (decide (i ≤ j)%nat) as [|Hij]; [done|exfalso]. destruct (Hkept i Hi Hin) as [ri Hfi].
    destruct (lookup_lt_is_Some_2 bodies j) as [body Hb]; [lia|].
    assert (frames (take i bodies) = frames (take j bodies) ++ frame body ++ frames (drop (S j) (take i bodies))) as Hti.
    { rewrite <-(take_drop_middle (take i bodies) j body) at 1 by (rewrite lookup_take_lt by lia; done).
      rewrite frames_app, frames_cons, take_take, Nat.min_l by lia. done. }
    apply (Hstop body (frames (drop (S j) (take i bodies)) ++ ri) Hb). rewrite Hfi, Hti in Hfj. rewrite <-!app_assoc in Hfj.
    apply app_inv_head, app_inv_head in Hfj. by symmetry.
Qed.

(** What a power loss leaves is a directory that opens, with a prefix of the records. *)
Lemma power_loss_ok log base segs bodies dir' :
  log_ok log base segs bodies → power_loss log dir' →
  ∃ segs' bodies', dir_ok fmt dir' base segs' bodies' ∧
    ((segs' = segs ∧ ∃ j, (j ≤ length bodies)%nat ∧ bodies' = take j bodies ∧
       ∀ i, (i ≤ length bodies)%nat → position (base + zlen segs) (seg_end (take i bodies)) ≤ log_durable log → (i ≤ j)%nat) ∨
     (segs' = segs ++ [bodies] ∧ bodies' = [])).
Proof using All.
  intros Hl [Hkept Hnew Hleft Htorn]. rewrite (active_segment_eq _ _ _ _ Hl) in *.
  pose proof Hl as [Hfm Hsz Hb Ha Ht Hids Hs (rest & file & Hd & Hf) Hlo Hr Hdur (Hfo & w & s & Hw & Hsn & Hwb & Hsb & Hds) Hsy He Hp].
  pose proof (zlen_nonneg segs).
  assert (sealed_dir fmt dir' base segs) as Hs'.
  { intros i bs Hi. destruct (Hs i bs Hi) as (f & Hdf & Hsf). pose proof (lookup_lt_Some _ _ _ Hi) as Hlt.
    destruct (Hkept _ _ Hdf) as (f' & Hd' & Hsv); [unfold zlen; lia|]. exists f'. split; [done|].
    eapply sealed_survives; [exact Hsf|exact Hsv|]. intros m Hm. unfold power_loss_extent in Hm.
    destruct (Z.ltb_spec (base + Z.of_nat i) (first_open_segment log)) as [|Hge]; [done|].
    destruct (Hsy i bs Hi Hge) as (s' & Hs'' & Hle). rewrite Hs'' in Hm. injection Hm as <-. done. }
  destruct (Hkept _ _ Hd ltac:(lia)) as (file' & Hd' & Hsv).
  assert (power_loss_extent log (base + zlen segs) = Some s) as Hext.
  { unfold power_loss_extent. rewrite (proj2 (Z.ltb_ge _ _)), Hsn by lia. done. }
  rewrite Hext in Hsv.
  destruct (dir' !! (base + zlen segs + 1)) as [left|] eqn:Hnext.
  - destruct (dir log !! (base + zlen segs + 1)) as [left0|] eqn:Hn0.
    2:{ destruct (Hnew (base + zlen segs + 1)) as [x Hx]; [eauto|congruence]. }
    destruct (Hlo left0 eq_refl) as (_ & Hbd & _ & file1 & s1 & Hd1 & Hsf & Hs1 & Hse). rewrite Hd in Hd1. rewrite Hsn in Hs1. simplify_eq.
    exists (segs ++ [bodies]), []. assert (zlen (segs ++ [bodies]) = zlen segs + 1) as Hz by by rewrite zlen_app.
    split; [|by right]. split; rewrite ?Hz.
    + intros id. split.
      * intros Hi. destruct (decide (id = base + zlen segs + 1)) as [->|Hne]; [lia|]. assert (base ≤ id ≤ base + zlen segs); [|lia].
        apply Hids; [done|]. by apply Hnew.
      * intros Hi. destruct (decide (id = base + zlen segs + 1)) as [->|Hne]; [rewrite Hnext; eauto|].
        destruct (proj2 (Hids id Hne) ltac:(lia)) as [f Hdf]. destruct (Hkept _ _ Hdf) as (f' & ? & _); [lia|eauto].
    + lia.
    + eapply sealed_dir_app; [done|exact Hd'|]. eapply sealed_survives; [exact Hsf|exact Hsv|]. by intros m [= <-].
    + rewrite Z.add_assoc. exists left. split; [done|]. by apply Hleft.
  - destruct (active_survives _ _ _ _ _ _ Hf Hsv) as (j & Hj & Hlast & Hmax); [lia| |].
    { eapply Htorn; [done|exact Hf|done|by rewrite Ha]. }
    exists segs, (take j bodies). split; [split; [|done|done|eauto]|].
    + intros id. split.
      * intros Hi. assert (id ≠ base + zlen segs + 1) as Hne by (intros ->; rewrite Hnext in Hi; by destruct Hi).
        apply Hids; [done|]. by apply Hnew.
      * intros Hi. destruct (proj2 (Hids id ltac:(lia)) Hi) as [f Hdf]. destruct (Hkept _ _ Hdf) as (f' & ? & _); [lia|eauto].
    + left. split; [done|]. exists j. split; [done|]. split; [done|]. intros i Hi Hpos. apply Hmax; [done|].
      destruct (tail_u32 fmt Hfmt _ _ _ _ Hl) as [Hu1 Hu2].
      assert (seg_end bodies = seg_end (take i bodies) + zlen (frames (drop i bodies))) as Hse.
      { unfold seg_end. rewrite <-(take_drop i bodies) at 1. rewrite frames_app, zlen_app. lia. }
      pose proof (frames_nonneg (drop i bodies)). pose proof (frames_nonneg (take i bodies)).
      assert (u32 (seg_end (take i bodies)) ∧ u32 s) as [Hu3 Hu4] by (unfold u32, seg_end, SEGMENT_HEADER_LEN in *; lia).
      rewrite !position_eq in * by done. lia.
Qed.

Lemma elem_of_records_at id pos bodies a b :
  (a, b) ∈ records_at id pos bodies ↔ ∃ b1 b2, bodies = b1 ++ b :: b2 ∧ a = position id (pos + zlen (frames b1)).
Proof using.
  revert pos. induction bodies as [|x bodies IH]; intros pos; cbn [records_at].
  - split; [by intros ?%elem_of_nil|]. intros (b1 & b2 & Hn & _). by destruct b1.
  - rewrite elem_of_cons, IH. split.
    + intros [[= -> ->]|(b1 & b2 & -> & ->)]; [exists [], bodies; by rewrite Z.add_0_r|].
      exists (x :: b1), b2. split; [done|]. rewrite frames_cons, zlen_app, frame_length. f_equal. lia.
    + intros (b1 & b2 & Hb & ->). destruct b1 as [|y b1]; injection Hb as -> ->; [left; by rewrite Z.add_0_r|right].
      exists b1, b2. split; [done|]. rewrite frames_cons, zlen_app, frame_length. f_equal. lia.
Qed.

Definition record_end (r : Z * region) : Z := r.1 + frame_zlen r.2.

Lemma seg_end_snoc b1 b : seg_end (b1 ++ [b]) = seg_end b1 + frame_zlen b.
Proof using. unfold seg_end. rewrite frames_app, zlen_app, frames_one, frame_length. lia. Qed.

Lemma seg_end_app b1 b2 : seg_end (b1 ++ b2) = seg_end b1 + zlen (frames b2).
Proof using. unfold seg_end. rewrite frames_app, zlen_app. lia. Qed.

(** A power loss takes the end of the records, none that was durable. *)
Lemma power_loss_records log base segs bodies dir' :
  log_ok log base segs bodies → power_loss log dir' →
  ∃ segs' bodies' lost, dir_ok fmt dir' base segs' bodies' ∧ (segs' = segs ∨ segs' = segs ++ [bodies]) ∧
    records_of base segs bodies = dir_records base (segs' ++ [bodies']) ++ lost ∧
    Forall (λ r, log_durable log < record_end r) lost.
Proof using All.
  intros Hl Hpl. destruct (power_loss_ok _ _ _ _ _ Hl Hpl) as (segs' & bodies' & Hd & Hcase).
  exists segs', bodies'. destruct Hcase as [(-> & j & Hj & -> & Hmax)|[-> ->]].
  - exists (records_at (base + zlen segs) (seg_end (take j bodies)) (drop j bodies)). split; [done|]. split; [by left|].
    destruct (tail_u32 fmt Hfmt _ _ _ _ Hl) as [Hu1 Hu2]. split.
    + unfold records_of. rewrite !dir_records_app. cbn [dir_records]. rewrite !app_nil_r, <-app_assoc. f_equal.
      rewrite <-(take_drop j bodies) at 1. by rewrite records_at_app.
    + apply Forall_forall. intros [a b] Hin. apply elem_of_records_at in Hin as (b1 & b2 & Hb & ->).
      assert (bodies = (take j bodies ++ b1) ++ b :: b2) as Hbod by (rewrite <-app_assoc, <-Hb, take_drop; done).
      apply Znot_ge_lt. intros Hge.
      assert (take (S (length (take j bodies ++ b1))) bodies = (take j bodies ++ b1) ++ [b]) as Htake.
      { rewrite Hbod at 2. rewrite take_app_ge by lia. replace (S _ - _)%nat with 1%nat by lia. done. }
      assert (seg_end bodies = seg_end ((take j bodies ++ b1) ++ [b]) + zlen (frames b2)) as Hse.
      { rewrite Hbod at 1. change (b :: b2) with ([b] ++ b2). rewrite app_assoc, (seg_end_app _ b2). done. }
      pose proof (frames_nonneg b2). pose proof (frames_nonneg b1). pose proof (frames_nonneg (take j bodies)). pose proof (zlen_nonneg b).
      rewrite seg_end_snoc, seg_end_app in Hse.
      assert (S (length (take j bodies ++ b1)) ≤ j)%nat as Hle.
      { apply Hmax.
        - pose proof (f_equal length Hbod) as Hlen. rewrite length_app in Hlen. cbn [length] in Hlen. lia.
        - rewrite Htake, seg_end_snoc, seg_end_app. unfold record_end in Hge. cbn [fst snd] in Hge.
          unfold u32, seg_end, frame_zlen, FRAME_HEADER_LEN, SEGMENT_HEADER_LEN in *. rewrite !position_eq in * by (unfold u32; lia). lia. }
      rewrite length_app, length_take in Hle. lia.
  - exists []. split; [done|]. split; [by right|]. split; [|constructor]. rewrite app_nil_r. by rewrite <-records_of_next.
Qed.

(** ** Records and their segments *)

Lemma elem_of_dir_records base all a b :
  (a, b) ∈ dir_records base all ↔ ∃ (k : nat) b1 b2, all !! k = Some (b1 ++ b :: b2) ∧ a = position (base + Z.of_nat k) (seg_end b1).
Proof using.
  revert base. induction all as [|bs all IH]; intros base; cbn [dir_records].
  - split; [by intros ?%elem_of_nil|]. by intros (k & b1 & b2 & ? & _).
  - rewrite elem_of_app, IH, elem_of_records_at. split.
    + intros [(b1 & b2 & -> & ->)|(k & b1 & b2 & Hk & ->)].
      * exists 0%nat, b1, b2. split; [done|]. by rewrite Z.add_0_r.
      * exists (S k), b1, b2. split; [done|]. f_equal; lia.
    + intros (k & b1 & b2 & Hk & ->). destruct k as [|k]; [left|right].
      * injection Hk as ->. exists b1, b2. split; [done|]. by rewrite Z.add_0_r.
      * exists k, b1, b2. split; [exact Hk|]. f_equal; lia.
Qed.

(** Where a log's record lies: its segment's id, its position and its end. *)
Lemma record_place log base segs bodies a b :
  log_ok log base segs bodies → (a, b) ∈ records_of base segs bodies →
  ∃ (k : nat) b1 b2, (segs ++ [bodies]) !! k = Some (b1 ++ b :: b2) ∧ u32 (base + Z.of_nat k) ∧
    u32 (seg_end b1) ∧ u32 (seg_end (b1 ++ [b])) ∧
    a = position (base + Z.of_nat k) (seg_end b1) ∧ record_end (a, b) = position (base + Z.of_nat k) (seg_end (b1 ++ [b])) ∧
    record_end (a, b) ≤ tail log.
Proof using All.
  intros Hl Hin. apply elem_of_dir_records in Hin as (k & b1 & b2 & Hk & ->). exists k, b1, b2.
  pose proof (lo_base _ _ _ _ _ Hl) as Hb. destruct (tail_u32 fmt Hfmt _ _ _ _ Hl) as [Hu1 Hu2].
  pose proof (log_ends fmt Hfmt _ _ _ _ Hl) as Hends.
  pose proof (proj1 (Forall_lookup _ _) Hends k _ Hk) as Hsi. cbn beta in Hsi.
  pose proof (lookup_lt_Some _ _ _ Hk) as Hlt. rewrite length_app in Hlt. cbn [length] in Hlt.
  assert (b1 ++ b :: b2 = (b1 ++ [b]) ++ b2) as Hbs by by rewrite <-app_assoc.
  rewrite Hbs, seg_end_app, seg_end_snoc in Hsi. pose proof (frames_nonneg b1). pose proof (frames_nonneg b2). pose proof (zlen_nonneg b).
  assert (u32 (base + Z.of_nat k) ∧ u32 (seg_end b1) ∧ u32 (seg_end b1 + frame_zlen b)) as (Hu3 & Hu4 & Hu5).
  { unfold u32, seg_end, frame_zlen, FRAME_HEADER_LEN, SEGMENT_HEADER_LEN, zlen in *. lia. }
  rewrite seg_end_snoc. split; [done|]. split; [done|]. split; [done|]. split; [done|]. split; [done|].
  unfold record_end. cbn [fst snd]. rewrite (lo_tail _ _ _ _ _ Hl), !position_eq by done. split; [lia|].
  destruct (decide (k = length segs)) as [->|Hne].
  - rewrite list_lookup_middle in Hk by done. injection Hk as ->. rewrite Hbs, seg_end_app, seg_end_snoc. unfold zlen. lia.
  - unfold u32, seg_end, SEGMENT_HEADER_LEN, zlen in *. lia.
Qed.

(** ** The saved progress *)

(** The progress a log was saved with fits what a power loss left: its cut's segment is
    there, it names no segment after the active one, and in a segment other than the last
    the cut is at a record's start or end, or in the zeros past the end marker. *)
Record from_fits (log : SegmentedLog) (dir' : segment_dir) (from : OpenFrom) : Prop := {
  ff_cut : u64 (default 0 (from_cut from));
  ff_furthest : u64 (from_furthest from) ∧ segment_of (from_furthest from) ≤ active_segment log;
  ff_segment : is_Some (dir' !! segment_of (default 0 (from_cut from)));
  ff_at : let cut := default 0 (from_cut from) in let byte := (split cut).2 in
    byte ≤ SEGMENT_HEADER_LEN ∨
    (∃ recs r, read_all log = Ok recs ∧ r ∈ recs ∧ cut = record_end r) ∨
    (∃ file, dir' !! segment_of cut = Some file ∧ SEGMENT_HEADER_LEN + END_MARKER_LEN ≤ byte ∧ byte + 4 ≤ zlen file ∧
      get_le file byte 4 = 0 ∧
      ∀ recs r, read_all log = Ok recs → r ∈ recs → segment_of r.1 = segment_of cut → record_end r + END_MARKER_LEN ≤ cut);
}.

Lemma from_fits_ok log base segs bodies dir' segs' bodies' from :
  log_ok log base segs bodies → dir_ok fmt dir' base segs' bodies' → (segs' = segs ∨ segs' = segs ++ [bodies]) →
  from_fits log dir' from → from_ok dir' base segs' from.
Proof using All.
  intros Hl [Hids Hb Hs _] Hsegs [Hcut [Hfu Hfs] Hseg Hat]. cbv zeta in Hat. set (cut := default 0 (from_cut from)) in *.
  destruct (cut_split cut Hcut) as (Hsp & Hu & Heq). pose proof (Z.mod_pos_bound cut (2 ^ 32) ltac:(lia)) as Hmod.
  assert (∀ i bs, segs' !! i = Some bs → (segs ++ [bodies]) !! i = Some bs) as Hpre.
  { intros i bs Hi. destruct Hsegs as [-> | ->]; [|done]. by apply lookup_app_l_Some. }
  apply Hids in Hseg. pose proof (zlen_nonneg segs).
  assert (zlen segs ≤ zlen segs') as Hzs by (destruct Hsegs as [-> | ->]; rewrite ?zlen_app; change (zlen [bodies]) with 1; lia).
  rewrite (active_segment_eq _ _ _ _ Hl) in Hfs. split; fold cut; [done| |lia| |by split; [|lia]].
  { intros Hn. assert (cut = 0) as Hc0 by (unfold cut; by rewrite Hn). rewrite Hc0 in Hseg. change (segment_of 0) with 0 in Hseg. lia. }
  intros i bs file Hi Hd Hid. apply Hpre in Hi. unfold cut_in. rewrite Hsp in *. cbn [snd] in *. cbv zeta in *.
  pose proof (read_all_spec _ _ _ _ Hl) as Hread.
  destruct Hat as [Hle|[(recs & [a b] & Hr & Hin & Hc)|(file' & Hd' & Hge & Hfit & Hz & Hpast)]].
  - left. exists [], bs. split; [done|]. change (seg_end []) with SEGMENT_HEADER_LEN. lia.
  - left. rewrite Hread in Hr. injection Hr as <-. destruct (record_place _ _ _ _ _ _ Hl Hin) as (k & b1 & b2 & Hk & Hu1 & Hu2 & Hu3 & _ & He & _).
    rewrite He in Hc. pose proof (split_position _ _ Hu1 Hu3) as Hsk. rewrite <-Hc, Hsp in Hsk. injection Hsk as Hsk Hbyte.
    assert (k = i) as -> by lia. rewrite Hi in Hk. injection Hk as ->. exists (b1 ++ [b]), b2. split; [by rewrite <-app_assoc|].
    rewrite Hbyte. unfold seg_end. pose proof (frames_nonneg (b1 ++ [b])). lia.
  - right. rewrite <-Hid, Hd in Hd'. injection Hd' as <-. rewrite Z.max_l by (unfold END_MARKER_LEN in *; lia). split; [|done].
    destruct bs as [|b0 bs0] using rev_ind; [done|]. clear IHbs0.
    assert ((position (base + Z.of_nat i) (seg_end bs0), b0) ∈ records_of base segs bodies) as Hin.
    { apply elem_of_dir_records. exists i, bs0, []. done. }
    destruct (record_place _ _ _ _ _ _ Hl Hin) as (k & b1 & b2 & Hk & Hu1 & Hu2 & Hu3 & Ha & He & _).
    pose proof (Hpast _ _ Hread Hin) as Hend. cbn [fst] in Hend.
    assert (u32 (base + Z.of_nat i) ∧ u32 (seg_end bs0) ∧ u32 (seg_end (bs0 ++ [b0]))) as (Hu4 & Hu5 & Hu6).
    { pose proof (proj1 (Forall_lookup _ _) (log_ends fmt Hfmt _ _ _ _ Hl) i _ Hi) as Hsi. cbn beta in Hsi. rewrite seg_end_snoc in *.
      pose proof (frames_nonneg bs0). pose proof (zlen_nonneg b0). rewrite Hid.
      split; [done|]. unfold u32, seg_end, frame_zlen, FRAME_HEADER_LEN, SEGMENT_HEADER_LEN in *. lia. }
    rewrite segment_of_position in Hend by done. specialize (Hend Hid). unfold record_end in Hend. cbn [fst snd] in Hend.
    rewrite position_eq in Hend by done. rewrite seg_end_snoc. rewrite Hid in Hend. lia.
Qed.

(** ** Reopening *)

Lemma reopen_spec {St E} (lift : LogError → E) (visit : St → Z → region → result St E) log base segs bodies dir' size from :
  log_ok log base segs bodies → power_loss log dir' → from_fits log dir' from → size < 2 ^ 32 → active_segment log + 3 < 2 ^ 32 →
  ∃ segs' bodies' lost log' torn,
    records_of base segs bodies = records_of base segs' bodies' ++ lost ∧
    Forall (λ r, log_durable log < record_end r) lost ∧
    (∀ st, open lift visit dir' fmt size from st =
      (let? st := visit_all visit st (from_cut_on (default 0 (from_cut from)) (records_of base segs' bodies')) in
       Ok (st, log', mk_OpenReport (tail log') torn))) ∧
    log_ok log' base segs' bodies' ∧ from_furthest from ≤ tail log' ∧ log_durable log' = tail log' ∧ poisoned (rounds log') = None.
Proof using All.
  intros Hl Hpl Hff Hsz Hid. rewrite (active_segment_eq _ _ _ _ Hl) in Hid.
  destruct (power_loss_records _ _ _ _ _ Hl Hpl) as (segs1 & bodies1 & lost & Hd & Hs & Hrec & Hlost).
  pose proof (from_fits_ok _ _ _ _ _ _ _ _ Hl Hd Hs Hff) as Hfr.
  destruct (open_spec fmt Hfmt lift visit dir' base segs1 bodies1 size from Hd Hfr Hsz) as
    (log' & torn & segs2 & bodies2 & Hopen & Hl' & Hr & _ & Hfur & Hdur & Hpo).
  { destruct Hs as [-> | ->]; rewrite ?zlen_app; change (zlen [bodies]) with 1; lia. }
  exists segs2, bodies2, lost, log', torn. unfold records_of in *. rewrite Hr. done.
Qed.

(** ** The machine *)

(** One step of a log whose callers delete no segment at or above [floor]: an append, a
    commit, a deletion, or a power loss and the reopening after it; each may fail. *)
Inductive log_step (floor : Z) (log : SegmentedLog) : SegmentedLog → Prop :=
| step_append io parts log' r :
    io_ok fmt io (active_segment log + 1) → Forall byte (concat parts) → 0 < zlen (concat parts) →
    append io log parts = (log', r) → log_step floor log log'
| step_commit end_ fsync log' r :
    end_ ≤ tail log → commit log end_ fsync = Some (log', r) → log_step floor log log'
| step_delete segment_id fails_after log' r :
    segment_id ≤ floor → delete_segments_below log segment_id fails_after = (log', r) → log_step floor log log'
| step_reopen dir' size from recs log' report :
    power_loss log dir' → from_fits log dir' from → size < 2 ^ 32 → active_segment log + 3 < 2 ^ 32 →
    open id collect dir' fmt size from [] = Ok (recs, log', report) → log_step floor log log'.

(** The logs that come to be, from a new directory on. *)
Definition reachable (log : SegmentedLog) : Prop :=
  ∃ floor size log0 report, size < 2 ^ 32 ∧ open id collect ∅ fmt size (mk_OpenFrom None 0) [] = Ok ([], log0, report) ∧
    rtc (log_step floor) log0 log.

Lemma log_step_ok floor log log' base segs bodies :
  log_ok log base segs bodies → log_step floor log log' →
  ∃ base' segs' bodies', log_ok log' base' segs' bodies' ∧
    ∀ r, r ∈ records_of base segs bodies → record_end r ≤ log_durable log → floor ≤ segment_of r.1 →
      r ∈ records_of base' segs' bodies' ∧ record_end r ≤ log_durable log'.
Proof using All.
  intros Hl Hstep. destruct Hstep as [io parts log' r Hio Hb Hpos Ha|end_ fsync log' r He Hc|segment_id fails log' r Hfl Hd|dir' size from recs log' rep Hpl Hff Hsz Hid Ho].
  - rewrite (active_segment_eq _ _ _ _ Hl) in Hio.
    destruct (append_spec fmt Hfmt _ _ _ _ _ _ _ _ Hl Hb Hpos Hio Ha) as (segs' & bodies' & Hl' & _ & Hdur & _ & Hr).
    exists base, segs', bodies'. split; [done|]. intros x Hx Hxd _. split; [|lia].
    destruct r as [[s e]|e]; [|by rewrite Hr]. destruct Hr as [-> _]. apply elem_of_app. by left.
  - destruct (log_commit_spec fmt Hfmt _ _ _ _ _ fsync Hl He) as (log1 & r1 & Hc' & Hl' & _ & Hdur & _).
    rewrite Hc in Hc'. simplify_eq. exists base, segs, bodies. split; [done|]. intros x Hx Hxd _. split; [done|lia].
  - destruct (delete_spec fmt Hfmt _ _ _ _ _ _ _ _ Hl Hd) as (k & Hk & Hks & Hl' & Hrec & _ & Hr & _).
    eexists _, _, _. split; [exact Hl'|]. intros [a b] Hx Hxd Hxf. split; [|unfold log_durable in *; by rewrite Hr].
    rewrite Hrec. apply list_elem_of_filter. split; [|done]. cbn [fst] in *.
    destruct (record_place _ _ _ _ _ _ Hl Hx) as (j & b1 & b2 & _ & Hu1 & Hu2 & _ & -> & _). rewrite segment_of_position in * by done. lia.
  - destruct (reopen_spec id collect _ _ _ _ _ size from Hl Hpl Hff Hsz Hid) as
      (segs' & bodies' & lost & log1 & torn & Hrec & Hlost & Hopen & Hl' & _ & Hdur & _).
    rewrite Hopen, visit_all_collect in Ho. cbn [result_bind] in Ho. simplify_eq.
    exists base, segs', bodies'. split; [done|]. intros [a b] Hx Hxd _. rewrite Hrec in Hx. apply elem_of_app in Hx as [Hx|Hx].
    + split; [done|]. destruct (record_place _ _ _ _ _ _ Hl' Hx) as (j & b1 & b2 & _ & _ & _ & _ & _ & _ & He). lia.
    + exfalso. rewrite Forall_forall in Hlost. specialize (Hlost _ Hx). cbn beta in Hlost. lia.
Qed.

Lemma log_steps_ok floor log log' base segs bodies :
  log_ok log base segs bodies → rtc (log_step floor) log log' →
  ∃ base' segs' bodies', log_ok log' base' segs' bodies' ∧
    ∀ r, r ∈ records_of base segs bodies → record_end r ≤ log_durable log → floor ≤ segment_of r.1 →
      r ∈ records_of base' segs' bodies' ∧ record_end r ≤ log_durable log'.
Proof using All.
  intros Hl Hs. revert base segs bodies Hl. induction Hs as [log|log log1 log' Hstep Hs IH]; intros base segs bodies Hl; [by eauto 6|].
  destruct (log_step_ok _ _ _ _ _ _ Hl Hstep) as (base1 & segs1 & bodies1 & Hl1 & H1).
  destruct (IH _ _ _ Hl1) as (base' & segs' & bodies' & Hl' & H2). exists base', segs', bodies'. split; [done|].
  intros r Hr Hd Hf. destruct (H1 r Hr Hd Hf). by apply H2.
Qed.

Lemma reachable_ok log : reachable log → ∃ base segs bodies, log_ok log base segs bodies.
Proof using All.
  intros (floor & size & log0 & rep & Hsz & Ho & Hs). destruct (open_empty fmt Hfmt id collect size [] Hsz) as (log1 & Ho' & Hl & _).
  rewrite Ho in Ho'. simplify_eq. destruct (log_steps_ok _ _ _ _ _ _ Hl Hs) as (base & segs & bodies & Hl' & _). eauto.
Qed.

(** Records lie one after the other. *)
Lemma records_at_sorted id pos bodies : u32 id → 0 ≤ pos → pos + zlen (frames bodies) < 2 ^ 32 →
  StronglySorted (λ r r' : Z * region, record_end r ≤ r'.1) (records_at id pos bodies).
Proof using.
  intros Hid. revert pos. induction bodies as [|b bs IH]; intros pos Hp Hl; [constructor|]. cbn [records_at].
  rewrite frames_cons, zlen_app, frame_length in Hl. pose proof (zlen_nonneg b). pose proof (zlen_nonneg (frames bs)).
  unfold frame_zlen, FRAME_HEADER_LEN in *. constructor; [apply IH; lia|].
  eapply Forall_impl; [apply records_at_bounds; [done|lia|lia]|]. intros r. cbn beta. unfold record_end, frame_zlen, FRAME_HEADER_LEN. cbn [fst snd].
  rewrite !position_eq by (done || unfold u32; lia). lia.
Qed.

Lemma dir_records_sorted base all : 0 ≤ base → base + zlen all ≤ 2 ^ 32 → Forall (λ bs, seg_end bs < 2 ^ 32) all →
  StronglySorted (λ r r' : Z * region, record_end r ≤ r'.1) (dir_records base all).
Proof using All.
  intros Hb Hl Hs. revert base Hb Hl. induction Hs as [|bs all Hbs Hs IH]; intros base Hb Hl; [constructor|].
  rewrite zlen_cons in *. pose proof (zlen_nonneg all). pose proof (frames_nonneg bs). cbn [dir_records]. cbn beta in Hbs.
  assert (u32 base ∧ 0 ≤ SEGMENT_HEADER_LEN ∧ SEGMENT_HEADER_LEN + zlen (frames bs) < 2 ^ 32) as (Hu & Hp & Hlt).
  { unfold u32, seg_end, SEGMENT_HEADER_LEN in *. lia. }
  apply StronglySorted_app. split; [|split; [by apply records_at_sorted|apply IH; lia]].
  intros [a b] r Hin Hr. apply elem_of_records_at in Hin as (b1 & b2 & -> & ->).
  pose proof (dir_records_bounds fmt Hfmt (base + 1) all ltac:(lia) ltac:(lia) Hs) as Hbd. rewrite Forall_forall in Hbd.
  specialize (Hbd r Hr). cbn beta in Hbd. unfold record_end. cbn [fst snd].
  change (b :: b2) with ([b] ++ b2) in Hlt. rewrite !frames_app, !zlen_app, frames_one, frame_length in Hlt.
  pose proof (frames_nonneg b1). pose proof (frames_nonneg b2). pose proof (zlen_nonneg b).
  unfold u32, SEGMENT_HEADER_LEN, frame_zlen, FRAME_HEADER_LEN in *. rewrite position_eq by (unfold u32; lia). lia.
Qed.

Lemma read_all_sorted log base segs bodies : log_ok log base segs bodies →
  StronglySorted (λ r r' : Z * region, record_end r ≤ r'.1) (records_of base segs bodies).
Proof using All.
  intros Hl. pose proof (lo_base _ _ _ _ _ Hl). apply dir_records_sorted; [lia| |by eapply log_ends].
  rewrite zlen_app. change (zlen [bodies]) with 1. lia.
Qed.

(** ** Torn files that are detected *)

Lemma frames_inj l1 l2 r1 r2 : Forall body_ok l1 → Forall body_ok l2 → frames l1 ++ r1 = frames l2 ++ r2 →
  zlen (frames l1) = zlen (frames l2) → l1 = l2.
Proof using All.
  intros H1. revert l2. induction H1 as [|b1 l1 Hb1 H1 IH]; intros l2 H2 Heq Hz.
  - symmetry. apply frames_nil_inv. change (zlen (frames [])) with 0 in Hz. lia.
  - destruct H2 as [|b2 l2 Hb2 H2].
    + exfalso. assert (b1 :: l1 = []); [|done]. apply frames_nil_inv. rewrite Hz. done.
    + rewrite !frames_cons, <-!app_assoc in Heq.
      assert (b1 = b2) as <-.
      { pose proof (read_frame_frame b1 (frames l1 ++ r1) Hb1) as E1. rewrite Heq, read_frame_frame in E1 by done. by simplify_eq. }
      apply app_inv_head in Heq. rewrite !frames_cons, !zlen_app in Hz. f_equal. apply IH; [done|done|lia].
Qed.

(** A file whose frames end where nothing reads as one. *)
Lemma torn_detected_cut id bodies file k rest we :
  Forall body_ok bodies → file = header_bytes fmt id ++ frames (take k bodies) ++ rest → stops_with rest we → torn_detected id bodies file.
Proof using All.
  intros Hok -> Hw j rest' Heq Hn. apply app_inv_head in Heq. destruct (decide (take j bodies = take k bodies)) as [He|Hne].
  { rewrite He in Heq. apply app_inv_head in Heq as <-. eauto. }
  assert (∀ a b l1 l2, (a < b)%nat → frames (take a bodies) ++ l1 = frames (take b bodies) ++ l2 → take a bodies ≠ take b bodies →
    ∃ body l', bodies !! a = Some body ∧ body_ok body ∧ l1 = frame body ++ l') as Hnext.
  { intros a b l1 l2 Hab Hl Hd. destruct (bodies !! a) as [body|] eqn:Ha.
    - exists body, (frames (drop (S a) (take b bodies)) ++ l2). split; [done|]. split; [by eapply Forall_lookup_1|].
      rewrite <-(take_drop_middle (take b bodies) a body) in Hl by (rewrite lookup_take_lt by lia; done).
      rewrite take_take, Nat.min_l, frames_app, frames_cons, <-!app_assoc in Hl by lia. by apply app_inv_head in Hl.
    - exfalso. apply Hd. apply lookup_ge_None in Ha. by rewrite !take_ge by lia. }
  destruct (Nat.lt_total j k) as [Hlt|[->|Hgt]]; [|done|].
  - destruct (Hnext j k rest' rest Hlt (eq_sym Heq) Hne) as (body & l' & Hb & _ & ->). by destruct (Hn body l' Hb).
  - destruct (Hnext k j rest rest' Hgt Heq) as (body & l' & Hb & Hbok & ->); [congruence|].
    unfold stops_with in Hw. by rewrite read_frame_frame in Hw.
Qed.

(** ** The contract *)

(** C23: What is appended is read back: in every state a log can reach, whatever failed or was
    lost before, the log reads as a list of records laid out one after the other; an append
    that succeeds adds its record at the end, between the positions it returns, the second
    the new tail; one that fails changes nothing a reader sees; and neither lowers what is
    durable. *)
Theorem append_reads_back log io parts log' r :
  reachable log → io_ok fmt io (active_segment log + 1) → Forall byte (concat parts) → 0 < zlen (concat parts) →
  append io log parts = (log', r) →
  ∃ recs, read_all log = Ok recs ∧ StronglySorted (λ r r' : Z * region, record_end r ≤ r'.1) recs ∧
    log_durable log ≤ log_durable log' ≤ tail log' ∧
    match r with
    | Ok (s, e) => read_all log' = Ok (recs ++ [(s, concat parts)]) ∧ tail log ≤ s < e ∧ e = tail log'
    | Err _ => read_all log' = Ok recs
    end.
Proof using All.
  intros Hr Hio Hb Hpos Ha. destruct (reachable_ok _ Hr) as (base & segs & bodies & Hl). rewrite (active_segment_eq _ _ _ _ Hl) in Hio.
  destruct (append_spec fmt Hfmt _ _ _ _ _ _ _ _ Hl Hb Hpos Hio Ha) as (segs' & bodies' & Hl' & _ & Hdur & Ht & Hres).
  exists (records_of base segs bodies). split; [by apply read_all_spec|]. split; [by eapply read_all_sorted|].
  split; [pose proof (lo_durable _ _ _ _ _ Hl'); lia|].
  rewrite (read_all_spec _ _ _ _ Hl'). destruct r as [[s e]|e]; [|by rewrite Hres]. destruct Hres as (-> & Hs & He & ->). done.
Qed.

(** C5: Acknowledged records are never lost: once a commit covering a record has returned Ok,
    the record reads back, in place, after any appends, commits, failed writes and fsyncs,
    failed rotations, power losses and reopenings, until a deletion of its own segment is
    asked for. *)
Theorem acknowledged_records_survive log recs r end_ fsync log1 led floor log2 :
  reachable log → read_all log = Ok recs → r ∈ recs → record_end r ≤ end_ → end_ ≤ tail log →
  commit log end_ fsync = Some (log1, Ok led) →
  rtc (log_step floor) log1 log2 → floor ≤ segment_of r.1 →
  ∃ recs2, read_all log2 = Ok recs2 ∧ r ∈ recs2.
Proof using All.
  intros Hr Hread Hin He Het Hc Hs Hf. destruct (reachable_ok _ Hr) as (base & segs & bodies & Hl).
  rewrite (read_all_spec _ _ _ _ Hl) in Hread. injection Hread as <-.
  destruct (log_commit_spec fmt Hfmt _ _ _ _ _ fsync Hl Het) as (log' & r' & Hc' & Hl' & _ & _ & Hd & _). rewrite Hc in Hc'. simplify_eq.
  destruct (log_steps_ok _ _ _ _ _ _ Hl' Hs) as (base' & segs' & bodies' & Hl2 & Hkeep).
  exists (records_of base' segs' bodies'). split; [by apply read_all_spec|]. apply Hkeep; [done|lia|done].
Qed.

(** C9: Opening after a power loss succeeds and hands over exactly the records from the cut on,
    in order, of what survived: the records the log held but for some at the end, none of
    them durable.  The log it gives reads as those records, is durable and unpoisoned, and
    appends above every position its saved progress names. *)
Theorem open_recovers {St E} (lift : LogError → E) (visit : St → Z → region → result St E) log dir' size from :
  reachable log → power_loss log dir' → from_fits log dir' from → size < 2 ^ 32 → active_segment log + 3 < 2 ^ 32 →
  ∃ kept lost log' torn,
    read_all log = Ok (kept ++ lost) ∧ Forall (λ r, log_durable log < record_end r) lost ∧
    (∀ st, open lift visit dir' fmt size from st =
      (let? st := visit_all visit st (from_cut_on (default 0 (from_cut from)) kept) in
       Ok (st, log', mk_OpenReport (tail log') torn))) ∧
    read_all log' = Ok kept ∧ from_furthest from ≤ tail log' ∧ log_durable log' = tail log' ∧ log_check_poisoned log' = Ok ().
Proof using All.
  intros Hr Hpl Hff Hsz Hid. destruct (reachable_ok _ Hr) as (base & segs & bodies & Hl).
  destruct (reopen_spec lift visit _ _ _ _ _ size from Hl Hpl Hff Hsz Hid) as
    (segs' & bodies' & lost & log' & torn & Hrec & Hlost & Hopen & Hl' & Hfur & Hdur & Hpo).
  exists (records_of base segs' bodies'), lost, log', torn.
  rewrite (read_all_spec _ _ _ _ Hl), (read_all_spec _ _ _ _ Hl'), Hrec.
  unfold log_check_poisoned, check_poisoned. rewrite Hpo. done.
Qed.

(** An operating system that does all it is asked. *)
Record io_good (io : AppendIo) : Prop := {
  ig_write : io_write io = None;
  ig_marker : io_marker io = None;
  ig_sync : io_sync io = true;
  ig_create : io_create io = Ok ();
}.

Lemma rotate_good io log : io_good io → a_segment_id (active log) + 1 < 2 ^ 32 → is_ok (rotate io log).2 = true.
Proof using.
  intros [Hw Hm Hs Hc] Hid. unfold rotate, try_rotate. rewrite Hm, Hs, Hc. cbn [negb]. unfold check_segment_id.
  rewrite (proj2 (Z.ltb_ge _ _)) by lia. by destruct (prep_install _ _).
Qed.

Lemma append_frame_outcome io log bytes :
  match (append_frame io log bytes).2 with Ok _ => io_write io = None | Err e => e = Io ∧ io_write io ≠ None end.
Proof using. unfold append_frame. by destruct (io_write io). Qed.

Lemma rotate_outcome io log base segs bodies log' e :
  log_ok log base segs bodies → poisoned (rounds log) = None → io_ok fmt io (base + zlen segs + 1) → rotate io log = (log', Err e) →
  ∃ why, e = Poisoned why ∧ poisoned (rounds log') = Some why.
Proof using All.
  intros Hl Hpn Hio Hr. unfold rotate in Hr. destruct (try_rotate io log) as [log1 [u|e1]] eqn:Htry; [done|].
  destruct (try_rotate_spec fmt Hfmt _ _ _ _ _ _ _ Hl Hpn Hio Htry) as (_ & _ & _ & Hne & _).
  unfold log_poison in Hr. destruct (get_or_insert_spec (rounds log1) "rotating") as (first & Hg & _). rewrite Hg in Hr.
  destruct e1 as [| | |why]; try (apply pair_eq in Hr as [<- [= <-]]; by exists first). by destruct (Hne why).
Qed.

(** C25: An append fails only for the reasons the source documents, each told apart: a record
    larger than a segment holds, refused with the log untouched; a poisoned log, by an
    earlier failure or by this append's failed rotation, the error naming the first reason;
    a failed write of the frame.  A record that fits, in a log that is not poisoned and has
    segment ids left, is appended when the operating system does what it is asked. *)
Theorem append_outcome log io parts log' r :
  reachable log → io_ok fmt io (active_segment log + 1) → append io log parts = (log', r) →
  match r with
  | Ok _ => FRAME_HEADER_LEN + zlen (concat parts) ≤ max_frame_len log ∧ poisoned (rounds log) = None
  | Err (RecordTooLarge len max) => len = FRAME_HEADER_LEN + zlen (concat parts) ∧ max = max_frame_len log ∧ max < len ∧ log' = log
  | Err (Poisoned why) => poisoned (rounds log') = Some why
  | Err Io => io_write io ≠ None
  | Err (Corruption _) => False
  end ∧
  (FRAME_HEADER_LEN + zlen (concat parts) ≤ max_frame_len log → poisoned (rounds log) = None → io_good io →
   active_segment log + 1 < 2 ^ 32 → is_ok r = true).
Proof using All.
  intros Hr Hio Ha. destruct (reachable_ok _ Hr) as (base & segs & bodies & Hl). rewrite (active_segment_eq _ _ _ _ Hl) in *.
  unfold append in Ha. destruct (Z.ltb_spec (max_frame_len log) (FRAME_HEADER_LEN + zlen (concat parts))) as [Hbig|Hfits].
  { apply pair_eq in Ha as [<- <-]. split; [done|]. lia. }
  unfold log_check_poisoned, check_poisoned in Ha. destruct (poisoned (rounds log)) as [why|] eqn:Hpn.
  { apply pair_eq in Ha as [<- <-]. done. }
  assert (∀ l, append_frame io l (frame (concat parts)) = (log', r) →
    match r with Ok _ => io_write io = None | Err e => e = Io ∧ io_write io ≠ None end) as Hframe.
  { intros l Hf. pose proof (append_frame_outcome io l (frame (concat parts))) as Ho. by rewrite Hf in Ho. }
  assert (match r with Ok _ => io_write io = None | Err e => e = Io ∧ io_write io ≠ None end →
    match r with
    | Ok _ => FRAME_HEADER_LEN + zlen (concat parts) ≤ max_frame_len log ∧ @None string = None
    | Err (RecordTooLarge len max) => len = FRAME_HEADER_LEN + zlen (concat parts) ∧ max = max_frame_len log ∧ max < len ∧ log' = log
    | Err (Poisoned why) => poisoned (rounds log') = Some why
    | Err Io => io_write io ≠ None
    | Err (Corruption _) => False
    end ∧ (FRAME_HEADER_LEN + zlen (concat parts) ≤ max_frame_len log → @None string = None → io_good io →
      base + zlen segs + 1 < 2 ^ 32 → is_ok r = true)) as Hdone.
  { destruct r as [|e]; [done|]. intros [-> Hw]. split; [done|]. intros _ _ [Hw' _ _ _]. done. }
  destruct (segment_size log <? _); [|by apply Hdone, (Hframe _ Ha)].
  destruct (rotate io log) as [log1 [u|e]] eqn:Hrot; [by apply Hdone, (Hframe _ Ha)|].
  apply pair_eq in Ha as [<- <-]. destruct (rotate_outcome _ _ _ _ _ _ _ Hl Hpn Hio Hrot) as (why & -> & Hp). split; [done|].
  intros _ _ Hg Hid. pose proof (rotate_good io log Hg) as Hgood. rewrite Hrot, (lo_active _ _ _ _ _ Hl) in Hgood. by apply Hgood.
Qed.
End spec.

(** ** An example: a synced record and one a power loss tears *)

#[local] Instance sum_crc : Crc := λ b, foldr Z.add 0 b mod 2 ^ 32.
#[local] Instance sum_crc_laws : CrcLaws.
Proof. intros b. apply Z.mod_pos_bound. lia. Qed.

Definition example_format : LogFormat := mk_LogFormat "log" [77; 76; 79; 71] 1.
Definition example_io : AppendIo := mk_AppendIo None None true (Ok ()) true true.
Definition empty_log : SegmentedLog :=
  mk_SegmentedLog ∅ example_format 64 (mk_Active 0 0) 0 (new 0) prep_new ∅ ∅ ∅ 0.
Definition log_opened : SegmentedLog :=
  match open id collect ∅ example_format 64 (mk_OpenFrom None 0) [] with Ok (_, log, _) => log | Err _ => empty_log end.
Definition log_one : SegmentedLog := (append example_io log_opened [[1]; [2; 3]]).1.
Definition log_synced : SegmentedLog := match sync log_one None with Some (log, _) => log | None => empty_log end.
Definition log_two : SegmentedLog := (append example_io log_synced [[4; 5]]).1.
Definition lost_dir : segment_dir := lose_unsynced log_two.
Definition log_reopened : SegmentedLog :=
  match open id collect lost_dir example_format 64 (mk_OpenFrom None 0) [] with Ok (_, log, _) => log | Err _ => empty_log end.

Example log_two_reads : read_all log_two = Ok [(16, [1; 2; 3]); (27, [4; 5])].
Proof. by vm_compute. Qed.
Example log_reopened_reads : read_all log_reopened = Ok [(16, [1; 2; 3])].
Proof. by vm_compute. Qed.

Lemma example_format_ok : format_ok example_format.
Proof. split; [done| |done|]; [repeat constructor; by vm_compute|by vm_compute]. Qed.

Lemma example_opened : open id collect ∅ example_format 64 (mk_OpenFrom None 0) [] = Ok ([], log_opened, mk_OpenReport (tail log_opened) 0).
Proof. by vm_compute. Qed.

Lemma example_steps : log_step example_format 0 log_opened log_one ∧ log_step example_format 0 log_one log_synced ∧
  log_step example_format 0 log_synced log_two.
Proof.
  split; [|split].
  - eapply (step_append _ _ _ example_io [[1]; [2; 3]]); [done| |by vm_compute|by vm_compute]. repeat constructor; by vm_compute.
  - eapply (step_commit _ _ _ (tail log_one) None); [lia|by vm_compute].
  - eapply (step_append _ _ _ example_io [[4; 5]]); [done| |by vm_compute|by vm_compute]. repeat constructor; by vm_compute.
Qed.

Lemma log_one_reachable : reachable example_format log_one.
Proof. exists 0, 64, log_opened, (mk_OpenReport (tail log_opened) 0). split; [lia|]. split; [exact example_opened|]. apply rtc_once, example_steps. Qed.

Lemma log_two_reachable : reachable example_format log_two.
Proof.
  exists 0, 64, log_opened, (mk_OpenReport (tail log_opened) 0). split; [lia|]. split; [exact example_opened|]. destruct example_steps as (? & ? & ?).
  by eapply rtc_l, rtc_l, rtc_once.
Qed.

(** The power loss takes the record that was not synced. *)
Lemma example_power_loss : power_loss example_format log_two lost_dir.
Proof.
  assert (dir log_two = {[0 := default [] (dir log_two !! 0)]}) as Hd by by vm_compute.
  assert (lost_dir = {[0 := default [] (lost_dir !! 0)]}) as Hd' by by vm_compute.
  assert (active_segment log_two = 0) as Ha by by vm_compute.
  split; rewrite ?Ha.
  - intros j file Hf Hj. rewrite Hd in Hf. apply lookup_singleton_Some in Hf as [<- <-]. exists (default [] (lost_dir !! 0)).
    split; [by vm_compute|]. assert (power_loss_extent log_two 0 = Some 27) as -> by by vm_compute.
    split; [by vm_compute|]. split; [by vm_compute|]. vm_compute. repeat (constructor; [split; [by intros ?|reflexivity]|]). constructor.
  - intros j [f Hf]. rewrite Hd' in Hf. apply lookup_singleton_Some in Hf as [<- _]. by vm_compute; eexists.
  - intros l Hf. by vm_compute in Hf.
  - intros file' bodies rest file Hf Hsf Hf' Hend.
    assert (bodies = [[1; 2; 3]; [4; 5]]) as ->.
    { rewrite Hd in Hf. apply lookup_singleton_Some in Hf as [_ <-]. pose proof (sf_eq _ _ _ _ _ Hsf) as Heq.
      assert (default [] (dir log_two !! 0) = header_bytes example_format 0 ++ frames [[1; 2; 3]; [4; 5]] ++ bzero 27) as Hfile by by vm_compute.
      rewrite Hfile in Heq. apply app_inv_head in Heq. symmetry. eapply (frames_inj example_format example_format_ok); [| |exact Heq|].
      - repeat constructor; by vm_compute.
      - apply (sf_bodies _ _ _ _ _ Hsf).
      - assert (a_pos (active log_two) = 37) as Hp by by vm_compute. rewrite Hp in Hend.
        assert (zlen (frames [[1; 2; 3]; [4; 5]]) = 21) as -> by by vm_compute. unfold seg_end, SEGMENT_HEADER_LEN in Hend. lia. }
    rewrite Hd' in Hf'. apply lookup_singleton_Some in Hf' as [_ <-].
    apply (torn_detected_cut example_format example_format_ok 0 _ _ 1 (bzero 37) Unwritten); [|by vm_compute|by vm_compute].
    repeat constructor; by vm_compute.
Qed.

Lemma example_from_fits : from_fits log_two lost_dir (mk_OpenFrom None 0).
Proof.
  split; [by vm_compute|by vm_compute|by vm_compute; eexists|]. left. by vm_compute.
Qed.

Lemma append_reads_back_witness :
  append example_io log_one [[4; 5]] = ((append example_io log_one [[4; 5]]).1, Ok (27, 37)) ∧
  read_all (append example_io log_one [[4; 5]]).1 = Ok [(16, [1; 2; 3]); (27, [4; 5])].
Proof.
  assert (append example_io log_one [[4; 5]] = ((append example_io log_one [[4; 5]]).1, Ok (27, 37))) as Ha by by vm_compute.
  split; [exact Ha|].
  destruct (append_reads_back example_format example_format_ok log_one example_io [[4; 5]] (append example_io log_one [[4; 5]]).1 (Ok (27, 37))
    log_one_reachable) as (recs & Hr & _ & _ & Hr' & _);
    [done|repeat constructor; by vm_compute|by vm_compute|exact Ha|].
  rewrite Hr'. assert (read_all log_one = Ok [(16, [1; 2; 3])]) as Hone by by vm_compute. rewrite Hone in Hr. injection Hr as <-. reflexivity.
Defined.

Lemma acknowledged_records_survive_witness :
  commit log_one 27 None = Some (log_synced, Ok true) ∧ rtc (log_step example_format 0) log_synced log_reopened ∧
  ∃ recs, read_all log_reopened = Ok recs ∧ (16, [1; 2; 3]) ∈ recs.
Proof.
  assert (commit log_one 27 None = Some (log_synced, Ok true)) as Hc by by vm_compute.
  assert (rtc (log_step example_format 0) log_synced log_reopened) as Hs.
  { eapply rtc_l; [apply example_steps|]. apply rtc_once.
    eapply (step_reopen _ _ _ lost_dir 64 (mk_OpenFrom None 0)); [apply example_power_loss|apply example_from_fits|lia|by vm_compute|by vm_compute]. }
  split; [exact Hc|]. split; [exact Hs|].
  apply (acknowledged_records_survive example_format example_format_ok log_one [(16, [1; 2; 3])] (16, [1; 2; 3]) 27 None log_synced true 0 log_reopened);
    [apply log_one_reachable|by vm_compute|left|by vm_compute|by vm_compute|exact Hc|exact Hs|by vm_compute].
Defined.

Lemma open_recovers_witness : ∃ kept lost, read_all log_two = Ok (kept ++ lost) ∧ read_all log_reopened = Ok kept ∧
  Forall (λ r, log_durable log_two < record_end r) lost.
Proof.
  destruct (open_recovers example_format example_format_ok id collect log_two lost_dir 64 (mk_OpenFrom None 0) log_two_reachable
    example_power_loss example_from_fits ltac:(lia) ltac:(by vm_compute)) as (kept & lost & log' & torn & Hr & Hl & Ho & Hr' & _).
  exists kept, lost. split; [exact Hr|]. split; [|exact Hl]. specialize (Ho []). rewrite visit_all_collect in Ho. cbn [result_bind] in Ho.
  unfold log_reopened. rewrite Ho. exact Hr'.
Defined.

Lemma append_outcome_witness :
  append example_io log_one [bzero 60] = (log_one, Err (RecordTooLarge 68 44)) ∧
  (∃ s e, (append example_io log_one [[4; 5]]).2 = Ok (s, e)).
Proof.
  split.
  - destruct (append_outcome example_format example_format_ok log_one example_io [bzero 60] log_one (Err (RecordTooLarge 68 44)) log_one_reachable)
      as [_ _]; [done|by vm_compute|]. by vm_compute.
  - destruct (append_outcome example_format example_format_ok log_one example_io [[4; 5]] (append example_io log_one [[4; 5]]).1
      (append example_io log_one [[4; 5]]).2 log_one_reachable)
      as [_ Hok]; [done|apply surjective_pairing|]. specialize (Hok ltac:(by vm_compute) ltac:(by vm_compute) ltac:(by split) ltac:(by vm_compute)).
    destruct (append example_io log_one [[4; 5]]).2 as [[s e]|e]; [by exists s, e|done].
Defined.
