(* ===== verification/Wal.v ===== *)
(** * Wal: the main write-ahead log

    db/wal.rs: the entries of the log, its metadata file and its scans, on the segmented log
    of [SegmentedLog].  The encoding of an entry is rkyv's: the class [RkyvEntry]. *)
From S2P Require Import Prelude Slices Bytes LogProgress CommitRounds SegmentedLog LogFrames LogOpen LogWrites LogReads LogSpec.
#[local] Open Scope minnal_scope.

Inductive WalError :=
| Log (e : LogError)
| Serialization
| InvalidSegmentSize (size : Z).

Definition FORMAT : LogFormat := mk_LogFormat "main WAL" [77; 87; 65; 76] 1.
Definition MIN_CONFIGURED_SEGMENT_SIZE : Z := 64 * 1024.

(** ** Entries *)

Inductive WalOperationType := Upsert | Delete.

Record WalEntry := mk_WalEntry {
  operation : WalOperationType; namespace_id : Z; sequence : Z; op_name : string; key : region; value : option region
}.

Definition new_upsert_ns (namespace_id : Z) (key value : region) : WalEntry :=
  mk_WalEntry Upsert namespace_id 0 "" key (Some value).
Definition new_delete_ns (namespace_id : Z) (key : region) : WalEntry := mk_WalEntry Delete namespace_id 0 "" key None.
Definition new_upsert (key value : region) : WalEntry := new_upsert_ns 0 key value.
Definition new_delete (key : region) : WalEntry := new_delete_ns 0 key.

Definition with_sequence (sequence : Z) (e : WalEntry) : WalEntry :=
  mk_WalEntry (operation e) (namespace_id e) sequence (op_name e) (key e) (value e).
Definition with_op_name (name : string) (e : WalEntry) : WalEntry :=
  mk_WalEntry (operation e) (namespace_id e) (sequence e) name (key e) (value e).

(** [rkyv::to_bytes] and [rkyv::access] of an entry, which may fail. *)
Class RkyvEntry := {
  archive : WalEntry → option region;
  access : region → option WalEntry;
}.
Class RkyvEntryLaws `{RkyvEntry} := {
  access_archive e b : archive e = Some b → access b = Some e ∧ Forall byte b ∧ 0 < zlen b;
}.

Record WalPointer := mk_WalPointer { offset : Z; size : Z }.

#[export] Instance WalOperationType_eq_dec : EqDecision WalOperationType.
Proof. solve_decision. Defined.
#[export] Instance WalEntry_eq_dec : EqDecision WalEntry.
Proof. solve_decision. Defined.
#[export] Instance WalPointer_eq_dec : EqDecision WalPointer.
Proof. solve_decision. Defined.

(** The bytes of an entry's frame. *)
Definition frame_size (p : WalPointer) : Z := FRAME_HEADER_LEN + size p.

(** ** Metadata *)

Record WalMetadata := mk_WalMetadata {
  head : Z; m_tail : Z; m_cut : Z; m_safe : list (Z * Z);
  total_gc_runs : Z; total_bytes_reclaimed : Z; last_sequence : Z
}.

Definition METADATA_MAGIC : region := [87; 65; 76; 77].
Definition METADATA_EXTRA_LEN : Z := 24.

Definition metadata_new : WalMetadata := mk_WalMetadata (segment_start 0) (segment_start 0) (segment_start 0) [] 0 0 0.

Definition progress (m : WalMetadata) : Progress := mk_Progress (m_cut m) (m_safe m).

(** [WalMetadata::replay_from]. *)
Definition metadata_replay_from (m : WalMetadata) (ns : Z) : Z := replay_from (progress m) ns.

Section codec.
Context `{Crc}.

Definition to_file_bytes (m : WalMetadata) : region :=
  encode_progress METADATA_MAGIC (progress m)
    (le_bytes 8 (total_gc_runs m) ++ le_bytes 8 (total_bytes_reclaimed m) ++ le_bytes 8 (last_sequence m)).

Definition from_file_bytes (bytes : region) : result WalMetadata WalError :=
  match decode_progress METADATA_MAGIC bytes with
  | Err e => Err (Log e)
  | Ok (p, extra) =>
    if negb (zlen extra =? METADATA_EXTRA_LEN) then Err (Log (Corruption "the WAL metadata holds another number of extra bytes"))
    else
      let word i := get_le extra (i * 8) 8 in
      Ok (mk_WalMetadata (head metadata_new) (m_tail metadata_new) (cut p) (safe p) (word 0) (word 1) (word 2))
  end.
End codec.

(** ** The log *)

Definition validate_segment_size (size : Z) : result Z WalError :=
  if (size <? 2 ^ 32) && (MIN_CONFIGURED_SEGMENT_SIZE <=? size) then Ok size else Err (InvalidSegmentSize size).

Record WalOpenReport := mk_WalOpenReport { w_tail : Z; max_sequence : Z; w_torn_bytes_dropped : Z }.

(** A body that passed its checksum but does not decode. *)
Definition undecodable : WalError := Log (Corruption "the entry passes its CRC but does not decode").

Section wal.
Context `{Crc} `{RkyvEntry}.

Definition from_bytes (bytes : region) : result WalEntry WalError :=
  match access bytes with Some e => Ok e | None => Err Serialization end.
Definition peek_sequence (bytes : region) : result Z WalError := let? e := from_bytes bytes in Ok (sequence e).
Definition peek_namespace_and_key (bytes : region) : result (Z * region) WalError :=
  let? e := from_bytes bytes in Ok (namespace_id e, key e).
(** [map_err(|e| undecodable(at, e))]. *)
Definition or_undecodable {A} (r : result A WalError) : result A WalError :=
  match r with Ok a => Ok a | Err _ => Err undecodable end.

Definition visit_sequence (max_sequence at_ : Z) (body : region) : result Z WalError :=
  let? s := or_undecodable (peek_sequence body) in Ok (Z.max max_sequence s).

(** [Wal::open]. *)
Definition wal_open (dir : segment_dir) (segment_size : Z) (from : OpenFrom) : result (SegmentedLog * WalOpenReport) WalError :=
  let? r := open Log visit_sequence dir FORMAT segment_size from 0 in
  let '(max_sequence, log, report) := r in
  Ok (log, mk_WalOpenReport (report_tail report) max_sequence (torn_bytes_dropped report)).

Definition wal_head (log : SegmentedLog) : Z := segment_start (default 0 (oldest_segment log)).

(** [append_entry] moves the caller's [tail] past the entry. *)
Definition append_entry (io : AppendIo) (log : SegmentedLog) (entry : WalEntry) (tail : Z) :
    SegmentedLog * Z * result WalPointer WalError :=
  match archive entry with
  | None => (log, tail, Err Serialization)
  | Some body =>
    match append io log [body] with
    | (log, Ok (start, end_)) => (log, end_, Ok (mk_WalPointer start (zlen body)))
    | (log, Err e) => (log, tail, Err (Log e))
    end
  end.

(** [Wal::walk]. *)
Definition wal_walk {T} (extract : Z → region → result T WalError) (log : SegmentedLog) (start end_ : Z) : result (list T) WalError :=
  for_each_with Log (λ out at_ body, let? t := extract at_ body in Ok (out ++ [t])) log start end_ [].

Definition extract_entry (at_ : Z) (body : region) : result (WalPointer * WalEntry) WalError :=
  let? e := or_undecodable (from_bytes body) in Ok (mk_WalPointer at_ (zlen body), e).
Definition scan_entries (log : SegmentedLog) (start end_ : Z) : result (list (WalPointer * WalEntry)) WalError :=
  wal_walk extract_entry log start end_.

Definition extract_key (_ : Z) (body : region) : result (Z * region) WalError := or_undecodable (peek_namespace_and_key body).
Definition scan_keys_in_entries (log : SegmentedLog) (start end_ : Z) : result (list (Z * region)) WalError :=
  wal_walk extract_key log start end_.

(** The pairs not yet seen, in order. *)
Definition push_unseen (acc : gset (Z * region) * list (Z * region)) (pair : Z * region) : gset (Z * region) * list (Z * region) :=
  let '(seen, keys) := acc in
  if decide (pair ∈ seen) then acc else ({[pair]} ∪ seen, keys ++ [pair]).

Definition scan_segment_keys (log : SegmentedLog) (segment_id : Z) : result (list (Z * region)) WalError :=
  match missing_segments log (segment_start segment_id) (segment_start segment_id + 1) with
  | _ :: _ => Ok []
  | [] =>
    let end_ := default (segment_start (segment_id + 1)) (segment_end log segment_id) in
    let? pairs := scan_keys_in_entries log (segment_start segment_id) end_ in
    Ok (foldl push_unseen (∅, []) pairs).2
  end.
End wal.

(** ** What a WAL holds *)

Lemma push_unseen_spec pairs seen keys :
  NoDup keys → (∀ k, k ∈ seen ↔ k ∈ keys) →
  let r := foldl push_unseen (seen, keys) pairs in NoDup r.2 ∧ ∀ k, k ∈ r.2 ↔ k ∈ keys ∨ k ∈ pairs.
Proof.
  revert seen keys. induction pairs as [|p pairs IH]; intros seen keys Hn Hs; [set_solver|]. cbn [foldl].
  unfold push_unseen at 2 4. destruct (decide (p ∈ seen)) as [Hp|Hp].
  - destruct (IH seen keys Hn Hs) as [Hn' Hk]. split; [done|]. intros k. rewrite Hk. set_solver.
  - destruct (IH ({[p]} ∪ seen) (keys ++ [p])) as [Hn' Hk].
    + apply NoDup_app. split; [done|]. split; [|apply NoDup_singleton]. set_solver.
    + set_solver.
    + split; [done|]. intros k. rewrite Hk. set_solver.
Qed.

Section wal_spec.
Context `{CrcLaws} `{RkyvEntryLaws}.

Lemma FORMAT_ok : format_ok FORMAT.
Proof using. split; [done| |done|]; [repeat constructor; by vm_compute|by vm_compute]. Qed.

(** The log is sound and its records decode to [es]. *)
Definition holds_at (log : SegmentedLog) (base : Z) (segs : list (list region)) (bodies : list region)
    (es : list (WalPointer * WalEntry)) : Prop :=
  log_ok FORMAT log base segs bodies ∧ Forall2 (λ r pe, extract_entry r.1 r.2 = Ok pe) (records_of base segs bodies) es.
Definition holds_from (log : SegmentedLog) (base : Z) (es : list (WalPointer * WalEntry)) : Prop :=
  ∃ segs bodies, holds_at log base segs bodies es.
Definition holds (log : SegmentedLog) (es : list (WalPointer * WalEntry)) : Prop := ∃ base, holds_from log base es.

Lemma extract_entry_Ok at_ body p e : extract_entry at_ body = Ok (p, e) ↔ access body = Some e ∧ p = mk_WalPointer at_ (zlen body).
Proof using.
  unfold extract_entry, from_bytes. destruct (access body) as [e'|]; simpl; split; [intros [= <- <-]|intros [[= ->] ->]|..]; naive_solver.
Qed.

Lemma visit_all_walk {T} (extract : Z → region → result T WalError) recs ts acc :
  Forall2 (λ r t, extract r.1 r.2 = Ok t) recs ts →
  visit_all (λ out at_ body, let? t := extract at_ body in Ok (out ++ [t])) acc recs = Ok (acc ++ ts).
Proof using.
  intros Hf. revert acc. induction Hf as [|[a b] t recs ts Ht Hf IH]; intros acc; cbn [visit_all]; [by rewrite app_nil_r|].
  cbn [fst snd] in Ht. rewrite Ht. cbn [result_bind]. by rewrite IH, <-app_assoc.
Qed.

Lemma visit_all_sequence recs es m :
  Forall2 (λ r pe, extract_entry r.1 r.2 = Ok pe) recs es →
  visit_all visit_sequence m recs = Ok (foldl (λ m pe, Z.max m (sequence pe.2)) m es).
Proof using.
  intros Hf. revert m. induction Hf as [|[a b] [p e] recs es He Hf IH]; intros m; [done|]. cbn [visit_all fst snd foldl] in *.
  apply extract_entry_Ok in He as [Ha _]. unfold visit_sequence at 1, peek_sequence, from_bytes. rewrite Ha. cbn [result_bind or_undecodable]. apply IH.
Qed.

(** The keys of entries, and what is pushed once. *)
Definition entry_key (pe : WalPointer * WalEntry) : Z * region := (namespace_id pe.2, key pe.2).

Lemma extract_keys recs es :
  Forall2 (λ r pe, extract_entry r.1 r.2 = Ok pe) recs es → Forall2 (λ r k, extract_key r.1 r.2 = Ok k) recs (entry_key <$> es).
Proof using.
  induction 1 as [|[a b] [p e] recs es He Hf IH]; [constructor|]. constructor; [|done]. apply extract_entry_Ok in He as [Ha _].
  unfold extract_key, peek_namespace_and_key, from_bytes. cbn [snd] in *. by rewrite Ha.
Qed.


(** The records of one segment of a log. *)
Lemma elem_of_segment log base segs bodies i bs a b :
  log_ok FORMAT log base segs bodies → (segs ++ [bodies]) !! i = Some bs →
  (a, b) ∈ records_at (base + Z.of_nat i) SEGMENT_HEADER_LEN bs ↔
  (a, b) ∈ records_of base segs bodies ∧ segment_of a = base + Z.of_nat i.
Proof using H0.
  intros Hl Hi. pose proof (lo_base _ _ _ _ _ Hl) as Hb. pose proof (log_ends FORMAT FORMAT_ok _ _ _ _ Hl) as Hends.
  assert (∀ (k : nat) b1 b2, (segs ++ [bodies]) !! k = Some (b1 ++ b2) → segment_of (position (base + Z.of_nat k) (seg_end b1)) = base + Z.of_nat k) as Hseg.
  { intros k b1 b2 Hk. pose proof (proj1 (Forall_lookup _ _) Hends k _ Hk) as Hsi. cbn beta in Hsi. rewrite seg_end_app in Hsi.
    pose proof (lookup_lt_Some _ _ _ Hk) as Hlt. rewrite length_app in Hlt. cbn [length] in Hlt. pose proof (frames_nonneg b1). pose proof (frames_nonneg b2).
    apply segment_of_position; [unfold u32, zlen in *; lia|unfold u32, seg_end, SEGMENT_HEADER_LEN in *; lia]. }
  rewrite elem_of_records_at. unfold records_of. rewrite elem_of_dir_records. split.
  - intros (b1 & b2 & -> & ->). split; [by exists i, b1, b2|]. by apply (Hseg _ _ (b :: b2)).
  - intros [(k & b1 & b2 & Hk & ->) Hs]. rewrite (Hseg _ _ _ Hk) in Hs. assert (k = i) as -> by lia. rewrite Hi in Hk. injection Hk as ->.
    by exists b1, b2.
Qed.

(** Records that decode have keys. *)
Lemma keys_exist recs :
  (∀ a b, (a, b) ∈ recs → is_Some (access b)) →
  ∃ ks, Forall2 (λ r k, extract_key r.1 r.2 = Ok k) recs ks ∧
    ∀ k, k ∈ ks ↔ ∃ a b e, (a, b) ∈ recs ∧ access b = Some e ∧ k = (namespace_id e, key e).
Proof using.
  induction recs as [|[a b] recs IH]; intros Hd.
  - exists []. split; [constructor|]. intros k. split; [by intros ?%elem_of_nil|]. by intros (? & ? & ? & ?%elem_of_nil & _).
  - destruct (Hd a b) as [e He]; [left|]. destruct IH as (ks & Hf & Hk); [intros; eapply Hd; by right|].
    exists ((namespace_id e, key e) :: ks). split.
    + constructor; [|done]. unfold extract_key, peek_namespace_and_key, from_bytes. cbn [snd]. by rewrite He.
    + intros k. rewrite elem_of_cons, Hk. split.
      * intros [->|(a' & b' & e' & Hin & ?)]; [exists a, b, e|exists a', b', e']; (split; [by constructor|done]).
      * intros (a' & b' & e' & [Heq|Hin]%elem_of_cons & He' & ->); [left; by simplify_eq|right; by exists a', b', e'].
Qed.

Lemma holds_access log base segs bodies es : holds_at log base segs bodies es →
  ∀ a b, (a, b) ∈ records_of base segs bodies → is_Some (access b).
Proof using.
  intros [_ Hf] a b Hin. apply list_elem_of_lookup in Hin as [j Hj]. destruct (Forall2_lookup_l _ _ _ _ _ Hf Hj) as ([p e] & _ & He).
  apply extract_entry_Ok in He as [He _]. by exists e.
Qed.

Lemma missing_segments_one log id : u32 id →
  missing_segments log (segment_start id) (segment_start id + 1) = filter (λ id, dir log !! id = None) [id].
Proof using.
  intros Hid. unfold missing_segments. rewrite (proj2 (Z.leb_gt _ _)) by lia.
  assert (segment_of (segment_start id) = id ∧ segment_of (segment_start id + 1) = id) as [-> ->].
  { unfold segment_start, SEGMENT_HEADER_LEN. split; [by apply segment_of_position|].
    rewrite position_eq by done. replace (id * 2 ^ 32 + 16 + 1) with (position id 17); [by apply segment_of_position|].
    rewrite position_eq by done. lia. }
  replace (id - id + 1) with 1 by lia. rewrite seqZ_cons by lia. by rewrite seqZ_nil by lia.
Qed.

(** An append adds its entry at the end, or leaves the entries and the caller's tail alone. *)
Lemma append_entry_spec log base es io entry t log' t' r :
  holds_from log base es → io_ok FORMAT io (active_segment log + 1) → append_entry io log entry t = (log', t', r) →
  log_durable log ≤ log_durable log' ∧ tail log ≤ tail log' ∧
  match r with
  | Ok ptr => holds_from log' base (es ++ [(ptr, entry)]) ∧ tail log ≤ offset ptr < t' ∧ t' = tail log'
  | Err _ => holds_from log' base es ∧ t' = t
  end.
Proof using All.
  intros (segs & bodies & Hl & Hf) Hio Ha. unfold append_entry in Ha. destruct (archive entry) as [body|] eqn:Hb.
  2:{ simplify_eq. split; [lia|]. split; [lia|]. split; [by exists segs, bodies|done]. }
  destruct (access_archive _ _ Hb) as (Hacc & Hbytes & Hpos). rewrite (active_segment_eq FORMAT FORMAT_ok _ _ _ _ Hl) in Hio.
  destruct (append io log [body]) as [log1 r1] eqn:Hap.
  destruct (append_spec FORMAT FORMAT_ok io log base segs bodies [body] log1 r1 Hl) as (segs' & bodies' & Hl' & _ & Hd & Ht & Hr);
    [by simpl; rewrite app_nil_r|by simpl; rewrite app_nil_r|done|done|].
  assert (log1 = log') as -> by (by destruct r1 as [[? ?]|?]; simplify_eq). split; [done|]. split; [done|]. destruct r1 as [[st en]|e]; simplify_eq.
  + destruct Hr as (Hrec & Hle & Hlt & ->). cbn [offset concat] in *. rewrite app_nil_r in Hrec. split; [|done]. exists segs', bodies'.
    split; [done|]. rewrite Hrec. apply Forall2_app; [done|]. constructor; [|constructor]. by apply extract_entry_Ok.
  + split; [|done]. exists segs', bodies'. split; [done|]. by rewrite Hr.
Qed.

(** The positions progress can name: where records start or end. *)
Record place (log : SegmentedLog) (base : Z) (es : list (WalPointer * WalEntry)) (X : Z) : Prop := {
  pl_below : X ≤ tail log;
  pl_base : base ≤ segment_of X;
  pl_byte : SEGMENT_HEADER_LEN ≤ (split X).2;
  pl_at : (split X).2 = SEGMENT_HEADER_LEN ∨ ∃ pe, pe ∈ es ∧ X = offset pe.1 + frame_size pe.1;
}.

Lemma place_mono log log' base base' es es' X :
  place log base es X → tail log ≤ tail log' → base' ≤ segment_of X →
  (∀ pe, pe ∈ es → X = offset pe.1 + frame_size pe.1 → pe ∈ es') → place log' base' es' X.
Proof using.
  intros [P1 P2 P3 P4] Ht Hb He. split; [lia|lia|done|]. destruct P4 as [?|(pe & Hp & Hx)]; [by left|right; exists pe; auto].
Qed.

Lemma seg_end_header bs : SEGMENT_HEADER_LEN ≤ seg_end bs.
Proof using. unfold seg_end. pose proof (frames_nonneg bs). lia. Qed.

Lemma place_position log base segs bodies es k b1 b2 :
  holds_at log base segs bodies es → (segs ++ [bodies]) !! k = Some (b1 ++ b2) → u32 (base + Z.of_nat k) → u32 (seg_end b1) →
  position (base + Z.of_nat k) (seg_end b1) ≤ tail log →
  place log base es (position (base + Z.of_nat k) (seg_end b1)).
Proof using All.
  intros [Hl Hf] Hk Hu1 Hu2 Ht. pose proof (seg_end_header b1). split; rewrite ?segment_of_position, ?split_position by done; cbn [snd]; [done|lia|done|].
  destruct b1 as [|b b1 _] using rev_ind; [by left|right].
  assert ((position (base + Z.of_nat k) (seg_end b1), b) ∈ records_of base segs bodies) as Hin.
  { apply elem_of_dir_records. exists k, b1, b2. by rewrite <-app_assoc in Hk. }
  apply list_elem_of_lookup in Hin as [j Hj]. destruct (Forall2_lookup_l _ _ _ _ _ Hf Hj) as ([p e] & Hj' & He). apply extract_entry_Ok in He as [_ ->].
  exists (mk_WalPointer (position (base + Z.of_nat k) (seg_end b1)) (zlen b), e). split; [by eapply list_elem_of_lookup_2|]. cbn [fst snd offset].
  assert (u32 (seg_end b1)) as Hu3.
  { pose proof (seg_end_header b1). rewrite seg_end_snoc in Hu2. unfold u32, frame_zlen, FRAME_HEADER_LEN, SEGMENT_HEADER_LEN in *. pose proof (zlen_nonneg b). lia. }
  rewrite !position_eq, seg_end_snoc by done. unfold frame_size, frame_zlen. simpl. lia.
Qed.

Lemma holds_place log base es pe : holds_from log base es → pe ∈ es →
  place log base es (offset pe.1) ∧ place log base es (offset pe.1 + frame_size pe.1) ∧
  segment_of (offset pe.1 + frame_size pe.1) = segment_of (offset pe.1).
Proof using All.
  intros (segs & bodies & Hh) Hin. pose proof Hh as [Hl Hf]. destruct pe as [p e]. apply list_elem_of_lookup in Hin as [j Hj].
  destruct (Forall2_lookup_r _ _ _ _ _ Hf Hj) as ([a b] & Hj' & He). apply extract_entry_Ok in He as [_ ->]. apply list_elem_of_lookup_2 in Hj'.
  destruct (record_place FORMAT FORMAT_ok _ _ _ _ _ _ Hl Hj') as (k & b1 & b2 & Hk & Hu1 & Hu2 & Hu3 & Ha & He & Ht).
  assert (a + frame_size (mk_WalPointer a (zlen b)) = record_end (a, b)) as Hr by (unfold record_end, frame_zlen, frame_size; simpl; lia).
  cbn [fst snd offset] in *. rewrite Hr, He, Ha. split; [|split].
  - eapply place_position; [done|done|done|done|]. rewrite <-Ha. unfold frame_size, FRAME_HEADER_LEN in Hr. simpl in Hr. pose proof (zlen_nonneg b). lia.
  - eapply (place_position _ _ _ _ _ k (b1 ++ [b]) b2); [done|by rewrite <-app_assoc|done|done|lia].
  - by rewrite !segment_of_position.
Qed.

Lemma place_tail log base es : holds_from log base es → place log base es (tail log).
Proof using All.
  intros (segs & bodies & Hh). pose proof Hh as [Hl _]. destruct (tail_u32 FORMAT FORMAT_ok _ _ _ _ Hl) as [Hu1 Hu2].
  pose proof (lo_tail _ _ _ _ _ Hl) as Ht. rewrite Ht. unfold zlen in *.
  eapply (place_position _ _ _ _ _ (length segs) bodies []); [done|by rewrite app_nil_r, list_lookup_middle|done|done|lia].
Qed.

Lemma scan_all log es : holds log es → scan_entries log 0 (tail log) = Ok es.
Proof using All.
  intros (base & segs & bodies & Hl & Hf). unfold scan_entries, wal_walk. pose proof (lo_base _ _ _ _ _ Hl). pose proof (zlen_nonneg segs).
  rewrite (for_each_all FORMAT FORMAT_ok _ _ _ _ _ _ _ _ Hl); [by rewrite (visit_all_walk _ _ es)|unfold u64; lia|].
  unfold SEGMENT_HEADER_LEN. rewrite position_eq by (unfold u32; lia). lia.
Qed.

(** C20: The scans of the main WAL are exact.  For a sound log whose records decode to [es]:
    scanning it all gives [es]; appending an entry that encodes adds exactly that entry at the
    end, at the position returned, with the caller's tail moved to the log's, or fails and
    leaves both as they were; and the keys harvested from a segment before it is deleted are,
    each once, those of the entries that lie in it, none from a segment already gone. *)
Theorem wal_scans_exact log es :
  holds log es →
  scan_entries log 0 (tail log) = Ok es ∧
  (∀ io entry t log' t' r, io_ok FORMAT io (active_segment log + 1) → append_entry io log entry t = (log', t', r) →
    match r with
    | Ok ptr => holds log' (es ++ [(ptr, entry)]) ∧ tail log ≤ offset ptr < t' ∧ t' = tail log'
    | Err _ => holds log' es ∧ t' = t
    end) ∧
  (∀ id, u32 id → id ≤ active_segment log →
    ∃ keys, scan_segment_keys log id = Ok keys ∧ NoDup keys ∧
      ∀ k, k ∈ keys ↔ is_Some (dir log !! id) ∧ ∃ pe, pe ∈ es ∧ segment_of (offset pe.1) = id ∧ k = entry_key pe).
Proof using All.
  intros Hhl. pose proof Hhl as (base & segs & bodies & Hh). pose proof Hh as [Hl Hf]. split; [by apply scan_all|split].
  - intros io entry t log' t' r Hio Ha. destruct (append_entry_spec log base es io entry t log' t' r) as (_ & _ & Hr); [by exists segs, bodies|done|done|].
    destruct r as [ptr|e]; destruct Hr as [Hh' Hr]; (split; [by exists base|done]).
  - intros id Hid Hact. rewrite (active_segment_eq FORMAT FORMAT_ok _ _ _ _ Hl) in Hact. unfold scan_segment_keys. rewrite missing_segments_one by done.
    pose proof (lo_ids _ _ _ _ _ Hl id ltac:(lia)) as Hids. destruct (dir log !! id) as [file|] eqn:Hd.
    2:{ rewrite filter_cons_True by done. exists []. split; [done|]. split; [constructor|]. intros k. split; [by intros ?%elem_of_nil|].
        intros [[? ?] _]. done. }
    rewrite filter_cons_False by (by rewrite Hd). cbn [filter list_filter]. destruct Hids as [Hids _]. destruct Hids as [Hb1 Hb2]; [done|].
    destruct (lookup_lt_is_Some_2 (segs ++ [bodies]) (Z.to_nat (id - base))) as [bs Hi]; [rewrite length_app; simpl; unfold zlen in *; lia|].
    assert (base + Z.of_nat (Z.to_nat (id - base)) = id) as Hidb by lia.
    destruct (keys_exist (records_at id SEGMENT_HEADER_LEN bs)) as (ks & Hks & Hin).
    { intros a b Hab. rewrite <-Hidb in Hab. apply (elem_of_segment _ _ _ _ _ _ a b Hl Hi) in Hab as [Hab _]. by eapply holds_access. }
    unfold scan_keys_in_entries, wal_walk.
    pose proof (for_each_segment FORMAT FORMAT_ok Log (λ out at_ body, let? t := extract_key at_ body in Ok (out ++ [t])) log base segs bodies _ bs [] Hl Hi) as Hseg.
    cbv zeta in Hseg. rewrite Hidb in Hseg. rewrite Hseg, (visit_all_walk _ _ ks) by done. cbn [result_bind app].
    destruct (push_unseen_spec ks ∅ [] (NoDup_nil_2) ltac:(set_solver)) as [Hnd Hmem].
    eexists. split; [reflexivity|]. split; [exact Hnd|]. intros k. rewrite Hmem, Hin. split.
    + intros [?%elem_of_nil|(a & b & e & Hab & He & ->)]; [done|]. split; [done|]. rewrite <-Hidb in Hab.
      apply (elem_of_segment _ _ _ _ _ _ a b Hl Hi) in Hab as [Hab Hsa]. apply list_elem_of_lookup in Hab as [j Hj].
      destruct (Forall2_lookup_l _ _ _ _ _ Hf Hj) as ([p e'] & Hj' & He'). apply extract_entry_Ok in He' as [He' ->]. cbn [snd fst] in *. simplify_eq.
      exists (mk_WalPointer a (zlen b), e). split; [by eapply list_elem_of_lookup_2|]. cbn [fst offset]. by rewrite Hsa, Hidb.
    + intros [_ ([p e] & Hpe & Hs & ->)]. right. apply list_elem_of_lookup in Hpe as [j Hj].
      destruct (Forall2_lookup_r _ _ _ _ _ Hf Hj) as ([a b] & Hj' & He'). apply extract_entry_Ok in He' as [He' ->]. cbn [fst snd offset] in *.
      exists a, b, e. split; [|done]. rewrite <-Hidb. apply (elem_of_segment _ _ _ _ _ _ a b Hl Hi). split; [by eapply list_elem_of_lookup_2|by rewrite Hidb].
Qed.

(** Opening after a power loss keeps a prefix that holds all that was durable; the sequence
    reported is the highest at or above the cut. *)
Lemma wal_reopen log base es dir' size from :
  holds_from log base es → power_loss FORMAT log dir' → from_fits log dir' from → size < 2 ^ 32 → active_segment log + 3 < 2 ^ 32 →
  ∃ kept lost log' rep, es = kept ++ lost ∧
    Forall (λ pe : WalPointer * WalEntry, log_durable log < offset pe.1 + frame_size pe.1) lost ∧
    wal_open dir' size from = Ok (log', rep) ∧ holds_from log' base kept ∧ w_tail rep = tail log' ∧ from_furthest from ≤ tail log' ∧
    log_durable log' = tail log' ∧ poisoned (rounds log') = None ∧
    max_sequence rep = foldl (λ m pe, Z.max m (sequence pe.2)) 0
      (filter (λ pe : WalPointer * WalEntry, default 0 (from_cut from) ≤ offset pe.1) kept).
Proof using All.
  intros (segs & bodies & Hl & Hf) Hpl Hff Hsz Hid.
  destruct (reopen_spec FORMAT FORMAT_ok Log visit_sequence _ _ _ _ _ size from Hl Hpl Hff Hsz Hid) as
    (segs' & bodies' & lost & log' & torn & Hrec & Hlost & Hopen & Hl' & Hfur & Hdur & Hpo).
  rewrite Hrec in Hf. apply Forall2_app_inv_l in Hf as (kept & lost' & Hk & Hlf & ->).
  exists kept, lost', log'. eexists. split; [done|]. split.
  { apply Forall_lookup. intros j [p e] Hj. destruct (Forall2_lookup_r _ _ _ _ _ Hlf Hj) as ([a b] & Hj' & He). apply extract_entry_Ok in He as [_ ->].
    pose proof (proj1 (Forall_lookup _ _) Hlost _ _ Hj') as Hd. unfold record_end, frame_zlen in Hd. unfold frame_size. simpl in *. lia. }
  split; [|split; [by exists segs', bodies'|]].
  - unfold wal_open. rewrite Hopen, (visit_all_sequence _ (filter (λ pe : WalPointer * WalEntry, default 0 (from_cut from) ≤ offset pe.1) kept)).
    { cbn [result_bind]. reflexivity. }
    clear -Hk. induction Hk as [|[a b] [p e] recs kept He Hk IH]; [constructor|]. pose proof He as [_ ->]%extract_entry_Ok.
    unfold from_cut_on in *. rewrite !filter_cons. cbn [fst offset]. case_decide; [by constructor|done].
  - simpl. done.
Qed.

Lemma holds_commit log base es end_ fsync log' r :
  holds_from log base es → end_ ≤ tail log → commit log end_ fsync = Some (log', r) →
  holds_from log' base es ∧ tail log' = tail log ∧ log_durable log ≤ log_durable log' ≤ tail log' ∧
  if is_ok r then end_ ≤ log_durable log' ∧ poisoned (rounds log) = None else poisoned (rounds log') ≠ None.
Proof using All.
  intros (segs & bodies & Hl & Hf) He Hc.
  destruct (log_commit_spec FORMAT FORMAT_ok _ _ _ _ _ fsync Hl He) as (log1 & r1 & Hc' & Hl' & Ht & Hd & Hr & _).
  rewrite Hc in Hc'. injection Hc' as <- <-. pose proof (lo_durable _ _ _ _ _ Hl'). split; [by exists segs, bodies|]. split; [done|]. split; [lia|].
  destruct r as [led|e]; [|by destruct Hr as (why & _ & ->)]. split; [done|].
  destruct (poisoned (rounds log)) as [why|] eqn:Hp; [|done]. unfold commit in Hc. by rewrite (loop_top_poisoned _ _ _ Hp) in Hc.
Qed.

Lemma holds_delete log base es id fails log' r :
  holds_from log base es → delete_segments_below log id fails = (log', r) →
  ∃ id', base ≤ id' ∧ (id' = base ∨ id' ≤ id) ∧ holds_from log' id' (filter (λ pe : WalPointer * WalEntry, id' ≤ segment_of (offset pe.1)) es) ∧
    (∀ pe, pe ∈ es → id ≤ segment_of (offset pe.1) → id' ≤ segment_of (offset pe.1)) ∧ tail log' = tail log ∧ rounds log' = rounds log.
Proof using All.
  intros (segs & bodies & Hl & Hf) Hd.
  destruct (delete_spec FORMAT FORMAT_ok _ _ _ _ _ _ _ _ Hl Hd) as (k & Hk & Hle & Hl' & Hrec & Ht & Hr & _).
  exists (base + Z.of_nat k). split; [lia|]. split; [lia|]. split.
  { exists (drop k segs), bodies. split; [done|]. rewrite Hrec. clear -Hf.
    induction Hf as [|[a b] [p e] recs es He Hf IH]; [constructor|]. pose proof He as [_ ->]%extract_entry_Ok.
    rewrite !filter_cons. cbn [fst offset]. case_decide; [by constructor|done]. }
  split; [|done]. intros [p e] Hpe Hid. destruct Hle as [->|Hle]; [|lia].
  apply list_elem_of_lookup in Hpe as [j Hj]. destruct (Forall2_lookup_r _ _ _ _ _ Hf Hj) as ([a b] & Hj' & He'). apply extract_entry_Ok in He' as [_ ->].
  apply list_elem_of_lookup_2 in Hj'. destruct (record_place FORMAT FORMAT_ok _ _ _ _ _ _ Hl Hj') as (m & b1 & b2 & _ & Hu1 & Hu2 & _ & -> & _).
  cbn [fst offset] in *. rewrite segment_of_position by done. lia.
Qed.

(** Entries lie one after the other, below the tail. *)
Lemma holds_sorted log es : holds log es →
  StronglySorted (λ pe pe' : WalPointer * WalEntry, offset pe.1 + frame_size pe.1 ≤ offset pe'.1) es ∧
  Forall (λ pe : WalPointer * WalEntry, 0 ≤ offset pe.1 < offset pe.1 + frame_size pe.1 ∧ offset pe.1 + frame_size pe.1 ≤ tail log) es.
Proof using All.
  intros (base & segs & bodies & Hl & Hf). pose proof (read_all_sorted FORMAT FORMAT_ok _ _ _ _ Hl) as Hs. split.
  - clear Hl. revert Hs. induction Hf as [|[a b] [p e] recs es He Hf IH]; intros Hs; [constructor|]. apply StronglySorted_inv in Hs as [Hs Ha].
    constructor; [by apply IH|]. apply extract_entry_Ok in He as [_ ->]. apply Forall_lookup. intros j [p' e'] Hj.
    destruct (Forall2_lookup_r _ _ _ _ _ Hf Hj) as ([a' b'] & Hj' & He'). apply extract_entry_Ok in He' as [_ ->].
    pose proof (proj1 (Forall_lookup _ _) Ha _ _ Hj') as Hd. unfold record_end, frame_zlen in Hd. unfold frame_size. simpl in *. lia.
  - apply Forall_lookup. intros j [p e] Hj. destruct (Forall2_lookup_r _ _ _ _ _ Hf Hj) as ([a b] & Hj' & He). apply extract_entry_Ok in He as [_ ->].
    apply list_elem_of_lookup_2 in Hj'. destruct (record_place FORMAT FORMAT_ok _ _ _ _ _ _ Hl Hj') as (m & b1 & b2 & _ & Hu1 & Hu2 & _ & Ha & _ & Ht).
    unfold record_end, frame_zlen in Ht. unfold frame_size. cbn [fst snd offset size] in *. pose proof (zlen_nonneg b). rewrite Ha in *.
    rewrite position_eq in * by done. unfold u32, FRAME_HEADER_LEN in *. lia.
Qed.
End wal_spec.

(** ** The metadata file *)

Lemma metadata_file_exact `{CrcLaws} m :
  progress_ok (progress m) → zlen (m_safe m) < 2 ^ 32 → u64 (total_gc_runs m) → u64 (total_bytes_reclaimed m) → u64 (last_sequence m) →
  from_file_bytes (to_file_bytes m) =
  Ok (mk_WalMetadata (segment_start 0) (segment_start 0) (m_cut m) (m_safe m) (total_gc_runs m) (total_bytes_reclaimed m) (last_sequence m)).
Proof.
  intros Hp Hs H1 H2 H3. unfold from_file_bytes, to_file_bytes.
  assert (zlen (le_bytes 8 (total_gc_runs m) ++ le_bytes 8 (total_bytes_reclaimed m) ++ le_bytes 8 (last_sequence m)) = 24) as Hz.
  { rewrite !zlen_app, !le_bytes_zlen. done. }
  rewrite decode_encode_progress; [|done|done|done|by rewrite Hz]. rewrite Hz. cbn [negb Z.eqb METADATA_EXTRA_LEN].
  change (negb (24 =? METADATA_EXTRA_LEN)) with false. cbv iota. f_equal. f_equal.
  - apply (get_le_part _ [] 8 (total_gc_runs m) (le_bytes 8 (total_bytes_reclaimed m) ++ le_bytes 8 (last_sequence m))); done.
  - apply (get_le_part _ (le_bytes 8 (total_gc_runs m)) 8 (total_bytes_reclaimed m) (le_bytes 8 (last_sequence m))); [done|by rewrite le_bytes_zlen|done|done].
  - apply (get_le_part _ (le_bytes 8 (total_gc_runs m) ++ le_bytes 8 (total_bytes_reclaimed m)) 8 (last_sequence m) []);
      [by rewrite app_nil_r, app_assoc|by rewrite zlen_app, !le_bytes_zlen|done|done].
Qed.

(** ** An example *)


Definition example_put : WalEntry := with_sequence 1 (new_upsert_ns 1 [7] [8]).
Definition example_delete : WalEntry := with_sequence 2 (new_delete_ns 1 [7]).

(** An encoding of these two entries. *)
#[local] Instance example_rkyv : RkyvEntry := {
  archive e := if decide (e = example_put) then Some [1; 2; 3] else if decide (e = example_delete) then Some [4] else None;
  access b := if decide (b = [1; 2; 3]) then Some example_put else if decide (b = [4]) then Some example_delete else None;
}.
#[local] Instance example_rkyv_laws : RkyvEntryLaws.
Proof.
  split. intros e b. unfold archive, access, example_rkyv. case_decide; [|case_decide; [|done]]; intros [= <-]; subst e.
  - split; [done|]. split; [|done]. repeat constructor; by vm_compute.
  - split; [done|]. split; [|done]. repeat constructor; by vm_compute.
Qed.
#[local] Instance sum_crc : Crc := λ b, foldr Z.add 0 b mod 2 ^ 32.
#[local] Instance sum_crc_laws : CrcLaws.
Proof. intros b. apply Z.mod_pos_bound. lia. Qed.

Definition wal_io : AppendIo := mk_AppendIo None None true (Ok ()) true true.
Definition wal_empty : SegmentedLog :=
  match wal_open ∅ 64 (mk_OpenFrom None 0) with Ok (log, _) => log
  | Err _ => mk_SegmentedLog ∅ FORMAT 64 (mk_Active 0 0) 0 (new 0) prep_new ∅ ∅ ∅ 0 end.
Definition wal_put : SegmentedLog := (append_entry wal_io wal_empty example_put 16).1.1.
Definition wal_deleted : SegmentedLog := (append_entry wal_io wal_put example_delete 27).1.1.

Example wal_deleted_scan :
  scan_entries wal_deleted 0 (tail wal_deleted) = Ok [(mk_WalPointer 16 3, example_put); (mk_WalPointer 27 1, example_delete)].
Proof. by vm_compute. Qed.

Lemma wal_empty_holds : holds wal_empty [].
Proof.
  destruct (open_empty FORMAT FORMAT_ok Log visit_sequence 64 0) as (log & Ho & Hl & _); [done|].
  assert (wal_empty = log) as ->.
  { unfold wal_empty, wal_open. by rewrite Ho. }
  exists 0, [], []. split; [done|]. constructor.
Qed.

Lemma wal_scans_exact_witness :
  holds wal_empty [] ∧ scan_entries wal_put 0 (tail wal_put) = Ok [(mk_WalPointer 16 3, example_put)] ∧
  holds wal_deleted [(mk_WalPointer 16 3, example_put); (mk_WalPointer 27 1, example_delete)] ∧
  ∃ keys, scan_segment_keys wal_deleted 0 = Ok keys ∧ (1, [7]) ∈ keys.
Proof.
  pose proof wal_empty_holds as H0. destruct (wal_scans_exact _ _ H0) as (_ & Happ & _).
  assert (∀ n, io_ok FORMAT wal_io n) as Hio by done.
  pose proof (Happ wal_io example_put 16 wal_put 27 (Ok (mk_WalPointer 16 3)) (Hio _) ltac:(by vm_compute)) as [H1 _].
  destruct (wal_scans_exact _ _ H1) as (Hs1 & Happ1 & _).
  pose proof (Happ1 wal_io example_delete 27 wal_deleted 36 (Ok (mk_WalPointer 27 1)) (Hio _) ltac:(by vm_compute)) as [H2 _].
  destruct (wal_scans_exact _ _ H2) as (_ & _ & Hkeys). destruct (Hkeys 0) as (keys & Hk & _ & Hin); [by vm_compute|by vm_compute|].
  split; [done|]. split; [exact Hs1|]. split; [exact H2|]. exists keys. split; [done|]. apply Hin. split; [by eexists; vm_compute|].
  exists (mk_WalPointer 16 3, example_put). split; [left|]. split; by vm_compute.
Defined.
