(* ===== verification/WalObserver.v ===== *)
(** * WalObserver: the main WAL's retirement progress

    [WalPersistObserver] of db/database.rs with the write path, recovery and the garbage
    collection of the WAL around it (db/database.rs, db/wal_gc.rs): which entries are in
    SSTables, how far each namespace is, and the metadata file that says so.  The metadata
    file is what [Wal.from_file_bytes] reads of it. *)
From S2P Require Import Prelude Slices Bytes LogProgress CommitRounds SegmentedLog Wal.
#[local] Open Scope minnal_scope.

(** The least of some numbers. *)
Definition list_min (l : list Z) : option Z := foldr (λ x m, Some (default x (Z.min x <$> m))) None l.

(** ** State *)

Record WalFlushState := mk_WalFlushState { fs_tail : Z; flushed : bool }.
Record NsFlushProgress := mk_NsFlushProgress { safe_offset : Z; last_write_offset : Z }.

Definition no_progress : NsFlushProgress := mk_NsFlushProgress 0 0.
Definition has_unflushed (p : NsFlushProgress) : bool := safe_offset p <? last_write_offset p.

(** The observer with what it shares with the database: the log, the metadata and its file,
    the sequence counter. *)
Record WalPersistObserver := mk_Observer {
  wal : SegmentedLog;
  wal_metadata : WalMetadata;
  metadata_file : option WalMetadata;
  pending : gmap (Z * Z) WalFlushState;
  next_seq : Z;
  ns_progress : gmap Z NsFlushProgress;
  field_consumers : gmap (Z * Z) (option Z);
  in_flight : gmap Z Z
}.

Section setters.
Context (o : WalPersistObserver).
Definition set_wal (l : SegmentedLog) : WalPersistObserver :=
  mk_Observer l (wal_metadata o) (metadata_file o) (pending o) (next_seq o) (ns_progress o) (field_consumers o) (in_flight o).
Definition set_metadata (m : WalMetadata) : WalPersistObserver :=
  mk_Observer (wal o) m (metadata_file o) (pending o) (next_seq o) (ns_progress o) (field_consumers o) (in_flight o).
Definition set_file (m : option WalMetadata) : WalPersistObserver :=
  mk_Observer (wal o) (wal_metadata o) m (pending o) (next_seq o) (ns_progress o) (field_consumers o) (in_flight o).
Definition set_pending (p : gmap (Z * Z) WalFlushState) : WalPersistObserver :=
  mk_Observer (wal o) (wal_metadata o) (metadata_file o) p (next_seq o) (ns_progress o) (field_consumers o) (in_flight o).
Definition set_next_seq (s : Z) : WalPersistObserver :=
  mk_Observer (wal o) (wal_metadata o) (metadata_file o) (pending o) s (ns_progress o) (field_consumers o) (in_flight o).
Definition set_progress (p : gmap Z NsFlushProgress) : WalPersistObserver :=
  mk_Observer (wal o) (wal_metadata o) (metadata_file o) (pending o) (next_seq o) p (field_consumers o) (in_flight o).
Definition set_consumers (c : gmap (Z * Z) (option Z)) : WalPersistObserver :=
  mk_Observer (wal o) (wal_metadata o) (metadata_file o) (pending o) (next_seq o) (ns_progress o) c (in_flight o).
Definition set_in_flight (f : gmap Z Z) : WalPersistObserver :=
  mk_Observer (wal o) (wal_metadata o) (metadata_file o) (pending o) (next_seq o) (ns_progress o) (field_consumers o) f.
End setters.

Definition with_tail (t : Z) (m : WalMetadata) : WalMetadata :=
  mk_WalMetadata (head m) t (m_cut m) (m_safe m) (total_gc_runs m) (total_bytes_reclaimed m) (last_sequence m).
Definition with_cut (cut : Z) (safe : list (Z * Z)) (m : WalMetadata) : WalMetadata :=
  mk_WalMetadata (head m) (m_tail m) cut safe (total_gc_runs m) (total_bytes_reclaimed m) (last_sequence m).
Definition with_last_sequence (s : Z) (m : WalMetadata) : WalMetadata :=
  mk_WalMetadata (head m) (m_tail m) (m_cut m) (m_safe m) (total_gc_runs m) (total_bytes_reclaimed m) s.

(** ** Writes in flight *)

Definition begin_write (offset : Z) (o : WalPersistObserver) : WalPersistObserver :=
  set_in_flight o (<[offset := default 0 (in_flight o !! offset) + 1]> (in_flight o)).

(** [InFlightWrite::drop]. *)
Definition end_write (offset : Z) (o : WalPersistObserver) : WalPersistObserver :=
  match in_flight o !! offset with
  | Some n => set_in_flight o (if n =? 1 then delete offset (in_flight o) else <[offset := n - 1]> (in_flight o))
  | None => o
  end.

Definition wal_cut_ceiling (o : WalPersistObserver) : Z :=
  match list_min (map_to_list (in_flight o)).*1 with
  | Some oldest => Z.min (m_tail (wal_metadata o)) oldest
  | None => m_tail (wal_metadata o)
  end.

(** ** Progress *)

Definition namespaces_with_unflushed (o : WalPersistObserver) : list Z :=
  (filter (λ e : Z * NsFlushProgress, has_unflushed e.2) (map_to_list (ns_progress o))).*1.

Definition note_write (namespace_id tail : Z) (o : WalPersistObserver) : WalPersistObserver :=
  let p := default no_progress (ns_progress o !! namespace_id) in
  set_progress o (<[namespace_id := mk_NsFlushProgress (safe_offset p) (Z.max (last_write_offset p) tail)]> (ns_progress o)).

Definition compute_cut (progress : gmap Z NsFlushProgress) (o : WalPersistObserver) : Z :=
  let slowest := list_min (safe_offset <$> filter has_unflushed (map_to_list progress).*2) in
  let ceiling := wal_cut_ceiling o in
  let cut := match slowest with Some offset => Z.min offset ceiling | None => ceiling end in
  Z.max cut (m_cut (wal_metadata o)).

Definition by_namespace (a b : Z * Z) : Prop := a.1 ≤ b.1.
#[export] Instance by_namespace_dec : RelDecision by_namespace.
Proof. intros a b. unfold by_namespace. apply _. Defined.

Definition progress_snapshot (progress : gmap Z NsFlushProgress) (o : WalPersistObserver) : WalMetadata :=
  let cut := compute_cut progress o in
  let safe := omap (λ e : Z * NsFlushProgress, if cut <? safe_offset e.2 then Some (e.1, safe_offset e.2) else None)
                (map_to_list progress) in
  with_cut cut (merge_sort by_namespace safe) (wal_metadata o).

Definition apply_progress (snapshot : WalMetadata) (o : WalPersistObserver) : WalPersistObserver :=
  set_metadata o (with_cut (m_cut snapshot) (m_safe snapshot) (wal_metadata o)).

(** What the operating system makes of a save: it takes effect, or it fails leaving the file
    as it was, or the new file is in place but the save fails (its directory's sync). *)
Inductive SaveIo := Saved | NotSaved | Renamed.

(** [write_metadata] of a file that keeps neither head nor tail. *)
Definition on_file (m : WalMetadata) : WalMetadata :=
  mk_WalMetadata (head metadata_new) (m_tail metadata_new) (m_cut m) (m_safe m) (total_gc_runs m) (total_bytes_reclaimed m) (last_sequence m).
Definition write_metadata (io : SaveIo) (m : WalMetadata) (o : WalPersistObserver) : WalPersistObserver * bool :=
  let last := Z.max (last_sequence m) (Z.max 0 (next_seq o - 1)) in
  let written := set_file o (Some (on_file (with_last_sequence last m))) in
  match io with
  | Saved =>
    let live := wal_metadata o in
    (set_metadata written (with_last_sequence (Z.max (last_sequence live) last) live), true)
  | NotSaved => (o, false)
  | Renamed => (written, false)
  end.

Definition commit_progress (io : SaveIo) (progress : gmap Z NsFlushProgress) (o : WalPersistObserver) : WalPersistObserver * bool :=
  let snapshot := progress_snapshot progress o in
  match write_metadata io snapshot o with
  | (o, true) => (apply_progress snapshot o, true)
  | (o, false) => (o, false)
  end.

Definition save_metadata (io : SaveIo) (o : WalPersistObserver) : WalPersistObserver * bool :=
  write_metadata io (wal_metadata o) o.

Definition retire_all (io : SaveIo) (o : WalPersistObserver) : WalPersistObserver * bool :=
  let m := wal_metadata o in
  let snapshot := with_cut (Z.max (wal_cut_ceiling o) (m_cut m)) [] m in
  match write_metadata io snapshot o with
  | (o, true) =>
    let o := set_metadata o (with_cut (m_cut snapshot) [] (wal_metadata o)) in
    (set_progress o ((λ p, mk_NsFlushProgress (Z.max (safe_offset p) (m_cut snapshot)) (last_write_offset p)) <$> ns_progress o), true)
  | (o, false) => (o, false)
  end.

(** [forget_namespace]; a failed save is only logged. *)
Definition forget_namespace (io : SaveIo) (namespace_id : Z) (o : WalPersistObserver) : WalPersistObserver :=
  let o := set_consumers o (filter (λ e : Z * Z * option Z, e.1.1 ≠ namespace_id) (field_consumers o)) in
  let o := set_progress o (delete namespace_id (ns_progress o)) in
  let o := set_pending o (filter (λ e : Z * Z * WalFlushState, e.1.1 ≠ namespace_id) (pending o)) in
  (commit_progress io (ns_progress o) o).1.

(** ** Flushes *)

Definition on_memtable_sealed_ns (namespace_id version : Z) (o : WalPersistObserver) : WalPersistObserver :=
  let tail := wal_cut_ceiling o in
  match pending o !! (namespace_id, version) with
  | Some _ => o
  | None => set_pending o (<[(namespace_id, version) := mk_WalFlushState tail false]> (pending o))
  end.

Record PreparedProgress := mk_Prepared {
  p_namespace : Z; p_version : Z; fresh : bool; folded : list (Z * Z); new_safe : Z;
  previous : WalMetadata; snapshot : WalMetadata
}.

(** The pending records of a namespace, in version order. *)
Definition versions_of (namespace_id : Z) (pending : gmap (Z * Z) WalFlushState) : list Z :=
  merge_sort Z.le (filter (λ k : Z * Z, k.1 = namespace_id) (map_to_list pending).*1).*2.

(** The flushed ones before the first that is not, and the highest of their tails. *)
Fixpoint fold_flushed (namespace_id : Z) (pending : gmap (Z * Z) WalFlushState) (versions : list Z) (folded : list (Z * Z)) (new_safe : Z) :
    list (Z * Z) * Z :=
  match versions with
  | [] => (folded, new_safe)
  | v :: versions =>
    match pending !! (namespace_id, v) with
    | Some state =>
      if flushed state then fold_flushed namespace_id pending versions (folded ++ [(namespace_id, v)]) (Z.max new_safe (fs_tail state))
      else (folded, new_safe)
    | None => (folded, new_safe)
    end
  end.

Definition raise_safe (namespace_id new_safe : Z) (progress : gmap Z NsFlushProgress) : gmap Z NsFlushProgress :=
  if 0 <? new_safe then
    let p := default no_progress (progress !! namespace_id) in
    <[namespace_id := mk_NsFlushProgress (Z.max (safe_offset p) new_safe) (last_write_offset p)]> progress
  else progress.

(** [PreparedProgress::withdraw]. *)
Definition withdraw (p : PreparedProgress) (o : WalPersistObserver) : WalPersistObserver :=
  let key := (p_namespace p, p_version p) in
  if fresh p then set_pending o (delete key (pending o))
  else match pending o !! key with
       | Some state => set_pending o (<[key := mk_WalFlushState (fs_tail state) false]> (pending o))
       | None => o
       end.

Definition prepare_written (io : SaveIo) (namespace_id version : Z) (o : WalPersistObserver) :
    WalPersistObserver * option PreparedProgress :=
  let ceiling := wal_cut_ceiling o in
  let previous := wal_metadata o in
  let key := (namespace_id, version) in
  let fresh := bool_decide (pending o !! key = None) in
  let entry := default (mk_WalFlushState 0 false) (pending o !! key) in
  let tail := if fs_tail entry =? 0 then ceiling else fs_tail entry in
  let o := set_pending o (<[key := mk_WalFlushState tail true]> (pending o)) in
  let '(folded, new_safe) := fold_flushed namespace_id (pending o) (versions_of namespace_id (pending o)) [] 0 in
  let snapshot := progress_snapshot (raise_safe namespace_id new_safe (ns_progress o)) o in
  let prepared := mk_Prepared namespace_id version fresh folded new_safe previous snapshot in
  match write_metadata io snapshot o with
  | (o, true) => (o, Some prepared)
  | (o, false) => (withdraw prepared o, None)
  end.

(** [PreparedProgress::commit]. *)
Definition commit_prepared (p : PreparedProgress) (o : WalPersistObserver) : WalPersistObserver :=
  let o := set_pending o (foldl (λ m key, delete key m) (pending o) (folded p)) in
  let o := set_progress o (raise_safe (p_namespace p) (new_safe p) (ns_progress o)) in
  apply_progress (snapshot p) o.

(** [PreparedProgress::abort]. *)
Definition abort_prepared (io : SaveIo) (p : PreparedProgress) (o : WalPersistObserver) : WalPersistObserver :=
  let o := match write_metadata io (previous p) o with
           | (o, true) => o
           | (o, false) => set_wal o (log_poison (wal o) "could not restore the WAL progress").1
           end in
  withdraw p o.

(** ** Field consumers *)

Definition add_field_consumer (namespace_id field_id : Z) (position : option Z) (o : WalPersistObserver) : WalPersistObserver :=
  set_consumers o (<[(namespace_id, field_id) := position]> (field_consumers o)).
Definition remove_field_consumer (namespace_id field_id : Z) (o : WalPersistObserver) : WalPersistObserver :=
  set_consumers o (delete (namespace_id, field_id) (field_consumers o)).

Definition checkpoint_one (position : Z) (o : WalPersistObserver) (key : Z * Z) : WalPersistObserver :=
  match field_consumers o !! key with
  | Some p => set_consumers o (<[key := Some (match p with Some old => Z.max old position | None => position end)]> (field_consumers o))
  | None => o
  end.
Definition fields_checkpointed (fields : list (Z * Z)) (position : Z) (o : WalPersistObserver) : WalPersistObserver :=
  foldl (checkpoint_one position) o fields.

(** ** The write path *)

Section writes.
Context `{Crc} `{RkyvEntry}.

(** The first step of [put_ns_locked] and [delete_ns_locked], under the metadata's write
    lock: the entry takes the next sequence, goes into the log, and is registered as in
    flight.  [None]: the sequence counter is exhausted, a panic. *)
Definition append_write (io : AppendIo) (entry : WalEntry) (o : WalPersistObserver) :
    option (WalPersistObserver * result (WalPointer * WalEntry) WalError) :=
  match log_check_poisoned (wal o) with
  | Err e => Some (o, Err (Log e))
  | Ok _ =>
    let seq := next_seq o in
    let o := set_next_seq o (seq + 1) in
    if seq =? 2 ^ 64 - 1 then None
    else
      let entry := with_sequence seq entry in
      let '(log, tail, r) := append_entry io (wal o) entry (m_tail (wal_metadata o)) in
      let o := set_metadata (set_wal o log) (with_tail tail (wal_metadata o)) in
      match r with
      | Ok ptr => Some (begin_write (offset ptr) o, Ok (ptr, entry))
      | Err e => Some (o, Err e)
      end
  end.

(** [commit_wal]; [None]: another round is needed. *)
Definition commit_wal (end_ : Z) (fsync : option string) (o : WalPersistObserver) : option (WalPersistObserver * bool) :=
  match commit (wal o) end_ fsync with
  | Some (log, r) => Some (set_wal o log, is_ok r)
  | None => None
  end.

(** ** Recovery *)

(** [open_main_wal]: [saved] is what the metadata file decodes to, if it does. *)
Definition open_main_wal (dir : segment_dir) (segment_size : Z) (saved : option WalMetadata) (any_level1_data : bool) :
    result (SegmentedLog * WalMetadata * Z) WalError :=
  if bool_decide (saved = None) && has_segments dir && any_level1_data
  then Err (Log (Corruption "the WAL metadata is missing, but the database holds L1 data"))
  else
    let? r := wal_open dir segment_size (open_from (progress <$> saved)) in
    let '(log, report) := r in
    let m := default metadata_new saved in
    let m := mk_WalMetadata (wal_head log) (w_tail report) (m_cut m) (m_safe m) (total_gc_runs m) (total_bytes_reclaimed m) (last_sequence m) in
    Ok (log, m, Z.min (Z.max (last_sequence m) (max_sequence report) + 1) (2 ^ 64 - 1)).

Definition by_sequence (a b : WalPointer * WalEntry) : Prop := sequence a.2 ≤ sequence b.2.
#[export] Instance by_sequence_dec : RelDecision by_sequence.
Proof. intros a b. unfold by_sequence. apply _. Defined.

(** The entries [recover_from_wal] replays, in the order it does. *)
Definition eligible (m : WalMetadata) (known : Z → bool) (pe : WalPointer * WalEntry) : bool :=
  negb (offset pe.1 <? metadata_replay_from m (namespace_id pe.2)) && known (namespace_id pe.2).
Definition recovery_entries (log : SegmentedLog) (m : WalMetadata) (known : Z → bool) : result (list (WalPointer * WalEntry)) WalError :=
  let start := Z.max (m_cut m) (head m) in
  if m_tail m <=? start then Ok []
  else
    let? all_entries := scan_entries log start (m_tail m) in
    Ok (merge_sort by_sequence (filter (λ pe, eligible m known pe = true) all_entries)).
End writes.

(** ** Garbage collection *)

Record WalGcPlan := mk_WalGcPlan { reclaim : list Z; deferred : Z; forced : list Z }.

(** [plan_wal_gc]; [cap] is [max_pinned_wal_segments]. *)
Definition plan_wal_gc (cap : Z) (m : WalMetadata) (current_segment_id : Z) (watermark : option Z) : WalGcPlan :=
  let first := segment_of (head m) in
  let ready := seqZ first (Z.min current_segment_id (segment_of (m_cut m)) - first) in
  match watermark with
  | None => mk_WalGcPlan ready 0 []
  | Some watermark =>
    let pinned := filter (λ s, watermark ≤ s) ready in
    let free := filter (λ s, ¬ watermark ≤ s) ready in
    let force_count := if cap =? 0 then 0 else Z.max 0 (zlen pinned - cap) in
    let forced := take (Z.to_nat force_count) pinned in
    mk_WalGcPlan (merge_sort Z.le (free ++ forced)) (zlen pinned - force_count) forced
  end.

(** [field_replay_offsets]: a field without a checkpoint holds the log from 0 once its index
    is populated. *)
Definition field_replay_offsets (populated : Z * Z → bool) (o : WalPersistObserver) : list (Z * Z * Z) :=
  omap (λ e : Z * Z * option Z,
    match e.2 with
    | Some offset => Some (e.1, offset)
    | None => if populated e.1 then Some (e.1, 0) else None
    end) (map_to_list (field_consumers o)).

Definition index_replay_watermark_segment (populated : Z * Z → bool) (o : WalPersistObserver) : option Z :=
  list_min ((λ e : Z * Z * Z, segment_of e.2) <$> field_replay_offsets populated o).

Definition saturating_add (a b : Z) : Z := Z.min (a + b) (2 ^ 64 - 1).

(** [garbage_collect_wal] up to its save of the metadata; [fails]: how many files are
    removed before a removal fails, if one does. *)
Definition garbage_collect (cap : Z) (watermark : option Z) (fails : option nat) (o : WalPersistObserver) :
    WalPersistObserver * result (Z * Z) LogError :=
  let snapshot := wal_metadata o in
  let plan := plan_wal_gc cap snapshot (active_segment (wal o)) watermark in
  let '(log, r) := match last (reclaim plan) with
                   | Some l => delete_segments_below (wal o) (l + 1) fails
                   | None => (wal o, Ok (0, 0))
                   end in
  let o := set_wal o log in
  match r with
  | Err e => (o, Err e)
  | Ok (_, bytes_reclaimed) =>
    let new_head := match segments log with
                    | (oldest, _) :: _ => Z.max (segment_start oldest) (head snapshot)
                    | [] => head snapshot
                    end in
    let m := wal_metadata o in
    let m := mk_WalMetadata (Z.max (head m) new_head) (m_tail m) (m_cut m) (m_safe m)
               (saturating_add (total_gc_runs m) 1) (saturating_add (total_bytes_reclaimed m) bytes_reclaimed) (last_sequence m) in
    (set_metadata o m, Ok (bytes_reclaimed, bytes_between log (m_cut m) (m_tail m)))
  end.
