(* ===== verification/WalRetire.v ===== *)
(** * WalRetire: no acknowledged write is lost

    The write path, the memtable flushes, the saved progress and recovery of db/database.rs
    as one machine over [WalObserver] and the segmented log.  A write is a sequence of steps
    of [put_ns_locked] (or [delete_ns_locked]): appended, noted, committed, applied to its
    namespace's memtable, returned; writers interleave.  A memtable is the set of the writes
    it holds; sealing one is atomic with the observer's event, which the source calls under
    the memtable's write lock.  A flush writes its tables, prepares its progress and then
    commits or aborts it, and no other save comes between (the persist lock).

    A save that fails is taken to leave the file as it was, the save an abort needs to
    succeed, and recovery to apply and flush all it replays.  A write whose apply failed
    for good is [Unapplied]: it is returned Ok all the same, and no promise covers it (see
    [unapplied_write_lost] of [WalSafety]). *)
From S2P Require Import Prelude Slices Bytes LogProgress CommitRounds SegmentedLog LogFrames LogOpen LogWrites LogReads LogSpec Wal WalObserver.
#[local] Open Scope minnal_scope.

(** ** The machine *)

(** Where a write is; [Unapplied]: it is in the log, but every attempt to apply it failed. *)
Inductive write_state := Appended | Noted | Committed | Applied | Unapplied | Acked | AckedUnapplied | Refused | Gone.
#[export] Instance write_state_eq_dec : EqDecision write_state.
Proof. solve_decision. Defined.

(** A write with the log's tail just after its entry. *)
Record Write := mk_Write { w_ptr : WalPointer; w_entry : WalEntry; w_end : Z; w_state : write_state }.

Definition w_ns (wr : Write) : Z := namespace_id (w_entry wr).
Definition w_at (wr : Write) : Z := offset (w_ptr wr).
Definition moved (wr : Write) (s : write_state) : Write := mk_Write (w_ptr wr) (w_entry wr) (w_end wr) s.

(** Registered as in flight. *)
Definition flying (s : write_state) : bool :=
  match s with Appended | Noted | Committed | Applied | Unapplied => true | _ => false end.

Record World := mk_World {
  obs : WalPersistObserver;
  writes : list Write;
  active : gmap Z (gset nat);          (** the active memtable of each namespace *)
  sealed : gmap (Z * Z) (gset nat);    (** read-only memtables by namespace and version *)
  tables : gset nat;                   (** the writes held by registered SSTables *)
  next_version : gmap Z Z;
  live : gset Z;                       (** the namespaces of the registry *)
  ever : gset Z;                       (** those that were ever there; ids are not reused *)
  flushing : option PreparedProgress;
}.

Definition memtable (m : gmap Z (gset nat)) (ns : Z) : gset nat := default ∅ (m !! ns).
Definition set_obs (w : World) (o : WalPersistObserver) : World :=
  mk_World o (writes w) (active w) (sealed w) (tables w) (next_version w) (live w) (ever w) (flushing w).
Definition set_write (w : World) (i : nat) (wr : Write) : World :=
  mk_World (obs w) (<[i := wr]> (writes w)) (active w) (sealed w) (tables w) (next_version w) (live w) (ever w) (flushing w).

(** The files of a flush whose progress is prepared are on disk before they are registered. *)
Definition being_written (w : World) : gset nat :=
  match flushing w with Some p => default ∅ (sealed w !! (p_namespace p, p_version p)) | None => ∅ end.
Definition on_disk (w : World) : gset nat := tables w ∪ being_written w.

(** Sealing a namespace's memtable. *)
Definition seal (ns : Z) (w : World) : World :=
  let v := default 0 (next_version w !! ns) in
  mk_World (on_memtable_sealed_ns ns v (obs w)) (writes w) (<[ns := ∅]> (active w))
    (<[(ns, v) := memtable (active w) ns]> (sealed w)) (tables w) (<[ns := v + 1]> (next_version w)) (live w) (ever w) (flushing w).

(** The write path from the append on; the namespace's store is missing when it was dropped. *)
Definition note (i : nat) (wr : Write) (w : World) : World :=
  set_write (set_obs w (note_write (w_ns wr) (w_end wr) (obs w))) i (moved wr Noted).
Definition committed (i : nat) (wr : Write) (o : WalPersistObserver) (ok : bool) (w : World) : World :=
  if ok then set_write (set_obs w o) i (moved wr Committed)
  else set_write (set_obs w (end_write (w_at wr) o)) i (moved wr Refused).
Definition apply (i : nat) (wr : Write) (ok : bool) (w : World) : World :=
  if negb (bool_decide (w_ns wr ∈ live w)) then set_write (set_obs w (end_write (w_at wr) (obs w))) i (moved wr Refused)
  else if ok then
    mk_World (obs w) (<[i := moved wr Applied]> (writes w)) (<[w_ns wr := {[i]} ∪ memtable (active w) (w_ns wr)]> (active w))
      (sealed w) (tables w) (next_version w) (live w) (ever w) (flushing w)
  else set_write w i (moved wr Unapplied).
Definition return_ (i : nat) (wr : Write) (w : World) : World :=
  set_write (set_obs w (end_write (w_at wr) (obs w))) i (moved wr (if decide (w_state wr = Applied) then Acked else AckedUnapplied)).

(** A flush of one sealed memtable. *)
Definition prepare (io : SaveIo) (ns v : Z) (w : World) : World :=
  let '(o, p) := prepare_written io ns v (obs w) in
  mk_World o (writes w) (active w) (sealed w) (tables w) (next_version w) (live w) (ever w) p.
Definition finish_flush (p : PreparedProgress) (w : World) : World :=
  let key := (p_namespace p, p_version p) in
  mk_World (commit_prepared p (obs w)) (writes w) (active w) (delete key (sealed w)) (on_disk w) (next_version w) (live w) (ever w) None.
Definition undo_flush (io : SaveIo) (p : PreparedProgress) (w : World) : World :=
  mk_World (abort_prepared io p (obs w)) (writes w) (active w) (sealed w) (tables w) (next_version w) (live w) (ever w) None.

(** Writers of a process that died: what they had not returned, they never will. *)
Definition after_crash (wr : Write) : Write := if flying (w_state wr) then moved wr Gone else wr.

(** Recovery with what the log gave: everything replayed is applied and flushed, then the
    whole log is retired. *)
Definition replayed (recs : list (WalPointer * WalEntry)) (ws : list Write) : gset nat :=
  list_to_set (imap (λ i wr, (i, wr)) ws ≫= λ p : nat * Write, if bool_decide ((w_ptr p.2, w_entry p.2) ∈ recs) then [p.1] else []).

(** [recover_from_wal] on a database just opened; its final retirement is saved. *)
Definition recovered (log : SegmentedLog) (m : WalMetadata) (next_seq : Z) (recs : list (WalPointer * WalEntry)) (w : World) : World :=
  let o := mk_Observer log m (metadata_file (obs w)) ∅ next_seq ∅ ∅ ∅ in
  let o := if m_tail m <=? Z.max (m_cut m) (head m) then o else (retire_all Saved o).1 in
  mk_World o (after_crash <$> writes w) ∅ ∅ (on_disk w ∪ replayed recs (writes w)) ∅ (live w) (ever w) None.

(** Saves in a machine without half-done saves. *)
Definition clean (io : SaveIo) : bool := match io with Renamed => false | _ => true end.

(** The saved cut does not name records the power loss took: it is below what is durable, or
    where a segment's records start.  It always is when the log is not poisoned. *)
Definition cut_survives (w : World) : Prop :=
  let cut := default 0 (m_cut <$> metadata_file (obs w)) in
  cut ≤ log_durable (wal (obs w)) ∨ (split cut).2 ≤ SEGMENT_HEADER_LEN.

Section machine.
Context `{Crc} `{RkyvEntry}.

(** A write's own steps. *)
Inductive write_step (w : World) : World → Prop :=
| st_append io entry o ptr e :
    io_ok FORMAT io (active_segment (wal (obs w)) + 1) → append_write io entry (obs w) = Some (o, Ok (ptr, e)) →
    write_step w (mk_World o (writes w ++ [mk_Write ptr e (m_tail (wal_metadata o)) Appended]) (active w) (sealed w) (tables w) (next_version w) (live w) (ever w) (flushing w))
| st_append_failed io entry o e :
    io_ok FORMAT io (active_segment (wal (obs w)) + 1) → append_write io entry (obs w) = Some (o, Err e) → write_step w (set_obs w o)
| st_note i wr : writes w !! i = Some wr → w_state wr = Appended → write_step w (note i wr w)
| st_commit i wr fsync o ok :
    writes w !! i = Some wr → w_state wr = Noted → commit_wal (w_end wr) fsync (obs w) = Some (o, ok) → write_step w (committed i wr o ok w)
| st_apply i wr ok : writes w !! i = Some wr → w_state wr = Committed → write_step w (apply i wr ok w)
| st_return i wr :
    writes w !! i = Some wr → w_state wr = Applied ∨ w_state wr = Unapplied → write_step w (return_ i wr w).

(** Flushes, saves, namespaces and garbage collection. *)
Inductive upkeep_step (w : World) : World → Prop :=
| st_seal ns : ns ∈ live w → upkeep_step w (seal ns w)
| st_prepare ns v io :
    flushing w = None → is_Some (sealed w !! (ns, v)) → clean io → upkeep_step w (prepare io ns v w)
| st_flushed p : flushing w = Some p → upkeep_step w (finish_flush p w)
| st_undo p : flushing w = Some p → upkeep_step w (undo_flush Saved p w)
| st_save io : flushing w = None → clean io → upkeep_step w (set_obs w (save_metadata io (obs w)).1)
| st_create ns :
    ns ∉ ever w →
    upkeep_step w (mk_World (obs w) (writes w) (active w) (sealed w) (tables w) (next_version w) ({[ns]} ∪ live w) ({[ns]} ∪ ever w) (flushing w))
| st_drop ns :
    upkeep_step w (mk_World (obs w) (writes w) (active w) (sealed w) (tables w) (next_version w) (live w ∖ {[ns]}) (ever w) (flushing w))
| st_forget ns io :
    flushing w = None → ns ∈ ever w → ns ∉ live w → clean io → upkeep_step w (set_obs w (forget_namespace io ns (obs w)))
| st_fields consumers : upkeep_step w (set_obs w (set_consumers (obs w) consumers))
| st_collect cap watermark fails : upkeep_step w (set_obs w (garbage_collect cap watermark fails (obs w)).1).

(** A power loss and the next open. *)
Inductive crash_step (w : World) : World → Prop :=
| st_crash dir' size any_level1_data log m next_seq recs :
    power_loss FORMAT (wal (obs w)) dir' → size < 2 ^ 32 → active_segment (wal (obs w)) + 3 < 2 ^ 32 →
    poisoned (rounds (wal (obs w))) = None ∨ cut_survives w →
    open_main_wal dir' size (metadata_file (obs w)) any_level1_data = Ok (log, m, next_seq) →
    recovery_entries log m (λ ns, bool_decide (ns ∈ live w)) = Ok recs →
    crash_step w (recovered log m next_seq recs w).

Definition db_step (w w' : World) : Prop := write_step w w' ∨ upkeep_step w w' ∨ crash_step w w'.

(** A new database. *)
Definition first_world (log : SegmentedLog) (m : WalMetadata) (next_seq : Z) (live : gset Z) : World :=
  mk_World (mk_Observer log m None ∅ next_seq ∅ ∅ ∅) [] ∅ ∅ ∅ ∅ live live None.
Definition db_reachable (w : World) : Prop :=
  ∃ size log m next_seq live, size < 2 ^ 32 ∧ open_main_wal ∅ size None false = Ok (log, m, next_seq) ∧
    rtc db_step (first_world log m next_seq live) w.
End machine.
