(* ===== verification/WalInvariant.v ===== *)
(** * WalInvariant: what the saved progress stands for

    Every offset the observer keeps claims that a namespace's writes below it are somewhere:
    in SSTables, on disk, or in a memtable sealed up to a version.  The invariant of the
    machine of [WalRetire]: no claim passes the ceiling, below which no write is in flight,
    and every claim holds of the acknowledged writes of the namespaces that are there. *)
From S2P Require Import Prelude Slices Bytes LogProgress CommitRounds SegmentedLog LogFrames LogOpen LogWrites LogReads LogSpec Wal WalObserver WalRetire.
#[local] Open Scope minnal_scope.

(** ** The ceiling *)

Lemma list_min_spec l :
  match list_min l with Some m => m ∈ l ∧ Forall (λ x, m ≤ x) l | None => l = [] end.
Proof.
  induction l as [|x l IH]; [done|]. simpl. destruct (list_min l) as [m|]; simpl.
  - destruct IH as [Hm Hl]. split.
    + destruct (Z.min_spec x m) as [[_ ->]|[_ ->]]; [left|by right].
    + constructor; [lia|]. eapply Forall_impl; [exact Hl|]. simpl. lia.
  - subst l. split; [left|]. constructor; [lia|constructor].
Qed.

Lemma list_min_le l m x : list_min l = Some m → x ∈ l → m ≤ x.
Proof. intros Hm Hx. pose proof (list_min_spec l) as H. rewrite Hm in H. destruct H as [_ H]. rewrite Forall_forall in H. by apply H. Qed.

Lemma wal_cut_ceiling_le o X :
  X ≤ wal_cut_ceiling o ↔ X ≤ m_tail (wal_metadata o) ∧ ∀ off, is_Some (in_flight o !! off) → X ≤ off.
Proof.
  unfold wal_cut_ceiling. pose proof (list_min_spec (map_to_list (in_flight o)).*1) as Hm.
  assert (∀ off, is_Some (in_flight o !! off) ↔ off ∈ (map_to_list (in_flight o)).*1) as Hin.
  { intros off. rewrite list_elem_of_fmap. split.
    - intros [n Hn]. exists (off, n). split; [done|]. by apply elem_of_map_to_list.
    - intros ([off' n] & -> & Hn). apply elem_of_map_to_list in Hn. by exists n. }
  destruct (list_min _) as [m|].
  - destruct Hm as [Hm Hl]. rewrite Forall_forall in Hl. split.
    + intros Hx. split; [lia|]. intros off Hoff%Hin. specialize (Hl _ Hoff). simpl in Hl. lia.
    + intros [Ht Hx]. specialize (Hx m (proj2 (Hin m) Hm)). lia.
  - split; [|by intros [? _]]. intros Hx. split; [done|]. intros off Hoff%Hin. rewrite Hm in Hoff. by apply elem_of_nil in Hoff.
Qed.

Lemma ceiling_self o : wal_cut_ceiling o ≤ m_tail (wal_metadata o) ∧ ∀ off, is_Some (in_flight o !! off) → wal_cut_ceiling o ≤ off.
Proof. by apply wal_cut_ceiling_le. Qed.

(** ** Claims *)

Inductive level := OnTables | OnDisk | OrSealed (v : Z).

Inductive claim (o : WalPersistObserver) (fl : option PreparedProgress) (ns : Z) : Z → level → Prop :=
| c_cut : claim o fl ns (m_cut (wal_metadata o)) OnTables
| c_safe s : (ns, s) ∈ m_safe (wal_metadata o) → claim o fl ns s OnTables
| c_progress p : ns_progress o !! ns = Some p → claim o fl ns (safe_offset p) OnTables
| c_file_cut m : metadata_file o = Some m → claim o fl ns (m_cut m) OnDisk
| c_file m s : metadata_file o = Some m → (ns, s) ∈ m_safe m → claim o fl ns s OnDisk
| c_pending v st : pending o !! (ns, v) = Some st → claim o fl ns (fs_tail st) (OrSealed v)
| c_new p : fl = Some p → p_namespace p = ns → claim o fl ns (new_safe p) OnDisk
| c_snapshot_cut p : fl = Some p → claim o fl ns (m_cut (snapshot p)) OnDisk
| c_snapshot p s : fl = Some p → (ns, s) ∈ m_safe (snapshot p) → claim o fl ns s OnDisk.

Create HintDb wal.
#[export] Hint Constructors claim : wal.

Definition held (w : World) (ns : Z) (l : level) (i : nat) : Prop :=
  match l with
  | OnTables => i ∈ tables w
  | OnDisk => i ∈ on_disk w
  | OrSealed v => i ∈ tables w ∨ ∃ v' s, v' ≤ v ∧ sealed w !! (ns, v') = Some s ∧ i ∈ s
  end.

(** The writes an offset is a claim about. *)
Definition claimed (w : World) (ns X : Z) (l : level) : Prop :=
  ∀ i wr, writes w !! i = Some wr → w_state wr = Acked → w_ns wr = ns → w_at wr < X → held w ns l i.

Definition flush_key (p : PreparedProgress) : Z * Z := (p_namespace p, p_version p).
Definition dead (w : World) (ns : Z) : Prop := ns ∈ ever w ∧ ns ∉ live w.
Definition applied_state (s : write_state) : Prop := s = Applied ∨ s = Acked.
Definition noted_state (s : write_state) : Prop := s = Noted ∨ s = Committed ∨ s = Applied ∨ s = Acked.

Record flush_ok (w : World) (p : PreparedProgress) : Prop := {
  fo_sealed : is_Some (sealed w !! flush_key p);
  fo_fresh : p_namespace p ∈ live w → fresh p = false;
  fo_folded : ∀ key, key ∈ folded p → key.1 = p_namespace p ∧ key.2 < default 0 (next_version w !! key.1);
  fo_unsealed : p_namespace p ∈ live w → ∀ key, key ∈ folded p → key ≠ flush_key p → sealed w !! key = None;
  fo_cut : m_cut (previous p) = m_cut (wal_metadata (obs w));
  fo_safe : m_safe (previous p) = m_safe (wal_metadata (obs w));
  fo_grows : m_cut (wal_metadata (obs w)) ≤ m_cut (snapshot p);
  fo_file : ∃ m, metadata_file (obs w) = Some m ∧ m_cut m = m_cut (snapshot p);
}.

Record claims_ok (w : World) : Prop := {
  co_ceiling : ∀ ns X l, claim (obs w) (flushing w) ns X l → X ≤ wal_cut_ceiling (obs w);
  co_claimed : ∀ ns X l, ns ∈ live w → claim (obs w) (flushing w) ns X l → claimed w ns X l;
  co_cut : 0 < m_cut (wal_metadata (obs w));
  co_pending : ∀ key st, pending (obs w) !! key = Some st → 0 < fs_tail st;
  co_sealed : ∀ ns v, ns ∈ live w → is_Some (sealed w !! (ns, v)) →
    ∃ st, pending (obs w) !! (ns, v) = Some st ∧ (flushed st = true ↔ flush_key <$> flushing w = Some (ns, v));
  co_versions : ∀ ns v, is_Some (sealed w !! (ns, v)) ∨ is_Some (pending (obs w) !! (ns, v)) → v < default 0 (next_version w !! ns);
  co_memory : ∀ i wr, writes w !! i = Some wr → applied_state (w_state wr) → w_ns wr ∈ live w →
    i ∈ memtable (active w) (w_ns wr) ∨ (∃ v s, sealed w !! (w_ns wr, v) = Some s ∧ i ∈ s) ∨ i ∈ tables w;
  co_noted : ∀ i wr, writes w !! i = Some wr → noted_state (w_state wr) → ¬ dead w (w_ns wr) → i ∉ tables w →
    ∃ p, ns_progress (obs w) !! w_ns wr = Some p ∧ w_end wr ≤ last_write_offset p;
  co_at : ∀ i wr, writes w !! i = Some wr → 0 ≤ w_at wr < w_end wr;
  co_ever : live w ⊆ ever w ∧ (∀ i wr, writes w !! i = Some wr → applied_state (w_state wr) → w_ns wr ∈ ever w) ∧
    (∀ ns v, is_Some (sealed w !! (ns, v)) → ns ∈ ever w);
  co_flush : ∀ p, flushing w = Some p → flush_ok w p;
  co_flight : (∀ i wr, writes w !! i = Some wr → flying (w_state wr) → in_flight (obs w) !! w_at wr = Some 1) ∧
    (∀ off, is_Some (in_flight (obs w) !! off) → ∃ i wr, writes w !! i = Some wr ∧ flying (w_state wr) ∧ w_at wr = off) ∧
    (∀ i j wri wrj, writes w !! i = Some wri → writes w !! j = Some wrj → flying (w_state wri) → flying (w_state wrj) →
      w_at wri = w_at wrj → i = j);
}.

(** ** Steps of writes *)

(** What a step of a write leaves alone. *)
Record same_upkeep (w w' : World) : Prop := {
  su_sealed : sealed w' = sealed w;
  su_tables : tables w' = tables w;
  su_versions : next_version w' = next_version w;
  su_live : live w' = live w;
  su_ever : ever w' = ever w;
  su_flushing : flushing w' = flushing w;
  su_cut : m_cut (wal_metadata (obs w')) = m_cut (wal_metadata (obs w));
  su_safe : m_safe (wal_metadata (obs w')) = m_safe (wal_metadata (obs w));
  su_file : metadata_file (obs w') = metadata_file (obs w);
  su_pending : pending (obs w') = pending (obs w);
}.

(** What is said of each write. *)
Record write_ok (w : World) (i : nat) (wr : Write) : Prop := {
  wo_at : 0 ≤ w_at wr < w_end wr;
  wo_memory : applied_state (w_state wr) → w_ns wr ∈ live w →
    i ∈ memtable (active w) (w_ns wr) ∨ (∃ v s, sealed w !! (w_ns wr, v) = Some s ∧ i ∈ s) ∨ i ∈ tables w;
  wo_ever : applied_state (w_state wr) → w_ns wr ∈ ever w;
  wo_noted : noted_state (w_state wr) → ¬ dead w (w_ns wr) → i ∉ tables w →
    ∃ p, ns_progress (obs w) !! w_ns wr = Some p ∧ w_end wr ≤ last_write_offset p;
}.

Lemma claims_write_ok w i wr : claims_ok w → writes w !! i = Some wr → write_ok w i wr.
Proof. intros Hw Hi. destruct (co_ever w Hw) as (_ & He & _). split; [by apply (co_at w Hw i)|by apply co_memory|by eapply He|by apply (co_noted w Hw i)]. Qed.

Definition flight_ok (w : World) : Prop :=
  (∀ i wr, writes w !! i = Some wr → flying (w_state wr) → in_flight (obs w) !! w_at wr = Some 1) ∧
  (∀ off, is_Some (in_flight (obs w) !! off) → ∃ i wr, writes w !! i = Some wr ∧ flying (w_state wr) ∧ w_at wr = off) ∧
  (∀ i j wri wrj, writes w !! i = Some wri → writes w !! j = Some wrj → flying (w_state wri) → flying (w_state wrj) →
    w_at wri = w_at wrj → i = j).

Lemma flush_ok_same w w' p : same_upkeep w w' → flush_ok w p → flush_ok w' p.
Proof.
  intros [] []. split; rewrite ?su_sealed0, ?su_live0, ?su_cut0, ?su_safe0, ?su_versions0, ?su_file0; done.
Qed.

(** The claims after a step of a write. *)
Definition progress_kept (w w' : World) : Prop :=
  ∀ ns p', ns_progress (obs w') !! ns = Some p' → safe_offset p' = 0 ∨ ∃ p, ns_progress (obs w) !! ns = Some p ∧ safe_offset p' = safe_offset p.

Lemma claim_write w w' : same_upkeep w w' → progress_kept w w' →
  ∀ ns X l, claim (obs w') (flushing w') ns X l → X = 0 ∨ claim (obs w) (flushing w) ns X l.
Proof.
  intros [] Hp ns X l Hc. destruct Hc as [|? H|p H| |? ? H1 H| | | |]; try destruct (Hp ns p H) as [?|(p1 & ? & ->)]; try (by left); right;
    rewrite ?su_cut0, ?su_safe0, ?su_file0, ?su_pending0, ?su_flushing0 in *; by econstructor.
Qed.

(** A step of a write keeps every claim: an acknowledgement it adds is above the ceiling. *)
Lemma claims_write w w' :
  claims_ok w → same_upkeep w w' →
  progress_kept w w' →
  wal_cut_ceiling (obs w) ≤ wal_cut_ceiling (obs w') →
  (∀ i wr', writes w' !! i = Some wr' → write_ok w' i wr' ∧
    (w_state wr' = Acked → writes w !! i = Some wr' ∨ wal_cut_ceiling (obs w) ≤ w_at wr')) →
  flight_ok w' → claims_ok w'.
Proof.
  intros Hw Hs Hp Hc Hwr Hf. pose proof Hs as [].
  pose proof (claim_write w w' Hs Hp) as Hcl.
  assert (∀ ns l i, held w ns l i → held w' ns l i) as Hh.
  { intros ns l i. destruct l; simpl; unfold on_disk, being_written; by rewrite ?su_tables0, ?su_flushing0, ?su_sealed0. }
  split.
  - intros ns X l H. destruct (Hcl _ _ _ H) as [->|H']; [|pose proof (co_ceiling w Hw _ _ _ H'); lia].
    pose proof (co_ceiling w Hw 0 _ _ (c_cut _ _ _)). pose proof (co_cut w Hw). lia.
  - intros ns X l Hl H i wr Hi Ha Hn Hlt. rewrite su_live0 in Hl. destruct (Hwr i wr Hi) as [Hok Hack].
    destruct (Hcl _ _ _ H) as [->|H']; [destruct (wo_at _ _ _ Hok); lia|]. destruct (Hack Ha) as [Hi'|Habove].
    + apply Hh. by eapply (co_claimed w Hw ns X l).
    + pose proof (co_ceiling w Hw _ _ _ H'). lia.
  - rewrite su_cut0. apply Hw.
  - rewrite su_pending0. apply Hw.
  - intros ns v. rewrite su_live0, su_sealed0, su_pending0, su_flushing0. apply Hw.
  - intros ns v. rewrite su_sealed0, su_pending0, su_versions0. apply Hw.
  - intros i wr Hi. apply (Hwr i wr Hi).
  - intros i wr Hi. apply (Hwr i wr Hi).
  - intros i wr Hi. apply (Hwr i wr Hi).
  - split; [|split].
    + rewrite su_live0, su_ever0. apply Hw.
    + intros i wr Hi. apply (Hwr i wr Hi).
    + intros ns v. rewrite su_sealed0, su_ever0. apply Hw.
  - intros p Hfl. rewrite su_flushing0 in Hfl. eapply flush_ok_same; [done|]. by apply Hw.
  - exact Hf.
Qed.

(** ** The log *)

Section log_inv.
Context `{CrcLaws} `{RkyvEntryLaws}.

Record log_write_ok (w : World) (es : list (WalPointer * WalEntry)) (wr : Write) : Prop := {
  lw_size : w_at wr + frame_size (w_ptr wr) ≤ w_end wr;
  lw_flying : flying (w_state wr) → (w_ptr wr, w_entry wr) ∈ es ∧ w_end wr ≤ m_tail (wal_metadata (obs w));
  lw_durable : w_state wr = Committed ∨ w_state wr = Applied ∨ w_state wr = Unapplied → w_end wr ≤ log_durable (wal (obs w));
}.

(** Of a log that is not poisoned, what is not durable is in flight. *)
Definition undurable_flies (w : World) (es : list (WalPointer * WalEntry)) : Prop :=
  poisoned (rounds (wal (obs w))) = None → ∀ pe, pe ∈ es →
    offset pe.1 + frame_size pe.1 ≤ log_durable (wal (obs w)) ∨ ∃ i wr, writes w !! i = Some wr ∧ flying (w_state wr) ∧ w_ptr wr = pe.1.

(** The log holds the entries [es] from segment [base] on: those of all writes in flight, and
    of the acknowledged ones not yet in tables, which are durable; every offset the progress
    keeps is one where records start or end. *)
Record log_inv (w : World) (base : Z) (es : list (WalPointer * WalEntry)) : Prop := {
  li_holds : holds_from (wal (obs w)) base es;
  li_tail : m_tail (wal_metadata (obs w)) ≤ tail (wal (obs w));
  li_ends : ∀ pe, pe ∈ es → offset pe.1 + frame_size pe.1 ≤ m_tail (wal_metadata (obs w));
  li_write : ∀ i wr, writes w !! i = Some wr → log_write_ok w es wr;
  li_acked : ∀ i wr, writes w !! i = Some wr → w_state wr = Acked → w_ns wr ∈ live w → i ∉ tables w →
    (w_ptr wr, w_entry wr) ∈ es ∧ w_at wr + frame_size (w_ptr wr) ≤ log_durable (wal (obs w));
  li_place : ∀ ns X l, claim (obs w) (flushing w) ns X l →
    X = 0 ∨ X < m_cut (wal_metadata (obs w)) ∨ place (wal (obs w)) base es X;
  li_mtail : place (wal (obs w)) base es (m_tail (wal_metadata (obs w)));
  li_cut : m_cut (wal_metadata (obs w)) ≤ default (segment_start 0) (m_cut <$> metadata_file (obs w));
  li_durable : undurable_flies w es;
}.

(** A step of a write keeps the log. *)
Lemma log_write w w' base es es' :
  log_inv w base es → same_upkeep w w' →
  progress_kept w w' →
  holds_from (wal (obs w')) base es' → (∀ pe, pe ∈ es → pe ∈ es') →
  tail (wal (obs w)) ≤ tail (wal (obs w')) → log_durable (wal (obs w)) ≤ log_durable (wal (obs w')) →
  m_tail (wal_metadata (obs w')) ≤ tail (wal (obs w')) → place (wal (obs w')) base es' (m_tail (wal_metadata (obs w'))) →
  (∀ pe, pe ∈ es' → offset pe.1 + frame_size pe.1 ≤ m_tail (wal_metadata (obs w'))) →
  (∀ i wr', writes w' !! i = Some wr' → log_write_ok w' es' wr' ∧
    (w_state wr' = Acked → writes w !! i = Some wr' ∨
      ((w_ptr wr', w_entry wr') ∈ es' ∧ w_at wr' + frame_size (w_ptr wr') ≤ log_durable (wal (obs w'))))) →
  undurable_flies w' es' → log_inv w' base es'.
Proof using.
  intros Hl Hs Hp Hh Hes Ht Hd Hm Hpl He Hw Hu. pose proof Hs as []. split; [done|done|done| | | |done| |done].
  - intros i wr Hi. by apply (Hw i wr Hi).
  - intros i wr Hi Ha Hn Hti. rewrite su_live0 in Hn. rewrite su_tables0 in Hti. destruct (Hw i wr Hi) as [_ Hack]. destruct (Hack Ha) as [Hi'|?]; [|done].
    destruct (li_acked _ _ _ Hl i wr Hi' Ha Hn Hti). split; [by apply Hes|lia].
  - intros ns X l Hc. rewrite su_cut0.
    destruct (claim_write w w' Hs Hp _ _ _ Hc) as [?|Hc'].
    + by left.
    + destruct (li_place _ _ _ Hl _ _ _ Hc') as [?|[?|Hx]]; [by left|by right; left|right; right].
      eapply place_mono; [done|done|apply Hx|]. intros pe Hpe _. by apply Hes.
  - rewrite su_cut0, su_file0. apply Hl.
Qed.
End log_inv.
