(* ===== verification/WalUpkeep.v ===== *)
(** * WalUpkeep: flushes, saves and garbage collection keep the invariant

    The upkeep steps of [WalRetire] against [claims_ok] and [log_inv]. *)
From S2P Require Import Prelude Slices Bytes CommitRounds LogProgress SegmentedLog LogFrames LogOpen LogWrites LogReads LogSpec Wal.
From S2P Require Import WalObserver WalRetire WalInvariant.

(** ** Every step of the database keeps its invariant

    The steps of [WalRetire] against [claims_ok] and [log_inv]. *)

#[local] Open Scope minnal_scope.

Section steps.
Context `{CrcLaws} `{RkyvEntryLaws}.

Definition db_inv (w : World) : Prop := claims_ok w ∧ ∃ base es, log_inv w base es.

(** ** Writes *)

(** What appending does to the observer. *)
Lemma append_write_spec io entry o o' r :
  append_write io entry o = Some (o', r) →
  (∃ e, r = Err e ∧ o' = o) ∨
  ∃ log' t' r', append_entry io (wal o) (with_sequence (next_seq o) entry) (m_tail (wal_metadata o)) = (log', t', r') ∧
    wal o' = log' ∧ wal_metadata o' = with_tail t' (wal_metadata o) ∧ metadata_file o' = metadata_file o ∧
    pending o' = pending o ∧ ns_progress o' = ns_progress o ∧ poisoned (rounds (wal o)) = None ∧
    match r' with
    | Ok ptr => r = Ok (ptr, with_sequence (next_seq o) entry) ∧
        in_flight o' = <[offset ptr := default 0 (in_flight o !! offset ptr) + 1]> (in_flight o)
    | Err e => r = Err e ∧ in_flight o' = in_flight o
    end.
Proof using.
  unfold append_write. destruct (log_check_poisoned (wal o)) eqn:Hp; [|intros [= <- <-]; left; by eexists].
  unfold log_check_poisoned, check_poisoned in Hp. destruct (poisoned (rounds (wal o))) eqn:Hpo; [done|].
  destruct (next_seq o =? 2 ^ 64 - 1); [done|]. cbn [wal set_next_seq wal_metadata].
  destruct (append_entry io (wal o) _ _) as [[log' t'] r'] eqn:Ha. intros Hr. right. exists log', t', r'. split; [done|].
  destruct r' as [ptr|e]; injection Hr as <- <-; done.
Qed.

Lemma lookup_snoc {A} (l : list A) x i y : (l ++ [x]) !! i = Some y → l !! i = Some y ∨ (i = length l ∧ y = x).
Proof using. intros [Hi|[Hi Hx]]%lookup_app_Some; [by left|right]. apply list_lookup_singleton_Some in Hx as [? ->]. split; [lia|done]. Qed.

Lemma append_inv w io entry o ptr e :
  db_inv w → io_ok FORMAT io (active_segment (wal (obs w)) + 1) → append_write io entry (obs w) = Some (o, Ok (ptr, e)) →
  db_inv (mk_World o (writes w ++ [mk_Write ptr e (m_tail (wal_metadata o)) Appended]) (active w) (sealed w) (tables w)
            (next_version w) (live w) (ever w) (flushing w)).
Proof using All.
  intros [Hc (base & es & Hl)] Hio Ha. set (w' := mk_World _ _ _ _ _ _ _ _ _).
  destruct (append_write_spec _ _ _ _ _ Ha) as [(? & ? & _)|(log' & t' & r' & Hap & Hw & Hm & Hf & Hp & Hn & Hpo & Hr)]; [done|].
  destruct r' as [ptr'|]; [|by destruct Hr]. destruct Hr as [[= <- ->] Hfl].
  destruct (append_entry_spec _ base es _ _ _ _ _ _ (li_holds _ _ _ Hl) Hio Hap) as (Hd & Htl & Hh & Hoff & Ht'). cbn beta iota in *.
  set (e := with_sequence (next_seq (obs w)) entry) in *. pose proof (li_tail _ _ _ Hl) as Hmt.
  assert (m_tail (wal_metadata o) = t') as Hmo by by rewrite Hm.
  assert (same_upkeep w w') as Hs by (split; simpl; rewrite ?Hm; done).
  assert (progress_kept w w') as Hpk by (intros ns p' Hns; simpl in Hns; rewrite Hn in Hns; right; eauto).
  destruct (holds_sorted log' (es ++ [(ptr, e)])) as [_ Hends]; [by exists base|]. rewrite Forall_forall in Hends.
  destruct (Hends (ptr, e)) as [Hsz Hend]; [apply elem_of_app; right; left|]. cbn [fst] in *.
  pose proof (ceiling_self (obs w)) as [Hc1 Hc2].
  assert (wal_cut_ceiling (obs w) ≤ wal_cut_ceiling o) as Hceil.
  { apply wal_cut_ceiling_le. split; [lia|]. intros off. rewrite Hfl, lookup_insert_is_Some. intros [<-|[_ Hoff']]; [lia|by apply Hc2]. }
  pose proof (co_flight w Hc) as (F1 & F2 & F3).
  assert (∀ i wr, writes w !! i = Some wr → flying (w_state wr) → w_at wr < offset ptr) as Hbelow.
  { intros i wr Hi Hfi. destruct (lw_flying _ _ _ (li_write _ _ _ Hl i wr Hi) Hfi) as [_ ?]. destruct (co_at w Hc i wr Hi). lia. }
  split; [|exists base, (es ++ [(ptr, e)])].
  - apply (claims_write w); [done|done|done|done| |].
    + intros i wr [Hi|[-> ->]]%lookup_snoc.
      * split; [|by left]. destruct (claims_write_ok w i wr Hc Hi). split; try done. simpl. by rewrite Hn.
      * split; [|done]. split; simpl; try (by intros [|]); [unfold w_at; simpl; rewrite Hmo; lia|]. by intros [|[|[|]]].
    + split; [|split]; simpl.
      * intros i wr [Hi|[-> ->]]%lookup_snoc Hfi; rewrite Hfl.
        -- rewrite lookup_insert_ne; [by eapply F1|]. specialize (Hbelow _ _ Hi Hfi). lia.
        -- unfold w_at. simpl. rewrite lookup_insert_eq. destruct (in_flight (obs w) !! offset ptr) as [n|] eqn:Hn'; [|done].
           destruct (F2 (offset ptr)) as (j & wrj & Hj & Hfj & Hat); [by rewrite Hn'|]. specialize (Hbelow _ _ Hj Hfj). lia.
      * intros off. rewrite Hfl, lookup_insert_is_Some. intros [<-|[_ Hoff']].
        -- eexists (length (writes w)), _. split; [by apply list_lookup_middle|]. done.
        -- destruct (F2 off Hoff') as (i & wr & Hi & ?). exists i, wr. split; [by apply lookup_app_l_Some|done].
      * intros i j wri wrj [Hi|[-> ->]]%lookup_snoc [Hj|[-> ->]]%lookup_snoc Hgi Hgj Hat; [by eapply F3|..|done].
        -- specialize (Hbelow _ _ Hi Hgi). unfold w_at in *. simpl in *. lia.
        -- specialize (Hbelow _ _ Hj Hgj). unfold w_at in *. simpl in *. lia.
  - apply (log_write w w' base es); simpl; rewrite ?Hw, ?Hmo; try done; try lia.
    + intros pe Hpe. apply elem_of_app. by left.
    + rewrite Ht'. by apply place_tail.
    + intros pe Hpe. destruct (Hends pe Hpe). lia.
    + intros i wr [Hi|[-> ->]]%lookup_snoc.
      * split; [|by left]. destruct (li_write _ _ _ Hl i wr Hi) as [Hsz' Hfly Hdur]. split; [done| |]; simpl; rewrite ?Hw, ?Hmo.
        -- intros Hfi. destruct (Hfly Hfi). split; [apply elem_of_app; by left|lia].
        -- intros Hst. specialize (Hdur Hst). lia.
      * split; [|done]. split; simpl; unfold w_at; simpl; rewrite ?Hmo; [lia| |by intros [|[|]]]. intros _. split; [apply elem_of_app; right; left|lia].
    + intros _ pe [Hpe| ->%list_elem_of_singleton]%elem_of_app; simpl; rewrite ?Hw.
      * destruct (li_durable _ _ _ Hl Hpo pe Hpe) as [?|(i & wr & Hi & ?)]; [left; lia|right]. exists i, wr. split; [by apply lookup_app_l_Some|done].
      * right. eexists (length (writes w)), _. split; [by apply list_lookup_middle|]. done.
Qed.

Lemma append_failed_inv w io entry o e :
  db_inv w → io_ok FORMAT io (active_segment (wal (obs w)) + 1) → append_write io entry (obs w) = Some (o, Err e) → db_inv (set_obs w o).
Proof using All.
  intros [Hc (base & es & Hl)] Hio Ha.
  destruct (append_write_spec _ _ _ _ _ Ha) as [(? & _ & ->)|(log' & t' & r' & Hap & Hw & Hm & Hf & Hp & Hn & Hpo & Hr)].
  { replace (set_obs w (obs w)) with w by (by destruct w). split; [done|by exists base, es]. }
  destruct r' as [|e']; [by destruct Hr as [[=] _]|]. destruct Hr as [_ Hfl].
  destruct (append_entry_spec _ base es _ _ _ _ _ _ (li_holds _ _ _ Hl) Hio Hap) as (Hd & Htl & Hh & ->).
  assert (wal_metadata o = wal_metadata (obs w)) as Hm' by (rewrite Hm; by destruct (wal_metadata (obs w))).
  assert (same_upkeep w (set_obs w o)) as Hs by (split; simpl; rewrite ?Hm'; done).
  assert (progress_kept w (set_obs w o)) as Hpk by (intros ns p' Hns; simpl in Hns; rewrite Hn in Hns; right; eauto).
  split; [|exists base, es].
  - apply (claims_write w); [done|done|done| | |].
    + unfold wal_cut_ceiling. simpl. by rewrite Hm', Hfl.
    + intros i wr Hi. split; [|by left]. destruct (claims_write_ok w i wr Hc Hi). split; try done. simpl. by rewrite Hn.
    + unfold flight_ok. simpl. rewrite Hfl. apply (co_flight w Hc).
  - pose proof (li_tail _ _ _ Hl). apply (log_write w _ base es); simpl; rewrite ?Hw, ?Hm'; try done; try lia.
    + eapply place_mono; [apply Hl|lia|apply Hl|done].
    + apply Hl.
    + intros i wr Hi. split; [|by left]. destruct (li_write _ _ _ Hl i wr Hi) as [Hsz' Hfly Hdur]. split; simpl; rewrite ?Hw, ?Hm'; [done|done|].
      intros Hst. specialize (Hdur Hst). lia.
    + intros _ pe Hpe. simpl. rewrite Hw. destruct (li_durable _ _ _ Hl Hpo pe Hpe) as [?|?]; [left; lia|by right].
Qed.

(** *** Moving one write on *)

Lemma insert_cases {A} (l : list A) i x j y : <[i := x]> l !! j = Some y → (j = i ∧ y = x) ∨ (j ≠ i ∧ l !! j = Some y).
Proof using. intros [(<- & <- & _)|[Hne Hj]]%list_lookup_insert_Some; [by left|right; done]. Qed.

(** Its state changes and it stays in flight, or it lands. *)
Lemma flight_stays w w' i wr s :
  flight_ok w → writes w !! i = Some wr → flying (w_state wr) → flying s →
  writes w' = <[i := moved wr s]> (writes w) → in_flight (obs w') = in_flight (obs w) → flight_ok w'.
Proof using.
  intros (F1 & F2 & F3) Hi Hf Hs Hw Hfl. unfold flight_ok. rewrite Hw, Hfl. split; [|split].
  - intros j wrj [[-> ->]|[Hne Hj]]%insert_cases Hfj; [exact (F1 i wr Hi Hf)|by apply (F1 j)].
  - intros off (j & wrj & Hj & Hfj & Hat)%F2. destruct (decide (j = i)) as [->|Hne].
    + exists i, (moved wr s). rewrite Hi in Hj. simplify_eq. split; [|done]. apply list_lookup_insert_eq. by eapply lookup_lt_Some.
    + exists j, wrj. by rewrite list_lookup_insert_ne by done.
  - intros a b wra wrb [[-> ->]|[? Ha]]%insert_cases [[-> ->]|[? Hb]]%insert_cases Hfa Hfb Hat; [done|by eapply F3|by eapply F3|by eapply F3].
Qed.

Lemma flight_lands w w' i wr s :
  flight_ok w → writes w !! i = Some wr → flying (w_state wr) → flying s = false →
  writes w' = <[i := moved wr s]> (writes w) → in_flight (obs w') = delete (w_at wr) (in_flight (obs w)) → flight_ok w'.
Proof using.
  intros (F1 & F2 & F3) Hi Hf Hs Hw Hfl. unfold flight_ok. rewrite Hw, Hfl. split; [|split].
  - intros j wrj [[-> ->]|[Hne Hj]]%insert_cases Hfj; [simpl in Hfj; by rewrite Hs in Hfj|].
    rewrite lookup_delete_ne; [by apply (F1 j)|]. intros Heq. apply Hne. by apply (F3 j i wrj wr).
  - intros off. rewrite lookup_delete_is_Some. intros [Hne (j & wrj & Hj & Hfj & Hat)%F2]. exists j, wrj. split; [|done].
    rewrite list_lookup_insert_ne; [done|]. intros <-. rewrite Hi in Hj. simplify_eq.
  - intros a b wra wrb [[-> ->]|[? Ha]]%insert_cases [[-> ->]|[? Hb]]%insert_cases Hfa Hfb Hat;
      [simpl in Hfa; by rewrite Hs in Hfa|simpl in Hfa; by rewrite Hs in Hfa|simpl in Hfb; by rewrite Hs in Hfb|by eapply F3].
Qed.

Lemma end_write_flight w o i wr : flight_ok w → in_flight o = in_flight (obs w) → writes w !! i = Some wr → flying (w_state wr) →
  end_write (w_at wr) o = set_in_flight o (delete (w_at wr) (in_flight (obs w))).
Proof using. intros (F1 & _) Ho Hi Hf. unfold end_write. rewrite Ho, (F1 i wr Hi Hf). done. Qed.

Lemma ceiling_lands o o' off : in_flight o' = delete off (in_flight o) → m_tail (wal_metadata o) ≤ m_tail (wal_metadata o') →
  wal_cut_ceiling o ≤ wal_cut_ceiling o'.
Proof using.
  intros Hf Hm. apply wal_cut_ceiling_le. pose proof (ceiling_self o) as [Hc1 Hc2]. split; [lia|].
  intros off'. rewrite Hf, lookup_delete_is_Some. intros [_ Ho]. by apply Hc2.
Qed.

(** A step that moves one write on, the log's records and the progress's claims as they were. *)
Lemma move_inv w w' i wr s :
  db_inv w → writes w !! i = Some wr → flying (w_state wr) → writes w' = <[i := moved wr s]> (writes w) → same_upkeep w w' → progress_kept w w' →
  (∀ ns p, ns_progress (obs w) !! ns = Some p → ∃ p', ns_progress (obs w') !! ns = Some p' ∧ last_write_offset p ≤ last_write_offset p') →
  (∀ ns, memtable (active w) ns ⊆ memtable (active w') ns) →
  m_tail (wal_metadata (obs w')) = m_tail (wal_metadata (obs w)) →
  in_flight (obs w') = (if flying s then in_flight (obs w) else delete (w_at wr) (in_flight (obs w))) →
  (∀ base es, holds_from (wal (obs w)) base es → holds_from (wal (obs w')) base es) → tail (wal (obs w')) = tail (wal (obs w)) →
  log_durable (wal (obs w)) ≤ log_durable (wal (obs w')) →
  (applied_state s → w_ns wr ∈ live w →
    i ∈ memtable (active w') (w_ns wr) ∨ (∃ v t, sealed w !! (w_ns wr, v) = Some t ∧ i ∈ t) ∨ i ∈ tables w) →
  (applied_state s → w_ns wr ∈ ever w) →
  (noted_state s → ¬ dead w (w_ns wr) → i ∉ tables w → ∃ p, ns_progress (obs w') !! w_ns wr = Some p ∧ w_end wr ≤ last_write_offset p) →
  (s = Committed ∨ s = Applied ∨ s = Unapplied ∨ s = Acked → w_end wr ≤ log_durable (wal (obs w'))) →
  (poisoned (rounds (wal (obs w'))) = None → poisoned (rounds (wal (obs w))) = None ∧ (flying s ∨ w_end wr ≤ log_durable (wal (obs w')))) →
  db_inv w'.
Proof using All.
  intros [Hc (base & es & Hl)] Hi Hfly Hw Hs Hpk Hlast Hact Hmt Hfl Hh Ht Hd Hmem Hev Hnot Hdur Hpo. pose proof Hs as [Esl Etb Env Elv Eev Efl Ect Esf Efi Epd].
  pose proof (co_flight w Hc) as Hfo.
  assert (wal_cut_ceiling (obs w) ≤ wal_cut_ceiling (obs w')) as Hceil.
  { destruct (flying s); [unfold wal_cut_ceiling; by rewrite Hfl, Hmt|]. eapply ceiling_lands; [exact Hfl|lia]. }
  destruct (lw_flying _ _ _ (li_write _ _ _ Hl i wr Hi) Hfly) as [Hin Hend].
  split; [|exists base, es].
  - apply (claims_write w); [done|done|done|done| |].
    + intros j wrj. rewrite Hw. intros [[-> ->]|[Hne Hj]]%insert_cases.
      * split.
        -- split; simpl; [exact (co_at w Hc i wr Hi)| |by rewrite Eev|].
           ++ rewrite Elv, Esl, Etb. done.
           ++ unfold dead. rewrite Elv, Eev, Etb. done.
        -- intros _. right. apply (ceiling_self (obs w)). destruct Hfo as (F1 & _). exists 1. exact (F1 i wr Hi Hfly).
      * split; [|by left]. destruct (claims_write_ok w j wrj Hc Hj) as [W1 W2 W3 W4].
        split; [done| |by rewrite Eev|].
        -- rewrite Elv, Esl, Etb. intros Ha Hn. destruct (W2 Ha Hn) as [Hm|?]; [left; by apply Hact|by right].
        -- unfold dead. rewrite Elv, Eev, Etb. intros Ha Hn Hti. destruct (W4 Ha Hn Hti) as (p & Hp & Hle).
           destruct (Hlast _ _ Hp) as (p' & Hp' & ?). exists p'. split; [done|lia].
    + destruct (flying s) eqn:Hfs; [apply (flight_stays w w' i wr s)|apply (flight_lands w w' i wr s)]; by rewrite ?Hfs.
  - apply (log_write w w' base es); try done; rewrite ?Ht, ?Hmt; try apply Hl; try lia.
    + by apply Hh, Hl.
    + pose proof (li_mtail _ _ _ Hl) as Hp. eapply place_mono; [exact Hp|by rewrite Ht|apply Hp|done].
    + intros j wrj. rewrite Hw. intros [[-> ->]|[Hne Hj]]%insert_cases.
      * pose proof (lw_size _ _ _ (li_write _ _ _ Hl i wr Hi)) as Hsz. split.
        -- split; [exact Hsz|by rewrite Hmt|simpl; tauto].
        -- intros Hs'. right. split; [exact Hin|]. simpl in Hs'. specialize (Hdur ltac:(tauto)). unfold w_at in *. simpl. lia.
      * split; [|by left]. destruct (li_write _ _ _ Hl j wrj Hj) as [L1 L2 L3]. split; [done|by rewrite Hmt|]. intros Hst. specialize (L3 Hst). lia.
    + intros Hp' pe Hpe. destruct (Hpo Hp') as [Hp Hlands]. destruct (li_durable _ _ _ Hl Hp pe Hpe) as [?|(j & wrj & Hj & Hfj & Hpj)]; [left; lia|].
      rewrite Hw. destruct (decide (j = i)) as [->|Hne].
      * rewrite Hi in Hj. injection Hj as <-. destruct Hlands as [Hfs|Hle].
        -- right. exists i, (moved wr s). split; [|done]. apply list_lookup_insert_eq. by eapply lookup_lt_Some.
        -- left. pose proof (lw_size _ _ _ (li_write _ _ _ Hl i wr Hi)) as Hsz. unfold w_at in Hsz. rewrite Hpj in Hsz. lia.
      * right. exists j, wrj. by rewrite list_lookup_insert_ne by done.
Qed.

(** *** The steps *)

Lemma progress_same w w' : ns_progress (obs w') = ns_progress (obs w) →
  progress_kept w w' ∧ ∀ ns p, ns_progress (obs w) !! ns = Some p →
    ∃ p', ns_progress (obs w') !! ns = Some p' ∧ last_write_offset p ≤ last_write_offset p'.
Proof using. intros Hp. unfold progress_kept. rewrite Hp. split; [eauto|]. intros ns p Hn. exists p. split; [done|lia]. Qed.

Lemma note_inv w i wr : db_inv w → writes w !! i = Some wr → w_state wr = Appended → db_inv (note i wr w).
Proof using All.
  intros Hw Hi Hs. pose proof Hw as [Hc _]. apply (move_inv w _ i wr Noted); try done.
  - by rewrite Hs.
  - intros ns p'. simpl. rewrite lookup_insert_Some. intros [[<- <-]|[_ Hp]]; [|right; eauto].
    destruct (ns_progress (obs w) !! w_ns wr) as [p|] eqn:Hp; [right; exists p; done|by left].
  - intros ns p Hp. simpl. destruct (decide (ns = w_ns wr)) as [->|Hne].
    + rewrite lookup_insert_eq, Hp. eexists. split; [done|]. simpl. lia.
    + rewrite lookup_insert_ne by done. exists p. split; [done|lia].
  - by intros [|].
  - by intros [|].
  - intros _ _ _. simpl. rewrite lookup_insert_eq. eexists. split; [done|]. simpl. lia.
  - by intros [|[|[|]]].
  - intros Hp. split; [exact Hp|by left].
Qed.

Lemma commit_inv w i wr fsync o ok :
  db_inv w → writes w !! i = Some wr → w_state wr = Noted → commit_wal (w_end wr) fsync (obs w) = Some (o, ok) → db_inv (committed i wr o ok w).
Proof using All.
  intros Hw Hi Hs Hcm. pose proof Hw as [Hc (base & es & Hl)]. assert (flying (w_state wr)) as Hf by by rewrite Hs.
  destruct (lw_flying _ _ _ (li_write _ _ _ Hl i wr Hi) Hf) as [_ Hend]. pose proof (li_tail _ _ _ Hl) as Hmt.
  assert (w_end wr ≤ tail (wal (obs w))) as Het by lia.
  unfold commit_wal in Hcm. destruct (commit _ _ _) as [[log r]|] eqn:Hco; [|done]. injection Hcm as <- <-.
  destruct (holds_commit _ base es _ _ _ _ (li_holds _ _ _ Hl) Het Hco) as (Hh & Ht & [Hd _] & Hok).
  assert (∀ base' es', holds_from (wal (obs w)) base' es' → holds_from log base' es') as Hkeep.
  { intros b' e' Hh'. by destruct (holds_commit _ b' e' _ _ _ _ Hh' Het Hco) as (? & _). }
  unfold committed. destruct (is_ok r).
  - destruct Hok as [Hok Hpo]. apply (move_inv w _ i wr Committed); try done; try (by apply progress_same); try (by intros [|]).
    + intros _ Hn Hti. apply (co_noted w Hc i wr Hi); [by left|done|done].
    + intros _. split; [done|by left].
  - rewrite (end_write_flight w _ i wr (co_flight w Hc)) by done.
    apply (move_inv w _ i wr Refused); try done; try (by apply progress_same); try (by intros [|]); try (by intros [|[|]]); by intros [|[|[|]]].
Qed.

Lemma apply_inv w i wr ok : db_inv w → writes w !! i = Some wr → w_state wr = Committed → db_inv (apply i wr ok w).
Proof using All.
  intros Hw Hi Hs. pose proof Hw as [Hc (base & es & Hl)]. assert (flying (w_state wr)) as Hf by by rewrite Hs.
  pose proof (lw_durable _ _ _ (li_write _ _ _ Hl i wr Hi) (or_introl Hs)) as Hdur. unfold apply.
  destruct (bool_decide_reflect (w_ns wr ∈ live w)) as [Hn|Hn]; cbn [negb].
  2:{ rewrite (end_write_flight w _ i wr (co_flight w Hc)) by done.
      apply (move_inv w _ i wr Refused); try done; try (by apply progress_same); try (by intros [|]); try (by intros [|[|]]); try (by intros [|[|[|]]]).
      intros Hp. split; [exact Hp|right; exact Hdur]. }
  destruct ok.
  - apply (move_inv w _ i wr Applied); try done; try (by apply progress_same).
    + intros ns. unfold memtable. simpl. destruct (decide (ns = w_ns wr)) as [->|Hne].
      * rewrite lookup_insert_eq. simpl. set_solver.
      * by rewrite lookup_insert_ne.
    + intros _ _. left. unfold memtable. simpl. rewrite lookup_insert_eq. simpl. set_solver.
    + intros _. destruct (co_ever w Hc) as (He & _). by apply He.
    + intros _ Hnd Hti. apply (co_noted w Hc i wr Hi); [right; by left|done|done].
    + intros Hp. split; [exact Hp|by left].
  - apply (move_inv w _ i wr Unapplied); try done; try (by apply progress_same); try (by intros [|]); try (by intros [|[|[|]]]).
    intros Hp. split; [exact Hp|by left].
Qed.

Lemma return_inv w i wr : db_inv w → writes w !! i = Some wr → w_state wr = Applied ∨ w_state wr = Unapplied → db_inv (return_ i wr w).
Proof using All.
  intros Hw Hi Hs. pose proof Hw as [Hc (base & es & Hl)]. assert (flying (w_state wr)) as Hf by by destruct Hs as [-> | ->].
  assert (w_end wr ≤ log_durable (wal (obs w))) as Hdur by (apply (lw_durable _ _ _ (li_write _ _ _ Hl i wr Hi)); tauto).
  unfold return_. rewrite (end_write_flight w _ i wr (co_flight w Hc)) by done. destruct (decide (w_state wr = Applied)) as [Ha|Ha].
  - apply (move_inv w _ i wr Acked); try done; try (by apply progress_same).
    + intros _ Hn. apply (co_memory w Hc i wr Hi); [by left|done].
    + intros _. destruct (co_ever w Hc) as (_ & He & _). apply (He i wr Hi). by left.
    + intros _ Hnd Hti. apply (co_noted w Hc i wr Hi); [right; right; by left|done|done].
    + intros Hp. split; [exact Hp|right; exact Hdur].
  - apply (move_inv w _ i wr AckedUnapplied); try done; try (by apply progress_same); try (by intros [|]); try (by intros [|[|]]);
      try (by intros [|[|[|]]]).
    intros Hp. split; [exact Hp|right; exact Hdur].
Qed.

Lemma write_step_inv w w' : db_inv w → write_step w w' → db_inv w'.
Proof using All.
  intros Hw [].
  - by eapply append_inv.
  - by eapply append_failed_inv.
  - by apply note_inv.
  - by eapply commit_inv.
  - by apply apply_inv.
  - by apply return_inv.
Qed.
End steps.

(** ** Flushes, saves and garbage collection keep the invariant *)

#[local] Open Scope minnal_scope.

(** ** Pending seal records *)

Lemma versions_of_spec (ns : Z) (pend : gmap (Z * Z) WalFlushState) :
  StronglySorted Z.le (versions_of ns pend) ∧ ∀ v, v ∈ versions_of ns pend ↔ is_Some (pend !! (ns, v)).
Proof.
  unfold versions_of. split; [apply (StronglySorted_merge_sort _)|]. intros v.
  rewrite merge_sort_Permutation, list_elem_of_fmap. split.
  - intros ([n' v'] & -> & Hin). apply list_elem_of_filter in Hin as [Hn Hin]. simpl in Hn. subst n'.
    apply list_elem_of_fmap in Hin as ([k st] & Hk & Hin). apply elem_of_map_to_list in Hin. simpl in *. subst k. by exists st.
  - intros [st Hst]. exists (ns, v). split; [done|]. apply list_elem_of_filter. split; [done|]. apply list_elem_of_fmap.
    exists ((ns, v), st). split; [done|]. by apply elem_of_map_to_list.
Qed.

(** What a flush folds: flushed seal records, with every earlier one, and the highest tail. *)
Record fold_ok (ns : Z) (pend : gmap (Z * Z) WalFlushState) (folded : list (Z * Z)) (new_safe : Z) : Prop := {
  fk_key : ∀ key, key ∈ folded → key.1 = ns ∧ ∃ st, pend !! key = Some st ∧ flushed st = true ∧ fs_tail st ≤ new_safe;
  fk_below : ∀ v v', (ns, v) ∈ folded → v' ≤ v → is_Some (pend !! (ns, v')) → (ns, v') ∈ folded;
  fk_safe : new_safe = 0 ∨ ∃ key st, key ∈ folded ∧ pend !! key = Some st ∧ new_safe = fs_tail st;
}.

Lemma fold_flushed_spec (ns : Z) pend vs done_ folded new_safe :
  versions_of ns pend = done_ ++ vs → folded = (λ v, (ns, v)) <$> done_ → 0 ≤ new_safe →
  (∀ v, v ∈ done_ → ∃ st, pend !! (ns, v) = Some st ∧ flushed st = true ∧ fs_tail st ≤ new_safe) →
  (new_safe = 0 ∨ ∃ key st, key ∈ folded ∧ pend !! key = Some st ∧ new_safe = fs_tail st) →
  let r := fold_flushed ns pend vs folded new_safe in fold_ok ns pend r.1 r.2 ∧ 0 ≤ r.2.
Proof.
  destruct (versions_of_spec ns pend) as [Hsort Hin]. revert done_ folded new_safe. induction vs as [|v vs IH]; intros done_ folded new_safe Hvs -> H0 Hd Hs.
  - rewrite app_nil_r in Hvs. split; [|done]. split; cbn [fst snd fold_flushed].
    + intros key (v & -> & Hv)%list_elem_of_fmap. split; [done|]. by apply Hd.
    + intros v v' _ _ Hp. apply list_elem_of_fmap. exists v'. split; [done|]. rewrite <-Hvs. by apply Hin.
    + done.
  - assert (v ∈ versions_of ns pend) as [st Hst]%Hin by (rewrite Hvs; apply elem_of_app; right; left).
    cbn [fold_flushed]. rewrite Hst. destruct (flushed st) eqn:Hf.
    + apply (IH (done_ ++ [v])).
      * by rewrite Hvs, <-app_assoc.
      * by rewrite fmap_app.
      * lia.
      * intros u [Hu|Hu%list_elem_of_singleton]%elem_of_app; [|subst u; exists st; split; [done|split; [done|lia]]].
        destruct (Hd u Hu) as (st' & ? & ? & ?). exists st'. split; [done|]. split; [done|lia].
      * destruct (Z.max_spec new_safe (fs_tail st)) as [[_ ->]|[_ ->]].
        -- right. exists (ns, v), st. split; [apply elem_of_app; right; left|done].
        -- destruct Hs as [?|(key & st' & Hk & ?)]; [by left|right]. exists key, st'. split; [apply elem_of_app; by left|done].
    + split; [|done]. split; cbn [fst snd].
      * intros key (u & -> & Hu)%list_elem_of_fmap. split; [done|]. by apply Hd.
      * intros u u' (u1 & [= ->] & Hu)%list_elem_of_fmap Hle Hp%Hin. apply list_elem_of_fmap. exists u'. split; [done|].
        rewrite Hvs in Hp. apply elem_of_app in Hp as [?|Hp]; [done|].
        rewrite Hvs in Hsort. apply StronglySorted_app in Hsort as (Hx & _). specialize (Hx u1 u' Hu Hp). by assert (u' = u1) as -> by lia.
      * done.
Qed.

(** ** What progress implies *)

Lemma elem_of_snapshot_safe (progress : gmap Z NsFlushProgress) o ns s :
  (ns, s) ∈ m_safe (progress_snapshot progress o) ↔
  ∃ p, progress !! ns = Some p ∧ s = safe_offset p ∧ m_cut (progress_snapshot progress o) < s.
Proof.
  unfold progress_snapshot. cbn [with_cut m_safe m_cut]. rewrite merge_sort_Permutation, list_elem_of_omap. split.
  - intros ([n p] & Hin & Hs). apply elem_of_map_to_list in Hin. cbn [fst snd] in Hs. destruct (Z.ltb_spec (compute_cut progress o) (safe_offset p)); [|done].
    injection Hs as <- <-. by exists p.
  - intros (p & Hp & -> & Hlt). exists (ns, p). split; [by apply elem_of_map_to_list|]. cbn [fst snd]. by rewrite (proj2 (Z.ltb_lt _ _)).
Qed.

Lemma slowest_le (progress : gmap Z NsFlushProgress) ns p :
  progress !! ns = Some p → has_unflushed p →
  ∃ m, list_min (safe_offset <$> filter has_unflushed (map_to_list progress).*2) = Some m ∧ m ≤ safe_offset p.
Proof.
  intros Hp Hu. assert (safe_offset p ∈ safe_offset <$> filter has_unflushed (map_to_list progress).*2) as Hin.
  { apply list_elem_of_fmap. exists p. split; [done|]. apply list_elem_of_filter. split; [done|]. apply list_elem_of_fmap. exists (ns, p).
    split; [done|]. by apply elem_of_map_to_list. }
  destruct (list_min _) as [m|] eqn:Hm.
  - exists m. split; [done|]. by eapply list_min_le.
  - pose proof (list_min_spec (safe_offset <$> filter has_unflushed (map_to_list progress).*2)) as Hs. rewrite Hm in Hs. rewrite Hs in Hin.
    by apply elem_of_nil in Hin.
Qed.

(** The cut is the old one, the ceiling, or a namespace's safe offset. *)
Lemma compute_cut_cases (progress : gmap Z NsFlushProgress) o :
  m_cut (wal_metadata o) ≤ compute_cut progress o ∧
  (compute_cut progress o = m_cut (wal_metadata o) ∨ compute_cut progress o = wal_cut_ceiling o ∨
   ∃ ns p, progress !! ns = Some p ∧ compute_cut progress o = safe_offset p) ∧
  (compute_cut progress o ≤ m_cut (wal_metadata o) ∨
   compute_cut progress o ≤ wal_cut_ceiling o ∧
   ∀ ns p, progress !! ns = Some p → has_unflushed p → compute_cut progress o ≤ safe_offset p).
Proof.
  unfold compute_cut. set (old := m_cut (wal_metadata o)). set (ceil := wal_cut_ceiling o).
  pose proof (slowest_le progress) as Hslow.
  pose proof (list_min_spec (safe_offset <$> filter has_unflushed (map_to_list progress).*2)) as Hmin.
  destruct (list_min _) as [m|].
  - destruct Hmin as [Hm _]. split; [lia|]. split.
    + apply list_elem_of_fmap in Hm as (p & -> & Hp%list_elem_of_filter). destruct Hp as [_ Hp]. apply list_elem_of_fmap in Hp as ([n p'] & -> & Hp).
      apply elem_of_map_to_list in Hp. cbn [snd] in *. destruct (Z.max_spec (Z.min (safe_offset p') ceil) old) as [[_ ->]|[_ ->]]; [by left|right].
      destruct (Z.min_spec (safe_offset p') ceil) as [[_ ->]|[_ ->]]; [right; eauto|by left].
    + destruct (Z.max_spec (Z.min m ceil) old) as [[_ ->]|[_ ->]]; [left; lia|right]. split; [lia|].
      intros ns p Hp Hu. destruct (Hslow ns p Hp Hu) as (m' & [= <-] & Hle). lia.
  - split; [lia|]. split; [lia|]. destruct (Z.max_spec ceil old) as [[_ ->]|[_ ->]]; [left; lia|right]. split; [lia|].
    intros ns p Hp Hu. by destruct (Hslow ns p Hp Hu) as (m' & [=] & _).
Qed.

(** Progress whose offsets hold of [D], with its own record of each namespace's last write,
    yields a snapshot that holds of [D]. *)
Lemma snapshot_claims w (progress : gmap Z NsFlushProgress) (D : nat → Prop) :
  claims_ok w → (∀ i, i ∈ tables w → D i) →
  (∀ ns p, ns_progress (obs w) !! ns = Some p → ∃ p', progress !! ns = Some p' ∧ last_write_offset p ≤ last_write_offset p') →
  let m := progress_snapshot progress (obs w) in
  ∀ ns i wr, ns ∈ live w → writes w !! i = Some wr → w_state wr = Acked → w_ns wr = ns →
    (∀ p, progress !! ns = Some p → w_at wr < safe_offset p → D i) →
    (w_at wr < m_cut m → D i) ∧ ∀ s, (ns, s) ∈ m_safe m → w_at wr < s → D i.
Proof.
  intros Hc HD Hlast m ns i wr Hn Hi Ha Hns Hp. split.
  - intros Hlt. destruct (compute_cut_cases progress (obs w)) as (_ & _ & [Hle|[Hle Hsl]]).
    + apply HD. apply (co_claimed w Hc ns _ _ Hn (c_cut _ _ ns) i wr); [done|done|done|]. unfold m, progress_snapshot in Hlt. simpl in Hlt. lia.
    + destruct (decide (i ∈ tables w)) as [Ht|Ht]; [by apply HD|].
      destruct (co_noted w Hc i wr Hi) as (p & Hpr & Hend); [by right; right; right|unfold dead; rewrite Hns; by intros []|done|].
      rewrite Hns in Hpr. destruct (Hlast ns p Hpr) as (p' & Hp' & Hle').
      apply (Hp p' Hp'). destruct (co_at w Hc i wr Hi). destruct (has_unflushed p') eqn:Hu.
      * specialize (Hsl ns p' Hp' ltac:(by rewrite Hu)). unfold m, progress_snapshot in Hlt. simpl in Hlt. lia.
      * unfold has_unflushed in Hu. apply Z.ltb_ge in Hu. lia.
  - intros s (p & Hpr & -> & _)%elem_of_snapshot_safe Hlt. by apply (Hp p).
Qed.

Section upkeep.
Context `{CrcLaws} `{RkyvEntryLaws}.

Lemma ceiling_place w base es : claims_ok w → log_inv w base es → place (wal (obs w)) base es (wal_cut_ceiling (obs w)).
Proof using All.
  intros Hc Hl. unfold wal_cut_ceiling. pose proof (list_min_spec (map_to_list (in_flight (obs w))).*1) as Hm.
  destruct (list_min _) as [m|]; [|apply Hl]. destruct Hm as [Hm _]. destruct (Z.min_spec (m_tail (wal_metadata (obs w))) m) as [[_ ->]|[_ ->]]; [apply Hl|].
  apply list_elem_of_fmap in Hm as ([off n] & -> & Hin%elem_of_map_to_list). destruct (co_flight w Hc) as (_ & F2 & _).
  destruct (F2 off) as (i & wr & Hi & Hf & <-); [by rewrite Hin|]. destruct (lw_flying _ _ _ (li_write _ _ _ Hl i wr Hi) Hf) as [Hes _].
  cbn [fst]. by apply (holds_place _ _ _ _ (li_holds _ _ _ Hl) Hes).
Qed.

(** The log and the writes stay as they are; so does the ceiling. *)
Record same_writes (w w' : World) : Prop := {
  sw_wal : wal (obs w') = wal (obs w);
  sw_tail : m_tail (wal_metadata (obs w')) = m_tail (wal_metadata (obs w));
  sw_flight : in_flight (obs w') = in_flight (obs w);
  sw_writes : writes w' = writes w;
}.

Lemma same_ceiling w w' : same_writes w w' → wal_cut_ceiling (obs w') = wal_cut_ceiling (obs w).
Proof using. intros [_ Ht Hf _]. unfold wal_cut_ceiling. by rewrite Ht, Hf. Qed.

Lemma same_flight w w' : same_writes w w' → claims_ok w → flight_ok w'.
Proof using. intros [_ _ Hf Hw] Hc. unfold flight_ok. rewrite Hf, Hw. apply (co_flight w Hc). Qed.

Lemma same_log w w' base es : same_writes w w' → claims_ok w → log_inv w base es →
  (∀ i wr, writes w !! i = Some wr → w_ns wr ∈ live w' → w_state wr = Acked → i ∉ tables w' → w_ns wr ∈ live w ∧ i ∉ tables w) →
  m_cut (wal_metadata (obs w)) ≤ m_cut (wal_metadata (obs w')) →
  (∀ ns X l, claim (obs w') (flushing w') ns X l →
    X = 0 ∨ X < m_cut (wal_metadata (obs w')) ∨ X = wal_cut_ceiling (obs w) ∨ ∃ l', claim (obs w) (flushing w) ns X l' ∨ ∃ ns', claim (obs w) (flushing w) ns' X l') →
  m_cut (wal_metadata (obs w')) ≤ default (segment_start 0) (m_cut <$> metadata_file (obs w')) →
  log_inv w' base es.
Proof using All.
  intros Hs Hc Hl Hack Hgrow Hcl Hcut. pose proof Hs as [Ew Et Ef Ewr]. split; rewrite ?Ew, ?Et; try apply Hl.
  - intros i wr. rewrite Ewr. intros Hi. destruct (li_write _ _ _ Hl i wr Hi) as [L1 L2 L3]. split; rewrite ?Ew, ?Et; done.
  - intros i wr. rewrite Ewr. intros Hi Ha Hn Ht. destruct (Hack i wr Hi Hn Ha Ht) as [Hn' Ht']. by apply (li_acked _ _ _ Hl i wr).
  - intros ns X l HX.
    assert (∀ ns' l', claim (obs w) (flushing w) ns' X l' → X = 0 ∨ X < m_cut (wal_metadata (obs w')) ∨ place (wal (obs w)) base es X) as Hold.
    { intros ns' l' H'. destruct (li_place _ _ _ Hl ns' X l' H') as [?|[?|?]]; [by left|right; left; lia|by right; right]. }
    destruct (Hcl ns X l HX) as [?|[?|[->|(l' & [H'|(ns' & H')])]]]; [by left|by right; left|right; right; by apply ceiling_place|by eapply Hold|by eapply Hold].
  - done.
  - unfold undurable_flies. rewrite Ew, Ewr. apply Hl.
Qed.

(** ** Sealing *)

Lemma seal_inv w ns : db_inv w → ns ∈ live w → db_inv (seal ns w).
Proof using All.
  intros [Hc (base & es & Hl)] Hn. set (v := default 0 (next_version w !! ns)). set (w' := seal ns w).
  assert (pending (obs w) !! (ns, v) = None) as Hpn.
  { apply eq_None_not_Some. intros Hp. pose proof (co_versions w Hc ns v (or_intror Hp)). unfold v in *. lia. }
  assert (sealed w !! (ns, v) = None) as Hsn.
  { apply eq_None_not_Some. intros Hp. pose proof (co_versions w Hc ns v (or_introl Hp)). unfold v in *. lia. }
  assert (obs w' = set_pending (obs w) (<[(ns, v) := mk_WalFlushState (wal_cut_ceiling (obs w)) false]> (pending (obs w)))) as Ho.
  { unfold w', seal, on_memtable_sealed_ns. cbn [obs]. fold v. by rewrite Hpn. }
  assert (same_writes w w') as Hs by (split; by rewrite ?Ho).
  assert (∀ ns' X l, claim (obs w') (flushing w') ns' X l → claim (obs w) (flushing w) ns' X l ∨ (ns' = ns ∧ X = wal_cut_ceiling (obs w) ∧ l = OrSealed v)) as Hcl.
  { intros ns' X l Hcx. rewrite Ho in Hcx. destruct Hcx as [|s Hsf|p Hpr|m Hm|m s Hm Hsf|u st Hp|p Hf Hpn2|p Hf|p s Hf Hsf]; try (left; by first [exact (c_cut (obs w) (flushing w) ns') | eauto with wal]).
    cbn [pending set_pending] in Hp. rewrite lookup_insert_Some in Hp. destruct Hp as [[[= <- <-] <-]|[_ Hp]]; [by right|left; by eauto with wal]. }
  assert (∀ ns' l i, held w ns' l i → held w' ns' l i) as Hheld.
  { intros ns' l i. destruct l as [| |u]; [done| |].
    - unfold held, on_disk, being_written. cbn [w' seal flushing tables sealed]. fold v. destruct (flushing w) as [p|] eqn:Hfl; [|done].
      destruct (decide ((ns, v) = (p_namespace p, p_version p))) as [<-|Hne]; [|by rewrite lookup_insert_ne].
      rewrite Hsn. simpl. set_solver.
    - intros [Ht|(v' & s & Hv' & Hs' & Hi)]; [by left|right]. exists v', s. split; [done|]. split; [|done]. simpl. fold v.
      rewrite lookup_insert_ne; [done|]. intros [= <- <-]. by rewrite Hsn in Hs'. }
  pose proof (ceiling_self (obs w)) as [Hc1 Hc2].
  assert (∀ ns' u, default 0 (next_version w !! ns') ≤ default 0 (next_version w' !! ns') ∧ (ns' = ns → u = v → u < default 0 (next_version w' !! ns'))) as Hnv.
  { intros ns' u. cbn [w' seal next_version]. fold v. destruct (decide (ns' = ns)) as [->|Hne].
    - rewrite lookup_insert_eq. simpl. unfold v. split; [lia|]. intros _ ->. lia.
    - rewrite lookup_insert_ne by done. split; [lia|done]. }
  split; [split|exists base, es].
  - intros ns' X l Hx. rewrite (same_ceiling w w' Hs). destruct (Hcl _ _ _ Hx) as [H'|(_ & -> & _)]; [by apply (co_ceiling w Hc _ _ _ H')|done].
  - intros ns' X l Hn' Hx i wr Hi Ha Hns Hlt. destruct (Hcl _ _ _ Hx) as [H'|(-> & -> & ->)].
    + apply Hheld. by apply (co_claimed w Hc ns' X l Hn' H' i wr).
    + destruct (co_memory w Hc i wr Hi) as [Hm|[(u & s & Hu & Hin)|Ht]]; [by right|by rewrite Hns|..|by left].
      * right. exists v, (memtable (active w) ns). split; [done|]. split; [|by rewrite <-Hns]. simpl. fold v. by rewrite lookup_insert_eq.
      * right. rewrite Hns in Hu. exists u, s. pose proof (co_versions w Hc ns u (or_introl (mk_is_Some _ _ Hu))). split; [unfold v; lia|]. split; [|done].
        simpl. fold v. rewrite lookup_insert_ne; [done|]. intros [= ->]. by rewrite Hsn in Hu.
  - rewrite Ho. apply Hc.
  - intros key st. rewrite Ho. cbn [pending set_pending]. rewrite lookup_insert_Some. intros [[<- <-]|[_ Hp]]; [|by eapply co_pending]. simpl.
    pose proof (co_ceiling w Hc ns _ _ (c_cut _ _ ns)). pose proof (co_cut w Hc). lia.
  - intros ns' u Hn'. rewrite Ho. cbn [w' seal sealed pending set_pending flushing]. fold v. rewrite lookup_insert_is_Some. intros [Heq|[Hne Hu]].
    + injection Heq as <- <-. rewrite lookup_insert_eq. eexists. split; [done|]. simpl. split; [done|]. intros Hfk.
      destruct (flushing w) as [p|] eqn:Hfl; [|done]. cbn in Hfk. apply (inj Some) in Hfk. destruct (fo_sealed _ _ (co_flush w Hc p Hfl)) as [s Hfs].
      by rewrite Hfk, Hsn in Hfs.
    + rewrite lookup_insert_ne by done. by apply co_sealed.
  - intros ns' u. rewrite Ho. cbn [w' seal sealed pending set_pending]. fold v. rewrite !lookup_insert_is_Some. destruct (Hnv ns' u) as [Hnv1 Hnv2].
    intros [[Heq|[_ Hu]]|[Heq|[_ Hu]]]; try (injection Heq as <- <-; by apply Hnv2); [pose proof (co_versions w Hc ns' u (or_introl Hu))|pose proof (co_versions w Hc ns' u (or_intror Hu))]; lia.
  - intros i wr Hi Ha Hw. destruct (co_memory w Hc i wr Hi Ha Hw) as [Hm|[(u & s & Hu & Hin)|Ht]]; [|right; left|by right; right].
    + destruct (decide (w_ns wr = ns)) as [Heq|Hne].
      * right. left. exists v, (memtable (active w) ns). simpl. fold v. rewrite Heq, lookup_insert_eq. split; [done|by rewrite <-Heq].
      * left. unfold memtable in *. simpl. by rewrite lookup_insert_ne.
    + exists u, s. split; [|done]. simpl. fold v. rewrite lookup_insert_ne; [done|]. intros Heq. rewrite <-Heq, Hsn in Hu. done.
  - rewrite Ho. apply Hc.
  - apply Hc.
  - destruct (co_ever w Hc) as (E1 & E2 & E3). split; [done|]. split; [done|]. intros ns' u. simpl. rewrite lookup_insert_is_Some.
    intros [Heq|[_ Hu]]; [injection Heq as <- _; by apply E1|by eapply E3].
  - intros p Hfl. destruct (co_flush w Hc p Hfl) as [G1 G2 G3 G4 G5 G6 G7 G8]. split; rewrite ?Ho; try done.
    + simpl. rewrite lookup_insert_is_Some. destruct (decide ((ns, v) = flush_key p)); [by left|by right].
    + intros key Hk. destruct (G3 key Hk) as [? ?]. split; [done|]. destruct (Hnv key.1 0). lia.
    + intros Hp key Hk Hne. simpl. rewrite lookup_insert_ne; [by apply G4|]. fold v. intros <-. destruct (G3 _ Hk) as [_ Hlt]. simpl in Hlt. unfold v in Hlt. lia.
  - by apply (same_flight w w').
  - apply (same_log w w'); try done.
    + rewrite Ho. simpl. lia.
    + intros ns' X l Hx. destruct (Hcl _ _ _ Hx) as [H'|(_ & -> & _)]; [right; right; right; eauto|right; right; by left].
    + rewrite Ho. apply Hl.
Qed.
End upkeep.
