(* ===== verification/WalFlush.v ===== *)
(** * WalFlush: flushes and saves keep the invariant

    The steps of [WalRetire] that save the progress or move memtables into tables, against
    [claims_ok] and [log_inv]. *)
From S2P Require Import Prelude Slices Bytes LogProgress CommitRounds SegmentedLog LogFrames LogOpen LogWrites LogReads LogSpec Wal WalObserver WalRetire WalInvariant WalUpkeep.
#[local] Open Scope minnal_scope.

(** ** Saving *)

(** What a save leaves: [m]'s cut and safe offsets in the file, the rest as it was. *)
Record stored (m : WalMetadata) (o o' : WalPersistObserver) : Prop := {
  sd_wal : wal o' = wal o;
  sd_tail : m_tail (wal_metadata o') = m_tail (wal_metadata o);
  sd_cut : m_cut (wal_metadata o') = m_cut (wal_metadata o);
  sd_safe : m_safe (wal_metadata o') = m_safe (wal_metadata o);
  sd_pending : pending o' = pending o;
  sd_progress : ns_progress o' = ns_progress o;
  sd_flight : in_flight o' = in_flight o;
  sd_file : ∃ m', metadata_file o' = Some m' ∧ m_cut m' = m_cut m ∧ m_safe m' = m_safe m;
}.

Lemma write_metadata_clean io m o o' ok :
  clean io → write_metadata io m o = (o', ok) → (ok = false ∧ o' = o) ∨ (ok = true ∧ stored m o o').
Proof.
  destruct io; [intros _ [= <- <-]; right|intros _ [= <- <-]; by left|done].
  split; [done|]. split; try done. eexists. split; [done|]. done.
Qed.

(** ** Steps that leave the writes *)

Lemma claims_upkeep w w' :
  claims_ok w → same_writes w w' → active w' = active w → next_version w' = next_version w → live w' ⊆ live w → ever w' = ever w →
  tables w ⊆ tables w' →
  (∀ key s, sealed w !! key = Some s → sealed w' !! key = Some s ∨ s ⊆ tables w') →
  (∀ key, is_Some (sealed w' !! key) → is_Some (sealed w !! key)) →
  (∀ key, is_Some (pending (obs w') !! key) → is_Some (pending (obs w) !! key) ∨ is_Some (sealed w !! key)) →
  (∀ ns p, ¬ dead w' ns → ns_progress (obs w) !! ns = Some p →
    ∃ p', ns_progress (obs w') !! ns = Some p' ∧ last_write_offset p ≤ last_write_offset p') →
  (∀ ns X l, claim (obs w') (flushing w') ns X l → X ≤ wal_cut_ceiling (obs w)) →
  (∀ ns X l, ns ∈ live w' → claim (obs w') (flushing w') ns X l → claimed w' ns X l) →
  m_cut (wal_metadata (obs w)) ≤ m_cut (wal_metadata (obs w')) →
  (∀ key st, pending (obs w') !! key = Some st → 0 < fs_tail st) →
  (∀ ns v, ns ∈ live w' → is_Some (sealed w' !! (ns, v)) →
    ∃ st, pending (obs w') !! (ns, v) = Some st ∧ (flushed st = true ↔ flush_key <$> flushing w' = Some (ns, v))) →
  (∀ p, flushing w' = Some p → flush_ok w' p) → claims_ok w'.
Proof.
  intros Hc Hs Ha Hv Hlive Hever Ht Hse Hse' Hpe Hpr H1 H2 H3 H4 H5 H6. pose proof Hs as [_ _ _ Ew].
  assert (∀ ns, ¬ dead w' ns → ¬ dead w ns) as Hdead.
  { unfold dead. rewrite Hever. intros ns Hd [? Hn]. apply Hd. split; [done|]. intros Hx. by apply Hn, Hlive. }
  split.
  - intros ns X l Hx. rewrite (same_ceiling w w' Hs). by eapply H1.
  - done.
  - pose proof (co_cut w Hc). lia.
  - done.
  - done.
  - intros ns v Hx. rewrite Hv. apply (co_versions w Hc). destruct Hx as [Hx|Hx]; [left; by apply Hse'|]. destruct (Hpe _ Hx); [by right|by left].
  - intros i wr. rewrite Ew, Ha. intros Hi Hap Hn. destruct (co_memory w Hc i wr Hi Hap) as [?|[(v & s & Hsv & Hin)|?]].
    + by apply Hlive.
    + by left.
    + right. destruct (Hse _ _ Hsv) as [?|Hsub]; [left; eauto|right; by apply Hsub].
    + right; right. by apply Ht.
  - intros i wr. rewrite Ew. intros Hi Hno Hd Hti. destruct (co_noted w Hc i wr Hi Hno) as (p & Hp & Hle).
    + by apply Hdead.
    + intros Hx. by apply Hti, Ht.
    + destruct (Hpr _ p Hd Hp) as (p' & Hp' & ?). exists p'. split; [done|lia].
  - rewrite Ew. apply Hc.
  - destruct (co_ever w Hc) as (E1 & E2 & E3). rewrite Hever, Ew. split; [by intros x Hx%Hlive%E1|]. split; [done|]. intros ns v Hx%Hse'. by eapply E3.
  - done.
  - by apply (same_flight w w').
Qed.

(** *** Preparing the progress *)

Lemma raise_safe_lookup ns new_safe progress ns' p' :
  raise_safe ns new_safe progress !! ns' = Some p' →
  (∃ p, progress !! ns' = Some p ∧ safe_offset p' = safe_offset p) ∨ (ns' = ns ∧ safe_offset p' = new_safe).
Proof.
  unfold raise_safe. destruct (Z.ltb_spec 0 new_safe) as [Hlt|]; [|by eauto]. rewrite lookup_insert_Some. intros [[<- <-]|[_ Hp]]; [|by eauto].
  cbn [safe_offset]. destruct (progress !! ns) as [p|]; simpl; [|right; split; [done|lia]].
  destruct (Z.max_spec (safe_offset p) new_safe) as [[_ ->]|[_ ->]]; [by right|left; eauto].
Qed.

Lemma raise_safe_last ns new_safe progress ns' p :
  progress !! ns' = Some p → ∃ p', raise_safe ns new_safe progress !! ns' = Some p' ∧ last_write_offset p ≤ last_write_offset p'.
Proof.
  intros Hp. unfold raise_safe. destruct (0 <? new_safe); [|eexists; split; [done|lia]].
  destruct (decide (ns' = ns)) as [->|]; [rewrite lookup_insert_eq, Hp|rewrite lookup_insert_ne by done]; eexists; (split; [done|simpl; lia]).
Qed.

(** The offsets of a snapshot. *)
Lemma snapshot_bounded (progress : gmap Z NsFlushProgress) o (P : Z → Prop) :
  P (m_cut (wal_metadata o)) → P (wal_cut_ceiling o) → (∀ ns p, progress !! ns = Some p → P (safe_offset p)) →
  P (m_cut (progress_snapshot progress o)) ∧ ∀ ns s, (ns, s) ∈ m_safe (progress_snapshot progress o) → P s.
Proof.
  intros H1 H2 H3. split.
  - cbn. destruct (compute_cut_cases progress o) as (_ & [->|[->|(ns & p & Hp & ->)]] & _); [done..|by eapply H3].
  - intros ns s (p & Hp & -> & _)%elem_of_snapshot_safe. by eapply H3.
Qed.

Lemma fold_start ns pend : let r := fold_flushed ns pend (versions_of ns pend) [] 0 in fold_ok ns pend r.1 r.2 ∧ 0 ≤ r.2.
Proof. apply (fold_flushed_spec ns pend _ []); [done|done|lia| |by left]. intros v Hv. by apply elem_of_nil in Hv. Qed.

Lemma sealed_pending w ns v :
  claims_ok w → flushing w = None → ns ∈ live w → is_Some (sealed w !! (ns, v)) → ∃ st, pending (obs w) !! (ns, v) = Some st ∧ flushed st = false.
Proof.
  intros Hc Hf Hn Hs. destruct (co_sealed w Hc ns v Hn Hs) as (st & Hst & Hfl). exists st. split; [done|]. rewrite Hf in Hfl. simpl in Hfl.
  destruct (flushed st); [|done]. destruct Hfl as [Hfl _]. by specialize (Hfl eq_refl).
Qed.

(** The folded seal records are of memtables in tables, but for the one being flushed. *)
Lemma fold_claim w ns v st folded new_safe :
  claims_ok w → flushing w = None → ns ∈ live w → pending (obs w) !! (ns, v) = Some st →
  fold_ok ns (<[(ns, v) := mk_WalFlushState (fs_tail st) true]> (pending (obs w))) folded new_safe →
  (∀ i wr, writes w !! i = Some wr → w_state wr = Acked → w_ns wr = ns → w_at wr < new_safe →
    i ∈ tables w ∨ ∃ s, sealed w !! (ns, v) = Some s ∧ i ∈ s) ∧
  ∀ key, key ∈ folded → key ≠ (ns, v) → sealed w !! key = None.
Proof.
  intros Hc Hf Hn Hst [K1 K2 K3].
  assert (∀ u, (ns, u) ∈ folded → (ns, u) ≠ (ns, v) → sealed w !! (ns, u) = None) as Hun.
  { intros u Hu Hne. apply eq_None_not_Some. intros Hsu. destruct (sealed_pending w ns u Hc Hf Hn Hsu) as (st' & Hst' & Hfl').
    destruct (K1 _ Hu) as (_ & st'' & Hst'' & Hfl'' & _). rewrite lookup_insert_ne in Hst'' by done. congruence. }
  split.
  - intros i wr Hi Ha Hns Hlt. destruct K3 as [->|([n u] & st' & Hk & Hst' & ->)]; [destruct (co_at w Hc i wr Hi); lia|].
    destruct (K1 _ Hk) as [Hn' _]. cbn [fst] in Hn'. subst n.
    assert (∃ st0, pending (obs w) !! (ns, u) = Some st0 ∧ fs_tail st' = fs_tail st0) as (st0 & Hst0 & Heq).
    { rewrite lookup_insert_Some in Hst'. destruct Hst' as [[Hx <-]|[_ ?]]; [|by eauto]. injection Hx as <-. by exists st. }
    rewrite Heq in Hlt.
    destruct (co_claimed w Hc ns _ _ Hn (c_pending _ _ ns u st0 Hst0) i wr Hi Ha Hns Hlt) as [?|(v' & s & Hle & Hs & Hin)]; [by left|right].
    destruct (decide ((ns, v') = (ns, v))) as [Hx|Hne]; [injection Hx as ->; eauto|].
    rewrite Hun in Hs; [done| |done]. apply (K2 u v' Hk Hle). rewrite lookup_insert_ne by done.
    destruct (sealed_pending w ns v' Hc Hf Hn) as (? & ? & _); [by rewrite Hs|by rewrite H].
  - intros [n u] Hk. destruct (K1 _ Hk) as [Hn' _]. cbn [fst] in Hn'. subst n. by apply Hun.
Qed.

Section flush.
Context `{CrcLaws} `{RkyvEntryLaws}.

(** *** Saving what is known already *)

(** No flush goes on: the file is as it was, or holds the live metadata's progress. *)
Definition settled (w : World) (o : WalPersistObserver) : World :=
  mk_World o (writes w) (active w) (sealed w) (tables w) (next_version w) (live w) (ever w) None.

Record settles (w : World) (o : WalPersistObserver) : Prop := {
  se_wal : wal o = wal (obs w);
  se_tail : m_tail (wal_metadata o) = m_tail (wal_metadata (obs w));
  se_cut : m_cut (wal_metadata o) = m_cut (wal_metadata (obs w));
  se_safe : m_safe (wal_metadata o) = m_safe (wal_metadata (obs w));
  se_flight : in_flight o = in_flight (obs w);
  se_file : flushing w = None ∧ metadata_file o = metadata_file (obs w) ∨
    ∃ m, metadata_file o = Some m ∧ m_cut m = m_cut (wal_metadata (obs w)) ∧ m_safe m = m_safe (wal_metadata (obs w));
  se_progress : ∀ ns p, ns_progress o !! ns = Some p → ns_progress (obs w) !! ns = Some p;
  se_kept : ∀ ns p, ¬ dead w ns → ns_progress (obs w) !! ns = Some p → ns_progress o !! ns = Some p;
  se_pending : ∀ key st, pending o !! key = Some st → ∃ st0, pending (obs w) !! key = Some st0 ∧ fs_tail st = fs_tail st0;
  se_sealed : ∀ ns v, ns ∈ live w → is_Some (sealed w !! (ns, v)) → ∃ st, pending o !! (ns, v) = Some st ∧ flushed st = false;
}.

Lemma settles_claim w o ns X l : settles w o → claim o None ns X l →
  ∃ l', claim (obs w) (flushing w) ns X l' ∧ ∀ i, held w ns l' i → held (settled w o) ns l i.
Proof using.
  intros [Ew Et Ec Es Efl Efi Ep _ Epd _] Hcl. destruct Hcl as [|s Hs|p Hp|m Hm|m s Hm Hs|u st Hp|p Hf|p Hf|p s Hf]; try done.
  - exists OnTables. rewrite Ec. by eauto with wal.
  - exists OnTables. rewrite Es in Hs. by eauto with wal.
  - exists OnTables. by eauto with wal.
  - destruct Efi as [[Hf Heq]|(m1 & Hm1 & Hc1 & _)].
    + exists OnDisk. rewrite Heq in Hm. split; [by eauto with wal|]. unfold held, on_disk, being_written. by rewrite Hf.
    + exists OnTables. rewrite Hm in Hm1. injection Hm1 as <-. rewrite Hc1. split; [by eauto with wal|]. intros i Hi. by apply elem_of_union_l.
  - destruct Efi as [[Hf Heq]|(m1 & Hm1 & _ & Hs1)].
    + exists OnDisk. rewrite Heq in Hm. split; [by eauto with wal|]. unfold held, on_disk, being_written. by rewrite Hf.
    + exists OnTables. rewrite Hm in Hm1. injection Hm1 as <-. rewrite Hs1 in Hs. split; [by eauto with wal|]. intros i Hi. by apply elem_of_union_l.
  - destruct (Epd _ _ Hp) as (st0 & Hst0 & ->). exists (OrSealed u). by eauto with wal.
Qed.

Lemma settle_inv w o : db_inv w → settles w o → db_inv (settled w o).
Proof using All.
  intros [Hc (base & es & Hl)] Hse. pose proof Hse as [Ew Et Ec Es Efl Efi Ep Ek Epd Esl].
  assert (same_writes w (settled w o)) as Hsw by done.
  pose proof (settles_claim w o) as Hcl.
  split; [|exists base, es].
  - apply (claims_upkeep w); try done; simpl; rewrite ?Ec; try done; try lia.
    + by left.
    + intros key [st Hst]. left. destruct (Epd _ _ Hst) as (st0 & -> & _). done.
    + intros ns p Hd Hp. exists p. split; [by apply Ek|lia].
    + intros ns X l Hx. destruct (Hcl ns X l Hse Hx) as (l' & Hx' & _). by eapply co_ceiling.
    + intros ns X l Hn Hx i wr Hi Ha Hns Hlt. destruct (Hcl ns X l Hse Hx) as (l' & Hx' & Hh). apply Hh. by eapply (co_claimed w Hc ns X l').
    + intros key st Hst. destruct (Epd _ _ Hst) as (st0 & Hst0 & ->). by eapply co_pending.
    + intros ns v Hn Hx. destruct (Esl ns v Hn Hx) as (st & Hst & Hf). exists st. split; [done|]. by rewrite Hf.
  - apply (same_log w); try done; simpl; rewrite ?Ec; try done.
    + intros ns X l Hx. destruct (Hcl ns X l Hse Hx) as (l' & Hx' & _). right; right; right. exists l'. by left.
    + destruct Efi as [[_ ->]|(m & -> & Hm & _)]; [apply Hl|]. simpl. lia.
Qed.

Lemma save_inv w io : db_inv w → flushing w = None → clean io → db_inv (set_obs w (save_metadata io (obs w)).1).
Proof using All.
  intros Hw Hf Hio. pose proof Hw as [Hc _]. unfold save_metadata. destruct (write_metadata io _ _) as [o ok] eqn:Hwm.
  replace (set_obs w _) with (settled w o) by (unfold settled, set_obs; by rewrite Hf). apply settle_inv; [done|].
  destruct (write_metadata_clean _ _ _ _ _ Hio Hwm) as [[-> ->]|[-> [S1 S2 S3 S4 S5 S6 S7 S8]]]; split; rewrite ?S6, ?S5; try done; eauto.
  - intros ns v. by apply sealed_pending.
  - intros ns v. by apply sealed_pending.
Qed.

(** [forget_namespace] drops what the observer knows of a namespace that is gone. *)
Lemma forgotten_inv w ns :
  db_inv w → flushing w = None → dead w ns →
  db_inv (settled w (set_pending (set_progress (set_consumers (obs w) (filter (λ e : Z * Z * option Z, e.1.1 ≠ ns) (field_consumers (obs w))))
    (delete ns (ns_progress (obs w)))) (filter (λ e : Z * Z * WalFlushState, e.1.1 ≠ ns) (pending (obs w))))).
Proof using All.
  intros Hw Hf Hd. pose proof Hw as [Hc _]. apply settle_inv; [done|]. split; simpl; try done.
  - by left.
  - intros ns' p Hp. by apply lookup_delete_Some in Hp as [_ ?].
  - intros ns' p Hnd Hp. rewrite lookup_delete_ne; [done|]. intros <-. done.
  - intros key st Hst. apply map_lookup_filter_Some in Hst as [Hst _]. eauto.
  - intros ns' v Hn Hs. destruct (sealed_pending w ns' v Hc Hf Hn Hs) as (st & Hst & Hfl). exists st. split; [|done].
    apply map_lookup_filter_Some. split; [done|]. simpl. intros ->. by destruct Hd.
Qed.

(** *** Preparing, finishing and undoing a flush *)

Lemma pending_tail w ns v :
  claims_ok w → let st := default (mk_WalFlushState 0 false) (pending (obs w) !! (ns, v)) in
  let tail := if fs_tail st =? 0 then wal_cut_ceiling (obs w) else fs_tail st in
  0 < tail ≤ wal_cut_ceiling (obs w) ∧ (is_Some (pending (obs w) !! (ns, v)) → tail = fs_tail st).
Proof using.
  intros Hc. simpl. pose proof (co_ceiling w Hc ns _ _ (c_cut _ _ ns)). pose proof (co_cut w Hc).
  destruct (pending (obs w) !! (ns, v)) as [st|] eqn:Hp; simpl; [|split; [lia|by intros []]].
  pose proof (co_pending w Hc _ _ Hp). rewrite (proj2 (Z.eqb_neq (fs_tail st) 0)) by lia.
  pose proof (co_ceiling w Hc _ _ _ (c_pending _ (flushing w) ns v st Hp)). split; [lia|done].
Qed.

(** What a prepared flush is: its seal record is marked, the fold taken, the file written. *)
Record prepares (w : World) (ns v tail : Z) (pend : gmap (Z * Z) WalFlushState) (p : PreparedProgress) (o : WalPersistObserver) : Prop := {
  pp_pend : pend = <[(ns, v) := mk_WalFlushState tail true]> (pending (obs w));
  pp_key : flush_key p = (ns, v);
  pp_fresh : fresh p = bool_decide (pending (obs w) !! (ns, v) = None);
  pp_fold : fold_ok ns pend (folded p) (new_safe p) ∧ 0 ≤ new_safe p;
  pp_previous : previous p = wal_metadata (obs w);
  pp_snapshot : snapshot p = progress_snapshot (raise_safe ns (new_safe p) (ns_progress (obs w))) (obs w);
  pp_stored : stored (snapshot p) (set_pending (obs w) pend) o;
}.

Lemma prepare_written_cases io ns v w :
  claims_ok w → clean io →
  let tail := let st := default (mk_WalFlushState 0 false) (pending (obs w) !! (ns, v)) in
    if fs_tail st =? 0 then wal_cut_ceiling (obs w) else fs_tail st in
  let pend := <[(ns, v) := mk_WalFlushState tail true]> (pending (obs w)) in
  ∃ p, (∃ o, prepare_written io ns v (obs w) = (o, Some p) ∧ prepares w ns v tail pend p o) ∨
    prepare_written io ns v (obs w) = (withdraw p (set_pending (obs w) pend), None) ∧
      flush_key p = (ns, v) ∧ fresh p = bool_decide (pending (obs w) !! (ns, v) = None).
Proof using.
  intros Hc Hio tail pend. unfold prepare_written. fold tail. cbn [pending set_pending]. fold pend.
  pose proof (fold_start ns pend) as Hfold. destruct (fold_flushed _ _ _ _ _) as [folded new_safe] eqn:Hf. cbn [ns_progress set_pending].
  match goal with |- context [write_metadata io ?m ?x] => set (snap := m); destruct (write_metadata io snap x) as [o ok] eqn:Hwm end.
  exists (mk_Prepared ns v (bool_decide (pending (obs w) !! (ns, v) = None)) folded new_safe (wal_metadata (obs w)) snap).
  destruct (write_metadata_clean _ _ _ _ _ Hio Hwm) as [[-> ->]|[-> Hst]]; [right; split; [reflexivity|split; reflexivity]|left]. exists o. split; [done|]. by split.
Qed.

(** Taking the mark back. *)
Lemma withdraw_settles w o p :
  claims_ok w → stored (wal_metadata (obs w)) (set_pending (obs w) (pending o)) o ∨ (flushing w = None ∧ o = set_pending (obs w) (pending o)) →
  (fresh p = true → ∀ ns, (ns, p_version p) = flush_key p → ns ∉ live w) →
  (∀ st, pending o !! flush_key p = Some st → fresh p = false → ∃ st0, pending (obs w) !! flush_key p = Some st0 ∧ fs_tail st = fs_tail st0) →
  (∀ ns v, ns ∈ live w → (ns, v) = flush_key p → fresh p = false → is_Some (pending o !! flush_key p)) →
  (∀ key, key ≠ flush_key p → pending o !! key = pending (obs w) !! key) →
  (∀ ns v, ns ∈ live w → is_Some (sealed w !! (ns, v)) → (ns, v) ≠ flush_key p → ∃ st, pending (obs w) !! (ns, v) = Some st ∧ flushed st = false) →
  settles w (withdraw p o).
Proof using.
  intros Hc Ho Hfr Htail Hsome Hoth Hun.
  assert (∃ pend, withdraw p o = set_pending o pend ∧
    (∀ key st, pend !! key = Some st → ∃ st0, pending (obs w) !! key = Some st0 ∧ fs_tail st = fs_tail st0) ∧
    (∀ ns v, ns ∈ live w → is_Some (sealed w !! (ns, v)) → ∃ st, pend !! (ns, v) = Some st ∧ flushed st = false)) as (pend & -> & Hp1 & Hp2).
  { unfold withdraw. fold (flush_key p). destruct (fresh p) eqn:Hf.
    - eexists. split; [done|]. split.
      + intros key st [Hne Hk]%lookup_delete_Some. exists st. by rewrite <-Hoth.
      + intros ns v Hn Hs. assert ((ns, v) ≠ flush_key p) as Hne.
        { intros Heq. apply (Hfr eq_refl ns); [|done]. unfold flush_key in *. by injection Heq as -> ->. }
        rewrite lookup_delete_ne, Hoth by done. by apply Hun.
    - destruct (pending o !! flush_key p) as [st|] eqn:Hst.
      2:{ exists (pending o). split; [by destruct o|]. split.
          - intros key st Hk. exists st. rewrite <-Hoth; [done|]. intros ->. by rewrite Hst in Hk.
          - intros ns v Hn Hs. destruct (decide ((ns, v) = flush_key p)) as [Heq|Hne]; [by destruct (Hsome ns v Hn Heq eq_refl)|].
            rewrite Hoth by done. by apply Hun. }
      eexists. split; [done|]. split.
      + intros key st'. rewrite lookup_insert_Some. intros [[<- <-]|[Hne Hk]]; [exact (Htail st eq_refl eq_refl)|]. exists st'. by rewrite <-Hoth.
      + intros ns v Hn Hs. destruct (decide ((ns, v) = flush_key p)) as [Heq|Hne].
        * rewrite Heq, lookup_insert_eq. by eexists.
        * rewrite lookup_insert_ne, Hoth by done. by apply Hun. }
  destruct Ho as [[S1 S2 S3 S4 S5 S6 S7 S8]|[Hf ->]]; split; simpl; try done; try (by left); try (by right); intros ns q; by rewrite S6.
Qed.

Definition flush_begun (w : World) (o : WalPersistObserver) (p : PreparedProgress) : World :=
  mk_World o (writes w) (active w) (sealed w) (tables w) (next_version w) (live w) (ever w) (Some p).

(** An offset the claims of [w] account for. *)
Definition accounted (w : World) (X : Z) : Prop := X = 0 ∨ X = wal_cut_ceiling (obs w) ∨ ∃ ns l, claim (obs w) (flushing w) ns X l.

Lemma accounted_le w X : claims_ok w → accounted w X → X ≤ wal_cut_ceiling (obs w).
Proof using.
  intros Hc [->|[->|(ns & l & Hx)]]; [|done|by eapply co_ceiling].
  pose proof (co_ceiling w Hc 0 _ _ (c_cut _ _ 0)). pose proof (co_cut w Hc). lia.
Qed.

Section prepared.
Context (w : World) (ns v tail : Z) (pend : gmap (Z * Z) WalFlushState) (p : PreparedProgress) (o : WalPersistObserver).
Context (Hc : claims_ok w) (Hf : flushing w = None) (Hs : is_Some (sealed w !! (ns, v))).
Context (Htail : 0 < tail ≤ wal_cut_ceiling (obs w)) (Hsame : ∀ st, pending (obs w) !! (ns, v) = Some st → tail = fs_tail st).
Context (Hacc : accounted w tail) (Hp : prepares w ns v tail pend p o).

#[local] Notation raised := (raise_safe ns (new_safe p) (ns_progress (obs w))).

Lemma pend_accounted key st : pend !! key = Some st → 0 < fs_tail st ∧ accounted w (fs_tail st).
Proof using Hc Hacc Htail Hp.
  rewrite (pp_pend _ _ _ _ _ _ _ Hp), lookup_insert_Some. intros [[_ <-]|[_ Hst]]; [simpl; split; [lia|done]|].
  split; [by eapply co_pending|]. destruct key as [n u]. right; right. by eauto with wal.
Qed.

Lemma new_safe_accounted : accounted w (new_safe p).
Proof using All.
  destruct (pp_fold _ _ _ _ _ _ _ Hp) as [[_ _ [->|(key & st & _ & Hst & ->)]] _]; [by left|]. by eapply pend_accounted.
Qed.

Lemma snapshot_accounted : accounted w (m_cut (snapshot p)) ∧ ∀ n s, (n, s) ∈ m_safe (snapshot p) → accounted w s.
Proof using All.
  rewrite (pp_snapshot _ _ _ _ _ _ _ Hp). apply snapshot_bounded.
  - right; right. exists 0, OnTables. by eauto with wal.
  - right; by left.
  - intros n q [(q0 & Hq & ->)|[_ ->]]%raise_safe_lookup; [|by apply new_safe_accounted]. right; right. exists n, OnTables. by eauto with wal.
Qed.

(** The claims of a prepared flush. *)
Lemma prepared_claim n X l : claim o (Some p) n X l →
  claim (obs w) (flushing w) n X l ∨ (n = ns ∧ X = tail ∧ l = OrSealed v) ∨
  l = OnDisk ∧ ((n = ns ∧ X = new_safe p) ∨ X = m_cut (snapshot p) ∨ (n, X) ∈ m_safe (snapshot p)).
Proof using Hp.
  destruct (pp_stored _ _ _ _ _ _ _ Hp) as [S1 S2 S3 S4 S5 S6 S7 (m' & S8 & S9 & S10)]. simpl in *.
  destruct 1 as [|s Hsf|q Hpr|m Hm|m s Hm Hsf|u st Hst|q Hfl Hpn2|q Hfl|q s Hfl Hsf]; try (injection Hfl as <-).
  - left. rewrite S3. by eauto with wal.
  - left. rewrite S4 in Hsf. by eauto with wal.
  - left. rewrite S6 in Hpr. by eauto with wal.
  - right; right. rewrite S8 in Hm. injection Hm as <-. by eauto.
  - right; right. rewrite S8 in Hm. injection Hm as <-. rewrite S10 in Hsf. by eauto.
  - rewrite S5, (pp_pend _ _ _ _ _ _ _ Hp), lookup_insert_Some in Hst. destruct Hst as [[Heq <-]|[_ Hst]].
    + injection Heq as <- <-. right; left. done.
    + left. by eauto with wal.
  - right; right. pose proof (pp_key _ _ _ _ _ _ _ Hp) as Hk. unfold flush_key in Hk. injection Hk as Hk _. split; [done|]. left. split; [congruence|done].
  - right; right. by eauto.
  - right; right. by eauto.
Qed.

Lemma prepared_accounted n X l : claim o (Some p) n X l → accounted w X.
Proof using All.
  destruct snapshot_accounted as [Hsa1 Hsa2].
  intros [Hx|[(_ & -> & _)|(_ & [[_ ->]|[->|Hx]])]]%prepared_claim; [right; right; eauto|done|by apply new_safe_accounted|done|by eapply Hsa2].
Qed.

(** They hold, the memtable being written counting as on disk. *)
Lemma prepared_claimed n X l : n ∈ live w → claim o (Some p) n X l → claimed (flush_begun w o p) n X l.
Proof using All.
  intros Hn Hx i wr Hi Ha Hns Hlt. simpl in Hi. pose proof (pp_key _ _ _ _ _ _ _ Hp) as Hk.
  assert (n = ns → ∃ st, pending (obs w) !! (ns, v) = Some st ∧ tail = fs_tail st) as Hst.
  { intros ->. destruct (sealed_pending w ns v Hc Hf Hn Hs) as (st & Hst & _). exists st. split; [done|]. by apply Hsame. }
  assert (∀ l', held w n l' i → held (flush_begun w o p) n l' i) as Hheld.
  { intros [| |u]; [done| |done]. unfold held, on_disk, being_written. rewrite Hf. set_solver. }
  assert (n = ns → w_at wr < new_safe p → i ∈ on_disk (flush_begun w o p)) as Hnew.
  { intros -> Hlt'. destruct (Hst eq_refl) as (st & Hst' & Ht). pose proof (pp_fold _ _ _ _ _ _ _ Hp) as [Hfo _].
    rewrite (pp_pend _ _ _ _ _ _ _ Hp), Ht in Hfo. destruct (fold_claim w ns v st _ _ Hc Hf Hn Hst' Hfo) as [Hcl _].
    unfold on_disk, being_written. simpl. fold (flush_key p). rewrite Hk. destruct (Hcl i wr Hi Ha Hns Hlt') as [?|(s & -> & ?)]; set_solver. }
  destruct (snapshot_claims w raised (λ i, i ∈ on_disk (flush_begun w o p)) Hc) with (ns := n) (i := i) (wr := wr) as [Hsc Hss]; try done.
  { intros j Hj. by apply elem_of_union_l. }
  { intros n' q Hq. by apply raise_safe_last. }
  { intros q [(q0 & Hq & ->)|[-> ->]]%raise_safe_lookup Hlt'; [|by apply Hnew]. apply elem_of_union_l.
    by apply (co_claimed w Hc n _ _ Hn (c_progress _ _ _ _ Hq) i wr). }
  rewrite <-(pp_snapshot _ _ _ _ _ _ _ Hp) in Hsc, Hss.
  destruct (prepared_claim n X l Hx) as [H'|[(-> & -> & ->)|(-> & [[-> ->]|[->|Hin]])]].
  - apply Hheld. by apply (co_claimed w Hc n X l Hn H' i wr).
  - destruct (Hst eq_refl) as (st & Hst' & Ht). rewrite Ht in Hlt. apply Hheld. by apply (co_claimed w Hc ns _ _ Hn (c_pending _ _ ns v st Hst') i wr).
  - by apply Hnew.
  - by apply Hsc.
  - by eapply Hss.
Qed.

Lemma prepared_flush_ok : flush_ok (flush_begun w o p) p.
Proof using Hc Hf Hs Hsame Hp.
  pose proof (pp_key _ _ _ _ _ _ _ Hp) as Hk. assert (p_namespace p = ns) as Hpn by by injection Hk.
  destruct (pp_stored _ _ _ _ _ _ _ Hp) as [S1 S2 S3 S4 S5 S6 S7 (m' & S8 & S9 & S10)]. pose proof (pp_fold _ _ _ _ _ _ _ Hp) as [Hfo _]. simpl in *.
  split; simpl; rewrite ?Hpn, ?Hk, ?S3, ?S4, ?(pp_previous _ _ _ _ _ _ _ Hp); try done.
  - intros Hn. destruct (sealed_pending w ns v Hc Hf Hn Hs) as (st & Hst & _). rewrite (pp_fresh _ _ _ _ _ _ _ Hp), Hst. by apply bool_decide_eq_false.
  - intros key Hkf. destruct (fk_key _ _ _ _ Hfo key Hkf) as (Hn & st & Hst & _). split; [done|]. destruct key as [n u]. simpl in *. subst n.
    rewrite (pp_pend _ _ _ _ _ _ _ Hp), lookup_insert_Some in Hst. destruct Hst as [[Heq _]|[_ Hst]].
    + injection Heq as <-. apply (co_versions w Hc). by left.
    + apply (co_versions w Hc). right. by eexists.
  - intros Hn. destruct (sealed_pending w ns v Hc Hf Hn Hs) as (st & Hst & _). rewrite (pp_pend _ _ _ _ _ _ _ Hp), (Hsame st Hst) in Hfo.
    apply (fold_claim w ns v st _ _ Hc Hf Hn Hst Hfo).
  - rewrite (pp_snapshot _ _ _ _ _ _ _ Hp). apply (compute_cut_cases raised (obs w)).
  - by exists m'.
Qed.

Lemma prepared_inv base es : log_inv w base es → db_inv (flush_begun w o p).
Proof using All.
  intros Hl. pose proof (pp_key _ _ _ _ _ _ _ Hp) as Hk. pose proof prepared_flush_ok as Hok.
  destruct (pp_stored _ _ _ _ _ _ _ Hp) as [S1 S2 S3 S4 S5 S6 S7 (m' & S8 & S9 & S10)]. simpl in *.
  assert (same_writes w (flush_begun w o p)) as Hsw by done.
  split; [|exists base, es].
  - apply (claims_upkeep w); try done; simpl; rewrite ?S3, ?S6; try done.
    + intros key s Hks. by left.
    + intros key. rewrite S5, (pp_pend _ _ _ _ _ _ _ Hp), lookup_insert_is_Some. intros [<-|[_ ?]]; [by right|by left].
    + intros n q _ Hq. exists q. split; [done|lia].
    + intros n X l Hx. apply (accounted_le w X Hc). by eapply prepared_accounted.
    + intros n X l Hn Hx. by apply prepared_claimed.
    + intros key st. rewrite S5. intros Hst. by apply (pend_accounted key st).
    + intros n u Hn Hsn. rewrite S5, (pp_pend _ _ _ _ _ _ _ Hp), Hk. destruct (decide ((ns, v) = (n, u))) as [Heq|Hne].
      * injection Heq as <- <-. rewrite lookup_insert_eq. by eexists.
      * rewrite lookup_insert_ne by done. destruct (sealed_pending w n u Hc Hf Hn Hsn) as (st & Hst & Hfl). exists st. split; [done|].
        rewrite Hfl. split; [done|]. intros Heq. by apply (inj Some) in Heq.
    + by intros ? [= <-].
  - apply (same_log w); try done; simpl; rewrite ?S3; try done.
    + intros n X l Hx. destruct (prepared_accounted n X l Hx) as [?|[?|(n' & l' & ?)]]; [by left|right; right; by left|].
      right; right; right. exists l'. right. by exists n'.
    + rewrite S8. simpl. rewrite S9, (pp_snapshot _ _ _ _ _ _ _ Hp). apply (compute_cut_cases raised (obs w)).
Qed.
End prepared.

Lemma prepare_inv w ns v io :
  db_inv w → flushing w = None → is_Some (sealed w !! (ns, v)) → clean io → db_inv (prepare io ns v w).
Proof using All.
  intros Hw Hf Hs Hio. pose proof Hw as [Hc (base & es & Hl)]. unfold prepare.
  destruct (pending_tail w ns v Hc) as [Ht Hsame]. pose proof (prepare_written_cases io ns v w Hc Hio) as Hcases. simpl in Ht, Hsame, Hcases.
  set (tail := if fs_tail _ =? 0 then _ else _) in *.
  destruct Hcases as (p & [(o & -> & Hp)|(-> & Hk & Hfr)]).
  - refine (prepared_inv w ns v tail _ p o Hc Hf Hs Ht _ _ Hp base es Hl).
    + intros st Hst. rewrite Hsame by by eexists. by rewrite Hst.
    + destruct (pending (obs w) !! (ns, v)) as [st|] eqn:Hst.
      * right; right. exists ns, (OrSealed v). rewrite Hsame by by eexists. simpl. by eauto with wal.
      * right; left. done.
  - apply settle_inv; [done|]. apply withdraw_settles; [done|by right|..]; rewrite ?Hk; simpl.
    + intros Hf1 n Heq. injection Heq as -> _. intros Hn. destruct (sealed_pending w ns v Hc Hf Hn Hs) as (st & Hst & _).
      rewrite Hfr, Hst in Hf1. by apply bool_decide_eq_true in Hf1.
    + intros st. rewrite lookup_insert_eq. intros [= <-] Hf0. rewrite Hfr in Hf0. apply bool_decide_eq_false in Hf0. simpl.
      destruct (pending (obs w) !! (ns, v)) as [st0|]; [|done]. exists st0. split; [done|]. by apply Hsame.
    + intros n u _ _ _. by rewrite lookup_insert_eq.
    + intros key Hne. by rewrite lookup_insert_ne.
    + intros n u Hn Hsn _. by apply sealed_pending.
Qed.

Lemma foldl_delete (ks : list (Z * Z)) (m : gmap (Z * Z) WalFlushState) k x :
  foldl (λ m key, delete key m) m ks !! k = Some x ↔ k ∉ ks ∧ m !! k = Some x.
Proof using.
  revert m. induction ks as [|k' ks IH]; intros m; cbn [foldl].
  - split; [intros Hx; split; [by apply not_elem_of_nil|done]|by intros [_ ?]].
  - rewrite IH, lookup_delete_Some, not_elem_of_cons. naive_solver.
Qed.

Lemma finished_claim w p n X l : flushing w = Some p → claim (commit_prepared p (obs w)) None n X l →
  ∃ l', claim (obs w) (flushing w) n X l' ∧ ∀ i, held w n l' i → held (finish_flush p w) n l i.
Proof using.
  intros Hf Hx. rewrite Hf. assert (∀ i, i ∈ on_disk w → i ∈ on_disk (finish_flush p w)) as Hd by (intros i Hi; by apply elem_of_union_l).
  destruct Hx as [|s Hsf|q Hpr|m Hm|m s Hm Hsf|u st Hst|q Hfl Hpn2|q Hfl|q s Hfl Hsf]; try done.
  - exists OnDisk. split; [|done]. simpl. by eauto with wal.
  - exists OnDisk. split; [|done]. simpl in Hsf. by eauto with wal.
  - simpl in Hpr. apply raise_safe_lookup in Hpr as [(q0 & Hq & ->)|[-> ->]].
    + exists OnTables. split; [by eauto with wal|]. intros i Hi. by apply elem_of_union_l.
    + exists OnDisk. split; [|done]. by eauto with wal.
  - exists OnDisk. split; [by eauto with wal|done].
  - exists OnDisk. split; [by eauto with wal|done].
  - apply foldl_delete in Hst as [_ Hst]. exists (OrSealed u). split; [by eauto with wal|].
    intros i [Hi|(v' & s & Hv' & Hs & Hi)]; [left; by apply elem_of_union_l|].
    destruct (decide ((n, v') = flush_key p)) as [Heq|Hne].
    + left. apply elem_of_union_r. unfold being_written. rewrite Hf. fold (flush_key p). by rewrite <-Heq, Hs.
    + right. exists v', s. split; [done|]. split; [|done]. simpl. by rewrite lookup_delete_ne.
Qed.

Lemma finish_flush_inv w p : db_inv w → flushing w = Some p → db_inv (finish_flush p w).
Proof using All.
  intros [Hc (base & es & Hl)] Hf. destruct (co_flush w Hc p Hf) as [G1 G2 G3 G4 G5 G6 G7 (mf & G8 & G9)].
  assert (same_writes w (finish_flush p w)) as Hsw by done.
  assert (tables w ⊆ on_disk w) as Hsub by apply union_subseteq_l.
  pose proof (finished_claim w p) as Hcl.
  split; [|exists base, es].
  - apply (claims_upkeep w); try done.
    + intros key s Hs. destruct (decide (key = flush_key p)) as [->|Hne].
      * right. simpl. unfold on_disk, being_written. rewrite Hf. fold (flush_key p). rewrite Hs. apply union_subseteq_r.
      * left. simpl. by rewrite lookup_delete_ne.
    + intros key [s Hs]. simpl in Hs. apply lookup_delete_Some in Hs as [_ ?]. by exists s.
    + intros key [st Hst]. simpl in Hst. apply foldl_delete in Hst as [_ ?]. left. by exists st.
    + intros n q _ Hq. by apply raise_safe_last.
    + intros n X l Hx. destruct (Hcl n X l Hf Hx) as (l' & Hx' & _). by eapply co_ceiling.
    + intros n X l Hn Hx i wr Hi Ha Hns Hlt. destruct (Hcl n X l Hf Hx) as (l' & Hx' & Hh). apply Hh. by eapply (co_claimed w Hc n X l').
    + intros key st Hst. simpl in Hst. apply foldl_delete in Hst as [_ ?]. by eapply co_pending.
    + intros n u Hn [s Hs]. simpl in Hs. apply lookup_delete_Some in Hs as [Hne Hs]. fold (flush_key p) in Hne.
      destruct (co_sealed w Hc n u Hn) as (st & Hst & Hfl); [by eexists|]. exists st. split.
      * simpl. apply foldl_delete. split; [|done]. intros Hin. destruct (G3 _ Hin) as [Hpn _]. simpl in Hpn. subst n.
        rewrite G4 in Hs; [done|done|done|by intros Heq; apply Hne].
      * simpl. rewrite Hf in Hfl. split; [|done]. intros Ht%Hfl. by apply (inj Some) in Ht.
  - apply (same_log w); try done.
    + intros i wr Hi Hn Ha Ht. split; [done|]. intros Hx. by apply Ht, Hsub.
    + intros n X l Hx. destruct (Hcl n X l Hf Hx) as (l' & Hx' & _). right; right; right. exists l'. by left.
    + simpl. rewrite G8. simpl. lia.
Qed.

Lemma undo_flush_inv w p : db_inv w → flushing w = Some p → db_inv (undo_flush Saved p w).
Proof using All.
  intros Hw Hf. pose proof Hw as [Hc _]. destruct (co_flush w Hc p Hf) as [G1 G2 G3 G4 G5 G6 G7 _].
  unfold undo_flush, abort_prepared. destruct (write_metadata Saved (previous p) (obs w)) as [o ok] eqn:Hwm.
  destruct (write_metadata_clean Saved _ _ _ _ I Hwm) as [[-> ->]|[-> Hst]]; [done|].
  assert (pending o = pending (obs w)) as Hpe by apply Hst.
  apply settle_inv; [done|]. apply withdraw_settles; [done|..].
  - left. destruct Hst as [S1 S2 S3 S4 S5 S6 S7 (m' & S8 & S9 & S10)]. split; simpl; try done. exists m'. rewrite <-G5, <-G6. done.
  - intros Hfr n Heq Hn. unfold flush_key in Heq. injection Heq as ->. by rewrite G2 in Hfr.
  - rewrite Hpe. eauto.
  - intros n u Hn Heq Hfr. rewrite Hpe, <-Heq. rewrite <-Heq in G1. destruct (co_sealed w Hc n u Hn G1) as (st & Hst' & _). by eexists.
  - by rewrite Hpe.
  - intros n u Hn Hs Hne. destruct (co_sealed w Hc n u Hn Hs) as (st & Hst' & Hfl). exists st. split; [done|].
    rewrite Hf in Hfl. destruct (flushed st); [|done]. destruct Hfl as [Hfl _]. specialize (Hfl eq_refl). by apply (inj Some) in Hfl.
Qed.
End flush.
