(* ===== verification/WalMeta.v ===== *)
(** * WalMeta: namespaces, field positions and garbage collection keep the invariant

    The rest of the upkeep steps of [WalRetire], and all of them together. *)
From S2P Require Import Prelude Slices Bytes LogProgress CommitRounds SegmentedLog LogFrames LogOpen LogWrites LogReads LogSpec Wal WalObserver WalRetire WalInvariant WalUpkeep WalFlush.
#[local] Open Scope minnal_scope.

Section meta.
Context `{CrcLaws} `{RkyvEntryLaws}.

(** ** Committing progress *)

Lemma commit_progress_inv w io :
  db_inv w → flushing w = None → clean io → db_inv (settled w (commit_progress io (ns_progress (obs w)) (obs w)).1).
Proof using All.
  intros Hw Hf Hio. pose proof Hw as [Hc (base & es & Hl)]. unfold commit_progress.
  set (snap := progress_snapshot _ _). destruct (write_metadata io snap (obs w)) as [o ok] eqn:Hwm.
  destruct (write_metadata_clean _ _ _ _ _ Hio Hwm) as [[-> ->]|[-> [S1 S2 S3 S4 S5 S6 S7 (m' & S8 & S9 & S10)]]]; cbn [fst].
  { replace (settled w (obs w)) with w; [done|]. unfold settled. rewrite <-Hf. by destruct w. }
  set (w' := settled w _). assert (same_writes w w') as Hsw by done.
  destruct (compute_cut_cases (ns_progress (obs w)) (obs w)) as [Hgrow _].
  assert (∀ n X l, claim (obs w') (flushing w') n X l →
    claim (obs w) (flushing w) n X l ∨ X = m_cut snap ∨ (n, X) ∈ m_safe snap) as Hcl.
  { intros n X l Hx. destruct Hx as [|s Hsf|q Hpr|m Hm|m s Hm Hsf|u st Hst|q Hfl Hpn2|q Hfl|q s Hfl Hsf]; try done; simpl in *.
    - right; by left.
    - right; by right.
    - left. rewrite S6 in Hpr. by eauto with wal.
    - right; left. rewrite S8 in Hm. by injection Hm as <-.
    - right; right. rewrite S8 in Hm. injection Hm as <-. by rewrite <-S10.
    - left. rewrite S5 in Hst. by eauto with wal. }
  assert (accounted w (m_cut snap) ∧ ∀ n s, (n, s) ∈ m_safe snap → accounted w s) as [Ha1 Ha2].
  { apply snapshot_bounded; [right; right; exists 0, OnTables; by eauto with wal|right; by left|].
    intros n q Hq. right; right. exists n, OnTables. by eauto with wal. }
  assert (∀ n X l, claim (obs w') (flushing w') n X l → accounted w X) as Hacc.
  { intros n X l [?|[->|?]]%Hcl; [right; right; by eauto|done|by eapply Ha2]. }
  assert (∀ n l i, held w n l i → held w' n l i) as Hheld.
  { intros n [| |u] i; [done| |done]. unfold held, on_disk, being_written. by rewrite Hf. }
  split; [|exists base, es].
  - apply (claims_upkeep w); try done; simpl; rewrite ?S5, ?S6; try done.
    + intros key s Hs. by left.
    + by left.
    + intros n q _ Hq. exists q. split; [done|lia].
    + intros n X l Hx. apply accounted_le; [done|]. by eapply Hacc.
    + intros n X l Hn Hx i wr Hi Ha Hns Hlt.
      destruct (snapshot_claims w (ns_progress (obs w)) (λ i, i ∈ tables w) Hc) with (ns := n) (i := i) (wr := wr) as [Hsc Hss]; try done.
      { intros n' q Hq. exists q. split; [done|lia]. }
      { intros q Hq Hlt'. by apply (co_claimed w Hc n _ _ Hn (c_progress _ _ _ _ Hq) i wr). }
      assert (i ∈ tables w → held w' n l i) as Htab.
      { intros Ht. destruct l; simpl; [done|by apply elem_of_union_l|by left]. }
      destruct (Hcl n X l Hx) as [H'|[->|Hin]]; [|by apply Htab, Hsc|by eapply Htab, Hss].
      apply Hheld. by apply (co_claimed w Hc n X l Hn H' i wr).
    + apply Hc.
    + intros n u Hn Hsn. destruct (sealed_pending w n u Hc Hf Hn Hsn) as (st & Hst & Hfl). exists st. split; [done|]. by rewrite Hfl.
  - apply (same_log w); try done.
    + intros n X l Hx. destruct (Hacc n X l Hx) as [?|[?|(n' & l' & ?)]]; [by left|right; right; by left|].
      right; right; right. exists l'. right. by exists n'.
    + simpl. rewrite S8. simpl. rewrite S9. done.
Qed.

Lemma forget_inv w ns io :
  db_inv w → flushing w = None → dead w ns → clean io → db_inv (set_obs w (forget_namespace io ns (obs w))).
Proof using All.
  intros Hw Hf Hd Hio. pose proof (forgotten_inv w ns Hw Hf Hd) as Hw1.
  replace (set_obs w _) with (settled w (forget_namespace io ns (obs w))) by (unfold settled, set_obs; by rewrite Hf).
  apply (commit_progress_inv (settled w _) io Hw1 eq_refl Hio).
Qed.

(** ** Namespaces *)

Lemma create_inv w ns :
  db_inv w → ns ∉ ever w →
  db_inv (mk_World (obs w) (writes w) (active w) (sealed w) (tables w) (next_version w) ({[ns]} ∪ live w) ({[ns]} ∪ ever w) (flushing w)).
Proof using All.
  intros [Hc (base & es & Hl)] Hn. set (w' := mk_World _ _ _ _ _ _ _ _ _). destruct (co_ever w Hc) as (E1 & E2 & E3).
  assert (∀ i wr, writes w !! i = Some wr → applied_state (w_state wr) → w_ns wr ∈ live w' → w_ns wr ∈ live w) as Hlw.
  { intros i wr Hi Ha [Heq%elem_of_singleton|?]%elem_of_union; [|done]. destruct Hn. rewrite <-Heq. by eapply E2. }
  assert (∀ n v, n ∈ live w' → is_Some (sealed w !! (n, v)) → n ∈ live w) as Hls.
  { intros n v [->%elem_of_singleton|?]%elem_of_union Hs; [|done]. destruct Hn. by eapply E3. }
  assert (∀ n, dead w n → dead w' n) as Hdead.
  { intros n [He Hl']. split; [by apply elem_of_union_r|]. intros [->%elem_of_singleton|?]%elem_of_union; done. }
  split; [split|exists base, es; split]; try apply Hc; try apply Hl.
  - intros n X l Hnl Hx i wr Hi Ha Hns Hlt. apply (co_claimed w Hc n X l) with (wr := wr); try done. rewrite <-Hns.
    apply (Hlw i wr Hi); [by right|by rewrite Hns].
  - intros n v Hnl Hs. apply (co_sealed w Hc n v); [by eapply Hls|done].
  - intros i wr Hi Ha Hnl. apply (co_memory w Hc i wr Hi Ha). by eapply Hlw.
  - intros i wr Hi Hno Hd Hti. apply (co_noted w Hc i wr Hi Hno); [|done]. intros Hx. by apply Hd, Hdead.
  - split; [set_solver|]. split; [intros i wr Hi Ha; apply elem_of_union_r; by eapply E2|intros n v Hs; apply elem_of_union_r; by eapply E3].
  - intros p Hf. destruct (co_flush w Hc p Hf) as [G1 G2 G3 G4 G5 G6 G7 G8]. split; try done.
    + intros Hp. apply G2. by eapply Hls.
    + intros Hp. apply G4. by eapply Hls.
  - intros i wr Hi. by destruct (li_write _ _ _ Hl i wr Hi).
  - intros i wr Hi Ha Hnl Hti. apply (li_acked _ _ _ Hl i wr Hi Ha); [|done]. apply (Hlw i wr Hi); [by right|done].
Qed.

Lemma drop_inv w ns :
  db_inv w → db_inv (mk_World (obs w) (writes w) (active w) (sealed w) (tables w) (next_version w) (live w ∖ {[ns]}) (ever w) (flushing w)).
Proof using All.
  intros [Hc (base & es & Hl)]. set (w' := mk_World _ _ _ _ _ _ _ _ _). destruct (co_ever w Hc) as (E1 & E2 & E3).
  assert (∀ n, n ∈ live w' → n ∈ live w) as Hlw by (intros n; by intros [? _]%elem_of_difference).
  split; [split|exists base, es; split]; try apply Hc; try apply Hl.
  - intros n X l Hn%Hlw. by apply (co_claimed w Hc n X l).
  - intros n v Hn%Hlw. by apply (co_sealed w Hc n v).
  - intros i wr Hi Ha Hn%Hlw. by apply (co_memory w Hc i wr).
  - intros i wr Hi Hno Hd. apply (co_noted w Hc i wr Hi Hno). intros [? Hx]. apply Hd. split; [done|]. by intros ?%Hlw.
  - split; [by intros n ?%Hlw%E1|done].
  - intros p Hf. destruct (co_flush w Hc p Hf) as [G1 G2 G3 G4 G5 G6 G7 G8]. split; try done; intros ?%Hlw; [by apply G2|by apply G4].
  - intros i wr Hi. by destruct (li_write _ _ _ Hl i wr Hi).
  - intros i wr Hi Ha Hn%Hlw. by apply (li_acked _ _ _ Hl i wr).
Qed.

(** ** What no claim depends on *)

Lemma claims_same w w' :
  claims_ok w → same_upkeep w w' → writes w' = writes w → active w' = active w → in_flight (obs w') = in_flight (obs w) →
  m_tail (wal_metadata (obs w')) = m_tail (wal_metadata (obs w)) → ns_progress (obs w') = ns_progress (obs w) → claims_ok w'.
Proof using.
  intros Hc Hs Hw Ha Hf Ht Hp. pose proof Hs as []. apply (claims_write w); [done|done|..].
  - intros ns p. rewrite Hp. eauto.
  - unfold wal_cut_ceiling. by rewrite Hf, Ht.
  - rewrite Hw. intros i wr Hi. split; [|by left]. destruct (claims_write_ok w i wr Hc Hi) as [W1 W2 W3 W4].
    split; rewrite ?Ha, ?Hp, ?su_live, ?su_sealed, ?su_tables, ?su_ever; try done. unfold dead. by rewrite su_ever, su_live.
  - unfold flight_ok. rewrite Hw, Hf. apply (co_flight w Hc).
Qed.

Lemma fields_inv w consumers : db_inv w → db_inv (set_obs w (set_consumers (obs w) consumers)).
Proof using All.
  intros [Hc (base & es & Hl)]. split; [by apply (claims_same w)|]. exists base, es.
  assert (same_writes w (set_obs w (set_consumers (obs w) consumers))) as Hsw by done.
  apply (same_log w); try done.
  - intros ns X l Hx. right; right; right. exists l. left. destruct Hx; first [exact (c_cut (obs w) (flushing w) ns)|by eauto with wal].
  - apply Hl.
Qed.

(** ** Garbage collection *)

(** Segments are reclaimed from the oldest on, below the cut and the active one. *)
Lemma plan_below cap m current watermark s :
  s ∈ reclaim (plan_wal_gc cap m current watermark) → segment_of (head m) ≤ s ∧ s < current ∧ s < segment_of (m_cut m).
Proof using.
  unfold plan_wal_gc. set (ready := seqZ _ _).
  assert (∀ x, x ∈ ready → segment_of (head m) ≤ x ∧ x < current ∧ x < segment_of (m_cut m)) as Hr.
  { intros x Hx. apply elem_of_seqZ in Hx. lia. }
  destruct watermark as [wm|]; [|by apply Hr]. cbn [reclaim]. rewrite merge_sort_Permutation, elem_of_app. intros [Hs|Hs].
  - apply list_elem_of_filter in Hs as [_ ?]. by apply Hr.
  - apply elem_of_take in Hs as (i & Hs & _). apply list_elem_of_lookup_2, list_elem_of_filter in Hs as [_ ?]. by apply Hr.
Qed.

Lemma garbage_collect_spec cap watermark fails o :
  ∃ id, id ≤ segment_of (m_cut (wal_metadata o)) ∧
  let o' := (garbage_collect cap watermark fails o).1 in
  ((wal o' = wal o) ∨ wal o' = (delete_segments_below (wal o) id fails).1) ∧
  m_cut (wal_metadata o') = m_cut (wal_metadata o) ∧ m_safe (wal_metadata o') = m_safe (wal_metadata o) ∧
  m_tail (wal_metadata o') = m_tail (wal_metadata o) ∧ metadata_file o' = metadata_file o ∧ pending o' = pending o ∧
  ns_progress o' = ns_progress o ∧ in_flight o' = in_flight o.
Proof using.
  unfold garbage_collect. set (plan := plan_wal_gc _ _ _ _).
  destruct (last (reclaim plan)) as [l|] eqn:Hlast.
  - exists (l + 1). apply last_Some_elem_of in Hlast. apply plan_below in Hlast. split; [lia|].
    destruct (delete_segments_below _ _ _) as [log [[n b]|e]]; simpl; (split; [by right|done]).
  - exists (segment_of (m_cut (wal_metadata o))). split; [lia|]. simpl. split; [by left|done].
Qed.

Lemma segment_of_mono a b : a ≤ b → segment_of a ≤ segment_of b.
Proof using. intros. rewrite !segment_of_eq. apply Z.div_le_mono; lia. Qed.

Lemma collect_inv w cap watermark fails : db_inv w → db_inv (set_obs w (garbage_collect cap watermark fails (obs w)).1).
Proof using All.
  intros [Hc (base & es & Hl)]. destruct (garbage_collect_spec cap watermark fails (obs w)) as (id & Hid & Hwal & G1 & G2 & G3 & G4 & G5 & G6 & G7).
  set (o := (garbage_collect _ _ _ _).1) in *. set (w' := set_obs w o).
  assert (same_upkeep w w') as Hs by done.
  assert (progress_kept w w') as Hpk by (intros ns p Hp; simpl in Hp; rewrite G6 in Hp; eauto).
  split; [by apply (claims_same w)|].
  set (cut := m_cut (wal_metadata (obs w))) in *.
  assert (∃ base', (base' = base ∨ base' ≤ id) ∧ base ≤ base' ∧ tail (wal o) = tail (wal (obs w)) ∧ rounds (wal o) = rounds (wal (obs w)) ∧
    holds_from (wal o) base' (filter (λ pe : WalPointer * WalEntry, base' ≤ segment_of (offset pe.1)) es) ∧
    ∀ pe, pe ∈ es → id ≤ segment_of (offset pe.1) → base' ≤ segment_of (offset pe.1)) as (base' & Hb & Hbb & Ht & Hro & Hh & Hkeep).
  { destruct Hwal as [->|Hwal].
    - exists base. split; [by left|]. split; [lia|]. split; [done|]. split; [done|].
      assert (Forall (λ pe : WalPointer * WalEntry, base ≤ segment_of (offset pe.1)) es) as Hall.
      { apply Forall_forall. intros pe Hpe. destruct (holds_place _ _ _ _ (li_holds _ _ _ Hl) Hpe) as [[_ ? _ _] _]. done. }
      split; [rewrite filter_all; [apply Hl|by apply Forall_forall]|]. intros pe Hpe _. by apply (proj1 (Forall_forall _ _) Hall).
    - destruct (delete_segments_below (wal (obs w)) id fails) as [log r] eqn:Hde. simpl in Hwal. rewrite Hwal.
      destruct (holds_delete _ base es _ _ _ _ (li_holds _ _ _ Hl) Hde) as (base' & ? & ? & ? & ? & ? & Hro). exists base'. done. }
  assert (log_durable (wal o) = log_durable (wal (obs w))) as Hd by (unfold log_durable; by rewrite Hro).
  assert (∀ X, cut ≤ X → place (wal (obs w)) base es X → place (wal o) base' (filter (λ pe : WalPointer * WalEntry, base' ≤ segment_of (offset pe.1)) es) X) as Hplace.
  { intros X HX Hp. assert (base' ≤ segment_of X) as HbX.
    { pose proof (pl_base _ _ _ _ Hp). pose proof (segment_of_mono cut X HX). lia. }
    eapply place_mono; [exact Hp|lia|done|]. intros pe Hpe HXe. apply list_elem_of_filter. split; [|done].
    destruct (holds_place _ _ _ _ (li_holds _ _ _ Hl) Hpe) as (_ & _ & He). rewrite <-HXe in He. lia. }
  assert (∀ pe, pe ∈ es → cut ≤ offset pe.1 → pe ∈ filter (λ pe : WalPointer * WalEntry, base' ≤ segment_of (offset pe.1)) es) as Hin.
  { intros pe Hpe HX. apply list_elem_of_filter. split; [|done]. apply Hkeep; [done|]. pose proof (segment_of_mono cut _ HX). lia. }
  pose proof (ceiling_self (obs w)) as [Hce1 Hce2]. pose proof (co_ceiling w Hc 0 _ _ (c_cut _ _ 0)) as Hcc. fold cut in Hcc.
  exists base'. eexists. split; simpl; rewrite ?G1, ?G3, ?G4, ?Ht.
  - exact Hh.
  - apply Hl.
  - intros pe [_ Hpe]%list_elem_of_filter. by apply (li_ends _ _ _ Hl).
  - intros i wr Hi. destruct (li_write _ _ _ Hl i wr Hi) as [L1 L2 L3]. split; simpl; rewrite ?G3, ?Hd; [done| |done].
    intros Hfl. destruct (L2 Hfl) as [? ?]. split; [|done]. apply Hin; [done|]. destruct (co_flight w Hc) as (F1 & _).
    pose proof (Hce2 (w_at wr)) as Hat. rewrite (F1 i wr Hi Hfl) in Hat. specialize (Hat ltac:(done)). unfold w_at in Hat. simpl. lia.
  - intros i wr Hi Ha Hn Hti. destruct (li_acked _ _ _ Hl i wr Hi Ha Hn Hti). rewrite Hd. split; [|done]. apply Hin; [done|].
    destruct (Z.le_gt_cases cut (w_at wr)) as [|Hlt]; [done|]. destruct Hti.
    by apply (co_claimed w Hc _ _ _ Hn (c_cut _ _ (w_ns wr)) i wr).
  - intros ns X l Hx. destruct (claim_write w w' Hs Hpk _ _ _ Hx) as [->|Hx']; [by left|].
    destruct (li_place _ _ _ Hl ns X l Hx') as [?|[?|?]]; [by left|by right; left|]. destruct (Z.le_gt_cases cut X); [right; right|right; left; lia].
    by apply Hplace.
  - apply Hplace; [lia|apply Hl].
  - apply Hl.
  - unfold undurable_flies. simpl. rewrite Hro, Hd. intros Hp pe [_ Hpe]%list_elem_of_filter. by apply (li_durable _ _ _ Hl).
Qed.

(** ** All upkeep *)

Lemma upkeep_step_inv w w' : db_inv w → upkeep_step w w' → db_inv w'.
Proof using All.
  intros Hw [].
  - by apply seal_inv.
  - by apply prepare_inv.
  - by apply finish_flush_inv.
  - by apply undo_flush_inv.
  - by apply save_inv.
  - by apply create_inv.
  - by apply drop_inv.
  - by apply forget_inv.
  - by apply fields_inv.
  - by apply collect_inv.
Qed.
End meta.
