(* ===== verification/WalCrash.v ===== *)
(** * WalCrash: recovery after a power loss keeps the invariant

    What the saved progress names is in the log, so the log opens; what it does not claim is
    in what the log kept, so recovery replays it. *)
From S2P Require Import Prelude Slices Bytes LogProgress CommitRounds SegmentedLog LogFrames LogOpen LogWrites LogReads LogSpec Wal WalObserver WalRetire WalInvariant WalUpkeep WalFlush WalMeta.
#[local] Open Scope minnal_scope.

(** ** Where a namespace's replay starts *)

Lemma bsearch_loop_Ok {A} (cmp : A → comparison) (l : list A) fuel lo hi i :
  bsearch_loop cmp l fuel lo hi = Ok i → ∃ x, l !! i = Some x ∧ cmp x = Eq.
Proof.
  revert lo hi. induction fuel as [|fuel IH]; intros lo hi; cbn [bsearch_loop]; [done|]. cbv zeta.
  repeat case_match; naive_solver.
Qed.

Lemma replay_from_cases p ns :
  replay_from p ns = cut p ∨ ∃ s, (ns, s) ∈ safe p ∧ replay_from p ns = Z.max s (cut p).
Proof.
  unfold replay_from, binary_search_by. destruct (bsearch_loop _ _ _ _ _) as [i|i] eqn:Hb; [|by left].
  apply bsearch_loop_Ok in Hb as ([n s] & Hi & Hc). rewrite Hi. right. apply Z.compare_eq_iff in Hc. simpl in Hc. subst n.
  exists s. split; [by eapply list_elem_of_lookup_2|done].
Qed.

Lemma has_segments_true (dir : segment_dir) : has_segments dir = true ↔ ∃ id, is_Some (dir !! id).
Proof.
  unfold has_segments. rewrite negb_true_iff, bool_decide_eq_false. assert (∀ id, id ∈ list_segments dir ↔ is_Some (dir !! id)) as Hin.
  { intros id. unfold list_segments. by rewrite merge_sort_Permutation, elem_of_elements, elem_of_dom. }
  destruct (list_segments dir) as [|id l]; split; try done.
  - intros [id Hs]. by apply Hin, elem_of_nil in Hs.
  - intros _. exists id. apply Hin. left.
Qed.

Section crash.
Context `{CrcLaws} `{RkyvEntryLaws}.

(** ** Places *)

Lemma holds_base log base es : holds_from log base es → 0 ≤ base.
Proof using. intros (segs & bodies & Hl & _). apply (lo_base _ _ _ _ _ Hl). Qed.

Lemma place_bounds log base es X : holds_from log base es → place log base es X →
  u64 X ∧ segment_start base ≤ X ∧ base ≤ segment_of X ≤ active_segment log.
Proof using All.
  intros (segs & bodies & Hl & _) [P1 P2 P3 _]. destruct (tail_u32 FORMAT FORMAT_ok _ _ _ _ Hl) as [Hu1 Hu2].
  pose proof (lo_base _ _ _ _ _ Hl) as Hb. pose proof (zlen_nonneg segs). pose proof (segment_of_mono _ _ P1) as Hs. fold (active_segment log) in Hs.
  pose proof (position_u64 _ _ Hu1 Hu2) as Htu. rewrite <-(lo_tail _ _ _ _ _ Hl) in Htu.
  assert (X = segment_of X * 2 ^ 32 + (split X).2) as HX by (rewrite split_pos_eq, segment_of_eq; cbn [snd]; pose proof (Z.div_mod X (2 ^ 32)); lia).
  split; [unfold u64 in *; unfold SEGMENT_HEADER_LEN in *; nia|]. split; [|lia].
  unfold segment_start. rewrite position_eq by (unfold u32, SEGMENT_HEADER_LEN in *; lia). nia.
Qed.

(** Scanning from a place on. *)
Lemma place_boundary log base segs bodies es X : holds_at log base segs bodies es → place log base es X →
  ∃ i b1 b2, boundary base (segs ++ [bodies]) X i b1 b2.
Proof using All.
  intros Hh Hp. pose proof Hh as [Hl Hf]. pose proof (lo_base _ _ _ _ _ Hl) as Hb. pose proof (zlen_nonneg segs).
  destruct (place_bounds log base es X) as (Hu & _ & Hs); [by exists segs, bodies|done|]. destruct (cut_split X Hu) as (Hsp & Hus & HX).
  destruct Hp as [P1 P2 P3 [P4|([p e] & Hin & P4)]].
  - rewrite (active_segment_eq FORMAT FORMAT_ok _ _ _ _ Hl) in Hs. rewrite Hsp in P4. cbn [snd] in P4.
    destruct (lookup_lt_is_Some_2 (segs ++ [bodies]) (Z.to_nat (segment_of X - base))) as [bs Hi]; [rewrite length_app; simpl; unfold zlen in *; lia|].
    exists (Z.to_nat (segment_of X - base)), [], bs. split; [done|]. change (seg_end []) with SEGMENT_HEADER_LEN.
    replace (base + Z.of_nat (Z.to_nat (segment_of X - base))) with (segment_of X) by lia.
    rewrite position_eq by (done || unfold u32, SEGMENT_HEADER_LEN; lia). lia.
  - apply list_elem_of_lookup in Hin as [j Hj].
    destruct (Forall2_lookup_r _ _ _ _ _ Hf Hj) as ([a b] & Hj' & He). apply extract_entry_Ok in He as [_ ->]. apply list_elem_of_lookup_2 in Hj'.
    destruct (record_place FORMAT FORMAT_ok _ _ _ _ _ _ Hl Hj') as (k & b1 & b2 & Hk & _ & _ & _ & _ & Hr & _).
    exists k, (b1 ++ [b]), b2. split; [by rewrite <-app_assoc|]. rewrite <-Hr, P4. unfold record_end, frame_zlen, frame_size. simpl. lia.
Qed.

Lemma scan_from log base es X : holds_from log base es → place log base es X →
  scan_entries log X (tail log) = Ok (filter (λ pe : WalPointer * WalEntry, X ≤ offset pe.1) es).
Proof using All.
  intros (segs & bodies & Hh) Hp. destruct (place_boundary _ _ _ _ _ _ Hh Hp) as (i & b1 & b2 & Hbd). destruct Hh as [Hl Hf].
  unfold scan_entries, wal_walk. rewrite (for_each_spec FORMAT FORMAT_ok _ _ _ _ _ _ _ _ _ _ _ Hl Hbd).
  rewrite (visit_all_walk _ _ (filter (λ pe : WalPointer * WalEntry, X ≤ offset pe.1) es)); [done|]. clear -Hf.
  induction Hf as [|[a b] [p e] recs kept He Hf IH]; [constructor|]. pose proof He as [_ ->]%extract_entry_Ok.
  unfold from_cut_on in *. rewrite !filter_cons. cbn [fst offset]. case_decide; [by constructor|done].
Qed.

Lemma wal_head_base log base es : holds_from log base es → wal_head log = segment_start base.
Proof using All.
  intros (segs & bodies & Hl & _). destruct (list_segments_log FORMAT FORMAT_ok _ _ _ _ Hl) as (n & Hn & Hls). pose proof (zlen_nonneg segs).
  unfold wal_head, oldest_segment. rewrite Hls, seqZ_cons by lia. done.
Qed.

Lemma place_start log base es : holds_from log base es → place log base es (segment_start base).
Proof using All.
  intros (segs & bodies & Hh). pose proof Hh as [Hl _]. pose proof (lo_base _ _ _ _ _ Hl). pose proof (zlen_nonneg segs).
  assert (∃ b, (segs ++ [bodies]) !! 0%nat = Some b) as [b Hb0] by (destruct segs; eauto).
  assert (u32 base) as Hu by (unfold u32; lia). unfold segment_start. rewrite <-(Z.add_0_r base) at 2.
  apply (place_position log base segs bodies es 0 [] b); [done|done|by rewrite Z.add_0_r|unfold u32; change (seg_end []) with 16; lia|].
  destruct (tail_u32 FORMAT FORMAT_ok _ _ _ _ Hl) as [Hu1 Hu2]. rewrite (lo_tail _ _ _ _ _ Hl). change (Z.of_nat 0) with 0. rewrite Z.add_0_r.
  pose proof (seg_end_header bodies). change (seg_end []) with SEGMENT_HEADER_LEN. rewrite !position_eq by (done || unfold u32, SEGMENT_HEADER_LEN; lia). nia.
Qed.

(** ** The saved progress *)

Definition saved_cut (o : WalPersistObserver) : Z := default (segment_start 0) (m_cut <$> metadata_file o).
Definition saved_safe (o : WalPersistObserver) : list (Z * Z) := default [] (m_safe <$> metadata_file o).

(** The saved cut is a place of the log, and so is every offset of a namespace above it. *)
Lemma saved_places w base es :
  claims_ok w → log_inv w base es →
  place (wal (obs w)) base es (saved_cut (obs w)) ∧ m_cut (wal_metadata (obs w)) ≤ saved_cut (obs w) ∧
  (metadata_file (obs w) = None → base = 0) ∧
  ∀ ns s, (ns, s) ∈ saved_safe (obs w) → s ≤ tail (wal (obs w)).
Proof using All.
  intros Hc Hl. pose proof (li_cut _ _ _ Hl) as Hcut. fold (saved_cut (obs w)) in Hcut. pose proof (co_cut w Hc) as H0c.
  pose proof (holds_base _ _ _ (li_holds _ _ _ Hl)) as Hb.
  assert (∀ ns X l, claim (obs w) (flushing w) ns X l → X ≤ tail (wal (obs w))) as Hle.
  { intros ns X l Hx. pose proof (co_ceiling w Hc _ _ _ Hx). pose proof (ceiling_self (obs w)) as [? _]. pose proof (li_tail _ _ _ Hl). lia. }
  unfold saved_cut, saved_safe in *. destruct (metadata_file (obs w)) as [m|] eqn:Hm; simpl in *.
  - split; [|split; [done|split; [done|]]].
    + destruct (li_place _ _ _ Hl 0 _ _ (c_file_cut _ _ _ _ Hm)) as [?|[?|?]]; [lia|lia|done].
    + intros ns s Hs. by eapply Hle, c_file.
  - destruct (li_place _ _ _ Hl 0 _ _ (c_cut _ _ _)) as [?|[?|Hp]]; [lia|lia|].
    destruct (place_bounds _ _ _ _ (li_holds _ _ _ Hl) Hp) as (Hu & Hst & Hs).
    pose proof (segment_of_mono _ _ Hcut) as Hs0. change (segment_of (segment_start 0)) with 0 in Hs0. assert (base = 0) as -> by lia.
    assert (m_cut (wal_metadata (obs w)) = segment_start 0) as Heq by lia. rewrite Heq in Hp. split; [done|]. split; [done|]. split; [done|].
    intros ns s Hin. by apply elem_of_nil in Hin.
Qed.

Lemma furthest_le p t : cut p ≤ t → (∀ ns s, (ns, s) ∈ safe p → s ≤ t) → furthest p ≤ t.
Proof using.
  intros Hc Hs. unfold furthest. induction (safe p) as [|[n s] l IH]; [done|]. csimpl.
  apply Z.max_lub; [apply (Hs n); left|]. apply IH. intros n' s' Hin. apply (Hs n'). by right.
Qed.

(** It fits what any power loss leaves. *)
Lemma saved_fits w base es dir' :
  claims_ok w → log_inv w base es → power_loss FORMAT (wal (obs w)) dir' →
  from_fits (wal (obs w)) dir' (open_from (progress <$> metadata_file (obs w))).
Proof using All.
  intros Hc Hl Hpl. destruct (saved_places w base es Hc Hl) as (Hp & _ & Hbase & Hsafe).
  destruct (place_bounds _ _ _ _ (li_holds _ _ _ Hl) Hp) as (Hu & Hst & Hs). pose proof (holds_base _ _ _ (li_holds _ _ _ Hl)) as Hb.
  pose proof (li_holds _ _ _ Hl) as (segs & bodies & Hlo & Hf). pose proof (active_segment_eq FORMAT FORMAT_ok _ _ _ _ Hlo) as Hact.
  assert (∀ id, base ≤ id ≤ active_segment (wal (obs w)) → is_Some (dir' !! id)) as Hthere.
  { intros id Hid. rewrite Hact in Hid. assert (is_Some (dir (wal (obs w)) !! id)) as [file Hd] by (apply (lo_ids _ _ _ _ _ Hlo); lia).
    destruct (pl_kept _ _ _ Hpl id file Hd ltac:(lia)) as (file' & Hd' & _). by exists file'. }
  destruct (tail_u32 FORMAT FORMAT_ok _ _ _ _ Hlo) as [Hu1 Hu2]. pose proof (position_u64 _ _ Hu1 Hu2) as Htu. rewrite <-(lo_tail _ _ _ _ _ Hlo) in Htu.
  unfold open_from, saved_cut, saved_safe in *. destruct (metadata_file (obs w)) as [m|] eqn:Hm; cbn [fmap option_fmap option_map default from_option] in *; unfold id in *.
  - pose proof (furthest_spec (progress m)) as [Hfu _]. cbn [progress cut] in Hfu.
    assert (furthest (progress m) ≤ tail (wal (obs w))) as Hft by (apply furthest_le; [apply Hp|exact Hsafe]).
    split; cbn [from_cut from_furthest default progress cut]; [done| |by apply Hthere|].
    + split; [unfold u64 in *; lia|]. by apply segment_of_mono.
    + destruct (pl_at _ _ _ _ Hp) as [?|([p e] & Hin & HX)]; [left; cbn [default from_option]; unfold id; by apply Z.eq_le_incl|right; left].
      eexists. rewrite (read_all_spec FORMAT FORMAT_ok _ _ _ _ Hlo). apply list_elem_of_lookup in Hin as [j Hj].
      destruct (Forall2_lookup_r _ _ _ _ _ Hf Hj) as ([a b] & Hj' & He). apply extract_entry_Ok in He as [_ ->].
      exists (a, b). split; [done|]. split; [by eapply list_elem_of_lookup_2|]. cbn in HX. rewrite HX. unfold record_end, frame_zlen, frame_size. simpl. lia.
  - specialize (Hbase eq_refl). subst base. split; cbn [from_cut from_furthest default]; [done| |apply Hthere; change (segment_of 0) with 0; lia|left; done].
    split; [done|]. change (segment_of 0) with 0. lia.
Qed.

(** ** Recovery *)

(** What recovery finds: the entries the power loss left, [kept], of which it replays the
    eligible ones, by sequence. *)
Record recovers (w : World) (base : Z) (es kept : list (WalPointer * WalEntry)) (log : SegmentedLog) (m : WalMetadata) : Prop := {
  rc_holds : holds_from log base kept;
  rc_kept : ∃ lost, es = kept ++ lost ∧ Forall (λ pe : WalPointer * WalEntry, log_durable (wal (obs w)) < offset pe.1 + frame_size pe.1) lost;
  rc_clean : log_durable log = tail log ∧ poisoned (rounds log) = None;
  rc_metadata : head m = segment_start base ∧ m_tail m = tail log ∧ m_cut m = saved_cut (obs w) ∧ m_safe m = saved_safe (obs w);
  rc_below : saved_cut (obs w) ≤ tail log ∧ ∀ ns s, (ns, s) ∈ saved_safe (obs w) → s ≤ tail log;
  rc_entries : ∀ known, recovery_entries log m known = Ok (merge_sort by_sequence (filter (λ pe, eligible m known pe = true) kept));
}.

Lemma filter_filter_imp {A} (P Q : A → Prop) `{∀ x, Decision (P x)} `{∀ x, Decision (Q x)} (l : list A) :
  (∀ x, x ∈ l → Q x → P x) → filter Q (filter P l) = filter Q l.
Proof using.
  intros Hi. induction l as [|x l IH]; [done|]. rewrite !(filter_cons _ x). specialize (IH (λ y Hy, Hi y (list_elem_of_further _ _ _ Hy))).
  destruct (decide (P x)) as [HP|HP]; rewrite ?filter_cons, IH; [done|]. destruct (decide (Q x)) as [HQ|]; [|done].
  destruct HP. apply Hi; [left|done].
Qed.

Lemma entries_recovered log base kept m known :
  holds_from log base kept → head m = segment_start base → m_tail m = tail log →
  (m_cut m < tail log → segment_start base ≤ m_cut m → place log base kept (m_cut m)) →
  recovery_entries log m known = Ok (merge_sort by_sequence (filter (λ pe, eligible m known pe = true) kept)).
Proof using All.
  intros Hh Hhead Htail Hplace. unfold recovery_entries. rewrite Hhead, Htail. destruct (holds_sorted log kept) as [_ Hb]; [by exists base|].
  rewrite Forall_forall in Hb.
  assert (∀ pe, pe ∈ kept → eligible m known pe = true → Z.max (m_cut m) (segment_start base) ≤ offset pe.1) as Hel.
  { intros pe Hpe He. unfold eligible in He. apply andb_true_iff in He as [He _]. apply negb_true_iff, Z.ltb_ge in He.
    destruct (holds_place _ _ _ _ Hh Hpe) as [Hp _]. destruct (place_bounds _ _ _ _ Hh Hp) as (_ & ? & _).
    assert (m_cut m ≤ metadata_replay_from m (namespace_id pe.2)); [|lia]. unfold metadata_replay_from.
    destruct (replay_from_cases (progress m) (namespace_id pe.2)) as [->|(s & _ & ->)]; simpl; lia. }
  destruct (Z.leb_spec (tail log) (Z.max (m_cut m) (segment_start base))) as [Hle|Hgt].
  - rewrite filter_none; [done|]. intros pe Hpe He. specialize (Hel pe Hpe He). destruct (Hb pe Hpe). lia.
  - rewrite (scan_from log base kept).
    + cbn [result_bind]. by rewrite filter_filter_imp.
    + done.
    + destruct (Z.max_spec (m_cut m) (segment_start base)) as [[_ ->]|[? ->]]; [by apply place_start|]. apply Hplace; lia.
Qed.

Lemma recovery w base es dir' size l1 :
  claims_ok w → log_inv w base es → power_loss FORMAT (wal (obs w)) dir' → size < 2 ^ 32 → active_segment (wal (obs w)) + 3 < 2 ^ 32 → cut_survives w →
  (metadata_file (obs w) = None → l1 = false) →
  ∃ kept log m next_seq, open_main_wal dir' size (metadata_file (obs w)) l1 = Ok (log, m, next_seq) ∧ recovers w base es kept log m.
Proof using All.
  intros Hc Hl Hpl Hsz Hid Hcut Hl1. pose proof (saved_fits w base es dir' Hc Hl Hpl) as Hff.
  destruct (saved_places w base es Hc Hl) as (Hp & _ & Hbase & Hsafe). pose proof (li_holds _ _ _ Hl) as Hh.
  destruct (wal_reopen _ _ _ _ _ _ Hh Hpl Hff Hsz Hid) as (kept & lost & log & rep & Hes & Hlost & Hopen & Hh' & Hrt & Hfur & Hdur & Hpo & _).
  assert (open_main_wal dir' size (metadata_file (obs w)) l1 = Ok (log, mk_WalMetadata (wal_head log) (w_tail rep)
    (m_cut (default metadata_new (metadata_file (obs w)))) (m_safe (default metadata_new (metadata_file (obs w))))
    (total_gc_runs (default metadata_new (metadata_file (obs w)))) (total_bytes_reclaimed (default metadata_new (metadata_file (obs w))))
    (last_sequence (default metadata_new (metadata_file (obs w)))),
    Z.min (Z.max (last_sequence (default metadata_new (metadata_file (obs w)))) (max_sequence rep) + 1) (2 ^ 64 - 1))) as Hom.
  { unfold open_main_wal. destruct (metadata_file (obs w)) as [mf|] eqn:Hm; [|rewrite (Hl1 eq_refl), andb_false_r]; cbn [bool_decide andb];
      [rewrite bool_decide_eq_false_2 by done; cbn [andb]|]; by rewrite Hopen. }
  assert (m_cut (default metadata_new (metadata_file (obs w))) = saved_cut (obs w) ∧
    m_safe (default metadata_new (metadata_file (obs w))) = saved_safe (obs w)) as [Hmc Hms].
  { unfold saved_cut, saved_safe. by destruct (metadata_file (obs w)). }
  assert (saved_cut (obs w) ≤ tail log ∧ ∀ ns s, (ns, s) ∈ saved_safe (obs w) → s ≤ tail log) as Hbelow.
  { pose proof (place_start log base kept Hh') as [Hst _ _ _]. unfold saved_cut, saved_safe, open_from in *.
    destruct (metadata_file (obs w)) as [mf|]; cbn [fmap option_fmap option_map default from_option from_furthest] in *; unfold id in *.
    - pose proof (furthest_spec (progress mf)) as [Hf1 Hf2]. rewrite Forall_forall in Hf2. cbn [progress cut safe] in *. split; [lia|].
      intros ns s Hs. specialize (Hf2 _ Hs). simpl in Hf2. lia.
    - rewrite (Hbase eq_refl) in Hst. split; [done|]. intros ns s Hs. by apply elem_of_nil in Hs. }
  eexists kept, log, _, _. split; [exact Hom|]. rewrite Hmc, Hms. split; cbn [head m_tail m_cut m_safe]; try done.
  - by exists lost.
  - split; [by eapply wal_head_base|done].
  - intros known. apply (entries_recovered _ base); cbn [head m_tail m_cut]; [done|by eapply wal_head_base|done|].
    intros Hlt _. pose proof Hp as [_ P2 P3 P4]. split; [lia|done|done|].
    destruct (decide ((split (saved_cut (obs w))).2 = SEGMENT_HEADER_LEN)) as [|Hne]; [by left|]. destruct P4 as [?|(pe & Hin & HX)]; [done|right].
    exists pe. split; [|done]. rewrite Hes in Hin. apply elem_of_app in Hin as [?|Hin]; [done|]. rewrite Forall_forall in Hlost. specialize (Hlost _ Hin). cbn beta in Hlost.
    unfold cut_survives, saved_cut in *. destruct (metadata_file (obs w)) as [mf|]; simpl in *; [|done]. destruct Hcut; lia.
Qed.

(** What recovery replays covers what the tables lack. *)
Lemma elem_of_replayed recs ws i : i ∈ replayed recs ws ↔ ∃ wr, ws !! i = Some wr ∧ (w_ptr wr, w_entry wr) ∈ recs.
Proof using.
  unfold replayed. rewrite elem_of_list_to_set, list_elem_of_bind. split.
  - intros ([j wr] & Hi & Hin). cbn [fst snd] in Hi. case_bool_decide as Hr; [|by apply elem_of_nil in Hi].
    apply list_elem_of_singleton in Hi as ->. apply elem_of_lookup_imap in Hin as (j' & wr' & [= <- <-] & Hj). by exists wr.
  - intros (wr & Hi & Hr). exists (i, wr). split; [cbn [fst snd]; rewrite bool_decide_eq_true_2 by done; left|].
    apply elem_of_lookup_imap. by exists i, wr.
Qed.

Lemma acked_recovered w base es kept log m recs i wr :
  claims_ok w → log_inv w base es → recovers w base es kept log m →
  recovery_entries log m (λ ns, bool_decide (ns ∈ live w)) = Ok recs →
  writes w !! i = Some wr → w_state wr = Acked → w_ns wr ∈ live w → i ∈ on_disk w ∪ replayed recs (writes w).
Proof using All.
  intros Hc Hl [R1 (lost & R2 & R2') R3 (R4 & R5 & R6 & R7) R8 R9] Hrec Hi Ha Hn. rewrite R9 in Hrec. injection Hrec as <-.
  destruct (decide (i ∈ on_disk w)) as [|Hd]; [by apply elem_of_union_l|]. apply elem_of_union_r, elem_of_replayed. exists wr. split; [done|].
  rewrite merge_sort_Permutation. apply list_elem_of_filter.
  destruct (li_acked _ _ _ Hl i wr Hi Ha Hn) as [Hin Hdur]; [intros Ht; by apply Hd, elem_of_union_l|].
  assert ((w_ptr wr, w_entry wr) ∈ kept) as Hk.
  { rewrite R2 in Hin. apply elem_of_app in Hin as [?|Hin]; [done|]. rewrite Forall_forall in R2'. specialize (R2' _ Hin). cbn in R2'. unfold w_at in Hdur. lia. }
  split; [|done]. unfold eligible. cbn [fst snd]. rewrite (bool_decide_eq_true_2 (namespace_id (w_entry wr) ∈ live w)) by done.
  rewrite andb_true_r. apply negb_true_iff, Z.ltb_ge. destruct (holds_place _ _ _ _ R1 Hk) as [Hpl _]. cbn [fst] in Hpl.
  destruct (place_bounds _ _ _ _ R1 Hpl) as (_ & Hst & _). pose proof (holds_base _ _ _ R1) as Hb.
  assert (∀ X, claim (obs w) (flushing w) (w_ns wr) X OnDisk → X ≤ offset (w_ptr wr)) as Hcl.
  { intros X Hx. destruct (Z.le_gt_cases X (offset (w_ptr wr))) as [|Hlt]; [done|]. destruct Hd.
    by apply (co_claimed w Hc (w_ns wr) X OnDisk Hn Hx i wr). }
  unfold metadata_replay_from. fold (w_ns wr).
  assert (saved_cut (obs w) ≤ offset (w_ptr wr)) as Hsc.
  { unfold saved_cut. destruct (metadata_file (obs w)) as [mf|] eqn:Hm; simpl; [by apply Hcl, c_file_cut|].
    assert (u32 base) as Hub.
    { destruct R1 as (segs & bodies & Hlo & _). pose proof (lo_base _ _ _ _ _ Hlo). pose proof (zlen_nonneg segs). unfold u32. lia. }
    unfold segment_start in *. rewrite position_eq in * by (done || unfold u32, SEGMENT_HEADER_LEN; lia). unfold SEGMENT_HEADER_LEN in *. lia. }
  destruct (replay_from_cases (progress m) (w_ns wr)) as [->|(s & Hs & ->)]; cbn [progress cut safe] in *; rewrite R6; [done|]. apply Z.max_lub; [|done].
  rewrite R7 in Hs. unfold saved_safe in Hs. destruct (metadata_file (obs w)) as [mf|] eqn:Hm; simpl in Hs; [|by apply elem_of_nil in Hs].
  by eapply Hcl, c_file.
Qed.

(** The world recovery leaves: all of the log is retired, no claim is above its tail. *)
Lemma recovered_spec w base es kept log m next_seq recs :
  claims_ok w → log_inv w base es → recovers w base es kept log m →
  let w' := recovered log m next_seq recs w in let o := obs w' in
  wal o = log ∧ m_cut (wal_metadata o) = tail log ∧ m_tail (wal_metadata o) = tail log ∧ pending o = ∅ ∧ ns_progress o = ∅ ∧ in_flight o = ∅ ∧
  tail log ≤ saved_cut o ∧ ∀ ns X l, claim o None ns X l → X ≤ tail log.
Proof using All.
  intros Hc Hl [R1 _ _ (R4 & R5 & R6 & R7) [R8 R9] _]. destruct (saved_places w base es Hc Hl) as (Hp & _ & _ & _).
  destruct (place_bounds _ _ _ _ (li_holds _ _ _ Hl) Hp) as (_ & Hst & _). cbv zeta.
  unfold recovered. cbn [obs]. rewrite R4, R5, R6. destruct (Z.leb_spec (tail log) (Z.max (saved_cut (obs w)) (segment_start base))) as [Hle|Hgt].
  - assert (saved_cut (obs w) = tail log) as Heq by lia. split; [done|]. cbn [wal_metadata m_cut m_tail]. split; [congruence|]. split; [done|].
    do 3 (split; [done|]). split; [unfold saved_cut in *; cbn [metadata_file]; lia|].
    destruct 1 as [|s Hs|p Hpr|mf Hm|mf s Hm Hs|u st Hst'|p Hf|p Hf|p s Hf]; cbn [wal_metadata m_cut m_safe metadata_file ns_progress pending] in *; try done.
    + by rewrite R6.
    + rewrite R7 in Hs. by apply (R9 ns).
    + unfold saved_cut in *. rewrite Hm in *. simpl in *. lia.
    + apply (R9 ns). unfold saved_safe. by rewrite Hm.
  - assert (wal_cut_ceiling (mk_Observer log m (metadata_file (obs w)) ∅ next_seq ∅ ∅ ∅) = tail log) as Hceil by done || (unfold wal_cut_ceiling; simpl; done).
    unfold retire_all, write_metadata. rewrite Hceil. cbn [wal_metadata m_cut]. rewrite R6, (Z.max_l (tail log)) by lia. cbn.
    do 2 (split; [done|]). split; [done|]. split; [done|]. split; [by rewrite fmap_empty|]. split; [done|]. split; [unfold saved_cut; simpl; lia|].
    destruct 1 as [|s Hs|p Hpr|mf Hm|mf s Hm Hs|u st Hst'|p Hf|p Hf|p s Hf]; cbn [wal_metadata m_cut m_safe metadata_file ns_progress pending] in *; try done.
    + by apply elem_of_nil in Hs.
    + injection Hm as <-. simpl. lia.
    + injection Hm as <-. by apply elem_of_nil in Hs.
Qed.

Lemma after_crash_spec w log m next_seq recs i wr :
  writes (recovered log m next_seq recs w) !! i = Some wr →
  flying (w_state wr) = false ∧ ∃ wr0, writes w !! i = Some wr0 ∧ w_ptr wr = w_ptr wr0 ∧ w_entry wr = w_entry wr0 ∧ w_end wr = w_end wr0 ∧
    (applied_state (w_state wr) → w_state wr = Acked ∧ wr = wr0).
Proof using.
  cbn [recovered writes]. rewrite list_lookup_fmap. destruct (writes w !! i) as [wr0|]; [|done]. intros [= <-].
  unfold after_crash. destruct (flying (w_state wr0)) eqn:Hf; split; try done; exists wr0; (do 4 (split; [done|])).
  - by intros [|].
  - intros [Ha|Ha]; [by rewrite Ha in Hf|done].
Qed.

Lemma no_flush_crash w base es kept log m next_seq recs :
  claims_ok w → log_inv w base es → recovers w base es kept log m →
  recovery_entries log m (λ ns, bool_decide (ns ∈ live w)) = Ok recs → claims_ok (recovered log m next_seq recs w).
Proof using All.
  intros Hc Hl Hr Hrec. destruct (recovered_spec w base es kept log m next_seq recs Hc Hl Hr) as (O1 & O2 & O3 & O4 & O5 & O6 & O7 & O8).
  set (w' := recovered log m next_seq recs w) in *. destruct (co_ever w Hc) as (E1 & E2 & E3).
  assert (wal_cut_ceiling (obs w') = tail log) as Hceil by (unfold wal_cut_ceiling; by rewrite O6, O3).
  assert (∀ i wr, writes w' !! i = Some wr → applied_state (w_state wr) → w_ns wr ∈ live w → i ∈ tables w') as Htab.
  { intros i wr Hi Ha Hn. destruct (after_crash_spec _ _ _ _ _ _ _ Hi) as (_ & wr0 & Hi0 & _ & _ & _ & Hack). destruct (Hack Ha) as [Hst ->].
    by apply (acked_recovered w base es kept log m recs i wr0). }
  pose proof (co_cut w Hc) as Hcut. pose proof (saved_places w base es Hc Hl) as (_ & Hsc & _). pose proof (rc_below _ _ _ _ _ _ Hr) as [Hb _].
  split.
  - intros ns X l Hx. rewrite Hceil. by eapply O8.
  - intros ns X l Hn _ i wr Hi Ha Hns _. assert (i ∈ tables w') as Ht by (apply (Htab i wr Hi); [by right|by rewrite Hns]).
    destruct l; simpl; [done|by apply elem_of_union_l|by left].
  - rewrite O2. lia.
  - intros key st. by rewrite O4.
  - intros ns v _ [s Hs]. done.
  - intros ns v [[s Hs]|[st Hst]]; [done|by rewrite O4 in Hst].
  - intros i wr Hi Ha Hn. right; right. by eapply Htab.
  - intros i wr Hi Hno Hd Ht. destruct (after_crash_spec _ _ _ _ _ _ _ Hi) as (Hf & wr0 & Hi0 & _ & _ & _ & Hack).
    assert (w_state wr = Acked) as Ha by (destruct Hno as [Hx|[Hx|[Hx|Hx]]]; rewrite Hx in Hf; done).
    destruct Ht. apply (Htab i wr Hi); [by right|]. destruct (Hack (or_intror Ha)) as [_ ->].
    destruct (decide (w_ns wr0 ∈ live w)) as [|Hn]; [done|]. destruct Hd. split; [eapply E2; [exact Hi0|by right]|done].
  - intros i wr Hi. destruct (after_crash_spec _ _ _ _ _ _ _ Hi) as (_ & wr0 & Hi0 & Hp & _ & He & _).
    unfold w_at. rewrite Hp, He. apply (co_at w Hc i wr0 Hi0).
  - split; [done|]. split; [|by intros ns v [s Hs]]. intros i wr Hi Ha.
    destruct (after_crash_spec _ _ _ _ _ _ _ Hi) as (_ & wr0 & Hi0 & _ & _ & _ & Hack). destruct (Hack Ha) as [_ ->]. by apply (E2 i wr0).
  - done.
  - rewrite O6. split; [|split].
    + intros i wr Hi Hf. destruct (after_crash_spec _ _ _ _ _ _ _ Hi) as (Hf' & _). by rewrite Hf' in Hf.
    + intros off [n Hn]. by rewrite lookup_empty in Hn.
    + intros i j wri wrj Hi _ Hf. destruct (after_crash_spec _ _ _ _ _ _ _ Hi) as (Hf' & _). by rewrite Hf' in Hf.
Qed.

Lemma recovered_log w base es kept log m next_seq recs :
  claims_ok w → log_inv w base es → recovers w base es kept log m →
  recovery_entries log m (λ ns, bool_decide (ns ∈ live w)) = Ok recs → log_inv (recovered log m next_seq recs w) base kept.
Proof using All.
  intros Hc Hl Hr Hrec. destruct (recovered_spec w base es kept log m next_seq recs Hc Hl Hr) as (O1 & O2 & O3 & O4 & O5 & O6 & O7 & O8).
  set (w' := recovered log m next_seq recs w) in *. pose proof (rc_holds _ _ _ _ _ _ Hr) as Hh.
  destruct (holds_sorted log kept) as [_ Hb]; [by exists base|]. rewrite Forall_forall in Hb.
  split; rewrite ?O1, ?O2, ?O3; [done|done|..].
  - intros pe Hpe. by destruct (Hb pe Hpe).
  - intros i wr Hi. destruct (after_crash_spec _ _ _ _ _ _ _ Hi) as (Hf & wr0 & Hi0 & Hp & _ & He & _). split.
    + unfold w_at. rewrite Hp, He. apply (lw_size _ _ _ (li_write _ _ _ Hl i wr0 Hi0)).
    + by rewrite Hf.
    + by intros [Hx|[Hx|Hx]]; rewrite Hx in Hf.
  - intros i wr Hi Ha Hn Ht. destruct Ht. destruct (after_crash_spec _ _ _ _ _ _ _ Hi) as (_ & wr0 & Hi0 & _ & _ & _ & Hack).
    destruct (Hack (or_intror Ha)) as [_ ->]. by apply (acked_recovered w base es kept log m recs i wr0).
  - intros ns X l Hx. specialize (O8 ns X l Hx). destruct (Z.lt_trichotomy X (tail log)) as [?|[->|?]]; [by right; left|right; right|lia]. by apply place_tail.
  - by apply place_tail.
  - exact O7.
  - intros _ pe Hpe. left. rewrite O1. destruct (rc_clean _ _ _ _ _ _ Hr) as [-> _]. by destruct (Hb pe Hpe).
Qed.

(** A cut no poisoned log saved survives. *)
Lemma unpoisoned_cut_survives w base es :
  claims_ok w → log_inv w base es → poisoned (rounds (wal (obs w))) = None → cut_survives w.
Proof using All.
  intros Hc Hl Hpo. destruct (saved_places w base es Hc Hl) as (Hp & _ & _ & _). unfold cut_survives, saved_cut in *.
  destruct (metadata_file (obs w)) as [m|] eqn:Hm; cbn in *; [|by right].
  destruct (pl_at _ _ _ _ Hp) as [Hh|(pe & Hpe & HX)]; [right; unfold id in *; simpl in *; lia|left].
  destruct (li_durable _ _ _ Hl Hpo pe Hpe) as [Hd|(i & wr & Hi & Hf & Hpe')]; [unfold id in *; simpl in *; lia|exfalso].
  pose proof (co_ceiling w Hc 0 _ _ (c_file_cut _ _ 0 _ Hm)) as Hcl. pose proof (ceiling_self (obs w)) as [_ Hce].
  destruct (co_flight w Hc) as (F1 & _). pose proof (Hce (w_at wr)) as Hat. rewrite (F1 i wr Hi Hf) in Hat. specialize (Hat ltac:(done)).
  destruct (holds_sorted (wal (obs w)) es) as [_ Hb]; [by exists base; apply Hl|]. rewrite Forall_forall in Hb. destruct (Hb pe Hpe) as [Hpos _].
  unfold w_at in Hat. rewrite Hpe' in Hat. unfold id in *. lia.
Qed.

Lemma crash_step_inv w w' : db_inv w → crash_step w w' → db_inv w'.
Proof using All.
  intros [Hc (base & es & Hl)] [dir' size l1 log m next_seq recs Hpl Hsz Hid Hcut Hom Hrec].
  destruct (recovery w base es dir' size l1 Hc Hl Hpl Hsz Hid) as (kept & log1 & m1 & seq1 & Hom1 & Hr).
  { destruct Hcut; [by apply (unpoisoned_cut_survives w base es)|done]. }
  { intros Hm. rewrite Hm in Hom. unfold open_main_wal in Hom. destruct l1; [|done]. rewrite bool_decide_eq_true_2 in Hom by done.
    rewrite (proj2 (has_segments_true dir')) in Hom; [done|]. destruct (saved_fits w base es dir' Hc Hl Hpl) as [_ _ Hf _]. eauto. }
  rewrite Hom in Hom1. injection Hom1 as <- <- <-.
  split; [by eapply no_flush_crash|]. exists base, kept. by eapply recovered_log.
Qed.

Lemma first_inv size log m next_seq live :
  size < 2 ^ 32 → open_main_wal ∅ size None false = Ok (log, m, next_seq) → db_inv (first_world log m next_seq live).
Proof using All.
  intros Hsz Hom. destruct (open_empty FORMAT FORMAT_ok Log visit_sequence size 0 Hsz) as (log1 & Ho & Hl & Hd & Hpo).
  unfold open_main_wal, wal_open, open_from in Hom. rewrite andb_false_r in Hom. cbn [fmap option_fmap option_map] in Hom. rewrite Ho in Hom. cbn in Hom. injection Hom as <- <- <-.
  assert (holds_from log1 0 []) as Hh by (exists [], []; split; [done|constructor]).
  pose proof (wal_head_base _ _ _ Hh) as Hhead. destruct (place_start _ _ _ Hh) as [Hst _ _ _].
  set (w := first_world _ _ _ _).
  assert (∀ ns X l, claim (obs w) (flushing w) ns X l → X = segment_start 0) as Hcl.
  { intros ns X l. destruct 1 as [|s Hs|p Hpr|mf Hm|mf s Hm Hs|u st Hst'|p Hf|p Hf|p s Hf]; try done. by apply elem_of_nil in Hs. }
  split; [split|exists 0, []; split]; try done.
  - intros ns X l Hx. rewrite (Hcl _ _ _ Hx). done.
  - intros ns v _ Hs. by destruct Hs.
  - intros ns v Hs. by destruct Hs as [[? ?]|[? ?]].
  - split; [done|]. split; [done|]. intros ns v Hs. by destruct Hs.
  - split; [done|]. split; [|done]. intros off Hs. by destruct Hs.
  - intros pe Hpe. by apply elem_of_nil in Hpe.
  - intros ns X l Hx. rewrite (Hcl _ _ _ Hx). right; right. by apply place_start.
  - by apply place_tail.
  - intros _ pe Hpe. by apply elem_of_nil in Hpe.
Qed.

Lemma db_reachable_inv w : db_reachable w → db_inv w.
Proof using All.
  intros (size & log & m & next_seq & live & Hsz & Hom & Hs). pose proof (first_inv size log m next_seq live Hsz Hom) as Hi. revert Hi.
  induction Hs as [w|w1 w2 w3 Hs Hrest IH]; [done|]. intros Hi. apply IH. destruct Hs as [Hs|[Hs|Hs]].
  - by eapply write_step_inv.
  - by eapply upkeep_step_inv.
  - by eapply crash_step_inv.
Qed.
End crash.
