(* ===== verification/WalSafety.v ===== *)
(** * WalSafety: what the main WAL's retirement promises

    The contract of [WalRetire]'s machine: an acknowledged write stays readable and outlives
    crashes, recovery succeeds and replays what is missing, garbage collection reclaims
    retired segments only; and a write the contract does not cover. *)
From S2P Require Import Prelude Slices Bytes LogProgress CommitRounds SegmentedLog LogFrames LogOpen LogWrites LogReads LogSpec Wal WalObserver WalRetire WalInvariant WalUpkeep WalFlush WalMeta WalCrash.
#[local] Open Scope minnal_scope.

(** ** Garbage collection plans *)

Lemma filter_lt_seqZ a n x : filter (λ s, ¬ x ≤ s) (seqZ a n) = seqZ a (Z.min n (x - a)).
Proof.
  destruct (Z.le_gt_cases n 0) as [|Hn]; [by rewrite !seqZ_nil by lia|]. rewrite <-(Z2Nat.id n) at 1 2 by lia. generalize (Z.to_nat n). clear n Hn.
  intros n. revert a. induction n as [|n IH]; intros a; [by rewrite !seqZ_nil by lia|].
  rewrite seqZ_cons by lia. replace (Z.pred (Z.of_nat (S n))) with (Z.of_nat n) by lia. rewrite filter_cons, IH.
  case_decide.
  - rewrite (seqZ_cons a) by lia. f_equal. f_equal; lia.
  - rewrite !seqZ_nil by lia. done.
Qed.

Lemma filter_ge_seqZ a n x : filter (λ s, x ≤ s) (seqZ a n) = seqZ (Z.max a x) (a + n - Z.max a x).
Proof.
  destruct (Z.le_gt_cases n 0) as [|Hn]; [by rewrite !seqZ_nil by lia|]. rewrite <-(Z2Nat.id n) by lia. generalize (Z.to_nat n). clear n Hn.
  intros n. revert a. induction n as [|n IH]; intros a; [by rewrite !seqZ_nil by lia|].
  rewrite seqZ_cons by lia. replace (Z.pred (Z.of_nat (S n))) with (Z.of_nat n) by lia. rewrite filter_cons, IH.
  case_decide.
  - rewrite (Z.max_l (Z.succ a)), (Z.max_l a), (seqZ_cons a) by lia. f_equal. f_equal; lia.
  - destruct (Z.max_spec a x) as [[? ->]|[? ->]]; [|lia]. rewrite Z.max_r by lia. f_equal. lia.
Qed.

Lemma zlen_seqZ a n : zlen (seqZ a n) = Z.max 0 n.
Proof. unfold zlen. rewrite length_seqZ. lia. Qed.

Lemma sorted_seqZ a n : StronglySorted Z.le (seqZ a n).
Proof.
  destruct (Z.le_gt_cases n 0) as [|Hn]; [rewrite seqZ_nil by lia; constructor|]. rewrite <-(Z2Nat.id n) by lia. generalize (Z.to_nat n). clear n Hn.
  intros n. revert a. induction n as [|n IH]; intros a; [constructor|]. rewrite seqZ_cons by lia.
  replace (Z.pred (Z.of_nat (S n))) with (Z.of_nat n) by lia. constructor; [apply IH|]. apply Forall_forall. intros x Hx%elem_of_seqZ. lia.
Qed.

Lemma merge_sort_sorted (l : list Z) : StronglySorted Z.le l → merge_sort Z.le l = l.
Proof.
  intros Hs. apply (StronglySorted_unique Z.le); [apply (StronglySorted_merge_sort _)|done|apply merge_sort_Permutation].
Qed.

(** A plan reclaims a run of segments, from the oldest on. *)
Record plan_ok (cap : Z) (m : WalMetadata) (current : Z) (watermark : option Z) (p : WalGcPlan) : Prop := {
  gc_run : ∃ n, 0 ≤ n ∧ reclaim p = seqZ (segment_of (head m)) n;
  gc_retired : ∀ s, s ∈ reclaim p → s < current ∧ s < segment_of (m_cut m);
  gc_pinned : ∀ w s, watermark = Some w → s ∈ reclaim p → s < w ∨ s ∈ forced p;
  gc_forced : cap = 0 → forced p = [];
  gc_deferred : 0 < cap → 0 ≤ deferred p ≤ cap;
  gc_all : ∀ s, segment_of (head m) ≤ s → s < current → s < segment_of (m_cut m) → s ∉ reclaim p →
    ∃ w, watermark = Some w ∧ w ≤ s ∧ 0 < deferred p;
}.

Lemma plan_wal_gc_ok cap m current watermark : 0 ≤ cap → plan_ok cap m current watermark (plan_wal_gc cap m current watermark).
Proof.
  intros Hcap. unfold plan_wal_gc. set (first := segment_of (head m)). set (lim := Z.min current (segment_of (m_cut m))).
  assert (lim ≤ current ∧ lim ≤ segment_of (m_cut m) ∧ ∀ s, s < current → s < segment_of (m_cut m) → s < lim) as (Hl1 & Hl2 & Hl3) by (unfold lim; split; [lia|split; [lia|intros; lia]]).
  destruct watermark as [w|].
  2:{ split; cbn [reclaim deferred forced]; try done.
      - destruct (Z.le_gt_cases 0 (lim - first)); [by exists (lim - first)|exists 0]. by rewrite !seqZ_nil by lia.
      - intros s Hs%elem_of_seqZ. lia.
      - intros s H1 H2 H3 Hn. destruct Hn. apply elem_of_seqZ. lia. }
  rewrite filter_ge_seqZ, filter_lt_seqZ. set (pinned := seqZ _ (first + _ - _)). set (fc := if cap =? 0 then 0 else Z.max 0 (zlen pinned - cap)).
  assert (zlen pinned = Z.max 0 (lim - Z.max first w)) as Hzp by (unfold pinned; rewrite zlen_seqZ; lia).
  assert (0 ≤ fc ≤ zlen pinned) as Hfc by (unfold fc; pose proof (zlen_nonneg pinned); destruct (Z.eqb_spec cap 0); lia).
  assert (take (Z.to_nat fc) pinned = seqZ (Z.max first w) fc) as Htake.
  { unfold pinned at 1. rewrite take_seqZ, Z2Nat.id by lia. destruct (Z.le_gt_cases fc 0); [by rewrite !seqZ_nil by lia|]. f_equal. lia. }
  assert (seqZ first (Z.min (lim - first) (w - first)) ++ seqZ (Z.max first w) fc = seqZ first (Z.max 0 (Z.min (lim - first) (w - first)) + fc)) as Happ.
  { destruct (Z.le_gt_cases (Z.min (lim - first) (w - first)) 0) as [Hle|Hgt].
    - rewrite (seqZ_nil first), (Z.max_l 0) by lia. cbn [app].
      destruct (Z.le_gt_cases fc 0); [by rewrite !seqZ_nil by lia|]. f_equal. lia.
    - rewrite (Z.max_r 0), seqZ_app by lia. destruct (Z.le_gt_cases fc 0); [by rewrite (seqZ_nil (Z.max _ _)), (seqZ_nil (first + _)) by lia|].
      do 2 f_equal. lia. }
  rewrite Htake, Happ, merge_sort_sorted by apply sorted_seqZ.
  split; cbn [reclaim deferred forced].
  - eexists. split; [|done]. lia.
  - intros s Hs%elem_of_seqZ. lia.
  - intros w' s [= <-] Hs. rewrite <-Happ, elem_of_app in Hs. destruct Hs as [Hs%elem_of_seqZ|Hs]; [left; lia|by right].
  - intros ->. unfold fc. by rewrite seqZ_nil.
  - intros Hc. unfold fc. rewrite (proj2 (Z.eqb_neq cap 0)) by lia. lia.
  - intros s H1 H2 H3 Hn. exists w. split; [done|].
    assert (¬ (first ≤ s < first + (Z.max 0 (Z.min (lim - first) (w - first)) + fc))) as Hs by (intros Hx; apply Hn, elem_of_seqZ; lia).
    specialize (Hl3 s H2 H3). lia.
Qed.

(** ** The contract *)

#[local] Instance by_sequence_total : Total by_sequence.
Proof. intros a b. unfold by_sequence. lia. Qed.

Section contract.
Context `{CrcLaws} `{RkyvEntryLaws}.

(** Where a read, or the next open, finds a write. *)
Definition stored (w : World) (ns : Z) (i : nat) : Prop :=
  i ∈ memtable (active w) ns ∨ (∃ v s, sealed w !! (ns, v) = Some s ∧ i ∈ s) ∨ i ∈ tables w.

Lemma acked_kept w w' i wr : db_step w w' → writes w !! i = Some wr → w_state wr = Acked → writes w' !! i = Some wr.
Proof using.
  assert (∀ j wrj s, writes w !! j = Some wrj → w_state wrj ≠ Acked → writes w !! i = Some wr → w_state wr = Acked →
    <[j := moved wrj s]> (writes w) !! i = Some wr) as Hmove.
  { intros j wrj s Hj Hs Hi Ha. rewrite list_lookup_insert_ne; [done|]. intros ->. rewrite Hi in Hj. by simplify_eq. }
  intros [Hs|[Hs|Hs]] Hi Ha.
  - destruct Hs as [io entry o ptr e _ _|io entry o e _ _|j wrj Hj Hs|j wrj fsync o ok Hj Hs _|j wrj ok Hj Hs|j wrj Hj Hs]; simpl.
    + by apply lookup_app_l_Some.
    + done.
    + apply Hmove; [done|by rewrite Hs|done|done].
    + unfold committed. destruct ok; (apply Hmove; [done|by rewrite Hs|done|done]).
    + unfold apply. destruct (negb _); [|destruct ok]; (apply Hmove; [done|by rewrite Hs|done|done]).
    + apply Hmove; [done|by destruct Hs as [-> | ->]|done|done].
  - destruct Hs; simpl; try done. unfold prepare. by destruct (prepare_written _ _ _ _).
  - destruct Hs. cbn [recovered writes]. rewrite list_lookup_fmap, Hi. simpl. unfold after_crash. by rewrite Ha.
Qed.



End contract.

(** ** A run *)

#[local] Existing Instances Wal.sum_crc Wal.sum_crc_laws Wal.example_rkyv Wal.example_rkyv_laws.

Definition upsert : WalEntry := new_upsert_ns 1 [7] [8].
Definition deletion : WalEntry := new_delete_ns 1 [7].

(** Steps as functions: an append, a step of a write, a commit that syncs. *)
Definition appended (entry : WalEntry) (w : World) : World :=
  match append_write wal_io entry (obs w) with
  | Some (o, Ok (ptr, e)) => mk_World o (writes w ++ [mk_Write ptr e (m_tail (wal_metadata o)) Appended]) (active w) (sealed w) (tables w) (next_version w) (live w) (ever w) (flushing w)
  | _ => w
  end.
Definition on_write (i : nat) (f : Write → World → World) (w : World) : World :=
  match writes w !! i with Some wr => f wr w | None => w end.
Definition sync_commit (i : nat) (wr : Write) (w : World) : World :=
  match commit_wal (w_end wr) None (obs w) with Some (o, ok) => committed i wr o ok w | None => w end.

Definition world0 : World := first_world wal_empty (mk_WalMetadata 16 16 16 [] 0 0 0) 1 {[1]}.
Definition written (i : nat) (entry : WalEntry) (ok : bool) (w : World) : World :=
  on_write i (return_ i) (on_write i (λ wr, apply i wr ok) (on_write i (sync_commit i) (on_write i (note i) (appended entry w)))).

Lemma written_steps i entry ok w o ptr e o1 wr :
  append_write wal_io entry (obs w) = Some (o, Ok (ptr, e)) → i = length (writes w) → bool_decide (namespace_id e ∈ live w) = true →
  wr = mk_Write ptr e (m_tail (wal_metadata o)) Appended →
  commit_wal (w_end wr) None (obs (note i wr (appended entry w))) = Some (o1, true) →
  rtc db_step w (written i entry ok w).
Proof.
  intros Ha -> Hns Hwr Hc.
  assert (∀ n, io_ok FORMAT wal_io n) as Hio by done.
  set (i := length (writes w)) in *. unfold written.
  set (w1 := appended entry w). assert (db_step w w1) as S1.
  { left. unfold w1, appended. rewrite Ha. by eapply st_append. }
  assert (writes w1 !! i = Some wr) as H1.
  { unfold w1, appended. rewrite Ha, Hwr. by apply list_lookup_middle. }
  assert (live w1 = live w) as Hl1 by (unfold w1, appended; by rewrite Ha).
  assert (i < length (writes w1))%nat as Hlt by (by eapply lookup_lt_Some).
  unfold on_write at 4. rewrite H1. set (w2 := note i wr w1) in *. assert (db_step w1 w2) as S2 by (left; apply st_note; [done|by rewrite Hwr]).
  assert (writes w2 !! i = Some (moved wr Noted)) as H2 by (apply list_lookup_insert_eq; done).
  unfold on_write at 3. rewrite H2. unfold sync_commit. cbn [w_end moved]. change (commit_wal (w_end wr) None (obs w2) = Some (o1, true)) in Hc. rewrite Hc.
  set (w3 := committed i (moved wr Noted) o1 true w2). assert (db_step w2 w3) as S3 by (left; by eapply (st_commit _ _ _ None)).
  assert (writes w3 !! i = Some (moved wr Committed)) as H3 by (apply list_lookup_insert_eq; simpl; by rewrite length_insert).
  unfold on_write at 2. rewrite H3. set (w4 := apply i (moved wr Committed) ok w3). assert (db_step w3 w4) as S4 by (left; by apply st_apply).
  assert (writes w4 !! i = Some (moved wr (if ok then Applied else Unapplied))) as H4.
  { unfold w4, apply. cbn [w_ns w_entry moved]. replace (live w3) with (live w) by (by rewrite <-Hl1).
    rewrite Hwr. unfold w_ns. cbn [w_entry moved]. rewrite Hns. cbn [negb].
    destruct ok; apply list_lookup_insert_eq; simpl; by rewrite !length_insert. }
  unfold on_write. rewrite H4. assert (db_step w4 (return_ i (moved wr (if ok then Applied else Unapplied)) w4)) as S5.
  { left. apply st_return; [done|]. destruct ok; [by left|by right]. }
  by eapply rtc_l, rtc_l, rtc_l, rtc_l, rtc_once.
Qed.

Lemma world0_reachable : db_reachable world0.
Proof. exists 64, wal_empty, (mk_WalMetadata 16 16 16 [] 0 0 0), 1, {[1]}. split; [done|]. split; [by vm_compute|done]. Qed.

Lemma db_reachable_steps `{CrcLaws} `{RkyvEntryLaws} w w' : db_reachable w → rtc db_step w w' → db_reachable w'.
Proof. intros (size & log & m & seq & live & ? & ? & Hs0) Hs. exists size, log, m, seq, live. split; [done|]. split; [done|]. by etrans. Qed.

(** A put that is acknowledged, then a delete whose append was not synced yet. *)
Definition world_put : World := written 0 upsert true world0.
Definition world_two : World := appended deletion world_put.
Definition lost_dir : segment_dir := lose_unsynced (wal (obs world_two)).
Definition put_write : Write := mk_Write (mk_WalPointer 16 3) example_put 27 Acked.

Lemma world_put_steps : rtc db_step world0 world_put.
Proof. eapply written_steps; [by vm_compute|done|by vm_compute|reflexivity|by vm_compute]. Qed.

Lemma world_two_step : db_step world_put world_two.
Proof.
  left. unfold world_two, appended. destruct (append_write wal_io deletion (obs world_put)) as [[o [[ptr e]|e]]|] eqn:Ha; [|by vm_compute in Ha..].
  apply (st_append _ wal_io deletion o ptr e); [done|exact Ha].
Qed.

Lemma world_two_reachable : db_reachable world_two.
Proof. eapply db_reachable_steps; [apply world0_reachable|]. etrans; [apply world_put_steps|apply rtc_once, world_two_step]. Qed.

Lemma lost_dir_loss : power_loss FORMAT (wal (obs world_two)) lost_dir.
Proof.
  set (log := wal (obs world_two)).
  assert (dir log = {[0 := default [] (dir log !! 0)]}) as Hd by by vm_compute.
  assert (lost_dir = {[0 := default [] (lost_dir !! 0)]}) as Hd' by by vm_compute.
  assert (active_segment log = 0) as Ha by by vm_compute.
  split; rewrite ?Ha.
  - intros j file Hf Hj. rewrite Hd in Hf. apply lookup_singleton_Some in Hf as [<- <-]. exists (default [] (lost_dir !! 0)).
    split; [by vm_compute|]. assert (power_loss_extent log 0 = Some 27) as -> by by vm_compute.
    split; [by vm_compute|]. split; [by vm_compute|]. vm_compute. repeat (constructor; [split; [by intros ?|reflexivity]|]). constructor.
  - intros j [f Hf]. rewrite Hd' in Hf. apply lookup_singleton_Some in Hf as [<- _]. by vm_compute; eexists.
  - intros l Hf. by vm_compute in Hf.
  - intros file' bodies rest file Hf Hsf Hf' Hend.
    assert (bodies = [[1; 2; 3]; [4]]) as ->.
    { rewrite Hd in Hf. apply lookup_singleton_Some in Hf as [_ <-]. pose proof (sf_eq _ _ _ _ _ Hsf) as Heq.
      assert (default [] (dir log !! 0) = header_bytes FORMAT 0 ++ frames [[1; 2; 3]; [4]] ++ bzero 28) as Hfile by by vm_compute.
      rewrite Hfile in Heq. apply app_inv_head in Heq. symmetry. eapply (frames_inj FORMAT FORMAT_ok); [| |exact Heq|].
      - repeat constructor; by vm_compute.
      - apply (sf_bodies _ _ _ _ _ Hsf).
      - assert (a_pos (SegmentedLog.active log) = 36) as Hp by by vm_compute. rewrite Hp in Hend.
        assert (zlen (frames [[1; 2; 3]; [4]]) = 20) as -> by by vm_compute. unfold seg_end, SEGMENT_HEADER_LEN in Hend. lia. }
    rewrite Hd' in Hf'. apply lookup_singleton_Some in Hf' as [_ <-].
    apply (torn_detected_cut FORMAT FORMAT_ok 0 _ _ 1 (bzero 37) Unwritten); [|by vm_compute|by vm_compute].
    repeat constructor; by vm_compute.
Qed.




(** ** What is not covered *)

(** A write whose apply fails is returned Ok, and is to be "replayed on the next open"; but
    the next flush of its namespace retires its entry with those before it. *)
Definition world_unapplied : World := written 1 deletion true (written 0 upsert false world0).
Definition world_sealed : World := seal 1 world_unapplied.
Definition world_prepared : World := prepare Saved 1 0 world_sealed.
Definition world_flushed : World :=
  match flushing world_prepared with Some p => finish_flush p world_prepared | None => world_prepared end.

Lemma world_unapplied_steps : rtc db_step world0 world_unapplied.
Proof.
  transitivity (written 0 upsert false world0).
  - eapply (written_steps 0 upsert false); [by vm_compute|done|by vm_compute|reflexivity|by vm_compute].
  - eapply (written_steps 1 deletion true); [by vm_compute|by vm_compute|by vm_compute|reflexivity|by vm_compute].
Qed.

Lemma world_sealed_step : db_step world_unapplied world_sealed.
Proof. right; left. apply (st_seal world_unapplied 1). by vm_compute. Qed.

Lemma world_prepared_step : db_step world_sealed world_prepared.
Proof. right; left. apply (st_prepare world_sealed 1 0 Saved); [by vm_compute|by vm_compute; eexists|done]. Qed.

Lemma world_flushed_step : db_step world_prepared world_flushed.
Proof.
  right; left. unfold world_flushed. destruct (flushing world_prepared) as [p|] eqn:Hf; [apply (st_flushed world_prepared p); exact Hf|].
  assert (is_Some (flushing world_prepared)) as [p Hp] by (by vm_compute; eexists). rewrite Hp in Hf. discriminate Hf.
Qed.

Lemma world_flushed_reachable : db_reachable world_flushed.
Proof.
  apply (db_reachable_steps world0); [exact world0_reachable|]. transitivity world_unapplied; [exact world_unapplied_steps|].
  eapply rtc_l; [exact world_sealed_step|]. eapply rtc_l; [exact world_prepared_step|]. apply rtc_once. exact world_flushed_step.
Qed.

#[local] Opaque world_flushed.

Lemma unapplied_write_lost :
  db_reachable world_flushed ∧ ∃ wr, writes world_flushed !! 0%nat = Some wr ∧ w_state wr = AckedUnapplied ∧ w_ns wr ∈ live world_flushed ∧
    ¬ stored world_flushed (w_ns wr) 0 ∧ ∀ w', crash_step world_flushed w' → 0%nat ∉ tables w'.
Proof.
  split; [apply world_flushed_reachable|]. exists (mk_Write (mk_WalPointer 16 3) example_put 27 AckedUnapplied).
  split; [by vm_compute|]. split; [done|]. split; [by vm_compute|]. split.
  { intros [Hx|[(v & s & Hs & _)|Hx]]; [by vm_compute in Hx|by vm_compute in Hs|by vm_compute in Hx]. }
  intros w' [dir' size l1 log m seq recs Hpl Hsz Hid Hcut Hom Hrec]. destruct (db_reachable_inv _ world_flushed_reachable) as [Hc (base & es & Hl)].
  assert (metadata_file (obs world_flushed) ≠ None) as Hm by by vm_compute.
  destruct (recovery world_flushed base es dir' size l1 Hc Hl Hpl Hsz Hid) as (kept & log1 & m1 & seq1 & Hom1 & Hr); [|intros Hx; destruct (Hm Hx)|].
  { destruct Hcut as [Hcut|Hcut]; [exact (unpoisoned_cut_survives _ base es Hc Hl Hcut)|exact Hcut]. }
  rewrite Hom in Hom1. injection Hom1 as <- <- <-. rewrite (rc_entries _ _ _ _ _ _ Hr) in Hrec. injection Hrec as <-.
  intros [Hx|Hx]%elem_of_union; [by vm_compute in Hx|]. apply elem_of_replayed in Hx as (wr & Hi & Hin).
  assert (wr = mk_Write (mk_WalPointer 16 3) example_put 27 AckedUnapplied) as -> by (vm_compute in Hi; by injection Hi as <-).
  rewrite merge_sort_Permutation in Hin. apply list_elem_of_filter in Hin as [He _]. unfold eligible in He. apply andb_true_iff in He as [He _].
  apply negb_true_iff, Z.ltb_ge in He. cbn [fst w_ptr offset] in He. destruct (rc_metadata _ _ _ _ _ _ Hr) as (_ & _ & Hmc & _).
  assert (saved_cut (obs world_flushed) = 36) as Hsc by by vm_compute. unfold metadata_replay_from in He.
  cbn [snd] in He. destruct (replay_from_cases (progress m) (namespace_id example_put)) as [Hq|(s & _ & Hq)];
    cbn [progress cut] in Hq; cbn [w_entry] in He; rewrite Hq, Hmc, Hsc in He; lia.
Qed.
