(* ===== verification/Keys.v ===== *)
(** * Keys: byte strings as keys

    What [src/minnal_db/src/support/mod.rs] and [support/simd_support.rs] do with the
    bytes of a key: its first eight bytes as an integer, the bucket it belongs to, and
    the vector comparison the skip list orders keys by, which agrees with the order of
    slices on every target.  [prefix_upper_bound] and [key_head] of store/lsm/lsm_tree.rs
    are two more readings of that order. *)
From S2P Require Import Prelude OrdMap Bytes.

Abbreviation key := region.

(** [a < b] and [a <= b] of slices. *)
Definition key_lt (a b : key) : bool := match cmp a b with Lt => true | _ => false end.
Definition key_le (a b : key) : bool := match cmp a b with Gt => false | _ => true end.

(** [a.starts_with(p)] *)
Fixpoint starts_with (p a : key) : bool :=
  match p, a with
  | [], _ => true
  | x :: p, y :: a => (x =? y) && starts_with p a
  | _, [] => false
  end.

(** [from_be_bytes] *)
Definition be_value (l : region) : Z := le_value (rev l).

(** ** Prefixes and buckets *)

(** The first [n] bytes, zero-padded. *)
Definition padded (n : nat) (bytes : key) : region :=
  take n bytes ++ replicate (n - length bytes) 0.

Definition key_prefix_of (bytes : key) : Z := be_value (padded 8 bytes).

(** [mm3h::Murmur3Hasher]: the hash of bytes under a seed, a [u64]. *)
Class Murmur3 := murmur3 : Z → region → Z.
Class Murmur3Laws `{Murmur3} := murmur3_range (seed : Z) (b : region) : u64 (murmur3 seed b).

Definition SEED : Z := 0xFEACBE01.

Definition get_bucket_for_key `{Murmur3} (k : key) (num_buckets : Z) : Z :=
  wrap 32 (murmur3 SEED (le_bytes 8 (key_prefix_of k)) mod num_buckets).

(** ** Vector comparison *)

(** The instruction set a binary is compiled for. *)
Inductive CompareTarget := Avx512 | Avx2 | Neon | Portable.

Definition lanes_equal (a b : region) : list bool := zip_with Z.eqb a b.

(** [movemask]: bit [i] of the mask is lane [i]. *)
Fixpoint movemask (lanes : list bool) : Z :=
  match lanes with [] => 0 | b :: lanes => Z.b2z b + 2 * movemask lanes end.

(** NEON: each lane weighed by its bit, the two halves of eight lanes summed. *)
Definition bit_weights : list Z := [1; 2; 4; 8; 16; 32; 64; 128].
Definition vaddv (lanes : list bool) : Z := foldr Z.add 0 (zip_with (λ b w, if b : bool then w else 0) lanes bit_weights).
Definition neon_mask (lanes : list bool) : Z := Z.lor (vaddv (take 8 lanes)) (Z.shiftl (vaddv (drop 8 lanes)) 8).

Fixpoint trailing_ones (width : nat) (mask : Z) : nat :=
  match width with O => O | S width => if Z.odd mask then S (trailing_ones width (mask / 2)) else O end.

Inductive step := Differ (c : comparison) | Equal_at (pos : nat).

(** The loop over chunks of [w] bytes: the comparison of the first bytes that differ, or
    where the loop stopped. *)
Fixpoint chunk_loop (w : nat) (mask : list bool → Z) (fuel : nat) (a b : key) (pos : nat) : step :=
  match fuel with
  | O => Equal_at pos
  | S fuel =>
      if (pos + w <=? length a)%nat && (pos + w <=? length b)%nat then
        let m := mask (lanes_equal (take w (drop pos a)) (take w (drop pos b))) in
        if m =? 2 ^ Z.of_nat w - 1 then chunk_loop w mask fuel a b (pos + w)
        else
          let diff_pos := trailing_ones w m in
          Differ (nth (pos + diff_pos) a 0 ?= nth (pos + diff_pos) b 0)
      else Equal_at pos
  end.

(** [for i in pos..pos + n], the bytes at [i]. *)
Fixpoint scalar_loop (n : nat) (a b : key) (pos : nat) : step :=
  match n with
  | O => Equal_at pos
  | S n => match nth pos a 0 ?= nth pos b 0 with Eq => scalar_loop n a b (S pos) | c => Differ c end
  end.
Definition scalar_tail (a b : key) (pos : nat) : comparison :=
  match scalar_loop (length a `min` length b - pos) a b pos with
  | Differ c => c
  | Equal_at _ => Z.of_nat (length a) ?= Z.of_nat (length b)
  end.

Definition compare_bytes_avx2 (a b : key) : comparison :=
  match chunk_loop 32 movemask (length a) a b 0 with Differ c => c | Equal_at pos => scalar_tail a b pos end.
Definition compare_bytes_neon (a b : key) : comparison :=
  match chunk_loop 16 neon_mask (length a) a b 0 with Differ c => c | Equal_at pos => scalar_tail a b pos end.
(** Chunks of 64, then one of 32 looked at byte by byte when it differs. *)
Definition compare_bytes_avx512 (a b : key) : comparison :=
  match chunk_loop 64 movemask (length a) a b 0 with
  | Differ c => c
  | Equal_at pos =>
      if (pos + 32 <=? length a)%nat && (pos + 32 <=? length b)%nat then
        if movemask (lanes_equal (take 32 (drop pos a)) (take 32 (drop pos b))) =? 2 ^ 32 - 1
        then scalar_tail a b (pos + 32)
        else match scalar_loop 32 a b pos with Differ c => c | Equal_at _ => scalar_tail a b (pos + 32) end
      else scalar_tail a b pos
  end.
Definition compare_bytes_simd (t : CompareTarget) (a b : key) : comparison :=
  match t with
  | Avx512 => compare_bytes_avx512 a b
  | Avx2 => compare_bytes_avx2 a b
  | Neon => compare_bytes_neon a b
  | Portable => cmp a b
  end.

(** ** Bounds of prefixes, heads of keys *)

(** The last byte that is not 0xFF is incremented, the bytes after it dropped. *)
Fixpoint increment_last (l : region) : option region :=
  match l with
  | [] => None
  | last :: l => if last =? 255 then increment_last l else Some (last + 1 :: l)
  end.
Definition prefix_upper_bound (prefix : key) : option key := option_map (λ l, rev l) (increment_last (rev prefix)).

Definition key_head (k : key) : Z := be_value (padded 16 k).

(** ** The order of slices *)

Lemma key_lt_spec a b : key_lt a b = true ↔ cmp a b = Lt.
Proof. unfold key_lt. by destruct (cmp a b). Qed.
Lemma key_le_spec a b : key_le a b = true ↔ cmp b a ≠ Lt.
Proof. unfold key_le. rewrite (cmp_flip a b). by destruct (cmp a b). Qed.
Lemma key_lt_irrefl a : key_lt a a = false.
Proof. unfold key_lt. by rewrite cmp_refl. Qed.
Lemma key_le_refl a : key_le a a = true.
Proof. unfold key_le. by rewrite cmp_refl. Qed.
Lemma key_lt_le a b : key_lt a b = negb (key_le b a).
Proof. unfold key_lt, key_le. rewrite (cmp_flip b a). by destruct (cmp b a). Qed.
Lemma key_le_lt a b : key_le a b = negb (key_lt b a).
Proof. by rewrite key_lt_le, negb_involutive. Qed.
Lemma key_lt_trans a b c : key_lt a b = true → key_lt b c = true → key_lt a c = true.
Proof. rewrite !key_lt_spec. apply cmp_trans. Qed.
Lemma key_lt_ne a b : key_lt a b = true → a ≠ b.
Proof. intros Hl ->. by rewrite key_lt_irrefl in Hl. Qed.
Lemma key_le_cases a b : key_le a b = true ↔ key_lt a b = true ∨ a = b.
Proof.
  unfold key_le, key_lt. rewrite <-(cmp_eq a b). destruct (cmp a b); naive_solver.
Qed.
Lemma key_le_lt_trans a b c : key_le a b = true → key_lt b c = true → key_lt a c = true.
Proof. rewrite key_le_cases. intros [?| ->] ?; [by eapply key_lt_trans|done]. Qed.
Lemma key_lt_le_trans a b c : key_lt a b = true → key_le b c = true → key_lt a c = true.
Proof. rewrite key_le_cases. intros ? [?| <-]; [by eapply key_lt_trans|done]. Qed.
Lemma key_le_trans a b c : key_le a b = true → key_le b c = true → key_le a c = true.
Proof. rewrite (key_le_cases b c). intros ? [?| <-]; [|done]. rewrite key_le_cases. left. by eapply key_le_lt_trans. Qed.
Lemma key_lt_asym a b : key_lt a b = true → key_lt b a = false.
Proof. unfold key_lt. rewrite (cmp_flip a b). by destruct (cmp a b). Qed.
Lemma key_lt_le_weak a b : key_lt a b = true → key_le a b = true.
Proof. rewrite key_le_cases. by left. Qed.

Lemma list_cmp_drop pos : ∀ a b : key, take pos a = take pos b → cmp a b = cmp (drop pos a) (drop pos b).
Proof.
  unfold cmp, list_ordered. induction pos as [|pos IH]; intros a b Ht; [done|].
  destruct a as [|x a], b as [|y b]; try done. injection Ht as <- Ht.
  cbn [list_cmp drop]. rewrite cmp_refl. by apply IH.
Qed.

Lemma list_cmp_lt_nth a b i :
  take i a = take i b → (i < length a)%nat → (i < length b)%nat → nth i a 0 ≠ nth i b 0 → cmp a b = (nth i a 0 ?= nth i b 0).
Proof.
  intros Ht Ha Hb Hn. rewrite (list_cmp_drop i) by done.
  rewrite !nth_lookup in *. apply lookup_lt_is_Some in Ha as [x Hx], Hb as [y Hy]. rewrite Hx, Hy in *. cbn [from_option id] in *.
  rewrite (drop_S _ _ _ Hx), (drop_S _ _ _ Hy). unfold cmp, list_ordered. cbn [list_cmp]. unfold cmp, Z_ordered.
  destruct (x ?= y) eqn:E; [by apply Z.compare_eq_iff in E|done..].
Qed.

Lemma take_S_eq {A} i (a b : list A) x : take i a = take i b → a !! i = Some x → b !! i = Some x → take (S i) a = take (S i) b.
Proof. intros Ht Ha Hb. by rewrite (take_S_r a i x), (take_S_r b i x), Ht. Qed.

(** ** The comparison kernels *)

Section kernels.
Context (a b : key).

Definition step_ok (len : nat) (s : step) : Prop :=
  match s with
  | Differ c => cmp a b = c
  | Equal_at pos => (pos ≤ length a ∧ pos ≤ length b)%nat ∧ take pos a = take pos b ∧ (len ≤ pos)%nat
  end.

Lemma scalar_loop_ok n : ∀ pos, (pos + n ≤ length a)%nat → (pos + n ≤ length b)%nat → take pos a = take pos b →
  step_ok (pos + n) (scalar_loop n a b pos).
Proof.
  induction n as [|n IH]; intros pos Ha Hb Ht; cbn [scalar_loop]; [cbn; split_and!; [lia|lia|done|lia]|].
  destruct (lookup_lt_is_Some_2 a pos) as [x Hx]; [lia|]. destruct (lookup_lt_is_Some_2 b pos) as [y Hy]; [lia|].
  pose proof (list_cmp_lt_nth a b pos Ht ltac:(lia) ltac:(lia)) as Hc.
  rewrite !nth_lookup, Hx, Hy in *. cbn [from_option id] in *.
  destruct (x ?= y) eqn:E; [|apply Hc; intros ->; by rewrite Z.compare_refl in E..].
  apply Z.compare_eq_iff in E. subst y. replace (pos + S n)%nat with (S pos + n)%nat by lia.
  apply IH; [lia..|by eapply take_S_eq].
Qed.

Lemma scalar_tail_ok pos : (pos ≤ length a ∧ pos ≤ length b)%nat → take pos a = take pos b → scalar_tail a b pos = cmp a b.
Proof.
  intros [Ha Hb] Ht. unfold scalar_tail.
  pose proof (scalar_loop_ok (length a `min` length b - pos) pos ltac:(lia) ltac:(lia) Ht) as Hs.
  destruct (scalar_loop _ _ _ _) as [c|p]; cbn in Hs; [done|]. destruct Hs as ((Hpa & Hpb) & Hp & Hl).
  rewrite (list_cmp_drop p) by done.
  destruct (drop p a) as [|x a'] eqn:Ea, (drop p b) as [|y b'] eqn:Eb;
    apply (f_equal length) in Ea, Eb; rewrite length_drop in Ea, Eb; cbn in Ea, Eb.
  - rewrite (proj2 (Z.compare_eq_iff _ _)) by lia. done.
  - rewrite (proj2 (Z.compare_lt_iff _ _)) by lia. done.
  - rewrite (proj2 (Z.compare_gt_iff _ _)) by lia. done.
  - lia.
Qed.
End kernels.

(** A mask is exact when it tells whether all lanes are set, and the first that is not. *)
Definition mask_exact (w : nat) (mask : list bool → Z) : Prop :=
  ∀ lanes, length lanes = w →
    (mask lanes = 2 ^ Z.of_nat w - 1 ∧ Forall (eq true) lanes) ∨
    (mask lanes ≠ 2 ^ Z.of_nat w - 1 ∧ ∃ pre post, lanes = pre ++ false :: post ∧ Forall (eq true) pre ∧ trailing_ones w (mask lanes) = length pre).

Lemma movemask_range lanes : 0 ≤ movemask lanes < 2 ^ zlen lanes.
Proof.
  induction lanes as [|b lanes IH]; [done|]. cbn [movemask]. rewrite zlen_cons, Z.pow_add_r by (try apply zlen_nonneg; lia).
  destruct b; cbn [Z.b2z]; lia.
Qed.

Lemma movemask_exact w : mask_exact w movemask.
Proof.
  induction w as [|w IH]; intros lanes Hl.
  - destruct lanes; [|done]. left. split; [done|constructor].
  - destruct lanes as [|b lanes]; [done|]. injection Hl as Hl. cbn [movemask].
    rewrite Nat2Z.inj_succ, Z.pow_succ_r by lia. pose proof (movemask_range lanes) as Hr.
    unfold zlen in Hr. rewrite Hl in Hr. destruct b; cbn [Z.b2z].
    + destruct (IH lanes Hl) as [[Hm Hf]|(Hm & pre & post & Hlanes & Hpre & Ht)].
      * left. split; [lia|by constructor].
      * right. split; [lia|]. exists (true :: pre), post. split_and!; [by rewrite Hlanes|by constructor|].
        cbn [trailing_ones length]. rewrite Z.odd_add_mul_2. cbn [Z.odd]. f_equal. rewrite <-Ht. f_equal.
        change (Z.b2z true) with 1. rewrite (Z.mul_comm 2), Z.div_add by lia. done.
    + right. split; [lia|]. exists [], lanes. split_and!; [done|constructor|]. cbn [trailing_ones].
      by rewrite Z.odd_add_mul_2.
Qed.

Lemma vaddv_movemask lanes : length lanes = 8%nat → vaddv lanes = movemask lanes.
Proof.
  intros Hl. do 8 (destruct lanes as [|? lanes]; [done|]). destruct lanes; [|done].
  repeat match goal with b : bool |- _ => destruct b end; reflexivity.
Qed.

Lemma movemask_app l k : movemask (l ++ k) = movemask l + 2 ^ zlen l * movemask k.
Proof.
  induction l as [|b l IH]; cbn [app movemask]; [rewrite (@zlen_nil bool), Z.pow_0_r; ring|]. rewrite IH, zlen_cons, Z.pow_add_r, Z.pow_1_r by (try apply zlen_nonneg; lia).
  ring.
Qed.

Lemma Zlor_shifted x y w : 0 ≤ x < 2 ^ w → Z.lor (y * 2 ^ w) x = y * 2 ^ w + x.
Proof.
  intros Hx. assert (0 ≤ w) as Hw by (destruct (decide (0 ≤ w)); [done|rewrite Z.pow_neg_r in Hx by lia; lia]).
  rewrite <-Z.lxor_lor; [symmetry; apply Z.add_nocarry_lxor|]; apply Z.bits_inj'; intros i Hi; rewrite Z.land_spec, Z.bits_0;
    (destruct (decide (i < w)); [by rewrite Z.mul_pow2_bits_low by lia|]);
    rewrite <-(Z.mod_small x (2 ^ w)) by done; rewrite Z.mod_pow2_bits_high by lia; apply andb_false_r.
Qed.

Lemma neon_movemask lanes : length lanes = 16%nat → neon_mask lanes = movemask lanes.
Proof.
  intros Hl. unfold neon_mask. rewrite !vaddv_movemask by (rewrite ?length_take, ?length_drop; lia).
  rewrite <-(take_drop 8 lanes) at 3. rewrite movemask_app.
  replace (zlen (take 8 lanes)) with 8 by (unfold zlen; rewrite length_take, Hl; done).
  pose proof (movemask_range (take 8 lanes)) as Hr. replace (zlen (take 8 lanes)) with 8 in Hr by (unfold zlen; rewrite length_take, Hl; done).
  rewrite Z.lor_comm, Z.shiftl_mul_pow2 by lia.
  rewrite (Z.mul_comm (2 ^ 8)), Z.add_comm. apply Zlor_shifted. lia.
Qed.

Section chunks.
Context (a b : key).

Lemma chunk_loop_ok w mask (Hw : (0 < w)%nat) (Hm : mask_exact w mask) fuel :
  ∀ pos, (pos ≤ length a ∧ pos ≤ length b)%nat →
  take pos a = take pos b → step_ok a b pos (chunk_loop w mask fuel a b pos).
Proof using.
  induction fuel as [|fuel IH]; intros pos Hp Ht; cbn [chunk_loop]; [cbn; split_and!; [lia|lia|done|lia]|].
  destruct ((pos + w <=? length a)%nat && (pos + w <=? length b)%nat) eqn:E; [|cbn; split_and!; [lia|lia|done|lia]].
  apply andb_true_iff in E as [Ea%Nat.leb_le Eb%Nat.leb_le].
  assert (length (take w (drop pos a)) = w ∧ length (take w (drop pos b)) = w) as [Hla Hlb]
    by (rewrite !length_take, !length_drop; lia).
  destruct (Hm (lanes_equal (take w (drop pos a)) (take w (drop pos b)))) as [[Hk Hall]|(Hk & pre & post & Hl & Hpre & Ho)].
  { unfold lanes_equal. rewrite length_zip_with. lia. }
  - rewrite (proj2 (Z.eqb_eq _ _)) by done.
    assert (take (pos + w) a = take (pos + w) b) as Ht'.
    { rewrite <-(take_take_drop a), <-(take_take_drop b), Ht. f_equal. apply list_eq_same_length with w; [done..|].
      intros i x y Hi Hx Hy. rewrite Forall_lookup in Hall. specialize (Hall i (x =? y)).
      unfold lanes_equal in Hall. rewrite lookup_zip_with, Hx, Hy in Hall. cbn in Hall.
      apply Z.eqb_eq. symmetry. by apply Hall. }
    specialize (IH (pos + w)%nat ltac:(lia) Ht').
    destruct (chunk_loop _ _ _ _ _ _) as [c|p]; cbn in IH |- *; [done|]. split_and!; [lia..|apply IH|lia].
  - rewrite (proj2 (Z.eqb_neq _ _)) by done. cbn [step_ok]. rewrite Ho. clear IH.
    assert (length pre < w)%nat as Hlt.
    { apply (f_equal length) in Hl. unfold lanes_equal in Hl. rewrite length_zip_with, length_app in Hl. cbn in Hl. lia. }
    assert (∀ i, lanes_equal (take w (drop pos a)) (take w (drop pos b)) !! i = (pre ++ false :: post) !! i) as Hz by (by rewrite Hl).
    unfold lanes_equal in Hz.
    apply list_cmp_lt_nth; [|lia..|].
    + rewrite <-(take_take_drop a), <-(take_take_drop b), Ht. f_equal. apply list_eq_same_length with (length pre);
        [rewrite length_take, length_drop; lia..|].
      intros i x y Hi Hx Hy. specialize (Hz i). rewrite lookup_zip_with, !lookup_take_lt in Hz by lia.
      rewrite lookup_take_lt in Hx, Hy by lia. rewrite Hx, Hy, lookup_app_l in Hz by lia. cbn in Hz.
      rewrite Forall_lookup in Hpre. symmetry in Hz. apply Hpre in Hz. by apply Z.eqb_eq.
    + specialize (Hz (length pre)). rewrite lookup_zip_with, !lookup_take_lt, !lookup_drop in Hz by lia.
      rewrite lookup_app_r, Nat.sub_diag in Hz by lia. rewrite !nth_lookup.
      destruct (a !! (pos + length pre)%nat) as [x|]; [|done]. destruct (b !! (pos + length pre)%nat) as [y|]; [|done].
      cbn in Hz |- *. apply (inj Some) in Hz. intros ->. by rewrite Z.eqb_refl in Hz.
Qed.
End chunks.

Lemma simd_tail (a b : key) s : step_ok a b 0 s → (match s with Differ c => c | Equal_at pos => scalar_tail a b pos end) = cmp a b.
Proof. destruct s as [c|pos]; cbn; [done|]. intros (Hp & Ht & _). by apply scalar_tail_ok. Qed.

Lemma neon_exact : mask_exact 16 neon_mask.
Proof. intros lanes Hl. rewrite neon_movemask by done. by apply movemask_exact. Qed.

(** Whatever the target, the kernels give the order of slices. *)
Lemma compare_bytes_exact t (a b : key) : compare_bytes_simd t a b = cmp a b.
Proof.
  assert (∀ w mask, (0 < w)%nat → mask_exact w mask → step_ok a b 0 (chunk_loop w mask (length a) a b 0)) as Hc.
  { intros w mask Hw Hm. apply chunk_loop_ok; [done|done|lia|done]. }
  destruct t; [|by apply simd_tail, Hc; [lia|apply movemask_exact]|by apply simd_tail, Hc; [lia|apply neon_exact]|done].
  specialize (Hc 64%nat movemask ltac:(lia) (movemask_exact 64)). cbn [compare_bytes_simd]. unfold compare_bytes_avx512.
  destruct (chunk_loop 64 _ _ _ _ _) as [c|pos]; cbn in Hc; [done|]. destruct Hc as (Hp & Ht & _).
  destruct ((pos + 32 <=? length a)%nat && (pos + 32 <=? length b)%nat) eqn:E; [|by apply scalar_tail_ok].
  apply andb_true_iff in E as [Ea%Nat.leb_le Eb%Nat.leb_le].
  assert (chunk_loop 32 movemask 1 a b pos =
    let m := movemask (lanes_equal (take 32 (drop pos a)) (take 32 (drop pos b))) in
    if m =? 2 ^ 32 - 1 then Equal_at (pos + 32)
    else Differ (nth (pos + trailing_ones 32 m) a 0 ?= nth (pos + trailing_ones 32 m) b 0)) as He.
  { cbn [chunk_loop]. by rewrite (proj2 (Nat.leb_le _ _) Ea), (proj2 (Nat.leb_le _ _) Eb). }
  pose proof (chunk_loop_ok a b 32 movemask ltac:(lia) (movemask_exact 32) 1 pos Hp Ht) as Hk. rewrite He in Hk. cbv zeta in Hk.
  destruct (_ =? 2 ^ 32 - 1).
  - destruct Hk as (? & ? & _). by apply scalar_tail_ok.
  - pose proof (scalar_loop_ok a b 32 pos Ea Eb Ht) as Hs. destruct (scalar_loop _ _ _ _) as [c|p]; cbn in Hs; [done|].
    destruct Hs as ((Hpa & Hpb) & Hp' & Hl). apply scalar_tail_ok; [lia|].
    apply (f_equal (take (pos + 32))) in Hp'. rewrite !take_take, Nat.min_l in Hp' by lia. done.
Qed.

(** ** Prefixes and heads *)

Lemma le_value_app l k : le_value (l ++ k) = le_value l + 256 ^ zlen l * le_value k.
Proof.
  induction l as [|b l IH]; cbn [app]; [rewrite (@zlen_nil Z), Z.pow_0_r; cbn [le_value foldr]; ring|].
  cbn [le_value foldr]. fold (le_value (l ++ k)) (le_value l). rewrite IH, zlen_cons, Z.pow_add_r, Z.pow_1_r by (try apply zlen_nonneg; lia).
  ring.
Qed.

Lemma be_value_cons x l : be_value (x :: l) = 256 ^ zlen l * x + be_value l.
Proof.
  unfold be_value. cbn [rev]. rewrite le_value_app. unfold zlen. rewrite length_rev. cbn [le_value foldr]. lia.
Qed.

Lemma be_value_bound l : Forall byte l → 0 ≤ be_value l < 256 ^ zlen l.
Proof.
  intros Hl. unfold be_value. replace (zlen l) with (zlen (rev l)) by (unfold zlen; by rewrite length_rev).
  apply le_value_bound. rewrite Forall_forall in *. intros x Hx. apply Hl. rewrite list_elem_of_In in *. by apply in_rev.
Qed.

(** Integers read big-endian from as many bytes are ordered as the bytes. *)
Lemma be_value_cmp l : ∀ k, Forall byte l → Forall byte k → length l = length k → (be_value l ?= be_value k) = list_cmp l k.
Proof.
  induction l as [|x l IH]; intros [|y k] Hl Hk Hlen; try done. injection Hlen as Hlen.
  apply Forall_cons in Hl as [Hx Hl], Hk as [Hy Hk]. rewrite !be_value_cons. cbn [list_cmp].
  assert (zlen l = zlen k) as Hz by (unfold zlen; lia). rewrite Hz.
  pose proof (be_value_bound l Hl) as Bl. pose proof (be_value_bound k Hk) as Bk. rewrite Hz in Bl.
  pose proof (Z.pow_pos_nonneg 256 (zlen k) ltac:(lia) (zlen_nonneg k)). unfold cmp, Z_ordered.
  destruct (x ?= y) eqn:E.
  - apply Z.compare_eq_iff in E. subst y. rewrite Z.add_compare_mono_l. by apply IH.
  - rewrite Z.compare_lt_iff in *. nia.
  - rewrite Z.compare_gt_iff in *. nia.
Qed.

Lemma padded_length n l : length (padded n l) = n.
Proof. unfold padded. rewrite length_app, length_take, length_replicate. lia. Qed.
Lemma padded_byte n l : Forall byte l → Forall byte (padded n l).
Proof. intros. apply Forall_app. split; [by apply Forall_take|]. apply Forall_replicate. unfold byte. lia. Qed.
Lemma padded_cons n x l : padded (S n) (x :: l) = x :: padded n l.
Proof. done. Qed.
Lemma padded_nil n : padded (S n) [] = 0 :: padded n [].
Proof. unfold padded. by rewrite !take_nil, !Nat.sub_0_r. Qed.

Lemma padded_cmp_nil n k : Forall byte k → list_cmp (padded n k) (padded n []) = Lt → False.
Proof.
  revert k. induction n as [|n IH]; intros k Hk; [by destruct k|]. rewrite padded_nil.
  destruct k as [|y k]; [rewrite padded_nil|rewrite padded_cons]; cbn [list_cmp]; unfold cmp, Z_ordered.
  - cbn. apply IH. constructor.
  - apply Forall_cons in Hk as [Hy Hk]. unfold byte in Hy. destruct (y ?= 0) eqn:E; [by apply IH|rewrite Z.compare_lt_iff in E; lia|done].
Qed.

(** Padded heads that differ order the strings they are heads of. *)
Lemma padded_cmp_lt n : ∀ l k, Forall byte l → Forall byte k → list_cmp (padded n l) (padded n k) = Lt → list_cmp l k = Lt.
Proof.
  induction n as [|n IH]; intros l k Hl Hk.
  { assert (∀ j, padded 0 j = []) as H0 by (intros j; apply length_zero_iff_nil, padded_length). by rewrite !H0. }
  destruct l as [|x l], k as [|y k]; rewrite ?padded_cons.
  - intros Hc. by destruct (padded_cmp_nil (S n) []).
  - done.
  - intros Hc. by destruct (padded_cmp_nil (S n) (x :: l)).
  - apply Forall_cons in Hl as [_ Hl], Hk as [_ Hk]. cbn [list_cmp]. destruct (cmp x y); [by apply IH|done..].
Qed.

Lemma padded_compare n (a b : key) :
  Forall byte a → Forall byte b →
  match be_value (padded n a) ?= be_value (padded n b) with Eq => cmp a b | c => c end = cmp a b.
Proof.
  intros Ha Hb. rewrite be_value_cmp by (try apply padded_byte; rewrite ?padded_length; done).
  destruct (list_cmp (padded n a) (padded n b)) eqn:E; [done|..]; symmetry.
  - by eapply padded_cmp_lt.
  - apply cmp_gt. apply (padded_cmp_lt n); [done..|]. pose proof (cmp_flip (padded n a) (padded n b)) as Hf.
    unfold cmp, list_ordered in Hf. by rewrite Hf, E.
Qed.

Lemma key_prefix_of_range k : Forall byte k → u64 (key_prefix_of k).
Proof.
  intros Hk. pose proof (be_value_bound _ (padded_byte 8 k Hk)) as Hb. unfold key_prefix_of, u64.
  unfold zlen in Hb. rewrite padded_length in Hb. apply Hb.
Qed.

(** Comparing heads, then the keys when they tie, is the order of the keys. *)
Lemma key_head_compare (a b : key) :
  Forall byte a → Forall byte b → match key_head a ?= key_head b with Eq => cmp a b | c => c end = cmp a b.
Proof. apply padded_compare. Qed.

Lemma get_bucket_range `{Murmur3Laws} k n : 0 < n ≤ 2 ^ 32 → 0 ≤ get_bucket_for_key k n < n.
Proof.
  intros Hn. unfold get_bucket_for_key. pose proof (Z.mod_pos_bound (murmur3 SEED (le_bytes 8 (key_prefix_of k))) n ltac:(lia)).
  rewrite wrap_small; lia.
Qed.

(** ** The range of a prefix *)

Lemma starts_with_spec p a : starts_with p a = true ↔ ∃ s, a = p ++ s.
Proof.
  revert a. induction p as [|x p IH]; intros a; cbn; [split; [by exists a|done]|].
  destruct a as [|y a]; [split; [done|intros [s Hs]; done]|]. rewrite andb_true_iff, Z.eqb_eq, IH.
  split; [intros (-> & s & ->); by exists s|intros [s [= <- ->]]; split; [done|by exists s]].
Qed.

Lemma key_le_app p s : key_le p (p ++ s) = true.
Proof.
  unfold key_le, cmp, list_ordered. induction p as [|x p IH]; cbn; [by destruct s|]. by rewrite cmp_refl.
Qed.

Lemma key_cmp_cons x y (a b : key) : cmp (x :: a) (y :: b) = match x ?= y with Eq => cmp a b | c => c end.
Proof. done. Qed.

Lemma between_prefix q p u k :
  key_le (q ++ p) k = true → key_lt k (q ++ u) = true → ∃ s, k = q ++ s ∧ key_le p s = true ∧ key_lt s u = true.
Proof.
  revert k. induction q as [|y q IH]; intros k; cbn [app]; [by exists k|].
  destruct k as [|z k]; [done|]. unfold key_le, key_lt. rewrite !key_cmp_cons, (Z.compare_antisym y z).
  destruct (y ?= z) eqn:E; cbn; [|done..]. apply Z.compare_eq_iff in E. subst z. intros Hl Hu.
  destruct (IH k) as (s & -> & ? & ?); [done..|]. by exists s.
Qed.

Lemma all_ff_above n k : Forall byte k → key_le (replicate n 255) k = true → starts_with (replicate n 255) k = true.
Proof.
  revert k. induction n as [|n IH]; intros [|y k] Hk; cbn [replicate starts_with]; [done..|].
  apply Forall_cons in Hk as [Hy Hk]. unfold byte in Hy. unfold key_le. rewrite key_cmp_cons.
  destruct (255 ?= y) eqn:E; [|rewrite Z.compare_lt_iff in E; lia|done]. apply Z.compare_eq_iff in E as <-.
  cbn. intros. by apply IH.
Qed.

Lemma increment_last_spec l :
  match increment_last l with
  | None => l = replicate (length l) 255
  | Some u => ∃ n x q, l = replicate n 255 ++ x :: q ∧ x ≠ 255 ∧ u = x + 1 :: q
  end.
Proof.
  induction l as [|x l IH]; cbn [increment_last]; [done|]. destruct (x =? 255) eqn:E.
  - apply Z.eqb_eq in E. subst x. destruct (increment_last l).
    + destruct IH as (n & x & q & -> & ? & ->). by exists (S n), x, q.
    + cbn. by f_equal.
  - apply Z.eqb_neq in E. by exists O, x, l.
Qed.

Lemma rev_replicate {A} n (x : A) : rev (replicate n x) = replicate n x.
Proof.
  induction n as [|n IH]; [done|]. cbn [replicate rev]. rewrite IH. change [x] with (replicate 1 x).
  rewrite <-replicate_add, Nat.add_comm. done.
Qed.

Lemma prefix_bound_exact (p k : key) :
  Forall byte k →
  starts_with p k = key_le p k && match prefix_upper_bound p with Some u => key_lt k u | None => true end.
Proof.
  intros Hk. apply eq_true_iff_eq. rewrite andb_true_iff. unfold prefix_upper_bound.
  pose proof (increment_last_spec (rev p)) as Hs. destruct (increment_last (rev p)) as [l|]; cbn [option_map].
  - destruct Hs as (n & x & q & Hp & Hx & ->). apply (f_equal (@rev Z)) in Hp. rewrite rev_involutive in Hp. subst p.
    rewrite rev_app_distr, rev_replicate. cbn [rev]. rewrite <-!app_assoc. cbn [app]. split.
    + intros [s ->]%starts_with_spec. split; [apply key_le_app|].
      rewrite <-!app_assoc. cbn [app]. unfold key_lt. rewrite (list_cmp_drop (length (rev q))).
      * rewrite !drop_app_length, key_cmp_cons. by rewrite (proj2 (Z.compare_lt_iff _ _)) by lia.
      * by rewrite !take_app_length.
    + intros [Hl Hu]. destruct (between_prefix _ _ _ _ Hl Hu) as (s & -> & Hls & Hus).
      apply Forall_app in Hk as [_ Hk]. destruct s as [|z s]; [done|]. apply Forall_cons in Hk as [_ Hk].
      unfold key_le in Hls. unfold key_lt in Hus. rewrite key_cmp_cons in Hls, Hus.
      assert (z = x) as ->.
      { destruct (x ?= z) eqn:E1; [by apply Z.compare_eq_iff in E1|rewrite Z.compare_lt_iff in E1|done].
        destruct (z ?= x + 1) eqn:E2; [by destruct s|rewrite Z.compare_lt_iff in E2; lia|done]. }
      rewrite Z.compare_refl in Hls. apply all_ff_above in Hls; [|done].
      apply starts_with_spec in Hls as [t ->]. apply starts_with_spec. exists t. by rewrite <-app_assoc.
  - apply (f_equal (@rev Z)) in Hs. rewrite rev_involutive, rev_replicate in Hs. rewrite Hs. split.
    + intros [s ->]%starts_with_spec. split; [apply key_le_app|done].
    + intros [Hl _]. by apply all_ff_above.
Qed.
