(* ===== verification/LsmFilters.v ===== *)
(** * LsmFilters: the Bloom filter and the sparse index of an SSTable

    [src/minnal_db/src/store/lsm/bloom.rs] and [sparse_index.rs]: what a table keeps in
    memory to answer most lookups without reading its file, or reading little of it. *)
From S2P Require Import Prelude OrdMap Bytes Slices Keys.

(** ** Bloom filter *)

Record BloomFilter := mk_bloom { bits : list Z; num_bits : Z; num_hashes : Z }.

Definition BITS_PER_KEY : Z := 10.
Definition NUM_HASHES : Z := 7.

Section bloom.
Context `{Murmur3}.

Definition base_hashes (k : key) : Z * Z := (murmur3 0x9E3779B1 k, murmur3 0x85EBCA77 k).

(** [g_i = h1 + i * h2], reduced to a bit of the filter. *)
Definition probe_bit (f : BloomFilter) (h : Z * Z) (i : Z) : Z := wrap 64 (h.1 + wrap 64 (i * h.2)) mod num_bits f.

Definition set_bit (f : BloomFilter) (bit : Z) : BloomFilter :=
  mk_bloom (alter (λ w, Z.lor w (Z.shiftl 1 (bit mod 64))) (Z.to_nat (bit / 64)) (bits f)) (num_bits f) (num_hashes f).
Definition bit_is_set (f : BloomFilter) (bit : Z) : bool :=
  negb (Z.land (default 0 (bits f !! Z.to_nat (bit / 64))) (Z.shiftl 1 (bit mod 64)) =? 0).

Definition bloom_insert (f : BloomFilter) (k : key) : BloomFilter :=
  let h := base_hashes k in foldl (λ f i, set_bit f (probe_bit f h i)) f (seqZ 0 (num_hashes f)).

Definition bloom_contains (f : BloomFilter) (k : key) : bool :=
  let h := base_hashes k in forallb (λ i, bit_is_set f (probe_bit f h i)) (seqZ 0 (num_hashes f)).

Definition bloom_build (keys : list key) (expected : Z) : BloomFilter :=
  let words := Z.max (Z.max expected 1 * BITS_PER_KEY `div` 64 + (if Z.max expected 1 * BITS_PER_KEY mod 64 =? 0 then 0 else 1)) 1 in
  foldl bloom_insert (mk_bloom (replicate (Z.to_nat words) 0) (words * 64) NUM_HASHES) keys.
End bloom.

(** ** Sparse index *)

(** The first key of each sampled block with the offset of its frame. *)
Abbreviation SparseIndex := (list (key * Z)).

Definition SAMPLE_INTERVAL : Z := 16.

Definition si_push (idx : SparseIndex) (k : key) (offset : Z) : SparseIndex := idx ++ [(k, offset)].

Definition block_start (idx : SparseIndex) (k : key) : Z :=
  match binary_search_by (λ s : key * Z, cmp s.1 k) idx with
  | Ok i => from_option snd 0 (idx !! i)
  | Err O => 0
  | Err (S i) => from_option snd 0 (idx !! i)
  end.

(** ** No false negatives *)

Section bloom_laws.
Context `{Murmur3Laws}.

Definition bloom_wf (f : BloomFilter) : Prop := num_bits f = zlen (bits f) * 64 ∧ 0 < zlen (bits f).

Lemma bit_is_set_testbit f bit : 0 ≤ bit → bit_is_set f bit = Z.testbit (default 0 (bits f !! Z.to_nat (bit / 64))) (bit mod 64).
Proof using.
  intros Hb. unfold bit_is_set. set (w := default 0 _). set (j := bit mod 64).
  assert (0 ≤ j) as Hj by (subst j; apply Z.mod_pos_bound; lia). rewrite Z.shiftl_1_l.
  destruct (Z.testbit w j) eqn:E.
  - apply negb_true_iff, Z.eqb_neq. intros Hz. apply (f_equal (λ x, Z.testbit x j)) in Hz.
    by rewrite Z.land_spec, E, Z.pow2_bits_true, Z.bits_0 in Hz.
  - apply negb_false_iff, Z.eqb_eq, Z.bits_inj'. intros i Hi. rewrite Z.land_spec, Z.bits_0, Z.pow2_bits_eqb by done.
    destruct (j =? i) eqn:Ei; [apply Z.eqb_eq in Ei; subst i; by rewrite E|apply andb_false_r].
Qed.

Lemma probe_bit_range f h i : bloom_wf f → 0 ≤ probe_bit f h i < num_bits f.
Proof using. intros [Hn Hp]. apply Z.mod_pos_bound. lia. Qed.

Lemma bloom_set_bit_wf f bit : bloom_wf f → bloom_wf (set_bit f bit).
Proof using. unfold bloom_wf, zlen. cbn. by rewrite length_alter. Qed.

Lemma set_bit_set f bit b :
  0 ≤ bit → 0 ≤ b → b < num_bits f → bloom_wf f → bit_is_set (set_bit f b) bit = bit_is_set f bit || (bit =? b).
Proof using.
  intros Hbit Hb Hlt [Hn Hp]. rewrite !bit_is_set_testbit by done. cbn [set_bit bits].
  destruct (decide (Z.to_nat (bit / 64) = Z.to_nat (b / 64))) as [He|He].
  - rewrite He, list_lookup_alter_eq. assert (is_Some (bits f !! Z.to_nat (b / 64))) as [w ->].
    { apply lookup_lt_is_Some. unfold zlen in *. assert (b / 64 < Z.of_nat (length (bits f))) by (apply Z.div_lt_upper_bound; lia). lia. }
    cbn [fmap option_fmap option_map default from_option id].
    assert (bit / 64 = b / 64) as Hd by (pose proof (Z.div_pos bit 64 ltac:(lia) ltac:(lia)); pose proof (Z.div_pos b 64 ltac:(lia) ltac:(lia)); lia).
    rewrite Z.lor_spec, Z.shiftl_1_l, Z.pow2_bits_eqb by (apply Z.mod_pos_bound; lia). f_equal.
    apply eq_true_iff_eq. rewrite !Z.eqb_eq. split; [intros Hm|intros ->; done].
    rewrite (Z.div_mod bit 64), (Z.div_mod b 64) by lia. by rewrite Hm, Hd.
  - rewrite list_lookup_alter_ne by done. destruct (bit =? b) eqn:E; [apply Z.eqb_eq in E; by subst|by rewrite orb_false_r].
Qed.

Lemma bloom_fold_mono f h js : bloom_wf f →
  let g := foldl (λ f i, set_bit f (probe_bit f h i)) f js in
  bloom_wf g ∧ num_bits g = num_bits f ∧ num_hashes g = num_hashes f ∧
  (∀ bit, 0 ≤ bit → bit_is_set f bit = true → bit_is_set g bit = true) ∧
  (∀ i, i ∈ js → bit_is_set g (probe_bit f h i) = true).
Proof using.
  cbv zeta. revert f. induction js as [|i js IH]; intros f Hf; cbn [foldl].
  { split_and!; try done. intros i Hi. by apply elem_of_nil in Hi. }
  pose proof (probe_bit_range f h i Hf) as Hr.
  destruct (IH (set_bit f (probe_bit f h i))) as (Hw & Hn & Hh & Hm & Hs); [by apply bloom_set_bit_wf|].
  split_and!; [done|by rewrite Hn|by rewrite Hh|..].
  - intros bit Hb Hset. apply Hm; [done|]. rewrite set_bit_set, Hset by (done || lia). done.
  - intros j [->|Hj]%elem_of_cons; [|by apply Hs]. apply Hm; [lia|]. rewrite set_bit_set by (done || lia).
    by rewrite Z.eqb_refl, orb_true_r.
Qed.

Lemma bloom_insert_mono f k : bloom_wf f →
  bloom_wf (bloom_insert f k) ∧ bloom_contains (bloom_insert f k) k = true ∧
  ∀ k', bloom_contains f k' = true → bloom_contains (bloom_insert f k) k' = true.
Proof using.
  intros Hf. destruct (bloom_fold_mono f (base_hashes k) (seqZ 0 (num_hashes f)) Hf) as (Hw & Hn & Hh & Hm & Hs).
  fold (bloom_insert f k) in *. unfold bloom_contains. rewrite Hh.
  assert (∀ h i, probe_bit (bloom_insert f k) h i = probe_bit f h i) as Hp by (intros; unfold probe_bit; by rewrite Hn).
  split_and!; [done|apply forallb_forall; intros i Hi; rewrite Hp; apply Hs, list_elem_of_In, Hi|].
  intros k' Hc. rewrite forallb_forall in *. intros i Hi. rewrite Hp. apply Hm; [by apply probe_bit_range|by apply Hc].
Qed.

Lemma bloom_build_contains keys expected k : k ∈ keys → bloom_contains (bloom_build keys expected) k = true.
Proof using.
  unfold bloom_build. pose proof (Z.le_max_r (Z.max expected 1 * BITS_PER_KEY `div` 64 + (if Z.max expected 1 * BITS_PER_KEY mod 64 =? 0 then 0 else 1)) 1) as Hw.
  revert Hw. generalize (Z.max (Z.max expected 1 * BITS_PER_KEY `div` 64 + (if Z.max expected 1 * BITS_PER_KEY mod 64 =? 0 then 0 else 1)) 1) as w.
  intros w Hw. cbv zeta. set (f := mk_bloom _ _ _).
  assert (bloom_wf f) as Hf.
  { unfold bloom_wf. cbn. unfold zlen. rewrite length_replicate. lia. }
  clearbody f. clear w Hw. intros Hk.
  assert (∀ k, k ∈ keys ∨ bloom_contains f k = true → bloom_contains (foldl bloom_insert f keys) k = true) as Hg; [|apply Hg; by left].
  clear Hk k. revert f Hf. induction keys as [|k' keys IH]; intros f Hf k; cbn [foldl].
  - intros [Hk|Hk]; [by apply elem_of_nil in Hk|done].
  - destruct (bloom_insert_mono f k' Hf) as (Hw & Hc & Hm). intros Hk. apply IH; [done|].
    destruct Hk as [[->|?]%elem_of_cons|?]; [by right|by left|right; by apply Hm].
Qed.
End bloom_laws.

(** ** The block of a key *)

Definition si_sorted (idx : SparseIndex) : Prop := StronglySorted (λ s t, cmp s.1 t.1 = Lt) idx.

Lemma si_cmp_ordered idx k : si_sorted idx → cmp_ordered (λ s : key * Z, cmp s.1 k) idx.
Proof.
  intros Hs i j x y Hij Hx Hy.
  assert (cmp x.1 y.1 = Lt) as Hlt.
  { clear -Hs Hij Hx Hy. revert i j Hij Hx Hy. induction Hs as [|z idx Hs IH Hz]; intros i j Hij Hx Hy; [done|].
    destruct j as [|j]; [lia|]. cbn in Hy. destruct i as [|i]; [|cbn in Hx; eapply IH; [|done..]; lia].
    injection Hx as <-. rewrite Forall_lookup in Hz. by eapply Hz. }
  split_and!.
  - intros. by eapply cmp_trans.
  - intros He%cmp_eq. by rewrite <-He.
  - intros Hg. apply cmp_gt. apply cmp_gt in Hg. by eapply cmp_trans.
  - intros He%cmp_eq. apply cmp_gt. by rewrite <-He.
Qed.

(** The start of the last sampled block whose first key is at most [k]. *)
Lemma block_start_spec idx k : si_sorted idx →
  (block_start idx k = 0 ∧ ∀ s, s ∈ idx → key_lt k s.1 = true) ∨
  ∃ pre s post, idx = pre ++ s :: post ∧ block_start idx k = s.2 ∧ key_le s.1 k = true ∧ ∀ t, t ∈ post → key_lt k t.1 = true.
Proof.
  intros Hs. unfold block_start. pose proof (binary_search_by_spec _ idx (si_cmp_ordered idx k Hs)) as Hb.
  destruct (binary_search_by _ idx) as [i|[|i]].
  - destruct Hb as (s & Hi & He). right. rewrite Hi. apply cmp_eq in He.
    exists (take i idx), s, (drop (S i) idx). split_and!; [by rewrite take_drop_middle|done|rewrite He; apply key_le_refl|].
    intros t (j & Hj)%list_elem_of_lookup_1. rewrite lookup_drop in Hj.
    destruct (si_cmp_ordered idx k Hs i (S i + j)%nat s t ltac:(lia) Hi Hj) as (_ & _ & _ & Hg).
    apply key_lt_spec, cmp_gt, Hg. by apply cmp_eq.
  - destruct Hb as (_ & _ & Hg). left. split; [done|]. intros s Hin.
    rewrite drop_0, Forall_forall in Hg. by apply key_lt_spec, cmp_gt, Hg.
  - destruct Hb as (Hl & Hlt & Hg). right. destruct (lookup_lt_is_Some_2 idx i) as [s Hi]; [lia|]. rewrite Hi.
    exists (take i idx), s, (drop (S i) idx). split_and!; [by rewrite take_drop_middle|done|..].
    + apply key_lt_le_weak, key_lt_spec. rewrite Forall_forall in Hlt. apply Hlt, list_elem_of_lookup_2 with i.
      by rewrite lookup_take_lt by lia.
    + intros t Hin. rewrite Forall_forall in Hg. by apply key_lt_spec, cmp_gt, Hg.
Qed.
