(* ===== verification/SsTable.v ===== *)
(** * SsTable: the sorted table files of the tree

    The file format of [src/minnal_db/src/store/lsm/lsm_tree.rs] and the functions that
    read and write it: a header, then one frame per entry, [u32 length | u32 crc | body].
    A file is the list of its bytes.  The readers are loops over frames that differ in
    what they do with an entry; the loop is [walk], its frame source [next_at] (positional
    reads), [next_seq] (sequential reads) or the buffered [FrameReader]. *)
From S2P Require Import Prelude OrdMap Bytes Slices Keys LsmFilters.

(** ** Entries *)

Record SStableEntry := mk_entry {
  sst_key : key; sst_key_prefix : Z; sst_value : Z; sst_tombstone : bool; sst_seq : Z }.
Record KeyValueRecord := mk_record { kv_key : key; kv_value : Z; kv_tombstone : bool; kv_seq : Z }.

#[global] Instance SStableEntry_eq_dec : EqDecision SStableEntry.
Proof. solve_decision. Defined.
#[global] Instance KeyValueRecord_eq_dec : EqDecision KeyValueRecord.
Proof. solve_decision. Defined.

(** A copy's content: a pointer, or [None] for a tombstone. *)
Definition live (tombstone : bool) (value : Z) : option Z := if tombstone then None else Some value.

(** [rkyv]: an entry as bytes, and the unchecked access to those bytes. *)
Class RkyvSst := { sst_encode : SStableEntry → region; sst_access : region → SStableEntry }.

(** The widths of an entry's fields. *)
Definition entry_typed (e : SStableEntry) : Prop :=
  Forall byte (sst_key e) ∧ u64 (sst_key_prefix e) ∧ u128 (sst_value e) ∧ u64 (sst_seq e).

Class RkyvSstLaws `{RkyvSst} := sst_access_encode (e : SStableEntry) : entry_typed e → sst_access (sst_encode e) = e.

Inductive LSMError := UnexpectedEof | NotFound | OtherIo | Serialization | CapacityExceeded | Corruption.

(** Write sequences: the newest wins. *)
Definition seq_newer (a b : Z) : bool := b <? a.
Definition seq_newer_or_eq (a b : Z) : bool := b <=? a.

(** ** Header *)

(** [*b"MSST"] *)
Definition SSTABLE_MAGIC : region := [77; 83; 83; 84].
Definition SSTABLE_FORMAT_VERSION : Z := 1.
Definition SSTABLE_DATA_START : Z := 16.

Definition sstable_header_bytes : region :=
  bwrite (bwrite (bzero 16) 0 SSTABLE_MAGIC) 4 (le_bytes 4 SSTABLE_FORMAT_VERSION).

Definition validate_sstable_header (file : region) : result unit LSMError :=
  if zlen file <? SSTABLE_DATA_START then Err Corruption
  else if bool_decide (bread file 0 4 = SSTABLE_MAGIC) then
    if get_le file 4 4 =? SSTABLE_FORMAT_VERSION then Ok tt else Err Corruption
  else Err Corruption.

Definition check_frame_len (size file_len : Z) : result unit LSMError :=
  if (size =? 0) || (file_len <? size) then Err Corruption else Ok tt.

Section sstable.
Context `{Crc, RkyvSst}.
Local Open Scope minnal_scope.

(** ** Frames *)

Definition encode_sstable_entry (e : SStableEntry) : region :=
  let body := sst_encode e in le_bytes 4 (crc32 body) ++ body.

Definition verify_sstable_payload (framed : region) : result region LSMError :=
  if zlen framed <? 4 then Err Corruption
  else
    let body := drop 4 framed in
    if crc32 body =? get_le framed 0 4 then Ok body else Err Corruption.

(** The length prefix and the payload, as both writers put them. *)
Definition sst_frame (e : SStableEntry) : region :=
  let payload := encode_sstable_entry e in le_bytes 4 (wrap 32 (zlen payload)) ++ payload.

(** Both writers: the frames, the sparse index and the offset after the last frame. *)
Fixpoint write_entries (i : Z) (offset : Z) (es : list SStableEntry) (idx : SparseIndex) : region * SparseIndex * Z :=
  match es with
  | [] => ([], idx, offset)
  | e :: es =>
      let idx := if i mod SAMPLE_INTERVAL =? 0 then si_push idx (sst_key e) offset else idx in
      let frame := sst_frame e in
      let '(bytes, idx, offset) := write_entries (i + 1) (offset + zlen frame) es idx in
      (frame ++ bytes, idx, offset)
  end.

(** ** Frame sources *)

(** [read_exact_at]: whether anything was read, the buffer, the offset after it.  At the
    end of the file the buffer keeps its zeros. *)
Definition read_exact_at (file : region) (n offset : Z) : result (bool * region * Z) LSMError :=
  let avail := Z.max 0 (zlen file - offset) in
  if n =? 0 then Ok (true, [], offset)
  else if avail =? 0 then Ok (false, bzero n, offset)
  else if avail <? n then Err UnexpectedEof
  else Ok (true, bread file offset n, offset + n).

(** The next entry and the offset after it; [None] at the end of the file.  The result of
    the second read is not looked at. *)
Definition next_at (file : region) (offset : Z) : result (option (SStableEntry * Z)) LSMError :=
  let file_len := zlen file in
  let? (ok, size_buf, offset) := read_exact_at file 4 offset in
  if ok : bool then
    let size := le_value size_buf in
    let? _ := check_frame_len size file_len in
    let? (_, entry_bytes, offset) := read_exact_at file size offset in
    let? body := verify_sstable_payload entry_bytes in
    Ok (Some (sst_access body, offset))
  else Ok None.

(** [Read::read_exact] from the cursor. *)
Definition read_exact (file : region) (n offset : Z) : result (region * Z) LSMError :=
  if zlen file - offset <? n then Err UnexpectedEof else Ok (bread file offset n, offset + n).

Definition next_seq (file : region) (offset : Z) : result (option (SStableEntry * Z)) LSMError :=
  let file_len := zlen file in
  match read_exact file 4 offset with
  | Err UnexpectedEof => Ok None
  | Err e => Err e
  | Ok (size_buf, offset) =>
      let size := le_value size_buf in
      let? _ := check_frame_len size file_len in
      let? (entry_bytes, offset) := read_exact file size offset in
      let? body := verify_sstable_payload entry_bytes in
      Ok (Some (sst_access body, offset))
  end.

(** ** The loop over frames *)

Inductive flow (S : Type) := Continue (s : S) | Break (s : S).
#[global] Arguments Continue {S} s.
#[global] Arguments Break {S} s.

Fixpoint walk {S : Type} (next : Z → result (option (SStableEntry * Z)) LSMError)
    (visit : S → Z → SStableEntry → flow S) (fuel : nat) (offset : Z) (s : S) : result S LSMError :=
  match fuel with
  | O => Ok s
  | S fuel =>
      let? frame := next offset in
      match frame with
      | None => Ok s
      | Some (e, after) =>
          match visit s offset e with
          | Continue s => walk next visit fuel after s
          | Break s => Ok s
          end
      end
  end.

(** A frame takes at least five bytes. *)
Definition walk_fuel (file : region) : nat := S (length file).

(** ** Point lookups *)

Inductive SsLookup := Found (ptr seq : Z) | Deleted (seq : Z) | Missing.

Definition ss_seq (l : SsLookup) : option Z :=
  match l with Found _ seq | Deleted seq => Some seq | Missing => None end.

Definition scan_visit (k : key) (_ : SsLookup) (_ : Z) (e : SStableEntry) : flow SsLookup :=
  if bool_decide (sst_key e = k) then
    Break (if sst_tombstone e then Deleted (sst_seq e) else Found (sst_value e) (sst_seq e))
  else if key_lt k (sst_key e) then Break Missing
  else Continue Missing.

Definition scan_sstable_file_for (file : region) (k : key) (offset : Z) : result SsLookup LSMError :=
  walk (next_at file) (scan_visit k) (walk_fuel file) offset Missing.

Definition u64_saturating_add (a b : Z) : Z := Z.min U64_MAX (a + b).

Definition valid_scan_start (file : region) (offset file_len : Z) (k : key) : bool :=
  if file_len <? u64_saturating_add offset 4 then false
  else
    let size := get_le file offset 4 in
    if (size =? 0) || (file_len <? u64_saturating_add (u64_saturating_add offset 4) size) then false
    else
      match verify_sstable_payload (bread file (offset + 4) size) with
      | Ok body => key_le (sst_key (sst_access body)) k
      | Err _ => false
      end.

(** Also whether the hint was rejected. *)
Definition lookup_in_sstable_file_hinted (file : region) (k : key) (start_offset : Z) : result (SsLookup * bool) LSMError :=
  let file_len := zlen file in
  let hint_rejected := negb (start_offset =? 0) && negb (valid_scan_start file start_offset file_len k) in
  let offset := if negb (start_offset =? 0) && negb hint_rejected then start_offset else SSTABLE_DATA_START in
  let? hit := scan_sstable_file_for file k offset in
  Ok (hit, hint_rejected).

Definition lookup_in_sstable_file_from (file : region) (k : key) (start_offset : Z) : result SsLookup LSMError :=
  let? (hit, _) := lookup_in_sstable_file_hinted file k start_offset in Ok hit.

(** ** Reading whole files *)

(** The entry as rebuilt by the readers: its prefix computed from its key. *)
Definition rebuilt (e : SStableEntry) : SStableEntry :=
  mk_entry (sst_key e) (key_prefix_of (sst_key e)) (sst_value e) (sst_tombstone e) (sst_seq e).

Definition collect_visit (es : list SStableEntry) (_ : Z) (e : SStableEntry) : flow (list SStableEntry) :=
  Continue (es ++ [rebuilt e]).

Definition read_sstable_entries_from_file (file : region) : result (list SStableEntry) LSMError :=
  walk (next_at file) collect_visit (walk_fuel file) SSTABLE_DATA_START [].

(** [None]: no file at the path. *)
Definition read_sstable_entries_from_path (file : option region) : result (list SStableEntry) LSMError :=
  match file with
  | None => Ok []
  | Some file => walk (next_seq file) collect_visit (walk_fuel file) SSTABLE_DATA_START []
  end.

Record SStableMetadata := mk_meta { min_key : key; max_key : key; entry_count : Z; max_seq : option Z }.

Record LoadState := mk_load {
  ld_min : option key; ld_max : option key; ld_count : Z; ld_keys : list key;
  ld_index : SparseIndex; ld_max_seq : option Z }.

Definition newest_seq (m : option Z) (seq : Z) : option Z :=
  match m with Some m => if seq_newer seq m then Some seq else Some m | None => Some seq end.

(** The frame's offset is where its length prefix was read. *)
Definition load_visit (s : LoadState) (frame_offset : Z) (e : SStableEntry) : flow LoadState :=
  Continue (mk_load
    (match ld_min s with None => Some (sst_key e) | m => m end)
    (Some (sst_key e)) (ld_count s + 1) (ld_keys s ++ [sst_key e])
    (if ld_count s mod SAMPLE_INTERVAL =? 0 then si_push (ld_index s) (sst_key e) frame_offset else ld_index s)
    (newest_seq (ld_max_seq s) (sst_seq e))).

Definition si_some (idx : SparseIndex) : option SparseIndex := match idx with [] => None | _ => Some idx end.

Definition LoadedSstable `{Murmur3} : Type := SStableMetadata * option BloomFilter * option SparseIndex * option Z.

Definition load_metadata_from_file `{Murmur3} (file : region) : result LoadedSstable LSMError :=
  let? _ := validate_sstable_header file in
  let? s := walk (next_seq file) load_visit (walk_fuel file) SSTABLE_DATA_START (mk_load None None 0 [] [] None) in
  let bloom := match ld_keys s with [] => None | keys => Some (bloom_build keys (zlen keys)) end in
  Ok (mk_meta (default [] (ld_min s)) (default [] (ld_max s)) (ld_count s) (ld_max_seq s), bloom, si_some (ld_index s), ld_max_seq s).

(** ** Writing a merged table *)

(** The file, its least and greatest key, the entry count, the bytes of its entries and
    the sparse index. *)
Definition write_merged_sstable (es : list SStableEntry) : result (region * (key * key * Z * Z * SparseIndex)) LSMError :=
  match es, last es with
  | first :: _, Some final =>
      let '(bytes, idx, offset) := write_entries 0 SSTABLE_DATA_START es [] in
      Ok (sstable_header_bytes ++ bytes, (sst_key first, sst_key final, zlen es, offset - SSTABLE_DATA_START, idx))
  | _, _ => Err Serialization
  end.
End sstable.
