(* ===== verification/FrameReader.v ===== *)
(** * FrameReader: buffered forward reads of a table

    [FrameReader] of [src/minnal_db/src/store/lsm/lsm_tree.rs], which reads ahead into a
    buffer and seeks forward, and the walks built on it: a key range, a set of prefixes, a
    batch of keys. *)
From S2P Require Import Prelude OrdMap Bytes Slices Keys LsmFilters SsTable.

Record FrameReader := mk_fr {
  fr_pending : region;     (* buf[pos..len]: read, not yet consumed *)
  fr_pos : Z;
  fr_cap : Z;              (* buf.len() *)
  fr_next_offset : Z; fr_read_size : Z; fr_bytes_read : Z }.

Definition MIN_READ : Z := 8 * 1024.
Definition MAX_READ : Z := 256 * 1024.

Definition fr_new (offset : Z) : FrameReader := mk_fr [] 0 0 offset MIN_READ 0.

Definition fr_offset (fr : FrameReader) : Z := fr_next_offset fr - zlen (fr_pending fr).

Definition fr_consume (n : Z) (fr : FrameReader) : FrameReader :=
  mk_fr (drop (Z.to_nat n) (fr_pending fr)) (fr_pos fr + n) (fr_cap fr) (fr_next_offset fr) (fr_read_size fr) (fr_bytes_read fr).

Definition fr_seek (offset : Z) (fr : FrameReader) : FrameReader :=
  let here := fr_offset fr in
  if (here <=? offset) && (offset <? fr_next_offset fr) then fr_consume (offset - here) fr
  else mk_fr [] 0 (fr_cap fr) offset MIN_READ (fr_bytes_read fr).

(** The refill loop: each read returns what the file has, up to the room in the buffer. *)
Fixpoint fill_loop (fuel : nat) (file : region) (n : Z) (fr : FrameReader) : FrameReader :=
  match fuel with
  | O => fr
  | S fuel =>
      if zlen (fr_pending fr) <? n then
        let read := bread file (fr_next_offset fr) (fr_cap fr - zlen (fr_pending fr)) in
        match read with
        | [] => fr
        | _ => fill_loop fuel file n
                 (mk_fr (fr_pending fr ++ read) (fr_pos fr) (fr_cap fr) (fr_next_offset fr + zlen read)
                    (fr_read_size fr) (fr_bytes_read fr + zlen read))
        end
      else fr
  end.

(** [fill]: the number of unconsumed bytes is the length of [fr_pending]. *)
Definition fr_fill (file : region) (n : Z) (fr : FrameReader) : FrameReader :=
  if n <=? zlen (fr_pending fr) then fr
  else
    let want := zlen (fr_pending fr) + Z.max n (fr_read_size fr) in
    fill_loop (S (Z.to_nat n)) file n
      (mk_fr (fr_pending fr) 0 (Z.max (fr_cap fr) want) (fr_next_offset fr)
         (Z.min (fr_read_size fr * 2) MAX_READ) (fr_bytes_read fr)).

(** The next frame's body, or [None] at a clean end of the file. *)
Definition next_frame (file : region) (file_len : Z) (fr : FrameReader) : result (option region * FrameReader) LSMError :=
  let fr := fr_fill file 4 fr in
  let n := zlen (fr_pending fr) in
  if n =? 0 then Ok (None, fr)
  else if n <? 4 then Err UnexpectedEof
  else
    let size := le_value (take 4 (fr_pending fr)) in
    match check_frame_len size file_len with
    | Err e => Err e
    | Ok _ =>
        let fr := fr_fill file size (fr_consume 4 fr) in
        if zlen (fr_pending fr) <? size then Err UnexpectedEof
        else Ok (Some (take (Z.to_nat size) (fr_pending fr)), fr_consume size fr)
    end.

Fixpoint drop_while {A} (p : A → bool) (l : list A) : list A :=
  match l with x :: l' => if p x then drop_while p l' else l | [] => [] end.

Section walks.
Context `{Crc, RkyvSst}.
Local Open Scope minnal_scope.

Definition next_entry (file : region) (fr : FrameReader) : result (option SStableEntry * FrameReader) LSMError :=
  let? (body, fr) := next_frame file (zlen file) fr in
  match body with
  | None => Ok (None, fr)
  | Some framed => let? body := verify_sstable_payload framed in Ok (Some (sst_access body), fr)
  end.

(** ** A range of keys *)

Definition below_end (e : option key) (k : key) : bool := match e with Some e => key_lt k e | None => true end.

(** [for_each_l1_entry_in_range] from the first frame on: the entries it visits. *)
Fixpoint range_loop (fuel : nat) (file : region) (start : key) (end_ : option key) (max_live : option Z)
    (fr : FrameReader) (live_seen : Z) : result (list SStableEntry) LSMError :=
  match fuel with
  | O => Ok []
  | S fuel =>
      let? (entry, fr) := next_entry file fr in
      match entry with
      | None => Ok []
      | Some e =>
          if negb (below_end end_ (sst_key e)) then Ok []
          else if key_le start (sst_key e) then
            let live_seen := if sst_tombstone e then live_seen else live_seen + 1 in
            if negb (sst_tombstone e) && from_option (λ m, m <=? live_seen) false max_live then Ok [e]
            else let? rest := range_loop fuel file start end_ max_live fr live_seen in Ok (e :: rest)
          else range_loop fuel file start end_ max_live fr live_seen
      end
  end.

Definition for_each_l1_entry_in_range (file : region) (idx : option SparseIndex) (start : key) (end_ : option key)
    (max_live : option Z) : result (list SStableEntry) LSMError :=
  let start_offset := from_option (λ i, block_start i start) 0 idx in
  let offset := if negb (start_offset =? 0) && valid_scan_start file start_offset (zlen file) start
                then start_offset else SSTABLE_DATA_START in
  range_loop (walk_fuel file) file start end_ max_live (fr_new offset) 0.

(** ** A batch of keys *)

(** [scan_sorted_candidates]: the entries visited, and whether a hint was rejected.  [head]
    is set at the head of the outer loop, where the cursor may jump. *)
Fixpoint candidates_loop (fuel : nat) (file : region) (head : bool) (cands : list (key * Z)) (fr : FrameReader)
    (rejected : bool) : result (list SStableEntry * bool) LSMError :=
  match fuel, cands with
  | S fuel, (wanted, start) :: _ =>
      let jump := head && (fr_offset fr <? start) in
      let valid := valid_scan_start file start (zlen file) wanted in
      let fr := if jump && valid then fr_seek start fr else fr in
      let rejected := rejected || (jump && negb valid) in
      let? (entry, fr) := next_entry file fr in
      match entry with
      | None => Ok ([], rejected)
      | Some e =>
          let? (rest, rejected) :=
            if key_le wanted (sst_key e)
            then candidates_loop fuel file true (drop_while (λ c, key_le c.1 (sst_key e)) cands) fr rejected
            else candidates_loop fuel file false cands fr rejected in
          Ok (e :: rest, rejected)
      end
  | _, _ => Ok ([], rejected)
  end.

Definition scan_sorted_candidates (file : region) (cands : list (key * Z)) : result (list SStableEntry * bool) LSMError :=
  candidates_loop (walk_fuel file) file true cands (fr_new SSTABLE_DATA_START) false.

(** ** A set of prefixes *)

(** A prefix id as a key: [id.to_be_bytes()]. *)
Definition id_key (id : Z) : key := rev (le_bytes 4 id).
(** [key.get(..4)] as an id. *)
Definition key_id (k : key) : option Z := if (length k <? 4)%nat then None else Some (be_value (take 4 k)).

(** [wanted] is [None] at the head of the outer loop, where the cursor may jump. *)
Fixpoint prefixes_loop (fuel : nat) (file : region) (wanted : option Z) (ids : list (Z * Z)) (fr : FrameReader)
    : result (list SStableEntry) LSMError :=
  match fuel, ids with
  | S fuel, (first, start) :: _ =>
      let fr := if bool_decide (wanted = None) && (fr_offset fr <? start) && valid_scan_start file start (zlen file) (id_key first)
                then fr_seek start fr else fr in
      let wanted := default first wanted in
      let? (entry, fr) := next_entry file fr in
      match entry with
      | None => Ok []
      | Some e =>
          match key_id (sst_key e) with
          | None => prefixes_loop fuel file (Some wanted) ids fr
          | Some id =>
              if id <? wanted then prefixes_loop fuel file (Some wanted) ids fr
              else
                match drop_while (λ p, p.1 <? id) ids with
                | [] => Ok []
                | (next, s) :: ids =>
                    if next =? id
                    then let? rest := prefixes_loop fuel file (Some wanted) ((next, s) :: ids) fr in Ok (e :: rest)
                    else prefixes_loop fuel file None ((next, s) :: ids) fr
                end
          end
      end
  | _, _ => Ok []
  end.

(** [ids]: each prefix with its hint. *)
Definition for_each_entry_in_prefixes (file : region) (ids : list (Z * Z)) : result (list SStableEntry) LSMError :=
  prefixes_loop (walk_fuel file) file None ids (fr_new SSTABLE_DATA_START).
End walks.
