(* ===== verification/SsTableSpec.v ===== *)
(** * SsTableSpec: reading back the tables that were written

    A table written for a list of entries is [table es]; every reader visits exactly its
    frames, and a lookup finds what a search of the list finds, whatever the hint. *)
From S2P Require Import Prelude OrdMap Bytes Slices Keys LsmFilters SsTable FrameReader.

Section spec.
Context `{CrcLaws, RkyvSstLaws}.
Local Open Scope minnal_scope.

(** An entry the writers can frame: its prefix as they compute it, its payload within a
    32-bit length. *)
Definition entry_ok (e : SStableEntry) : Prop :=
  Forall byte (sst_key e) ∧ sst_key_prefix e = key_prefix_of (sst_key e) ∧ 4 + zlen (sst_encode e) < 2 ^ 32 ∧ u128 (sst_value e) ∧ u64 (sst_seq e).

Lemma entry_ok_typed e : entry_ok e → entry_typed e.
Proof using.
  intros (Hb & Hp & _ & Hv & Hs). split_and!; [done|rewrite Hp; by apply key_prefix_of_range|done|done].
Qed.
Lemma access_entry e : entry_ok e → sst_access (sst_encode e) = e.
Proof using All. intros He. by apply sst_access_encode, entry_ok_typed. Qed.

Definition frames (es : list SStableEntry) : region := es ≫= sst_frame.
Definition table (es : list SStableEntry) : region := sstable_header_bytes ++ frames es.
Definition es_sorted (es : list SStableEntry) : Prop := StronglySorted (λ a b, cmp (sst_key a) (sst_key b) = Lt) es.

Lemma header_zlen : zlen sstable_header_bytes = SSTABLE_DATA_START.
Proof using. done. Qed.

Lemma payload_zlen e : zlen (encode_sstable_entry e) = 4 + zlen (sst_encode e).
Proof using. unfold encode_sstable_entry. by rewrite zlen_app, le_bytes_zlen. Qed.

Lemma sst_frame_eq e : entry_ok e → sst_frame e = le_bytes 4 (4 + zlen (sst_encode e)) ++ encode_sstable_entry e.
Proof using.
  intros (_ & _ & Hl & _). unfold sst_frame. rewrite payload_zlen, wrap_small; [done|].
  pose proof (zlen_nonneg (sst_encode e)). lia.
Qed.

Lemma sst_frame_zlen e : zlen (sst_frame e) = 8 + zlen (sst_encode e).
Proof using. unfold sst_frame. rewrite zlen_app, le_bytes_zlen, payload_zlen. lia. Qed.

Lemma verify_encode e : verify_sstable_payload (encode_sstable_entry e) = Ok (sst_encode e).
Proof using All.
  unfold verify_sstable_payload. rewrite payload_zlen. pose proof (zlen_nonneg (sst_encode e)).
  rewrite (proj2 (Z.ltb_ge _ _)) by lia. unfold encode_sstable_entry.
  rewrite drop_app_length' by by rewrite le_bytes_length.
  rewrite get_le_app_l by (rewrite ?le_bytes_zlen; lia). rewrite (get_le_bytes 4) by (pose proof (crc32_range (sst_encode e)); lia).
  by rewrite Z.eqb_refl.
Qed.

Lemma sst_frames_cons e es : frames (e :: es) = sst_frame e ++ frames es.
Proof using. done. Qed.
Lemma sst_frames_app es es' : frames (es ++ es') = frames es ++ frames es'.
Proof using. apply bind_app. Qed.

(** ** Frame sources *)

(** A source of frames that reads the frame at an offset and ends at the end of the file. *)
Record source_ok (file : region) (next : Z → result (option (SStableEntry * Z)) LSMError) : Prop := {
  source_frame pre e post : file = pre ++ sst_frame e ++ post → entry_ok e → next (zlen pre) = Ok (Some (e, zlen pre + zlen (sst_frame e)));
  source_end o : zlen file ≤ o → next o = Ok None }.

Lemma frame_parts file pre e post : file = pre ++ sst_frame e ++ post → entry_ok e →
  bread file (zlen pre) 4 = le_bytes 4 (4 + zlen (sst_encode e)) ∧
  bread file (zlen pre + 4) (4 + zlen (sst_encode e)) = encode_sstable_entry e ∧
  zlen file = zlen pre + 8 + zlen (sst_encode e) + zlen post ∧ check_frame_len (4 + zlen (sst_encode e)) (zlen file) = Ok tt.
Proof using.
  intros -> He. pose proof (sst_frame_zlen e) as Hf. rewrite (sst_frame_eq e He) in *.
  pose proof (zlen_nonneg pre); pose proof (zlen_nonneg post); pose proof (zlen_nonneg (sst_encode e)).
  split_and!.
  - rewrite <-app_assoc. apply bread_at. done.
  - rewrite <-app_assoc, app_assoc, <-payload_zlen. apply bread_at. rewrite zlen_app, le_bytes_zlen. done.
  - rewrite !zlen_app in *. lia.
  - unfold check_frame_len. rewrite !zlen_app, le_bytes_zlen, payload_zlen in *.
    rewrite (proj2 (Z.eqb_neq _ _)), (proj2 (Z.ltb_ge _ _)) by lia. done.
Qed.

Lemma frame_size e : entry_ok e → le_value (le_bytes 4 (4 + zlen (sst_encode e))) = 4 + zlen (sst_encode e).
Proof using. intros (_ & _ & Hl). apply le_value_bytes. pose proof (zlen_nonneg (sst_encode e)). lia. Qed.

Lemma next_at_ok file : source_ok file (next_at file).
Proof using All.
  split.
  - intros pre e post Hf He. destruct (frame_parts _ _ _ _ Hf He) as (Hs & Hb & Hl & Hc).
    pose proof (zlen_nonneg pre); pose proof (zlen_nonneg post); pose proof (zlen_nonneg (sst_encode e)).
    unfold next_at, read_exact_at. rewrite !(Z.max_r 0) by lia.
    rewrite (proj2 (Z.eqb_neq (zlen file - zlen pre) 0)), (proj2 (Z.ltb_ge (zlen file - zlen pre) 4)) by lia.
    cbn [Z.eqb result_bind]. rewrite Hs, frame_size, Hc by done. cbn [result_bind].
    rewrite !(Z.max_r 0), !(proj2 (Z.eqb_neq _ _)), (proj2 (Z.ltb_ge _ _)) by lia. cbn [result_bind].
    rewrite Hb, verify_encode. cbn [result_bind]. rewrite access_entry, sst_frame_zlen by done. do 3 f_equal. lia.
  - intros o Ho. unfold next_at, read_exact_at. cbn [Z.eqb]. by rewrite Z.max_l by lia.
Qed.

Lemma next_seq_ok file : source_ok file (next_seq file).
Proof using All.
  split.
  - intros pre e post Hf He. destruct (frame_parts _ _ _ _ Hf He) as (Hs & Hb & Hl & Hc).
    pose proof (zlen_nonneg pre); pose proof (zlen_nonneg post); pose proof (zlen_nonneg (sst_encode e)).
    unfold next_seq, read_exact. rewrite (proj2 (Z.ltb_ge _ _)) by lia. rewrite Hs, frame_size, Hc by done. cbn [result_bind].
    rewrite (proj2 (Z.ltb_ge _ _)) by lia. cbn [result_bind]. rewrite Hb, verify_encode. cbn [result_bind].
    rewrite access_entry, sst_frame_zlen by done. do 3 f_equal. lia.
  - intros o Ho. unfold next_seq, read_exact. by rewrite (proj2 (Z.ltb_lt _ _)) by lia.
Qed.

(** ** The loop *)

Fixpoint fold_flow {S} (visit : S → Z → SStableEntry → flow S) (offset : Z) (es : list SStableEntry) (s : S) : S :=
  match es with
  | [] => s
  | e :: es => match visit s offset e with Continue s => fold_flow visit (offset + zlen (sst_frame e)) es s | Break s => s end
  end.

Lemma sst_walk_frames {S} file next (visit : S → Z → SStableEntry → flow S) (Hn : source_ok file next) es :
  ∀ pre fuel s, file = pre ++ frames es → Forall entry_ok es → (length es < fuel)%nat →
  walk next visit fuel (zlen pre) s = Ok (fold_flow visit (zlen pre) es s).
Proof using All.
  induction es as [|e es IH]; intros pre fuel s Hf Hes Hl; (destruct fuel as [|fuel]; [cbn in Hl; lia|]); cbn [walk fold_flow].
  - rewrite (source_end _ _ Hn); [done|]. rewrite Hf. cbn. by rewrite app_nil_r.
  - apply Forall_cons in Hes as [He Hes]. rewrite sst_frames_cons in Hf. rewrite (source_frame _ _ Hn _ _ _ Hf He). cbn [result_bind].
    destruct (visit s (zlen pre) e) as [s'|s']; [|done]. rewrite <-zlen_app. apply IH; [by rewrite <-app_assoc|done|cbn in Hl; lia].
Qed.

Lemma frames_length es : (length es ≤ length (frames es))%nat.
Proof using.
  induction es as [|e es IH]; [done|]. rewrite sst_frames_cons, length_app. cbn [length].
  pose proof (sst_frame_zlen e) as Hz. pose proof (zlen_nonneg (sst_encode e)). unfold zlen in *. lia.
Qed.

Lemma walk_fuel_enough pre es : (length es < walk_fuel (pre ++ frames es))%nat.
Proof using. unfold walk_fuel. rewrite length_app. pose proof (frames_length es). lia. Qed.

Lemma walk_table {S} next (visit : S → Z → SStableEntry → flow S) es s :
  source_ok (table es) next → Forall entry_ok es →
  walk next visit (walk_fuel (table es)) SSTABLE_DATA_START s = Ok (fold_flow visit SSTABLE_DATA_START es s).
Proof using All.
  intros Hn Hes. rewrite <-header_zlen. apply (sst_walk_frames (table es)); [done|done|done|apply walk_fuel_enough].
Qed.

(** ** Reading whole tables *)

Lemma rebuilt_ok e : entry_ok e → rebuilt e = e.
Proof using. destruct e. intros (_ & Hp & _). cbn in Hp. unfold rebuilt. cbn. by rewrite Hp. Qed.

Lemma fold_collect es o acc : Forall entry_ok es → fold_flow collect_visit o es acc = acc ++ es.
Proof using.
  revert o acc. induction es as [|e es IH]; intros o acc Hes; cbn [fold_flow]; [by rewrite app_nil_r|].
  apply Forall_cons in Hes as [He Hes]. cbn [collect_visit]. by rewrite IH, rebuilt_ok, <-app_assoc.
Qed.

Lemma read_from_file_table es : Forall entry_ok es → read_sstable_entries_from_file (table es) = Ok es.
Proof using All.
  intros Hes. unfold read_sstable_entries_from_file. rewrite walk_table by (done || apply next_at_ok). by rewrite fold_collect.
Qed.
Lemma read_from_path_table es : Forall entry_ok es → read_sstable_entries_from_path (Some (table es)) = Ok es.
Proof using All.
  intros Hes. cbn [read_sstable_entries_from_path]. rewrite walk_table by (done || apply next_seq_ok). by rewrite fold_collect.
Qed.
Lemma read_from_file_empty : read_sstable_entries_from_file [] = Ok [].
Proof using. done. Qed.

Lemma validate_table es : validate_sstable_header (table es) = Ok tt.
Proof using.
  unfold validate_sstable_header, table. rewrite zlen_app, header_zlen. pose proof (zlen_nonneg (frames es)).
  rewrite (proj2 (Z.ltb_ge _ _)) by lia. rewrite bread_app_l by (try rewrite header_zlen; vm_compute; done).
  rewrite bool_decide_true by done. by rewrite get_le_app_l by (try rewrite header_zlen; vm_compute; done).
Qed.

(** ** The writers *)

Lemma write_entries_bytes es : ∀ i o idx, (write_entries i o es idx).1.1 = frames es ∧ (write_entries i o es idx).2 = o + zlen (frames es).
Proof using.
  induction es as [|e es IH]; intros i o idx; cbn [write_entries]; [split; [done|]; change (frames []) with (@nil Z); rewrite (@zlen_nil Z); cbn [snd]; lia|].
  specialize (IH (i + 1) (o + zlen (sst_frame e)) (if i mod SAMPLE_INTERVAL =? 0 then si_push idx (sst_key e) o else idx)).
  destruct (write_entries _ _ _ _) as [[bytes idx'] o']. cbn [fst snd] in *. destruct IH as [-> ->].
  rewrite sst_frames_cons, zlen_app. split; [done|lia].
Qed.

(** The sparse index of a run of entries, the first of which is the [i]-th of its file. *)
Fixpoint samples (i o : Z) (es : list SStableEntry) : SparseIndex :=
  match es with
  | [] => []
  | e :: es => (if i mod SAMPLE_INTERVAL =? 0 then [(sst_key e, o)] else []) ++ samples (i + 1) (o + zlen (sst_frame e)) es
  end.
Definition table_index (es : list SStableEntry) : SparseIndex := samples 0 SSTABLE_DATA_START es.

Lemma write_entries_index es : ∀ i o idx, (write_entries i o es idx).1.2 = idx ++ samples i o es.
Proof using.
  induction es as [|e es IH]; intros i o idx; cbn [write_entries samples]; [by rewrite app_nil_r|].
  specialize (IH (i + 1) (o + zlen (sst_frame e)) (if i mod SAMPLE_INTERVAL =? 0 then si_push idx (sst_key e) o else idx)).
  destruct (write_entries _ _ _ _) as [[bytes idx'] o']. cbn [fst snd] in *. rewrite IH. unfold si_push.
  destruct (_ =? 0); [by rewrite <-app_assoc|done].
Qed.

(** ** Loading a table *)

Definition newest_of (es : list SStableEntry) : option Z := foldl newest_seq None (sst_seq <$> es).
Definition table_meta (es : list SStableEntry) : SStableMetadata :=
  mk_meta (default [] (sst_key <$> head es)) (default [] (sst_key <$> last es)) (zlen es) (newest_of es).
Definition table_bloom `{Murmur3} (es : list SStableEntry) : option BloomFilter :=
  match es with [] => None | _ => Some (bloom_build (sst_key <$> es) (zlen es)) end.

Lemma fold_load es : ∀ o s,
  fold_flow load_visit o es s =
    mk_load (match ld_min s with None => sst_key <$> head es | m => m end)
      (match last es with Some e => Some (sst_key e) | None => ld_max s end)
      (ld_count s + zlen es) (ld_keys s ++ (sst_key <$> es)) (ld_index s ++ samples (ld_count s) o es)
      (foldl newest_seq (ld_max_seq s) (sst_seq <$> es)).
Proof using.
  induction es as [|e es IH]; intros o s.
  - destruct s as [mn mx c ks ix ms]. cbn. rewrite !app_nil_r, (@zlen_nil SStableEntry), Z.add_0_r. by destruct mn.
  - cbn [fold_flow]. unfold load_visit at 1. rewrite IH. cbn [ld_min ld_max ld_count ld_keys ld_index ld_max_seq].
    rewrite zlen_cons, Z.add_assoc, fmap_cons, <-app_assoc. cbn [samples foldl head fmap option_fmap option_map app].
    f_equal.
    + by destruct (ld_min s).
    + rewrite last_cons. by destruct (last es).
    + unfold si_push. destruct (_ =? 0); [by rewrite <-app_assoc|done].
Qed.

Lemma load_table `{Murmur3} es : Forall entry_ok es →
  load_metadata_from_file (table es) = Ok (table_meta es, table_bloom es, si_some (table_index es), newest_of es).
Proof using All.
  intros Hes. unfold load_metadata_from_file. rewrite validate_table. cbn [result_bind].
  rewrite walk_table by (done || apply next_seq_ok). cbn [result_bind]. rewrite fold_load.
  cbn [ld_min ld_max ld_count ld_keys ld_index ld_max_seq app]. rewrite Z.add_0_l. unfold table_meta, table_bloom, newest_of.
  destruct es as [|e es]; [done|]. rewrite last_cons. rewrite <-(zlen_fmap sst_key (e :: es)) at 3. by destruct (last es).
Qed.

(** ** The sparse index of a table *)

(** [o] is where the frame of [e] starts in the table of [es]. *)
Definition frame_at (es : list SStableEntry) (e : SStableEntry) (o : Z) : Prop :=
  ∃ pre post, es = pre ++ e :: post ∧ o = SSTABLE_DATA_START + zlen (frames pre).

Lemma samples_frames es : ∀ i o s, s ∈ samples i o es →
  ∃ pre e post, es = pre ++ e :: post ∧ s = (sst_key e, o + zlen (frames pre)).
Proof using.
  induction es as [|e es IH]; intros i o s; cbn [samples]; [by intros ?%elem_of_nil|].
  intros [Hs|Hs]%elem_of_app.
  - destruct (_ =? 0); [|by apply elem_of_nil in Hs]. apply list_elem_of_singleton in Hs as ->.
    exists [], e, es. split; [done|]. f_equal. change (frames []) with (@nil Z). rewrite (@zlen_nil Z). lia.
  - destruct (IH _ _ _ Hs) as (pre & e' & post & -> & ->). exists (e :: pre), e', post. split; [done|].
    rewrite sst_frames_cons, zlen_app. f_equal. lia.
Qed.

Lemma table_index_frame es k o : (k, o) ∈ table_index es → ∃ e, frame_at es e o ∧ sst_key e = k.
Proof using.
  intros (pre & e & post & -> & [= -> ->])%samples_frames. exists e. split; [|done]. by exists pre, post.
Qed.

Lemma es_sorted_cons e es : es_sorted (e :: es) ↔ (∀ e', e' ∈ es → key_lt (sst_key e) (sst_key e') = true) ∧ es_sorted es.
Proof using.
  unfold es_sorted. rewrite StronglySorted_cons, Forall_forall. setoid_rewrite key_lt_spec. done.
Qed.
Lemma es_sorted_app es es' : es_sorted (es ++ es') ↔
  (∀ e e', e ∈ es → e' ∈ es' → key_lt (sst_key e) (sst_key e') = true) ∧ es_sorted es ∧ es_sorted es'.
Proof using. unfold es_sorted. rewrite StronglySorted_app. setoid_rewrite key_lt_spec. done. Qed.

Lemma samples_sorted es : ∀ i o, es_sorted es → si_sorted (samples i o es).
Proof using.
  induction es as [|e es IH]; intros i o Hs; [constructor|]. apply es_sorted_cons in Hs as [He Hs]. cbn [samples].
  specialize (IH (i + 1) (o + zlen (sst_frame e)) Hs). destruct (_ =? 0); [|done]. cbn [app]. constructor; [done|].
  apply Forall_forall. intros s (pre & e' & post & -> & ->)%samples_frames. apply key_lt_spec, He, elem_of_app. right. left.
Qed.

(** A hint the index of a table gives is the start of one of its frames, or none. *)
Lemma index_hint es k : es_sorted es →
  block_start (table_index es) k = 0 ∨ ∃ e, frame_at es e (block_start (table_index es) k) ∧ key_le (sst_key e) k = true.
Proof using.
  intros Hs. destruct (block_start_spec _ k (samples_sorted es 0 SSTABLE_DATA_START Hs)) as [[Hz _]|(pre & [k' o] & post & Hi & Ho & Hk & _)];
    [by left|right]. fold (table_index es) in *. rewrite Ho.
  destruct (table_index_frame es k' o) as (e & Hf & <-); [rewrite Hi; apply elem_of_app; right; left|by exists e].
Qed.

(** ** Lookups *)

Definition ss_of (e : SStableEntry) : SsLookup := if sst_tombstone e then Deleted (sst_seq e) else Found (sst_value e) (sst_seq e).
Fixpoint ss_find (k : key) (es : list SStableEntry) : SsLookup :=
  match es with [] => Missing | e :: es => if bool_decide (sst_key e = k) then ss_of e else ss_find k es end.

Lemma ss_find_absent k es : (∀ e, e ∈ es → sst_key e ≠ k) → ss_find k es = Missing.
Proof using.
  induction es as [|e es IH]; intros Hn; [done|]. cbn [ss_find]. rewrite bool_decide_false by (apply Hn; left).
  apply IH. intros e' He'. apply Hn. by right.
Qed.

Lemma ss_find_app_l k es es' : (∀ e, e ∈ es → sst_key e ≠ k) → ss_find k (es ++ es') = ss_find k es'.
Proof using.
  induction es as [|e es IH]; intros Hn; [done|]. cbn [ss_find app]. rewrite bool_decide_false by (apply Hn; left).
  apply IH. intros e' He'. apply Hn. by right.
Qed.

Lemma fold_scan k es : ∀ o, es_sorted es → fold_flow (scan_visit k) o es Missing = ss_find k es.
Proof using.
  induction es as [|e es IH]; intros o Hs; [done|]. apply es_sorted_cons in Hs as [He Hs]. cbn [fold_flow ss_find].
  unfold scan_visit at 1. destruct (bool_decide (sst_key e = k)); [done|].
  destruct (key_lt k (sst_key e)) eqn:E; [|by apply IH]. symmetry. apply ss_find_absent. intros e' He' <-.
  specialize (He e' He'). by rewrite key_lt_asym in He.
Qed.

Lemma frame_at_split es e o : frame_at es e o → ∃ pre post, es = pre ++ e :: post ∧
  table es = (sstable_header_bytes ++ frames pre) ++ sst_frame e ++ frames post ∧ o = zlen (sstable_header_bytes ++ frames pre).
Proof using.
  intros (pre & post & -> & ->). exists pre, post. unfold table. rewrite sst_frames_app, sst_frames_cons, zlen_app, header_zlen.
  by rewrite <-!app_assoc.
Qed.

Lemma u64_sat_le a b c : a + b ≤ c → u64_saturating_add a b ≤ c.
Proof using. unfold u64_saturating_add. lia. Qed.

Lemma valid_start_frame es e o k : Forall entry_ok es → frame_at es e o →
  valid_scan_start (table es) o (zlen (table es)) k = key_le (sst_key e) k.
Proof using All.
  intros Hes Hf. destruct (frame_at_split _ _ _ Hf) as (pre & post & -> & Ht & ->).
  apply Forall_app in Hes as [_ [He _]%Forall_cons]. destruct (frame_parts _ _ _ _ Ht He) as (Hs & Hb & Hl & Hc).
  pose proof (zlen_nonneg (frames post)); pose proof (zlen_nonneg (sst_encode e)).
  unfold valid_scan_start, get_le. rewrite Hs, frame_size by done.
  rewrite (proj2 (Z.ltb_ge _ _)) by (apply u64_sat_le; lia). rewrite (proj2 (Z.eqb_neq _ _)) by lia.
  rewrite (proj2 (Z.ltb_ge _ _)).
  - cbn [orb]. by rewrite Hb, verify_encode, access_entry.
  - etrans; [apply u64_sat_le|reflexivity]. unfold u64_saturating_add. lia.
Qed.

(** Starting at any frame whose key is at most [k] finds what the whole table holds. *)
Lemma scan_from_frame es e o k : Forall entry_ok es → es_sorted es → frame_at es e o → key_le (sst_key e) k = true →
  scan_sstable_file_for (table es) k o = Ok (ss_find k es).
Proof using All.
  intros Hes Hs Hf Hk. destruct (frame_at_split _ _ _ Hf) as (pre & post & -> & Ht & ->).
  unfold scan_sstable_file_for. rewrite <-sst_frames_cons in Ht. apply Forall_app in Hes as [_ Hes].
  rewrite (sst_walk_frames _ _ _ (next_at_ok _) (e :: post) _ _ _ Ht Hes) by (rewrite Ht; apply walk_fuel_enough).
  apply es_sorted_app in Hs as (Hlt & _ & Hs). rewrite fold_scan by done. f_equal. symmetry. apply ss_find_app_l.
  intros e' He' <-. assert (key_lt (sst_key e') (sst_key e) = true) as Hl by (apply Hlt; [done|left]).
  rewrite key_lt_le, Hk in Hl. done.
Qed.

Lemma scan_from_head es k : Forall entry_ok es → es_sorted es → scan_sstable_file_for (table es) k SSTABLE_DATA_START = Ok (ss_find k es).
Proof using All.
  intros Hes Hs. unfold scan_sstable_file_for. rewrite walk_table by (done || apply next_at_ok). by rewrite fold_scan.
Qed.

(** The hints that cannot mislead: none, the start of a frame, or one that is rejected. *)
Definition hint_sound (es : list SStableEntry) (k : key) (start : Z) : Prop :=
  start = 0 ∨ (∃ e, frame_at es e start) ∨ valid_scan_start (table es) start (zlen (table es)) k = false.

Lemma lookup_hinted_table es k start : Forall entry_ok es → es_sorted es → hint_sound es k start →
  lookup_in_sstable_file_hinted (table es) k start =
    Ok (ss_find k es, negb (start =? 0) && negb (valid_scan_start (table es) start (zlen (table es)) k)).
Proof using All.
  intros Hes Hs Hh. unfold lookup_in_sstable_file_hinted. destruct (start =? 0) eqn:E0; cbn [negb andb].
  { by rewrite scan_from_head. }
  destruct (valid_scan_start _ _ _ _) eqn:Ev; cbn [negb]; [|by rewrite scan_from_head].
  apply Z.eqb_neq in E0. destruct Hh as [?|[[e He]|Hr]]; [done| |congruence].
  rewrite (valid_start_frame es e) in Ev by done. by rewrite (scan_from_frame es e).
Qed.

Lemma index_hint_sound es k : es_sorted es → hint_sound es k (block_start (table_index es) k).
Proof using. intros Hs. destruct (index_hint es k Hs) as [?|(e & ? & _)]; [by left|right; left; by exists e]. Qed.
End spec.
