(* ===== verification/FrameReaderSpec.v ===== *)
(** * FrameReaderSpec: buffering does not change what is read

    The buffered reader yields the frames of a table one after the other, across refills
    and seeks; the walks built on it visit the entries they should. *)
From S2P Require Import Prelude OrdMap Bytes Slices Keys LsmFilters SsTable FrameReader SsTableSpec.

(** ** The buffer *)

Section buffer.
Context (file : region).

(** What is pending is the file at the reader's offset. *)
Definition fr_wf (fr : FrameReader) : Prop :=
  fr_pending fr = bread file (fr_offset fr) (zlen (fr_pending fr)) ∧ 0 ≤ fr_offset fr ∧ 0 < fr_read_size fr.

Lemma bread_zlen a n : 0 ≤ a → 0 ≤ n → zlen (bread file a n) = Z.max 0 (Z.min n (zlen file - a)).
Proof. intros. unfold bread, zlen. rewrite length_take, length_drop. lia. Qed.

Lemma bread_extend a n m : 0 ≤ a → 0 ≤ n → 0 ≤ m → zlen (bread file a n) = n →
  bread file a n ++ bread file (a + n) m = bread file a (n + zlen (bread file (a + n) m)).
Proof.
  intros Ha Hn Hm Hl. rewrite <-(bread_join file a n (a + n)) by (lia || apply zlen_nonneg). f_equal.
  unfold bread. set (l := drop _ _). unfold zlen. rewrite length_take.
  destruct (Nat.le_ge_cases (Z.to_nat m) (length l)); [f_equal; lia|]. rewrite (take_ge l (Z.to_nat m)) by lia. rewrite take_ge by lia. done.
Qed.

Lemma pending_bound fr : fr_wf fr → zlen (fr_pending fr) ≤ Z.max 0 (zlen file - fr_offset fr).
Proof. intros (Hp & Ho & _). apply (f_equal zlen) in Hp. rewrite bread_zlen in Hp by (lia || apply zlen_nonneg). lia. Qed.

Lemma fr_new_wf o : 0 ≤ o → fr_wf (fr_new o) ∧ fr_offset (fr_new o) = o.
Proof.
  intros Ho. unfold fr_wf, fr_offset, fr_new. cbn [fr_pending fr_next_offset fr_read_size]. rewrite (@zlen_nil Z), Z.sub_0_r.
  split_and!; done || lia.
Qed.

Lemma fr_consume_wf n fr : fr_wf fr → 0 ≤ n ≤ zlen (fr_pending fr) →
  fr_wf (fr_consume n fr) ∧ fr_offset (fr_consume n fr) = fr_offset fr + n ∧ zlen (fr_pending (fr_consume n fr)) = zlen (fr_pending fr) - n.
Proof.
  intros (Hp & Ho & Hr) Hn. assert (zlen (fr_pending (fr_consume n fr)) = zlen (fr_pending fr) - n) as Hz.
  { cbn. unfold zlen in *. rewrite length_drop. lia. }
  assert (fr_offset (fr_consume n fr) = fr_offset fr + n) as Hf by (unfold fr_offset in *; rewrite Hz; cbn; lia).
  split_and!; [split_and!|done|done]; [|lia|done]. rewrite Hf, Hz. cbn [fr_consume fr_pending]. rewrite Hp at 1.
  unfold bread. replace (Z.to_nat (zlen (fr_pending fr))) with (Z.to_nat n + Z.to_nat (zlen (fr_pending fr) - n))%nat by lia.
  rewrite <-take_drop_commute, drop_drop. do 2 f_equal; lia.
Qed.

(** A refill keeps the offset and leaves [n] bytes, or what the file has. *)
Definition filled (n : Z) (fr fr' : FrameReader) : Prop :=
  fr_wf fr' ∧ fr_offset fr' = fr_offset fr ∧
  (n ≤ zlen (fr_pending fr') ∨ zlen (fr_pending fr') = Z.max 0 (zlen file - fr_offset fr)).

Lemma fill_loop_ok fuel n : ∀ fr, fr_wf fr → 0 < n → n ≤ fr_cap fr → (Z.to_nat (n - zlen (fr_pending fr)) < fuel)%nat →
  filled n fr (fill_loop fuel file n fr).
Proof.
  induction fuel as [|fuel IH]; intros fr Hw Hn Hc Hf; [lia|]. cbn [fill_loop]. pose proof (zlen_nonneg (fr_pending fr)) as Hz.
  pose proof Hw as (Hp & Ho & Hr). destruct (zlen (fr_pending fr) <? n) eqn:E;
    [apply Z.ltb_lt in E|apply Z.ltb_ge in E; split_and!; [done|done|by left]].
  assert (fr_next_offset fr = fr_offset fr + zlen (fr_pending fr)) as Hnx by (unfold fr_offset; lia).
  pose proof (bread_zlen (fr_next_offset fr) (fr_cap fr - zlen (fr_pending fr)) ltac:(lia) ltac:(lia)) as Hb.
  destruct (bread file (fr_next_offset fr) (fr_cap fr - zlen (fr_pending fr))) as [|x read] eqn:Er.
  - rewrite (@zlen_nil Z) in Hb. split_and!; [done|done|right]. pose proof (pending_bound fr Hw). lia.
  - set (fr1 := mk_fr _ _ _ _ _ _). assert (fr_offset fr1 = fr_offset fr) as Ho1.
    { unfold fr_offset, fr1. cbn [fr_next_offset fr_pending]. rewrite zlen_app. lia. }
    assert (fr_wf fr1) as Hw1.
    { split_and!; [|lia|done]. rewrite Ho1. unfold fr1 at 1 2. cbn [fr_pending]. rewrite zlen_app, <-Er, Hnx. rewrite Hp at 1.
      apply bread_extend; [lia..|]. by rewrite <-Hp. }
    rewrite zlen_cons in Hb. pose proof (zlen_nonneg read).
    destruct (IH fr1 Hw1 Hn Hc) as (Hw2 & Ho2 & Hd2).
    { unfold fr1. cbn [fr_pending]. rewrite zlen_app, zlen_cons. lia. }
    rewrite Ho1 in *. split_and!; done.
Qed.

Lemma fr_fill_ok n fr : fr_wf fr → 0 < n → filled n fr (fr_fill file n fr).
Proof.
  intros (Hp & Ho & Hr) Hn. unfold fr_fill. destruct (n <=? zlen (fr_pending fr)) eqn:E.
  - apply Z.leb_le in E. split_and!; [done|done|by left].
  - apply Z.leb_gt in E. pose proof (zlen_nonneg (fr_pending fr)).
    destruct (fill_loop_ok (S (Z.to_nat n)) n (mk_fr (fr_pending fr) 0 (Z.max (fr_cap fr) (zlen (fr_pending fr) + Z.max n (fr_read_size fr)))
      (fr_next_offset fr) (Z.min (fr_read_size fr * 2) MAX_READ) (fr_bytes_read fr))) as (Hw & Hf & Hd); cbn [fr_cap fr_pending]; [|lia..|done].
    split_and!; [done|done|]. cbn [fr_read_size]. unfold MAX_READ. lia.
Qed.

Lemma filled_part n fr fr' : filled n fr fr' → 0 ≤ n → fr_offset fr + n ≤ zlen file →
  n ≤ zlen (fr_pending fr') ∧ take (Z.to_nat n) (fr_pending fr') = bread file (fr_offset fr) n.
Proof.
  intros ((Hp & Ho & Hr) & Hf & Hd) Hn Hl. assert (n ≤ zlen (fr_pending fr')) as Hlt by (destruct Hd; lia).
  split; [done|]. rewrite Hp, Hf. unfold bread. rewrite take_take. f_equal. lia.
Qed.

Lemma fr_seek_wf o fr : fr_wf fr → 0 ≤ o → fr_wf (fr_seek o fr) ∧ fr_offset (fr_seek o fr) = o.
Proof.
  intros Hw Ho. unfold fr_seek. destruct ((fr_offset fr <=? o) && (o <? fr_next_offset fr)) eqn:E.
  - apply andb_true_iff in E as [E1%Z.leb_le E2%Z.ltb_lt]. destruct (fr_consume_wf (o - fr_offset fr) fr Hw) as (? & -> & _).
    { unfold fr_offset in *. lia. }
    split; [done|lia].
  - unfold fr_wf, fr_offset. cbn [fr_pending fr_next_offset fr_read_size]. unfold MIN_READ. rewrite (@zlen_nil Z), Z.sub_0_r. split_and!; done || lia.
Qed.
End buffer.

(** ** Frames *)

Section frames.
Context `{CrcLaws, RkyvSstLaws}.
Local Open Scope minnal_scope.

Lemma next_entry_frame file fr pre e post :
  file = pre ++ sst_frame e ++ post → entry_ok e → fr_wf file fr → fr_offset fr = zlen pre →
  ∃ fr', next_entry file fr = Ok (Some e, fr') ∧ fr_wf file fr' ∧ fr_offset fr' = zlen pre + zlen (sst_frame e).
Proof using All.
  intros Hfile He Hw Ho. destruct (frame_parts _ _ _ _ Hfile He) as (Hs & Hb & Hl & Hc).
  pose proof (zlen_nonneg pre); pose proof (zlen_nonneg post); pose proof (zlen_nonneg (sst_encode e)).
  unfold next_entry, next_frame. pose proof (fr_fill_ok file 4 fr Hw ltac:(lia)) as Hf1.
  destruct (filled_part file _ _ _ Hf1) as [Hn1 Ht1]; [lia..|]. set (fr1 := fr_fill file 4 fr) in *. destruct Hf1 as (Hw1 & Ho1 & _).
  rewrite (proj2 (Z.eqb_neq _ _)), (proj2 (Z.ltb_ge _ _)) by lia.
  change (take 4 (fr_pending fr1)) with (take (Z.to_nat 4) (fr_pending fr1)). rewrite Ht1, Ho, Hs, frame_size, Hc by done.
  destruct (fr_consume_wf file 4 fr1 Hw1) as (Hw2 & Ho2 & _); [lia|].
  assert (0 < 4 + zlen (sst_encode e)) as Hpos by lia. pose proof (fr_fill_ok file _ _ Hw2 Hpos) as Hf3.
  destruct (filled_part file _ _ _ Hf3) as [Hn3 Ht3]; [lia..|]. set (fr3 := fr_fill file (4 + zlen (sst_encode e)) _) in *.
  destruct Hf3 as (Hw3 & Ho3 & _). rewrite (proj2 (Z.ltb_ge _ _)) by lia. cbn [result_bind].
  rewrite Ht3, Ho2, Ho1, Ho, Hb, verify_encode. cbn [result_bind]. rewrite access_entry by done.
  destruct (fr_consume_wf file (4 + zlen (sst_encode e)) fr3 Hw3) as (Hw4 & Ho4 & _); [lia|].
  eexists. split_and!; [done|done|]. rewrite Ho4, Ho3, Ho2, Ho1, Ho, sst_frame_zlen. lia.
Qed.

Lemma next_entry_end file fr : fr_wf file fr → zlen file ≤ fr_offset fr →
  ∃ fr', next_entry file fr = Ok (None, fr') ∧ fr_wf file fr' ∧ fr_offset fr' = fr_offset fr.
Proof using.
  intros Hw Ho. unfold next_entry, next_frame. destruct (fr_fill_ok file 4 fr Hw ltac:(lia)) as (Hw1 & Ho1 & Hd).
  pose proof (pending_bound file _ Hw1) as Hp. rewrite (proj2 (Z.eqb_eq _ _)) by (pose proof (zlen_nonneg (fr_pending (fr_fill file 4 fr))); lia).
  cbn [result_bind]. by eexists.
Qed.

(** Where the frame after those of [pre] starts. *)
Definition frame_pos (pre : list SStableEntry) : Z := SSTABLE_DATA_START + zlen (frames pre).

Lemma frame_pos_snoc pre e : frame_pos (pre ++ [e]) = frame_pos pre + zlen (sst_frame e).
Proof using. unfold frame_pos. rewrite sst_frames_app, zlen_app. unfold frames at 2. cbn. rewrite app_nil_r. lia. Qed.

(** A reader of the table of [es], past the frames of [pre]. *)
Definition fr_past (es pre : list SStableEntry) (fr : FrameReader) : Prop :=
  fr_wf (table es) fr ∧ fr_offset fr = frame_pos pre.

Lemma fr_past_new es : fr_past es [] (fr_new SSTABLE_DATA_START).
Proof using. by apply fr_new_wf. Qed.

Lemma frame_pos_pos pre : 0 < frame_pos pre.
Proof using. unfold frame_pos, SSTABLE_DATA_START. pose proof (zlen_nonneg (frames pre)). lia. Qed.
Lemma fr_past_at es pre : fr_past es pre (fr_new (frame_pos pre)).
Proof using. pose proof (frame_pos_pos pre). destruct (fr_new_wf (table es) (frame_pos pre)); [lia|]. by split. Qed.

Lemma next_table es pre e post fr : es = pre ++ e :: post → Forall entry_ok es → fr_past es pre fr →
  ∃ fr', next_entry (table es) fr = Ok (Some e, fr') ∧ fr_past es (pre ++ [e]) fr'.
Proof using All.
  intros -> Hes [Hw Ho]. apply Forall_app in Hes as [_ [He _]%Forall_cons].
  destruct (next_entry_frame (table (pre ++ e :: post)) fr (sstable_header_bytes ++ frames pre) e (frames post)) as (fr' & Hn & Hw' & Ho').
  - unfold table. by rewrite sst_frames_app, sst_frames_cons, <-!app_assoc.
  - done.
  - done.
  - by rewrite zlen_app, header_zlen.
  - exists fr'. split; [done|]. split; [done|]. by rewrite frame_pos_snoc, Ho', zlen_app, header_zlen.
Qed.

Lemma next_table_end es fr : fr_past es es fr → ∃ fr', next_entry (table es) fr = Ok (None, fr') ∧ fr_past es es fr'.
Proof using.
  intros [Hw Ho]. destruct (next_entry_end (table es) fr Hw) as (fr' & Hn & Hw' & Ho').
  - rewrite Ho. unfold table, frame_pos. rewrite zlen_app, header_zlen. lia.
  - exists fr'. split; [done|]. split; [done|]. by rewrite Ho'.
Qed.

(** The frame of an entry at an offset past those of [pre] is among the frames after them. *)
Lemma frame_after es pre rest e o : es = pre ++ rest → frame_at es e o → frame_pos pre < o →
  ∃ mid post, rest = mid ++ e :: post ∧ o = frame_pos (pre ++ mid).
Proof using.
  intros -> (pre0 & post & Hes & ->) Ho. unfold frame_pos in *.
  destruct (app_eq_inv _ _ _ _ Hes) as [(k & -> & Hk)|(k & -> & ->)].
  - exfalso. rewrite sst_frames_app, zlen_app in Ho. pose proof (zlen_nonneg (frames k)). lia.
  - by exists k, post.
Qed.

(** ** Ranges *)

Definition in_range (start : key) (end_ : option key) (e : SStableEntry) : bool := key_le start (sst_key e) && below_end end_ (sst_key e).

(** The entries up to the one that makes [m] live ones, [seen] counted before. *)
Fixpoint cut_live (m : option Z) (seen : Z) (es : list SStableEntry) : list SStableEntry :=
  match es with
  | [] => []
  | e :: es =>
      let seen := if sst_tombstone e then seen else seen + 1 in
      if negb (sst_tombstone e) && from_option (λ m, m <=? seen) false m then [e] else e :: cut_live m seen es
  end.
Definition range_entries (start : key) (end_ : option key) (m : option Z) (es : list SStableEntry) : list SStableEntry :=
  cut_live m 0 (filter (λ e, in_range start end_ e = true) es).

Lemma below_end_mono end_ a b : key_lt a b = true → below_end end_ b = true → below_end end_ a = true.
Proof using. destruct end_ as [u|]; [|done]. cbn. intros. by eapply key_lt_trans. Qed.

Lemma range_loop_ok es start end_ m : Forall entry_ok es → es_sorted es → ∀ rest pre fuel fr seen,
  es = pre ++ rest → fr_past es pre fr → (length rest < fuel)%nat →
  range_loop fuel (table es) start end_ m fr seen = Ok (cut_live m seen (filter (λ e, in_range start end_ e = true) rest)).
Proof using All.
  intros Hes Hs. induction rest as [|e rest IH]; intros pre fuel fr seen He Hp Hf; (destruct fuel as [|fuel]; [cbn in Hf; lia|]); cbn [range_loop].
  - rewrite app_nil_r in He. subst pre. destruct (next_table_end es fr Hp) as (fr' & -> & _). done.
  - destruct (next_table es pre e rest fr He Hes Hp) as (fr' & -> & Hp'). cbn [result_bind].
    assert (es = (pre ++ [e]) ++ rest) as He' by (rewrite He, <-app_assoc; done).
    assert (length rest < fuel)%nat as Hf' by (cbn in Hf; lia).
    rewrite filter_cons. destruct (decide (in_range start end_ e = true)) as [[-> ->]%andb_true_iff|Hi]; cbn [negb cut_live].
    + destruct (negb (sst_tombstone e) && _); [done|]. by rewrite (IH _ _ _ _ He' Hp' Hf').
    + unfold in_range in Hi. destruct (below_end end_ (sst_key e)) eqn:Eb; cbn [negb].
      * rewrite andb_true_r in Hi. destruct (key_le start (sst_key e)); [done|]. by eapply IH.
      * rewrite filter_none; [done|]. intros e' Hin. unfold in_range. rewrite andb_true_iff. intros [_ E'].
        subst es. apply es_sorted_app in Hs as (_ & _ & [Hlt _]%es_sorted_cons).
        by rewrite (below_end_mono _ _ _ (Hlt e' Hin) E') in Eb.
Qed.

Lemma range_table es idx start end_ m : Forall entry_ok es → es_sorted es →
  hint_sound es start (from_option (λ i, block_start i start) 0 idx) →
  for_each_l1_entry_in_range (table es) idx start end_ m = Ok (range_entries start end_ m es).
Proof using All.
  intros Hes Hs Hh. unfold for_each_l1_entry_in_range. set (o := from_option _ 0 idx) in *.
  assert ((if negb (o =? 0) && valid_scan_start (table es) o (zlen (table es)) start then o else SSTABLE_DATA_START) = SSTABLE_DATA_START ∨
    ∃ e, frame_at es e o ∧ key_le (sst_key e) start = true ∧ (if negb (o =? 0) && valid_scan_start (table es) o (zlen (table es)) start then o else SSTABLE_DATA_START) = o) as Hc.
  { destruct (negb (o =? 0) && _) eqn:E; [|by left]. apply andb_true_iff in E as [E0%negb_true_iff%Z.eqb_neq Ev].
    destruct Hh as [?|[[e He]|?]]; [done| |congruence]. right. exists e. by rewrite (valid_start_frame es e) in Ev by done. }
  destruct Hc as [->|(e & He & Hk & ->)].
  - rewrite (range_loop_ok es _ _ _ Hes Hs es []); [done|done|apply fr_past_new|apply walk_fuel_enough].
  - destruct He as (pre & post & Heq & Ho). rewrite (range_loop_ok es _ _ _ Hes Hs (e :: post) pre); [|done|..].
    + unfold range_entries. rewrite Heq, filter_app, (filter_none _ pre); [done|]. intros e' Hin.
      subst es. apply es_sorted_app in Hs as (Hlt & _ & _). specialize (Hlt e' e Hin ltac:(left)).
      unfold in_range. pose proof (key_lt_le_trans _ _ _ Hlt Hk) as Hl. rewrite key_le_lt, Hl. done.
    + rewrite Ho. apply fr_past_at.
    + rewrite Heq. unfold table. rewrite sst_frames_app, app_assoc. apply walk_fuel_enough.
Qed.

(** ** Jumps *)

(** A jump a hint allows: past entries below the key it is for. *)
Lemma seek_ok es pre rest fr o k : Forall entry_ok es → es_sorted es → es = pre ++ rest → fr_past es pre fr →
  frame_pos pre < o → hint_sound es k o → valid_scan_start (table es) o (zlen (table es)) k = true →
  ∃ mid rest', rest = mid ++ rest' ∧ fr_past es (pre ++ mid) (fr_seek o fr) ∧ (∀ e, e ∈ mid → key_lt (sst_key e) k = true).
Proof using All.
  intros Hes Hs He [Hw Ho] Hlt Hh Hv. pose proof (frame_pos_pos pre) as Hpos.
  destruct Hh as [->|[[e Hf]|?]]; [lia| |congruence]. rewrite (valid_start_frame es e) in Hv by done.
  destruct (frame_after es pre rest e o He Hf Hlt) as (mid & post & -> & ->). exists mid, (e :: post). split_and!; [done|..].
  - apply fr_seek_wf; [done|]. pose proof (frame_pos_pos (pre ++ mid)). lia.
  - subst es. rewrite app_assoc in Hs. apply es_sorted_app in Hs as (Hl & _ & _). intros e' Hin.
    eapply key_lt_le_trans; [|done]. apply Hl; [apply elem_of_app; by right|left].
Qed.

(** ** Batches of keys *)

Definition cands_sorted (cands : list (key * Z)) : Prop := StronglySorted (λ c d, key_le c.1 d.1 = true) cands.

Lemma cands_head c cands k : cands_sorted (c :: cands) → k ∈ (c :: cands).*1 → key_le c.1 k = true.
Proof using.
  intros Hc Hk. rewrite fmap_cons in Hk. apply elem_of_cons in Hk as [->|Hk]; [apply key_le_refl|].
  apply list_elem_of_fmap in Hk as (d & -> & Hd). apply StronglySorted_cons in Hc as [Hc _]. rewrite Forall_forall in Hc. by apply Hc.
Qed.

Lemma drop_while_suffix {A} (p : A → bool) l : ∃ pre, l = pre ++ drop_while p l ∧ Forall (λ x, p x = true) pre.
Proof using.
  induction l as [|x l (pre & Hl & Hp)]; [by exists []|]. cbn [drop_while]. destruct (p x) eqn:E.
  - exists (x :: pre). split; [cbn; by f_equal|by constructor].
  - by exists [].
Qed.

Lemma drop_while_head {A} (p : A → bool) l x l' : drop_while p l = x :: l' → p x = false.
Proof using. induction l as [|y l IH]; [done|]. cbn [drop_while]. destruct (p y) eqn:E; [done|]. by intros [= <- _]. Qed.

Lemma StronglySorted_drop_while {A} (R : A → A → Prop) (p : A → bool) l : StronglySorted R l → StronglySorted R (drop_while p l).
Proof using. destruct (drop_while_suffix p l) as (pre & Hl & _). rewrite Hl at 1. by intros (_ & _ & ?)%StronglySorted_app. Qed.

(** What a batch scan from [rest] on gives: entries of [rest], among them every one whose
    key is a candidate. *)
Definition batch_result (rest : list SStableEntry) (cands : list (key * Z)) (vis : list SStableEntry) : Prop :=
  vis ⊆ rest ∧ ∀ e, e ∈ rest → sst_key e ∈ cands.*1 → e ∈ vis.

Lemma candidates_loop_ok es : Forall entry_ok es → es_sorted es → ∀ fuel rest pre head cands fr rej,
  es = pre ++ rest → fr_past es pre fr → (length rest < fuel)%nat → cands_sorted cands →
  (∀ c, c ∈ cands → hint_sound es c.1 c.2) →
  ∃ vis rej', candidates_loop fuel (table es) head cands fr rej = Ok (vis, rej') ∧ batch_result rest cands vis.
Proof using All.
  intros Hes Hs. induction fuel as [|fuel IH]; intros rest pre head cands fr rej He Hp Hf Hc Hh; [lia|].
  cbn [candidates_loop]. destruct cands as [|[wanted start] cands].
  { exists [], rej. split; [done|]. split; [apply list_subseteq_nil|]. intros e _ Hin. by apply elem_of_nil in Hin. }
  assert (∃ mid rest', rest = mid ++ rest' ∧
    fr_past es (pre ++ mid) (if (head && (fr_offset fr <? start)) && valid_scan_start (table es) start (zlen (table es)) wanted then fr_seek start fr else fr)
    ∧ ∀ e, e ∈ mid → key_lt (sst_key e) wanted = true) as (mid & rest' & -> & Hp1 & Hmid).
  { destruct ((head && (fr_offset fr <? start)) && _) eqn:E; [|exists [], rest; rewrite app_nil_r; split_and!; [done|done|intros ? []%elem_of_nil]].
    rewrite !andb_true_iff in E. destruct E as [[_ Hlt%Z.ltb_lt] Hv]. pose proof Hp as [_ Ho]. rewrite Ho in Hlt.
    apply (seek_ok es pre rest fr start wanted); [done..| |done]. apply (Hh (wanted, start)). left. }
  set (fr1 := if (head && (fr_offset fr <? start)) && _ then _ else _) in *. rewrite app_assoc in He.
  set (rej1 := rej || _). clearbody rej1.
  assert (∀ vis, batch_result rest' ((wanted, start) :: cands) vis → batch_result (mid ++ rest') ((wanted, start) :: cands) vis) as Hbatch.
  { intros vis [Hv1 Hv2]. split; [by apply list_subseteq_app_r|]. intros e [Hin|Hin]%elem_of_app Hk; [|by apply Hv2].
    apply Hmid in Hin. apply cands_head in Hk; [|done]. cbn in Hk. by rewrite key_lt_le, Hk in Hin. }
  destruct rest' as [|e rest'].
  - rewrite app_nil_r in He. destruct (next_table_end es fr1) as (fr2 & -> & _); [by rewrite <-He in Hp1|]. cbn [result_bind].
    exists [], rej1. split; [done|]. apply Hbatch. split; [done|]. intros ? []%elem_of_nil.
  - destruct (next_table es _ e rest' fr1 He Hes Hp1) as (fr2 & -> & Hp2). cbn [result_bind].
    assert (es = ((pre ++ mid) ++ [e]) ++ rest') as He' by (rewrite He, <-!app_assoc; done).
    assert (length rest' < fuel)%nat as Hf' by (rewrite length_app in Hf; cbn in Hf; lia).
    assert (∀ e', e' ∈ rest' → key_lt (sst_key e) (sst_key e') = true) as Hgt.
    { rewrite He in Hs. apply es_sorted_app in Hs as (_ & _ & [Hl _]%es_sorted_cons). done. }
    destruct (key_le wanted (sst_key e)) eqn:Ek.
    + destruct (drop_while_suffix (λ c : key * Z, key_le c.1 (sst_key e)) ((wanted, start) :: cands)) as (dropped & Hd & Hall).
      destruct (IH rest' _ true (drop_while (λ c, key_le c.1 (sst_key e)) ((wanted, start) :: cands)) fr2 rej1 He' Hp2 Hf')
        as (vis & rej' & -> & [Hv1 Hv2]).
      { by apply StronglySorted_drop_while. }
      { intros c Hin. apply Hh. rewrite Hd. apply elem_of_app. by right. }
      cbn [result_bind]. exists (e :: vis), rej'. split; [done|]. apply Hbatch. split; [set_solver|].
      intros e' [->|Hin]%elem_of_cons Hk; [left|]. right. apply Hv2; [done|]. rewrite Hd, fmap_app in Hk.
      apply elem_of_app in Hk as [Hk|Hk]; [|done]. exfalso. apply list_elem_of_fmap in Hk as (c & Hkc & Hin').
      rewrite Forall_forall in Hall. specialize (Hall c Hin'). cbn in Hall. rewrite <-Hkc in Hall. specialize (Hgt e' Hin).
      by rewrite key_lt_le, Hall in Hgt.
    + destruct (IH rest' _ false ((wanted, start) :: cands) fr2 rej1 He' Hp2 Hf' Hc Hh) as (vis & rej' & -> & [Hv1 Hv2]).
      cbn [result_bind]. exists (e :: vis), rej'. split; [done|]. apply Hbatch. split; [set_solver|].
      intros e' [->|Hin]%elem_of_cons Hk; [left|right; by apply Hv2].
Qed.

Lemma scan_candidates_table es cands : Forall entry_ok es → es_sorted es → cands_sorted cands →
  (∀ c, c ∈ cands → hint_sound es c.1 c.2) →
  ∃ vis rej, scan_sorted_candidates (table es) cands = Ok (vis, rej) ∧ batch_result es cands vis.
Proof using All.
  intros Hes Hs Hc Hh. apply (candidates_loop_ok es Hes Hs _ es []); [done|apply fr_past_new|apply walk_fuel_enough|done|done].
Qed.

(** ** Sets of prefixes *)

Definition u32 (x : Z) : Prop := 0 ≤ x < 2 ^ 32.

Lemma id_key_byte id : Forall byte (id_key id).
Proof using.
  unfold id_key. pose proof (le_bytes_byte 4 id) as Hb. rewrite Forall_forall in *. intros x Hx. apply Hb.
  rewrite list_elem_of_In in *. by apply in_rev.
Qed.
Lemma id_key_value id : u32 id → be_value (id_key id) = id.
Proof using. intros Hid. unfold be_value, id_key. rewrite rev_involutive. by apply le_value_bytes. Qed.
Lemma id_key_length id : length (id_key id) = 4%nat.
Proof using. done. Qed.

Lemma list_cmp_take n (a b : key) : (n ≤ length a)%nat → (n ≤ length b)%nat →
  cmp a b = match cmp (take n a) (take n b) with Eq => cmp (drop n a) (drop n b) | c => c end.
Proof using.
  unfold cmp, list_ordered. revert a b. induction n as [|n IH]; intros [|x a] [|y b] Ha Hb; cbn in Ha, Hb |- *; try done; try lia.
  destruct (cmp x y); [apply IH; lia|done..].
Qed.

Lemma key_id_Some k id : key_id k = Some id → (4 ≤ length k)%nat ∧ id = be_value (take 4 k).
Proof using. unfold key_id. destruct (length k <? 4)%nat eqn:E; [done|]. apply Nat.ltb_ge in E. by intros [= <-]. Qed.

(** Ids are ordered as the keys they are of. *)
Lemma key_id_mono a b i j : Forall byte a → Forall byte b → key_lt a b = true → key_id a = Some i → key_id b = Some j → i ≤ j.
Proof using.
  intros Ha Hb Hlt [Hla ->]%key_id_Some [Hlb ->]%key_id_Some. apply key_lt_spec in Hlt. rewrite (list_cmp_take 4) in Hlt by done.
  assert (length (take 4 a) = length (take 4 b)) as Hlen by (rewrite !length_take; lia).
  pose proof (be_value_cmp (take 4 a) (take 4 b) ltac:(by apply Forall_take) ltac:(by apply Forall_take) Hlen) as Hc.
  unfold cmp, list_ordered in Hlt. destruct (list_cmp (take 4 a) (take 4 b)); [rewrite Z.compare_eq_iff in Hc|rewrite Z.compare_lt_iff in Hc|done]; lia.
Qed.

(** Below the key of an id, ids are smaller. *)
Lemma key_id_below k i id : Forall byte k → u32 id → key_lt k (id_key id) = true → key_id k = Some i → i < id.
Proof using.
  intros Hk Hid Hlt [Hl ->]%key_id_Some. apply key_lt_spec in Hlt. rewrite (list_cmp_take 4) in Hlt by (rewrite ?id_key_length; lia).
  assert (length (take 4 k) = length (id_key id)) as Hlen by (rewrite length_take, id_key_length; lia).
  rewrite (take_ge (id_key id)), (drop_ge (id_key id)) in Hlt by (rewrite id_key_length; lia).
  pose proof (be_value_cmp (take 4 k) (id_key id) ltac:(by apply Forall_take) (id_key_byte id) Hlen) as Hc.
  rewrite id_key_value in Hc by done. unfold cmp, list_ordered in Hlt.
  destruct (list_cmp (take 4 k) (id_key id)); [by destruct (drop 4 k)|by rewrite Z.compare_lt_iff in Hc|done].
Qed.

Definition wants (ids : list (Z * Z)) (e : SStableEntry) : bool :=
  match key_id (sst_key e) with Some id => bool_decide (id ∈ ids.*1) | None => false end.
Definition ids_sorted (ids : list (Z * Z)) : Prop := StronglySorted (λ p q, p.1 < q.1) ids.

Lemma filter_bool_cons {A} (f : A → bool) x l :
  filter (λ y, f y = true) (x :: l) = if f x then x :: filter (λ y, f y = true) l else filter (λ y, f y = true) l.
Proof using. rewrite filter_cons. by destruct (f x). Qed.

Lemma filter_wants_none ids es : (∀ e id, e ∈ es → key_id (sst_key e) = Some id → id ∉ ids.*1) → filter (λ e, wants ids e = true) es = [].
Proof using.
  intros Hn. apply filter_none. intros e Hin. unfold wants. destruct (key_id (sst_key e)) as [id|] eqn:E; [|done].
  rewrite bool_decide_false; [done|]. by eapply Hn.
Qed.

Lemma ids_head p ids id : ids_sorted (p :: ids) → id ∈ (p :: ids).*1 → p.1 ≤ id.
Proof using.
  intros Hs Hin. rewrite fmap_cons in Hin. apply elem_of_cons in Hin as [->|Hin]; [lia|].
  apply list_elem_of_fmap in Hin as (q & -> & Hq). apply StronglySorted_cons in Hs as [Hs _]. rewrite Forall_forall in Hs.
  specialize (Hs q Hq). cbn in Hs. lia.
Qed.

Lemma prefixes_loop_ok es : Forall entry_ok es → es_sorted es → ∀ fuel rest pre wanted ids fr,
  es = pre ++ rest → fr_past es pre fr → (length rest < fuel)%nat → ids_sorted ids →
  (∀ p, p ∈ ids → u32 p.1 ∧ hint_sound es (id_key p.1) p.2) →
  (∀ w id, wanted = Some w → id ∈ ids.*1 → w ≤ id) →
  prefixes_loop fuel (table es) wanted ids fr = Ok (filter (λ e, wants ids e = true) rest).
Proof using All.
  intros Hes Hs. induction fuel as [|fuel IH]; intros rest pre wanted ids fr He Hp Hf Hids Hh Hw; [lia|].
  cbn [prefixes_loop]. destruct ids as [|[first start] ids].
  { rewrite filter_wants_none; [done|]. intros e id _ _ Hin. by apply elem_of_nil in Hin. }
  destruct (Hh (first, start) ltac:(left)) as [Hfirst Hhint]. cbn [fst snd] in Hfirst, Hhint.
  assert (∃ mid rest', rest = mid ++ rest' ∧
    fr_past es (pre ++ mid) (if (bool_decide (wanted = None) && (fr_offset fr <? start)) && valid_scan_start (table es) start (zlen (table es)) (id_key first) then fr_seek start fr else fr)
    ∧ ∀ e, e ∈ mid → key_lt (sst_key e) (id_key first) = true) as (mid & rest' & -> & Hp1 & Hmid).
  { destruct ((bool_decide _ && (fr_offset fr <? start)) && _) eqn:E; [|exists [], rest; rewrite app_nil_r; split_and!; [done|done|intros ? []%elem_of_nil]].
    rewrite !andb_true_iff in E. destruct E as [[_ Hlt%Z.ltb_lt] Hv]. pose proof Hp as [_ Ho]. rewrite Ho in Hlt.
    by apply (seek_ok es pre rest fr start (id_key first)). }
  set (fr1 := if (bool_decide _ && (fr_offset fr <? start)) && _ then _ else _) in *. rewrite app_assoc in He.
  assert (Forall entry_ok (mid ++ rest')) as Hok by (rewrite He, <-app_assoc in Hes; by apply Forall_app in Hes as [_ ?]).
  rewrite filter_app, (filter_wants_none _ mid); cbn [app]; swap 1 2.
  { intros e id Hin Hid Hin'. apply (ids_head (first, start)) in Hin'; [|done]. cbn in Hin'.
    apply Forall_app in Hok as [Hok _]. rewrite Forall_forall in Hok. destruct (Hok e Hin) as [Hb _].
    pose proof (key_id_below _ _ _ Hb Hfirst (Hmid e Hin) Hid). lia. }
  apply Forall_app in Hok as [_ Hok]. set (w := default first wanted).
  assert (∀ id, id ∈ ((first, start) :: ids).*1 → w ≤ id) as Hw'.
  { intros id Hin. unfold w. destruct wanted as [w0|]; cbn; [by apply Hw|]. by apply (ids_head (first, start)) in Hin. }
  destruct rest' as [|e rest'].
  { rewrite app_nil_r in He. destruct (next_table_end es fr1) as (fr2 & -> & _); [by rewrite <-He in Hp1|]. done. }
  destruct (next_table es _ e rest' fr1 He Hes Hp1) as (fr2 & -> & Hp2). cbn [result_bind].
  assert (es = ((pre ++ mid) ++ [e]) ++ rest') as He' by (rewrite He, <-!app_assoc; done).
  assert (length rest' < fuel)%nat as Hf' by (rewrite length_app in Hf; cbn in Hf; lia).
  apply Forall_cons in Hok as [[Hbe _] Hok]. rewrite filter_bool_cons. unfold wants at 1.
  destruct (key_id (sst_key e)) as [id|] eqn:Eid; cycle 1.
  { apply (IH rest' _ (Some w) _ fr2 He' Hp2 Hf' Hids Hh). intros ? ? [= <-]. apply Hw'. }
  destruct (id <? w) eqn:Elt.
  { apply Z.ltb_lt in Elt. rewrite bool_decide_false; [apply (IH rest' _ (Some w) _ fr2 He' Hp2 Hf' Hids Hh); intros ? ? [= <-]; apply Hw'|].
    intros Hin. apply Hw' in Hin. lia. }
  apply Z.ltb_ge in Elt.
  assert (∀ e' id', e' ∈ rest' → key_id (sst_key e') = Some id' → id ≤ id') as Hmono.
  { intros e' id' Hin Hid'. rewrite Forall_forall in Hok. destruct (Hok e' Hin) as [Hb' _].
    eapply key_id_mono; [exact Hbe|exact Hb'| |done|done]. rewrite He in Hs. apply es_sorted_app in Hs as (_ & _ & [Hl _]%es_sorted_cons).
    by apply Hl. }
  destruct (drop_while_suffix (λ p : Z * Z, p.1 <? id) ((first, start) :: ids)) as (dropped & Hd & Hall).
  pose proof (StronglySorted_drop_while _ (λ p : Z * Z, p.1 <? id) _ Hids) as Hsuf.
  assert (∀ k, k ∈ dropped.*1 → k < id) as Hdrop.
  { intros k (p & -> & Hin)%list_elem_of_fmap. rewrite Forall_forall in Hall. by apply Z.ltb_lt, Hall. }
  (* Beyond [e], the dropped ids are not wanted. *)
  assert (filter (λ e, wants ((first, start) :: ids) e = true) rest' =
    filter (λ e, wants (drop_while (λ p : Z * Z, p.1 <? id) ((first, start) :: ids)) e = true) rest') as Hfilter.
  { apply filter_ext_in. intros e' Hin. unfold wants. destruct (key_id (sst_key e')) as [id'|] eqn:E'; [|done].
    rewrite !bool_decide_eq_true. rewrite Hd at 1. rewrite fmap_app, elem_of_app. split; [|by right].
    intros [Hk|?]; [|done]. apply Hdrop in Hk. specialize (Hmono e' id' Hin E'). lia. }
  assert (id ∈ ((first, start) :: ids).*1 ↔ id ∈ (drop_while (λ p : Z * Z, p.1 <? id) ((first, start) :: ids)).*1) as Hmem.
  { rewrite Hd at 1. rewrite fmap_app, elem_of_app. split; [|by right]. intros [Hk|?]; [|done]. apply Hdrop in Hk. lia. }
  rewrite Hfilter. destruct (drop_while _ ((first, start) :: ids)) as [|[next s] ids'] eqn:Edw.
  { rewrite bool_decide_false by (rewrite Hmem; by intros ?%elem_of_nil).
    rewrite filter_wants_none; [done|]. intros ? ? _ _ ?%elem_of_nil. done. }
  pose proof (drop_while_head _ _ _ _ Edw) as Hnext. cbn in Hnext. apply Z.ltb_ge in Hnext.
  assert (∀ p, p ∈ (next, s) :: ids' → u32 p.1 ∧ hint_sound es (id_key p.1) p.2) as Hh'.
  { intros p Hin. apply Hh. rewrite Hd. apply elem_of_app. by right. }
  assert (∀ w0 k, Some w = Some w0 → k ∈ ((next, s) :: ids').*1 → w0 ≤ k) as Hw2.
  { intros ? k [= <-] Hin. apply Hw'. rewrite Hd, fmap_app. apply elem_of_app. by right. }
  destruct (next =? id) eqn:En.
  - apply Z.eqb_eq in En. subst next. rewrite bool_decide_true by (rewrite Hmem; left).
    by rewrite (IH rest' _ (Some w) _ fr2 He' Hp2 Hf' Hsuf Hh' Hw2).
  - apply Z.eqb_neq in En. rewrite bool_decide_false; [by eapply IH|]. rewrite Hmem. intros Hin.
    apply (ids_head (next, s)) in Hin; [|done]. cbn in Hin. lia.
Qed.

Lemma prefixes_table es ids : Forall entry_ok es → es_sorted es → ids_sorted ids →
  (∀ p, p ∈ ids → u32 p.1 ∧ hint_sound es (id_key p.1) p.2) →
  for_each_entry_in_prefixes (table es) ids = Ok (filter (λ e, wants ids e = true) es).
Proof using All.
  intros Hes Hs Hids Hh. apply (prefixes_loop_ok es Hes Hs _ es []); [done|apply fr_past_new|apply walk_fuel_enough|done|done|done].
Qed.
End frames.
