(* ===== verification/SkipList.v ===== *)
(** * SkipList: the table in memory

    [src/minnal_db/src/store/lsm/skip_list.rs]: a skip list whose nodes, forward links and
    key bytes lie in three arenas and refer to each other by index.  A node's links are
    [height] consecutive entries of the links arena; node 0 is the sentinel head. *)
From S2P Require Import Prelude OrdMap Bytes Slices Keys SsTable.

Definition MAX_LEVEL : nat := 32.
Definition NONE_VALUE : Z := 2 ^ 32 - 1.
Definition U32_MAX : Z := 2 ^ 32 - 1.

Record Node := mk_node {
  key_index_offset : Z; key_length : Z; key_prefix : Z; nd_value : Z; nd_tombstone : bool; nd_sequence : Z;
  height : Z; links_index_offset : Z }.

Record SkipList := mk_skip {
  nodes : list Node; links : list Z; keys : region; level : Z;
  no_live_nodes : Z; no_tombstone_nodes : Z; rng : Z; max_capacity : Z }.

(** The target the comparison kernels are compiled for. *)
Class CompareCpu := compare_target : CompareTarget.

Definition head_node : Node := mk_node 0 0 0 0 true 0 32 0.

Definition with_capacity (max_capacity : Z) : SkipList :=
  mk_skip [head_node] (replicate MAX_LEVEL NONE_VALUE) [] 1 0 0 0x9E3779B97F4A7C15 max_capacity.

Definition seq_is_newer_or_equal (new existing : Z) : bool := existing <=? new.

(** ** Arenas *)

Definition node_at (sl : SkipList) (node : Z) : Node := default head_node (nodes sl !! Z.to_nat node).

Definition key_slice (sl : SkipList) (node : Z) : key :=
  let n := node_at sl node in bread (keys sl) (key_index_offset n) (key_length n).

Definition next (sl : SkipList) (node : Z) (lvl : nat) : Z :=
  let n := node_at sl node in
  if height n <=? Z.of_nat lvl then NONE_VALUE
  else default NONE_VALUE (links sl !! Z.to_nat (links_index_offset n + Z.of_nat lvl)).

Definition set_next (sl : SkipList) (node : Z) (lvl : nat) (val : Z) : SkipList :=
  let base := links_index_offset (node_at sl node) in
  mk_skip (nodes sl) (<[Z.to_nat (base + Z.of_nat lvl) := val]> (links sl)) (keys sl) (level sl)
    (no_live_nodes sl) (no_tombstone_nodes sl) (rng sl) (max_capacity sl).

(** The node's index, or [None] when an arena is full; the links may have grown by then. *)
Definition allocate_node (sl : SkipList) (k : key) (value : Z) (tombstone : bool) (seq h : Z) : option Z * SkipList :=
  let idx := zlen (nodes sl) in
  let links_base := zlen (links sl) in
  if U32_MAX <=? links_base + h then (None, sl)
  else
    let sl := mk_skip (nodes sl) (links sl ++ replicate (Z.to_nat h) NONE_VALUE) (keys sl) (level sl)
                (no_live_nodes sl) (no_tombstone_nodes sl) (rng sl) (max_capacity sl) in
    let key_base := zlen (keys sl) in
    if U32_MAX <=? key_base + zlen k then (None, sl)
    else
      (Some (wrap 32 idx),
       mk_skip (nodes sl ++ [mk_node (wrap 32 key_base) (wrap 32 (zlen k)) (key_prefix_of k) value tombstone seq h (wrap 32 links_base)])
         (links sl) (keys sl ++ k) (level sl) (no_live_nodes sl) (no_tombstone_nodes sl) (rng sl) (max_capacity sl)).

(** ** Searching *)

Section search.
Context `{CompareCpu}.

Definition key_cmp_node_target (sl : SkipList) (node : Z) (target : key) (target_prefix : Z) : comparison :=
  match key_prefix (node_at sl node) ?= target_prefix with
  | Eq => compare_bytes_simd compare_target (key_slice sl node) target
  | c => c
  end.

(** The inner loop on one level, from node [x]. *)
Fixpoint find_level (fuel : nat) (sl : SkipList) (x : Z) (l : nat) (k : key) (prefix : Z) : Z :=
  match fuel with
  | O => x
  | S fuel =>
      let nx := next sl x l in
      if nx =? NONE_VALUE then x
      else match key_cmp_node_target sl nx k prefix with Lt => find_level fuel sl nx l k prefix | _ => x end
  end.

(** From level [n - 1] down to 0. *)
Fixpoint find_down (n : nat) (sl : SkipList) (x : Z) (update : list Z) (k : key) (prefix : Z) : Z * list Z :=
  match n with
  | O => (x, update)
  | S l =>
      let x := find_level (length (nodes sl)) sl x l k prefix in
      find_down l sl x (<[l := x]> update) k prefix
  end.

Definition find_path (sl : SkipList) (k : key) : option Z * list Z :=
  let '(x, update) := find_down (Z.to_nat (level sl)) sl 0 (replicate MAX_LEVEL 0) k (key_prefix_of k) in
  let candidate := next sl x 0 in
  if (if candidate =? NONE_VALUE then false else bool_decide (key_slice sl candidate = k)) then (Some candidate, update) else (None, update).

Definition entry (sl : SkipList) (k : key) : option (Z * Z * bool) :=
  match (find_path sl k).1 with
  | Some idx => let n := node_at sl idx in Some (nd_value n, nd_sequence n, nd_tombstone n)
  | None => None
  end.

Definition lower_bound (sl : SkipList) (target : key) : Z := next sl (default 0 ((find_path sl target).2 !! O)) 0.

(** ** Updates *)

Definition xorshift (x : Z) : Z :=
  let x := Z.lxor x (wrap 64 (Z.shiftl x 13)) in
  let x := Z.lxor x (Z.shiftr x 7) in
  Z.lxor x (wrap 64 (Z.shiftl x 17)).

(** [random_level]: from [lvl] on, with [n] levels left to draw. *)
Fixpoint draw_level (n : nat) (state lvl : Z) : Z * Z :=
  match n with
  | O => (lvl, state)
  | S n => let state := xorshift state in
           if Z.land state 1 =? 0 then (lvl, state) else draw_level n state (lvl + 1)
  end.
Definition random_level (sl : SkipList) : Z * SkipList :=
  let '(lvl, state) := draw_level 31 (rng sl) 1 in
  (lvl, mk_skip (nodes sl) (links sl) (keys sl) (level sl) (no_live_nodes sl) (no_tombstone_nodes sl) state (max_capacity sl)).

(** [for lvl in from..to { update[lvl] = head }] *)
Fixpoint to_head (n from : nat) (update : list Z) : list Z :=
  match n with O => update | S n => to_head n (S from) (<[from := 0]> update) end.

Fixpoint splice_levels (n lvl : nat) (sl : SkipList) (new_idx : Z) (update : list Z) : SkipList :=
  match n with
  | O => sl
  | S n =>
      let prev := default 0 (update !! lvl) in
      let nx := next sl prev lvl in
      splice_levels n (S lvl) (set_next (set_next sl new_idx lvl nx) prev lvl new_idx) new_idx update
  end.

Definition with_level (sl : SkipList) (l : Z) : SkipList :=
  mk_skip (nodes sl) (links sl) (keys sl) l (no_live_nodes sl) (no_tombstone_nodes sl) (rng sl) (max_capacity sl).
Definition with_counts (sl : SkipList) (live tomb : Z) : SkipList :=
  mk_skip (nodes sl) (links sl) (keys sl) (level sl) live tomb (rng sl) (max_capacity sl).

(** [None]: [CapacityExceeded]. *)
Definition splice_new_node (sl : SkipList) (k : key) (value : Z) (tombstone : bool) (seq : Z) (update : list Z) : bool * SkipList :=
  let '(node_level, sl) := random_level sl in
  let update := if level sl <? node_level then to_head (Z.to_nat (node_level - level sl)) (Z.to_nat (level sl)) update else update in
  let '(new_idx, sl) := allocate_node sl k value tombstone seq node_level in
  match new_idx with
  | None => (false, sl)
  | Some new_idx =>
      let sl := splice_levels (Z.to_nat node_level) 0 sl new_idx update in
      (true, if level sl <? node_level then with_level sl node_level else sl)
  end.

Definition set_node (sl : SkipList) (idx : Z) (n : Node) : SkipList :=
  mk_skip (<[Z.to_nat idx := n]> (nodes sl)) (links sl) (keys sl) (level sl) (no_live_nodes sl) (no_tombstone_nodes sl) (rng sl) (max_capacity sl).
Definition node_written (n : Node) (value seq : Z) : Node :=
  mk_node (key_index_offset n) (key_length n) (key_prefix n) value false seq (height n) (links_index_offset n).
Definition node_deleted (n : Node) (seq : Z) : Node :=
  mk_node (key_index_offset n) (key_length n) (key_prefix n) (nd_value n) true seq (height n) (links_index_offset n).

(** The displaced live value; [Err] is [CapacityExceeded]. *)
Definition try_insert_with_seq (sl : SkipList) (k : key) (value seq : Z) : result (option Z) unit * SkipList :=
  let '(found, update) := find_path sl k in
  match found with
  | Some idx =>
      let node := node_at sl idx in
      if negb (seq_is_newer_or_equal seq (nd_sequence node)) then (Ok None, sl)
      else
        let sl := set_node sl idx (node_written node value seq) in
        if nd_tombstone node
        then (Ok None, with_counts sl (no_live_nodes sl + 1) (Z.max 0 (no_tombstone_nodes sl - 1)))
        else (Ok (Some (nd_value node)), sl)
  | None =>
      let '(ok, sl) := splice_new_node sl k value false seq update in
      if ok : bool then (Ok None, with_counts sl (no_live_nodes sl + 1) (no_tombstone_nodes sl)) else (Err tt, sl)
  end.

Definition insert_tombstone_with_seq (sl : SkipList) (k : key) (seq : Z) : result unit unit * SkipList :=
  let '(found, update) := find_path sl k in
  match found with
  | Some idx =>
      let node := node_at sl idx in
      if negb (seq_is_newer_or_equal seq (nd_sequence node)) then (Ok tt, sl)
      else
        let sl := set_node sl idx (node_deleted node seq) in
        if negb (nd_tombstone node)
        then (Ok tt, with_counts sl (no_live_nodes sl - 1) (no_tombstone_nodes sl + 1))
        else (Ok tt, sl)
  | None =>
      let '(ok, sl) := splice_new_node sl k 0 true seq update in
      if ok : bool then (Ok tt, with_counts sl (no_live_nodes sl) (no_tombstone_nodes sl + 1)) else (Err tt, sl)
  end.
End search.

(** ** Iteration and capacity *)

(** The nodes from [cur] along level 0. *)
Fixpoint level0_from (fuel : nat) (sl : SkipList) (cur : Z) : list Z :=
  match fuel with
  | O => []
  | S fuel => if cur =? NONE_VALUE then [] else cur :: level0_from fuel sl (next sl cur 0)
  end.

Definition raw (sl : SkipList) (idx : Z) : KeyValueRecord :=
  let n := node_at sl idx in mk_record (key_slice sl idx) (nd_value n) (nd_tombstone n) (nd_sequence n).

Definition iter_raw (sl : SkipList) : list KeyValueRecord := raw sl <$> level0_from (length (nodes sl)) sl (next sl 0 0).
Definition iter_raw_from `{CompareCpu} (sl : SkipList) (start : key) : list KeyValueRecord :=
  raw sl <$> level0_from (length (nodes sl)) sl (lower_bound sl start).

Definition collect_key_value_records (sl : SkipList) : list KeyValueRecord :=
  raw sl <$> filter (λ idx, key_length (node_at sl idx) ≠ 0) (level0_from (length (nodes sl)) sl (next sl 0 0)).

Definition arenas_half_full (sl : SkipList) : bool :=
  let half := U32_MAX / 2 in (half <=? zlen (nodes sl)) || (half <=? zlen (links sl)) || (half <=? zlen (keys sl)).

Definition can_alloc_node_for (sl : SkipList) (key_len h : Z) : bool :=
  if U32_MAX <=? zlen (nodes sl) then false
  else if U32_MAX <=? zlen (links sl) + h then false
  else if U32_MAX <=? zlen (keys sl) + key_len then false
  else true.
Definition can_insert_key (sl : SkipList) (k : key) : bool := can_alloc_node_for sl (zlen k) 32.
