(* ===== verification/SkipListSpec.v ===== *)
(** * SkipListSpec: the skip list is an ordered map

    The invariant: every level is the chain of the nodes tall enough for it, in one order
    of all nodes, ascending by key.  [find_path] then gives each level's predecessor, and
    the operations refine those of a map from keys to versioned values where the highest
    sequence wins. *)
From S2P Require Import Prelude OrdMap Bytes Slices Keys SsTable SkipList.

(** ** Chains *)

Fixpoint chain (nx : Z → Z) (x : Z) (ns : list Z) : Prop :=
  match ns with
  | [] => nx x = NONE_VALUE
  | n :: ns => nx x = n ∧ n ≠ NONE_VALUE ∧ chain nx n ns
  end.

(** The last of [ns], or [x]. *)
Definition last_of (x : Z) (ns : list Z) : Z := default x (last ns).

Lemma last_of_cons x n ns : last_of x (n :: ns) = last_of n ns.
Proof. unfold last_of. rewrite last_cons. by destruct (last ns). Qed.
Lemma last_of_snoc x ns n : last_of x (ns ++ [n]) = n.
Proof. unfold last_of. by rewrite last_snoc. Qed.
Lemma last_of_app x a b : last_of x (a ++ b) = last_of (last_of x a) b.
Proof. revert x. induction a as [|n a IH]; intros x; [done|]. cbn [app]. by rewrite !last_of_cons. Qed.
Lemma last_of_in x ns : last_of x ns = x ∧ ns = [] ∨ last_of x ns ∈ ns.
Proof.
  destruct ns as [|n ns _] using rev_ind; [by left|right]. rewrite last_of_snoc. apply elem_of_app. right. left.
Qed.

Lemma chain_suffix nx x a b : chain nx x (a ++ b) → chain nx (last_of x a) b.
Proof. revert x. induction a as [|n a IH]; intros x; [done|]. rewrite last_of_cons. intros (_ & _ & Hc). by apply IH. Qed.

Lemma chain_ext nx nx' x ns : (∀ y, y = x ∨ y ∈ ns → nx' y = nx y) → chain nx x ns → chain nx' x ns.
Proof.
  revert x. induction ns as [|n ns IH]; intros x He; cbn; [rewrite He by (by left); done|].
  intros (Hx & Hn & Hc). split_and!; [rewrite He by (by left); done|done|]. apply IH; [|done].
  intros y Hy. apply He. right. rewrite elem_of_cons. naive_solver.
Qed.

(** Splicing a node in after the last of [a]. *)
Lemma chain_splice nx nx' x a b m : chain nx x (a ++ b) → NoDup (x :: a ++ b) → m ∉ x :: a ++ b → m ≠ NONE_VALUE →
  nx' (last_of x a) = m → nx' m = nx (last_of x a) → (∀ y, y ∈ x :: a ++ b → y ≠ last_of x a → nx' y = nx y) →
  chain nx' x (a ++ m :: b).
Proof.
  revert x. induction a as [|n a IH]; intros x Hc Hnd Hm Hnone Hprev Hnew Hrest; cbn [app] in *.
  - unfold last_of in *. cbn in Hprev, Hnew, Hrest. split_and!; [done|done|].
    apply NoDup_cons in Hnd as [Hx Hnd]. destruct b as [|n b]; cbn in Hc |- *.
    + by rewrite Hnew.
    + destruct Hc as (Hn & Hnn & Hc). rewrite Hnew. split_and!; [done|done|]. eapply chain_ext; [|done].
      intros y Hy. apply Hrest; [rewrite !elem_of_cons; naive_solver|]. intros ->. apply Hx. rewrite elem_of_cons. naive_solver.
  - rewrite last_of_cons in *. destruct Hc as (Hn & Hnn & Hc). apply NoDup_cons in Hnd as [Hx Hnd].
    assert (x ≠ last_of n a) as Hxl.
    { intros ->. apply Hx. rewrite elem_of_cons, elem_of_app. destruct (last_of_in n a) as [[-> _]|]; [by left|right; by left]. }
    split_and!; [|done|].
    + rewrite Hrest; [done|left|done].
    + apply IH; [done|done| |done..|intros y Hy; apply Hrest; by right]. intros Hin. apply Hm. by right.
Qed.

Lemma StronglySorted_weaken {A} (R R' : A → A → Prop) l :
  (∀ x y, x ∈ l → y ∈ l → R x y → R' x y) → StronglySorted R l → StronglySorted R' l.
Proof.
  intros He Hs. induction Hs as [|x l Hs IH Hx]; [constructor|]. constructor.
  - apply IH. intros y z Hy Hz. apply He; by right.
  - rewrite Forall_forall in *. intros y Hy. apply He; [left|by right|by apply Hx].
Qed.

(** Where an insertion lands. *)
Lemma om_insert_at {V A} `{OrderedLaws V} (a b : ordmap V A) v x :
  Forall (λ p, cmp p.1 v = Lt) a → (∀ p b', b = p :: b' → cmp v p.1 = Lt) → om_insert v x (a ++ b) = a ++ (v, x) :: b.
Proof.
  intros Ha Hb. induction Ha as [|[k y] a Hk Ha IH]; cbn [app om_insert].
  - destruct b as [|[k y] b]; [done|]. specialize (Hb _ _ eq_refl). cbn in Hb |- *. by rewrite Hb.
  - cbn in Hk. rewrite (proj2 (cmp_gt _ _)) by done. by rewrite IH.
Qed.
Lemma om_insert_over {V A} `{OrderedLaws V} (a b : ordmap V A) v x y :
  Forall (λ p, cmp p.1 v = Lt) a → om_insert v x (a ++ (v, y) :: b) = a ++ (v, x) :: b.
Proof.
  induction 1 as [|[k z] a Hk Ha IH]; cbn [app om_insert]; [by rewrite cmp_refl|].
  cbn in Hk. rewrite (proj2 (cmp_gt _ _)) by done. by rewrite IH.
Qed.

(** ** Invariant *)

Section spec.
Context `{CompareCpu}.

Definition tall (sl : SkipList) (l : nat) (x : Z) : Prop := Z.of_nat l < height (node_at sl x).
#[local] Instance tall_dec sl l x : Decision (tall sl l x).
Proof. unfold tall. apply _. Defined.

Definition at_level (sl : SkipList) (l : nat) (ns : list Z) : list Z := filter (tall sl l) ns.

Definition count_tomb (sl : SkipList) (b : bool) (ord : list Z) : Z := zlen (filter (λ x, nd_tombstone (node_at sl x) = b) ord).

(** A node's links and key lie in the arenas. *)
Record node_wf (sl : SkipList) (n : Node) : Prop := {
  nw_height : 1 ≤ height n ≤ 32;
  nw_links : 0 ≤ links_index_offset n ∧ links_index_offset n + height n ≤ zlen (links sl);
  nw_key : in_region (keys sl) (key_index_offset n) (key_length n) }.

Record sl_wf (sl : SkipList) (ord : list Z) : Prop := {
  wf_head : nodes sl !! O = Some head_node;
  wf_sizes : zlen (nodes sl) ≤ zlen (links sl) ∧ zlen (links sl) ≤ U32_MAX ∧ zlen (keys sl) ≤ U32_MAX;
  wf_level : 1 ≤ level sl ≤ 32;
  wf_nodes i n : nodes sl !! i = Some n → node_wf sl n;
  wf_inner x : x ∈ ord → height (node_at sl x) ≤ level sl ∧ Forall byte (key_slice sl x) ∧ key_prefix (node_at sl x) = key_prefix_of (key_slice sl x);
  wf_disjoint i j n m : (i < j)%nat → nodes sl !! i = Some n → nodes sl !! j = Some m → links_index_offset n + height n ≤ links_index_offset m;
  wf_ord x : x ∈ ord ↔ 1 ≤ x < zlen (nodes sl);
  wf_sorted : StronglySorted (λ x y, cmp (key_slice sl x) (key_slice sl y) = Lt) ord;
  wf_chain l : (l < MAX_LEVEL)%nat → chain (λ x, next sl x l) 0 (at_level sl l ord);
  wf_live : no_live_nodes sl = count_tomb sl false ord;
  wf_tomb : no_tombstone_nodes sl = count_tomb sl true ord }.

(** What the list holds: its keys with their value, sequence and tombstone. *)
Definition content (sl : SkipList) (ord : list Z) : ordmap key (Z * Z * bool) :=
  (λ x, (key_slice sl x, (nd_value (node_at sl x), nd_sequence (node_at sl x), nd_tombstone (node_at sl x)))) <$> ord.

Section facts.
Context (sl : SkipList) (ord : list Z) (Hwf : sl_wf sl ord).

Lemma node_valid x : 0 ≤ x < zlen (nodes sl) → ∃ n, nodes sl !! Z.to_nat x = Some n ∧ node_at sl x = n ∧ node_wf sl n.
Proof using Hwf.
  intros Hx. destruct (lookup_lt_is_Some_2 (nodes sl) (Z.to_nat x)) as [n Hn]; [unfold zlen in Hx; lia|].
  exists n. unfold node_at. rewrite Hn. split_and!; [done|done|by eapply wf_nodes].
Qed.

Lemma ord_valid x : x ∈ ord → 1 ≤ x < zlen (nodes sl) ∧ x ≠ NONE_VALUE.
Proof using Hwf.
  intros Hx%(wf_ord _ _ Hwf). split; [done|]. pose proof (wf_sizes _ _ Hwf) as (? & ? & _). unfold NONE_VALUE, U32_MAX in *. lia.
Qed.

Lemma ord_NoDup : NoDup (0 :: ord).
Proof using Hwf.
  constructor; [intros Hin; apply ord_valid in Hin; lia|]. pose proof (wf_sorted _ _ Hwf) as Hs. clear -Hs.
  induction Hs as [|x ord Hs IH Hx]; constructor; [|done]. intros Hin. rewrite Forall_forall in Hx. specialize (Hx x Hin). by rewrite cmp_refl in Hx.
Qed.

Lemma at_level_sub l ns x : x ∈ at_level sl l ns → x ∈ ns.
Proof using. by intros [_ ?]%list_elem_of_filter. Qed.

Lemma at_level_0 : at_level sl 0 ord = ord.
Proof using Hwf.
  apply filter_all. intros x Hx. apply ord_valid in Hx as [Hx _]. destruct (node_valid x) as (n & _ & Hn & Hw); [lia|].
  unfold tall. rewrite Hn. pose proof (nw_height _ _ Hw). lia.
Qed.

Lemma at_level_high l : level sl ≤ Z.of_nat l → at_level sl l ord = [].
Proof using Hwf. intros Hl. apply filter_none. intros x Hx. destruct (wf_inner _ _ Hwf x Hx) as [Hh _]. unfold tall. lia. Qed.

Lemma content_wf : om_wf (content sl ord).
Proof using Hwf.
  unfold om_wf, content.
  pose proof (wf_sorted _ _ Hwf) as Hs. clear -Hs. induction Hs as [|x ord Hs IH Hx]; [constructor|]. constructor; [done|].
  rewrite Forall_forall in Hx. apply Forall_forall. intros p (y & -> & Hy)%list_elem_of_fmap. by apply Hx.
Qed.

(** ** Searching *)

Context (k : key) (Hk : Forall byte k).

Lemma key_cmp_ok x : x ∈ ord → key_cmp_node_target sl x k (key_prefix_of k) = cmp (key_slice sl x) k.
Proof using All.
  intros Hx. unfold key_cmp_node_target. destruct (wf_inner _ _ Hwf x Hx) as (_ & Hb & ->). rewrite compare_bytes_exact.
  apply (padded_compare 8); done.
Qed.

Definition before (x : Z) : Prop := cmp (key_slice sl x) k = Lt.
#[local] Instance before_dec x : Decision (before x).
Proof. unfold before. apply _. Defined.

(** The nodes below the key, then the others. *)
Definition lows : list Z := filter before ord.
Definition highs : list Z := filter (λ x, ¬ before x) ord.

Lemma ord_split : ord = lows ++ highs.
Proof using Hwf.
  unfold lows, highs. pose proof (wf_sorted _ _ Hwf) as Hs. clear -Hs. induction Hs as [|x ord Hs IH Hx]; [done|].
  rewrite !filter_cons. destruct (decide (before x)) as [Hb|Hb].
  - rewrite decide_False by tauto. cbn [app]. by f_equal.
  - rewrite decide_True by done. rewrite (filter_none before); [|intros y Hy Hby; apply Hb; rewrite Forall_forall in Hx; unfold before in *; by eapply cmp_trans, Hby; apply Hx].
    cbn [app]. f_equal. symmetry. apply filter_all. intros y Hy Hby. apply Hb. rewrite Forall_forall in Hx. unfold before in *. by eapply cmp_trans, Hby; apply Hx.
Qed.

Lemma lows_in x : x ∈ lows → x ∈ ord ∧ cmp (key_slice sl x) k = Lt.
Proof using. intros [??]%list_elem_of_filter. done. Qed.
Lemma highs_in x : x ∈ highs → x ∈ ord ∧ cmp (key_slice sl x) k ≠ Lt.
Proof using. intros [??]%list_elem_of_filter. done. Qed.

Lemma find_level_ok l fuel : ∀ x a b, chain (λ y, next sl y l) x (a ++ b) → (length a < fuel)%nat →
  (∀ y, y ∈ a → y ∈ lows) → (∀ y, y ∈ b → y ∈ highs) →
  find_level fuel sl x l k (key_prefix_of k) = last_of x a.
Proof using All.
  induction fuel as [|fuel IH]; intros x a b Hc Hf Ha Hb; [lia|]. cbn [find_level]. destruct a as [|n a].
  - cbn [app] in Hc. destruct b as [|n b].
    + cbn in Hc. by rewrite Hc, Z.eqb_refl.
    + destruct Hc as (-> & Hn & _). rewrite (proj2 (Z.eqb_neq _ _)) by done. destruct (highs_in n) as [Hin Hge]; [apply Hb; left|].
      rewrite key_cmp_ok by done. by destruct (cmp (key_slice sl n) k).
  - destruct Hc as (-> & Hn & Hc). rewrite (proj2 (Z.eqb_neq _ _)) by done. destruct (lows_in n) as [Hin Hlt]; [apply Ha; left|].
    rewrite key_cmp_ok, Hlt, last_of_cons by done. apply (IH n a b); [done|cbn in Hf; lia| |done]. intros y Hy. apply Ha. by right.
Qed.

(** The predecessor of the key on a level. *)
Definition pred (l : nat) : Z := last_of 0 (at_level sl l lows).

Lemma at_level_split l : at_level sl l ord = at_level sl l lows ++ at_level sl l highs.
Proof using Hwf. rewrite ord_split at 1. apply filter_app. Qed.

Lemma filter_length_le {A} (P : A → Prop) `{∀ x, Decision (P x)} (l : list A) : (length (filter P l) ≤ length l)%nat.
Proof using. apply length_filter. Qed.

Lemma ord_length : (length ord < length (nodes sl))%nat.
Proof using Hwf.
  pose proof ord_NoDup as Hnd. pose proof (submseteq_length (0 :: ord) (Z.of_nat <$> seq 0 (length (nodes sl)))) as Hl.
  cbn in Hl. rewrite length_fmap, length_seq in Hl. apply Hl. apply NoDup_submseteq; [done|].
  intros x [->|Hx]%elem_of_cons; apply list_elem_of_fmap.
  - exists O. split; [done|]. apply elem_of_seq. pose proof (lookup_lt_Some _ _ _ (wf_head _ _ Hwf)). lia.
  - apply ord_valid in Hx as [Hx _]. exists (Z.to_nat x). unfold zlen in Hx. split; [lia|]. apply elem_of_seq. lia.
Qed.

Lemma find_level_pred l : (l < MAX_LEVEL)%nat → find_level (length (nodes sl)) sl (pred (S l)) l k (key_prefix_of k) = pred l.
Proof using All.
  intros Hl. pose proof (wf_chain _ _ Hwf l Hl) as Hc. rewrite at_level_split in Hc.
  assert (∃ a1 a2, at_level sl l lows = a1 ++ a2 ∧ last_of 0 a1 = pred (S l)) as (a1 & a2 & Ha & Hlast).
  { unfold pred. destruct (last_of_in 0 (at_level sl (S l) lows)) as [[-> _]|Hin]; [by exists [], (at_level sl l lows)|].
    assert (last_of 0 (at_level sl (S l) lows) ∈ at_level sl l lows) as Hin'.
    { apply list_elem_of_filter in Hin as [Ht Hin]. apply list_elem_of_filter. split; [unfold tall in *; lia|done]. }
    apply list_elem_of_split in Hin' as (a1 & a2 & Ha). exists (a1 ++ [last_of 0 (at_level sl (S l) lows)]), a2.
    rewrite last_of_snoc, <-app_assoc. done. }
  unfold pred at 2. rewrite Ha in Hc |- *. rewrite <-app_assoc in Hc. apply chain_suffix in Hc. rewrite Hlast in Hc.
  rewrite (find_level_ok l _ _ _ _ Hc).
  - by rewrite last_of_app, Hlast.
  - pose proof ord_length. pose proof (length_filter (tall sl l) lows) as Hf1. pose proof (length_filter before ord) as Hf2.
    unfold lows in Hf1 at 2. fold (at_level sl l lows) in Hf1. rewrite Ha, length_app in Hf1. lia.
  - intros y Hy. apply (at_level_sub l). rewrite Ha. apply elem_of_app. by right.
  - intros y Hy. by apply (at_level_sub l).
Qed.

Lemma find_down_ok n : ∀ update, (n ≤ MAX_LEVEL)%nat → length update = MAX_LEVEL →
  ∃ update', find_down n sl (pred n) update k (key_prefix_of k) = (pred 0, update') ∧ length update' = MAX_LEVEL ∧
    ∀ l, (l < MAX_LEVEL)%nat → update' !! l = if (l <? n)%nat then Some (pred l) else update !! l.
Proof using All.
  induction n as [|n IH]; intros update Hn Hlen; cbn [find_down]; [by exists update|].
  rewrite find_level_pred by lia. destruct (IH (<[n:=pred n]> update)) as (update' & -> & Hlen' & Hl); [lia|by rewrite length_insert|].
  exists update'. split_and!; [done|done|]. intros l Hlt. rewrite Hl by done. destruct (l <? n)%nat eqn:E.
  - apply Nat.ltb_lt in E. by rewrite (proj2 (Nat.ltb_lt _ _)) by lia.
  - apply Nat.ltb_ge in E. destruct (decide (l = n)) as [->|].
    + rewrite list_lookup_insert_eq by lia. by rewrite (proj2 (Nat.ltb_lt _ _)) by lia.
    + rewrite list_lookup_insert_ne by done. by rewrite (proj2 (Nat.ltb_ge _ _)) by lia.
Qed.

Definition first_high : option Z := head highs.

Lemma find_path_ok : ∃ update, length update = MAX_LEVEL ∧ (∀ l, (l < MAX_LEVEL)%nat → update !! l = Some (pred l)) ∧
  next sl (pred 0) 0 = default NONE_VALUE first_high ∧
  find_path sl k = (match first_high with Some x => if bool_decide (key_slice sl x = k) then Some x else None | None => None end, update).
Proof using All.
  pose proof (wf_level _ _ Hwf) as Hlev.
  assert (∀ l, level sl ≤ Z.of_nat l → pred l = 0) as Hhigh.
  { intros l Hl. unfold pred. pose proof (at_level_high l Hl) as He. rewrite at_level_split in He. by apply app_eq_nil in He as [-> _]. }
  unfold find_path. destruct (find_down_ok (Z.to_nat (level sl)) (replicate MAX_LEVEL 0)) as (update & Hd & Hlen & Hu);
    [unfold MAX_LEVEL; lia|by rewrite length_replicate|].
  rewrite Hhigh in Hd by lia. rewrite Hd. cbn [default]. exists update.
  assert (next sl (pred 0) 0 = default NONE_VALUE first_high) as Hn.
  { pose proof (wf_chain _ _ Hwf 0 ltac:(unfold MAX_LEVEL; lia)) as Hc. rewrite at_level_split in Hc. apply chain_suffix in Hc.
    fold (pred 0) in Hc. assert (at_level sl 0 highs = highs) as He.
    { pose proof at_level_0 as H0. rewrite at_level_split, ord_split in H0. 
      pose proof (length_filter (tall sl 0) lows). pose proof (length_filter (tall sl 0) highs).
      apply (f_equal length) in H0 as Hl. rewrite !length_app in Hl. unfold at_level in *.
      apply app_inj_1 in H0 as [_ ?]; [done|]. lia. }
    rewrite He in Hc. unfold first_high. destruct highs as [|x h]; [done|]. by destruct Hc as [-> _]. }
  split_and!; [done| |done|].
  - intros l Hl. rewrite Hu by done. destruct (l <? Z.to_nat (level sl))%nat eqn:E; [done|]. apply Nat.ltb_ge in E.
    rewrite Hhigh by lia. by apply lookup_replicate_2.
  - rewrite Hn. destruct first_high as [x|] eqn:Ef; cbn [default from_option].
    + assert (x ∈ ord) as Hx by (apply highs_in; unfold first_high in Ef; destruct highs; [done|]; injection Ef as ->; left).
      apply ord_valid in Hx as [_ Hx]. unfold id. rewrite (proj2 (Z.eqb_neq _ _)) by done. cbn [negb andb]. by destruct (bool_decide _).
    + unfold id. by rewrite Z.eqb_refl.
Qed.

Lemma first_high_below x y : first_high = Some x → y ∈ ord → cmp (key_slice sl y) k ≠ Lt → y = x ∨ cmp (key_slice sl x) (key_slice sl y) = Lt.
Proof using Hwf.
  intros Hx Hy Hge. assert (y ∈ highs) as Hin by (by apply list_elem_of_filter). unfold first_high in Hx.
  pose proof (wf_sorted _ _ Hwf) as Hs. rewrite ord_split in Hs. apply StronglySorted_app in Hs as (_ & _ & Hs).
  destruct highs as [|x' h]; [done|]. injection Hx as ->. apply StronglySorted_cons in Hs as [Hf _]. rewrite Forall_forall in Hf.
  apply elem_of_cons in Hin as [->|Hin]; [by left|right; by apply Hf].
Qed.

Lemma find_path_found x : (find_path sl k).1 = Some x ↔ x ∈ ord ∧ key_slice sl x = k.
Proof using All.
  destruct find_path_ok as (update & _ & _ & _ & ->). cbn [fst]. destruct first_high as [h|] eqn:Eh.
  - assert (h ∈ ord ∧ cmp (key_slice sl h) k ≠ Lt) as [Hin Hge].
    { apply highs_in. unfold first_high in Eh. destruct highs; [done|]. injection Eh as ->. left. }
    destruct (decide (key_slice sl h = k)) as [He|He]; [rewrite bool_decide_true by done|rewrite bool_decide_false by done].
    + split; [intros [= ->]; done|]. intros [Hx Hkx]. f_equal. destruct (first_high_below h x Eh Hx) as [->|Hlt]; [by rewrite Hkx, cmp_refl|done|].
      by rewrite He, Hkx, cmp_refl in Hlt.
    + split; [done|]. intros [Hx Hkx]. exfalso. destruct (first_high_below h x Eh Hx) as [->|Hlt]; [by rewrite Hkx, cmp_refl|done|].
      by rewrite Hkx in Hlt.
  - split; [done|]. intros [Hx Hkx]. exfalso. assert (x ∈ highs) as Hin by (apply list_elem_of_filter; split; [by unfold before; rewrite Hkx, cmp_refl|done]).
    unfold first_high in Eh. destruct highs; [by apply elem_of_nil in Hin|done].
Qed.

Lemma elem_of_content p : p ∈ content sl ord ↔ ∃ x, x ∈ ord ∧ p = (key_slice sl x, (nd_value (node_at sl x), nd_sequence (node_at sl x), nd_tombstone (node_at sl x))).
Proof using. unfold content. rewrite list_elem_of_fmap. naive_solver. Qed.

(** [entry] looks the key up. *)
Lemma entry_content : entry sl k = om_get k (content sl ord).
Proof using All.
  unfold entry. symmetry. destruct (find_path sl k).1 as [x|] eqn:E.
  - apply find_path_found in E as [Hx Hkx]. apply om_get_Some; [by apply content_wf|]. apply elem_of_content. exists x. by rewrite Hkx.
  - apply om_get_None; [by apply content_wf|]. intros a (x & Hx & [= Hkx _])%elem_of_content.
    assert ((find_path sl k).1 = Some x) as Hf by (by apply find_path_found). by rewrite E in Hf.
Qed.

Lemma level0_chain fuel x ns : chain (λ y, next sl y 0) x ns → (length ns ≤ fuel)%nat → level0_from fuel sl (next sl x 0) = ns.
Proof using.
  revert x ns. induction fuel as [|fuel IH]; intros x ns Hc Hl; [destruct ns; [done|cbn in Hl; lia]|]. destruct ns as [|n ns]; cbn [level0_from].
  - cbn in Hc. by rewrite Hc, Z.eqb_refl.
  - destruct Hc as (-> & Hn & Hc). rewrite (proj2 (Z.eqb_neq _ _)) by done. f_equal. apply IH; [done|cbn in Hl; lia].
Qed.

Lemma chain0 : chain (λ y, next sl y 0) 0 ord.
Proof using Hwf. rewrite <-at_level_0 at 1. apply (wf_chain _ _ Hwf). unfold MAX_LEVEL. lia. Qed.

Lemma level0_all : level0_from (length (nodes sl)) sl (next sl 0 0) = ord.
Proof using Hwf. apply level0_chain; [apply chain0|]. pose proof ord_length. lia. Qed.

(** Iteration from a key: the entries at or above it. *)
Lemma iter_raw_from_ok : iter_raw_from sl k = raw sl <$> highs.
Proof using All.
  unfold iter_raw_from, lower_bound. destruct find_path_ok as (update & _ & Hu & _ & ->). cbn [snd].
  rewrite Hu by (unfold MAX_LEVEL; lia). cbn [default from_option]. f_equal. unfold id. apply level0_chain.
  - pose proof chain0 as Hc. rewrite ord_split in Hc. apply chain_suffix in Hc. unfold pred.
    assert (at_level sl 0 lows = lows) as ->; [|done]. apply filter_all. intros x [Hx _]%lows_in.
    rewrite <-at_level_0 in Hx. by apply list_elem_of_filter in Hx as [? _].
  - pose proof ord_length. pose proof (length_filter (λ x, ¬ before x) ord). unfold highs. lia.
Qed.
End facts.

Lemma collect_ok sl ord : sl_wf sl ord → collect_key_value_records sl = raw sl <$> filter (λ x, key_length (node_at sl x) ≠ 0) ord.
Proof using. intros Hwf. unfold collect_key_value_records. by rewrite (level0_all sl ord). Qed.
Lemma iter_raw_ok sl ord : sl_wf sl ord → iter_raw sl = raw sl <$> ord.
Proof using. intros Hwf. unfold iter_raw. by rewrite (level0_all sl ord). Qed.

(** ** Writing a node in place *)

Lemma filter_length_changed {A} (P Q : A → Prop) `{∀ x, Decision (P x), ∀ x, Decision (Q x)} (a b : list A) x :
  (∀ y, y ∈ a ++ b → P y ↔ Q y) →
  zlen (filter Q (a ++ x :: b)) = zlen (filter P (a ++ x :: b)) + (if decide (Q x) then 1 else 0) - (if decide (P x) then 1 else 0).
Proof using.
  intros Hpq. rewrite !filter_app, !filter_cons, !zlen_app.
  rewrite (filter_ext_in Q P a), (filter_ext_in Q P b) by (intros y Hy; symmetry; apply Hpq, elem_of_app; tauto).
  destruct (decide (P x)), (decide (Q x)); rewrite ?zlen_cons; lia.
Qed.

(** [sl'] differs from [sl] in the value, sequence and tombstone of node [idx]. *)
Definition same_shape (n n' : Node) : Prop :=
  key_index_offset n' = key_index_offset n ∧ key_length n' = key_length n ∧ key_prefix n' = key_prefix n ∧ height n' = height n ∧
  links_index_offset n' = links_index_offset n.

Section set_node.
Context (sl : SkipList) (ord : list Z) (Hwf : sl_wf sl ord) (idx : Z) (Hidx : idx ∈ ord) (n' : Node) (Hs : same_shape (node_at sl idx) n').
Context (live tomb : Z).
Let sl' := with_counts (set_node sl idx n') live tomb.

Lemma node_at_set x : 0 ≤ x < zlen (nodes sl) → node_at sl' x = if decide (x = idx) then n' else node_at sl x.
Proof using Hidx Hwf.
  intros Hx. apply (ord_valid _ _ Hwf) in Hidx as [Hi _]. unfold node_at, sl'. cbn [set_node with_counts nodes]. case_decide as Hd.
  - subst. rewrite list_lookup_insert_eq; [done|]. unfold zlen in *. lia.
  - rewrite list_lookup_insert_ne; [done|]. lia.
Qed.

Lemma shape_set x : 0 ≤ x < zlen (nodes sl) → same_shape (node_at sl x) (node_at sl' x).
Proof using Hidx Hwf Hs. intros Hx. rewrite node_at_set by done. case_decide as Hd; [by rewrite Hd|done]. Qed.

Lemma key_slice_set x : 0 ≤ x < zlen (nodes sl) → key_slice sl' x = key_slice sl x.
Proof using Hidx Hwf Hs. intros Hx. unfold key_slice. by destruct (shape_set x Hx) as (-> & -> & _). Qed.
Lemma next_set x l : 0 ≤ x < zlen (nodes sl) → next sl' x l = next sl x l.
Proof using Hidx Hwf Hs. intros Hx. unfold next. by destruct (shape_set x Hx) as (_ & _ & _ & -> & ->). Qed.

Lemma set_node_wf : live = count_tomb sl' false ord → tomb = count_tomb sl' true ord → sl_wf sl' ord.
Proof using Hidx Hwf Hs.
  intros Hl Ht. assert (∀ x, x ∈ ord → 0 ≤ x < zlen (nodes sl)) as Hv by (intros x Hx; apply (ord_valid _ _ Hwf) in Hx; lia).
  assert (zlen (nodes sl') = zlen (nodes sl)) as Hz by (unfold zlen, sl'; cbn; by rewrite length_insert).
  assert (∀ i n, nodes sl' !! i = Some n → ∃ m, nodes sl !! i = Some m ∧ same_shape m n) as Hnodes.
  { intros i n Hi. assert (0 ≤ Z.of_nat i < zlen (nodes sl)) as Hr by (rewrite <-Hz; apply lookup_lt_Some in Hi; unfold zlen; lia).
    destruct (node_valid _ _ Hwf _ Hr) as (m & Hm & Hma & _). pose proof (shape_set _ Hr) as Hsh. rewrite Nat2Z.id in Hm.
    exists m. split; [done|]. rewrite Hma in Hsh. unfold node_at in Hsh. by rewrite Nat2Z.id, Hi in Hsh. }
  split.
  - unfold sl'. cbn [set_node with_counts nodes]. rewrite list_lookup_insert_ne; [apply Hwf|]. apply (ord_valid _ _ Hwf) in Hidx. lia.
  - rewrite Hz. apply Hwf.
  - apply Hwf.
  - intros i n Hi. destruct (Hnodes i n Hi) as (m & Hm & Ho & Hkl & Hp & Hh & Hlo). destruct (wf_nodes _ _ Hwf i m Hm) as [N1 N2 N3].
    split; rewrite ?Hh, ?Hlo, ?Ho, ?Hkl; done.
  - intros x Hx. rewrite key_slice_set by (by apply Hv). destruct (shape_set x (Hv x Hx)) as (_ & _ & -> & -> & _).
    by apply (wf_inner _ _ Hwf).
  - intros i j n m Hij Hi Hj. destruct (Hnodes i n Hi) as (n0 & Hn0 & _ & _ & _ & -> & ->).
    destruct (Hnodes j m Hj) as (m0 & Hm0 & _ & _ & _ & _ & ->). by apply (wf_disjoint _ _ Hwf i j).
  - intros x. rewrite Hz. apply Hwf.
  - eapply StronglySorted_weaken; [|by apply Hwf]. intros x y Hx Hy. by rewrite !key_slice_set by (by apply Hv).
  - intros l Hlt. assert (at_level sl' l ord = at_level sl l ord) as ->.
    { apply filter_ext_in. intros x Hx. unfold tall. by destruct (shape_set x (Hv x Hx)) as (_ & _ & _ & -> & _). }
    eapply chain_ext; [|by apply Hwf]. intros y [->|Hy]; apply next_set.
    + pose proof (lookup_lt_Some _ _ _ (wf_head _ _ Hwf)). unfold zlen. lia.
    + by apply Hv, (at_level_sub sl l).
  - done.
  - done.
Qed.

Lemma ord_idx : ∃ a c, ord = a ++ idx :: c ∧ (∀ y, y ∈ a ++ c → y ≠ idx ∧ 0 ≤ y < zlen (nodes sl)) ∧
  ∀ y, y ∈ a → cmp (key_slice sl y) (key_slice sl idx) = Lt.
Proof using Hidx Hwf Hs.
  pose proof Hidx as (a & c & Hord)%list_elem_of_split. exists a, c. pose proof (ord_NoDup _ _ Hwf) as Hnd.
  pose proof (wf_sorted _ _ Hwf) as Hso. rewrite Hord in Hso, Hnd. apply StronglySorted_app in Hso as (Hlt & _ & _).
  split_and!; [done| |intros y Hy; apply Hlt; [done|left]]. intros y Hy. split.
  - intros ->. apply NoDup_cons in Hnd as [_ Hnd]. apply NoDup_app in Hnd as (_ & Hnd1 & Hnd2).
    apply NoDup_cons in Hnd2 as [Hnd2 _]. apply elem_of_app in Hy as [Hy|Hy]; [|done]. apply (Hnd1 idx Hy). left.
  - assert (y ∈ ord) as Hyo by (rewrite Hord; set_solver). apply (ord_valid _ _ Hwf) in Hyo. lia.
Qed.

Lemma set_node_content : content sl' ord = om_insert (key_slice sl idx) (nd_value n', nd_sequence n', nd_tombstone n') (content sl ord).
Proof using Hidx Hwf Hs.
  destruct ord_idx as (a & c & Hord & Hne & Hlt). assert (0 ≤ idx < zlen (nodes sl)) as Hi by (apply (ord_valid _ _ Hwf) in Hidx; lia).
  unfold content. rewrite Hord, !fmap_app, !fmap_cons, om_insert_over.
  - rewrite key_slice_set, node_at_set, decide_True by done. f_equal; [|f_equal]; apply list_fmap_ext; intros i y Hy%list_elem_of_lookup_2;
      (destruct (Hne y) as [Hyn Hyv]; [set_solver|]); by rewrite key_slice_set, node_at_set, decide_False by done.
  - apply Forall_forall. intros p (y & -> & Hy)%list_elem_of_fmap. by apply Hlt.
Qed.

Lemma set_node_count b : count_tomb sl' b ord =
  count_tomb sl b ord + (if decide (nd_tombstone n' = b) then 1 else 0) - (if decide (nd_tombstone (node_at sl idx) = b) then 1 else 0).
Proof using Hidx Hwf Hs.
  destruct ord_idx as (a & c & Hord & Hne & _). assert (0 ≤ idx < zlen (nodes sl)) as Hi by (apply (ord_valid _ _ Hwf) in Hidx; lia).
  unfold count_tomb. rewrite Hord, (filter_length_changed (λ x, nd_tombstone (node_at sl x) = b) (λ x, nd_tombstone (node_at sl' x) = b)).
  - rewrite !node_at_set by done. by rewrite (decide_True (P := idx = idx)) by done.
  - intros y Hy. destruct (Hne y Hy) as [Hyn Hyv]. by rewrite node_at_set, decide_False by done.
Qed.
End set_node.

(** ** Splicing a new node in *)

Lemma with_level_next sl lv x l : next (with_level sl lv) x l = next sl x l.
Proof using. done. Qed.

(** Arenas whose nodes do not overlap. *)
Definition arenas_ok (sl : SkipList) : Prop :=
  (∀ i n, nodes sl !! i = Some n → node_wf sl n) ∧
  (∀ i j n m, (i < j)%nat → nodes sl !! i = Some n → nodes sl !! j = Some m → links_index_offset n + height n ≤ links_index_offset m).

Lemma set_next_fields sl x l v :
  nodes (set_next sl x l v) = nodes sl ∧ keys (set_next sl x l v) = keys sl ∧ zlen (links (set_next sl x l v)) = zlen (links sl) ∧
  level (set_next sl x l v) = level sl ∧ no_live_nodes (set_next sl x l v) = no_live_nodes sl ∧
  no_tombstone_nodes (set_next sl x l v) = no_tombstone_nodes sl.
Proof using. unfold zlen. cbn. by rewrite length_insert. Qed.

Lemma set_next_arenas sl x l v : arenas_ok sl → arenas_ok (set_next sl x l v).
Proof using.
  intros [Hn Hd]. destruct (set_next_fields sl x l v) as (En & Ek & El & _). split; rewrite En; [|done].
  intros i n Hi. destruct (Hn i n Hi) as [N1 N2 N3]. split; rewrite ?El, ?Ek; done.
Qed.

Lemma node_at_lookup sl x n : nodes sl !! Z.to_nat x = Some n → node_at sl x = n.
Proof using. intros Hx. unfold node_at. by rewrite Hx. Qed.

Lemma next_set_next sl x l v y j : arenas_ok sl → 0 ≤ x < zlen (nodes sl) → 0 ≤ y < zlen (nodes sl) →
  Z.of_nat l < height (node_at sl x) →
  next (set_next sl x l v) y j = if decide (y = x ∧ j = l) then v else next sl y j.
Proof using.
  intros [Hn Hd] Hx Hy Hl. destruct (lookup_lt_is_Some_2 (nodes sl) (Z.to_nat x)) as [n Hnx]; [unfold zlen in Hx; lia|].
  destruct (lookup_lt_is_Some_2 (nodes sl) (Z.to_nat y)) as [m Hmy]; [unfold zlen in Hy; lia|].
  rewrite (node_at_lookup _ _ _ Hnx) in Hl. unfold next. rewrite (node_at_lookup _ _ _ Hmy).
  assert (node_at (set_next sl x l v) y = m) as -> by (by apply node_at_lookup).
  assert (links (set_next sl x l v) = <[Z.to_nat (links_index_offset n + Z.of_nat l) := v]> (links sl)) as ->
    by (cbn; by rewrite (node_at_lookup _ _ _ Hnx)).
  destruct (Hn _ _ Hnx) as [N1 N2 _]. destruct (Hn _ _ Hmy) as [M1 M2 _].
  destruct (height m <=? Z.of_nat j) eqn:E.
  - apply Z.leb_le in E. rewrite decide_False; [done|]. intros [-> ->]. rewrite Hnx in Hmy. injection Hmy as ->. lia.
  - apply Z.leb_gt in E. case_decide as Hc.
    + destruct Hc as [-> ->]. rewrite Hnx in Hmy. injection Hmy as ->. rewrite list_lookup_insert_eq; [done|]. unfold zlen in *. lia.
    + rewrite list_lookup_insert_ne; [done|]. intros He.
      assert (links_index_offset n + Z.of_nat l = links_index_offset m + Z.of_nat j) as Heq by lia.
      destruct (Nat.lt_trichotomy (Z.to_nat x) (Z.to_nat y)) as [Hlt|[He'|Hlt]].
      * pose proof (Hd _ _ _ _ Hlt Hnx Hmy). lia.
      * apply Hc. assert (x = y) as -> by lia. split; [done|]. rewrite Hnx in Hmy. injection Hmy as ->. lia.
      * pose proof (Hd _ _ _ _ Hlt Hmy Hnx). lia.
Qed.

(** What [splice_levels] leaves at each node and level. *)
Lemma splice_levels_ok n : ∀ lvl sl new update,
  arenas_ok sl → 0 ≤ new < zlen (nodes sl) → Z.of_nat (lvl + n) ≤ height (node_at sl new) →
  (∀ j, (lvl ≤ j < lvl + n)%nat → ∃ p, update !! j = Some p ∧ 0 ≤ p < zlen (nodes sl) ∧ p ≠ new ∧ Z.of_nat j < height (node_at sl p)) →
  let sl' := splice_levels n lvl sl new update in
  arenas_ok sl' ∧ nodes sl' = nodes sl ∧ keys sl' = keys sl ∧ zlen (links sl') = zlen (links sl) ∧ level sl' = level sl ∧
  no_live_nodes sl' = no_live_nodes sl ∧ no_tombstone_nodes sl' = no_tombstone_nodes sl ∧
  ∀ y j, 0 ≤ y < zlen (nodes sl) →
    next sl' y j = if decide (lvl ≤ j < lvl + n)%nat then
                     (if decide (y = default 0 (update !! j)) then new
                      else if decide (y = new) then next sl (default 0 (update !! j)) j else next sl y j)
                   else next sl y j.
Proof using.
  induction n as [|n IH]; intros lvl sl new update Ha Hnew Hh Hu; cbv zeta; cbn [splice_levels].
  { split_and!; try done. intros y j Hy. by rewrite decide_False by lia. }
  destruct (Hu lvl ltac:(lia)) as (p & Hp & Hpv & Hpn & Hph). rewrite Hp. cbn [default from_option]. unfold id.
  set (sl1 := set_next sl new lvl (next sl p lvl)). set (sl2 := set_next sl1 p lvl new).
  assert (arenas_ok sl1) as Ha1 by (by apply set_next_arenas). assert (arenas_ok sl2) as Ha2 by (by apply set_next_arenas).
  destruct (set_next_fields sl new lvl (next sl p lvl)) as (E1 & E2 & E3 & E4 & E5 & E6). fold sl1 in E1, E2, E3, E4, E5, E6.
  destruct (set_next_fields sl1 p lvl new) as (F1 & F2 & F3 & F4 & F5 & F6). fold sl2 in F1, F2, F3, F4, F5, F6.
  assert (nodes sl2 = nodes sl) as Hn2 by congruence.
  assert (∀ y, node_at sl1 y = node_at sl y) as Hna1 by (intros y; unfold node_at; by rewrite E1).
  assert (∀ y, node_at sl2 y = node_at sl y) as Hna by (intros y; unfold node_at; by rewrite Hn2).
  destruct (IH (S lvl) sl2 new update Ha2) as (G1 & G2 & G3 & G4 & G5 & G6 & G7 & G8).
  { by rewrite Hn2. }
  { rewrite Hna. etrans; [|exact Hh]. lia. }
  { intros j Hj. rewrite Hn2. destruct (Hu j ltac:(lia)) as (q & Hq). exists q. by rewrite Hna. }
  split_and!; [done|congruence|congruence|congruence|congruence|congruence|congruence|].
  assert (∀ y j, 0 ≤ y < zlen (nodes sl) → next sl2 y j = if decide (y = p ∧ j = lvl) then new else if decide (y = new ∧ j = lvl) then next sl p lvl else next sl y j) as Hnx.
  { intros y j Hy. unfold sl2. rewrite next_set_next by (rewrite ?E1, ?Hna1; done). unfold sl1. by rewrite next_set_next by (done || lia). }
  intros y j Hy. rewrite G8 by (by rewrite Hn2). destruct (decide (j = lvl)) as [->|Hj].
  - rewrite decide_False, (decide_True (P := (lvl ≤ lvl < lvl + S n)%nat)) by lia. rewrite Hp. cbn [default from_option]. unfold id.
    rewrite Hnx by done. destruct (decide (y = p)); [by rewrite decide_True|rewrite decide_False by tauto]. destruct (decide (y = new)); [by rewrite decide_True|by rewrite decide_False by tauto].
  - destruct (decide (S lvl ≤ j < S lvl + n)%nat) as [Hr|Hr].
    + rewrite (decide_True (P := (lvl ≤ j < lvl + S n)%nat)) by lia. destruct (Hu j ltac:(lia)) as (q & Hq & Hqv & _). rewrite Hq. cbn [default from_option]. unfold id.
      rewrite !Hnx by done. rewrite !(decide_False (P := _ ∧ j = lvl)) by tauto. done.
    + rewrite (decide_False (P := (lvl ≤ j < lvl + S n)%nat)) by lia. rewrite Hnx by done. by rewrite !(decide_False (P := _ ∧ j = lvl)) by tauto.
Qed.

(** Drawing a level changes only the generator. *)
Definition with_rng (sl : SkipList) (r : Z) : SkipList :=
  mk_skip (nodes sl) (links sl) (keys sl) (level sl) (no_live_nodes sl) (no_tombstone_nodes sl) r (max_capacity sl).

Lemma draw_level_range n : ∀ st l, l ≤ (draw_level n st l).1 ≤ l + Z.of_nat n.
Proof using.
  induction n as [|n IH]; intros st l; cbn [draw_level]; [cbn; lia|]. destruct (_ =? 0); [cbn [fst]; lia|].
  specialize (IH (xorshift st) (l + 1)). lia.
Qed.

Lemma random_level_ok sl : ∃ lvl r, random_level sl = (lvl, with_rng sl r) ∧ 1 ≤ lvl ≤ 32.
Proof using.
  unfold random_level. pose proof (draw_level_range 31 (rng sl) 1) as Hr. destruct (draw_level _ _ _) as [lvl st]. exists lvl, st. cbn in Hr. split; [done|lia].
Qed.

Lemma with_rng_wf sl ord r : sl_wf sl ord → sl_wf (with_rng sl r) ord.
Proof using. intros [W1 W2 W3 W4 W5 W6 W7 W8 W9 W10 W11]. constructor; [exact W1|exact W2|exact W3|intros i n Hi; destruct (W4 i n Hi); by constructor|exact W5|exact W6|exact W7|exact W8|exact W9|exact W10|exact W11]. Qed.

Lemma links_grown_wf sl ord ls : sl_wf sl ord → zlen (links sl ++ ls) ≤ U32_MAX →
  let sl' := mk_skip (nodes sl) (links sl ++ ls) (keys sl) (level sl) (no_live_nodes sl) (no_tombstone_nodes sl) (rng sl) (max_capacity sl) in
  sl_wf sl' ord ∧ content sl' ord = content sl ord.
Proof using.
  intros Hwf Hl sl'. assert (∀ x l, 0 ≤ x < zlen (nodes sl) → next sl' x l = next sl x l) as Hnx.
  { intros x l Hx. destruct (node_valid _ _ Hwf x Hx) as (n & _ & Hn & [N1 N2 _]). unfold next. change (node_at sl' x) with (node_at sl x).
    rewrite Hn. destruct (height n <=? Z.of_nat l) eqn:E; [done|]. apply Z.leb_gt in E. cbn [sl' links]. rewrite lookup_app_l; [done|]. unfold zlen in *. lia. }
  split; [|done]. pose proof Hwf as [W1 W2 W3 W4 W5 W6 W7 W8 W9 W10 W11]. split; try done.
  - cbn [sl' nodes links keys]. rewrite zlen_app in *. pose proof (zlen_nonneg ls). lia.
  - intros i n Hi. destruct (W4 i n Hi) as [N1 N2 N3]. split; [done| |done]. cbn [sl' links]. rewrite zlen_app. pose proof (zlen_nonneg ls). lia.
  - intros l Hlt. eapply chain_ext; [|by apply W9]. intros y [->|Hy]; apply Hnx.
    + pose proof (lookup_lt_Some _ _ _ W1). unfold zlen. lia.
    + apply (at_level_sub sl), (ord_valid _ _ Hwf) in Hy. lia.
Qed.

(** The arenas with a node allocated. *)
Record allocated (sl : SkipList) (k : key) (value : Z) (tombstone : bool) (seq h : Z) (sl1 : SkipList) : Prop := {
  al_nodes : nodes sl1 = nodes sl ++ [mk_node (zlen (keys sl)) (zlen k) (key_prefix_of k) value tombstone seq h (zlen (links sl))];
  al_links : links sl1 = links sl ++ replicate (Z.to_nat h) NONE_VALUE;
  al_keys : keys sl1 = keys sl ++ k;
  al_rest : level sl1 = level sl ∧ no_live_nodes sl1 = no_live_nodes sl ∧ no_tombstone_nodes sl1 = no_tombstone_nodes sl;
  al_room : zlen (links sl) + h < U32_MAX ∧ zlen (keys sl) + zlen k < U32_MAX }.

Lemma allocate_ok sl ord k value tombstone seq h : sl_wf sl ord → 1 ≤ h ≤ 32 →
  match allocate_node sl k value tombstone seq h with
  | (None, sl1) => sl_wf sl1 ord ∧ content sl1 ord = content sl ord
  | (Some n, sl1) => n = zlen (nodes sl) ∧ allocated sl k value tombstone seq h sl1
  end.
Proof using.
  intros Hwf Hh. unfold allocate_node. pose proof (wf_sizes _ _ Hwf) as (S1 & S2 & S3). unfold U32_MAX in *.
  pose proof (zlen_nonneg (nodes sl)); pose proof (zlen_nonneg (keys sl)); pose proof (zlen_nonneg k); pose proof (zlen_nonneg (links sl)).
  destruct (2 ^ 32 - 1 <=? zlen (links sl) + h) eqn:E1; [done|]. apply Z.leb_gt in E1. cbn [keys nodes links level no_live_nodes no_tombstone_nodes rng max_capacity].
  assert (zlen (links sl ++ replicate (Z.to_nat h) NONE_VALUE) = zlen (links sl) + h) as Hz.
  { rewrite zlen_app. unfold zlen at 2. rewrite length_replicate. lia. }
  destruct (2 ^ 32 - 1 <=? zlen (keys sl) + zlen k) eqn:E2.
  - apply links_grown_wf; [done|]. rewrite Hz. unfold U32_MAX. lia.
  - apply Z.leb_gt in E2. split; [apply wrap_small; lia|]. split; cbn [nodes links keys level no_live_nodes no_tombstone_nodes]; try done.
    do 2 f_equal. rewrite !wrap_small by lia. done.
Qed.

Section splice.
Context (sl : SkipList) (ord : list Z) (Hwf : sl_wf sl ord) (k : key) (Hk : Forall byte k).
Context (value : Z) (tombstone : bool) (seq h : Z) (Hh : 1 ≤ h ≤ 32) (sl1 : SkipList) (Hal : allocated sl k value tombstone seq h sl1).
Let new := zlen (nodes sl).
Let nd := mk_node (zlen (keys sl)) (zlen k) (key_prefix_of k) value tombstone seq h (zlen (links sl)).
Let lo := lows sl ord k.
Let hi := highs sl ord k.

Lemma alloc_old y : 0 ≤ y < new → node_at sl1 y = node_at sl y ∧ key_slice sl1 y = key_slice sl y ∧ ∀ l, next sl1 y l = next sl y l.
Proof using Hwf Hal.
  intros Hy. destruct (node_valid _ _ Hwf y Hy) as (n & Hn & Hna & [N1 N2 N3]).
  assert (node_at sl1 y = n) as Hn1.
  { unfold node_at. rewrite (al_nodes _ _ _ _ _ _ _ Hal), lookup_app_l, Hn; [done|]. subst new. unfold zlen in Hy. lia. }
  split_and!; [by rewrite Hn1| |].
  - unfold key_slice. rewrite Hn1, Hna, (al_keys _ _ _ _ _ _ _ Hal). destruct N3 as (? & ? & ?). by apply bread_app_l.
  - intros l. unfold next. rewrite Hn1, Hna. destruct (height n <=? Z.of_nat l) eqn:E; [done|]. apply Z.leb_gt in E.
    rewrite (al_links _ _ _ _ _ _ _ Hal), lookup_app_l; [done|]. unfold zlen in *. lia.
Qed.

Lemma alloc_new : node_at sl1 new = nd ∧ key_slice sl1 new = k.
Proof using Hwf Hal.
  assert (node_at sl1 new = nd) as Hn.
  { apply node_at_lookup. rewrite (al_nodes _ _ _ _ _ _ _ Hal). unfold new, zlen. rewrite Nat2Z.id. by apply list_lookup_middle. }
  split; [done|]. unfold key_slice. rewrite Hn, (al_keys _ _ _ _ _ _ _ Hal). cbn [nd key_index_offset key_length].
  rewrite bread_app_r, Z.sub_diag by lia. apply bread_all.
Qed.

Lemma alloc_arenas : arenas_ok sl1.
Proof using Hwf Hal Hh.
  pose proof (zlen_nonneg (keys sl)); pose proof (zlen_nonneg k); pose proof (zlen_nonneg (links sl)).
  assert (zlen (links sl1) = zlen (links sl) + h) as Hz.
  { rewrite (al_links _ _ _ _ _ _ _ Hal), zlen_app. unfold zlen at 2. rewrite length_replicate. lia. }
  assert (zlen (keys sl1) = zlen (keys sl) + zlen k) as Hzk by (by rewrite (al_keys _ _ _ _ _ _ _ Hal), zlen_app).
  split; rewrite (al_nodes _ _ _ _ _ _ _ Hal).
  - intros i n [Hi|(Hl & Hi)]%lookup_app_Some.
    + destruct (wf_nodes _ _ Hwf i n Hi) as [N1 N2 (? & ? & ?)]. split; rewrite ?Hz; [done|lia|]. unfold in_region. rewrite Hzk. lia.
    + apply list_lookup_singleton_Some in Hi as [_ <-]. split; cbn [nd height links_index_offset key_index_offset key_length]; [done|lia|].
      unfold in_region. rewrite Hzk. lia.
  - intros i j n m Hij [Hi|(Hl & Hi)]%lookup_app_Some [Hj|(Hlj & Hj)]%lookup_app_Some.
    + by apply (wf_disjoint _ _ Hwf i j).
    + apply list_lookup_singleton_Some in Hj as [_ <-]. cbn [links_index_offset]. destruct (wf_nodes _ _ Hwf i n Hi) as [_ N2 _]. lia.
    + apply lookup_lt_Some in Hj. lia.
    + apply list_lookup_singleton_Some in Hi as [Hi _], Hj as [Hj _]. lia.
Qed.

Context (update : list Z) (Hu : ∀ l, (l < MAX_LEVEL)%nat → update !! l = Some (pred sl ord k l)).
Context (Hnew : ∀ x, x ∈ ord → key_slice sl x ≠ k) (live tomb : Z).
Let sl2 := splice_levels (Z.to_nat h) 0 sl1 new update.
Let sl3 := with_counts (if level sl <? h then with_level sl2 h else sl2) live tomb.
Let ord' := lo ++ new :: hi.

Lemma pred_valid l : 0 ≤ pred sl ord k l < new ∧ (Z.of_nat l < 32 → Z.of_nat l < height (node_at sl (pred sl ord k l))).
Proof using Hwf.
  unfold pred. destruct (last_of_in 0 (at_level sl l (lows sl ord k))) as [[-> _]|Hin].
  - pose proof (lookup_lt_Some _ _ _ (wf_head _ _ Hwf)). subst new. unfold zlen. split; [lia|]. intros Hl32.
    rewrite (node_at_lookup _ 0 _ (wf_head _ _ Hwf)). cbn [height]. exact Hl32.
  - pose proof Hin as [Ht Hl]%list_elem_of_filter. apply lows_in in Hl as [Ho _]. apply (ord_valid _ _ Hwf) in Ho. subst new. split; [lia|done].
Qed.

Lemma splice_ok : arenas_ok sl2 ∧ nodes sl2 = nodes sl1 ∧ keys sl2 = keys sl1 ∧ zlen (links sl2) = zlen (links sl1) ∧ level sl2 = level sl1 ∧
  ∀ y j, 0 ≤ y ≤ new → next sl2 y j = if decide (Z.of_nat j < h) then
    (if decide (y = pred sl ord k j) then new else if decide (y = new) then next sl (pred sl ord k j) j else next sl1 y j) else next sl1 y j.
Proof using Hwf Hal Hh Hu.
  assert (zlen (nodes sl1) = new + 1) as Hz by (by rewrite (al_nodes _ _ _ _ _ _ _ Hal), zlen_app).
  pose proof (zlen_nonneg (nodes sl)) as Hnn. destruct alloc_new as [Hnd _].
  destruct (splice_levels_ok (Z.to_nat h) 0 sl1 new update) as (G1 & G2 & G3 & G4 & G5 & _ & _ & G8).
  - apply alloc_arenas.
  - rewrite Hz. subst new. lia.
  - rewrite Hnd. cbn [nd height]. lia.
  - intros j Hj. exists (pred sl ord k j). destruct (pred_valid j) as [Hv Ht]. destruct (alloc_old _ Hv) as (-> & _).
    split_and!; [apply Hu; unfold MAX_LEVEL; lia|lia|lia|lia|apply Ht; lia].
  - fold sl2 in G1, G2, G3, G4, G5, G8. split_and!; [done|done|done|done|done|]. intros y j Hy. rewrite G8 by lia.
    destruct (decide (Z.of_nat j < h)) as [Hj|Hj]; [rewrite decide_True by lia|by rewrite decide_False by lia].
    rewrite Hu by (unfold MAX_LEVEL; lia). cbn [default from_option]. unfold id. destruct (pred_valid j) as [Hv _].
    by destruct (alloc_old _ Hv) as (_ & _ & ->).
Qed.

Lemma splice_next y j : next sl3 y j = next sl2 y j.
Proof using. unfold sl3. by destruct (level sl <? h). Qed.
Lemma splice_node y : node_at sl3 y = node_at sl1 y ∧ key_slice sl3 y = key_slice sl1 y.
Proof using Hwf Hal Hh Hu.
  destruct splice_ok as (_ & Hn & Hkeys & _). unfold key_slice, node_at, sl3. destruct (level sl <? h); cbn [with_counts with_level nodes keys]; by rewrite Hn, Hkeys.
Qed.

Lemma old_in_ord' x : x ∈ ord' ↔ x = new ∨ x ∈ ord.
Proof using Hwf Hh. rewrite (ord_split _ _ Hwf k). unfold ord', lo, hi. rewrite !elem_of_app, elem_of_cons. tauto. Qed.

Lemma ord_old x : x ∈ ord → 0 ≤ x < new ∧ node_at sl3 x = node_at sl x ∧ key_slice sl3 x = key_slice sl x.
Proof using Hwf Hal Hh Hu.
  intros Hx. apply (ord_valid _ _ Hwf) in Hx as [Hx _]. assert (0 ≤ x < new) as Hv by (subst new; lia). destruct (splice_node x) as [-> ->].
  by destruct (alloc_old x Hv) as (-> & -> & _).
Qed.
Lemma ord_new : node_at sl3 new = nd ∧ key_slice sl3 new = k.
Proof using Hwf Hal Hh Hu. destruct (splice_node new) as [-> ->]. apply alloc_new. Qed.

Lemma highs_above x : x ∈ hi → cmp k (key_slice sl x) = Lt.
Proof using Hnew.
  intros [Hx Hge]%highs_in. rewrite (cmp_flip (key_slice sl x) k). destruct (cmp (key_slice sl x) k) eqn:E; [|done|done].
  apply cmp_eq in E. by apply Hnew in Hx.
Qed.

Lemma splice_content : content sl3 ord' = om_insert k (value, seq, tombstone) (content sl ord).
Proof using Hwf Hal Hh Hu Hnew.
  pose proof highs_above as Hab. rewrite (ord_split _ _ Hwf k). fold lo hi. unfold content, ord'. rewrite !fmap_app, fmap_cons. destruct ord_new as [-> ->]. rewrite om_insert_at.
  - cbn [nd nd_value nd_sequence nd_tombstone]. f_equal; [|f_equal]; apply list_fmap_ext; intros i x Hx%list_elem_of_lookup_2.
    + apply lows_in in Hx as [Hx _]. by destruct (ord_old x Hx) as (_ & -> & ->).
    + apply highs_in in Hx as [Hx _]. by destruct (ord_old x Hx) as (_ & -> & ->).
  - apply Forall_forall. intros p (x & -> & Hx)%list_elem_of_fmap. by apply lows_in in Hx as [_ Hx].
  - clear -Hab. intros p b' Hp. destruct hi as [|x h']; [done|]. injection Hp as <- _. apply Hab. left.
Qed.

Lemma splice_chain l : (l < MAX_LEVEL)%nat → chain (λ x, next sl3 x l) 0 (at_level sl3 l ord').
Proof using Hwf Hal Hh Hu.
  intros Hl. pose proof (wf_chain _ _ Hwf l Hl) as Hc. rewrite (at_level_split sl ord Hwf k) in Hc. fold lo hi in Hc.
  assert (∀ ns, (∀ x, x ∈ ns → x ∈ ord) → at_level sl3 l ns = at_level sl l ns) as Hat.
  { intros ns Hns. apply filter_ext_in. intros x Hx. unfold tall. by destruct (ord_old x (Hns x Hx)) as (_ & -> & _). }
  assert (∀ x, x ∈ lo ++ hi → x ∈ ord) as Hsub by (intros x Hx; by rewrite (ord_split _ _ Hwf k)).
  unfold ord', at_level. rewrite filter_app, filter_cons. fold (at_level sl3 l lo) (at_level sl3 l hi).
  rewrite !Hat by (intros x Hx; apply Hsub, elem_of_app; tauto). destruct splice_ok as (_ & _ & _ & _ & _ & Hnx).
  assert (∀ y, y = 0 ∨ y ∈ at_level sl l lo ++ at_level sl l hi → 0 ≤ y < new) as Hv.
  { intros y [->|Hy]; [destruct (pred_valid 0) as [? _]; lia|]. apply ord_old, Hsub. unfold at_level in Hy.
    rewrite elem_of_app in *. rewrite !list_elem_of_filter in Hy. tauto. }
  assert (∀ y, 0 ≤ y < new → next sl1 y l = next sl y l) as Hold by (intros y Hy; by destruct (alloc_old y Hy) as (_ & _ & ->)).
  destruct (pred_valid l) as [Hpv _]. destruct ord_new as [Hnd _].
  destruct (decide (tall sl3 l new)) as [Hlh|Hlh]; unfold tall in Hlh; rewrite Hnd in Hlh; cbn [nd height] in Hlh.
  - eapply chain_splice; [exact Hc|..].
    + rewrite <-(at_level_split sl ord Hwf k). pose proof (ord_NoDup _ _ Hwf) as Hnd'. apply NoDup_cons in Hnd' as [H0 Hnd'].
      constructor; [intros Hin; apply H0; by apply (at_level_sub sl l)|by apply NoDup_filter].
    + intros [->|Hin]%elem_of_cons; [|specialize (Hv _ (or_intror Hin)); lia]. specialize (Hv 0 (or_introl eq_refl)). lia.
    + pose proof (wf_sizes _ _ Hwf) as (? & _ & _). pose proof (al_room _ _ _ _ _ _ _ Hal) as [? _]. unfold NONE_VALUE, U32_MAX in *. subst new. lia.
    + change (last_of 0 (at_level sl l lo)) with (pred sl ord k l). rewrite splice_next, Hnx by lia. by rewrite !decide_True.
    + change (last_of 0 (at_level sl l lo)) with (pred sl ord k l). rewrite splice_next, Hnx by lia. rewrite (decide_True (P := Z.of_nat l < h)) by done.
      by rewrite decide_False, decide_True by lia.
    + change (last_of 0 (at_level sl l lo)) with (pred sl ord k l). intros y Hy1 Hy2. specialize (Hv y ltac:(by apply elem_of_cons)). rewrite splice_next, Hnx by lia.
      rewrite (decide_True (P := Z.of_nat l < h)) by done. rewrite decide_False, decide_False by (done || lia). by apply Hold.
  - eapply chain_ext; [|exact Hc]. intros y Hy. specialize (Hv y Hy). rewrite splice_next, Hnx by lia. rewrite decide_False by done. by apply Hold.
Qed.

Lemma splice_wf : live = count_tomb sl3 false ord' → tomb = count_tomb sl3 true ord' → sl_wf sl3 ord'.
Proof using Hwf Hal Hh Hu Hnew Hk.
  intros Hl Ht. destruct splice_ok as ([G0 G1] & G2 & G3 & G4 & G5 & _). pose proof (wf_level _ _ Hwf) as Hlev.
  assert (nodes sl3 = nodes sl1 ∧ keys sl3 = keys sl1 ∧ links sl3 = links sl2 ∧ level sl3 = Z.max (level sl) h) as (N1 & N2 & N3 & N4).
  { pose proof (al_rest _ _ _ _ _ _ _ Hal) as (Hle & _). unfold sl3. destruct (level sl <? h) eqn:E; cbn [with_counts with_level nodes keys links level].
    - apply Z.ltb_lt in E. split_and!; try done. lia.
    - apply Z.ltb_ge in E. rewrite G5, Hle. split_and!; try done. lia. }
  pose proof (al_room _ _ _ _ _ _ _ Hal) as [R1 R2]. pose proof (zlen_nonneg k).
  assert (zlen (links sl3) = zlen (links sl) + h) as Hzl.
  { rewrite N3, G4, (al_links _ _ _ _ _ _ _ Hal), zlen_app. unfold zlen at 2. rewrite length_replicate. lia. }
  assert (zlen (nodes sl3) = zlen (nodes sl) + 1) as Hzn by (rewrite N1, (al_nodes _ _ _ _ _ _ _ Hal), zlen_app; done).
  assert (zlen (keys sl3) = zlen (keys sl) + zlen k) as Hzk by (rewrite N2, (al_keys _ _ _ _ _ _ _ Hal), zlen_app; done).
  pose proof (wf_sizes _ _ Hwf) as (S1 & S2 & S3). destruct ord_new as [Hnd Hks]. split.
  - rewrite N1, (al_nodes _ _ _ _ _ _ _ Hal), lookup_app_l; [apply Hwf|]. apply (lookup_lt_Some _ _ _ (wf_head _ _ Hwf)).
  - rewrite Hzn, Hzl, Hzk. unfold U32_MAX in *. lia.
  - lia.
  - intros i n. rewrite N1, <-G2. intros Hi. destruct (G0 i n Hi) as [M1 M2 M3]. split; rewrite ?N3, ?N2, <-?G3; done.
  - intros x [->|Hx]%old_in_ord'.
    + rewrite Hnd, Hks. cbn [nd height key_prefix]. split_and!; [lia|done|done].
    + destruct (ord_old x Hx) as (_ & -> & ->). destruct (wf_inner _ _ Hwf x Hx) as (? & ? & ?). split_and!; [lia|done|done].
  - intros i j n m. rewrite N1, <-G2. apply G1.
  - intros x. rewrite old_in_ord', Hzn, (wf_ord _ _ Hwf). pose proof (lookup_lt_Some _ _ _ (wf_head _ _ Hwf)). subst new. unfold zlen in *. lia.
  - pose proof highs_above as Hab. pose proof (wf_sorted _ _ Hwf) as Hs. rewrite (ord_split _ _ Hwf k) in Hs. fold lo hi in Hs.
    assert (∀ x, x ∈ lo ++ hi → x ∈ ord) as Hsub by (intros x Hx; by rewrite (ord_split _ _ Hwf k)).
    apply StronglySorted_app in Hs as (Hlh & Hslo & Hshi). unfold ord'. apply StronglySorted_app. split_and!.
    + intros x y Hx [->|Hy]%elem_of_cons.
      * rewrite Hks. apply lows_in in Hx as [Hx Hlt]. by destruct (ord_old x Hx) as (_ & _ & ->).
      * destruct (ord_old x) as (_ & _ & ->); [apply Hsub, elem_of_app; tauto|]. destruct (ord_old y) as (_ & _ & ->); [apply Hsub, elem_of_app; tauto|]. by apply Hlh.
    + eapply StronglySorted_weaken; [|exact Hslo]. intros x y Hx Hy Hxy. destruct (ord_old x) as (_ & _ & ->); [apply Hsub, elem_of_app; tauto|].
      by destruct (ord_old y) as (_ & _ & ->); [apply Hsub, elem_of_app; tauto|].
    + constructor.
      * eapply StronglySorted_weaken; [|exact Hshi]. intros x y Hx Hy Hxy. destruct (ord_old x) as (_ & _ & ->); [apply Hsub, elem_of_app; tauto|].
        by destruct (ord_old y) as (_ & _ & ->); [apply Hsub, elem_of_app; tauto|].
      * apply Forall_forall. intros x Hx. rewrite Hks. destruct (ord_old x) as (_ & _ & ->); [apply Hsub, elem_of_app; tauto|]. by apply Hab.
  - intros l. apply splice_chain.
  - done.
  - done.
Qed.

Lemma splice_count b : count_tomb sl3 b ord' = count_tomb sl b ord + (if decide (tombstone = b) then 1 else 0).
Proof using Hwf Hal Hh Hu.
  assert (∀ x, x ∈ lo ++ hi → x ∈ ord) as Hsub by (intros x Hx; by rewrite (ord_split _ _ Hwf k)).
  assert (∀ ns, (∀ x, x ∈ ns → x ∈ ord) → count_tomb sl3 b ns = count_tomb sl b ns) as Hc.
  { intros ns Hns. unfold count_tomb. f_equal. apply filter_ext_in. intros x Hx. by destruct (ord_old x (Hns x Hx)) as (_ & -> & _). }
  rewrite (ord_split _ _ Hwf k). fold lo hi. unfold ord', count_tomb. rewrite !filter_app, filter_cons, !zlen_app.
  fold (count_tomb sl3 b lo) (count_tomb sl b lo) (count_tomb sl3 b hi) (count_tomb sl b hi).
  rewrite (Hc lo) by (intros x Hx; apply Hsub, elem_of_app; tauto). rewrite <-(Hc hi) by (intros x Hx; apply Hsub, elem_of_app; tauto).
  destruct ord_new as [Hnd _]. unfold count_tomb at 3.
  destruct (decide (nd_tombstone (node_at sl3 new) = b)) as [Hd|Hd]; rewrite Hnd in Hd; cbn [nd nd_tombstone] in Hd;
    [rewrite decide_True by done|rewrite decide_False by done]; rewrite ?zlen_cons; lia.
Qed.
End splice.

(** ** The operations refine those of a map *)

Lemma to_head_lookup n : ∀ from update l, (from + n ≤ length update)%nat →
  to_head n from update !! l = if decide (from ≤ l < from + n)%nat then Some 0 else update !! l.
Proof using.
  induction n as [|n IH]; intros from update l Hl; cbn [to_head]; [by rewrite decide_False by lia|].
  rewrite IH by (rewrite length_insert; lia). destruct (decide (l = from)) as [->|Hne].
  - rewrite decide_False, decide_True by lia. apply list_lookup_insert_eq. lia.
  - rewrite list_lookup_insert_ne by done. destruct (decide (S from ≤ l < S from + n)%nat).
    + by rewrite decide_True by lia.
    + by rewrite decide_False by lia.
Qed.

Lemma with_rng_fields sl r : (∀ x, node_at (with_rng sl r) x = node_at sl x) ∧ (∀ x, key_slice (with_rng sl r) x = key_slice sl x).
Proof using. done. Qed.

(** A new key: the list grows by it, or is full and holds what it held. *)
Lemma splice_new_ok sl ord k value tombstone seq update : sl_wf sl ord → Forall byte k →
  length update = MAX_LEVEL → (∀ l, (l < MAX_LEVEL)%nat → update !! l = Some (pred sl ord k l)) → (∀ x, x ∈ ord → key_slice sl x ≠ k) →
  match splice_new_node sl k value tombstone seq update with
  | (false, sl') => sl_wf sl' ord ∧ content sl' ord = content sl ord
  | (true, sl') => no_live_nodes sl' = no_live_nodes sl ∧ no_tombstone_nodes sl' = no_tombstone_nodes sl ∧
      ∃ ord', sl_wf (with_counts sl' (no_live_nodes sl + (if tombstone then 0 else 1)) (no_tombstone_nodes sl + (if tombstone then 1 else 0))) ord' ∧
        content sl' ord' = om_insert k (value, seq, tombstone) (content sl ord)
  end.
Proof using.
  intros Hwf Hk Hlen Hu Hnew. unfold splice_new_node. destruct (random_level_ok sl) as (h & r & -> & Hh).
  pose proof (with_rng_wf sl ord r Hwf) as Hwr. pose proof (wf_level _ _ Hwf) as Hlev. cbn [level with_rng].
  set (update' := if level sl <? h then _ else update).
  assert (∀ l, (l < MAX_LEVEL)%nat → update' !! l = Some (pred (with_rng sl r) ord k l)) as Hu'.
  { intros l Hl. change (pred (with_rng sl r) ord k l) with (pred sl ord k l). unfold update'. destruct (level sl <? h) eqn:E; [|by apply Hu].
    apply Z.ltb_lt in E. rewrite to_head_lookup by (rewrite Hlen; unfold MAX_LEVEL; lia). case_decide as Hd; [|by apply Hu].
    unfold pred. pose proof (at_level_high sl ord Hwf l ltac:(lia)) as He. rewrite (at_level_split sl ord Hwf k) in He.
    by apply app_eq_nil in He as [-> _]. }
  pose proof (allocate_ok (with_rng sl r) ord k value tombstone seq h Hwr Hh) as Ha.
  destruct (allocate_node _ k value tombstone seq h) as [[n|] sl1]; [|done]. destruct Ha as [-> Hal].
  pose proof (al_rest _ _ _ _ _ _ _ Hal) as (Hl1 & Hl2 & Hl3). cbn [with_rng level no_live_nodes no_tombstone_nodes] in Hl1, Hl2, Hl3.
  destruct (splice_levels_ok (Z.to_nat h) 0 sl1 (zlen (nodes (with_rng sl r))) update') as (_ & _ & _ & _ & C0 & C1 & C2 & _).
  { eapply alloc_arenas; [exact Hwr|exact Hh|exact Hal]. }
  { rewrite (al_nodes _ _ _ _ _ _ _ Hal), zlen_app. pose proof (zlen_nonneg (nodes (with_rng sl r))). change (zlen [_]) with 1. lia. }
  { destruct (alloc_new _ _ Hwr _ _ _ _ _ _ Hal) as [-> _]. cbn [height]. lia. }
  { intros j Hj. exists (pred (with_rng sl r) ord k j). destruct (pred_valid _ _ Hwr k j) as [Hv Ht].
    destruct (alloc_old _ _ Hwr _ _ _ _ _ _ Hal _ Hv) as (-> & _). rewrite (al_nodes _ _ _ _ _ _ _ Hal), zlen_app. change (zlen [_]) with 1.
    split_and!; [apply Hu'; unfold MAX_LEVEL; lia|lia|lia|lia|apply Ht; lia]. }
  rewrite C0, Hl1. split_and!.
  - destruct (level sl <? h); cbn [with_level no_live_nodes]; congruence.
  - destruct (level sl <? h); cbn [with_level no_tombstone_nodes]; congruence.
  - eexists. split.
    + eapply (splice_wf (with_rng sl r) ord Hwr k Hk value tombstone seq h Hh sl1 Hal update' Hu' Hnew).
      * rewrite (splice_count _ _ Hwr k value tombstone seq h Hh sl1 Hal update' Hu'). change (count_tomb (with_rng sl r) false ord) with (count_tomb sl false ord).
        rewrite <-(wf_live _ _ Hwf). by destruct tombstone.
      * rewrite (splice_count _ _ Hwr k value tombstone seq h Hh sl1 Hal update' Hu'). change (count_tomb (with_rng sl r) true ord) with (count_tomb sl true ord).
        rewrite <-(wf_tomb _ _ Hwf). by destruct tombstone.
    + apply (splice_content (with_rng sl r) ord Hwr k value tombstone seq h Hh sl1 Hal update' Hu' Hnew 0 0).
Qed.
End spec.
