(* ===== verification/MemTable.v ===== *)
(** * MemTable: what the tree asks of its table in memory

    The interface between the tree and its active memtable, and the skip list's proof
    that it provides it: an ordered map where the highest sequence wins. *)
From S2P Require Import Prelude OrdMap Bytes Slices Keys SsTable SkipList SkipListSpec.

(** A key's value, sequence and tombstone. *)
Abbreviation copy := (Z * Z * bool)%type.

Class MemTable (M : Type) := {
  mem_new : Z → M;
  mem_entry : M → key → option copy;
  mem_insert : M → key → Z → Z → result (option Z) unit * M;
  mem_delete : M → key → Z → result unit unit * M;
  mem_live : M → Z;
  mem_tombstones : M → Z;
  mem_capacity : M → Z;
  mem_can_insert : M → key → bool;
  mem_half_full : M → bool;
  mem_records : M → list KeyValueRecord;
  mem_iter : M → list KeyValueRecord;
  mem_iter_from : M → key → list KeyValueRecord }.

Definition record_of (p : key * copy) : KeyValueRecord := mk_record p.1 p.2.1.1 p.2.2 p.2.1.2.

(** Highest sequence wins; a tombstone keeps the value it covers. *)
Definition put_copy (k : key) (value seq : Z) (m : ordmap key copy) : ordmap key copy :=
  match om_get k m with
  | Some (_, s, _) => if s <=? seq then om_insert k (value, seq, false) m else m
  | None => om_insert k (value, seq, false) m
  end.
Definition delete_copy (k : key) (seq : Z) (m : ordmap key copy) : ordmap key copy :=
  match om_get k m with
  | Some (v, s, _) => if s <=? seq then om_insert k (v, seq, true) m else m
  | None => om_insert k (0, seq, true) m
  end.

Class MemTableLaws (M : Type) `{MemTable M} := {
  mem_wf : M → Prop;
  mem_content : M → ordmap key copy;
  mem_new_ok c : mem_wf (mem_new c) ∧ mem_content (mem_new c) = [];
  mem_content_wf m : mem_wf m → om_wf (mem_content m);
  mem_content_byte m k c : mem_wf m → (k, c) ∈ mem_content m → Forall byte k;
  mem_entry_ok m k : mem_wf m → Forall byte k → mem_entry m k = om_get k (mem_content m);
  mem_insert_ok m k value seq : mem_wf m → Forall byte k →
    let (r, m') := mem_insert m k value seq in
    mem_wf m' ∧ mem_content m' = (if is_ok r then put_copy k value seq (mem_content m) else mem_content m);
  mem_delete_ok m k seq : mem_wf m → Forall byte k →
    let (r, m') := mem_delete m k seq in
    mem_wf m' ∧ mem_content m' = (if is_ok r then delete_copy k seq (mem_content m) else mem_content m);
  mem_records_ok m : mem_wf m → mem_records m = record_of <$> filter (λ p, p.1 ≠ []) (mem_content m);
  mem_iter_ok m : mem_wf m → mem_iter m = record_of <$> mem_content m;
  mem_iter_from_ok m k : mem_wf m → Forall byte k → mem_iter_from m k = record_of <$> filter (λ p, key_le k p.1 = true) (mem_content m);
  mem_counts m : mem_wf m → mem_live m + mem_tombstones m = zlen (mem_content m) ∧ 0 ≤ mem_live m ∧ 0 ≤ mem_tombstones m;
}.

(** ** The skip list *)

Section skip_list.
Context `{CompareCpu}.

#[global] Instance skip_list_memtable : MemTable SkipList := {
  mem_new := with_capacity; mem_entry := entry; mem_insert := try_insert_with_seq; mem_delete := insert_tombstone_with_seq;
  mem_live := no_live_nodes; mem_tombstones := no_tombstone_nodes; mem_capacity := max_capacity;
  mem_can_insert := can_insert_key; mem_half_full := arenas_half_full;
  mem_records := collect_key_value_records; mem_iter := iter_raw; mem_iter_from := iter_raw_from }.

Definition skip_wf (sl : SkipList) : Prop := ∃ ord, sl_wf sl ord.
Definition copy_of (r : KeyValueRecord) : key * copy := (kv_key r, (kv_value r, kv_seq r, kv_tombstone r)).
Definition skip_content (sl : SkipList) : ordmap key copy := copy_of <$> iter_raw sl.

Lemma skip_content_eq sl ord : sl_wf sl ord → skip_content sl = content sl ord.
Proof using. intros Hwf. unfold skip_content. rewrite (iter_raw_ok sl ord Hwf), <-list_fmap_compose. done. Qed.

Lemma raw_record sl ns : raw sl <$> ns = record_of <$> content sl ns.
Proof using. unfold content. by rewrite <-list_fmap_compose. Qed.

Lemma filter_content sl (P : key → Prop) (Q : Z → Prop) `{∀ p : key * copy, Decision (P p.1), ∀ x, Decision (Q x)} ns :
  (∀ x, x ∈ ns → P (key_slice sl x) ↔ Q x) → filter (λ p : key * copy, P p.1) (content sl ns) = content sl (filter Q ns).
Proof using.
  intros Hpq. unfold content, ordmap. induction ns as [|x ns IH]; [done|]. rewrite fmap_cons, !filter_cons, IH by (intros y Hy; apply Hpq; by right).
  pose proof (Hpq x (list_elem_of_here x ns)). cbn [fst]. repeat case_decide; tauto.
Qed.

Lemma with_capacity_wf c : sl_wf (with_capacity c) [].
Proof using.
  split; try done.
  - intros i n [-> <-]%list_lookup_singleton_Some. split; [done|done|]. done.
  - intros x Hx. by apply elem_of_nil in Hx.
  - intros i j n m Hij [-> <-]%list_lookup_singleton_Some [-> <-]%list_lookup_singleton_Some. lia.
  - intros x. rewrite elem_of_nil. cbn. change (zlen [head_node]) with 1. lia.
  - constructor.
  - intros l Hl. cbn [chain at_level]. change (chain (λ x, next (with_capacity c) x l) 0 []). cbn [chain]. unfold next. change (node_at (with_capacity c) 0) with head_node.
    cbn [head_node height links_index_offset]. destruct (32 <=? Z.of_nat l) eqn:E; [done|]. rewrite Z.add_0_l, Nat2Z.id. cbn [with_capacity links]. by rewrite lookup_replicate_2.
Qed.

Lemma set_update_ok sl ord k idx n' live tomb : sl_wf sl ord → idx ∈ ord → key_slice sl idx = k → same_shape (node_at sl idx) n' →
  live = no_live_nodes sl + (if nd_tombstone n' then 0 else 1) - (if nd_tombstone (node_at sl idx) then 0 else 1) →
  tomb = no_tombstone_nodes sl + (if nd_tombstone n' then 1 else 0) - (if nd_tombstone (node_at sl idx) then 1 else 0) →
  skip_wf (with_counts (set_node sl idx n') live tomb) ∧
  skip_content (with_counts (set_node sl idx n') live tomb) = om_insert k (nd_value n', nd_sequence n', nd_tombstone n') (skip_content sl).
Proof using.
  intros Hwf Hidx Hks Hs Hl Ht. assert (sl_wf (with_counts (set_node sl idx n') live tomb) ord) as Hwf'.
  { apply set_node_wf; [done|done|done|..]; rewrite (set_node_count _ _ Hwf _ Hidx _ Hs).
    - rewrite Hl, (wf_live _ _ Hwf). by destruct (nd_tombstone n'), (nd_tombstone (node_at sl idx)).
    - rewrite Ht, (wf_tomb _ _ Hwf). by destruct (nd_tombstone n'), (nd_tombstone (node_at sl idx)). }
  split; [by exists ord|]. rewrite (skip_content_eq _ _ Hwf'), (skip_content_eq _ _ Hwf), <-Hks. by apply set_node_content.
Qed.

(** A key that is there, or the path to where it goes. *)
Lemma find_cases sl ord k : sl_wf sl ord → Forall byte k →
  (∃ idx update, find_path sl k = (Some idx, update) ∧ idx ∈ ord ∧ key_slice sl idx = k ∧
     om_get k (skip_content sl) = Some (nd_value (node_at sl idx), nd_sequence (node_at sl idx), nd_tombstone (node_at sl idx))) ∨
  (∃ update, find_path sl k = (None, update) ∧ om_get k (skip_content sl) = None ∧ length update = MAX_LEVEL ∧
     (∀ l, (l < MAX_LEVEL)%nat → update !! l = Some (pred sl ord k l)) ∧ ∀ x, x ∈ ord → key_slice sl x ≠ k).
Proof using.
  intros Hwf Hk. pose proof (entry_content sl ord Hwf k Hk) as He. rewrite <-(skip_content_eq _ _ Hwf) in He.
  destruct (find_path_ok sl ord Hwf k Hk) as (update & Hlen & Hu & _ & Hf).
  destruct (find_path sl k) as [[idx|] update'] eqn:E; injection Hf as Hf <-.
  - left. assert ((find_path sl k).1 = Some idx) as Hfst by (by rewrite E). apply (find_path_found sl ord Hwf k Hk) in Hfst as [Hin Hks].
    exists idx, update'. split_and!; [done|done|done|]. rewrite <-He. unfold entry. by rewrite E.
  - right. exists update'. split_and!; [done| |done|done|].
    + rewrite <-He. unfold entry. by rewrite E.
    + intros x Hx Hks. assert ((find_path sl k).1 = Some x) as Hfst by (by apply (find_path_found sl ord Hwf k Hk)). by rewrite E in Hfst.
Qed.

Lemma splice_insert_ok sl ord k value tombstone seq update : sl_wf sl ord → Forall byte k → length update = MAX_LEVEL →
  (∀ l, (l < MAX_LEVEL)%nat → update !! l = Some (pred sl ord k l)) → (∀ x, x ∈ ord → key_slice sl x ≠ k) →
  match splice_new_node sl k value tombstone seq update with
  | (false, sl') => skip_wf sl' ∧ skip_content sl' = skip_content sl
  | (true, sl') =>
      let sl'' := with_counts sl' (no_live_nodes sl' + (if tombstone then 0 else 1)) (no_tombstone_nodes sl' + (if tombstone then 1 else 0)) in
      skip_wf sl'' ∧ skip_content sl'' = om_insert k (value, seq, tombstone) (skip_content sl)
  end.
Proof using.
  intros Hwf Hk Hlen Hu Hnew. pose proof (splice_new_ok sl ord k value tombstone seq update Hwf Hk Hlen Hu Hnew) as Hs.
  destruct (splice_new_node _ _ _ _ _ _) as [[|] sl'].
  - destruct Hs as (-> & -> & ord' & Hwf' & Hc). split; [by exists ord'|]. rewrite (skip_content_eq _ _ Hwf'), (skip_content_eq _ _ Hwf), <-Hc. done.
  - destruct Hs as [Hwf' Hc]. split; [by exists ord|]. by rewrite (skip_content_eq _ _ Hwf'), (skip_content_eq _ _ Hwf).
Qed.

Lemma count_tomb_pos sl ord b idx : sl_wf sl ord → idx ∈ ord → nd_tombstone (node_at sl idx) = b → 1 ≤ count_tomb sl b ord.
Proof using.
  intros Hwf Hin Hb. unfold count_tomb. assert (idx ∈ filter (λ x, nd_tombstone (node_at sl x) = b) ord) as Hf by (by apply list_elem_of_filter).
  destruct (filter _ ord) as [|y l]; [by apply elem_of_nil in Hf|]. rewrite zlen_cons. pose proof (zlen_nonneg l). lia.
Qed.

Lemma skip_insert_ok sl k value seq : skip_wf sl → Forall byte k →
  let (r, sl') := try_insert_with_seq sl k value seq in
  skip_wf sl' ∧ skip_content sl' = (if is_ok r then put_copy k value seq (skip_content sl) else skip_content sl).
Proof using.
  intros [ord Hwf] Hk. unfold try_insert_with_seq, put_copy. destruct (find_cases sl ord k Hwf Hk) as [(idx & u & -> & Hin & Hks & ->)|(u & -> & -> & Hlen & Hu & Hnew)].
  - unfold seq_is_newer_or_equal. destruct (nd_sequence (node_at sl idx) <=? seq); cbn [negb]; [|split; [by exists ord|done]].
    destruct (nd_tombstone (node_at sl idx)) eqn:Et; cbn [is_ok].
    + pose proof (count_tomb_pos sl ord true idx Hwf Hin Et) as Hp. rewrite <-(wf_tomb _ _ Hwf) in Hp.
      apply set_update_ok with (ord := ord); [done|done|done|done|..]; rewrite Et; cbn [node_written nd_tombstone set_node no_live_nodes no_tombstone_nodes]; lia.
    + change (set_node sl idx (node_written (node_at sl idx) value seq)) with
        (with_counts (set_node sl idx (node_written (node_at sl idx) value seq)) (no_live_nodes sl) (no_tombstone_nodes sl)).
      apply set_update_ok with (ord := ord); [done|done|done|done|..]; rewrite Et; cbn [node_written nd_tombstone]; lia.
  - pose proof (splice_insert_ok sl ord k value false seq u Hwf Hk Hlen Hu Hnew) as Hs.
    destruct (splice_new_node _ _ _ _ _ _) as [[|] sl']; cbn [is_ok]; [|done]. cbv zeta in Hs. by rewrite Z.add_0_r in Hs.
Qed.

Lemma skip_delete_ok sl k seq : skip_wf sl → Forall byte k →
  let (r, sl') := insert_tombstone_with_seq sl k seq in
  skip_wf sl' ∧ skip_content sl' = (if is_ok r then delete_copy k seq (skip_content sl) else skip_content sl).
Proof using.
  intros [ord Hwf] Hk. unfold insert_tombstone_with_seq, delete_copy. destruct (find_cases sl ord k Hwf Hk) as [(idx & u & -> & Hin & Hks & ->)|(u & -> & -> & Hlen & Hu & Hnew)].
  - unfold seq_is_newer_or_equal. destruct (nd_sequence (node_at sl idx) <=? seq); cbn [negb]; [|split; [by exists ord|done]].
    destruct (nd_tombstone (node_at sl idx)) eqn:Et; cbn [is_ok negb].
    + change (set_node sl idx (node_deleted (node_at sl idx) seq)) with
        (with_counts (set_node sl idx (node_deleted (node_at sl idx) seq)) (no_live_nodes sl) (no_tombstone_nodes sl)).
      apply set_update_ok with (ord := ord) (n' := node_deleted (node_at sl idx) seq); [done|done|done|done|..]; rewrite Et; cbn [node_deleted nd_tombstone]; lia.
    + apply set_update_ok with (ord := ord) (n' := node_deleted (node_at sl idx) seq); [done|done|done|done|..]; rewrite Et;
        cbn [node_deleted nd_tombstone set_node no_live_nodes no_tombstone_nodes]; lia.
  - pose proof (splice_insert_ok sl ord k 0 true seq u Hwf Hk Hlen Hu Hnew) as Hs.
    destruct (splice_new_node _ _ _ _ _ _) as [[|] sl']; cbn [is_ok]; [|done]. cbv zeta in Hs. by rewrite Z.add_0_r in Hs.
Qed.

#[global] Program Instance skip_list_laws : MemTableLaws SkipList := { mem_wf := skip_wf; mem_content := skip_content }.
Next Obligation. intros c. split; [exists []; apply with_capacity_wf|]. change (skip_content (with_capacity c) = []). by rewrite (skip_content_eq _ _ (with_capacity_wf c)). Qed.
Next Obligation. intros sl [ord Hwf]. rewrite (skip_content_eq _ _ Hwf). by apply content_wf. Qed.
Next Obligation.
  intros sl k c [ord Hwf] Hin. rewrite (skip_content_eq _ _ Hwf) in Hin. apply elem_of_content in Hin as (x & Hx & [= -> _]).
  by destruct (wf_inner _ _ Hwf x Hx) as (_ & ? & _).
Qed.
Next Obligation. intros sl k [ord Hwf] Hk. rewrite (skip_content_eq _ _ Hwf). by apply (entry_content sl ord). Qed.
Next Obligation. intros sl k value seq. apply skip_insert_ok. Qed.
Next Obligation. intros sl k seq. apply skip_delete_ok. Qed.
Next Obligation.
  intros sl [ord Hwf]. rewrite (skip_content_eq _ _ Hwf). change (mem_records sl) with (collect_key_value_records sl).
  rewrite (collect_ok sl ord Hwf), raw_record. f_equal. symmetry. apply (filter_content sl (λ k, k ≠ []) (λ x, key_length (node_at sl x) ≠ 0)). intros x Hx.
  apply (ord_valid _ _ Hwf) in Hx as [Hx _]. destruct (node_valid _ _ Hwf x) as (n & _ & Hn & [_ _ Hr]); [lia|].
  pose proof (bread_length _ _ _ Hr) as Hz. unfold key_slice. rewrite Hn, <-(zlen_0_nil (bread _ _ _)), Hz. done.
Qed.
Next Obligation. intros sl [ord Hwf]. rewrite (skip_content_eq _ _ Hwf), <-raw_record. by apply iter_raw_ok. Qed.
Next Obligation.
  intros sl k [ord Hwf] Hk. rewrite (skip_content_eq _ _ Hwf). change (mem_iter_from sl k) with (iter_raw_from sl k).
  rewrite (iter_raw_from_ok sl ord Hwf k Hk), raw_record. f_equal. symmetry. apply (filter_content sl (λ k', key_le k k' = true) (λ x, ¬ before sl k x)). intros x Hx.
  unfold before. apply key_le_spec.
Qed.
Next Obligation.
  intros sl [ord Hwf]. rewrite (skip_content_eq _ _ Hwf). cbn. rewrite (wf_live _ _ Hwf), (wf_tomb _ _ Hwf). unfold count_tomb, content.
  split_and!; [|apply zlen_nonneg|apply zlen_nonneg]. rewrite zlen_fmap. clear. induction ord as [|x ord IH]; [done|].
  rewrite !filter_cons, (zlen_cons x ord). destruct (nd_tombstone (node_at sl x)) eqn:E; repeat case_decide; try done; rewrite zlen_cons; lia.
Qed.
End skip_list.
