(* ===== verification/LsmTree.v ===== *)
(** * LsmTree: the tree's layers and its point operations

    [LSMTree] of [src/minnal_db/src/store/lsm/lsm_tree.rs]: an active memtable, read-only
    memtables, and per bucket the Level-0 files and one Level-1 file.  The vectors the
    source indexes by bucket are one list of [Bucket]s here.  A [World] is a tree and the
    files of its directory; what the operating system and the flush observer answer are
    arguments.  Metrics are left out. *)
From S2P Require Import Prelude OrdMap Bytes Slices Keys LsmFilters SsTable SkipList MemTable.

(** ** State *)

Record L0Summary := mk_summary {
  s0_min_key : key; s0_max_key : key; s0_max_seq : Z; s0_entries : Z; s0_bloom : BloomFilter; s0_index : option SparseIndex }.

(** A Level-0 file is named by its stamp, within its bucket's directory. *)
Record L0FileEntry := mk_l0 {
  l0_name : Z; created_at_ms : Z; l0_summary : option L0Summary; reader_count : Z; obsolete : bool }.

Record ReadOnlyMemTable := mk_ro { ro_records : list KeyValueRecord; ro_readers : Z; ro_version : Z; flushed_to_level0 : bool }.

Record Bucket := mk_bucket {
  sstable_file : region;                       (* what the open handle reads *)
  sstable_metadata : list SStableMetadata; sstable_bloom : option BloomFilter; sstable_index : option SparseIndex;
  level0_files : list L0FileEntry; compaction_in_progress : bool }.

Record LSMConfig := mk_config { compaction_threshold_percent : Z; num_buckets : Z; skip_list_capacity : Z }.

Record LSMTree (M : Type) := mk_tree {
  memtable : M; read_only_memtables : list ReadOnlyMemTable; buckets : list Bucket; max_lower_seq : Z;
  ro_memtable_version : Z; pending_old_memtables : list ReadOnlyMemTable; last_l0_stamp : Z; config : LSMConfig }.
#[global] Arguments mk_tree {M}.
#[global] Arguments memtable {M}.
#[global] Arguments read_only_memtables {M}.
#[global] Arguments buckets {M}.
#[global] Arguments max_lower_seq {M}.
#[global] Arguments ro_memtable_version {M}.
#[global] Arguments pending_old_memtables {M}.
#[global] Arguments last_l0_stamp {M}.
#[global] Arguments config {M}.

(** The directory: Level-0 files by bucket and stamp (finished and unfinished), Level-1
    files by bucket. *)
Record LsmDisk := mk_disk { disk_l0 : gmap (Z * Z) region; disk_l0_tmp : gmap (Z * Z) region; disk_l1 : gmap Z region }.

(** What a flush observer is told. *)
Inductive LsmEvent := Sealed (version : Z) | Flushing (version : Z) | Written (version : Z) | FlushedToLevel0 (version : Z).

Record World (M : Type) := mk_world { tree : LSMTree M; disk : LsmDisk; events : list LsmEvent }.
#[global] Arguments mk_world {M}.
#[global] Arguments tree {M}.
#[global] Arguments disk {M}.
#[global] Arguments events {M}.

Definition L0_COMPACTION_MAX_FILES : nat := 8.
Definition L0_COMPACTION_RATIO_PERCENT : Z := 10.

(** Stable sorting by an integer key, as [sort_by_key]. *)
Fixpoint insert_by {A} (f : A → Z) (x : A) (l : list A) : list A :=
  match l with [] => [x] | y :: l' => if f x <=? f y then x :: l else y :: insert_by f x l' end.
Definition sort_by_key {A} (f : A → Z) (l : list A) : list A := foldr (insert_by f) [] l.

(** A copy of a key: a pointer, or [None] for a tombstone, with its sequence. *)
Abbreviation versioned := (option Z * Z)%type.
Abbreviation Candidate := (option versioned).

(** [merge_candidate]: fed newest layer first. *)
Definition merge_candidate (best : Candidate) (value : option Z) (seq : Z) : Candidate :=
  match best with
  | Some (_, b) => if seq_newer seq b then Some (value, seq) else best
  | None => Some (value, seq)
  end.

(** ** Level-0 files *)

Section files.
Context `{Murmur3}.

(** [L0Summary::of_sorted]: from the keys and sequences of a file. *)
Definition of_sorted (records : list (key * Z)) : option L0Summary :=
  match records with
  | [] => None
  | (min_key, first_seq) :: rest =>
      let '(max_key, max_seq) := foldl (λ acc r, (r.1, if seq_newer r.2 acc.2 then r.2 else acc.2)) (min_key, first_seq) rest in
      Some (mk_summary min_key max_key max_seq (zlen records) (bloom_build (records.*1) (zlen records)) None)
  end.

Definition may_contain (f : L0FileEntry) (k : key) : bool :=
  match l0_summary f with
  | None => true
  | Some s => key_le (s0_min_key s) k && key_le k (s0_max_key s) && bloom_contains (s0_bloom s) k
  end.
Definition cannot_beat (f : L0FileEntry) (seq : Z) : bool :=
  match l0_summary f with None => false | Some s => seq_newer_or_eq seq (s0_max_seq s) end.
Definition scan_start (f : L0FileEntry) (k : key) : Z :=
  match l0_summary f with
  | None => 0
  | Some s => from_option (λ i, block_start i k) 0 (s0_index s)
  end.
Definition mark_obsolete (f : L0FileEntry) : L0FileEntry :=
  mk_l0 (l0_name f) (created_at_ms f) (l0_summary f) (reader_count f) true.

(** [increment_readers] and [decrement_readers]. *)
Definition add_readers (n : Z) (f : L0FileEntry) : L0FileEntry :=
  mk_l0 (l0_name f) (created_at_ms f) (l0_summary f) (reader_count f + n) (obsolete f).
End files.

(** ** Read-only memtables *)

Definition ro_find (ro : ReadOnlyMemTable) (k : key) : option KeyValueRecord :=
  match binary_search_by (λ r, cmp (kv_key r) k) (ro_records ro) with Ok i => ro_records ro !! i | Err _ => None end.

Section tree.
Context `{Crc, RkyvSst, Murmur3} {M : Type} `{MemTable M}.
Local Open Scope minnal_scope.

Definition bucket_of (t : LSMTree M) (k : key) : Z := get_bucket_for_key k (num_buckets (config t)).
Definition bucket_at (t : LSMTree M) (b : Z) : Bucket := default (mk_bucket [] [] None None [] false) (buckets t !! Z.to_nat b).

Definition with_bucket (t : LSMTree M) (b : Z) (bk : Bucket) : LSMTree M :=
  mk_tree (memtable t) (read_only_memtables t) (<[Z.to_nat b := bk]> (buckets t)) (max_lower_seq t)
    (ro_memtable_version t) (pending_old_memtables t) (last_l0_stamp t) (config t).
Definition with_memtable (t : LSMTree M) (m : M) : LSMTree M :=
  mk_tree m (read_only_memtables t) (buckets t) (max_lower_seq t)
    (ro_memtable_version t) (pending_old_memtables t) (last_l0_stamp t) (config t).
Definition with_ro (t : LSMTree M) (ros pending : list ReadOnlyMemTable) : LSMTree M :=
  mk_tree (memtable t) ros (buckets t) (max_lower_seq t) (ro_memtable_version t) pending (last_l0_stamp t) (config t).
Definition with_stamp (t : LSMTree M) (stamp : Z) : LSMTree M :=
  mk_tree (memtable t) (read_only_memtables t) (buckets t) (max_lower_seq t)
    (ro_memtable_version t) (pending_old_memtables t) stamp (config t).
Definition with_tree (w : World M) (t : LSMTree M) : World M := mk_world t (disk w) (events w).

(** A read guard taken on a file of bucket [b] ([n = 1]) or dropped ([n = -1]). *)
Definition guard_level0_file (b name n : Z) (w : World M) : World M :=
  let bk := bucket_at (tree w) b in
  with_tree w (with_bucket (tree w) b
    (mk_bucket (sstable_file bk) (sstable_metadata bk) (sstable_bloom bk) (sstable_index bk)
       ((λ f, if l0_name f =? name then add_readers n f else f) <$> level0_files bk) (compaction_in_progress bk))).

(** ** Point reads *)

(** The file at an L0 entry's path. *)
Definition l0_file (d : LsmDisk) (b : Z) (f : L0FileEntry) : result region LSMError :=
  match disk_l0 d !! (b, l0_name f) with Some file => Ok file | None => Err NotFound end.

Definition max_seq_opt (floor best : option Z) : option Z :=
  match floor, best with
  | Some f, Some b => Some (if seq_newer b f then b else f)
  | Some f, None => Some f
  | None, b => b
  end.

(** The files newest first, each skipped when its summary rules it out. *)
Fixpoint search_files (d : LsmDisk) (b : Z) (k : key) (floor : option Z) (fs : list L0FileEntry) (best : SsLookup) : result SsLookup LSMError :=
  match fs with
  | [] => Ok best
  | f :: fs =>
      if obsolete f then search_files d b k floor fs best
      else if negb (may_contain f k) then search_files d b k floor fs best
      else if from_option (cannot_beat f) false (max_seq_opt floor (ss_seq best)) then search_files d b k floor fs best
      else
        let? file := l0_file d b f in
        let? hit := lookup_in_sstable_file_from file k (scan_start f k) in
        let best := match ss_seq hit with
                    | Some seq => if from_option (seq_newer seq) true (ss_seq best) then hit else best
                    | None => best
                    end in
        search_files d b k floor fs best
  end.

Definition search_level0_files (w : World M) (b : Z) (k : key) (floor : option Z) : result SsLookup LSMError :=
  search_files (disk w) b k floor (sort_by_key (λ f, - created_at_ms f) (level0_files (bucket_at (tree w) b))) Missing.

Definition lookup_level1 (w : World M) (b : Z) (k : key) (floor : option Z) : result SsLookup LSMError :=
  let bk := bucket_at (tree w) b in
  let pruned :=
    match sstable_metadata bk with
    | meta :: _ =>
        key_lt k (min_key meta) || key_lt (max_key meta) k
        || match floor, max_seq meta with Some f, Some m => seq_newer_or_eq f m | _, _ => false end
    | [] => false
    end in
  if pruned then Ok Missing
  else if from_option (λ bloom, negb (bloom_contains bloom k)) false (sstable_bloom bk) then Ok Missing
  else lookup_in_sstable_file_from (sstable_file bk) k (from_option (λ i, block_start i k) 0 (sstable_index bk)).

Definition lookup_sstable (w : World M) (b : Z) (k : key) (floor : option Z) : result SsLookup LSMError :=
  let? l0 := search_level0_files w b k floor in
  let? l1 := lookup_level1 w b k (max_seq_opt floor (ss_seq l0)) in
  Ok (match ss_seq l0, ss_seq l1 with
      | Some s0, Some s1 => if seq_newer s1 s0 then l1 else l0
      | Some _, None => l0
      | None, _ => l1
      end).

Definition merge_record (best : Candidate) (r : option KeyValueRecord) : Candidate :=
  match r with Some r => merge_candidate best (live (kv_tombstone r) (kv_value r)) (kv_seq r) | None => best end.

Definition newest_copy (w : World M) (k : key) : result Candidate LSMError :=
  let t := tree w in
  let active := mem_entry (memtable t) k in
  match active with
  | Some (value, seq, tombstone) =>
      if seq_newer_or_eq seq (max_lower_seq t) then Ok (Some (live tombstone value, seq))
      else
        let best := merge_candidate None (live tombstone value) seq in
        let best := foldl (λ best ro, merge_record best (ro_find ro k)) best (rev (read_only_memtables t)) in
        let? hit := lookup_sstable w (bucket_of t k) k (snd <$> best) in
        Ok (match hit with Found ptr seq => merge_candidate best (Some ptr) seq | Deleted seq => merge_candidate best None seq | Missing => best end)
  | None =>
      let best := foldl (λ best ro, merge_record best (ro_find ro k)) None (rev (read_only_memtables t)) in
      let? hit := lookup_sstable w (bucket_of t k) k (snd <$> best) in
      Ok (match hit with Found ptr seq => merge_candidate best (Some ptr) seq | Deleted seq => merge_candidate best None seq | Missing => best end)
  end.

Definition get_with_seq (w : World M) (k : key) : result (option (Z * Z)) LSMError :=
  let? c := newest_copy w k in
  Ok (match c with Some (Some ptr, seq) => Some (ptr, seq) | _ => None end).
Definition get (w : World M) (k : key) : result (option Z) LSMError :=
  let? r := get_with_seq w k in Ok (fst <$> r).
Definition current_pointer_and_wins (w : World M) (k : key) (new_seq : Z) : result (option Z * bool) LSMError :=
  let? c := newest_copy w k in
  Ok (match c with Some (ptr, existing_seq) => (ptr, seq_newer_or_eq new_seq existing_seq) | None => (None, true) end).

(** ** Writes *)

Definition should_flush (t : LSMTree M) : bool :=
  let m := memtable t in
  let usage_percent := (mem_live m + mem_tombstones m) * 100 / mem_capacity m in
  (compaction_threshold_percent (config t) <=? usage_percent)
  || negb (mem_can_insert m (replicate 256 0)) || mem_half_full m.

Definition note_lower_seq (t : LSMTree M) (seq : Z) : LSMTree M :=
  mk_tree (memtable t) (read_only_memtables t) (buckets t) (if seq_newer seq (max_lower_seq t) then seq else max_lower_seq t)
    (ro_memtable_version t) (pending_old_memtables t) (last_l0_stamp t) (config t).

Definition flush_memtable (w : World M) : World M :=
  let t := tree w in
  let records := mem_records (memtable t) in
  let t := match foldl newest_seq None (kv_seq <$> records) with Some m => note_lower_seq t m | None => t end in
  let version := ro_memtable_version t in
  mk_world
    (mk_tree (mem_new (skip_list_capacity (config t))) (read_only_memtables t ++ [mk_ro records 0 version false]) (buckets t)
       (max_lower_seq t) (version + 1) (pending_old_memtables t) (last_l0_stamp t) (config t))
    (disk w) (events w ++ [Sealed version]).

Definition insert_with_seq (w : World M) (k : key) (value seq : Z) : result unit LSMError * World M :=
  let w := if should_flush (tree w) then flush_memtable w else w in
  let '(r, m) := mem_insert (memtable (tree w)) k value seq in
  (match r with Ok _ => Ok tt | Err _ => Err CapacityExceeded end, with_tree w (with_memtable (tree w) m)).

Definition delete_with_seq (w : World M) (k : key) (seq : Z) : result unit LSMError * World M :=
  let w := if should_flush (tree w) then flush_memtable w else w in
  let '(r, m) := mem_delete (memtable (tree w)) k seq in
  (match r with Ok _ => Ok tt | Err _ => Err CapacityExceeded end, with_tree w (with_memtable (tree w) m)).

(** ** Flushing to Level 0 *)

Definition U128_MAX : Z := 2 ^ 128 - 1.

Definition next_l0_stamp (t : LSMTree M) (candidate : Z) : Z * LSMTree M :=
  let stamp := Z.max candidate (Z.min U128_MAX (last_l0_stamp t + 1)) in (stamp, with_stamp t stamp).

(** What happens to one bucket's write: it fails and its temporary file is removed, or
    the file is in place but its directory could not be synced, or it is written. *)
Inductive WriteOutcome := WriteOk | WriteFailed | SyncFailed.

(** The answers of a flush: of the observer's two calls that can veto it, of the writes
    of the buckets, and of the clock. *)
Record FlushIo := mk_flush_io { flushing_ok : bool; write_bucket : Z → WriteOutcome; written_ok : bool; now_ms : Z }.

Definition entry_of (r : KeyValueRecord) : SStableEntry :=
  mk_entry (kv_key r) (key_prefix_of (kv_key r)) (kv_value r) (kv_tombstone r) (kv_seq r).

(** [sort_by(|a, b| a.key.cmp(&b.key))], stable. *)
Fixpoint insert_record (r : KeyValueRecord) (l : list KeyValueRecord) : list KeyValueRecord :=
  match l with [] => [r] | x :: l' => if key_le (kv_key r) (kv_key x) then r :: l else x :: insert_record r l' end.
Definition sort_records (l : list KeyValueRecord) : list KeyValueRecord := foldr insert_record [] l.

Definition bucket_records (t : LSMTree M) (b : Z) (records : list KeyValueRecord) : list KeyValueRecord :=
  sort_records (filter (λ r, bucket_of t (kv_key r) = b) records).

(** The file's bytes and its entry in the registry. *)
Definition l0_contents (records : list KeyValueRecord) (stamp : Z) : region * L0FileEntry :=
  let es := entry_of <$> records in
  let '(bytes, idx, _) := write_entries 0 SSTABLE_DATA_START es [] in
  let summary := of_sorted ((λ r, (kv_key r, kv_seq r)) <$> records) in
  (sstable_header_bytes ++ bytes,
   mk_l0 stamp stamp
     (match summary with
      | Some s => Some (mk_summary (s0_min_key s) (s0_max_key s) (s0_max_seq s) (s0_entries s) (s0_bloom s) (si_some idx))
      | None => None
      end) 0 false).

Definition put_l0 (d : LsmDisk) (b stamp : Z) (file : region) : LsmDisk :=
  mk_disk (<[(b, stamp) := file]> (disk_l0 d)) (disk_l0_tmp d) (disk_l1 d).
Definition remove_l0 (d : LsmDisk) (b stamp : Z) : LsmDisk :=
  mk_disk (delete (b, stamp) (disk_l0 d)) (disk_l0_tmp d) (disk_l1 d).

(** One bucket: the directory after it, and the file written. *)
Definition write_level0_file_for_records (t : LSMTree M) (d : LsmDisk) (b : Z) (records : list KeyValueRecord) (stamp : Z)
    (out : WriteOutcome) : result (option L0FileEntry) LSMError * LsmDisk :=
  match bucket_records t b records with
  | [] => (Ok None, d)
  | rs =>
      let '(file, f) := l0_contents rs stamp in
      match out with
      | WriteOk => (Ok (Some f), put_l0 d b stamp file)
      | WriteFailed => (Err OtherIo, d)
      | SyncFailed => (Err OtherIo, put_l0 d b stamp file)
      end
  end.

(** The buckets [b], [b + 1], ...: the files written, or the error and the files to undo. *)
Fixpoint write_buckets (n : nat) (b : Z) (t : LSMTree M) (d : LsmDisk) (records : list KeyValueRecord) (stamp : Z) (out : Z → WriteOutcome)
    (written : list (Z * L0FileEntry)) : result unit LSMError * list (Z * L0FileEntry) * LsmDisk :=
  match n with
  | O => (Ok tt, written, d)
  | S n =>
      match write_level0_file_for_records t d b records stamp (out b) with
      | (Ok file, d) => write_buckets n (b + 1) t d records stamp out (written ++ from_option (λ f, [(b, f)]) [] file)
      | (Err e, d) => (Err e, written, d)
      end
  end.

Definition remove_written (d : LsmDisk) (written : list (Z * L0FileEntry)) : LsmDisk :=
  foldl (λ d p, remove_l0 d p.1 (l0_name p.2)) d written.

Definition register_level0_file (t : LSMTree M) (b : Z) (f : L0FileEntry) : LSMTree M :=
  let bk := bucket_at t b in
  if existsb (λ g, l0_name g =? l0_name f) (level0_files bk) then t
  else with_bucket t b (mk_bucket (sstable_file bk) (sstable_metadata bk) (sstable_bloom bk) (sstable_index bk)
                          (level0_files bk ++ [f]) (compaction_in_progress bk)).

Definition mark_flushed (ro : ReadOnlyMemTable) : ReadOnlyMemTable := mk_ro (ro_records ro) (ro_readers ro) (ro_version ro) true.

(** [flush_ro_memtable_to_level0] of the [i]-th read-only memtable. *)
Definition flush_ro_memtable_to_level0 (io : FlushIo) (i : nat) (w : World M) : result unit LSMError * World M :=
  match read_only_memtables (tree w) !! i with
  | None => (Ok tt, w)
  | Some ro =>
      if flushed_to_level0 ro then (Ok tt, w)
      else
        let version := ro_version ro in
        let w := mk_world (tree w) (disk w) (events w ++ [Flushing version]) in
        if negb (flushing_ok io) then (Err OtherIo, w)
        else
          let candidate := Z.min U128_MAX (Z.min U128_MAX (now_ms io * 1000000) + version) in
          let '(stamp, t) := next_l0_stamp (tree w) candidate in
          match write_buckets (Z.to_nat (num_buckets (config t))) 0 t (disk w) (ro_records ro) stamp (write_bucket io) [] with
          | (Err e, written, d) => (Err e, mk_world t (remove_written d written) (events w))
          | (Ok _, written, d) =>
              let ev := events w ++ [Written version] in
              if negb (written_ok io) then (Err OtherIo, mk_world t (remove_written d written) ev)
              else
                let t := foldl (λ t p, register_level0_file t p.1 p.2) t written in
                (Ok tt, mk_world (with_ro t (<[i := mark_flushed ro]> (read_only_memtables t)) (pending_old_memtables t)) d
                          (ev ++ [FlushedToLevel0 version]))
          end
  end.

(** Every read-only memtable in turn, until one fails. *)
Fixpoint flush_all_ro (io : nat → FlushIo) (n i : nat) (w : World M) : result unit LSMError * World M :=
  match n with
  | O => (Ok tt, w)
  | S n => match flush_ro_memtable_to_level0 (io i) i w with
           | (Ok _, w) => flush_all_ro io n (S i) w
           | (Err e, w) => (Err e, w)
           end
  end.

Definition flush_to_level0 (io : nat → FlushIo) (seal_empty : bool) (w : World M) : result unit LSMError * World M :=
  let has_data := (0 <? mem_live (memtable (tree w))) || (0 <? mem_tombstones (memtable (tree w))) in
  let w := if has_data || seal_empty then flush_memtable w else w in
  flush_all_ro io (length (read_only_memtables (tree w))) 0 w.
End tree.
