(* ===== verification/LsmCompact.v ===== *)
(** * LsmCompact: merging, compaction and opening

    The part of [src/minnal_db/src/store/lsm/lsm_tree.rs] that moves entries down: the
    merge of a bucket's Level-0 files into its Level 1, the passes that run it, the
    release of memtables and files no longer needed, and opening a tree from its
    directory.

    The snapshot of the manifest that [compact_all] and [compact_due] write when they end
    (and the error it may return) and the counters of metrics are left out: nothing reads
    the manifest back into the tree. *)
From S2P Require Import Prelude OrdMap Bytes Slices Keys LsmFilters SsTable SkipList MemTable LsmTree.

Section compact.
Context `{Crc, RkyvSst, Murmur3} {M : Type} `{MemTable M}.
Local Open Scope minnal_scope.

(** ** The merge *)

(** [two_way_merge]: both lists ascending; a tombstone that wins drops its key. *)
Definition push_live (e : SStableEntry) (rest : list SStableEntry) : list SStableEntry :=
  if sst_tombstone e then rest else e :: rest.
Fixpoint two_way_merge (existing : list SStableEntry) : list KeyValueRecord → list SStableEntry :=
  fix go (new_records : list KeyValueRecord) : list SStableEntry :=
    match existing, new_records with
    | [], [] => []
    | e :: existing', [] => push_live e (two_way_merge existing' [])
    | [], r :: new' => push_live (entry_of r) (go new')
    | e :: existing', r :: new' =>
        match cmp (sst_key e) (kv_key r) with
        | Lt => push_live e (two_way_merge existing' new_records)
        | Eq => push_live (if seq_newer_or_eq (kv_seq r) (sst_seq e) then entry_of r else e) (two_way_merge existing' new')
        | Gt => push_live (entry_of r) (go new')
        end
    end.

(** One record into the [BTreeMap] of the merge. *)
Definition keep_newer (m : ordmap key SStableEntry) (r : SStableEntry) : ordmap key SStableEntry :=
  match om_get (sst_key r) m with
  | Some e => if seq_newer_or_eq (sst_seq r) (sst_seq e) then om_insert (sst_key r) r m else m
  | None => om_insert (sst_key r) r m
  end.

(** The Level-0 files oldest first. *)
Fixpoint collect_l0 (d : LsmDisk) (b : Z) (fs : list L0FileEntry) (m : ordmap key SStableEntry) : result (ordmap key SStableEntry) LSMError :=
  match fs with
  | [] => Ok m
  | f :: fs =>
      if obsolete f then collect_l0 d b fs m
      else
        let? es := read_sstable_entries_from_path (disk_l0 d !! (b, l0_name f)) in
        collect_l0 d b fs (foldl keep_newer m es)
  end.

Definition record_of_entry (e : SStableEntry) : KeyValueRecord := mk_record (sst_key e) (sst_value e) (sst_tombstone e) (sst_seq e).

(** What can fail: the empty handle, truncating the emptied file (ignored by the code),
    writing the merged file up to its rename, opening it after the rename. *)
Inductive MergeFault := NoFault | NullFault | TruncateFault | PublishFault | OpenFault.

Definition put_l1 (d : LsmDisk) (b : Z) (file : region) : LsmDisk := mk_disk (disk_l0 d) (disk_l0_tmp d) (<[b := file]> (disk_l1 d)).

Definition with_l1 (bk : Bucket) (file : region) (meta : list SStableMetadata) (bloom : option BloomFilter) (idx : option SparseIndex) : Bucket :=
  mk_bucket file meta bloom idx (level0_files bk) (compaction_in_progress bk).
Definition all_obsolete (bk : Bucket) : Bucket :=
  mk_bucket (sstable_file bk) (sstable_metadata bk) (sstable_bloom bk) (sstable_index bk) (mark_obsolete <$> level0_files bk) (compaction_in_progress bk).

Definition merge_level0_to_level1 (b : Z) (fault : MergeFault) (w : World M) : result unit LSMError * World M :=
  let bk := bucket_at (tree w) b in
  match level0_files bk with
  | [] => (Ok tt, w)
  | fs =>
      let fs := sort_by_key created_at_ms fs in
      match collect_l0 (disk w) b fs [] with
      | Err e => (Err e, w)
      | Ok [] => (Ok tt, w)
      | Ok by_key =>
          match read_sstable_entries_from_file (sstable_file bk) with
          | Err e => (Err e, w)
          | Ok level1_entries =>
              let merged := two_way_merge level1_entries (record_of_entry ∘ snd <$> by_key) in
              match merged with
              | [] =>
                  match fault with
                  | NullFault => (Err OtherIo, w)
                  | _ =>
                      let d := match fault with TruncateFault => disk w | _ => put_l1 (disk w) b [] end in
                      let bk := all_obsolete (with_l1 bk [] [] (Some (bloom_build [] 0)) None) in
                      (Ok tt, mk_world (with_bucket (tree w) b bk) d (events w))
                  end
              | _ =>
                  match fault, write_merged_sstable merged with
                  | PublishFault, _ => (Err OtherIo, w)
                  | _, Err e => (Err e, w)
                  | OpenFault, Ok (file, _) => (Err OtherIo, mk_world (tree w) (put_l1 (disk w) b file) (events w))
                  | _, Ok (file, (min_key, max_key, entry_count, _, index)) =>
                      let meta := mk_meta min_key max_key entry_count (foldl newest_seq None (sst_seq <$> merged)) in
                      let bloom := bloom_build (sst_key <$> merged) (zlen merged) in
                      let bk := all_obsolete (with_l1 bk file [meta] (Some bloom) (si_some index)) in
                      (Ok tt, mk_world (with_bucket (tree w) b bk) (put_l1 (disk w) b file) (events w))
                  end
              end
          end
      end
  end.

Definition with_compacting (bk : Bucket) (flag : bool) : Bucket :=
  mk_bucket (sstable_file bk) (sstable_metadata bk) (sstable_bloom bk) (sstable_index bk) (level0_files bk) flag.
Definition set_compacting (b : Z) (flag : bool) (w : World M) : World M :=
  with_tree w (with_bucket (tree w) b (with_compacting (bucket_at (tree w) b) flag)).

(** [compact_bucket]: the flag is cleared on every way out. *)
Definition compact_bucket (b : Z) (fault : MergeFault) (w : World M) : result unit LSMError * World M :=
  if compaction_in_progress (bucket_at (tree w) b) then (Ok tt, w)
  else
    let '(r, w) := merge_level0_to_level1 b fault (set_compacting b true w) in
    (r, set_compacting b false w).

(** ** Releasing memtables and files *)

Definition is_removable (f : L0FileEntry) : bool := obsolete f && (reader_count f =? 0).

Definition retain_bucket (bk : Bucket) : Bucket :=
  mk_bucket (sstable_file bk) (sstable_metadata bk) (sstable_bloom bk) (sstable_index bk)
    (filter (λ f, is_removable f = false) (level0_files bk)) (compaction_in_progress bk).
Definition cleanup_bucket (w : World M) (b : Z) : World M :=
  let bk := bucket_at (tree w) b in
  mk_world (with_bucket (tree w) b (retain_bucket bk))
    (foldl (λ d f, remove_l0 d b (l0_name f)) (disk w) (filter (λ f, is_removable f = true) (level0_files bk))) (events w).

Definition cleanup_obsolete_level0_files (w : World M) : World M :=
  foldl cleanup_bucket w (seqZ 0 (num_buckets (config (tree w)))).

Definition cleanup_pending_memtables (w : World M) : World M :=
  let t := tree w in
  with_tree w (with_ro t (read_only_memtables t) (filter (λ ro, (0 <? ro_readers ro) = true) (pending_old_memtables t))).

(** Of the memtables older than the current version: the unflushed stay, the flushed go,
    or wait until their readers are done. *)
Definition defer_old_memtables_cleanup (w : World M) : World M :=
  let t := tree w in
  let version := ro_memtable_version t in
  let old := filter (λ ro, (ro_version ro <? version) = true) (read_only_memtables t) in
  let new := filter (λ ro, (ro_version ro <? version) = false) (read_only_memtables t) in
  with_tree w (with_ro t
    (filter (λ ro, flushed_to_level0 ro = false) old ++ new)
    (pending_old_memtables t ++ filter (λ ro, flushed_to_level0 ro && negb (ro_readers ro =? 0) = true) old)).

(** ** The passes *)

Definition has_level0_files (w : World M) : bool :=
  existsb (λ b, match level0_files (bucket_at (tree w) b) with [] => false | _ => true end) (seqZ 0 (num_buckets (config (tree w)))).

(** A file without a summary counts as due. *)
Fixpoint l0_entries (fs : list L0FileEntry) : option Z :=
  match fs with
  | [] => Some 0
  | f :: fs => match l0_summary f, l0_entries fs with Some s, Some n => Some (s0_entries s + n) | _, _ => None end
  end.

Definition compaction_due (w : World M) (b : Z) : bool :=
  let bk := bucket_at (tree w) b in
  let live := filter (λ f, obsolete f = false) (level0_files bk) in
  match live with
  | [] => false
  | _ =>
      if (L0_COMPACTION_MAX_FILES <=? length live)%nat then true
      else
        match l0_entries live with
        | None => true
        | Some n => foldr Z.add 0 (entry_count <$> sstable_metadata bk) * L0_COMPACTION_RATIO_PERCENT <=? n * 100
        end
  end.

(** The buckets in turn; a file that has gone is passed over. *)
Fixpoint compact_buckets (fault : Z → MergeFault) (due : World M → Z → bool) (bs : list Z) (w : World M) : result unit LSMError * World M :=
  match bs with
  | [] => (Ok tt, w)
  | b :: bs =>
      if due w b then
        match compact_bucket b (fault b) w with
        | (Ok _, w) | (Err NotFound, w) => compact_buckets fault due bs w
        | (Err e, w) => (Err e, w)
        end
      else compact_buckets fault due bs w
  end.

Definition run_compaction (io : nat → FlushIo) (fault : Z → MergeFault) (due : World M → Z → bool) (w : World M) : result unit LSMError * World M :=
  match flush_all_ro io (length (read_only_memtables (tree w))) 0 w with
  | (Err e, w) => (Err e, w)
  | (Ok _, w) =>
      match compact_buckets fault due (seqZ 0 (num_buckets (config (tree w)))) w with
      | (Err e, w) => (Err e, w)
      | (Ok _, w) => (Ok tt, defer_old_memtables_cleanup w)
      end
  end.

Definition compact_all (io : nat → FlushIo) (fault : Z → MergeFault) (w : World M) : result unit LSMError * World M :=
  let w := cleanup_obsolete_level0_files (cleanup_pending_memtables w) in
  if match read_only_memtables (tree w) with [] => true | _ => false end && negb (has_level0_files w) then (Ok tt, w)
  else run_compaction io fault (λ _ _, true) w.

Definition compact_due (io : nat → FlushIo) (fault : Z → MergeFault) (w : World M) : result unit LSMError * World M :=
  run_compaction io fault compaction_due (cleanup_obsolete_level0_files (cleanup_pending_memtables w)).

Definition flush_and_compact_all (io : nat → FlushIo) (fault : Z → MergeFault) (w : World M) : result unit LSMError * World M :=
  let has_data := (0 <? mem_live (memtable (tree w))) || (0 <? mem_tombstones (memtable (tree w))) in
  compact_all io fault (if has_data then flush_memtable w else w).

(** ** Opening *)

(** The order in which a directory lists its files. *)
Class DirOrder := dir_order : gset Z → list Z.
Class DirOrderLaws `{DirOrder} := dir_order_elements (s : gset Z) : dir_order s ≡ₚ elements s.

Definition is_io (e : LSMError) : bool := match e with UnexpectedEof | NotFound | OtherIo => true | _ => false end.

Definition level0_file_summary (file : region) : result (option L0Summary) LSMError :=
  match load_metadata_from_file file with
  | Ok (meta, Some bloom, index, Some m) => Ok (Some (mk_summary (min_key meta) (max_key meta) m (entry_count meta) bloom index))
  | Ok _ => Ok None
  | Err e => if is_io e then Ok None else Err e
  end.

Definition fold_max_seq (acc : option Z) (seq : option Z) : option Z :=
  match seq with Some s => newest_seq acc s | None => acc end.

(** Level 1 of a bucket; an absent file is created empty. *)
Definition open_level1 (file : region) : result (Bucket * option Z) LSMError :=
  if 0 <? zlen file then
    let? _ := validate_sstable_header file in
    match load_metadata_from_file file with
    | Ok (meta, bloom, index, m) => Ok (mk_bucket file [meta] bloom index [] false, m)
    | Err _ => Ok (mk_bucket file [] None None [] false, None)
    end
  else Ok (mk_bucket file [] (Some (bloom_build [] 0)) None [] false, None).

Fixpoint open_level1_all (d : LsmDisk) (bs : list Z) (acc : option Z) : result (list Bucket * option Z) LSMError :=
  match bs with
  | [] => Ok ([], acc)
  | b :: bs =>
      let? (bk, m) := open_level1 (default [] (disk_l1 d !! b)) in
      let? (bks, acc) := open_level1_all d bs (fold_max_seq acc m) in
      Ok (bk :: bks, acc)
  end.

(** The files of a bucket's directory; one too short for a header is passed over. *)
Fixpoint load_bucket (d : LsmDisk) (b : Z) (names : list Z) (acc : option Z) : result (list L0FileEntry * option Z) LSMError :=
  match names with
  | [] => Ok ([], acc)
  | name :: names =>
      let file := default [] (disk_l0 d !! (b, name)) in
      if zlen file <? SSTABLE_DATA_START then load_bucket d b names acc
      else
        let? summary := level0_file_summary file in
        let? (fs, acc) := load_bucket d b names (fold_max_seq acc (s0_max_seq <$> summary)) in
        Ok (mk_l0 name name summary 0 false :: fs, acc)
  end.

Definition dir_names (d : LsmDisk) (b : Z) : gset Z := list_to_set ((map_to_list (disk_l0 d)).*1 ≫= λ p, if p.1 =? b then [p.2] else []).

Fixpoint load_existing_level0_files `{DirOrder} (d : LsmDisk) (b : Z) (bks : list Bucket) (acc : option Z) : result (list Bucket * option Z) LSMError :=
  match bks with
  | [] => Ok ([], acc)
  | bk :: bks =>
      let? (fs, acc) := load_bucket d b (dir_order (dir_names d b)) acc in
      let? (bks, acc) := load_existing_level0_files d (b + 1) bks acc in
      Ok (mk_bucket (sstable_file bk) (sstable_metadata bk) (sstable_bloom bk) (sstable_index bk) fs false :: bks, acc)
  end.

Definition created_l1 (d : LsmDisk) (bs : list Z) : LsmDisk :=
  mk_disk (disk_l0 d) ∅ (foldl (λ m b, match m !! b with Some _ => m | None => <[b := []]> m end) (disk_l1 d) bs).

Definition open `{DirOrder} (cfg : LSMConfig) (d : LsmDisk) : result (World M) LSMError :=
  let bs := seqZ 0 (num_buckets cfg) in
  let? (bks, acc) := open_level1_all d bs None in
  let? (bks, l0) := load_existing_level0_files d 0 bks None in
  let acc := fold_max_seq acc l0 in
  let last := foldr Z.max 0 (created_at_ms <$> (bks ≫= level0_files)) in
  Ok (mk_world (mk_tree (mem_new (skip_list_capacity cfg)) [] bks (default 0 acc) 0 [] last cfg) (created_l1 d bs) []).
End compact.
