(* ===== verification/LsmReads.v ===== *)
(** * LsmReads: point reads answer from every copy

    The summaries, filters, sparse indexes, bounds and the short cut on the memtable let a
    read skip most of the tree.  Here they are shown to skip only copies that cannot win:
    [newest_copy] answers what the newest of all the copies held anywhere would. *)
From S2P Require Import Prelude Slices Bytes OrdMap Keys LsmFilters SsTable SsTableSpec MemTable LsmTree.

(** ** Copies of a key and the runs that hold them

    The answer of the tree for a key is the newest of the copies its layers hold.  A layer
    is a run: an ordered map from keys to copies.  [join] is how two copies compete, the
    first from the newer layer; a Level-0 or Level-1 file, its summary and its lookups
    are related here to the run the file was written from. *)

(** ** Competing copies *)

Definition join (a b : Candidate) : Candidate :=
  match b with Some (value, seq) => merge_candidate a value seq | None => a end.
Definition newest (l : list Candidate) : Candidate := foldl join None l.

(** What a reader sees: a tombstone is nothing. *)
Definition visible (c : Candidate) : option (Z * Z) := match c with Some (Some ptr, seq) => Some (ptr, seq) | _ => None end.

Abbreviation cseq c := (snd <$> (c : Candidate)).

Lemma join_None_l c : join None c = c.
Proof. by destruct c as [[]|]. Qed.
Lemma join_None_r c : join c None = c.
Proof. done. Qed.
Lemma join_Some v s v' s' : join (Some (v, s)) (Some (v', s')) = if s <? s' then Some (v', s') else Some (v, s).
Proof. cbn. unfold seq_newer. by destruct (s <? s'). Qed.
Lemma join_assoc a b c : join a (join b c) = join (join a b) c.
Proof.
  destruct a as [[va sa]|], b as [[vb sb]|], c as [[vc sc]|]; rewrite ?join_None_l, ?join_None_r; try done.
  - rewrite !join_Some. destruct (Z.ltb_spec sb sc), (Z.ltb_spec sa sb); rewrite !join_Some;
      destruct (Z.ltb_spec sa sc), (Z.ltb_spec sb sc), (Z.ltb_spec sa sb); try lia; done.
Qed.
Lemma join_idemp c : join c c = c.
Proof. destruct c as [[v s]|]; [|done]. rewrite join_Some. by destruct (s <? s). Qed.
Lemma foldl_join a l : foldl join a l = join a (newest l).
Proof.
  unfold newest. revert a. induction l as [|c l IH]; intros a; [done|]. cbn [foldl].
  rewrite (IH (join a c)), (IH (join None c)), join_None_l. by rewrite join_assoc.
Qed.
Lemma newest_cons c l : newest (c :: l) = join c (newest l).
Proof. unfold newest at 1. cbn [foldl]. by rewrite foldl_join, join_None_l. Qed.
Lemma newest_app l l' : newest (l ++ l') = join (newest l) (newest l').
Proof. unfold newest at 1. by rewrite foldl_app, !foldl_join, join_None_l. Qed.

(** A copy whose sequence does not exceed another's loses to it. *)
Definition seq_le (c d : Candidate) : Prop := ∀ v s, c = Some (v, s) → ∃ v' s', d = Some (v', s') ∧ s ≤ s'.

Lemma join_absorb a c : seq_le c a → join a c = a.
Proof.
  intros Hle. destruct c as [[v s]|]; [|done]. destruct (Hle v s eq_refl) as (v' & s' & -> & Hs). rewrite join_Some.
  by rewrite (proj2 (Z.ltb_ge _ _)).
Qed.
Lemma seq_le_None d : seq_le None d.
Proof. done. Qed.

(** [max_seq_opt] is the sequence of the join. *)
Lemma max_seq_join a b : max_seq_opt (cseq a) (cseq b) = cseq (join a b).
Proof.
  destruct a as [[va sa]|], b as [[vb sb]|]; try done. rewrite join_Some. cbn. unfold seq_newer. by destruct (sa <? sb).
Qed.

Lemma seq_le_newest l c : (∀ d, d ∈ l → seq_le d c) → seq_le (newest l) c.
Proof.
  induction l as [|d l IH]; intros Hl; [done|]. rewrite newest_cons. intros v s Hj.
  assert (seq_le d c) as Hd by (apply Hl; left). assert (seq_le (newest l) c) as Hn by (apply IH; intros; apply Hl; by right).
  destruct (newest l) as [[v' s']|] eqn:E; [|by apply (Hd v s)]. destruct d as [[vd sd]|].
  - rewrite join_Some in Hj. destruct (sd <? s'); injection Hj as <- <-; [by apply (Hn v' s')|by apply (Hd vd sd)].
  - rewrite join_None_l in Hj. by apply (Hn v s).
Qed.

(** ** Runs *)

Abbreviation run := (ordmap key copy).

Definition cand (m : run) (k : key) : Candidate := (λ c : copy, (live c.2 c.1.1, c.1.2)) <$> om_get k m.

(** An entry of a run in a file, and back. *)
Definition ent (p : key * copy) : SStableEntry := entry_of (record_of p).
Definition unent (e : SStableEntry) : key * copy := (sst_key e, (sst_value e, sst_seq e, sst_tombstone e)).

Lemma ent_unent p : unent (ent p) = p.
Proof. by destruct p as [k [[v s] t]]. Qed.
Lemma ents_unents (m : run) : unent <$> (ent <$> m) = m.
Proof. induction m as [|p m IH]; [done|]. by rewrite !fmap_cons, ent_unent, IH. Qed.

Definition ss_cand (l : SsLookup) : Candidate :=
  match l with Found ptr seq => Some (Some ptr, seq) | Deleted seq => Some (None, seq) | Missing => None end.

Lemma ss_seq_cand l : ss_seq l = cseq (ss_cand l).
Proof. by destruct l. Qed.

Section runs.
Context `{RkyvSst}.

(** A 128-bit pointer and a 64-bit sequence. *)
Definition valid_copy (c : copy) : Prop := u128 c.1.1 ∧ u64 c.1.2.

(** A key the tree can file: not empty, bytes, and framed within a 32-bit length whatever
    its copy. *)
Definition valid_key (k : key) : Prop :=
  k ≠ [] ∧ Forall byte k ∧
  ∀ value tombstone seq, valid_copy (value, seq, tombstone) → 4 + zlen (sst_encode (mk_entry k (key_prefix_of k) value tombstone seq)) < 2 ^ 32.

(** An ordered run of valid keys and copies. *)
Definition run_ok (m : run) : Prop := om_wf m ∧ ∀ k c, (k, c) ∈ m → valid_key k ∧ valid_copy c.

Lemma run_wf m : run_ok m → om_wf m.
Proof using. by intros []. Qed.

Lemma run_entries m : run_ok m → Forall entry_ok (ent <$> m) ∧ es_sorted (ent <$> m).
Proof using.
  intros [Hwf Hv]. split.
  - apply Forall_fmap, Forall_forall. intros [k [[v s] t]] Hin. apply Hv in Hin as ((_ & Hb & Hf) & Hc). split_and!; [done|done|by apply Hf|apply Hc|apply Hc].
  - clear Hv. induction m as [|[k [[v s] t]] m IH]; [constructor|]. apply om_wf_cons in Hwf as [Hk Hwf].
    rewrite fmap_cons. apply es_sorted_cons. split; [|by apply IH]. intros e (p & -> & Hp)%list_elem_of_fmap.
    apply key_lt_spec. destruct p as [k' c']. by apply (Hk k' c').
Qed.

Lemma run_ok_sub (m m' : run) : m' `sublist_of` m → run_ok m → run_ok m'.
Proof using.
  intros Hs [Hwf Hv]. split; [by apply (om_wf_sublist m)|]. intros k c Hin. apply (Hv k c). by eapply elem_of_sublist.
Qed.

Lemma ss_find_run (m : run) k : om_wf m → ss_cand (ss_find k (ent <$> m)) = cand m k.
Proof using.
  unfold cand. induction m as [|[k' [[v s] t]] m IH]; intros Hwf; [done|]. rewrite om_get_cons by done.
  apply om_wf_cons in Hwf as [_ Hwf]. rewrite fmap_cons. cbn [ss_find].
  change (sst_key (ent (k', (v, s, t)))) with k'. destruct (decide (k = k')) as [->|Hne].
  - rewrite bool_decide_true by done. by destruct t.
  - rewrite bool_decide_false by (intros Heq; by apply Hne). by apply IH.
Qed.
End runs.

(** ** Files *)

Section files.
Context `{CrcLaws, RkyvSstLaws, Murmur3}.
Local Open Scope minnal_scope.

(** The run a file holds, read in full. *)
Definition run_of (file : region) : run :=
  match read_sstable_entries_from_file file with Ok es => unent <$> es | Err _ => [] end.

Lemma run_of_table m : run_ok m → run_of (table (ent <$> m)) = m.
Proof using All.
  intros Hm. unfold run_of. rewrite read_from_file_table by by apply run_entries. apply ents_unents.
Qed.
Lemma run_of_nil : run_of [] = [].
Proof using All. unfold run_of. by rewrite read_from_file_empty. Qed.

(** The summary of a run, as the flush and the opening build it. *)
Definition run_summary (m : run) : L0Summary :=
  let es := ent <$> m in
  mk_summary (default [] (sst_key <$> head es)) (default [] (sst_key <$> last es)) (default 0 (newest_of es)) (zlen es)
    (bloom_build (sst_key <$> es) (zlen es)) (si_some (table_index es)).

Lemma newest_fold_ge l : ∀ acc s, foldl newest_seq acc l = s → from_option (λ a, from_option (λ b, a ≤ b) False s) True acc ∧
  ∀ x, x ∈ l → from_option (λ b, x ≤ b) False s.
Proof using.
  induction l as [|y l IH]; intros acc s; cbn [foldl].
  - intros <-. split; [destruct acc; cbn; [lia|done]|]. by intros x ?%elem_of_nil.
  - intros Hs. apply IH in Hs as [Ha Hl]. assert (newest_seq acc y = Some (match acc with Some a => Z.max a y | None => y end)) as Hn.
    { destruct acc as [a|]; [|done]. cbn. unfold seq_newer. destruct (Z.ltb_spec a y); f_equal; lia. }
    rewrite Hn in Ha. cbn in Ha. destruct s as [s|]; [|done]. cbn in *. split; [destruct acc; cbn; lia|].
    intros x [->|Hx]%elem_of_cons; [destruct acc; lia|by apply Hl].
Qed.

Lemma newest_of_ge (m : run) k c : (k, c) ∈ m → ∃ s, newest_of (ent <$> m) = Some s ∧ c.1.2 ≤ s.
Proof using.
  intros Hin. unfold newest_of. destruct (newest_fold_ge (sst_seq <$> (ent <$> m)) None _ eq_refl) as [_ Hl].
  specialize (Hl c.1.2). destruct (foldl _ _ _) as [s|].
  - exists s. split; [done|]. apply Hl. apply list_elem_of_fmap. exists (ent (k, c)). split; [by destruct c as [[] ]|]. by apply list_elem_of_fmap_2.
  - destruct Hl. apply list_elem_of_fmap. exists (ent (k, c)). split; [by destruct c as [[] ]|]. by apply list_elem_of_fmap_2.
Qed.

Lemma cand_Some (m : run) k v s : om_wf m → cand m k = Some (v, s) → ∃ c, (k, c) ∈ m ∧ c.1.2 = s ∧ v = live c.2 c.1.1.
Proof using.
  intros Hwf Hc. unfold cand in Hc. apply fmap_Some in Hc as (c & Hg%om_get_Some & [= -> ->]); [|done]. by exists c.
Qed.

Lemma head_le (m : run) k c : om_wf m → (k, c) ∈ m → ∃ k0, sst_key <$> head (ent <$> m) = Some k0 ∧ key_le k0 k = true.
Proof using.
  intros Hwf Hin. destruct m as [|[k0 c0] m]; [by apply elem_of_nil in Hin|]. exists k0. split; [done|].
  apply om_wf_cons in Hwf as [Hk _]. apply elem_of_cons in Hin as [[= -> _]|Hin]; [apply key_le_refl|].
  apply key_lt_le_weak, key_lt_spec. by apply (Hk k c).
Qed.
Lemma last_ge (m : run) k c : om_wf m → (k, c) ∈ m → ∃ k1, sst_key <$> last (ent <$> m) = Some k1 ∧ key_le k k1 = true.
Proof using.
  destruct m as [|[k1 c1] m _] using rev_ind; intros Hwf Hin; [by apply elem_of_nil in Hin|].
  exists k1. rewrite fmap_app, last_app. split; [done|]. apply elem_of_app in Hin as [Hin|[= -> _]%list_elem_of_singleton]; [|apply key_le_refl].
  unfold om_wf in Hwf. apply StronglySorted_app in Hwf as (Hl & _ & _). apply key_lt_le_weak, key_lt_spec.
  apply (Hl (k, c) (k1, c1)); [done|left].
Qed.

Lemma si_some_start idx k : from_option (λ i, block_start i k) 0 (si_some idx) = block_start idx k.
Proof using. by destruct idx. Qed.

Lemma lookup_run (m : run) k : run_ok m →
  ∃ hit, lookup_in_sstable_file_from (table (ent <$> m)) k (block_start (table_index (ent <$> m)) k) = Ok hit ∧ ss_cand hit = cand m k.
Proof using All.
  intros Hm. destruct (run_entries m Hm) as [He Hs]. unfold lookup_in_sstable_file_from.
  rewrite (lookup_hinted_table _ _ _ He Hs (index_hint_sound _ _ Hs)). cbn [result_bind].
  eexists. split; [done|]. apply ss_find_run, Hm.
Qed.

(** *** Level 0 *)

(** A file of Level 0 in bucket [b], not obsolete, and the run it holds. *)
Record l0_ok (d : LsmDisk) (b : Z) (f : L0FileEntry) (m : run) : Prop := {
  l0_run : run_ok m; l0_nonempty : m ≠ [];
  l0_on_disk : disk_l0 d !! (b, l0_name f) = Some (table (ent <$> m));
  l0_described : l0_summary f = Some (run_summary m);
  l0_stamp : created_at_ms f = l0_name f }.

Lemma may_contain_sound d b f m k : l0_ok d b f m → may_contain f k = false → cand m k = None.
Proof using All.
  intros [Hm _ _ Hs _] Hc. destruct (cand m k) as [[v s]|] eqn:E; [|done]. apply (cand_Some _ _ _ _ (run_wf m Hm)) in E as (c & Hin & _).
  unfold may_contain in Hc. rewrite Hs in Hc. cbn [run_summary s0_min_key s0_max_key s0_bloom] in Hc.
  destruct (head_le m k c (run_wf m Hm) Hin) as (k0 & Hh & Hk0), (last_ge m k c (run_wf m Hm) Hin) as (k1 & Hl & Hk1).
  rewrite Hh, Hl in Hc. cbn [default from_option id] in Hc. rewrite Hk0, Hk1, bloom_build_contains in Hc; [done|].
  apply list_elem_of_fmap. exists (ent (k, c)). split; [by destruct c as [[] ]|]. by apply list_elem_of_fmap_2.
Qed.

Lemma newest_seq_le (m : run) k n : om_wf m → newest_of (ent <$> m) = Some n → ∀ v, seq_le (cand m k) (Some (v, n)).
Proof using.
  intros Hwf Hn v v' s Hc. apply cand_Some in Hc as (c & Hin & <- & _); [|done]. apply newest_of_ge in Hin as (n' & Hn' & Hle).
  exists v, n. split; [done|]. rewrite Hn in Hn'. injection Hn' as ->. done.
Qed.

Lemma cannot_beat_sound d b f m k acc s : l0_ok d b f m → cannot_beat f s = true → cseq acc = Some s → join acc (cand m k) = acc.
Proof using All.
  intros [Hm Hne _ Hs _] Hc Hacc. apply join_absorb. destruct acc as [[v s']|]; [|done]. injection Hacc as ->.
  unfold cannot_beat in Hc. rewrite Hs in Hc. cbn [run_summary s0_max_seq] in Hc. unfold seq_newer_or_eq in Hc. apply Z.leb_le in Hc.
  intros v' sk Hk. destruct (newest_of (ent <$> m)) as [n|] eqn:En.
  - destruct (newest_seq_le m k n (run_wf m Hm) En v v' sk Hk) as (? & ? & [= <- <-] & Hle). exists v, s. split; [done|]. cbn in Hc. lia.
  - apply cand_Some in Hk as (c & Hin & _); [|by apply run_wf]. apply newest_of_ge in Hin as (n & Hn & _). by rewrite En in Hn.
Qed.

Lemma l0_lookup d b f m k : l0_ok d b f m →
  l0_file d b f = Ok (table (ent <$> m)) ∧
  ∃ hit, lookup_in_sstable_file_from (table (ent <$> m)) k (scan_start f k) = Ok hit ∧ ss_cand hit = cand m k.
Proof using All.
  intros [Hm _ Hd Hs _]. unfold l0_file, scan_start. rewrite Hd, Hs. split; [done|]. cbn [run_summary s0_index].
  rewrite si_some_start. by apply lookup_run.
Qed.

(** *** Level 1 *)

(** What a bucket keeps of its Level-1 file. *)
Definition l1_ok (bk : Bucket) (m : run) : Prop :=
  run_ok m ∧
  if decide (m = []) then sstable_file bk = [] ∧ sstable_metadata bk = [] ∧ sstable_index bk = None
  else sstable_file bk = table (ent <$> m) ∧ sstable_metadata bk = [table_meta (ent <$> m)] ∧
       sstable_bloom bk = table_bloom (ent <$> m) ∧ sstable_index bk = si_some (table_index (ent <$> m)).

Lemma run_of_l1 bk m : l1_ok bk m → run_of (sstable_file bk) = m.
Proof using All.
  intros [Hm Hbk]. case_decide as Hd.
  - destruct Hbk as (-> & _). by rewrite run_of_nil.
  - destruct Hbk as (-> & _). by apply run_of_table.
Qed.
End files.

(** ** Point reads answer from every copy *)

Section reads.
Context `{CrcLaws, RkyvSstLaws, Murmur3Laws} {M : Type} `{MemTableLaws M}.
Implicit Types (w : World M) (t : LSMTree M).
Local Open Scope minnal_scope.

(** ** The copies the layers hold *)

Definition ro_run (ro : ReadOnlyMemTable) : run := copy_of <$> ro_records ro.
Definition l0_order (bk : Bucket) : list L0FileEntry := sort_by_key (λ f, - created_at_ms f) (level0_files bk).
Definition l0_run_of (d : LsmDisk) (b : Z) (f : L0FileEntry) : run :=
  if obsolete f then [] else run_of (default [] (disk_l0 d !! (b, l0_name f))).

Definition active_copy t (k : key) : Candidate := cand (mem_content (memtable t)) k.
Definition ro_copy (ros : list ReadOnlyMemTable) (k : key) : Candidate := newest ((λ ro, cand (ro_run ro) k) <$> rev ros).
Definition l0_copy (d : LsmDisk) (b : Z) (fs : list L0FileEntry) (k : key) : Candidate := newest ((λ f, cand (l0_run_of d b f) k) <$> fs).
Definition l1_copy (bk : Bucket) (k : key) : Candidate := cand (run_of (sstable_file bk)) k.

Definition files_copy w (k : key) : Candidate :=
  let b := bucket_of (tree w) k in
  join (l0_copy (disk w) b (l0_order (bucket_at (tree w) b)) k) (l1_copy (bucket_at (tree w) b) k).
Definition lower_copy w (k : key) : Candidate := join (ro_copy (read_only_memtables (tree w)) k) (files_copy w k).

(** The newest of all copies. *)
Definition newest_held w (k : key) : Candidate := join (active_copy (tree w) k) (lower_copy w k).

(** ** The invariant of a tree *)

Record Inv w : Prop := {
  inv_num : 0 < num_buckets (config (tree w)) ≤ 2 ^ 32;
  inv_buckets : length (buckets (tree w)) = Z.to_nat (num_buckets (config (tree w)));
  inv_wf : mem_wf (memtable (tree w));
  inv_mem : run_ok (mem_content (memtable (tree w)));
  inv_ro ro : ro ∈ read_only_memtables (tree w) → run_ok (ro_run ro);
  inv_l0 b f : 0 ≤ b < num_buckets (config (tree w)) → f ∈ level0_files (bucket_at (tree w) b) → obsolete f = false → ∃ m, l0_ok (disk w) b f m;
  inv_l1 b : 0 ≤ b < num_buckets (config (tree w)) → ∃ m, l1_ok (bucket_at (tree w) b) m;
  inv_names b : 0 ≤ b → NoDup (l0_name <$> level0_files (bucket_at (tree w) b));
  inv_stamps b f : 0 ≤ b → f ∈ level0_files (bucket_at (tree w) b) → created_at_ms f = l0_name f ∧ l0_name f ≤ last_l0_stamp (tree w);
  inv_lower k : seq_le (lower_copy w k) (Some (None, max_lower_seq (tree w))) }.

(** ** Level 0 and Level 1 *)

Lemma elem_of_insert_by {A} (f : A → Z) x l y : y ∈ insert_by f x l ↔ y = x ∨ y ∈ l.
Proof using.
  induction l as [|z l IH]; cbn [insert_by]; [rewrite list_elem_of_singleton, elem_of_nil; tauto|].
  destruct (f x <=? f z); rewrite !elem_of_cons; [done|]. rewrite IH. tauto.
Qed.
Lemma elem_of_sort_by {A} (f : A → Z) l y : y ∈ sort_by_key f l ↔ y ∈ l.
Proof using.
  unfold sort_by_key. induction l as [|x l IH]; [done|]. cbn [foldr]. rewrite elem_of_insert_by, IH, elem_of_cons. done.
Qed.

Lemma l0_run_of_ok d b f m : obsolete f = false → l0_ok d b f m → l0_run_of d b f = m.
Proof using All. intros Hf [Hm _ Hd _ _]. unfold l0_run_of. rewrite Hf, Hd. by apply run_of_table. Qed.

(** A search from what is already known loses nothing against it. *)
Lemma search_files_exact d b k c fs : ∀ best,
  (∀ f, f ∈ fs → obsolete f = false → ∃ m, l0_ok d b f m) →
  ∃ hit, search_files d b k (cseq c) fs best = Ok hit ∧ join c (ss_cand hit) = join (join c (ss_cand best)) (l0_copy d b fs k).
Proof using All.
  induction fs as [|f fs IH]; intros best Hfs; [by exists best|].
  assert (∀ g, g ∈ fs → obsolete g = false → ∃ m, l0_ok d b g m) as Hfs' by (intros g Hg; apply Hfs; by right).
  unfold l0_copy. rewrite fmap_cons, newest_cons. fold (l0_copy d b fs k). cbn [search_files].
  destruct (obsolete f) eqn:Eo.
  { destruct (IH best Hfs') as (hit & -> & Hj). exists hit. split; [done|]. rewrite Hj. unfold l0_run_of. rewrite Eo. by rewrite join_None_l. }
  destruct (Hfs f (list_elem_of_here _ _) Eo) as [m Hf]. rewrite (l0_run_of_ok d b f m Eo Hf).
  destruct (may_contain f k) eqn:Em; cbn [negb].
  2: { destruct (IH best Hfs') as (hit & -> & Hj). exists hit. split; [done|]. rewrite Hj. rewrite (may_contain_sound d b f m k Hf Em). by rewrite join_None_l. }
  rewrite ss_seq_cand, max_seq_join. destruct (from_option (cannot_beat f) false (cseq (join c (ss_cand best)))) eqn:Ec.
  { destruct (IH best Hfs') as (hit & -> & Hj). exists hit. split; [done|]. rewrite Hj. destruct (cseq (join c (ss_cand best))) as [s|] eqn:Es; [|done]. cbn in Ec.
    by rewrite join_assoc, (cannot_beat_sound d b f m k _ s Hf Ec Es). }
  destruct (l0_lookup d b f m k Hf) as (-> & hit & Hlk & Hhit). cbn [result_bind]. rewrite Hlk. cbn [result_bind].
  assert (ss_cand (match ss_seq hit with Some seq => if from_option (seq_newer seq) true (cseq (ss_cand best)) then hit else best | None => best end)
    = join (ss_cand best) (cand m k)) as Hj.
  { rewrite <-Hhit, ss_seq_cand. destruct (ss_cand hit) as [[v s]|] eqn:Eh; cbn [fmap option_fmap option_map snd]; [|done].
    destruct (ss_cand best) as [[v' s']|] eqn:Eb; cbn [fmap option_fmap option_map snd from_option].
    - rewrite join_Some. unfold seq_newer. destruct (s' <? s); congruence.
    - by rewrite join_None_l. }
  match goal with |- ∃ _, search_files _ _ _ _ _ ?known = _ ∧ _ => destruct (IH known Hfs') as (hit' & -> & Hj') end. exists hit'. split; [done|]. rewrite Hj', Hj. by rewrite !join_assoc.
Qed.

Lemma bucket_range t k : 0 < num_buckets (config t) ≤ 2 ^ 32 → 0 ≤ bucket_of t k < num_buckets (config t).
Proof using All. apply get_bucket_range. Qed.

Lemma search_level0_exact w b k c : Inv w → 0 ≤ b < num_buckets (config (tree w)) →
  ∃ hit, search_level0_files w b k (cseq c) = Ok hit ∧ join c (ss_cand hit) = join c (l0_copy (disk w) b (l0_order (bucket_at (tree w) b)) k).
Proof using All.
  intros Hw Hb. apply search_files_exact. intros f Hf. apply elem_of_sort_by in Hf. by apply (inv_l0 w Hw).
Qed.

Lemma lookup_level1_exact w b k c : Inv w → 0 ≤ b < num_buckets (config (tree w)) →
  ∃ hit, lookup_level1 w b k (cseq c) = Ok hit ∧ join c (ss_cand hit) = join c (l1_copy (bucket_at (tree w) b) k).
Proof using All.
  intros Hw Hb. destruct (inv_l1 w Hw b Hb) as [m Hl]. unfold l1_copy. rewrite (run_of_l1 _ m Hl). destruct Hl as [Hm Hl].
  unfold lookup_level1. case_decide as Hd; [subst m; destruct Hl as (-> & -> & ->)|destruct Hl as (-> & -> & -> & ->)].
  - destruct (from_option _ _ _); exists Missing; done.
  - destruct (match cseq c, max_seq (table_meta (ent <$> m)) with Some f, Some s => seq_newer_or_eq f s | _, _ => false end) eqn:Ef.
    { exists Missing. rewrite !orb_true_r. split; [done|]. cbn [ss_cand]. symmetry. rewrite join_None_r. apply join_absorb.
      destruct c as [[v s]|]; [|done]. cbn [fmap option_fmap option_map snd table_meta max_seq] in Ef.
      destruct (newest_of (ent <$> m)) as [n|] eqn:En; [|done]. unfold seq_newer_or_eq in Ef. apply Z.leb_le in Ef.
      intros v' s' Hc. destruct (newest_seq_le m k n (run_wf m Hm) En v v' s' Hc) as (? & ? & [= <- <-] & ?). exists v, s. split; [done|lia]. }
    rewrite orb_false_r, si_some_start. cbn [table_meta min_key max_key].
    destruct (key_lt k (default [] (sst_key <$> head (ent <$> m))) || key_lt (default [] (sst_key <$> last (ent <$> m))) k) eqn:Er.
    { exists Missing. split; [done|]. replace (cand m k) with (None : Candidate); [done|]. symmetry. destruct (cand m k) as [[v s]|] eqn:E; [|done].
      apply cand_Some in E as (x & Hin & _); [|by apply run_wf].
      destruct (head_le m k x (run_wf m Hm) Hin) as (k0 & Hh & Hk0), (last_ge m k x (run_wf m Hm) Hin) as (k1 & Hl & Hk1).
      rewrite Hh, Hl in Er. cbn [default from_option id] in Er. rewrite !key_lt_le in Er. unfold id in Er. by rewrite Hk0, Hk1 in Er. }
    destruct (from_option (λ bloom, negb (bloom_contains bloom k)) false (table_bloom (ent <$> m))) eqn:Eb.
    { exists Missing. split; [done|]. replace (cand m k) with (None : Candidate); [done|]. symmetry. destruct (cand m k) as [[v s]|] eqn:E; [|done].
      apply cand_Some in E as (x & Hin & _); [|by apply run_wf]. destruct m as [|p m]; [done|]. unfold table_bloom in Eb.
      change (match ent <$> p :: m with [] => None | _ => Some (bloom_build (sst_key <$> (ent <$> p :: m)) (zlen (ent <$> p :: m))) end)
        with (Some (bloom_build (sst_key <$> (ent <$> p :: m)) (zlen (ent <$> p :: m)))) in Eb. cbn [from_option] in Eb.
      rewrite bloom_build_contains in Eb; [done|]. apply list_elem_of_fmap. exists (ent (k, x)). split; [by destruct x as [[] ]|]. by apply list_elem_of_fmap_2. }
    destruct (lookup_run m k Hm) as (hit & -> & Hhit). exists hit. split; [done|]. by rewrite Hhit.
Qed.

Lemma lookup_sstable_exact w k c : Inv w →
  ∃ hit, lookup_sstable w (bucket_of (tree w) k) k (cseq c) = Ok hit ∧ join c (ss_cand hit) = join c (files_copy w k).
Proof using All.
  intros Hw. pose proof (bucket_range (tree w) k (inv_num w Hw)) as Hb. unfold lookup_sstable, files_copy. cbv zeta.
  set (b := bucket_of (tree w) k) in *. destruct (search_level0_exact w b k c Hw Hb) as (h0 & -> & H0'). cbn [result_bind].
  rewrite ss_seq_cand, max_seq_join. destruct (lookup_level1_exact w b k (join c (ss_cand h0)) Hw Hb) as (h1 & -> & H1'). cbn [result_bind].
  eexists. split; [done|]. rewrite join_assoc, <-H0', <-H1', <-join_assoc. f_equal. rewrite !ss_seq_cand.
  destruct (ss_cand h0) as [[v s]|] eqn:E0, (ss_cand h1) as [[v' s']|] eqn:E1; cbn [fmap option_fmap option_map snd].
  - rewrite join_Some. unfold seq_newer. destruct (s <? s'); congruence.
  - by rewrite E0, join_None_r.
  - by rewrite join_None_l.
  - by rewrite join_None_l.
Qed.

(** ** The memtables *)

Lemma ro_ordered ro k : om_wf (ro_run ro) → cmp_ordered (λ r, cmp (kv_key r) k) (ro_records ro).
Proof using.
  intros Hs i j x y Hij Hx Hy. assert (cmp (kv_key x) (kv_key y) = Lt) as Hlt.
  { unfold om_wf, ro_run in Hs. generalize (ro_records ro) i j Hs Hij Hx Hy. clear. intros l. induction l as [|z l IH]; intros i j Hs Hij Hx Hy; [done|].
    rewrite fmap_cons in Hs. apply StronglySorted_inv in Hs as [Hs Hz]. destruct i as [|i], j as [|j]; [lia| |lia|apply (IH i j); [done|lia|done|done]].
    injection Hx as ->. rewrite Forall_forall in Hz. apply (Hz (copy_of y)). apply list_elem_of_fmap_2. by eapply list_elem_of_lookup_2. }
  split_and!.
  - intros H'. by eapply cmp_trans.
  - intros H'%cmp_eq. by subst.
  - intros H'%cmp_gt. apply cmp_gt. by eapply cmp_trans.
  - intros H'%cmp_eq. subst. by apply cmp_gt.
Qed.

Lemma ro_find_run ro k : om_wf (ro_run ro) → merge_record None (ro_find ro k) = cand (ro_run ro) k.
Proof using.
  intros Hwf. unfold ro_find, cand. pose proof (binary_search_by_spec _ _ (ro_ordered ro k Hwf)) as Hb.
  destruct (binary_search_by _ _) as [i|i].
  - destruct Hb as (r & Hr & Hc%cmp_eq). rewrite Hr. symmetry.
    assert (om_get k (ro_run ro) = Some (copy_of r).2) as ->; [|done]. apply om_get_Some; [done|]. apply list_elem_of_fmap. exists r. split; [|by eapply list_elem_of_lookup_2].
    unfold copy_of. by rewrite Hc.
  - destruct Hb as (_ & Hl & Hg). replace (om_get k (ro_run ro)) with (None : option copy); [done|]. symmetry. apply om_get_None; [done|].
    intros c Hin. apply list_elem_of_fmap in Hin as (r & Hr & Hin). injection Hr as Hk _. rewrite <-(take_drop i (ro_records ro)) in Hin.
    rewrite Forall_forall in Hl, Hg. apply elem_of_app in Hin as [Hin|Hin]; [apply Hl in Hin|apply Hg in Hin]; subst k; by rewrite cmp_refl in Hin.
Qed.

Lemma fold_ros ros k c : (∀ ro, ro ∈ ros → om_wf (ro_run ro)) →
  foldl (λ best ro, merge_record best (ro_find ro k)) c (rev ros) = join c (ro_copy ros k).
Proof using.
  intros Hros. unfold ro_copy. rewrite <-foldl_join. assert (∀ ro, ro ∈ rev ros → om_wf (ro_run ro)) as Hrev.
  { intros ro Hro. apply Hros. rewrite list_elem_of_In in *. by apply in_rev. }
  revert c Hrev. generalize (rev ros). clear. intros l. induction l as [|ro l IH]; intros c Hl; [done|]. cbn [foldl fmap list_fmap].
  rewrite IH by (intros; apply Hl; by right). f_equal. rewrite <-(ro_find_run ro k) by (apply Hl; left).
  by destruct (ro_find ro k).
Qed.

(** ** Point reads *)

Lemma newest_copy_held w k : Inv w → Forall byte k → newest_copy w k = Ok (newest_held w k).
Proof using All.
  intros Hw Hk. unfold newest_copy, newest_held, lower_copy. rewrite mem_entry_ok by (done || apply (inv_wf w Hw)).
  assert (∀ c, (let? hit := lookup_sstable w (bucket_of (tree w) k) k (cseq (join c (ro_copy (read_only_memtables (tree w)) k))) in
    Ok (match hit with Found ptr seq => merge_candidate (join c (ro_copy (read_only_memtables (tree w)) k)) (Some ptr) seq
        | Deleted seq => merge_candidate (join c (ro_copy (read_only_memtables (tree w)) k)) None seq
        | Missing => join c (ro_copy (read_only_memtables (tree w)) k) end))
    = Ok (join c (join (ro_copy (read_only_memtables (tree w)) k) (files_copy w k)))) as Hbody.
  { intros c. destruct (lookup_sstable_exact w k (join c (ro_copy (read_only_memtables (tree w)) k)) Hw) as (hit & -> & Hj). cbn [result_bind].
    f_equal. rewrite join_assoc, <-Hj. by destruct hit. }
  unfold active_copy, cand at 1. destruct (om_get k (mem_content (memtable (tree w)))) as [[[v s] tomb]|] eqn:E; cbn [fmap option_fmap option_map].
  - pose proof (inv_lower w Hw k) as Hl. unfold lower_copy in Hl. destruct (seq_newer_or_eq s (max_lower_seq (tree w))) eqn:Es.
    + f_equal. symmetry. apply join_absorb. unfold seq_newer_or_eq in Es. apply Z.leb_le in Es. intros v' s' Hc.
      destruct (Hl v' s' Hc) as (? & ? & [= <- <-] & ?). eexists _, _. split; [done|]. cbn. lia.
    + rewrite fold_ros by (intros ro Hro; by apply run_wf, (inv_ro w Hw)). apply Hbody.
  - rewrite fold_ros by (intros ro Hro; by apply run_wf, (inv_ro w Hw)). rewrite Hbody. done.
Qed.

Lemma get_with_seq_held w k : Inv w → Forall byte k → get_with_seq w k = Ok (visible (newest_held w k)).
Proof using All. intros Hw Hk. unfold get_with_seq. by rewrite newest_copy_held. Qed.
End reads.
