(* ===== verification/LsmFlushes.v ===== *)
(** * LsmFlushes: flushing a read-only memtable to Level 0

    Each bucket's share of the records becomes a file, registered only once every bucket
    is written and the observer has agreed; a failure on the way undoes the files written. *)
From S2P Require Import Prelude Slices Bytes OrdMap Keys LsmFilters SsTable SsTableSpec MemTable LsmTree LsmReads.

(** ** What a write and the sealing of a memtable do to the copies *)

(** ** Order of sequences *)

Lemma seq_le_trans a b c : seq_le a b → seq_le b c → seq_le a c.
Proof.
  intros Hab Hbc v s Ha. destruct (Hab v s Ha) as (v' & s' & Hb & ?). destruct (Hbc v' s' Hb) as (v'' & s'' & Hc & ?).
  exists v'', s''. split; [done|lia].
Qed.
Lemma seq_le_refl c : seq_le c c.
Proof. intros v s ->. by exists v, s. Qed.
Lemma seq_le_join_l a b : seq_le a (join a b).
Proof.
  intros v s ->. destruct b as [[v' s']|]; [|exists v, s; split; [done|lia]]. rewrite join_Some.
  destruct (Z.ltb_spec s s'); eexists _, _; (split; [done|lia]).
Qed.
Lemma seq_le_join_r a b : seq_le b (join a b).
Proof.
  intros v s ->. destruct a as [[v' s']|]; [|rewrite join_None_l; exists v, s; split; [done|lia]]. rewrite join_Some.
  destruct (Z.ltb_spec s' s); eexists _, _; (split; [done|lia]).
Qed.
Lemma seq_le_join a b c : seq_le a c → seq_le b c → seq_le (join a b) c.
Proof.
  intros Ha Hb. destruct b as [[v s]|]; [|done]. destruct a as [[v' s']|]; [|by rewrite join_None_l].
  rewrite join_Some. by destruct (s' <? s).
Qed.
Lemma seq_le_elem d l : d ∈ l → seq_le d (newest l).
Proof.
  induction l as [|c l IH]; [by intros ?%elem_of_nil|]. rewrite newest_cons. intros [->|Hd]%elem_of_cons; [apply seq_le_join_l|].
  eapply seq_le_trans; [by apply IH|apply seq_le_join_r].
Qed.
(** Only the sequence of the bound matters. *)
Lemma seq_le_bound c v v' s s' : seq_le c (Some (v, s)) → s ≤ s' → seq_le c (Some (v', s')).
Proof. intros Hc Hs x y Hx. destruct (Hc x y Hx) as (? & ? & [= <- <-] & ?). exists v', s'. split; [done|lia]. Qed.

#[export] Hint Resolve seq_le_join_l seq_le_join_r seq_le_join seq_le_refl seq_le_elem seq_le_None : lsm.

(** ** Writing into a run *)

Lemma cand_insert (m : run) k c k' : cand (om_insert k c m) k' = if decide (k' = k) then Some (live c.2 c.1.1, c.1.2) else cand m k'.
Proof. unfold cand. rewrite om_get_insert. by case_decide. Qed.

Lemma cand_put (m : run) k value seq k' : cand (put_copy k value seq m) k' = if decide (k' = k) then join (Some (Some value, seq)) (cand m k) else cand m k'.
Proof.
  unfold put_copy. destruct (om_get k m) as [[[v s] t]|] eqn:E.
  - assert (cand m k = Some (live t v, s)) as Hk by (unfold cand; by rewrite E). rewrite Hk, join_Some.
    destruct (Z.leb_spec s seq); [rewrite cand_insert; case_decide; [|done]; by rewrite (proj2 (Z.ltb_ge _ _))|].
    case_decide; [subst|done]. by rewrite (proj2 (Z.ltb_lt _ _)).
  - assert (cand m k = None) as -> by (unfold cand; by rewrite E). by rewrite cand_insert, join_None_r.
Qed.

Lemma cand_delete (m : run) k seq k' : cand (delete_copy k seq m) k' = if decide (k' = k) then join (Some (None, seq)) (cand m k) else cand m k'.
Proof.
  unfold delete_copy. destruct (om_get k m) as [[[v s] t]|] eqn:E.
  - assert (cand m k = Some (live t v, s)) as Hk by (unfold cand; by rewrite E). rewrite Hk, join_Some.
    destruct (Z.leb_spec s seq); [rewrite cand_insert; case_decide; [|done]; by rewrite (proj2 (Z.ltb_ge _ _))|].
    case_decide; [subst|done]. by rewrite (proj2 (Z.ltb_lt _ _)).
  - assert (cand m k = None) as -> by (unfold cand; by rewrite E). by rewrite cand_insert, join_None_r.
Qed.

Section runs.
Context `{RkyvSst}.

Lemma run_ok_nil : run_ok [].
Proof using. split; [constructor|]. by intros k c ?%elem_of_nil. Qed.
Lemma run_ok_insert (m : run) k c : run_ok m → valid_key k → valid_copy c → run_ok (om_insert k c m).
Proof using.
  intros [Hwf Hv] Hk Hc. split; [by apply om_insert_wf|]. intros k' c' [[= -> ->]|Hin]%elem_of_om_insert; [done|by apply (Hv k' c')].
Qed.
Lemma run_ok_put (m : run) k value seq : run_ok m → valid_key k → valid_copy (value, seq, false) → run_ok (put_copy k value seq m).
Proof using.
  intros Hm Hk Hc. unfold put_copy. destruct (om_get k m) as [[[v s] t]|]; [destruct (s <=? seq)|]; [by apply run_ok_insert|done|by apply run_ok_insert].
Qed.
Lemma run_ok_delete (m : run) k seq : run_ok m → valid_key k → u64 seq → run_ok (delete_copy k seq m).
Proof using.
  intros Hm Hk Hc. unfold delete_copy. destruct (om_get k m) as [[[v s] t]|] eqn:E; [destruct (s <=? seq)|]; [|done|apply run_ok_insert; [done|done|by split]].
  apply run_ok_insert; [done|done|]. destruct Hm as [Hwf Hv]. apply om_get_Some in E; [|done]. destruct (Hv k _ E) as [_ [Hval _]]. by split.
Qed.
End runs.

Lemma copy_record p : copy_of (record_of p) = p.
Proof. by destruct p as [k [[v s] t]]. Qed.
Lemma copies_records (m : run) : copy_of <$> (record_of <$> m) = m.
Proof. induction m as [|p m IH]; [done|]. by rewrite !fmap_cons, copy_record, IH. Qed.

Section writes.
Context `{CrcLaws, RkyvSstLaws, Murmur3Laws} {M : Type} `{MemTableLaws M}.
Implicit Types (w : World M) (t : LSMTree M).
Local Open Scope minnal_scope.

(** A change of the memtables alone. *)
Lemma inv_upper w w' : Inv w → buckets (tree w') = buckets (tree w) → config (tree w') = config (tree w) →
  last_l0_stamp (tree w') = last_l0_stamp (tree w) → disk w' = disk w →
  mem_wf (memtable (tree w')) → run_ok (mem_content (memtable (tree w'))) →
  (∀ ro, ro ∈ read_only_memtables (tree w') → run_ok (ro_run ro)) →
  (∀ k, seq_le (lower_copy w' k) (Some (None, max_lower_seq (tree w')))) → Inv w'.
Proof using.
  intros Hw Hb Hc Hl Hd Hwf Hm Hr Hs. destruct Hw as [I1 I2 _ _ _ I6 I7 I8 I9 _].
  assert (∀ b, bucket_at (tree w') b = bucket_at (tree w) b) as Hbk by (intros; unfold bucket_at; by rewrite Hb).
  split; [by rewrite Hc|by rewrite Hb, Hc|done|done|done| | | | |done].
  - intros b f. rewrite Hbk, Hc, Hd. apply I6.
  - intros b. rewrite Hbk, Hc. apply I7.
  - intros b. rewrite Hbk. apply I8.
  - intros b f. rewrite Hbk, Hl. apply I9.
Qed.

Lemma files_copy_same w w' k : buckets (tree w') = buckets (tree w) → config (tree w') = config (tree w) → disk w' = disk w →
  files_copy w' k = files_copy w k.
Proof using. intros Hb Hc Hd. unfold files_copy, bucket_of, bucket_at. by rewrite Hb, Hc, Hd. Qed.

Lemma ro_copy_app ros ros' k : ro_copy (ros ++ ros') k = join (ro_copy ros' k) (ro_copy ros k).
Proof using. unfold ro_copy. by rewrite rev_app_distr, fmap_app, newest_app. Qed.
Lemma ro_copy_singleton ro k : ro_copy [ro] k = cand (ro_run ro) k.
Proof using. unfold ro_copy. cbn [rev app]. rewrite list_fmap_singleton, newest_cons. done. Qed.
Lemma ro_copy_elem ro ros k : ro ∈ ros → seq_le (cand (ro_run ro) k) (ro_copy ros k).
Proof using.
  intros Hro. apply seq_le_elem, list_elem_of_fmap. exists ro. split; [done|]. rewrite list_elem_of_In in *. by apply in_rev in Hro.
Qed.

(** ** Sealing the memtable *)

(** The memtable becomes the newest read-only one, nothing is lost and an empty table takes
    its place. *)
Lemma flush_memtable_ok w : Inv w →
  ∃ ro, ro_run ro = mem_content (memtable (tree w)) ∧ ro_version ro = ro_memtable_version (tree w) ∧ flushed_to_level0 ro = false ∧
    read_only_memtables (tree (flush_memtable w)) = read_only_memtables (tree w) ++ [ro] ∧
    ro_memtable_version (tree (flush_memtable w)) = ro_memtable_version (tree w) + 1 ∧
    buckets (tree (flush_memtable w)) = buckets (tree w) ∧ config (tree (flush_memtable w)) = config (tree w) ∧
    last_l0_stamp (tree (flush_memtable w)) = last_l0_stamp (tree w) ∧ disk (flush_memtable w) = disk w ∧
    mem_content (memtable (tree (flush_memtable w))) = [] ∧ mem_wf (memtable (tree (flush_memtable w))) ∧
    (∀ k, seq_le (join (active_copy (tree w) k) (lower_copy w k)) (Some (None, max_lower_seq (tree (flush_memtable w))))).
Proof using All.
  intros Hw. set (m := mem_content (memtable (tree w))).
  assert (mem_records (memtable (tree w)) = record_of <$> m) as Hrec.
  { rewrite mem_records_ok by apply (inv_wf w Hw). fold m. f_equal. pose proof (inv_mem w Hw) as [_ Hv]. fold m in Hv. revert Hv. generalize m. clear. intros m Hv.
    induction m as [|[k c] m IH]; [done|]. unfold ordmap. rewrite filter_cons_True by apply (Hv k c (list_elem_of_here _ _)).
    f_equal. apply IH. intros k' c' Hin. apply (Hv k' c'). by right. }
  destruct (mem_new_ok (skip_list_capacity (config (tree w)))) as [Hwf Hnil].
  exists (mk_ro (record_of <$> m) 0 (ro_memtable_version (tree w)) false). unfold flush_memtable. rewrite Hrec.
  split_and!; try done; try (cbn; by destruct (foldl newest_seq _ _)).
  - apply copies_records.
  - intros k. pose proof (inv_lower w Hw k) as Hl. cbn [tree max_lower_seq]. unfold active_copy. fold m.
    assert (kv_seq <$> (record_of <$> m) = (sst_seq <$> (ent <$> m))) as -> by (rewrite <-!list_fmap_compose; done).
    fold (newest_of (ent <$> m)). destruct (newest_of (ent <$> m)) as [n|] eqn:En; cbn [note_lower_seq max_lower_seq].
    + unfold seq_newer. pose proof (newest_seq_le m k n (run_wf m (inv_mem w Hw)) En None) as Hm.
      apply seq_le_join; (eapply seq_le_bound; [done|]); destruct (Z.ltb_spec (max_lower_seq (tree w)) n); lia.
    + apply seq_le_join; [|done]. intros v s Hc. apply cand_Some in Hc as (c & Hin & _); [|apply (inv_mem w Hw)].
      apply newest_of_ge in Hin as (s' & Hs & _). by rewrite En in Hs.
Qed.

Lemma flush_memtable_inv w : Inv w → Inv (flush_memtable w) ∧ ∀ k, newest_held (flush_memtable w) k = newest_held w k ∧
  active_copy (tree (flush_memtable w)) k = None ∧ files_copy (flush_memtable w) k = files_copy w k.
Proof using All.
  intros Hw. destruct (flush_memtable_ok w Hw) as (ro & Hr & _ & _ & Hros & _ & Hb & Hc & Hl & Hd & Hm & Hwf & Hs).
  assert (∀ k, lower_copy (flush_memtable w) k = join (active_copy (tree w) k) (lower_copy w k)) as Hlow.
  { intros k. unfold lower_copy. rewrite Hros, ro_copy_app, ro_copy_singleton, Hr, (files_copy_same _ _ k Hb Hc Hd). by rewrite join_assoc. }
  split.
  - apply (inv_upper w); try done.
    + rewrite Hm. apply run_ok_nil.
    + intros ro'. rewrite Hros. intros [Hin| ->%list_elem_of_singleton]%elem_of_app; [by apply (inv_ro w Hw)|]. rewrite Hr. apply (inv_mem w Hw).
    + intros k. rewrite Hlow. apply Hs.
  - intros k. split_and!.
    + unfold newest_held at 1. rewrite Hlow. unfold active_copy at 1. by rewrite Hm, join_None_l.
    + unfold active_copy. by rewrite Hm.
    + by apply files_copy_same.
Qed.

(** ** Writes *)

Definition sealed_first w : World M := if should_flush (tree w) then flush_memtable w else w.

Lemma sealed_first_inv w : Inv w → Inv (sealed_first w) ∧ ∀ k, newest_held (sealed_first w) k = newest_held w k.
Proof using All.
  intros Hw. unfold sealed_first. destruct (should_flush _); [|done]. destruct (flush_memtable_inv w Hw) as [? Hk]. split; [done|]. intros k. apply Hk.
Qed.

(** Replacing the content of the memtable. *)
Lemma set_memtable_inv w m : Inv w → mem_wf m → run_ok (mem_content m) → Inv (with_tree w (with_memtable (tree w) m)).
Proof using All.
  intros Hw Hwf Hm. apply (inv_upper w); try done; [apply (inv_ro w Hw)|]. intros k. apply (inv_lower w Hw k).
Qed.
Lemma set_memtable_held w m k : newest_held (with_tree w (with_memtable (tree w) m)) k = join (cand (mem_content m) k) (lower_copy w k).
Proof using. done. Qed.

(** What a write of the copy [c] of [k] leaves, done ([ok]) or refused. *)
Definition written w w' (k : key) (c : Candidate) (ok : bool) : Prop :=
  Inv w' ∧ (∀ k', lower_copy w' k' = lower_copy w k') ∧ (∀ k', files_copy w' k' = files_copy w k') ∧
  read_only_memtables (tree w') = read_only_memtables (tree w) ∧ ro_memtable_version (tree w') = ro_memtable_version (tree w) ∧
  ∀ k', active_copy (tree w') k' = if ok && bool_decide (k' = k) then join c (active_copy (tree w) k) else active_copy (tree w) k'.

Lemma set_memtable_written w m k c ok : Inv w → mem_wf m → run_ok (mem_content m) →
  (∀ k', cand (mem_content m) k' = if ok && bool_decide (k' = k) then join c (active_copy (tree w) k) else active_copy (tree w) k') →
  written w (with_tree w (with_memtable (tree w) m)) k c ok.
Proof using All. intros Hw Hwf Hm Hc. split_and!; try done. by apply set_memtable_inv. Qed.

Lemma if_decide_bool {A} (k k' : key) (x y : A) : (if decide (k' = k) then x else y) = if bool_decide (k' = k) then x else y.
Proof using. case_decide; [by rewrite bool_decide_true|by rewrite bool_decide_false]. Qed.

Lemma insert_with_seq_ok w k value seq : Inv w → valid_key k → valid_copy (value, seq, false) →
  written (sealed_first w) (insert_with_seq w k value seq).2 k (Some (Some value, seq)) (is_ok (insert_with_seq w k value seq).1).
Proof using All.
  intros Hw Hk Hc0. unfold insert_with_seq. fold (sealed_first w). destruct (sealed_first_inv w Hw) as [Hw' _]. set (u := sealed_first w) in *.
  pose proof (mem_insert_ok (memtable (tree u)) k value seq (inv_wf u Hw') ltac:(apply Hk)) as Hi. destruct (mem_insert _ _ _ _) as [r m].
  destruct Hi as [Hwf Hc]. cbn [fst snd]. apply set_memtable_written; [done|done|..]; rewrite Hc.
  - destruct (is_ok r); [apply run_ok_put; [|done|done]|]; apply (inv_mem u Hw').
  - intros k'. destruct r as [old|[]]; cbn [is_ok andb]; [|done]. by rewrite cand_put, if_decide_bool.
Qed.

Lemma delete_with_seq_ok w k seq : Inv w → valid_key k → u64 seq →
  written (sealed_first w) (delete_with_seq w k seq).2 k (Some (None, seq)) (is_ok (delete_with_seq w k seq).1).
Proof using All.
  intros Hw Hk Hc0. unfold delete_with_seq. fold (sealed_first w). destruct (sealed_first_inv w Hw) as [Hw' _]. set (u := sealed_first w) in *.
  pose proof (mem_delete_ok (memtable (tree u)) k seq (inv_wf u Hw') ltac:(apply Hk)) as Hi. destruct (mem_delete _ _ _) as [r m].
  destruct Hi as [Hwf Hc]. cbn [fst snd]. apply set_memtable_written; [done|done|..]; rewrite Hc.
  - destruct (is_ok r); [apply run_ok_delete; [|done|done]|]; apply (inv_mem u Hw').
  - intros k'. destruct r as [old|[]]; cbn [is_ok andb]; [|done]. by rewrite cand_delete, if_decide_bool.
Qed.
End writes.

(** ** Flushing a read-only memtable to Level 0 *)

(** ** Lists *)

Lemma sort_by_top {A} (f : A → Z) x l : (∀ y, y ∈ l → f x < f y) → sort_by_key f (l ++ [x]) = x :: sort_by_key f l.
Proof.
  unfold sort_by_key. induction l as [|y l IH]; intros Hl; [done|]. cbn [app foldr]. rewrite IH by (intros; apply Hl; by right).
  cbn [insert_by]. by rewrite (proj2 (Z.leb_gt _ _)) by (apply Hl; left).
Qed.

Lemma cand_filter (m : run) (P : key → Prop) `{∀ p : key * copy, Decision (P p.1)} k : om_wf m → P k → cand (filter (λ p : key * copy, P p.1) m) k = cand m k.
Proof.
  intros Hwf Hk. unfold cand. f_equal. apply option_eq. intros c.
  rewrite !om_get_Some by (done || by apply (om_wf_sublist m); [apply sublist_filter|]). rewrite list_elem_of_filter. naive_solver.
Qed.
Lemma cand_filter_out (m : run) (P : key → Prop) `{∀ p : key * copy, Decision (P p.1)} k : om_wf m → ¬ P k → cand (filter (λ p : key * copy, P p.1) m) k = None.
Proof.
  intros Hwf Hk. unfold cand. replace (om_get k _) with (None : option copy); [done|]. symmetry.
  apply om_get_None; [apply (om_wf_sublist m); [apply sublist_filter|done]|]. intros c. rewrite list_elem_of_filter. naive_solver.
Qed.

Section records.
Context `{RkyvSst}.

Lemma record_copy r : record_of (copy_of r) = r.
Proof using. by destruct r. Qed.
Lemma records_copies (l : list KeyValueRecord) : record_of <$> (copy_of <$> l) = l.
Proof using. induction l as [|r l IH]; [done|]. by rewrite !fmap_cons, record_copy, IH. Qed.

Lemma sort_records_run (m : run) : om_wf m → sort_records (record_of <$> m) = record_of <$> m.
Proof using.
  unfold sort_records. induction m as [|[k c] m IH]; intros Hwf; [done|]. apply om_wf_cons in Hwf as [Hk Hwf].
  rewrite fmap_cons. cbn [foldr]. rewrite IH by done. destruct m as [|[k' c'] m]; [done|]. rewrite fmap_cons. cbn [insert_record].
  change (kv_key (record_of (k, c))) with k. change (kv_key (record_of (k', c'))) with k'.
  rewrite key_lt_le_weak; [done|]. apply key_lt_spec, (Hk k' c'). left.
Qed.

Lemma filter_records (m : run) (P : key → Prop) `{∀ r, Decision (P (kv_key r)), ∀ p : key * copy, Decision (P p.1)} :
  filter (λ r, P (kv_key r)) (record_of <$> m) = record_of <$> filter (λ p : key * copy, P p.1) m.
Proof using.
  unfold ordmap. induction m as [|p m IH]; [done|]. rewrite fmap_cons, !filter_cons.
  assert (kv_key (record_of p) = p.1) as Hkey by done.
  destruct (decide (P (kv_key (record_of p)))), (decide (P p.1)); try done. by rewrite fmap_cons, IH.
Qed.
End records.

(** ** The file of a bucket *)

Section flush.
Context `{CrcLaws, RkyvSstLaws, Murmur3Laws} {M : Type} `{MemTableLaws M}.
Implicit Types (w : World M) (t : LSMTree M).
Local Open Scope minnal_scope.

(** The share of a run that belongs to bucket [b]. *)
Definition share t (b : Z) (m : run) : run := filter (λ p : key * copy, bucket_of t p.1 = b) m.

Lemma bucket_records_share t b ro : om_wf (ro_run ro) → bucket_records t b (ro_records ro) = record_of <$> share t b (ro_run ro).
Proof using.
  intros Hwf. unfold bucket_records. rewrite <-(records_copies (ro_records ro)) at 1. fold (ro_run ro).
  rewrite (filter_records (ro_run ro) (λ k, bucket_of t k = b)). apply sort_records_run.
  apply (om_wf_sublist (ro_run ro)); [apply sublist_filter|done].
Qed.

Lemma share_ok t b (m : run) : run_ok m → run_ok (share t b m).
Proof using. apply run_ok_sub, sublist_filter. Qed.

Lemma cand_share t b (m : run) k : om_wf m → cand (share t b m) k = if decide (bucket_of t k = b) then cand m k else None.
Proof using.
  intros Hwf. unfold share. case_decide; [by apply (cand_filter m (λ k, bucket_of t k = b))|by apply (cand_filter_out m (λ k, bucket_of t k = b))].
Qed.

Lemma of_sorted_fold (l : list (key * Z)) : ∀ mk ms, 
  foldl (λ acc r : key * Z, (r.1, if seq_newer r.2 acc.2 then r.2 else acc.2)) (mk, ms) l =
    (default mk (fst <$> last l), default 0 (foldl newest_seq (Some ms) (snd <$> l))).
Proof using.
  induction l as [|[k s] l IH]; intros mk ms; [done|]. cbn [foldl fst snd]. rewrite IH, fmap_cons. cbn [foldl snd newest_seq].
  rewrite last_cons. f_equal; [by destruct (last l)|]. by destruct (seq_newer s ms).
Qed.

Lemma of_sorted_run (m : run) : m ≠ [] →
  of_sorted ((λ r, (kv_key r, kv_seq r)) <$> (record_of <$> m)) =
    Some (mk_summary (s0_min_key (run_summary m)) (s0_max_key (run_summary m)) (s0_max_seq (run_summary m)) (s0_entries (run_summary m)) (s0_bloom (run_summary m)) None).
Proof using.
  destruct m as [|[k [[v s] tb]] m]; [done|intros _].
  assert (∀ n : run, (λ r, (kv_key r, kv_seq r)) <$> (record_of <$> n) = (λ e, (sst_key e, sst_seq e)) <$> (ent <$> n)) as Hmap
    by (intros n; by rewrite <-!list_fmap_compose).
  rewrite Hmap, fmap_cons. cbn [of_sorted]. change (ent <$> (k, (v, s, tb)) :: m) with (ent (k, (v, s, tb)) :: (ent <$> m)).
  set (e := ent (k, (v, s, tb))). set (es := ent <$> m). rewrite fmap_cons. cbn [of_sorted]. rewrite of_sorted_fold.
  unfold run_summary. change (ent <$> (k, (v, s, tb)) :: m) with (e :: es). unfold newest_of. rewrite fmap_cons.
  cbn [s0_min_key s0_max_key s0_max_seq s0_entries s0_bloom head fmap option_fmap option_map default foldl newest_seq].
  assert (((λ e0, (sst_key e0, sst_seq e0)) <$> es).*2 = sst_seq <$> es) as -> by (by rewrite <-list_fmap_compose).
  assert (((λ e0, (sst_key e0, sst_seq e0)) <$> es).*1 = sst_key <$> es) as -> by (by rewrite <-list_fmap_compose).
  rewrite fmap_last, last_cons. replace (zlen ((sst_key e, sst_seq e) :: ((λ e0, (sst_key e0, sst_seq e0)) <$> es))) with (zlen (e :: es))
    by (rewrite !zlen_cons, zlen_fmap; done).
  by destruct (last es).
Qed.

(** The bytes written are the table of the share, the entry describes it. *)
Lemma l0_contents_run (m : run) stamp : m ≠ [] →
  l0_contents (record_of <$> m) stamp = (table (ent <$> m), mk_l0 stamp stamp (Some (run_summary m)) 0 false).
Proof using.
  intros Hne. unfold l0_contents. assert (entry_of <$> (record_of <$> m) = ent <$> m) as -> by (by rewrite <-list_fmap_compose).
  pose proof (write_entries_bytes (ent <$> m) 0 SSTABLE_DATA_START []) as [Hb _].
  pose proof (write_entries_index (ent <$> m) 0 SSTABLE_DATA_START []) as Hi.
  destruct (write_entries _ _ _ _) as [[bytes idx] o]. cbn [fst snd] in Hb, Hi. subst. rewrite of_sorted_run by done. done.
Qed.

Lemma l0_contents_ok d b (m : run) stamp : run_ok m → m ≠ [] → disk_l0 d !! (b, stamp) = Some (table (ent <$> m)) →
  l0_ok d b (mk_l0 stamp stamp (Some (run_summary m)) 0 false) m.
Proof using. intros Hm Hne Hd. by split. Qed.

(** ** Writing the buckets *)

Definition bucket_file t (m : run) (stamp b : Z) : list (Z * L0FileEntry) :=
  match share t b m with [] => [] | s => [(b, mk_l0 stamp stamp (Some (run_summary s)) 0 false)] end.

Lemma write_one_ok t d b ro stamp out : run_ok (ro_run ro) →
  let (r, d') := write_level0_file_for_records t d b (ro_records ro) stamp out in
  (∀ b' name, (b', name) ≠ (b, stamp) → disk_l0 d' !! (b', name) = disk_l0 d !! (b', name)) ∧
  match r with
  | Ok o => bucket_file t (ro_run ro) stamp b = from_option (λ f, [(b, f)]) [] o ∧
      (share t b (ro_run ro) ≠ [] → disk_l0 d' !! (b, stamp) = Some (table (ent <$> share t b (ro_run ro))))
  | Err _ => True
  end.
Proof using.
  intros Hro. unfold write_level0_file_for_records. rewrite bucket_records_share by apply Hro. unfold bucket_file.
  destruct (share t b (ro_run ro)) as [|p s] eqn:Es; [done|].
  pose proof (l0_contents_run (p :: s) stamp ltac:(done)) as Hc. rewrite fmap_cons in *. rewrite Hc.
  destruct out; (split; [intros b' name Hn; cbn; try (rewrite lookup_insert_ne by congruence); done|]); try done.
  split; [done|]. intros _. cbn. by rewrite lookup_insert_eq.
Qed.

Lemma write_buckets_ok t ro stamp out n : run_ok (ro_run ro) → ∀ b d written,
  let '(r, written', d') := write_buckets n b t d (ro_records ro) stamp out written in
  (∀ b' name, name ≠ stamp ∨ b' < b → disk_l0 d' !! (b', name) = disk_l0 d !! (b', name)) ∧
  match r with
  | Ok _ => written' = written ++ (seqZ b (Z.of_nat n) ≫= bucket_file t (ro_run ro) stamp) ∧
      ∀ b', b ≤ b' < b + Z.of_nat n → share t b' (ro_run ro) ≠ [] → disk_l0 d' !! (b', stamp) = Some (table (ent <$> share t b' (ro_run ro)))
  | Err _ => ∃ W, written' = written ++ W ∧ ∀ x, x ∈ W → l0_name x.2 = stamp
  end.
Proof using.
  intros Hro. induction n as [|n IH]; intros b d written; cbn [write_buckets].
  { split; [done|]. split; [by rewrite app_nil_r|lia]. }
  pose proof (write_one_ok t d b ro stamp (out b) Hro) as Hone. destruct (write_level0_file_for_records _ _ _ _ _ _) as [[o|e] d1].
  2: { destruct Hone as [Hframe _]. split; [intros b' name Hn; apply Hframe; intros [= -> ->]; destruct Hn; [done|lia]|].
       exists []. split; [by rewrite app_nil_r|]. by intros x ?%elem_of_nil. }
  destruct Hone as (Hframe & Hfile & Hdisk). rewrite <-Hfile.
  specialize (IH (b + 1) d1 (written ++ bucket_file t (ro_run ro) stamp b)).
  destruct (write_buckets _ _ _ _ _ _ _ _) as [[r written'] d']. destruct IH as [Hf Hr]. split.
  { intros b' name Hn. rewrite Hf by (destruct Hn; [by left|right; lia]). apply Hframe. intros [= -> ->]. destruct Hn; [done|lia]. }
  destruct r as [[]|e].
  - destruct Hr as [-> Hr]. split.
    + rewrite (seqZ_cons b) by lia. rewrite bind_cons, <-app_assoc. unfold Z.succ. by replace (Z.pred (Z.of_nat (S n))) with (Z.of_nat n) by lia.
    + intros b' Hb Hne. destruct (decide (b' = b)) as [->|]; [|apply Hr; [lia|done]]. rewrite Hf by (right; lia). by apply Hdisk.
  - destruct Hr as (W & -> & HW). exists (bucket_file t (ro_run ro) stamp b ++ W). split; [by rewrite app_assoc|].
    intros x [Hx|Hx]%elem_of_app; [|by apply HW]. unfold bucket_file in Hx. destruct (share _ _ _); [by apply elem_of_nil in Hx|].
    by apply list_elem_of_singleton in Hx as ->.
Qed.

Lemma remove_written_frame written : ∀ d b name, (∀ x, x ∈ written → l0_name x.2 ≠ name) →
  disk_l0 (remove_written d written) !! (b, name) = disk_l0 d !! (b, name).
Proof using.
  unfold remove_written. induction written as [|x written IH]; intros d b name Hx; [done|]. cbn [foldl].
  rewrite IH by (intros; apply Hx; by right). cbn. rewrite lookup_delete_ne; [done|]. intros [= _ Heq]. by apply (Hx x (list_elem_of_here _ _)).
Qed.

(** ** Registering the files *)

Lemma bucket_at_with t b bk b' : 0 ≤ b < zlen (buckets t) → 0 ≤ b' → bucket_at (with_bucket t b bk) b' = if decide (b' = b) then bk else bucket_at t b'.
Proof using.
  intros Hb Hb'. unfold bucket_at, with_bucket, zlen in *. cbn [buckets]. case_decide as Hd.
  - subst. rewrite list_lookup_insert_eq; [done|lia].
  - rewrite list_lookup_insert_ne; [done|lia].
Qed.

Definition with_files (bk : Bucket) (fs : list L0FileEntry) : Bucket :=
  mk_bucket (sstable_file bk) (sstable_metadata bk) (sstable_bloom bk) (sstable_index bk) fs (compaction_in_progress bk).

(** Only the buckets differ. *)
Definition upper_same t t' : Prop :=
  memtable t' = memtable t ∧ read_only_memtables t' = read_only_memtables t ∧ max_lower_seq t' = max_lower_seq t ∧
  ro_memtable_version t' = ro_memtable_version t ∧ pending_old_memtables t' = pending_old_memtables t ∧
  last_l0_stamp t' = last_l0_stamp t ∧ config t' = config t.

Lemma register_one t b f : 0 ≤ b < zlen (buckets t) → (∀ g, g ∈ level0_files (bucket_at t b) → l0_name g ≠ l0_name f) →
  upper_same t (register_level0_file t b f) ∧ length (buckets (register_level0_file t b f)) = length (buckets t) ∧
  ∀ b', 0 ≤ b' → bucket_at (register_level0_file t b f) b' =
    if decide (b' = b) then with_files (bucket_at t b) (level0_files (bucket_at t b) ++ [f]) else bucket_at t b'.
Proof using.
  intros Hb Hf. unfold register_level0_file. destruct (existsb _ _) eqn:E.
  { apply existsb_exists in E as (g & Hg & Heq%Z.eqb_eq). apply list_elem_of_In in Hg. by apply Hf in Hg. }
  split; [done|]. split; [cbn; by rewrite length_insert|]. intros b' Hb'. by apply bucket_at_with.
Qed.

Lemma register_all t (m : run) stamp n : ∀ b, 0 ≤ b → b + Z.of_nat n ≤ zlen (buckets t) →
  (∀ b' g, b ≤ b' → g ∈ level0_files (bucket_at t b') → l0_name g ≠ stamp) →
  let t' := foldl (λ t p, register_level0_file t p.1 p.2) t (seqZ b (Z.of_nat n) ≫= bucket_file t m stamp) in
  upper_same t t' ∧ length (buckets t') = length (buckets t) ∧
  ∀ b', 0 ≤ b' → bucket_at t' b' =
    if decide (b ≤ b' < b + Z.of_nat n) then with_files (bucket_at t b') (level0_files (bucket_at t b') ++ (bucket_file t m stamp b').*2) else bucket_at t b'.
Proof using.
  assert (∀ u b n, 0 ≤ b → b + Z.of_nat n ≤ zlen (buckets u) → config u = config t →
    (∀ b' g, b ≤ b' → g ∈ level0_files (bucket_at u b') → l0_name g ≠ stamp) →
    let t' := foldl (λ t p, register_level0_file t p.1 p.2) u (seqZ b (Z.of_nat n) ≫= bucket_file t m stamp) in
    upper_same u t' ∧ length (buckets t') = length (buckets u) ∧
    ∀ b', 0 ≤ b' → bucket_at t' b' =
      if decide (b ≤ b' < b + Z.of_nat n) then with_files (bucket_at u b') (level0_files (bucket_at u b') ++ (bucket_file t m stamp b').*2) else bucket_at u b') as Hall.
  { clear n. intros u b n. revert u b. induction n as [|n IH]; intros u b Hb Hn Hcfg Hg; cbv zeta.
    { split; [done|]. split; [done|]. intros b' Hb'. by rewrite decide_False by lia. }
    rewrite (seqZ_cons b) by lia. replace (Z.pred (Z.of_nat (S n))) with (Z.of_nat n) by lia. unfold Z.succ. rewrite bind_cons, foldl_app.
    assert (∃ u1, foldl (λ t p, register_level0_file t p.1 p.2) u (bucket_file t m stamp b) = u1 ∧ upper_same u u1 ∧ length (buckets u1) = length (buckets u) ∧
      ∀ b', 0 ≤ b' → bucket_at u1 b' = if decide (b' = b) then with_files (bucket_at u b) (level0_files (bucket_at u b) ++ (bucket_file t m stamp b).*2) else bucket_at u b')
      as (u1 & -> & Hup & Hlen & Hbk).
    { eexists. split; [done|]. unfold bucket_file. destruct (share t b m) as [|p s]; cbn [foldl fst snd fmap list_fmap].
      - split; [done|]. split; [done|]. intros b' Hb'. case_decide; [subst|done]. rewrite app_nil_r. by destruct (bucket_at u b).
      - apply register_one; [lia|]. intros g Hin. cbn. by apply (Hg b). }
    destruct (IH u1 (b + 1)) as (Hup' & Hlen' & Hbk').
    - lia.
    - unfold zlen in *. lia.
    - by destruct Hup as (_ & _ & _ & _ & _ & _ & ->).
    - intros b' g Hb' Hin. rewrite Hbk in Hin by lia. rewrite decide_False in Hin by lia. apply (Hg b'); [lia|done].
    - split; [|split].
      + unfold upper_same in *. destruct Hup as (?&?&?&?&?&?&?), Hup' as (?&?&?&?&?&?&?). split_and!; congruence.
      + by rewrite Hlen'.
      + intros b' Hb'. rewrite Hbk', Hbk by done. destruct (decide (b' = b)) as [->|].
        * by rewrite decide_False, decide_True by lia.
        * destruct (decide (b + 1 ≤ b' < b + 1 + Z.of_nat n)); [by rewrite decide_True by lia|by rewrite decide_False by lia]. }
  intros b Hb Hn Hg. by apply Hall.
Qed.

(** ** The flush *)

Lemma bucket_at_neg t b : bucket_at t b = bucket_at t (Z.max 0 b).
Proof using. unfold bucket_at. by replace (Z.to_nat b) with (Z.to_nat (Z.max 0 b)) by lia. Qed.

Lemma l0_copy_frame d d' b fs k : (∀ f, f ∈ fs → disk_l0 d' !! (b, l0_name f) = disk_l0 d !! (b, l0_name f)) → l0_copy d' b fs k = l0_copy d b fs k.
Proof using.
  intros Hd. unfold l0_copy. f_equal. induction fs as [|f fs IH]; [done|]. rewrite !fmap_cons, IH by (intros; apply Hd; by right).
  f_equal. unfold l0_run_of. by rewrite Hd by left.
Qed.

Lemma l0_ok_frame d d' b f m : disk_l0 d' !! (b, l0_name f) = disk_l0 d !! (b, l0_name f) → l0_ok d b f m → l0_ok d' b f m.
Proof using. intros Hd [? ? ? ? ?]. split; [done|done|by rewrite Hd|done|done]. Qed.

(** A change of the disk that leaves the registered files, of events and of the last stamp. *)
Lemma inv_frame w w' : Inv w → memtable (tree w') = memtable (tree w) → read_only_memtables (tree w') = read_only_memtables (tree w) →
  max_lower_seq (tree w') = max_lower_seq (tree w) → buckets (tree w') = buckets (tree w) → config (tree w') = config (tree w) →
  last_l0_stamp (tree w) ≤ last_l0_stamp (tree w') →
  (∀ b f, f ∈ level0_files (bucket_at (tree w) b) → disk_l0 (disk w') !! (b, l0_name f) = disk_l0 (disk w) !! (b, l0_name f)) →
  Inv w' ∧ ∀ k, files_copy w' k = files_copy w k.
Proof using.
  intros Hw Hm Hr Hx Hb Hc Hl Hd. assert (∀ b, bucket_at (tree w') b = bucket_at (tree w) b) as Hbk by (intros; unfold bucket_at; by rewrite Hb).
  assert (∀ k, files_copy w' k = files_copy w k) as Hf.
  { intros k. unfold files_copy, bucket_of. rewrite Hc, Hbk. f_equal. apply l0_copy_frame. intros f Hin. apply Hd. by apply elem_of_sort_by in Hin. }
  split; [|done]. destruct Hw as [I1 I2 I3 I4 I5 I6 I7 I8 I9 I10]. split.
  - by rewrite Hc.
  - by rewrite Hb, Hc.
  - by rewrite Hm.
  - by rewrite Hm.
  - by rewrite Hr.
  - intros b f. rewrite Hbk, Hc. intros Hrange Hin Ho. destruct (I6 b f Hrange Hin Ho) as [m Hok]. exists m. eapply l0_ok_frame; [|done]. by apply Hd.
  - intros b. rewrite Hbk, Hc. apply I7.
  - intros b. rewrite Hbk. apply I8.
  - intros b f Hb0. rewrite Hbk. intros Hin. destruct (I9 b f Hb0 Hin). split; [done|lia].
  - intros k. unfold lower_copy. rewrite Hr, Hf, Hx. apply I10.
Qed.

Lemma next_stamp_ok t c : last_l0_stamp t < U128_MAX →
  let '(stamp, t') := next_l0_stamp t c in
  last_l0_stamp t < stamp ∧ stamp ≤ Z.max c (last_l0_stamp t + 1) ∧ t' = with_stamp t stamp.
Proof using. intros Hl. cbn. unfold U128_MAX in *. split_and!; [lia|lia|done]. Qed.

(** The files of one flush, all written and registered, hold the memtable's run. *)
Lemma registered_ok w w' ro stamp : Inv w → run_ok (ro_run ro) → (∀ k, seq_le (cand (ro_run ro) k) (Some (None, max_lower_seq (tree w)))) →
  last_l0_stamp (tree w) < stamp → last_l0_stamp (tree w') = stamp →
  memtable (tree w') = memtable (tree w) → (∀ r, r ∈ read_only_memtables (tree w') → run_ok (ro_run r)) →
  (∀ k, seq_le (ro_copy (read_only_memtables (tree w')) k) (Some (None, max_lower_seq (tree w)))) →
  max_lower_seq (tree w') = max_lower_seq (tree w) → config (tree w') = config (tree w) → length (buckets (tree w')) = length (buckets (tree w)) →
  (∀ b, 0 ≤ b → bucket_at (tree w') b = if decide (0 ≤ b < num_buckets (config (tree w)))
     then with_files (bucket_at (tree w) b) (level0_files (bucket_at (tree w) b) ++ (bucket_file (tree w) (ro_run ro) stamp b).*2) else bucket_at (tree w) b) →
  (∀ b name, name ≠ stamp → disk_l0 (disk w') !! (b, name) = disk_l0 (disk w) !! (b, name)) →
  (∀ b, 0 ≤ b < num_buckets (config (tree w)) → share (tree w) b (ro_run ro) ≠ [] →
     disk_l0 (disk w') !! (b, stamp) = Some (table (ent <$> share (tree w) b (ro_run ro)))) →
  Inv w' ∧ ∀ k, files_copy w' k = join (cand (ro_run ro) k) (files_copy w k).
Proof using All.
  intros Hw Hro Hle Hst Hst' Hm Hrs Hrl Hx Hc Hlen Hbk Hframe Hfile.
  assert (∀ b g, 0 ≤ b → g ∈ level0_files (bucket_at (tree w) b) → l0_name g < stamp ∧ created_at_ms g < stamp) as Hold.
  { intros b g Hb Hg. destruct (inv_stamps w Hw b g Hb Hg). lia. }
  assert (∀ b, (bucket_file (tree w) (ro_run ro) stamp b).*2 =
    match share (tree w) b (ro_run ro) with [] => [] | s => [mk_l0 stamp stamp (Some (run_summary s)) 0 false] end) as Hnew.
  { intros b. unfold bucket_file. by destruct (share _ _ _). }
  assert (∀ k, files_copy w' k = join (cand (ro_run ro) k) (files_copy w k)) as Hfiles.
  { intros k. unfold files_copy, bucket_of. rewrite Hc. pose proof (bucket_range (tree w) k (inv_num w Hw)) as Hb.
    unfold bucket_of in Hb. set (b := get_bucket_for_key k (num_buckets (config (tree w)))) in *.
    rewrite Hbk, decide_True by lia. unfold l1_copy. cbn [with_files sstable_file].
    rewrite join_assoc. f_equal. unfold l0_order. cbn [with_files level0_files]. rewrite Hnew.
    pose proof (cand_share (tree w) b (ro_run ro) k (run_wf _ Hro)) as Hsh. rewrite decide_True in Hsh by done.
    assert (l0_copy (disk w') b (l0_order (bucket_at (tree w) b)) k = l0_copy (disk w) b (l0_order (bucket_at (tree w) b)) k) as Hsame.
    { apply l0_copy_frame. intros f Hin. apply elem_of_sort_by in Hin. apply Hframe. destruct (Hold b f); [lia|done|lia]. }
    destruct (share (tree w) b (ro_run ro)) as [|p s] eqn:Es.
    - rewrite app_nil_r. fold (l0_order (bucket_at (tree w) b)). rewrite Hsame, <-Hsh. by rewrite join_None_l.
    - rewrite sort_by_top by (intros y Hy; cbn; destruct (Hold b y); [lia|done|lia]). fold (l0_order (bucket_at (tree w) b)).
      unfold l0_copy. rewrite fmap_cons, newest_cons. fold (l0_copy (disk w') b (l0_order (bucket_at (tree w) b)) k). rewrite Hsame. f_equal.
      assert (l0_ok (disk w') b (mk_l0 stamp stamp (Some (run_summary (p :: s))) 0 false) (p :: s)) as Hok.
      { apply l0_contents_ok; [rewrite <-Es; by apply share_ok|done|]. rewrite <-Es. apply Hfile; [done|by rewrite Es]. }
      pose proof (l0_run_of_ok _ _ (mk_l0 stamp stamp (Some (run_summary (p :: s))) 0 false) _ eq_refl Hok) as Hrun. by rewrite Hrun. }
  split; [|done]. destruct Hw as [I1 I2 I3 I4 I5 I6 I7 I8 I9 I10]. split.
  - by rewrite Hc.
  - by rewrite Hlen, Hc.
  - by rewrite Hm.
  - by rewrite Hm.
  - done.
  - intros b f. rewrite Hc. intros Hb. rewrite Hbk, decide_True by lia. cbn [with_files level0_files]. rewrite Hnew. intros [Hin|Hin]%elem_of_app Ho.
    + destruct (I6 b f Hb Hin Ho) as [m' Hok]. exists m'. eapply l0_ok_frame; [|done]. apply Hframe. destruct (Hold b f); [lia|done|lia].
    + destruct (share (tree w) b (ro_run ro)) as [|p s] eqn:Es; [by apply elem_of_nil in Hin|]. apply list_elem_of_singleton in Hin as ->.
      exists (p :: s). apply l0_contents_ok; [rewrite <-Es; by apply share_ok|done|]. rewrite <-Es. apply Hfile; [done|by rewrite Es].
  - intros b. rewrite Hc. intros Hb. rewrite Hbk, decide_True by lia. destruct (I7 b Hb) as [m' Hok]. by exists m'.
  - intros b Hb. rewrite Hbk by done. case_decide; [|by apply I8]. cbn [with_files level0_files]. rewrite Hnew, fmap_app.
    apply NoDup_app. split_and!; [by apply I8| |destruct (share _ _ _); [constructor|apply NoDup_singleton]].
    intros x (g & -> & Hg)%list_elem_of_fmap Hin. destruct (Hold b g) as [Hlt _]; [done|done|].
    destruct (share _ _ _); [by apply elem_of_nil in Hin|]. apply list_elem_of_singleton in Hin. cbn in Hin. lia.
  - intros b f Hb. rewrite Hbk, Hst' by done. case_decide.
    + cbn [with_files level0_files]. rewrite Hnew. intros [Hin|Hin]%elem_of_app; [destruct (I9 b f Hb Hin); split; [done|lia]|].
      destruct (share _ _ _); [by apply elem_of_nil in Hin|]. apply list_elem_of_singleton in Hin as ->. cbn. lia.
    + intros Hin. destruct (I9 b f Hb Hin). split; [done|lia].
  - intros k. unfold lower_copy. rewrite Hfiles, Hx. apply seq_le_join; [apply Hrl|]. apply seq_le_join; [apply Hle|].
    eapply seq_le_trans; [|apply (I10 k)]. unfold lower_copy. apply seq_le_join_r.
Qed.

Lemma fmap_insert_mark (ros : list ReadOnlyMemTable) i ro : ros !! i = Some ro → ro_run <$> <[i := mark_flushed ro]> ros = ro_run <$> ros.
Proof using. intros Hi. rewrite list_fmap_insert. apply list_insert_id. by rewrite list_lookup_fmap, Hi. Qed.

Lemma ro_copy_runs ros ros' k : ro_run <$> ros' = ro_run <$> ros → ro_copy ros' k = ro_copy ros k.
Proof using.
  intros Heq. unfold ro_copy. f_equal. assert (∀ l : list ReadOnlyMemTable, (λ ro, cand (ro_run ro) k) <$> l = (λ m, cand m k) <$> (ro_run <$> l)) as Hf
    by (intros; by rewrite <-list_fmap_compose).
  assert (∀ l : list ReadOnlyMemTable, ro_run <$> rev l = rev (ro_run <$> l)) as Hrev.
  { induction l as [|r l IH]; [done|]. cbn [rev]. by rewrite fmap_app, IH. }
  by rewrite !Hf, !Hrev, Heq.
Qed.

(** What [flush_ro_memtable_to_level0] leaves, whatever the observer and the writes answer. *)
Lemma flush_ro_ok io i w : Inv w → last_l0_stamp (tree w) < U128_MAX →
  let (r, w') := flush_ro_memtable_to_level0 io i w in
  Inv w' ∧ memtable (tree w') = memtable (tree w) ∧ ro_memtable_version (tree w') = ro_memtable_version (tree w) ∧ config (tree w') = config (tree w) ∧
  last_l0_stamp (tree w') ≤ Z.max (now_ms io * 1000000 + from_option ro_version 0 (read_only_memtables (tree w) !! i)) (last_l0_stamp (tree w) + 1) ∧
  match read_only_memtables (tree w) !! i with
  | Some ro =>
      if flushed_to_level0 ro then r = Ok tt ∧ read_only_memtables (tree w') = read_only_memtables (tree w) ∧ ∀ k, files_copy w' k = files_copy w k
      else match r with
           | Ok _ => read_only_memtables (tree w') = <[i := mark_flushed ro]> (read_only_memtables (tree w)) ∧
                     ∀ k, files_copy w' k = join (cand (ro_run ro) k) (files_copy w k)
           | Err _ => read_only_memtables (tree w') = read_only_memtables (tree w) ∧ ∀ k, files_copy w' k = files_copy w k
           end
  | None => r = Ok tt ∧ read_only_memtables (tree w') = read_only_memtables (tree w) ∧ ∀ k, files_copy w' k = files_copy w k
  end.
Proof using All.
  intros Hw Hlast. unfold flush_ro_memtable_to_level0.
  destruct (read_only_memtables (tree w) !! i) as [ro|] eqn:Ei; [|split_and!; try done; lia].
  destruct (flushed_to_level0 ro) eqn:Ef; [split_and!; try done; lia|]. cbn [from_option].
  assert (∀ ev, Inv (mk_world (tree w) (disk w) ev) ∧ ∀ k, files_copy (mk_world (tree w) (disk w) ev) k = files_copy w k) as Hev
    by (intros ev; by apply (inv_frame w)).
  destruct (flushing_ok io); cbn [negb]; [|destruct (Hev (events w ++ [Flushing (ro_version ro)])); split_and!; try done; cbn; lia].
  cbn [tree disk events]. set (c := Z.min U128_MAX (Z.min U128_MAX (now_ms io * 1000000) + ro_version ro)).
  pose proof (next_stamp_ok (tree w) c Hlast) as Hst. destruct (next_l0_stamp (tree w) c) as [stamp t]. destruct Hst as (Hst & Hstc & ->).
  assert (ro ∈ read_only_memtables (tree w)) as Hin by (by eapply list_elem_of_lookup_2).
  pose proof (inv_ro w Hw ro Hin) as Hro.
  pose proof (write_buckets_ok (with_stamp (tree w) stamp) ro stamp (write_bucket io) (Z.to_nat (num_buckets (config (with_stamp (tree w) stamp)))) Hro 0 (disk w) []) as Hwb.
  destruct (write_buckets _ _ _ _ _ _ _ _) as [[r written] d]. destruct Hwb as [Hframe Hr].
  assert (∀ b g, 0 ≤ b → g ∈ level0_files (bucket_at (tree w) b) → l0_name g < stamp) as Hold.
  { intros b g Hb Hg. destruct (inv_stamps w Hw b g Hb Hg). lia. }
  assert (∀ ev W, (∀ x, x ∈ W → l0_name x.2 = stamp) →
    let w' := mk_world (with_stamp (tree w) stamp) (remove_written d W) ev in Inv w' ∧ ∀ k, files_copy w' k = files_copy w k) as Hundo.
  { intros ev W HW. apply (inv_frame w); try done; [cbn; lia|]. intros b f Hf. cbn [disk]. rewrite bucket_at_neg in Hf.
    assert (l0_name f < stamp) as Hn by (by apply (Hold (Z.max 0 b)); [lia|]). rewrite remove_written_frame by (intros x Hx; rewrite HW by done; lia).
    apply Hframe. left. lia. }
  destruct r as [[]|e].
  2: { destruct Hr as (W & -> & HW). destruct (Hundo (events w ++ [Flushing (ro_version ro)]) W HW) as [Hinv Hfiles]. split_and!; try done. cbn. lia. }
  destruct Hr as [-> Hr]. cbn [app]. destruct (written_ok io); cbn [negb].
  2: { destruct (Hundo ((events w ++ [Flushing (ro_version ro)]) ++ [Written (ro_version ro)]) (seqZ 0 (Z.of_nat (Z.to_nat (num_buckets (config (tree w))))) ≫= bucket_file (with_stamp (tree w) stamp) (ro_run ro) stamp)) as [Hinv Hfiles].
       - intros x Hx. apply list_elem_of_bind in Hx as (b & Hx & _). unfold bucket_file in Hx. destruct (share _ _ _); [by apply elem_of_nil in Hx|].
         by apply list_elem_of_singleton in Hx as ->.
       - split_and!; try done. cbn. lia. }
  pose proof (inv_num w Hw) as Hnb. pose proof (inv_buckets w Hw) as Hlen.
  destruct (register_all (with_stamp (tree w) stamp) (ro_run ro) stamp (Z.to_nat (num_buckets (config (tree w)))) 0) as (Hup & Hlen' & Hbk).
  { lia. } { unfold zlen. cbn [with_stamp buckets]. lia. } { intros b' g Hb Hg. specialize (Hold b' g Hb Hg). lia. }
  set (t' := foldl _ _ _) in *. destruct Hup as (Um & Ur & Ux & Uv & Up & Ul & Uc).
  set (w' := mk_world _ _ _).
  destruct (registered_ok w w' ro stamp) as [Hinv Hfiles]; try done.
  - intros k. eapply seq_le_trans; [|apply (inv_lower w Hw k)]. eapply seq_le_trans; [by apply ro_copy_elem|apply seq_le_join_l].
  - intros r. cbn [w' tree with_ro read_only_memtables]. rewrite Ur. cbn [with_stamp read_only_memtables]. intros Hr'.
    assert (ro_run r ∈ ro_run <$> read_only_memtables (tree w)) as Hrr.
    { rewrite <-(fmap_insert_mark _ i ro Ei). by apply list_elem_of_fmap_2. }
    apply list_elem_of_fmap in Hrr as (r0 & -> & Hr0). by apply (inv_ro w Hw).
  - intros k. cbn [w' tree with_ro read_only_memtables]. rewrite Ur. cbn [with_stamp read_only_memtables].
    rewrite (ro_copy_runs (read_only_memtables (tree w))) by by apply fmap_insert_mark.
    eapply seq_le_trans; [|apply (inv_lower w Hw k)]. apply seq_le_join_l.
  - intros b Hb. change (bucket_at (tree w') b) with (bucket_at t' b). rewrite Hbk by done.
    replace (0 + Z.of_nat (Z.to_nat (num_buckets (config (tree w))))) with (num_buckets (config (tree w))) by lia. done.
  - intros b name Hn. apply Hframe. by left.
  - intros b Hb Hne. apply Hr; [cbn; lia|done].
  - split_and!; try done.
    + cbn [w' tree with_ro last_l0_stamp]. rewrite Ul. cbn. lia.
    + cbn [w' tree with_ro read_only_memtables]. by rewrite Ur.
Qed.
End flush.
