(* ===== verification/LsmMerges.v ===== *)
(** * LsmMerges: merging a bucket's files, and the release of what is no longer needed *)
From stdpp Require Import sorting.
From S2P Require Import Prelude OrdMap Bytes Slices Keys LsmFilters SsTable SsTableSpec MemTable LsmTree LsmCompact LsmReads LsmFlushes.

(** ** Sorting by a key *)

Section sort.
Context {A : Type} (f : A → Z).

Lemma insert_by_perm x l : insert_by f x l ≡ₚ x :: l.
Proof using.
  induction l as [|y l IH]; [done|]. cbn [insert_by]. destruct (f x <=? f y); [done|]. rewrite IH. apply Permutation_swap.
Qed.
Lemma sort_by_perm l : sort_by_key f l ≡ₚ l.
Proof using. unfold sort_by_key. induction l as [|x l IH]; [done|]. cbn [foldr]. by rewrite insert_by_perm, IH. Qed.

Lemma insert_by_sorted x l : StronglySorted (λ a b, f a ≤ f b) l → StronglySorted (λ a b, f a ≤ f b) (insert_by f x l).
Proof using.
  induction l as [|y l IH]; intros Hs; cbn [insert_by]; [by repeat constructor|]. pose proof Hs as Hs0. apply StronglySorted_inv in Hs as [Hs Hy].
  destruct (Z.leb_spec (f x) (f y)).
  - constructor; [done|]. constructor; [done|]. eapply Forall_impl; [done|]. cbn. intros; lia.
  - constructor; [by apply IH|]. apply Forall_forall. intros z. rewrite elem_of_insert_by. rewrite Forall_forall in Hy.
    intros [->|Hz]; [lia|by apply Hy].
Qed.
Lemma sort_by_sorted l : StronglySorted (λ a b, f a ≤ f b) (sort_by_key f l).
Proof using. unfold sort_by_key. induction l as [|x l IH]; [constructor|]. by apply insert_by_sorted. Qed.

(** With distinct keys the order is strict, and there is only one. *)
Lemma sort_by_strict l : NoDup (f <$> l) → StronglySorted (λ a b, f a < f b) (sort_by_key f l).
Proof using.
  intros Hn. assert (NoDup (f <$> sort_by_key f l)) as Hs by (by rewrite sort_by_perm). pose proof (sort_by_sorted l) as Hle.
  revert Hs Hle. generalize (sort_by_key f l). clear. intros l Hn. induction l as [|x l IH]; intros Hs; [constructor|].
  apply StronglySorted_inv in Hs as [Hs Hx]. rewrite fmap_cons in Hn. apply NoDup_cons in Hn as [Hnx Hn]. constructor; [by apply IH|].
  rewrite Forall_forall in *. intros y Hy. specialize (Hx y Hy). assert (f x ≠ f y); [|lia]. intros He. apply Hnx. rewrite He. by apply list_elem_of_fmap_2.
Qed.

Lemma strict_unique l k : StronglySorted (λ a b, f a < f b) l → StronglySorted (λ a b, f a < f b) k → l ≡ₚ k → l = k.
Proof using.
  intros Hl Hk Hp. assert (∀ x, x ∈ l ↔ x ∈ k) as Hin by (intros; by rewrite Hp). clear Hp. revert k Hk Hin. induction l as [|x l IH]; intros k Hk Hin.
  { destruct k as [|y k]; [done|]. exfalso. apply (not_elem_of_nil y), Hin. left. }
  destruct k as [|y k]; [exfalso; apply (not_elem_of_nil x), Hin; left|].
  apply StronglySorted_inv in Hl as [Hl Hx], Hk as [Hk Hy]. rewrite Forall_forall in Hx, Hy.
  assert (x = y) as ->.
  { pose proof (proj1 (Hin x) (list_elem_of_here _ _)) as Hxk. pose proof (proj2 (Hin y) (list_elem_of_here _ _)) as Hyl.
    apply elem_of_cons in Hxk as [|Hxk], Hyl as [|Hyl]; [done..|]. apply Hy in Hxk. apply Hx in Hyl. lia. }
  f_equal. apply IH; [done|done|]. intros z. specialize (Hin z). rewrite !elem_of_cons in Hin. split; intros Hz.
  - destruct (proj1 Hin (or_intror Hz)) as [->|]; [|done]. apply Hx in Hz. lia.
  - destruct (proj2 Hin (or_intror Hz)) as [->|]; [|done]. apply Hy in Hz. lia.
Qed.

Lemma NoDup_fmap_filter (P : A → Prop) `{∀ x, Decision (P x)} l : NoDup (f <$> l) → NoDup (f <$> filter P l).
Proof using.
  induction l as [|x l IH]; intros Hn; [constructor|]. rewrite fmap_cons in Hn. apply NoDup_cons in Hn as [Hx Hn]. rewrite filter_cons.
  case_decide; [|by apply IH]. rewrite fmap_cons. apply NoDup_cons. split; [|by apply IH]. intros (y & Heq & [_ Hy]%list_elem_of_filter)%list_elem_of_fmap.
  apply Hx. rewrite Heq. by apply list_elem_of_fmap_2.
Qed.

Lemma sort_by_filter (P : A → Prop) `{∀ x, Decision (P x)} l : NoDup (f <$> l) → sort_by_key f (filter P l) = filter P (sort_by_key f l).
Proof using.
  intros Hn. apply strict_unique.
  - by apply sort_by_strict, NoDup_fmap_filter.
  - pose proof (sort_by_strict l Hn) as Hs. revert Hs. generalize (sort_by_key f l). clear. intros l. induction l as [|x l IH]; intros Hs; [constructor|].
    apply StronglySorted_inv in Hs as [Hs Hx]. rewrite filter_cons. case_decide; [|by apply IH]. constructor; [by apply IH|].
    rewrite Forall_forall in *. intros y [_ Hy]%list_elem_of_filter. by apply Hx.
  - by rewrite !sort_by_perm.
Qed.
End sort.

Lemma sort_by_ext {A} (f g : A → Z) l : (∀ x, x ∈ l → f x = g x) → sort_by_key f l = sort_by_key g l.
Proof.
  unfold sort_by_key. induction l as [|x l IH]; intros Hl; [done|]. cbn [foldr]. rewrite IH by (intros; apply Hl; by right).
  assert (∀ k, (∀ y, y ∈ k → f y = g y) → insert_by f x k = insert_by g x k) as Hins.
  { intros k. induction k as [|y k IHk]; intros Hk; [done|]. cbn [insert_by]. rewrite Hl, Hk by left. rewrite IHk by (intros; apply Hk; by right). done. }
  apply Hins. intros y Hy. apply Hl. right. by apply (elem_of_sort_by g).
Qed.
Lemma sort_by_fmap {A B} (f : B → Z) (g : A → B) l : sort_by_key f (g <$> l) = g <$> sort_by_key (λ x, f (g x)) l.
Proof.
  unfold sort_by_key. induction l as [|x l IH]; [done|]. rewrite fmap_cons. cbn [foldr]. rewrite IH. clear IH. generalize (foldr (insert_by (λ y, f (g y))) [] l). intros k.
  induction k as [|y k IH]; [done|]. rewrite fmap_cons. cbn [insert_by]. destruct (f (g x) <=? f (g y)); [done|]. by rewrite fmap_cons, IH.
Qed.

Lemma sort_by_rev {A} (f : A → Z) l : NoDup (f <$> l) → sort_by_key (λ x, - f x) l = rev (sort_by_key f l).
Proof.
  intros Hn. apply (strict_unique (λ x, - f x)).
  - apply sort_by_strict. assert ((λ x, - f x) <$> l = Z.opp <$> (f <$> l)) as -> by (by rewrite <-list_fmap_compose).
    apply NoDup_fmap_2; [|done]. intros x y. lia.
  - pose proof (sort_by_strict f l Hn) as Hs. revert Hs. generalize (sort_by_key f l). clear. intros l. induction l as [|x l IH]; intros Hs; [constructor|].
    apply StronglySorted_inv in Hs as [Hs Hx]. cbn [rev]. apply StronglySorted_app. split_and!; [|by apply IH|by repeat constructor].
    intros y z Hy ->%list_elem_of_singleton. rewrite list_elem_of_In, <-in_rev, <-list_elem_of_In in Hy. rewrite Forall_forall in Hx. apply Hx in Hy. lia.
  - rewrite sort_by_perm. rewrite <-(sort_by_perm f l) at 1. apply Permutation_rev.
Qed.

(** ** Collecting Level 0 *)

(** A record into a run: it replaces what it is not older than. *)
Definition keep (m : run) (p : key * copy) : run :=
  match om_get p.1 m with
  | Some c => if seq_newer_or_eq p.2.1.2 c.1.2 then om_insert p.1 p.2 m else m
  | None => om_insert p.1 p.2 m
  end.

Definition wrapped (m : run) : ordmap key SStableEntry := (λ p, (p.1, ent p)) <$> m.
Definition cand_of (c : copy) : Candidate := Some (live c.2 c.1.1, c.1.2).

Lemma cand_cons k c m k' : om_wf ((k, c) :: m) → cand ((k, c) :: m) k' = if decide (k' = k) then cand_of c else cand m k'.
Proof. intros Hwf. unfold cand. rewrite om_get_cons by done. by case_decide. Qed.

Lemma cand_keep m p k : cand (keep m p) k = if decide (k = p.1) then join (cand_of p.2) (cand m k) else cand m k.
Proof.
  destruct p as [k0 [[v s] t]]. unfold keep. cbn [fst snd]. destruct (om_get k0 m) as [[[v' s'] t']|] eqn:E.
  - assert (cand m k0 = Some (live t' v', s')) as Hk by (unfold cand; by rewrite E). unfold seq_newer_or_eq. cbn [fst snd].
    destruct (Z.leb_spec s' s).
    + rewrite cand_insert. case_decide; [subst|done]. unfold cand_of. rewrite Hk, join_Some. by rewrite (proj2 (Z.ltb_ge _ _)).
    + case_decide; [subst|done]. unfold cand_of. rewrite Hk, join_Some. by rewrite (proj2 (Z.ltb_lt _ _)).
  - assert (cand m k0 = None) as Hk by (unfold cand; by rewrite E). rewrite cand_insert. case_decide; [subst|done]. by rewrite Hk.
Qed.

Lemma keep_wf m p : om_wf m → om_wf (keep m p).
Proof.
  intros Hm. unfold keep. destruct (om_get _ _) as [c|]; [destruct (seq_newer_or_eq _ _)|]; try done; by apply om_insert_wf.
Qed.
Lemma elem_of_keep m p q : q ∈ keep m p → q = p ∨ q ∈ m.
Proof.
  unfold keep. destruct p as [k c]. cbn [fst snd]. destruct (om_get k m) as [c'|]; [destruct (seq_newer_or_eq _ _)|]; try (by right); apply elem_of_om_insert.
Qed.

Lemma cand_keep_all n : ∀ m k, om_wf n → cand (foldl keep m n) k = join (cand n k) (cand m k).
Proof.
  induction n as [|[k0 c0] n IH]; intros m k Hwf; [by rewrite join_None_l|]. cbn [foldl]. rewrite cand_cons by done.
  pose proof Hwf as Hwf0. apply om_wf_cons in Hwf as [Hk Hwf]. rewrite IH, cand_keep by done. cbn [fst snd]. case_decide; [subst|done].
  replace (cand n k0) with (None : Candidate); [by rewrite join_None_l|]. symmetry. destruct (cand n k0) as [[v s]|] eqn:E; [|done].
  apply cand_Some in E as (c & Hin & _); [|done]. apply Hk in Hin. by rewrite cmp_refl in Hin.
Qed.

Lemma om_get_wrapped k m : om_get k (wrapped m) = (λ c, ent (k, c)) <$> om_get k m.
Proof.
  unfold wrapped. induction m as [|[k' c] m IH]; [done|]. rewrite fmap_cons. cbn [om_get fst]. destruct (cmp k k') eqn:E; [|done|done].
  apply cmp_eq in E as ->. done.
Qed.
Lemma om_insert_wrapped k c m : om_insert k (ent (k, c)) (wrapped m) = wrapped (om_insert k c m).
Proof.
  unfold wrapped. induction m as [|[k' c'] m IH]; [done|]. rewrite fmap_cons. cbn [om_insert fst]. destruct (cmp k k'); rewrite ?fmap_cons; [done..|]. by rewrite IH.
Qed.
Lemma keep_newer_wrapped m p : keep_newer (wrapped m) (ent p) = wrapped (keep m p).
Proof.
  destruct p as [k c]. unfold keep_newer, keep. change (sst_key (ent (k, c))) with k. change (sst_seq (ent (k, c))) with c.1.2. cbn [fst snd]. rewrite om_get_wrapped.
  destruct (om_get k m) as [c'|]; cbn [fmap option_fmap option_map]; rewrite ?om_insert_wrapped; [|done].
  change (sst_seq (ent (k, c'))) with c'.1.2. by destruct (seq_newer_or_eq _ _).
Qed.
Lemma keep_newer_all m n : foldl keep_newer (wrapped m) (ent <$> n) = wrapped (foldl keep m n).
Proof. revert m. induction n as [|p n IH]; intros m; [done|]. rewrite fmap_cons. cbn [foldl]. by rewrite keep_newer_wrapped, IH. Qed.

(** ** The merge of two runs *)

(** A tombstone at the bottom is nothing. *)
Definition purge (c : Candidate) : Candidate := match c with Some (None, _) => None | _ => c end.

Lemma push_live_run k c m : push_live (ent (k, c)) (ent <$> m) = ent <$> (if c.2 then m else (k, c) :: m).
Proof. unfold push_live. destruct c as [[v s] t]. change (sst_tombstone (ent (k, (v, s, t)))) with t. by destruct t. Qed.

(** The merge of two runs is a run, holding of each key the newer copy unless it is a
    tombstone. *)
Record merges (m1 m2 mg : run) : Prop := {
  merged_wf : om_wf mg;
  merged_from k c : (k, c) ∈ mg → (k, c) ∈ m1 ∨ (k, c) ∈ m2;
  merged_live k c : (k, c) ∈ mg → c.2 = false;
  merged_cand k : cand mg k = purge (join (cand m2 k) (cand m1 k)) }.

Lemma purge_cand_of (c : copy) : purge (cand_of c) = if c.2 then None else cand_of c.
Proof. destruct c as [[v s] t]. by destruct t. Qed.

(** One step: the copy of the least key, in front of a merge of the rest. *)
Lemma merges_step k c (m1 m2 n1 n2 mg : run) : merges n1 n2 mg →
  (∀ k' c', (k', c') ∈ n1 ∨ (k', c') ∈ n2 → cmp k k' = Lt) →
  n1 `sublist_of` m1 → n2 `sublist_of` m2 → (k, c) ∈ m1 ∨ (k, c) ∈ m2 →
  cand_of c = join (cand m2 k) (cand m1 k) →
  (∀ k', k' ≠ k → cand m1 k' = cand n1 k' ∧ cand m2 k' = cand n2 k') →
  merges m1 m2 (if c.2 then mg else (k, c) :: mg).
Proof.
  intros [Hwf Hfrom Hlive Hc] Hlt Hs1 Hs2 Hin Hk Hother.
  assert (∀ k' c', (k', c') ∈ mg → cmp k k' = Lt) as Hmg by (intros k' c' Hi; apply (Hlt k' c'); by apply Hfrom).
  assert (cand mg k = None) as Hnone.
  { destruct (cand mg k) as [[v s]|] eqn:E; [|done]. apply cand_Some in E as (x & Hx & _); [|done]. apply Hmg in Hx. by rewrite cmp_refl in Hx. }
  assert (∀ p, p ∈ mg → p ∈ m1 ∨ p ∈ m2) as Hsub.
  { intros [k' c'] Hi. apply Hfrom in Hi as [Hi|Hi]; [left|right]; by eapply elem_of_sublist. }
  assert (om_wf ((k, c) :: mg)) as Hwf' by by apply om_wf_cons.
  destruct (c.2) eqn:Et; split.
  - done.
  - intros k' c'. apply Hsub.
  - done.
  - intros k'. destruct (decide (k' = k)) as [->|Hn]; [by rewrite <-Hk, purge_cand_of, Et|]. destruct (Hother k' Hn) as [-> ->]. apply Hc.
  - done.
  - intros k' c' [[= -> ->]|Hi]%elem_of_cons; [done|by apply Hsub].
  - intros k' c' [[= -> ->]|Hi]%elem_of_cons; [done|by apply (Hlive k')].
  - intros k'. rewrite cand_cons by done. case_decide as Hd; [subst; by rewrite <-Hk, purge_cand_of, Et|]. destruct (Hother k' Hd) as [-> ->]. apply Hc.
Qed.

Lemma cand_nil k : cand [] k = None.
Proof. done. Qed.
Lemma cand_below k k' c' (m : run) : om_wf ((k', c') :: m) → cmp k k' = Lt → cand ((k', c') :: m) k = None.
Proof.
  intros Hwf Hk. rewrite cand_cons by done. case_decide; [subst; by rewrite cmp_refl in Hk|].
  apply om_wf_cons in Hwf as [Hm Hwf]. destruct (cand m k) as [[v s]|] eqn:E; [|done]. apply cand_Some in E as (x & Hx & _); [|done].
  apply Hm in Hx. pose proof (cmp_trans _ _ _ Hk Hx) as Hc. by rewrite cmp_refl in Hc.
Qed.

Lemma two_way_nil_r e es : two_way_merge (e :: es) [] = push_live e (two_way_merge es []).
Proof. done. Qed.
Lemma two_way_nil_l r rs : two_way_merge [] (r :: rs) = push_live (entry_of r) (two_way_merge [] rs).
Proof. done. Qed.
Lemma two_way_cons e es r rs : two_way_merge (e :: es) (r :: rs) =
  match cmp (sst_key e) (kv_key r) with
  | Lt => push_live e (two_way_merge es (r :: rs))
  | Eq => push_live (if seq_newer_or_eq (kv_seq r) (sst_seq e) then entry_of r else e) (two_way_merge es rs)
  | Gt => push_live (entry_of r) (two_way_merge (e :: es) rs)
  end.
Proof. done. Qed.

Definition merge_ok (m1 m2 : run) : Prop := ∃ mg, two_way_merge (ent <$> m1) (record_of <$> m2) = ent <$> mg ∧ merges m1 m2 mg.

(** A step that takes from one run only. *)
Ltac one_side Hwf := rewrite cand_cons by done; try (rewrite decide_True by done); try (rewrite decide_False by done); try done.

Lemma merge_right (m2 : run) : om_wf m2 → merge_ok [] m2.
Proof.
  induction m2 as [|[k c] m2 IH]; intros Hwf.
  { exists []. split; [done|]. split; try done; by intros ? ? ?%elem_of_nil. }
  pose proof Hwf as Hwf0. apply om_wf_cons in Hwf as [Hk Hwf]. destruct (IH Hwf) as (mg & He & Hm).
  exists (if c.2 then mg else (k, c) :: mg). split.
  { rewrite fmap_cons. change (ent <$> []) with (@nil SStableEntry) in *. rewrite two_way_nil_l, He. apply (push_live_run k c). }
  apply (merges_step k c [] ((k, c) :: m2) [] m2 mg Hm).
  - intros k' c' [Hi|Hi]; [by apply elem_of_nil in Hi|by apply (Hk k' c')].
  - done.
  - by apply sublist_cons.
  - right. left.
  - one_side Hwf0.
  - intros k' Hn. one_side Hwf0.
Qed.

Lemma merge_left (m1 : run) : om_wf m1 → merge_ok m1 [].
Proof.
  induction m1 as [|[k c] m1 IH]; intros Hwf; [by apply merge_right|].
  pose proof Hwf as Hwf0. apply om_wf_cons in Hwf as [Hk Hwf]. destruct (IH Hwf) as (mg & He & Hm).
  exists (if c.2 then mg else (k, c) :: mg). split.
  { rewrite fmap_cons. change (record_of <$> []) with (@nil KeyValueRecord) in *. rewrite two_way_nil_r, He. apply (push_live_run k c). }
  apply (merges_step k c ((k, c) :: m1) [] m1 [] mg Hm).
  - intros k' c' [Hi|Hi]; [by apply (Hk k' c')|by apply elem_of_nil in Hi].
  - by apply sublist_cons.
  - done.
  - left. left.
  - rewrite join_None_l. one_side Hwf0.
  - intros k' Hn. one_side Hwf0.
Qed.

(** Equal keys: the record that is not older wins. *)
Lemma merge_equal k c c2 (m1 m2 : run) : om_wf ((k, c) :: m1) → om_wf ((k, c2) :: m2) → merge_ok m1 m2 → merge_ok ((k, c) :: m1) ((k, c2) :: m2).
Proof.
  intros Hwf1 Hwf2 (mg & He & Hm). pose proof Hwf1 as [Hk1 _]%om_wf_cons. pose proof Hwf2 as [Hk2 _]%om_wf_cons.
  set (cw := if seq_newer_or_eq c2.1.2 c.1.2 then c2 else c). exists (if cw.2 then mg else (k, cw) :: mg). split.
  { rewrite !fmap_cons, two_way_cons. change (sst_key (ent (k, c))) with k. change (kv_key (record_of (k, c2))) with k.
    rewrite cmp_refl, He, <-(push_live_run k cw). f_equal. subst cw.
    change (kv_seq (record_of (k, c2))) with c2.1.2. change (sst_seq (ent (k, c))) with c.1.2. by destruct (seq_newer_or_eq _ _). }
  apply (merges_step k cw ((k, c) :: m1) ((k, c2) :: m2) m1 m2 mg Hm).
  - intros k' c' [Hi|Hi]; [by apply (Hk1 k' c')|by apply (Hk2 k' c')].
  - by apply sublist_cons.
  - by apply sublist_cons.
  - subst cw. destruct (seq_newer_or_eq _ _); [right|left]; left.
  - rewrite !cand_cons by done. rewrite !decide_True by done. unfold cand_of. rewrite join_Some. subst cw. unfold seq_newer_or_eq.
    destruct (Z.leb_spec c.1.2 c2.1.2), (Z.ltb_spec c2.1.2 c.1.2); try lia; done.
  - intros k' Hn. rewrite !cand_cons by done. by rewrite !decide_False.
Qed.

Lemma merge_less k c k2 c2 (m1 m2 : run) : cmp k k2 = Lt → om_wf ((k, c) :: m1) → om_wf ((k2, c2) :: m2) →
  merge_ok m1 ((k2, c2) :: m2) → merge_ok ((k, c) :: m1) ((k2, c2) :: m2).
Proof.
  intros E Hwf1 Hwf2 (mg & He & Hm). pose proof Hwf1 as [Hk1 _]%om_wf_cons. pose proof Hwf2 as [Hk2 _]%om_wf_cons.
  exists (if c.2 then mg else (k, c) :: mg). split.
  { rewrite !fmap_cons, two_way_cons. change (sst_key (ent (k, c))) with k. change (kv_key (record_of (k2, c2))) with k2.
    rewrite E. rewrite fmap_cons in He. rewrite He. apply (push_live_run k c). }
  apply (merges_step k c ((k, c) :: m1) ((k2, c2) :: m2) m1 ((k2, c2) :: m2) mg Hm).
  - intros k' c' [Hi|Hi]; [by apply (Hk1 k' c')|]. apply elem_of_cons in Hi as [[= -> ->]|Hi]; [done|]. eapply cmp_trans; [done|by apply (Hk2 k' c')].
  - by apply sublist_cons.
  - done.
  - left. left.
  - rewrite cand_below by done. rewrite join_None_l. one_side Hwf1.
  - intros k' Hn. rewrite (cand_cons k) by done. by rewrite decide_False.
Qed.

Lemma merge_greater k c k2 c2 (m1 m2 : run) : cmp k2 k = Lt → om_wf ((k, c) :: m1) → om_wf ((k2, c2) :: m2) →
  merge_ok ((k, c) :: m1) m2 → merge_ok ((k, c) :: m1) ((k2, c2) :: m2).
Proof.
  intros E Hwf1 Hwf2 (mg & He & Hm). pose proof Hwf1 as [Hk1 _]%om_wf_cons. pose proof Hwf2 as [Hk2 _]%om_wf_cons.
  exists (if c2.2 then mg else (k2, c2) :: mg). split.
  { rewrite !fmap_cons, two_way_cons. change (sst_key (ent (k, c))) with k. change (kv_key (record_of (k2, c2))) with k2.
    rewrite (proj2 (cmp_gt k k2) E). rewrite fmap_cons in He. rewrite He. apply (push_live_run k2 c2). }
  apply (merges_step k2 c2 ((k, c) :: m1) ((k2, c2) :: m2) ((k, c) :: m1) m2 mg Hm).
  - intros k' c' [Hi|Hi]; [|by apply (Hk2 k' c')]. apply elem_of_cons in Hi as [[= -> ->]|Hi]; [done|]. eapply cmp_trans; [done|by apply (Hk1 k' c')].
  - done.
  - by apply sublist_cons.
  - right. left.
  - rewrite (cand_below k2 k c m1) by done. rewrite join_None_r. one_side Hwf2.
  - intros k' Hn. rewrite (cand_cons k2) by done. by rewrite decide_False.
Qed.

Lemma two_way_merge_ok (m1 : run) : ∀ m2 : run, om_wf m1 → om_wf m2 → merge_ok m1 m2.
Proof.
  induction m1 as [|[k c] m1 IH1]; [intros; by apply merge_right|]. intros m2. induction m2 as [|[k2 c2] m2 IH2]; intros Hwf1 Hwf2; [by apply merge_left|].
  pose proof Hwf1 as [_ Hwf1']%om_wf_cons. pose proof Hwf2 as [_ Hwf2']%om_wf_cons. destruct (cmp k k2) eqn:E.
  - apply cmp_eq in E as <-. by apply merge_equal, IH1.
  - by apply merge_less, IH1.
  - apply cmp_gt in E. by apply merge_greater, IH2.
Qed.

Section merges.
Context `{CrcLaws, RkyvSstLaws, Murmur3Laws} {M : Type} `{MemTableLaws M}.
Implicit Types (w : World M) (t : LSMTree M).
Local Open Scope minnal_scope.

Lemma keep_all_ok (n : run) : ∀ m, run_ok m → run_ok n → run_ok (foldl keep m n).
Proof using.
  intros m [Hm Hvm] [_ Hvn]. revert m Hm Hvm Hvn. induction n as [|p n IH]; intros m Hm Hvm Hvn; [done|]. cbn [foldl]. apply IH.
  - by apply keep_wf.
  - intros k c [<-|Hin]%elem_of_keep; [apply (Hvn k c); left|by apply (Hvm k c)].
  - intros k c Hin. apply (Hvn k c). by right.
Qed.

(** The Level-0 files of a bucket, oldest first, in one run. *)
Lemma collect_l0_ok d b fs : ∀ m, run_ok m → (∀ f, f ∈ fs → obsolete f = false → ∃ n, l0_ok d b f n) →
  ∃ m', collect_l0 d b fs (wrapped m) = Ok (wrapped m') ∧ run_ok m' ∧ ∀ k, cand m' k = join (l0_copy d b (rev fs) k) (cand m k).
Proof using All.
  induction fs as [|f fs IH]; intros m Hm Hfs.
  { exists m. split_and!; [done|done|]. intros k. unfold l0_copy. cbn [rev]. by rewrite join_None_l. }
  assert (∀ g, g ∈ fs → obsolete g = false → ∃ n, l0_ok d b g n) as Hfs' by (intros g Hg; apply Hfs; by right).
  cbn [collect_l0 rev]. destruct (obsolete f) eqn:Eo.
  - destruct (IH m Hm Hfs') as (m' & He & Hm' & Hc). exists m'. split_and!; [done|done|]. intros k. rewrite Hc.
    unfold l0_copy. rewrite fmap_app, newest_app, list_fmap_singleton. unfold l0_run_of at 3. rewrite Eo. done.
  - destruct (Hfs f (list_elem_of_here _ _) Eo) as [n Hn]. pose proof Hn as [Hrun _ Hd _ _]. rewrite Hd, read_from_path_table by by apply run_entries.
    cbn [result_bind]. rewrite keep_newer_all. destruct (IH (foldl keep m n) (keep_all_ok n m Hm Hrun) Hfs') as (m' & He & Hm' & Hc).
    exists m'. split_and!; [done|done|]. intros k. rewrite Hc, cand_keep_all by apply Hrun. unfold l0_copy.
    rewrite fmap_app, newest_app, list_fmap_singleton, (l0_run_of_ok d b f n Eo Hn), newest_cons. by rewrite !join_assoc.
Qed.

Lemma wrapped_nil m : wrapped m = [] → m = [].
Proof using. by destruct m. Qed.

Lemma record_of_wrapped m : (record_of_entry ∘ snd <$> wrapped m) = record_of <$> m.
Proof using. unfold wrapped. rewrite <-list_fmap_compose. apply list_fmap_ext. by intros ? [k [[v s] t]] _. Qed.

Lemma write_merged_run (m : run) : m ≠ [] →
  ∃ size, write_merged_sstable (ent <$> m) =
    Ok (table (ent <$> m), (min_key (table_meta (ent <$> m)), max_key (table_meta (ent <$> m)), zlen (ent <$> m), size, table_index (ent <$> m))).
Proof using.
  intros Hne. pose proof (write_entries_bytes (ent <$> m) 0 SSTABLE_DATA_START []) as [Hb _].
  pose proof (write_entries_index (ent <$> m) 0 SSTABLE_DATA_START []) as Hi.
  destruct m as [|p m]; [done|]. rewrite fmap_cons in *. set (e := ent p) in *. set (es := ent <$> m) in *.
  unfold write_merged_sstable. cbn [table_meta min_key max_key head fmap option_fmap option_map default].
  destruct (last (e :: es)) as [x|] eqn:El; [|by apply last_None in El].
  destruct (write_entries _ _ _ _) as [[bytes idx] o]. cbn [fst snd] in Hb, Hi. subst. eexists. done.
Qed.

(** What a merge leaves of a bucket: one run in Level 1, the Level-0 files obsolete. *)
Definition merged_bucket (bk bk' : Bucket) (m : run) : Prop :=
  l1_ok bk' m ∧ level0_files bk' = mark_obsolete <$> level0_files bk ∧ compaction_in_progress bk' = compaction_in_progress bk.

Lemma l1_entries bk m : l1_ok bk m → read_sstable_entries_from_file (sstable_file bk) = Ok (ent <$> m).
Proof using All.
  intros [Hm Hbk]. case_decide as Hd.
  - destruct Hbk as (-> & _). subst. apply read_from_file_empty.
  - destruct Hbk as (-> & _). apply read_from_file_table. by apply run_entries.
Qed.

(** Either nothing changes but the Level-1 path on the disk, or the bucket's runs are one,
    without the tombstones that win. *)
Lemma merge_level0_ok b fault w : Inv w → 0 ≤ b < num_buckets (config (tree w)) →
  let (r, w') := merge_level0_to_level1 b fault w in
  (∃ d1, w' = mk_world (tree w) (mk_disk (disk_l0 (disk w)) (disk_l0_tmp (disk w)) d1) (events w)) ∨
  r = Ok tt ∧ ∃ bk' mg d1, merged_bucket (bucket_at (tree w) b) bk' mg ∧
    w' = mk_world (with_bucket (tree w) b bk') (mk_disk (disk_l0 (disk w)) (disk_l0_tmp (disk w)) d1) (events w) ∧
    ∀ k, cand mg k = purge (join (l0_copy (disk w) b (l0_order (bucket_at (tree w) b)) k) (l1_copy (bucket_at (tree w) b) k)).
Proof using All.
  intros Hw Hb. unfold merge_level0_to_level1.
  assert (∃ d1, w = mk_world (tree w) (mk_disk (disk_l0 (disk w)) (disk_l0_tmp (disk w)) d1) (events w)) as Hsame
    by (exists (disk_l1 (disk w)); by destruct w as [? [] ?]).
  destruct (inv_l1 w Hw b Hb) as [m1 Hl1]. pose proof (run_of_l1 _ m1 Hl1) as Hrun1. pose proof Hl1 as [Hm1 _].
  destruct (level0_files (bucket_at (tree w) b)) as [|f0 fs0] eqn:Efs; [by left|]. rewrite <-Efs. clear f0 fs0 Efs.
  set (fs := sort_by_key created_at_ms (level0_files (bucket_at (tree w) b))).
  destruct (collect_l0_ok (disk w) b fs [] run_ok_nil) as (mm & Hc & Hmm & Hcand).
  { intros f Hf. apply elem_of_sort_by in Hf. by apply (inv_l0 w Hw). }
  change (wrapped []) with (@nil (key * SStableEntry)) in Hc. rewrite Hc.
  assert (∀ k, cand mm k = l0_copy (disk w) b (l0_order (bucket_at (tree w) b)) k) as Hl0.
  { intros k. rewrite Hcand, join_None_r. unfold l0_order, fs. rewrite sort_by_rev; [done|].
    replace (created_at_ms <$> level0_files (bucket_at (tree w) b)) with (l0_name <$> level0_files (bucket_at (tree w) b)); [apply (inv_names w Hw b); lia|].
    apply list_fmap_ext. intros i f Hf%list_elem_of_lookup_2. symmetry. apply (inv_stamps w Hw b f); [lia|done]. }
  destruct (wrapped mm) as [|p0 ps] eqn:Ew; [by left|]. rewrite <-Ew, record_of_wrapped, (l1_entries _ m1 Hl1).
  destruct (two_way_merge_ok m1 mm (run_wf _ Hm1) (run_wf _ Hmm)) as (mg & He & Hmg). rewrite He.
  assert (run_ok mg) as Hok.
  { destruct Hm1 as [_ Hv1], Hmm as [_ Hv2]. split; [apply Hmg|]. intros k c Hin. apply (merged_from _ _ _ Hmg) in Hin as [Hin|Hin]; [by apply (Hv1 k c)|by apply (Hv2 k c)]. }
  assert (∀ k, cand mg k = purge (join (l0_copy (disk w) b (l0_order (bucket_at (tree w) b)) k) (l1_copy (bucket_at (tree w) b) k))) as Hpurge.
  { intros k. rewrite (merged_cand _ _ _ Hmg), Hl0. unfold l1_copy. by rewrite Hrun1. }
  destruct mg as [|p mg].
  - assert (l1_ok (with_l1 (bucket_at (tree w) b) [] [] (Some (bloom_build [] 0)) None) []) as Hl1' by (split; [apply run_ok_nil|by rewrite decide_True]).
    destruct fault; try (by left); right; (split; [done|]);
      exists (all_obsolete (with_l1 (bucket_at (tree w) b) [] [] (Some (bloom_build [] 0)) None)), [];
      [exists (<[b:=[]]> (disk_l1 (disk w)))|exists (disk_l1 (disk w))|exists (<[b:=[]]> (disk_l1 (disk w)))..];
      (split; [done|split; [by destruct (disk w)|exact Hpurge]]).
  - rewrite fmap_cons. change (ent p :: (ent <$> mg)) with (ent <$> p :: mg). destruct (write_merged_run (p :: mg) ltac:(done)) as [size Hwm]. rewrite Hwm.
    assert (l1_ok (with_l1 (bucket_at (tree w) b) (table (ent <$> p :: mg)) [table_meta (ent <$> p :: mg)]
      (Some (bloom_build (sst_key <$> (ent <$> p :: mg)) (zlen (ent <$> p :: mg)))) (si_some (table_index (ent <$> p :: mg)))) (p :: mg)) as Hl1' by (split; [done|by rewrite decide_False]).
    set (bk1 := with_l1 _ _ _ _ _) in Hl1'.
    destruct fault; try (left; first [done|by eexists]); right; (split; [done|]); exists (all_obsolete bk1), (p :: mg), (<[b:=table (ent <$> p :: mg)]> (disk_l1 (disk w)));
      (split; [done|split; [done|exact Hpurge]]).
Qed.

(** ** A change of one bucket *)

Lemma seq_le_purge c : seq_le (purge c) c.
Proof using. destruct c as [[[v|] s]|]; [apply seq_le_refl|done|done]. Qed.

(** The copies are what they were, or without the tombstones. *)
Definition same_or_purged (c' c : Candidate) : Prop := c' = c ∨ c' = purge c.

Lemma same_or_purged_trans a b c : same_or_purged a b → same_or_purged b c → same_or_purged a c.
Proof using. unfold same_or_purged. intros [-> | ->] [-> | ->]; [by left|by right..|]. right. by destruct c as [[[v|] s]|]. Qed.

Lemma seq_le_same_or_purged a c : same_or_purged a c → seq_le a c.
Proof using. intros [-> | ->]; [apply seq_le_refl|apply seq_le_purge]. Qed.

Lemma bucket_inv w b bk' d' ev : Inv w → 0 ≤ b < num_buckets (config (tree w)) →
  (∀ f, f ∈ level0_files bk' → obsolete f = false → ∃ m, l0_ok d' b f m) → (∃ m, l1_ok bk' m) → NoDup (l0_name <$> level0_files bk') →
  (∀ f, f ∈ level0_files bk' → created_at_ms f = l0_name f ∧ l0_name f ≤ last_l0_stamp (tree w)) →
  (∀ b' name, b' ≠ b → disk_l0 d' !! (b', name) = disk_l0 (disk w) !! (b', name)) →
  (∀ k, bucket_of (tree w) k = b → same_or_purged (join (l0_copy d' b (l0_order bk') k) (l1_copy bk' k)) (files_copy w k)) →
  let w' := mk_world (with_bucket (tree w) b bk') d' ev in
  Inv w' ∧ ∀ k, same_or_purged (files_copy w' k) (files_copy w k).
Proof using All.
  intros Hw Hb H0' H1' Hn Hs Hd Hc w'. pose proof (inv_num w Hw) as Hnb. pose proof (inv_buckets w Hw) as Hlen.
  assert (∀ b', 0 ≤ b' → bucket_at (tree w') b' = if decide (b' = b) then bk' else bucket_at (tree w) b') as Hbk
    by (intros b' Hb'; apply bucket_at_with; [unfold zlen; lia|done]).
  assert (∀ k, same_or_purged (files_copy w' k) (files_copy w k)) as Hf.
  { intros k. pose proof (bucket_range (tree w) k Hnb) as Hbr. unfold files_copy at 1. change (bucket_of (tree w') k) with (bucket_of (tree w) k).
    rewrite Hbk by lia. destruct (decide (bucket_of (tree w) k = b)) as [He|He]; [rewrite He; by apply Hc|]. left. unfold files_copy.
    f_equal. apply l0_copy_frame. intros f _. cbn [w' disk]. by apply Hd. }
  split; [|done]. destruct Hw as [I1 I2 I3 I4 I5 I6 I7 I8 I9 I10]. split; try done.
  - cbn [w' tree with_bucket buckets config]. by rewrite length_insert.
  - intros b' f Hb'. rewrite Hbk by (cbn in Hb'; lia). case_decide; [subst; apply H0'|]. intros Hin Ho. destruct (I6 b' f Hb' Hin Ho) as [m Hok].
    exists m. eapply l0_ok_frame; [|done]. cbn [w' disk]. by apply Hd.
  - intros b' Hb'. rewrite Hbk by (cbn in Hb'; lia). case_decide; [done|by apply I7].
  - intros b' Hb'. rewrite Hbk by done. case_decide; [done|by apply I8].
  - intros b' f Hb'. rewrite Hbk by done. case_decide; [apply Hs|by apply I9].
  - intros k. eapply seq_le_trans; [|apply (I10 k)]. unfold lower_copy. apply seq_le_join; [apply seq_le_join_l|].
    eapply seq_le_trans; [by apply seq_le_same_or_purged|apply seq_le_join_r].
Qed.

Lemma obsolete_copy d b fs k : (∀ f, f ∈ fs → obsolete f = true) → l0_copy d b fs k = None.
Proof using.
  intros Ho. unfold l0_copy. induction fs as [|f fs IH]; [done|]. rewrite fmap_cons, newest_cons, IH by (intros; apply Ho; by right).
  unfold l0_run_of. by rewrite Ho by left.
Qed.

Lemma l0_copy_frame_live d d' b fs k : (∀ f, f ∈ fs → obsolete f = false → disk_l0 d' !! (b, l0_name f) = disk_l0 d !! (b, l0_name f)) →
  l0_copy d' b fs k = l0_copy d b fs k.
Proof using.
  intros Hd. unfold l0_copy. f_equal. induction fs as [|f fs IH]; [done|]. rewrite !fmap_cons, IH by (intros; apply Hd; [by right|done]).
  f_equal. unfold l0_run_of. destruct (obsolete f) eqn:Eo; [done|]. rewrite Hd; [done|left|done].
Qed.

Lemma names_obsolete (fs : list L0FileEntry) : l0_name <$> (mark_obsolete <$> fs) = l0_name <$> fs.
Proof using. by rewrite <-list_fmap_compose. Qed.

(** What lies above the files. *)
Definition same_upper w w' : Prop :=
  memtable (tree w') = memtable (tree w) ∧ read_only_memtables (tree w') = read_only_memtables (tree w) ∧
  ro_memtable_version (tree w') = ro_memtable_version (tree w) ∧ config (tree w') = config (tree w) ∧
  last_l0_stamp (tree w') = last_l0_stamp (tree w).

Lemma same_upper_refl w : same_upper w w.
Proof using. done. Qed.
Lemma same_upper_trans w1 w2 w3 : same_upper w1 w2 → same_upper w2 w3 → same_upper w1 w3.
Proof using. unfold same_upper. intros (?&?&?&?&?) (?&?&?&?&?). split_and!; congruence. Qed.

(** What a pass over the files keeps. *)
Definition files_kept w w' : Prop := Inv w' ∧ same_upper w w' ∧ ∀ k, same_or_purged (files_copy w' k) (files_copy w k).

Lemma files_kept_refl w : Inv w → files_kept w w.
Proof using. intros. split_and!; [done|done|]. by left. Qed.
Lemma files_kept_trans w1 w2 w3 : files_kept w1 w2 → files_kept w2 w3 → files_kept w1 w3.
Proof using.
  intros (I1 & U1 & F1) (I2 & U2 & F2). split_and!; [done|by eapply same_upper_trans|]. intros k. eapply same_or_purged_trans; [apply F2|apply F1].
Qed.
Lemma files_kept_range w w' b : files_kept w w' → 0 ≤ b < num_buckets (config (tree w)) → 0 ≤ b < num_buckets (config (tree w')).
Proof using. by intros (_ & (_ & _ & _ & -> & _) & _). Qed.

Lemma merge_kept b fault w : Inv w → 0 ≤ b < num_buckets (config (tree w)) → files_kept w (merge_level0_to_level1 b fault w).2.
Proof using All.
  intros Hw Hb. pose proof (merge_level0_ok b fault w Hw Hb) as Hm. destruct (merge_level0_to_level1 b fault w) as [r w']. cbn [snd].
  destruct Hm as [[d1 ->]|(_ & bk' & mg & d1 & (Hl1 & Hfs & _) & -> & Hc)].
  - destruct (inv_frame w (mk_world (tree w) (mk_disk (disk_l0 (disk w)) (disk_l0_tmp (disk w)) d1) (events w))) as [Hi Hf]; try done.
    split_and!; [done|done|]. intros k. left. apply Hf.
  - assert (∀ f, f ∈ level0_files bk' → ∃ g, g ∈ level0_files (bucket_at (tree w) b) ∧ f = mark_obsolete g) as Hin.
    { intros f. rewrite Hfs. intros (g & -> & Hg)%list_elem_of_fmap. by exists g. }
    destruct (bucket_inv w b bk' (mk_disk (disk_l0 (disk w)) (disk_l0_tmp (disk w)) d1) (events w) Hw Hb) as [Hi Hf]; try done.
    + intros f Hf Ho. destruct (Hin f Hf) as (g & _ & ->). done.
    + by exists mg.
    + rewrite Hfs, names_obsolete. apply (inv_names w Hw). lia.
    + intros f Hf. destruct (Hin f Hf) as (g & Hg & ->). apply (inv_stamps w Hw b g); [lia|done].
    + intros k Hk. right. rewrite obsolete_copy, join_None_l.
      * unfold l1_copy. rewrite (run_of_l1 _ mg Hl1), Hc. unfold files_copy. by rewrite Hk.
      * intros f Hf. apply elem_of_sort_by in Hf. by destruct (Hin f Hf) as (g & _ & ->).
Qed.

Lemma set_compacting_kept b flag w : Inv w → 0 ≤ b < num_buckets (config (tree w)) → files_kept w (set_compacting b flag w).
Proof using All.
  intros Hw Hb. destruct (bucket_inv w b (with_compacting (bucket_at (tree w) b) flag) (disk w) (events w) Hw Hb) as [Hi Hf]; try done.
  - intros f. cbn [with_compacting level0_files]. by apply (inv_l0 w Hw).
  - destruct (inv_l1 w Hw b Hb) as [m Hl]. by exists m.
  - cbn [with_compacting level0_files]. apply (inv_names w Hw). lia.
  - intros f. cbn [with_compacting level0_files]. apply (inv_stamps w Hw). lia.
  - intros k Hk. left. unfold files_copy. by rewrite Hk.
Qed.

Lemma compact_bucket_kept b fault w : Inv w → 0 ≤ b < num_buckets (config (tree w)) → files_kept w (compact_bucket b fault w).2.
Proof using All.
  intros Hw Hb. unfold compact_bucket. destruct (compaction_in_progress _); [by apply files_kept_refl|].
  pose proof (set_compacting_kept b true w Hw Hb) as H1'. pose proof (files_kept_range _ _ b H1' Hb) as Hb1.
  pose proof (merge_kept b fault (set_compacting b true w) ltac:(apply H1') Hb1) as H2'. pose proof (files_kept_range _ _ b H2' Hb1) as Hb2.
  destruct (merge_level0_to_level1 b fault (set_compacting b true w)) as [r w2]. cbn [snd] in *.
  eapply files_kept_trans; [exact H1'|]. eapply files_kept_trans; [exact H2'|]. apply set_compacting_kept; [apply H2'|done].
Qed.

Lemma compact_buckets_kept fault due bs : ∀ w, Inv w → (∀ b, b ∈ bs → 0 ≤ b < num_buckets (config (tree w))) → files_kept w (compact_buckets fault due bs w).2.
Proof using All.
  induction bs as [|b bs IH]; intros w Hw Hbs; [by apply files_kept_refl|]. cbn [compact_buckets].
  assert (∀ c, c ∈ bs → 0 ≤ c < num_buckets (config (tree w))) as Hbs' by (intros c Hc; apply Hbs; by right).
  destruct (due w b); [|by apply IH]. pose proof (compact_bucket_kept b (fault b) w Hw ltac:(apply Hbs; left)) as Hk.
  destruct (compact_bucket b (fault b) w) as [r w1]. cbn [snd] in Hk.
  assert (files_kept w (compact_buckets fault due bs w1).2) as Hrest.
  { eapply files_kept_trans; [exact Hk|]. apply IH; [apply Hk|]. intros c Hc. by eapply files_kept_range, Hbs'. }
  by destruct r as [|[]].
Qed.

(** ** Releasing obsolete files *)

Lemma remove_all_frame fs : ∀ d b b' name, (∀ f, f ∈ fs → (b, l0_name f) ≠ (b', name)) →
  disk_l0 (foldl (λ d f, remove_l0 d b (l0_name f)) d fs) !! (b', name) = disk_l0 d !! (b', name).
Proof using.
  induction fs as [|f fs IH]; intros d b b' name Hf; [done|]. cbn [foldl]. rewrite IH by (intros; apply Hf; by right).
  cbn. rewrite lookup_delete_ne; [done|]. apply Hf. left.
Qed.

Lemma copy_retained d b fs k : l0_copy d b (filter (λ f, is_removable f = false) fs) k = l0_copy d b fs k.
Proof using.
  unfold l0_copy. induction fs as [|f fs IH]; [done|]. rewrite fmap_cons, newest_cons, <-IH, filter_cons.
  destruct (is_removable f) eqn:E; [rewrite decide_False by done|by rewrite decide_True, fmap_cons, newest_cons by done].
  unfold is_removable in E. apply andb_true_iff in E as [E _]. unfold l0_run_of at 2. rewrite E. by rewrite join_None_l.
Qed.

Lemma name_inj (fs : list L0FileEntry) f g : NoDup (l0_name <$> fs) → f ∈ fs → g ∈ fs → l0_name f = l0_name g → f = g.
Proof using.
  induction fs as [|x fs IH]; intros Hn Hf Hg Heq; [by apply elem_of_nil in Hf|]. rewrite fmap_cons in Hn. apply NoDup_cons in Hn as [Hx Hn].
  apply elem_of_cons in Hf as [->|Hf], Hg as [->|Hg]; [done| | |by apply IH]; exfalso; apply Hx; [rewrite Heq|rewrite <-Heq]; by apply list_elem_of_fmap_2.
Qed.

Lemma cleanup_bucket_kept w b : Inv w → 0 ≤ b < num_buckets (config (tree w)) → files_kept w (cleanup_bucket w b).
Proof using All.
  intros Hw Hb. set (fs := level0_files (bucket_at (tree w) b)). pose proof (inv_names w Hw b ltac:(lia)) as Hn. fold fs in Hn.
  assert (∀ f, f ∈ fs → is_removable f = false → disk_l0 (disk (cleanup_bucket w b)) !! (b, l0_name f) = disk_l0 (disk w) !! (b, l0_name f)) as Hkeep.
  { intros f Hf Hr. apply remove_all_frame. intros g [Hg Hgin]%list_elem_of_filter [= Heq]. fold fs in Hgin.
    rewrite (name_inj fs g f Hn Hgin Hf Heq) in Hg. congruence. }
  assert (∀ f, f ∈ level0_files (retain_bucket (bucket_at (tree w) b)) → f ∈ fs ∧ is_removable f = false) as Hin.
  { intros f [Hr Hf]%list_elem_of_filter. done. }
  destruct (bucket_inv w b (retain_bucket (bucket_at (tree w) b)) (disk (cleanup_bucket w b)) (events w) Hw Hb) as [Hi Hf].
  - intros f [Hf Hr]%Hin Ho. destruct (inv_l0 w Hw b f Hb Hf Ho) as [m Hok]. exists m. eapply l0_ok_frame; [|done]. by apply Hkeep.
  - destruct (inv_l1 w Hw b Hb) as [m Hl]. by exists m.
  - by apply NoDup_fmap_filter.
  - intros f [Hf _]%Hin. apply (inv_stamps w Hw b); [lia|done].
  - intros b' name Hne. apply remove_all_frame. intros f _ [= Heq _]. by apply Hne.
  - intros k Hk. left. unfold files_copy. rewrite Hk. f_equal. unfold l0_order. cbn [retain_bucket level0_files].
    rewrite sort_by_filter.
    + rewrite copy_retained. apply l0_copy_frame_live. intros f Hf Ho. apply elem_of_sort_by in Hf. apply Hkeep; [done|]. unfold is_removable. by rewrite Ho.
    + assert ((λ f, - created_at_ms f) <$> level0_files (bucket_at (tree w) b) = Z.opp <$> (l0_name <$> fs)) as ->.
      { rewrite <-list_fmap_compose. apply list_fmap_ext. intros i f Hf%list_elem_of_lookup_2. cbn. f_equal. apply (inv_stamps w Hw b f); [lia|done]. }
      apply NoDup_fmap_2; [|done]. intros x y. lia.
  - split_and!; done.
Qed.

Lemma cleanup_obsolete_kept w : Inv w → files_kept w (cleanup_obsolete_level0_files w).
Proof using All.
  intros Hw. unfold cleanup_obsolete_level0_files.
  assert (∀ bs u, Inv u → (∀ b, b ∈ bs → 0 ≤ b < num_buckets (config (tree u))) → files_kept u (foldl cleanup_bucket u bs)) as Hall.
  { clear w Hw. induction bs as [|b bs IH]; intros u Hu Hbs; [by apply files_kept_refl|]. cbn [foldl].
    pose proof (cleanup_bucket_kept u b Hu ltac:(apply Hbs; left)) as Hk. eapply files_kept_trans; [exact Hk|]. apply IH; [apply Hk|].
    intros c Hc. eapply files_kept_range; [exact Hk|]. apply Hbs. by right. }
  apply Hall; [done|]. intros b Hb%elem_of_seqZ. lia.
Qed.

(** ** Read guards *)

Lemma guard_kept b name n w : Inv w → 0 ≤ b < num_buckets (config (tree w)) → files_kept w (guard_level0_file b name n w).
Proof using All.
  intros Hw Hb. set (g := λ f, if l0_name f =? name then add_readers n f else f).
  assert (∀ f, l0_name (g f) = l0_name f ∧ created_at_ms (g f) = created_at_ms f ∧ l0_summary (g f) = l0_summary f ∧ obsolete (g f) = obsolete f) as Hg
    by (intros f; unfold g; by destruct (l0_name f =? name)).
  destruct (bucket_inv w b (mk_bucket (sstable_file (bucket_at (tree w) b)) (sstable_metadata (bucket_at (tree w) b)) (sstable_bloom (bucket_at (tree w) b))
    (sstable_index (bucket_at (tree w) b)) (g <$> level0_files (bucket_at (tree w) b)) (compaction_in_progress (bucket_at (tree w) b))) (disk w) (events w) Hw Hb) as [Hi Hf].
  - intros f (f0 & -> & Hf0)%list_elem_of_fmap Ho. destruct (Hg f0) as (Hn & Hc & Hs & Hob). rewrite Hob in Ho.
    destruct (inv_l0 w Hw b f0 Hb Hf0 Ho) as [m [? ? ? ? ?]]. exists m. split; [done|done|by rewrite Hn|by rewrite Hs|by rewrite Hn, Hc].
  - destruct (inv_l1 w Hw b Hb) as [m Hl]. by exists m.
  - cbn [level0_files]. assert (l0_name <$> (g <$> level0_files (bucket_at (tree w) b)) = l0_name <$> level0_files (bucket_at (tree w) b)) as ->.
    { rewrite <-list_fmap_compose. apply list_fmap_ext. intros i f _. apply Hg. }
    apply (inv_names w Hw). lia.
  - intros f (f0 & -> & Hf0)%list_elem_of_fmap. destruct (Hg f0) as (-> & -> & _). apply (inv_stamps w Hw b); [lia|done].
  - done.
  - intros k Hk. left. unfold files_copy. rewrite Hk. f_equal. unfold l0_order. cbn [level0_files]. rewrite sort_by_fmap.
    rewrite (sort_by_ext _ (λ f, - created_at_ms f)) by (intros f _; f_equal; apply Hg). unfold l0_copy. f_equal. rewrite <-list_fmap_compose.
    apply list_fmap_ext. intros i f _. cbn. unfold l0_run_of. by destruct (Hg f) as (-> & _ & _ & ->).
  - split_and!; done.
Qed.
End merges.
