(* ===== verification/LsmRefine.v ===== *)
(** * LsmRefine: the tree is a map

    What the tree promises its callers is a map from keys to their last write.  [Reps]
    relates such a map to a tree, whose copies may be spread, duplicated, not yet flushed
    or already purged; every operation keeps the relation, and a read of any tree in it
    answers from the map.  The one thing asked of callers is what the engine's key locks and log
    order give: writes of one key arrive in the order of their sequences. *)
From stdpp Require Import functions.
From S2P Require Import Prelude OrdMap Bytes Slices Keys LsmFilters SsTable SsTableSpec MemTable LsmTree LsmCompact LsmReads LsmFlushes LsmMerges.

(** ** Stacks of copies *)

(** The last write of every key. *)
Abbreviation lastmap := (key → Candidate).

(** Of two copies the newer layer's has the sequence not lower. *)
Definition seq_ge (a b : Candidate) : Prop := ∀ v s v' s', a = Some (v, s) → b = Some (v', s') → s' ≤ s.
Definition desc (l : list Candidate) : Prop := StronglySorted seq_ge l.

Lemma join_ge a b : seq_ge a b → join a b = match a with Some _ => a | None => b end.
Proof.
  intros Hge. destruct a as [[v s]|]; [|apply join_None_l]. destruct b as [[v' s']|]; [|done]. rewrite join_Some.
  by rewrite (proj2 (Z.ltb_ge _ _)) by (by apply (Hge v s v' s')).
Qed.
Lemma seq_ge_None_l b : seq_ge None b.
Proof. done. Qed.
Lemma seq_ge_None_r a : seq_ge a None.
Proof. done. Qed.

Lemma seq_ge_newest a l : (∀ b, b ∈ l → seq_ge a b) → seq_ge a (newest l).
Proof.
  intros Hl v s v' s' -> Hn. assert (seq_le (newest l) (Some (v, s))) as Hle.
  { apply seq_le_newest. intros d Hd vd sd ->. exists v, s. split; [done|]. by apply (Hl _ Hd v s vd sd). }
  by destruct (Hle v' s' Hn) as (? & ? & [= <- <-] & ?).
Qed.

Lemma newest_ge l b : (∀ a, a ∈ l → seq_ge a b) → seq_ge (newest l) b.
Proof.
  induction l as [|a l IH]; intros Hl v s v' s' Hn Hb; [done|]. rewrite newest_cons in Hn.
  assert (seq_ge (newest l) b) as Hge by (apply IH; intros; apply Hl; by right). destruct (newest l) as [[vl sl]|] eqn:E.
  - pose proof (Hge vl sl v' s' eq_refl Hb) as Hsl. destruct a as [[va sa]|]; [|rewrite join_None_l in Hn; by injection Hn as <- <-].
    rewrite join_Some in Hn. destruct (sa <? sl); injection Hn as <- <-; [done|]. by apply (Hl _ (list_elem_of_here _ _) va sa v' s').
  - rewrite join_None_r in Hn. by apply (Hl _ (list_elem_of_here _ _) v s v' s').
Qed.

Lemma desc_cons a l : desc (a :: l) ↔ (∀ b, b ∈ l → seq_ge a b) ∧ desc l.
Proof. unfold desc. by rewrite StronglySorted_cons, Forall_forall. Qed.
Lemma desc_app l k : desc (l ++ k) ↔ (∀ a b, a ∈ l → b ∈ k → seq_ge a b) ∧ desc l ∧ desc k.
Proof. unfold desc. by rewrite StronglySorted_app. Qed.
Lemma desc_newest a l : desc (a :: l) → newest (a :: l) = match a with Some _ => a | None => newest l end.
Proof. intros [Hl _]%desc_cons. rewrite newest_cons. by apply join_ge, seq_ge_newest. Qed.

Lemma list_filter_all {A} (P : A → Prop) `{∀ x, Decision (P x)} (l : list A) : (∀ x, x ∈ l → P x) → filter P l = l.
Proof.
  induction l as [|x l IH]; intros Hl; [done|]. rewrite filter_cons, decide_True by (apply Hl; left). f_equal. apply IH. intros; apply Hl; by right.
Qed.
Lemma list_filter_none {A} (P : A → Prop) `{∀ x, Decision (P x)} (l : list A) : (∀ x, x ∈ l → ¬ P x) → filter P l = [].
Proof.
  induction l as [|x l IH]; intros Hl; [done|]. rewrite filter_cons, decide_False by (apply Hl; left). apply IH. intros; apply Hl; by right.
Qed.

Section refine.
Context `{CrcLaws, RkyvSstLaws, Murmur3Laws} {M : Type} `{MemTableLaws M}.
Implicit Types (w : World M) (t : LSMTree M) (A : lastmap).
Local Open Scope minnal_scope.

(** ** The relation *)

Definition flushed_ros (ros : list ReadOnlyMemTable) : list ReadOnlyMemTable := filter (λ ro, flushed_to_level0 ro = true) ros.
Definition unflushed_ros (ros : list ReadOnlyMemTable) : list ReadOnlyMemTable := filter (λ ro, flushed_to_level0 ro = false) ros.

(** The copies of [k] not yet in files, newest layer first. *)
Definition stack w (k : key) : list Candidate :=
  active_copy (tree w) k :: ((λ ro, cand (ro_run ro) k) <$> rev (unflushed_ros (read_only_memtables (tree w)))).

(** The last write of [k] is the newest of what is not flushed and of [filed], the last
    write that was; the files hold [filed], or nothing where it is a tombstone. *)
Definition key_ok w (k : key) (last filed : Candidate) : Prop :=
  desc (stack w k ++ [filed]) ∧ last = newest (stack w k ++ [filed]) ∧
  (ro_copy (flushed_ros (read_only_memtables (tree w))) k = None ∨ ro_copy (flushed_ros (read_only_memtables (tree w))) k = filed) ∧
  (files_copy w k = filed ∨ (files_copy w k = None ∧ purge filed = None)).

Record Reps (A : lastmap) w : Prop := {
  reps_inv : Inv w;
  reps_order : read_only_memtables (tree w) = flushed_ros (read_only_memtables (tree w)) ++ unflushed_ros (read_only_memtables (tree w));
  reps_versions ro : ro ∈ read_only_memtables (tree w) → ro_version ro < ro_memtable_version (tree w);
  reps_key k : ∃ filed, key_ok w k (A k) filed }.

(** ** Reads *)

Lemma stack_ros w k : newest (stack w k) = join (active_copy (tree w) k) (ro_copy (unflushed_ros (read_only_memtables (tree w))) k).
Proof using. unfold stack. by rewrite newest_cons. Qed.

(** What the layers hold together is the last write, or nothing where that was a purged
    deletion. *)
Lemma reps_held A w k : Reps A w → newest_held w k = A k ∨ (newest_held w k = None ∧ purge (A k) = None).
Proof using All.
  intros Hr. destruct (reps_key A w Hr k) as (filed & Hd & -> & Hfl & Hfi).
  unfold newest_held, lower_copy. rewrite (reps_order A w Hr), ro_copy_app. set (ros := read_only_memtables (tree w)) in *.
  rewrite newest_app. change (newest [filed]) with (join None filed). rewrite join_None_l.
  rewrite !join_assoc, <-stack_ros, <-!join_assoc.
  assert (seq_ge (newest (stack w k)) filed) as Hge.
  { apply desc_app in Hd as (Hd & _ & _). apply newest_ge. intros a Ha. apply Hd; [done|left]. }
  set (u := newest (stack w k)) in *. rewrite (join_ge u filed Hge). set (x := join (ro_copy (flushed_ros ros) k) (files_copy w k)).
  assert (x = filed ∨ x = None ∧ purge filed = None) as Hx.
  { subst x. destruct Hfl as [-> | ->], Hfi as [-> | [-> Hp]]; rewrite ?join_None_l, ?join_None_r, ?join_idemp; tauto. }
  assert (seq_ge u x) as Hux by (destruct Hx as [-> | [-> _]]; [done|apply seq_ge_None_r]). rewrite (join_ge u x Hux).
  destruct u as [[v s]|]; [by left|]. exact Hx.
Qed.

(** A read answers the last write. *)
Lemma reps_get A w k : Reps A w → Forall byte k → get_with_seq w k = Ok (visible (A k)).
Proof using All.
  intros Hr Hk. rewrite get_with_seq_held by (done || apply Hr). f_equal. destruct (reps_held A w k Hr) as [-> | [-> Hp]]; [done|].
  by destruct (A k) as [[[v|] s]|].
Qed.

(** ** Steps that leave the copies above the files *)

Lemma reps_files_kept A w w' : Reps A w → files_kept w w' → Reps A w'.
Proof using All.
  intros [Hi Ho Hv Hk] (Hi' & (Um & Ur & Uv & _) & Hf). split; [done|by rewrite Ur|by rewrite Ur, Uv|].
  intros k. destruct (Hk k) as (filed & Hd & Hl & Hfl & Hfi). exists filed. unfold key_ok, stack, active_copy in *. rewrite Um, Ur.
  split_and!; [done|done|done|]. destruct (Hf k) as [-> | ->]; [done|]. destruct Hfi as [-> | [-> Hp]]; [|by right].
  destruct filed as [[[v|] s]|]; [by left|by right|by left].
Qed.

Lemma flushed_app l l' : flushed_ros (l ++ l') = flushed_ros l ++ flushed_ros l'.
Proof using. apply filter_app. Qed.
Lemma unflushed_app l l' : unflushed_ros (l ++ l') = unflushed_ros l ++ unflushed_ros l'.
Proof using. apply filter_app. Qed.
Lemma all_flushed l : Forall (λ r, flushed_to_level0 r = true) l → flushed_ros l = l ∧ unflushed_ros l = [].
Proof using.
  induction 1 as [|r l Hr _ [IH1 IH2]]; [done|]. unfold flushed_ros, unflushed_ros in *. rewrite !filter_cons, IH1, IH2.
  by rewrite decide_True, decide_False by congruence.
Qed.
Lemma all_unflushed l : Forall (λ r, flushed_to_level0 r = false) l → flushed_ros l = [] ∧ unflushed_ros l = l.
Proof using.
  induction 1 as [|r l Hr _ [IH1 IH2]]; [done|]. unfold flushed_ros, unflushed_ros in *. rewrite !filter_cons, IH1, IH2.
  by rewrite decide_False, decide_True by congruence.
Qed.
Lemma mark_flushed_ros ro un : Forall (λ r, flushed_to_level0 r = false) un →
  flushed_ros (mark_flushed ro :: un) = [mark_flushed ro] ∧ unflushed_ros (mark_flushed ro :: un) = un.
Proof using.
  intros [H1' H2']%all_unflushed. unfold flushed_ros, unflushed_ros in *. rewrite !filter_cons, H1', H2'. by rewrite decide_True, decide_False by done.
Qed.

(** ** Sealing *)

Lemma reps_seal A w : Reps A w → Reps A (flush_memtable w).
Proof using All.
  intros [Hi Ho Hv Hk]. destruct (flush_memtable_ok w Hi) as (ro & Hr & Hrv & Hrf & Hros & Hver & _).
  destruct (flush_memtable_inv w Hi) as [Hi' Hc]. split; [done| | |].
  - rewrite Hros, flushed_app, unflushed_app. destruct (all_unflushed [ro]) as [-> ->]; [by repeat constructor|]. rewrite app_nil_r, app_assoc. by rewrite <-Ho.
  - intros r. rewrite Hros, Hver. intros [Hin| ->%list_elem_of_singleton]%elem_of_app; [specialize (Hv r Hin); lia|lia].
  - intros k. destruct (Hk k) as (filed & Hd & Hl & Hfl & Hfi). exists filed. destruct (Hc k) as (_ & Ha & Hfiles).
    assert (stack (flush_memtable w) k = None :: stack w k) as Hst.
    { unfold stack at 1. rewrite Ha, Hros, unflushed_app. destruct (all_unflushed [ro]) as [_ ->]; [by repeat constructor|]. rewrite rev_app_distr. cbn [rev app]. rewrite fmap_cons, Hr. done. }
    assert (flushed_ros (read_only_memtables (tree (flush_memtable w))) = flushed_ros (read_only_memtables (tree w))) as Hfr.
    { rewrite Hros, flushed_app. destruct (all_unflushed [ro]) as [-> _]; [by repeat constructor|]. by rewrite app_nil_r. }
    unfold key_ok. rewrite Hst, Hfr, Hfiles. cbn [app]. rewrite newest_cons, join_None_l. split_and!; [|done|done|done].
    apply desc_cons. split; [|done]. intros. apply seq_ge_None_l.
Qed.

Lemma reps_sealed_first A w : Reps A w → Reps A (sealed_first w).
Proof using All. intros. unfold sealed_first. destruct (should_flush _); [by apply reps_seal|done]. Qed.

(** ** Writes *)

Lemma reps_written A w w' k v seq ok : Reps A w → valid_key k → (∀ v' s', A k = Some (v', s') → s' ≤ seq) →
  written w w' k (Some (v, seq)) ok → Reps (if ok then <[k := Some (v, seq)]> A else A) w'.
Proof using All.
  intros [Hi Ho Hv Hk] Hvk Hseq (Hi' & _ & Hfiles & Hros & Hver & Hact). split; [done|by rewrite Hros|by rewrite Hros, Hver|].
  intros k'. destruct (Hk k') as (filed & Hd & Hl & Hfl & Hfi). exists filed. unfold key_ok, stack in *. rewrite Hros, Hfiles, Hact.
  destruct (ok && bool_decide (k' = k)) eqn:E.
  - apply andb_true_iff in E as [-> ->%bool_decide_eq_true]. rewrite fn_lookup_insert. cbn [app] in *. apply desc_cons in Hd as [Hge Hd].
    set (rest := _ ++ [filed]) in *. set (a := active_copy (tree w) k) in *.
    assert (∀ b v' s', b ∈ a :: rest → b = Some (v', s') → s' ≤ seq) as Hle.
    { intros b v' s' Hb ->. destruct (seq_le_elem _ _ Hb v' s' eq_refl) as (v'' & s'' & Hn & ?). rewrite <-Hl in Hn. specialize (Hseq _ _ Hn). lia. }
    assert (join (Some (v, seq)) a = Some (v, seq)) as ->.
    { destruct a as [[va sa]|] eqn:Ea; [|done]. rewrite join_Some. specialize (Hle _ va sa (list_elem_of_here _ _) eq_refl). by rewrite (proj2 (Z.ltb_ge _ _)). }
    assert (desc (Some (v, seq) :: rest)) as Hdesc.
    { apply desc_cons. split; [|done]. intros b Hb x y x' y' [= <- <-] Hbs. apply (Hle b x' y'); [by right|done]. }
    split_and!; [done| |done|done]. by rewrite desc_newest.
  - replace ((if ok then <[k:=Some (v, seq)]> A else A) k') with (A k'); [done|]. destruct ok; [|done]. cbn [andb] in E. apply bool_decide_eq_false in E.
    by rewrite fn_lookup_insert_ne by congruence.
Qed.

(** ** Flushing *)

(** The first unflushed memtable moves to the files. *)
Lemma key_ok_flushed w w' k last filed ro fl un : key_ok w k last filed →
  read_only_memtables (tree w) = fl ++ ro :: un → read_only_memtables (tree w') = fl ++ mark_flushed ro :: un →
  Forall (λ r, flushed_to_level0 r = true) fl → Forall (λ r, flushed_to_level0 r = false) (ro :: un) →
  active_copy (tree w') k = active_copy (tree w) k → files_copy w' k = join (cand (ro_run ro) k) (files_copy w k) →
  key_ok w' k last (join (cand (ro_run ro) k) filed).
Proof using All.
  intros (Hd & Hl & Hfl & Hfi) Hr Hr' Hf Hu Ha Hfiles.
  destruct (all_flushed fl Hf) as [Hf1 Hf2]. pose proof Hu as Hu0. apply Forall_cons in Hu0 as [Hro Hun].
  destruct (all_unflushed un Hun) as [Hu1 Hu2]. destruct (all_unflushed _ Hu) as [Hu3 Hu4]. destruct (mark_flushed_ros ro un Hun) as [Hm1 Hm2].
  set (c := cand (ro_run ro) k) in *. set (base := active_copy (tree w) k :: ((λ ro, cand (ro_run ro) k) <$> rev un)).
  assert (stack w k = base ++ [c]) as Hst.
  { unfold stack. rewrite Hr, unflushed_app, Hf2, Hu4. cbn [app rev]. rewrite fmap_app. done. }
  assert (stack w' k = base) as Hst' by (unfold stack; by rewrite Hr', unflushed_app, Hf2, Hm2, Ha).
  unfold key_ok. rewrite Hst', Hfiles. rewrite Hst in Hd, Hl. rewrite Hr, flushed_app, Hf1, Hu3, app_nil_r in Hfl. rewrite Hr', flushed_app, Hf1, Hm1, ro_copy_app, ro_copy_singleton.
  change (ro_run (mark_flushed ro)) with (ro_run ro). fold c. rewrite <-app_assoc in Hd, Hl. cbn [app] in Hd, Hl.
  apply desc_app in Hd as (Hbase & Hdb & Hcf). apply desc_cons in Hcf as [Hcf _]. specialize (Hcf filed (list_elem_of_here _ _)).
  assert (join c filed = match c with Some _ => c | None => filed end) as Hj by by apply join_ge. split_and!.
  - apply desc_app. split_and!; [|done|by repeat constructor]. intros x y Hx ->%list_elem_of_singleton. rewrite Hj. destruct c as [p|]; apply Hbase; try done; [left|right; left].
  - rewrite Hl, !newest_app. change (newest [c; filed]) with (join (join None c) filed). change (newest [join c filed]) with (join None (join c filed)). by rewrite !join_None_l.
  - rewrite Hj. destruct c as [p|]; [|by rewrite join_None_l]. right. destruct Hfl as [-> | ->]; [done|]. exact Hj.
  - destruct Hfi as [-> | [-> Hp]]; [by left|]. rewrite join_None_r, Hj. destruct c as [p|]; [by left|by right].
Qed.

Lemma filter_prefix (l : list ReadOnlyMemTable) i ro : l = flushed_ros l ++ unflushed_ros l → l !! i = Some ro →
  (∀ j r, (j < i)%nat → l !! j = Some r → flushed_to_level0 r = true) → flushed_to_level0 ro = false →
  ∃ un, l = take i l ++ ro :: un ∧ Forall (λ r, flushed_to_level0 r = true) (take i l) ∧ Forall (λ r, flushed_to_level0 r = false) (ro :: un).
Proof using.
  intros Ho Hi Hb Hro. exists (drop (S i) l). split_and!.
  - by rewrite take_drop_middle.
  - apply Forall_lookup. intros j r [Hj Hlt]%lookup_take_Some. by apply (Hb j).
  - rewrite <-(drop_S l ro i Hi). apply Forall_lookup. intros j r Hj. rewrite lookup_drop in Hj.
    assert (length (flushed_ros l) ≤ i)%nat as Hle.
    { destruct (decide (length (flushed_ros l) ≤ i)%nat) as [|Hn]; [done|]. rewrite Ho, lookup_app_l in Hi by lia.
      apply list_elem_of_lookup_2, list_elem_of_filter in Hi as [? _]. congruence. }
    rewrite Ho, lookup_app_r in Hj by lia. by apply list_elem_of_lookup_2, list_elem_of_filter in Hj as [? _].
Qed.

Definition flushed_below (i : nat) (ros : list ReadOnlyMemTable) : Prop := ∀ j r, (j < i)%nat → ros !! j = Some r → flushed_to_level0 r = true.

(** Nothing but the order of the files changed, or not even that. *)
Lemma reps_same_ros A w w' : Reps A w → Inv w' → memtable (tree w') = memtable (tree w) → ro_memtable_version (tree w') = ro_memtable_version (tree w) →
  read_only_memtables (tree w') = read_only_memtables (tree w) → (∀ k, files_copy w' k = files_copy w k) → Reps A w'.
Proof using All.
  intros [Hi Ho Hv Hk] Hi' Um Uv Ur Hf. split; [done|by rewrite Ur|by rewrite Ur, Uv|]. intros k. destruct (Hk k) as (filed & Hok).
  exists filed. unfold key_ok, stack, active_copy in *. by rewrite Um, Ur, Hf.
Qed.

Lemma reps_flush_ro A io i w : Reps A w → last_l0_stamp (tree w) < U128_MAX → flushed_below i (read_only_memtables (tree w)) →
  let (r, w') := flush_ro_memtable_to_level0 io i w in
  Reps A w' ∧ (r = Ok tt → flushed_below (S i) (read_only_memtables (tree w'))) ∧
  length (read_only_memtables (tree w')) = length (read_only_memtables (tree w)) ∧ ro_memtable_version (tree w') = ro_memtable_version (tree w) ∧
  config (tree w') = config (tree w) ∧ memtable (tree w') = memtable (tree w) ∧
  last_l0_stamp (tree w') ≤ Z.max (now_ms io * 1000000 + from_option ro_version 0 (read_only_memtables (tree w) !! i)) (last_l0_stamp (tree w) + 1).
Proof using All.
  intros HR Hlast Hbelow. pose proof (flush_ro_ok io i w (reps_inv A w HR) Hlast) as Hf. destruct (flush_ro_memtable_to_level0 io i w) as [r w'].
  destruct Hf as (Hi' & Um & Uv & Uc & Ul & Hm). destruct (read_only_memtables (tree w) !! i) as [ro|] eqn:Ei.
  2: { destruct Hm as (-> & Ur & Hf). split_and!; [by apply (reps_same_ros A w)| |by rewrite Ur|done|done|done|done].
       intros _ j r Hj. rewrite Ur. intros Hr. apply (Hbelow j r); [|done]. apply lookup_lt_Some in Hr. apply lookup_ge_None in Ei. lia. }
  destruct (flushed_to_level0 ro) eqn:Ero.
  { destruct Hm as (-> & Ur & Hf). split_and!; [by apply (reps_same_ros A w)| |by rewrite Ur|done|done|done|done].
    intros _ j r Hj. rewrite Ur. intros Hr. destruct (decide (j = i)) as [->|]; [congruence|]. apply (Hbelow j r); [lia|done]. }
  destruct r as [[]|e].
  2: { destruct Hm as (Ur & Hf). split_and!; [by apply (reps_same_ros A w)|done|by rewrite Ur|done|done|done|done]. }
  destruct Hm as (Ur & Hf). destruct (filter_prefix _ i ro (reps_order A w HR) Ei Hbelow Ero) as (un & Hsplit & Hfl & Hun).
  assert (length (take i (read_only_memtables (tree w))) = i) as Hlen by (rewrite length_take; apply lookup_lt_Some in Ei; lia).
  assert (read_only_memtables (tree w') = take i (read_only_memtables (tree w)) ++ mark_flushed ro :: un) as Hros'.
  { rewrite Ur. rewrite Hsplit at 1. rewrite insert_app_r_alt by lia. by rewrite Hlen, Nat.sub_diag. }
  split_and!; [|  |by rewrite Ur, length_insert|done|done|done|done].
  - split; [done| | |].
    + rewrite Hros'. set (fl := take i _) in *. apply Forall_cons in Hun as [_ Hun]. rewrite flushed_app, unflushed_app.
      destruct (all_flushed fl Hfl) as [-> ->], (mark_flushed_ros ro un Hun) as [-> ->]. cbn [app]. by rewrite <-app_assoc.
    + intros r. rewrite Uv, Ur. intros Hr. apply list_elem_of_lookup in Hr as [j Hr]. destruct (decide (i = j)) as [<-|].
      * rewrite list_lookup_insert_eq in Hr by (by eapply lookup_lt_Some). injection Hr as <-. apply (reps_versions A w HR ro). by eapply list_elem_of_lookup_2.
      * rewrite list_lookup_insert_ne in Hr by done. apply (reps_versions A w HR r). by eapply list_elem_of_lookup_2.
    + intros k. destruct (reps_key A w HR k) as (filed & Hk). eexists. eapply key_ok_flushed; try done. unfold active_copy. by rewrite Um.
  - intros _ j r Hj. rewrite Hros'. intros Hr. destruct (decide (j = i)) as [->|].
    + rewrite lookup_app_r, Hlen, Nat.sub_diag in Hr by lia. cbn in Hr. by injection Hr as <-.
    + rewrite lookup_app_l in Hr by lia. apply lookup_take_Some in Hr as [Hr _]. apply (Hbelow j r); [lia|done].
Qed.

(** Clocks and counters far from their limits: the stamps have [n] to go. *)
Definition LIMIT : Z := 2 ^ 120.
Definition clock_ok (io : nat → FlushIo) : Prop := ∀ i, now_ms (io i) * 1000000 ≤ LIMIT.
Definition room w (n : nat) : Prop :=
  last_l0_stamp (tree w) + Z.of_nat n ≤ 2 ^ 126 ∧ Z.of_nat n ≤ LIMIT ∧ ro_memtable_version (tree w) ≤ LIMIT.

Lemma reps_flush_all A io n : clock_ok io → ∀ i w, Reps A w → room w n → flushed_below i (read_only_memtables (tree w)) →
  length (read_only_memtables (tree w)) = (n + i)%nat →
  Reps A (flush_all_ro io n i w).2 ∧ config (tree (flush_all_ro io n i w).2) = config (tree w) ∧
  memtable (tree (flush_all_ro io n i w).2) = memtable (tree w) ∧
  ((flush_all_ro io n i w).1 = Ok tt → Forall (λ r, flushed_to_level0 r = true) (read_only_memtables (tree (flush_all_ro io n i w).2))).
Proof using All.
  intros Hclock. induction n as [|n IH]; intros i w HR (Hst & Hn & Hv) Hbelow Hlen.
  { split_and!; [done|done|done|]. intros _. cbn. apply Forall_lookup. intros j r Hj. apply (Hbelow j r); [|done]. apply lookup_lt_Some in Hj. lia. }
  cbn [flush_all_ro]. assert (last_l0_stamp (tree w) < U128_MAX) as Hlast by (unfold U128_MAX, LIMIT in *; lia).
  pose proof (reps_flush_ro A (io i) i w HR Hlast Hbelow) as Hf. destruct (flush_ro_memtable_to_level0 (io i) i w) as [r w1].
  destruct Hf as (HR1 & Hb1 & Hlen1 & Uv & Uc & Um & Hl1). destruct r as [[]|e]; cbn [fst snd]; [|done]. rewrite <-Uc, <-Um. apply IH.
  - done.
  - assert (from_option ro_version 0 (read_only_memtables (tree w) !! i) ≤ LIMIT) as Hver.
    { destruct (read_only_memtables (tree w) !! i) as [ro|] eqn:E; [|done]. cbn. pose proof (reps_versions A w HR ro ltac:(by eapply list_elem_of_lookup_2)). lia. }
    specialize (Hclock i). unfold room. rewrite Uv. unfold LIMIT in *. split_and!; lia.
  - by apply Hb1.
  - rewrite Hlen1. lia.
Qed.

(** ** Releasing memtables *)

Lemma reps_pending A w pending : Reps A w → Reps A (with_tree w (with_ro (tree w) (read_only_memtables (tree w)) pending)).
Proof using All.
  intros HR. destruct (inv_frame w (with_tree w (with_ro (tree w) (read_only_memtables (tree w)) pending))) as [Hi Hf]; try done; [apply HR|].
  by apply (reps_same_ros A w).
Qed.

Lemma reps_defer A w : Reps A w → Reps A (defer_old_memtables_cleanup w).
Proof using All.
  intros HR. destruct HR as [Hi Ho Hv Hk]. set (ros := read_only_memtables (tree w)) in *.
  assert (filter (λ ro, (ro_version ro <? ro_memtable_version (tree w)) = true) ros = ros) as Hold.
  { apply list_filter_all. intros ro Hro. apply Z.ltb_lt. by apply Hv. }
  assert (filter (λ ro, (ro_version ro <? ro_memtable_version (tree w)) = false) ros = []) as Hnew.
  { apply list_filter_none. intros ro Hro. rewrite (proj2 (Z.ltb_lt _ _)) by by apply Hv. done. }
  assert (read_only_memtables (tree (defer_old_memtables_cleanup w)) = unflushed_ros ros) as Hros.
  { unfold defer_old_memtables_cleanup. cbn [tree with_tree with_ro read_only_memtables]. fold ros. rewrite Hold, Hnew. apply app_nil_r. }
  assert (Forall (λ r, flushed_to_level0 r = false) (unflushed_ros ros)) as Hun by (apply Forall_forall; by intros r [? _]%list_elem_of_filter).
  destruct (all_unflushed _ Hun) as [Hu1 Hu2].
  assert (∀ ro, ro ∈ unflushed_ros ros → ro ∈ ros) as Hsub by (by intros r [_ ?]%list_elem_of_filter).
  split.
  - apply (inv_upper w); try done; [apply Hi|apply Hi| |].
    + intros ro. rewrite Hros. intros Hro. by apply (inv_ro w Hi), Hsub.
    + intros k. eapply seq_le_trans; [|apply (inv_lower w Hi k)]. unfold lower_copy. rewrite Hros. fold ros.
      assert (ro_copy ros k = join (ro_copy (unflushed_ros ros) k) (ro_copy (flushed_ros ros) k)) as -> by (rewrite Ho at 1; apply ro_copy_app).
      rewrite (files_copy_same w) by done. apply seq_le_join; [|apply seq_le_join_r]. eapply seq_le_trans; [apply seq_le_join_l|apply seq_le_join_l].
  - by rewrite Hros, Hu1, Hu2.
  - intros ro. rewrite Hros. intros Hro. apply Hv. by apply Hsub.
  - intros k. destruct (Hk k) as (filed & Hd & Hl & Hfl & Hfi). exists filed. unfold key_ok, stack in *. rewrite Hros, Hu1, Hu2.
    split_and!; [done|done|by left|exact Hfi].
Qed.

(** ** The operations *)

Inductive Op :=
  | Insert (k : key) (value seq : Z) | Delete (k : key) (seq : Z)
  | Seal | Flush (io : nat → FlushIo) (seal_empty : bool)
  | CompactAll (io : nat → FlushIo) (fault : Z → MergeFault) | CompactDue (io : nat → FlushIo) (fault : Z → MergeFault)
  | FlushAndCompactAll (io : nat → FlushIo) (fault : Z → MergeFault)
  | CleanupFiles | CleanupMemtables | Guard (b name n : Z).

Definition step (op : Op) w : result unit LSMError * World M :=
  match op with
  | Insert k value seq => insert_with_seq w k value seq
  | Delete k seq => delete_with_seq w k seq
  | Seal => (Ok tt, flush_memtable w)
  | Flush io seal_empty => flush_to_level0 io seal_empty w
  | CompactAll io fault => compact_all io fault w
  | CompactDue io fault => compact_due io fault w
  | FlushAndCompactAll io fault => flush_and_compact_all io fault w
  | CleanupFiles => (Ok tt, cleanup_obsolete_level0_files w)
  | CleanupMemtables => (Ok tt, cleanup_pending_memtables w)
  | Guard b name n => (Ok tt, guard_level0_file b name n w)
  end.

(** What the map makes of an operation that answered [r]. *)
Definition spec_step (op : Op) (r : result unit LSMError) A : lastmap :=
  match op, r with
  | Insert k value seq, Ok _ => <[k := Some (Some value, seq)]> A
  | Delete k seq, Ok _ => <[k := Some (None, seq)]> A
  | _, _ => A
  end.

(** The next write of a key does not come before its last. *)
Definition write_ok A (k : key) (value seq : Z) : Prop := valid_key k ∧ valid_copy (value, seq, false) ∧ ∀ v' s', A k = Some (v', s') → s' ≤ seq.

Definition op_ok (op : Op) A w : Prop :=
  let n := S (length (read_only_memtables (tree w))) in
  match op with
  | Insert k value seq => write_ok A k value seq
  | Delete k seq => write_ok A k 0 seq
  | Flush io _ | CompactAll io _ | CompactDue io _ | FlushAndCompactAll io _ => clock_ok io ∧ room w n ∧ ro_memtable_version (tree w) < LIMIT
  | Guard b _ _ => 0 ≤ b < num_buckets (config (tree w))
  | _ => True
  end.

Lemma files_kept_reps A w w' : Reps A w → files_kept w w' → Reps A w' ∧ same_upper w w'.
Proof using All. intros HR Hk. split; [by apply (reps_files_kept A w)|apply Hk]. Qed.

Lemma room_same_upper w w' n : same_upper w w' → room w n → room w' n.
Proof using. unfold room. by intros (_ & _ & -> & _ & ->). Qed.

Lemma room_less w n n' : (n' ≤ n)%nat → room w n → room w n'.
Proof using. unfold room. intros. lia. Qed.

Lemma reps_run_compaction A io fault due w : clock_ok io → Reps A w → room w (length (read_only_memtables (tree w))) →
  Reps A (run_compaction io fault due w).2.
Proof using All.
  intros Hclock HR Hroom. unfold run_compaction.
  destruct (reps_flush_all A io (length (read_only_memtables (tree w))) Hclock 0 w HR Hroom) as (HR1 & _); [intros j r; lia|lia|].
  destruct (flush_all_ro _ _ _ _) as [[[]|e] w1]; cbn [snd] in *; [|done].
  pose proof (compact_buckets_kept fault due (seqZ 0 (num_buckets (config (tree w1)))) w1 (reps_inv A w1 HR1)) as Hk.
  destruct (files_kept_reps A w1 _ HR1 (Hk ltac:(intros b Hb%elem_of_seqZ; lia))) as [HR2 _].
  destruct (compact_buckets _ _ _ _) as [[[]|e] w2]; cbn [snd] in *; [by apply reps_defer|done].
Qed.

Lemma reps_cleanups A w : Reps A w →
  Reps A (cleanup_obsolete_level0_files (cleanup_pending_memtables w)) ∧ same_upper w (cleanup_obsolete_level0_files (cleanup_pending_memtables w)).
Proof using All.
  intros HR. assert (Reps A (cleanup_pending_memtables w)) as HR1 by by apply reps_pending.
  destruct (files_kept_reps A _ _ HR1 (cleanup_obsolete_kept _ (reps_inv _ _ HR1))) as [HR2 HU]. split; [done|].
  exact (same_upper_trans w (cleanup_pending_memtables w) _ (same_upper_refl w) HU).
Qed.

Lemma room_seal w n : Inv w → room w n → ro_memtable_version (tree w) < LIMIT → room (flush_memtable w) n.
Proof using All.
  intros Hi (Hst & Hn & _) Hv. destruct (flush_memtable_ok w Hi) as (ro & _ & _ & _ & _ & Hver & _ & _ & Hl & _). unfold room. rewrite Hver, Hl. lia.
Qed.
Lemma seal_length w : Inv w → length (read_only_memtables (tree (flush_memtable w))) = S (length (read_only_memtables (tree w))).
Proof using All. intros Hi. destruct (flush_memtable_ok w Hi) as (ro & _ & _ & _ & -> & _). rewrite length_app. cbn. lia. Qed.

(** Whether it was sealed first, the room is enough to flush every memtable. *)
Lemma reps_maybe_seal A (seal : bool) w : Reps A w → room w (S (length (read_only_memtables (tree w)))) → ro_memtable_version (tree w) < LIMIT →
  let w1 := if seal then flush_memtable w else w in Reps A w1 ∧ room w1 (length (read_only_memtables (tree w1))).
Proof using All.
  intros HR Hroom Hv. pose proof (reps_inv A w HR) as Hi. destruct seal; cbv zeta.
  - split; [by apply reps_seal|]. rewrite seal_length by done. by apply room_seal.
  - split; [done|]. eapply room_less; [|done]. lia.
Qed.

Lemma reps_compact_all A io fault w : clock_ok io → Reps A w → room w (length (read_only_memtables (tree w))) → Reps A (compact_all io fault w).2.
Proof using All.
  intros Hclock HR Hroom. unfold compact_all. destruct (reps_cleanups A w HR) as [HR1 HU]. destruct (_ && _); [done|].
  apply reps_run_compaction; [done|done|]. apply (room_same_upper w); [done|]. by destruct HU as (_ & -> & _).
Qed.

(** The tree keeps to the map. *)
Lemma reps_step A w op : Reps A w → op_ok op A w → Reps (spec_step op (step op w).1 A) (step op w).2.
Proof using All.
  intros HR Hop. destruct op as [k v s|k s| |io se|io fault|io fault|io fault| | |b name n]; cbn [op_ok step] in *.
  - destruct Hop as (Hk & Hc & Hs). pose proof (reps_written A _ _ k (Some v) s _ (reps_sealed_first A w HR) Hk Hs (insert_with_seq_ok w k v s (reps_inv A w HR) Hk Hc)) as Hw.
    by destruct (insert_with_seq w k v s) as [[[]|e] w'].
  - destruct Hop as (Hk & [_ Hc] & Hs). pose proof (reps_written A _ _ k None s _ (reps_sealed_first A w HR) Hk Hs (delete_with_seq_ok w k s (reps_inv A w HR) Hk Hc)) as Hw.
    by destruct (delete_with_seq w k s) as [[[]|e] w'].
  - by apply reps_seal.
  - destruct Hop as (Hclock & Hroom & Hv). unfold flush_to_level0. cbn [spec_step].
    destruct (reps_maybe_seal A ((0 <? mem_live (memtable (tree w))) || (0 <? mem_tombstones (memtable (tree w))) || se) w HR Hroom Hv) as [HR1 Hroom1].
    destruct (reps_flush_all A io _ Hclock 0 _ HR1 Hroom1) as (HR2 & _); [intros j r; lia|lia|]. by destruct (flush_all_ro _ _ _ _).
  - destruct Hop as (Hclock & Hroom & Hv). apply reps_compact_all; [done|done|]. eapply room_less; [|done]. lia.
  - destruct Hop as (Hclock & Hroom & Hv). unfold compact_due. destruct (reps_cleanups A w HR) as [HR1 HU]. cbn [spec_step].
    apply reps_run_compaction; [done|done|]. apply (room_same_upper w); [done|]. destruct HU as (_ & -> & _). eapply room_less; [|done]. lia.
  - destruct Hop as (Hclock & Hroom & Hv). unfold flush_and_compact_all. cbn [spec_step].
    destruct (reps_maybe_seal A ((0 <? mem_live (memtable (tree w))) || (0 <? mem_tombstones (memtable (tree w)))) w HR Hroom Hv) as [HR1 Hroom1].
    by apply reps_compact_all.
  - apply files_kept_reps with (w := w); [done|]. apply cleanup_obsolete_kept, HR.
  - by apply reps_pending.
  - apply files_kept_reps with (w := w); [done|]. by apply guard_kept; [apply HR|].
Qed.
End refine.
