(* ===== verification/LsmDurable.v ===== *)
(** * LsmDurable: a flush that is allowed through files everything *)
From stdpp Require Import functions.
From S2P Require Import Prelude Slices Bytes OrdMap Keys LsmFilters SsTable SsTableSpec MemTable LsmTree LsmCompact LsmReads LsmFlushes.
From S2P Require Import LsmMerges LsmRefine.

(** ** Opening a tree from its directory

    What is in files survives: the tree opened from the directory of another answers, for
    every key, what the files of that one held. *)

Section reopen.
Context `{CrcLaws, RkyvSstLaws, Murmur3Laws} {M : Type} `{MemTableLaws M} `{DirOrderLaws}.
Implicit Types (w : World M) (t : LSMTree M) (A : lastmap).
Local Open Scope minnal_scope.

(** The directory holds the registered files, none of them obsolete, and each bucket's
    Level 1, which may be missing while it is empty. *)
Definition settled w : Prop := ∀ b, 0 ≤ b < num_buckets (config (tree w)) →
  default [] (disk_l1 (disk w) !! b) = sstable_file (bucket_at (tree w) b) ∧
  (∀ f, f ∈ level0_files (bucket_at (tree w) b) → obsolete f = false) ∧
  ∀ name, is_Some (disk_l0 (disk w) !! (b, name)) → name ∈ l0_name <$> level0_files (bucket_at (tree w) b).

Lemma elem_of_dir_names d b name : name ∈ dir_names d b ↔ is_Some (disk_l0 d !! (b, name)).
Proof using.
  unfold dir_names. rewrite elem_of_list_to_set, list_elem_of_bind. split.
  - intros ([b' n'] & Hn & ([p file] & Heq & Hp)%list_elem_of_fmap). cbn in *. destruct (Z.eqb_spec b' b); [|by apply elem_of_nil in Hn].
    apply list_elem_of_singleton in Hn. subst. apply elem_of_map_to_list in Hp. by exists file.
  - intros [file Hf]. exists (b, name). cbn. rewrite Z.eqb_refl. split; [by left|]. apply list_elem_of_fmap. exists (b, name, file). split; [done|]. by apply elem_of_map_to_list.
Qed.

(** ** Files *)

Lemma table_long (m : run) : SSTABLE_DATA_START ≤ zlen (table (ent <$> m)).
Proof using. unfold table. rewrite zlen_app, header_zlen. pose proof (zlen_nonneg (frames (ent <$> m))). lia. Qed.

Lemma newest_of_Some (m : run) : m ≠ [] → newest_of (ent <$> m) = Some (s0_max_seq (run_summary m)).
Proof using.
  intros Hne. unfold run_summary. cbn [s0_max_seq]. destruct m as [|[k c] m]; [done|].
  destruct (newest_of_ge ((k, c) :: m) k c (list_elem_of_here _ _)) as (s & -> & _). done.
Qed.

Lemma level0_summary_table (m : run) : run_ok m → m ≠ [] → level0_file_summary (table (ent <$> m)) = Ok (Some (run_summary m)).
Proof using All.
  intros Hm Hne. unfold level0_file_summary. rewrite load_table by by apply run_entries. pose proof (newest_of_Some m Hne) as Hn.
  destruct m as [|p m]; [done|]. rewrite Hn. done.
Qed.

(** The entry of a file as it is loaded. *)
Definition reloaded (f : L0FileEntry) : L0FileEntry := mk_l0 (l0_name f) (l0_name f) (l0_summary f) 0 false.

Lemma load_bucket_ok d b fs : (∀ f, f ∈ fs → ∃ m, l0_ok d b f m) → ∀ acc,
  load_bucket d b (l0_name <$> fs) acc = Ok (reloaded <$> fs, foldl fold_max_seq acc ((λ f, s0_max_seq <$> l0_summary f) <$> fs)).
Proof using All.
  induction fs as [|f fs IH]; intros Hfs acc; [done|]. rewrite !fmap_cons. cbn [load_bucket]. destruct (Hfs f (list_elem_of_here _ _)) as [m [Hm Hne Hd Hs Hst]].
  rewrite Hd. cbn [default from_option id]. pose proof (table_long m) as Hl. rewrite (proj2 (Z.ltb_ge _ _)) by done.
  rewrite level0_summary_table by done. cbn [result_bind]. rewrite IH by (intros; apply Hfs; by right). cbn [result_bind foldl]. 
  assert (reloaded f = mk_l0 (l0_name f) (l0_name f) (Some (run_summary m)) 0 false) as -> by (unfold reloaded; by rewrite Hs). by rewrite Hs.
Qed.

(** ** The greatest sequence *)

Definition reaches (acc : option Z) (s : Z) : Prop := ∃ a, acc = Some a ∧ s ≤ a.

Lemma fold_max_reaches acc o s : reaches acc s ∨ reaches o s → reaches (fold_max_seq acc o) s.
Proof using.
  unfold reaches, fold_max_seq, newest_seq, seq_newer. intros [(a & -> & Hs)|(a & -> & Hs)].
  - destruct o as [x|]; [|by exists a]. destruct (Z.ltb_spec a x); eexists; (split; [done|lia]).
  - destruct acc as [x|]; [|by exists a]. destruct (Z.ltb_spec x a); eexists; (split; [done|lia]).
Qed.
Lemma foldl_max_reaches l : ∀ acc s, reaches acc s ∨ (∃ o, o ∈ l ∧ reaches o s) → reaches (foldl fold_max_seq acc l) s.
Proof using.
  induction l as [|o l IH]; intros acc s; cbn [foldl].
  { intros [?|(o & Ho & _)]; [done|by apply elem_of_nil in Ho]. }
  intros [Ha|(o' & Ho & Hr)]; apply IH; [left; by apply fold_max_reaches; left|].
  apply elem_of_cons in Ho as [->|Ho]; [left; by apply fold_max_reaches; right|right; by exists o'].
Qed.

(** Every sequence of the run is reached. *)
Definition reaches_run (acc : option Z) (m : run) : Prop := ∀ k c, (k, c) ∈ m → reaches acc c.1.2.

Lemma reaches_newest (m : run) : reaches_run (newest_of (ent <$> m)) m.
Proof using. intros k c Hin. destruct (newest_of_ge m k c Hin) as (s & Hs & Hle). by exists s. Qed.
Lemma reaches_max_seq (m : run) : m ≠ [] → reaches_run (Some (s0_max_seq (run_summary m))) m.
Proof using. intros Hne. rewrite <-newest_of_Some by done. apply reaches_newest. Qed.
Lemma reaches_cand acc (m : run) k : om_wf m → reaches_run acc m → seq_le (cand m k) (Some (None, default 0 acc)).
Proof using.
  intros Hwf Hr v s Hc. apply cand_Some in Hc as (c & Hin & <- & _); [|done]. destruct (Hr k c Hin) as (a & -> & Hle). eexists _, _. by split.
Qed.

(** ** Level 1 *)

Definition l1_file (file : region) (m : run) : Prop := run_ok m ∧ file = if decide (m = []) then [] else table (ent <$> m).

Lemma l1_ok_file bk m : l1_ok bk m → l1_file (sstable_file bk) m.
Proof using. intros [Hm Hbk]. split; [done|]. case_decide; apply Hbk. Qed.

Lemma open_level1_ok file m : l1_file file m →
  ∃ bk, open_level1 file = Ok (bk, newest_of (ent <$> m)) ∧ l1_ok bk m ∧ sstable_file bk = file ∧ level0_files bk = [].
Proof using All.
  intros [Hm ->]. unfold open_level1. destruct (decide (m = [])) as [->|Hne].
  - eexists. split; [done|]. split; [|done]. split; [apply run_ok_nil|]. by rewrite decide_True.
  - pose proof (table_long m) as Hl. assert (0 <? zlen (table (ent <$> m)) = true) as -> by (apply Z.ltb_lt; unfold SSTABLE_DATA_START in Hl; lia).
    rewrite validate_table. cbn [result_bind]. rewrite load_table by by apply run_entries. eexists. split; [done|]. split; [|done].
    split; [done|]. by rewrite decide_False.
Qed.

Lemma open_level1_all_ok d bs : (∀ b, b ∈ bs → ∃ m, l1_file (default [] (disk_l1 d !! b)) m) → ∀ acc,
  ∃ bks acc', open_level1_all d bs acc = Ok (bks, acc') ∧ length bks = length bs ∧ (∀ s, reaches acc s → reaches acc' s) ∧
    ∀ i b, bs !! i = Some b → ∃ bk m, bks !! i = Some bk ∧ l1_ok bk m ∧ sstable_file bk = default [] (disk_l1 d !! b) ∧ level0_files bk = [] ∧ reaches_run acc' m.
Proof using All.
  induction bs as [|b bs IH]; intros Hbs acc; [by exists [], acc|]. cbn [open_level1_all].
  destruct (Hbs b (list_elem_of_here _ _)) as [m Hm]. destruct (open_level1_ok _ m Hm) as (bk & -> & Hok & Hfile & Hl0). cbn [result_bind].
  destruct (IH ltac:(intros; apply Hbs; by right) (fold_max_seq acc (newest_of (ent <$> m)))) as (bks & acc' & -> & Hlen & Hacc & Hall). cbn [result_bind].
  exists (bk :: bks), acc'. split_and!; [done|by cbn; rewrite Hlen| |].
  - intros s Hs. apply Hacc, fold_max_reaches. by left.
  - intros [|i] b' Hi; [injection Hi as <-|by apply Hall]. exists bk, m. split_and!; try done. intros k c Hin. apply Hacc, fold_max_reaches. right. by eapply reaches_newest.
Qed.

(** ** Level 0 *)

Definition with_loaded (bk : Bucket) (fs : list L0FileEntry) : Bucket :=
  mk_bucket (sstable_file bk) (sstable_metadata bk) (sstable_bloom bk) (sstable_index bk) (reloaded <$> fs) false.

Lemma load_existing_ok d (files : Z → list L0FileEntry) bks : ∀ b acc,
  (∀ i, (i < length bks)%nat → let c := b + Z.of_nat i in
     NoDup (l0_name <$> files c) ∧ (∀ f, f ∈ files c → ∃ m, l0_ok d c f m) ∧ ∀ name, is_Some (disk_l0 d !! (c, name)) → name ∈ l0_name <$> files c) →
  ∃ bks' acc', load_existing_level0_files d b bks acc = Ok (bks', acc') ∧ length bks' = length bks ∧ (∀ s, reaches acc s → reaches acc' s) ∧
    ∀ i bk, bks !! i = Some bk → ∃ fs, fs ≡ₚ files (b + Z.of_nat i) ∧ bks' !! i = Some (with_loaded bk fs) ∧
      ∀ f m, f ∈ files (b + Z.of_nat i) → l0_ok d (b + Z.of_nat i) f m → reaches_run acc' m.
Proof using All.
  induction bks as [|bk bks IH]; intros b acc Hall; [by exists [], acc|]. cbn [load_existing_level0_files].
  destruct (Hall 0%nat ltac:(cbn; lia)) as (Hn & Hok & Hnames). cbv zeta in *. rewrite Z.add_0_r in Hn, Hok, Hnames.
  assert (dir_order (dir_names d b) ≡ₚ l0_name <$> files b) as Hp.
  { rewrite dir_order_elements. apply NoDup_Permutation; [apply NoDup_elements|done|]. intros name. rewrite elem_of_elements, elem_of_dir_names.
    split; [apply Hnames|]. intros (f & -> & Hf)%list_elem_of_fmap. destruct (Hok f Hf) as [m [_ _ Hd _ _]]. by exists (table (ent <$> m)). }
  apply Permutation_map_inv in Hp as (fs & Hfs & Hp). rewrite Hfs. change (map l0_name fs) with (l0_name <$> fs).
  assert (∀ f, f ∈ fs → f ∈ files b) as Hsub by (intros f; by rewrite Hp).
  rewrite load_bucket_ok by (intros f Hf; by apply Hok, Hsub). cbn [result_bind].
  destruct (IH (b + 1) (foldl fold_max_seq acc ((λ f, s0_max_seq <$> l0_summary f) <$> fs))) as (bks' & acc' & -> & Hlen & Hacc & Hrest).
  { intros i Hi. specialize (Hall (S i) ltac:(cbn; lia)). by replace (b + 1 + Z.of_nat i) with (b + Z.of_nat (S i)) by lia. }
  cbn [result_bind]. eexists _, acc'. split_and!; [done|by cbn; rewrite Hlen| |].
  - intros s Hs. apply Hacc, foldl_max_reaches. by left.
  - intros [|i] bk' Hi.
    + injection Hi as <-. exists fs. change (Z.of_nat 0) with 0. rewrite Z.add_0_r. split_and!; [by symmetry|done|]. intros f m Hf Hok' k c Hin.
      apply Hacc, foldl_max_reaches. right. exists (Some (s0_max_seq (run_summary m))). split; [|by eapply reaches_max_seq; [apply Hok'|]].
      apply list_elem_of_fmap. exists f. destruct Hok' as [_ _ _ -> _]. split; [done|by rewrite <-Hp].
    + destruct (Hrest i bk' Hi) as (fs' & Hp' & Hb' & Hr'). replace (b + 1 + Z.of_nat i) with (b + Z.of_nat (S i)) in * by lia. exists fs'. by split_and!.
Qed.

(** ** The tree opened *)

Lemma reloaded_order w b fs : Inv w → 0 ≤ b → fs ≡ₚ level0_files (bucket_at (tree w) b) →
  sort_by_key (λ f, - created_at_ms f) (reloaded <$> fs) = reloaded <$> l0_order (bucket_at (tree w) b).
Proof using All.
  intros Hw Hb Hp. rewrite sort_by_fmap. f_equal. unfold l0_order. cbn [reloaded created_at_ms].
  rewrite (sort_by_ext (λ f, - created_at_ms f) (λ f, - l0_name f) (level0_files _))
    by (intros f Hf; f_equal; apply (inv_stamps w Hw b f); done).
  assert (∀ l, NoDup (l0_name <$> l) → NoDup ((λ f, - l0_name f) <$> l)) as Hneg.
  { intros l Hn. assert ((λ f, - l0_name f) <$> l = Z.opp <$> (l0_name <$> l)) as -> by (by rewrite <-list_fmap_compose). apply NoDup_fmap_2; [|done]. intros x y. lia. }
  pose proof (inv_names w Hw b Hb) as Hn. apply (strict_unique (λ f, - l0_name f)).
  - apply sort_by_strict, Hneg. by rewrite Hp.
  - by apply sort_by_strict, Hneg.
  - by rewrite !sort_by_perm.
Qed.

Lemma reloaded_copy d b fs k : (∀ f, f ∈ fs → obsolete f = false) → l0_copy d b (reloaded <$> fs) k = l0_copy d b fs k.
Proof using.
  intros Ho. unfold l0_copy. rewrite <-list_fmap_compose. f_equal. apply list_fmap_ext. intros i f Hf%list_elem_of_lookup_2. cbn.
  unfold l0_run_of. cbn [reloaded obsolete l0_name]. by rewrite Ho.
Qed.

Lemma reloaded_ok d d' b f m : disk_l0 d' = disk_l0 d → l0_ok d b f m → l0_ok d' b (reloaded f) m.
Proof using. intros Hd [? ? ? ? ?]. split; [done|done|by rewrite Hd|done|done]. Qed.

(** The two passes of the opening over a settled directory. *)
Lemma open_passes w : Inv w → settled w →
  ∃ bks l1 bks' l0, let nb := num_buckets (config (tree w)) in
    open_level1_all (disk w) (seqZ 0 nb) None = Ok (bks, l1) ∧ load_existing_level0_files (disk w) 0 bks None = Ok (bks', l0) ∧
    length bks' = Z.to_nat nb ∧
    ∀ b, 0 ≤ b < nb → ∃ bk fs m, bks' !! Z.to_nat b = Some (with_loaded bk fs) ∧ fs ≡ₚ level0_files (bucket_at (tree w) b) ∧
      l1_ok bk m ∧ sstable_file bk = sstable_file (bucket_at (tree w) b) ∧ reaches_run l1 m ∧
      ∀ f n, f ∈ level0_files (bucket_at (tree w) b) → l0_ok (disk w) b f n → reaches_run l0 n.
Proof using All.
  intros Hw Hset. pose proof (inv_num w Hw) as Hnb. set (nb := num_buckets (config (tree w))) in *.
  destruct (open_level1_all_ok (disk w) (seqZ 0 nb)) with (acc := @None Z) as (bks & l1 & Ho & Hlen & _ & Hall).
  { intros b Hb%elem_of_seqZ. destruct (inv_l1 w Hw b) as [m Hm]; [fold nb; lia|]. exists m. destruct (Hset b) as [-> _]; [fold nb; lia|]. by apply l1_ok_file. }
  rewrite length_seqZ in Hlen.
  destruct (load_existing_ok (disk w) (λ b, level0_files (bucket_at (tree w) b)) bks 0 None) as (bks' & l0 & Hl & Hlen' & _ & Hall').
  { intros i Hi c. assert (0 ≤ c < nb) as Hc by (subst c; lia). destruct (Hset c Hc) as (_ & Hobs & Hnames). split_and!; [apply (inv_names w Hw); lia| |done].
    intros f Hf. apply (inv_l0 w Hw); [done|done|by apply Hobs]. }
  exists bks, l1, bks', l0. cbv zeta. split_and!; [done|done|lia|]. intros b Hb.
  destruct (Hall (Z.to_nat b) b) as (bk & m & Hbk & Hok & Hfile & _ & Hr); [apply lookup_seqZ; lia|].
  destruct (Hall' (Z.to_nat b) bk Hbk) as (fs & Hp & Hbk' & Hr'). replace (0 + Z.of_nat (Z.to_nat b)) with b in * by lia.
  exists bk, fs, m. split_and!; try done. destruct (Hset b Hb) as [Hd _]. by rewrite Hfile, Hd.
Qed.

Lemma foldr_max_ge (l : list Z) x : x ∈ l → x ≤ foldr Z.max 0 l.
Proof using. induction l as [|y l IH]; [by intros ?%elem_of_nil|]. cbn. intros [->|Hx]%elem_of_cons; [lia|]. specialize (IH Hx). lia. Qed.

Lemma disk_created d bs : disk_l0 (created_l1 d bs) = disk_l0 d.
Proof using. done. Qed.

Lemma reaches_fold l1 l0 s : reaches l1 s ∨ reaches l0 s → reaches (fold_max_seq l1 l0) s.
Proof using. apply fold_max_reaches. Qed.

Lemma open_ok w : Inv w → settled w →
  ∃ w', open (M := M) (config (tree w)) (disk w) = Ok w' ∧ Inv w' ∧ (∀ k, files_copy w' k = files_copy w k) ∧
    read_only_memtables (tree w') = [] ∧ (∀ k, active_copy (tree w') k = None).
Proof using All.
  intros Hw Hset. pose proof (inv_num w Hw) as Hnb. destruct (open_passes w Hw Hset) as (bks & l1 & bks' & l0 & Ho & Hl & Hlen & Hb). cbv zeta in *.
  set (nb := num_buckets (config (tree w))) in *. unfold open. fold nb. rewrite Ho. cbn [result_bind]. rewrite Hl. cbn [result_bind].
  eexists. split; [done|]. set (w' := mk_world _ _ _). destruct (mem_new_ok (skip_list_capacity (config (tree w)))) as [Hwf Hnil].
  assert (∀ b, 0 ≤ b < nb → ∃ bk fs m, bucket_at (tree w') b = with_loaded bk fs ∧ fs ≡ₚ level0_files (bucket_at (tree w) b) ∧ l1_ok bk m ∧
    sstable_file bk = sstable_file (bucket_at (tree w) b) ∧ reaches_run l1 m ∧
    ∀ f n, f ∈ level0_files (bucket_at (tree w) b) → l0_ok (disk w) b f n → reaches_run l0 n) as Hbk.
  { intros b Hb0. destruct (Hb b Hb0) as (bk & fs & m & Hlk & Hrest). exists bk, fs, m. split; [|done]. unfold bucket_at. cbn [w' tree buckets]. by rewrite Hlk. }
  assert (∀ b, nb ≤ b → level0_files (bucket_at (tree w') b) = []) as Hout.
  { intros b Hge. unfold bucket_at. cbn [w' tree buckets]. by rewrite lookup_ge_None_2 by lia. }
  assert (∀ k, files_copy w' k = files_copy w k) as Hfiles.
  { intros k. pose proof (bucket_range (tree w) k Hnb) as Hbr. unfold files_copy. change (bucket_of (tree w') k) with (bucket_of (tree w) k).
    destruct (Hbk _ Hbr) as (bk & fs & m & Hat & Hp & Hok & Hfile & _). rewrite Hat. unfold l1_copy. cbn [with_loaded sstable_file]. rewrite Hfile. f_equal.
    unfold l0_order at 1. cbn [with_loaded level0_files]. rewrite (reloaded_order w (bucket_of (tree w) k)) by (done || lia). rewrite reloaded_copy; [by apply l0_copy_frame|].
    intros f Hf. apply elem_of_sort_by in Hf. by apply (Hset _ Hbr). }
  assert (∀ k, seq_le (files_copy w k) (Some (None, default 0 (fold_max_seq l1 l0)))) as Hbound.
  { intros k. pose proof (bucket_range (tree w) k Hnb) as Hbr. destruct (Hbk _ Hbr) as (bk & fs & m & Hat & Hp & Hok & Hfile & Hr1 & Hr0).
    unfold files_copy. apply seq_le_join.
    - apply seq_le_newest. intros c (f & -> & Hf)%list_elem_of_fmap. apply elem_of_sort_by in Hf. destruct (Hset _ Hbr) as (_ & Hobs & _).
      destruct (inv_l0 w Hw _ f Hbr Hf (Hobs f Hf)) as [n Hn]. rewrite (l0_run_of_ok _ _ _ _ (Hobs f Hf) Hn). apply reaches_cand; [apply Hn|].
      intros k' c' Hin. apply reaches_fold. right. by eapply Hr0.
    - unfold l1_copy. rewrite <-Hfile, (run_of_l1 _ m Hok). apply reaches_cand; [apply Hok|]. intros k' c' Hin. apply reaches_fold. left. by eapply Hr1. }
  split_and!; [|done|done|intros k; unfold active_copy; cbn [w' tree memtable]; by rewrite Hnil]. split.
  - exact Hnb.
  - exact Hlen.
  - exact Hwf.
  - cbn [w' tree memtable]. rewrite Hnil. apply run_ok_nil.
  - intros ro Hro. by apply elem_of_nil in Hro.
  - intros b f Hb0. destruct (Hbk b Hb0) as (bk & fs & m & -> & Hp & _). cbn [with_loaded level0_files]. intros (g & -> & Hg)%list_elem_of_fmap _.
    rewrite Hp in Hg. destruct (Hset b Hb0) as (_ & Hobs & _). destruct (inv_l0 w Hw b g Hb0 Hg (Hobs g Hg)) as [n Hn]. exists n. apply (reloaded_ok (disk w)); [done|exact Hn].
  - intros b Hb0. destruct (Hbk b Hb0) as (bk & fs & m & -> & _ & Hok & _). by exists m.
  - intros b Hb0. destruct (decide (b < nb)); [|rewrite Hout by lia; constructor]. destruct (Hbk b) as (bk & fs & m & -> & Hp & _); [lia|]. cbn [with_loaded level0_files].
    assert (l0_name <$> (reloaded <$> fs) = l0_name <$> fs) as -> by (by rewrite <-list_fmap_compose). rewrite Hp. by apply (inv_names w Hw).
  - intros b f Hb0. destruct (decide (b < nb)); [|rewrite Hout by lia; by intros ?%elem_of_nil]. destruct (Hb b) as (bk & fs & m & Hlk & _); [lia|].
    assert (bucket_at (tree w') b = with_loaded bk fs) as -> by (unfold bucket_at; cbn [w' tree buckets]; by rewrite Hlk).
    cbn [with_loaded level0_files]. intros Hf. assert (created_at_ms f ≤ last_l0_stamp (tree w')) as Hle.
    { apply foldr_max_ge, list_elem_of_fmap. exists f. split; [done|]. apply list_elem_of_bind. exists (with_loaded bk fs). split; [done|]. by eapply list_elem_of_lookup_2. }
    apply list_elem_of_fmap in Hf as (g & -> & _). done.
  - intros k. unfold lower_copy. cbn [w' tree read_only_memtables]. change (ro_copy [] k) with (None : Candidate). rewrite join_None_l, Hfiles. apply Hbound.
Qed.

(** A tree opened on a settled directory has the last writes that were filed; if all were,
    it has the last writes. *)
Lemma reps_open A w : Reps A w → settled w →
  ∃ w', open (M := M) (config (tree w)) (disk w) = Ok w' ∧ Reps (files_copy w) w' ∧ ((∀ k, newest (stack w k) = None) → Reps A w').
Proof using All.
  intros HR Hset. destruct (open_ok w (reps_inv A w HR) Hset) as (w' & Ho & Hi & Hf & Hros & Ha). exists w'. split; [done|].
  assert (∀ k, stack w' k = [None]) as Hst by (intros k; unfold stack; by rewrite Ha, Hros).
  assert (∀ B : lastmap, (∀ k, files_copy w k = B k ∨ (files_copy w k = None ∧ purge (B k) = None)) → Reps B w') as Hreps.
  { intros B HB. split; [done|by rewrite Hros|by intros ro; rewrite Hros; intros ?%elem_of_nil|]. intros k. exists (B k). unfold key_ok. rewrite Hst, Hf, Hros. split_and!.
    - apply desc_cons. split; [|by repeat constructor]. intros. apply seq_ge_None_l.
    - cbn [app]. rewrite newest_cons, join_None_l. change (newest [B k]) with (join None (B k)). by rewrite join_None_l.
    - by left.
    - apply HB. }
  split; [apply Hreps; by left|]. intros Hempty. apply Hreps. intros k. destruct (reps_key A w HR k) as (filed & _ & -> & _ & Hfi).
  rewrite newest_app, Hempty, join_None_l. change (newest [filed]) with (join None filed). by rewrite join_None_l.
Qed.
End reopen.

(** ** A flush that is allowed through files everything *)

Section durable.
Context `{CrcLaws, RkyvSstLaws, Murmur3Laws} {M : Type} `{MemTableLaws M} `{DirOrderLaws}.
Implicit Types (w : World M) (t : LSMTree M) (A : lastmap).
Local Open Scope minnal_scope.

(** The observer does not veto, and every file is written and synced. *)
Definition good_io (io : FlushIo) : Prop := flushing_ok io = true ∧ written_ok io = true ∧ ∀ b, write_bucket io b = WriteOk.

Lemma write_one_good t d b ro stamp : run_ok (ro_run ro) →
  ∃ o d', write_level0_file_for_records t d b (ro_records ro) stamp WriteOk = (Ok o, d') ∧ disk_l1 d' = disk_l1 d ∧
    ∀ b' name, is_Some (disk_l0 d' !! (b', name)) → is_Some (disk_l0 d !! (b', name)) ∨ (b' = b ∧ name = stamp ∧ share t b (ro_run ro) ≠ []).
Proof using.
  intros Hro. unfold write_level0_file_for_records. rewrite bucket_records_share by apply Hro.
  destruct (share t b (ro_run ro)) as [|p s] eqn:Es; [exists None, d; split_and!; [done|done|by left]|].
  rewrite fmap_cons. destruct (l0_contents (record_of p :: (record_of <$> s)) stamp) as [file f]. eexists _, _. split_and!; [done|done|].
  intros b' name. cbn. destruct (decide ((b', name) = (b, stamp))) as [[= -> ->]|Hn]; [by right|]. rewrite lookup_insert_ne by done. by left.
Qed.

Lemma write_buckets_good t ro stamp out n : run_ok (ro_run ro) → (∀ b, out b = WriteOk) → ∀ b d written,
  ∃ written' d', write_buckets n b t d (ro_records ro) stamp out written = (Ok tt, written', d') ∧ disk_l1 d' = disk_l1 d ∧
    ∀ b' name, is_Some (disk_l0 d' !! (b', name)) → is_Some (disk_l0 d !! (b', name)) ∨ (name = stamp ∧ share t b' (ro_run ro) ≠ []).
Proof using.
  intros Hro Hout. induction n as [|n IH]; intros b d written; [exists written, d; split_and!; [done|done|by left]|]. cbn [write_buckets]. rewrite Hout.
  destruct (write_one_good t d b ro stamp Hro) as (o & d1 & -> & Hl1 & Hd1).
  destruct (IH (b + 1) d1 (written ++ from_option (λ f, [(b, f)]) [] o)) as (written' & d' & -> & Hl2 & Hd2). exists written', d'.
  split_and!; [done|congruence|]. intros b' name Hs. apply Hd2 in Hs as [Hs|]; [|by right]. apply Hd1 in Hs as [|(-> & -> & ?)]; [by left|by right].
Qed.

Lemma flush_ro_good io i w : Inv w → last_l0_stamp (tree w) < U128_MAX → good_io io →
  (flush_ro_memtable_to_level0 io i w).1 = Ok tt ∧ (settled w → settled (flush_ro_memtable_to_level0 io i w).2).
Proof using All.
  intros Hw Hlast (Hf & Hwr & Hout). unfold flush_ro_memtable_to_level0.
  destruct (read_only_memtables (tree w) !! i) as [ro|] eqn:Ei; [|done]. destruct (flushed_to_level0 ro) eqn:Ef; [done|].
  rewrite Hf, Hwr. cbn [negb tree disk events]. set (c := Z.min U128_MAX (Z.min U128_MAX (now_ms io * 1000000) + ro_version ro)).
  pose proof (next_stamp_ok (tree w) c Hlast) as Hst. destruct (next_l0_stamp (tree w) c) as [stamp t]. destruct Hst as (Hst & Hstc & ->).
  pose proof (inv_ro w Hw ro ltac:(by eapply list_elem_of_lookup_2)) as Hro. set (nb := num_buckets (config (with_stamp (tree w) stamp))).
  pose proof (write_buckets_ok (with_stamp (tree w) stamp) ro stamp (write_bucket io) (Z.to_nat nb) Hro 0 (disk w) []) as Hwb.
  destruct (write_buckets_good (with_stamp (tree w) stamp) ro stamp (write_bucket io) (Z.to_nat nb) Hro Hout 0 (disk w) []) as (written & d & Hwd & Hl1 & Hd).
  rewrite Hwd in *. destruct Hwb as (_ & -> & _). split; [done|]. intros Hset.
  pose proof (inv_num w Hw) as Hnb. pose proof (inv_buckets w Hw) as Hlen.
  destruct (register_all (with_stamp (tree w) stamp) (ro_run ro) stamp (Z.to_nat nb) 0) as (Hup & Hlen' & Hbk).
  { lia. } { unfold zlen. cbn [with_stamp buckets]. subst nb. cbn [with_stamp config]. lia. }
  { intros b' g Hb Hg. destruct (inv_stamps w Hw b' g Hb Hg). lia. }
  cbn [app]. set (t' := foldl _ _ _) in *. destruct Hup as (_ & _ & _ & _ & _ & _ & Uc). intros b Hb.
  assert (0 ≤ b < nb) as Hb' by (revert Hb; cbn [snd tree with_ro config]; by rewrite Uc).
  cbn [snd tree disk]. change (bucket_at (with_ro t' _ _) b) with (bucket_at t' b). rewrite Hbk, decide_True by lia. destruct (Hset b Hb') as (Hd1 & Hobs & Hnames).
  cbn [with_files sstable_file level0_files]. split_and!.
  - rewrite Hl1. exact Hd1.
  - intros f [Hf1|Hf1]%elem_of_app; [by apply Hobs|]. unfold bucket_file in Hf1. destruct (share _ _ _); [by apply elem_of_nil in Hf1|]. by apply list_elem_of_singleton in Hf1 as ->.
  - intros name [Hs|[-> Hs]]%Hd; rewrite fmap_app, elem_of_app; [left; by apply Hnames|right]. unfold bucket_file. destruct (share _ _ _); [done|]. by left.
Qed.

Lemma flush_all_good A io n : clock_ok io → (∀ i, good_io (io i)) → ∀ i w, Reps A w → room w n → flushed_below i (read_only_memtables (tree w)) →
  length (read_only_memtables (tree w)) = (n + i)%nat →
  (flush_all_ro io n i w).1 = Ok tt ∧ (settled w → settled (flush_all_ro io n i w).2).
Proof using All.
  intros Hclock Hgood. induction n as [|n IH]; intros i w HR (Hst & Hn & Hv) Hbelow Hlen; [done|]. cbn [flush_all_ro].
  assert (last_l0_stamp (tree w) < U128_MAX) as Hlast by (unfold U128_MAX, LIMIT in *; lia).
  pose proof (reps_flush_ro A (io i) i w HR Hlast Hbelow) as Hf. destruct (flush_ro_good (io i) i w (reps_inv A w HR) Hlast (Hgood i)) as [Hok Hset].
  destruct (flush_ro_memtable_to_level0 (io i) i w) as [r w1]. cbn [fst snd] in Hok, Hset. subst r.
  destruct Hf as (HR1 & Hb1 & Hlen1 & Uv & Uc & Um & Hl1). destruct (IH (S i) w1) as [Hok' Hset'].
  - done.
  - assert (from_option ro_version 0 (read_only_memtables (tree w) !! i) ≤ LIMIT) as Hver.
    { destruct (read_only_memtables (tree w) !! i) as [ro|] eqn:E; [|done]. cbn. pose proof (reps_versions A w HR ro ltac:(by eapply list_elem_of_lookup_2)). lia. }
    specialize (Hclock i). unfold room. rewrite Uv. unfold LIMIT in *. split_and!; lia.
  - by apply Hb1.
  - rewrite Hlen1. lia.
  - split; [done|]. intros Hs. by apply Hset', Hset.
Qed.

Lemma seal_settled w : Inv w → settled w → settled (flush_memtable w).
Proof using All.
  intros Hw Hs. destruct (flush_memtable_ok w Hw) as (_ & _ & _ & _ & _ & _ & Hb & Hc & _ & Hd & _). unfold settled, bucket_at in *. by rewrite Hb, Hc, Hd.
Qed.

Lemma no_data_empty w k : Inv w → (0 <? mem_live (memtable (tree w))) || (0 <? mem_tombstones (memtable (tree w))) = false → active_copy (tree w) k = None.
Proof using All.
  intros Hw Hn. destruct (mem_counts _ (inv_wf w Hw)) as (Hc & Hl & Ht). apply orb_false_iff in Hn as [Hn1%Z.ltb_ge Hn2%Z.ltb_ge].
  unfold active_copy. assert (mem_content (memtable (tree w)) = []) as ->; [|done]. apply zlen_0_nil. lia.
Qed.

(** Everything is filed after a flush that answers that it is done. *)
Lemma flush_files_all A io se w : Reps A w → op_ok (Flush io se) A w → (flush_to_level0 io se w).1 = Ok tt →
  ∀ k, newest (stack (flush_to_level0 io se w).2 k) = None.
Proof using All.
  intros HR (Hclock & Hroom & Hv) Hok k. unfold flush_to_level0 in *.
  set (has := (0 <? mem_live (memtable (tree w))) || (0 <? mem_tombstones (memtable (tree w)))) in *.
  destruct (reps_maybe_seal A (has || se) w HR Hroom Hv) as [HR1 Hroom1]. set (w1 := if has || se then flush_memtable w else w) in *.
  assert (active_copy (tree w1) k = None) as Ha.
  { subst w1. destruct (has || se) eqn:E; [by apply (flush_memtable_inv w (reps_inv A w HR))|]. apply orb_false_iff in E as [E _]. apply no_data_empty; [apply HR|done]. }
  destruct (reps_flush_all A io _ Hclock 0 w1 HR1 Hroom1) as (_ & _ & Um & Hall); [intros j r; lia|lia|]. specialize (Hall Hok).
  rewrite stack_ros. unfold active_copy in *. rewrite Um, Ha, join_None_l. destruct (all_flushed _ Hall) as [_ ->]. done.
Qed.

(** A flush that is let through succeeds and leaves the directory settled. *)
Lemma flush_good A io se w : Reps A w → op_ok (Flush io se) A w → (∀ i, good_io (io i)) → settled w →
  (flush_to_level0 io se w).1 = Ok tt ∧ settled (flush_to_level0 io se w).2.
Proof using All.
  intros HR (Hclock & Hroom & Hv) Hgood Hset. unfold flush_to_level0 in *.
  destruct (reps_maybe_seal A ((0 <? mem_live (memtable (tree w))) || (0 <? mem_tombstones (memtable (tree w))) || se) w HR Hroom Hv) as [HR1 Hroom1].
  destruct (flush_all_good A io _ Hclock Hgood 0 _ HR1 Hroom1) as [Hok Hs]; [intros j r; lia|lia|]. split; [done|]. apply Hs.
  destruct (_ || se); [by apply seal_settled; [apply HR|]|done].
Qed.
End durable.
