(* ===== verification/LsmTables.v ===== *)
(** * LsmTables: the parts of the tree against their references

    The memtable is an ordered map, a table file is the list of entries written to it, the
    walks over a table visit what a plain pass would, and the merge of two tables is the
    merge of two maps. *)
From stdpp Require Import functions.
From S2P Require Import Prelude Slices Bytes OrdMap Keys LsmFilters SsTable FrameReader SsTableSpec FrameReaderSpec SkipList SkipListSpec.
From S2P Require Import MemTable LsmTree LsmCompact LsmReads LsmMerges.

(** ** The code outside the source, for running the tree on examples

    One instance of each interface the tree is parametric in: a checksum, an encoding of
    table entries with fields of fixed width, a hash, a target and a directory order. *)

#[export] Instance sum_crc : Crc := λ b, foldr Z.add 0 b mod 2 ^ 32.
#[export] Instance sum_crc_laws : CrcLaws.
Proof. intros b. apply Z.mod_pos_bound. lia. Qed.

#[export] Instance sum_murmur : Murmur3 := λ seed b, (seed + foldr Z.add 0 b) mod 2 ^ 64.
#[export] Instance sum_murmur_laws : Murmur3Laws.
Proof. intros seed b. apply Z.mod_pos_bound. lia. Qed.

#[export] Instance scalar_cpu : CompareCpu := Portable.

#[export] Instance ascending_order : DirOrder := elements.
#[export] Instance ascending_order_laws : DirOrderLaws.
Proof. intros s. done. Qed.

#[export] Instance fixed_rkyv : RkyvSst := {
  sst_encode e := le_bytes 8 (sst_key_prefix e) ++ le_bytes 16 (sst_value e) ++ le_bytes 8 (sst_seq e) ++ (if sst_tombstone e then 1 else 0) :: sst_key e;
  sst_access b := mk_entry (drop 33 b) (le_value (take 8 b)) (le_value (take 16 (drop 8 b))) (default 0 (b !! 32%nat) =? 1) (le_value (take 8 (drop 24 b))) }.
#[export] Instance fixed_rkyv_laws : RkyvSstLaws.
Proof.
  intros [k p v t s] (_ & Hp & Hv & Hs). cbn [sst_key sst_key_prefix sst_value sst_tombstone sst_seq] in *.
  cbn [sst_access sst_encode fixed_rkyv sst_key sst_key_prefix sst_value sst_tombstone sst_seq].
    set (a := le_bytes 8 p). set (b := le_bytes 16 v). set (c := le_bytes 8 s). set (x := (if t then 1 else 0)).
    assert (length a = 8%nat ∧ length b = 16%nat ∧ length c = 8%nat) as (Ha & Hb & Hc) by (subst a b c; by rewrite !le_bytes_length).
    replace 33%nat with (8 + (16 + (8 + 1)))%nat by lia. rewrite <-!drop_drop. rewrite (drop_app_length' a) by done.
    replace 24%nat with (8 + 16)%nat by lia. rewrite <-drop_drop, (drop_app_length' a), (drop_app_length' b), (drop_app_length' c) by done.
    rewrite !take_app_length' by done. rewrite lookup_app_r by lia. rewrite lookup_app_r by lia. rewrite lookup_app_r by lia. rewrite Ha, Hb, Hc. cbn [Nat.sub lookup list_lookup default from_option id drop].
    unfold u64, u128 in *. subst a b c x. rewrite !le_value_bytes by (cbn; lia). by destruct t.
Qed.

(** ** The parts of the tree against their references *)

(** ** The memtable *)

Inductive MemWrite := Put (k : key) (value seq : Z) | Remove (k : key) (seq : Z).

Section memtable.
Context `{CompareCpu}.

Definition written_key (op : MemWrite) : key := match op with Put k _ _ | Remove k _ => k end.

(** A write to the skip list, and to the map it stands for when the list has room. *)
Definition skip_write (s : SkipList) (op : MemWrite) : bool * SkipList :=
  match op with
  | Put k v seq => let '(r, s) := try_insert_with_seq s k v seq in (is_ok r, s)
  | Remove k seq => let '(r, s) := insert_tombstone_with_seq s k seq in (is_ok r, s)
  end.
Definition map_write (op : MemWrite) (m : run) : run :=
  match op with Put k v seq => put_copy k v seq m | Remove k seq => delete_copy k seq m end.

Definition both_write (p : SkipList * run) (op : MemWrite) : SkipList * run :=
  let '(ok, s) := skip_write p.1 op in (s, if ok then map_write op p.2 else p.2).
Definition both_writes (capacity : Z) (ops : list MemWrite) : SkipList * run := foldl both_write (with_capacity capacity, []) ops.

Lemma both_writes_content capacity ops : Forall (λ op, Forall byte (written_key op)) ops →
  mem_wf (both_writes capacity ops).1 ∧ mem_content (both_writes capacity ops).1 = (both_writes capacity ops).2.
Proof using.
  unfold both_writes. induction ops as [|op ops IH] using rev_ind; intros Hops.
  - destruct (mem_new_ok (M := SkipList) capacity) as [Hwf Hc]. by split.
  - apply Forall_app in Hops as [Hops Hop]. apply Forall_cons in Hop as [Hop _]. rewrite foldl_app. cbn [foldl]. destruct (IH Hops) as [Hwf Hc].
    set (p := foldl _ _ _) in *. unfold both_write. destruct op as [k v seq|k seq]; cbn [skip_write written_key map_write] in *.
    + pose proof (mem_insert_ok (M := SkipList) p.1 k v seq Hwf Hop) as Hi. cbn [mem_insert skip_list_memtable] in Hi.
      destruct (try_insert_with_seq p.1 k v seq) as [r s]. cbn [fst snd]. rewrite <-Hc. exact Hi.
    + pose proof (mem_delete_ok (M := SkipList) p.1 k seq Hwf Hop) as Hi. cbn [mem_delete skip_list_memtable] in Hi.
      destruct (insert_tombstone_with_seq p.1 k seq) as [r s]. cbn [fst snd]. rewrite <-Hc. exact Hi.
Qed.

(** C11: Whatever keys are written and deleted, in whatever order of sequences, and wherever
    the arenas were full, the skip list is an ordered map in which the highest sequence of
    each key wins: lookups, iteration from a key and in full, the records sealed for a
    flush and the counts all agree with it. *)
Theorem skip_list_refines_map capacity ops : Forall (λ op, Forall byte (written_key op)) ops →
  let '(s, m) := both_writes capacity ops in
  om_wf m ∧ (∀ k, Forall byte k → entry s k = om_get k m) ∧ iter_raw s = record_of <$> m ∧
  (∀ k, Forall byte k → iter_raw_from s k = record_of <$> filter (λ p, key_le k p.1 = true) m) ∧
  collect_key_value_records s = record_of <$> filter (λ p, p.1 ≠ []) m ∧
  no_live_nodes s + no_tombstone_nodes s = zlen m.
Proof using.
  intros Hops. destruct (both_writes_content capacity ops Hops) as [Hwf Hc]. destruct (both_writes capacity ops) as [s m]. cbn [fst snd] in *. subst m. split_and!.
  - by apply mem_content_wf.
  - intros k Hk. exact (mem_entry_ok s k Hwf Hk).
  - exact (mem_iter_ok s Hwf).
  - intros k Hk. exact (mem_iter_from_ok s k Hwf Hk).
  - exact (mem_records_ok s Hwf).
  - apply (mem_counts s Hwf).
Qed.
End memtable.

Definition example_writes : list MemWrite := [Put [2] 20 5; Put [1] 10 6; Remove [2] 7; Put [2] 21 4; Put [3] 30 8].

Lemma skip_list_refines_map_witness : om_get [2] (both_writes 16 example_writes).2 = Some (20, 7, true) ∧ entry (both_writes 16 example_writes).1 [2] = Some (20, 7, true).
Proof.
  assert (Forall (λ op, Forall byte (written_key op)) example_writes) as Hops.
  { unfold example_writes. rewrite !Forall_cons, Forall_nil. cbn [written_key]. rewrite !Forall_singleton. by split_and!. }
  assert (Forall byte [2]) as Hb by by apply Forall_singleton.
  assert (om_get [2] (both_writes 16 example_writes).2 = Some (20, 7, true)) as Hm by by vm_compute.
  pose proof (skip_list_refines_map 16 example_writes Hops) as Ht. destruct (both_writes 16 example_writes) as [s m]. destruct Ht as (_ & He & _).
  split; [exact Hm|]. etrans; [exact (He [2] Hb)|exact Hm].
Defined.

(** ** Tables *)

Section tables.
Context `{CrcLaws, RkyvSstLaws, Murmur3}.

(** C12: A table of ascending entries is written with a header, a checksum on every frame and
    a sparse index; read back by position or in sequence it gives the entries; opened it
    gives their range, count, greatest sequence, filter and index; and a lookup gives the
    entry of the key whatever offset it is told to start from, so long as that is no
    offset inside the frames that happens to pass for one. *)
Theorem sorted_table_exact es : Forall entry_ok es → es_sorted es → es ≠ [] →
  ∃ size, write_merged_sstable es = Ok (table es, (default [] (sst_key <$> head es), default [] (sst_key <$> last es), zlen es, size, table_index es)) ∧
    validate_sstable_header (table es) = Ok tt ∧
    read_sstable_entries_from_file (table es) = Ok es ∧ read_sstable_entries_from_path (Some (table es)) = Ok es ∧
    load_metadata_from_file (table es) = Ok (table_meta es, table_bloom es, si_some (table_index es), newest_of es) ∧
    (∀ k, lookup_in_sstable_file_from (table es) k (block_start (table_index es) k) = Ok (ss_find k es)) ∧
    ∀ k start, hint_sound es k start → lookup_in_sstable_file_from (table es) k start = Ok (ss_find k es).
Proof using All.
  intros He Hs Hne.
  assert (∀ k start, hint_sound es k start → lookup_in_sstable_file_from (table es) k start = Ok (ss_find k es)) as Hl.
  { intros k start Hh. unfold lookup_in_sstable_file_from. by rewrite lookup_hinted_table. }
  pose proof (write_entries_bytes es 0 SSTABLE_DATA_START []) as [Hb Ho]. pose proof (write_entries_index es 0 SSTABLE_DATA_START []) as Hi.
  exists (zlen (frames es)). split_and!; try done.
  - unfold write_merged_sstable. destruct es as [|e es]; [done|]. destruct (last (e :: es)) as [x|] eqn:El; [|by apply last_None in El].
    destruct (write_entries _ _ _ _) as [[bytes idx] o]. cbn [fst snd] in *. subst. cbn [head fmap option_fmap option_map default from_option id].
    replace (SSTABLE_DATA_START + zlen (frames (e :: es)) - SSTABLE_DATA_START) with (zlen (frames (e :: es))) by lia. done.
  - apply validate_table.
  - by apply read_from_file_table.
  - by apply read_from_path_table.
  - by apply load_table.
  - intros k. by apply Hl, index_hint_sound.
Qed.

(** C22: The buffered walks over a table, which read ahead and jump along the sparse index,
    visit what a pass over all its entries would: of a range, the entries in it up to the
    live one that fills the limit; of a batch of keys, every entry that has one of them; of
    a set of prefixes, the entries that start with one of them. *)
Theorem table_walks_exact es : Forall entry_ok es → es_sorted es →
  (∀ start end_ max_live, for_each_l1_entry_in_range (table es) (si_some (table_index es)) start end_ max_live = Ok (range_entries start end_ max_live es)) ∧
  (∀ cands, cands_sorted cands → (∀ c, c ∈ cands → hint_sound es c.1 c.2) →
     ∃ vis rej, scan_sorted_candidates (table es) cands = Ok (vis, rej) ∧ batch_result es cands vis) ∧
  (∀ ids, ids_sorted ids → (∀ p, p ∈ ids → u32 p.1 ∧ hint_sound es (id_key p.1) p.2) →
     for_each_entry_in_prefixes (table es) ids = Ok (filter (λ e, wants ids e = true) es)).
Proof using All.
  intros He Hs. split_and!.
  - intros start end_ m. apply range_table; [done|done|]. assert (from_option (λ i, block_start i start) 0 (si_some (table_index es)) = block_start (table_index es) start) as ->
      by (by destruct (table_index es)). by apply index_hint_sound.
  - intros cands Hc Hh. by apply scan_candidates_table.
  - intros ids Hi Hh. by apply prefixes_table.
Qed.
End tables.

Definition example_entries : list SStableEntry :=
  (λ p : key * copy, mk_entry p.1 (key_prefix_of p.1) p.2.1.1 p.2.2 p.2.1.2) <$> [([0; 0; 0; 1; 9], (7, 1, false)); ([0; 0; 0; 2; 5], (8, 2, true)); ([0; 0; 0; 2; 6], (9, 3, false))].

Lemma example_entries_ok : Forall entry_ok example_entries ∧ es_sorted example_entries.
Proof.
  split.
  - unfold example_entries. cbn [fmap list_fmap]. rewrite !Forall_cons, Forall_nil. unfold entry_ok. cbn [fst snd sst_key]. rewrite !Forall_cons, Forall_nil. by vm_compute.
  - by repeat constructor.
Qed.

Lemma sorted_table_exact_witness : lookup_in_sstable_file_from (table example_entries) [0; 0; 0; 2; 6] 0 = Ok (Found 9 3).
Proof.
  destruct example_entries_ok as [He Hs]. destruct (sorted_table_exact example_entries He Hs) as (_ & _ & _ & _ & _ & _ & _ & Hl); [by vm_compute|].
  etrans; [apply Hl; by left|by vm_compute].
Defined.

Lemma table_walks_exact_witness : for_each_entry_in_prefixes (table example_entries) [(2, 0)] = Ok (drop 1 example_entries).
Proof.
  destruct example_entries_ok as [He Hs]. destruct (table_walks_exact example_entries He Hs) as (_ & _ & Hp). etrans; [apply Hp|by vm_compute].
  - by repeat constructor.
  - intros p ->%list_elem_of_singleton. split; [done|by left].
Defined.

(** ** The merge *)

(** C21: The merge of a bucket's Level 1 with newer entries, both ascending, is ascending; it
    holds of each key the copy with the higher sequence, the newer entry's when they are
    equal; and of a key whose copy is a deletion it holds nothing. *)
Theorem two_way_merge_correct (m1 m2 : run) : om_wf m1 → om_wf m2 →
  ∃ mg : run, two_way_merge (ent <$> m1) (record_of <$> m2) = ent <$> mg ∧ om_wf mg ∧ (∀ k c, (k, c) ∈ mg → c.2 = false) ∧
    ∀ k, cand mg k = match join (cand m2 k) (cand m1 k) with Some (Some ptr, seq) => Some (Some ptr, seq) | _ => None end.
Proof.
  intros H1 H2. destruct (two_way_merge_ok m1 m2 H1 H2) as (mg & He & Hm). exists mg. split_and!; [done|apply Hm|apply Hm|].
  intros k. rewrite (merged_cand _ _ _ Hm). by destruct (join _ _) as [[[]]|].
Qed.

Lemma two_way_merge_correct_witness :
  ∃ mg : run, two_way_merge (ent <$> [([1], (7, 1, false)); ([3], (8, 2, false))]) (record_of <$> [([1], (0, 5, true)); ([2], (9, 4, false))]) = ent <$> mg ∧
    cand mg [1] = None ∧ cand mg [2] = Some (Some 9, 4).
Proof.
  destruct (two_way_merge_correct [([1], (7, 1, false)); ([3], (8, 2, false))] [([1], (0, 5, true)); ([2], (9, 4, false))]) as (mg & He & _ & _ & Hc);
    [repeat constructor..|]. exists mg. split; [exact He|]. rewrite !Hc. by vm_compute.
Defined.
