(* ===== verification/LsmSpec.v ===== *)
(** * LsmSpec: what the tree promises

    The states a tree can reach, opened on an empty directory, through any operations and
    any answers of the system, and reopenings; and what holds in all of them. *)
From stdpp Require Import functions.
From S2P Require Import Prelude OrdMap Bytes Slices Keys LsmFilters SsTable SsTableSpec SkipList MemTable LsmTree LsmCompact LsmReads LsmFlushes LsmMerges LsmRefine LsmDurable LsmTables.

Section life.
Context `{CrcLaws, RkyvSstLaws, Murmur3Laws} {M : Type} `{MemTableLaws M} `{DirOrderLaws}.
Implicit Types (w : World M) (A : lastmap).
Local Open Scope minnal_scope.

Definition empty_disk : LsmDisk := mk_disk ∅ ∅ ∅.

(** [Reach cfg A w]: a tree can be [w] when the last writes are [A]. *)
Inductive Reach (cfg : LSMConfig) : lastmap → World M → Prop :=
  | reach_open w : open cfg empty_disk = Ok w → Reach cfg (λ _, None) w
  | reach_step A w op : Reach cfg A w → op_ok op A w → Reach cfg (spec_step op (step op w).1 A) (step op w).2
  | reach_reopen A w w' : Reach cfg A w → settled w → open (config (tree w)) (disk w) = Ok w' → Reach cfg (files_copy w) w'.

(** ** The first opening *)

Definition blank_bucket : Bucket := mk_bucket [] [] None None [] false.
Definition blank (cfg : LSMConfig) : World M :=
  mk_world (mk_tree (mem_new (skip_list_capacity cfg)) [] (replicate (Z.to_nat (num_buckets cfg)) blank_bucket) 0 0 [] 0 cfg) empty_disk [].

Lemma blank_bucket_at cfg b : bucket_at (tree (blank cfg)) b = blank_bucket.
Proof using.
  unfold bucket_at. cbn [tree blank buckets]. destruct (replicate _ _ !! _) as [bk|] eqn:E; [|done]. by apply lookup_replicate in E as [-> _].
Qed.

Lemma blank_files cfg k : files_copy (blank cfg) k = None.
Proof using All. unfold files_copy. rewrite blank_bucket_at. unfold l1_copy. change (sstable_file blank_bucket) with (@nil Z). by rewrite run_of_nil. Qed.

Lemma reps_blank cfg : 0 < num_buckets cfg ≤ 2 ^ 32 → Reps (λ _, None) (blank cfg) ∧ settled (blank cfg).
Proof using All.
  intros Hn. destruct (mem_new_ok (skip_list_capacity cfg)) as [Hwf Hnil]. split.
  - split; [split| | |].
    + done.
    + cbn. by rewrite length_replicate.
    + done.
    + cbn [tree blank memtable]. rewrite Hnil. apply run_ok_nil.
    + by intros ro ?%elem_of_nil.
    + intros b f _. rewrite blank_bucket_at. by intros ?%elem_of_nil.
    + intros b _. rewrite blank_bucket_at. exists []. split; [apply run_ok_nil|]. by rewrite decide_True.
    + intros b _. rewrite blank_bucket_at. constructor.
    + intros b f _. rewrite blank_bucket_at. by intros ?%elem_of_nil.
    + intros k. unfold lower_copy. rewrite blank_files. done.
    + done.
    + by intros ro ?%elem_of_nil.
    + intros k. exists None. unfold key_ok, stack. rewrite blank_files. unfold active_copy. cbn [tree blank memtable]. rewrite Hnil. split_and!; try (by left).
      * apply desc_cons. split; [intros; apply seq_ge_None_l|]. by repeat constructor.
      * done.
  - intros b _. rewrite blank_bucket_at. split_and!; [done|by intros f ?%elem_of_nil|]. intros name [file Hf]. done.
Qed.

Lemma reach_reps cfg A w : 0 < num_buckets cfg ≤ 2 ^ 32 → Reach cfg A w → Reps A w.
Proof using All.
  intros Hn. induction 1 as [w Ho|A w op _ IH Hop|A w w' _ IH Hs Ho].
  - destruct (reps_blank cfg Hn) as [HR Hset]. destruct (reps_open _ _ HR Hset) as (w1 & Ho1 & _ & Hall). cbn [tree blank config disk] in Ho1.
    rewrite Ho1 in Ho. injection Ho as <-. apply Hall. intros k. unfold stack, active_copy. cbn [tree blank memtable].
    destruct (mem_new_ok (skip_list_capacity cfg)) as [_ ->]. done.
  - by apply reps_step.
  - destruct (reps_open A w IH Hs) as (w1 & Ho1 & HR & _). rewrite Ho1 in Ho. by injection Ho as <-.
Qed.

(** ** Properties *)


(** C13: Summaries, filters, sparse indexes, sequence bounds and the short cut on the
    memtable only spare reads: the copy found is the newest of all the copies held in the
    memtable, the read-only memtables and every file read in full. *)
Theorem reads_prune_nothing cfg A w k : 0 < num_buckets cfg ≤ 2 ^ 32 → Reach cfg A w → Forall byte k →
  newest_copy w k = Ok (newest_held w k).
Proof using All. intros Hn HA%(reach_reps cfg A w Hn) Hk. apply newest_copy_held; [apply HA|done]. Qed.

End life.

(** ** An example *)

Definition example_cfg : LSMConfig := mk_config 70 2 8.
Definition good : FlushIo := mk_flush_io true (λ _, WriteOk) true 5.
Definition example_ops : list Op :=
  [Insert [1] 7 1; Insert [2] 8 2; Flush (λ _, good) false; Delete [1] 3; Insert [2] 9 4; FlushAndCompactAll (λ _, good) (λ _, NoFault); CleanupFiles].
Definition opened : World SkipList := match open example_cfg empty_disk with Ok w => w | Err _ => blank example_cfg end.

(** The last writes and the tree after operations. *)
Definition run_op (s : lastmap * World SkipList) (op : Op) : lastmap * World SkipList := (spec_step op (step op s.2).1 s.1, (step op s.2).2).
Definition run_ops (ops : list Op) : lastmap * World SkipList := foldl run_op (λ _, None, opened) ops.

Lemma one_byte_valid x : byte x → valid_key [x].
Proof.
  intros Hx. split_and!; [done|by apply Forall_singleton|]. intros v t s _. cbn [sst_encode fixed_rkyv sst_key].
  rewrite !zlen_app, !le_bytes_zlen, !zlen_cons. change (zlen [] : Z) with 0. lia.
Qed.

Lemma run_ops_reach ops : Forall (λ p, op_ok p.1 p.2.1 p.2.2) ((λ i, (default Seal (ops !! i), run_ops (take i ops))) <$> seq 0 (length ops)) →
  Reach example_cfg (run_ops ops).1 (run_ops ops).2.
Proof.
  induction ops as [|op ops IH] using rev_ind; intros Hops.
  - apply reach_open. by vm_compute.
  - rewrite length_app in Hops. cbn [length] in Hops. rewrite Nat.add_1_r, seq_S, fmap_app, Forall_app in Hops. destruct Hops as [Hops Hop].
    apply Forall_cons in Hop as [Hop _]. cbn [Nat.add fst snd] in Hop. rewrite lookup_app_r, Nat.sub_diag, take_app_length in Hop by lia. cbn [lookup list_lookup default from_option id] in Hop.
    unfold run_ops. rewrite foldl_app. fold (run_ops ops). cbn [foldl run_op fst snd]. apply reach_step; [|done]. apply IH.
    rewrite Forall_forall in *. intros p (i & -> & Hi%elem_of_seq)%list_elem_of_fmap. apply (Hops (default Seal (ops !! i), run_ops (take i ops))).
    apply list_elem_of_fmap. exists i. rewrite lookup_app_l, take_app_le by lia. split; [done|]. apply elem_of_seq. lia.
Qed.

Lemma example_ops_ok : Forall (λ p, op_ok p.1 p.2.1 p.2.2) ((λ i, (default Seal (example_ops !! i), run_ops (take i example_ops))) <$> seq 0 (length example_ops)).
Proof.
  repeat constructor; cbn [fst snd default from_option id example_ops lookup list_lookup op_ok].
  all: try (by apply one_byte_valid).
  all: try (by vm_compute).
  all: intros v s; vm_compute; by intros [= <- <-].
Qed.

Lemma example_buckets : 0 < num_buckets example_cfg ≤ 2 ^ 32.
Proof. by vm_compute. Qed.

Lemma example_reach : Reach example_cfg (run_ops example_ops).1 (run_ops example_ops).2.
Proof. apply run_ops_reach, example_ops_ok. Qed.


Lemma example_prefix_reach n : Reach example_cfg (run_ops (take n example_ops)).1 (run_ops (take n example_ops)).2.
Proof.
  apply run_ops_reach. pose proof example_ops_ok as Hok. rewrite Forall_forall in *. intros p (i & -> & Hi%elem_of_seq)%list_elem_of_fmap.
  rewrite length_take in Hi. apply Hok, list_elem_of_fmap. exists i. rewrite lookup_take_lt, take_take by lia. replace (i `min` n)%nat with i by lia.
  split; [done|]. apply elem_of_seq. lia.
Qed.

Lemma reads_prune_nothing_witness : newest_copy (run_ops (take 5 example_ops)).2 [2] = Ok (newest_held (run_ops (take 5 example_ops)).2 [2]).
Proof.
  assert (Forall byte [2]) as Hb by by apply Forall_singleton.
  exact (reads_prune_nothing example_cfg (run_ops (take 5 example_ops)).1 (run_ops (take 5 example_ops)).2 [2] example_buckets (example_prefix_reach 5) Hb).
Defined.

Lemma example_settled : settled (run_ops (take 2 example_ops)).2.
Proof.
  assert (num_buckets (config (tree (run_ops (take 2 example_ops)).2)) = 2) as Hn by by vm_compute.
  assert (disk_l0 (disk (run_ops (take 2 example_ops)).2) = ∅) as Hd by by vm_compute.
  assert (∀ b, b = 0 ∨ b = 1 → level0_files (bucket_at (tree (run_ops (take 2 example_ops)).2) b) = []) as Hl by (intros b [-> | ->]; by vm_compute).
  assert (∀ b, b = 0 ∨ b = 1 → default [] (disk_l1 (disk (run_ops (take 2 example_ops)).2) !! b) = sstable_file (bucket_at (tree (run_ops (take 2 example_ops)).2) b)) as H1
    by (intros b [-> | ->]; by vm_compute).
  revert Hn Hd Hl H1. generalize (run_ops (take 2 example_ops)).2. intros w Hn Hd Hl H1 b Hb. rewrite Hn in Hb. assert (b = 0 ∨ b = 1) as Hb' by lia.
  rewrite Hl, Hd by done. split_and!; [by apply H1|by intros f ?%elem_of_nil|]. intros name [file Hf]. by rewrite lookup_empty in Hf.
Qed.

